(* ===== verification/_CoqProject ===== *)
-Q . S2P
Prelude.v
Interference.v
JsString.v
JobStore.v
AsyncContract.v
AsyncJobs.v
AsyncJobsSafety.v
CrawlJobs.v
CrawlJobsSafety.v
Digest.v
UploadIntent.v
UploadIntentSafety.v
JsMap.v
ArtifactLifecycle.v
ArtifactLifecycleSafety.v
UrlPolicy.v
SearchBudget.v
SearchBudgetSafety.v
SearchSelect.v
ProviderHealth.v
SearchFusion.v
ProviderCalls.v
ProviderRouter.v
Routers.v
ProviderRouterSafety.v
SearchRouter.v
SearchRouterSafety.v
ContentPagination.v
Limits.v
Json.v
DurableStore.v
DurableEffects.v
DurableEffectsSafety.v
DocumentCache.v
DocumentCacheSafety.v
DurableDocumentCache.v
DurableDocumentCacheSafety.v
DurableCacheSweep.v
DurableCacheTyping.v
StatefulResources.v
CorpusContract.v
Corpora.v
CorporaSafety.v
CorpusEffects.v
SchemaContract.v
SchemaExtraction.v
SchemaExtractionSafety.v
SchemaRun.v
DurableUpload.v
DurableUploadSafety.v
Base64Url.v
WorkerHttp.v
WorkerAuth.v
ManagedTokens.v
ManagedTokensSafety.v
D1ManagedStore.v
InternalContext.v
InternalContextSafety.v
AdminCredentials.v
McpRouting.v
WorkerHandler.v
DurableMcpTasks.v
DurableMcpTasksSafety.v
SqlDurableStores.v
SqlDurableStoresSafety.v
RecordFamily.v
DurableDocumentJobs.v
DurableDocumentJobsSafety.v
DurableArtifacts.v
DurableArtifactsSafety.v
ExternalOutputs.v
DocumentDispatcher.v
DocumentResultText.v
DurableDocumentOutput.v
DurableDocumentOutputSafety.v
CanonicalDocument.v
CanonicalDocumentSafety.v
DocumentAsync.v
DocumentAsyncSafety.v
DocumentExecution.v
