(* ===== verification/Prelude.v ===== *)
(** * Groundlane: a verification development of its core runtimes

    Groundlane (the repository's [README.md]) is a remote MCP server: tools
    that search the web, fetch and convert documents, crawl sites and keep
    corpora, in front of third-party providers.  Its own logic is in
    [src/core] and, for who may call it, in [src/worker]; around them are HTTP
    clients and storage drivers ([src/adapters]), tool handlers ([src/tools]),
    the protocol server ([src/mcp]), the process entry point
    ([src/container]) and the wiring ([src/composition.ts],
    [src/config.ts]).  This library models the parts listed below and proves
    what makes them correct.

    ** The program's parts and how they meet

    A request enters the worker (handler.ts): it is authenticated as the
    administrator, a managed credential or an OAuth client (auth.ts,
    managed-tokens.ts, oauth.ts), its routing headers are compared with its
    body (mcp-routing.ts), and what the edge does not answer goes to the
    container with a signed context instead of the credential
    (internal-context.ts).

    A tool call is checked, given a deadline and a slot (limits.ts), and
    handed to a router.  A router picks providers by capability, health
    (provider-health.ts), family (search-selector.ts), filters
    (domain-filter-validation.ts) and remaining budget (search-budget.ts),
    calls them in turn or at once, and merges the answers
    (search-fusion.ts).  A URL the server is asked to contact passes the URL
    policy first (url-policy.ts).

    Documents come in through upload intents (upload-intent.ts, or
    durable-upload-flow.ts), are converted to a canonical envelope
    (canonical-document.ts), are cached (document-cache-contract.ts,
    durable-document-cache.ts) and live on as artifacts
    (artifact-lifecycle.ts, durable-artifacts.ts, durable-document-output.ts)
    or in corpora (corpus-runtime.ts).

    Long work runs as jobs.  In one process: the async job manager
    (async-lifecycle.ts), the crawl runtime (crawl-jobs.ts) and the document
    execution manager (document-execution.ts).  Shared by
    many workers: MCP tasks (durable-mcp-tasks.ts) and document jobs
    (durable-document-jobs.ts, with the dispatcher and the runtime of
    document-async-*.ts).  These keep JSON records in a durable store with
    compare-and-swap (durable-store.ts and its SQL implementations), and call
    what must not be repeated through a journal of effects
    (durable-effects.ts).

    ** Files, and the code they model

    Foundations:
    - Prelude (this file): record update, errors ([errors.ts]), the result
      type and the state-and-exception monad [M] with its [wp] rules,
      JavaScript numbers, dates and untyped values, shared tactics.
    - Interference: operations that take effect at one instant among other
      parties, a scripted shared state for concrete runs, and the rules
      ([moves]) for computations that only move a shared state forward.
    - JsString: strings, the regular expressions used, decimal digits.
      JsMap: a [Map], in insertion order.  Json: [JSON.stringify] and
      [JSON.parse] with their round trip.  Digest: bytes and SHA-256.
      Base64Url: the encoder and decoder of the worker.

    Jobs in one process:
    - JobStore: the store interface of both job runtimes, a class with laws,
      and its in-memory implementation.
    - AsyncContract, AsyncJobs, AsyncJobsSafety: [async-lifecycle.ts].
    - CrawlJobs, CrawlJobsSafety: [crawl-jobs.ts].
    - DocumentExecution: [document-execution.ts], with its theorems.

    Uploads, artifacts, sessions:
    - UploadIntent, UploadIntentSafety: [upload-intent.ts].
    - ArtifactLifecycle, ArtifactLifecycleSafety: [artifact-lifecycle.ts] and
      [artifact-retention-policy.ts].
    - StatefulResources: [stateful-resources.ts], with its theorems.

    Searching and routing:
    - UrlPolicy: [url-policy.ts].  ContentPagination:
      [content-pagination.ts].  Limits: [limits.ts].  SearchSelect:
      [search-provider-catalog.ts], [search-provider-profile.ts],
      [search-selector.ts] and [domain-filter-validation.ts].
      ProviderHealth: [provider-health.ts].  SearchFusion:
      [search-fusion.ts].  Each with its theorems.
    - SearchBudget, SearchBudgetSafety: [search-budget.ts], the trackers as
      instances of a class with laws, and their composition.
    - ProviderCalls: the state routers run on, one provider call, and
      [Promise.all] over several.  ProviderRouter: the algorithm that the
      seven routers share.  Routers: [answer-router.ts],
      [research-router.ts], [content-router.ts], [map-router.ts],
      [crawl-router.ts], [news-router.ts] and [images-router.ts] as instances.
      ProviderRouterSafety: theorems about all of them at once.
    - SearchRouter, SearchRouterSafety: [search-router.ts].

    Schema extraction and corpora:
    - SchemaContract: [schema-extraction-contract.ts].  SchemaExtraction,
      SchemaExtractionSafety, SchemaRun: [schema-extraction-runtime.ts].
    - CorpusContract: [corpus-contract.ts].  Corpora, CorporaSafety,
      CorpusEffects: [corpus-runtime.ts].

    The durable store and what is kept in it:
    - DurableStore: [durable-store.ts] and [immutable-blob.ts], the
      interfaces as classes with laws ([DurableStoreLaws]) and the in-memory
      store.  SqlDurableStores, SqlDurableStoresSafety: the D1 and SQLite
      stores ([worker/d1-durable-store.ts],
      [adapters/state/sqlite-durable-store.ts]) and their refinement of it.
    - DurableEffects, DurableEffectsSafety: [durable-effects.ts].
    - RecordFamily: what a component that keeps one record per object beside
      the journal promises of its records, as a class, with the rules that
      follow; instances in DurableDocumentJobsSafety and DocumentAsyncSafety.
    - DocumentCache, DocumentCacheSafety: [document-cache-contract.ts].
      DurableDocumentCache, with DurableDocumentCacheSafety,
      DurableCacheSweep and DurableCacheTyping: [durable-document-cache.ts].
    - DurableUpload, DurableUploadSafety: [durable-upload-flow.ts].
    - DurableArtifacts, DurableArtifactsSafety, ExternalOutputs:
      [durable-artifacts.ts].
    - DurableDocumentOutput, DurableDocumentOutputSafety:
      [durable-document-output.ts].  DocumentResultText:
      [document-result-text.ts].
    - DurableMcpTasks, DurableMcpTasksSafety: [durable-mcp-tasks.ts] and
      [mcp-tasks.ts].
    - DurableDocumentJobs, DurableDocumentJobsSafety:
      [durable-document-jobs.ts] and [durable-document-executor.ts].
    - DocumentDispatcher: [document-async-dispatcher.ts].
    - CanonicalDocument, CanonicalDocumentSafety: [canonical-document.ts] and
      [canonical-document-schema.ts].
    - DocumentAsync, DocumentAsyncSafety: [document-async-runtime.ts] and
      [document-async-artifacts.ts].

    The worker:
    - WorkerHttp: requests and responses ([worker/http.ts]).  WorkerAuth:
      [worker/auth.ts].  McpRouting: [mcp-routing.ts] and its use at the
      edge.
    - ManagedTokens, ManagedTokensSafety: [worker/managed-tokens.ts].
      D1ManagedStore: [worker/d1-managed-store.ts].  AdminCredentials:
      [worker/admin-credentials.ts].
    - InternalContext, InternalContextSafety: [worker/internal-context.ts].
    - WorkerHandler: [worker/handler.ts] and the API handler of
      [worker/oauth.ts].

    A definition has the name of the function, method or type it models, or
    says in its comment what it stands for.  A class is a record of its
    mutable fields; a method is a function in [M] over that record, or over
    any state [S] behind the interfaces it uses, with the guards in the order
    of the code.  A [throw] keeps what was written before it.  Messages and
    hint texts are the code's.

    ** What the theorems show

    - Isolation: a job, upload, task or artifact reacts only to its owner,
      under its credential, before its expiry ([async_isolation],
      [crawl_isolation], [foreign_task_is_refused],
      [artifact_read_is_authorized], [artifact_read_integrity]).
    - Evolution: over any sequence of calls, in the durable components among
      other workers of their kind, whatever calls fail, on a store whose calls
      answer for one instant, identities are fixed, states only advance and
      final states are final ([async_jobs_evolve],
      [crawl_jobs_evolve], [execution_jobs_only_move_forward],
      [durable_tasks_only_move_forward],
      [document_jobs_only_move_forward], [dispatches_only_move_forward],
      [artifacts_only_move_forward], [upload_records_only_move_forward],
      [corpora_only_move_forward], [managed_credentials_move_forward],
      [journal_keeps_state_machine]).
    - Revocation is final: [revoked_artifact_is_never_read],
      [revoked_source_accepts_no_output], [revoked_source_shows_no_result],
      [cancelled_dispatch_does_no_work], [revoked_token_never_authenticates];
      in the cache until the index of the source expires
      ([revoked_source_stays_out]), and for an output with a reservation until
      that expires ([deleted_output_is_never_read]).
    - Once only: [effect_claimed_at_most_once], [task_creation_is_asked_once],
      [document_effects_are_asked_once], [document_is_submitted_once],
      [paid_call_once], [upload_intent_single_use], [credential_rotates_once].
    - Integrity and round trips: [upload_finalized_is_verified],
      [artifact_read_is_intact], [parsed_envelope_round_trips],
      [structured_projection_is_lossless], [projections_show_each_block_once],
      [pages_cover_content], [text_pages_cover_projection],
      [base64url_roundtrip], [JSON_roundtrip].
    - Transparency and refinement: a cache changes no answer of requests whose
      result the text of their key determines ([cache_is_transparent]) and
      fails none ([cache_faults_never_fail_processing]); the SQL stores, alone
      on their database, do what the in-memory ones do
      ([sql_stores_refine_memory], [d1_store_refines_rows]).
    - Bounds: [crawl_budgets_never_exceeded], [period_budget_never_overspent],
      [minute_window_never_exceeded], [limiter_bounds_and_fairness],
      [projection_stays_within_bounds], [schema_accepted_iff].
    - Routing: what a router reports is what it did
      ([search_reports_what_ran], [route_reports_what_ran]), it escalates only
      on failure ([search_escalates_only_on_failure],
      [fallback_stops_at_first_answer]), and health, selection and filters
      decide as they should ([circuit_open_iff],
      [selection_is_full_and_diverse], [domain_filter_gate]).
    - Authentication: [data_plane_is_authenticated],
      [container_sees_the_principal], [internal_context_verified_iff],
      [managed_authentication_iff], [admin_changes_are_audited].
    - Safety of destinations: [resolved_destination_is_public].
    - Termination: [job_reads_terminate], [job_loops_terminate],
      [sweep_terminates], [undisturbed_update_takes_one_round].
    - Behaviour the code has and its comments do not say, among others:
      [cancelled_artifact_keeps_bytes], [container_uploads_never_complete],
      [unrepresentable_expiry_orphans_task], [submillisecond_ttl_orphans_crawl],
      [idempotent_reuse_can_cross_owners], [recovered_output_can_be_deleted],
      [overlapping_cell_is_lost], [unreadable_span_is_lost],
      [colliding_keys_share_a_result], [swept_revocation_is_forgotten],
      [d1_poll_undoes_cancellation], [d1_backdated_write_is_lost].

    ** Parameters

    What is not the program's is an argument, a class or a hypothesis: the
    providers, execution ports and task providers (any computation on the
    shared state), the order in which pending calls end, clocks, timers,
    abort signals and their reasons, [randomUUID] and random bytes, the URL
    and IP parsers ([UrlApi], [RequestUrls]), the DNS resolver, SHA-256
    ([Sha256Api]) and HMAC ([HmacApi]), base64, the text of a fraction
    ([NumberText]), the SDK's classifier of requests ([McpClassifier]), the
    services behind the worker ([DataPlane]), the databases ([D1Database],
    [DurableDatabase]) that run the statements, index backends, and the
    locale's string order.

    The durable components are proved against [DurableStoreLaws]: each
    operation of the store takes effect at one instant, the other parties act
    before it as [env] allows, and a call may fail before or after its effect.
    A theorem says what it asks of the others, mostly that they move records
    of the same kind as this program does.  D1 answers a write by a second
    read, so what it returns may be a later record, and it has not these laws:
    what its answers tell among other writers is
    [d1_write_answers_tell_effect], and [d1_poll_undoes_cancellation] shows
    what can come of it.  Every hypothesis of a theorem
    is met by a concrete instance in its witness.

    ** Fuel

    The federation loop runs on the number of providers left ([federate_fuel]
    shows it is enough); [Promise.all] on the number of pending calls; page
    searches on the length of their interval; [get_loop] of document jobs on
    five rounds, which are enough ([job_reads_terminate]); the expiring and
    cancelling loops of DocumentAsync on [rounds], of which four are enough
    ([job_loops_terminate]), and its update loop too, of which one is enough
    where nobody else writes that record; a lock-free loop under endless
    conflict has no bound, and the safety theorems hold for every [rounds].
    Loops of 4, 8, 16 or 100 attempts are the code's own limits.  All other
    recursion is structural.

    ** Limits of the model

    Strings have code units 0 to 255, so surrogate pairs do not arise; texts
    that are decoded from bytes are such strings.  [number] is exact, without
    the rounding of doubles; scores, weights and penalties, where rounding
    shows, are binary64 floats.  Numbers in stored JSON are integers, and the
    properties of a JSON object that is written come in the order of the
    type's declaration.  A synchronous call reads the clock once.  Object
    literals are looked up by their own properties only.  Error causes and
    the unused [localized] texts are left out.  [Deadline.signal] only wires
    timers; what an operation goes on to do after its deadline
    ([withinDeadline], the drain of the dispatcher) is another party's.

    ** Not modelled

    Of [src/core]: the persistence of corpora (its rules are modelled in
    memory, the store it uses is modelled), the detection and conversion of
    document formats and the rendering of HTML (third-party parsers), the
    provider registry and capability tables (configuration), the fetch
    pipeline, and the logs.  Adapters, tools, the protocol server, the
    container, the worker's bindings and pages, and the wiring are input and
    output around this core. *)

From stdpp Require Export base tactics option list list_numbers gmap strings pretty.
From stdpp Require Import fin_maps.
From Stdlib Require Export ZArith Lia Ascii.

#[global] Set Default Goal Selector "!".

(** ** Automation and hint databases *)

Create HintDb groundlane discriminated.

(** Split every [if] and [match] the goal or the context is stuck on. *)
Ltac case_all := repeat (case_match || case_decide || case_bool_decide).

(** Turn boolean tests in the context into propositions. *)
Ltac reflect :=
  repeat match goal with
  | H : _ && _ = true |- _ => apply andb_true_iff in H as [? ?]
  | H : _ || _ = false |- _ => apply orb_false_iff in H as [? ?]
  | H : negb _ = true |- _ => apply negb_true_iff in H
  | H : negb _ = false |- _ => apply negb_false_iff in H
  | H : bool_decide _ = true |- _ => apply bool_decide_eq_true in H
  | H : bool_decide _ = false |- _ => apply bool_decide_eq_false in H
  | H : (_ <=? _)%Z = true |- _ => apply Z.leb_le in H
  | H : (_ <=? _)%Z = false |- _ => apply Z.leb_gt in H
  | H : (_ <? _)%Z = true |- _ => apply Z.ltb_lt in H
  | H : (_ <? _)%Z = false |- _ => apply Z.ltb_ge in H
  | H : (_ =? _)%Z = true |- _ => apply Z.eqb_eq in H
  | H : (_ =? _)%Z = false |- _ => apply Z.eqb_neq in H
  end.

(** ** Records with functional update, the code's [{ ...r, field: v }]

    [Updatable R] holds the eta-expanded constructor of [R]; the setter of a
    projection is found by abstracting that projection in it. *)

Class Updatable (R : Type) := { rebuild : R → R }.
Class Setter {R T : Type} (proj : R → T) := { modify : (T → T) → R → R }.

Ltac solve_setter :=
  lazymatch goal with
  | |- @Setter ?R ?T ?proj =>
      let c := constr:(_ : Updatable R) in
      let f := eval hnf in (@rebuild R c) in
      let g := eval pattern proj in f in
      lazymatch g with
      | ?h proj =>
          let s := eval cbv beta in
            (fun (u : T → T) (r : R) => h (fun r' => u (proj r')) r) in
          exact {| modify := s |}
      end
  end.

#[export] Hint Extern 0 (Setter _) => solve_setter : typeclass_instances.

Declare Scope record_scope.
Delimit Scope record_scope with record.
Open Scope record_scope.
Notation "r <| proj := v |>" := (modify (proj := proj) (fun _ => v) r)
  (at level 1, left associativity, format "r  <| proj  :=  v |>")
  : record_scope.

(** ** Errors: [src/core/errors.ts] *)

Inductive ErrorCode :=
  | INVALID_INPUT
  | URL_BLOCKED
  | DEADLINE_EXCEEDED
  | CANCELLED
  | OUTPUT_LIMIT
  | CONCURRENCY_LIMIT
  | PROVIDER_UNAVAILABLE
  | RATE_LIMITED
  | UPSTREAM_ERROR.

#[export] Instance ErrorCode_eq_dec : EqDecision ErrorCode.
Proof. solve_decision. Defined.

(** [localized] is never set by the program, so it is left out. *)
Record HintValue := { hintCode : string; hintText : string }.

#[export] Instance HintValue_eq_dec : EqDecision HintValue.
Proof. solve_decision. Defined.

Definition hint (code text : string) : HintValue :=
  {| hintCode := code; hintText := text |}.

(** [options] (the JS [cause]) is not kept. *)
Record GroundlaneError := {
  errCode : ErrorCode;
  errStage : string;
  errMessage : string;
  errRetryable : bool;
  errHint : option HintValue
}.

#[export] Instance GroundlaneError_eq_dec : EqDecision GroundlaneError.
Proof. solve_decision. Defined.

(** What a [throw] can carry: the program's own error class, an [Error] of a
    class with a code of its own ([ManagedTokenError]), any other [Error]
    (its message), a string, or some other value. *)
Inductive thrown :=
  | TGroundlane (e : GroundlaneError)
  | TCoded (code message : string)
  | TError (message : string)
  | TString (s : string)
  | TOther.

#[export] Instance thrown_eq_dec : EqDecision thrown.
Proof. solve_decision. Defined.

Definition toGroundlaneError (error : thrown) (stage : string) : GroundlaneError :=
  match error with
  | TGroundlane e => e
  | _ => {| errCode := UPSTREAM_ERROR; errStage := stage;
            errMessage := "The upstream operation failed";
            errRetryable := true; errHint := None |}
  end.

(** [new GroundlaneError(code, stage, message, retryable)] *)
Definition gerror (code : ErrorCode) (stage message : string) (retryable : bool) : thrown :=
  TGroundlane {| errCode := code; errStage := stage; errMessage := message;
                 errRetryable := retryable; errHint := None |}.

(** The same with a hint as last argument. *)
Definition gerror_hint (code : ErrorCode) (stage message : string) (retryable : bool)
    (h : HintValue) : thrown :=
  TGroundlane {| errCode := code; errStage := stage; errMessage := message;
                 errRetryable := retryable; errHint := Some h |}.

(** ** Results and stateful computations

    [result A] is a JS call that returns or throws.  [M S A] threads a
    mutable state [S]; as in JS, what was written before a [throw] stays
    written. *)

Inductive result (A : Type) :=
  | Ok (a : A)
  | Throw (e : thrown).
Arguments Ok {A} _.
Arguments Throw {A} _.

#[export] Instance result_eq_dec {A} `{EqDecision A} : EqDecision (result A).
Proof. solve_decision. Defined.

#[export] Instance result_ret : MRet result := λ A a, Ok a.
#[export] Instance result_bind : MBind result := λ A B f r,
  match r with Ok a => f a | Throw e => Throw e end.

Definition is_Ok {A} (r : result A) : Prop := ∃ a, r = Ok a.
Definition is_Throw {A} (r : result A) : Prop := ∃ e, r = Throw e.

(** [if (bad) throw e;] *)
Definition throw_if (bad : bool) (e : thrown) : result unit :=
  if bad then Throw e else Ok tt.

Definition M (S A : Type) : Type := S → result A * S.

#[export] Instance M_ret {S} : MRet (M S) := λ A a s, (Ok a, s).
#[export] Instance M_bind {S} : MBind (M S) := λ A B f m s,
  match m s with
  | (Ok a, s') => f a s'
  | (Throw e, s') => (Throw e, s')
  end.

Definition lift {S A} (r : result A) : M S A := λ s, (r, s).
Definition get {S} : M S S := λ s, (Ok s, s).
Definition put {S} (s : S) : M S unit := λ _, (Ok tt, s).
Definition gets {S A} (f : S → A) : M S A := λ s, (Ok (f s), s).
Definition update {S} (f : S → S) : M S unit := λ s, (Ok tt, f s).
Definition throw {S A} (e : thrown) : M S A := λ s, (Throw e, s).

(** [try { m } catch (e) { h e }] *)
Definition catch {S A} (m : M S A) (h : thrown → M S A) : M S A := λ s,
  match m s with
  | (Ok a, s') => (Ok a, s')
  | (Throw e, s') => h e s'
  end.

(** The outcome of [try { m }], for a [catch] that goes on with other work. *)
Definition attempt {S A} (m : M S A) : M S (A + thrown) := λ s,
  match m s with
  | (Ok a, s') => (Ok (inl a), s')
  | (Throw e, s') => (Ok (inr e), s')
  end.

Section monad_lemmas.
Context {S A B : Type}.
Implicit Types (m : M S A) (f : A → M S B) (s : S).

Lemma result_bind_Ok (r : result A) (f : A → result B) b :
  r ≫= f = Ok b ↔ ∃ a, r = Ok a ∧ f a = Ok b.
Proof. unfold mbind, result_bind. destruct r; naive_solver. Qed.

Lemma M_bind_Ok m f s b s' :
  (m ≫= f) s = (Ok b, s') ↔ ∃ a s1, m s = (Ok a, s1) ∧ f a s1 = (Ok b, s').
Proof. unfold mbind, M_bind. destruct (m s) as [[] ?]; naive_solver. Qed.

Lemma M_bind_Throw m f s e s' :
  (m ≫= f) s = (Throw e, s') ↔
  m s = (Throw e, s') ∨ ∃ a s1, m s = (Ok a, s1) ∧ f a s1 = (Throw e, s').
Proof. unfold mbind, M_bind. destruct (m s) as [[] ?]; naive_solver. Qed.

Lemma M_bind_run m f s a s1 :
  m s = (Ok a, s1) → (m ≫= f) s = f a s1.
Proof. unfold mbind, M_bind. by intros ->. Qed.

Lemma M_bind_fail m f s e s1 :
  m s = (Throw e, s1) → (m ≫= f) s = (Throw e, s1).
Proof. unfold mbind, M_bind. by intros ->. Qed.

Lemma lift_bind (r : result A) f s :
  (lift r ≫= f) s = match r with Ok a => f a s | Throw e => (Throw e, s) end.
Proof. by destruct r. Qed.

Lemma throw_if_Ok bad e u : throw_if bad e = Ok u ↔ bad = false.
Proof. destruct bad, u; naive_solver. Qed.
End monad_lemmas.

(** ** Symbolic execution

    [wp m Q s]: running [m] from [s] ends, returning or throwing, in a result
    and a state that satisfy [Q]. *)

Definition wp {S A} (m : M S A) (Q : result A → S → Prop) (s : S) : Prop :=
  Q (m s).1 (m s).2.

Section wp_rules.
Context {S A B : Type}.
Implicit Types (s : S) (Q : result A → S → Prop).

Lemma wp_ret Q a s : Q (Ok a) s → wp (mret a) Q s.
Proof. done. Qed.

Lemma wp_bind (m : M S B) (f : B → M S A) Q s :
  wp m (λ r s', match r with Ok b => wp (f b) Q s' | Throw e => Q (Throw e) s' end) s →
  wp (m ≫= f) Q s.
Proof. unfold wp, mbind, M_bind. by destruct (m s) as [[] ?]. Qed.

Lemma wp_lift (r : result A) Q s : Q r s → wp (lift r) Q s.
Proof. done. Qed.

(** A guard: the rest runs with the test known to be false. *)
Lemma wp_throw_if bad e (f : unit → M S A) Q s :
  (bad = true → Q (Throw e) s) → (bad = false → wp (f tt) Q s) →
  wp (lift (throw_if bad e) ≫= f) Q s.
Proof. unfold wp, mbind, M_bind, lift. destruct bad; cbn; auto. Qed.

Lemma wp_get (f : S → M S A) Q s : wp (f s) Q s → wp (get ≫= f) Q s.
Proof. done. Qed.

Lemma wp_gets (g : S → B) (f : B → M S A) Q s : wp (f (g s)) Q s → wp (gets g ≫= f) Q s.
Proof. done. Qed.

Lemma wp_update (f : S → S) (k : unit → M S A) Q s :
  wp (k tt) Q (f s) → wp (update f ≫= k) Q s.
Proof. done. Qed.

(** A bracketed call hands its outcome, whatever it is, to the rest. *)
Lemma wp_attempt (m : M S B) (f : B + thrown → M S A) Q s :
  wp m (λ r s', wp (f (match r with Ok b => inl b | Throw e => inr e end)) Q s') s →
  wp (attempt m ≫= f) Q s.
Proof. unfold wp, mbind, M_bind, attempt. by destruct (m s) as [[] ?]. Qed.

Lemma wp_lift_bind (r : result B) (f : B → M S A) Q s :
  (∀ b, r = Ok b → wp (f b) Q s) → (∀ e, r = Throw e → Q (Throw e) s) →
  wp (lift r ≫= f) Q s.
Proof. unfold wp, mbind, M_bind, lift. intros Hok Hthrow. by destruct r; [apply Hok|apply Hthrow]. Qed.

(** Whatever [m] does. *)
Lemma wp_bind_any (m : M S B) (f : B → M S A) Q s :
  (∀ b s', wp (f b) Q s') → (∀ e s', Q (Throw e) s') → wp (m ≫= f) Q s.
Proof. unfold wp, mbind, M_bind. intros Hok Hthrow. by destruct (m s) as [[] ?]; [apply Hok|apply Hthrow]. Qed.

Lemma wp_attempt_any (m : M S B) (f : B + thrown → M S A) Q s :
  (∀ r s', wp (f r) Q s') → wp (attempt m ≫= f) Q s.
Proof. unfold wp, mbind, M_bind, attempt. intros Hk. destruct (m s) as [[] ?]; apply Hk. Qed.

Lemma wp_throw e Q s : Q (Throw e) s → wp (throw e) Q s.
Proof. done. Qed.

Lemma wp_mono (m : M S A) (Q Q' : result A → S → Prop) s :
  wp m Q s → (∀ r s', Q r s' → Q' r s') → wp m Q' s.
Proof. intros H HQ. apply HQ, H. Qed.

Lemma wp_run (m : M S A) Q s r s' : wp m Q s → m s = (r, s') → Q r s'.
Proof. unfold wp. intros H Hm. by rewrite Hm in H. Qed.

Lemma wp_and (m : M S A) (Q1 Q2 : result A → S → Prop) s :
  wp m Q1 s → wp m Q2 s → wp m (λ r s', Q1 r s' ∧ Q2 r s') s.
Proof. done. Qed.

Lemma wp_intro (m : M S A) Q s : (∀ r s', m s = (r, s') → Q r s') → wp m Q s.
Proof. intros H. apply H. apply surjective_pairing. Qed.
End wp_rules.

#[export] Hint Resolve wp_ret wp_lift wp_throw : groundlane.

(** [m] throws and changes nothing. *)
Definition rejected {S A} (m : M S A) (s : S) : Prop := ∃ e, m s = (Throw e, s).

Section rejected.
Context {S A B : Type}.
Implicit Types (s : S).

Lemma rejected_bind (m : M S A) (f : A → M S B) s : rejected m s → rejected (m ≫= f) s.
Proof. intros [e He]. exists e. by apply M_bind_fail. Qed.

Lemma rejected_guard b e (f : unit → M S A) s :
  rejected (f tt) s → rejected (lift (throw_if b e) ≫= f) s.
Proof. intros Hf. destruct b; [by exists e|exact Hf]. Qed.

Lemma wp_rejected (m : M S A) s : wp m (λ r s', is_Throw r ∧ s' = s) s → rejected m s.
Proof.
  unfold wp, rejected. destruct (m s) as [r s']. intros [[e ?] ?]; cbn in *; subst. by exists e.
Qed.
End rejected.

(** ** JavaScript numbers

    [Num n d] is the finite number [n / d].  Values are exact: the program
    computes with integers below 2^53 and with seconds times 1000, and
    rounding of larger doubles is not modelled. *)

Inductive number :=
  | NaN
  | PosInf
  | NegInf
  | Num (n : Z) (d : positive).

Definition int (z : Z) : number := Num z 1.

Definition isFinite (x : number) : bool :=
  match x with Num _ _ => true | _ => false end.

Definition isInteger (x : number) : bool :=
  match x with Num n d => (n mod Zpos d =? 0)%Z | _ => false end.

(** The integer a number denotes, once [isInteger] has been checked. *)
Definition to_Z (x : number) : Z :=
  match x with Num n d => (n / Zpos d)%Z | _ => 0%Z end.

Definition MAX_SAFE_INTEGER : Z := 2 ^ 53 - 1.

Definition isSafeInteger (x : number) : bool :=
  isInteger x && (Z.abs (to_Z x) <=? MAX_SAFE_INTEGER)%Z.

(** [x <= y] and [x < y]; a comparison with [NaN] is false. *)
Definition num_leb (x y : number) : bool :=
  match x, y with
  | NaN, _ | _, NaN => false
  | NegInf, _ | _, PosInf => true
  | PosInf, _ | _, NegInf => false
  | Num n1 d1, Num n2 d2 => (n1 * Zpos d2 <=? n2 * Zpos d1)%Z
  end.

Definition num_ltb (x y : number) : bool :=
  match x, y with
  | NaN, _ | _, NaN => false
  | NegInf, NegInf | PosInf, _ | _, NegInf => false
  | NegInf, _ | _, PosInf => true
  | Num n1 d1, Num n2 d2 => (n1 * Zpos d2 <? n2 * Zpos d1)%Z
  end.

(** [x * k] for a positive integer constant [k], and [z + x]. *)
Definition num_scale (x : number) (k : Z) : number :=
  match x with Num n d => Num (n * k) d | _ => x end.

Definition num_shift (z : Z) (x : number) : number :=
  match x with Num n d => Num (z * Zpos d + n) d | _ => x end.

Definition num_add (x y : number) : number :=
  match x, y with
  | NaN, _ | _, NaN | PosInf, NegInf | NegInf, PosInf => NaN
  | PosInf, _ | _, PosInf => PosInf
  | NegInf, _ | _, NegInf => NegInf
  | Num n1 d1, Num n2 d2 => Num (n1 * Zpos d2 + n2 * Zpos d1) (d1 * d2)
  end.

(** [Math.min] and [Math.max] of two numbers, [x - y], [Math.floor(x / k)]
    for a positive integer constant [k], and [k * x] of integers [x]. *)
Definition num_min (x y : number) : number :=
  match x, y with
  | NaN, _ | _, NaN => NaN
  | _, _ => if num_leb x y then x else y
  end.

Definition num_max (x y : number) : number :=
  match x, y with
  | NaN, _ | _, NaN => NaN
  | _, _ => if num_leb x y then y else x
  end.

Definition num_neg (x : number) : number :=
  match x with
  | NaN => NaN
  | PosInf => NegInf
  | NegInf => PosInf
  | Num n d => Num (- n) d
  end.

Definition num_sub (x y : number) : number := num_add x (num_neg y).

Definition num_floor_div (x : number) (k : positive) : number :=
  match x with Num n d => int (n / Zpos (d * k)) | _ => x end.

Lemma num_sub_int a b : num_sub (int a) (int b) = int (a - b).
Proof. unfold num_sub, num_neg, int, num_add. f_equal; lia. Qed.

Lemma num_leb_int a b : num_leb (int a) (int b) = (a <=? b)%Z.
Proof. unfold num_leb, int. by rewrite !Z.mul_1_r. Qed.

Lemma num_ltb_int a b : num_ltb (int a) (int b) = (a <? b)%Z.
Proof. unfold num_ltb, int. by rewrite !Z.mul_1_r. Qed.

Lemma num_min_int a b : num_min (int a) (int b) = int (Z.min a b).
Proof.
  change (num_min (int a) (int b)) with (if num_leb (int a) (int b) then int a else int b).
  rewrite num_leb_int. destruct (Z.leb_spec a b); f_equal; lia.
Qed.

Lemma num_max_int a b : num_max (int a) (int b) = int (Z.max a b).
Proof.
  change (num_max (int a) (int b)) with (if num_leb (int a) (int b) then int b else int a).
  rewrite num_leb_int. destruct (Z.leb_spec a b); f_equal; lia.
Qed.

Lemma num_floor_div_int a k : num_floor_div (int a) k = int (a / Zpos k).
Proof. done. Qed.

(** A comparison with [NaN] is false; without it, [<] and [<=] are dual. *)
Lemma num_ltb_leb x y : num_ltb x y = true → num_leb y x = false.
Proof. destruct x, y; cbn; try done. rewrite Z.ltb_lt, Z.leb_gt. lia. Qed.

Lemma num_add_int a b : num_add (int a) (int b) = int (a + b).
Proof. unfold num_add, int. f_equal; lia. Qed.

Lemma isInteger_int z : isInteger (int z) = true.
Proof. unfold isInteger, int. by rewrite Z.mod_1_r. Qed.

Lemma to_Z_int z : to_Z (int z) = z.
Proof. unfold to_Z, int. apply Z.div_1_r. Qed.

Lemma integer_div n (d : positive) :
  (n mod Zpos d = 0)%Z → ∃ q, n = (q * Zpos d)%Z ∧ (n / Zpos d)%Z = q.
Proof.
  intros [q ->]%Z.mod_divide; [|lia]. exists q. by rewrite Z.div_mul by lia.
Qed.

Lemma num_ltb_integer x y :
  isInteger x = true → isInteger y = true → num_ltb x y = (to_Z x <? to_Z y)%Z.
Proof.
  destruct x as [| | |n d], y as [| | |m e]; cbn; try done.
  intros (p & -> & ->)%Z.eqb_eq%integer_div (q & -> & ->)%Z.eqb_eq%integer_div.
  apply eq_bool_prop_intro. rewrite !Is_true_true, !Z.ltb_lt.
  replace (q * Zpos e * Zpos d)%Z with (q * (Zpos d * Zpos e))%Z by lia.
  rewrite <- Z.mul_assoc. symmetry. apply Z.mul_lt_mono_pos_r. lia.
Qed.

Lemma num_leb_integer x y :
  isInteger x = true → isInteger y = true → num_leb x y = (to_Z x <=? to_Z y)%Z.
Proof.
  destruct x as [| | |n d], y as [| | |m e]; cbn; try done.
  intros (p & -> & ->)%Z.eqb_eq%integer_div (q & -> & ->)%Z.eqb_eq%integer_div.
  apply eq_bool_prop_intro. rewrite !Is_true_true, !Z.leb_le.
  replace (q * Zpos e * Zpos d)%Z with (q * (Zpos d * Zpos e))%Z by lia.
  rewrite <- Z.mul_assoc. symmetry. apply Z.mul_le_mono_pos_r. lia.
Qed.

(** ** Dates

    A [Date] is its time value in milliseconds, [None] when invalid.  An
    ISO string written by [toISOString] is represented by the instant it
    denotes; any other string by itself, with no instant. *)

Definition MAX_TIME : Z := 8640000000000000.

Definition new_Date (x : number) : option Z :=
  match x with
  | Num n d => if (Z.abs n <=? MAX_TIME * Zpos d)%Z then Some (Z.quot n (Zpos d)) else None
  | _ => None
  end.

Inductive date_string :=
  | IsoAt (ms : Z)
  | NotADate (raw : string).

#[export] Instance date_string_eq_dec : EqDecision date_string.
Proof. solve_decision. Defined.

Definition toISOString (t : option Z) : result date_string :=
  match t with
  | Some ms => Ok (IsoAt ms)
  | None => Throw (TError "Invalid time value")
  end.

(** [new Date(s).getTime()], [None] for [NaN]. *)
Definition getTime (s : date_string) : option Z :=
  match s with IsoAt ms => Some ms | NotADate _ => None end.

Definition date_truthy (s : date_string) : bool :=
  match s with IsoAt _ => true | NotADate raw => negb (bool_decide (raw = ""%string)) end.

(** [new Date(s).getTime() <= t] *)
Definition getTime_leb (s : date_string) (t : Z) : bool :=
  match getTime s with Some ms => (ms <=? t)%Z | None => false end.

(** ** Values of type [unknown] *)

Inductive js_value :=
  | JUndefined
  | JNull
  | JBool (b : bool)
  | JNum (z : Z)
  | JStr (s : string)
  | JArr (l : list js_value)
  | JObj (fields : list (string * js_value)).

Definition is_undefined (v : js_value) : bool :=
  match v with JUndefined => true | _ => false end.
