(* ===== verification/Interference.v ===== *)
(** * Computations among other parties

    The state behind an interface is shared: between two calls, and while one
    is under way, other parties change what it shows ([view]), as [env]
    allows, and a call may fail with or without its effect.  This file has
    what the components on such a state share: operations that take effect at
    one instant, a state shared with scripted parties for concrete runs, and
    the rules for computations that, whatever the others do, only move the
    state forward. *)

From S2P Require Import Prelude.

(** ** Operations that take effect at one instant *)

Section atomic.
Context {S V : Type} (view : S → V) (env : V → V → Prop).

Definition atomic {A} (op : M S A) (spec : M V A) : Prop := ∀ s,
  ∃ m, env (view s) m ∧
    ((op s).1 = (spec m).1 ∧ view (op s).2 = (spec m).2 ∨
     is_Throw (op s).1 ∧ (view (op s).2 = m ∨ view (op s).2 = (spec m).2)).

(** The rule for one operation. *)
Lemma wp_atomic {A} (op : M S A) spec (Q : result A → S → Prop) s :
  atomic op spec →
  (∀ m s', env (view s) m → view s' = (spec m).2 → Q (spec m).1 s') →
  (∀ e m s', env (view s) m → view s' = m ∨ view s' = (spec m).2 → Q (Throw e) s') →
  wp op Q s.
Proof.
  intros Hop Hok Hfail. destruct (Hop s) as (m & Hm & [[Hr Hv]|[[e He] Hv]]); unfold wp.
  - rewrite Hr. by apply Hok.
  - rewrite He. by eapply Hfail.
Qed.
End atomic.
Arguments wp_atomic {_ _} _ _ {_ _ _} _ _ _ _ _.

(** ** A state shared with others

    Before each operation the other parties take a turn, a transition that
    [env] allows; the turn also says whether the call fails, before or after
    its effect.  With no turns left nothing interferes. *)

Record turn {V} (env : V → V → Prop) := {
  turn_act : V → V;
  turn_allowed : ∀ m, env m (turn_act m);
  turn_fault : option bool
}.
Arguments Build_turn {V} env _ _ _.
Arguments turn_act {V env} _ _.
Arguments turn_allowed {V env} _ _.
Arguments turn_fault {V env} _.

Record SharedStore {V} (env : V → V → Prop) := {
  contents : V;
  turns : list (turn env)
}.
Arguments Build_SharedStore {V env} _ _.
Arguments contents {V env} _.
Arguments turns {V env} _.

Section shared_store.
Context {V : Type} {env : V → V → Prop}.

Definition unavailable_call : thrown := TError "durable metadata store unavailable".

Definition in_turn {A} (op : M V A) : M (SharedStore env) A := λ s,
  match turns s with
  | [] =>
      let '(r, m) := op (contents s) in (r, {| contents := m; turns := [] |})
  | t :: ts =>
      let m := turn_act t (contents s) in
      match turn_fault t with
      | None => let '(r, m') := op m in (r, {| contents := m'; turns := ts |})
      | Some true => (Throw unavailable_call, {| contents := (op m).2; turns := ts |})
      | Some false => (Throw unavailable_call, {| contents := m; turns := ts |})
      end
  end.

Lemma in_turn_atomic {A} (op : M V A) : (∀ m, env m m) → atomic contents env (in_turn op) op.
Proof.
  intros Hrefl [m [|t ts]]; unfold in_turn; cbn.
  - exists m. split; [apply Hrefl|]. left. by destruct (op m).
  - exists (turn_act t m). split; [apply turn_allowed|].
    destruct (turn_fault t) as [[]|]; cbn; [right|right|left].
    + split; [by eexists|by right].
    + split; [by eexists|by left].
    + by destruct (op _).
Qed.
End shared_store.

(** Whether a signal has been aborted is read off the world. *)
Definition AbortSignal (S : Type) : Type := S → bool.

(** The rest may be replaced by what does the same wherever it is reached. *)
Lemma bind_same {St A B} (c : M St A) (f g : A → M St B) s :
  (∀ a s', c s = (Ok a, s') → f a s' = g a s') → (c ≫= f) s = (c ≫= g) s.
Proof. intros Hfg. unfold mbind, M_bind. destruct (c s) as [[a|e] s'] eqn:Hc; [by apply Hfg|done]. Qed.

(** ** Computations that move the state forward

    An evolution says which states are well formed and how they may change;
    what is known of a state must be stable under it. *)

Class Evolution (V : Type) := {
  good : V → Prop;
  evolves : V → V → Prop;
  evolves_refl m : evolves m m;
  evolves_trans m1 m2 m3 : evolves m1 m2 → evolves m2 m3 → evolves m1 m3;
  evolves_good m m' : evolves m m' → good m → good m'
}.

Section stable.
Context {V : Type} `{!Evolution V}.

Definition stable (K : V → Prop) : Prop := ∀ m m', evolves m m' → K m → K m'.

Lemma stable_and (K P : V → Prop) : stable K → stable P → stable (λ m, K m ∧ P m).
Proof. intros HK HP m m' He [Hm Hp]. split; [by eapply HK|by eapply HP]. Qed.

Lemma stable_const (P : Prop) : stable (λ _, P).
Proof. by intros m m' _. Qed.
End stable.

#[export] Hint Resolve stable_and stable_const : groundlane.

Section moves.
Context {S V : Type} `{!Evolution V} (view : S → V).

(** From states of which [K] holds, the result is described by [Q], under
    any interleaving and whatever fails. *)
Definition moves {A} (K : V → Prop) (c : M S A) (Q : A → V → Prop) : Prop :=
  ∀ s, good (view s) → K (view s) →
  wp c (λ r s', evolves (view s) (view s') ∧
                match r with Ok a => Q a (view s') | Throw _ => True end) s.

Lemma moves_bind {A B} K (c : M S A) Q (f : A → M S B) R :
  stable K → moves K c Q → (∀ a, moves (λ m, K m ∧ Q a m) (f a) R) → moves K (c ≫= f) R.
Proof.
  intros HK Hc Hf s Hok Hs. apply wp_bind. eapply wp_mono; [by apply Hc|].
  intros [a|e] s' [He HQ]; [|by split].
  eapply wp_mono; [apply Hf; [by eapply evolves_good|split; [by eapply HK|done]]|].
  intros r s'' [He' HR]. split; [by eapply evolves_trans|done].
Qed.

Lemma moves_lift {A} K (r : result A) (Q : A → V → Prop) :
  (∀ a m, r = Ok a → K m → Q a m) → moves K (lift r) Q.
Proof.
  intros HQ s _ Hs. apply wp_lift. split; [apply evolves_refl|]. destruct r; auto.
Qed.

Lemma moves_lift_bind {A B} K (r : result A) (f : A → M S B) Q :
  (∀ a, r = Ok a → moves K (f a) Q) → moves K (lift r ≫= f) Q.
Proof.
  intros Hf s Hok Hs. apply wp_lift_bind; [intros a Ha; by apply Hf|].
  intros e _. split; [apply evolves_refl|done].
Qed.

Lemma moves_ret {A} (K : V → Prop) (a : A) (Q : A → V → Prop) :
  (∀ m, K m → Q a m) → moves K (mret a) Q.
Proof. intros HQ s _ Hs. apply wp_ret. split; [apply evolves_refl|auto]. Qed.

Lemma moves_throw {A} K e (Q : A → V → Prop) : moves K (throw e) Q.
Proof. intros s _ Hs. apply wp_throw. split; [apply evolves_refl|done]. Qed.

Lemma moves_mono {A} (K K' : V → Prop) (c : M S A) (Q Q' : A → V → Prop) :
  (∀ m, K' m → K m) → (∀ a m, Q a m → Q' a m) → moves K c Q → moves K' c Q'.
Proof.
  intros HK HQ Hc s Hok Hs. eapply wp_mono; [by apply Hc; auto|].
  intros [a|e] s' [He Hr]; split; auto.
Qed.

Lemma moves_and {A} (K : V → Prop) (c : M S A) Q Q' :
  moves K c Q → moves K c Q' → moves K c (λ a m, Q a m ∧ Q' a m).
Proof.
  intros H1 H2 s Hok Hs. destruct (H1 s Hok Hs) as [He HQ], (H2 s Hok Hs) as [_ HQ'].
  split; [exact He|]. by destruct (c s) as [[a|e] ?].
Qed.

Lemma moves_forget {A} (K P : V → Prop) (c : M S A) Q : moves K c Q → moves (λ m, K m ∧ P m) c Q.
Proof. intros Hc. eapply moves_mono; [| |exact Hc]; [by intros m [? _]|done]. Qed.

Lemma moves_catch {A} K (c : M S A) h Q :
  (∀ e, moves (λ _, True) (h e) Q) → moves K c Q → moves K (catch c h) Q.
Proof.
  intros Hh Hc s Hok Hs. specialize (Hc s Hok Hs). unfold wp, catch in *.
  destruct (c s) as [[a|e] s'] eqn:Hcs; [done|]. destruct Hc as [He _].
  destruct (Hh e s' (evolves_good _ _ He Hok) I) as [He' HQ]. split; [by eapply evolves_trans|done].
Qed.

Lemma moves_attempt {A} K (c : M S A) Q :
  moves K c Q → moves K (attempt c) (λ o m, match o with inl a => Q a m | inr _ => True end).
Proof.
  intros Hc s Hok Hs. specialize (Hc s Hok Hs). unfold wp, attempt in *. by destruct (c s) as [[] ?].
Qed.

Lemma moves_pick {A B} (K : V → Prop) (P : B → V → Prop) (c : M S A) Q :
  (∀ m, K m → ∃ b, P b m) → (∀ b, moves (λ m, K m ∧ P b m) c Q) → moves K c Q.
Proof. intros HP Hc s Hok Hs. destruct (HP _ Hs) as [b Hb]. by apply (Hc b). Qed.

Lemma moves_pure {A} (K : V → Prop) (P : Prop) (c : M S A) Q :
  (∀ m, K m → P) → (P → moves K c Q) → moves K c Q.
Proof. intros HP Hc s Hok Hs. apply Hc; eauto. Qed.

(** An operation that takes effect at one instant, and a call elsewhere. *)
Lemma moves_atomic {A} env (K : V → Prop) (op : M S A) spec (Q : A → V → Prop) :
  (∀ m m', env m m' → evolves m m') → stable K → atomic view env op spec →
  (∀ m, good m → K m → evolves m (spec m).2 ∧
     match (spec m).1 with Ok a => Q a (spec m).2 | Throw _ => True end) →
  moves K op Q.
Proof.
  intros Henv HK Hop Hm s Hok Hs. eapply (wp_atomic view env); [exact Hop|..].
  - intros m s' He%Henv Hv. destruct (Hm m) as [Hu HQ]; [by eapply evolves_good|by eapply HK|].
    rewrite Hv. split; [by eapply evolves_trans|done].
  - intros e m s' He%Henv [->| ->]; (split; [|done]); [done|].
    destruct (Hm m) as [Hu _]; [by eapply evolves_good|by eapply HK|]. by eapply evolves_trans.
Qed.

Lemma moves_elsewhere {A} env K (c : M S A) (P : A → Prop) :
  (∀ m m', env m m' → evolves m m') → (∀ s, env (view s) (view (c s).2)) →
  (∀ s a, (c s).1 = Ok a → P a) → moves K c (λ a _, P a).
Proof.
  intros Henv Hc HP s Hok Hs. specialize (Hc s). specialize (HP s). unfold wp.
  split; [by apply Henv|]. destruct (c s) as [[a|e] s']; cbn in *; auto.
Qed.

(** A call whose outcome nobody looks at. *)
Definition ignore {A} (c : M S A) : M S unit := attempt c;; mret tt.

Lemma moves_ignore {A} (c : M S A) Q :
  moves (λ _, True) c Q → moves (λ _, True) (ignore c) (λ _ _, True).
Proof.
  intros Hc. eapply moves_bind; [apply stable_const|by apply moves_attempt|].
  intros o. by apply moves_ret.
Qed.
End moves.
