(* ===== verification/JsString.v ===== *)
(** * Strings as the program uses them

    A JavaScript string is modelled by a [string] whose characters are the
    code units 0 to 255; [.length] is [String.length].  The file holds the
    [String.prototype] methods and the regular expressions the modelled
    components use, written as functions on lists of characters. *)

From S2P Require Import Prelude.

Open Scope nat_scope.

Definition chars (s : string) : list ascii := String.list_ascii_of_string s.
Definition unchars (l : list ascii) : string := String.string_of_list_ascii l.

Lemma unchars_chars s : unchars (chars s) = s.
Proof. apply String.string_of_list_ascii_of_string. Qed.

Lemma chars_unchars l : chars (unchars l) = l.
Proof. apply String.list_ascii_of_string_of_list_ascii. Qed.

Lemma length_chars s : length (chars s) = String.length s.
Proof. induction s; cbn; auto. Qed.

Lemma length_unchars l : String.length (unchars l) = length l.
Proof. by rewrite <- length_chars, chars_unchars. Qed.

Lemma chars_app s1 s2 : chars (s1 +:+ s2) = chars s1 ++ chars s2.
Proof.
  induction s1 as [|c s1 IH]; [done|].
  change (c :: chars (s1 +:+ s2) = c :: (chars s1 ++ chars s2)). by rewrite IH.
Qed.

(** [!s] of a string, and [.length] as an integer. *)
Definition falsy (s : string) : bool := bool_decide (s = ""%string).
Definition str_length (s : string) : Z := Z.of_nat (String.length s).

Lemma falsy_false s : falsy s = false ↔ s ≠ ""%string.
Proof. unfold falsy. by rewrite bool_decide_eq_false. Qed.

(** ** Character classes *)

Definition between (lo hi : nat) (c : ascii) : bool :=
  let n := nat_of_ascii c in (lo <=? n) && (n <=? hi).

(** [\s], the white space and line terminators below code unit 256. *)
Definition is_space (c : ascii) : bool :=
  between 9 13 c || between 32 32 c || between 160 160 c.

Definition is_digit : ascii → bool := between 48 57.
Definition is_upper : ascii → bool := between 65 90.
Definition is_lower : ascii → bool := between 97 122.
Definition is_alnum (c : ascii) : bool := is_digit c || is_upper c || is_lower c.

(** [\w] *)
Definition is_word (c : ascii) : bool := is_alnum c || bool_decide (c = "_"%char).

Definition one_of (cs : string) (c : ascii) : bool := bool_decide (c ∈ chars cs).

(** Lower case: ASCII letters and the letters of the Latin-1 block. *)
Definition lower_char (c : ascii) : ascii :=
  let n := nat_of_ascii c in
  if is_upper c || (between 192 222 c && negb (n =? 215))
  then ascii_of_nat (n + 32) else c.

Definition toLowerCase (s : string) : string := unchars (map lower_char (chars s)).

(** ** Searching, trimming and cutting *)

Fixpoint is_prefix (p l : list ascii) : bool :=
  match p, l with
  | [], _ => true
  | a :: p', b :: l' => bool_decide (a = b) && is_prefix p' l'
  | _, [] => false
  end.

Definition startsWith (s p : string) : bool := is_prefix (chars p) (chars s).

Fixpoint has_infix (p l : list ascii) : bool :=
  is_prefix p l || match l with [] => false | _ :: l' => has_infix p l' end.

(** [s.includes(p)] *)
Definition str_includes (s p : string) : bool := has_infix (chars p) (chars s).

Fixpoint drop_while (f : ascii → bool) (l : list ascii) : list ascii :=
  match l with
  | [] => []
  | c :: l' => if f c then drop_while f l' else l
  end.

Fixpoint take_while (f : ascii → bool) (l : list ascii) : list ascii :=
  match l with
  | [] => []
  | c :: l' => if f c then c :: take_while f l' else []
  end.

Definition trim_chars (l : list ascii) : list ascii :=
  reverse (drop_while is_space (reverse (drop_while is_space l))).

Definition trim (s : string) : string := unchars (trim_chars (chars s)).

Definition newline : ascii := ascii_of_nat 10.

(** [s.split("\n")[0]] *)
Definition first_line (s : string) : string :=
  unchars (take_while (λ c, negb (bool_decide (c = newline))) (chars s)).

(** [s.slice(0, n)] for [n >= 0] *)
Definition slice_to (n : nat) (s : string) : string := unchars (take n (chars s)).

Lemma length_slice_to n s : String.length (slice_to n s) ≤ n.
Proof. unfold slice_to. rewrite length_unchars, length_take. lia. Qed.

(** ** Regular-expression replacement

    A matcher gives the length of the match that starts at the head of the
    list (0 for none), knowing the character before it.  [replace_all] is
    [s.replace(/re/g, by)]: it scans left to right and resumes after each
    match. *)

Definition matcher := option ascii → list ascii → nat.

Fixpoint replace_from (m : matcher) (by_ : list ascii) (skip : nat)
    (prev : option ascii) (l : list ascii) : list ascii :=
  match l with
  | [] => []
  | c :: l' =>
      match skip with
      | S k => replace_from m by_ k (Some c) l'
      | O => match m prev l with
             | O => c :: replace_from m by_ 0 (Some c) l'
             | S k => by_ ++ replace_from m by_ k (Some c) l'
             end
      end
  end.

Definition replace_all (m : matcher) (by_ : string) (l : list ascii) : list ascii :=
  replace_from m (chars by_) 0 None l.

Lemma replace_from_Forall (P : ascii → Prop) m by_ skip prev l :
  Forall P l → Forall P by_ → Forall P (replace_from m by_ skip prev l).
Proof.
  intros Hl Hby. revert skip prev.
  induction Hl as [|c l Hc Hl IH]; intros skip prev; cbn; [done|].
  case_all; auto using Forall_app_2.
Qed.

(** Literals are matched without regard to case, the regular expressions'
    [i] flag: [lit] gives the rest of the input after the literal. *)
Fixpoint lit (p l : list ascii) : option (list ascii) :=
  match p, l with
  | [], _ => Some l
  | a :: p', b :: l' => if bool_decide (a = lower_char b) then lit p' l' else None
  | _, [] => None
  end.

Definition consumed (l rest : list ascii) : nat := length l - length rest.

(** The [+] of a class: the rest, when at least one character matched. *)
Definition plus_class (f : ascii → bool) (l : list ascii) : option (list ascii) :=
  match take_while f l with [] => None | _ => Some (drop_while f l) end.

Definition opt_char (f : ascii → bool) (l : list ascii) : list ascii :=
  match l with c :: l' => if f c then l' else l | [] => [] end.

Definition one_char (f : ascii → bool) (l : list ascii) : option (list ascii) :=
  match l with c :: l' => if f c then Some l' else None | [] => None end.

Definition match_len (l : list ascii) (rest : option (list ascii)) : nat :=
  match rest with Some r => consumed l r | None => 0 end.

(** The run of white space of [/\s+/g]. *)
Definition re_spaces : matcher := λ _ l, length (take_while is_space l).

Lemma replace_spaces_Forall skip prev l :
  Forall (λ c, is_space c = true → c = " "%char)
    (replace_from re_spaces [" "%char] skip prev l).
Proof.
  revert skip prev. induction l as [|c l IH]; intros skip prev; cbn; [constructor|].
  destruct skip; [|done]. destruct (is_space c) eqn:Hc; cbn.
  - constructor; [done|]. apply IH.
  - constructor; [by rewrite Hc|]. apply IH.
Qed.

(** ** Messages *)

Definition dq : string := unchars [ascii_of_nat 34].
Definition quoted (s : string) : string := dq +:+ s +:+ dq.

(** [String(n)] for an integer. *)
Definition show (z : Z) : string := pretty z.

(** [xs.join(sep)] *)
Fixpoint join (sep : string) (xs : list string) : string :=
  match xs with
  | [] => ""%string
  | [x] => x
  | x :: xs' => x +:+ sep +:+ join sep xs'
  end.

(** ** Cutting keeps the characters *)

Lemma drop_while_Forall (P : ascii → Prop) f l : Forall P l → Forall P (drop_while f l).
Proof. induction 1; cbn; [done|]. case_match; auto. Qed.

Lemma trim_Forall (P : ascii → Prop) l : Forall P l → Forall P (trim_chars l).
Proof.
  intros Hl. unfold trim_chars. by apply Forall_reverse, drop_while_Forall, Forall_reverse,
    drop_while_Forall.
Qed.

Lemma unchars_nonempty l : unchars l ≠ ""%string ↔ l ≠ [].
Proof. destruct l; cbn; naive_solver. Qed.

(** ** Decimal digits *)

Definition digit_value (c : ascii) : Z := (Z.of_nat (nat_of_ascii c) - 48)%Z.

(** The integer a run of digits denotes. *)
Definition digits_value (l : list ascii) : Z :=
  foldl (λ acc c, (10 * acc + digit_value c)%Z) 0%Z l.

(** [Number(s)] of a string of decimal digits: from 2^1024 - 2^970 on the
    nearest double is [Infinity]. *)
Definition Number_of_digits (l : list ascii) : number :=
  let v := digits_value l in
  if (v <? 2 ^ 1024 - 2 ^ 970)%Z then int v else PosInf.

(** [s.padStart(n, "0")] *)
Definition padStart0 (n : nat) (s : string) : string :=
  unchars (replicate (n - String.length s) "0"%char) +:+ s.

(** The text [toISOString] gives an instant: the proleptic Gregorian date of
    its day, counted from 1 March of year 0 in eras of 400 years. *)
Definition iso_year (y : Z) : string :=
  if (0 <=? y)%Z && (y <=? 9999)%Z then padStart0 4 (show y)
  else (if (y <? 0)%Z then "-" else "+") +:+ padStart0 6 (show (Z.abs y)).

Definition iso_text (ms : Z) : string :=
  let z := (ms / 86400000 + 719468)%Z in
  let tod := (ms mod 86400000)%Z in
  let doe := (z mod 146097)%Z in
  let yoe := ((doe - doe / 1460 + doe / 36524 - doe / 146096) / 365)%Z in
  let doy := (doe - (365 * yoe + yoe / 4 - yoe / 100))%Z in
  let mp := ((5 * doy + 2) / 153)%Z in
  let day := (doy - (153 * mp + 2) / 5 + 1)%Z in
  let month := (if mp <? 10 then mp + 3 else mp - 9)%Z in
  let year := (yoe + z / 146097 * 400 + (if month <=? 2 then 1 else 0))%Z in
  iso_year year +:+ "-" +:+ padStart0 2 (show month) +:+ "-" +:+ padStart0 2 (show day) +:+ "T" +:+
  padStart0 2 (show (tod / 3600000)) +:+ ":" +:+ padStart0 2 (show (tod / 60000 mod 60)) +:+ ":" +:+
  padStart0 2 (show (tod / 1000 mod 60)) +:+ "." +:+ padStart0 3 (show (tod mod 1000)) +:+ "Z".

Example iso_text_example :
  iso_text 951782399999 = "2000-02-28T23:59:59.999Z" ∧ iso_text 951782400000 = "2000-02-29T00:00:00.000Z".
Proof. split; vm_compute; reflexivity. Qed.

(** [String(s)] of a date string. *)
Definition date_text (s : date_string) : string :=
  match s with IsoAt ms => iso_text ms | NotADate raw => raw end.

(** The match of [/^<prefix>(\d+)$/]: the digits. *)
Definition match_prefix_digits (prefix s : string) : option (list ascii) :=
  if startsWith s prefix then
    let rest := drop (String.length prefix) (chars s) in
    if bool_decide (rest = []) then None
    else if forallb is_digit rest then Some rest else None
  else None.

Lemma digits_value_app l1 l2 :
  digits_value (l1 ++ l2) = foldl (λ acc c, 10 * acc + digit_value c)%Z (digits_value l1) l2.
Proof. unfold digits_value. apply foldl_app. Qed.

Lemma digits_value_zeros k l : digits_value (replicate k "0"%char ++ l) = digits_value l.
Proof.
  rewrite digits_value_app. replace (digits_value (replicate k _)) with 0%Z; [done|].
  unfold digits_value. induction k; cbn; [done|]. done.
Qed.

Lemma pretty_N_char_digit n :
  (n < 10)%N → is_digit (pretty_N_char n) = true ∧ digit_value (pretty_N_char n) = Z.of_N n.
Proof.
  intros Hn. destruct n as [|p]; [done|].
  do 4 (destruct p as [p|p|]; try done; try lia).
Qed.

Lemma pretty_N_go_digits n s :
  ∃ l, chars (pretty_N_go n s) = l ++ chars s ∧ forallb is_digit l = true ∧
       digits_value l = Z.of_N n ∧ (n ≠ 0%N → l ≠ []).
Proof.
  revert s. induction (N.lt_wf_0 n) as [n _ IH]; intros s.
  destruct (decide (n = 0%N)) as [->|Hn].
  - exists []. by rewrite pretty_N_go_0.
  - rewrite pretty_N_go_step by lia.
    destruct (IH (n `div` 10)%N ltac:(apply N.div_lt; lia) (String (pretty_N_char (n mod 10)) s))
      as (l & Hl & Hd & Hv & _).
    pose proof (pretty_N_char_digit (n mod 10) ltac:(apply N.mod_lt; lia)) as [Hc Hcv].
    exists (l ++ [pretty_N_char (n mod 10)]). split_and!.
    + rewrite Hl. cbn. by rewrite <- app_assoc.
    + rewrite forallb_app, Hd. cbn. by rewrite Hc.
    + rewrite digits_value_app, Hv. cbn. rewrite Hcv.
      pose proof (N.div_mod n 10 ltac:(lia)). lia.
    + intros _ []%app_nil. done.
Qed.

Lemma show_digits z :
  (0 <= z)%Z → forallb is_digit (chars (show z)) = true ∧ digits_value (chars (show z)) = z ∧
               chars (show z) ≠ [].
Proof.
  intros Hz. destruct z as [|p|p]; [done| |lia].
  unfold show, pretty, pretty_Z, pretty, pretty_positive, pretty, pretty_N.
  rewrite decide_False by done.
  destruct (pretty_N_go_digits (N.pos p) "") as (l & Hl & Hd & Hv & Hne).
  change (chars "") with (@nil ascii) in Hl. rewrite app_nil_r in Hl. rewrite Hl. split_and!; [done..|]. by apply Hne.
Qed.

Lemma show_inj z1 z2 : show z1 = show z2 → z1 = z2.
Proof. apply pretty_Z_inj. Qed.

Lemma digits_value_padStart0 k z :
  (0 <= z)%Z → digits_value (chars (padStart0 k (show z))) = z.
Proof.
  intros Hz. unfold padStart0. rewrite chars_app, chars_unchars, digits_value_zeros.
  by apply show_digits.
Qed.

Lemma is_prefix_app p l : is_prefix p (p ++ l) = true.
Proof. induction p; cbn; [by destruct l|]. by rewrite bool_decide_true. Qed.

Lemma is_prefix_inv p l : is_prefix p l = true → ∃ t, l = p ++ t.
Proof.
  revert l. induction p as [|a p IH]; intros [|b l] H; try done; [by exists []|by exists (b :: l)|].
  cbn in H. apply andb_true_iff in H as [Hab Hp]. destruct (IH l Hp) as [t ->].
  exists t. cbn. f_equal. by reflect.
Qed.

Lemma startsWith_app (p s : string) : startsWith (p +:+ s) p = true.
Proof. unfold startsWith. rewrite chars_app. apply is_prefix_app. Qed.

Lemma startsWith_inv k p : startsWith k p = true → ∃ l, chars k = chars p ++ l.
Proof. apply is_prefix_inv. Qed.

Lemma match_prefix_digits_show p z :
  (0 <= z)%Z → match_prefix_digits p (p +:+ show z) = Some (chars (show z)).
Proof.
  intros (Hd & _ & Hne)%show_digits. unfold match_prefix_digits, startsWith.
  rewrite chars_app, is_prefix_app.
  rewrite drop_app_length' by (symmetry; apply length_chars).
  by rewrite bool_decide_false, Hd.
Qed.

Lemma Number_of_digits_show z :
  (0 <= z < 2 ^ 1023)%Z → Number_of_digits (chars (show z)) = int z.
Proof.
  intros [Hz Hlt]. unfold Number_of_digits.
  destruct (show_digits z Hz) as (_ & -> & _). cbv zeta.
  rewrite (proj2 (Z.ltb_lt _ _)); [done|].
  assert (2 ^ 1024 = 2 * 2 ^ 1023)%Z by (rewrite <- Z.pow_succ_r by lia; done).
  assert (2 ^ 970 < 2 ^ 1023)%Z by (apply Z.pow_lt_mono_r; lia). lia.
Qed.

(** ** Text joined with colons

    Fields without a colon are recovered from their join. *)

Definition colon : ascii := ":"%char.
Definition colon_free (s : string) : Prop := colon ∉ chars s.

#[export] Instance colon_free_dec s : Decision (colon_free s).
Proof. unfold colon_free. apply _. Defined.

Lemma split_front (a a' r r' : list ascii) :
  colon ∉ a → colon ∉ a' → a ++ colon :: r = a' ++ colon :: r' → a = a' ∧ r = r'.
Proof.
  revert a'. induction a as [|c a IH]; intros [|c' a'] Ha Ha' H; cbn in H.
  - by injection H as H.
  - injection H as <- _. destruct Ha'. left.
  - injection H as -> _. destruct Ha. left.
  - apply not_elem_of_cons in Ha as [_ Ha]. apply not_elem_of_cons in Ha' as [_ Ha'].
    injection H as -> H. by destruct (IH a' Ha Ha' H) as [-> ->].
Qed.

Lemma split_back (a a' r r' : list ascii) :
  colon ∉ r → colon ∉ r' → a ++ colon :: r = a' ++ colon :: r' → a = a' ∧ r = r'.
Proof.
  intros Hr Hr' H. apply (f_equal reverse) in H.
  rewrite !reverse_app, !reverse_cons, <- !app_assoc in H. cbn in H.
  apply split_front in H as [H1 H2]; [|by rewrite elem_of_reverse..].
  split; by apply (inj reverse).
Qed.

Lemma chars_inj s1 s2 : chars s1 = chars s2 → s1 = s2.
Proof. intros H. by rewrite <- (unchars_chars s1), H, unchars_chars. Qed.

(** [n.toString(16)] of a natural number. *)
Definition hex_char (d : Z) : ascii :=
  ascii_of_nat (Z.to_nat (if (d <? 10)%Z then 48 + d else 87 + d)).

Fixpoint hex_go (fuel : nat) (z : Z) (acc : list ascii) : list ascii :=
  match fuel with
  | O => acc
  | S fuel' =>
      let acc := hex_char (z mod 16) :: acc in
      if (z <? 16)%Z then acc else hex_go fuel' (z / 16) acc
  end.

Definition hex_text (z : Z) : string := unchars (hex_go (S (Z.to_nat (Z.log2 z))) z []).

(** ** The order of strings

    [a < b] compares code units; [sort] with it is stable. *)

Fixpoint chars_ltb (a b : list ascii) : bool :=
  match a, b with
  | [], _ :: _ => true
  | x :: a', y :: b' =>
      (nat_of_ascii x <? nat_of_ascii y) ||
      ((nat_of_ascii x =? nat_of_ascii y) && chars_ltb a' b')
  | _, [] => false
  end.

Definition str_ltb (a b : string) : bool := chars_ltb (chars a) (chars b).

Lemma chars_ltb_trans a b c : chars_ltb a b = true → chars_ltb b c = true → chars_ltb a c = true.
Proof.
  revert b c. induction a as [|x a IH]; intros [|y b] [|z c]; cbn [chars_ltb]; try done.
  rewrite !orb_true_iff, !andb_true_iff, !Nat.ltb_lt, !Nat.eqb_eq.
  intros [H1|[H1 H1']] [H2|[H2 H2']]; [left; lia..|]. right. split; [lia|by eapply IH].
Qed.

Lemma str_ltb_trans a b c : str_ltb a b = true → str_ltb b c = true → str_ltb a c = true.
Proof. apply chars_ltb_trans. Qed.

Lemma chars_ltb_irrefl a : chars_ltb a a = false.
Proof.
  induction a as [|x a IH]; cbn [chars_ltb]; [done|].
  by rewrite Nat.ltb_irrefl, Nat.eqb_refl, IH.
Qed.

Lemma chars_ltb_total a b : chars_ltb a b = false → chars_ltb b a = false → a = b.
Proof.
  revert b. induction a as [|x a IH]; intros [|y b]; cbn [chars_ltb]; try done.
  rewrite !orb_false_iff, !andb_false_iff, !Nat.ltb_ge, !Nat.eqb_neq. intros [H1 H2] [H3 H4].
  assert (Hxy : nat_of_ascii x = nat_of_ascii y) by lia.
  rewrite <- (ascii_nat_embedding x), <- (ascii_nat_embedding y), Hxy. f_equal.
  apply IH; naive_solver.
Qed.

Lemma str_ltb_irrefl a : str_ltb a a = false.
Proof. apply chars_ltb_irrefl. Qed.

Lemma str_ltb_total a b : str_ltb a b = false → str_ltb b a = false → a = b.
Proof. intros H1 H2. apply chars_inj. by apply chars_ltb_total. Qed.

(** Below a string that is not above [b] means below [b]. *)
Lemma str_ltb_below a b c : str_ltb c a = true → str_ltb c b = false → str_ltb b a = true.
Proof.
  intros Hca Hcb. destruct (str_ltb b a) eqn:Hba; [done|]. destruct (str_ltb a b) eqn:Hab.
  - by rewrite (str_ltb_trans c a b) in Hcb.
  - by rewrite (str_ltb_total a b Hab Hba), Hcb in Hca.
Qed.

Section sort_by.
Context {A : Type} (key : A → string).

(** One item into a sorted list, before the items with an equal key. *)
Fixpoint insert_by (x : A) (l : list A) : list A :=
  match l with
  | [] => [x]
  | y :: l' => if str_ltb (key y) (key x) then y :: insert_by x l' else x :: l
  end.

Definition sort_by (l : list A) : list A := foldr insert_by [] l.

Lemma insert_by_perm x l : insert_by x l ≡ₚ x :: l.
Proof.
  induction l as [|y l IH]; cbn; [done|]. case_match; [|done]. rewrite IH. apply Permutation_swap.
Qed.

Lemma sort_by_perm l : sort_by l ≡ₚ l.
Proof. induction l as [|x l IH]; cbn; [done|]. by rewrite insert_by_perm, IH. Qed.

(** Items with different keys can be inserted in any order. *)
Lemma insert_by_comm x y l :
  key x ≠ key y → insert_by x (insert_by y l) = insert_by y (insert_by x l).
Proof.
  intros Hne. destruct (str_ltb (key x) (key y)) eqn:Hxy, (str_ltb (key y) (key x)) eqn:Hyx.
  - pose proof (str_ltb_trans _ _ _ Hxy Hyx) as H. by rewrite str_ltb_irrefl in H.
  - induction l as [|z l IH]; cbn; [by rewrite Hxy, Hyx|].
    destruct (str_ltb (key z) (key y)) eqn:Hy, (str_ltb (key z) (key x)) eqn:Hx; cbn;
      rewrite ?Hy, ?Hx, ?Hxy, ?Hyx, ?IH; try done. by rewrite (str_ltb_trans _ _ _ Hx Hxy) in Hy.
  - induction l as [|z l IH]; cbn; [by rewrite Hxy, Hyx|].
    destruct (str_ltb (key z) (key y)) eqn:Hy, (str_ltb (key z) (key x)) eqn:Hx; cbn;
      rewrite ?Hy, ?Hx, ?Hxy, ?Hyx, ?IH; try done. by rewrite (str_ltb_trans _ _ _ Hy Hyx) in Hx.
  - by destruct Hne; apply str_ltb_total.
Qed.

Lemma sort_by_unique l1 l2 : NoDup (key <$> l1) → l1 ≡ₚ l2 → sort_by l1 = sort_by l2.
Proof.
  intros Hnd Hp. induction Hp as [|x l1 l2 Hp IH|x y l|l1 l2 l3 Hp1 IH1 Hp2 IH2]; cbn.
  - done.
  - cbn in Hnd. apply NoDup_cons in Hnd as [_ Hnd]. change (insert_by x (sort_by l1) = insert_by x (sort_by l2)). by rewrite (IH Hnd).
  - apply insert_by_comm. cbn in Hnd. apply NoDup_cons in Hnd as [Hy _]. set_solver.
  - rewrite (IH1 Hnd). apply IH2. by rewrite <- Hp1.
Qed.
End sort_by.

(** ** [Number(s)]

    The text of a number literal between white space: decimal, with the
    prefixes of other bases, or [Infinity]; anything else is [NaN].  The value
    is exact, as all numbers of the model, and infinite from the bound on
    where doubles are. *)

Definition num_clamp (n : Z) (d : positive) : number :=
  if (Z.abs n <? (2 ^ 1024 - 2 ^ 970) * Zpos d)%Z then Num n d
  else if (0 <? n)%Z then PosInf else NegInf.

Definition base_digit (base : Z) (c : ascii) : option Z :=
  let n := Z.of_nat (nat_of_ascii c) in
  let v := (if is_digit c then n - 48
            else if is_upper c then n - 55 else if is_lower c then n - 87 else base)%Z in
  if (v <? base)%Z then Some v else None.

Fixpoint base_value (base acc : Z) (l : list ascii) : option Z :=
  match l with
  | [] => Some acc
  | c :: l' => match base_digit base c with
               | Some v => base_value base (base * acc + v)%Z l'
               | None => None
               end
  end.

(** [0x], [0o] and [0b] literals, without a sign. *)
Definition prefixed_literal (l : list ascii) : option number :=
  match l with
  | "0"%char :: p :: (_ :: _) as digits =>
      let base := if one_of "xX" p then Some 16%Z else if one_of "oO" p then Some 8%Z
                  else if one_of "bB" p then Some 2%Z else None in
      match base with
      | Some b => Some (match base_value b 0 (drop 2 l) with Some v => num_clamp v 1 | None => NaN end)
      | None => None
      end
  | _ => None
  end.

(** The exponent part: absent, or [e] with an optional sign and digits. *)
Definition exponent_part (l : list ascii) : option Z :=
  match l with
  | [] => Some 0%Z
  | e :: rest =>
      if one_of "eE" e then
        let '(sign, ds) := match rest with
                           | "-"%char :: ds => ((-1)%Z, ds)
                           | "+"%char :: ds => (1%Z, ds)
                           | ds => (1%Z, ds)
                           end in
        match ds with
        | [] => None
        | _ => if forallb is_digit ds then Some (sign * digits_value ds)%Z else None
        end
      else None
  end.

Definition scaled (n e : Z) : number :=
  match n with
  | Z0 => int 0
  | _ => if (1000 <? e)%Z then (if (0 <? n)%Z then PosInf else NegInf)
         else if (0 <=? e)%Z then num_clamp (n * 10 ^ e)%Z 1
         else num_clamp n (Z.to_pos (10 ^ (- e))%Z)
  end.

Definition decimal_literal (l : list ascii) : number :=
  let '(sign, u) := match l with
                    | "-"%char :: u => ((-1)%Z, u) | "+"%char :: u => (1%Z, u) | u => (1%Z, u)
                    end in
  if bool_decide (unchars u = "Infinity"%string) then (if (0 <? sign)%Z then PosInf else NegInf)
  else
    let whole := take_while is_digit u in
    let after := drop_while is_digit u in
    let '(frac, rest) := match after with
                         | "."%char :: t => (take_while is_digit t, drop_while is_digit t)
                         | _ => ([], after)
                         end in
    match whole ++ frac, exponent_part rest with
    | [], _ | _, None => NaN
    | ds, Some e => scaled (sign * digits_value ds)%Z (e - Z.of_nat (length frac))%Z
    end.

Definition Number_of_string (s : string) : number :=
  match chars (trim s) with
  | [] => int 0
  | l => match prefixed_literal l with Some x => x | None => decimal_literal l end
  end.

Example Number_examples :
  (Number_of_string " 42 ", Number_of_string "", Number_of_string "1e2", Number_of_string "-0x10",
   Number_of_string "0x1F", Number_of_string "1.5", Number_of_string "12a", Number_of_string ".",
   Number_of_string "-Infinity") =
  (int 42, int 0, int 100, NaN, int 31, Num 15 10, NaN, NaN, NegInf).
Proof. vm_compute. reflexivity. Qed.
