(* ===== verification/JobStore.v ===== *)
(** * Stores of jobs

    The port behind [AsyncJobStorePort] (src/core/async-lifecycle.ts) and
    [CrawlJobStorePort] (src/core/crawl-jobs.ts), the laws the managers rely
    on, and the in-memory store, which both files write the same way: a map
    from identifier to job and a map from idempotency key to identifier.
    [id_of] and [key_of] read the two keys of a stored value. *)

From S2P Require Import Prelude JsString.

Class JobStorePort (X St : Type) := {
  store_get : St → string → option X;
  store_set : St → X → St;
  store_getByIdempotencyKey : St → string → option X;
  store_size : St → Z
}.

(** [store_ok] is the store's own invariant. *)
Class JobStoreLaws (X St : Type) (id_of : X → string) (key_of : X → option string)
    `{JobStorePort X St} := {
  store_ok : St → Prop;
  store_ok_set st x :
    store_ok st →
    (∀ y, store_get st (id_of x) = Some y → key_of y = key_of x) →
    store_ok (store_set st x);
  store_get_set st x id :
    store_get (store_set st x) id = if decide (id = id_of x) then Some x else store_get st id;
  store_get_id st id x : store_ok st → store_get st id = Some x → id_of x = id;
  store_key_get st k x :
    store_ok st → store_getByIdempotencyKey st k = Some x →
    key_of x = Some k ∧ store_get st (id_of x) = Some x;
  store_key_set st x k :
    store_ok st →
    (∀ y, store_get st (id_of x) = Some y → key_of y = key_of x) →
    store_getByIdempotencyKey (store_set st x) k =
      if decide (key_of x = Some k) then Some x else store_getByIdempotencyKey st k;
  store_size_set st x :
    store_size (store_set st x) =
      (store_size st + if store_get st (id_of x) then 0 else 1)%Z
}.

(** ** The in-memory store *)

Record MemStore (X : Type) := {
  jobs : gmap string X;
  byIdempotency : gmap string string
}.
Arguments Build_MemStore {X}.
Arguments jobs {X}.
Arguments byIdempotency {X}.

Definition empty_store {X} : MemStore X := {| jobs := ∅; byIdempotency := ∅ |}.

Section mem_store.
Context {X : Type} (id_of : X → string) (key_of : X → option string).

Definition mem_set (st : MemStore X) (x : X) : MemStore X :=
  {| jobs := <[id_of x := x]> (jobs st);
     byIdempotency :=
       match key_of x with
       | Some k => <[k := id_of x]> (byIdempotency st)
       | None => byIdempotency st
       end |}.

Definition mem_getByIdempotencyKey (st : MemStore X) (key : string) : option X :=
  match byIdempotency st !! key with
  | None => None
  | Some id => jobs st !! id
  end.

Definition mem_port : JobStorePort X (MemStore X) := {|
  store_get st id := jobs st !! id;
  store_set := mem_set;
  store_getByIdempotencyKey := mem_getByIdempotencyKey;
  store_size st := Z.of_nat (size (jobs st))
|}.

Definition mem_ok (st : MemStore X) : Prop :=
  (∀ id x, jobs st !! id = Some x → id_of x = id) ∧
  (∀ k id, byIdempotency st !! k = Some id →
     ∃ x, jobs st !! id = Some x ∧ key_of x = Some k).

Lemma mem_ok_empty : mem_ok empty_store.
Proof. split; cbn; intros *; by rewrite lookup_empty. Qed.

Lemma mem_ok_set st x :
  mem_ok st →
  (∀ y, jobs st !! id_of x = Some y → key_of y = key_of x) →
  mem_ok (mem_set st x).
Proof.
  intros [Hid Hkey] Hsame. split; cbn.
  - intros id y [[<- <-]|[_ Hy]]%lookup_insert_Some; eauto.
  - assert (∀ k id, byIdempotency st !! k = Some id →
      ∃ y, <[id_of x:=x]> (jobs st) !! id = Some y ∧ key_of y = Some k) as Hold.
    { intros k id (y & Hy & Hk)%Hkey.
      destruct (decide (id = id_of x)) as [->|Hne].
      - exists x. rewrite lookup_insert_eq. split; [done|]. rewrite <- (Hsame y); done.
      - exists y. by rewrite lookup_insert_ne. }
    destruct (key_of x) as [kx|] eqn:Hkx; [|done].
    intros k id [[<- <-]|[_ Hk]]%lookup_insert_Some; [|by apply Hold].
    exists x. by rewrite lookup_insert_eq.
Qed.

Lemma mem_key_set st x k :
  mem_ok st →
  (∀ y, jobs st !! id_of x = Some y → key_of y = key_of x) →
  mem_getByIdempotencyKey (mem_set st x) k =
    if decide (key_of x = Some k) then Some x else mem_getByIdempotencyKey st k.
Proof.
  intros [_ Hkey] Hsame. unfold mem_getByIdempotencyKey; cbn.
  case_decide as Hx.
  - rewrite Hx, lookup_insert_eq. apply lookup_insert_eq.
  - replace (match key_of x with Some k' => _ | None => _ end !! k)
      with (byIdempotency st !! k).
    2:{ destruct (key_of x); [|done]. rewrite lookup_insert_ne; [done|congruence]. }
    destruct (byIdempotency st !! k) as [id|] eqn:Hk; [|done].
    destruct (Hkey _ _ Hk) as (y & Hy & Hyk).
    rewrite lookup_insert_ne; [done|]. intros <-. rewrite (Hsame y) in Hyk; done.
Qed.

Definition mem_laws : @JobStoreLaws X (MemStore X) id_of key_of mem_port.
Proof.
  refine {| store_ok := mem_ok |}; cbn.
  - apply mem_ok_set.
  - intros st x id. case_decide as Hid; subst.
    + apply lookup_insert_eq.
    + by rewrite lookup_insert_ne.
  - intros st id x [Hid _]. apply Hid.
  - intros st k x [Hid Hkey]. unfold mem_getByIdempotencyKey.
    destruct (byIdempotency st !! k) as [id|] eqn:Hk; [|done]. intros Hx.
    destruct (Hkey _ _ Hk) as (y & Hy & Hyk).
    assert (y = x) as -> by congruence. split; [done|].
    pose proof (Hid _ _ Hx). subst id. exact Hx.
  - apply mem_key_set.
  - intros st x. destruct (jobs st !! id_of x) eqn:Hx.
    + rewrite map_size_insert_Some; [lia|done].
    + rewrite map_size_insert_None; [lia|done].
Defined.
End mem_store.

(** ** Stores whose values only evolve

    What a manager needs to show that each of its writes keeps every stored
    value well formed and replaces it, if at all, by one it can evolve to. *)
Section evolution.
Context {X St : Type} {id_of : X → string} {key_of : X → option string}.
Context `{!JobStorePort X St, !JobStoreLaws X St id_of key_of}.
Context (evolves : relation X) `{!PreOrder evolves} (wf : X → Prop).
Context (evolves_keys : ∀ x y, evolves x y → id_of y = id_of x ∧ key_of y = key_of x).

Record store_inv (st : St) : Prop := {
  si_ok : store_ok st;
  si_wf id x : store_get st id = Some x → wf x;
  si_keyed id x k : store_get st id = Some x → key_of x = Some k →
    store_getByIdempotencyKey st k = Some x
}.

Definition store_mono (st st' : St) : Prop :=
  ∀ id x, store_get st id = Some x → ∃ x', store_get st' id = Some x' ∧ evolves x x'.

#[export] Instance store_mono_preorder : PreOrder store_mono.
Proof.
  split.
  - intros st id x Hx. by exists x.
  - intros st1 st2 st3 H12 H23 id x Hx.
    destruct (H12 _ _ Hx) as (y & Hy & ?). destruct (H23 _ _ Hy) as (z & ? & ?).
    exists z. split; [done|]. by etrans.
Qed.

(** Replacing a stored value by one it evolves to. *)
Lemma store_save st id x y :
  store_inv st → store_get st id = Some x → evolves x y → wf y →
  store_inv (store_set st y) ∧ store_mono st (store_set st y) ∧
  store_size (store_set st y) = store_size st.
Proof.
  intros [Hok Hwf Hkeyed] Hx Hev Hy. destruct (evolves_keys _ _ Hev) as [Hid Hkey].
  pose proof (store_get_id _ _ _ Hok Hx) as Hxid. rewrite Hxid in Hid.
  assert (∀ z, store_get st (id_of y) = Some z → key_of z = key_of y) as Hsame.
  { rewrite Hid, Hx. by intros ? [= <-]. }
  split; [split|split].
  - by apply store_ok_set.
  - intros id' z. rewrite store_get_set. case_decide; [naive_solver|apply Hwf].
  - intros id' z k. rewrite store_get_set, store_key_set by done. case_decide as Hid'.
    + intros [= <-] Hk. by rewrite decide_True.
    + intros Hz Hk. rewrite decide_False; [by eapply Hkeyed|]. intros Hk'.
      rewrite Hkey in Hk'.
      pose proof (Hkeyed _ _ _ Hx Hk'). pose proof (Hkeyed _ _ _ Hz Hk).
      assert (z = x) as -> by congruence. apply Hid'.
      rewrite Hid, <- Hxid. symmetry. by eapply store_get_id.
  - intros id' z Hz. rewrite store_get_set, Hid. case_decide; [|by exists z].
    subst. exists y. split; [done|]. congruence.
  - rewrite store_size_set, Hid, Hx. lia.
Qed.

(** Storing a value under identifiers not in use. *)
Lemma store_insert st x :
  store_inv st → store_get st (id_of x) = None → wf x →
  (∀ k, key_of x = Some k → store_getByIdempotencyKey st k = None) →
  store_inv (store_set st x) ∧ store_mono st (store_set st x) ∧
  store_size (store_set st x) = (store_size st + 1)%Z.
Proof.
  intros [Hok Hwf Hkeyed] Hnone Hx Hfree.
  assert (∀ z, store_get st (id_of x) = Some z → key_of z = key_of x)
    as Hsame by (by rewrite Hnone).
  split; [split|split].
  - by apply store_ok_set.
  - intros id z. rewrite store_get_set. case_decide; [naive_solver|apply Hwf].
  - intros id z k. rewrite store_get_set, store_key_set by done. case_decide as Hid'.
    + intros [= <-] Hk. by rewrite decide_True.
    + intros Hz Hk. rewrite decide_False; [by eapply Hkeyed|]. intros Hk'.
      pose proof (Hkeyed _ _ _ Hz Hk). rewrite Hfree in *; done.
  - intros id z Hz. rewrite store_get_set. case_decide; [congruence|by exists z].
  - rewrite store_size_set, Hnone. lia.
Qed.
End evolution.

Lemma store_inv_empty {X} id_of key_of (wf : X → Prop) :
  @store_inv X (MemStore X) id_of key_of (mem_port id_of key_of) (mem_laws id_of key_of) wf
    empty_store.
Proof.
  split; cbn; [apply mem_ok_empty|..].
  - intros id x. by rewrite lookup_empty.
  - intros id x k. by rewrite lookup_empty.
Qed.
