(* ===== verification/AsyncContract.v ===== *)
(** * Contracts of the asynchronous job lifecycle

    The validators of [src/core/async-lifecycle.ts] (lines 1 to 437): the
    client capability matrix, the status machine of a job, the crawl-job
    contract, the upstream-error sanitiser and the URL gate. *)

From S2P Require Import Prelude JsString.

(** ** Client capability matrix *)

Record ClientCapabilityEntry := {
  clientId : string;
  supportsAsyncTasks : bool;
  supportsNotifications : bool;
  supportsPolling : bool;
  uploadHandoff : bool;
  verifiedAt : option string
}.

Definition ClientCapabilityMatrix := list ClientCapabilityEntry.

Definition KNOWN_CLIENT_IDS : list string := ["claude"; "codex"; "cursor"]%string.

Definition unknown_client_message (id : string) : string :=
  "Unknown client " +:+ quoted id +:+ "; known clients: " +:+ join ", " KNOWN_CLIENT_IDS.

(** The loop of [verifyClientMatrix], [seenIds] being what it has passed. *)
Fixpoint verifyEntries (seenIds : list string) (entries : ClientCapabilityMatrix)
    : result unit :=
  match entries with
  | [] => Ok tt
  | entry :: rest =>
      let id := clientId entry in
      if negb (bool_decide (id ∈ KNOWN_CLIENT_IDS)) then
        Throw (TError (unknown_client_message id))
      else if bool_decide (id ∈ seenIds) then
        Throw (TError ("Duplicate client entry for " +:+ quoted id))
      else match verifiedAt entry with
      | None => Throw (TError ("Client " +:+ quoted id +:+
          " has not been verified (verifiedAt is null); " +:+
          "async tasks cannot be enabled until all clients are verified"))
      | Some _ => verifyEntries (id :: seenIds) rest
      end
  end.

Definition verifyClientMatrix (matrix : ClientCapabilityMatrix) : result unit :=
  match matrix with
  | [] => Throw (TError "Client capability matrix must contain at least one entry")
  | _ => verifyEntries [] matrix
  end.

(** ** Job status *)

Inductive AsyncJobStatus :=
  | pending
  | running
  | input_required
  | completed
  | failed
  | cancelled_by_caller
  | cancelled_by_groundlane
  | cancelled_by_upstream.

#[export] Instance AsyncJobStatus_eq_dec : EqDecision AsyncJobStatus.
Proof. solve_decision. Defined.

Inductive CancelKind := cancel_caller | cancel_groundlane | cancel_upstream.

Definition status_name (s : AsyncJobStatus) : string :=
  match s with
  | pending => "pending"
  | running => "running"
  | input_required => "input_required"
  | completed => "completed"
  | failed => "failed"
  | cancelled_by_caller => "cancelled_by_caller"
  | cancelled_by_groundlane => "cancelled_by_groundlane"
  | cancelled_by_upstream => "cancelled_by_upstream"
  end.

Definition STATUS_ORDER (s : AsyncJobStatus) : Z :=
  match s with
  | pending => 0
  | running | input_required => 1
  | _ => 2
  end.

Definition validateStatusTransition (from to : AsyncJobStatus) : result unit :=
  let fromOrder := STATUS_ORDER from in
  let toOrder := STATUS_ORDER to in
  if bool_decide (from = to) then
    Throw (TError ("Status is already " +:+ quoted (status_name from) +:+
                   "; no transition needed"))
  else if (2 <=? fromOrder)%Z then
    Throw (TError ("Cannot transition from terminal status " +:+
                   quoted (status_name from) +:+ " to " +:+ quoted (status_name to)))
  else if (toOrder <? fromOrder)%Z then
    Throw (TError ("Non-monotonic status transition: " +:+ quoted (status_name from) +:+
                   " (" +:+ show fromOrder +:+ ") -> " +:+ quoted (status_name to) +:+
                   " (" +:+ show toOrder +:+ ")"))
  else Ok tt.

Definition isTerminalAsyncStatus (s : AsyncJobStatus) : bool :=
  match s with
  | completed | failed | cancelled_by_caller | cancelled_by_groundlane
  | cancelled_by_upstream => true
  | _ => false
  end.

Record BillingProvenance := {
  providerId : string;
  inputUnits : number;
  outputUnits : number;
  billedAt : option date_string
}.

Record AsyncJobRecord := {
  jobId : string;
  ownerId : string;
  providerJobId : string;
  credentialBinding : string;
  ttlSeconds : number;
  expiresAt : date_string;
  status : AsyncJobStatus;
  billingProvenance : BillingProvenance;
  sanitizedError : option string;
  job_result : js_value
}.

#[export] Instance AsyncJobRecord_updatable : Updatable AsyncJobRecord :=
  {| rebuild := λ r, Build_AsyncJobRecord (jobId r) (ownerId r) (providerJobId r)
       (credentialBinding r) (ttlSeconds r) (expiresAt r) (status r)
       (billingProvenance r) (sanitizedError r) (job_result r) |}.

Definition validateAsyncJobRecord (record : AsyncJobRecord) : result unit :=
  throw_if (falsy (jobId record)) (TError "jobId is required");;
  throw_if (falsy (ownerId record)) (TError "ownerId is required");;
  throw_if (falsy (credentialBinding record))
    (TError "credentialBinding is required for async job records");;
  throw_if (num_leb (ttlSeconds record) (int 0))
    (TError "ttlSeconds must be a positive number");;
  throw_if (negb (date_truthy (expiresAt record))) (TError "expiresAt is required");;
  throw_if (falsy (providerId (billingProvenance record)))
    (TError "billingProvenance.providerId is required").

Definition isJobExpired (record : AsyncJobRecord) (now : Z) : bool :=
  getTime_leb (expiresAt record) now.

(** ** Cancellation evidence *)

Record ProviderCancelAcknowledgment := {
  providerResponseCode : Z;
  acknowledgedAt : string
}.

Record CrawlCancelResult := {
  cr_callerCancelled : bool;
  cr_groundlanePollingCancelled : bool;
  cr_upstreamCancelled : bool;
  cr_providerAcknowledgment : option ProviderCancelAcknowledgment
}.

Definition validateCrawlCancelResult (r : CrawlCancelResult) : result unit :=
  throw_if (cr_upstreamCancelled r && bool_decide (cr_providerAcknowledgment r = None))
    (TError "upstreamCancelled cannot be true without providerAcknowledgment evidence").

(** ** Constants *)

Definition ASYNC_JOB_ID_PREFIX : string := "ajob-".
Definition MAX_ASYNC_JOBS : Z := 1000.
Definition MAX_SANITIZED_ERROR_CHARS : nat := 500.
Definition MAX_URL_CHARS : Z := 2000.

Inductive AsyncClientOperation := op_create | op_poll | op_result | op_cancel | op_resume.

#[export] Instance AsyncClientOperation_eq_dec : EqDecision AsyncClientOperation.
Proof. solve_decision. Defined.

Definition ASYNC_CLIENT_OPERATIONS : list AsyncClientOperation :=
  [op_create; op_poll; op_result; op_cancel; op_resume].

Definition operation_name (o : AsyncClientOperation) : string :=
  match o with
  | op_create => "create"
  | op_poll => "poll"
  | op_result => "result"
  | op_cancel => "cancel"
  | op_resume => "resume"
  end.

(** ** The URL gate

    The WHATWG URL parser is a service of the runtime: [new_URL s] is [None]
    when [new URL(s)] throws. *)

Record URL := {
  url_protocol : string;
  url_username : string;
  url_password : string;
  url_hostname : string;
  url_port : string;
  url_href : string
}.

Class UrlApi := { new_URL : string → option URL }.

Definition lifecycle_error (message : string) : thrown :=
  gerror INVALID_INPUT "async-lifecycle" message false.

Definition assertPublicHttpUrl `{UrlApi} (value field : string) : result string :=
  throw_if (falsy value || (MAX_URL_CHARS <? str_length value)%Z)
    (lifecycle_error (field +:+ " must be a non-empty URL within " +:+
                      show MAX_URL_CHARS +:+ " characters"));;
  match new_URL value with
  | None => Throw (lifecycle_error (field +:+ " must be a valid absolute URL"))
  | Some parsed =>
      throw_if (negb (bool_decide (url_protocol parsed = "http:"%string)) &&
                negb (bool_decide (url_protocol parsed = "https:"%string)))
        (lifecycle_error (field +:+ " must use HTTP(S); got " +:+
                          quoted (url_protocol parsed)));;
      throw_if (negb (falsy (url_username parsed)) || negb (falsy (url_password parsed)))
        (lifecycle_error (field +:+ " must not contain credentials"));;
      throw_if (falsy (url_hostname parsed))
        (lifecycle_error (field +:+ " must contain a hostname"));;
      Ok (url_href parsed)
  end.

(** ** The error sanitiser *)

(** [/bearer\s+[A-Za-z0-9\-._~+/=]+/gi] *)
Definition re_bearer : matcher := λ _ l,
  match_len l (
    l1 ← lit (chars "bearer") l;
    l2 ← plus_class is_space l1;
    plus_class (λ c, is_alnum c || one_of "-._~+/=" c) l2).

(** The class [[^\s,;}<quotes>]] of the two key patterns. *)
Definition secret_char (c : ascii) : bool :=
  negb (is_space c || one_of ",;}'" c || bool_decide (nat_of_ascii c = 34)).

(** [\s*[:=]\s*[^\s,;}<quotes>]+] *)
Definition assignment (l : list ascii) : option (list ascii) :=
  l1 ← one_char (one_of ":=") (drop_while is_space l);
  plus_class secret_char (drop_while is_space l1).

(** [/api[_-]?key\s*[:=]\s*[^\s,;}<quotes>]+/gi] *)
Definition re_api_key : matcher := λ _ l,
  match_len l (
    l1 ← lit (chars "api") l;
    l2 ← lit (chars "key") (opt_char (one_of "_-") l1);
    assignment l2).

(** [/\btoken\s*[:=]\s*[^\s,;}<quotes>]+/gi] *)
Definition re_token : matcher := λ prev l,
  match prev with
  | Some c => if is_word c then 0 else match_len l (l1 ← lit (chars "token") l; assignment l1)
  | None => match_len l (l1 ← lit (chars "token") l; assignment l1)
  end.

(** [/authorization\s*:\s*[^\n,}]+/gi]; when nothing but white space follows
    the colon, the last white space character is given back to the class. *)
Definition re_authorization : matcher := λ _ l,
  match_len l (
    l1 ← lit (chars "authorization") l;
    l2 ← one_char (one_of ":") (drop_while is_space l1);
    let header c := negb (one_of ",}" c || bool_decide (c = newline)) in
    match plus_class header (drop_while is_space l2) with
    | Some l3 => Some l3
    | None => match last (take_while is_space l2) with
              | Some c => if header c then Some (drop_while is_space l2) else None
              | None => None
              end
    end).

Definition SECRET_REDACTIONS : list matcher :=
  [re_bearer; re_api_key; re_token; re_authorization].

Definition redact (l : list ascii) : list ascii :=
  foldl (λ acc re, replace_all re "[redacted]" acc) l SECRET_REDACTIONS.

Definition FALLBACK_MESSAGE : string := "The upstream operation failed".

Definition thrown_message (error : thrown) : string :=
  match error with
  | TGroundlane e => errMessage e
  | TCoded _ message | TError message => message
  | TString s => s
  | TOther => FALLBACK_MESSAGE
  end.

Definition sanitizeUpstreamError (error : thrown) : string :=
  let firstLine := trim (first_line (thrown_message error)) in
  let redacted := redact (chars firstLine) in
  let collapsed := unchars (trim_chars (replace_all re_spaces " " redacted)) in
  if falsy collapsed then FALLBACK_MESSAGE
  else slice_to MAX_SANITIZED_ERROR_CHARS collapsed.

(** ** Capability evidence *)

Record ClientOperationEvidence := {
  ev_clientId : string;
  ev_operation : AsyncClientOperation;
  ev_verifiedAt : string;
  ev_transport : string
}.

Definition assertKnownClientId (id : string) : result unit :=
  throw_if (negb (bool_decide (id ∈ KNOWN_CLIENT_IDS)))
    (lifecycle_error (unknown_client_message id)).


(** ** Properties *)

(** whatever the upstream failure was, the stored message is log-safe:
    never empty, at most 500 characters, and on a single line whose only
    white space is plain spaces. *)
Theorem sanitized_error_is_bounded_single_line error :
  let m := sanitizeUpstreamError error in
  m ≠ ""%string ∧ String.length m ≤ MAX_SANITIZED_ERROR_CHARS ∧
  Forall (λ c, is_space c = true → c = " "%char) (chars m).
Proof.
  cbn zeta. unfold sanitizeUpstreamError. destruct (falsy _) eqn:Hf.
  - split_and!; [done|unfold MAX_SANITIZED_ERROR_CHARS; cbn; lia|].
    apply (Forall_impl (λ c, implb (is_space c) (bool_decide (c = " "%char)))).
    + apply forallb_True. vm_compute. done.
    + intros c Hc Hs. rewrite Hs in Hc. by apply bool_decide_unpack in Hc.
  - apply falsy_false in Hf. split_and!.
    + unfold slice_to. rewrite chars_unchars. apply unchars_nonempty.
      apply unchars_nonempty in Hf. by destruct (trim_chars _).
    + apply length_slice_to.
    + unfold slice_to. rewrite !chars_unchars. apply Forall_take, trim_Forall.
      apply replace_spaces_Forall.
Qed.

Lemma verifyEntries_Ok seen m :
  verifyEntries seen m = Ok tt ↔
  NoDup (clientId <$> m) ∧ (∀ e, e ∈ m → clientId e ∉ seen) ∧
  Forall (λ e, clientId e ∈ KNOWN_CLIENT_IDS ∧ is_Some (verifiedAt e)) m.
Proof.
  revert seen. induction m as [|e m IH]; intros seen; cbn.
  { split; [|done]. intros _. split_and!; [constructor|set_solver|constructor]. }
  rewrite NoDup_cons, Forall_cons.
  case_bool_decide as Hk; cbn; [|naive_solver].
  case_bool_decide as Hs; [set_solver|].
  destruct (verifiedAt e) eqn:Hv; [|naive_solver].
  rewrite IH. setoid_rewrite list_elem_of_fmap. split.
  - intros (Hnd & Hnew & Hall). split_and!; try done.
    + intros (e' & Heq & He'). apply (Hnew e' He'). rewrite <- Heq. constructor.
    + intros e' [->|He']%elem_of_cons; [done|].
      intros Hin. apply (Hnew e' He'). by constructor.
  - intros ([Hni Hnd] & Hnew & _ & Hall). split_and!; try done.
    intros e' He' [Heq|Hin]%elem_of_cons.
    + apply Hni. by exists e'.
    + apply (Hnew e'); [by constructor|done].
Qed.

(** The client matrix is accepted exactly when it is not empty, lists no
    client twice, and every entry is a known client that has been verified. *)
Theorem client_matrix_accepted_iff m :
  verifyClientMatrix m = Ok tt ↔
  m ≠ [] ∧ NoDup (clientId <$> m) ∧
  ∀ e, e ∈ m → clientId e ∈ KNOWN_CLIENT_IDS ∧ is_Some (verifiedAt e).
Proof.
  rewrite <- Forall_forall.
  destruct m as [|e m]; [split; [discriminate|naive_solver]|].
  unfold verifyClientMatrix. rewrite verifyEntries_Ok. split; [naive_solver|].
  intros (_ & ? & ?). split_and!; [done| |done]. intros e' _. apply not_elem_of_nil.
Qed.
