(* ===== verification/AsyncJobs.v ===== *)
(** * The asynchronous job manager

    [AsyncJobManager] of [src/core/async-lifecycle.ts] (lines 429 to 1129):
    the internal state of a job and its public view, the store port with its
    in-memory implementation, the provider port, and every method of the
    manager as a state-passing function. *)

From S2P Require Import Prelude JsString JobStore AsyncContract.

(** ** Data *)

Record AsyncJobCaller := { c_ownerId : string; c_credentialBinding : string }.

Record CreateAsyncJobInput := {
  in_ownerId : string;
  in_credentialBinding : string;
  in_providerId : string;
  in_ttlSeconds : number;
  in_idempotencyKey : option string;
  in_sourceUrl : option string;
  in_operationInput : js_value;
  in_now : Z
}.

Record BillingUnits := { u_inputUnits : number; u_outputUnits : number }.

(** The caller-visible view; absent optional fields are [None] or
    [JUndefined]. *)
Record PublicAsyncJob := {
  pub_jobId : string;
  pub_ownerId : string;
  pub_createdAt : date_string;
  pub_updatedAt : date_string;
  pub_status : AsyncJobStatus;
  pub_expiresAt : date_string;
  pub_billingProvenance : BillingProvenance;
  pub_callerCancelled : bool;
  pub_groundlanePollingCancelled : bool;
  pub_upstreamCancelRequested : bool;
  pub_upstreamCancelled : bool;
  pub_sanitizedError : option string;
  pub_result : js_value
}.

Record AsyncJobCreateResult := { cr_job : PublicAsyncJob; cr_reused : bool }.
Record UpstreamCancelOutcome := { uc_job : PublicAsyncJob; uc_cancelResult : CrawlCancelResult }.
Record PaidCallOutcome := { pc_reused : bool }.
Record ArtifactWriteOutcome := { aw_reused : bool; aw_result : js_value }.

Record InternalAsyncJobState := {
  record : AsyncJobRecord;
  createdAt : date_string;
  updatedAt : date_string;
  idempotencyKey : option string;
  callerCancelled : bool;
  groundlanePollingCancelled : bool;
  upstreamCancelRequested : bool;
  upstreamAcknowledgment : option ProviderCancelAcknowledgment;
  paidCallCompleted : bool;
  artifactWriteCompleted : bool;
  artifactResult : js_value;
  st_operationInput : js_value
}.

#[export] Instance InternalAsyncJobState_updatable : Updatable InternalAsyncJobState :=
  {| rebuild := λ s, Build_InternalAsyncJobState (record s) (createdAt s) (updatedAt s)
       (idempotencyKey s) (callerCancelled s) (groundlanePollingCancelled s)
       (upstreamCancelRequested s) (upstreamAcknowledgment s) (paidCallCompleted s)
       (artifactWriteCompleted s) (artifactResult s) (st_operationInput s) |}.

Definition state_id (s : InternalAsyncJobState) : string := jobId (record s).

(** ** The store *)

Abbreviation AsyncJobStorePort := (JobStorePort InternalAsyncJobState).
Abbreviation AsyncJobStoreLaws St :=
  (JobStoreLaws InternalAsyncJobState St state_id idempotencyKey).

Definition InMemoryAsyncJobStore : Type := MemStore InternalAsyncJobState.

#[export] Instance InMemoryAsyncJobStore_port
    : JobStorePort InternalAsyncJobState InMemoryAsyncJobStore :=
  mem_port state_id idempotencyKey.

#[export] Instance InMemoryAsyncJobStore_laws : AsyncJobStoreLaws InMemoryAsyncJobStore :=
  mem_laws state_id idempotencyKey.

(** ** Pure helpers *)

Definition buildAsyncIdempotencyKey (owner key : string) : result string :=
  throw_if (falsy owner) (lifecycle_error "ownerId is required");;
  throw_if (falsy key) (lifecycle_error "idempotencyKey must be non-empty");;
  Ok (owner +:+ ":" +:+ key).

Definition toPublicAsyncJob (state : InternalAsyncJobState) : PublicAsyncJob := {|
  pub_jobId := jobId (record state);
  pub_ownerId := ownerId (record state);
  pub_createdAt := createdAt state;
  pub_updatedAt := updatedAt state;
  pub_status := status (record state);
  pub_expiresAt := expiresAt (record state);
  pub_billingProvenance := billingProvenance (record state);
  pub_callerCancelled := callerCancelled state;
  pub_groundlanePollingCancelled := groundlanePollingCancelled state;
  pub_upstreamCancelRequested := upstreamCancelRequested state;
  pub_upstreamCancelled := negb (bool_decide (upstreamAcknowledgment state = None));
  pub_sanitizedError := sanitizedError (record state);
  pub_result := job_result (record state)
|}.

(** [transition]: the contract's error is rethrown as a [GroundlaneError]
    with the same message. *)
Definition transition (state : InternalAsyncJobState) (to : AsyncJobStatus) (now : Z)
    : result InternalAsyncJobState :=
  match validateStatusTransition (status (record state)) to with
  | Throw error => Throw (lifecycle_error (thrown_message error))
  | Ok _ => Ok (state <| record := (record state) <| status := to |> |>
                      <| updatedAt := IsoAt now |>)
  end.

Definition assertNonTerminal (state : InternalAsyncJobState) : result unit :=
  throw_if (isTerminalAsyncStatus (status (record state)))
    (lifecycle_error ("Cannot transition from terminal status " +:+
                      quoted (status_name (status (record state))))).

(** ** The manager *)

(** The provider port: calls that read and write the outside world [W] and
    may throw. *)
Class AsyncProviderPort (W : Type) := {
  createTask : string → string → M W string;
  cancelTask : string → M W (option ProviderCancelAcknowledgment)
}.

(** The manager's fields that change, and the world its ports act on. *)
Record Manager (St W : Type) := {
  store : St;
  evidence : gmap string ClientOperationEvidence;
  world : W
}.
Arguments Build_Manager {St W}.
Arguments store {St W}.
Arguments evidence {St W}.
Arguments world {St W}.

#[export] Instance Manager_updatable {St W} : Updatable (Manager St W) :=
  {| rebuild := λ m, Build_Manager (store m) (evidence m) (world m) |}.

(** The constructor's options. *)
Record AsyncJobManagerOptions (W : Type) := {
  provider : option (AsyncProviderPort W);
  maxJobs : Z;
  jobIdPrefix : string;
  jobIdFactory : M W string
}.
Arguments Build_AsyncJobManagerOptions {W}.
Arguments provider {W}.
Arguments maxJobs {W}.
Arguments jobIdPrefix {W}.
Arguments jobIdFactory {W}.

Section manager.
Context {St W : Type} `{AsyncJobStorePort St} `{UrlApi}.
Context (this : AsyncJobManagerOptions W).

Abbreviation Mgr := (M (Manager St W)).

Definition on_world {A} (m : M W A) : Mgr A := λ s,
  let '(r, w) := m (world s) in (r, s <| world := w |>).

Definition save (state : InternalAsyncJobState) : Mgr unit :=
  update (λ s, s <| store := store_set (store s) state |>).

Definition resolve (id : string) (caller : AsyncJobCaller) (now : Z)
    : Mgr InternalAsyncJobState :=
  s ← get;
  match store_get (store s) id with
  | None => throw (lifecycle_error ("Unknown async job " +:+ quoted id))
  | Some state =>
      lift (
        throw_if (negb (bool_decide (ownerId (record state) = c_ownerId caller)))
          (lifecycle_error "Owner mismatch: caller does not own this async job");;
        throw_if (negb (bool_decide
            (credentialBinding (record state) = c_credentialBinding caller)))
          (lifecycle_error ("Credential binding mismatch: caller credential " +:+
                            "does not match this async job"));;
        throw_if (isJobExpired (record state) now)
          (gerror DEADLINE_EXCEEDED "async-lifecycle"
             ("Async job " +:+ quoted id +:+ " has expired") false);;
        Ok state)
  end.

(** The guards of [create], up to the URL check, whose result is dropped. *)
Definition validateCreateInput (input : CreateAsyncJobInput) : result unit :=
  throw_if (falsy (in_ownerId input)) (lifecycle_error "ownerId is required");;
  throw_if (falsy (in_credentialBinding input))
    (lifecycle_error "credentialBinding is required for async job records");;
  throw_if (falsy (in_providerId input))
    (lifecycle_error "billingProvenance.providerId is required");;
  throw_if (negb (isFinite (in_ttlSeconds input)) || num_leb (in_ttlSeconds input) (int 0))
    (lifecycle_error "ttlSeconds must be a positive number");;
  match in_sourceUrl input with
  | Some url => assertPublicHttpUrl url "sourceUrl";; Ok tt
  | None => Ok tt
  end.

(** The job the idempotency key already names, if any. *)
Definition findReusable (input : CreateAsyncJobInput)
    : Mgr (option InternalAsyncJobState) :=
  match in_idempotencyKey input with
  | None => mret None
  | Some k =>
      key ← lift (buildAsyncIdempotencyKey (in_ownerId input) k);
      s ← get;
      mret (store_getByIdempotencyKey (store s) key)
  end.

Definition initialBilling (provider_id : string) : BillingProvenance :=
  {| providerId := provider_id; inputUnits := int 0; outputUnits := int 0;
     billedAt := None |}.

Definition initialRecord (input : CreateAsyncJobInput) (id provider_job : string)
    (expiry : date_string) : AsyncJobRecord := {|
  jobId := id;
  ownerId := in_ownerId input;
  providerJobId := provider_job;
  credentialBinding := in_credentialBinding input;
  ttlSeconds := in_ttlSeconds input;
  expiresAt := expiry;
  status := pending;
  billingProvenance := initialBilling (in_providerId input);
  sanitizedError := None;
  job_result := JUndefined
|}.

Definition initialState (input : CreateAsyncJobInput) (r : AsyncJobRecord)
    (key : option string) : InternalAsyncJobState := {|
  record := r;
  createdAt := IsoAt (in_now input);
  updatedAt := IsoAt (in_now input);
  idempotencyKey := key;
  callerCancelled := false;
  groundlanePollingCancelled := false;
  upstreamCancelRequested := false;
  upstreamAcknowledgment := None;
  paidCallCompleted := false;
  artifactWriteCompleted := false;
  artifactResult := JNull;
  st_operationInput := in_operationInput input
|}.

Definition optionalKey (input : CreateAsyncJobInput) : result (option string) :=
  match in_idempotencyKey input with
  | None => Ok None
  | Some k => key ← buildAsyncIdempotencyKey (in_ownerId input) k; Ok (Some key)
  end.

(** What [create] does once no existing job is reused: the provider task is
    created first, and the expiry is formatted after it. *)
Definition createFresh (input : CreateAsyncJobInput) : Mgr AsyncJobCreateResult :=
  s ← get;
  lift (throw_if (maxJobs this <=? store_size (store s))%Z
    (gerror CONCURRENCY_LIMIT "async-lifecycle" "The async job store is full" true));;
  uuid ← on_world (jobIdFactory this);
  let id := jobIdPrefix this +:+ uuid in
  provider_job ← match provider this with
                 | None => mret ("deferred:" +:+ id)
                 | Some p => on_world (createTask (in_ownerId input) (in_providerId input))
                 end;
  expiry ← lift (toISOString (new_Date (num_shift (in_now input)
                                          (num_scale (in_ttlSeconds input) 1000))));
  let r := initialRecord input id provider_job expiry in
  lift (validateAsyncJobRecord r);;
  key ← lift (optionalKey input);
  let state := initialState input r key in
  save state;;
  mret {| cr_job := toPublicAsyncJob state; cr_reused := false |}.

Definition create (input : CreateAsyncJobInput) : Mgr AsyncJobCreateResult :=
  lift (validateCreateInput input);;
  existing ← findReusable input;
  match existing with
  | Some state => mret {| cr_job := toPublicAsyncJob state; cr_reused := true |}
  | None => createFresh input
  end.

Definition poll (id : string) (caller : AsyncJobCaller) (now : Z) : Mgr PublicAsyncJob :=
  state ← resolve id caller now;
  mret (toPublicAsyncJob state).

(** The method [result]. *)
Definition fetchResult (id : string) (caller : AsyncJobCaller) (now : Z)
    : Mgr PublicAsyncJob :=
  state ← resolve id caller now;
  mret (toPublicAsyncJob state).

(** Store the new state and return its public view. *)
Definition commit (next : InternalAsyncJobState) : Mgr PublicAsyncJob :=
  save next;;
  mret (toPublicAsyncJob next).

Definition markRunning (id : string) (caller : AsyncJobCaller) (now : Z)
    : Mgr PublicAsyncJob :=
  state ← resolve id caller now;
  next ← lift (transition state running now);
  commit next.

Definition markInputRequired (id : string) (caller : AsyncJobCaller)
    (inputRequests : js_value) (now : Z) : Mgr PublicAsyncJob :=
  state ← resolve id caller now;
  transitioned ← lift (transition state input_required now);
  commit (transitioned
    <| record := (record transitioned) <| job_result := inputRequests |> |>).

Definition markCompleted (id : string) (caller : AsyncJobCaller) (value : js_value)
    (billing : option BillingUnits) (now : Z) : Mgr PublicAsyncJob :=
  state ← resolve id caller now;
  transitioned ← lift (transition state completed now);
  let previous := billingProvenance (record transitioned) in
  let bill :=
    match billing with
    | None => previous
    | Some units =>
        {| providerId := providerId previous;
           inputUnits := u_inputUnits units;
           outputUnits := u_outputUnits units;
           billedAt := Some (IsoAt now) |}
    end in
  let r := (record transitioned) <| billingProvenance := bill |> in
  commit (transitioned
    <| record := if is_undefined value then r else r <| job_result := value |> |>).

Definition markFailed (id : string) (caller : AsyncJobCaller) (upstreamError : thrown)
    (now : Z) : Mgr PublicAsyncJob :=
  state ← resolve id caller now;
  transitioned ← lift (transition state failed now);
  commit (transitioned
    <| record := (record transitioned)
         <| sanitizedError := Some (sanitizeUpstreamError upstreamError) |> |>).

Definition is_count (x : number) : bool := isInteger x && negb (num_ltb x (int 0)).

Definition recordPaidCall (id : string) (caller : AsyncJobCaller) (units : BillingUnits)
    (now : Z) : Mgr PaidCallOutcome :=
  lift (throw_if (negb (is_count (u_inputUnits units)))
    (lifecycle_error "inputUnits must be a non-negative integer"));;
  lift (throw_if (negb (is_count (u_outputUnits units)))
    (lifecycle_error "outputUnits must be a non-negative integer"));;
  state ← resolve id caller now;
  if paidCallCompleted state then mret {| pc_reused := true |}
  else
    let previous := billingProvenance (record state) in
    let bill := {|
      providerId := providerId previous;
      inputUnits := num_add (inputUnits previous) (u_inputUnits units);
      outputUnits := num_add (outputUnits previous) (u_outputUnits units);
      billedAt := Some (default (IsoAt now) (billedAt previous)) |} in
    save (state
      <| record := (record state) <| billingProvenance := bill |> |>
      <| paidCallCompleted := true |>
      <| updatedAt := IsoAt now |>);;
    mret {| pc_reused := false |}.

Definition recordArtifactWrite (id : string) (caller : AsyncJobCaller) (value : js_value)
    (now : Z) : Mgr ArtifactWriteOutcome :=
  state ← resolve id caller now;
  if artifactWriteCompleted state then
    mret {| aw_reused := true; aw_result := artifactResult state |}
  else
    save (state
      <| artifactWriteCompleted := true |>
      <| artifactResult := value |>
      <| updatedAt := IsoAt now |>);;
    mret {| aw_reused := false; aw_result := value |}.

Definition cancelCallerWait (id : string) (caller : AsyncJobCaller) (now : Z)
    : Mgr PublicAsyncJob :=
  state ← resolve id caller now;
  transitioned ← lift (transition state cancelled_by_caller now);
  commit (transitioned <| callerCancelled := true |>).

Definition cancelGroundlanePolling (id : string) (caller : AsyncJobCaller) (now : Z)
    : Mgr PublicAsyncJob :=
  state ← resolve id caller now;
  transitioned ← lift (transition state cancelled_by_groundlane now);
  commit (transitioned <| groundlanePollingCancelled := true |>).

Definition requestUpstreamCancel (id : string) (caller : AsyncJobCaller) (now : Z)
    : Mgr UpstreamCancelOutcome :=
  state ← resolve id caller now;
  lift (assertNonTerminal state);;
  acknowledgment ← match provider this with
                   | None => mret None
                   | Some p => on_world (cancelTask (providerJobId (record state)))
                   end;
  match acknowledgment with
  | None =>
      let next := state <| upstreamCancelRequested := true |>
                        <| updatedAt := IsoAt now |> in
      save next;;
      let cancelResult := {|
        cr_callerCancelled := callerCancelled next;
        cr_groundlanePollingCancelled := groundlanePollingCancelled next;
        cr_upstreamCancelled := false;
        cr_providerAcknowledgment := None |} in
      lift (validateCrawlCancelResult cancelResult);;
      mret {| uc_job := toPublicAsyncJob next; uc_cancelResult := cancelResult |}
  | Some ack =>
      transitioned ← lift (transition state cancelled_by_upstream now);
      let next := transitioned <| upstreamCancelRequested := true |>
                               <| upstreamAcknowledgment := Some ack |> in
      save next;;
      let cancelResult := {|
        cr_callerCancelled := callerCancelled next;
        cr_groundlanePollingCancelled := groundlanePollingCancelled next;
        cr_upstreamCancelled := true;
        cr_providerAcknowledgment := Some ack |} in
      lift (validateCrawlCancelResult cancelResult);;
      mret {| uc_job := toPublicAsyncJob next; uc_cancelResult := cancelResult |}
  end.

(** *** Capability evidence *)

Definition evidence_key (id : string) (o : AsyncClientOperation) : string :=
  id +:+ ":" +:+ operation_name o.

(** The membership test on [ASYNC_CLIENT_OPERATIONS] always passes: the
    operation is one of the enumerated ones by its type. *)
Definition recordClientEvidence (e : ClientOperationEvidence) : Mgr unit :=
  lift (assertKnownClientId (ev_clientId e));;
  lift (throw_if (negb (bool_decide (ev_operation e ∈ ASYNC_CLIENT_OPERATIONS)))
    (lifecycle_error ("Unknown async operation " +:+
                      quoted (operation_name (ev_operation e)))));;
  lift (throw_if (falsy (ev_verifiedAt e))
    (lifecycle_error "verifiedAt is required for capability evidence"));;
  lift (throw_if (falsy (ev_transport e))
    (lifecycle_error "transport is required for capability evidence"));;
  update (λ s, s <| evidence := <[evidence_key (ev_clientId e) (ev_operation e) := e]>
                                  (evidence s) |>).

Definition assertClientOperation (id : string) (o : AsyncClientOperation) : Mgr unit :=
  lift (assertKnownClientId id);;
  s ← get;
  lift (throw_if (bool_decide (evidence s !! evidence_key id o = None))
    (lifecycle_error ("No verified " +:+ operation_name o +:+ " evidence for client " +:+
       quoted id +:+ "; async operations require observed create/poll/result/cancel/" +:+
       "resume verification, not SDK type inference"))).

Definition verifiedCreate (client : string) (input : CreateAsyncJobInput)
    : Mgr AsyncJobCreateResult :=
  assertClientOperation client op_create;; create input.

Definition verifiedPoll (client id : string) (caller : AsyncJobCaller) (now : Z)
    : Mgr PublicAsyncJob :=
  assertClientOperation client op_poll;; poll id caller now.

Definition verifiedResult (client id : string) (caller : AsyncJobCaller) (now : Z)
    : Mgr PublicAsyncJob :=
  assertClientOperation client op_result;; fetchResult id caller now.

Definition verifiedCancel (client id : string) (caller : AsyncJobCaller) (kind : CancelKind)
    (now : Z) : Mgr PublicAsyncJob :=
  assertClientOperation client op_cancel;;
  match kind with
  | cancel_caller => cancelCallerWait id caller now
  | cancel_groundlane => cancelGroundlanePolling id caller now
  | cancel_upstream => outcome ← requestUpstreamCancel id caller now; mret (uc_job outcome)
  end.

Definition resumeAfterDisconnect (client id : string) (caller : AsyncJobCaller) (now : Z)
    : Mgr PublicAsyncJob :=
  assertClientOperation client op_resume;; poll id caller now.

(** *** Internal provider handle *)

Definition attachProviderTask (id : string) (caller : AsyncJobCaller)
    (provider_job : string) (now : Z) : Mgr unit :=
  lift (throw_if ((str_length provider_job =? 0)%Z || (512 <? str_length provider_job)%Z)
    (lifecycle_error "provider job ID is invalid"));;
  state ← resolve id caller now;
  save (state
    <| record := (record state) <| providerJobId := provider_job |> |>
    <| updatedAt := IsoAt now |>).

Definition providerTaskId (id : string) (caller : AsyncJobCaller) (now : Z) : Mgr string :=
  state ← resolve id caller now;
  mret (providerJobId (record state)).

Definition operationInput (id : string) (caller : AsyncJobCaller) (now : Z) : Mgr js_value :=
  state ← resolve id caller now;
  mret (st_operationInput state).

(** The method [cancelTask]. *)
Definition cancelJobTask (id : string) (caller : AsyncJobCaller)
    (ack : option ProviderCancelAcknowledgment) (now : Z) : Mgr PublicAsyncJob :=
  state ← resolve id caller now;
  let target := match ack with
                | None => cancelled_by_caller
                | Some _ => cancelled_by_upstream
                end in
  transitioned ← lift (transition state target now);
  commit (transitioned
    <| callerCancelled := true |>
    <| groundlanePollingCancelled := true |>
    <| upstreamCancelRequested := true |>
    <| upstreamAcknowledgment := ack |>).
End manager.
