(* ===== verification/AsyncJobsSafety.v ===== *)
(** * Correctness of the asynchronous job manager

    Reachability over the manager's methods, the well-formedness invariant,
    the evolution order of a job, and the manager's properties. *)

From S2P Require Import Prelude JsString JobStore AsyncContract AsyncJobs.

(** ** The commands of the manager *)

(** Every public method that can write state.  The read-only methods are
    treated apart. *)
Inductive command :=
  | CmdCreate (input : CreateAsyncJobInput)
  | CmdMarkRunning (id : string) (caller : AsyncJobCaller) (now : Z)
  | CmdMarkInputRequired (id : string) (caller : AsyncJobCaller) (v : js_value) (now : Z)
  | CmdMarkCompleted (id : string) (caller : AsyncJobCaller) (v : js_value)
      (billing : option BillingUnits) (now : Z)
  | CmdMarkFailed (id : string) (caller : AsyncJobCaller) (e : thrown) (now : Z)
  | CmdRecordPaidCall (id : string) (caller : AsyncJobCaller) (units : BillingUnits) (now : Z)
  | CmdRecordArtifactWrite (id : string) (caller : AsyncJobCaller) (v : js_value) (now : Z)
  | CmdCancelCallerWait (id : string) (caller : AsyncJobCaller) (now : Z)
  | CmdCancelGroundlanePolling (id : string) (caller : AsyncJobCaller) (now : Z)
  | CmdRequestUpstreamCancel (id : string) (caller : AsyncJobCaller) (now : Z)
  | CmdRecordClientEvidence (e : ClientOperationEvidence)
  | CmdVerifiedCreate (client : string) (input : CreateAsyncJobInput)
  | CmdVerifiedCancel (client id : string) (caller : AsyncJobCaller) (kind : CancelKind)
      (now : Z)
  | CmdAttachProviderTask (id : string) (caller : AsyncJobCaller) (provider_job : string)
      (now : Z)
  | CmdCancelTask (id : string) (caller : AsyncJobCaller)
      (ack : option ProviderCancelAcknowledgment) (now : Z).

(** The job an identifier names. *)
Abbreviation job_at s id := (store_get (store s) id).

(** ** The order in which a job evolves *)

Record evolves (x y : InternalAsyncJobState) : Prop := {
  ev_id : state_id y = state_id x;
  ev_owner : ownerId (record y) = ownerId (record x);
  ev_credential : credentialBinding (record y) = credentialBinding (record x);
  ev_ttl : ttlSeconds (record y) = ttlSeconds (record x);
  ev_expiry : expiresAt (record y) = expiresAt (record x);
  ev_created : createdAt y = createdAt x;
  ev_key : idempotencyKey y = idempotencyKey x;
  ev_provider : providerId (billingProvenance (record y)) =
                providerId (billingProvenance (record x));
  ev_input : st_operationInput y = st_operationInput x;
  ev_rank : (STATUS_ORDER (status (record x)) <= STATUS_ORDER (status (record y)))%Z;
  ev_terminal : isTerminalAsyncStatus (status (record x)) = true →
                status (record y) = status (record x) ∧
                job_result (record y) = job_result (record x) ∧
                sanitizedError (record y) = sanitizedError (record x) ∧
                upstreamAcknowledgment y = upstreamAcknowledgment x;
  ev_paid : paidCallCompleted x = true → paidCallCompleted y = true;
  ev_artifact : artifactWriteCompleted x = true →
                artifactWriteCompleted y = true ∧ artifactResult y = artifactResult x
}.

#[export] Instance evolves_preorder : PreOrder evolves.
Proof.
  split.
  - intros x. constructor; auto; lia.
  - intros x y z [] []. constructor; try congruence; try lia; try (by auto).
    + intros Hx. destruct (ev_terminal0 Hx) as (Hs & ? & ? & ?).
      rewrite <- Hs in Hx. destruct (ev_terminal1 Hx) as (? & ? & ? & ?).
      repeat split; congruence.
    + intros Hx. destruct (ev_artifact0 Hx) as [Hy ?].
      destruct (ev_artifact1 Hy). split; congruence.
Qed.

Lemma terminal_rank s : isTerminalAsyncStatus s = (2 <=? STATUS_ORDER s)%Z.
Proof. by destruct s. Qed.

(** The successful transitions, as a proposition. *)
Definition allowed (from to : AsyncJobStatus) : Prop :=
  from ≠ to ∧ isTerminalAsyncStatus from = false ∧
  (STATUS_ORDER from <= STATUS_ORDER to)%Z.

Lemma validateStatusTransition_spec from to :
  match validateStatusTransition from to with
  | Ok _ => allowed from to
  | Throw _ => ¬ allowed from to
  end.
Proof.
  unfold validateStatusTransition, allowed. rewrite terminal_rank.
  repeat case_match; reflect; naive_solver lia.
Qed.

Lemma transition_spec state to now next :
  transition state to now = Ok next ↔
  allowed (status (record state)) to ∧
  next = state <| record := (record state) <| status := to |> |> <| updatedAt := IsoAt now |>.
Proof.
  unfold transition. pose proof (validateStatusTransition_spec (status (record state)) to) as Hs.
  destruct (validateStatusTransition _ _); naive_solver.
Qed.

(** ** Well-formed jobs *)

Record wf_job (x : InternalAsyncJobState) : Prop := {
  wf_owner : ownerId (record x) ≠ ""%string;
  wf_credential : credentialBinding (record x) ≠ ""%string;
  wf_provider : providerId (billingProvenance (record x)) ≠ ""%string;
  wf_expiry : ∃ t0 t1, createdAt x = IsoAt t0 ∧ expiresAt (record x) = IsoAt t1 ∧ (t0 <= t1)%Z;
  wf_ack : upstreamAcknowledgment x ≠ None ↔ status (record x) = cancelled_by_upstream;
  wf_caller_flag : status (record x) = cancelled_by_caller → callerCancelled x = true;
  wf_groundlane_flag :
    status (record x) = cancelled_by_groundlane → groundlanePollingCancelled x = true;
  wf_error : sanitizedError (record x) ≠ None ↔ status (record x) = failed;
  wf_unbilled : paidCallCompleted x = false → status (record x) ≠ completed →
    billingProvenance (record x) = initialBilling (providerId (billingProvenance (record x)));
  wf_key : ∀ k, idempotencyKey x = Some k →
    ∃ raw, raw ≠ ""%string ∧ k = ownerId (record x) +:+ ":" +:+ raw
}.

(** ** Fresh identifiers

    [crypto.randomUUID] never repeats.  [issued w] is the set of identifiers
    the factory has given out; the provider's calls give out none. *)
Class FreshIds {W : Type} (this : AsyncJobManagerOptions W) := {
  issued : W → gset string;
  factory_fresh w :
    match jobIdFactory this w with
    | (Ok u, w') => u ∉ issued w ∧ issued w' = {[u]} ∪ issued w
    | (Throw _, w') => issued w' = issued w
    end;
  createTask_issued p w a b :
    provider this = Some p → issued (createTask (AsyncProviderPort := p) a b w).2 = issued w;
  cancelTask_issued p w a :
    provider this = Some p → issued (cancelTask (AsyncProviderPort := p) a w).2 = issued w
}.

Section safety.
Context {St W : Type} `{!AsyncJobStorePort St, !AsyncJobStoreLaws St} `{UrlApi}.
Context (this : AsyncJobManagerOptions W) `{!FreshIds this}.

Abbreviation Mgr := (M (Manager St W)).

(** ** Execution of commands *)

Definition void {A} (m : Mgr A) : Mgr unit := m;; mret tt.

Definition exec (c : command) : Mgr unit :=
  match c with
  | CmdCreate input => void (create this input)
  | CmdMarkRunning id caller now => void (markRunning id caller now)
  | CmdMarkInputRequired id caller v now => void (markInputRequired id caller v now)
  | CmdMarkCompleted id caller v billing now => void (markCompleted id caller v billing now)
  | CmdMarkFailed id caller e now => void (markFailed id caller e now)
  | CmdRecordPaidCall id caller units now => void (recordPaidCall id caller units now)
  | CmdRecordArtifactWrite id caller v now => void (recordArtifactWrite id caller v now)
  | CmdCancelCallerWait id caller now => void (cancelCallerWait id caller now)
  | CmdCancelGroundlanePolling id caller now => void (cancelGroundlanePolling id caller now)
  | CmdRequestUpstreamCancel id caller now => void (requestUpstreamCancel this id caller now)
  | CmdRecordClientEvidence e => recordClientEvidence e
  | CmdVerifiedCreate client input => void (verifiedCreate this client input)
  | CmdVerifiedCancel client id caller kind now =>
      void (verifiedCancel this client id caller kind now)
  | CmdAttachProviderTask id caller p now => attachProviderTask id caller p now
  | CmdCancelTask id caller ack now => void (cancelJobTask id caller ack now)
  end.

(** Whether it returned or threw, a command leads to the state it left. *)
Definition step (s s' : Manager St W) : Prop := ∃ c, (exec c s).2 = s'.
Definition steps : relation (Manager St W) := rtc step.

(** ** The manager's invariant *)

Record inv (s : Manager St W) : Prop := {
  inv_ok : store_ok (store s);
  inv_wf id x : job_at s id = Some x → wf_job x;
  inv_issued id x : job_at s id = Some x → ∃ u, u ∈ issued (world s) ∧ id = jobIdPrefix this +:+ u;
  inv_keyed id x k : job_at s id = Some x → idempotencyKey x = Some k →
    store_getByIdempotencyKey (store s) k = Some x;
  inv_size : (store_size (store s) <= Z.max 0 (maxJobs this))%Z
}.

Definition mono (s s' : Manager St W) : Prop :=
  ∀ id x, job_at s id = Some x → ∃ x', job_at s' id = Some x' ∧ evolves x x'.

Definition good (s s' : Manager St W) : Prop := inv s' ∧ mono s s'.

Lemma mono_store s s' : store s' = store s → mono s s'.
Proof. intros Heq id x Hx. exists x. by rewrite Heq. Qed.

Lemma mono_refl s : mono s s.
Proof. by apply mono_store. Qed.

#[local] Instance mono_preorder : PreOrder mono.
Proof.
  split; [exact mono_refl|]. intros s1 s2 s3 H12 H23 id x Hx.
  destruct (H12 _ _ Hx) as (y & Hy & ?). destruct (H23 _ _ Hy) as (z & ? & ?).
  exists z. split; [done|]. by etrans.
Qed.

Lemma good_refl s : inv s → good s s.
Proof. intros Hs. by split. Qed.

(** Writes to the evidence table change no job. *)
Lemma good_evidence s e : inv s → good s (s <| evidence := e |>).
Proof. intros []. split; [by split|by apply mono_store]. Qed.

(** The world moves without giving out identifiers. *)
Lemma good_world s w :
  inv s → issued (world s) ⊆ issued w → good s (s <| world := w |>).
Proof.
  intros [] Hw. split; [|by apply mono_store]. split; cbn; auto.
  intros id x Hx. destruct (inv_issued0 _ _ Hx) as (u & ? & ?). exists u. split; [set_solver|done].
Qed.

(** Storing an evolved job. *)
Lemma good_save s id x next :
  inv s → job_at s id = Some x → evolves x next → wf_job next →
  good s (s <| store := store_set (store s) next |>).
Proof.
  intros [Hok Hwf Hiss Hkeyed Hsz] Hx Hev Hnext.
  assert (state_id next = id) as Hid.
  { rewrite (ev_id _ _ Hev). by eapply store_get_id. }
  assert (∀ y, job_at s (state_id next) = Some y → idempotencyKey y = idempotencyKey next)
    as Hsame.
  { rewrite Hid, Hx. intros ? [= <-]. symmetry. by destruct Hev. }
  split.
  - split; cbn.
    + by apply store_ok_set.
    + intros id' y. rewrite store_get_set. case_decide; [naive_solver|apply Hwf].
    + intros id' y. rewrite store_get_set. case_decide; [|apply Hiss].
      intros _. subst. apply (Hiss _ _ Hx).
    + intros id' y k. rewrite store_get_set, store_key_set by done. case_decide as Hid'.
      * intros [= <-] Hk. by rewrite decide_True.
      * intros Hy Hk. rewrite decide_False; [by eapply Hkeyed|]. intros Hk'.
        rewrite (ev_key _ _ Hev) in Hk'.
        pose proof (Hkeyed _ _ _ Hx Hk'). pose proof (Hkeyed _ _ _ Hy Hk).
        assert (y = x) as -> by congruence. apply Hid'.
        rewrite Hid, <- (store_get_id _ _ _ Hok Hx). symmetry. by eapply store_get_id.
    + rewrite store_size_set, Hid, Hx. lia.
  - intros id' y Hy; cbn. rewrite store_get_set, Hid. case_decide; [|by exists y].
    subst. exists next. split; [done|]. congruence.
Qed.

Lemma good_evolved s id x next :
  inv s → job_at s id = Some x → evolves x next ∧ wf_job next →
  good s (s <| store := store_set (store s) next |>).
Proof. intros ? ? []. by eapply good_save. Qed.

(** ** The rules of [resolve] and of the writes *)

Definition accessible (s : Manager St W) (id : string) (caller : AsyncJobCaller) (now : Z)
    (x : InternalAsyncJobState) : Prop :=
  job_at s id = Some x ∧ ownerId (record x) = c_ownerId caller ∧
  credentialBinding (record x) = c_credentialBinding caller ∧
  isJobExpired (record x) now = false.

Lemma wp_resolve {A} id caller now (f : InternalAsyncJobState → Mgr A) Q s :
  (∀ e, (∀ x, ¬ accessible s id caller now x) → Q (Throw e) s) →
  (∀ x, accessible s id caller now x → wp (f x) Q s) →
  wp (resolve id caller now ≫= f) Q s.
Proof.
  intros He Hx. apply wp_bind. unfold resolve. apply wp_get.
  destruct (job_at s id) as [x|] eqn:Hid.
  2:{ apply wp_throw, He. unfold accessible. naive_solver. }
  apply wp_lift. unfold accessible in *.
  destruct (bool_decide (ownerId _ = _)) eqn:Ho; reflect; cbn; [|apply He; intros ? (?&?&?&?); congruence].
  destruct (bool_decide (credentialBinding _ = _)) eqn:Hc; reflect; cbn;
    [|apply He; intros ? (?&?&?&?); congruence].
  destruct (isJobExpired (record x) now) eqn:Hexp; cbn; [apply He; intros ? (?&?&?&?); congruence|].
  by apply Hx.
Qed.

(** ** Every command preserves the invariant and only evolves jobs *)

(** What is known of a job that has not reached a terminal status. *)
Lemma wf_nonterminal x :
  wf_job x → isTerminalAsyncStatus (status (record x)) = false →
  upstreamAcknowledgment x = None ∧ sanitizedError (record x) = None ∧
  status (record x) ≠ completed ∧ status (record x) ≠ failed ∧
  status (record x) ≠ cancelled_by_upstream.
Proof.
  intros Hwf Hnt.
  assert (status (record x) ≠ failed) by (intros He; by rewrite He in Hnt).
  assert (status (record x) ≠ cancelled_by_upstream) by (intros He; by rewrite He in Hnt).
  repeat split; try done.
  - destruct (upstreamAcknowledgment x) eqn:Ha; [|done]. destruct Hwf. naive_solver.
  - destruct (sanitizedError (record x)) eqn:Ha; [|done]. destruct Hwf. naive_solver.
  - intros He; by rewrite He in Hnt.
Qed.

Lemma inv_accessible s id caller now x :
  inv s → accessible s id caller now x → job_at s id = Some x ∧ wf_job x.
Proof. intros Hs (Hx & _). split; [done|]. by eapply inv_wf. Qed.

Lemma void_state {A} (m : Mgr A) s Q :
  wp m (λ _ s', Q s') s → wp (void m) (λ _ s', Q s') s.
Proof. intros Hm. unfold void. apply wp_bind. eapply wp_mono; [exact Hm|]. by intros []. Qed.

Definition keeps {A} (m : Mgr A) : Prop :=
  ∀ s, inv s → wp m (λ _ s', good s s') s.

(** An operation that resolves a job and then works on it. *)
Lemma keeps_resolve {A} id caller now (f : InternalAsyncJobState → Mgr A) :
  (∀ s x, inv s → job_at s id = Some x → wf_job x → wp (f x) (λ _ s', good s s') s) →
  keeps (resolve id caller now ≫= f).
Proof.
  intros Hf s Hs. apply wp_resolve; [auto using good_refl|].
  intros x Hx. destruct (inv_accessible _ _ _ _ _ Hs Hx). auto.
Qed.

(** A status transition followed by the storing of [g] of its outcome. *)
Lemma keeps_transition s id x to now (g : InternalAsyncJobState → InternalAsyncJobState) :
  inv s → job_at s id = Some x →
  (allowed (status (record x)) to →
   let t := x <| record := (record x) <| status := to |> |> <| updatedAt := IsoAt now |> in
   evolves x (g t) ∧ wf_job (g t)) →
  wp (t ← lift (transition x to now); commit (g t)) (λ _ s', good s s') s.
Proof.
  intros Hs Hx Hg. apply wp_bind, wp_lift.
  destruct (transition x to now) as [t|e] eqn:Ht; [|by apply good_refl].
  apply transition_spec in Ht as [Hal ->]. destruct (Hg Hal).
  eapply good_save; eauto.
Qed.

Lemma accessible_fun s id caller now x y :
  accessible s id caller now x → accessible s id caller now y → x = y.
Proof. intros (? & _) (? & _). congruence. Qed.

Lemma resolve_run {A} id caller now (f : InternalAsyncJobState → Mgr A) s x :
  accessible s id caller now x → (resolve id caller now ≫= f) s = f x s.
Proof.
  intros Hx.
  assert (wp (resolve id caller now ≫= f) (λ r s', (r, s') = f x s) s) as Hwp.
  { apply wp_resolve; [intros e Hno; by destruct (Hno x)|].
    intros y Hy. rewrite (accessible_fun _ _ _ _ _ _ Hy Hx).
    unfold wp. by rewrite <- surjective_pairing. }
  unfold wp in Hwp. by rewrite <- surjective_pairing in Hwp.
Qed.

Lemma resolve_inv {A} id caller now (f : InternalAsyncJobState → Mgr A) s a s' :
  (resolve id caller now ≫= f) s = (Ok a, s') →
  ∃ x, accessible s id caller now x ∧ f x s = (Ok a, s').
Proof.
  intros Hm.
  assert (wp (resolve id caller now ≫= f)
    (λ r s', ∀ a, r = Ok a → ∃ x, accessible s id caller now x ∧ f x s = (Ok a, s')) s) as Hwp.
  { apply wp_resolve; [done|]. intros x Hx. apply wp_intro.
    intros r s'' Hf a' ->. eauto. }
  exact (wp_run _ _ _ _ _ Hwp Hm a eq_refl).
Qed.
End safety.

(** Evolution out of a non-terminal status, and well-formedness after it. *)
Ltac solve_evolution :=
  match goal with
  | Hal : allowed ?from _, Hwf : wf_job ?x |- _ =>
      destruct Hal as (? & ? & ?);
      destruct (wf_nonterminal x Hwf) as (? & ? & ? & ? & ?); [done|];
      split; [constructor; cbn; (done || (intros; congruence) || (intros; lia) || auto)
             |destruct Hwf; constructor; cbn; try done; try naive_solver congruence]
  end.

Section safety_commands.
Context {St W : Type} `{!AsyncJobStorePort St, !AsyncJobStoreLaws St} `{UrlApi}.
Context (this : AsyncJobManagerOptions W) `{!FreshIds this}.

Notation keeps := (keeps this (St := St)).

Lemma keeps_markRunning id caller now : keeps (markRunning id caller now).
Proof.
  apply keeps_resolve. intros s x Hs Hx Hwf.
  eapply (keeps_transition _ _ _ _ _ _ (λ t, t)); eauto. intros Hal. cbn. solve_evolution.
Qed.

Lemma keeps_markInputRequired id caller v now : keeps (markInputRequired id caller v now).
Proof.
  apply keeps_resolve. intros s x Hs Hx Hwf.
  eapply (keeps_transition _ _ _ _ _ _
    (λ t, t <| record := (record t) <| job_result := v |> |>)); eauto.
  intros Hal. cbn. solve_evolution.
Qed.

Lemma keeps_markCompleted id caller v billing now :
  keeps (markCompleted id caller v billing now).
Proof.
  apply keeps_resolve. intros s x Hs Hx Hwf.
  eapply (keeps_transition _ _ _ _ _ _ (λ t,
    let previous := billingProvenance (record t) in
    let bill := match billing with
                | None => previous
                | Some units =>
                    {| providerId := providerId previous;
                       inputUnits := u_inputUnits units;
                       outputUnits := u_outputUnits units;
                       billedAt := Some (IsoAt now) |}
                end in
    let r := (record t) <| billingProvenance := bill |> in
    t <| record := if is_undefined v then r else r <| job_result := v |> |>)); eauto.
  intros Hal. destruct billing, (is_undefined v); cbn; solve_evolution.
Qed.

Lemma keeps_markFailed id caller e now : keeps (markFailed id caller e now).
Proof.
  apply keeps_resolve. intros s x Hs Hx Hwf.
  eapply (keeps_transition _ _ _ _ _ _ (λ t,
    t <| record := (record t) <| sanitizedError := Some (sanitizeUpstreamError e) |> |>));
    eauto.
  intros Hal. cbn. solve_evolution.
Qed.

Lemma keeps_cancelCallerWait id caller now : keeps (cancelCallerWait id caller now).
Proof.
  apply keeps_resolve. intros s x Hs Hx Hwf.
  eapply (keeps_transition _ _ _ _ _ _ (λ t, t <| callerCancelled := true |>)); eauto.
  intros Hal. cbn. solve_evolution.
Qed.

Lemma keeps_cancelGroundlanePolling id caller now :
  keeps (cancelGroundlanePolling id caller now).
Proof.
  apply keeps_resolve. intros s x Hs Hx Hwf.
  eapply (keeps_transition _ _ _ _ _ _ (λ t, t <| groundlanePollingCancelled := true |>));
    eauto.
  intros Hal. cbn. solve_evolution.
Qed.

Lemma keeps_cancelJobTask id caller ack now : keeps (cancelJobTask id caller ack now).
Proof.
  apply keeps_resolve. intros s x Hs Hx Hwf.
  eapply (keeps_transition _ _ _ _ _ _ (λ t, t
    <| callerCancelled := true |> <| groundlanePollingCancelled := true |>
    <| upstreamCancelRequested := true |> <| upstreamAcknowledgment := ack |>)); eauto.
  intros Hal. destruct ack; cbn; solve_evolution.
Qed.

(** A write that leaves the status alone. *)
Lemma keeps_write s id x next {A} (a : A) :
  inv this s → job_at s id = Some x → evolves x next → wf_job next →
  wp (save next;; mret a) (λ _ s', good this s s') s.
Proof. intros. eapply good_save; eauto. Qed.

Lemma keeps_recordPaidCall id caller units now : keeps (recordPaidCall id caller units now).
Proof.
  intros s Hs. do 2 (apply wp_throw_if; [by intros; apply good_refl|intros _]).
  revert s Hs. apply keeps_resolve. intros s x Hs Hx Hwf.
  destruct (paidCallCompleted x) eqn:Hp; [by apply good_refl|].
  eapply keeps_write; eauto.
  - constructor; cbn; done || (intros; congruence).
  - destruct Hwf; constructor; cbn; done.
Qed.

Lemma keeps_recordArtifactWrite id caller v now : keeps (recordArtifactWrite id caller v now).
Proof.
  apply keeps_resolve. intros s x Hs Hx Hwf.
  destruct (artifactWriteCompleted x) eqn:Hp; [by apply good_refl|].
  eapply keeps_write; eauto.
  - constructor; cbn; done || (intros; congruence).
  - destruct Hwf; constructor; cbn; done.
Qed.

Lemma keeps_attachProviderTask id caller p now : keeps (attachProviderTask id caller p now).
Proof.
  intros s Hs. apply wp_throw_if; [by intros; apply good_refl|intros _].
  revert s Hs. apply keeps_resolve. intros s x Hs Hx Hwf. eapply good_save; eauto.
  - constructor; cbn; done.
  - destruct Hwf; constructor; cbn; done.
Qed.

Lemma keeps_recordClientEvidence e : keeps (recordClientEvidence e).
Proof.
  intros s Hs. do 4 (apply wp_throw_if; [by intros; apply good_refl|intros _]).
  by apply good_evidence.
Qed.

Lemma good_trans s1 s2 s3 : good this s1 s2 → good this s2 s3 → good this s1 s3.
Proof. intros [_ H12] [Hs3 H23]. split; [done|]. by eapply mono_preorder; eauto. Qed.

Lemma wp_on_world {A} (m : M W A) (Q : result A → Manager St W → Prop) s :
  (∀ r w, m (world s) = (r, w) → Q r (s <| world := w |>)) → wp (on_world m) Q s.
Proof.
  intros HQ. unfold wp, on_world. destruct (m (world s)) as [r w] eqn:Hm. by apply HQ.
Qed.

(** The provider's answer to a cancellation, or no provider. *)
Definition askCancel (provider_job : string) : M (Manager St W) (option ProviderCancelAcknowledgment) :=
  match provider this with
  | None => mret None
  | Some p => on_world (cancelTask provider_job)
  end.

Lemma wp_askCancel job (Q : result (option ProviderCancelAcknowledgment) → Manager St W → Prop) s :
  inv this s →
  (∀ r w, good this s (s <| world := w |>) → Q r (s <| world := w |>)) →
  wp (askCancel job) Q s.
Proof.
  intros Hs HQ. unfold askCancel. destruct (provider this) as [p|] eqn:Hp.
  - apply wp_on_world. intros r w Hm. apply HQ, good_world; [done|].
    pose proof (cancelTask_issued p (world s) job Hp) as Hi. rewrite Hm in Hi. cbn in Hi.
    by rewrite Hi.
  - apply wp_ret. destruct s as [st ev w]. apply (HQ _ w). by apply good_refl.
Qed.

Lemma keeps_requestUpstreamCancel id caller now :
  keeps (requestUpstreamCancel this id caller now).
Proof.
  apply keeps_resolve. intros s x Hs Hx Hwf.
  apply wp_throw_if; [by intros; apply good_refl|intros Hnt].
  apply wp_bind. apply (wp_askCancel _ _ _ Hs). intros [[ack|]|e] w Hw; [| |done].
  - apply wp_bind, wp_lift.
    destruct (transition x cancelled_by_upstream now) as [t|e] eqn:Ht; [|done].
    apply transition_spec in Ht as [Hal ->].
    eapply good_trans; [exact Hw|]. destruct Hw as [Hw _].
    eapply good_evolved; [done|exact Hx|]. cbn. solve_evolution.
  - eapply good_trans; [exact Hw|]. destruct Hw as [Hw _].
    eapply good_save; [done|exact Hx|..].
    + constructor; cbn; done.
    + destruct Hwf; constructor; cbn; done.
Qed.

(** *** Creation *)

Lemma expiry_after now ttl t :
  num_leb ttl (int 0) = false → isFinite ttl = true →
  new_Date (num_shift now (num_scale ttl 1000)) = Some t → (now <= t)%Z.
Proof.
  destruct ttl as [| | |n d]; cbn; try done. intros Hpos%Z.leb_gt _.
  case_match; [|done]. intros [= <-].
  rewrite <- (Z.quot_mul now (Zpos d)) at 1 by lia.
  apply Z.quot_le_mono; lia.
Qed.

Lemma create_input_ok input u :
  validateCreateInput input = Ok u →
  in_ownerId input ≠ ""%string ∧ in_credentialBinding input ≠ ""%string ∧
  in_providerId input ≠ ""%string ∧ isFinite (in_ttlSeconds input) = true ∧
  num_leb (in_ttlSeconds input) (int 0) = false.
Proof.
  unfold validateCreateInput. intros Hv.
  apply result_bind_Ok in Hv as ([] & H1'%throw_if_Ok%falsy_false & Hv).
  apply result_bind_Ok in Hv as ([] & H2'%throw_if_Ok%falsy_false & Hv).
  apply result_bind_Ok in Hv as ([] & H3'%throw_if_Ok%falsy_false & Hv).
  apply result_bind_Ok in Hv as ([] & H4'%throw_if_Ok & Hv).
  reflect. done.
Qed.

Lemma optionalKey_spec input key :
  optionalKey input = Ok key →
  ∀ k, key = Some k → ∃ raw, raw ≠ ""%string ∧ k = in_ownerId input +:+ ":" +:+ raw.
Proof.
  unfold optionalKey, buildAsyncIdempotencyKey.
  destruct (in_idempotencyKey input) as [raw|]; [|naive_solver].
  unfold throw_if. destruct (falsy (in_ownerId input)); [done|].
  destruct (falsy raw) eqn:Hraw; [done|]. apply falsy_false in Hraw.
  cbn. naive_solver.
Qed.

Lemma wf_initialState input id p t1 key u :
  validateCreateInput input = Ok u →
  new_Date (num_shift (in_now input) (num_scale (in_ttlSeconds input) 1000)) = Some t1 →
  optionalKey input = Ok key →
  wf_job (initialState input (initialRecord input id p (IsoAt t1)) key).
Proof.
  intros (? & ? & ? & Hfin & Hpos)%create_input_ok Ht Hkey.
  constructor; cbn; try done.
  - exists (in_now input), t1. repeat split. by eapply expiry_after.
  - by eapply optionalKey_spec.
Qed.

Lemma job_id_inj (p a b : string) : p +:+ a = p +:+ b → a = b.
Proof. apply String.app_inj. Qed.

(** Storing a job under an identifier just given out. *)
Lemma good_save_new s x uuid :
  inv this s → uuid ∈ issued (world s) → state_id x = jobIdPrefix this +:+ uuid →
  job_at s (state_id x) = None → wf_job x → (store_size (store s) < maxJobs this)%Z →
  (∀ k, idempotencyKey x = Some k → store_getByIdempotencyKey (store s) k = None) →
  good this s (s <| store := store_set (store s) x |>).
Proof.
  intros [Hok Hwf Hiss Hkeyed Hsz] Hu Hid Hnone Hx Hlt Hfree.
  assert (∀ y, job_at s (state_id x) = Some y → idempotencyKey y = idempotencyKey x)
    as Hsame by (by rewrite Hnone).
  split.
  - split; cbn.
    + by apply store_ok_set.
    + intros id y. rewrite store_get_set. case_decide; [naive_solver|apply Hwf].
    + intros id y. rewrite store_get_set. case_decide; [|apply Hiss].
      intros _. subst. eauto.
    + intros id y k. rewrite store_get_set, store_key_set by done. case_decide as Hid'.
      * intros [= <-] Hk. by rewrite decide_True.
      * intros Hy Hk. rewrite decide_False; [by eapply Hkeyed|]. intros Hk'.
        pose proof (Hkeyed _ _ _ Hy Hk). rewrite Hfree in *; done.
    + rewrite store_size_set, Hnone. lia.
  - intros id y Hy; cbn. rewrite store_get_set. case_decide; [congruence|by exists y].
Qed.

Definition askCreate (owner provider_id id : string) : M (Manager St W) string :=
  match provider this with
  | None => mret ("deferred:" +:+ id)
  | Some p => on_world (createTask owner provider_id)
  end.

Lemma wp_askCreate a b id (Q : result string → Manager St W → Prop) s :
  (∀ r w, issued w = issued (world s) → Q r (s <| world := w |>)) →
  wp (askCreate a b id) Q s.
Proof.
  intros HQ. unfold askCreate. destruct (provider this) as [p|] eqn:Hp.
  - apply wp_on_world. intros r w Hm. apply HQ.
    pose proof (createTask_issued p (world s) a b Hp) as Hi. by rewrite Hm in Hi.
  - apply wp_ret. destruct s as [st ev w]. by apply (HQ _ w).
Qed.

(** No stored job answers to the key of [input]. *)
Definition key_free (s : Manager St W) (input : CreateAsyncJobInput) : Prop :=
  ∀ k, optionalKey input = Ok (Some k) → store_getByIdempotencyKey (store s) k = None.

Lemma good_createFresh input u s :
  validateCreateInput input = Ok u → key_free s input → inv this s →
  wp (createFresh this input) (λ _ s', good this s s') s.
Proof.
  intros Hin Hfree Hs. apply wp_get.
  apply wp_throw_if; [by intros; apply good_refl|intros Hsz; reflect].
  apply wp_bind, wp_on_world. intros r w Hw.
  pose proof (factory_fresh (world s)) as Hf. rewrite Hw in Hf.
  destruct r as [uuid|e]; [|by apply good_world; rewrite ?Hf].
  destruct Hf as [Hnew Hissued].
  apply wp_bind, wp_askCreate. intros r' w' Hw'; cbn in Hw'.
  assert (good this s (s <| world := w |> <| world := w' |>)) as Hgood.
  { apply (good_world this s w'); [done|]. set_solver. }
  destruct r' as [job|]; [|done].
  apply wp_bind, wp_lift.
  destruct (new_Date _) as [t1|] eqn:Ht; [|done]. cbn.
  apply wp_bind, wp_lift. destruct (validateAsyncJobRecord _); [|done].
  apply wp_bind, wp_lift. destruct (optionalKey input) as [key|] eqn:Hkey; [|done].
  eapply good_trans; [exact Hgood|].
  set (s1 := s <| world := w |> <| world := w' |>).
  set (x := initialState input
              (initialRecord input (jobIdPrefix this +:+ uuid) job (IsoAt t1)) key).
  change (good this s1 (s1 <| store := store_set (store s1) x |>)).
  apply (good_save_new s1 x uuid); cbn.
  - apply Hgood.
  - set_solver.
  - done.
  - destruct (store_get _ _) eqn:Hget; [exfalso|done].
    destruct (inv_issued _ _ Hs _ _ Hget) as (u' & ? & Hu').
    apply job_id_inj in Hu' as ->. done.
  - by eapply wf_initialState.
  - done.
  - intros k ->. by apply Hfree.
Qed.

Lemma wp_findReusable input (Q : result _ → Manager St W → Prop) s :
  (∀ e, Q (Throw e) s) →
  (∀ k x, optionalKey input = Ok (Some k) → store_getByIdempotencyKey (store s) k = Some x →
     Q (Ok (Some x)) s) →
  (key_free s input → Q (Ok None) s) →
  wp (findReusable input) Q s.
Proof.
  intros He Hx Hn. unfold findReusable, key_free, optionalKey in *.
  destruct (in_idempotencyKey input) as [k|]; [|apply wp_ret, Hn; naive_solver].
  apply wp_bind, wp_lift. destruct (buildAsyncIdempotencyKey _ _) as [key|]; [|by apply He].
  apply wp_get, wp_ret. cbn in *. destruct (store_getByIdempotencyKey _ _) eqn:Hget.
  - by eapply Hx.
  - apply Hn. naive_solver.
Qed.

Lemma keeps_create input : keeps (create this input).
Proof.
  intros s Hs. apply wp_bind, wp_lift.
  destruct (validateCreateInput input) as [u|] eqn:Hin; [|by apply good_refl].
  apply wp_bind, wp_findReusable.
  - intros. by apply good_refl.
  - intros. by apply good_refl.
  - intros. by eapply good_createFresh.
Qed.

(** *** All commands *)

Lemma wp_assertClientOperation {A} client o (m : M (Manager St W) A) s :
  inv this s → keeps m →
  wp (assertClientOperation client o;; m) (λ _ s', good this s s') s.
Proof.
  intros Hs Hm. apply wp_bind. unfold assertClientOperation.
  apply wp_throw_if; [by intros; apply good_refl|intros _]. apply wp_get, wp_lift.
  destruct (throw_if _ _); [by apply Hm|by apply good_refl].
Qed.

Lemma keeps_void {A} (m : M (Manager St W) A) : keeps m → keeps (void m).
Proof. intros Hm s Hs. by apply void_state, Hm. Qed.

#[local] Hint Resolve keeps_void keeps_create keeps_markRunning keeps_markInputRequired
  keeps_markCompleted keeps_markFailed keeps_recordPaidCall keeps_recordArtifactWrite
  keeps_cancelCallerWait keeps_cancelGroundlanePolling keeps_requestUpstreamCancel
  keeps_recordClientEvidence keeps_attachProviderTask keeps_cancelJobTask : core.

Lemma keeps_verifiedCancel client id caller kind now :
  keeps (verifiedCancel this client id caller kind now).
Proof.
  intros s Hs. apply wp_assertClientOperation; [done|].
  destruct kind; [auto|auto|]. intros s' Hs'. apply wp_bind.
  eapply wp_mono; [by apply keeps_requestUpstreamCancel|]. by intros [].
Qed.

Lemma keeps_exec c : keeps (exec this c).
Proof.
  destruct c; cbn; auto using keeps_verifiedCancel.
  apply keeps_void. intros s Hs. apply wp_assertClientOperation; auto.
Qed.

(** Reachable states keep the invariant, and their jobs only evolve. *)
Lemma steps_good s s' : inv this s → steps this s s' → good this s s'.
Proof.
  intros Hs Hsteps. induction Hsteps as [|s s1 s2 [c <-] _ IH]; [by apply good_refl|].
  pose proof (keeps_exec c s Hs) as Hg. destruct (Hg) as [Hs1 _].
  eapply good_trans; [exact Hg|by apply IH].
Qed.

Lemma steps_job s s' id x :
  inv this s → steps this s s' → job_at s id = Some x →
  ∃ y, job_at s' id = Some y ∧ evolves x y ∧ wf_job y.
Proof.
  intros Hs Hst Hx. destruct (steps_good _ _ Hs Hst) as [Hs' Hm].
  destruct (Hm _ _ Hx) as (y & Hy & Hev). exists y. split_and!; [done..|].
  by eapply inv_wf.
Qed.
End safety_commands.

(** The manager a constructor call returns, over an empty in-memory store. *)
Definition new_manager {W} (w : W) : Manager InMemoryAsyncJobStore W :=
  {| store := empty_store; evidence := ∅; world := w |}.

Lemma inv_new_manager {W} (this : AsyncJobManagerOptions W) `{!FreshIds this} w :
  inv this (new_manager w).
Proof.
  split; cbn; [apply mem_ok_empty|..].
  - intros id x. by rewrite lookup_empty.
  - intros id x. by rewrite lookup_empty.
  - intros id x k. by rewrite lookup_empty.
  - rewrite map_size_empty. lia.
Qed.

(** ** A concrete world

    A counter that issues identifiers and the list of tasks the provider has
    been asked to create; the provider acknowledges no cancellation of the
    task ["stuck"] and every other one. *)
Module Demo.
Record demo_world := { next_id : nat; tasks : list string }.

#[export] Instance demo_world_updatable : Updatable demo_world :=
  {| rebuild := λ w, Build_demo_world (next_id w) (tasks w) |}.

Definition demo_createTask (owner provider_id : string) : M demo_world string := λ w,
  (Ok ("task:" +:+ owner), w <| tasks := (tasks w ++ [owner])%list |>).

Definition demo_cancelTask (job : string) : M demo_world (option ProviderCancelAcknowledgment) :=
  λ w, (Ok (if bool_decide (job = "stuck"%string) then None
            else Some {| providerResponseCode := 200; acknowledgedAt := "now" |}), w).

Definition demo_provider : AsyncProviderPort demo_world :=
  {| createTask := demo_createTask; cancelTask := demo_cancelTask |}.

Definition demo_factory : M demo_world string := λ w,
  (Ok (pretty (next_id w)), w <| next_id := S (next_id w) |>).

Definition options : AsyncJobManagerOptions demo_world := {|
  provider := Some demo_provider;
  maxJobs := 2;
  jobIdPrefix := ASYNC_JOB_ID_PREFIX;
  jobIdFactory := demo_factory
|}.

Definition demo_issued (w : demo_world) : gset string :=
  list_to_set (pretty <$> seq 0 (next_id w)).

#[export] Instance options_fresh : FreshIds options.
Proof.
  refine {| issued := demo_issued |}.
  - intros w. cbn. unfold demo_issued. split.
    + rewrite elem_of_list_to_set, list_elem_of_fmap.
      intros (n & Heq & Hn%elem_of_seq). apply pretty_nat_inj in Heq. lia.
    + change (list_to_set (pretty <$> seq 0 (S (next_id w))) =
              {[pretty (next_id w)]} ∪ list_to_set (C := gset string)
                                        (pretty <$> seq 0 (next_id w))).
      rewrite seq_S, fmap_app, list_to_set_app_L. cbn. set_solver.
  - by intros p w a b [= <-].
  - by intros p w a [= <-].
Defined.

#[export] Instance demo_url : UrlApi :=
  {| new_URL s := if bool_decide (s = "https://example.com/"%string)
                  then Some {| url_protocol := "https:"; url_username := "";
                               url_password := ""; url_hostname := "example.com";
                               url_port := ""; url_href := s |}
                  else None |}.

Definition alice : AsyncJobCaller :=
  {| c_ownerId := "alice"; c_credentialBinding := "cred" |}.
Definition mallory : AsyncJobCaller :=
  {| c_ownerId := "mallory"; c_credentialBinding := "cred" |}.

Definition input (key : option string) : CreateAsyncJobInput := {|
  in_ownerId := "alice"; in_credentialBinding := "cred"; in_providerId := "linkup";
  in_ttlSeconds := int 60; in_idempotencyKey := key;
  in_sourceUrl := Some "https://example.com/"%string;
  in_operationInput := JUndefined; in_now := 1000 |}.

Definition w0 : demo_world := {| next_id := 0; tasks := [] |}.
Definition s0 : Manager InMemoryAsyncJobStore demo_world := new_manager w0.

(** The manager after the creation of job ["ajob-0"] with key ["k"]. *)
Definition s1 := (create options (input (Some "k"%string)) s0).2.
Definition job0 : string := "ajob-0".

Lemma s0_inv : inv options s0.
Proof. apply inv_new_manager. Qed.

Lemma s1_steps : steps options s0 s1.
Proof. apply rtc_once. by exists (CmdCreate (input (Some "k"%string))). Qed.

Lemma s1_inv : inv options s1.
Proof. apply (steps_good _ _ _ s0_inv s1_steps). Qed.

(** The job stored in [s1]. *)
Definition x0 : InternalAsyncJobState :=
  initialState (input (Some "k"%string))
    (initialRecord (input (Some "k"%string)) job0 "task:alice" (IsoAt 61000))
    (Some "alice:k"%string).

Lemma x0_stored : job_at s1 job0 = Some x0.
Proof. vm_compute. reflexivity. Qed.

Lemma x0_accessible : accessible s1 job0 alice 2000 x0.
Proof. split; [exact x0_stored|split_and!; vm_compute; reflexivity]. Qed.
End Demo.

(** ** Properties *)

Section properties.
Context {St W : Type} `{!AsyncJobStorePort St, !AsyncJobStoreLaws St} `{UrlApi}.
Context (this : AsyncJobManagerOptions W) `{!FreshIds this}.

(** C1: whatever sequence of commands is run, by any callers and whether
    they return or throw, every stored job stays stored under its
    identifier and only evolves: owner, credential, expiry, creation time,
    provider and idempotency key never change, the status never moves
    backward, and a terminal status, its result, its error and its
    acknowledgment are final. *)
Theorem async_jobs_evolve s s' id x :
  inv this s → steps this s s' → job_at s id = Some x →
  ∃ y, job_at s' id = Some y ∧ evolves x y.
Proof.
  intros Hs Hst Hx. destruct (steps_job this _ _ _ _ Hs Hst Hx) as (y & ? & ? & _). eauto.
Qed.

(** The job a command is about. *)
Definition target (c : command) : option (string * AsyncJobCaller * Z) :=
  match c with
  | CmdMarkRunning id caller now | CmdMarkInputRequired id caller _ now
  | CmdMarkCompleted id caller _ _ now | CmdMarkFailed id caller _ now
  | CmdRecordPaidCall id caller _ now | CmdRecordArtifactWrite id caller _ now
  | CmdCancelCallerWait id caller now | CmdCancelGroundlanePolling id caller now
  | CmdRequestUpstreamCancel id caller now | CmdVerifiedCancel _ id caller _ now
  | CmdAttachProviderTask id caller _ now | CmdCancelTask id caller _ now =>
      Some (id, caller, now)
  | CmdCreate _ | CmdRecordClientEvidence _ | CmdVerifiedCreate _ _ => None
  end.

Lemma rejected_resolve {A} id caller now (f : _ → M (Manager St W) A) s :
  (∀ x, ¬ accessible s id caller now x) → rejected (resolve id caller now ≫= f) s.
Proof.
  intros Hno. apply wp_rejected, wp_resolve.
  - intros. split; [by eexists|done].
  - intros x Hx. by destruct (Hno x).
Qed.

Lemma rejected_operation {A} client o (m : M (Manager St W) A) s :
  rejected m s → rejected (assertClientOperation client o;; m) s.
Proof.
  intros Hm. unfold rejected, assertClientOperation, mbind, M_bind. cbn.
  destruct (assertKnownClientId client); [|by eexists].
  destruct (throw_if _ _); [done|by eexists].
Qed.

#[local] Hint Resolve rejected_resolve rejected_bind rejected_guard : core.

Lemma rejected_inaccessible s c id caller now :
  target c = Some (id, caller, now) → (∀ x, ¬ accessible s id caller now x) →
  rejected (exec this c) s ∧ rejected (poll id caller now) s ∧
  rejected (fetchResult id caller now) s ∧ rejected (providerTaskId id caller now) s ∧
  rejected (operationInput id caller now) s.
Proof.
  intros Ht Hno. split_and!; [|unfold poll, fetchResult, providerTaskId, operationInput; auto..].
  destruct c; try discriminate Ht; injection Ht as <- <- <-; cbn;
    first [ by apply rejected_bind, rejected_resolve
          | by apply rejected_bind, rejected_guard, rejected_guard, rejected_resolve
          | by apply rejected_guard, rejected_resolve
          | apply rejected_bind, rejected_operation ].
  destruct kind; [| |apply rejected_bind]; by apply rejected_resolve.
Qed.

(** C2: a command or a read on a job that does not exist, belongs to
    another owner, is bound to another credential or has expired throws
    and leaves the manager exactly as it was (the provider is not asked
    anything either). *)
Theorem async_isolation s c id caller now :
  target c = Some (id, caller, now) → (∀ x, ¬ accessible s id caller now x) →
  rejected (exec this c) s ∧ rejected (poll id caller now) s ∧
  rejected (fetchResult id caller now) s ∧ rejected (providerTaskId id caller now) s ∧
  rejected (operationInput id caller now) s.
Proof. apply rejected_inaccessible. Qed.

(** the deadline fixed at creation is never extended.  Once a job's
    expiry has passed at [t0], after any further commands every command
    and every read on it at a later time is rejected without effect, even
    for its owner. *)
Theorem async_expiry_never_extended s s' id x t0 t caller c :
  inv this s → job_at s id = Some x → isJobExpired (record x) t0 = true →
  steps this s s' → (t0 <= t)%Z → target c = Some (id, caller, t) →
  rejected (exec this c) s' ∧ rejected (poll id caller t) s' ∧
  rejected (fetchResult id caller t) s' ∧ rejected (providerTaskId id caller t) s' ∧
  rejected (operationInput id caller t) s'.
Proof.
  intros Hs Hx Hexp Hst Ht Hc. apply rejected_inaccessible; [done|].
  intros y (Hy & _ & _ & Hlive).
  destruct (steps_job this _ _ _ _ Hs Hst Hx) as (y' & Hy' & Hev & _).
  assert (y' = y) as -> by congruence.
  unfold isJobExpired, getTime_leb in *. rewrite (ev_expiry _ _ Hev) in Hlive.
  destruct (getTime _); [|done]. reflect. lia.
Qed.

(** *** Once-only effects *)

Lemma recordPaidCall_inv id caller units now (s s' : Manager St W) o :
  recordPaidCall id caller units now s = (Ok o, s') →
  ∃ x, accessible s id caller now x ∧
    if paidCallCompleted x then o = {| pc_reused := true |} ∧ s' = s
    else o = {| pc_reused := false |} ∧ ∃ y, paidCallCompleted y = true ∧
      state_id y = state_id x ∧
      billingProvenance (record y) = {|
        providerId := providerId (billingProvenance (record x));
        inputUnits := num_add (inputUnits (billingProvenance (record x))) (u_inputUnits units);
        outputUnits := num_add (outputUnits (billingProvenance (record x)))
                         (u_outputUnits units);
        billedAt := Some (default (IsoAt now) (billedAt (billingProvenance (record x)))) |} ∧
      s' = s <| store := store_set (store s) y |>.
Proof.
  unfold recordPaidCall. rewrite lift_bind. destruct (throw_if _ _); [|done].
  rewrite lift_bind. destruct (throw_if _ _); [|done].
  intros (x & Hx & Hf)%resolve_inv. exists x. split; [done|].
  destruct (paidCallCompleted x); [by injection Hf as <- <-|].
  injection Hf as <- <-. split; [done|].
  eexists. split_and!; cycle 3; [reflexivity|done..].
Qed.

Lemma paid_after id caller units now s o s' :
  inv this s → recordPaidCall id caller units now s = (Ok o, s') →
  inv this s' ∧ ∃ y, job_at s' id = Some y ∧ paidCallCompleted y = true.
Proof.
  intros Hs Hm. split.
  - pose proof (keeps_recordPaidCall this id caller units now s Hs) as Hg.
    by apply (wp_run _ _ _ _ _ Hg) in Hm as [? _].
  - apply recordPaidCall_inv in Hm as (x & (Hx & _) & Hif).
    destruct (paidCallCompleted x) eqn:Hp.
    + destruct Hif as [_ ->]. eauto.
    + destruct Hif as (_ & y & Hy & Hid & _ & ->). exists y. cbn.
      by rewrite store_get_set, Hid, (store_get_id _ _ _ (inv_ok _ _ Hs) Hx), decide_True.
Qed.

(** a paid call is recorded once.  After a first success, whatever
    commands run in between, any later call with valid units answers
    [reused] and changes nothing, so the units are never added twice. *)
Theorem paid_call_once s s1 s2 id caller units now o caller' units' now' y :
  inv this s → recordPaidCall id caller units now s = (Ok o, s1) → steps this s1 s2 →
  accessible s2 id caller' now' y →
  is_count (u_inputUnits units') = true → is_count (u_outputUnits units') = true →
  recordPaidCall id caller' units' now' s2 = (Ok {| pc_reused := true |}, s2).
Proof.
  intros Hs Hm Hst Hy Hi Ho.
  destruct (paid_after _ _ _ _ _ _ _ Hs Hm) as (Hs1 & x & Hx & Hp).
  destruct (steps_job this _ _ _ _ Hs1 Hst Hx) as (z & Hz & Hev & _).
  assert (z = y) as -> by (destruct Hy as [Hy _]; congruence).
  unfold recordPaidCall. rewrite Hi, Ho, !lift_bind. cbn [negb throw_if].
  rewrite (resolve_run _ _ _ _ _ _ Hy). by rewrite (ev_paid _ _ Hev Hp).
Qed.

(** The first recorded call of a job that has not completed bills
    exactly its own units: totals start from zero. *)
Theorem paid_call_bills_its_units s id caller units now s' x :
  inv this s → accessible s id caller now x → paidCallCompleted x = false →
  status (record x) ≠ completed →
  recordPaidCall id caller units now s = (Ok {| pc_reused := false |}, s') →
  ∃ y, job_at s' id = Some y ∧
    billingProvenance (record y) = {|
      providerId := providerId (billingProvenance (record x));
      inputUnits := num_add (int 0) (u_inputUnits units);
      outputUnits := num_add (int 0) (u_outputUnits units);
      billedAt := Some (IsoAt now) |}.
Proof.
  intros Hs Hx Hp Hc Hm. apply recordPaidCall_inv in Hm as (x' & Hx' & Hif).
  rewrite <- (accessible_fun _ _ _ _ _ _ Hx Hx') in *. rewrite Hp in Hif.
  destruct Hif as (_ & y & _ & Hid & Hb & ->). destruct Hx as (Hx & _).
  exists y. cbn.
  rewrite store_get_set, Hid, (store_get_id _ _ _ (inv_ok _ _ Hs) Hx), decide_True by done.
  split; [done|].
  pose proof (wf_unbilled _ (inv_wf _ _ Hs _ _ Hx) Hp Hc) as Hzero.
  rewrite Hb, Hzero. done.
Qed.

Lemma recordArtifactWrite_inv id caller v now (s s' : Manager St W) o :
  recordArtifactWrite id caller v now s = (Ok o, s') →
  ∃ x, accessible s id caller now x ∧
    if artifactWriteCompleted x
    then o = {| aw_reused := true; aw_result := artifactResult x |} ∧ s' = s
    else o = {| aw_reused := false; aw_result := v |} ∧ ∃ y,
      artifactWriteCompleted y = true ∧ artifactResult y = v ∧ state_id y = state_id x ∧
      s' = s <| store := store_set (store s) y |>.
Proof.
  unfold recordArtifactWrite. intros (x & Hx & Hf)%resolve_inv. exists x. split; [done|].
  destruct (artifactWriteCompleted x); [by injection Hf as <- <-|].
  injection Hf as <- <-. split; [done|].
  eexists. split_and!; cycle 3; [reflexivity|done..].
Qed.

(** an artifact is written once.  After a first success that answered
    [o], every later call, whatever value it brings and whatever commands
    ran in between, answers [reused] with the value [o] carried and changes
    nothing. *)
Theorem artifact_write_once s s1 s2 id caller v now o caller' v' now' y :
  inv this s → recordArtifactWrite id caller v now s = (Ok o, s1) → steps this s1 s2 →
  accessible s2 id caller' now' y →
  recordArtifactWrite id caller' v' now' s2 =
    (Ok {| aw_reused := true; aw_result := aw_result o |}, s2).
Proof.
  intros Hs Hm Hst Hy.
  pose proof (keeps_recordArtifactWrite this id caller v now s Hs) as Hg.
  apply (wp_run _ _ _ _ _ Hg) in Hm as Hg1. destruct Hg1 as [Hs1 _].
  assert (∃ z, job_at s1 id = Some z ∧ artifactWriteCompleted z = true ∧
               artifactResult z = aw_result o) as (z & Hz & Hdone & Hval).
  { apply recordArtifactWrite_inv in Hm as (x & (Hx & _) & Hif).
    destruct (artifactWriteCompleted x) eqn:Ha.
    - destruct Hif as [-> ->]. eauto.
    - destruct Hif as (-> & z & Hz & Hv & Hid & ->). exists z. cbn.
      by rewrite store_get_set, Hid, (store_get_id _ _ _ (inv_ok _ _ Hs) Hx), decide_True. }
  destruct (steps_job this _ _ _ _ Hs1 Hst Hz) as (y' & Hy' & Hev & _).
  assert (y' = y) as -> by (destruct Hy as [Hy _]; congruence).
  unfold recordArtifactWrite. rewrite (resolve_run _ _ _ _ _ _ Hy).
  destruct (ev_artifact _ _ Hev Hdone) as [-> ->]. by rewrite Hval.
Qed.

(** *** Creation *)

Lemma create_stores input k (s s' : Manager St W) r :
  inv this s → optionalKey input = Ok (Some k) → create this input s = (Ok r, s') →
  ∃ x, store_getByIdempotencyKey (store s') k = Some x ∧
       cr_job r = toPublicAsyncJob x.
Proof.
  intros Hs Hk Hm.
  assert (wp (create this input) (λ r s', ∀ o, r = Ok o →
    ∃ x, store_getByIdempotencyKey (store s') k = Some x ∧ cr_job o = toPublicAsyncJob x) s)
    as Hwp; [|exact (wp_run _ _ _ _ _ Hwp Hm r eq_refl)].
  apply wp_intro. intros r' s'' Hc o ->.
  pose proof (keeps_create this input s Hs) as Hg.
  apply (wp_run _ _ _ _ _ Hg) in Hc as Hg'. destruct Hg' as [Hs'' _].
  unfold create in Hc. rewrite lift_bind in Hc.
  destruct (validateCreateInput input) as [u|] eqn:Hin; [|done].
  apply M_bind_Ok in Hc as (found & s2 & Hfind & Hc).
  assert (s2 = s ∧ ∀ x, found = Some x → store_getByIdempotencyKey (store s) k = Some x)
    as [-> Hfound].
  { assert (wp (findReusable input) (λ r s', s' = s ∧ ∀ x, r = Ok (Some x) →
      store_getByIdempotencyKey (store s) k = Some x) s) as Hf.
    { apply wp_findReusable; [done| |done]. intros k' x Hk' Hx. split; [done|].
      intros x' [= <-]. congruence. }
    destruct (wp_run _ _ _ _ _ Hf Hfind) as [-> Hx]. split; [done|].
    intros x ->. by apply Hx. }
  destruct found as [x|].
  { injection Hc as <- <-. exists x. split; [by apply Hfound|done]. }
  unfold createFresh in Hc.
  apply M_bind_Ok in Hc as (st & s3 & [= <- <-] & Hc).
  apply M_bind_Ok in Hc as ([] & s4 & _ & Hc).
  apply M_bind_Ok in Hc as (uuid & s5 & _ & Hc).
  apply M_bind_Ok in Hc as (job & s6 & _ & Hc).
  apply M_bind_Ok in Hc as (expiry & s7 & _ & Hc).
  apply M_bind_Ok in Hc as ([] & s8 & _ & Hc).
  apply M_bind_Ok in Hc as (key & s9 & Hkey & Hc).
  injection Hkey as Hkey <-. rewrite Hk in Hkey. injection Hkey as <-.
  injection Hc as <- <-. eexists. split; [|reflexivity].
  apply (inv_keyed _ _ Hs'' (jobIdPrefix this +:+ uuid)); [|done].
  cbn. by rewrite store_get_set, decide_True.
Qed.

(** creation is idempotent.  Once a creation with an idempotency key
    has succeeded, any later creation by the same owner with that key,
    valid in itself, returns the very same job as [reused], with its
    current state, and changes nothing: no second job, no second
    identifier, no second provider task. *)
Theorem create_idempotent s s1 s2 input input' r k :
  inv this s → optionalKey input = Ok (Some k) → create this input s = (Ok r, s1) →
  steps this s1 s2 →
  validateCreateInput input' = Ok tt → optionalKey input' = Ok (Some k) →
  ∃ y, create this input' s2 =
         (Ok {| cr_job := toPublicAsyncJob y; cr_reused := true |}, s2) ∧
       state_id y = pub_jobId (cr_job r).
Proof.
  intros Hs Hk Hm Hst Hin' Hk'.
  pose proof (keeps_create this input s Hs) as Hg.
  apply (wp_run _ _ _ _ _ Hg) in Hm as Hg1. destruct Hg1 as [Hs1 _].
  destruct (create_stores _ _ _ _ _ Hs Hk Hm) as (x & Hx & ->).
  destruct (store_key_get _ _ _ (inv_ok _ _ Hs1) Hx) as [Hxk Hxid].
  destruct (steps_good this _ _ Hs1 Hst) as [Hs2 Hmono].
  destruct (Hmono _ _ Hxid) as (y & Hy & Hev).
  pose proof (inv_keyed _ _ Hs2 _ _ k Hy ltac:(rewrite (ev_key _ _ Hev); done)) as Hget.
  exists y. split; [|by rewrite (ev_id _ _ Hev)].
  unfold create. rewrite Hin', lift_bind. cbn.
  unfold findReusable, optionalKey in *.
  destruct (in_idempotencyKey input') as [raw|]; [|done].
  destruct (buildAsyncIdempotencyKey _ raw) as [key|]; [|done]. injection Hk' as ->.
  unfold mbind, M_bind, lift, get. cbn. by rewrite Hget.
Qed.

(** *** Upstream cancellation *)

(** an upstream cancellation is only claimed with the provider's
    acknowledgment.  On a job that is not terminal, an acknowledged request
    moves it to [cancelled_by_upstream] and reports the acknowledgment; an
    unacknowledged one (or none to ask) keeps its status, records only the
    request, and reports [upstreamCancelled = false], both in the outcome
    and in the public view. *)
Theorem upstream_cancel_needs_acknowledgment s id caller now x :
  inv this s → accessible s id caller now x →
  isTerminalAsyncStatus (status (record x)) = false →
  let '(r, s1) := askCancel this (providerJobId (record x)) s in
  match r with
  | Throw e => requestUpstreamCancel this id caller now s = (Throw e, s1)
  | Ok ack => ∃ y,
      requestUpstreamCancel this id caller now s =
        (Ok {| uc_job := toPublicAsyncJob y;
               uc_cancelResult := {|
                 cr_callerCancelled := callerCancelled x;
                 cr_groundlanePollingCancelled := groundlanePollingCancelled x;
                 cr_upstreamCancelled := bool_decide (ack ≠ None);
                 cr_providerAcknowledgment := ack |} |},
         s1 <| store := store_set (store s1) y |>) ∧
      upstreamCancelRequested y = true ∧
      pub_upstreamCancelled (toPublicAsyncJob y) = bool_decide (ack ≠ None) ∧
      status (record y) = if ack then cancelled_by_upstream else status (record x)
  end.
Proof.
  intros Hs Hx Hnt. destruct (askCancel this _ s) as [r s1] eqn:Hask.
  destruct (inv_accessible this _ _ _ _ _ Hs Hx) as [_ Hwf].
  destruct (wf_nonterminal _ Hwf Hnt) as (Hack & _ & _ & _ & Hup).
  unfold requestUpstreamCancel. rewrite (resolve_run _ _ _ _ _ _ Hx).
  unfold assertNonTerminal. rewrite Hnt, lift_bind. cbn [throw_if].
  destruct r as [ack|e].
  2:{ by rewrite (M_bind_fail _ _ _ _ _ Hask). }
  rewrite (M_bind_run _ _ _ _ _ Hask). destruct ack as [a|].
  - rewrite lift_bind.
    assert (transition x cancelled_by_upstream now = Ok
      (x <| record := (record x) <| status := cancelled_by_upstream |> |>
         <| updatedAt := IsoAt now |>)) as ->.
    { apply transition_spec. split; [|done]. split_and!; [done..|].
      by destruct (status (record x)). }
    eexists. split; [reflexivity|done].
  - eexists. split; [reflexivity|]. cbn. by rewrite Hack.
Qed.

(** a job completed without a value after it had asked for input
    shows, as its result, the input requests it was waiting for. *)
Theorem completed_without_value_keeps_input_requests s id caller v t now p s1 s2 s3 x :
  inv this s → accessible s id caller t x →
  markInputRequired id caller v t s = (Ok p, s1) →
  markCompleted id caller JUndefined None now s1 = (Ok s2, s3) →
  pub_result s2 = v.
Proof.
  intros Hs Hx Hm Hc. unfold markInputRequired in Hm.
  rewrite (resolve_run _ _ _ _ _ _ Hx), lift_bind in Hm.
  destruct (transition x input_required t) as [y|] eqn:Hy; [|done].
  apply transition_spec in Hy as [_ ->]. injection Hm as <- <-.
  unfold markCompleted in Hc. apply resolve_inv in Hc as (z & (Hz & _) & Hc).
  cbn in Hz. destruct Hx as (Hx & _).
  assert (state_id x = id) as Hid by (by eapply store_get_id; [apply Hs|]).
  rewrite store_get_set in Hz. unfold state_id in Hz, Hid. cbn in Hz.
  rewrite Hid, decide_True in Hz by done. injection Hz as <-.
  rewrite lift_bind in Hc. destruct (transition _ completed now) as [q|] eqn:Hq; [|done].
  apply transition_spec in Hq as [_ ->]. by injection Hc as <- <-.
Qed.

(** the provider task is created before the expiry is formatted, so a
    valid time to live beyond the range of dates leaves a task running
    upstream for which no job is stored: the call throws a range error and
    the store is unchanged. *)
Theorem unrepresentable_expiry_orphans_task s input p uuid w1 task w2 :
  validateCreateInput input = Ok tt → in_idempotencyKey input = None →
  (store_size (store s) < maxJobs this)%Z → provider this = Some p →
  jobIdFactory this (world s) = (Ok uuid, w1) →
  createTask (in_ownerId input) (in_providerId input) w1 = (Ok task, w2) →
  new_Date (num_shift (in_now input) (num_scale (in_ttlSeconds input) 1000)) = None →
  create this input s = (Throw (TError "Invalid time value"), s <| world := w2 |>).
Proof.
  intros Hin Hk Hsz Hp Hf Ht Hd. unfold create. rewrite Hin, lift_bind.
  unfold findReusable. rewrite Hk. unfold createFresh, mbind, M_bind, lift, get.
  cbn. rewrite (proj2 (Z.leb_gt _ _) Hsz). cbn. unfold on_world. rewrite Hf, Hp. cbn.
  rewrite Ht. cbn. by rewrite Hd.
Qed.
End properties.

Import Demo.

(** the idempotency key is the text [owner:key], so two owners can share
    it: here the owner [alice:team] asking for key [k] is handed the job of
    the owner [alice], who had used the key [team:k]. *)
Theorem idempotent_reuse_can_cross_owners :
  let input o k := {|
    in_ownerId := o; in_credentialBinding := "other"; in_providerId := "linkup";
    in_ttlSeconds := int 60; in_idempotencyKey := Some k; in_sourceUrl := None;
    in_operationInput := JUndefined; in_now := 1000 |} in
  let '(r1, s1) := create Demo.options (input "alice" "team:k")%string Demo.s0 in
  let '(r2, s2) := create Demo.options (input "alice:team" "k")%string s1 in
  match r1, r2 with
  | Ok a, Ok b => cr_job b = cr_job a ∧ cr_reused b = true ∧
                  pub_ownerId (cr_job b) = "alice"%string ∧ s2 = s1
  | _, _ => False
  end.
Proof. vm_compute. by split_and!. Qed.

(** ** Witnesses *)

Module Witness.
Definition running1 := (exec options (CmdMarkRunning job0 alice 2000) s1).2.

Lemma running1_steps : steps options s1 running1.
Proof. apply rtc_once. by exists (CmdMarkRunning job0 alice 2000). Qed.

Lemma async_jobs_evolve_witness :
  ∃ y, job_at running1 job0 = Some y ∧ evolves x0 y.
Proof.
  apply (async_jobs_evolve options s1 running1 job0 x0 s1_inv running1_steps x0_stored).
Defined.

Lemma async_isolation_witness :
  rejected (exec options (CmdCancelTask job0 mallory None 2000)) s1.
Proof.
  apply (async_isolation options s1 (CmdCancelTask job0 mallory None 2000) job0 mallory 2000);
    [reflexivity|].
  intros x (Hx & Ho & _). vm_compute in Hx. injection Hx as <-. vm_compute in Ho. discriminate.
Defined.

Lemma async_expiry_never_extended_witness : rejected (poll job0 alice 61000) running1.
Proof.
  apply (async_expiry_never_extended options s1 running1 job0 x0 61000 61000 alice
    (CmdMarkRunning job0 alice 61000) s1_inv x0_stored eq_refl running1_steps);
    [lia|reflexivity].
Defined.

Definition units (a b : Z) : BillingUnits := {| u_inputUnits := int a; u_outputUnits := int b |}.
Definition paid1 := (recordPaidCall job0 alice (units 3 4) 2000 s1).2.

Lemma paid_call_once_witness :
  recordPaidCall job0 alice (units 9 9) 3000 paid1 = (Ok {| pc_reused := true |}, paid1).
Proof.
  eapply (paid_call_once options s1 paid1 paid1 job0 alice (units 3 4) 2000);
    [apply s1_inv|vm_compute; reflexivity|apply rtc_refl| |vm_compute; reflexivity..].
  split; [vm_compute; reflexivity|split_and!; vm_compute; reflexivity].
Defined.

Lemma paid_call_bills_its_units_witness :
  ∃ y, job_at paid1 job0 = Some y ∧
       inputUnits (billingProvenance (record y)) = num_add (int 0) (int 3).
Proof.
  destruct (paid_call_bills_its_units options s1 job0 alice (units 3 4) 2000 paid1 x0
    s1_inv x0_accessible eq_refl) as (y & Hy & Hb).
  - vm_compute. discriminate.
  - vm_compute. reflexivity.
  - exists y. split; [exact Hy|by rewrite Hb].
Defined.

Definition written1 := (recordArtifactWrite job0 alice (JStr "first") 2000 s1).2.

Lemma artifact_write_once_witness :
  recordArtifactWrite job0 alice (JStr "second") 3000 written1 =
    (Ok {| aw_reused := true; aw_result := JStr "first" |}, written1).
Proof.
  eapply (artifact_write_once options s1 written1 written1 job0 alice (JStr "first") 2000
    {| aw_reused := false; aw_result := JStr "first" |});
    [apply s1_inv|vm_compute; reflexivity|apply rtc_refl|].
  split; [vm_compute; reflexivity|split_and!; vm_compute; reflexivity].
Defined.

Lemma create_idempotent_witness :
  ∃ y, create options (input (Some "k"%string)) running1 =
    (Ok {| cr_job := toPublicAsyncJob y; cr_reused := true |}, running1) ∧ state_id y = job0.
Proof.
  edestruct (create_idempotent options s0 s1 running1 (input (Some "k"%string))
    (input (Some "k"%string))) as (y & Hy & Hid).
  - apply s0_inv.
  - vm_compute. reflexivity.
  - vm_compute. reflexivity.
  - apply running1_steps.
  - vm_compute. reflexivity.
  - vm_compute. reflexivity.
  - exists y. split; [exact Hy|exact Hid].
Defined.

Lemma upstream_cancel_needs_acknowledgment_witness :
  ∃ y, requestUpstreamCancel options job0 alice 2000 s1 =
      (Ok {| uc_job := toPublicAsyncJob y;
             uc_cancelResult := {|
               cr_callerCancelled := false;
               cr_groundlanePollingCancelled := false;
               cr_upstreamCancelled := true;
               cr_providerAcknowledgment :=
                 Some {| providerResponseCode := 200; acknowledgedAt := "now" |} |} |},
       s1 <| store := store_set (store s1) y |>) ∧
    upstreamCancelRequested y = true ∧
    pub_upstreamCancelled (toPublicAsyncJob y) = true ∧
    status (record y) = cancelled_by_upstream.
Proof.
  exact (upstream_cancel_needs_acknowledgment options s1 job0 alice 2000 x0
    s1_inv x0_accessible eq_refl).
Defined.

Definition waiting1 := (markInputRequired job0 alice (JStr "which page?") 2000 s1).2.

Lemma completed_without_value_keeps_input_requests_witness :
  ∃ p s', markCompleted job0 alice JUndefined None 3000 waiting1 = (Ok p, s') ∧
          pub_result p = JStr "which page?".
Proof.
  eexists _, _. split; [vm_compute; reflexivity|].
  eapply (completed_without_value_keeps_input_requests options s1 job0 alice
    (JStr "which page?") 2000 3000);
    [apply s1_inv|apply x0_accessible|vm_compute; reflexivity|vm_compute; reflexivity].
Defined.

Definition far_input : CreateAsyncJobInput := {|
  in_ownerId := "alice"; in_credentialBinding := "cred"; in_providerId := "linkup";
  in_ttlSeconds := int (10 ^ 13); in_idempotencyKey := None; in_sourceUrl := None;
  in_operationInput := JUndefined; in_now := 1000 |}.

Lemma unrepresentable_expiry_orphans_task_witness :
  create options far_input s0 =
    (Throw (TError "Invalid time value"),
     s0 <| world := {| next_id := 1; tasks := ["alice"%string] |} |>).
Proof.
  eapply (unrepresentable_expiry_orphans_task options s0 far_input demo_provider);
    vm_compute; reflexivity.
Defined.
End Witness.
