(* ===== verification/CrawlJobs.v ===== *)
(** * Durable crawl jobs

    [src/core/crawl-jobs.ts] and the crawl contract of
    [src/core/async-lifecycle.ts] (lines 147 to 283): the state of a crawl
    job, its public and durable views, the crawl budgets, the provider port,
    and every method of [CrawlJobManager].  The methods are state-passing
    functions; what a method stored before it threw stays stored. *)

From S2P Require Import Prelude JsString JobStore AsyncContract.

(** ** Contract *)

Record CrawlBudgets := {
  maxPages : number;
  maxBytes : number;
  maxOutputChars : number
}.

Inductive CrawlJobStatus :=
  | created
  | crawling
  | completed
  | failed
  | cancelled_by_caller
  | cancelled_by_groundlane
  | cancelled_by_upstream.

#[export] Instance CrawlJobStatus_eq_dec : EqDecision CrawlJobStatus.
Proof. solve_decision. Defined.

(** The text of a status. *)
Definition crawl_status_name (s : CrawlJobStatus) : string :=
  match s with
  | created => "created"
  | crawling => "crawling"
  | completed => "completed"
  | failed => "failed"
  | cancelled_by_caller => "cancelled_by_caller"
  | cancelled_by_groundlane => "cancelled_by_groundlane"
  | cancelled_by_upstream => "cancelled_by_upstream"
  end.

(** [contentChars] has been checked to be a non-negative integer when a
    partial result is built, so it is an integer here. *)
Record CrawlPartialResult := {
  pr_url : string;
  pr_contentChars : Z;
  pr_fetchedAt : string
}.

#[export] Instance CrawlPartialResult_eq_dec : EqDecision CrawlPartialResult.
Proof. solve_decision. Defined.

Record DurableCrawlJob := {
  d_groundlaneJobId : string;
  d_ownerId : string;
  d_expiresAt : date_string;
  d_status : CrawlJobStatus;
  d_budgets : CrawlBudgets;
  d_createdAt : date_string;
  d_paginationCursor : option string;
  d_partialResults : option (list CrawlPartialResult)
}.

Definition validateCrawlJobOwnership (job : DurableCrawlJob) (callerId : string) : result unit :=
  throw_if (negb (bool_decide (d_ownerId job = callerId)))
    (TError "Owner mismatch: caller does not own this crawl job").

Definition validateCrawlJobNotExpired (job : DurableCrawlJob) (now : Z) : result unit :=
  throw_if (getTime_leb (d_expiresAt job) now) (TError "Crawl job has expired").

Definition lookupCrawlJob (jobs : list DurableCrawlJob) (id : string) : result DurableCrawlJob :=
  match find (λ j, bool_decide (d_groundlaneJobId j = id)) jobs with
  | Some job => Ok job
  | None => Throw (TError "Unknown crawl job")
  end.

(** [String(x)] of a budget, which is an integer in a stored job. *)
Definition show_number (x : number) : string :=
  match x with
  | NaN => "NaN"
  | PosInf => "Infinity"
  | NegInf => "-Infinity"
  | Num _ _ => show (to_Z x)
  end.

Definition validateCrawlBudgets (budgets : CrawlBudgets)
    (currentPages currentBytes currentOutputChars : Z) : result unit :=
  throw_if (num_ltb (maxPages budgets) (int currentPages))
    (TError ("Page budget exceeded: " +:+ show currentPages +:+ " > " +:+
             show_number (maxPages budgets)));;
  throw_if (num_ltb (maxBytes budgets) (int currentBytes))
    (TError ("Byte budget exceeded: " +:+ show currentBytes +:+ " > " +:+
             show_number (maxBytes budgets)));;
  throw_if (num_ltb (maxOutputChars budgets) (int currentOutputChars))
    (TError ("Output char budget exceeded: " +:+ show currentOutputChars +:+ " > " +:+
             show_number (maxOutputChars budgets))).

(** ** Statuses *)

Definition CRAWL_JOB_ID_PREFIX : string := "gl-crawl-".
Definition MAX_CRAWL_JOBS : Z := 1000.
Definition MAX_CRAWL_PARTIALS : Z := 1000.
Definition MAX_CRAWL_PAGE_SIZE : Z := 100.
Definition DEFAULT_CRAWL_PAGE_SIZE : Z := 20.

Definition crawl_error (message : string) : thrown :=
  gerror INVALID_INPUT "crawl-jobs" message false.

(** Membership in [CRAWL_TERMINAL_STATUSES]. *)
Definition crawl_terminal (s : CrawlJobStatus) : bool :=
  match s with created | crawling => false | _ => true end.

Definition CRAWL_STATUS_ORDER (s : CrawlJobStatus) : Z :=
  match s with created => 0 | crawling => 1 | _ => 2 end.

Definition validateCrawlStatusTransition (from to : CrawlJobStatus) : result unit :=
  throw_if (bool_decide (from = to))
    (crawl_error ("Status is already " +:+ quoted (crawl_status_name from) +:+
                  "; no transition needed"));;
  throw_if (crawl_terminal from)
    (crawl_error ("Cannot transition from terminal status " +:+
                  quoted (crawl_status_name from) +:+ " to " +:+
                  quoted (crawl_status_name to)));;
  throw_if (CRAWL_STATUS_ORDER to <? CRAWL_STATUS_ORDER from)%Z
    (crawl_error ("Non-monotonic crawl status transition: " +:+
                  quoted (crawl_status_name from) +:+ " -> " +:+
                  quoted (crawl_status_name to))).

(** ** Data of the runtime *)

Record CrawlJobCaller := { cc_ownerId : string; cc_credentialBinding : string }.

Record CreateCrawlJobInput := {
  ci_ownerId : string;
  ci_credentialBinding : string;
  ci_seedUrl : string;
  ci_budgets : CrawlBudgets;
  ci_ttlSeconds : number;
  ci_providerId : option string;
  ci_idempotencyKey : option string;
  ci_now : Z
}.

Record PublicCrawlJob := {
  pub_groundlaneJobId : string;
  pub_ownerId : string;
  pub_status : CrawlJobStatus;
  pub_expiresAt : date_string;
  pub_budgets : CrawlBudgets;
  pub_createdAt : date_string;
  pub_paginationCursor : option string;
  pub_partialResults : list CrawlPartialResult;
  pub_totalPages : Z;
  pub_totalBytes : Z;
  pub_totalOutputChars : Z;
  pub_droppedUpstreamUrls : Z;
  pub_callerCancelled : bool;
  pub_groundlanePollingCancelled : bool;
  pub_upstreamCancelRequested : bool;
  pub_upstreamCancelled : bool;
  pub_billingProvenance : BillingProvenance;
  pub_sanitizedError : option string
}.

Record CrawlJobCreateResult := { ccr_job : PublicCrawlJob; ccr_reused : bool }.
Record CrawlUpstreamCancelOutcome := {
  cuc_job : PublicCrawlJob;
  cuc_cancelResult : CrawlCancelResult
}.
Record CrawlResultPageOptions := { po_cursor : option string; po_pageSize : option number }.
Record CrawlResultPage := {
  rp_job : PublicCrawlJob;
  rp_items : list CrawlPartialResult;
  rp_nextCursor : option string
}.
Record UpstreamCrawlPage := {
  up_url : string;
  up_contentChars : number;
  up_fetchedAt : string
}.
Record UpstreamCrawlPageBatch := {
  b_pages : list UpstreamCrawlPage;
  b_nextCursor : option string
}.

(** The provider adapter: calls that act on the outside world [W]. *)
Class CrawlProviderPort (W : Type) := {
  startCrawl : string → M W string;
  fetchUpstreamPages : string → option string → M W UpstreamCrawlPageBatch;
  cancelUpstream : string → M W (option ProviderCancelAcknowledgment)
}.

Record InternalCrawlJobState := {
  groundlaneJobId : string;
  ownerId : string;
  credentialBinding : string;
  providerId : string;
  providerJobId : string;
  status : CrawlJobStatus;
  budgets : CrawlBudgets;
  createdAt : date_string;
  expiresAt : date_string;
  partials : list CrawlPartialResult;
  providerCursor : option string;
  callerCancelled : bool;
  groundlanePollingCancelled : bool;
  upstreamCancelRequested : bool;
  upstreamAcknowledgment : option ProviderCancelAcknowledgment;
  droppedUpstreamUrls : Z;
  billedAt : option date_string;
  sanitizedError : option string;
  idempotencyKey : option string
}.

#[export] Instance InternalCrawlJobState_updatable : Updatable InternalCrawlJobState :=
  {| rebuild := λ s, Build_InternalCrawlJobState (groundlaneJobId s) (ownerId s)
       (credentialBinding s) (providerId s) (providerJobId s) (status s) (budgets s)
       (createdAt s) (expiresAt s) (partials s) (providerCursor s) (callerCancelled s)
       (groundlanePollingCancelled s) (upstreamCancelRequested s) (upstreamAcknowledgment s)
       (droppedUpstreamUrls s) (billedAt s) (sanitizedError s) (idempotencyKey s) |}.

Abbreviation CrawlJobStorePort := (JobStorePort InternalCrawlJobState).
Abbreviation CrawlJobStoreLaws St :=
  (JobStoreLaws InternalCrawlJobState St groundlaneJobId idempotencyKey).

Definition InMemoryCrawlJobStore : Type := MemStore InternalCrawlJobState.

#[export] Instance InMemoryCrawlJobStore_port
    : JobStorePort InternalCrawlJobState InMemoryCrawlJobStore :=
  mem_port groundlaneJobId idempotencyKey.

#[export] Instance InMemoryCrawlJobStore_laws : CrawlJobStoreLaws InMemoryCrawlJobStore :=
  mem_laws groundlaneJobId idempotencyKey.

(** ** Views *)

(** [groundlane:pages:<n>], absent while there is no partial result. *)
Definition pagination_cursor (state : InternalCrawlJobState) : option string :=
  match partials state with
  | [] => None
  | l => Some ("groundlane:pages:" +:+ show (Z.of_nat (length l)))
  end.

Definition toDurableView (state : InternalCrawlJobState) : DurableCrawlJob := {|
  d_groundlaneJobId := groundlaneJobId state;
  d_ownerId := ownerId state;
  d_expiresAt := expiresAt state;
  d_status := status state;
  d_budgets := budgets state;
  d_createdAt := createdAt state;
  d_paginationCursor := pagination_cursor state;
  d_partialResults := Some (partials state)
|}.

Record totals := { totalPages : Z; totalBytes : Z; totalOutputChars : Z }.

Definition totalsOf (l : list CrawlPartialResult) : totals :=
  let sums := foldl (λ '(bytes, out) page,
                (bytes + pr_contentChars page, out + pr_contentChars page)%Z) (0, 0)%Z l in
  {| totalPages := Z.of_nat (length l); totalBytes := sums.1; totalOutputChars := sums.2 |}.

Definition toPublicCrawlJob (state : InternalCrawlJobState) : PublicCrawlJob :=
  let t := totalsOf (partials state) in {|
  pub_groundlaneJobId := groundlaneJobId state;
  pub_ownerId := ownerId state;
  pub_status := status state;
  pub_expiresAt := expiresAt state;
  pub_budgets := budgets state;
  pub_createdAt := createdAt state;
  pub_paginationCursor := pagination_cursor state;
  pub_partialResults := partials state;
  pub_totalPages := totalPages t;
  pub_totalBytes := totalBytes t;
  pub_totalOutputChars := totalOutputChars t;
  pub_droppedUpstreamUrls := droppedUpstreamUrls state;
  pub_callerCancelled := callerCancelled state;
  pub_groundlanePollingCancelled := groundlanePollingCancelled state;
  pub_upstreamCancelRequested := upstreamCancelRequested state;
  pub_upstreamCancelled := negb (bool_decide (upstreamAcknowledgment state = None));
  pub_billingProvenance := {|
    AsyncContract.providerId := providerId state;
    inputUnits := int (totalPages t);
    outputUnits := int (totalOutputChars t);
    AsyncContract.billedAt := billedAt state |};
  pub_sanitizedError := sanitizedError state
|}.

Definition cursor_error (cursor : string) : thrown :=
  crawl_error ("Invalid result cursor " +:+ quoted cursor +:+ "; expected " +:+
               quoted "page:<offset>").

(** Digits that overflow to [Infinity] are not an integer. *)
Definition parseResultCursor (cursor : option string) : result Z :=
  match cursor with
  | None => Ok 0%Z
  | Some c =>
      match match_prefix_digits "page:" c with
      | None => Throw (cursor_error c)
      | Some digits =>
          let offset := Number_of_digits digits in
          if negb (isInteger offset) || num_ltb offset (int 0) then Throw (cursor_error c)
          else Ok (to_Z offset)
      end
  end.

(** [l.slice(lo, hi)] for [0 <= lo <= hi] *)
Definition slice {A} (lo hi : Z) (l : list A) : list A :=
  if (Z.of_nat (length l) <=? lo)%Z then []
  else take (Z.to_nat (hi - lo)) (drop (Z.to_nat lo) l).

Definition buildCrawlIdempotencyKey (owner key : string) : result string :=
  throw_if (falsy owner) (crawl_error "ownerId is required");;
  throw_if (falsy key) (crawl_error "idempotencyKey must be non-empty");;
  Ok (owner +:+ ":" +:+ key).

(** [!Number.isInteger(x) || x < 1] *)
Definition not_positive_integer (x : number) : bool :=
  negb (isInteger x) || num_ltb x (int 1).

Definition validateBudgets (b : CrawlBudgets) : result unit :=
  throw_if (not_positive_integer (maxPages b))
    (crawl_error "budgets.maxPages must be a positive integer");;
  throw_if (not_positive_integer (maxBytes b))
    (crawl_error "budgets.maxBytes must be a positive integer");;
  throw_if (not_positive_integer (maxOutputChars b))
    (crawl_error "budgets.maxOutputChars must be a positive integer").

(** ** The manager *)

Record CrawlManager (St W : Type) := {
  store : St;
  nextId : Z;
  world : W
}.
Arguments Build_CrawlManager {St W}.
Arguments store {St W}.
Arguments nextId {St W}.
Arguments world {St W}.

#[export] Instance CrawlManager_updatable {St W} : Updatable (CrawlManager St W) :=
  {| rebuild := λ m, Build_CrawlManager (store m) (nextId m) (world m) |}.

Record CrawlJobManagerOptions (W : Type) := {
  provider : option (CrawlProviderPort W);
  maxJobs : Z;
  jobIdPrefix : string
}.
Arguments Build_CrawlJobManagerOptions {W}.
Arguments provider {W}.
Arguments maxJobs {W}.
Arguments jobIdPrefix {W}.

Section crawl_manager.
Context {St W : Type} `{!CrawlJobStorePort St} `{UrlApi}.
Context (this : CrawlJobManagerOptions W).

Abbreviation Mgr := (M (CrawlManager St W)).

Definition on_world {A} (m : M W A) : Mgr A := λ s,
  let '(r, w) := m (world s) in (r, s <| world := w |>).

Definition save (state : InternalCrawlJobState) : Mgr unit :=
  update (λ s, s <| store := store_set (store s) state |>).

(** The validators' plain errors are rethrown as program errors. *)
Definition rethrow (code : ErrorCode) (r : result unit) : result unit :=
  match r with
  | Ok _ => Ok tt
  | Throw e => Throw (gerror code "crawl-jobs" (thrown_message e) false)
  end.

Definition resolve (id : string) (caller : CrawlJobCaller) (now : Z)
    : Mgr InternalCrawlJobState :=
  s ← get;
  match store_get (store s) id with
  | None => throw (crawl_error ("Unknown crawl job " +:+ quoted id))
  | Some state =>
      let view := toDurableView state in
      lift (
        rethrow INVALID_INPUT (validateCrawlJobOwnership view (cc_ownerId caller));;
        throw_if (negb (bool_decide (credentialBinding state = cc_credentialBinding caller)))
          (crawl_error ("Credential binding mismatch: caller credential does not " +:+
                        "match this crawl job"));;
        rethrow DEADLINE_EXCEEDED (validateCrawlJobNotExpired view now);;
        Ok state)
  end.

(** The guards of [create]; the result is the normalised seed URL. *)
Definition validateCreateInput (input : CreateCrawlJobInput) : result string :=
  throw_if (falsy (ci_ownerId input)) (crawl_error "ownerId is required");;
  throw_if (falsy (ci_credentialBinding input))
    (crawl_error "credentialBinding is required for crawl jobs");;
  seedUrl ← assertPublicHttpUrl (ci_seedUrl input) "seedUrl";
  validateBudgets (ci_budgets input);;
  throw_if (negb (isFinite (ci_ttlSeconds input)) || num_leb (ci_ttlSeconds input) (int 0))
    (crawl_error "ttlSeconds must be a positive number");;
  Ok seedUrl.

Definition optionalKey (input : CreateCrawlJobInput) : result (option string) :=
  match ci_idempotencyKey input with
  | None => Ok None
  | Some k => key ← buildCrawlIdempotencyKey (ci_ownerId input) k; Ok (Some key)
  end.

Definition findReusable (input : CreateCrawlJobInput)
    : Mgr (option InternalCrawlJobState) :=
  key ← lift (optionalKey input);
  match key with
  | None => mret None
  | Some key => s ← get; mret (store_getByIdempotencyKey (store s) key)
  end.

Definition initialState (input : CreateCrawlJobInput) (id provider_job : string)
    (expiry : date_string) (key : option string) : InternalCrawlJobState := {|
  groundlaneJobId := id;
  ownerId := ci_ownerId input;
  credentialBinding := ci_credentialBinding input;
  providerId := default "crawl"%string (ci_providerId input);
  providerJobId := provider_job;
  status := created;
  budgets := ci_budgets input;
  createdAt := IsoAt (ci_now input);
  expiresAt := expiry;
  partials := [];
  providerCursor := None;
  callerCancelled := false;
  groundlanePollingCancelled := false;
  upstreamCancelRequested := false;
  upstreamAcknowledgment := None;
  droppedUpstreamUrls := 0;
  billedAt := None;
  sanitizedError := None;
  idempotencyKey := key
|}.

Definition crawl_job_id (n : Z) : string := jobIdPrefix this +:+ padStart0 6 (show n).

(** What [create] does once no existing job is reused: the crawl is started
    before the expiry is formatted and checked. *)
Definition createFresh (input : CreateCrawlJobInput) (seedUrl : string)
    : Mgr CrawlJobCreateResult :=
  s ← get;
  lift (throw_if (maxJobs this <=? store_size (store s))%Z
    (gerror CONCURRENCY_LIMIT "crawl-jobs" "The crawl job store is full" true));;
  let id := crawl_job_id (nextId s) in
  update (λ s, s <| nextId := (nextId s + 1)%Z |>);;
  provider_job ← match provider this with
                 | None => mret ("deferred:" +:+ id)
                 | Some p => on_world (startCrawl seedUrl)
                 end;
  expiry ← lift (toISOString (new_Date (num_shift (ci_now input)
                                          (num_scale (ci_ttlSeconds input) 1000))));
  key ← lift (optionalKey input);
  let state := initialState input id provider_job expiry key in
  let view := toDurableView state in
  lift (validateCrawlJobOwnership view (ci_ownerId input));;
  lift (validateCrawlJobNotExpired view (ci_now input));;
  save state;;
  mret {| ccr_job := toPublicCrawlJob state; ccr_reused := false |}.

Definition create (input : CreateCrawlJobInput) : Mgr CrawlJobCreateResult :=
  seedUrl ← lift (validateCreateInput input);
  existing ← findReusable input;
  match existing with
  | Some state => mret {| ccr_job := toPublicCrawlJob state; ccr_reused := true |}
  | None => createFresh input seedUrl
  end.

(** The method [status]. *)
Definition readStatus (id : string) (caller : CrawlJobCaller) (now : Z)
    : Mgr PublicCrawlJob :=
  state ← resolve id caller now;
  mret (toPublicCrawlJob state).

(** The method [result]. *)
Definition resultPage (id : string) (caller : CrawlJobCaller)
    (options : CrawlResultPageOptions) (now : Z) : Mgr CrawlResultPage :=
  state ← resolve id caller now;
  let pageSize := default (int DEFAULT_CRAWL_PAGE_SIZE) (po_pageSize options) in
  lift (throw_if (not_positive_integer pageSize ||
                  num_ltb (int MAX_CRAWL_PAGE_SIZE) pageSize)
    (crawl_error ("pageSize must be an integer between 1 and " +:+
                  show MAX_CRAWL_PAGE_SIZE)));;
  offset ← lift (parseResultCursor (po_cursor options));
  let end_ := (offset + to_Z pageSize)%Z in
  mret {|
    rp_job := toPublicCrawlJob state;
    rp_items := slice offset end_ (partials state);
    rp_nextCursor := if (end_ <? Z.of_nat (length (partials state)))%Z
                     then Some ("page:" +:+ show end_) else None |}.

(** The private method [fail]: the failed job is stored, then the error is
    thrown. *)
Definition failJob {A} (state : InternalCrawlJobState) (error : thrown) (now : Z)
    (code : ErrorCode) : Mgr A :=
  let message :=
    if bool_decide (code = UPSTREAM_ERROR)
    then "Upstream crawl fetch failed: " +:+ sanitizeUpstreamError error
    else sanitizeUpstreamError error in
  save (state <| status := failed |>
              <| sanitizedError := Some message |>
              <| billedAt := Some (default (IsoAt now) (billedAt state)) |>);;
  throw (gerror code "crawl-jobs" message (bool_decide (code = UPSTREAM_ERROR))).

(** One page of an upstream batch: kept with its normalised URL, or
    dropped. *)
Definition keepPage (page : UpstreamCrawlPage) : option CrawlPartialResult :=
  match assertPublicHttpUrl (up_url page) "upstream page url" with
  | Throw _ => None
  | Ok safeUrl =>
      if negb (isInteger (up_contentChars page)) || num_ltb (up_contentChars page) (int 0)
      then None
      else Some {| pr_url := safeUrl; pr_contentChars := to_Z (up_contentChars page);
                   pr_fetchedAt := up_fetchedAt page |}
  end.

Fixpoint keepPages (pages : list UpstreamCrawlPage) (dropped : Z)
    : list CrawlPartialResult * Z :=
  match pages with
  | [] => ([], dropped)
  | page :: rest =>
      match keepPage page with
      | Some kept => let '(l, d) := keepPages rest dropped in (kept :: l, d)
      | None => keepPages rest (dropped + 1)%Z
      end
  end.

(** What [ingestUpstream] does with a batch it received. *)
Definition ingestBatch (state : InternalCrawlJobState) (batch : UpstreamCrawlPageBatch)
    (now : Z) : Mgr PublicCrawlJob :=
  let '(kept, dropped) := keepPages (b_pages batch) (droppedUpstreamUrls state) in
  let merged := partials state ++ kept in
  if (MAX_CRAWL_PARTIALS <? Z.of_nat (length merged))%Z then
    failJob (state <| droppedUpstreamUrls := dropped |>)
      (TError ("Partial result cap exceeded: " +:+ show (Z.of_nat (length merged)) +:+
               " > " +:+ show MAX_CRAWL_PARTIALS)) now OUTPUT_LIMIT
  else
    let t := totalsOf merged in
    match validateCrawlBudgets (budgets state) (totalPages t) (totalBytes t)
            (totalOutputChars t) with
    | Throw error => failJob (state <| droppedUpstreamUrls := dropped |>) error now OUTPUT_LIMIT
    | Ok _ =>
        let drained := bool_decide (length (b_pages batch) = 0) &&
                       bool_decide (b_nextCursor batch = None) in
        let target := if drained then completed else crawling in
        let next := state
          <| partials := merged |>
          <| providerCursor := b_nextCursor batch |>
          <| droppedUpstreamUrls := dropped |>
          <| billedAt := if drained then Some (IsoAt now) else billedAt state |> in
        if bool_decide (status state = target) then
          save next;; mret (toPublicCrawlJob next)
        else
          lift (validateCrawlStatusTransition (status state) target);;
          save (next <| status := target |>);;
          mret (toPublicCrawlJob (next <| status := target |>))
    end.

Definition assertNonTerminal (state : InternalCrawlJobState) : result unit :=
  throw_if (crawl_terminal (status state))
    (crawl_error ("Cannot transition from terminal status " +:+
                  quoted (crawl_status_name (status state)))).

Definition fetchBatch (state : InternalCrawlJobState) : Mgr UpstreamCrawlPageBatch :=
  match provider this with
  | None => mret {| b_pages := []; b_nextCursor := None |}
  | Some p => on_world (fetchUpstreamPages (providerJobId state) (providerCursor state))
  end.

Definition ingestUpstream (id : string) (caller : CrawlJobCaller) (now : Z)
    : Mgr PublicCrawlJob :=
  state ← resolve id caller now;
  lift (assertNonTerminal state);;
  batch ← attempt (fetchBatch state);
  match batch with
  | inr error => failJob state error now UPSTREAM_ERROR
  | inl b => ingestBatch state b now
  end.

(** Store the new state and return its public view. *)
Definition commit (next : InternalCrawlJobState) : Mgr PublicCrawlJob :=
  save next;;
  mret (toPublicCrawlJob next).

Definition cancelCallerWait (id : string) (caller : CrawlJobCaller) (now : Z)
    : Mgr PublicCrawlJob :=
  state ← resolve id caller now;
  lift (validateCrawlStatusTransition (status state) cancelled_by_caller);;
  commit (state <| status := cancelled_by_caller |> <| callerCancelled := true |>).

Definition cancelGroundlanePolling (id : string) (caller : CrawlJobCaller) (now : Z)
    : Mgr PublicCrawlJob :=
  state ← resolve id caller now;
  lift (validateCrawlStatusTransition (status state) cancelled_by_groundlane);;
  commit (state <| status := cancelled_by_groundlane |>
                <| groundlanePollingCancelled := true |>).

(** The end of both branches of [requestUpstreamCancel]. *)
Definition finishUpstreamCancel (next : InternalCrawlJobState)
    (ack : option ProviderCancelAcknowledgment) : Mgr CrawlUpstreamCancelOutcome :=
  save next;;
  let cancelResult := {|
    cr_callerCancelled := callerCancelled next;
    cr_groundlanePollingCancelled := groundlanePollingCancelled next;
    cr_upstreamCancelled := negb (bool_decide (ack = None));
    cr_providerAcknowledgment := ack |} in
  lift (validateCrawlCancelResult cancelResult);;
  mret {| cuc_job := toPublicCrawlJob next; cuc_cancelResult := cancelResult |}.

Definition requestUpstreamCancel (id : string) (caller : CrawlJobCaller) (now : Z)
    : Mgr CrawlUpstreamCancelOutcome :=
  state ← resolve id caller now;
  lift (assertNonTerminal state);;
  acknowledgment ← match provider this with
                   | None => mret None
                   | Some p => on_world (cancelUpstream (providerJobId state))
                   end;
  match acknowledgment with
  | None => finishUpstreamCancel (state <| upstreamCancelRequested := true |>) None
  | Some ack =>
      lift (validateCrawlStatusTransition (status state) cancelled_by_upstream);;
      finishUpstreamCancel (state <| status := cancelled_by_upstream |>
                                  <| upstreamCancelRequested := true |>
                                  <| upstreamAcknowledgment := Some ack |>) (Some ack)
  end.
End crawl_manager.
