(* ===== verification/CrawlJobsSafety.v ===== *)
(** * Correctness of the crawl-job manager

    Reachability over the methods of [CrawlJobManager], the budgets every
    stored job respects, the order in which a job evolves, and the result
    pages. *)

From S2P Require Import Prelude JsString JobStore AsyncContract CrawlJobs.

(** ** Order, well-formedness *)

(** How a stored job may change: what identifies it is fixed, the partial
    results and the flags only grow, and a terminal job is final. *)
Record evolves (x y : InternalCrawlJobState) : Prop := {
  ev_id : groundlaneJobId y = groundlaneJobId x;
  ev_owner : ownerId y = ownerId x;
  ev_credential : credentialBinding y = credentialBinding x;
  ev_provider : providerId y = providerId x ∧ providerJobId y = providerJobId x;
  ev_budgets : budgets y = budgets x;
  ev_times : createdAt y = createdAt x ∧ expiresAt y = expiresAt x;
  ev_key : idempotencyKey y = idempotencyKey x;
  ev_rank : (CRAWL_STATUS_ORDER (status x) <= CRAWL_STATUS_ORDER (status y))%Z;
  ev_terminal : crawl_terminal (status x) = true → y = x;
  ev_partials : partials x `prefix_of` partials y;
  ev_dropped : (droppedUpstreamUrls x <= droppedUpstreamUrls y)%Z;
  ev_requested : upstreamCancelRequested x = true → upstreamCancelRequested y = true
}.

#[export] Instance evolves_preorder : PreOrder evolves.
Proof.
  split.
  - intros x. constructor; auto; lia.
  - intros x y z [] []. constructor; try (by auto); try lia; try (intuition congruence).
    + intros Hx. pose proof (ev_terminal0 Hx). subst. auto.
    + by etrans.
Qed.

Lemma evolves_keys x y :
  evolves x y → groundlaneJobId y = groundlaneJobId x ∧ idempotencyKey y = idempotencyKey x.
Proof. by intros []. Qed.

(** [m] is a sequence of results each of which was accepted as [keepPage]
    accepts one: public URL, non-negative count. *)
Definition accepted_partial `{UrlApi} (p : CrawlPartialResult) : Prop :=
  (0 <= pr_contentChars p)%Z ∧
  ∃ raw, assertPublicHttpUrl raw "upstream page url" = Ok (pr_url p).

(** The totals of a job are within its budgets. *)
Definition within_budgets (b : CrawlBudgets) (t : totals) : Prop :=
  (totalPages t <= to_Z (maxPages b))%Z ∧ (totalBytes t <= to_Z (maxBytes b))%Z ∧
  (totalOutputChars t <= to_Z (maxOutputChars b))%Z.

Record wf_crawl `{UrlApi} (x : InternalCrawlJobState) : Prop := {
  wf_budgets : validateBudgets (budgets x) = Ok tt;
  wf_within : within_budgets (budgets x) (totalsOf (partials x));
  wf_cap : (Z.of_nat (length (partials x)) <= MAX_CRAWL_PARTIALS)%Z;
  wf_accepted : Forall accepted_partial (partials x);
  wf_expiry : ∃ t0 t1, createdAt x = IsoAt t0 ∧ expiresAt x = IsoAt t1 ∧ (t0 < t1)%Z;
  wf_ack : upstreamAcknowledgment x ≠ None ↔ status x = cancelled_by_upstream;
  wf_error : sanitizedError x ≠ None ↔ status x = failed;
  wf_billed : billedAt x ≠ None ↔ status x = completed ∨ status x = failed;
  wf_fresh : status x = created → partials x = [];
  wf_dropped : (0 <= droppedUpstreamUrls x)%Z
}.

Lemma crawl_wf_nonterminal `{UrlApi} x :
  wf_crawl x → crawl_terminal (status x) = false →
  upstreamAcknowledgment x = None ∧ sanitizedError x = None ∧ billedAt x = None.
Proof.
  intros [] Hnt. split_and!.
  - destruct (upstreamAcknowledgment x) eqn:E; [|done].
    rewrite (proj1 wf_ack0) in Hnt; done.
  - destruct (sanitizedError x) eqn:E; [|done]. rewrite (proj1 wf_error0) in Hnt; done.
  - destruct (billedAt x) eqn:E; [|done].
    destruct (proj1 wf_billed0) as [Hs|Hs]; [done|by rewrite Hs in Hnt..].
Qed.

(** ** Totals *)

Definition content_sum (l : list CrawlPartialResult) : Z :=
  foldr (λ p acc, pr_contentChars p + acc)%Z 0%Z l.

Lemma totalsOf_sum l :
  totalsOf l = {| totalPages := Z.of_nat (length l); totalBytes := content_sum l;
                  totalOutputChars := content_sum l |}.
Proof.
  unfold totalsOf. set (f := λ '(bytes, out) page, _).
  assert (∀ a b, foldl f (a, b) l = (a + content_sum l, b + content_sum l)%Z) as ->; [|done].
  induction l as [|p l IH]; intros a b; cbn [foldl content_sum foldr]; [f_equal; lia|].
  unfold f at 2. rewrite IH. unfold content_sum. f_equal; lia.
Qed.

Lemma not_positive_integer_false x :
  not_positive_integer x = false → isInteger x = true ∧ (1 <= to_Z x)%Z.
Proof.
  unfold not_positive_integer. intros H. reflect. split; [done|].
  rewrite num_ltb_integer, to_Z_int in * by (done || apply isInteger_int). by reflect.
Qed.

Lemma validateBudgets_ok b :
  validateBudgets b = Ok tt ↔
  not_positive_integer (maxPages b) = false ∧ not_positive_integer (maxBytes b) = false ∧
  not_positive_integer (maxOutputChars b) = false.
Proof.
  unfold validateBudgets, throw_if.
  repeat case_match; cbn; naive_solver.
Qed.

Lemma budget_check b n :
  not_positive_integer b = false → num_ltb b (int n) = false ↔ (n <= to_Z b)%Z.
Proof.
  intros [Hi _]%not_positive_integer_false.
  rewrite num_ltb_integer, to_Z_int by (done || apply isInteger_int). apply Z.ltb_ge.
Qed.

(** [validateCrawlBudgets] accepts exactly the totals within the budgets. *)
Lemma validateCrawlBudgets_ok b t :
  validateBudgets b = Ok tt →
  validateCrawlBudgets b (totalPages t) (totalBytes t) (totalOutputChars t) = Ok tt ↔
  within_budgets b t.
Proof.
  intros (H1 & H2 & H3)%validateBudgets_ok. unfold validateCrawlBudgets, within_budgets.
  rewrite <- !budget_check by done. unfold throw_if. repeat case_match; cbn; naive_solver.
Qed.

Lemma within_budgets_empty b : validateBudgets b = Ok tt → within_budgets b (totalsOf []).
Proof.
  intros (H1 & H2 & H3)%validateBudgets_ok.
  apply not_positive_integer_false in H1 as [_ ?], H2 as [_ ?], H3 as [_ ?].
  unfold within_budgets. cbn. lia.
Qed.

Lemma keepPage_accepted `{UrlApi} page p : keepPage page = Some p → accepted_partial p.
Proof.
  unfold keepPage. destruct (assertPublicHttpUrl _ _) as [u|] eqn:Hu; [|done].
  destruct (_ || _) eqn:Hc; [done|]. intros [= <-]. reflect.
  rewrite num_ltb_integer, to_Z_int in * by (done || apply isInteger_int). reflect.
  split; cbn; [done|eauto].
Qed.

Lemma keepPages_accepted `{UrlApi} pages d :
  let '(l, d') := keepPages pages d in Forall accepted_partial l ∧ (d <= d')%Z.
Proof.
  revert d. induction pages as [|p pages IH]; intros d; cbn; [by split; [constructor|lia]|].
  destruct (keepPage p) as [q|] eqn:Hq.
  - specialize (IH d). destruct (keepPages pages d) as [l d'].
    destruct IH. split; [|done]. constructor; [|done]. by eapply keepPage_accepted.
  - specialize (IH (d + 1)%Z). destruct (keepPages pages (d + 1)) as [l d'].
    destruct IH. split; [done|lia].
Qed.

(** ** Commands *)

(** The public methods that can write state. *)
Inductive command :=
  | CmdCreate (input : CreateCrawlJobInput)
  | CmdIngest (id : string) (caller : CrawlJobCaller) (now : Z)
  | CmdCancelCallerWait (id : string) (caller : CrawlJobCaller) (now : Z)
  | CmdCancelGroundlanePolling (id : string) (caller : CrawlJobCaller) (now : Z)
  | CmdRequestUpstreamCancel (id : string) (caller : CrawlJobCaller) (now : Z).

(** The job a command works on. *)
Definition target (c : command) : option (string * CrawlJobCaller * Z) :=
  match c with
  | CmdCreate _ => None
  | CmdIngest id caller now | CmdCancelCallerWait id caller now
  | CmdCancelGroundlanePolling id caller now | CmdRequestUpstreamCancel id caller now =>
      Some (id, caller, now)
  end.

Abbreviation job_at s id := (store_get (store s) id).

Section crawl_safety.
Context {St W : Type} `{!CrawlJobStorePort St, !CrawlJobStoreLaws St} `{UrlApi}.
Context (this : CrawlJobManagerOptions W).

Abbreviation Mgr := (M (CrawlManager St W)).

Definition void {A} (m : Mgr A) : Mgr unit := m;; mret tt.

Definition exec (c : command) : Mgr unit :=
  match c with
  | CmdCreate input => void (create this input)
  | CmdIngest id caller now => void (ingestUpstream this id caller now)
  | CmdCancelCallerWait id caller now => void (cancelCallerWait id caller now)
  | CmdCancelGroundlanePolling id caller now => void (cancelGroundlanePolling id caller now)
  | CmdRequestUpstreamCancel id caller now => void (requestUpstreamCancel this id caller now)
  end.

(** Whether it returned or threw, a command leads to the state it left. *)
Definition step (s s' : CrawlManager St W) : Prop := ∃ c, (exec c s).2 = s'.
Definition steps : relation (CrawlManager St W) := rtc step.

Record inv (s : CrawlManager St W) : Prop := {
  inv_store : store_inv (id_of := groundlaneJobId) (key_of := idempotencyKey) wf_crawl (store s);
  inv_next : (0 < nextId s)%Z;
  inv_ids id x : job_at s id = Some x →
    ∃ k, (0 < k < nextId s)%Z ∧ id = crawl_job_id this k;
  inv_size : (store_size (store s) <= Z.max 0 (maxJobs this))%Z
}.

Definition good (s s' : CrawlManager St W) : Prop :=
  inv s' ∧ store_mono evolves (store s) (store s') ∧ (nextId s <= nextId s')%Z.

Lemma crawl_good_refl s : inv s → good s s.
Proof. by intros; split_and!. Qed.

Lemma crawl_good_trans s1 s2 s3 : good s1 s2 → good s2 s3 → good s1 s3.
Proof. intros (_ & H12 & ?) (Hs3 & H23 & ?). split_and!; [done|by etrans|lia]. Qed.

(** The provider's calls change the world only. *)
Lemma crawl_good_world s w : inv s → good s (s <| world := w |>).
Proof. intros []. split_and!; [by split|done|cbn; lia]. Qed.

Lemma good_nextId s n : inv s → (nextId s <= n)%Z → good s (s <| nextId := n |>).
Proof.
  intros [] Hn. split_and!; [split; cbn; [done|lia| |done]|done|done].
  intros id x (k & ? & ?)%inv_ids0. exists k. split; [lia|done].
Qed.

Lemma crawl_good_save s id x next :
  inv s → job_at s id = Some x → evolves x next ∧ wf_crawl next →
  good s (s <| store := store_set (store s) next |>).
Proof.
  intros [Hst Hnext Hids Hsz] Hx [Hev Hwf].
  destruct (store_save evolves wf_crawl evolves_keys _ _ _ _ Hst Hx Hev Hwf)
    as (Hst' & Hmono & Hsize).
  split_and!; [split; cbn; [done..| |by rewrite Hsize]|done|cbn; lia].
  intros id' y. rewrite store_get_set. case_decide; [|apply Hids]. intros _. subst.
  rewrite (ev_id _ _ Hev), (store_get_id _ _ _ (si_ok _ _ Hst) Hx). by eapply Hids.
Qed.

(** ** [resolve] *)

Definition accessible (s : CrawlManager St W) (id : string) (caller : CrawlJobCaller)
    (now : Z) (x : InternalCrawlJobState) : Prop :=
  job_at s id = Some x ∧ ownerId x = cc_ownerId caller ∧
  credentialBinding x = cc_credentialBinding caller ∧ getTime_leb (expiresAt x) now = false.

Lemma crawl_wp_resolve {A} id caller now (f : InternalCrawlJobState → Mgr A) Q s :
  (∀ e, (∀ x, ¬ accessible s id caller now x) → Q (Throw e) s) →
  (∀ x, accessible s id caller now x → wp (f x) Q s) →
  wp (resolve id caller now ≫= f) Q s.
Proof.
  intros He Hx. apply wp_bind. unfold resolve. apply wp_get.
  destruct (job_at s id) as [x|] eqn:Hid.
  2:{ apply wp_throw, He. unfold accessible. naive_solver. }
  apply wp_lift. unfold accessible, validateCrawlJobOwnership, validateCrawlJobNotExpired in *.
  cbn.
  destruct (bool_decide (ownerId x = _)) eqn:Ho; reflect; cbn;
    [|apply He; intros ? (?&?&?&?); congruence].
  destruct (bool_decide (credentialBinding _ = _)) eqn:Hc; reflect; cbn;
    [|apply He; intros ? (?&?&?&?); congruence].
  destruct (getTime_leb (expiresAt x) now) eqn:Hexp; cbn;
    [apply He; intros ? (?&?&?&?); congruence|]. by apply Hx.
Qed.

Lemma crawl_resolve_run {A} id caller now (f : InternalCrawlJobState → Mgr A) s x :
  accessible s id caller now x → (resolve id caller now ≫= f) s = f x s.
Proof.
  intros (Hx & Ho & Hc & He). unfold resolve, mbind, M_bind, get, lift. cbn. rewrite Hx.
  unfold validateCrawlJobOwnership, validateCrawlJobNotExpired. cbn.
  by rewrite !bool_decide_true, He by done.
Qed.

(** Every operation below starts from a state that satisfies [inv]. *)
Definition keeps {A} (m : Mgr A) : Prop :=
  ∀ s, inv s → wp m (λ _ s', good s s') s.

Lemma crawl_keeps_resolve {A} id caller now (f : InternalCrawlJobState → Mgr A) :
  (∀ s x, inv s → job_at s id = Some x → wf_crawl x → wp (f x) (λ _ s', good s s') s) →
  keeps (resolve id caller now ≫= f).
Proof.
  intros Hf s Hs. apply crawl_wp_resolve; [auto using crawl_good_refl|].
  intros x (Hx & _). apply Hf; [done..|]. by eapply si_wf; [apply Hs|].
Qed.

Lemma transition_ok from to u :
  validateCrawlStatusTransition from to = Ok u →
  from ≠ to ∧ crawl_terminal from = false ∧
  (CRAWL_STATUS_ORDER from <= CRAWL_STATUS_ORDER to)%Z.
Proof.
  unfold validateCrawlStatusTransition. intros Hv.
  apply result_bind_Ok in Hv as ([] & H1%throw_if_Ok & Hv).
  apply result_bind_Ok in Hv as ([] & H2%throw_if_Ok & H3%throw_if_Ok). by reflect.
Qed.

Lemma throw_if_bind_keeps {A} bad e (f : unit → Mgr A) s :
  inv s → (bad = false → wp (f tt) (λ _ s', good s s') s) →
  wp (lift (throw_if bad e) ≫= f) (λ _ s', good s s') s.
Proof. intros. apply wp_throw_if; [auto using crawl_good_refl|done]. Qed.

(** Closes the goals [evolves x y /\ wf_crawl y] where [y] updates fields of
    a non-terminal well-formed [x]. *)
Ltac solve_crawl :=
  split; [constructor; cbn; first [done | lia | intros; congruence | by auto] |
          constructor; cbn; first [done | lia | naive_solver]].

(** ** Failing, ingesting *)

Lemma evolves_dropped x d :
  wf_crawl x → crawl_terminal (status x) = false → (droppedUpstreamUrls x <= d)%Z →
  evolves x (x <| droppedUpstreamUrls := d |>) ∧ wf_crawl (x <| droppedUpstreamUrls := d |>).
Proof. intros Hwf Hnt Hd. destruct Hwf. solve_crawl. Qed.

Lemma keeps_failJob {A} s id x y e now code :
  inv s → job_at s id = Some x → evolves x y ∧ wf_crawl y →
  crawl_terminal (status y) = false →
  wp (failJob (A := A) y e now code) (λ _ s', good s s') s.
Proof.
  intros Hs Hx [Hev Hwf] Hnt. apply (crawl_good_save s id x); [done..|].
  destruct (crawl_wf_nonterminal _ Hwf Hnt) as (Hack & Herr & Hbill).
  assert (CRAWL_STATUS_ORDER (status y) <= 2)%Z by (destruct (status y); cbn; lia).
  split; [etrans; [exact Hev|]|]; destruct Hwf;
    constructor; cbn; first [done | lia | intros; congruence | naive_solver].
Qed.

(** The job a batch within the budgets leads to. *)
Definition ingested (x : InternalCrawlJobState) (merged : list CrawlPartialResult)
    (cursor : option string) (d now : Z) (drained : bool) : InternalCrawlJobState :=
  (x <| partials := merged |>
     <| providerCursor := cursor |>
     <| droppedUpstreamUrls := d |>
     <| billedAt := if drained then Some (IsoAt now) else billedAt x |>)
     <| status := if drained then completed else crawling |>.

Lemma ingested_ok x kept cursor d now drained :
  wf_crawl x → crawl_terminal (status x) = false → (droppedUpstreamUrls x <= d)%Z →
  Forall accepted_partial kept →
  (Z.of_nat (length (partials x ++ kept)) <= MAX_CRAWL_PARTIALS)%Z →
  within_budgets (budgets x) (totalsOf (partials x ++ kept)) →
  let y := ingested x (partials x ++ kept) cursor d now drained in
  evolves x y ∧ wf_crawl y.
Proof.
  intros Hwf Hnt Hd Hk Hcap Hin y.
  destruct (crawl_wf_nonterminal _ Hwf Hnt) as (Hack & Herr & Hbill).
  assert (CRAWL_STATUS_ORDER (status x) <= 1)%Z by (by destruct (status x)).
  destruct Hwf. subst y. unfold ingested. split.
  - constructor; cbn; try done; [destruct drained; cbn; lia|congruence|].
    by apply prefix_app_r.
  - constructor; cbn; try done; try lia; try by apply Forall_app.
    + destruct drained; naive_solver.
    + destruct drained; naive_solver.
    + rewrite Hbill. destruct drained; naive_solver.
    + by destruct drained.
Qed.

Lemma same_status_ingested x merged cursor d now (drained : bool) :
  status x = (if drained then completed else crawling) →
  (x <| partials := merged |> <| providerCursor := cursor |> <| droppedUpstreamUrls := d |>
     <| billedAt := if drained then Some (IsoAt now) else billedAt x |>) =
  ingested x merged cursor d now drained.
Proof. unfold ingested. by destruct x; cbn; intros ->. Qed.

Lemma keeps_ingestBatch s id x batch now :
  inv s → job_at s id = Some x → wf_crawl x → crawl_terminal (status x) = false →
  wp (ingestBatch x batch now) (λ _ s', good s s') s.
Proof.
  intros Hs Hx Hwf Hnt. unfold ingestBatch.
  pose proof (keepPages_accepted (b_pages batch) (droppedUpstreamUrls x)) as Hkept.
  destruct (keepPages _ _) as [kept d]. destruct Hkept as [Hkept Hd].
  destruct (_ <? _)%Z eqn:Hcap; [eapply keeps_failJob; eauto using evolves_dropped|].
  destruct (validateCrawlBudgets _ _ _ _) as [[]|e] eqn:Hb;
    [|eapply keeps_failJob; eauto using evolves_dropped].
  apply validateCrawlBudgets_ok in Hb; [|by destruct Hwf]. reflect.
  set (drained := _ && _).
  pose proof (ingested_ok x kept (b_nextCursor batch) d now drained Hwf Hnt Hd Hkept Hcap Hb)
    as Hok.
  case_bool_decide as Hst.
  - rewrite same_status_ingested by done. by apply (crawl_good_save s id x).
  - apply wp_bind, wp_lift. destruct (validateCrawlStatusTransition _ _); [|by apply crawl_good_refl].
    by apply (crawl_good_save s id x).
Qed.

Lemma crawl_wp_on_world {A} (m : M W A) (Q : result A → CrawlManager St W → Prop) s :
  (∀ r w, Q r (s <| world := w |>)) → wp (on_world m) Q s.
Proof. intros HQ. unfold wp, on_world. destruct (m (world s)) as [r w]. apply HQ. Qed.

Lemma wp_fetchBatch x (Q : result UpstreamCrawlPageBatch → CrawlManager St W → Prop) s :
  (∀ r w, Q r (s <| world := w |>)) → wp (fetchBatch this x) Q s.
Proof.
  intros HQ. unfold fetchBatch. destruct (provider this); [by apply crawl_wp_on_world|].
  apply wp_ret. destruct s as [st n w]. apply (HQ _ w).
Qed.

Lemma keeps_ingestUpstream id caller now : keeps (ingestUpstream this id caller now).
Proof.
  apply crawl_keeps_resolve. intros s x Hs Hx Hwf.
  apply throw_if_bind_keeps; [done|intros Hnt].
  apply wp_attempt, wp_fetchBatch. intros r w.
  pose proof (crawl_good_world s w Hs) as Hw.
  eapply wp_mono; [|intros ? s'; exact (crawl_good_trans _ _ s' Hw)].
  destruct r; [eapply keeps_ingestBatch; [apply Hw|exact Hx|done..]|].
  eapply (keeps_failJob (s <| world := w |>) id x); [apply Hw|exact Hx|by split|done].
Qed.

(** ** Cancelling *)

Lemma crawl_keeps_cancelCallerWait id caller now : keeps (cancelCallerWait id caller now).
Proof.
  apply crawl_keeps_resolve. intros s x Hs Hx Hwf. apply wp_bind, wp_lift.
  destruct (validateCrawlStatusTransition _ _) as [u|] eqn:Ht; [|by apply crawl_good_refl].
  apply transition_ok in Ht as (_ & Hnt & Hle).
  destruct (crawl_wf_nonterminal _ Hwf Hnt) as (Hack & Herr & Hbill).
  apply (crawl_good_save s id x); [done..|]. destruct Hwf. solve_crawl.
Qed.

Lemma crawl_keeps_cancelGroundlanePolling id caller now :
  keeps (cancelGroundlanePolling id caller now).
Proof.
  apply crawl_keeps_resolve. intros s x Hs Hx Hwf. apply wp_bind, wp_lift.
  destruct (validateCrawlStatusTransition _ _) as [u|] eqn:Ht; [|by apply crawl_good_refl].
  apply transition_ok in Ht as (_ & Hnt & Hle).
  destruct (crawl_wf_nonterminal _ Hwf Hnt) as (Hack & Herr & Hbill).
  apply (crawl_good_save s id x); [done..|]. destruct Hwf. solve_crawl.
Qed.

Lemma crawl_keeps_requestUpstreamCancel id caller now :
  keeps (requestUpstreamCancel this id caller now).
Proof.
  apply crawl_keeps_resolve. intros s x Hs Hx Hwf.
  apply throw_if_bind_keeps; [done|intros Hnt].
  destruct (crawl_wf_nonterminal _ Hwf Hnt) as (Hack & Herr & Hbill).
  assert (∀ r w, wp (A := CrawlUpstreamCancelOutcome) (match r with
      | None => finishUpstreamCancel (x <| upstreamCancelRequested := true |>) None
      | Some ack =>
          lift (validateCrawlStatusTransition (status x) cancelled_by_upstream);;
          finishUpstreamCancel (x <| status := cancelled_by_upstream |>
             <| upstreamCancelRequested := true |>
             <| upstreamAcknowledgment := Some ack |>) (Some ack)
      end) (λ _ s', good s s') (s <| world := w |>)) as Hrest.
  { intros r w. pose proof (crawl_good_world s w Hs) as Hw.
    eapply wp_mono; [|intros ? s'; exact (crawl_good_trans _ _ s' Hw)]. destruct r as [ack|].
    - apply wp_bind, wp_lift.
      destruct (validateCrawlStatusTransition _ _) as [u|] eqn:Ht; [|apply crawl_good_refl, Hw].
      apply transition_ok in Ht as (_ & _ & Hle).
      apply (crawl_good_save (s <| world := w |>) id x); [apply Hw|exact Hx|].
      destruct Hwf. solve_crawl.
    - apply (crawl_good_save (s <| world := w |>) id x); [apply Hw|exact Hx|].
      destruct Hwf. solve_crawl. }
  apply wp_bind. destruct (provider this) as [p|].
  - apply crawl_wp_on_world. intros [r|e] w; [apply Hrest|by apply crawl_good_world].
  - apply wp_ret. destruct s as [st n w]. apply (Hrest None w).
Qed.

(** ** Creating *)

Lemma crawl_create_input_ok input u :
  validateCreateInput input = Ok u →
  validateBudgets (ci_budgets input) = Ok tt ∧ isFinite (ci_ttlSeconds input) = true ∧
  num_leb (ci_ttlSeconds input) (int 0) = false.
Proof.
  unfold validateCreateInput. intros Hv.
  apply result_bind_Ok in Hv as ([] & _ & Hv).
  apply result_bind_Ok in Hv as ([] & _ & Hv).
  apply result_bind_Ok in Hv as (seed & _ & Hv).
  apply result_bind_Ok in Hv as ([] & Hb & Hv).
  apply result_bind_Ok in Hv as ([] & Ht%throw_if_Ok & Hv). by reflect.
Qed.

Lemma crawl_job_id_inj a b :
  (0 <= a)%Z → (0 <= b)%Z → crawl_job_id this a = crawl_job_id this b → a = b.
Proof.
  intros Ha Hb Heq%String.app_inj.
  rewrite <- (digits_value_padStart0 6 a Ha), <- (digits_value_padStart0 6 b Hb). by rewrite Heq.
Qed.

Lemma crawl_wf_initialState input id p t1 key u :
  validateCreateInput input = Ok u → (ci_now input < t1)%Z →
  wf_crawl (initialState input id p (IsoAt t1) key).
Proof.
  intros (Hb & _)%crawl_create_input_ok Ht.
  constructor; cbn; try done; try (by split; [|intros [|]]).
  - by apply within_budgets_empty.
  - eauto 10.
Qed.

(** No stored job answers to the key of [input]. *)
Definition key_free (s : CrawlManager St W) (input : CreateCrawlJobInput) : Prop :=
  ∀ k, optionalKey input = Ok (Some k) → store_getByIdempotencyKey (store s) k = None.

Lemma good_insert s x n :
  inv s → (nextId s < n)%Z → groundlaneJobId x = crawl_job_id this (nextId s) → wf_crawl x →
  (store_size (store s) < maxJobs this)%Z →
  (∀ k, idempotencyKey x = Some k → store_getByIdempotencyKey (store s) k = None) →
  good s (s <| nextId := n |> <| store := store_set (store s) x |>).
Proof.
  intros [Hst Hnext Hids Hsz] Hn Hid Hwf Hlt Hfree.
  assert (job_at s (groundlaneJobId x) = None) as Hnone.
  { destruct (job_at s _) as [y|] eqn:Hy; [exfalso|done].
    destruct (Hids _ _ Hy) as (k & Hk & Heq). rewrite Hid in Heq.
    apply crawl_job_id_inj in Heq; lia. }
  destruct (store_insert evolves wf_crawl evolves_keys _ _ Hst Hnone Hwf Hfree)
    as (Hst' & Hmono & Hsize).
  split_and!; [split; cbn; [done|lia| |rewrite Hsize; lia]|done|cbn; lia].
  intros id y. rewrite store_get_set. case_decide as Hd.
  - intros _. exists (nextId s). split; [lia|congruence].
  - intros (k & ? & ?)%Hids. exists k. split; [lia|done].
Qed.

Lemma keeps_createFresh input seed u s :
  validateCreateInput input = Ok u → key_free s input → inv s →
  wp (createFresh this input seed) (λ _ s', good s s') s.
Proof.
  intros Hin Hfree Hs. apply wp_get.
  apply throw_if_bind_keeps; [done|intros Hsz; reflect]. apply wp_update.
  set (s1 := s <| nextId := (nextId s + 1)%Z |>).
  assert (good s s1) as Hs1 by (apply good_nextId; [done|lia]).
  assert (∀ job w, wp (
    expiry ← lift (toISOString (new_Date (num_shift (ci_now input)
                                          (num_scale (ci_ttlSeconds input) 1000))));
    key ← lift (optionalKey input);
    let state := initialState input (crawl_job_id this (nextId s)) job expiry key in
    let view := toDurableView state in
    lift (validateCrawlJobOwnership view (ci_ownerId input));;
    lift (validateCrawlJobNotExpired view (ci_now input));;
    save state;;
    mret {| ccr_job := toPublicCrawlJob state; ccr_reused := false |})
    (λ _ s', good s s') (s1 <| world := w |>)) as Hrest.
  { intros job w.
    assert (good s (s1 <| world := w |>)) as Hw
      by (eapply crawl_good_trans; [exact Hs1|apply crawl_good_world, Hs1]).
    apply wp_bind, wp_lift. destruct (new_Date _) as [t1|] eqn:Ht; [|done]. cbn.
    apply wp_bind, wp_lift. destruct (optionalKey input) as [key|] eqn:Hkey; [|done].
    apply wp_bind, wp_lift. destruct (validateCrawlJobOwnership _ _); [|done].
    apply wp_bind, wp_lift. unfold validateCrawlJobNotExpired. cbn.
    unfold getTime_leb. cbn. destruct (_ <=? _)%Z eqn:Hlive; [done|]. reflect. cbn.
    pose proof (crawl_wf_initialState input (crawl_job_id this (nextId s)) job t1 key u Hin Hlive)
      as Hwf.
    set (s0 := s <| world := w |>).
    assert (good s s0) as Hs0 by (by apply crawl_good_world).
    apply (crawl_good_trans _ s0); [done|].
    apply (good_insert s0 (initialState input (crawl_job_id this (nextId s0)) job (IsoAt t1) key)
      (nextId s0 + 1)%Z); [apply Hs0|lia|done..|].
    intros k Hk. cbn in Hk. subst key. by apply Hfree. }
  apply wp_bind. destruct (provider this) as [p|].
  - apply crawl_wp_on_world. intros [job|e] w; [apply Hrest|].
    eapply crawl_good_trans; [exact Hs1|apply crawl_good_world, Hs1].
  - apply wp_ret. destruct s as [st n w]. apply (Hrest _ w).
Qed.

Lemma crawl_wp_findReusable input (Q : result _ → CrawlManager St W → Prop) s :
  (∀ e, Q (Throw e) s) →
  (∀ k x, optionalKey input = Ok (Some k) → store_getByIdempotencyKey (store s) k = Some x →
     Q (Ok (Some x)) s) →
  (key_free s input → Q (Ok None) s) →
  wp (findReusable input) Q s.
Proof.
  intros He Hx Hn. unfold findReusable, key_free in *. apply wp_bind, wp_lift.
  destruct (optionalKey input) as [[k|]|]; [|apply wp_ret, Hn; naive_solver|apply He].
  apply wp_get, wp_ret. destruct (store_getByIdempotencyKey _ _) eqn:Hget.
  - by eapply Hx.
  - apply Hn. naive_solver.
Qed.

Lemma crawl_keeps_create input : keeps (create this input).
Proof.
  intros s Hs. apply wp_bind, wp_lift.
  destruct (validateCreateInput input) as [seed|] eqn:Hin; [|by apply crawl_good_refl].
  apply wp_bind, crawl_wp_findReusable.
  - intros. by apply crawl_good_refl.
  - intros. by apply crawl_good_refl.
  - intros. by eapply keeps_createFresh.
Qed.

Lemma crawl_keeps_void {A} (m : Mgr A) : keeps m → keeps (void m).
Proof.
  intros Hm s Hs. unfold void. apply wp_bind. eapply wp_mono; [by apply Hm|]. by intros [].
Qed.

Lemma crawl_keeps_exec c : keeps (exec c).
Proof.
  destruct c; cbn; auto using crawl_keeps_void, crawl_keeps_create, keeps_ingestUpstream,
    crawl_keeps_cancelCallerWait, crawl_keeps_cancelGroundlanePolling, crawl_keeps_requestUpstreamCancel.
Qed.

(** Reachable states keep the invariant, and their jobs only evolve. *)
Lemma crawl_steps_good s s' : inv s → steps s s' → good s s'.
Proof.
  intros Hs Hsteps. induction Hsteps as [|s s1 s2 [c <-] _ IH]; [by apply crawl_good_refl|].
  pose proof (crawl_keeps_exec c s Hs) as Hg. eapply crawl_good_trans; [exact Hg|apply IH, Hg].
Qed.

Lemma crawl_steps_job s s' id x :
  inv s → steps s s' → job_at s id = Some x →
  ∃ y, job_at s' id = Some y ∧ evolves x y ∧ wf_crawl y.
Proof.
  intros Hs Hst Hx. destruct (crawl_steps_good _ _ Hs Hst) as (Hs' & Hm & _).
  destruct (Hm _ _ Hx) as (y & Hy & Hev). exists y. split_and!; [done..|].
  by eapply si_wf; [apply Hs'|].
Qed.
End crawl_safety.

(** ** Result pages *)

Lemma parse_next_cursor o :
  (0 <= o < 2 ^ 1023)%Z → parseResultCursor (Some ("page:" +:+ show o)) = Ok o.
Proof.
  intros Ho. unfold parseResultCursor. rewrite match_prefix_digits_show by lia.
  rewrite Number_of_digits_show by done. cbv zeta. rewrite isInteger_int.
  rewrite num_ltb_integer, !to_Z_int by apply isInteger_int.
  by rewrite (proj2 (Z.ltb_ge _ _)) by lia.
Qed.

Lemma slice_drop {A} (l : list A) (o k : nat) :
  slice (Z.of_nat o) (Z.of_nat o + Z.of_nat k) l = take k (drop o l).
Proof.
  unfold slice. replace (Z.of_nat o + Z.of_nat k - Z.of_nat o)%Z with (Z.of_nat k) by lia.
  rewrite !Nat2Z.id. destruct (_ <=? _)%Z eqn:Hl; [|done]. reflect.
  rewrite drop_ge by lia. by rewrite take_nil.
Qed.

Section result_pages.
Context {St W : Type} `{!CrawlJobStorePort St, !CrawlJobStoreLaws St} `{UrlApi}.

(** A client that reads every page, starting at [cursor]. *)
Fixpoint readPages (fuel : nat) (id : string) (caller : CrawlJobCaller)
    (pageSize : option number) (cursor : option string) (now : Z)
    : M (CrawlManager St W) (list CrawlPartialResult) :=
  match fuel with
  | 0 => throw TOther
  | S fuel' =>
      page ← resultPage id caller {| po_cursor := cursor; po_pageSize := pageSize |} now;
      match rp_nextCursor page with
      | None => mret (rp_items page)
      | Some next =>
          rest ← readPages fuel' id caller pageSize (Some next) now;
          mret (rp_items page ++ rest)
      end
  end.

Definition page_size (o : option number) : number := default (int DEFAULT_CRAWL_PAGE_SIZE) o.

Definition valid_page_size (o : option number) : Prop :=
  not_positive_integer (page_size o) = false ∧
  num_ltb (int MAX_CRAWL_PAGE_SIZE) (page_size o) = false.

Lemma resultPage_run s id caller pageSize cursor now x (o : nat) :
  accessible s id caller now x → valid_page_size pageSize →
  parseResultCursor cursor = Ok (Z.of_nat o) →
  let k := Z.to_nat (to_Z (page_size pageSize)) in
  resultPage id caller {| po_cursor := cursor; po_pageSize := pageSize |} now s =
  (Ok {| rp_job := toPublicCrawlJob x;
         rp_items := take k (drop o (partials x));
         rp_nextCursor :=
           if (Z.of_nat (o + k) <? Z.of_nat (length (partials x)))%Z
           then Some ("page:" +:+ show (Z.of_nat (o + k))) else None |},
   (s : CrawlManager St W)).
Proof.
  intros Hx [Hp Hmax] Hc k. unfold resultPage.
  rewrite (crawl_resolve_run _ _ _ _ _ _ Hx), lift_bind. cbn [po_cursor po_pageSize].
  fold (page_size pageSize). rewrite Hp, Hmax. cbn [orb throw_if]. rewrite lift_bind, Hc.
  apply not_positive_integer_false in Hp as [_ Hp].
  replace (to_Z (page_size pageSize)) with (Z.of_nat k) by lia.
  rewrite slice_drop. by rewrite Nat2Z.inj_add.
Qed.

Lemma readPages_from s id caller pageSize now x n (o : nat) cursor :
  accessible s id caller now x → valid_page_size pageSize →
  (Z.of_nat (length (partials x)) <= MAX_CRAWL_PARTIALS)%Z →
  parseResultCursor cursor = Ok (Z.of_nat o) → length (partials x) - o ≤ n →
  readPages (S n) id caller pageSize cursor now s =
  (Ok (drop o (partials x)), (s : CrawlManager St W)).
Proof.
  intros Hx Hp Hcap. revert o cursor. induction n as [|n IH]; intros o cursor Hc Hn;
    set (k := Z.to_nat (to_Z (page_size pageSize)));
    assert (0 < k) as Hk by
      (pose proof (not_positive_integer_false _ (proj1 Hp)); unfold k; lia);
    cbn [readPages];
    rewrite (M_bind_run _ _ _ _ _ (resultPage_run _ _ _ _ _ _ _ _ Hx Hp Hc)); fold k;
    cbn [rp_nextCursor rp_items]; destruct (_ <? _)%Z eqn:Hlt; reflect.
  - lia.
  - by rewrite take_ge by (rewrite length_drop; lia).
  - assert (parseResultCursor (Some ("page:" +:+ show (Z.of_nat (o + k)))) =
            Ok (Z.of_nat (o + k))) as Hc'.
    { apply parse_next_cursor. unfold MAX_CRAWL_PARTIALS in Hcap.
      split; [lia|]. trans 1000%Z; [lia|]. done. }
    rewrite (M_bind_run _ _ _ _ _ (IH (o + k) _ Hc' ltac:(lia))).
    unfold mret, M_ret. do 2 f_equal. rewrite <- drop_drop. apply take_drop.
  - by rewrite take_ge by (rewrite length_drop; lia).
Qed.
End result_pages.

(** ** Properties *)

Section properties.
Context {St W : Type} `{!CrawlJobStorePort St, !CrawlJobStoreLaws St} `{UrlApi}.
Context (this : CrawlJobManagerOptions W).

(** C6: after any sequence of commands, returning or throwing, and whatever
    the provider answered, every stored crawl job is within all three of its
    budgets and the partial-result cap, holds only pages whose URL passed
    the public-URL gate and whose count is non-negative, and its public view
    reports exactly the totals of its pages, which are also its billed
    units. *)
Theorem crawl_budgets_never_exceeded s s' id x :
  inv this s → steps this s s' → job_at s' id = Some x →
  let p := toPublicCrawlJob x in
  (pub_totalPages p <= to_Z (maxPages (budgets x)))%Z ∧
  (pub_totalBytes p <= to_Z (maxBytes (budgets x)))%Z ∧
  (pub_totalOutputChars p <= to_Z (maxOutputChars (budgets x)))%Z ∧
  (pub_totalPages p <= MAX_CRAWL_PARTIALS)%Z ∧
  Forall accepted_partial (pub_partialResults p) ∧
  pub_totalPages p = Z.of_nat (length (partials x)) ∧
  pub_totalBytes p = content_sum (partials x) ∧
  inputUnits (pub_billingProvenance p) = int (pub_totalPages p) ∧
  outputUnits (pub_billingProvenance p) = int (pub_totalOutputChars p).
Proof.
  intros Hs Hst Hx p. destruct (crawl_steps_good this _ _ Hs Hst) as (Hs' & _).
  destruct (si_wf _ _ (inv_store _ _ Hs') _ _ Hx). destruct wf_within0 as (H1 & H2 & H3).
  subst p. unfold toPublicCrawlJob. rewrite totalsOf_sum in *. by split_and!.
Qed.

(** a stored crawl job only evolves: identity, owner, credential,
    provider handle, budgets, expiry and key are fixed, the partial results
    are only ever extended, the status never moves backward and a terminal
    job never changes in any field. *)
Theorem crawl_jobs_evolve s s' id x :
  inv this s → steps this s s' → job_at s id = Some x →
  ∃ y, job_at s' id = Some y ∧ evolves x y.
Proof.
  intros Hs Hst Hx. destruct (crawl_steps_job this _ _ _ _ Hs Hst Hx) as (y & ? & ? & _). eauto.
Qed.

Lemma crawl_rejected_resolve {A} id caller now (f : _ → M (CrawlManager St W) A) s :
  (∀ x, ¬ accessible s id caller now x) → rejected (resolve id caller now ≫= f) s.
Proof.
  intros Hno. apply wp_rejected, crawl_wp_resolve.
  - intros. split; [by eexists|done].
  - intros x Hx. by destruct (Hno x).
Qed.

Lemma crawl_rejected_inaccessible s c id caller now options :
  target c = Some (id, caller, now) → (∀ x, ¬ accessible s id caller now x) →
  rejected (exec this c) s ∧ rejected (readStatus id caller now) s ∧
  rejected (resultPage id caller options now) s.
Proof.
  intros Ht Hno. split_and!; [|by apply crawl_rejected_resolve..].
  destruct c; try discriminate Ht; injection Ht as <- <- <-; cbn;
    by apply rejected_bind, crawl_rejected_resolve.
Qed.

(** a command or read on a stored crawl job by someone else than its
    owner, under another credential, or past the expiry fixed at its
    creation is rejected without effect, then and after any further
    commands: owner, credential and expiry cannot be changed. *)
Theorem crawl_isolation s s' c id caller t options :
  inv this s → steps this s s' → target c = Some (id, caller, t) →
  (∀ x, job_at s id = Some x →
     ownerId x ≠ cc_ownerId caller ∨ credentialBinding x ≠ cc_credentialBinding caller ∨
     ∃ t0, (t0 <= t)%Z ∧ getTime_leb (expiresAt x) t0 = true) →
  job_at s id ≠ None →
  rejected (exec this c) s' ∧ rejected (readStatus id caller t) s' ∧
  rejected (resultPage id caller options t) s'.
Proof.
  intros Hs Hst Ht Hdenied Hsome. apply crawl_rejected_inaccessible; [done|].
  destruct (job_at s id) as [x|] eqn:Hx; [|done].
  destruct (crawl_steps_job this _ _ _ _ Hs Hst Hx) as (y & Hy & [] & _).
  intros y' (Hy' & Ho & Hc & Hlive). assert (y' = y) as -> by congruence.
  destruct (Hdenied x eq_refl) as [?|[?|(t0 & Hle & Hexp)]]; [congruence..|].
  destruct ev_times0 as [_ He]. unfold getTime_leb in *. rewrite He in Hlive.
  destruct (getTime _); [|done]. reflect. lia.
Qed.

Lemma validateTransition_ingest from (drained : bool) :
  crawl_terminal from = false → from ≠ (if drained then completed else crawling) →
  validateCrawlStatusTransition from (if drained then completed else crawling) = Ok tt.
Proof. by destruct from, drained. Qed.

Lemma failJob_run {A} (x : InternalCrawlJobState) e now code (s : CrawlManager St W) :
  ∃ m b, failJob (A := A) x e now code s =
    (Throw (gerror code "crawl-jobs" m (bool_decide (code = UPSTREAM_ERROR))),
     s <| store := store_set (store s)
            (x <| status := failed |> <| sanitizedError := Some m |>
               <| billedAt := Some b |>) |>).
Proof. unfold failJob. eexists _, _. reflexivity. Qed.

(** What ingesting leaves in the store. *)
Definition ingest_outcome (x y : InternalCrawlJobState) (r : result PublicCrawlJob) : Prop :=
  match r with
  | Ok p => p = toPublicCrawlJob y ∧ (status y = completed ∨ status y = crawling) ∧
            partials x `prefix_of` partials y
  | Throw _ => status y = failed ∧ partials y = partials x ∧ sanitizedError y ≠ None
  end.

Definition stores_outcome (x : InternalCrawlJobState) (s : CrawlManager St W)
    (rs : result PublicCrawlJob * CrawlManager St W) : Prop :=
  ∃ y, rs.2 = s <| store := store_set (store s) y |> ∧
       groundlaneJobId y = groundlaneJobId x ∧ ingest_outcome x y rs.1.

Lemma failJob_outcome x x' e now code s :
  groundlaneJobId x' = groundlaneJobId x → partials x' = partials x →
  stores_outcome x s (failJob x' e now code s).
Proof.
  intros Hid Hp. destruct (failJob_run (A := PublicCrawlJob) x' e now code s) as (m & b & ->).
  eexists. split; [reflexivity|]. by split_and!.
Qed.

Lemma ingestBatch_outcome x batch now s :
  crawl_terminal (status x) = false → stores_outcome x s (ingestBatch x batch now s).
Proof.
  intros Hnt. unfold ingestBatch. destruct (keepPages _ _) as [kept d].
  destruct (_ <? _)%Z; [by apply failJob_outcome|].
  destruct (validateCrawlBudgets _ _ _ _); [|by apply failJob_outcome].
  set (drained := _ && _). case_bool_decide as Hst.
  - eexists. split; [reflexivity|]. split; [done|]. split; [done|].
    split; [|by apply prefix_app_r]. cbn. rewrite Hst. destruct drained; auto.
  - rewrite lift_bind, validateTransition_ingest by done.
    eexists. split; [reflexivity|]. split; [done|]. split; [done|].
    split; [|by apply prefix_app_r]. cbn. destruct drained; auto.
Qed.

(** one call of [ingestUpstream] on a live job never leaves it half
    updated, whatever the provider did: when it returns, the job is
    completed or crawling and the new pages were appended to the old ones;
    when it throws (the provider failed, or the batch would break the cap or
    a budget), the job is failed with a sanitised error and still has
    exactly the pages it had. *)
Theorem crawl_ingest_is_all_or_nothing s id caller now x :
  inv this s → accessible s id caller now x → crawl_terminal (status x) = false →
  let '(r, s') := ingestUpstream this id caller now s in
  ∃ y, job_at s' id = Some y ∧ ingest_outcome x y r.
Proof.
  intros Hs Hx Hnt. unfold ingestUpstream. rewrite (crawl_resolve_run _ _ _ _ _ _ Hx).
  unfold assertNonTerminal. rewrite Hnt, lift_bind. cbn [throw_if].
  assert (∃ r w, attempt (fetchBatch this x) s = (Ok r, s <| world := w |>)) as (r & w & Hr).
  { assert (wp (fetchBatch this x) (λ r s', ∃ w, s' = s <| world := w |>) s) as Hf
      by (apply wp_fetchBatch; eauto).
    unfold wp, attempt in *. destruct (fetchBatch this x s) as [[] s']; cbn in Hf;
      destruct Hf as [w ->]; eauto. }
  rewrite (M_bind_run _ _ _ _ _ Hr).
  assert (stores_outcome x (s <| world := w |>)
    (match r with inr error => failJob x error now UPSTREAM_ERROR
                | inl b => ingestBatch x b now end (s <| world := w |>)))
    as (y & Hs' & Hid & Hy)
    by (destruct r; [by apply ingestBatch_outcome|by apply failJob_outcome]).
  destruct (match r with inr error => failJob x error now UPSTREAM_ERROR
                       | inl b => ingestBatch x b now end (s <| world := w |>)) as [r' s'].
  cbn in Hs', Hy. subst s'. exists y. split; [|done]. cbn.
  destruct Hx as (Hx & _). rewrite store_get_set, decide_True; [done|].
  rewrite Hid. symmetry. eapply store_get_id; [apply Hs|done].
Qed.

(** reading the results page by page, with any valid page size, from no
    cursor and following each [nextCursor], ends, returns every stored
    partial result exactly once and in order, and changes nothing. *)
Theorem crawl_result_pages_cover s id caller pageSize now x :
  inv this s → accessible s id caller now x → valid_page_size pageSize →
  readPages (S (length (partials x))) id caller pageSize None now s = (Ok (partials x), s).
Proof.
  intros Hs Hx Hp. rewrite (readPages_from _ _ _ _ _ x (length (partials x)) 0); try done; [|lia].
  destruct Hx as (Hx & _). apply (wf_cap _ (si_wf _ _ (inv_store _ _ Hs) _ _ Hx)).
Qed.

(** a valid time to live of less than a millisecond makes [create] throw
    the plain expiry error after the crawl was started upstream: a job
    number is used up, the upstream crawl runs, and nothing is stored. *)
Theorem submillisecond_ttl_orphans_crawl s input seed p task w :
  validateCreateInput input = Ok seed → ci_idempotencyKey input = None →
  (store_size (store s) < maxJobs this)%Z → provider this = Some p →
  startCrawl seed (world s) = (Ok task, w) →
  new_Date (num_shift (ci_now input) (num_scale (ci_ttlSeconds input) 1000)) =
    Some (ci_now input) →
  create this input s =
    (Throw (TError "Crawl job has expired"),
     s <| nextId := (nextId s + 1)%Z |> <| world := w |>).
Proof.
  intros Hin Hk Hsz Hp Hstart Hd. unfold create. rewrite lift_bind, Hin.
  unfold findReusable, optionalKey. rewrite Hk. rewrite (M_bind_run _ _ _ None s) by done.
  unfold createFresh, optionalKey. rewrite Hk, Hp.
  unfold mbind, M_bind, get, lift, update, on_world. cbn. rewrite (proj2 (Z.leb_gt _ _) Hsz).
  cbn. rewrite Hstart. cbn. rewrite Hd. cbn.
  unfold validateCrawlJobOwnership, validateCrawlJobNotExpired, getTime_leb. cbn.
  by rewrite bool_decide_true, Z.leb_refl by done.
Qed.
End properties.

Lemma inv_empty {W} `{UrlApi} (this : CrawlJobManagerOptions W) w n :
  (0 < n)%Z → inv this {| store := empty_store : InMemoryCrawlJobStore; nextId := n; world := w |}.
Proof.
  intros Hn. split; cbn; [apply store_inv_empty|done| |rewrite map_size_empty; lia].
  intros id x. by rewrite lookup_empty.
Qed.

(** ** A concrete world and the witnesses

    The provider hands out the batches it was given, one per call, and
    throws when it has none left. *)
Module Demo.
Record demo_world := { batches : list UpstreamCrawlPageBatch; started : list string }.

Definition demo_provider : CrawlProviderPort demo_world := {|
  startCrawl seed w := (Ok ("task:" +:+ seed), {| batches := batches w;
                                                 started := seed :: started w |});
  fetchUpstreamPages _ _ w :=
    match batches w with
    | [] => (Throw (TError "upstream is down"), w)
    | b :: rest => (Ok b, {| batches := rest; started := started w |})
    end;
  cancelUpstream _ w := (Ok None, w)
|}.

Definition options : CrawlJobManagerOptions demo_world :=
  {| provider := Some demo_provider; maxJobs := 2; jobIdPrefix := CRAWL_JOB_ID_PREFIX |}.

#[export] Instance demo_url : UrlApi :=
  {| new_URL s := if startsWith s "https://e.com/"
                  then Some {| url_protocol := "https:"; url_username := "";
                               url_password := ""; url_hostname := "e.com";
                               url_port := ""; url_href := s |}
                  else None |}.

Definition alice : CrawlJobCaller := {| cc_ownerId := "alice"; cc_credentialBinding := "cred" |}.
Definition mallory : CrawlJobCaller :=
  {| cc_ownerId := "mallory"; cc_credentialBinding := "cred" |}.

Definition input (ttl : number) : CreateCrawlJobInput := {|
  ci_ownerId := "alice"; ci_credentialBinding := "cred"; ci_seedUrl := "https://e.com/";
  ci_budgets := {| maxPages := int 3; maxBytes := int 100; maxOutputChars := int 100 |};
  ci_ttlSeconds := ttl; ci_providerId := None; ci_idempotencyKey := None; ci_now := 1000 |}.

Definition page (u : string) (n : Z) : UpstreamCrawlPage :=
  {| up_url := u; up_contentChars := int n; up_fetchedAt := "now" |}.

Definition w0 : demo_world := {|
  batches := [{| b_pages := [page "https://e.com/a" 10; page "ftp://bad" 1;
                             page "https://e.com/b" 20]; b_nextCursor := Some "c1"%string |};
              {| b_pages := [page "https://e.com/c" 99]; b_nextCursor := None |}];
  started := [] |}.

Definition s0 : CrawlManager InMemoryCrawlJobStore demo_world :=
  {| store := empty_store; nextId := 1; world := w0 |}.

(** After creating [gl-crawl-000001], and after ingesting the first batch. *)
Definition s1 := (exec options (CmdCreate (input (int 60))) s0).2.
Definition job : string := "gl-crawl-000001".
Definition s2 := (exec options (CmdIngest job alice 2000) s1).2.
(** The second batch breaks the byte budget. *)
Definition s3 := (exec options (CmdIngest job alice 3000) s2).2.

Lemma crawl_s0_inv : inv options s0.
Proof. by apply inv_empty. Qed.

Lemma steps_to_s1 : steps options s0 s1.
Proof. apply rtc_once. eexists. reflexivity. Qed.

Lemma steps_to_s2 : steps options s1 s2.
Proof. apply rtc_once. eexists. reflexivity. Qed.

Lemma steps_to_s3 : steps options s2 s3.
Proof. apply rtc_once. eexists. reflexivity. Qed.

Lemma s2_inv : inv options s2.
Proof.
  apply (crawl_steps_good options s0); [apply crawl_s0_inv|].
  etrans; [apply steps_to_s1|apply steps_to_s2].
Qed.

(** The stored job, in the four states. *)
Definition stored (s : CrawlManager InMemoryCrawlJobStore demo_world)
    : InternalCrawlJobState :=
  default (initialState (input (int 60)) "" "" (IsoAt 0) None) (job_at s job).

Lemma stored_s2 : job_at s2 job = Some (stored s2).
Proof. vm_compute. reflexivity. Qed.

Lemma accessible_s2 : accessible s2 job alice 3000 (stored s2).
Proof. split_and!; vm_compute; reflexivity. Qed.
End Demo.

Module Witness.
Import Demo.

Lemma crawl_budgets_never_exceeded_witness :
  (pub_totalPages (toPublicCrawlJob (stored s3)) <= 3)%Z ∧
  pub_totalBytes (toPublicCrawlJob (stored s3)) = 30%Z.
Proof.
  destruct (crawl_budgets_never_exceeded options s2 s3 job (stored s3) s2_inv steps_to_s3
    ltac:(vm_compute; reflexivity)) as (Hp & _ & _ & _ & _ & _ & Hb & _).
  split; [exact Hp|rewrite Hb; vm_compute; reflexivity].
Defined.

Lemma crawl_jobs_evolve_witness :
  ∃ y, job_at s3 job = Some y ∧ evolves (stored s2) y.
Proof. apply (crawl_jobs_evolve options s2 s3 job (stored s2) s2_inv steps_to_s3 stored_s2). Defined.

Lemma crawl_isolation_witness :
  rejected (exec options (CmdIngest job mallory 3000)) s3.
Proof.
  apply (crawl_isolation options s2 s3 (CmdIngest job mallory 3000) job mallory 3000
    {| po_cursor := None; po_pageSize := None |} s2_inv steps_to_s3 eq_refl).
  - intros x Hx. rewrite stored_s2 in Hx. injection Hx as <-. left. vm_compute. discriminate.
  - rewrite stored_s2. discriminate.
Defined.

Lemma crawl_ingest_is_all_or_nothing_witness :
  ∃ y, job_at s3 job = Some y ∧ status y = failed ∧ partials y = partials (stored s2).
Proof.
  pose proof (crawl_ingest_is_all_or_nothing options s2 job alice 3000 (stored s2) s2_inv
    accessible_s2 ltac:(vm_compute; reflexivity)) as H.
  assert (∃ e, ingestUpstream options job alice 3000 s2 = (Throw e, s3)) as [e He]
    by (eexists; vm_compute; reflexivity).
  rewrite He in H. destruct H as (y & Hy & H1 & H2 & _). exists y. split_and!; assumption.
Defined.

Lemma crawl_result_pages_cover_witness :
  readPages 3 job alice (Some (int 1)) None 3000 s2 = (Ok (partials (stored s2)), s2).
Proof.
  apply (crawl_result_pages_cover options s2 job alice (Some (int 1)) 3000 (stored s2)
    s2_inv accessible_s2). split; vm_compute; reflexivity.
Defined.

Lemma submillisecond_ttl_orphans_crawl_witness :
  create options (input (Num 1 10000)) s0 =
    (Throw (TError "Crawl job has expired"),
     s0 <| nextId := 2%Z |> <| world := {| batches := batches w0;
                                        started := ["https://e.com/"%string] |} |>).
Proof.
  apply (submillisecond_ttl_orphans_crawl options s0 (input (Num 1 10000)) "https://e.com/"
    demo_provider "task:https://e.com/"); vm_compute; reflexivity.
Defined.
End Witness.
