(* ===== verification/Digest.v ===== *)
(** * Bytes and digests

    What the components share of [node:crypto] and [TextEncoder]: byte
    strings, the UTF-8 bytes of a string, and SHA-256, which is the
    runtime's: [Sha256Api] gives the hexadecimal digest of a byte string. *)

From S2P Require Import Prelude JsString.

(** Bytes; the code units of an ASCII string are its UTF-8 bytes. *)
Abbreviation bytes := (list ascii).

Definition byteLength (b : bytes) : Z := Z.of_nat (length b).

Class Sha256Api := {
  sha256 : bytes → string;
  sha256_length b : String.length (sha256 b) = 64;
  sha256_hex b : Forall (λ c, is_digit c || between 97 102 c = true) (chars (sha256 b))
}.

(** [new TextEncoder().encode(s)]: a code unit from 128 on takes two bytes. *)
Definition utf8_char (c : ascii) : bytes :=
  let n := nat_of_ascii c in
  if n <? 128 then [c] else [ascii_of_nat (192 + n / 64); ascii_of_nat (128 + n mod 64)].

Definition utf8 (s : string) : bytes := flat_map utf8_char (chars s).

(** [new TextDecoder("utf-8", { fatal: true }).decode(b)], of the bytes of a
    string of such code units; other sequences are malformed or denote code
    units the model leaves out. *)
Fixpoint utf8_chars (b : bytes) : option (list ascii) :=
  match b with
  | [] => Some []
  | c :: b' =>
      let n := nat_of_ascii c in
      if n <? 128 then cons c <$> utf8_chars b'
      else match b' with
           | c2 :: b'' =>
               let n2 := nat_of_ascii c2 in
               if (194 <=? n) && (n <? 196) && (128 <=? n2) && (n2 <? 192)
               then cons (ascii_of_nat ((n - 192) * 64 + (n2 - 128))) <$> utf8_chars b''
               else None
           | [] => None
           end
  end.

Definition utf8_decode (b : bytes) : option string := unchars <$> utf8_chars b.

(** Both facts are checked on each of the 256 characters. *)
Definition all_chars : list ascii := ascii_of_nat <$> seq 0 256.

Lemma elem_of_all_chars c : c ∈ all_chars.
Proof.
  unfold all_chars. apply list_elem_of_fmap. exists (nat_of_ascii c).
  rewrite ascii_nat_embedding. split; [done|]. apply elem_of_seq.
  pose proof (nat_ascii_bounded c). lia.
Qed.

Lemma check_chars (f : ascii → bool) : forallb f all_chars = true → ∀ c, f c = true.
Proof. intros H c. eapply forallb_forall in H; [done|]. apply list_elem_of_In, elem_of_all_chars. Qed.

Lemma utf8_char_decode c b : utf8_chars (utf8_char c ++ b) = cons c <$> utf8_chars b.
Proof.
  pose (ok := λ c : ascii,
    let n := nat_of_ascii c in
    if n <? 128 then true
    else let n1 := nat_of_ascii (ascii_of_nat (192 + n / 64)) in
         let n2 := nat_of_ascii (ascii_of_nat (128 + n mod 64)) in
         negb (n1 <? 128) && (194 <=? n1) && (n1 <? 196) && (128 <=? n2) && (n2 <? 192) &&
         bool_decide (ascii_of_nat ((n1 - 192) * 64 + (n2 - 128)) = c)).
  assert (Hok : ok c = true) by (apply check_chars; vm_compute; reflexivity).
  unfold utf8_char. subst ok. cbv beta zeta in Hok.
  destruct (nat_of_ascii c <? 128) eqn:Hc.
  - change ([c] ++ b) with (c :: b). cbn [utf8_chars]. by rewrite Hc.
  - set (c1 := ascii_of_nat (192 + _)) in *. set (c2 := ascii_of_nat (128 + _)) in *.
    apply andb_true_iff in Hok as [Hok Heq]. apply bool_decide_eq_true in Heq.
    rewrite <- !andb_assoc in Hok. apply andb_true_iff in Hok as [H1 Hok].
    apply negb_true_iff in H1. change ([c1; c2] ++ b) with (c1 :: c2 :: b).
    cbn [utf8_chars]. by rewrite H1, <- !andb_assoc, Hok, Heq.
Qed.

Lemma utf8_decode_utf8 s : utf8_decode (utf8 s) = Some s.
Proof.
  unfold utf8_decode, utf8. cut (utf8_chars (flat_map utf8_char (chars s)) = Some (chars s)).
  { intros ->. cbn. by rewrite unchars_chars. }
  induction (chars s) as [|c l IH]; [done|]. cbn [flat_map]. by rewrite utf8_char_decode, IH.
Qed.

Lemma utf8_inj s1 s2 : utf8 s1 = utf8 s2 → s1 = s2.
Proof. intros H. apply (inj Some). by rewrite <- !utf8_decode_utf8, H. Qed.

(** A digest function to evaluate examples with. *)
Definition zero_digest : Sha256Api.
Proof.
  refine {| sha256 := λ _, unchars (replicate 64 "0"%char) |}; intros _; [reflexivity|].
  rewrite chars_unchars. by apply Forall_replicate.
Defined.
