(* ===== verification/UploadIntent.v ===== *)
(** * Upload intents and artifact references

    [src/core/upload-intent.ts]: the upload-intent and artifact-reference
    contracts, MIME sniffing, the in-memory blob storage, and every method
    of [UploadFlowStore] as a state-passing function. *)

From S2P Require Import Prelude JsString Digest.
From Stdlib Require Import HexadecimalString.

(** ** Upload intents *)

Inductive UploadIntentStatus := pending | uploading | completing | finalized | expired | failed.

#[export] Instance UploadIntentStatus_eq_dec : EqDecision UploadIntentStatus.
Proof. solve_decision. Defined.

Definition upload_status_name (s : UploadIntentStatus) : string :=
  match s with
  | pending => "pending"
  | uploading => "uploading"
  | completing => "completing"
  | finalized => "finalized"
  | expired => "expired"
  | failed => "failed"
  end.

(** Sizes and times are integers: [createIntent] checks the sizes before it
    builds the record, and times are clock values. *)
Record UploadIntent := {
  intentId : string;
  ownershipScope : string;
  declaredMime : string;
  declaredSize : Z;
  maxSize : Z;
  expectedDigest : option string;
  expiresAt : Z;
  status : UploadIntentStatus;
  multipart : bool
}.

#[export] Instance UploadIntent_updatable : Updatable UploadIntent :=
  {| rebuild := λ i, Build_UploadIntent (intentId i) (ownershipScope i) (declaredMime i)
       (declaredSize i) (maxSize i) (expectedDigest i) (expiresAt i) (status i)
       (multipart i) |}.

Record CompleteUploadRequest := {
  req_intentId : string;
  actualSize : Z;
  sniffedMime : string;
  req_contentHash : string
}.

Definition UPLOAD_INTENT_DEFAULT_TTL_MS : Z := 15 * 60 * 1000.

Definition validateCreateIntent (intent : UploadIntent) (nowMs : Z) : result unit :=
  throw_if (falsy (intentId intent)) (TError "Upload intent must have a non-empty intentId");;
  throw_if (falsy (ownershipScope intent))
    (TError "Upload intent must have a non-empty ownershipScope");;
  throw_if (declaredSize intent <=? 0)%Z
    (TError "Upload intent declaredSize must be positive");;
  throw_if (maxSize intent <? declaredSize intent)%Z
    (TError ("Declared size " +:+ show (declaredSize intent) +:+ " exceeds max size " +:+
             show (maxSize intent)));;
  throw_if (expiresAt intent <=? nowMs)%Z
    (TError "Upload intent is already expired at creation time");;
  throw_if (multipart intent)
    (TError "V1 only supports single PUT upload; multipart is rejected").

Definition validateCompleteUpload (intent : UploadIntent) (req : CompleteUploadRequest)
    (nowMs : Z) : result unit :=
  throw_if (expiresAt intent <=? nowMs)%Z (TError "Upload intent has expired");;
  throw_if (bool_decide (status intent = finalized))
    (TError "Cannot overwrite a finalized staging object");;
  throw_if (bool_decide (status intent = expired)) (TError "Upload intent has expired");;
  throw_if (bool_decide (status intent = failed)) (TError "Upload intent has failed");;
  throw_if (negb (bool_decide (status intent = uploading)) &&
            negb (bool_decide (status intent = pending)))
    (TError ("Upload intent is in unexpected status: " +:+
             quoted (upload_status_name (status intent))));;
  throw_if (negb (bool_decide (req_intentId req = intentId intent)))
    (TError "Intent ID mismatch: possible replay attack");;
  throw_if (maxSize intent <? actualSize req)%Z
    (TError ("Actual size " +:+ show (actualSize req) +:+ " exceeds max size " +:+
             show (maxSize intent)));;
  match expectedDigest intent with
  | Some digest =>
      throw_if (negb (bool_decide (req_contentHash req = digest)))
        (TError ("Content hash mismatch: expected " +:+ quoted digest +:+ ", got " +:+
                 quoted (req_contentHash req)))
  | None => Ok tt
  end;;
  throw_if (negb (bool_decide (sniffedMime req = declaredMime intent)))
    (TError ("MIME type mismatch: declared " +:+ quoted (declaredMime intent) +:+
             ", sniffed " +:+ quoted (sniffedMime req))).

Definition validateCrossOwnership (intent : UploadIntent) (callerScope : string)
    : result unit :=
  throw_if (negb (bool_decide (ownershipScope intent = callerScope)))
    (TError ("Cross-ownership access denied: intent scope " +:+
             quoted (ownershipScope intent) +:+ " does not match caller scope " +:+
             quoted callerScope)).

(** ** Artifact references *)

Inductive ArtifactKind := kind_source | kind_canonical_document | kind_projection.

#[export] Instance ArtifactKind_eq_dec : EqDecision ArtifactKind.
Proof. solve_decision. Defined.

Definition artifact_kind_name (k : ArtifactKind) : string :=
  match k with
  | kind_source => "source"
  | kind_canonical_document => "canonical_document"
  | kind_projection => "projection"
  end.

Inductive RetentionPolicy := transient | retained | permanent.

Record ArtifactRef := {
  refId : string;
  artifactKind : ArtifactKind;
  ref_ownershipScope : string;
  contentHash : string;
  byteSize : Z;
  createdAt : Z;
  ref_expiresAt : Z;
  retentionPolicy : RetentionPolicy;
  verified : bool
}.

Definition VERIFIED_ARTIFACT_DEFAULT_TTL_MS : Z := 24 * 60 * 60 * 1000.

Definition is_hex_lower (c : ascii) : bool := is_digit c || between 97 102 c.

(** Exactly [n] characters of a class. *)
Fixpoint exactly (n : nat) (f : ascii → bool) (l : list ascii) : option (list ascii) :=
  match n with
  | O => Some l
  | S n' => l' ← one_char f l; exactly n' f l'
  end.

(** [/^[0-9a-f]{32}\/[0-9a-f-]{36}/u] *)
Definition R2_KEY_RE (s : string) : bool :=
  match (l1 ← exactly 32 is_hex_lower (chars s);
         l2 ← one_char (one_of "/") l1;
         exactly 36 (λ c, is_hex_lower c || one_of "-" c) l2) with
  | Some _ => true | None => false end.

(** [(?:X-Amz-Credential|X-Goog-Credential|sig|se)=], letters matched in any
    case. *)
Definition presigned_param (l : list ascii) : bool :=
  existsb (λ name, match lit (chars name) l with
                   | Some rest => match one_char (one_of "=") rest with
                                  | Some _ => true | None => false end
                   | None => false end)
    ["x-amz-credential"; "x-goog-credential"; "sig"; "se"]%string.

Fixpoint presigned_from (l : list ascii) : bool :=
  match l with
  | [] => false
  | c :: l' => (one_of "?&" c && presigned_param l') || presigned_from l'
  end.

(** [/[?&](?:X-Amz-Credential|X-Goog-Credential|sig|se)=/iu] *)
Definition PRESIGNED_URL_RE (s : string) : bool := presigned_from (chars s).

(** [/^(?:\/|\\|[A-Za-z]:\\)/u] *)
Definition FILESYSTEM_PATH_RE (s : string) : bool :=
  match chars s with
  | c :: rest =>
      one_of "/\" c ||
      ((is_upper c || is_lower c) && is_prefix (chars ":\") rest)
  | [] => false
  end.

(** [/^(?:arn:|projects\/|accounts\/)/u] *)
Definition PROVIDER_NATIVE_ID_RE (s : string) : bool :=
  startsWith s "arn:" || startsWith s "projects/" || startsWith s "accounts/".

Definition validateArtifactRefId (id : string) : result unit :=
  throw_if (falsy id) (TError "ArtifactRef must have a non-empty refId");;
  throw_if (R2_KEY_RE id) (TError "ArtifactRef refId must not be an R2 key pattern");;
  throw_if (PRESIGNED_URL_RE id) (TError "ArtifactRef refId must not be a presigned URL");;
  throw_if (FILESYSTEM_PATH_RE id)
    (TError "ArtifactRef refId must not be a filesystem path");;
  throw_if (PROVIDER_NATIVE_ID_RE id)
    (TError "ArtifactRef refId must not be a provider-native ID").

Definition createArtifactRef (params : ArtifactRef) : result ArtifactRef :=
  throw_if (negb (verified params))
    (TError "Cannot create ArtifactRef from unverified upload");;
  validateArtifactRefId (refId params);;
  Ok params.

Record DeploymentExpiryBounds := {
  minTtlMs : Z;
  maxTtlMs : Z;
  operatorCapMs : option Z
}.

Definition resolveEffectiveExpiry (callerTtlMs : Z) (bounds : DeploymentExpiryBounds)
    (created : Z) : Z :=
  let effective := callerTtlMs in
  let effective := if (effective <? minTtlMs bounds)%Z then minTtlMs bounds else effective in
  let effective := if (maxTtlMs bounds <? effective)%Z then maxTtlMs bounds else effective in
  let effective := match operatorCapMs bounds with
                   | Some cap => if (cap <? effective)%Z then cap else effective
                   | None => effective
                   end in
  created + effective.

(** ** Processing policy, source identity, handoff *)

Record ArtifactProcessingPolicy := {
  autoExtendRetention : bool;
  autoEnrollCorpus : bool
}.

Definition DEFAULT_ARTIFACT_PROCESSING_POLICY : ArtifactProcessingPolicy :=
  {| autoExtendRetention := false; autoEnrollCorpus := false |}.

Definition validateArtifactProcessingPolicy (policy : ArtifactProcessingPolicy)
    : result unit :=
  throw_if (autoExtendRetention policy)
    (TError ("autoExtendRetention must be false: processing must not " +:+
             "auto-extend retention"));;
  throw_if (autoEnrollCorpus policy)
    (TError "autoEnrollCorpus must be false: processing must not auto-enroll corpus").

Record UrlProcessingOutput := {
  requestedUrl : string;
  finalUrl : string;
  fetchedAt : Z;
  out_contentHash : string;
  validator : string;
  redirectChain : list string;
  engine : string;
  truncated : bool;
  truncationReason : option string
}.

Definition validateSourceIdentityConsistency (original refetch : UrlProcessingOutput)
    : result unit :=
  throw_if (negb (bool_decide (out_contentHash original = out_contentHash refetch)))
    (TError ("Source identity mismatch: content changed between fetches " +:+
             "(original hash " +:+ quoted (out_contentHash original) +:+
             ", refetch hash " +:+ quoted (out_contentHash refetch) +:+ ")")).

Inductive upload_method := method_direct | method_cli | method_dashboard.

(** [fallbackMethod] is [None], [method_cli] or [method_dashboard]. *)
Record UploadHandoffSupport := {
  clientId : string;
  supportsUploadHandoff : bool;
  fallbackMethod : option upload_method
}.

Definition resolveUploadMethod (client : UploadHandoffSupport) : result upload_method :=
  if supportsUploadHandoff client then Ok method_direct
  else match fallbackMethod client with
       | Some fallback => Ok fallback
       | None => Throw (TError ("Client " +:+ quoted (clientId client) +:+
                   " does not support upload handoff and has no fallback method"))
       end.

(** ** Staging cleanup *)

Inductive StagingCleanupStatus :=
  active | logically_deleted | logically_expired | physical_cleanup_pending | cleaned.

#[export] Instance StagingCleanupStatus_eq_dec : EqDecision StagingCleanupStatus.
Proof. solve_decision. Defined.

Definition staging_status_name (s : StagingCleanupStatus) : string :=
  match s with
  | active => "active"
  | logically_deleted => "logically_deleted"
  | logically_expired => "logically_expired"
  | physical_cleanup_pending => "physical_cleanup_pending"
  | cleaned => "cleaned"
  end.

Definition STAGING_CLEANUP_WINDOW_MS : Z := 3600000.

Definition validateCleanupWindow (windowMs : Z) : result unit :=
  throw_if (STAGING_CLEANUP_WINDOW_MS <? windowMs)%Z
    (TError ("Staging cleanup window " +:+ show windowMs +:+ "ms exceeds maximum " +:+
             show STAGING_CLEANUP_WINDOW_MS +:+ "ms"));;
  throw_if (windowMs <=? 0)%Z (TError "Staging cleanup window must be positive").

Record StagingObject := {
  stg_intentId : string;
  stg_status : StagingCleanupStatus;
  accessRevoked : bool
}.

Definition applyExplicitDelete (staging : StagingObject) : StagingObject :=
  {| stg_intentId := stg_intentId staging;
     stg_status := logically_deleted;
     accessRevoked := true |}.

Definition VALID_TRANSITIONS (from : StagingCleanupStatus) : list StagingCleanupStatus :=
  match from with
  | active => [logically_deleted; logically_expired; physical_cleanup_pending]
  | logically_deleted => [physical_cleanup_pending]
  | logically_expired => [physical_cleanup_pending]
  | physical_cleanup_pending => [cleaned]
  | cleaned => []
  end.

Definition validateStatusTransition (from to : StagingCleanupStatus) : result unit :=
  throw_if (negb (bool_decide (to ∈ VALID_TRANSITIONS from)))
    (TError ("Invalid staging status transition: " +:+ quoted (staging_status_name from) +:+
             " -> " +:+ quoted (staging_status_name to))).

(** The test that the kind is one of the three always passes by its type. *)
Definition validateResultArtifactRef (ref : ArtifactRef) : result unit :=
  validateArtifactRefId (refId ref);;
  throw_if (negb (bool_decide
      (artifactKind ref ∈ [kind_source; kind_canonical_document; kind_projection])))
    (TError ("Invalid artifactKind: " +:+ quoted (artifact_kind_name (artifactKind ref))));;
  throw_if (negb (verified ref)) (TError "Result ArtifactRef must be verified").

Definition validateDocumentSourceArtifactKind (kind : ArtifactKind) : result unit :=
  throw_if (negb (bool_decide (kind = kind_source)))
    (TError ("DocumentSource.artifact only accepts artifactKind=" +:+ quoted "source" +:+
             ", got " +:+ quoted (artifact_kind_name kind))).

(** ** The upload flow: limits and guards *)

Definition MAX_UPLOAD_BYTES : Z := 10 * 1024 * 1024.
Definition MAX_UPLOAD_TTL_MS : Z := 60 * 60 * 1000.
Definition MAX_INTENT_ID_CHARS : Z := 128.
Definition MAX_MIME_CHARS : Z := 128.
Definition MAX_OWNERSHIP_SCOPE_CHARS : Z := 64.
Definition MAX_STAGING_ENTRIES : Z := 1000.

Definition DOCX : string :=
  "application/vnd.openxmlformats-officedocument.wordprocessingml.document".
Definition XLSX : string :=
  "application/vnd.openxmlformats-officedocument.spreadsheetml.sheet".
Definition PPTX : string :=
  "application/vnd.openxmlformats-officedocument.presentationml.presentation".

Definition ALLOWED_UPLOAD_MIMES : list string := [
  "application/pdf"; "image/png"; "image/jpeg"; "image/jpg"; "image/webp"; "image/gif";
  DOCX; XLSX; PPTX; "application/msword"; "application/vnd.ms-excel";
  "application/vnd.ms-powerpoint"; "text/plain"; "text/markdown"; "text/csv"; "text/html";
  "audio/mpeg"; "audio/ogg"; "audio/wav"]%string.

Record CreateUploadIntentInput := {
  in_ownershipScope : string;
  in_declaredMime : string;
  in_declaredSize : number;
  in_maxSize : option number;
  in_expectedDigest : option string;
  in_ttlMs : option number;
  in_intentId : option string;
  in_multipart : option bool
}.

Record FinalizeOverrides := { ov_contentHash : option string; ov_sniffedMime : option string }.

Definition no_overrides : FinalizeOverrides :=
  {| ov_contentHash := None; ov_sniffedMime := None |}.

Definition uploadInputError (message hintCode hintText : string) : thrown :=
  gerror_hint INVALID_INPUT "upload-intent" message false (hint hintCode hintText).

Definition assertBoundedOwnershipScope (scope : string) : result unit :=
  throw_if (falsy scope || falsy (trim scope))
    (uploadInputError "Upload intent must have a non-empty ownershipScope"
       "upload.invalid_input" "Provide a non-empty ownershipScope for the upload intent.");;
  throw_if (MAX_OWNERSHIP_SCOPE_CHARS <? str_length scope)%Z
    (uploadInputError "ownershipScope exceeds maximum length" "upload.output_limit"
       "Use an ownershipScope under 64 characters.").

Definition assertUploadMime (mime : string) : result string :=
  let trimmed := trim mime in
  throw_if (falsy trimmed)
    (uploadInputError "Upload intent must declare a MIME type" "upload.invalid_mime"
       "Declare one of the supported document MIME types.");;
  throw_if (MAX_MIME_CHARS <? str_length trimmed)%Z
    (uploadInputError "Declared MIME type exceeds maximum length" "upload.output_limit"
       "Use a supported MIME type under 128 characters.");;
  throw_if (negb (bool_decide (trimmed ∈ ALLOWED_UPLOAD_MIMES)))
    (uploadInputError ("Unsupported upload MIME type " +:+ quoted trimmed)
       "upload.unsupported_mime"
       "Use one of the supported PDF, image, Office, text, HTML, or audio MIME types.");;
  Ok trimmed.

(** *** MIME sniffing *)

(** [data[i] === v] *)
Definition byte_is (data : bytes) (i v : nat) : bool :=
  match data !! i with Some c => nat_of_ascii c =? v | None => false end.

(** The bytes from [i] on are [vs]. *)
Fixpoint bytes_at (data : bytes) (i : nat) (vs : list nat) : bool :=
  match vs with
  | [] => true
  | v :: vs' => byte_is data i v && bytes_at data (S i) vs'
  end.

Definition sniffUploadMime (data : bytes) : option string :=
  let n := length data in
  if (4 <=? n) && bytes_at data 0 [37; 80; 68; 70] then Some "application/pdf"%string
  else if (8 <=? n) && bytes_at data 0 [137; 80; 78; 71] then Some "image/png"%string
  else if (3 <=? n) && bytes_at data 0 [255; 216; 255] then Some "image/jpeg"%string
  else if (6 <=? n) && (bool_decide (take 6 data = chars "GIF87a") ||
                        bool_decide (take 6 data = chars "GIF89a"))
  then Some "image/gif"%string
  else if (12 <=? n) && bytes_at data 0 [82; 73; 70; 70] && bytes_at data 8 [87; 69; 66; 80]
  then Some "image/webp"%string
  else if (4 <=? n) && bytes_at data 0 [80; 75; 3; 4] then Some "application/zip"%string
  else if (8 <=? n) && bytes_at data 0 [208; 207; 17; 224]
  then Some "application/x-ole-storage"%string
  else if (2 <=? n) && bytes_at data 0 [31; 139] then Some "application/gzip"%string
  else None.

Definition normalizeMimeForCompare (mime : string) : string :=
  if bool_decide (mime = "image/jpg"%string) then "image/jpeg" else mime.

Definition isOoxmlMime (mime : string) : bool :=
  bool_decide (mime = DOCX) || bool_decide (mime = XLSX) || bool_decide (mime = PPTX).

Definition is_legacy_office (mime : string) : bool :=
  bool_decide (mime = "application/msword"%string) ||
  bool_decide (mime = "application/vnd.ms-excel"%string) ||
  bool_decide (mime = "application/vnd.ms-powerpoint"%string).

Definition checkSniffMatchesDeclared (sniffed : option string) (declared : string)
    : result unit :=
  match sniffed with
  | None => Ok tt
  | Some s =>
      if bool_decide (s = "application/gzip"%string) then
        Throw (uploadInputError "Archive content rejected on complete"
          "upload.archive_rejected" "Upload a single document instead of an archive.")
      else if bool_decide (s = "application/zip"%string) then
        throw_if (negb (isOoxmlMime declared))
          (uploadInputError ("MIME type mismatch: declared " +:+ quoted declared +:+
             " does not match archive content") "upload.mime_mismatch"
             "Declare the matching Office MIME type or upload a non-archive document.")
      else if bool_decide (s = "application/x-ole-storage"%string) then
        throw_if (negb (is_legacy_office declared))
          (uploadInputError ("MIME type mismatch: declared " +:+ quoted declared +:+
             " does not match legacy Office content") "upload.mime_mismatch"
             "Declare the matching legacy Office MIME type.")
      else
        throw_if (negb (bool_decide
            (normalizeMimeForCompare declared = normalizeMimeForCompare s)))
          (uploadInputError ("MIME type mismatch: declared " +:+ quoted declared +:+
             ", sniffed " +:+ quoted s) "upload.mime_mismatch"
             "Re-upload with the declared MIME type matching the file bytes.")
  end.

(** ** Blob storage *)

Record InMemoryUploadBlobStorage := {
  staging : gmap string bytes;
  finals : gmap string bytes
}.

#[export] Instance storage_updatable : Updatable InMemoryUploadBlobStorage :=
  {| rebuild := λ s, Build_InMemoryUploadBlobStorage (staging s) (finals s) |}.

Abbreviation Sto := (M InMemoryUploadBlobStorage).

Definition putStaging (id : string) (data : bytes) : Sto unit :=
  s ← get;
  lift (throw_if ((MAX_STAGING_ENTRIES <=? Z.of_nat (size (staging s)))%Z &&
                  bool_decide (staging s !! id = None))
    (uploadInputError "Staging store is full" "upload.output_limit"
       "Complete or expire pending intents before creating new ones."));;
  lift (throw_if (MAX_UPLOAD_BYTES <? byteLength data)%Z
    (uploadInputError ("Staging bytes exceed limit: " +:+ show (byteLength data) +:+ " > " +:+
       show MAX_UPLOAD_BYTES) "upload.output_limit" "Upload a smaller document."));;
  update (λ s, s <| staging := <[id := data]> (staging s) |>).

Definition getStaging (s : InMemoryUploadBlobStorage) (id : string) : option bytes :=
  staging s !! id.

Definition deleteStaging (id : string) : Sto unit :=
  update (λ s, s <| staging := delete id (staging s) |>).

Definition putFinal (id : string) (data : bytes) : Sto unit :=
  s ← get;
  lift (throw_if (negb (bool_decide (finals s !! id = None)))
    (uploadInputError "Cannot overwrite a finalized object" "upload.invalid_input"
       "Final objects are immutable; create a new intent for new content."));;
  update (λ s, s <| finals := <[id := data]> (finals s) |>).

Definition getFinal (s : InMemoryUploadBlobStorage) (id : string) : option bytes :=
  finals s !! id.

Definition deleteFinal (id : string) : Sto unit :=
  update (λ s, s <| finals := delete id (finals s) |>).

(** ** The flow store *)

Record StoredIntent := { intent : UploadIntent; hasPut : bool }.

#[export] Instance StoredIntent_updatable : Updatable StoredIntent :=
  {| rebuild := λ s, Build_StoredIntent (intent s) (hasPut s) |}.

Record UploadFlowStore := {
  seq_ : Z;
  intents : gmap string StoredIntent;
  refs : gmap string ArtifactRef;
  storage : InMemoryUploadBlobStorage
}.

#[export] Instance UploadFlowStore_updatable : Updatable UploadFlowStore :=
  {| rebuild := λ s, Build_UploadFlowStore (seq_ s) (intents s) (refs s) (storage s) |}.

Definition empty_flow_store : UploadFlowStore :=
  {| seq_ := 0; intents := ∅; refs := ∅; storage := {| staging := ∅; finals := ∅ |} |}.

Section upload_flow.
Context `{Sha256Api}.

Abbreviation Flow := (M UploadFlowStore).

Definition hashUploadBytes (data : bytes) : string := "sha256-" +:+ sha256 data.

Definition on_storage {A} (m : Sto A) : Flow A := λ s,
  let '(r, st) := m (storage s) in (r, s <| storage := st |>).

Definition requireIntent (id : string) : Flow StoredIntent :=
  s ← get;
  match intents s !! id with
  | Some stored => mret stored
  | None => throw (uploadInputError "Unknown upload intent" "upload.invalid_input"
                     "Create an intent before PUT or complete.")
  end.

(** Update the stored object of an intent, if there is one. *)
Definition updateIntent (id : string) (f : StoredIntent → StoredIntent) : Flow unit :=
  update (λ s, s <| intents := alter f id (intents s) |>).

Definition markStatus (id : string) (st : UploadIntentStatus) : Flow unit :=
  updateIntent id (λ x, x <| intent := (intent x) <| status := st |> |>).

(** [n.toString(16)] of a positive integer. *)
Definition show_hex (n : Z) : string := NilZero.string_of_uint (N.to_hex_uint (Z.to_N n)).

Definition generatedIntentId (seq nowMs : Z) : string :=
  "intent_" +:+ padStart0 4 (show_hex seq) +:+
  slice_to 12 (sha256 (chars ("intent:" +:+ show seq +:+ ":" +:+ show nowMs))).

(** [!Number.isInteger(x) || x <= 0] *)
Definition not_positive (x : number) : bool := negb (isInteger x) || num_leb x (int 0).

(** The guards of [createIntent] and the values they settle: the trimmed
    MIME type, the size limit and the time to live. *)
Definition checkCreateInput (input : CreateUploadIntentInput) : result (string * Z * Z) :=
  assertBoundedOwnershipScope (in_ownershipScope input);;
  mime ← assertUploadMime (in_declaredMime input);
  throw_if (not_positive (in_declaredSize input))
    (uploadInputError "Upload intent declaredSize must be a positive integer"
       "upload.invalid_input" "Provide a positive integer declaredSize.");;
  let max := default (int MAX_UPLOAD_BYTES) (in_maxSize input) in
  throw_if (not_positive max || num_ltb (int MAX_UPLOAD_BYTES) max)
    (uploadInputError ("Upload maxSize must be a positive integer at most " +:+
       show MAX_UPLOAD_BYTES) "upload.output_limit"
       "Choose a maxSize within the announced upload caps.");;
  throw_if (num_ltb max (in_declaredSize input))
    (uploadInputError ("Declared size " +:+ show (to_Z (in_declaredSize input)) +:+
       " exceeds max size " +:+ show (to_Z max)) "upload.output_limit"
       "Raise maxSize within caps or upload a smaller document.");;
  let ttl := default (int UPLOAD_INTENT_DEFAULT_TTL_MS) (in_ttlMs input) in
  throw_if (not_positive ttl || num_ltb (int MAX_UPLOAD_TTL_MS) ttl)
    (uploadInputError "Upload intent TTL must be a positive integer within caps"
       "upload.invalid_input" "Use a TTL between 1ms and 1 hour.");;
  throw_if (match in_intentId input with
            | Some id => falsy id || (MAX_INTENT_ID_CHARS <? str_length id)%Z
            | None => false end)
    (uploadInputError "Upload intent must have a non-empty intentId within bounds"
       "upload.invalid_input" "Provide a non-empty intentId under 128 characters.");;
  Ok (mime, to_Z max, to_Z ttl).

Definition createIntent (input : CreateUploadIntentInput) (nowMs : Z) : Flow UploadIntent :=
  checked ← lift (checkCreateInput input);
  let '(mime, max, ttl) := checked in
  update (λ s, s <| seq_ := (seq_ s + 1)%Z |>);;
  s ← get;
  let id := default (generatedIntentId (seq_ s) nowMs) (in_intentId input) in
  lift (throw_if (negb (bool_decide (intents s !! id = None)))
    (uploadInputError "Upload intent already exists" "upload.invalid_input"
       "Create a new intent instead of reusing an intent ID."));;
  let i := {|
    intentId := id;
    ownershipScope := in_ownershipScope input;
    declaredMime := mime;
    declaredSize := to_Z (in_declaredSize input);
    maxSize := max;
    expectedDigest := in_expectedDigest input;
    expiresAt := (nowMs + ttl)%Z;
    status := pending;
    multipart := default false (in_multipart input) |} in
  lift (validateCreateIntent i nowMs);;
  update (λ s, s <| intents := <[id := {| intent := i; hasPut := false |}]> (intents s) |>);;
  mret i.

Definition recordPut (id callerScope : string) (data : bytes) (nowMs : Z) : Flow unit :=
  stored ← requireIntent id;
  lift (validateCrossOwnership (intent stored) callerScope);;
  if (expiresAt (intent stored) <=? nowMs)%Z then
    markStatus id expired;;
    throw (uploadInputError "Upload intent has expired" "upload.expired"
             "Create a new intent and re-upload within 15 minutes.")
  else
    lift (throw_if (bool_decide (status (intent stored) = finalized))
      (uploadInputError "Cannot overwrite a finalized staging object" "upload.invalid_input"
         "Final objects are immutable; create a new intent."));;
    lift (throw_if (bool_decide (status (intent stored) = expired) ||
                    bool_decide (status (intent stored) = failed))
      (uploadInputError "Upload intent is no longer writable" "upload.invalid_input"
         "Create a new intent and re-upload."));;
    lift (throw_if (hasPut stored)
      (uploadInputError ("Cannot overwrite a staging object: V1 supports a single PUT " +:+
         "per intent") "upload.invalid_input" "Create a new intent for new content."));;
    lift (throw_if (maxSize (intent stored) <? byteLength data)%Z
      (uploadInputError ("Actual size " +:+ show (byteLength data) +:+ " exceeds max size " +:+
         show (maxSize (intent stored))) "upload.output_limit"
         "Upload a smaller document or raise maxSize within caps."));;
    on_storage (putStaging id data);;
    markStatus id uploading;;
    updateIntent id (λ x, x <| hasPut := true |>).

(** [/expired/i.test(message)] *)
Definition mentions_expired (message : string) : bool :=
  str_includes (toLowerCase message) "expired".

Definition mintedRefId (id hash : string) (seq : Z) : string :=
  "art_" +:+ slice_to 32 (sha256 (chars (id +:+ ":" +:+ hash +:+ ":" +:+ show seq))).

(** The end of [completeAndFinalize]: number, mint, promote, record. *)
Definition finalizeUpload (stored : StoredIntent) (id hash : string) (staged : bytes)
    (nowMs : Z) : Flow ArtifactRef :=
  update (λ s, s <| seq_ := (seq_ s + 1)%Z |>);;
  s ← get;
  let ref_id := mintedRefId id hash (seq_ s) in
  lift (validateArtifactRefId ref_id);;
  ref ← lift (createArtifactRef {|
    refId := ref_id;
    artifactKind := kind_source;
    ref_ownershipScope := ownershipScope (intent stored);
    contentHash := hash;
    byteSize := byteLength staged;
    createdAt := nowMs;
    ref_expiresAt := (nowMs + VERIFIED_ARTIFACT_DEFAULT_TTL_MS)%Z;
    retentionPolicy := transient;
    verified := true |});
  on_storage (putFinal ref_id staged);;
  on_storage (deleteStaging id);;
  markStatus id finalized;;
  update (λ s, s <| refs := <[ref_id := ref]> (refs s) |>);;
  mret ref.

Definition completeAndFinalize (id callerScope : string) (nowMs : Z)
    (overrides : FinalizeOverrides) : Flow ArtifactRef :=
  stored ← requireIntent id;
  lift (validateCrossOwnership (intent stored) callerScope);;
  lift (throw_if (bool_decide (status (intent stored) = finalized))
    (uploadInputError "Cannot overwrite a finalized staging object" "upload.invalid_input"
       "Final objects are immutable; create a new intent."));;
  s ← get;
  match getStaging (storage s) id with
  | None => throw (uploadInputError "Staging object not found for intent"
                     "upload.invalid_input" "PUT the bytes before completing the upload.")
  | Some staged =>
      let sniffed := default (default (declaredMime (intent stored)) (sniffUploadMime staged))
                       (ov_sniffedMime overrides) in
      let hash := default (hashUploadBytes staged) (ov_contentHash overrides) in
      let req := {| req_intentId := id; actualSize := byteLength staged;
                    sniffedMime := sniffed; req_contentHash := hash |} in
      match validateCompleteUpload (intent stored) req nowMs with
      | Throw error =>
          match error with
          | TGroundlane e =>
              if mentions_expired (errMessage e) then markStatus id expired;; throw error
              else throw error
          | TCoded _ message | TError message =>
              if mentions_expired message then markStatus id expired;; throw error
              else throw error
          | _ => throw error
          end
      | Ok _ =>
          lift (checkSniffMatchesDeclared (sniffUploadMime staged)
                  (declaredMime (intent stored)));;
          lift (throw_if (match expectedDigest (intent stored) with
                          | Some digest => negb (bool_decide (hash = digest))
                          | None => false end)
            (uploadInputError ("Content hash mismatch: expected " +:+
               quoted (default ""%string (expectedDigest (intent stored))) +:+ ", got " +:+
               quoted hash) "upload.hash_mismatch"
               "Re-upload the exact bytes matching the declared digest."));;
          finalizeUpload stored id hash staged nowMs
      end
  end.

Definition markFailed (id : string) : Flow unit :=
  markStatus id failed;;
  on_storage (deleteStaging id).

Definition getIntent (s : UploadFlowStore) (id : string) : option UploadIntent :=
  intent <$> intents s !! id.

Definition getFinalRef (s : UploadFlowStore) (id : string) : option ArtifactRef :=
  refs s !! id.

Definition getFinalBytes (s : UploadFlowStore) (id : string) : option bytes :=
  getFinal (storage s) id.
End upload_flow.
