(* ===== verification/UploadIntentSafety.v ===== *)
(** * Correctness of the upload flow

    Reachability over the methods of [UploadFlowStore], its invariant, and
    what a finalised upload guarantees. *)

From S2P Require Import Prelude JsString Digest UploadIntent.

(** ** Commands *)

Inductive command :=
  | CmdCreate (input : CreateUploadIntentInput) (now : Z)
  | CmdPut (id scope : string) (data : bytes) (now : Z)
  | CmdComplete (id scope : string) (now : Z) (overrides : FinalizeOverrides)
  | CmdMarkFailed (id : string).

(** ** The invariant *)

Record wf_intent (id : string) (x : StoredIntent) : Prop := {
  wi_id : intentId (intent x) = id;
  wi_scope : ownershipScope (intent x) ≠ ""%string;
  wi_size : (0 < declaredSize (intent x) <= maxSize (intent x))%Z;
  wi_max : (maxSize (intent x) <= MAX_UPLOAD_BYTES)%Z;
  wi_mime : declaredMime (intent x) ∈ ALLOWED_UPLOAD_MIMES;
  wi_single : multipart (intent x) = false;
  wi_status : hasPut x = false → status (intent x) ≠ uploading ∧ status (intent x) ≠ finalized
}.

(** A reference and the final bytes it stands for. *)
Record wf_ref (id : string) (r : ArtifactRef) (data : bytes) : Prop := {
  wr_id : refId r = id;
  wr_opaque : validateArtifactRefId id = Ok tt;
  wr_verified : verified r = true ∧ artifactKind r = kind_source;
  wr_size : byteSize r = byteLength data;
  wr_bound : (byteSize r <= MAX_UPLOAD_BYTES)%Z;
  wr_expiry : ref_expiresAt r = (createdAt r + VERIFIED_ARTIFACT_DEFAULT_TTL_MS)%Z
}.

Abbreviation intent_at s id := (intents s !! id).
Abbreviation staged_at s id := (staging (storage s) !! id).
Abbreviation final_at s id := (finals (storage s) !! id).

Record inv (s : UploadFlowStore) : Prop := {
  inv_intent id x : intent_at s id = Some x → wf_intent id x;
  inv_staged id data : staged_at s id = Some data →
    ∃ x, intent_at s id = Some x ∧ hasPut x = true ∧
         (byteLength data <= maxSize (intent x))%Z;
  inv_ref id r : refs s !! id = Some r → ∃ data, final_at s id = Some data ∧ wf_ref id r data;
  inv_final id data : final_at s id = Some data → refs s !! id ≠ None;
  inv_room : (Z.of_nat (size (staging (storage s))) <= MAX_STAGING_ENTRIES)%Z
}.

(** How an intent may change. *)
Record intent_evolves (x y : StoredIntent) : Prop := {
  ie_fixed : intent y = (intent x) <| status := status (intent y) |>;
  ie_put : hasPut x = true → hasPut y = true
}.

#[export] Instance intent_evolves_preorder : PreOrder intent_evolves.
Proof.
  split.
  - intros [[] p]. by split.
  - intros x y z [H1 ?] [H2 ?]. split; [|auto]. rewrite H2, H1. done.
Qed.

(** What every command leaves in place: intents (but for their status and
    the put flag), final bytes and references; an intent whose bytes were
    put and are gone never gets bytes again. *)
Record mono (s s' : UploadFlowStore) : Prop := {
  mono_intent id x : intent_at s id = Some x → ∃ y, intent_at s' id = Some y ∧ intent_evolves x y;
  mono_final id d : final_at s id = Some d → final_at s' id = Some d;
  mono_ref id r : refs s !! id = Some r → refs s' !! id = Some r;
  mono_consumed id x : intent_at s id = Some x → hasPut x = true →
    staged_at s id = None → staged_at s' id = None
}.

#[export] Instance mono_preorder : PreOrder mono.
Proof.
  split.
  - intros s. split; eauto. intros id x Hx. by exists x.
  - intros s1 s2 s3 [Hi1 Hf1 Hr1 Hc1] [Hi2 Hf2 Hr2 Hc2]. split; [|by eauto..|].
    + intros id x Hx. destruct (Hi1 _ _ Hx) as (y & Hy & ?).
      destruct (Hi2 _ _ Hy) as (z & Hz & ?). exists z. split; [done|by etrans].
    + intros id x Hx Hp Hn. destruct (Hi1 _ _ Hx) as (y & Hy & [_ Hput]). eauto.
Qed.

Definition good (s s' : UploadFlowStore) : Prop := inv s' ∧ mono s s'.

Lemma upload_good_refl s : inv s → good s s.
Proof. by split. Qed.

Lemma upload_good_trans s1 s2 s3 : good s1 s2 → good s2 s3 → good s1 s3.
Proof. intros [_ H12] [Hs3 H23]. split; [done|by etrans]. Qed.

(** ** The writes *)

(** Writing an evolved intent. *)
Lemma good_intent s id f :
  inv s →
  (∀ x, intent_at s id = Some x → wf_intent id x → wf_intent id (f x) ∧ intent_evolves x (f x)) →
  good s (s <| intents := alter f id (intents s) |>).
Proof.
  intros [Hi Hst Hr Hf Hroom] Hok. split.
  - split; cbn; [|..|done|done|done].
    + intros id' x. rewrite lookup_alter. case_decide; [|apply Hi]. subst.
      intros (x' & Hx & ->)%fmap_Some. by eapply Hok; eauto.
    + intros id' d (x & Hx & Hp & Hlen)%Hst. destruct (decide (id' = id)) as [->|Hne].
      * exists (f x). rewrite lookup_alter_eq, Hx. destruct (Hok _ Hx (Hi _ _ Hx)) as [_ [He ?]].
        split_and!; [done|auto|]. by rewrite He.
      * exists x. by rewrite lookup_alter_ne.
  - split; cbn; [|by eauto..]. intros id' x Hx. destruct (decide (id' = id)) as [->|Hne].
    + exists (f x). rewrite lookup_alter_eq, Hx. split; [done|]. by eapply Hok; eauto.
    + exists x. by rewrite lookup_alter_ne.
Qed.

Lemma good_markStatus s id st :
  inv s → st ≠ uploading → (st = finalized → ∀ x, intent_at s id = Some x → hasPut x = true) →
  good s (markStatus id st s).2.
Proof.
  intros Hs Hst Hfin. apply good_intent; [done|]. intros x Hx [].
  split; [|by destruct x as [[] ?]]. split; cbn; try done.
  intros Hp. split; [done|]. intros ->. specialize (Hfin eq_refl _ Hx). congruence.
Qed.

(** Putting bytes: the write to the staging area together with the two
    updates of the intent. *)
Lemma good_put s id x data :
  inv s → intent_at s id = Some x → hasPut x = false →
  (byteLength data <= maxSize (intent x))%Z →
  (Z.of_nat (size (staging (storage s))) < MAX_STAGING_ENTRIES ∨ staged_at s id ≠ None)%Z →
  good s (s <| storage := (storage s) <| staging := <[id := data]> (staging (storage s)) |> |>
            <| intents := alter (λ x, x <| hasPut := true |>) id
                 (alter (λ x, x <| intent := (intent x) <| status := uploading |> |>) id
                    (intents s)) |>).
Proof.
  intros [Hi Hst Hr Hf Hroom] Hx Hp Hlen Hfree.
  assert (staged_at s id = None) as Hnone.
  { destruct (staged_at s id) eqn:E; [|done]. destruct (Hst _ _ E) as (y & Hy & ? & _).
    congruence. }
  set (x' := x <| intent := (intent x) <| status := uploading |> |> <| hasPut := true |>).
  assert (alter (λ x, x <| hasPut := true |>) id
    (alter (λ x, x <| intent := (intent x) <| status := uploading |> |>) id (intents s)) =
    <[id := x']> (intents s)) as ->.
  { apply map_eq. intros id'. destruct (decide (id' = id)) as [->|Hne].
    - by rewrite !lookup_alter_eq, lookup_insert_eq, Hx.
    - by rewrite !lookup_alter_ne, lookup_insert_ne. }
  split.
  - split; cbn; [| |done|done|].
    + intros id' y [[<- <-]|[_ Hy]]%lookup_insert_Some; [|by apply Hi].
      destruct (Hi _ _ Hx). by split.
    + intros id' d [[<- <-]|[Hne Hd]]%lookup_insert_Some.
      * exists x'. by rewrite lookup_insert_eq.
      * destruct (Hst _ _ Hd) as (y & Hy & ? & ?). exists y. by rewrite lookup_insert_ne.
    + rewrite map_size_insert_None by done. destruct Hfree; [lia|done].
  - split; cbn; [|by eauto..|].
    + intros id' y Hy. destruct (decide (id' = id)) as [->|Hne].
      * exists x'. rewrite lookup_insert_eq. split; [done|].
        rewrite Hx in Hy. injection Hy as <-. by split.
      * exists y. by rewrite lookup_insert_ne.
    + intros id' y Hy Hput Hn. rewrite lookup_insert_ne; [done|]. congruence.
Qed.

(** Promoting staged bytes: final object, staging cleared, status, and the
    reference are written together. *)
Lemma good_promote s id x data r n :
  inv s → intent_at s id = Some x → staged_at s id = Some data →
  final_at s (refId r) = None → wf_ref (refId r) r data →
  good s (s <| seq_ := n |>
            <| storage := {| staging := delete id (staging (storage s));
                             finals := <[refId r := data]> (finals (storage s)) |} |>
            <| intents := alter (λ x, x <| intent := (intent x) <| status := finalized |> |>) id
                 (intents s) |>
            <| refs := <[refId r := r]> (refs s) |>).
Proof.
  intros [Hi Hst Hr Hf Hroom] Hx Hd Hnone Hwf.
  destruct (Hst _ _ Hd) as (? & Hx' & Hp & Hlen). simplify_eq.
  assert (refs s !! refId r = None) as Hrnone.
  { destruct (refs s !! refId r) eqn:E; [|done]. destruct (Hr _ _ E) as (? & ? & _). congruence. }
  split.
  - split; cbn.
    + intros id' y. rewrite lookup_alter. case_decide; [|apply Hi]. subst.
      intros (y' & Hy & ->)%fmap_Some. simplify_eq. destruct (Hi _ _ Hx).
      split; try done. cbn. congruence.
    + intros id' d' [Hne Hd']%lookup_delete_Some. destruct (Hst _ _ Hd') as (y & ? & ? & ?).
      exists y. by rewrite lookup_alter_ne.
    + intros id' r' [[<- <-]|[Hne Hr']]%lookup_insert_Some.
      * exists data. by rewrite lookup_insert_eq.
      * destruct (Hr _ _ Hr') as (d' & ? & ?). exists d'. by rewrite lookup_insert_ne.
    + intros id' d' [[<- <-]|[Hne Hd']]%lookup_insert_Some; [by rewrite lookup_insert_eq|].
      rewrite lookup_insert_ne by done. by eapply Hf.
    + rewrite map_size_delete, Hd. lia.
  - split; cbn.
    + intros id' y Hy. rewrite lookup_alter. case_decide; [|by exists y]. subst.
      exists (y <| intent := (intent y) <| status := finalized |> |>). rewrite Hy.
      split; [done|]. by destruct y as [[] ?].
    + intros id' d'. rewrite lookup_insert_Some. intros Hd'. right.
      split; [congruence|done].
    + intros id' r'. rewrite lookup_insert_Some. intros Hr'. right.
      split; [congruence|done].
    + intros id' y Hy _ Hn. by rewrite lookup_delete_None; right.
Qed.

Lemma good_delete_staging s id :
  inv s → good s (s <| storage := (storage s) <| staging := delete id (staging (storage s)) |> |>).
Proof.
  intros [Hi Hst Hr Hf Hroom]. split.
  - split; cbn; try done.
    + intros id' d [_ Hd]%lookup_delete_Some. by eapply Hst.
    + rewrite map_size_delete. destruct (staged_at s id); unfold Datatypes.id; lia.
  - split; cbn; eauto.
    + intros id' x Hx. by exists x.
    + intros id' x _ _ Hn. by rewrite lookup_delete_None; right.
Qed.

Lemma good_seq s n : inv s → good s (s <| seq_ := n |>).
Proof.
  intros []. split; [by split|]. split; cbn; eauto. intros id x Hx. by exists x.
Qed.

(** ** Every command preserves the invariant *)

Section flow_safety.
Context `{Sha256Api}.

Abbreviation Flow := (M UploadFlowStore).

Definition void {A} (m : Flow A) : Flow unit := m;; mret tt.

Definition exec (c : command) : Flow unit :=
  match c with
  | CmdCreate input now => void (createIntent input now)
  | CmdPut id scope data now => recordPut id scope data now
  | CmdComplete id scope now overrides => void (completeAndFinalize id scope now overrides)
  | CmdMarkFailed id => markFailed id
  end.

Definition step (s s' : UploadFlowStore) : Prop := ∃ c, (exec c s).2 = s'.
Definition steps : relation UploadFlowStore := rtc step.

Definition keeps {A} (m : Flow A) : Prop := ∀ s, inv s → wp m (λ _ s', good s s') s.

Lemma wp_requireIntent {A} id (f : StoredIntent → Flow A) Q s :
  (∀ e, intent_at s id = None → Q (Throw e) s) →
  (∀ x, intent_at s id = Some x → wp (f x) Q s) →
  wp (requireIntent id ≫= f) Q s.
Proof.
  intros He Hx. unfold requireIntent. apply wp_bind, wp_get.
  destruct (intent_at s id); [by apply Hx|by apply He].
Qed.

Lemma keeps_guard {A} (r : result unit) (f : unit → Flow A) s :
  inv s → (r = Ok tt → wp (f tt) (λ _ s', good s s') s) →
  wp (lift r ≫= f) (λ _ s', good s s') s.
Proof.
  intros Hs Hf. apply wp_bind, wp_lift. destruct r as [[]|]; [auto|by apply upload_good_refl].
Qed.

Lemma not_positive_false x :
  not_positive x = false → isInteger x = true ∧ (0 < to_Z x)%Z.
Proof.
  unfold not_positive. intros Hx. reflect. split; [done|].
  rewrite num_leb_integer, to_Z_int in * by (done || apply isInteger_int). by reflect.
Qed.

Lemma checkCreateInput_ok input mime max ttl :
  checkCreateInput input = Ok (mime, max, ttl) →
  in_ownershipScope input ≠ ""%string ∧ mime ∈ ALLOWED_UPLOAD_MIMES ∧
  (0 < to_Z (in_declaredSize input) <= max)%Z ∧ (max <= MAX_UPLOAD_BYTES)%Z ∧ (0 < ttl)%Z.
Proof.
  unfold checkCreateInput, assertBoundedOwnershipScope, assertUploadMime. intros Hc.
  apply result_bind_Ok in Hc as ([] & Hscope & Hc).
  apply result_bind_Ok in Hscope as ([] & H1%throw_if_Ok & _).
  apply result_bind_Ok in Hc as (m & Hmime & Hc).
  apply result_bind_Ok in Hmime as ([] & _ & Hmime).
  apply result_bind_Ok in Hmime as ([] & _ & Hmime).
  apply result_bind_Ok in Hmime as ([] & Hin%throw_if_Ok & [= <-]).
  apply result_bind_Ok in Hc as ([] & Hsize%throw_if_Ok & Hc).
  apply result_bind_Ok in Hc as ([] & Hmax%throw_if_Ok & Hc).
  apply result_bind_Ok in Hc as ([] & Hle%throw_if_Ok & Hc).
  apply result_bind_Ok in Hc as ([] & Httl%throw_if_Ok & Hc).
  apply result_bind_Ok in Hc as ([] & _ & [= <- <- <-]).
  reflect. apply falsy_false in H1.
  repeat match goal with Hp : not_positive _ = false |- _ =>
    apply not_positive_false in Hp as [? ?] end.
  rewrite num_ltb_integer in * by (done || apply isInteger_int).
  rewrite to_Z_int in *. reflect. split_and!; done || lia.
Qed.

Lemma storage_same s : s <| storage := storage s |> = s.
Proof. by destruct s. Qed.

Lemma wp_on_storage {A} (m : M InMemoryUploadBlobStorage A)
    (Q : result A → UploadFlowStore → Prop) s :
  wp m (λ r st, Q r (s <| storage := st |>)) (storage s) → wp (on_storage m) Q s.
Proof. unfold wp, on_storage. by destruct (m (storage s)). Qed.

Lemma keeps_createIntent input now : keeps (createIntent input now).
Proof.
  intros s Hs. unfold createIntent. apply wp_bind, wp_lift.
  destruct (checkCreateInput input) as [[[mime max] ttl]|] eqn:Hin;
    [|by apply upload_good_refl].
  apply checkCreateInput_ok in Hin as (Hscope & Hmime & Hsize & Hmax & Httl).
  apply wp_update, wp_get. cbn.
  set (s1 := s <| seq_ := (seq_ s + 1)%Z |>).
  change {| seq_ := seq_ s + 1; intents := intents s; refs := refs s; storage := storage s |}
    with s1.
  set (id := default _ (in_intentId input)).
  assert (good s s1) as Hs1 by (by apply good_seq).
  apply wp_throw_if; [done|intros Hfree; reflect].
  apply wp_bind, wp_lift.
  set (i := Build_UploadIntent _ _ _ _ _ _ _ _ _).
  destruct (validateCreateIntent i now) as [[]|] eqn:Hv; [|done].
  assert (multipart i = false) as Hmulti.
  { unfold validateCreateIntent in Hv.
    do 5 (apply result_bind_Ok in Hv as ([] & _ & Hv)). by apply throw_if_Ok in Hv. }
  eapply upload_good_trans; [exact Hs1|]. destruct Hs1 as [Hs1 _].
  change (good s1 (s1 <| intents := <[id := {| intent := i; hasPut := false |}]> (intents s1) |>)).
  change (intents s1 !! id = None) in Hfree. clearbody s1 id. destruct Hs1 as [Hi Hst Hr Hf Hroom]. split.
  - split; cbn; [|..|done|done|done].
    + intros id' x [[<- <-]|[_ Hx]]%lookup_insert_Some; [|by apply Hi]. by split.
    + intros id' d (x & Hx & ? & ?)%Hst. exists x. rewrite lookup_insert_ne; [done|congruence].
  - split; cbn; [|by eauto..]. intros id' x Hx. exists x.
    rewrite lookup_insert_ne; [done|congruence].
Qed.

Lemma keeps_recordPut id scope data now : keeps (recordPut id scope data now).
Proof.
  intros s Hs. apply wp_requireIntent; [intros; by apply upload_good_refl|]. intros x Hx.
  apply keeps_guard; [done|intros _].
  destruct (_ <=? _)%Z.
  { apply wp_bind, wp_throw. apply good_markStatus; done. }
  do 2 (apply keeps_guard; [done|intros _]).
  apply keeps_guard; [done|intros Hput%throw_if_Ok].
  apply keeps_guard; [done|intros Hlen%throw_if_Ok; reflect].
  apply wp_bind, wp_on_storage, wp_get.
  apply wp_throw_if; [intros _; rewrite storage_same; by apply upload_good_refl|intros Hroom].
  apply wp_throw_if; [intros _; rewrite storage_same; by apply upload_good_refl|intros _].
  apply (good_put s id x data); [done..|].
  apply andb_false_iff in Hroom as [Hr|Hr]; reflect; auto.
Qed.

Lemma keeps_finalizeUpload s id x hash data now :
  inv s → intent_at s id = Some x → staged_at s id = Some data →
  wp (finalizeUpload x id hash data now) (λ _ s', good s s') s.
Proof.
  intros Hs Hx Hd. unfold finalizeUpload. apply wp_update, wp_get. cbn.
  set (rid := mintedRefId id hash (seq_ s + 1)).
  set (s1 := s <| seq_ := (seq_ s + 1)%Z |>).
  assert (good s s1) as Hs1 by (by apply good_seq).
  apply wp_bind, wp_lift. destruct (validateArtifactRefId rid) as [[]|] eqn:Hv; [|done].
  apply wp_bind, wp_lift. cbn.
  set (r := Build_ArtifactRef _ _ _ _ _ _ _ _ _).
  apply wp_bind, wp_on_storage, wp_get.
  apply wp_throw_if; [intros _; by destruct Hs1|intros Hfree].
  apply negb_false_iff, bool_decide_eq_true in Hfree.
  apply (good_promote s id x data r); [done..|].
  destruct (inv_staged _ Hs _ _ Hd) as (y & Hy & Hput & Hlen). simplify_eq.
  split; cbn; try done. destruct (inv_intent _ Hs _ _ Hx). lia.
Qed.

Lemma keeps_completeAndFinalize id scope now overrides :
  keeps (completeAndFinalize id scope now overrides).
Proof.
  intros s Hs. apply wp_requireIntent; [intros; by apply upload_good_refl|]. intros x Hx.
  do 2 (apply keeps_guard; [done|intros _]).
  apply wp_get. unfold getStaging.
  destruct (staged_at s id) as [data|] eqn:Hd; [|by apply upload_good_refl].
  destruct (validateCompleteUpload _ _ _) as [[]|e].
  - do 2 (apply keeps_guard; [done|intros _]). by apply keeps_finalizeUpload.
  - destruct e as [e|c m|m| |]; try (by apply upload_good_refl);
      destruct (mentions_expired _); try (by apply upload_good_refl);
      apply wp_bind, wp_throw; by apply good_markStatus.
Qed.

Lemma upload_keeps_markFailed id : keeps (markFailed id).
Proof.
  intros s Hs. apply wp_bind. change (wp (markStatus id failed) _ s) with
    (wp (on_storage (deleteStaging id)) (λ _ s', good s s') (markStatus id failed s).2).
  assert (good s (markStatus id failed s).2) as Hg by (by apply good_markStatus).
  eapply wp_mono; [|intros ? s'; exact (upload_good_trans _ _ s' Hg)].
  destruct Hg as [Hg _]. exact (good_delete_staging _ id Hg).
Qed.

Lemma keeps_upload c : keeps (exec c).
Proof.
  destruct c; cbn; auto using keeps_recordPut, upload_keeps_markFailed;
    intros s Hs; unfold void; apply wp_bind.
  - eapply wp_mono; [by apply keeps_createIntent|]. by intros [].
  - eapply wp_mono; [by apply keeps_completeAndFinalize|]. by intros [].
Qed.

Lemma upload_steps_good s s' : inv s → steps s s' → good s s'.
Proof.
  intros Hs Hsteps. induction Hsteps as [|s s1 s2 [c <-] _ IH]; [by apply upload_good_refl|].
  pose proof (keeps_upload c s Hs) as Hg. eapply upload_good_trans; [exact Hg|apply IH, Hg].
Qed.
End flow_safety.

Lemma inv_empty_flow : inv empty_flow_store.
Proof.
  split; cbn; [intros id x; by rewrite lookup_empty..|].
  rewrite map_size_empty. unfold MAX_STAGING_ENTRIES. lia.
Qed.

(** ** What finalising does *)

Definition artifact_of (x : StoredIntent) (rid hash : string) (data : bytes) (now : Z)
    : ArtifactRef := {|
  refId := rid;
  artifactKind := kind_source;
  ref_ownershipScope := ownershipScope (intent x);
  contentHash := hash;
  byteSize := byteLength data;
  createdAt := now;
  ref_expiresAt := now + VERIFIED_ARTIFACT_DEFAULT_TTL_MS;
  retentionPolicy := transient;
  verified := true
|}.

Definition promoted (s : UploadFlowStore) (id : string) (r : ArtifactRef) (data : bytes)
    : UploadFlowStore := {|
  seq_ := seq_ s + 1;
  intents := alter (λ x, x <| intent := (intent x) <| status := finalized |> |>) id (intents s);
  refs := <[refId r := r]> (refs s);
  storage := {| staging := delete id (staging (storage s));
                finals := <[refId r := data]> (finals (storage s)) |}
|}.

Section finalizing.
Context `{Sha256Api}.

(** *** Minted references are accepted *)

Lemma sha_slice_hex n b : Forall (λ c, is_hex_lower c = true) (chars (slice_to n (sha256 b))).
Proof. unfold slice_to. rewrite chars_unchars. apply Forall_take, sha256_hex. Qed.

Lemma presigned_from_no_mark l : Forall (λ c, one_of "?&" c = false) l → presigned_from l = false.
Proof. induction 1 as [|c l Hc Hl IH]; cbn; [done|]. by rewrite Hc, IH. Qed.

Lemma hex_no_mark c : is_hex_lower c = true → one_of "?&" c = false.
Proof. destruct c as [[] [] [] [] [] [] [] []]; vm_compute; congruence. Qed.

Lemma minted_ref_accepted id hash n : validateArtifactRefId (mintedRefId id hash n) = Ok tt.
Proof.
  unfold validateArtifactRefId, mintedRefId.
  set (h := slice_to 32 _). assert (PRESIGNED_URL_RE ("art_" +:+ h) = false) as Hp.
  { unfold PRESIGNED_URL_RE. rewrite chars_app. apply presigned_from_no_mark.
    apply Forall_app. split; [by repeat constructor|].
    eapply Forall_impl; [apply sha_slice_hex|]. apply hex_no_mark. }
  rewrite Hp. reflexivity.
Qed.
Lemma finalizeUpload_spec x id hash data now s :
  let rid := mintedRefId id hash (seq_ s + 1) in
  let r := artifact_of x rid hash data now in
  if decide (final_at s rid = None)
  then finalizeUpload x id hash data now s = (Ok r, promoted s id r data)
  else is_Throw (finalizeUpload x id hash data now s).1.
Proof.
  intros rid r. pose proof (minted_ref_accepted id hash (seq_ s + 1)) as Hv. fold rid in Hv.
  unfold finalizeUpload, createArtifactRef, mbind, M_bind, update, get, lift. cbn.
  fold rid. rewrite Hv.
  unfold on_storage, putFinal, mbind, M_bind, get, lift, update. cbn.
  case_decide as Hf; cbn.
  - rewrite bool_decide_true by done. reflexivity.
  - rewrite bool_decide_false by done. by eexists.
Qed.

Definition sniffed_as (x : StoredIntent) (data : bytes) : string :=
  default (declaredMime (intent x)) (sniffUploadMime data).

Definition completed_hash (ov : FinalizeOverrides) (data : bytes) : string :=
  default (hashUploadBytes data) (ov_contentHash ov).

Definition completed_mime (ov : FinalizeOverrides) (x : StoredIntent) (data : bytes) : string :=
  default (sniffed_as x data) (ov_sniffedMime ov).

Lemma complete_with id scope now ov s r s' :
  completeAndFinalize id scope now ov s = (Ok r, s') →
  ∃ x data, intent_at s id = Some x ∧ ownershipScope (intent x) = scope ∧
    staged_at s id = Some data ∧
    validateCompleteUpload (intent x)
      {| req_intentId := id; actualSize := byteLength data; sniffedMime := completed_mime ov x data;
         req_contentHash := completed_hash ov data |} now = Ok tt ∧
    checkSniffMatchesDeclared (sniffUploadMime data) (declaredMime (intent x)) = Ok tt ∧
    r = artifact_of x (mintedRefId id (completed_hash ov data) (seq_ s + 1))
          (completed_hash ov data) data now ∧
    s' = promoted s id r data ∧ final_at s (refId r) = None.
Proof.
  unfold completeAndFinalize, requireIntent. intros Hm.
  apply M_bind_Ok in Hm as (x & s1 & Hreq & Hm).
  apply M_bind_Ok in Hreq as (s0 & s2 & [= <- <-] & Hreq).
  destruct (intent_at s id) as [x'|] eqn:Hx; [|done]. injection Hreq as -> ->.
  rewrite lift_bind in Hm. unfold validateCrossOwnership in Hm.
  destruct (throw_if _ _) as [[]|] eqn:Ho; [|done].
  apply throw_if_Ok, negb_false_iff, bool_decide_eq_true in Ho.
  rewrite lift_bind in Hm. destruct (throw_if _ _); [|done].
  apply M_bind_Ok in Hm as (s0 & s2 & [= <- <-] & Hm).
  unfold getStaging in Hm. destruct (staged_at s1 id) as [data|] eqn:Hd; [|done].
  cbv zeta in Hm. fold (sniffed_as x data) (completed_mime ov x data) (completed_hash ov data) in Hm.
  destruct (validateCompleteUpload _ _ _) as [[]|e] eqn:Hv.
  2:{ by destruct e; repeat case_match. }
  rewrite lift_bind in Hm. destruct (checkSniffMatchesDeclared _ _) as [[]|] eqn:Hsn; [|done].
  rewrite lift_bind in Hm. destruct (throw_if _ _); [|done].
  pose proof (finalizeUpload_spec x id (completed_hash ov data) data now s1) as Hspec.
  cbv zeta in Hspec. case_decide as Hok.
  - rewrite Hm in Hspec. injection Hspec as -> ->.
    exists x, data. by split_and!.
  - destruct Hspec as [e He]. by rewrite Hm in He.
Qed.

Lemma complete_inv id scope now s r s' :
  completeAndFinalize id scope now no_overrides s = (Ok r, s') →
  ∃ x data, intent_at s id = Some x ∧ ownershipScope (intent x) = scope ∧
    staged_at s id = Some data ∧
    validateCompleteUpload (intent x)
      {| req_intentId := id; actualSize := byteLength data; sniffedMime := sniffed_as x data;
         req_contentHash := hashUploadBytes data |} now = Ok tt ∧
    r = artifact_of x (mintedRefId id (hashUploadBytes data) (seq_ s + 1))
          (hashUploadBytes data) data now ∧
    s' = promoted s id r data ∧ final_at s (refId r) = None.
Proof.
  intros (x & data & Hx & Ho & Hd & Hv & _ & Hr & Hs' & Hf)%complete_with. by exists x, data.
Qed.

Lemma validateCompleteUpload_ok i req now :
  validateCompleteUpload i req now = Ok tt ↔
  (now < expiresAt i)%Z ∧ (status i = uploading ∨ status i = pending) ∧
  req_intentId req = intentId i ∧ (actualSize req <= maxSize i)%Z ∧
  (∀ d, expectedDigest i = Some d → req_contentHash req = d) ∧
  sniffedMime req = declaredMime i.
Proof.
  unfold validateCompleteUpload. split.
  - intros Hv.
    apply result_bind_Ok in Hv as ([] & Hexp%throw_if_Ok & Hv).
    do 3 (apply result_bind_Ok in Hv as ([] & _ & Hv)).
    apply result_bind_Ok in Hv as ([] & Hst%throw_if_Ok & Hv).
    apply result_bind_Ok in Hv as ([] & Hid%throw_if_Ok & Hv).
    apply result_bind_Ok in Hv as ([] & Hsz%throw_if_Ok & Hv).
    apply result_bind_Ok in Hv as ([] & Hd & Hm%throw_if_Ok).
    reflect. split_and!; try done.
    + apply andb_false_iff in Hst as [Hst|Hst]; reflect; auto.
    + intros d Hdig. rewrite Hdig in Hd. apply throw_if_Ok in Hd. by reflect.
  - intros (Hexp & Hst & Hid & Hsz & Hd & Hm).
    rewrite (proj2 (Z.leb_gt _ _) Hexp). cbn.
    rewrite (bool_decide_false (status i = finalized)) by (destruct Hst; congruence). cbn.
    rewrite (bool_decide_false (status i = expired)) by (destruct Hst; congruence). cbn.
    rewrite (bool_decide_false (status i = failed)) by (destruct Hst; congruence). cbn.
    replace (negb (bool_decide (status i = uploading)) &&
             negb (bool_decide (status i = pending))) with false
      by (symmetry; apply andb_false_iff; rewrite !negb_false_iff, !bool_decide_eq_true; auto).
    cbn. rewrite bool_decide_true by done. cbn. rewrite (proj2 (Z.ltb_ge _ _) Hsz). cbn.
    destruct (expectedDigest i) as [d|]; cbn; [rewrite bool_decide_true by auto; cbn|];
      by rewrite bool_decide_true.
Qed.

End finalizing.

(** ** Properties *)

Section upload_properties.
Context `{Sha256Api}.

(** a finalised object is immutable and its reference truthful.  Once a
    reference has been minted, after any sequence of commands it is still
    there unchanged, it is verified and of kind source, and the stored final
    bytes are unchanged and have exactly the size it states, at most the
    10 MB cap. *)
Theorem upload_finals_immutable s s' id r :
  inv s → steps s s' → getFinalRef s id = Some r →
  getFinalRef s' id = Some r ∧ verified r = true ∧ artifactKind r = kind_source ∧
  ∃ data, getFinalBytes s id = Some data ∧ getFinalBytes s' id = Some data ∧
          byteSize r = byteLength data ∧ (byteSize r <= MAX_UPLOAD_BYTES)%Z.
Proof.
  intros Hs Hst Hr. destruct (upload_steps_good _ _ Hs Hst) as [_ []].
  destruct (inv_ref _ Hs _ _ Hr) as (data & Hd & [_ _ [? ?] ? ? _]).
  split_and!; [by apply mono_ref0|done..|]. exists data. split_and!; [done|by apply mono_final0|done..].
Qed.

(** C5: what [completeAndFinalize] vouches for.  When it returns a
    reference, the caller owns the intent, the deadline has not passed and the
    bytes are those staged by the single PUT of that intent, within its size
    limit.  The reference carries their SHA-256, unless the caller overrides the
    content hash; what it carries is the declared digest if there was one.
    Their sniffed MIME type is no archive and agrees with the declared one, and
    is equal to it unless the caller overrides it.  Exactly those bytes became
    final: they and the reference are all that was added, under a fresh id, the
    staging copy is all that is gone, and no other intent changed. *)
Theorem upload_finalized_is_verified id scope now overrides s r s' :
  inv s → completeAndFinalize id scope now overrides s = (Ok r, s') →
  ∃ x data, intent_at s id = Some x ∧ ownershipScope (intent x) = scope ∧
    ref_ownershipScope r = scope ∧ (now < expiresAt (intent x))%Z ∧ hasPut x = true ∧
    staged_at s id = Some data ∧ (byteLength data <= maxSize (intent x))%Z ∧
    contentHash r = default (hashUploadBytes data) (ov_contentHash overrides) ∧
    (∀ d, expectedDigest (intent x) = Some d → contentHash r = d) ∧
    checkSniffMatchesDeclared (sniffUploadMime data) (declaredMime (intent x)) = Ok tt ∧
    (∀ m, sniffUploadMime data = Some m → ov_sniffedMime overrides = None → m = declaredMime (intent x)) ∧
    getFinalBytes s (refId r) = None ∧
    finals (storage s') = <[refId r := data]> (finals (storage s)) ∧
    staging (storage s') = delete id (staging (storage s)) ∧
    refs s' = <[refId r := r]> (refs s) ∧
    (∀ id', id' ≠ id → intent_at s' id' = intent_at s id') ∧
    ∃ y, getIntent s' id = Some y ∧ status y = finalized.
Proof.
  intros Hs (x & data & Hx & Ho & Hd & Hv & Hsn & -> & -> & Hfree)%complete_with.
  apply validateCompleteUpload_ok in Hv as (Hexp & _ & _ & Hsz & Hdig & Hm). cbn in *.
  destruct (inv_staged _ Hs _ _ Hd) as (x' & Hx' & Hput & _). simplify_eq.
  exists x, data. split_and!; try done; cbn.
  - intros m Hsm Hov. unfold completed_mime, sniffed_as in Hm. by rewrite Hov, Hsm in Hm.
  - intros id' Hne. by apply lookup_alter_ne.
  - eexists. unfold getIntent. cbn. by rewrite lookup_alter_eq, Hx.
Qed.

(** an intent is used once.  After it has been finalised, and whatever
    commands run then, no further PUT and no further completion of it ever
    succeeds, and none of them adds a final object or a reference. *)
Theorem upload_intent_single_use s s1 s2 id scope now r scope' data now' overrides :
  inv s → completeAndFinalize id scope now no_overrides s = (Ok r, s1) → steps s1 s2 →
  let put := recordPut id scope' data now' s2 in
  let fin := completeAndFinalize id scope' now' overrides s2 in
  is_Throw put.1 ∧ is_Throw fin.1 ∧
  storage put.2 = storage s2 ∧ storage fin.2 = storage s2 ∧
  refs put.2 = refs s2 ∧ refs fin.2 = refs s2.
Proof.
  intros Hs Hc Hst put fin.
  pose proof (keeps_completeAndFinalize id scope now no_overrides s Hs) as Hg.
  apply (wp_run _ _ _ _ _ Hg) in Hc as Hg1. destruct Hg1 as [Hs1 _].
  apply complete_inv in Hc as (x & d & Hx & _ & Hd & _ & _ & -> & _).
  destruct (inv_staged _ Hs _ _ Hd) as (x' & Hx' & Hput & _). simplify_eq.
  destruct (upload_steps_good _ _ Hs1 Hst) as [_ [Hmi _ _ Hmc]].
  set (x1 := x <| intent := (intent x) <| status := finalized |> |>).
  assert (intent_at (promoted s id r d) id = Some x1) as Hx1
    by (cbn; by rewrite lookup_alter_eq, Hx).
  destruct (Hmi _ _ Hx1) as (y & Hy & [_ Hyp]). specialize (Hyp Hput).
  assert (staged_at s2 id = None) as Hnone
    by (apply (Hmc _ _ Hx1 Hput); apply lookup_delete_eq).
  subst put fin. unfold recordPut, completeAndFinalize, requireIntent, mbind, M_bind, get, lift.
  cbn. rewrite Hy. cbn. destruct (validateCrossOwnership _ _); cbn; [|split_and!; try done; by eexists].
  unfold getStaging. rewrite Hnone, Hyp.
  destruct (expiresAt (intent y) <=? now')%Z, (bool_decide (status (intent y) = finalized)),
    (bool_decide (status (intent y) = expired) || bool_decide (status (intent y) = failed));
    cbn; split_and!; try done; by eexists.
Qed.

(** office and archive uploads never complete.  When the staged bytes
    sniff as a zip container (every OOXML document) or as a legacy Office
    container, completion without overrides fails whatever MIME type the
    intent declared, because the strict comparison runs before the check
    that knows these containers; and JPEG bytes are refused for an intent
    declared [image/jpg], an allowed type. *)
Theorem container_uploads_never_complete s id scope now data x m :
  inv s → intent_at s id = Some x → staged_at s id = Some data →
  sniffUploadMime data = Some m →
  m = "application/zip"%string ∨ m = "application/x-ole-storage"%string ∨
    (m = "image/jpeg"%string ∧ declaredMime (intent x) = "image/jpg"%string) →
  ∀ r, (completeAndFinalize id scope now no_overrides s).1 ≠ Ok r.
Proof.
  intros Hs Hx Hd Hm Hbad r Hr.
  destruct (completeAndFinalize _ _ _ _ s) as [r' s'] eqn:Hc. cbn in Hr. subst r'.
  apply complete_inv in Hc as (x' & d & Hx' & _ & Hd' & Hv & _). simplify_eq.
  apply validateCompleteUpload_ok in Hv as (_ & _ & _ & _ & _ & Hsn). cbn in Hsn.
  unfold sniffed_as in Hsn. rewrite Hm in Hsn. cbn in Hsn.
  pose proof (wi_mime _ _ (inv_intent _ Hs _ _ Hx)) as Hin. rewrite <- Hsn in Hin.
  destruct Hbad as [-> | [-> | [-> Hj]]].
  - by vm_compute in Hin; repeat (apply elem_of_cons in Hin as [?|Hin]; [done|]);
      apply elem_of_nil in Hin.
  - by vm_compute in Hin; repeat (apply elem_of_cons in Hin as [?|Hin]; [done|]);
      apply elem_of_nil in Hin.
  - by rewrite Hj in Hsn.
Qed.

(** a valid upload completes: bytes that were put for a live intent of
    the caller, that match its digest if it declared one and whose sniffed
    type, if any, is the declared one and no archive, are promoted, provided
    the minted reference does not collide with an existing one. *)
Theorem valid_upload_completes s id now x data :
  inv s → intent_at s id = Some x → staged_at s id = Some data →
  status (intent x) = uploading → (now < expiresAt (intent x))%Z →
  (∀ d, expectedDigest (intent x) = Some d → hashUploadBytes data = d) →
  (∀ m, sniffUploadMime data = Some m → m = declaredMime (intent x)) →
  let rid := mintedRefId id (hashUploadBytes data) (seq_ s + 1) in
  getFinalBytes s rid = None →
  let r := artifact_of x rid (hashUploadBytes data) data now in
  completeAndFinalize id (ownershipScope (intent x)) now no_overrides s =
    (Ok r, promoted s id r data).
Proof.
  intros Hs Hx Hd Hst Hexp Hdig Hsn rid Hfree r.
  destruct (inv_staged _ Hs _ _ Hd) as (x' & Hx' & Hput & Hlen). simplify_eq.
  pose proof (inv_intent _ Hs _ _ Hx) as [Hid _ _ _ Hmime _ _].
  assert (sniffed_as x data = declaredMime (intent x)) as Hm.
  { unfold sniffed_as. destruct (sniffUploadMime data); cbn; auto. }
  unfold completeAndFinalize, requireIntent, mbind, M_bind, get, lift. cbn. rewrite Hx. cbn.
  unfold validateCrossOwnership, getStaging. rewrite bool_decide_true by done. cbn.
  rewrite bool_decide_false by congruence. cbn. rewrite Hd.
  fold (sniffed_as x data).
  destruct (validateCompleteUpload _ _ now) as [[]|e] eqn:Hv.
  2:{ exfalso. rewrite (proj2 (validateCompleteUpload_ok _ _ _)) in Hv; [done|].
      cbn. by split_and!; auto. }
  assert (checkSniffMatchesDeclared (sniffUploadMime data) (declaredMime (intent x)) = Ok tt)
    as ->.
  { unfold checkSniffMatchesDeclared. destruct (sniffUploadMime data) as [m|]; [|done].
    rewrite (Hsn m eq_refl).
    rewrite !bool_decide_false by (intros Hb; rewrite Hb in Hmime; vm_compute in Hmime;
      repeat (apply elem_of_cons in Hmime as [?|Hmime]; [done|]); by apply elem_of_nil in Hmime).
    by rewrite bool_decide_true. }
  cbn. pose proof (finalizeUpload_spec x id (hashUploadBytes data) data now s) as Hspec.
  cbv zeta in Hspec. fold rid r in Hspec. rewrite decide_True in Hspec by done.
  destruct (expectedDigest (intent x)) as [d|] eqn:Hde; cbn; [|exact Hspec].
  rewrite bool_decide_true by auto. exact Hspec.
Qed.
End upload_properties.

(** ** A concrete run and the witnesses *)

Module Demo.
(** A stand-in digest of the right shape: it only depends on the length. *)
Definition toy_digest (b : bytes) : string :=
  unchars (replicate 64 (ascii_of_nat (97 + length b mod 6))).

#[export] Instance toy_sha : Sha256Api.
Proof.
  refine {| sha256 := toy_digest |}; intros b; unfold toy_digest.
  - by rewrite length_unchars, length_replicate.
  - rewrite chars_unchars. apply Forall_replicate.
    pose proof (Nat.mod_upper_bound (length b) 6 ltac:(lia)) as Hlt.
    destruct (length b mod 6) as [|[|[|[|[|[|k]]]]]]; [done..|lia].
Defined.

Definition pdf : bytes := chars "%PDF-1.7 hello".
Definition zip : bytes := ascii_of_nat 80 :: ascii_of_nat 75 :: ascii_of_nat 3 ::
  ascii_of_nat 4 :: chars "document".

Definition input (mime : string) : CreateUploadIntentInput := {|
  in_ownershipScope := "alice"; in_declaredMime := mime; in_declaredSize := int 14;
  in_maxSize := None; in_expectedDigest := None; in_ttlMs := None;
  in_intentId := Some "i1"%string; in_multipart := None |}.

(** A store in which intent [i1] has its bytes put. *)
Definition staged_store (mime : string) (data : bytes) : UploadFlowStore :=
  (exec (CmdPut "i1" "alice" data 2000)
     (exec (CmdCreate (input mime) 1000) empty_flow_store).2).2.

Lemma staged_inv mime data : inv (staged_store mime data).
Proof.
  apply (upload_steps_good empty_flow_store); [apply inv_empty_flow|].
  eapply rtc_l; [by eexists|]. apply rtc_once. by eexists.
Qed.

Definition s1 := staged_store "application/pdf" pdf.
Definition s2 := (completeAndFinalize "i1" "alice" 3000 no_overrides s1).2.
Definition rid : string := mintedRefId "i1" (hashUploadBytes pdf) 2.
Definition x1 : StoredIntent := default {| intent := Build_UploadIntent "" "" "" 0 0 None 0
  pending false; hasPut := false |} (intent_at s1 "i1").
Definition r1 : ArtifactRef := artifact_of x1 rid (hashUploadBytes pdf) pdf 3000.

Lemma s2_finalized : completeAndFinalize "i1" "alice" 3000 no_overrides s1 = (Ok r1, s2).
Proof. vm_compute. reflexivity. Qed.

Lemma upload_s2_inv : inv s2.
Proof.
  apply (keeps_completeAndFinalize "i1" "alice" 3000 no_overrides s1 (staged_inv _ _)).
Qed.
End Demo.

Module Witness.
Import Demo.

Lemma upload_finals_immutable_witness :
  getFinalRef (exec (CmdMarkFailed "i1") s2).2 rid = Some r1.
Proof.
  apply (upload_finals_immutable s2 _ rid r1 upload_s2_inv).
  - apply rtc_once. by exists (CmdMarkFailed "i1").
  - vm_compute. reflexivity.
Defined.

Lemma upload_finalized_is_verified_witness : finals (storage s2) = {[refId r1 := pdf]}.
Proof.
  destruct (upload_finalized_is_verified "i1" "alice" 3000 no_overrides s1 r1 s2 (staged_inv _ _)
    s2_finalized) as (x & data & _ & _ & _ & _ & _ & Hd & _ & _ & _ & _ & _ & _ & Hf & _).
  rewrite Hf. vm_compute in Hd. injection Hd as <-. vm_compute. reflexivity.
Defined.

Lemma upload_intent_single_use_witness :
  is_Throw (recordPut "i1" "alice" zip 4000 s2).1.
Proof.
  apply (upload_intent_single_use s1 s2 s2 "i1" "alice" 3000 r1 "alice" zip 4000 no_overrides
    (staged_inv _ _) s2_finalized (rtc_refl _ _)).
Defined.

Lemma container_uploads_never_complete_witness :
  (completeAndFinalize "i1" "alice" 3000 no_overrides (staged_store DOCX zip)).1 ≠ Ok r1.
Proof.
  eapply (container_uploads_never_complete (staged_store DOCX zip) "i1" "alice" 3000 zip _
    "application/zip" (staged_inv _ _)).
  - vm_compute. reflexivity.
  - vm_compute. reflexivity.
  - vm_compute. reflexivity.
  - left. reflexivity.
Defined.

Lemma valid_upload_completes_witness :
  completeAndFinalize "i1" "alice" 3000 no_overrides s1 = (Ok r1, promoted s1 "i1" r1 pdf).
Proof.
  apply (valid_upload_completes s1 "i1" 3000 x1 pdf (staged_inv _ _)); try (vm_compute; reflexivity).
  - vm_compute. discriminate.
  - intros m Hm. vm_compute in Hm. injection Hm as <-. vm_compute. reflexivity.
Defined.
End Witness.
