(* ===== verification/JsMap.v ===== *)
(** * Insertion-ordered maps

    A JavaScript [Map] with string keys: iteration follows the order of
    first insertion, and setting a present key keeps its place. *)

From S2P Require Import Prelude.

Section js_map.
Context {V : Type}.

Definition js_map : Type := list (string * V).

Implicit Types (m : js_map) (k : string) (v : V).

(** [m.get(k)] *)
Fixpoint map_get k m : option V :=
  match m with
  | [] => None
  | (k', v) :: m' => if decide (k = k') then Some v else map_get k m'
  end.

(** [m.set(k, v)] *)
Fixpoint map_set k v m : js_map :=
  match m with
  | [] => [(k, v)]
  | (k', v') :: m' => if decide (k = k') then (k', v) :: m' else (k', v') :: map_set k v m'
  end.

(** [m.delete(k)] *)
Fixpoint map_delete k m : js_map :=
  match m with
  | [] => []
  | (k', v') :: m' => if decide (k = k') then map_delete k m' else (k', v') :: map_delete k m'
  end.

(** [m.has(k)], [m.size], [[...m.keys()]] *)
Definition map_has k m : bool := bool_decide (map_get k m ≠ None).
Definition map_count m : Z := Z.of_nat (length m).
Definition map_keys m : list string := m.*1.

(** The keys are distinct, which every operation keeps true. *)
Definition map_ok m : Prop := NoDup (map_keys m).

(** Apply [f] to every value in place. *)
Definition map_each (f : string → V → V) m : js_map := (λ kv, (kv.1, f kv.1 kv.2)) <$> m.

Lemma map_keys_cons kv m : map_keys (kv :: m) = kv.1 :: map_keys m.
Proof. done. Qed.

#[local] Arguments map_keys : simpl never.

Lemma map_get_set k k' v m :
  map_get k (map_set k' v m) = if decide (k = k') then Some v else map_get k m.
Proof.
  induction m as [|[k1 v1] m IH]; cbn; [by case_decide|].
  destruct (decide (k' = k1)) as [->|Hne]; cbn.
  - by case_decide.
  - rewrite IH. repeat case_decide; congruence.
Qed.

Lemma map_get_set_eq k v m : map_get k (map_set k v m) = Some v.
Proof. by rewrite map_get_set, decide_True. Qed.

Lemma map_get_set_ne k k' v m : k ≠ k' → map_get k (map_set k' v m) = map_get k m.
Proof. intros. by rewrite map_get_set, decide_False. Qed.

Lemma map_get_delete k k' m :
  map_get k (map_delete k' m) = if decide (k = k') then None else map_get k m.
Proof.
  induction m as [|[k1 v1] m IH]; cbn; [by case_decide|].
  destruct (decide (k' = k1)) as [->|Hne]; cbn; rewrite IH; repeat case_decide; congruence.
Qed.

Lemma map_get_None k m : map_get k m = None ↔ k ∉ map_keys m.
Proof.
  induction m as [|[k1 v1] m IH]; cbn; [split; [intros _; apply not_elem_of_nil|done]|].
  rewrite map_keys_cons, not_elem_of_cons. case_decide; naive_solver.
Qed.

Lemma map_get_Some k v m : map_ok m → map_get k m = Some v ↔ (k, v) ∈ m.
Proof.
  unfold map_ok. induction m as [|[k1 v1] m IH]; cbn.
  { intros _. split; [done|]. by intros ?%elem_of_nil. }
  rewrite map_keys_cons. intros [Hn Hok]%NoDup_cons. rewrite elem_of_cons.
  case_decide as Hk.
  - subst. split; [intros [= ->]; by left|]. intros [[= ->]|Hin]; [done|].
    destruct Hn. apply list_elem_of_fmap. by exists (k1, v).
  - rewrite IH by done. split; [by right|]. intros [[= -> ->]|?]; [done|done].
Qed.

Lemma map_keys_set k v m :
  map_keys (map_set k v m) = if map_has k m then map_keys m else map_keys m ++ [k].
Proof.
  unfold map_has. induction m as [|[k1 v1] m IH]; cbn; [done|].
  case_decide as Hk; cbn; rewrite !map_keys_cons; [by subst|]. rewrite IH. by case_bool_decide.
Qed.

Lemma map_ok_set k v m : map_ok m → map_ok (map_set k v m).
Proof.
  unfold map_ok. rewrite map_keys_set. unfold map_has. case_bool_decide as Hk; [done|].
  intros Hm. apply NoDup_app. split; [done|]. split; [|apply NoDup_singleton].
  intros x Hx ->%list_elem_of_singleton. by apply map_get_None in Hk.
Qed.

Lemma map_ok_delete k m : map_ok m → map_ok (map_delete k m).
Proof.
  unfold map_ok. intros Hm. eapply sublist_NoDup; [exact Hm|]. clear Hm.
  induction m as [|[k1 v1] m IH]; cbn; [constructor|].
  case_decide; rewrite !map_keys_cons; by constructor.
Qed.

Lemma map_get_each f k m : map_get k (map_each f m) = f k <$> map_get k m.
Proof.
  induction m as [|[k1 v1] m IH]; cbn; [done|]. case_decide; [by subst|]. exact IH.
Qed.

Lemma map_keys_each f m : map_keys (map_each f m) = map_keys m.
Proof. unfold map_keys, map_each. rewrite <- list_fmap_compose. by apply list_fmap_ext. Qed.

Lemma map_ok_each f m : map_ok m → map_ok (map_each f m).
Proof. unfold map_ok. by rewrite map_keys_each. Qed.

Lemma map_ok_nil : map_ok [].
Proof. apply NoDup_nil_2. Qed.

Lemma map_count_set k v m :
  map_count (map_set k v m) = (map_count m + if map_get k m then 0 else 1)%Z.
Proof.
  unfold map_count. induction m as [|[k1 v1] m IH]; cbn -[Z.of_nat]; [done|].
  case_decide; cbn -[Z.of_nat]; lia.
Qed.

Lemma map_count_delete k m : (map_count (map_delete k m) <= map_count m)%Z.
Proof.
  unfold map_count. induction m as [|[k1 v1] m IH]; cbn -[Z.of_nat]; [lia|].
  case_decide; cbn -[Z.of_nat]; lia.
Qed.
End js_map.
Arguments js_map : clear implicits.
#[global] Arguments map_each : simpl never.
#[global] Arguments map_keys : simpl never.

#[export] Hint Resolve map_ok_set map_ok_delete map_ok_each map_ok_nil : groundlane.

Section js_map_filter.
Context {V : Type} (P : string * V → Prop) `{!∀ kv, Decision (P kv)}.

(** The keys selected by [P] are those whose value satisfies it. *)
Lemma elem_of_keys_filter (m : js_map V) k :
  map_ok m → k ∈ map_keys (filter P m) ↔ ∃ v, map_get k m = Some v ∧ P (k, v).
Proof.
  intros Hok. unfold map_keys. rewrite list_elem_of_fmap. split.
  - intros ([k' v] & -> & [HP Hin]%list_elem_of_filter). exists v. split; [|done].
    by apply map_get_Some.
  - intros (v & Hv%map_get_Some & HP); [|done]. exists (k, v). split; [done|].
    by apply list_elem_of_filter.
Qed.

Lemma map_get_delete_list (ids : list string) (m : js_map V) k :
  map_get k (foldl (λ m id, map_delete id m) m ids) =
  if decide (k ∈ ids) then None else map_get k m.
Proof.
  revert m. induction ids as [|i ids IH]; intros m; cbn.
  - by rewrite decide_False by apply not_elem_of_nil.
  - rewrite IH, map_get_delete. repeat case_decide; try done; set_solver.
Qed.

Lemma map_ok_delete_list (ids : list string) (m : js_map V) :
  map_ok m → map_ok (foldl (λ m id, map_delete id m) m ids).
Proof. revert m. induction ids; cbn; auto using map_ok_delete. Qed.
End js_map_filter.
