(* ===== verification/ArtifactLifecycle.v ===== *)
(** * Artifact processing and lifecycle

    [src/core/artifact-lifecycle.ts] and [artifact-retention-policy.ts]: the
    storage port and its in-memory implementation, every method of
    [ArtifactLifecycleStore], and the retention policy.  Maps are
    insertion-ordered, as the sweeps report what they cleaned in that
    order. *)

From S2P Require Import Prelude JsString JsMap Digest UploadIntent.

(** ** Data *)

Definition ARTIFACT_LIFECYCLE_CLEANUP_WINDOW_MS : Z := STAGING_CLEANUP_WINDOW_MS.

(** [ArtifactLifecycleStatus]; a staging entry uses all but [cancelled] and
    [failed]. *)
Inductive ArtifactLifecycleStatus :=
  | active
  | cancelled
  | failed
  | logically_expired
  | logically_deleted
  | physical_cleanup_pending
  | cleaned.

#[export] Instance ArtifactLifecycleStatus_eq_dec : EqDecision ArtifactLifecycleStatus.
Proof. solve_decision. Defined.

(** [MutableArtifactRecord]: the stored record.  The public one adds the
    constant [corpusEnrolled: false]. *)
Record MutableArtifactRecord := {
  ref : ArtifactRef;
  status : ArtifactLifecycleStatus;
  accessRevoked : bool;
  rec_createdAt : Z;
  updatedAt : Z
}.

#[export] Instance MutableArtifactRecord_updatable : Updatable MutableArtifactRecord :=
  {| rebuild := λ r, Build_MutableArtifactRecord (ref r) (status r) (accessRevoked r)
       (rec_createdAt r) (updatedAt r) |}.

Record ArtifactLifecycleRecord := {
  pub_ref : ArtifactRef;
  pub_status : ArtifactLifecycleStatus;
  pub_accessRevoked : bool;
  pub_corpusEnrolled : bool;
  pub_createdAt : Z;
  pub_updatedAt : Z
}.

Record ProcessReceipt := {
  rcp_refId : string;
  rcp_byteSize : Z;
  rcp_contentHash : string;
  rcp_expiresAt : Z;
  retentionExtended : bool;
  rcp_corpusEnrolled : bool
}.

Record StagingLifecycleEntry := {
  entry_intentId : string;
  entry_status : ArtifactLifecycleStatus;
  entry_accessRevoked : bool;
  entry_createdAt : Z;
  entry_updatedAt : Z
}.

#[export] Instance StagingLifecycleEntry_updatable : Updatable StagingLifecycleEntry :=
  {| rebuild := λ e, Build_StagingLifecycleEntry (entry_intentId e) (entry_status e)
       (entry_accessRevoked e) (entry_createdAt e) (entry_updatedAt e) |}.

Definition lifecycleError (message hintCode hintText : string) : thrown :=
  gerror_hint INVALID_INPUT "artifact-lifecycle" message false (hint hintCode hintText).

Definition assertOwnershipScope (scope : string) : result unit :=
  throw_if (falsy scope || falsy (trim scope))
    (lifecycleError "Artifact must carry a non-empty ownershipScope" "artifact.invalid_input"
       "Register the artifact with its owning scope.").

(** What [validateArtifactRefId] throws is rethrown with its message. *)
Definition assertRefId (id : string) : result unit :=
  throw_if (falsy id)
    (lifecycleError "Artifact must carry a non-empty refId" "artifact.invalid_input"
       "Register the artifact with an opaque refId.");;
  match validateArtifactRefId id with
  | Ok _ => Ok tt
  | Throw error =>
      let message := match error with
                     | TCoded _ m | TError m => m
                     | TGroundlane e => errMessage e
                     | _ => "Invalid ArtifactRef refId"
                     end in
      Throw (lifecycleError message "artifact.invalid_ref"
               "Use a storage-neutral opaque ArtifactRef.")
  end.

(** ** Blob storage *)

Record blob := { blob_bytes : bytes; blob_ownershipScope : string }.

Definition InMemoryArtifactStorage : Type := js_map blob.

Definition storage_put (id scope : string) (data : bytes)
    : M InMemoryArtifactStorage unit :=
  lift (assertRefId id);;
  lift (assertOwnershipScope scope);;
  update (map_set id {| blob_bytes := data; blob_ownershipScope := scope |}).

Definition storage_get (st : InMemoryArtifactStorage) (id : string) : option bytes :=
  blob_bytes <$> map_get id st.

Definition getOwnership (st : InMemoryArtifactStorage) (id : string) : option string :=
  blob_ownershipScope <$> map_get id st.

Definition storage_delete (id : string) (st : InMemoryArtifactStorage)
    : InMemoryArtifactStorage := map_delete id st.

Definition listIds (st : InMemoryArtifactStorage) : list string := map_keys st.

(** ** The store *)

Record ArtifactLifecycleStore := {
  records : js_map MutableArtifactRecord;
  staging : js_map StagingLifecycleEntry;
  storage : InMemoryArtifactStorage
}.

#[export] Instance ArtifactLifecycleStore_updatable : Updatable ArtifactLifecycleStore :=
  {| rebuild := λ s, Build_ArtifactLifecycleStore (records s) (staging s) (storage s) |}.

Definition empty_lifecycle_store : ArtifactLifecycleStore :=
  {| records := []; staging := []; storage := [] |}.

Abbreviation Art := (M ArtifactLifecycleStore).

Definition on_storage {A} (m : M InMemoryArtifactStorage A) : Art A := λ s,
  let '(r, st) := m (storage s) in (r, s <| storage := st |>).

Definition set_record (id : string) (r : MutableArtifactRecord) : Art unit :=
  update (λ s, s <| records := map_set id r (records s) |>).

Definition set_staging (id : string) (e : StagingLifecycleEntry) : Art unit :=
  update (λ s, s <| staging := map_set id e (staging s) |>).

Definition registerVerifiedArtifact (r : ArtifactRef) (data : bytes) (nowMs : Z) : Art unit :=
  lift (throw_if (negb (verified r))
    (lifecycleError "Cannot register unverified upload as an artifact" "artifact.unverified"
       "Finalize and verify the upload before registering it."));;
  lift (assertRefId (refId r));;
  lift (assertOwnershipScope (ref_ownershipScope r));;
  s ← get;
  lift (throw_if (map_has (refId r) (records s))
    (lifecycleError "Artifact already registered" "artifact.invalid_input"
       "Register each finalized ArtifactRef once."));;
  on_storage (storage_put (refId r) (ref_ownershipScope r) data);;
  set_record (refId r) {| ref := r; status := active; accessRevoked := false;
                          rec_createdAt := nowMs; updatedAt := nowMs |}.

Definition publicRecord (r : MutableArtifactRecord) : ArtifactLifecycleRecord :=
  {| pub_ref := ref r; pub_status := status r; pub_accessRevoked := accessRevoked r;
     pub_corpusEnrolled := false; pub_createdAt := rec_createdAt r;
     pub_updatedAt := updatedAt r |}.

Definition getRecord (s : ArtifactLifecycleStore) (id : string)
    : option ArtifactLifecycleRecord :=
  publicRecord <$> map_get id (records s).

Definition requireRecord (id : string) : Art MutableArtifactRecord :=
  s ← get;
  match map_get id (records s) with
  | Some r => mret r
  | None => throw (lifecycleError "Unknown artifact" "artifact.invalid_input"
                     "Register the artifact before operating on it.")
  end.

Definition requireStaging (id : string) : Art StagingLifecycleEntry :=
  s ← get;
  match map_get id (staging s) with
  | Some e => mret e
  | None => throw (lifecycleError "Unknown staging intent" "artifact.invalid_input"
                     "Track the staging intent before operating on it.")
  end.

Definition access_denied (id hintText : string) : thrown :=
  lifecycleError ("Cross-ownership access denied for artifact " +:+ quoted id)
    "artifact.access_denied" hintText.

(** [record.status = st; record.accessRevoked = true; record.updatedAt = now] *)
Definition revoked_as (st : ArtifactLifecycleStatus) (nowMs : Z) (r : MutableArtifactRecord)
    : MutableArtifactRecord :=
  r <| status := st |> <| accessRevoked := true |> <| updatedAt := nowMs |>.

Definition is_status (r : MutableArtifactRecord) (st : ArtifactLifecycleStatus) : bool :=
  bool_decide (status r = st).

Definition readArtifact (id callerScope : string) (nowMs : Z) : Art bytes :=
  r ← requireRecord id;
  lift (throw_if (negb (bool_decide (ref_ownershipScope (ref r) = callerScope)))
    (access_denied id "Read the artifact with its owning scope."));;
  lift (throw_if (accessRevoked r || is_status r logically_deleted)
    (lifecycleError "Artifact access was revoked; the artifact was deleted"
       "artifact.access_revoked"
       "The artifact was explicitly deleted and can no longer be read."));;
  lift (throw_if (is_status r cancelled || is_status r failed)
    (lifecycleError "Artifact access was revoked; processing did not complete"
       "artifact.access_revoked" "The artifact processing was cancelled or failed."));;
  lift (throw_if (is_status r cleaned)
    (lifecycleError "Artifact access was revoked; the artifact was cleaned up"
       "artifact.access_revoked"
       "The artifact has been cleaned up and can no longer be read."));;
  if (ref_expiresAt (ref r) <=? nowMs)%Z || is_status r logically_expired then
    (if is_status r active then set_record id (revoked_as logically_expired nowMs r)
     else mret tt);;
    throw (lifecycleError "Artifact access was revoked; the artifact has expired"
             "artifact.expired"
             "Re-upload or re-finalize the source to obtain a fresh ArtifactRef.")
  else
    s ← get;
    match storage_get (storage s) id with
    | Some data => mret data
    | None => throw (lifecycleError "Artifact not found or access denied"
                       "artifact.invalid_input"
                       "Check the refId and ownershipScope, then retry.")
    end.

Definition processArtifact (id callerScope : string) (nowMs : Z) : Art ProcessReceipt :=
  readArtifact id callerScope nowMs;;
  r ← requireRecord id;
  mret {| rcp_refId := refId (ref r); rcp_byteSize := byteSize (ref r);
          rcp_contentHash := contentHash (ref r); rcp_expiresAt := ref_expiresAt (ref r);
          retentionExtended := false; rcp_corpusEnrolled := false |}.

Definition cancelProcessing (id : string) (nowMs : Z) : Art unit :=
  r ← requireRecord id; set_record id (revoked_as cancelled nowMs r).

Definition failProcessing (id : string) (nowMs : Z) : Art unit :=
  r ← requireRecord id; set_record id (revoked_as failed nowMs r).

(** One record of [expireSweep]. *)
Definition due (nowMs : Z) (r : MutableArtifactRecord) : bool :=
  is_status r active && (ref_expiresAt (ref r) <=? nowMs)%Z.

Definition expireSweep (nowMs : Z) : Art (list string) :=
  s ← get;
  let expired := map_keys (filter (λ kv, due nowMs kv.2 = true) (records s)) in
  put (s <| records := map_each (λ _ r, if due nowMs r then revoked_as logically_expired nowMs r
                                        else r) (records s) |>);;
  mret expired.

Definition deleteExplicit (id callerScope : string) (nowMs : Z) : Art unit :=
  r ← requireRecord id;
  lift (throw_if (negb (bool_decide (ref_ownershipScope (ref r) = callerScope)))
    (access_denied id "Delete the artifact with its owning scope."));;
  set_record id (revoked_as logically_deleted nowMs r).

Definition markArtifactCleanupPending (id : string) (nowMs : Z)
    : Art ArtifactLifecycleRecord :=
  r ← requireRecord id;
  lift (throw_if (negb (is_status r logically_expired) && negb (is_status r logically_deleted))
    (lifecycleError "Only logically expired or deleted artifacts can move to cleanup pending"
       "artifact.invalid_input" "Expire or delete the artifact before physical cleanup."));;
  let r' := r <| status := physical_cleanup_pending |> <| updatedAt := nowMs |> in
  set_record id r';;
  mret (publicRecord r').

(** What a sweep does with one record or entry: nothing, one step towards
    the physical cleanup, or the cleanup itself. *)
Inductive sweep_action := sweep_keep | sweep_pending | sweep_clean.

#[export] Instance sweep_action_eq_dec : EqDecision sweep_action.
Proof. solve_decision. Defined.

Definition sweep_decision (st : ArtifactLifecycleStatus) (updated nowMs windowMs : Z)
    : sweep_action :=
  match st with
  | physical_cleanup_pending | logically_expired | logically_deleted =>
      if (nowMs - updated <? windowMs)%Z then sweep_keep
      else match st with physical_cleanup_pending => sweep_clean | _ => sweep_pending end
  | _ => sweep_keep
  end.

Definition record_action (nowMs windowMs : Z) (r : MutableArtifactRecord) : sweep_action :=
  sweep_decision (status r) (updatedAt r) nowMs windowMs.

Definition sweep_record (nowMs windowMs : Z) (r : MutableArtifactRecord)
    : MutableArtifactRecord :=
  match record_action nowMs windowMs r with
  | sweep_keep => r
  | sweep_pending => r <| status := physical_cleanup_pending |> <| updatedAt := nowMs |>
  | sweep_clean => revoked_as cleaned nowMs r
  end.

(** Delete the blobs of all [ids]. *)
Definition delete_all (ids : list string) (st : InMemoryArtifactStorage)
    : InMemoryArtifactStorage := foldl (λ st id, storage_delete id st) st ids.

Definition sweepArtifacts (nowMs windowMs : Z) : Art (list string) :=
  lift (validateCleanupWindow windowMs);;
  s ← get;
  let cleaned_ids :=
    map_keys (filter (λ kv, record_action nowMs windowMs kv.2 = sweep_clean) (records s)) in
  put (s <| records := map_each (λ _, sweep_record nowMs windowMs) (records s) |>
         <| storage := delete_all cleaned_ids (storage s) |>);;
  mret cleaned_ids.

Definition cleanupOrphans : Art (list string) :=
  s ← get;
  let orphans := filter (λ id, map_has id (records s) = false ∧ map_has id (staging s) = false)
                   (listIds (storage s)) in
  put (s <| storage := delete_all orphans (storage s) |>);;
  mret orphans.

(** ** Staging lifecycle *)

Definition trackStaging (id : string) (nowMs : Z) : Art StagingLifecycleEntry :=
  lift (throw_if (falsy id)
    (lifecycleError "Staging intent must have a non-empty ID" "artifact.invalid_input"
       "Track staging with a non-empty intent ID."));;
  s ← get;
  lift (throw_if (map_has id (staging s))
    (lifecycleError "Staging intent already tracked" "artifact.invalid_input"
       "Track each staging intent once."));;
  let e := {| entry_intentId := id; entry_status := active; entry_accessRevoked := false;
              entry_createdAt := nowMs; entry_updatedAt := nowMs |} in
  set_staging id e;;
  mret e.

Definition expireStaging (id : string) (nowMs : Z) : Art StagingLifecycleEntry :=
  e ← requireStaging id;
  let e' := e <| entry_status := logically_expired |> <| entry_updatedAt := nowMs |> in
  set_staging id e';;
  mret e'.

Definition markStagingCleanupPending (id : string) (nowMs : Z) : Art StagingLifecycleEntry :=
  e ← requireStaging id;
  lift (throw_if (negb (bool_decide
      (entry_status e ∈ [logically_expired; logically_deleted; active])))
    (lifecycleError "Staging entry cannot move to cleanup pending from its current state"
       "artifact.invalid_input"
       "Expire or delete the staging entry before physical cleanup."));;
  let e' := e <| entry_status := physical_cleanup_pending |> <| entry_updatedAt := nowMs |> in
  set_staging id e';;
  mret e'.

Definition deleteStagingExplicit (id : string) (nowMs : Z) : Art StagingLifecycleEntry :=
  e ← requireStaging id;
  let e' := e <| entry_status := logically_deleted |> <| entry_accessRevoked := true |>
              <| entry_updatedAt := nowMs |> in
  set_staging id e';;
  mret e'.

Definition entry_action (nowMs windowMs : Z) (e : StagingLifecycleEntry) : sweep_action :=
  sweep_decision (entry_status e) (entry_updatedAt e) nowMs windowMs.

(** Cleaned entries leave the map. *)
Definition sweepStaging (nowMs windowMs : Z) : Art (list string) :=
  lift (validateCleanupWindow windowMs);;
  s ← get;
  let cleaned_ids :=
    map_keys (filter (λ kv, entry_action nowMs windowMs kv.2 = sweep_clean) (staging s)) in
  let swept := map_each (λ _ e,
      match entry_action nowMs windowMs e with
      | sweep_pending =>
          e <| entry_status := physical_cleanup_pending |> <| entry_updatedAt := nowMs |>
      | _ => e
      end) (staging s) in
  put (s <| staging := foldl (λ m id, map_delete id m) swept cleaned_ids |>
         <| storage := delete_all cleaned_ids (storage s) |>);;
  mret cleaned_ids.

Definition getStaging (s : ArtifactLifecycleStore) (id : string)
    : option StagingLifecycleEntry := map_get id (staging s).

(** ** Retention policy *)

Definition UPLOAD_DEFAULT_TTL_SECONDS : Z := 900.
Definition UPLOAD_MIN_TTL_SECONDS : Z := 60.
Definition UPLOAD_HARD_MAX_TTL_SECONDS : Z := 3600.
Definition ARTIFACT_DEFAULT_TTL_SECONDS : Z := 86400.
Definition ARTIFACT_MIN_TTL_SECONDS : Z := 60.
Definition ARTIFACT_HARD_MAX_TTL_SECONDS : Z := 2592000.

Record ArtifactRetentionSection := {
  defaultTtlSeconds : Z;
  minTtlSeconds : Z;
  maxTtlSeconds : Z
}.
Record ArtifactRetentionPolicy := {
  upload : ArtifactRetentionSection;
  artifact : ArtifactRetentionSection
}.
Record ArtifactRetentionPolicyOverrides := {
  uploadMaxTtlSeconds : option number;
  artifactMaxTtlSeconds : option number
}.

Definition operatorMaximum (value : option number) (default_ttl hard_max : Z)
    (label : string) : result Z :=
  let maximum := default (int hard_max) value in
  throw_if (negb (isSafeInteger maximum) || num_ltb maximum (int default_ttl) ||
            num_ltb (int hard_max) maximum)
    (TError (label +:+ " must be an integer between " +:+ show default_ttl +:+ " and " +:+
             show hard_max +:+ " seconds"));;
  Ok (to_Z maximum).

Definition createArtifactRetentionPolicy (overrides : ArtifactRetentionPolicyOverrides)
    : result ArtifactRetentionPolicy :=
  uploadMax ← operatorMaximum (uploadMaxTtlSeconds overrides) UPLOAD_DEFAULT_TTL_SECONDS
                UPLOAD_HARD_MAX_TTL_SECONDS "uploadMaxTtlSeconds";
  artifactMax ← operatorMaximum (artifactMaxTtlSeconds overrides) ARTIFACT_DEFAULT_TTL_SECONDS
                  ARTIFACT_HARD_MAX_TTL_SECONDS "artifactMaxTtlSeconds";
  Ok {| upload := {| defaultTtlSeconds := UPLOAD_DEFAULT_TTL_SECONDS;
                     minTtlSeconds := UPLOAD_MIN_TTL_SECONDS; maxTtlSeconds := uploadMax |};
        artifact := {| defaultTtlSeconds := ARTIFACT_DEFAULT_TTL_SECONDS;
                       minTtlSeconds := ARTIFACT_MIN_TTL_SECONDS;
                       maxTtlSeconds := artifactMax |} |}.

Definition DEFAULT_ARTIFACT_RETENTION_POLICY : result ArtifactRetentionPolicy :=
  createArtifactRetentionPolicy {| uploadMaxTtlSeconds := None; artifactMaxTtlSeconds := None |}.
