(* ===== verification/ArtifactLifecycleSafety.v ===== *)
(** * Correctness of the artifact lifecycle

    Access revocation is permanent, a successful read returns the bytes that
    were registered, and the sweeps clean up what they should when they
    should. *)

From S2P Require Import Prelude JsString JsMap Digest UploadIntent ArtifactLifecycle.

Inductive command :=
  | CmdRegister (r : ArtifactRef) (data : bytes) (now : Z)
  | CmdRead (id scope : string) (now : Z)
  | CmdProcess (id scope : string) (now : Z)
  | CmdCancel (id : string) (now : Z)
  | CmdFail (id : string) (now : Z)
  | CmdExpireSweep (now : Z)
  | CmdDelete (id scope : string) (now : Z)
  | CmdMarkPending (id : string) (now : Z)
  | CmdSweep (now window : Z)
  | CmdOrphans
  | CmdTrackStaging (id : string) (now : Z)
  | CmdExpireStaging (id : string) (now : Z)
  | CmdStagingPending (id : string) (now : Z)
  | CmdDeleteStaging (id : string) (now : Z)
  | CmdSweepStaging (now window : Z).

Definition void {A} (m : Art A) : Art unit := m;; mret tt.

Definition exec (c : command) : Art unit :=
  match c with
  | CmdRegister r data now => registerVerifiedArtifact r data now
  | CmdRead id scope now => void (readArtifact id scope now)
  | CmdProcess id scope now => void (processArtifact id scope now)
  | CmdCancel id now => cancelProcessing id now
  | CmdFail id now => failProcessing id now
  | CmdExpireSweep now => void (expireSweep now)
  | CmdDelete id scope now => deleteExplicit id scope now
  | CmdMarkPending id now => void (markArtifactCleanupPending id now)
  | CmdSweep now window => void (sweepArtifacts now window)
  | CmdOrphans => void cleanupOrphans
  | CmdTrackStaging id now => void (trackStaging id now)
  | CmdExpireStaging id now => void (expireStaging id now)
  | CmdStagingPending id now => void (markStagingCleanupPending id now)
  | CmdDeleteStaging id now => void (deleteStagingExplicit id now)
  | CmdSweepStaging now window => void (sweepStaging now window)
  end.

Definition step (s s' : ArtifactLifecycleStore) : Prop := ∃ c, (exec c s).2 = s'.
Definition steps : relation ArtifactLifecycleStore := rtc step.

Abbreviation record_at s id := (map_get id (records s)).
Abbreviation blob_at s id := (map_get id (storage s)).

(** ** Invariant and evolution *)

Record wf_record (id : string) (x : MutableArtifactRecord) : Prop := {
  wr_id : refId (ref x) = id;
  wr_revoked : status x ≠ active → accessRevoked x = true
}.

Record inv (s : ArtifactLifecycleStore) : Prop := {
  inv_records : map_ok (records s);
  inv_staging : map_ok (staging s);
  inv_record id x : record_at s id = Some x → wf_record id x;
  inv_cleaned id x : record_at s id = Some x → status x = cleaned → blob_at s id = None
}.

Record rec_evolves (x y : MutableArtifactRecord) : Prop := {
  re_ref : ref y = ref x;
  re_created : rec_createdAt y = rec_createdAt x;
  re_revoked : accessRevoked x = true → accessRevoked y = true
}.

#[export] Instance rec_evolves_preorder : PreOrder rec_evolves.
Proof. split; [done|]. intros x y z [] []. split; (congruence || auto). Qed.

(** Records persist and evolve; the bytes of a registered artifact are
    never replaced, only dropped. *)
Definition mono (s s' : ArtifactLifecycleStore) : Prop :=
  ∀ id x, record_at s id = Some x →
    (∃ y, record_at s' id = Some y ∧ rec_evolves x y) ∧
    (blob_at s' id = blob_at s id ∨ blob_at s' id = None).

#[export] Instance mono_preorder : PreOrder mono.
Proof.
  split.
  - intros s id x Hx. split; [by exists x|by left].
  - intros s1 s2 s3 H12 H23 id x Hx. destruct (H12 _ _ Hx) as [(y & Hy & ?) Hb1].
    destruct (H23 _ _ Hy) as [(z & Hz & ?) Hb2]. split; [exists z; split; [done|by etrans]|].
    destruct Hb1 as [Hb1|Hb1], Hb2 as [Hb2|Hb2]; rewrite ?Hb2, ?Hb1; auto.
Qed.

Definition good (s s' : ArtifactLifecycleStore) : Prop := inv s' ∧ mono s s'.

Lemma artifact_good_refl s : inv s → good s s.
Proof. by split. Qed.

Lemma artifact_good_trans s1 s2 s3 : good s1 s2 → good s2 s3 → good s1 s3.
Proof. intros [_ H12] [Hs3 H23]. split; [done|by etrans]. Qed.

Lemma get_delete_all ids st id :
  map_get id (delete_all ids st) = if decide (id ∈ ids) then None else map_get id st.
Proof. exact (map_get_delete_list ids st id). Qed.

(** Rewriting every record with [f] while dropping the blobs [ids]. *)
Lemma good_each s f ids :
  inv s →
  (∀ id x, record_at s id = Some x → wf_record id x →
     wf_record id (f x) ∧ rec_evolves x (f x) ∧
     (status (f x) = cleaned → status x = cleaned ∨ id ∈ ids)) →
  good s (s <| records := map_each (λ _, f) (records s) |>
            <| storage := delete_all ids (storage s) |>).
Proof.
  intros [Hrec Hstg Hwf Hcl] Hf. split.
  - split; cbn; [by apply map_ok_each|done|..].
    + intros id y. rewrite map_get_each. intros (x & Hx & ->)%fmap_Some. by apply Hf; auto.
    + intros id y. rewrite map_get_each. intros (x & Hx & ->)%fmap_Some Hc.
      rewrite get_delete_all. case_decide; [done|].
      destruct (Hf _ _ Hx (Hwf _ _ Hx)) as (_ & _ & Hor). destruct (Hor Hc); [eauto|done].
  - intros id x Hx. cbn. split.
    + exists (f x). rewrite map_get_each, Hx. split; [done|]. by apply (Hf id); auto.
    + rewrite get_delete_all.
      case_decide; auto.
Qed.

(** Rewriting one record. *)
Lemma good_record s id x y :
  inv s → record_at s id = Some x → wf_record id y → rec_evolves x y → status y ≠ cleaned →
  good s (s <| records := map_set id y (records s) |>).
Proof.
  intros [Hrec Hstg Hwf Hcl] Hx Hy Hev Hnc. split.
  - split; cbn; [by apply map_ok_set|done|..]; intros id' z; rewrite map_get_set;
      case_decide; subst; [by intros [= <-]|by apply Hwf|by intros [= <-]|by apply Hcl].
  - intros id' z Hz. cbn. split; [|by left]. rewrite map_get_set. case_decide; [|by exists z].
    subst. exists y. split; [done|]. congruence.
Qed.

Lemma good_staging s m : inv s → map_ok m → good s (s <| staging := m |>).
Proof.
  intros [] Hm. split; [by split|]. intros id x Hx. split; [by exists x|by left].
Qed.

Definition keeps {A} (m : Art A) : Prop := ∀ s, inv s → wp m (λ _ s', good s s') s.

Lemma artifact_keeps_void {A} (m : Art A) : keeps m → keeps (void m).
Proof.
  intros Hm s Hs. unfold void. apply wp_bind. eapply wp_mono; [by apply Hm|]. by intros [].
Qed.

Lemma keeps_requireRecord {A} id (f : MutableArtifactRecord → Art A) :
  (∀ s x, inv s → record_at s id = Some x → wf_record id x →
     wp (f x) (λ _ s', good s s') s) →
  keeps (requireRecord id ≫= f).
Proof.
  intros Hf s Hs. unfold requireRecord. apply wp_bind, wp_get.
  destruct (record_at s id) as [x|] eqn:Hx; [|by apply artifact_good_refl].
  apply wp_ret, Hf; [done..|]. by apply Hs.
Qed.

Lemma keeps_requireStaging {A} id (f : StagingLifecycleEntry → Art A) :
  (∀ s e, inv s → wp (f e) (λ _ s', good s s') s) →
  keeps (requireStaging id ≫= f).
Proof.
  intros Hf s Hs. unfold requireStaging. apply wp_bind, wp_get.
  destruct (map_get id (staging s)); [|by apply artifact_good_refl]. by apply wp_ret, Hf.
Qed.

Lemma artifact_keeps_guard {A} bad e (f : unit → Art A) s :
  inv s → wp (f tt) (λ _ s', good s s') s →
  wp (lift (throw_if bad e) ≫= f) (λ _ s', good s s') s.
Proof. intros Hs Hf. apply wp_throw_if; [intros _; by apply artifact_good_refl|done]. Qed.

Lemma good_revoke s id x st now :
  inv s → record_at s id = Some x → st ≠ cleaned →
  good s (s <| records := map_set id (revoked_as st now x) (records s) |>).
Proof.
  intros Hs Hx Hst. eapply good_record; try done. destruct (inv_record _ Hs _ _ Hx). by split.
Qed.

Lemma keeps_setStaging {A} id e (a : A) s :
  inv s → wp (set_staging id e;; mret a) (λ _ s', good s s') s.
Proof. intros Hs. apply (good_staging s _ Hs), map_ok_set, Hs. Qed.

(** ** Every command *)

Lemma keeps_register r data now : keeps (registerVerifiedArtifact r data now).
Proof.
  intros s Hs. unfold registerVerifiedArtifact. apply artifact_keeps_guard; [done|].
  apply wp_bind, wp_lift. destruct (assertRefId (refId r)); [|by apply artifact_good_refl].
  apply wp_bind, wp_lift. destruct (assertOwnershipScope _); [|by apply artifact_good_refl].
  apply wp_get. apply wp_throw_if; [intros _; by apply artifact_good_refl|intros Hnew].
  apply bool_decide_eq_false, dec_stable in Hnew.
  apply wp_bind. unfold wp, on_storage, storage_put, mbind, M_bind, lift, update. cbn.
  assert (∀ st, s <| storage := st |> = {| records := records s; staging := staging s;
    storage := st |}) as Hst by done.
  destruct (assertRefId (refId r)); cbn; [|by destruct s; apply artifact_good_refl].
  destruct (assertOwnershipScope _); cbn; [|by destruct s; apply artifact_good_refl].
  destruct Hs as [Hrec Hstg Hwf Hcl]. split.
  - split; cbn; [by apply map_ok_set|done|..]; intros id x; rewrite map_get_set; case_decide;
      subst; [by intros [= <-]|by apply Hwf|by intros [= <-]|].
    intros Hx Hc. rewrite map_get_set_ne by done. by eapply Hcl.
  - intros id x Hx. cbn. assert (id ≠ refId r) by (intros ->; congruence).
    rewrite !map_get_set_ne by done. split; [by exists x|by left].
Qed.

Lemma keeps_read id scope now : keeps (readArtifact id scope now).
Proof.
  apply keeps_requireRecord. intros s x Hs Hx Hwf. do 4 (apply artifact_keeps_guard; [done|]).
  destruct (_ || _).
  - apply wp_bind. destruct (is_status x active); [|by apply artifact_good_refl].
    by apply good_revoke.
  - apply wp_get. destruct (storage_get _ _); by apply artifact_good_refl.
Qed.

Lemma keeps_process id scope now : keeps (processArtifact id scope now).
Proof.
  intros s Hs. apply wp_bind. eapply wp_mono; [by apply keeps_read|].
  intros [data|e] s' Hg; [|done]. eapply wp_mono; [|intros ? ?; exact (artifact_good_trans _ _ _ Hg)].
  destruct Hg as [Hs' _]. revert s' Hs'. apply keeps_requireRecord. intros. by apply artifact_good_refl.
Qed.

Lemma keeps_expireSweep now : keeps (expireSweep now).
Proof.
  intros s Hs. pose proof (good_each s
    (λ r, if due now r then revoked_as logically_expired now r else r) [] Hs) as Hg.
  destruct s. apply Hg. intros id x Hx []. case_match; split_and!; try done; auto.
Qed.

Lemma sweep_record_ok now w x id :
  wf_record id x → wf_record id (sweep_record now w x) ∧ rec_evolves x (sweep_record now w x).
Proof.
  intros []. unfold sweep_record, record_action, sweep_decision.
  destruct (status x) eqn:Hst; repeat case_match; split; split; cbn; try done; auto; congruence.
Qed.

Lemma keeps_sweepArtifacts now w : keeps (sweepArtifacts now w).
Proof.
  intros s Hs. unfold sweepArtifacts. apply wp_bind, wp_lift.
  destruct (validateCleanupWindow w); [|by apply artifact_good_refl].
  apply (good_each s (sweep_record now w)); [done|]. intros id x Hx Hwf.
  destruct (sweep_record_ok now w x id Hwf). split_and!; [done..|].
  unfold sweep_record. destruct (record_action now w x) eqn:Ha; cbn; auto; [done|].
  intros _. right. apply elem_of_keys_filter; [apply Hs|]. eauto.
Qed.

Lemma keeps_cleanupOrphans : keeps cleanupOrphans.
Proof.
  intros s Hs. unfold cleanupOrphans. apply wp_get.
  set (ids := filter (λ id, map_has id (records s) = false ∧ map_has id (staging s) = false)
                (listIds (storage s))).
  pose proof (good_each s (λ x, x) ids Hs) as Hg.
  assert (map_each (λ _ x, x) (records s) = records s) as Hid.
  { unfold map_each. rewrite <- (list_fmap_id (records s)) at 2.
    apply list_fmap_ext. by intros ? []. }
  rewrite Hid in Hg. destruct s. apply Hg. by intros id x Hx ?; split_and!; auto.
Qed.

Lemma keeps_sweepStaging now w : keeps (sweepStaging now w).
Proof.
  intros s Hs. unfold sweepStaging. apply wp_bind, wp_lift.
  destruct (validateCleanupWindow w); [|by apply artifact_good_refl].
  apply wp_get.
  set (ids := map_keys (filter (λ kv, entry_action now w kv.2 = sweep_clean) (staging s))).
  match goal with |- context [foldl ?f ?m0 ids] => set (m := foldl f m0 ids) end.
  assert (map_ok m) as Hm by (apply map_ok_delete_list, map_ok_each, Hs).
  pose proof (good_each s (λ x, x) ids Hs) as Hg.
  assert (map_each (λ _ x, x) (records s) = records s) as Hid.
  { unfold map_each. rewrite <- (list_fmap_id (records s)) at 2.
    apply list_fmap_ext. by intros ? []. }
  rewrite Hid in Hg.
  eapply artifact_good_trans; [apply Hg; by intros ? ? ? ?; split_and!; auto|].
  destruct Hg as [Hg _]; [by intros ? ? ? ?; split_and!; auto|].
  destruct s. exact (good_staging _ m Hg Hm).
Qed.

Lemma artifact_keeps_exec c : keeps (exec c).
Proof.
  destruct c; cbn; auto using keeps_register, artifact_keeps_void, keeps_read, keeps_process,
    keeps_expireSweep, keeps_sweepArtifacts, keeps_cleanupOrphans, keeps_sweepStaging;
    try apply artifact_keeps_void.
  - apply keeps_requireRecord. intros. by apply good_revoke.
  - apply keeps_requireRecord. intros. by apply good_revoke.
  - apply keeps_requireRecord. intros s x Hs Hx Hwf. apply artifact_keeps_guard; [done|].
    by apply good_revoke.
  - apply keeps_requireRecord. intros s x Hs Hx [Hid Hrev].
    apply wp_throw_if; [intros _; by apply artifact_good_refl|intros Hst].
    apply (good_record s id x); try done. split; cbn; [done|]. intros _. apply Hrev.
    unfold is_status in Hst. intros Hact. by rewrite Hact in Hst.
  - intros s Hs. unfold trackStaging. apply artifact_keeps_guard; [done|]. apply wp_get.
    apply artifact_keeps_guard; [done|]. by apply keeps_setStaging.
  - apply keeps_requireStaging. intros. by apply keeps_setStaging.
  - apply keeps_requireStaging. intros. apply artifact_keeps_guard; [done|]. by apply keeps_setStaging.
  - apply keeps_requireStaging. intros. by apply keeps_setStaging.
Qed.

Lemma artifact_steps_good s s' : inv s → steps s s' → good s s'.
Proof.
  intros Hs Hsteps. induction Hsteps as [|s s1 s2 [c <-] _ IH]; [by apply artifact_good_refl|].
  pose proof (artifact_keeps_exec c s Hs) as Hg. eapply artifact_good_trans; [exact Hg|apply IH, Hg].
Qed.

Lemma inv_empty_lifecycle : inv empty_lifecycle_store.
Proof. split; cbn; auto with groundlane; done. Qed.

(** ** What the operations do *)

Lemma register_inv r data now s s1 :
  registerVerifiedArtifact r data now s = (Ok tt, s1) →
  record_at s1 (refId r) = Some {| ref := r; status := active; accessRevoked := false;
                                   rec_createdAt := now; updatedAt := now |} ∧
  blob_at s1 (refId r) = Some {| blob_bytes := data;
                                 blob_ownershipScope := ref_ownershipScope r |}.
Proof.
  unfold registerVerifiedArtifact, on_storage, storage_put, mbind, M_bind, lift, get, update.
  destruct (throw_if _ _); [|done]. destruct (assertRefId _); [|done].
  destruct (assertOwnershipScope _); [|done]. destruct (throw_if _ _); [|done]. cbn.
  intros [= <-]. cbn. by rewrite !map_get_set_eq.
Qed.

Lemma read_inv id scope now s b s' :
  readArtifact id scope now s = (Ok b, s') →
  s' = s ∧ ∃ x, record_at s id = Some x ∧ ref_ownershipScope (ref x) = scope ∧
    accessRevoked x = false ∧ (now < ref_expiresAt (ref x))%Z ∧
    storage_get (storage s) id = Some b.
Proof.
  unfold readArtifact. intros Hm. apply M_bind_Ok in Hm as (x & s0 & Hreq & Hm).
  apply M_bind_Ok in Hreq as (s1 & s2 & [= <- <-] & Hreq).
  destruct (record_at s id) as [x'|] eqn:Hx; [|done]. injection Hreq as -> <-.
  rewrite lift_bind in Hm. destruct (throw_if _ _) as [[]|] eqn:Ho; [|done].
  apply throw_if_Ok, negb_false_iff, bool_decide_eq_true in Ho.
  rewrite lift_bind in Hm. destruct (throw_if _ _) as [[]|] eqn:Hr; [|done].
  apply throw_if_Ok, orb_false_iff in Hr as [Hr _].
  do 2 (rewrite lift_bind in Hm; destruct (throw_if _ _); [|done]).
  destruct (_ || _) eqn:Hexp.
  { unfold mbind, M_bind in Hm. by destruct (is_status x active). }
  apply orb_false_iff in Hexp as [Hexp%Z.leb_gt _].
  apply M_bind_Ok in Hm as (s1 & s2 & [= <- <-] & Hm).
  destruct (storage_get _ _) eqn:Hg; [|done]. injection Hm as <- <-.
  split; [done|]. by exists x.
Qed.

Lemma revoked_rejected s id x scope now :
  record_at s id = Some x → accessRevoked x = true →
  rejected (readArtifact id scope now) s ∧ rejected (processArtifact id scope now) s.
Proof.
  intros Hx Hr. assert (rejected (readArtifact id scope now) s) as Hread.
  { unfold readArtifact, rejected. unfold requireRecord, mbind, M_bind, get, lift. rewrite Hx.
    cbn. destruct (throw_if (negb _) _); [|by eexists]. rewrite Hr. by eexists. }
  split; [done|]. unfold processArtifact. by apply rejected_bind.
Qed.

(** The commands that revoke access to an artifact. *)
Definition revokes (c : command) : option string :=
  match c with
  | CmdCancel id _ | CmdFail id _ | CmdDelete id _ _ => Some id
  | _ => None
  end.

Lemma revokes_sets c id s s' :
  revokes c = Some id → exec c s = (Ok tt, s') →
  ∃ x, record_at s' id = Some x ∧ accessRevoked x = true.
Proof.
  destruct c; intros [= ->]; cbn;
    unfold cancelProcessing, failProcessing, deleteExplicit, requireRecord, mbind, M_bind, get, lift;
    destruct (record_at s id) as [x|]; try done; cbn; try destruct (throw_if _ _); try done;
    cbn; intros [= <-]; cbn; rewrite map_get_set_eq; by eexists.
Qed.

(** ** Sweeps *)

Lemma sweep_run now w s :
  validateCleanupWindow w = Ok tt →
  let ids := map_keys (filter (λ kv, record_action now w kv.2 = sweep_clean) (records s)) in
  sweepArtifacts now w s =
    (Ok ids, {| records := map_each (λ _, sweep_record now w) (records s);
                staging := staging s; storage := delete_all ids (storage s) |}).
Proof. intros Hw. unfold sweepArtifacts. by rewrite lift_bind, Hw. Qed.

(** The effect of one sweep on one artifact. *)
Lemma sweep_one now w s id x :
  map_ok (records s) → validateCleanupWindow w = Ok tt → record_at s id = Some x →
  let '(r, s') := sweepArtifacts now w s in
  map_ok (records s') ∧ record_at s' id = Some (sweep_record now w x) ∧
  blob_at s' id = (if decide (record_action now w x = sweep_clean) then None else blob_at s id) ∧
  ∃ ids, r = Ok ids ∧ (id ∈ ids ↔ record_action now w x = sweep_clean).
Proof.
  intros Hok Hw Hx. rewrite sweep_run by done.
  assert (id ∈ map_keys (filter (λ kv, record_action now w kv.2 = sweep_clean) (records s)) ↔
          record_action now w x = sweep_clean) as Hin.
  { rewrite elem_of_keys_filter by done. rewrite Hx. naive_solver. }
  cbn. split_and!; [by apply map_ok_each|by rewrite map_get_each, Hx| |by eexists].
  rewrite get_delete_all. repeat case_decide; naive_solver.
Qed.

Definition awaiting_cleanup (x : MutableArtifactRecord) : Prop :=
  status x = logically_expired ∨ status x = logically_deleted.

(** *** Maintenance: what runs without a caller's request *)

Definition maintenance (c : command) : bool :=
  match c with
  | CmdExpireSweep _ | CmdMarkPending _ _ | CmdSweep _ _ | CmdOrphans | CmdSweepStaging _ _ => true
  | _ => false
  end.

Definition maintenance_steps : relation ArtifactLifecycleStore :=
  rtc (λ s s', ∃ c, maintenance c = true ∧ (exec c s).2 = s').

(** An abandoned artifact: cancelled or failed, its bytes still stored. *)
Definition abandoned (s : ArtifactLifecycleStore) (id : string) (x : MutableArtifactRecord)
    (b : blob) : Prop :=
  (status x = cancelled ∨ status x = failed) ∧ record_at s id = Some x ∧
  blob_at s id = Some b ∧ map_get id (staging s) = None.

Lemma abandoned_no_sweep now w x :
  status x = cancelled ∨ status x = failed → record_action now w x = sweep_keep.
Proof. unfold record_action, sweep_decision. by intros [-> | ->]. Qed.

Lemma abandoned_maintenance s c id x b :
  inv s → maintenance c = true → abandoned s id x b → abandoned (exec c s).2 id x b.
Proof.
  intros Hs Hc (Hst & Hx & Hb & Hg). destruct c; try discriminate Hc; cbn; unfold void.
  - unfold expireSweep, mbind, M_bind, get, put.
    split_and!; cbn; try done. rewrite map_get_each, Hx. cbn.
    unfold due, is_status. by destruct Hst as [-> | ->].
  - unfold markArtifactCleanupPending, requireRecord, mbind, M_bind, get, lift. cbn.
    destruct (record_at s id0) as [y|] eqn:Hy; [|done]. cbn.
    destruct (throw_if _ _) as [[]|] eqn:Ht; [|done]. apply throw_if_Ok in Ht. cbn.
    split_and!; cbn; try done. rewrite map_get_set_ne; [done|]. intros <-.
    rewrite Hx in Hy. injection Hy as <-. unfold is_status in Ht. by destruct Hst as [He|He]; rewrite He in Ht.
  - unfold mbind, M_bind. destruct (validateCleanupWindow window) as [[]|] eqn:Hw.
    + pose proof (sweep_one now window s id x (inv_records _ Hs) Hw Hx) as Hone.
      pose proof (sweep_run now window s Hw) as Hrun. cbv zeta in Hrun. rewrite Hrun in *.
      destruct Hone as (_ & Hrec & Hblob & _).
      rewrite abandoned_no_sweep in Hblob by done. rewrite decide_False in Hblob by done.
      unfold sweep_record in Hrec. rewrite abandoned_no_sweep in Hrec by done.
      split_and!; try done. by rewrite <- Hb.
    + unfold sweepArtifacts, mbind, M_bind, lift. by rewrite Hw.
  - unfold cleanupOrphans, mbind, M_bind, get, put.
    split_and!; cbn; try done. rewrite get_delete_all, decide_False; [done|].
    intros ([Hno _] & _)%list_elem_of_filter. apply bool_decide_eq_false in Hno.
    rewrite Hx in Hno. by apply Hno.
  - unfold sweepStaging, mbind, M_bind, lift. destruct (validateCleanupWindow window); [|done].
    split_and!; cbn; try done.
    + rewrite get_delete_all, decide_False; [done|]. rewrite elem_of_keys_filter by apply Hs.
      rewrite Hg. by intros (? & ? & _).
    + rewrite map_get_delete_list, map_get_each, Hg. by case_decide.
Qed.

(** ** Properties *)

(** C9: a successful read returns exactly the bytes the artifact was
    registered with, only to its owner, only before its expiry, and changes
    nothing, whatever commands (sweeps, orphan cleanups, other artifacts)
    ran since the registration. *)
Theorem artifact_read_integrity s s1 s2 s3 r data t0 scope now b :
  inv s → registerVerifiedArtifact r data t0 s = (Ok tt, s1) → steps s1 s2 →
  readArtifact (refId r) scope now s2 = (Ok b, s3) →
  b = data ∧ scope = ref_ownershipScope r ∧ (now < ref_expiresAt r)%Z ∧ s3 = s2.
Proof.
  intros Hs Hreg Hst Hread.
  destruct (wp_run _ _ _ _ _ (keeps_register r data t0 s Hs) Hreg) as [Hs1 _].
  apply register_inv in Hreg as [Hrec Hblob].
  destruct (artifact_steps_good _ _ Hs1 Hst) as [_ Hmono].
  destruct (Hmono _ _ Hrec) as [(y & Hy & Hev) Hb].
  apply read_inv in Hread as (-> & x & Hx & Ho & _ & Hexp & Hget). simplify_eq.
  rewrite (re_ref _ _ Hev) in *. cbn in *. split_and!; try done.
  unfold storage_get in Hget. destruct Hb as [Hb|Hb]; rewrite Hb in Hget; [|done].
  rewrite Hblob in Hget. by injection Hget.
Qed.

(** revoking access is permanent.  Once an artifact was cancelled,
    failed or deleted by its owner, every later read or processing of it, by
    anybody, is rejected without effect, whatever commands ran in between. *)
Theorem artifact_revocation_permanent s0 c s s' id scope now :
  inv s0 → revokes c = Some id → exec c s0 = (Ok tt, s) → steps s s' →
  rejected (readArtifact id scope now) s' ∧ rejected (processArtifact id scope now) s'.
Proof.
  intros Hs0 Hc He Hst. pose proof (artifact_keeps_exec c s0 Hs0) as Hg.
  destruct (wp_run _ _ _ _ _ Hg He) as [Hs _].
  destruct (revokes_sets _ _ _ _ Hc He) as (x & Hx & Hr).
  destruct (artifact_steps_good _ _ Hs Hst) as [_ Hmono].
  destruct (Hmono _ _ Hx) as [(y & Hy & Hev) _].
  eapply revoked_rejected; [exact Hy|]. by apply (re_revoked _ _ Hev).
Qed.

(** physical cleanup takes two sweeps and never comes early.  A sweep
    before the window has passed leaves an expired or deleted artifact and
    its bytes alone; the first sweep after the window marks it pending and
    still keeps its bytes; a second sweep a window later drops the bytes,
    reports the artifact and leaves it cleaned. *)
Theorem artifact_cleanup_two_sweeps s id x w t0 t1 t2 :
  inv s → validateCleanupWindow w = Ok tt → record_at s id = Some x → awaiting_cleanup x →
  (t0 - updatedAt x < w)%Z → (w <= t1 - updatedAt x)%Z → (w <= t2 - t1)%Z →
  let early := (sweepArtifacts t0 w s).2 in
  let s1 := (sweepArtifacts t1 w s).2 in
  let '(r, s2) := sweepArtifacts t2 w s1 in
  record_at early id = Some x ∧ blob_at early id = blob_at s id ∧
  blob_at s1 id = blob_at s id ∧
  (∃ ids, r = Ok ids ∧ id ∈ ids) ∧ blob_at s2 id = None ∧
  ∃ y, record_at s2 id = Some y ∧ status y = cleaned ∧ accessRevoked y = true.
Proof.
  intros Hs Hw Hx Hst Ht0 Ht1 Ht2 early s1.
  pose proof (sweep_one t0 w s id x (inv_records _ Hs) Hw Hx) as H0.
  pose proof (sweep_one t1 w s id x (inv_records _ Hs) Hw Hx) as H1.
  subst early s1. destruct (sweepArtifacts t0 w s) as [r0 e].
  destruct (sweepArtifacts t1 w s) as [r1 s1]. cbn.
  assert (record_action t0 w x = sweep_keep ∧ record_action t1 w x = sweep_pending)
    as [Ha0 Ha1].
  { unfold record_action, sweep_decision.
    rewrite (proj2 (Z.ltb_lt _ _) Ht0), (proj2 (Z.ltb_ge _ _) Ht1).
    by destruct Hst as [-> | ->]. }
  destruct H0 as (_ & Hr0 & Hb0 & _), H1 as (Hok1 & Hr1 & Hb1 & _).
  unfold sweep_record in Hr0, Hr1. rewrite Ha0 in *. rewrite Ha1 in *.
  rewrite decide_False in Hb0 by done. rewrite decide_False in Hb1 by done.
  pose proof (sweep_one t2 w s1 id _ Hok1 Hw Hr1) as H2.
  destruct (sweepArtifacts t2 w s1) as [r2 s2]. destruct H2 as (_ & Hr2 & Hb2 & ids & -> & Hin).
  set (x1 := x <| status := physical_cleanup_pending |> <| updatedAt := t1 |>) in *.
  assert (record_action t2 w x1 = sweep_clean) as Ha2.
  { unfold record_action, sweep_decision. cbn. by rewrite (proj2 (Z.ltb_ge _ _) Ht2). }
  unfold sweep_record in Hr2. rewrite Ha2 in *. rewrite decide_True in Hb2 by done.
  split_and!; try done; [exists ids; split; [done|by apply Hin]|by eexists].
Qed.

(** the bytes of a cancelled or failed artifact are never dropped by the
    maintenance operations: expiry sweeps, cleanup sweeps, cleanup marks and
    orphan scans, run in any number and at any time, leave the artifact and
    its stored bytes exactly as they were. *)
Theorem cancelled_artifact_keeps_bytes s s' id x b :
  inv s → abandoned s id x b → maintenance_steps s s' →
  abandoned s' id x b.
Proof.
  intros Hs Ha Hst. revert Hs Ha. induction Hst as [|s s1 s2 (c & Hc & <-) _ IH]; [done|].
  intros Hs Ha. apply IH; [apply (artifact_keeps_exec c s Hs)|]. by apply abandoned_maintenance.
Qed.

(** ** Witnesses *)

Module Witness.
Definition art (id : string) (expiry : Z) : ArtifactRef := {|
  refId := id; artifactKind := kind_source; ref_ownershipScope := "alice";
  contentHash := "sha256-00"; byteSize := 5; createdAt := 0; ref_expiresAt := expiry;
  retentionPolicy := transient; verified := true |}.

Definition hello : bytes := chars "hello".
Definition s1 := (registerVerifiedArtifact (art "art_1" 1000) hello 0 empty_lifecycle_store).2.
Definition s2 := (exec CmdOrphans s1).2.
Definition gone := (exec (CmdDelete "art_1" "alice" 10) s1).2.
Definition stopped := (exec (CmdCancel "art_1" 10) s1).2.

Lemma artifact_s1_inv : inv s1.
Proof. apply (keeps_register (art "art_1" 1000) hello 0 _ inv_empty_lifecycle). Qed.

Lemma reach s c : steps s (exec c s).2.
Proof. apply rtc_once. by exists c. Qed.

Lemma stopped_inv : inv stopped.
Proof. apply (artifact_steps_good s1 _ artifact_s1_inv), reach. Qed.

Lemma gone_inv : inv gone.
Proof. apply (artifact_steps_good s1 _ artifact_s1_inv), reach. Qed.

Lemma artifact_read_integrity_witness :
  readArtifact "art_1" "alice" 999 s2 = (Ok hello, s2) ∧ (999 < 1000)%Z.
Proof.
  split; [vm_compute; reflexivity|].
  apply (artifact_read_integrity empty_lifecycle_store s1 s2 s2 (art "art_1" 1000) hello 0
    "alice" 999 hello inv_empty_lifecycle).
  - vm_compute. reflexivity.
  - apply reach.
  - vm_compute. reflexivity.
Defined.

Lemma artifact_revocation_permanent_witness :
  rejected (readArtifact "art_1" "alice" 20) (exec (CmdFail "art_1" 15) gone).2.
Proof.
  apply (artifact_revocation_permanent s1 (CmdDelete "art_1" "alice" 10) gone _ "art_1" "alice" 20
    artifact_s1_inv eq_refl).
  - vm_compute. reflexivity.
  - apply reach.
Defined.

Definition deleted_record : MutableArtifactRecord :=
  revoked_as logically_deleted 10 {| ref := art "art_1" 1000; status := active;
    accessRevoked := false; rec_createdAt := 0; updatedAt := 0 |}.

Lemma artifact_cleanup_two_sweeps_witness :
  blob_at (sweepArtifacts 2000 500 (sweepArtifacts 600 500 gone).2).2 "art_1" = None.
Proof.
  pose proof (artifact_cleanup_two_sweeps gone "art_1" deleted_record 500 300 600 2000 gone_inv
    eq_refl ltac:(vm_compute; reflexivity) ltac:(right; reflexivity) ltac:(reflexivity)
    ltac:(vm_compute; discriminate) ltac:(vm_compute; discriminate)) as H.
  cbv zeta in H. destruct (sweepArtifacts 2000 500 _) as [r s]. cbn. apply H.
Defined.

Definition stopped_record : MutableArtifactRecord :=
  revoked_as cancelled 10 {| ref := art "art_1" 1000; status := active;
    accessRevoked := false; rec_createdAt := 0; updatedAt := 0 |}.

Lemma cancelled_artifact_keeps_bytes_witness :
  blob_at (exec (CmdSweep 99999999 500) stopped).2 "art_1" =
    Some {| blob_bytes := hello; blob_ownershipScope := "alice" |}.
Proof.
  apply (cancelled_artifact_keeps_bytes stopped _ "art_1" stopped_record
    {| blob_bytes := hello; blob_ownershipScope := "alice" |} stopped_inv).
  - split_and!; [left|..]; vm_compute; reflexivity.
  - apply rtc_once. by exists (CmdSweep 99999999 500).
Defined.
End Witness.
