(* ===== verification/UrlPolicy.v ===== *)
(** * The URL policy

    [src/core/url-policy.ts]: which destinations the server may contact.  The
    runtime's URL parser ([URL]), IP address parser ([node:net]) and DNS
    resolver are parameters; the block list, its subnets and the checks are
    the program's. *)

From S2P Require Import Prelude JsString.

(** ** The runtime's URLs, addresses and string order *)

Class UrlApi := {
  UrlObject : Type;
  parse_url : string → option UrlObject;
  parse_relative : string → UrlObject → option UrlObject;
  url_protocol : UrlObject → string;
  url_username : UrlObject → string;
  url_password : UrlObject → string;
  url_hostname : UrlObject → string;
  url_port : UrlObject → string;
  url_href : UrlObject → string;
  clear_hash : UrlObject → UrlObject;
  param_names : UrlObject → list string;
  delete_param : string → UrlObject → UrlObject;
  sort_params : UrlObject → UrlObject;
  url_toString : UrlObject → string;
  localeCompare : string → string → Z
}.

(** [parse_ip s] is the family of the address [s] names and its bits, [None]
    where [isIP(s)] is 0. *)
Inductive ip_address := IPv4 (bits : Z) | IPv6 (bits : Z).

Class IpApi := { parse_ip : string → option ip_address }.

Definition isIP `{IpApi} (s : string) : Z :=
  match parse_ip s with None => 0 | Some (IPv4 _) => 4 | Some (IPv6 _) => 6 end.

(** ** [BlockList]

    An IPv4 address and the IPv6 address that embeds it ([::ffff:0:0/96])
    match the same rules, so subnets and addresses are compared as 128-bit
    numbers. *)

Definition ipv4_mapped (bits : Z) : Z := (Z.lor (Z.shiftl 65535 32) bits)%Z.

Definition ip_bits (a : ip_address) : Z :=
  match a with IPv4 b => ipv4_mapped b | IPv6 b => b end.

Record Subnet := { net_address : ip_address; net_prefix : Z }.

(** The number of low bits a subnet leaves free. *)
Definition free_bits (n : Subnet) : Z :=
  match net_address n with IPv4 _ => 32 - net_prefix n | IPv6 _ => 128 - net_prefix n end.

Definition in_subnet (a : ip_address) (n : Subnet) : bool :=
  (Z.shiftr (ip_bits a) (free_bits n) =? Z.shiftr (ip_bits (net_address n)) (free_bits n))%Z.

(** The bits of [a.b.c.d], and of an IPv6 address given its first four
    16-bit groups and its last. *)
Definition quad (a b c d : Z) : Z :=
  (Z.shiftl a 24 + Z.shiftl b 16 + Z.shiftl c 8 + d)%Z.
Definition groups (a b c last : Z) : Z :=
  (Z.shiftl a 112 + Z.shiftl b 96 + Z.shiftl c 80 + last)%Z.

Definition v4 (a b c prefix : Z) : Subnet :=
  {| net_address := IPv4 (quad a b c 0); net_prefix := prefix |}.
Definition v6 (a b c last prefix : Z) : Subnet :=
  {| net_address := IPv6 (groups a b c last); net_prefix := prefix |}.

Definition blocked : list Subnet :=
  [v4 0 0 0 8; v4 10 0 0 8; v4 100 64 0 10; v4 127 0 0 8; v4 169 254 0 16; v4 172 16 0 12;
   v4 192 0 0 24; v4 192 0 2 24; v4 192 168 0 16; v4 198 18 0 15; v4 198 51 100 24;
   v4 203 0 113 24; v4 224 0 0 4; v4 240 0 0 4;
   v6 0 0 0 0 128; v6 0 0 0 1 128; v6 0x64 0xff9b 0 0 96; v6 0x64 0xff9b 1 0 48;
   v6 0x100 0 0 0 64; v6 0x2001 0 0 0 32; v6 0x2001 0xdb8 0 0 32; v6 0x2002 0 0 0 16;
   v6 0xfc00 0 0 0 7; v6 0xfe80 0 0 0 10; v6 0xff00 0 0 0 8].

Definition blocked_check (a : ip_address) : bool := existsb (in_subnet a) blocked.

Definition isPublicAddress `{IpApi} (address : string) : bool :=
  match parse_ip address with None => false | Some a => negb (blocked_check a) end.

(** ** Parsing a destination *)

Definition url_blocked (stage message hintCode hintText : string) : thrown :=
  gerror_hint URL_BLOCKED stage message false (hint hintCode hintText).

(** [url.port ? Number(url.port) : url.protocol === "https:" ? 443 : 80]; a
    URL's port is empty or a string of digits. *)
Definition destination_port `{UrlApi} (u : UrlObject) : number :=
  if falsy (url_port u)
  then int (if bool_decide (url_protocol u = "https:"%string) then 443 else 80)
  else Number_of_digits (chars (url_port u)).

Definition default_ports : list Z := [80; 443]%Z.

(** [Number.isInteger(port) && allowedPorts.has(port)] *)
Definition port_allowed (allowedPorts : list Z) (port : number) : bool :=
  isInteger port && bool_decide (to_Z port ∈ allowedPorts).

Definition parsePublicUrl `{UrlApi} (value : string) (allowedPorts : list Z)
    : result UrlObject :=
  match parse_url value with
  | None => Throw (gerror_hint INVALID_INPUT "url" "URL must be valid" false
      (hint "url.invalid"
         "Pass an absolute http:// or https:// URL, including scheme, host, and path."))
  | Some u =>
      throw_if (negb (bool_decide (url_protocol u = "http:"%string)) &&
                negb (bool_decide (url_protocol u = "https:"%string)))
        (url_blocked "url" "Only HTTP and HTTPS URLs are allowed" "url.blocked.invalid_protocol"
           ("Groundlane only fetches public HTTP and HTTPS. Convert the URL scheme (e.g. " +:+
            "ftp://, file://, ws://) or self-host the resource behind HTTPS."));;
      throw_if (negb (falsy (url_username u)) || negb (falsy (url_password u)))
        (url_blocked "url" "URLs containing credentials are not allowed"
           "url.blocked.credentials"
           ("Strip user:pass@ from the URL and pass credentials via the provider's normal auth " +:+
            "mechanism (API key, OAuth) instead."));;
      throw_if (negb (port_allowed allowedPorts (destination_port u)))
        (url_blocked "url" "Destination port is not allowed" "url.blocked.invalid_port"
           ("Allowed ports are 80 (http) and 443 (https). Use a service on a standard port, or " +:+
            "run an operator-side proxy that exposes it on 443."));;
      Ok u
  end.

(** ** Resolving a destination *)

Record ResolvedAddress := { address : string; family : Z }.

#[export] Instance ResolvedAddress_eq_dec : EqDecision ResolvedAddress.
Proof. solve_decision. Defined.

Record SafeDestination `{UrlApi} := {
  dest_url : UrlObject;
  dest_hostname : string;
  dest_port : number;
  dest_addresses : list ResolvedAddress
}.

(** [hostname.replace(/^\[|\]$/g, "")] *)
Definition strip_brackets (s : string) : string :=
  let l := match chars s with "["%char :: l => l | l => l end in
  unchars (match reverse l with "]"%char :: r => reverse r | _ => l end).

(** [s.endsWith(suffix)] *)
Definition endsWith (s suffix : string) : bool :=
  is_prefix (reverse (chars suffix)) (reverse (chars s)).

(** [signal.reason] once a signal is aborted. *)
Definition cancelled (reason : option thrown) (stage message : string) : result unit :=
  match reason with
  | None => Ok tt
  | Some (TGroundlane e) => Throw (TGroundlane e)
  | Some _ => Throw (gerror_hint CANCELLED stage message false
                       (hint (stage +:+ ".cancelled") message))
  end.

Section resolve.
Context `{UrlApi} `{IpApi} {W : Type}.

(** A lookup may change the world and fail; [signal] tells whether the
    caller's signal is aborted. *)
Record UrlPolicyOptions := {
  lookup : string → M W (list ResolvedAddress);
  allowedPorts : list Z;
  signal : W → option thrown
}.

(** What a call changes: the caller's [cache], if it passed one, and the
    world. *)
Record Resolver := {
  cache : option (gmap string (list ResolvedAddress));
  net : W
}.

Definition throwIfAborted (options : UrlPolicyOptions) (stage message : string)
    : M Resolver unit :=
  s ← get; lift (cancelled (signal options (net s)) stage message).

(** A call to the network, from a state with a cache. *)
Definition on_net {A} (m : M W A) : M Resolver A := λ s,
  let '(r, w) := m (net s) in (r, {| cache := cache s; net := w |}).

Definition remember (hostname : string) (addresses : list ResolvedAddress) : M Resolver unit :=
  update (λ s, {| cache := <[hostname := addresses]> <$> cache s; net := net s |}).

Definition unresolved : thrown :=
  gerror_hint UPSTREAM_ERROR "dns" "Destination hostname could not be resolved" true
    (hint "dns.unresolved"
       ("DNS lookup returned no answers. Verify the hostname, ensure the deployment has egress " +:+
        "DNS, and check for typos or stale cache.")).

(** The addresses of a host: those cached, the literal itself, or a
    lookup's. *)
Definition addresses_of (options : UrlPolicyOptions) (hostname : string)
    : M Resolver (list ResolvedAddress) :=
  s ← get;
  match cache s ≫= (λ c, c !! hostname) with
  | Some found => mret found
  | None =>
      addresses ←
        (if (isIP hostname =? 0)%Z then
           outcome ← attempt (on_net (lookup options hostname));
           match outcome with
           | inr _ => throw unresolved
           | inl addresses =>
               throwIfAborted options "url" "URL validation was cancelled";; mret addresses
           end
         else mret [{| address := hostname; family := isIP hostname |}]);
      remember hostname addresses;;
      mret addresses
  end.

Definition resolvePublicUrl (value : string) (options : UrlPolicyOptions)
    : M Resolver SafeDestination :=
  throwIfAborted options "url" "URL validation was cancelled";;
  u ← lift (parsePublicUrl value (allowedPorts options));
  let hostname := toLowerCase (strip_brackets (url_hostname u)) in
  lift (throw_if (bool_decide (hostname = "localhost"%string) || endsWith hostname ".localhost")
    (url_blocked "dns" "Local destinations are not allowed" "dns.blocked.localhost"
       ("localhost and *.localhost resolve to the local machine and are blocked to prevent " +:+
        "SSRF. Use a public hostname, an operator-side proxy, or run Groundlane locally with " +:+
        "overrides.")));;
  addresses ← addresses_of options hostname;
  lift (throw_if (bool_decide (addresses = []) ||
                  existsb (λ a, negb (isPublicAddress (address a))) addresses)
    (url_blocked "dns" "Private or reserved destinations are not allowed"
       "dns.blocked.private_address"
       ("Every resolved address must be a public IP. The hostname may have public CNAMEs that " +:+
        "resolve to private/link-local/cloud-metadata ranges; block it or expose it via a " +:+
        "public proxy.")));;
  mret {| dest_url := u; dest_hostname := hostname; dest_port := destination_port u;
          dest_addresses := addresses |}.

Definition resolveRedirect (base : UrlObject) (location : string) : result string :=
  match parse_relative location base with
  | Some u => Ok (url_href u)
  | None => Throw (gerror_hint UPSTREAM_ERROR "redirect" "Upstream returned an invalid redirect"
      true (hint "redirect.invalid_location"
        ("Upstream sent a Location header that did not resolve relative to the request URL. " +:+
         "Try the page again or use the provider-backed content APIs which normalise " +:+
         "redirects.")))
  end.
End resolve.
Arguments UrlPolicyOptions : clear implicits.
Arguments Resolver : clear implicits.

(** * Correctness of the URL policy

    The block list is exactly the union of the reserved ranges, written
    here as intervals, and a destination is only ever returned when every
    address it resolves to lies outside of them. *)

(** ** Reserved addresses *)

(** First and last address of the reserved IPv4 blocks. *)
Definition reserved_v4 : list (Z * Z) :=
  [(quad 0 0 0 0, quad 0 255 255 255);            (* this network *)
   (quad 10 0 0 0, quad 10 255 255 255);          (* private *)
   (quad 100 64 0 0, quad 100 127 255 255);       (* carrier-grade NAT *)
   (quad 127 0 0 0, quad 127 255 255 255);        (* loopback *)
   (quad 169 254 0 0, quad 169 254 255 255);      (* link local, cloud metadata *)
   (quad 172 16 0 0, quad 172 31 255 255);        (* private *)
   (quad 192 0 0 0, quad 192 0 0 255);            (* protocol assignments *)
   (quad 192 0 2 0, quad 192 0 2 255);            (* documentation *)
   (quad 192 168 0 0, quad 192 168 255 255);      (* private *)
   (quad 198 18 0 0, quad 198 19 255 255);        (* benchmarks *)
   (quad 198 51 100 0, quad 198 51 100 255);      (* documentation *)
   (quad 203 0 113 0, quad 203 0 113 255);        (* documentation *)
   (quad 224 0 0 0, quad 239 255 255 255);        (* multicast *)
   (quad 240 0 0 0, quad 255 255 255 255)]%Z.     (* reserved, broadcast *)

(** A 128-bit number from its two halves. *)
Definition halves (hi lo : Z) : Z := (hi * 2 ^ 64 + lo)%Z.
Definition ones (n : Z) : Z := (2 ^ n - 1)%Z.

Definition reserved_v6 : list (Z * Z) :=
  [(0, 0);                                                            (* unspecified *)
   (1, 1);                                                            (* loopback *)
   (halves 0x64ff9b00000000 0, halves 0x64ff9b00000000 (ones 32));     (* NAT64 *)
   (halves 0x64ff9b00010000 0, halves 0x64ff9b0001ffff (ones 64));
   (halves 0x100000000000000 0, halves 0x100000000000000 (ones 64));   (* discard *)
   (halves 0x2001000000000000 0, halves 0x20010000ffffffff (ones 64)); (* Teredo *)
   (halves 0x20010db800000000 0, halves 0x20010db8ffffffff (ones 64)); (* documentation *)
   (halves 0x2002000000000000 0, halves 0x2002ffffffffffff (ones 64)); (* 6to4 *)
   (halves 0xfc00000000000000 0, halves 0xfdffffffffffffff (ones 64)); (* unique local *)
   (halves 0xfe80000000000000 0, halves 0xfebfffffffffffff (ones 64)); (* link local *)
   (halves 0xff00000000000000 0, halves 0xffffffffffffffff (ones 64))  (* multicast *)]%Z.

Definition in_ranges (b : Z) (l : list (Z * Z)) : Prop :=
  Exists (λ r, (r.1 <= b <= r.2)%Z) l.

(** The IPv4 address an address is or embeds. *)
Definition embedded_v4 (a : ip_address) : option Z :=
  match a with
  | IPv4 b => Some b
  | IPv6 b => if decide (ipv4_mapped 0 <= b <= ipv4_mapped (ones 32))%Z
              then Some (b - ipv4_mapped 0)%Z else None
  end.

Definition reserved (a : ip_address) : Prop :=
  match embedded_v4 a with
  | Some b => in_ranges b reserved_v4
  | None => in_ranges (ip_bits a) reserved_v6
  end.

Definition ip_wf (a : ip_address) : Prop :=
  match a with IPv4 b => (0 <= b < 2 ^ 32)%Z | IPv6 b => (0 <= b < 2 ^ 128)%Z end.

Lemma shiftr_eq_iff x y k :
  (0 <= k)%Z → Z.shiftr x k = Z.shiftr y k ↔ (y / 2 ^ k * 2 ^ k <= x < (y / 2 ^ k + 1) * 2 ^ k)%Z.
Proof.
  intros Hk. rewrite !Z.shiftr_div_pow2 by done.
  pose proof (Z.pow_pos_nonneg 2 k ltac:(lia) Hk) as Hp.
  split; intros Hx.
  - rewrite <- Hx. pose proof (Z.div_mod x (2 ^ k) ltac:(lia)).
    pose proof (Z.mod_pos_bound x (2 ^ k) Hp). nia.
  - symmetry. apply (Z.div_unique_pos _ _ _ (x - y / 2 ^ k * 2 ^ k)); lia.
Qed.

(** The 128-bit intervals of the block list, computed from its subnets. *)
Definition subnet_range (n : Subnet) : Z * Z :=
  let size := (2 ^ free_bits n)%Z in
  let base := (ip_bits (net_address n) / size)%Z in
  (base * size, (base + 1) * size - 1)%Z.

Lemma blocked_ranges a :
  blocked_check a = true ↔ in_ranges (ip_bits a) (subnet_range <$> blocked).
Proof.
  unfold blocked_check, in_ranges. rewrite existsb_exists, Exists_exists.
  assert (∀ n, n ∈ blocked → (0 <= free_bits n)%Z) as Hfree.
  { assert (Forall (λ n, (0 <= free_bits n)%Z) blocked) as Hall
      by (repeat constructor; vm_compute; discriminate).
    by apply Forall_forall. }
  split.
  - intros (n & Hn%list_elem_of_In & Hin). unfold in_subnet in Hin. reflect.
    apply shiftr_eq_iff in Hin; [|by apply Hfree].
    exists (subnet_range n). split; [by apply list_elem_of_fmap_2|]. cbn. lia.
  - intros (r & (n & -> & Hn)%list_elem_of_fmap & Hr). exists n.
    split; [by apply list_elem_of_In|]. apply Z.eqb_eq, shiftr_eq_iff; [by apply Hfree|].
    cbn in Hr. lia.
Qed.

(** They are the reserved ranges, those of IPv4 where it is embedded. *)
Definition shifted (l : list (Z * Z)) : list (Z * Z) :=
  (λ r, (281470681743360 + r.1, 281470681743360 + r.2)%Z) <$> l.

Lemma blocked_intervals : subnet_range <$> blocked = shifted reserved_v4 ++ reserved_v6.
Proof. vm_compute. reflexivity. Qed.

Lemma in_ranges_shifted b l : in_ranges (281470681743360 + b) (shifted l) ↔ in_ranges b l.
Proof.
  unfold in_ranges. induction l as [|r l IH]; cbn; [by rewrite !Exists_nil|].
  rewrite !Exists_cons, IH. cbn. intuition lia.
Qed.

(** No reserved range straddles the embedded IPv4 space. *)
Lemma reserved_v6_outside b :
  (281470681743360 <= b <= 281474976710655)%Z → ¬ in_ranges b reserved_v6.
Proof.
  intros Hb. let l := eval vm_compute in reserved_v6 in change reserved_v6 with l.
  unfold in_ranges. rewrite !Exists_cons, Exists_nil. cbn [fst snd].
  intros Hin. repeat (destruct Hin as [Hin|Hin]; [lia|]). done.
Qed.

Lemma shifted_v4_inside b :
  in_ranges b (shifted reserved_v4) → (281470681743360 <= b <= 281474976710655)%Z.
Proof.
  let l := eval vm_compute in (shifted reserved_v4) in change (shifted reserved_v4) with l.
  unfold in_ranges. rewrite !Exists_cons, Exists_nil. cbn [fst snd].
  intros Hin. repeat (destruct Hin as [Hin|Hin]; [lia|]). done.
Qed.

Lemma ipv4_mapped_add b : (0 <= b < 2 ^ 32)%Z → ipv4_mapped b = (281470681743360 + b)%Z.
Proof.
  intros Hb. unfold ipv4_mapped. change (Z.shiftl 65535 32) with 281470681743360%Z.
  assert (Z.land 281470681743360 b = 0)%Z as Hand; [|by rewrite <- Z.lxor_lor, Z.add_nocarry_lxor].
  apply Z.bits_inj'. intros i Hi.
  rewrite Z.land_spec, Z.bits_0. destruct (Z.lt_ge_cases i 32) as [Hlt|Hge].
  - change 281470681743360%Z with (65535 * 2 ^ 32)%Z. rewrite Z.mul_pow2_bits_low by done. done.
  - rewrite andb_comm. destruct (decide (b = 0)%Z) as [->|]; [by rewrite Z.bits_0|].
    rewrite Z.bits_above_log2; [done|lia|].
    apply Z.log2_lt_pow2; [lia|]. eapply Z.lt_le_trans; [apply Hb|].
    apply Z.pow_le_mono_r; lia.
Qed.

Lemma blocked_iff_reserved a : ip_wf a → blocked_check a = true ↔ reserved a.
Proof.
  intros Hwf. rewrite blocked_ranges, blocked_intervals. unfold in_ranges at 1.
  rewrite Exists_app. fold (in_ranges (ip_bits a) (shifted reserved_v4)).
  fold (in_ranges (ip_bits a) reserved_v6). unfold reserved, embedded_v4.
  destruct a as [b|b]; cbn [ip_bits ip_wf] in *.
  - rewrite ipv4_mapped_add, in_ranges_shifted by done.
    pose proof (reserved_v6_outside (281470681743360 + b) ltac:(lia)). tauto.
  - change (ipv4_mapped 0) with 281470681743360%Z.
    change (ipv4_mapped (ones 32)) with 281474976710655%Z. case_decide as Hb.
    + pose proof (reserved_v6_outside b Hb).
      rewrite <- (in_ranges_shifted (b - 281470681743360)).
      replace (281470681743360 + (b - 281470681743360))%Z with b by lia. tauto.
    + pose proof (shifted_v4_inside b). tauto.
Qed.

(** ** Destinations *)

Section properties.
Context `{UrlApi} `{IpApi} {W : Type}.
Implicit Types (options : UrlPolicyOptions W) (s : Resolver W).

(** What node's parser promises: the bits fit the family. *)
Definition ip_parser_ok : Prop := ∀ a ip, parse_ip a = Some ip → ip_wf ip.

Lemma parsePublicUrl_Ok value ports u :
  parsePublicUrl value ports = Ok u →
  parse_url value = Some u ∧
  (url_protocol u = "http:"%string ∨ url_protocol u = "https:"%string) ∧
  url_username u = ""%string ∧ url_password u = ""%string ∧
  isInteger (destination_port u) = true ∧ to_Z (destination_port u) ∈ ports.
Proof.
  unfold parsePublicUrl. destruct (parse_url value) as [u'|]; [|done].
  intros (? & Hp%throw_if_Ok & Hrest)%result_bind_Ok.
  apply result_bind_Ok in Hrest as (? & Hc%throw_if_Ok & Hrest).
  apply result_bind_Ok in Hrest as (? & Hport%throw_if_Ok & [= <-]).
  unfold port_allowed in Hport. reflect.
  unfold falsy in *. reflect. split_and!; try done.
  apply andb_false_iff in Hp as [Hp|Hp]; reflect; auto.
Qed.

(** C3: no destination is returned that resolves to a private or reserved
    address.  Whatever the DNS resolver answers, whatever the cache holds
    and whatever the URL parser makes of the text, a destination that is
    returned has an http or https URL without credentials, an allowed port,
    a host that is not localhost nor under it, and at least one address; and
    every one of its addresses is an IP address outside of all the reserved
    ranges, also when it embeds an IPv4 address in an IPv6 one. *)
Theorem resolved_destination_is_public value options s d s' :
  ip_parser_ok → resolvePublicUrl value options s = (Ok d, s') →
  parse_url value = Some (dest_url d) ∧
  (url_protocol (dest_url d) = "http:"%string ∨ url_protocol (dest_url d) = "https:"%string) ∧
  url_username (dest_url d) = ""%string ∧ url_password (dest_url d) = ""%string ∧
  to_Z (dest_port d) ∈ allowedPorts options ∧
  dest_hostname d ≠ "localhost"%string ∧ endsWith (dest_hostname d) ".localhost" = false ∧
  dest_addresses d ≠ [] ∧
  ∀ a, a ∈ dest_addresses d → ∃ ip, parse_ip (address a) = Some ip ∧ ¬ reserved ip.
Proof.
  intros Hip Hrun. unfold resolvePublicUrl in Hrun.
  apply M_bind_Ok in Hrun as (? & s1 & _ & Hrun).
  rewrite lift_bind in Hrun. destruct (parsePublicUrl _ _) as [u|] eqn:Hu; [|done].
  apply parsePublicUrl_Ok in Hu as (Hparse & Hproto & Huser & Hpass & _ & Hport).
  rewrite lift_bind in Hrun. destruct (throw_if _ _) as [|] eqn:Hlocal in Hrun; [|done].
  apply throw_if_Ok in Hlocal. reflect.
  apply M_bind_Ok in Hrun as (addrs & s2 & _ & Hrun).
  rewrite lift_bind in Hrun. destruct (throw_if _ _) as [|] eqn:Hpub in Hrun; [|done].
  apply throw_if_Ok in Hpub. reflect. injection Hrun as <- <-. cbn.
  split_and!; try done. intros addr Ha.
  match goal with H : existsb _ _ = false |- _ => rename H into Hex end.
  assert (isPublicAddress (address addr) = true) as Hpa.
  { destruct (isPublicAddress (address addr)) eqn:Hpa; [done|]. exfalso.
    apply not_true_iff_false in Hex. apply Hex, existsb_exists.
    exists addr. split; [by apply list_elem_of_In|]. by rewrite Hpa. }
  unfold isPublicAddress in Hpa. destruct (parse_ip (address addr)) as [ip|] eqn:Hpi; [|done].
  exists ip. split; [done|]. reflect. rewrite <- blocked_iff_reserved by (by eapply Hip).
  by rewrite Hpa.
Qed.
End properties.

(** ** Witness: a resolver that answers one address of each kind *)

Module Witness.
#[local] Instance demo_url : UrlApi := {|
  UrlObject := string;
  parse_url := λ s, if falsy s then None else Some s;
  parse_relative := λ s _, Some s;
  url_protocol := λ _, "https:"%string;
  url_username := λ _, ""%string;
  url_password := λ _, ""%string;
  url_hostname := λ s, s;
  url_port := λ _, ""%string;
  url_href := λ s, s;
  clear_hash := λ s, s;
  param_names := λ _, [];
  delete_param := λ _ s, s;
  sort_params := λ s, s;
  url_toString := λ s, s;
  localeCompare := λ _ _, 0%Z
|}.

#[local] Instance demo_ip : IpApi := {|
  parse_ip := λ s, if decide (s = "93.184.216.34"%string) then Some (IPv4 (quad 93 184 216 34))
                   else if decide (s = "169.254.169.254"%string)
                   then Some (IPv4 (quad 169 254 169 254)) else None
|}.

(** [metadata.test] resolves to the cloud metadata address. *)
Definition dns (host : string) : M nat (list ResolvedAddress) := λ n,
  (Ok [{| address := if decide (host = "metadata.test"%string) then "169.254.169.254"
                     else "93.184.216.34"; family := 4 |}], S n).

Definition options : UrlPolicyOptions nat :=
  {| lookup := dns; allowedPorts := default_ports; signal := λ _, None |}.

Example metadata_is_blocked :
  ∃ e, resolvePublicUrl "metadata.test" options {| cache := Some ∅; net := 0 |} =
       (Throw e, {| cache := Some {["metadata.test"%string :=
          [{| address := "169.254.169.254"; family := 4 |}]]}; net := 1 |}).
Proof. eexists. vm_compute. reflexivity. Qed.

Lemma resolved_destination_is_public_witness : ∃ d s',
  resolvePublicUrl "example.test" options {| cache := Some ∅; net := 0 |} = (Ok d, s') ∧
  to_Z (dest_port d) ∈ default_ports ∧
  ∃ ip, parse_ip "93.184.216.34" = Some ip ∧ ¬ reserved ip.
Proof.
  eexists _, _. split; [vm_compute; reflexivity|].
  edestruct (resolved_destination_is_public "example.test" options
    {| cache := Some ∅; net := 0 |}) as (_ & _ & _ & _ & Hport & _ & _ & _ & Haddr).
  - intros a ip. cbn. repeat case_decide; intros [= <-]; vm_compute; by split.
  - vm_compute. reflexivity.
  - split; [exact Hport|].
    apply (Haddr {| address := "93.184.216.34"; family := 4 |}). vm_compute. left.
Defined.
End Witness.
