(* ===== verification/SearchBudget.v ===== *)
(** * Search budgets

    [src/core/search-budget.ts]: the tracker interface, the monthly, daily
    and per-minute trackers, and their composition.  Limits are numbers in
    the configuration and integers once a constructor has accepted them.
    [now] is the clock in milliseconds, read once per call: the calls are
    synchronous. *)

From S2P Require Import Prelude JsString.

(** ** UTC calendar, what [Date] computes *)

Definition DAY_MS : Z := 86400000.

(** The day number, and the civil year and month (0 to 11) of a day. *)
Definition day_of (ms : Z) : Z := (ms / DAY_MS)%Z.

Definition civil_of_day (day : Z) : Z * Z :=
  let z := (day + 719468)%Z in
  let era := (z / 146097)%Z in
  let doe := (z - era * 146097)%Z in
  let yoe := ((doe - doe / 1460 + doe / 36524 - doe / 146096) / 365)%Z in
  let doy := (doe - (365 * yoe + yoe / 4 - yoe / 100))%Z in
  let mp := ((5 * doy + 2) / 153)%Z in
  let month := (if mp <? 10 then mp + 2 else mp - 10)%Z in
  ((yoe + era * 400 + if month <=? 1 then 1 else 0)%Z, month).

(** The day number of the first of a month (0 to 12) of a year. *)
Definition first_of_month (year month : Z) : Z :=
  let year := (year + month / 12)%Z in
  let month := (month mod 12)%Z in
  let y := (if month <=? 1 then year - 1 else year)%Z in
  let era := (y / 400)%Z in
  let yoe := (y - era * 400)%Z in
  let mp := (if 1 <? month then month - 2 else month + 10)%Z in
  let doy := ((153 * mp + 2) / 5)%Z in
  let doe := (yoe * 365 + yoe / 4 - yoe / 100 + doy)%Z in
  (era * 146097 + doe - 719468)%Z.

(** ** The tracker interface *)

Inductive SearchBudgetPeriod := monthly | daily | minute.

Record SearchBudgetSnapshot := {
  period : SearchBudgetPeriod;
  provider : string;
  limited : bool;
  snap_limit : option Z;
  used : Z;
  snap_remaining : option Z;
  exhausted : bool;
  resetAt : option date_string
}.

(** A tracker of type [T]: every call may refresh its state. *)
Class SearchBudgetTracker (T : Type) := {
  tryConsume : string → Z → T → bool * T;
  remaining : string → Z → T → option Z * T;
  snapshots : list string → Z → T → list SearchBudgetSnapshot * T
}.

(** There is something left to consume. *)
Definition available (r : option Z) : bool :=
  match r with None => true | Some n => negb (n <=? 0)%Z end.

(** What the composition relies on: [remaining] tells what a [tryConsume] at
    the same time will answer, and looking changes no later answer. *)
Class SearchBudgetLaws (T : Type) `{SearchBudgetTracker T} := {
  consume_iff_available p now t :
    (tryConsume p now t).1 = available (remaining p now t).1;
  consume_after_look p now t :
    tryConsume p now (remaining p now t).2 = tryConsume p now t
}.

(** [consumeProviderAttemptBudget]: [None] when an attempt was granted. *)
Definition consumeProviderAttemptBudget {T} `{SearchBudgetTracker T} (budget : option T)
    (p : string) (now : Z) (source : string) (throwWhenExhausted : bool)
    : result (option string) * option T :=
  match budget with
  | None => (Ok None, None)
  | Some t =>
      let '(granted, t') := tryConsume p now t in
      if granted then (Ok None, Some t')
      else if throwWhenExhausted then
        (Throw (gerror_hint PROVIDER_UNAVAILABLE source
                  (p +:+ " request budget is exhausted") true
                  (hint "search_budget.exhausted"
                     ("The local attempt budget for this provider is exhausted. Wait for " +:+
                      "reset, raise the operator-configured limit, or use a different " +:+
                      "provider."))), Some t')
      else (Ok (Some (p +:+ " budget exhausted")), Some t')
  end.

(** [validateBudgets]: every configured value is a non-negative integer. *)
Definition validateBudgets (budgets : gmap string number) (label : string) : result unit :=
  throw_if (negb (forallb (λ kv, isInteger kv.2 && negb (num_ltb kv.2 (int 0)))
                    (map_to_list budgets)))
    (gerror_hint INVALID_INPUT "search-budget" (label +:+ " must be non-negative integers") false
       (hint "search_budget.invalid_config"
          ("Pass integer >= 0 for daily and monthly limits. The config validator runs once " +:+
           "at startup; remove the offending value and restart."))).

(** ** Monthly and daily budgets

    The two classes are the same but for the key of a period and the time of
    its end. *)
Section period_budget.
Context {K : Type} `{EqDecision K} (kind : SearchBudgetPeriod)
  (key_of : Z → K) (nextResetAt : Z → date_string).

Record PeriodBudget := {
  budgets : gmap string Z;
  current : K;
  attempts : gmap string Z
}.

Definition new_PeriodBudget (label : string) (config : gmap string number) (now : Z)
    : result PeriodBudget :=
  validateBudgets config label;;
  Ok {| budgets := to_Z <$> config; current := key_of now; attempts := ∅ |}.

Definition resetIfNeeded (now : Z) (t : PeriodBudget) : PeriodBudget :=
  if decide (key_of now = current t) then t
  else {| budgets := budgets t; current := key_of now; attempts := ∅ |}.

Definition used_by (p : string) (t : PeriodBudget) : Z := default 0%Z (attempts t !! p).

Definition period_tryConsume (p : string) (now : Z) (t : PeriodBudget)
    : bool * PeriodBudget :=
  let t := resetIfNeeded now t in
  match budgets t !! p with
  | None => (true, t)
  | Some budget =>
      if (budget <=? used_by p t)%Z then (false, t)
      else (true, {| budgets := budgets t; current := current t;
                     attempts := <[p := (used_by p t + 1)%Z]> (attempts t) |})
  end.

Definition period_remaining (p : string) (now : Z) (t : PeriodBudget)
    : option Z * PeriodBudget :=
  let t := resetIfNeeded now t in
  ((λ budget, Z.max 0 (budget - used_by p t)) <$> budgets t !! p, t).

Definition period_snapshot (now : Z) (t : PeriodBudget) (p : string) : SearchBudgetSnapshot :=
  let u := used_by p t in
  match budgets t !! p with
  | None => {| period := kind; provider := p; limited := false; snap_limit := None; used := u;
               snap_remaining := None; exhausted := false; resetAt := Some (nextResetAt now) |}
  | Some limit =>
      {| period := kind; provider := p; limited := true; snap_limit := Some limit; used := u;
         snap_remaining := Some (Z.max 0 (limit - u)); exhausted := (limit <=? u)%Z;
         resetAt := Some (nextResetAt now) |}
  end.

Definition period_snapshots (ps : list string) (now : Z) (t : PeriodBudget)
    : list SearchBudgetSnapshot * PeriodBudget :=
  let t := resetIfNeeded now t in (period_snapshot now t <$> ps, t).

Definition period_tracker : SearchBudgetTracker PeriodBudget :=
  {| tryConsume := period_tryConsume; remaining := period_remaining;
     snapshots := period_snapshots |}.

Lemma resetIfNeeded_idemp now t : resetIfNeeded now (resetIfNeeded now t) = resetIfNeeded now t.
Proof.
  unfold resetIfNeeded at 1. rewrite decide_True; [done|].
  unfold resetIfNeeded. by case_decide.
Qed.

Lemma period_laws : @SearchBudgetLaws PeriodBudget period_tracker.
Proof.
  split; cbn; intros p now t.
  - unfold period_tryConsume, period_remaining. cbn.
    destruct (budgets _ !! p) as [b|]; cbn; [|done].
    destruct (b <=? _)%Z eqn:Hb; cbn; reflect;
      [rewrite (proj2 (Z.leb_le _ _)) by lia|rewrite (proj2 (Z.leb_gt _ _)) by lia]; done.
  - unfold period_tryConsume, period_remaining. cbn. by rewrite resetIfNeeded_idemp.
Qed.
End period_budget.
Arguments PeriodBudget : clear implicits.

(** [currentMonth] and the monthly [nextResetAt] *)
Definition currentMonth (now : Z) : Z * Z := civil_of_day (day_of now).
Definition monthly_nextResetAt (now : Z) : date_string :=
  let '(y, m) := currentMonth now in IsoAt (first_of_month y (m + 1) * DAY_MS).

(** [currentDay] is the first ten characters of the ISO string, which name
    the day up to the year 9999; the daily [nextResetAt]. *)
Definition currentDay (now : Z) : Z := day_of now.
Definition daily_nextResetAt (now : Z) : date_string := IsoAt ((day_of now + 1) * DAY_MS).

Definition MonthlySearchBudget : Type := PeriodBudget (Z * Z).
Definition DailySearchBudget : Type := PeriodBudget Z.

Definition new_MonthlySearchBudget : gmap string number → Z → result MonthlySearchBudget :=
  new_PeriodBudget currentMonth "Monthly search budgets".
Definition new_DailySearchBudget : gmap string number → Z → result DailySearchBudget :=
  new_PeriodBudget currentDay "Daily search budgets".

#[export] Instance monthly_tracker : SearchBudgetTracker MonthlySearchBudget :=
  period_tracker monthly currentMonth monthly_nextResetAt.
#[export] Instance daily_tracker : SearchBudgetTracker DailySearchBudget :=
  period_tracker daily currentDay daily_nextResetAt.
#[export] Instance monthly_laws : SearchBudgetLaws MonthlySearchBudget := period_laws _ _ _.
#[export] Instance daily_laws : SearchBudgetLaws DailySearchBudget := period_laws _ _ _.

(** ** Per-minute limits: a sliding window *)

Record MinuteRateLimiter := {
  limits : gmap string Z;
  timestamps : gmap string (list Z)
}.

Definition new_MinuteRateLimiter (config : gmap string number) : result MinuteRateLimiter :=
  throw_if (negb (forallb (λ kv, isInteger kv.2 && negb (num_ltb kv.2 (int 1)))
                    (map_to_list config)))
    (gerror_hint INVALID_INPUT "search-budget" "Per-minute rate limits must be positive integers"
       false (hint "search_budget.invalid_rpm"
         ("Per-minute rate limits must be integer >= 1. Pass integer values for jina and any " +:+
          "other provider in the RPM config.")));;
  Ok {| limits := to_Z <$> config; timestamps := ∅ |}.

(** The timestamps a prune keeps. *)
Definition recent (now : Z) (times : list Z) : list Z :=
  filter (λ t, (now - 60000 < t)%Z) times.

Definition times_of (p : string) (t : MinuteRateLimiter) : list Z :=
  default [] (timestamps t !! p).

Definition prune (p : string) (now : Z) (t : MinuteRateLimiter) : MinuteRateLimiter :=
  match timestamps t !! p with
  | None => t
  | Some times =>
      {| limits := limits t;
         timestamps := match recent now times with
                       | [] => delete p (timestamps t)
                       | pruned => <[p := pruned]> (timestamps t)
                       end |}
  end.

Definition minute_tryConsume (p : string) (now : Z) (t : MinuteRateLimiter)
    : bool * MinuteRateLimiter :=
  match limits t !! p with
  | None => (true, t)
  | Some limit =>
      let t := prune p now t in
      let times := times_of p t in
      if (limit <=? Z.of_nat (length times))%Z then (false, t)
      else (true, {| limits := limits t; timestamps := <[p := times ++ [now]]> (timestamps t) |})
  end.

Definition minute_remaining (p : string) (now : Z) (t : MinuteRateLimiter)
    : option Z * MinuteRateLimiter :=
  match limits t !! p with
  | None => (None, t)
  | Some limit =>
      let t := prune p now t in
      (Some (Z.max 0 (limit - Z.of_nat (length (times_of p t)))), t)
  end.

Definition minute_snapshot (now : Z) (t : MinuteRateLimiter) (p : string)
    : SearchBudgetSnapshot * MinuteRateLimiter :=
  match limits t !! p with
  | None => ({| period := minute; provider := p; limited := false; snap_limit := None; used := 0;
                snap_remaining := None; exhausted := false; resetAt := None |}, t)
  | Some limit =>
      let t := prune p now t in
      let u := Z.of_nat (length (times_of p t)) in
      ({| period := minute; provider := p; limited := true; snap_limit := Some limit; used := u;
          snap_remaining := Some (Z.max 0 (limit - u)); exhausted := (limit <=? u)%Z;
          resetAt := None |}, t)
  end.

Fixpoint minute_snapshots (ps : list string) (now : Z) (t : MinuteRateLimiter)
    : list SearchBudgetSnapshot * MinuteRateLimiter :=
  match ps with
  | [] => ([], t)
  | p :: ps' =>
      let '(snap, t) := minute_snapshot now t p in
      let '(snaps, t) := minute_snapshots ps' now t in (snap :: snaps, t)
  end.

#[export] Instance minute_tracker : SearchBudgetTracker MinuteRateLimiter :=
  {| tryConsume := minute_tryConsume; remaining := minute_remaining;
     snapshots := minute_snapshots |}.

Lemma limits_prune p now t : limits (prune p now t) = limits t.
Proof. unfold prune. by case_match. Qed.

Lemma times_of_prune p now t : times_of p (prune p now t) = recent now (times_of p t).
Proof.
  unfold prune, times_of. destruct (timestamps t !! p) as [times|] eqn:Ht; cbn.
  - destruct (recent now times) eqn:Hr; [by rewrite lookup_delete_eq|by rewrite lookup_insert_eq].
  - by rewrite Ht.
Qed.

Lemma recent_idemp now times : recent now (recent now times) = recent now times.
Proof. unfold recent. rewrite list_filter_filter. apply list_filter_iff. intros. tauto. Qed.

Lemma prune_idemp p now t : prune p now (prune p now t) = prune p now t.
Proof.
  pose proof (times_of_prune p now t) as Ht. pose proof (limits_prune p now t) as Hl.
  unfold prune at 1. destruct (timestamps (prune p now t) !! p) as [times|] eqn:Hlk; [|done].
  unfold times_of at 1 in Ht. rewrite Hlk in Ht. cbn in Ht. rewrite Ht, recent_idemp, <- Ht.
  assert (times ≠ []) as Hne.
  { unfold prune in Hlk. destruct (timestamps t !! p) as [ts|] eqn:Hts; [|congruence].
    cbn in Hlk. destruct (recent now ts) eqn:Hr; cbn in Hlk.
    - by rewrite lookup_delete_eq in Hlk.
    - rewrite lookup_insert_eq in Hlk. by injection Hlk as <-. }
  destruct (prune p now t) as [li ts]; cbn in *. destruct times; [done|].
  by rewrite insert_id.
Qed.

#[export] Instance minute_laws : SearchBudgetLaws MinuteRateLimiter.
Proof.
  split; cbn; intros p now t; unfold minute_tryConsume, minute_remaining;
    destruct (limits t !! p) as [l|] eqn:Hl; cbn; try done.
  - destruct (l <=? _)%Z eqn:Hb; cbn; reflect;
      [rewrite (proj2 (Z.leb_le _ _)) by lia|rewrite (proj2 (Z.leb_gt _ _)) by lia]; done.
  - by rewrite limits_prune, Hl, prune_idemp, ?limits_prune.
  - by rewrite Hl.
Qed.

(** ** Composition *)

(** The two loops over the trackers: look at each until one is exhausted,
    then consume from all, ignoring their answers. *)
Section composite.
Context {T : Type} `{SearchBudgetTracker T}.

Definition CompositeSearchBudget : Type := list T.

Fixpoint look_all (p : string) (now : Z) (ts : CompositeSearchBudget)
    : bool * CompositeSearchBudget :=
  match ts with
  | [] => (true, [])
  | t :: rest =>
      let '(r, t) := remaining p now t in
      if available r then let '(ok, rest) := look_all p now rest in (ok, t :: rest)
      else (false, t :: rest)
  end.

Definition composite_tryConsume (p : string) (now : Z) (ts : CompositeSearchBudget)
    : bool * CompositeSearchBudget :=
  let '(ok, ts) := look_all p now ts in
  if ok then (true, (λ t, (tryConsume p now t).2) <$> ts) else (false, ts).

Definition min_option (a b : option Z) : option Z :=
  match a, b with
  | None, _ => b
  | _, None => a
  | Some x, Some y => if (y <? x)%Z then Some y else Some x
  end.

Fixpoint composite_remaining_from (acc : option Z) (p : string) (now : Z)
    (ts : CompositeSearchBudget) : option Z * CompositeSearchBudget :=
  match ts with
  | [] => (acc, [])
  | t :: rest =>
      let '(r, t) := remaining p now t in
      let '(m, rest) := composite_remaining_from (min_option acc r) p now rest in
      (m, t :: rest)
  end.

Definition composite_remaining : string → Z → CompositeSearchBudget →
    option Z * CompositeSearchBudget := composite_remaining_from None.

Fixpoint composite_snapshots (ps : list string) (now : Z) (ts : CompositeSearchBudget)
    : list SearchBudgetSnapshot * CompositeSearchBudget :=
  match ts with
  | [] => ([], [])
  | t :: rest =>
      let '(l, t) := snapshots ps now t in
      let '(l', rest) := composite_snapshots ps now rest in (l ++ l', t :: rest)
  end.

#[export] Instance composite_tracker : SearchBudgetTracker CompositeSearchBudget :=
  {| tryConsume := composite_tryConsume; remaining := composite_remaining;
     snapshots := composite_snapshots |}.
End composite.
Arguments CompositeSearchBudget : clear implicits.

(** The trackers the program composes are of three classes. *)
Inductive AnyTracker :=
  | Monthly (t : MonthlySearchBudget)
  | Daily (t : DailySearchBudget)
  | Minute (t : MinuteRateLimiter).

Definition on_any {A} (f : ∀ T, SearchBudgetTracker T → T → A * T) (t : AnyTracker)
    : A * AnyTracker :=
  match t with
  | Monthly t => let '(a, t) := f _ _ t in (a, Monthly t)
  | Daily t => let '(a, t) := f _ _ t in (a, Daily t)
  | Minute t => let '(a, t) := f _ _ t in (a, Minute t)
  end.

#[export] Instance any_tracker : SearchBudgetTracker AnyTracker := {|
  tryConsume p now := on_any (λ T _, tryConsume p now);
  remaining p now := on_any (λ T _, remaining p now);
  snapshots ps now := on_any (λ T _, snapshots ps now)
|}.

#[export] Instance any_laws : SearchBudgetLaws AnyTracker.
Proof.
  split; intros p now [t|t|t]; cbn [tryConsume remaining any_tracker on_any].
  - pose proof (consume_iff_available p now t) as Hc.
    destruct (tryConsume p now t), (remaining p now t). exact Hc.
  - pose proof (consume_iff_available p now t) as Hc.
    destruct (tryConsume p now t), (remaining p now t). exact Hc.
  - pose proof (consume_iff_available p now t) as Hc.
    destruct (tryConsume p now t), (remaining p now t). exact Hc.
  - pose proof (consume_after_look p now t) as Hc. destruct (remaining p now t). cbn in *.
    by rewrite Hc.
  - pose proof (consume_after_look p now t) as Hc. destruct (remaining p now t). cbn in *.
    by rewrite Hc.
  - pose proof (consume_after_look p now t) as Hc. destruct (remaining p now t). cbn in *.
    by rewrite Hc.
Qed.
