(* ===== verification/SearchBudgetSafety.v ===== *)
(** * Correctness of the search budgets

    No period budget is overspent, the sliding minute window never holds
    more grants than its limit, and the composition consumes from all
    trackers or from none. *)

From S2P Require Import Prelude JsString SearchBudget.
From Stdlib Require Import Sorted.

Section runs.
Context {T : Type} `{SearchBudgetTracker T}.

(** A sequence of attempts: provider and time of each. *)
Fixpoint run (calls : list (string * Z)) (t : T) : T :=
  match calls with
  | [] => t
  | (q, now) :: rest => run rest (tryConsume q now t).2
  end.

(** The times at which provider [p] was granted an attempt. *)
Fixpoint granted (p : string) (calls : list (string * Z)) (t : T) : list Z :=
  match calls with
  | [] => []
  | (q, now) :: rest =>
      let '(ok, t') := tryConsume q now t in
      if ok && bool_decide (q = p) then now :: granted p rest t' else granted p rest t'
  end.

Lemma run_app c1 c2 t : run (c1 ++ c2) t = run c2 (run c1 t).
Proof. revert t. induction c1 as [|[q now] c1 IH]; intros t; cbn; [done|apply IH]. Qed.
End runs.

(** ** Period budgets *)

Section period_safety.
Context {K : Type} `{EqDecision K} (kind : SearchBudgetPeriod)
  (key_of : Z → K) (nextResetAt : Z → date_string).

#[local] Instance this_tracker : SearchBudgetTracker (PeriodBudget K) :=
  period_tracker kind key_of nextResetAt.

(** The limits never change, and no provider has used more than its own. *)
Definition period_inv (b : gmap string Z) (t : PeriodBudget K) : Prop :=
  budgets t = b ∧ ∀ p l, b !! p = Some l → (0 <= used_by p t <= l)%Z.

Lemma period_inv_reset b now t :
  (∀ p l, b !! p = Some l → (0 <= l)%Z) → period_inv b t →
  period_inv b (resetIfNeeded key_of now t).
Proof.
  intros Hpos [Hb Hu]. unfold resetIfNeeded. case_decide; [by split|]. split; [done|].
  intros p l Hl. unfold used_by. cbn. rewrite lookup_empty. cbn. by split; [|eapply Hpos].
Qed.

Lemma consume_used b q now t :
  period_inv b t →
  let t0 := resetIfNeeded key_of now t in
  period_inv b t0 →
  let '(ok, t') := tryConsume q now t in
  period_inv b t' ∧ current t' = key_of now ∧
  ∀ p l, b !! p = Some l →
    used_by p t' = (used_by p t0 + if ok && bool_decide (q = p) then 1 else 0)%Z.
Proof.
  intros _ t0 [Hb Hu]. cbn. unfold period_tryConsume. fold t0. rewrite Hb.
  assert (current t0 = key_of now) as Hc by (subst t0; unfold resetIfNeeded; by case_decide).
  destruct (b !! q) as [l|] eqn:Hq.
  2:{ split_and!; [by split|done|]. intros p l' Hp. rewrite bool_decide_false by congruence.
      cbn. lia. }
  destruct (l <=? used_by q t0)%Z eqn:Hle; reflect.
  { split_and!; [by split|done|]. intros. cbn. lia. }
  assert (∀ p, used_by p {| budgets := b; current := current t0;
      attempts := <[q := (used_by q t0 + 1)%Z]> (attempts t0) |} =
    (used_by p t0 + if bool_decide (q = p) then 1 else 0)%Z) as Hused.
  { intros p. unfold used_by. cbn. case_bool_decide as Hp.
    - subst. by rewrite lookup_insert_eq.
    - rewrite lookup_insert_ne by done. lia. }
  split_and!; [split; [done|]|done|auto].
  intros p l' Hp. rewrite Hused. specialize (Hu p l' Hp). case_bool_decide; [|lia].
  subst. simplify_eq. lia.
Qed.

Lemma period_inv_run b calls t :
  (∀ p l, b !! p = Some l → (0 <= l)%Z) → period_inv b t → period_inv b (run calls t).
Proof.
  intros Hpos. revert t. induction calls as [|[q now] calls IH]; intros t Ht; cbn [run]; [done|].
  apply IH. pose proof (consume_used b q now t Ht (period_inv_reset b now t Hpos Ht)) as Hc.
  destruct (tryConsume q now t). apply Hc.
Qed.

(** Grants within one period, on top of what was used in it before. *)
Lemma granted_in_period b k calls t p l :
  (∀ p l, b !! p = Some l → (0 <= l)%Z) → period_inv b t → b !! p = Some l →
  Forall (λ c, key_of c.2 = k) calls →
  ((if decide (current t = k) then used_by p t else 0) +
     Z.of_nat (length (granted p calls t)) <= l)%Z.
Proof.
  intros Hpos Ht Hp Hk. revert t Ht. induction Hk as [|[q now] calls Hq Hk IH]; intros t Ht.
  - destruct Ht as [_ Hu]. specialize (Hu p l Hp). specialize (Hpos p l Hp).
    case_decide; cbn; lia.
  - cbn [granted]. cbn in Hq.
    pose proof (period_inv_reset b now t Hpos Ht) as H0.
    pose proof (consume_used b q now t Ht H0) as Hc.
    destruct (tryConsume q now t) as [ok t']. destruct Hc as (Ht' & Hcur & Hused).
    specialize (IH t' Ht'). rewrite decide_True in IH by congruence.
    rewrite (Hused p l Hp) in IH. unfold resetIfNeeded in IH. rewrite Hq in IH.
    assert (used_by p {| budgets := budgets t; current := k; attempts := ∅ |} = 0%Z) as Hz
      by (unfold used_by; cbn; by rewrite lookup_empty).
    destruct (decide (k = current t)) as [Heq|Hne], (ok && bool_decide (q = p)) eqn:Hok;
      rewrite ?decide_True in * by done; cbn [length]; repeat case_decide; try congruence;
      rewrite ?Hz in *; lia.
Qed.

Lemma validateBudgets_nonneg config label u p x :
  validateBudgets config label = Ok u → config !! p = Some x → (0 <= to_Z x)%Z.
Proof.
  unfold validateBudgets. intros Hv%throw_if_Ok%negb_false_iff Hx.
  rewrite forallb_forall in Hv.
  assert ((p, x) ∈ map_to_list config) as Hin by (by apply elem_of_map_to_list).
  apply list_elem_of_In in Hin. apply Hv in Hin. cbn in Hin. reflect.
  rewrite num_ltb_integer, to_Z_int in * by (done || apply isInteger_int). by reflect.
Qed.

(** C11: a monthly or daily budget is never overspent.  Whatever attempts
    were made before, and however the clock moved then, the attempts granted
    to a provider in any stretch of calls that falls in one period are at
    most its configured limit. *)
Theorem period_budget_never_overspent label config now0 t0 before calls p limit k :
  new_PeriodBudget key_of label config now0 = Ok t0 → config !! p = Some limit →
  Forall (λ c, key_of c.2 = k) calls →
  (Z.of_nat (length (granted p calls (run before t0))) <= to_Z limit)%Z.
Proof.
  unfold new_PeriodBudget. intros Hnew Hp Hk.
  apply result_bind_Ok in Hnew as (u & Hv & [= <-]).
  set (b := to_Z <$> config).
  assert (∀ p l, b !! p = Some l → (0 <= l)%Z) as Hpos.
  { intros q l. unfold b. rewrite lookup_fmap. intros (x & Hx & ->)%fmap_Some.
    by eapply validateBudgets_nonneg. }
  assert (b !! p = Some (to_Z limit)) as Hb by (unfold b; by rewrite lookup_fmap, Hp).
  assert (period_inv b {| budgets := b; current := key_of now0; attempts := ∅ |}) as H0.
  { split; [done|]. intros q l Hl. unfold used_by. cbn. rewrite lookup_empty. cbn.
    specialize (Hpos q l Hl). lia. }
  pose proof (period_inv_run b before _ Hpos H0) as Ht.
  pose proof (granted_in_period b k calls _ p _ Hpos Ht Hb Hk) as Hg.
  destruct Ht as [_ Hu]. specialize (Hu p _ Hb). case_decide; lia.
Qed.
End period_safety.

(** ** The minute window *)

Definition in_window (T : Z) (times : list Z) : nat :=
  length (filter (λ u, (T - 60000 < u ∧ u <= T)%Z) times).

(** [G] are the times granted to [p] so far: the limiter has forgotten only
    those that are out of every later window. *)
Definition remembers (p : string) (last : Z) (t : MinuteRateLimiter) (G : list Z) : Prop :=
  Forall (λ u, (u <= last)%Z) G ∧
  ∀ now, (last <= now)%Z → recent now (times_of p t) = recent now G.

Lemma recent_app now l1 l2 : recent now (l1 ++ l2) = recent now l1 ++ recent now l2.
Proof. apply filter_app. Qed.

Lemma recent_recent now now' l : (now <= now')%Z → recent now' (recent now l) = recent now' l.
Proof.
  intros Hle. unfold recent. rewrite list_filter_filter. apply list_filter_iff. intros. lia.
Qed.

Lemma in_window_recent T now G :
  Forall (λ u, (u <= now)%Z) G → (now <= T)%Z → in_window T G ≤ length (recent now G).
Proof.
  intros HG Hle. unfold in_window, recent. induction HG as [|u G Hu HG IH]; [done|].
  rewrite !filter_cons. repeat case_decide; cbn; lia.
Qed.

Lemma minute_consume_spec p q now t :
  let '(ok, t') := minute_tryConsume q now t in
  limits t' = limits t ∧
  (ok = true → q = p → ∀ l, limits t !! p = Some l →
     (Z.of_nat (length (recent now (times_of p t))) < l)%Z ∧
     times_of p t' = recent now (times_of p t) ++ [now]) ∧
  (ok && bool_decide (q = p) = false →
     times_of p t' = times_of p t ∨ times_of p t' = recent now (times_of p t)).
Proof.
  unfold minute_tryConsume. destruct (limits t !! q) as [l|] eqn:Hl.
  2:{ split_and!; [done|intros _ <-; congruence|by left]. }
  destruct (l <=? _)%Z eqn:Hle; reflect; rewrite times_of_prune in Hle.
  - split_and!; [apply limits_prune|done|]. intros _.
    destruct (decide (q = p)) as [->|Hne]; [right; apply times_of_prune|left].
    unfold times_of, prune. destruct (timestamps t !! q); [|done]. cbn.
    case_match; [by rewrite lookup_delete_ne|by rewrite lookup_insert_ne].
  - split_and!; cbn; [apply limits_prune| |].
    + intros _ -> l' Hl'. simplify_eq. split; [done|].
      unfold times_of at 1. cbn. by rewrite lookup_insert_eq, times_of_prune.
    + rewrite bool_decide_eq_false. intros Hne. left.
      unfold times_of at 1. cbn. rewrite lookup_insert_ne by done.
      unfold times_of, prune. destruct (timestamps t !! q); [|done]. cbn.
      case_match; [by rewrite lookup_delete_ne|by rewrite lookup_insert_ne].
Qed.

Lemma granted_window p l T calls last t G :
  limits t !! p = Some l → (0 <= l)%Z → remembers p last t G →
  StronglySorted Z.le (last :: calls.*2) → (Z.of_nat (in_window T G) <= l)%Z →
  (Z.of_nat (in_window T (G ++ granted p calls t)) <= l)%Z.
Proof.
  revert last t G. induction calls as [|[q now] calls IH]; intros last t G Hl Hpos [HG Hrem] Hs Hin.
  { cbn. by rewrite app_nil_r. }
  apply StronglySorted_inv in Hs as [Hs' Hall]. cbn in Hall.
  apply Forall_cons in Hall as [Hnow Hrest].
  cbn [granted]. change (tryConsume q now t) with (minute_tryConsume q now t).
  pose proof (minute_consume_spec p q now t) as Hc.
  destruct (minute_tryConsume q now t) as [ok t']. destruct Hc as (Hlim & Hok & Hno).
  assert (Forall (λ u, (u <= now)%Z) G) as HGnow by (eapply Forall_impl; [exact HG|cbn; lia]).
  destruct (ok && bool_decide (q = p)) eqn:Hgr.
  - apply andb_true_iff in Hgr as [-> Hqp%bool_decide_eq_true].
    destruct (Hok eq_refl Hqp l Hl) as [Hlt Htimes].
    replace (G ++ now :: granted p calls t') with ((G ++ [now]) ++ granted p calls t')
      by (by rewrite <- app_assoc).
    apply (IH now); [by rewrite Hlim|done| |done|].
    + split; [apply Forall_app; split; [done|by repeat constructor]|].
      intros now' Hle. rewrite Htimes, !recent_app, recent_recent by done.
      by rewrite Hrem by lia.
    + unfold in_window. rewrite filter_app, length_app. fold (in_window T G).
      rewrite filter_cons, filter_nil. case_decide as Hw; cbn [length]; [|lia].
      pose proof (in_window_recent T now G HGnow ltac:(lia)).
      rewrite Hrem in Hlt by lia. lia.
  - apply (IH now); [by rewrite Hlim|done| |done|done].
    split; [done|]. intros now' Hle.
    destruct (Hno eq_refl) as [-> | ->]; rewrite ?recent_recent by done; apply Hrem; lia.
Qed.

(** the per-minute limit holds over every sliding window: as long as
    the clock does not run backward, the attempts granted to a provider
    within any 60 seconds, wherever the window is placed, are at most its
    limit. *)
Theorem minute_window_never_exceeded config t0 calls p limit T :
  new_MinuteRateLimiter config = Ok t0 → config !! p = Some limit →
  StronglySorted Z.le calls.*2 →
  (Z.of_nat (in_window T (granted p calls t0)) <= to_Z limit)%Z.
Proof.
  unfold new_MinuteRateLimiter. intros Hnew Hp Hs.
  apply result_bind_Ok in Hnew as (u & Hv%throw_if_Ok%negb_false_iff & [= <-]).
  rewrite forallb_forall in Hv.
  assert ((p, limit) ∈ map_to_list config) as Hin by (by apply elem_of_map_to_list).
  apply list_elem_of_In in Hin. apply Hv in Hin. cbn in Hin. reflect.
  rewrite num_ltb_integer, to_Z_int in * by (done || apply isInteger_int). reflect.
  destruct calls as [|[q now] calls]; [cbn; lia|].
  apply (granted_window p _ T ((q, now) :: calls) now _ []); cbn; try lia.
  - by rewrite lookup_fmap, Hp.
  - split; [constructor|]. intros. unfold times_of. cbn. by rewrite lookup_empty.
  - cbn in Hs. constructor; [done|]. constructor; [lia|]. by inversion Hs.
Qed.

(** ** Composition *)

(** [t'] is [t], or [t] as looking at what remains leaves it. *)
Definition only_looked {T} `{SearchBudgetTracker T} (p : string) (now : Z) (t t' : T) : Prop :=
  t' = t ∨ t' = (remaining p now t).2.

(** a composition of trackers is all or nothing.  It grants an attempt
    exactly when every tracker would grant it by itself at that moment; then
    each of them has consumed it, so the answers it ignores were all
    positive; and when it refuses, no tracker has consumed anything: each is
    as it was or as a look left it. *)
Theorem composite_all_or_nothing {T} `{SearchBudgetLaws T} p now (ts : list T) :
  let '(ok, ts') := composite_tryConsume p now ts in
  ok = forallb (λ t, (tryConsume p now t).1) ts ∧
  if ok then ts' = (λ t, (tryConsume p now t).2) <$> ts
  else Forall2 (only_looked p now) ts ts'.
Proof.
  assert (let '(ok, l) := look_all p now ts in
    ok = forallb (λ t, (tryConsume p now t).1) ts ∧
    Forall2 (only_looked p now) ts l ∧
    (ok = true → (λ t, (tryConsume p now t).2) <$> l = (λ t, (tryConsume p now t).2) <$> ts))
    as Hlook.
  { induction ts as [|t ts IH]; cbn [look_all]; [done|].
    pose proof (consume_iff_available p now t) as Hiff.
    pose proof (consume_after_look p now t) as Hlook.
    destruct (remaining p now t) as [r t1] eqn:Hr. cbn in Hiff, Hlook.
    destruct (available r).
    - destruct (look_all p now ts) as [ok l]. destruct IH as (-> & Hall & Heq).
      cbn. rewrite Hiff. split_and!; [done| |].
      + constructor; [right; by rewrite Hr|done].
      + intros Hok. f_equal; [by rewrite Hlook|by apply Heq].
    - cbn. rewrite Hiff. split_and!; [done| |done].
      constructor; [right; by rewrite Hr|]. apply Forall_Forall2_diag, Forall_true. by left. }
  unfold composite_tryConsume. destruct (look_all p now ts) as [ok l].
  destruct Hlook as (-> & Hall & Heq).
  destruct (forallb _ ts); (split; [done|]); [by apply Heq|exact Hall].
Qed.

(** ** Witnesses *)

Module Witness.
Definition config : gmap string number := {["jina" := int 2]}.
Definition jan : Z := 1704067200000.

Lemma period_budget_never_overspent_witness : ∃ t0,
  new_MonthlySearchBudget config jan = Ok t0 ∧
  (Z.of_nat (length (granted "jina" [("jina", jan); ("jina", jan + 5); ("jina", jan + 9)]%string%Z
     t0)) <= 2)%Z.
Proof.
  eexists. split; [vm_compute; reflexivity|].
  apply (period_budget_never_overspent monthly currentMonth monthly_nextResetAt
    "Monthly search budgets" config jan _ [] _ "jina" (int 2) (2024, 0)%Z).
  - vm_compute. reflexivity.
  - vm_compute. reflexivity.
  - repeat constructor.
Defined.

Lemma minute_window_never_exceeded_witness : ∃ t0,
  new_MinuteRateLimiter config = Ok t0 ∧
  (Z.of_nat (in_window 65000 (granted "jina"
     [("jina", 0); ("jina", 10); ("jina", 20); ("jina", 60005); ("jina", 60006)]%string%Z t0))
   <= 2)%Z.
Proof.
  eexists. split; [vm_compute; reflexivity|].
  apply (minute_window_never_exceeded config _ _ "jina" (int 2) 65000).
  - vm_compute. reflexivity.
  - vm_compute. reflexivity.
  - repeat (constructor; try (vm_compute; discriminate)).
Defined.

Lemma composite_all_or_nothing_witness : ∃ ts',
  composite_tryConsume (T := MinuteRateLimiter) "jina" 0
    [{| limits := {["jina"%string := 0%Z]}; timestamps := ∅ |}] = (false, ts').
Proof.
  pose proof (composite_all_or_nothing "jina" 0
    [{| limits := {["jina"%string := 0%Z]}; timestamps := ∅ |}]) as Hc.
  destruct (composite_tryConsume _ _ _) as [ok ts']. destruct Hc as [Hok _].
  exists ts'. f_equal. rewrite Hok. vm_compute. reflexivity.
Defined.
End Witness.
