(* ===== verification/SearchSelect.v ===== *)
(** * Choosing search providers

    [src/core/search-provider-catalog.ts], [search-provider-profile.ts],
    [search-selector.ts] and [domain-filter-validation.ts]: the catalog, the
    provider families and weights, the diversity selector, and the gate on
    domain filters.  Weights are binary64 floats, as in JavaScript. *)

From S2P Require Import Prelude JsString.
From Stdlib Require Import PrimFloat.
From Stdlib Require Import PrimFloat Uint63.

Definition SearchProviderId : Type := string.

(** ** Catalog *)

Definition SEARCH_PROVIDER_IDS : list SearchProviderId :=
  ["tavily"; "exa"; "parallel"; "browserbase"; "brave"; "firecrawl"; "serpapi"; "searchapi";
   "linkup"; "keenable"; "serper"; "you"; "tinyfish"; "searxng"; "crawl4ai"]%string.

Definition DEFAULT_SEARCH_PROVIDER_ORDER : list SearchProviderId :=
  ["tavily"; "exa"; "brave"; "you"; "tinyfish"; "keenable"; "browserbase"; "firecrawl";
   "linkup"; "parallel"; "serpapi"]%string.

Definition DEFAULT_SEARCH_PROVIDER_ORDER_VALUE : string :=
  join "," DEFAULT_SEARCH_PROVIDER_ORDER.

(** ** Families and weights *)

Inductive SearchProviderFamily :=
  | general_web | independent_index | semantic | serp | research | extraction_backed.

#[export] Instance SearchProviderFamily_eq_dec : EqDecision SearchProviderFamily.
Proof. solve_decision. Defined.

(** A lookup in an object literal. *)
Fixpoint assoc {A} (k : string) (l : list (string * A)) : option A :=
  match l with
  | [] => None
  | (k', v) :: l' => if decide (k = k') then Some v else assoc k l'
  end.

Definition PROVIDER_FAMILIES : list (string * SearchProviderFamily) :=
  [("tavily", research); ("exa", semantic); ("linkup", research); ("tinyfish", general_web);
   ("parallel", research); ("browserbase", serp); ("brave", independent_index);
   ("firecrawl", extraction_backed); ("serpapi", serp); ("searchapi", serp);
   ("keenable", independent_index); ("serper", serp); ("you", general_web);
   ("searxng", general_web); ("crawl4ai", extraction_backed)]%string.

Definition searchProviderFamily (p : SearchProviderId) : SearchProviderFamily :=
  default general_web (assoc p PROVIDER_FAMILIES).

Definition PROVIDER_WEIGHTS : list (string * float) :=
  [("tavily", 1.0); ("exa", 1.0); ("linkup", 0.9); ("tinyfish", 0.9); ("brave", 0.9);
   ("parallel", 0.8); ("browserbase", 0.8); ("firecrawl", 0.8); ("serpapi", 0.7);
   ("searchapi", 0.7); ("serper", 0.7); ("you", 0.7); ("searxng", 0.8);
   ("crawl4ai", 0.7)]%string%float.

Definition searchProviderWeight (p : SearchProviderId) : float :=
  default 0.5%float (assoc p PROVIDER_WEIGHTS).

(** ** The selector *)

Inductive SearchStrategy := fallback | balanced | deep.

#[export] Instance SearchStrategy_eq_dec : EqDecision SearchStrategy.
Proof. solve_decision. Defined.

Definition STRATEGY_LIMITS (s : SearchStrategy) : nat :=
  match s with balanced => 2 | _ => 3 end.

(** [[...new Set(l)]]: the first occurrence of each element. *)
Fixpoint unique_from (seen l : list string) : list string :=
  match l with
  | [] => []
  | x :: l' => if decide (x ∈ seen) then unique_from seen l' else x :: unique_from (x :: seen) l'
  end.

Definition js_unique (l : list string) : list string := unique_from [] l.

(** The first loop: one provider per family, in order, up to the limit. *)
Fixpoint pick_diverse (limit : nat) (families : list SearchProviderFamily)
    (l : list SearchProviderId) : list SearchProviderId :=
  match limit, l with
  | O, _ | _, [] => []
  | S limit', p :: l' =>
      let family := searchProviderFamily p in
      if decide (family ∈ families) then pick_diverse limit families l'
      else p :: pick_diverse limit' (family :: families) l'
  end.

(** The second loop: fill up with the providers not selected yet. *)
Fixpoint fill (limit : nat) (selected : list SearchProviderId) (l : list SearchProviderId)
    : list SearchProviderId :=
  match l with
  | [] => selected
  | p :: l' =>
      if decide (p ∈ selected) then fill limit selected l'
      else let selected' := selected ++ [p] in
           if length selected' =? limit then selected' else fill limit selected' l'
  end.

Definition selectSearchProviders (candidates : list SearchProviderId)
    (strategy : SearchStrategy) : list SearchProviderId :=
  let unique := js_unique candidates in
  match strategy with
  | fallback => unique
  | _ =>
      let limit := STRATEGY_LIMITS strategy in
      let selected := pick_diverse limit [] unique in
      if length selected =? limit then selected else fill limit selected unique
  end.

(** ** Requests *)

Inductive SearchTimeRange := range_day | range_week | range_month | range_year.

Definition time_range_name (t : SearchTimeRange) : string :=
  match t with
  | range_day => "day" | range_week => "week" | range_month => "month" | range_year => "year"
  end.

Record SearchRequest := {
  query : string;
  maxResults : number;
  domains : option (list string);
  excludeDomains : option (list string);
  timeRange : option SearchTimeRange;
  req_provider : option string;
  req_providers : option (list SearchProviderId);
  req_strategy : option SearchStrategy
}.

(** ** Domain filters *)

Inductive DomainFilterMode :=
  mode_none | include_only | exclude_only | include_or_exclude | combined.

#[export] Instance DomainFilterMode_eq_dec : EqDecision DomainFilterMode.
Proof. solve_decision. Defined.

Definition filter_mode_name (m : DomainFilterMode) : string :=
  match m with
  | mode_none => "none"
  | include_only => "include-only"
  | exclude_only => "exclude-only"
  | include_or_exclude => "include-or-exclude"
  | combined => "combined"
  end.

Record DomainFilterSpec := {
  mode : DomainFilterMode;
  maxIncludeDomains : option Z;
  maxExcludeDomains : option Z;
  spec_timeRange : bool
}.

Definition spec_of (m : DomainFilterMode) (t : bool) : DomainFilterSpec :=
  {| mode := m; maxIncludeDomains := None; maxExcludeDomains := None; spec_timeRange := t |}.

Definition DOMAIN_FILTER_SPECS : list (string * DomainFilterSpec) :=
  [("linkup", spec_of combined true);
   ("keenable", {| mode := include_only; maxIncludeDomains := Some 1%Z;
                   maxExcludeDomains := None; spec_timeRange := true |});
   ("tinyfish", spec_of combined true);
   ("you", spec_of include_or_exclude true);
   ("parallel", spec_of combined false);
   ("browserbase", spec_of mode_none false);
   ("brave", spec_of combined true);
   ("serpapi", spec_of combined true);
   ("searchapi", spec_of combined false);
   ("tavily", spec_of combined true);
   ("exa", spec_of include_only false);
   ("firecrawl", spec_of include_or_exclude false);
   ("serper", spec_of mode_none false)]%string.

Definition domainFilterSpec (p : SearchProviderId) : DomainFilterSpec :=
  default (spec_of mode_none false) (assoc p DOMAIN_FILTER_SPECS).

(** [l?.length ?? 0] *)
Definition count_of (l : option (list string)) : Z := Z.of_nat (length (default [] l)).

Definition requestFilterMode (request : SearchRequest) : DomainFilterMode :=
  let hasInclude := (0 <? count_of (domains request))%Z in
  let hasExclude := (0 <? count_of (excludeDomains request))%Z in
  if hasInclude && hasExclude then combined
  else if hasInclude then include_only
  else if hasExclude then exclude_only
  else mode_none.

Definition modeSupports (providerMode requestMode : DomainFilterMode) : bool :=
  if bool_decide (requestMode = mode_none) then true
  else if bool_decide (providerMode = combined) then true
  else if bool_decide (providerMode = include_or_exclude) then
    bool_decide (requestMode = include_only) || bool_decide (requestMode = exclude_only)
  else bool_decide (providerMode = requestMode).

Definition filter_error (message hintCode hintText : string) : thrown :=
  gerror_hint INVALID_INPUT "domain-filter" message false (hint hintCode hintText).

(** The deployment cap on the total number of domains. *)
Definition checkDeploymentCap (request : SearchRequest) (deploymentMaxDomains : option Z)
    : result unit :=
  match deploymentMaxDomains with
  | None => Ok tt
  | Some cap =>
      let total := (count_of (domains request) + count_of (excludeDomains request))%Z in
      throw_if (cap <? total)%Z
        (filter_error ("Total domain count " +:+ show total +:+
           " exceeds deployment limit of " +:+ show cap) "domain_filter.deployment_cap"
           ("The deployment limits the total number of domain filters to " +:+ show cap +:+
            ". Reduce the number of included and excluded domains."))
  end.

(** [max !== undefined && count > max] *)
Definition over (max : option Z) (count : Z) : bool :=
  match max with Some m => (m <? count)%Z | None => false end.

Definition is_defined {A} (o : option A) : bool :=
  match o with Some _ => true | None => false end.

Definition mode_advice (m : DomainFilterMode) : string :=
  match m with
  | mode_none => "Remove domain filters or choose a provider that supports them."
  | include_or_exclude => "Use either include or exclude domains, not both simultaneously."
  | _ => "Use " +:+ filter_mode_name m +:+ " domains only."
  end.

Definition max_domains_error (p kind hintCode : string) (max : option Z) (count : Z) : thrown :=
  let m := show (default 0%Z max) in
  filter_error ("Provider " +:+ p +:+ " supports at most " +:+ m +:+ " " +:+ kind +:+
      " domain(s), got " +:+ show count) hintCode
    (p +:+ " limits " +:+ kind +:+ " domains to " +:+ m +:+
     ". Reduce the list or choose a provider that accepts more.").

Definition validateDomainFilters (request : SearchRequest) (p : SearchProviderId)
    (deploymentMaxDomains : option Z) : result unit :=
  checkDeploymentCap request deploymentMaxDomains;;
  let spec := domainFilterSpec p in
  let reqMode := requestFilterMode request in
  let includeCount := count_of (domains request) in
  let excludeCount := count_of (excludeDomains request) in
  throw_if (negb (modeSupports (mode spec) reqMode))
    (filter_error ("Provider " +:+ p +:+ " does not support " +:+ filter_mode_name reqMode +:+
       " domain filtering") "domain_filter.unsupported_mode"
       (p +:+ " supports " +:+ quoted (filter_mode_name (mode spec)) +:+
        " domain filtering but the request requires " +:+ quoted (filter_mode_name reqMode) +:+
        ". " +:+ mode_advice (mode spec)));;
  throw_if (over (maxIncludeDomains spec) includeCount)
    (max_domains_error p "include" "domain_filter.max_include_domains" (maxIncludeDomains spec)
       includeCount);;
  throw_if (over (maxExcludeDomains spec) excludeCount)
    (max_domains_error p "exclude" "domain_filter.max_exclude_domains" (maxExcludeDomains spec)
       excludeCount);;
  throw_if (is_defined (timeRange request) && negb (spec_timeRange spec))
    (filter_error ("Provider " +:+ p +:+ " does not support time range filtering")
       "domain_filter.no_time_range"
       (p +:+ " does not support the timeRange parameter. Remove it or choose a provider with " +:+
        "date-range support.")).

Definition providerMatchesFilters (request : SearchRequest) (p : SearchProviderId) : bool :=
  let spec := domainFilterSpec p in
  if negb (modeSupports (mode spec) (requestFilterMode request)) then false
  else if over (maxIncludeDomains spec) (count_of (domains request)) then false
  else if over (maxExcludeDomains spec) (count_of (excludeDomains request)) then false
  else if is_defined (timeRange request) && negb (spec_timeRange spec) then false
  else true.

Definition validateDomainFiltersForRequest (request : SearchRequest)
    (explicitProvider : option SearchProviderId) (candidates : list SearchProviderId)
    (deploymentMaxDomains : option Z) : result unit :=
  let reqMode := requestFilterMode request in
  if bool_decide (reqMode = mode_none) && negb (is_defined (timeRange request)) then Ok tt
  else
    checkDeploymentCap request deploymentMaxDomains;;
    match explicitProvider with
    | Some p => validateDomainFilters request p None
    | None =>
        let reasons :=
          (if bool_decide (reqMode = mode_none) then []
           else [filter_mode_name reqMode +:+ " domain filtering"]) ++
          match timeRange request with
          | Some t => ["time range " +:+ quoted (time_range_name t)]
          | None => []
          end in
        throw_if (negb (existsb (providerMatchesFilters request) candidates))
          (filter_error ("No candidate provider supports the requested filter combination: " +:+
             join " with " reasons) "domain_filter.no_candidate"
             ("None of the configured candidate providers support this combination of domain " +:+
              "filters and time range. Adjust the filters or add a provider that supports " +:+
              "them."))
    end.

(** * Correctness of provider selection and of the domain-filter gate *)

(** [js_unique] keeps the elements and drops the repetitions. *)
Lemma elem_of_unique_from seen l x : x ∈ unique_from seen l ↔ x ∈ l ∧ x ∉ seen.
Proof.
  revert seen. induction l as [|y l IH]; intros seen; cbn.
  { split; [intros Hx; by apply not_elem_of_nil in Hx|intros [Hx _]; by apply not_elem_of_nil in Hx]. }
  case_decide as Hy; rewrite ?elem_of_cons, IH, ?elem_of_cons; [naive_solver|].
  destruct (decide (x = y)); naive_solver.
Qed.

Lemma NoDup_unique_from seen l : NoDup (unique_from seen l).
Proof.
  revert seen. induction l as [|y l IH]; intros seen; cbn; [constructor|]. case_decide; [done|].
  constructor; [|done]. rewrite elem_of_unique_from. intros [_ Hn]. apply Hn. left.
Qed.

Lemma elem_of_js_unique l x : x ∈ js_unique l ↔ x ∈ l.
Proof.
  unfold js_unique. rewrite elem_of_unique_from. pose proof (not_elem_of_nil x). tauto.
Qed.

Lemma NoDup_js_unique l : NoDup (js_unique l).
Proof. apply NoDup_unique_from. Qed.

(** ** The selector *)

#[local] Arguments searchProviderFamily : simpl never.

Lemma pick_diverse_spec limit seen l :
  let out := pick_diverse limit seen l in
  out `sublist_of` l ∧ length out ≤ limit ∧ NoDup (searchProviderFamily <$> out) ∧
  (∀ f, f ∈ searchProviderFamily <$> out → f ∉ seen) ∧
  (length out < limit →
     ∀ p, p ∈ l → searchProviderFamily p ∈ seen ∨ searchProviderFamily p ∈ searchProviderFamily <$> out).
Proof.
  revert limit seen. induction l as [|p l IH]; intros limit seen.
  { destruct limit; cbn; (split_and!; [done|lia|constructor| |]);
      intros; exfalso; by eapply not_elem_of_nil. }
  destruct limit as [|limit]; cbn.
  { split_and!; [apply sublist_nil_l|lia|constructor| |lia].
    intros f Hf. by apply not_elem_of_nil in Hf. }
  case_decide as Hp.
  - destruct (IH (S limit) seen) as (? & ? & ? & ? & Hall).
    split_and!; [by apply sublist_cons|done|done|done|].
    intros Hlen q [->|Hq]%elem_of_cons; [by left|by apply Hall].
  - destruct (IH limit (searchProviderFamily p :: seen)) as (? & ? & ? & Hdis & Hall).
    cbn. split_and!.
    + by apply sublist_skip.
    + lia.
    + constructor; [|done]. intros Hin. apply (Hdis _ Hin). left.
    + intros f [->|Hf]%elem_of_cons; [done|]. intros Hs. apply (Hdis f Hf). by right.
    + intros Hlen q [->|Hq]%elem_of_cons; [right; left|].
      destruct (Hall ltac:(lia) q Hq) as [[->|]%elem_of_cons|]; [right; left|by left|].
      right. by right.
Qed.

Lemma fill_spec limit sel l :
  NoDup sel → length sel < limit →
  let out := fill limit sel l in
  NoDup out ∧ length out ≤ limit ∧ (∀ p, p ∈ sel → p ∈ out) ∧
  (∀ p, p ∈ out → p ∈ sel ∨ p ∈ l) ∧ (length out < limit → ∀ p, p ∈ l → p ∈ out).
Proof.
  revert sel. induction l as [|p l IH]; intros sel Hnd Hlen; cbn.
  { split_and!; [done|lia|done|auto|intros _ p Hp; by apply not_elem_of_nil in Hp]. }
  case_decide as Hp.
  - destruct (IH sel Hnd Hlen) as (? & ? & Hsel & Hin & Hall).
    split_and!; [done|done|done| |].
    + intros q Hq. destruct (Hin q Hq); [by left|right; by right].
    + intros Hl q [->|Hq]%elem_of_cons; [by apply Hsel|by apply Hall].
  - assert (NoDup (sel ++ [p])) as Hnd'.
    { apply NoDup_app. split_and!; [done| |apply NoDup_singleton].
      intros q Hq ->%list_elem_of_singleton. done. }
    destruct (length (sel ++ [p]) =? limit) eqn:Hfull.
    + apply Nat.eqb_eq in Hfull.
      split_and!; [done|lia|intros q; rewrite elem_of_app; auto| |lia].
      intros q [Hq|Hq%list_elem_of_singleton]%elem_of_app; [by left|right; subst; left].
    + apply Nat.eqb_neq in Hfull. rewrite length_app in Hfull. cbn in Hfull.
      destruct (IH (sel ++ [p]) Hnd') as (? & ? & Hsel & Hin & Hall);
        [rewrite length_app; cbn; lia|].
      split_and!; [done|done|intros q Hq; apply Hsel, elem_of_app; by left| |].
      * intros q Hq. destruct (Hin q Hq) as [[|Hq'%list_elem_of_singleton]%elem_of_app|];
          [by left|right; subst; left|right; by right].
      * intros Hl q [->|Hq]%elem_of_cons; [|by apply Hall].
        apply Hsel, elem_of_app. right. by left.
Qed.

(** What a selection of at most [limit] of [unique] must be. *)
Definition diverse_selection (limit : nat) (unique out : list SearchProviderId) : Prop :=
  NoDup out ∧ out ⊆ unique ∧ length out = limit `min` length unique ∧
  (NoDup (searchProviderFamily <$> out) ∨
   ∀ p, p ∈ unique → searchProviderFamily p ∈ searchProviderFamily <$> out).

Lemma selection_length limit (unique out : list SearchProviderId) :
  NoDup unique → NoDup out → out ⊆ unique → length out ≤ limit →
  (length out < limit → unique ⊆ out) → length out = limit `min` length unique.
Proof.
  intros Hu Ho Hsub Hle Hall.
  pose proof (submseteq_length _ _ (NoDup_submseteq _ _ Ho Hsub)).
  destruct (decide (length out < limit)) as [Hlt|]; [|lia].
  pose proof (submseteq_length _ _ (NoDup_submseteq _ _ Hu (Hall Hlt))). lia.
Qed.

Lemma select_diverse_spec candidates strategy :
  strategy ≠ fallback →
  diverse_selection (STRATEGY_LIMITS strategy) (js_unique candidates)
    (selectSearchProviders candidates strategy).
Proof.
  intros Hs. set (unique := js_unique candidates). set (limit := STRATEGY_LIMITS strategy).
  assert (selectSearchProviders candidates strategy =
    let selected := pick_diverse limit [] unique in
    if length selected =? limit then selected else fill limit selected unique) as ->
    by (by destruct strategy). cbn zeta.
  pose proof (NoDup_js_unique candidates) as Hu. fold unique in Hu.
  destruct (pick_diverse_spec limit [] unique) as (Hsub & Hlen & Hfam & _ & Hall).
  set (selected := pick_diverse limit [] unique) in *.
  assert (NoDup selected) as Hnd by (by eapply sublist_NoDup).
  assert (selected ⊆ unique) as Hin by (intros p Hp; by eapply elem_of_sublist).
  destruct (length selected =? limit) eqn:Hfull.
  - apply Nat.eqb_eq in Hfull. split_and!; [done|done| |by left].
    apply selection_length; try done. lia.
  - apply Nat.eqb_neq in Hfull.
    destruct (fill_spec limit selected unique Hnd ltac:(lia)) as (? & ? & Hsel & Hout & Hrest).
    assert (fill limit selected unique ⊆ unique) as Hfsub.
    { intros p Hp. destruct (Hout p Hp); [by apply Hin|done]. }
    split_and!; [done|done|by apply selection_length|right].
    intros p Hp. destruct (Hall ltac:(lia) p Hp) as [Hf|Hf]; [by apply not_elem_of_nil in Hf|].
    apply list_elem_of_fmap in Hf as (q & -> & Hq). by apply list_elem_of_fmap_2, Hsel.
Qed.

(** the selector picks as many different providers as the strategy
    allows and there are, all of them candidates, and is diverse whenever it
    can be: two selected providers share a family only if every family among
    the candidates is represented.  The fallback strategy keeps every
    candidate, once, in order. *)
Theorem selection_is_full_and_diverse candidates strategy :
  let unique := js_unique candidates in
  NoDup unique ∧ (∀ p, p ∈ unique ↔ p ∈ candidates) ∧
  match strategy with
  | fallback => selectSearchProviders candidates strategy = unique
  | balanced => diverse_selection 2 unique (selectSearchProviders candidates strategy)
  | deep => diverse_selection 3 unique (selectSearchProviders candidates strategy)
  end.
Proof.
  cbn. split_and!; [apply NoDup_js_unique|apply elem_of_js_unique|].
  destruct strategy; [done| |].
  - by apply (select_diverse_spec _ balanced).
  - by apply (select_diverse_spec _ deep).
Qed.

(** ** Domain filters *)

Definition cap_ok (request : SearchRequest) (cap : option Z) : Prop :=
  ∀ c, cap = Some c → (count_of (domains request) + count_of (excludeDomains request) <= c)%Z.

Definition no_filters (request : SearchRequest) : Prop :=
  requestFilterMode request = mode_none ∧ timeRange request = None.

Lemma checkDeploymentCap_Ok request cap u :
  checkDeploymentCap request cap = Ok u ↔ cap_ok request cap.
Proof.
  unfold checkDeploymentCap, cap_ok. destruct cap as [c|].
  - rewrite throw_if_Ok, Z.ltb_ge. naive_solver.
  - destruct u. naive_solver.
Qed.

Lemma validateDomainFilters_Ok request p u :
  validateDomainFilters request p None = Ok u ↔ providerMatchesFilters request p = true.
Proof.
  unfold validateDomainFilters, providerMatchesFilters. cbn [checkDeploymentCap]. destruct u.
  unfold mbind, result_bind, throw_if.
  destruct (modeSupports _ _); cbn; [|naive_solver].
  destruct (over (maxIncludeDomains _) _); cbn; [naive_solver|].
  destruct (over (maxExcludeDomains _) _); cbn; [naive_solver|].
  destruct (is_defined (timeRange request) && _); cbn; naive_solver.
Qed.

(** the domain-filter gate lets through exactly the searches some
    provider can honour.  A search without filters passes.  Any other passes
    if and only if its domains are within the deployment's cap and the named
    provider accepts the filters by [providerMatchesFilters], or, when none
    is named, some candidate does; otherwise it is refused with
    [INVALID_INPUT], which no retry can cure. *)
Theorem domain_filter_gate request explicit candidates cap :
  let verdict := validateDomainFiltersForRequest request explicit candidates cap in
  (verdict = Ok tt ↔
     no_filters request ∨
     cap_ok request cap ∧
     match explicit with
     | Some p => providerMatchesFilters request p = true
     | None => Exists (λ p, providerMatchesFilters request p = true) candidates
     end) ∧
  (verdict = Ok tt ∨ ∃ e, verdict = Throw (TGroundlane e) ∧
     errCode e = INVALID_INPUT ∧ errRetryable e = false).
Proof.
  cbn. unfold validateDomainFiltersForRequest.
  destruct (bool_decide _ && negb (is_defined _)) eqn:Hnone.
  { reflect. split; [|by left]. split; [|done]. intros _. left.
    split; [done|]. by destruct (timeRange request). }
  assert (¬ no_filters request) as Hf.
  { intros [Hm Ht]. rewrite Hm, Ht in Hnone. done. }
  split.
  - rewrite result_bind_Ok. split.
    + intros (u & Hcap%checkDeploymentCap_Ok & Hrest). right. split; [done|].
      destruct explicit as [p|]; [by eapply validateDomainFilters_Ok|].
      apply throw_if_Ok, negb_false_iff, existsb_exists in Hrest as (p & Hp%list_elem_of_In & Hm).
      apply Exists_exists. by exists p.
    + intros [?|[Hcap Hm]]; [done|]. exists tt. split; [by apply checkDeploymentCap_Ok|].
      destruct explicit as [p|]; [by apply validateDomainFilters_Ok|].
      apply throw_if_Ok, negb_false_iff, existsb_exists.
      apply Exists_exists in Hm as (p & ? & ?). exists p. by rewrite <- list_elem_of_In.
  - destruct (checkDeploymentCap request cap) as [[]|e] eqn:Hcap; cbn.
    2:{ right. unfold checkDeploymentCap, throw_if in Hcap. repeat case_match; try done.
        injection Hcap as <-. eexists; by split_and!. }
    destruct explicit as [p|].
    + unfold validateDomainFilters, mbind, result_bind, throw_if. cbn [checkDeploymentCap].
      repeat (match goal with |- context [if ?b then _ else _] => destruct b end; cbn;
              [right; eexists; by split_and!|]). by left.
    + unfold throw_if. destruct (existsb _ _); cbn; [by left|right; eexists; by split_and!].
Qed.
