(* ===== verification/ProviderHealth.v ===== *)
(** * Provider health

    [src/core/provider-health.ts]: the decaying penalty score of a provider,
    a binary64 float as in JavaScript, and its circuit breaker.  [now] is
    the clock in milliseconds, read once per call. *)

From S2P Require Import Prelude JsString SearchSelect.
From Stdlib Require Import PrimFloat Uint63.

(** An integer of magnitude below 2^53 as a double. *)
Definition float_of_Z (z : Z) : float :=
  if (z <? 0)%Z then (- of_uint63 (Uint63.of_Z (- z)))%float else of_uint63 (Uint63.of_Z z).

(** [Math.max(0, x)] for [x] not [NaN]. *)
Definition max0 (x : float) : float := if (x <? 0)%float then 0%float else x.

Record PenaltyEntry := { score : float; lastUpdate : Z }.
Record CircuitState := { consecutive : Z; openUntil : Z }.

Record HealthTrackerConfig := {
  penaltyIncrement : float;
  decayPerMinute : float;
  circuitThreshold : Z;
  circuitCooldownMs : Z
}.

Definition DEFAULT_CONFIG : HealthTrackerConfig :=
  {| penaltyIncrement := 3; decayPerMinute := 1; circuitThreshold := 5;
     circuitCooldownMs := 60000 |}.

(** The interface the router uses. *)
Class ProviderHealthTracker (H : Type) := {
  isHealthy : string → Z → H → bool;
  recordSuccess : string → Z → H → H;
  recordFailure : string → Z → H → H;
  penalty : string → Z → H → float
}.

Record DynamicPenaltyHealthTracker := {
  penalties : gmap string PenaltyEntry;
  circuits : gmap string CircuitState;
  config : HealthTrackerConfig
}.

Definition new_tracker (c : HealthTrackerConfig) : DynamicPenaltyHealthTracker :=
  {| penalties := ∅; circuits := ∅; config := c |}.

Definition decayedScore (c : HealthTrackerConfig) (entry : PenaltyEntry) (now : Z) : float :=
  let elapsedMinutes := (float_of_Z (now - lastUpdate entry) / 60000)%float in
  max0 (score entry - elapsedMinutes * decayPerMinute c)%float.

Definition tracker_isHealthy (p : string) (now : Z) (t : DynamicPenaltyHealthTracker) : bool :=
  match circuits t !! p with
  | None => true
  | Some state =>
      if (consecutive state <? circuitThreshold (config t))%Z then true
      else (openUntil state <=? now)%Z
  end.

Definition tracker_recordSuccess (p : string) (now : Z) (t : DynamicPenaltyHealthTracker)
    : DynamicPenaltyHealthTracker :=
  {| circuits := delete p (circuits t);
     penalties := match penalties t !! p with
                  | None => penalties t
                  | Some entry =>
                      let s := max0 (decayedScore (config t) entry now - 1)%float in
                      if (s =? 0)%float then delete p (penalties t)
                      else <[p := {| score := s; lastUpdate := now |}]> (penalties t)
                  end;
     config := config t |}.

(** The circuit after one more failure. *)
Definition fail_circuit (c : HealthTrackerConfig) (now : Z) (state : CircuitState)
    : CircuitState :=
  let n := if ((0 <? openUntil state) && (openUntil state <=? now))%Z
           then circuitThreshold c else (consecutive state + 1)%Z in
  {| consecutive := n;
     openUntil := if (circuitThreshold c <=? n)%Z then (now + circuitCooldownMs c)%Z
                  else openUntil state |}.

Definition tracker_recordFailure (p : string) (now : Z) (t : DynamicPenaltyHealthTracker)
    : DynamicPenaltyHealthTracker :=
  let entry := default {| score := 0; lastUpdate := now |} (penalties t !! p) in
  let state := default {| consecutive := 0; openUntil := 0 |} (circuits t !! p) in
  {| penalties := <[p := {| score := decayedScore (config t) entry now +
                                     penaltyIncrement (config t);
                            lastUpdate := now |}%float]> (penalties t);
     circuits := <[p := fail_circuit (config t) now state]> (circuits t);
     config := config t |}.

Definition tracker_penalty (p : string) (now : Z) (t : DynamicPenaltyHealthTracker) : float :=
  match penalties t !! p with
  | None => 0%float
  | Some entry => max0 (decayedScore (config t) entry now)
  end.

#[export] Instance dynamic_health : ProviderHealthTracker DynamicPenaltyHealthTracker := {|
  isHealthy := tracker_isHealthy;
  recordSuccess := tracker_recordSuccess;
  recordFailure := tracker_recordFailure;
  penalty := tracker_penalty
|}.

(** ** The circuit breaker, over any history *)

Inductive health_event := Success (p : string) (now : Z) | Failure (p : string) (now : Z).

Definition apply_event (t : DynamicPenaltyHealthTracker) (e : health_event)
    : DynamicPenaltyHealthTracker :=
  match e with
  | Success p now => recordSuccess p now t
  | Failure p now => recordFailure p now t
  end.

Definition apply_events (t : DynamicPenaltyHealthTracker) (l : list health_event)
    : DynamicPenaltyHealthTracker := foldl apply_event t l.

(** The failures of [p] since its last success, and the last one's time. *)
Definition count_event (p : string) (acc : Z * Z) (e : health_event) : Z * Z :=
  match e with
  | Success q _ => if decide (q = p) then (0, 0)%Z else acc
  | Failure q now => if decide (q = p) then (acc.1 + 1, now)%Z else acc
  end.

Definition failures_since_success (p : string) (l : list health_event) : Z * Z :=
  foldl (count_event p) (0, 0)%Z l.

(** What the circuit of [p] records of [n] failures, the last at [last]. *)
Definition circuit_ok (c : HealthTrackerConfig) (n last : Z) (s : option CircuitState) : Prop :=
  match s with
  | None => n = 0%Z
  | Some s =>
      (0 < n)%Z ∧
      ((consecutive s < circuitThreshold c)%Z ↔ (n < circuitThreshold c)%Z) ∧
      ((n < circuitThreshold c)%Z → consecutive s = n ∧ openUntil s = 0%Z) ∧
      ((circuitThreshold c <= n)%Z → openUntil s = (last + circuitCooldownMs c)%Z)
  end.

Lemma fail_circuit_ok c n last s now :
  (0 <= n)%Z → circuit_ok c n last s →
  circuit_ok c (n + 1) now
    (Some (fail_circuit c now (default {| consecutive := 0; openUntil := 0 |} s))).
Proof.
  intros Hn Hs. destruct s as [s|]; cbn in *; unfold fail_circuit; cbn.
  - destruct Hs as (Hp & Hiff & Hlt & Hge).
    destruct (Z.lt_ge_cases n (circuitThreshold c)) as [Hlow|Hhigh].
    + destruct (Hlt Hlow) as [-> ->]. cbn.
      destruct (circuitThreshold c <=? n + 1)%Z eqn:Ht; reflect; repeat split; intros; lia.
    + specialize (Hge Hhigh). destruct ((0 <? openUntil s)%Z && _) eqn:Ho.
      * rewrite Z.leb_refl. repeat split; intros; lia.
      * rewrite (proj2 (Z.leb_le _ _)) by lia. repeat split; intros; lia.
  - subst. destruct (circuitThreshold c <=? 0 + 1)%Z eqn:Ht; reflect; repeat split; intros; lia.
Qed.

Lemma circuit_history c p l :
  let t := apply_events (new_tracker c) l in
  config t = c ∧ (0 <= (failures_since_success p l).1)%Z ∧
  circuit_ok c (failures_since_success p l).1 (failures_since_success p l).2 (circuits t !! p).
Proof.
  unfold apply_events, failures_since_success. induction l as [|e l IH] using rev_ind.
  { cbn. rewrite lookup_empty. done. }
  rewrite !foldl_snoc. destruct IH as (Hc & Hpos & Hok).
  destruct (foldl (count_event p) (0, 0)%Z l) as [n last]. cbn in Hpos, Hok.
  destruct e as [q now|q now]; cbn; (split; [done|]); case_decide as Hq; subst; cbn.
  - rewrite lookup_delete_eq. done.
  - rewrite lookup_delete_ne by done. done.
  - split; [lia|]. rewrite lookup_insert_eq, Hc. by eapply fail_circuit_ok.
  - rewrite lookup_insert_ne by done. done.
Qed.

(** the circuit of a provider is open exactly when it should be.  For
    any history of successes and failures of any providers, at any times,
    a provider is unhealthy at [now] if and only if it has failed at least
    [circuitThreshold] times since its last success (or ever) and the last
    of those failures is less than [circuitCooldownMs] ago. *)
Theorem circuit_open_iff c p l now :
  isHealthy p now (apply_events (new_tracker c) l) = false ↔
  (circuitThreshold c <= (failures_since_success p l).1)%Z ∧
  (0 < (failures_since_success p l).1)%Z ∧
  (now < (failures_since_success p l).2 + circuitCooldownMs c)%Z.
Proof.
  destruct (circuit_history c p l) as (Hc & Hpos & Hok). cbn.
  unfold tracker_isHealthy. rewrite Hc.
  destruct (circuits _ !! p) as [s|]; cbn in Hok; [|split; [done|lia]].
  destruct Hok as (Hn & Hiff & Hlt & Hge).
  destruct (consecutive s <? circuitThreshold c)%Z eqn:Hcon; reflect.
  - split; [done|]. intros (? & _). apply Hiff in Hcon. lia.
  - assert (circuitThreshold c <= (failures_since_success p l).1)%Z as Hthr.
    { apply Z.le_ngt. intros Hx. apply Hiff in Hx. lia. }
    rewrite (Hge Hthr). rewrite Z.leb_gt. tauto.
Qed.
