(* ===== verification/SearchFusion.v ===== *)
(** * Fusing search results

    [src/core/search-fusion.ts] and the result types of
    [src/core/contracts.ts]: reciprocal-rank fusion of the results of several
    providers.  Scores are binary64 floats.  The URL implementation and the
    locale's string order are the runtime's. *)

From S2P Require Import Prelude JsString JsMap UrlPolicy SearchSelect ProviderHealth.
From Stdlib Require Import PrimFloat Uint63.

(** ** Results *)

Record SearchResultSource := {
  src_provider : SearchProviderId;
  rank : Z;
  rawScore : option float
}.

Record SearchResultItem := {
  title : string;
  url : string;
  snippet : string;
  publishedAt : option string;
  item_score : option float;
  item_provider : SearchProviderId;
  fusionScore : option float;
  sources : option (list SearchResultSource)
}.

#[export] Instance SearchResultItem_updatable : Updatable SearchResultItem :=
  {| rebuild := λ i, Build_SearchResultItem (title i) (url i) (snippet i) (publishedAt i)
       (item_score i) (item_provider i) (fusionScore i) (sources i) |}.

Record ProviderDetail := {
  detail_providerId : string;
  backend : string;
  ownership : string;
  protocolVersion : string
}.

Record SearchResult := {
  res_query : string;
  res_provider : SearchProviderId;
  results : list SearchResultItem;
  durationMs : Z;
  warnings : list string;
  strategy : option SearchStrategy;
  providersSelected : option (list SearchProviderId);
  providersAttempted : option (list SearchProviderId);
  providersSucceeded : option (list SearchProviderId);
  providerDetails : option (list ProviderDetail)
}.

#[export] Instance SearchResult_updatable : Updatable SearchResult :=
  {| rebuild := λ r, Build_SearchResult (res_query r) (res_provider r) (results r)
       (durationMs r) (warnings r) (strategy r) (providersSelected r) (providersAttempted r)
       (providersSucceeded r) (providerDetails r) |}.

(** ** Fusion *)

Definition RRF_K : Z := 60.
Definition MAX_CANDIDATES_PER_PROVIDER : nat := 50.
Definition MAX_RESULTS_PER_HOSTNAME : Z := 2.
Definition TRACKING_PARAMETERS : list string :=
  ["dclid"; "fbclid"; "gclid"; "mc_cid"; "mc_eid"; "msclkid"]%string.

Definition isTrackingParameter (name : string) : bool :=
  let normalized := toLowerCase name in
  startsWith normalized "utm_" || bool_decide (normalized ∈ TRACKING_PARAMETERS).

Record FusedCandidate := {
  cand_item : SearchResultItem;
  canonicalUrl : string;
  hostname : string;
  cand_score : float;
  cand_sources : list SearchResultSource;
  firstProviderIndex : nat
}.

Section fusion.
Context `{UrlApi}.

Definition canonicalSearchResultUrl (value : string) : option string :=
  match parse_url value with
  | None => None
  | Some u =>
      if (negb (bool_decide (url_protocol u = "http:"%string)) &&
          negb (bool_decide (url_protocol u = "https:"%string))) ||
         negb (falsy (url_username u)) || negb (falsy (url_password u)) then None
      else
        let u := clear_hash u in
        let u := foldl (λ u name, if isTrackingParameter name then delete_param name u else u)
                   u (param_names u) in
        Some (url_toString (sort_params u))
  end.

Definition source (p : SearchProviderId) (r : Z) (raw : option float) : SearchResultSource :=
  {| src_provider := p; rank := r; rawScore := raw |}.

(** [weight / (RRF_K + rank)] *)
Definition rrf (weight : float) (r : Z) : float := (weight / float_of_Z (RRF_K + r))%float.

(** The body of the inner loop, for the item at index [i] of a result.
    [new URL(canonicalUrl)] cannot fail on a URL it has just printed; the
    host name is empty where the parameter would not parse it. *)
Definition add_candidate (p : SearchProviderId) (weight : float) (providerIndex i : nat)
    (item : SearchResultItem) (m : js_map FusedCandidate) : js_map FusedCandidate :=
  match canonicalSearchResultUrl (url item) with
  | None => m
  | Some canonical =>
      let r := (Z.of_nat i + 1)%Z in
      let src := source p r (item_score item) in
      match map_get canonical m with
      | Some existing =>
          map_set canonical
            {| cand_item := cand_item existing; canonicalUrl := canonicalUrl existing;
               hostname := hostname existing;
               cand_score := (cand_score existing + rrf weight r)%float;
               cand_sources := cand_sources existing ++ [src];
               firstProviderIndex := firstProviderIndex existing |} m
      | None =>
          map_set canonical
            {| cand_item := item <| url := canonical |> <| item_provider := p |>;
               canonicalUrl := canonical;
               hostname := match parse_url canonical with
                           | Some u => url_hostname u | None => "" end;
               cand_score := rrf weight r;
               cand_sources := [src];
               firstProviderIndex := providerIndex |} m
      end
  end.

Fixpoint add_items (p : SearchProviderId) (weight : float) (providerIndex i : nat)
    (items : list SearchResultItem) (m : js_map FusedCandidate) : js_map FusedCandidate :=
  match items with
  | [] => m
  | item :: rest =>
      add_items p weight providerIndex (S i) rest (add_candidate p weight providerIndex i item m)
  end.

Fixpoint add_results (weights : gmap string float) (providerIndex : nat)
    (rs : list SearchResult) (m : js_map FusedCandidate) : js_map FusedCandidate :=
  match rs with
  | [] => m
  | r :: rest =>
      let weight := default 1%float (weights !! res_provider r) in
      add_results weights (S providerIndex) rest
        (add_items (res_provider r) weight providerIndex 0
           (take MAX_CANDIDATES_PER_PROVIDER (results r)) m)
  end.

Definition best_rank (c : FusedCandidate) : Z :=
  match cand_sources c with
  | [] => 0
  | s :: rest => foldl (λ acc s, Z.min acc (rank s)) (rank s) rest
  end.

(** [compare left right <= 0]: [left] may stay before [right]. *)
Definition candidate_leb (l r : FusedCandidate) : bool :=
  if negb (cand_score l =? cand_score r)%float then (cand_score r <? cand_score l)%float
  else if negb (length (cand_sources l) =? length (cand_sources r))
  then length (cand_sources r) <? length (cand_sources l)
  else if negb (best_rank l =? best_rank r)%Z then (best_rank l <? best_rank r)%Z
  else if negb (firstProviderIndex l =? firstProviderIndex r)
  then firstProviderIndex l <? firstProviderIndex r
  else (localeCompare (canonicalUrl l) (canonicalUrl r) <=? 0)%Z.

(** [sort], which is stable. *)
Fixpoint insert_candidate (c : FusedCandidate) (l : list FusedCandidate)
    : list FusedCandidate :=
  match l with
  | [] => [c]
  | d :: l' => if candidate_leb c d then c :: d :: l' else d :: insert_candidate c l'
  end.

Definition sort_candidates (l : list FusedCandidate) : list FusedCandidate :=
  foldr insert_candidate [] l.

Definition fused_item (c : FusedCandidate) : SearchResultItem :=
  (cand_item c) <| fusionScore := Some (cand_score c) |>
                <| sources := Some (cand_sources c) |>.

(** The last loop: at most two results per host name, at most [limit] in
    all ([limit] is positive). *)
Fixpoint take_per_host (limit : nat) (counts : gmap string Z) (l : list FusedCandidate)
    : list FusedCandidate :=
  match limit, l with
  | O, _ | _, [] => []
  | S limit', c :: l' =>
      let count := default 0%Z (counts !! hostname c) in
      if (MAX_RESULTS_PER_HOSTNAME <=? count)%Z then take_per_host limit counts l'
      else c :: take_per_host limit' (<[hostname c := (count + 1)%Z]> counts) l'
  end.

Definition fuseSearchResults (rs : list SearchResult) (maxResults : nat)
    (weights : gmap string float) : list SearchResultItem :=
  fused_item <$> take_per_host maxResults ∅
    (sort_candidates (snd <$> add_results weights 0 rs [])).

(** ** What fusion guarantees *)

Lemma insert_candidate_perm c l : insert_candidate c l ≡ₚ c :: l.
Proof.
  induction l as [|d l IH]; cbn; [done|]. case_match; [done|]. rewrite IH. apply Permutation_swap.
Qed.

Lemma sort_candidates_perm l : sort_candidates l ≡ₚ l.
Proof. induction l as [|c l IH]; cbn; [done|]. by rewrite insert_candidate_perm, IH. Qed.

(** Candidates are stored under their canonical URL, which came from an item
    of one of the results. *)
Definition cand_ok (P : string → SearchResultItem → Prop) (k : string) (c : FusedCandidate)
    : Prop :=
  canonicalUrl c = k ∧ url (cand_item c) = k ∧ cand_sources c ≠ [] ∧
  ∃ item, P (item_provider (cand_item c)) item ∧ canonicalSearchResultUrl (url item) = Some k.

Definition cands_ok (P : string → SearchResultItem → Prop) (m : js_map FusedCandidate) : Prop :=
  map_ok m ∧ ∀ k c, map_get k m = Some c → cand_ok P k c.

Lemma add_candidate_ok P p w pi i item m :
  P p item → cands_ok P m → cands_ok P (add_candidate p w pi i item m).
Proof.
  intros Hitem [Hm Hc]. unfold add_candidate.
  destruct (canonicalSearchResultUrl (url item)) as [k|] eqn:Hk; [|done].
  destruct (map_get k m) as [e|] eqn:He; (split; [by apply map_ok_set|]); intros k' c;
    rewrite map_get_set; case_decide; subst; try apply Hc; intros [= <-].
  - destruct (Hc _ _ He) as (? & ? & ? & ?). split_and!; cbn; [done|done| |done].
    by destruct (cand_sources e).
  - split_and!; cbn; try done. by exists item.
Qed.

Lemma add_items_ok P p w pi i items m :
  Forall (P p) items → cands_ok P m → cands_ok P (add_items p w pi i items m).
Proof.
  intros Hitems. revert i m. induction Hitems; intros i m Hm; cbn; [done|].
  by apply IHHitems, add_candidate_ok.
Qed.

Lemma add_results_ok P ws pi rs m :
  Forall (λ r, Forall (P (res_provider r)) (results r)) rs → cands_ok P m →
  cands_ok P (add_results ws pi rs m).
Proof.
  intros Hrs. revert pi m. induction Hrs as [|r rs Hr Hrs IH]; intros pi m Hm; cbn; [done|].
  apply IH, add_items_ok; [by apply Forall_take|done].
Qed.

Definition host_count (h : string) (l : list FusedCandidate) : nat :=
  length (filter (λ c, hostname c = h) l).

Lemma take_per_host_spec limit counts l :
  (∀ h, (0 <= default 0 (counts !! h) <= 2)%Z) →
  let out := take_per_host limit counts l in
  length out ≤ limit ∧ out `sublist_of` l ∧
  ∀ h, (default 0%Z (counts !! h) + Z.of_nat (host_count h out) <= 2)%Z.
Proof.
  revert counts limit. induction l as [|c l IH]; intros counts limit Hc.
  { destruct limit; cbn; (split_and!; [lia|done|]); intros h; specialize (Hc h); lia. }
  destruct limit as [|limit]; cbn.
  { split_and!; [lia|apply sublist_nil_l|]. intros h. specialize (Hc h). lia. }
  destruct (_ <=? _)%Z eqn:Hle; reflect; unfold MAX_RESULTS_PER_HOSTNAME in *.
  - destruct (IH counts (S limit) Hc) as (? & ? & ?). split_and!; [done|by apply sublist_cons|done].
  - set (counts' := <[hostname c := _]> counts).
    assert (∀ h, default 0%Z (counts' !! h) =
      (default 0%Z (counts !! h) + if decide (hostname c = h) then 1 else 0)%Z) as Hget.
    { intros h. subst counts'. case_decide as Hh.
      - subst. by rewrite lookup_insert_eq.
      - rewrite lookup_insert_ne by done. lia. }
    destruct (IH counts' limit) as (? & ? & Hcount).
    { intros h. rewrite Hget. specialize (Hc h). case_decide; subst; lia. }
    split_and!; [cbn; lia|by apply sublist_skip|]. intros h. specialize (Hcount h).
    rewrite Hget in Hcount. unfold host_count in *. rewrite filter_cons.
    case_decide; cbn [length]; lia.
Qed.

Lemma fuse_spec rs maxResults weights :
  let chosen := take_per_host maxResults ∅
                  (sort_candidates (snd <$> add_results weights 0 rs [])) in
  fuseSearchResults rs maxResults weights = fused_item <$> chosen ∧
  length (fuseSearchResults rs maxResults weights) ≤ maxResults ∧
  NoDup (url <$> fuseSearchResults rs maxResults weights) ∧
  (∀ h, host_count h chosen ≤ 2) ∧
  ∀ out, out ∈ fuseSearchResults rs maxResults weights →
    ∃ r item, r ∈ rs ∧ item ∈ results r ∧ item_provider out = res_provider r ∧
      canonicalSearchResultUrl (url item) = Some (url out) ∧ sources out ≠ Some [].
Proof.
  intros chosen. set (m := add_results weights 0 rs []).
  set (P := λ p item, ∃ r, r ∈ rs ∧ res_provider r = p ∧ item ∈ results r).
  assert (cands_ok P m) as [Hm Hok].
  { apply add_results_ok; [|split; [apply map_ok_nil|done]].
    apply Forall_forall. intros r Hr. apply Forall_forall. intros item Hitem.
    exists r. split_and!; done. }
  destruct (take_per_host_spec maxResults ∅ (sort_candidates (snd <$> m))) as (Hlen & Hsub & Hh).
  { intros h. rewrite lookup_empty. cbn. lia. }
  fold chosen in Hlen, Hsub, Hh.
  assert (∀ c, c ∈ chosen → cand_ok P (canonicalUrl c) c) as Hall.
  { intros c Hc. eapply elem_of_sublist in Hc; [|exact Hsub].
    rewrite sort_candidates_perm in Hc. apply list_elem_of_fmap in Hc as ([k c'] & -> & Hc).
    apply map_get_Some in Hc; [|done]. pose proof (Hok _ _ Hc) as Hk. cbn.
    by rewrite (proj1 Hk). }
  split_and!; [done|unfold fuseSearchResults; rewrite length_fmap; exact Hlen| | |].
  - unfold fuseSearchResults. fold m chosen.
    rewrite <- list_fmap_compose.
    rewrite (list_fmap_ext _ canonicalUrl).
    2:{ intros i c Hc%list_elem_of_lookup_2. destruct (Hall c Hc) as (_ & Hu & _). exact Hu. }
    eapply sublist_NoDup; [|apply (fmap_sublist canonicalUrl), Hsub].
    rewrite sort_candidates_perm, <- list_fmap_compose.
    rewrite (list_fmap_ext _ fst); [exact Hm|].
    intros i [k c] Hc%list_elem_of_lookup_2. apply map_get_Some in Hc; [|done].
    by destruct (Hok _ _ Hc).
  - intros h. specialize (Hh h). rewrite lookup_empty in Hh. by apply Nat2Z.inj_le.
  - intros out (c & -> & Hc)%list_elem_of_fmap.
    destruct (Hall c Hc) as (_ & Hu & Hsrc & item & (r & Hr & Hp & Hi) & Hcan).
    exists r, item. cbn. rewrite Hu. split_and!; try done. by intros [= Hs].
Qed.

(** fused results are bounded, diverse and traceable.  For any results
    of any providers, the output has at most [maxResults] items, no two with
    the same URL, at most two from one host, and each is an item of one of
    the providers, under its canonical URL and attributed to a provider
    that returned it, with at least one source. *)
Theorem fused_results_are_bounded_and_traceable rs maxResults weights :
  let chosen := take_per_host maxResults ∅
                  (sort_candidates (snd <$> add_results weights 0 rs [])) in
  fuseSearchResults rs maxResults weights = fused_item <$> chosen ∧
  length (fuseSearchResults rs maxResults weights) ≤ maxResults ∧
  NoDup (url <$> fuseSearchResults rs maxResults weights) ∧
  (∀ h, host_count h chosen ≤ 2) ∧
  ∀ out, out ∈ fuseSearchResults rs maxResults weights →
    ∃ r item, r ∈ rs ∧ item ∈ results r ∧ item_provider out = res_provider r ∧
      canonicalSearchResultUrl (url item) = Some (url out) ∧ sources out ≠ Some [].
Proof. apply fuse_spec. Qed.
End fusion.
