(* ===== verification/ProviderCalls.v ===== *)
(** * Calling providers

    What [src/core/search-router.ts] and the other routers share: the state
    they run on, the call of one provider, and [Promise.all] over several.

    The state is the health tracker, the attempt budget and the world (the
    clock, the caller's signal, the network).  All three are shared with
    other requests, so a provider's call, during which others run, may leave
    any of them in any state.  [calls] is a ghost: the providers called so
    far, recorded when a call starts. *)

From S2P Require Import Prelude JsString JsMap SearchBudget SearchSelect ProviderHealth.
From Stdlib Require Import PrimFloat.

(** The runtime as the routers see it: the clock, [signal.reason] once the
    signal is aborted, and which of the pending calls ends next. *)
Class Runtime (W : Type) := {
  now_of : W → Z;
  signal_reason : W → option thrown;
  next_done : W → nat
}.

Record Shared (H T W : Type) := { health : option H; budget : option T; world : W }.
Arguments Build_Shared {H T W} _ _ _.
Arguments health {H T W} _.
Arguments budget {H T W} _.
Arguments world {H T W} _.

Record Env (H T W : Type) := { shared : Shared H T W; calls : list SearchProviderId }.
Arguments Build_Env {H T W} _ _.
Arguments shared {H T W} _.
Arguments calls {H T W} _.

(** A provider: the interface is the same for all routers but for the
    request and result types. *)
Record Provider (H T W Req Res : Type) := {
  provider_id : SearchProviderId;
  supports : Req → bool;
  call : Req → M (Shared H T W) Res
}.
Arguments provider_id {H T W Req Res} _.
Arguments supports {H T W Req Res} _ _.
Arguments call {H T W Req Res} _ _ _.

(** [new Map(providers.map((provider) => [provider.id, provider]))] *)
Definition provider_map {H T W Req Res} (ps : list (Provider H T W Req Res))
    : js_map (Provider H T W Req Res) :=
  foldl (λ m p, map_set (provider_id p) p m) [] ps.

Section calls.
Context {H T W : Type} `{ProviderHealthTracker H} `{SearchBudgetTracker T} `{Runtime W}.

Definition clock : M (Env H T W) Z := gets (λ e, now_of (world (shared e))).

Definition on_shared {A} (f : Shared H T W → A * Shared H T W) : M (Env H T W) A := λ e,
  let '(a, sh) := f (shared e) in (Ok a, {| shared := sh; calls := calls e |}).

(** [this.health === undefined || this.health.isHealthy(id)] *)
Definition healthy (id : SearchProviderId) (sh : Shared H T W) : bool :=
  match health sh with None => true | Some h => isHealthy id (now_of (world sh)) h end.

(** [this.health?.recordSuccess(id)] and [recordFailure] *)
Definition note_success (id : SearchProviderId) : M (Env H T W) unit :=
  on_shared (λ sh, (tt, {| health := recordSuccess id (now_of (world sh)) <$> health sh;
                           budget := budget sh; world := world sh |})).
Definition note_failure (id : SearchProviderId) : M (Env H T W) unit :=
  on_shared (λ sh, (tt, {| health := recordFailure id (now_of (world sh)) <$> health sh;
                           budget := budget sh; world := world sh |})).

(** [this.health?.penalty(id) ?? 0] *)
Definition penalty_of (id : SearchProviderId) (sh : Shared H T W) : float :=
  match health sh with
  | None => 0%float
  | Some h => penalty id (now_of (world sh)) h
  end.

(** [this.budget?.remaining(id) === 0] *)
Definition budget_is_empty (id : SearchProviderId) : M (Env H T W) bool :=
  on_shared (λ sh,
    match budget sh with
    | None => (false, sh)
    | Some t =>
        let '(r, t') := remaining id (now_of (world sh)) t in
        (bool_decide (r = Some 0%Z),
         {| health := health sh; budget := Some t'; world := world sh |})
    end).

(** [this.budget === undefined || this.budget.tryConsume(id)] *)
Definition consume (id : SearchProviderId) : M (Env H T W) bool :=
  on_shared (λ sh,
    match budget sh with
    | None => (true, sh)
    | Some t =>
        let '(ok, t') := tryConsume id (now_of (world sh)) t in
        (ok, {| health := health sh; budget := Some t'; world := world sh |})
    end).

(** [consumeProviderAttemptBudget(this.budget, id, source, throwing)] *)
Definition consume_attempt (id source : string) (throwing : bool)
    : M (Env H T W) (option string) := λ e,
  let sh := shared e in
  let '(r, b) := consumeProviderAttemptBudget (budget sh) id (now_of (world sh)) source throwing in
  (r, {| shared := {| health := health sh; budget := b; world := world sh |};
         calls := calls e |}).

Section one_kind.
Context {Req Res : Type}.
Implicit Types (p : Provider H T W Req Res) (req : Req).

(** The start of a call, and the call up to its answer. *)
Definition begin_call p : M (Env H T W) unit :=
  update (λ e, {| shared := shared e; calls := calls e ++ [provider_id p] |}).

Definition await_call p req : M (Env H T W) Res := λ e,
  let '(r, sh) := call p req (shared e) in (r, {| shared := sh; calls := calls e |}).

(** ** [Promise.all(providers.map(async (provider) => ...))]

    Every provider is first taken as far as its call, in order: [launch]
    gives an outcome if it gets no further.  Then the calls end, one after
    the other, in the order the runtime picks: [finish] turns an answer
    into an outcome.  The outcomes are in the order of the providers. *)

Record Outcome (R : Type) := {
  out_provider : SearchProviderId;
  attempted : bool;
  out_result : option R;
  out_warning : option string
}.

Context {R : Type}
  (launch : Provider H T W Req Res → M (Env H T W) (option (Outcome R)))
  (finish : Provider H T W Req Res → M (Env H T W) (Outcome R)).


Fixpoint launch_all (i : nat) (ps : list (Provider H T W Req Res))
    : M (Env H T W) (list (option (Outcome R)) * list (nat * Provider H T W Req Res)) :=
  match ps with
  | [] => mret ([], [])
  | p :: rest =>
      o ← launch p;
      '(slots, pending) ← launch_all (S i) rest;
      mret (o :: slots, match o with None => (i, p) :: pending | Some _ => pending end)
  end.

(** [fuel] is the number of pending calls. *)
Fixpoint settle (fuel : nat) (pending : list (nat * Provider H T W Req Res)) (slots : list (option (Outcome R)))
    : M (Env H T W) (list (option (Outcome R))) :=
  match fuel with
  | O => mret slots
  | S fuel' =>
      k ← gets (λ e, next_done (world (shared e)) mod length pending);
      match pending !! k with
      | None => mret slots
      | Some (i, p) =>
          o ← finish p;
          settle fuel' (delete k pending) (<[i := Some o]> slots)
      end
  end.

Definition promise_all (ps : list (Provider H T W Req Res))
    : M (Env H T W) (list (Outcome R)) :=
  '(slots, pending) ← launch_all 0 ps;
  slots ← settle (length pending) pending slots;
  mret (omap id slots).
End one_kind.
End calls.
Arguments out_provider {R} _.
Arguments attempted {R} _.
Arguments out_result {R} _.
Arguments out_warning {R} _.
Arguments Build_Outcome {R} _ _ _ _.

(** ** What [Promise.all] guarantees *)

Section promise_all_spec.
Context {H T W : Type} `{ProviderHealthTracker H} `{SearchBudgetTracker T} `{Runtime W}.
Context {Req Res R : Type}
  (launch : Provider H T W Req Res → M (Env H T W) (option (Outcome R)))
  (finish : Provider H T W Req Res → M (Env H T W) (Outcome R))
  (Good : Provider H T W Req Res → Outcome R → Prop).

Definition launch_ok : Prop := ∀ p e, wp (launch p) (λ r e', ∃ o, r = Ok o ∧
  match o with
  | None => calls e' = calls e ++ [provider_id p]
  | Some o => calls e' = calls e ∧ Good p o ∧ attempted o = false
  end) e.

Definition finish_ok : Prop := ∀ p e, wp (finish p) (λ r e', ∃ o, r = Ok o ∧
  calls e' = calls e ∧ Good p o ∧ attempted o = true) e.

(** The providers whose slot is open after [launch_all]. *)
Definition launched (ps : list (Provider H T W Req Res)) (slots : list (option (Outcome R)))
    : list SearchProviderId :=
  omap (λ ps, match ps.2 with None => Some (provider_id ps.1) | Some _ => None end)
    (zip ps slots).

Definition slot_ok (p : Provider H T W Req Res) (s : option (Outcome R)) : Prop :=
  match s with Some o => Good p o ∧ attempted o = false | None => True end.

Lemma launch_all_spec i ps e : launch_ok →
  wp (launch_all launch i ps) (λ r e', ∃ slots pending, r = Ok (slots, pending) ∧
    Forall2 slot_ok ps slots ∧ calls e' = calls e ++ launched ps slots ∧
    (∀ j p, ps !! j = Some p → slots !! j = Some None → ((i + j)%nat, p) ∈ pending) ∧
    (∀ k p, (k, p) ∈ pending → ∃ j, k = (i + j)%nat ∧ ps !! j = Some p ∧ slots !! j = Some None)) e.
Proof.
  intros Hl. revert i e. induction ps as [|p ps IH]; intros i e; cbn.
  { exists [], []. split_and!; [done|constructor|by rewrite app_nil_r|done|].
    intros k p Hp. by apply not_elem_of_nil in Hp. }
  apply wp_bind. eapply wp_mono; [apply Hl|]. cbn. intros r e1 (o & -> & Ho).
  apply wp_bind. eapply wp_mono; [apply IH|]. cbn.
  intros r e2 (slots & pending & -> & Hall & Hc & Hin & Hout). apply wp_ret.
  eexists _, _. split; [done|]. split_and!.
  - constructor; [|done]. destruct o; [apply Ho|done].
  - rewrite Hc. destruct o as [o|]; unfold launched; cbn; [by destruct Ho as (-> & _)|].
    by rewrite Ho, <- app_assoc.
  - intros [|j] q; cbn.
    + intros [= <-] [= ->]. rewrite Nat.add_0_r. left.
    + intros Hq Hs. rewrite <- Nat.add_succ_comm.
      destruct o; [|right]; by apply Hin.
  - intros k q Hk. assert ((k, q) ∈ pending ∨ k = i ∧ q = p ∧ o = None) as [Hp|(-> & -> & ->)].
    { destruct o; [by left|]. apply elem_of_cons in Hk as [[= -> ->]|]; auto. }
    + destruct (Hout k q Hp) as (j & -> & ? & ?). exists (S j). split_and!; [lia|done|done].
    + exists O. split_and!; [lia|done|done].
Qed.

(** A final outcome: the one of the launch, or that of a call that ended. *)
Definition final_ok (p : Provider H T W Req Res) (s0 : option (Outcome R)) (o : Outcome R) : Prop :=
  Good p o ∧ match s0 with None => attempted o = true | Some o0 => o = o0 end.

Definition settling (ps : list (Provider H T W Req Res)) (slots0 slots : list (option (Outcome R)))
    (pending : list (nat * Provider H T W Req Res)) : Prop :=
  length slots = length ps ∧
  (∀ j p s0, ps !! j = Some p → slots0 !! j = Some s0 →
     (∃ o, slots !! j = Some (Some o) ∧ final_ok p s0 o) ∨
     (slots !! j = Some None ∧ (j, p) ∈ pending)) ∧
  (∀ j p, (j, p) ∈ pending → ps !! j = Some p ∧ slots0 !! j = Some None).

Lemma settle_spec ps slots0 fuel pending slots e :
  finish_ok → fuel = length pending → settling ps slots0 slots pending →
  wp (settle finish fuel pending slots) (λ r e', ∃ slots', r = Ok slots' ∧
    calls e' = calls e ∧ settling ps slots0 slots' []) e.
Proof.
  intros Hf. revert pending slots e. induction fuel as [|fuel IH]; intros pending slots e Hlen Hs.
  { apply wp_ret. exists slots. split_and!; try done. destruct pending; [|done]. exact Hs. }
  cbn [settle]. apply wp_gets. set (k := next_done _ mod _). assert (k < length pending) as Hk by (apply Nat.mod_upper_bound; lia).
  apply lookup_lt_is_Some in Hk as [[i p] Hk]. rewrite Hk.
  apply wp_bind. eapply wp_mono; [apply Hf|]. cbn. intros r e1 (o & -> & Hc & Hg & Ha).
  eapply wp_mono; [apply IH|].
  - rewrite length_delete; [lia|]. by exists (i, p).
  - destruct Hs as (Hsl & Hslots & Hpend).
    destruct (Hpend i p (list_elem_of_lookup_2 _ _ _ Hk)) as [Hi Hi0]. split_and!.
    + by rewrite length_insert.
    + intros j q s0 Hq Hs0. destruct (decide (i = j)) as [<-|Hne].
      * left. exists o. rewrite Hq in Hi. injection Hi as ->. rewrite Hs0 in Hi0.
        injection Hi0 as ->. split; [|by split].
        apply list_lookup_insert_eq. rewrite Hsl. by eapply lookup_lt_Some.
      * rewrite list_lookup_insert_ne by done. destruct (Hslots j q s0 Hq Hs0) as [|[? Hp]]; auto.
        right. split; [done|]. rewrite (delete_Permutation _ _ _ Hk) in Hp.
        apply elem_of_cons in Hp as [[= -> ->]|]; done.
    + intros j q Hj. apply Hpend. rewrite (delete_Permutation _ _ _ Hk). by right.
  - cbn. intros r e2 (slots' & -> & Hc2 & Hs'). exists slots'. by rewrite Hc2, Hc.
Qed.

Lemma settled_outcomes ps slots0 slots :
  length slots0 = length ps → settling ps slots0 slots [] →
  Forall3 final_ok ps slots0 (omap id slots).
Proof.
  revert slots0 slots. induction ps as [|p ps IH]; intros [|s0 slots0] [|s slots] Hl (Hs & Hj & _);
    try done; cbn in *; [constructor|].
  destruct (Hj 0 p s0 eq_refl eq_refl) as [(o & [= ->] & Ho)|[_ Hin]];
    [|by apply not_elem_of_nil in Hin].
  constructor; [done|]. apply IH; [lia|]. split_and!; [lia| |].
  - intros j q s1 Hq Hs1. destruct (Hj (S j) q s1 Hq Hs1) as [|[? Hin]]; [by left|by apply not_elem_of_nil in Hin].
  - intros j q Hin. by apply not_elem_of_nil in Hin.
Qed.

(** The providers called are those of the attempted outcomes, in order. *)
Definition attempted_ids (outs : list (Outcome R)) : list SearchProviderId :=
  out_provider <$> filter (λ o, attempted o = true) outs.

Lemma launched_attempted ps slots outs :
  (∀ p o, Good p o → out_provider o = provider_id p) →
  Forall2 slot_ok ps slots → Forall3 final_ok ps slots outs →
  launched ps slots = attempted_ids outs.
Proof.
  intros Hid Hs Hf. revert Hs. induction Hf as [|p s o ps slots outs [Hg Ho] Hf IH]; [done|].
  intros [Hps Hs]%Forall2_cons. unfold attempted_ids. rewrite filter_cons. unfold launched. cbn.
  fold (launched ps slots). destruct s as [o'|].
  - subst. rewrite decide_False by (destruct Hps; congruence). by apply IH.
  - rewrite decide_True by done. cbn. rewrite (Hid _ _ Hg). f_equal. by apply IH.
Qed.

Lemma promise_all_spec ps e :
  launch_ok → finish_ok → (∀ p o, Good p o → out_provider o = provider_id p) →
  wp (promise_all launch finish ps) (λ r e', ∃ outs, r = Ok outs ∧
    Forall2 Good ps outs ∧ calls e' = calls e ++ attempted_ids outs) e.
Proof.
  intros Hl Hf Hid. unfold promise_all. apply wp_bind.
  eapply wp_mono; [by apply launch_all_spec|]. cbn.
  intros r e1 (slots & pending & -> & Hs & Hc & Hin & Hout).
  apply wp_bind. eapply wp_mono; [apply (settle_spec ps slots)|].
  - done.
  - done.
  - split_and!; [by rewrite (Forall2_length _ _ _ Hs)| |].
    + intros j p s0 Hp Hs0. destruct s0 as [o|]; [left|right].
      * exists o. split; [done|]. destruct (Forall2_lookup_lr _ _ _ _ _ _ Hs Hp Hs0). by split.
      * split; [done|]. by apply Hin.
    + intros j p Hp. by destruct (Hout j p Hp) as (j' & -> & ? & ?).
  - cbn. intros r e2 (slots' & -> & Hc2 & Hset). apply wp_ret.
    apply settled_outcomes in Hset; [|by rewrite (Forall2_length _ _ _ Hs)].
    exists (omap id slots'). split_and!; [done| |].
    + clear -Hset. induction Hset as [|??? ??? []]; constructor; auto.
    + rewrite Hc2, Hc. f_equal. by apply launched_attempted.
Qed.
End promise_all_spec.
