(* ===== verification/ProviderRouter.v ===== *)
(** * The provider routers, in general

    The answer, research, content, map, crawl, news and images routers of
    [src/core] are one algorithm over different requests and results:
    validate the request, select the providers that support it, then try
    them one by one or all at once.  A [RouterSpec] holds what differs; the
    file Routers gives the seven. *)

From S2P Require Import Prelude JsString JsMap UrlPolicy SearchBudget SearchSelect.
From S2P Require Import ProviderHealth ProviderCalls.

Inductive RouteStrategy := route_fallback | route_parallel.

#[export] Instance RouteStrategy_eq_dec : EqDecision RouteStrategy.
Proof. solve_decision. Defined.

(** What a router reports of a run, whatever it returns in detail. *)
Record Routed (PR : Type) := {
  r_strategy : RouteStrategy;
  r_selected : list SearchProviderId;
  r_attempted : list SearchProviderId;
  r_succeeded : list SearchProviderId;
  r_results : list PR;
  r_durationMs : Z;
  r_warnings : list string
}.
Arguments Build_Routed {PR} _ _ _ _ _ _ _.
Arguments r_strategy {PR} _.
Arguments r_selected {PR} _.
Arguments r_attempted {PR} _.
Arguments r_succeeded {PR} _.
Arguments r_results {PR} _.
Arguments r_durationMs {PR} _.
Arguments r_warnings {PR} _.

Record RouterSpec (H T W Req PR Res : Type) := {
  stage : string;
  validateRequest : Req → M (Shared H T W) unit;
  want_provider : Req → option string;
  want_providers : Req → option (list SearchProviderId);
  want_strategy : Req → option RouteStrategy;
  no_provider : thrown;
  all_failed : thrown;
  was_cancelled : thrown;
  result_warnings : PR → list string;
  (** The provider a success is reported for: by its id in a fallback, and
      as the result names it otherwise. *)
  fallback_success : SearchProviderId → PR → SearchProviderId;
  parallel_success : PR → SearchProviderId;
  build : Req → Routed PR → Res
}.
Arguments stage {H T W Req PR Res} _.
Arguments validateRequest {H T W Req PR Res} _ _.
Arguments want_provider {H T W Req PR Res} _ _.
Arguments want_providers {H T W Req PR Res} _ _.
Arguments want_strategy {H T W Req PR Res} _ _.
Arguments no_provider {H T W Req PR Res} _.
Arguments all_failed {H T W Req PR Res} _.
Arguments was_cancelled {H T W Req PR Res} _.
Arguments result_warnings {H T W Req PR Res} _ _.
Arguments fallback_success {H T W Req PR Res} _ _ _.
Arguments parallel_success {H T W Req PR Res} _ _.
Arguments build {H T W Req PR Res} _ _ _.

(** [request.provider !== undefined && request.provider !== "auto"] *)
Definition explicit_provider (wanted : option string) : option SearchProviderId :=
  match wanted with
  | Some p => if decide (p = "auto"%string) then None else Some p
  | None => None
  end.

(** The last two tests of every [validateRequest]. *)
Definition selection_invalid (wanted : option string) (wanted_list : option (list string))
    : bool :=
  bool_decide (wanted_list = Some []) ||
  (is_defined (explicit_provider wanted) && is_defined wanted_list).

(** [!Number.isInteger(x) || x < lo || x > hi] *)
Definition not_int_in (lo hi : Z) (x : number) : bool :=
  negb (isInteger x) || num_ltb x (int lo) || num_ltb (int hi) x.

(** The same for an optional field: [x !== undefined && (...)]. *)
Definition not_opt_int_in (lo hi : Z) (x : option number) : bool :=
  match x with Some x => not_int_in lo hi x | None => false end.

(** [!s.trim()] *)
Definition blank (s : string) : bool := falsy (trim s).

(** One item per key, the first; the [dedupe...] functions of the routers. *)
Fixpoint dedupe_from {A} (key : A → string) (seen : list string) (items : list A) : list A :=
  match items with
  | [] => []
  | item :: rest =>
      let k := toLowerCase (key item) in
      if decide (k ∈ seen) then dedupe_from key seen rest
      else item :: dedupe_from key (k :: seen) rest
  end.

Definition dedupe {A} (key : A → string) (items : list A) : list A := dedupe_from key [] items.

Section router.
Context {H T W : Type} `{ProviderHealthTracker H} `{SearchBudgetTracker T} `{Runtime W}.
Context {Req PR Res : Type} (spec : RouterSpec H T W Req PR Res).

#[local] Notation RProvider := (Provider H T W Req PR).
#[local] Notation Run := (M (Env H T W)).

Definition on_env {A} (m : M (Shared H T W) A) : Run A := λ e,
  let '(r, sh) := m (shared e) in (r, {| shared := sh; calls := calls e |}).

Definition requested (order : list SearchProviderId) (req : Req) : list SearchProviderId :=
  match explicit_provider (want_provider spec req) with
  | Some p => [p]
  | None => default order (want_providers spec req)
  end.

Definition resolveProviders (providers : js_map RProvider) (order : list SearchProviderId)
    (req : Req) : list RProvider :=
  omap (λ id, p ← map_get id providers; guard (supports p req = true);; Some p)
    (js_unique (requested order req)).

Definition unavailable (id : SearchProviderId) : string := id +:+ " unavailable".

(** ** One by one *)

Fixpoint withFallback (req : Req) (all rest : list RProvider) (startedAt : Z)
    (warned : list string) (tried : list SearchProviderId) : Run Res :=
  match rest with
  | [] => throw (all_failed spec)
  | p :: rest =>
      let id := provider_id p in
      w ← consume_attempt id "provider-budget" (length all =? 1);
      match w with
      | Some w => withFallback req all rest startedAt (warned ++ [w]) tried
      | None =>
          let tried := tried ++ [id] in
          begin_call p;;
          outcome ← attempt (await_call p req);
          match outcome with
          | inl res =>
              now ← clock;
              mret (build spec req
                {| r_strategy := route_fallback;
                   r_selected := provider_id <$> all;
                   r_attempted := tried;
                   r_succeeded := [fallback_success spec id res];
                   r_results := [res];
                   r_durationMs := now - startedAt;
                   r_warnings := warned ++ result_warnings spec res |})
          | inr error =>
              let safe := toGroundlaneError error (stage spec) in
              if (length all =? 1) || negb (errRetryable safe) then throw (TGroundlane safe)
              else withFallback req all rest startedAt (warned ++ [unavailable id]) tried
          end
      end
  end.

(** ** All at once *)

Definition launch (p : RProvider) : Run (option (Outcome PR)) :=
  w ← consume_attempt (provider_id p) "provider-budget" false;
  match w with
  | Some w => mret (Some {| out_provider := provider_id p; attempted := false;
                            out_result := None; out_warning := Some w |})
  | None => begin_call p;; mret None
  end.

Definition finish (req : Req) (p : RProvider) : Run (Outcome PR) :=
  outcome ← attempt (await_call p req);
  mret match outcome with
       | inl res => {| out_provider := provider_id p; attempted := true;
                       out_result := Some res; out_warning := None |}
       | inr _ => {| out_provider := provider_id p; attempted := true; out_result := None;
                     out_warning := Some (unavailable (provider_id p)) |}
       end.

(** [if (signal.aborted) throw ...] *)
Definition check_signal (e : thrown) : Run unit :=
  reason ← gets (λ s, signal_reason (world (shared s)));
  match reason with
  | None => mret tt
  | Some (TGroundlane g) => throw (TGroundlane g)
  | Some _ => throw e
  end.

Definition inParallel (req : Req) (ps : list RProvider) (startedAt : Z) : Run Res :=
  outcomes ← promise_all launch (finish req) ps;
  check_signal (was_cancelled spec);;
  let results := omap out_result outcomes in
  lift (throw_if (bool_decide (length results = 0)) (all_failed spec));;
  now ← clock;
  mret (build spec req
    {| r_strategy := route_parallel;
       r_selected := provider_id <$> ps;
       r_attempted := attempted_ids outcomes;
       r_succeeded := parallel_success spec <$> results;
       r_results := results;
       r_durationMs := now - startedAt;
       r_warnings := omap out_warning outcomes ++ mjoin (result_warnings spec <$> results) |}).

(** ** The router's method *)

Definition route (ps : list RProvider) (order : list SearchProviderId) (req : Req) : Run Res :=
  on_env (validateRequest spec req);;
  startedAt ← clock;
  let selected := resolveProviders (provider_map ps) order req in
  lift (throw_if (bool_decide (length selected = 0)) (no_provider spec));;
  let strategy := match explicit_provider (want_provider spec req) with
                  | Some _ => route_fallback
                  | None => default route_parallel (want_strategy spec req)
                  end in
  match strategy with
  | route_fallback => withFallback req selected selected startedAt [] []
  | route_parallel => inParallel req selected startedAt
  end.
End router.
