(* ===== verification/Routers.v ===== *)
(** * The seven provider routers

    [src/core/answer-router.ts], [research-router.ts], [content-router.ts],
    [map-router.ts], [crawl-router.ts], [news-router.ts] and
    [images-router.ts], with the types of [contracts.ts] they route: a module
    per router, with its request and result types, its validation, its
    errors, and the [RouterSpec] that makes it an instance of
    ProviderRouter. *)

From S2P Require Import Prelude JsString JsMap UrlPolicy SearchBudget SearchSelect.
From S2P Require Import ProviderHealth ProviderCalls ProviderRouter.

(** The DNS resolver of the runtime. *)
Class Dns (S : Type) := { dns_lookup : string → M S (list ResolvedAddress) }.

(** [await resolvePublicUrl(request.url)], with the default options. *)
Definition check_public_url `{UrlApi} `{IpApi} {S} `{Dns S} (url : string) : M S unit := λ s,
  match resolvePublicUrl url
          {| lookup := dns_lookup; allowedPorts := default_ports; signal := λ _, None |}
          {| cache := None; net := s |} with
  | (Ok _, s') => (Ok tt, net s')
  | (Throw e, s') => (Throw e, net s')
  end.

(** [/^[a-z]{2}$/iu.test(s)] *)
Definition two_letters (s : string) : bool :=
  match chars s with
  | [a; b] => (is_upper a || is_lower a) && (is_upper b || is_lower b)
  | _ => false
  end.

(** [x !== undefined && f(x)] *)
Definition opt_test {A} (f : A → bool) (x : option A) : bool :=
  match x with Some x => f x | None => false end.

(** [.slice(0, n)] of a list, [n] an integer of the request. *)
Definition slice_first {A} (n : number) (l : list A) : list A := take (Z.to_nat (to_Z n)) l.

Definition invalid (stage message : string) : thrown := gerror INVALID_INPUT stage message false.
Definition unavailable_error (stage message : string) : thrown :=
  gerror PROVIDER_UNAVAILABLE stage message true.
Definition unavailable_hint (stage message code text : string) : thrown :=
  gerror_hint PROVIDER_UNAVAILABLE stage message true (hint code text).
Definition cancelled_error (stage : string) : thrown :=
  gerror CANCELLED stage "The request was cancelled" false.

(** ** [answer-router.ts] *)

Module Answer.
Definition ANSWER_PROVIDER_IDS : list SearchProviderId := ["linkup"; "you"]%string.

Record AnswerRequest := {
  query : string;
  maxResults : number;
  domains : option (list string);
  excludeDomains : option (list string);
  timeRange : option SearchTimeRange;
  provider : option string;
  providers : option (list SearchProviderId);
  strategy : option RouteStrategy
}.

Record AnswerCitation := {
  cited_url : string;
  cited_title : option string;
  excerpts : list string
}.

Record AnswerResultItem := {
  title : string;
  url : string;
  snippet : string;
  publishedAt : option string;
  item_provider : SearchProviderId
}.

Record AnswerProviderResult := {
  by_provider : SearchProviderId;
  answer : string;
  citations : list AnswerCitation;
  results : list AnswerResultItem;
  durationMs : Z;
  warnings : list string
}.

Record AnswerResult := { res_query : string; answers : Routed AnswerProviderResult }.

Definition answer_invalid (r : AnswerRequest) : bool :=
  blank (query r) || not_int_in 1 20 (maxResults r) ||
  selection_invalid (provider r) (providers r).

Definition answer_spec {H T W} : RouterSpec H T W AnswerRequest AnswerProviderResult AnswerResult :=
  {| stage := "web_answer";
     validateRequest := λ r, lift (throw_if (answer_invalid r)
       (invalid "web_answer" "Answer query, result limit, or provider selection is invalid"));
     want_provider := provider; want_providers := providers; want_strategy := strategy;
     no_provider := unavailable_error "web_answer"
       "No configured answer provider supports this request";
     all_failed := unavailable_error "web_answer"
       "All selected answer providers were unavailable";
     was_cancelled := cancelled_error "web_answer";
     result_warnings := warnings;
     fallback_success := λ id _, id;
     parallel_success := by_provider;
     build := λ r run, {| res_query := query r; answers := run |} |}.
End Answer.

(** ** [research-router.ts] *)

Module Research.
Definition RESEARCH_PROVIDER_IDS : list SearchProviderId := ["linkup"; "you"; "parallel"]%string.

(** [effort] is whatever string the request carries. *)
Record ResearchRequest := {
  query : string;
  effort : string;
  domains : option (list string);
  excludeDomains : option (list string);
  timeRange : option SearchTimeRange;
  country : option string;
  provider : option string;
  providers : option (list SearchProviderId);
  strategy : option RouteStrategy
}.

Record ResearchCitation := {
  cited_url : string;
  cited_title : option string;
  excerpts : list string
}.

Record ResearchProviderResult := {
  by_provider : SearchProviderId;
  report : string;
  citations : list ResearchCitation;
  durationMs : Z;
  warnings : list string
}.

Record ResearchResult := {
  res_query : string;
  res_effort : string;
  reports : Routed ResearchProviderResult
}.

Definition research_invalid (r : ResearchRequest) : bool :=
  blank (query r) || negb (bool_decide (effort r ∈ ["lite"; "standard"; "deep"]%string)) ||
  selection_invalid (provider r) (providers r) ||
  (is_defined (domains r) && is_defined (excludeDomains r)).

Definition research_spec {H T W}
    : RouterSpec H T W ResearchRequest ResearchProviderResult ResearchResult :=
  {| stage := "web_research";
     validateRequest := λ r, lift (throw_if (research_invalid r)
       (gerror_hint INVALID_INPUT "web_research"
          "Research query, effort, or provider selection is invalid" false
          (hint "web_research.invalid_input" ("Check the request: query must be non-empty, effort must be one of " +:+
      "lite|standard|deep, provider/providers mutually exclusive, and " +:+
      "domains/excludeDomains are mutually exclusive (not both)."))));
     want_provider := provider; want_providers := providers; want_strategy := strategy;
     no_provider := unavailable_hint "web_research"
       "No configured research provider supports this request" "web_research.no_provider"
       ("No configured research provider matched the request. provider_quota should " +:+
      "show which adapters are enabled.");
     all_failed := unavailable_hint "web_research"
       "All selected research providers were unavailable" "web_research.all_providers_failed"
       ("Every selected research provider errored. Inspect warnings for per-provider " +:+
      "reasons. Try a different provider, add credentials, or wait for upstream to " +:+
      "recover.");
     was_cancelled := gerror_hint CANCELLED "web_research" "The request was cancelled" false
       (hint "web_research.cancelled" ("The caller aborted the request before completion. Issue a fresh call if you " +:+
      "still need this research synthesis."));
     result_warnings := warnings;
     fallback_success := λ id _, id;
     parallel_success := by_provider;
     build := λ r run, {| res_query := query r; res_effort := effort r; reports := run |} |}.
End Research.

(** ** [content-router.ts] *)

Module Content.
Definition CONTENT_PROVIDER_IDS : list SearchProviderId :=
  ["linkup"; "you"; "exa"; "tavily"; "firecrawl"; "tinyfish"; "keenable"; "crawl4ai"]%string.

Record ContentRequest := {
  url : string;
  maxContentChars : number;
  provider : option string;
  providers : option (list SearchProviderId);
  strategy : option RouteStrategy;
  live : option bool
}.

Inductive ContentFormat := markdown | text.

Record ContentProviderResult := {
  by_provider : SearchProviderId;
  res_url : string;
  finalUrl : string;
  title : option string;
  content : string;
  format : ContentFormat;
  truncated : bool;
  durationMs : Z;
  warnings : list string
}.

Record ContentResult := { asked_url : string; contents : Routed ContentProviderResult }.

Definition content_invalid (r : ContentRequest) : bool :=
  blank (url r) || not_int_in 1 200000 (maxContentChars r) ||
  selection_invalid (provider r) (providers r).

Definition content_spec `{UrlApi} `{IpApi} {H T W} `{Dns (Shared H T W)}
    : RouterSpec H T W ContentRequest ContentProviderResult ContentResult :=
  {| stage := "web_content";
     validateRequest := λ r,
       lift (throw_if (content_invalid r)
         (gerror_hint INVALID_INPUT "web_content"
            "Content URL, output limit, or provider selection is invalid" false
            (hint "web_content.invalid_input" ("Check the request: url must be a non-empty public http(s) URL, " +:+
      "maxContentChars must be 1-200000, and provider/providers must be specified at " +:+
      "most once."))));;
       check_public_url (url r);
     want_provider := provider; want_providers := providers; want_strategy := strategy;
     no_provider := unavailable_hint "web_content"
       "No configured content provider supports this request" "web_content.no_provider"
       ("No configured content provider matched the request. Check provider_quota to " +:+
      "see which adapters are enabled, and ensure at least one of them is keyed or " +:+
      "in the auto pool.");
     all_failed := unavailable_hint "web_content"
       "All selected content providers were unavailable" "web_content.all_providers_failed"
       ("Every selected provider errored. Inspect the warnings field for per-provider " +:+
      "failure reasons. Try a different provider, add credentials, or wait for " +:+
      "upstream to recover.");
     was_cancelled := gerror_hint CANCELLED "web_content" "The request was cancelled" false
       (hint "web_content.cancelled" ("The caller aborted the request before any provider returned. Issue a fresh " +:+
      "call if you still need this content."));
     result_warnings := warnings;
     fallback_success := λ id _, id;
     parallel_success := by_provider;
     build := λ r run, {| asked_url := url r; contents := run |} |}.
End Content.

(** ** [map-router.ts] *)

Module SiteMap.
Definition MAP_PROVIDER_IDS : list SearchProviderId := ["firecrawl"; "tavily"]%string.

Record MapRequest := {
  url : string;
  maxLinks : number;
  provider : option string;
  providers : option (list SearchProviderId);
  strategy : option RouteStrategy;
  search : option string;
  includeSubdomains : option bool;
  ignoreCache : option bool;
  maxDepth : option number;
  maxBreadth : option number
}.

Record MapLink := {
  link_url : string;
  title : option string;
  description : option string;
  link_provider : SearchProviderId
}.

Record MapProviderResult := {
  by_provider : SearchProviderId;
  res_url : string;
  links : list MapLink;
  durationMs : Z;
  warnings : list string
}.

(** [links] of all results, and the run with the results themselves. *)
Record MapResult := {
  asked_url : string;
  all_links : list MapLink;
  providerResults : Routed MapProviderResult
}.

Definition dedupeLinks : list MapLink → list MapLink := dedupe link_url.

Definition map_invalid (r : MapRequest) : bool :=
  blank (url r) || not_int_in 1 1000 (maxLinks r) ||
  opt_test blank (search r) || opt_test (λ s, (500 <? str_length s)%Z) (search r) ||
  not_opt_int_in 1 5 (maxDepth r) || not_opt_int_in 1 500 (maxBreadth r) ||
  selection_invalid (provider r) (providers r).

Definition map_spec `{UrlApi} `{IpApi} {H T W} `{Dns (Shared H T W)}
    : RouterSpec H T W MapRequest MapProviderResult MapResult :=
  {| stage := "web_map";
     validateRequest := λ r,
       lift (throw_if (map_invalid r)
         (invalid "web_map" "Map URL, limits, search, or provider selection is invalid"));;
       check_public_url (url r);
     want_provider := provider; want_providers := providers; want_strategy := strategy;
     no_provider := unavailable_error "web_map" "No configured map provider supports this request";
     all_failed := unavailable_error "web_map" "All selected map providers were unavailable";
     was_cancelled := cancelled_error "web_map";
     result_warnings := warnings;
     fallback_success := λ _, by_provider;
     parallel_success := by_provider;
     build := λ r run,
       {| asked_url := url r;
          all_links := slice_first (maxLinks r) (dedupeLinks (mjoin (links <$> r_results run)));
          providerResults := run |} |}.
End SiteMap.

(** ** [crawl-router.ts] *)

Module SiteCrawl.
Definition CRAWL_PROVIDER_IDS : list SearchProviderId := ["firecrawl"; "tavily"]%string.

Record CrawlRequest := {
  url : string;
  maxPages : number;
  maxContentChars : number;
  provider : option string;
  providers : option (list SearchProviderId);
  strategy : option RouteStrategy;
  instructions : option string;
  includeSubdomains : option bool;
  ignoreCache : option bool;
  maxDepth : option number;
  maxBreadth : option number;
  maxPolls : option number;
  pollIntervalMs : option number
}.

Record CrawlPage := {
  page_url : string;
  title : option string;
  description : option string;
  content : option string;
  contentChars : Z;
  truncated : bool;
  page_provider : SearchProviderId
}.

Inductive CrawlStatus := crawl_completed | crawl_running | crawl_failed | crawl_unknown.

Record CrawlProviderResult := {
  by_provider : SearchProviderId;
  res_url : string;
  status : CrawlStatus;
  jobId : option string;
  total : option Z;
  completed : option Z;
  creditsUsed : option Z;
  pages : list CrawlPage;
  durationMs : Z;
  warnings : list string
}.

Record CrawlResult := {
  asked_url : string;
  all_pages : list CrawlPage;
  providerResults : Routed CrawlProviderResult
}.

Definition dedupePages : list CrawlPage → list CrawlPage := dedupe page_url.

Definition crawl_invalid (r : CrawlRequest) : bool :=
  blank (url r) || not_int_in 1 100 (maxPages r) || not_int_in 0 20000 (maxContentChars r) ||
  opt_test blank (instructions r) ||
  opt_test (λ s, (500 <? str_length s)%Z) (instructions r) ||
  not_opt_int_in 1 5 (maxDepth r) || not_opt_int_in 1 500 (maxBreadth r) ||
  not_opt_int_in 1 5 (maxPolls r) || not_opt_int_in 250 5000 (pollIntervalMs r) ||
  selection_invalid (provider r) (providers r).

Definition crawl_spec `{UrlApi} `{IpApi} {H T W} `{Dns (Shared H T W)}
    : RouterSpec H T W CrawlRequest CrawlProviderResult CrawlResult :=
  {| stage := "web_crawl";
     validateRequest := λ r,
       lift (throw_if (crawl_invalid r)
         (gerror_hint INVALID_INPUT "web_crawl"
            "Crawl URL, limits, instructions, polling, or provider selection is invalid" false
            (hint "web_crawl.invalid_input" ("Check the request: url must be a public http(s) URL, maxPages 1-100, " +:+
      "maxContentChars 0-20000, maxDepth 1-5, maxBreadth 1-500, maxPolls 1-5, " +:+
      "pollIntervalMs 250-5000, instructions <= 500 chars, provider/providers " +:+
      "mutually exclusive."))));;
       check_public_url (url r);
     want_provider := provider; want_providers := providers; want_strategy := strategy;
     no_provider := unavailable_hint "web_crawl"
       "No configured crawl provider supports this request" "web_crawl.no_provider"
       ("No configured crawl provider matched the request. provider_quota should show " +:+
      "firecrawl and/or tavily as enabled.");
     all_failed := unavailable_hint "web_crawl"
       "All selected crawl providers were unavailable" "web_crawl.all_providers_failed"
       ("Every selected crawl provider errored. Inspect warnings for per-provider " +:+
      "reasons. Try a different provider or wait for upstream to recover.");
     was_cancelled := gerror_hint CANCELLED "web_crawl" "The request was cancelled" false
       (hint "web_crawl.cancelled" ("The caller aborted the request before completion. Issue a fresh call if you " +:+
      "still need this crawl."));
     result_warnings := warnings;
     fallback_success := λ _, by_provider;
     parallel_success := by_provider;
     build := λ r run,
       {| asked_url := url r;
          all_pages := slice_first (maxPages r) (dedupePages (mjoin (pages <$> r_results run)));
          providerResults := run |} |}.
End SiteCrawl.

(** ** [news-router.ts] *)

Module News.
Definition NEWS_PROVIDER_IDS : list SearchProviderId := ["brave"; "serper"; "serpapi"]%string.

Record NewsRequest := {
  query : string;
  maxResults : number;
  provider : option string;
  providers : option (list SearchProviderId);
  strategy : option RouteStrategy;
  timeRange : option SearchTimeRange;
  country : option string;
  language : option string
}.

Record NewsItem := {
  title : string;
  item_url : string;
  snippet : string;
  source : option string;
  publishedAt : option string;
  thumbnailUrl : option string;
  item_provider : SearchProviderId
}.

Record NewsProviderResult := {
  by_provider : SearchProviderId;
  res_query : string;
  results : list NewsItem;
  durationMs : Z;
  warnings : list string
}.

Record NewsResult := {
  asked_query : string;
  all_results : list NewsItem;
  providerResults : Routed NewsProviderResult
}.

Definition dedupeNews : list NewsItem → list NewsItem := dedupe item_url.

Definition news_invalid (r : NewsRequest) : bool :=
  blank (query r) || (2000 <? str_length (query r))%Z || not_int_in 1 50 (maxResults r) ||
  opt_test (λ s, negb (two_letters s)) (country r) ||
  opt_test (λ s, negb (two_letters s)) (language r) ||
  selection_invalid (provider r) (providers r).

Definition news_spec {H T W} : RouterSpec H T W NewsRequest NewsProviderResult NewsResult :=
  {| stage := "web_news";
     validateRequest := λ r, lift (throw_if (news_invalid r)
       (invalid "web_news" "News query, limits, locale, or provider selection is invalid"));
     want_provider := provider; want_providers := providers; want_strategy := strategy;
     no_provider := unavailable_error "web_news"
       "No configured news provider supports this request";
     all_failed := unavailable_error "web_news" "All selected news providers were unavailable";
     was_cancelled := cancelled_error "web_news";
     result_warnings := warnings;
     fallback_success := λ _, by_provider;
     parallel_success := by_provider;
     build := λ r run,
       {| asked_query := query r;
          all_results := slice_first (maxResults r)
            (dedupeNews (mjoin (results <$> r_results run)));
          providerResults := run |} |}.
End News.

(** ** [images-router.ts] *)

Module Images.
Definition IMAGES_PROVIDER_IDS : list SearchProviderId := ["brave"; "serper"; "serpapi"]%string.

Record ImagesRequest := {
  query : string;
  maxResults : number;
  provider : option string;
  providers : option (list SearchProviderId);
  strategy : option RouteStrategy;
  safeSearch : option string;
  country : option string;
  language : option string
}.

Record ImageItem := {
  title : string;
  imageUrl : string;
  sourceUrl : string;
  thumbnailUrl : option string;
  source : option string;
  width : option Z;
  height : option Z;
  thumbnailWidth : option Z;
  thumbnailHeight : option Z;
  item_provider : SearchProviderId
}.

Record ImagesProviderResult := {
  by_provider : SearchProviderId;
  res_query : string;
  results : list ImageItem;
  durationMs : Z;
  warnings : list string
}.

Record ImagesResult := {
  asked_query : string;
  all_results : list ImageItem;
  providerResults : Routed ImagesProviderResult
}.

Definition dedupeImages : list ImageItem → list ImageItem := dedupe imageUrl.

Definition images_invalid (r : ImagesRequest) : bool :=
  blank (query r) || (2000 <? str_length (query r))%Z || not_int_in 1 50 (maxResults r) ||
  opt_test (λ s, negb (two_letters s)) (country r) ||
  opt_test (λ s, negb (two_letters s)) (language r) ||
  selection_invalid (provider r) (providers r).

Definition images_spec {H T W} : RouterSpec H T W ImagesRequest ImagesProviderResult ImagesResult :=
  {| stage := "web_images";
     validateRequest := λ r, lift (throw_if (images_invalid r)
       (invalid "web_images" "Images query, limits, locale, or provider selection is invalid"));
     want_provider := provider; want_providers := providers; want_strategy := strategy;
     no_provider := unavailable_error "web_images"
       "No configured images provider supports this request";
     all_failed := unavailable_error "web_images" "All selected images providers were unavailable";
     was_cancelled := cancelled_error "web_images";
     result_warnings := warnings;
     fallback_success := λ _, by_provider;
     parallel_success := by_provider;
     build := λ r run,
       {| asked_query := query r;
          all_results := slice_first (maxResults r)
            (dedupeImages (mjoin (results <$> r_results run)));
          providerResults := run |} |}.
End Images.
