(* ===== verification/ProviderRouterSafety.v ===== *)
(** * Correctness of the provider routers

    For every router at once: which providers a run calls, what its report
    says of them, and how a fallback proceeds. *)

From S2P Require Import Prelude JsString JsMap UrlPolicy SearchBudget SearchSelect.
From S2P Require Import ProviderHealth ProviderCalls ProviderRouter Routers.
From Stdlib Require Import PrimFloat.

(** A provider is found under its own id. *)
Lemma provider_map_id {H T W Req Res} (ps : list (Provider H T W Req Res)) id p :
  map_get id (provider_map ps) = Some p → provider_id p = id ∧ p ∈ ps.
Proof.
  unfold provider_map. induction ps as [|q ps IH] using rev_ind; [done|].
  rewrite foldl_snoc. rewrite map_get_set. case_decide.
  - intros [= <-]. subst. split; [done|]. apply elem_of_app. right. left.
  - intros Hp. destruct (IH Hp). split; [done|]. apply elem_of_app. by left.
Qed.

Section properties.
Context {H T W : Type} `{ProviderHealthTracker H} `{SearchBudgetTracker T} `{Runtime W}.
Context {Req PR Res : Type} (spec : RouterSpec H T W Req PR Res) (req : Req).
Implicit Types (p : Provider H T W Req PR) (e : Env H T W).

(** Some call of the provider answered [x], or failed with [err]. *)
Definition answered p (x : PR) : Prop := ∃ sh sh', call p req sh = (Ok x, sh').
Definition refused p (err : thrown) : Prop := ∃ sh sh', call p req sh = (Throw err, sh').

Definition failed_retryably p : Prop :=
  ∃ err, refused p err ∧ errRetryable (toGroundlaneError err (stage spec)) = true.

Lemma wp_consume_attempt id source throwing e :
  wp (consume_attempt id source throwing)
    (λ r e', calls e' = calls e ∧ (throwing = false → is_Ok r)) e.
Proof.
  unfold wp, consume_attempt, consumeProviderAttemptBudget.
  destruct (budget (shared e)) as [t|]; cbn; [|split; [done|by eexists]].
  destruct (tryConsume _ _ _) as [[] ?]; cbn; [split; [done|by eexists]|].
  destruct throwing; cbn; (split; [done|]); [done|by eexists].
Qed.

Lemma wp_await_call p e :
  wp (await_call p req) (λ r e', calls e' = calls e ∧
    match r with Ok x => answered p x | Throw err => refused p err end) e.
Proof.
  unfold wp, await_call. destruct (call p req (shared e)) as [[x|err] sh] eqn:Hc; cbn;
    (split; [done|]); by exists (shared e), sh.
Qed.

Lemma wp_clock {A} (f : Z → M (Env H T W) A) (Q : result A → Env H T W → Prop) e :
  (∀ now, wp (f now) Q e) → wp (clock ≫= f) Q e.
Proof. intros Hf. apply wp_gets, Hf. Qed.

(** How a fallback over [rest] ends, [tried'] being the providers it calls. *)
Definition fallback_ends (warned : list string) (tried : list SearchProviderId)
    (all rest called : list (Provider H T W Req PR)) (r : result Res) : Prop :=
  match r with
  | Ok res => ∃ init p x run, called = init ++ [p] ∧ Forall failed_retryably init ∧
      answered p x ∧ res = build spec req run ∧
      r_strategy run = route_fallback ∧ r_results run = [x] ∧
      r_selected run = provider_id <$> all ∧
      r_succeeded run = [fallback_success spec (provider_id p) x] ∧
      r_attempted run = tried ++ (provider_id <$> called)
  | Throw err =>
      Forall failed_retryably called ∨
      ∃ init p err', called = init ++ [p] ∧ Forall failed_retryably init ∧ refused p err' ∧
        err = TGroundlane (toGroundlaneError err' (stage spec)) ∧
        (errRetryable (toGroundlaneError err' (stage spec)) = false ∨ length all = 1)
  end.

Lemma withFallback_spec all rest startedAt warned tried e :
  wp (withFallback spec req all rest startedAt warned tried) (λ r e', ∃ called,
    calls e' = calls e ++ (provider_id <$> called) ∧ called `sublist_of` rest ∧
    fallback_ends warned tried all rest called r) e.
Proof.
  revert warned tried e. induction rest as [|p rest IH]; intros warned tried e; cbn [withFallback].
  { apply wp_throw. exists []. split_and!; [by rewrite app_nil_r|done|]. left. constructor. }
  apply wp_bind. eapply wp_mono; [apply wp_consume_attempt|]. cbn.
  intros [[w|]|err] e1 [Hc _].
  - eapply wp_mono; [apply IH|]. cbn. intros r e2 (called & Hc2 & Hsub & Hend).
    exists called. rewrite Hc2, Hc. split_and!; [done|by apply sublist_cons|exact Hend].
  - apply wp_update, wp_attempt. eapply wp_mono; [apply wp_await_call|]. cbn.
    intros [x|err] e2 [Hc2 Hx].
    + apply wp_clock. intros now. apply wp_ret. exists [p].
      rewrite Hc2, Hc. split_and!; [done|apply sublist_skip, sublist_nil_l|].
      exists [], p, x. eexists. split_and!; [done|constructor|exact Hx|done|done|done|done|done|done].
    + destruct ((length all =? 1) || _) eqn:Hstop.
      * apply wp_throw. exists [p]. rewrite Hc2, Hc.
        split_and!; [done|apply sublist_skip, sublist_nil_l|].
        right. exists [], p, err. split_and!; [done|constructor|done|done|].
        apply orb_true_iff in Hstop as [Hl|Hr]; [right; by apply Nat.eqb_eq|left].
        by apply negb_true_iff.
      * apply orb_false_iff in Hstop as [_ Hr%negb_false_iff].
        assert (failed_retryably p) as Hp by (by exists err).
        eapply wp_mono; [apply IH|]. cbn. intros r e3 (called & Hc3 & Hsub & Hend).
        exists (p :: called). rewrite Hc3, Hc2, Hc, <- app_assoc.
        split_and!; [done|by apply sublist_skip|].
        destruct r as [res|err2]; cbn in Hend |- *.
        -- destruct Hend as (init & q & x & run & -> & Hi & Hq & -> & ? & ? & ? & ? & Ha).
           exists (p :: init), q, x, run. rewrite Ha, <- app_assoc.
           split_and!; try done. by constructor.
        -- destruct Hend as [Hall|(init & q & err' & -> & Hi & Hq)]; [left; by constructor|].
           right. exists (p :: init), q, err'. split_and!; [done|by constructor| | |]; apply Hq.
  - exists []. rewrite Hc. split_and!; [by rewrite app_nil_r|apply sublist_nil_l|].
    left. constructor.
Qed.

(** ** All at once *)

Definition outcome_good p (o : Outcome PR) : Prop :=
  out_provider o = provider_id p ∧
  match out_result o with Some x => attempted o = true ∧ answered p x | None => True end.

Lemma launch_launch_ok : launch_ok (launch (H := H) (T := T) (Req := Req)) outcome_good.
Proof.
  intros p e. unfold launch. apply wp_bind. eapply wp_mono; [apply wp_consume_attempt|]. cbn.
  intros [[w|]|err] e1 [Hc Hok].
  - apply wp_ret. eexists. split; [done|]. cbn. by rewrite Hc.
  - apply wp_update, wp_ret. exists None. cbn. by rewrite Hc.
  - by destruct (Hok eq_refl).
Qed.

Lemma finish_finish_ok : finish_ok (finish req) outcome_good.
Proof.
  intros p e. unfold finish. apply wp_attempt. eapply wp_mono; [apply wp_await_call|]. cbn.
  intros [x|err] e1 [Hc Hx]; apply wp_ret; eexists; (split; [done|]); cbn; by rewrite Hc.
Qed.

Lemma wp_check_signal err {A} (f : unit → M (Env H T W) A) (Q : result A → Env H T W → Prop) e :
  (∀ err, Q (Throw err) e) → wp (f tt) Q e → wp (check_signal err ≫= f) Q e.
Proof.
  intros Hq Hf. apply wp_bind. unfold check_signal. apply wp_gets.
  destruct (signal_reason _) as [[]|]; first [apply wp_throw; apply Hq|apply wp_ret; exact Hf].
Qed.

(** The results of the outcomes of [ps], with the providers that gave them. *)
Lemma good_results ps outs :
  Forall2 outcome_good ps outs →
  attempted_ids outs `sublist_of` (provider_id <$> ps) ∧
  length (omap out_result outs) ≤ length (attempted_ids outs) ∧
  Forall (λ x, ∃ p, p ∈ ps ∧ provider_id p ∈ attempted_ids outs ∧ answered p x)
    (omap out_result outs).
Proof.
  unfold attempted_ids.
  induction 1 as [|p o ps outs [Hid Ho] Hall (Hsub & Hlen & Hres)]; [split_and!; constructor|].
  rewrite filter_cons. cbn.
  assert (Forall (λ x, ∃ q, q ∈ p :: ps ∧ provider_id q ∈ provider_id p ::
    (out_provider <$> filter (λ o, attempted o = true) outs) ∧ answered q x)
    (omap out_result outs)) as Hres'.
  { eapply Forall_impl; [exact Hres|]. cbn. intros x (q & ? & ? & ?).
    exists q. split_and!; [by right|by right|done]. }
  case_decide as Ha; cbn; rewrite ?Hid.
  - destruct (out_result o) as [x|]; (split_and!; [by apply sublist_skip|cbn; lia|]); [|done].
    constructor; [|done]. exists p. split_and!; [left|left|apply Ho].
  - destruct (out_result o) as [x|]; [by destruct Ho|].
    split_and!; [by apply sublist_cons|done|].
    eapply Forall_impl; [exact Hres|]. cbn. intros x (q & ? & ? & ?).
    exists q. split_and!; [by right|done|done].
Qed.

(** What a run reports, given the providers selected and those called. *)
Definition report_ok (selected : list (Provider H T W Req PR)) (tried : list SearchProviderId)
    (res : Res) : Prop :=
  ∃ run, res = build spec req run ∧
    r_selected run = provider_id <$> selected ∧ r_attempted run = tried ∧
    r_results run ≠ [] ∧ length (r_succeeded run) = length (r_results run) ∧
    length (r_results run) ≤ length tried ∧
    Forall (λ x, ∃ p, p ∈ selected ∧ provider_id p ∈ tried ∧ answered p x) (r_results run).

Lemma inParallel_spec ps startedAt e :
  wp (inParallel spec req ps startedAt) (λ r e', ∃ tried,
    calls e' = calls e ++ tried ∧ tried `sublist_of` (provider_id <$> ps) ∧
    ∀ res, r = Ok res → report_ok ps tried res) e.
Proof.
  unfold inParallel. apply wp_bind.
  eapply wp_mono; [apply (promise_all_spec _ _ outcome_good)|].
  - apply launch_launch_ok.
  - apply finish_finish_ok.
  - by intros p o [].
  - cbn. intros r e1 (outs & -> & Hall & Hc).
    destruct (good_results ps outs Hall) as (Hsub & Hlen & Hres).
    apply wp_check_signal; [intros err; by exists (attempted_ids outs)|].
    apply wp_throw_if; [intros _; by exists (attempted_ids outs)|intros Hne].
    apply wp_clock. intros now. apply wp_ret. exists (attempted_ids outs).
    split_and!; [done|done|]. intros res [= <-]. eexists. split; [done|]. cbn. reflect.
    split_and!; try done; [by intros Hnil; rewrite Hnil in Hne|by rewrite length_fmap].
Qed.

(** ** The method *)

(** The providers a request may reach: those asked for (or configured),
    once each, that exist and support it. *)
Definition eligible (ps : list (Provider H T W Req PR)) (order : list SearchProviderId)
    (id : SearchProviderId) : Prop :=
  id ∈ requested spec order req ∧
  ∃ p, p ∈ ps ∧ provider_id p = id ∧ supports p req = true.

Lemma resolved_ids ps order :
  let selected := resolveProviders spec (provider_map ps) order req in
  NoDup (provider_id <$> selected) ∧
  ∀ p, p ∈ selected → p ∈ ps ∧ eligible ps order (provider_id p).
Proof.
  cbn. unfold resolveProviders. set (ids := js_unique _).
  assert (∀ p, p ∈ omap (λ id, p ← map_get id (provider_map ps);
      guard (supports p req = true);; Some p) ids →
    p ∈ ps ∧ supports p req = true ∧ provider_id p ∈ ids) as Hin.
  { intros p (id & Hid & Hp)%list_elem_of_omap.
    destruct (map_get id (provider_map ps)) as [q|] eqn:Hq; [|done]. cbn in Hp.
    case_guard; [|done]. injection Hp as ->.
    destruct (provider_map_id _ _ _ Hq) as [<- ?]. done. }
  split.
  - assert (NoDup ids) as Hids by apply NoDup_unique_from. clearbody ids.
    clear Hin. induction ids as [|id ids IH]; cbn; [constructor|].
    apply NoDup_cons in Hids as [Hnot Hids].
    destruct (map_get id (provider_map ps)) as [q|] eqn:Hq; cbn; [|by apply IH].
    case_guard; cbn; [|by apply IH]. destruct (provider_map_id _ _ _ Hq) as [<- _].
    constructor; [|by apply IH]. intros (q' & Hq' & Hin)%list_elem_of_fmap.
    apply list_elem_of_omap in Hin as (id' & Hid' & Hr).
    destruct (map_get id' (provider_map ps)) as [q''|] eqn:Hq''; [|done]. cbn in Hr.
    case_guard; [|done]. injection Hr as ->.
    destruct (provider_map_id _ _ _ Hq'') as [<- _]. congruence.
  - intros p Hp. destruct (Hin p Hp) as (? & ? & Hid). split; [done|]. split.
    + by apply elem_of_js_unique.
    + by exists p.
Qed.

Lemma wp_on_env {A B} (m : M (Shared H T W) A) (f : A → M (Env H T W) B)
    (Q : result B → Env H T W → Prop) e :
  (∀ err e', calls e' = calls e → Q (Throw err) e') →
  (∀ a e', calls e' = calls e → wp (f a) Q e') →
  wp (on_env m ≫= f) Q e.
Proof.
  intros Ht Hf. apply wp_bind. unfold wp at 1, on_env.
  destruct (m (shared e)) as [[a|err] sh]; cbn; [by apply Hf|by apply Ht].
Qed.

(** C10: what a router reports is what happened.  In every run, of any of the
    routers, with any providers, on any request, whatever providers answer
    and in whatever order, and however a run ends: each provider is called
    at most once, and only if it was asked for (or configured), is
    registered and supports the request.  If the run returns, its report
    lists as attempted exactly the providers called, in order, and holds at
    least one result and no more than one per call, each an answer that an
    attempted provider gave to this request. *)
Theorem route_reports_what_ran ps order e :
  let '(r, e') := route spec ps order req e in
  ∃ tried, calls e' = calls e ++ tried ∧ NoDup tried ∧
    (∀ id, id ∈ tried → eligible ps order id) ∧
    ∀ res, r = Ok res →
      report_ok (resolveProviders spec (provider_map ps) order req) tried res.
Proof.
  set (selected := resolveProviders spec (provider_map ps) order req).
  destruct (resolved_ids ps order) as [Hnd Hel]. fold selected in Hnd, Hel.
  assert (wp (route spec ps order req) (λ r e', ∃ tried,
    calls e' = calls e ++ tried ∧ tried `sublist_of` (provider_id <$> selected) ∧
    ∀ res, r = Ok res → report_ok selected tried res) e) as Hwp.
  { unfold route. fold selected. apply wp_on_env.
    { intros err e' Hc. exists []. rewrite Hc, app_nil_r.
      split_and!; [done|apply sublist_nil_l|done]. }
    intros _ e1 Hc. apply wp_clock. intros now. apply wp_throw_if.
    { intros _. exists []. rewrite Hc, app_nil_r. split_and!; [done|apply sublist_nil_l|done]. }
    intros _. rewrite <- Hc.
    destruct (match explicit_provider _ with Some _ => _ | None => _ end).
    - eapply wp_mono; [apply withFallback_spec|]. cbn. intros r e2 (called & Hc2 & Hsub & Hend).
      exists (provider_id <$> called). split_and!; [done|by apply fmap_sublist|].
      intros res ->. destruct Hend as (init & p & x & run & -> & _ & Hx & -> & _ & Hr & Hs & Hok & Ha).
      exists run. rewrite Hr, Hs, Hok, Ha. split_and!; try done.
      + rewrite fmap_app, length_app. cbn. lia.
      + constructor; [|constructor]. exists p. split_and!; [|by apply list_elem_of_fmap_2,
          elem_of_app; right; left|done].
        eapply elem_of_sublist; [|exact Hsub]. apply elem_of_app. right. left.
    - apply inParallel_spec. }
  unfold wp in Hwp. destruct (route spec ps order req e) as [r e']. cbn in Hwp.
  destruct Hwp as (tried & Hc & Hsub & Hres). exists tried. split_and!; [done| | |done].
  - by eapply sublist_NoDup.
  - intros id Hid. eapply elem_of_sublist in Hid; [|exact Hsub].
    apply list_elem_of_fmap in Hid as (p & -> & Hp). by apply Hel.
Qed.

(** a fallback goes on only past failures worth retrying.  When the
    strategy is fallback (asked for, or because one provider was named), the
    providers are called in the order selected; each one before the last
    failed with a retryable error; on success the single result is the last
    one's answer; and an error is either given when all the calls made
    failed retryably, or is that of the last provider called, not retryable
    or the only one selected. *)
Theorem fallback_stops_at_first_answer ps order e :
  let selected := resolveProviders spec (provider_map ps) order req in
  explicit_provider (want_provider spec req) ≠ None ∨
    want_strategy spec req = Some route_fallback →
  let '(r, e') := route spec ps order req e in
  ∃ called, calls e' = calls e ++ (provider_id <$> called) ∧ called `sublist_of` selected ∧
    fallback_ends [] [] selected selected called r.
Proof.
  intros selected Hstrat.
  assert (wp (route spec ps order req) (λ r e', ∃ called,
    calls e' = calls e ++ (provider_id <$> called) ∧ called `sublist_of` selected ∧
    fallback_ends [] [] selected selected called r) e) as Hwp.
  { assert (∀ err e', calls e' = calls e → ∃ called,
      calls e' = calls e ++ (provider_id <$> called) ∧ called `sublist_of` selected ∧
      fallback_ends [] [] selected selected called (Throw err)) as Hnone.
    { intros err e' Hc. exists []. rewrite Hc. split_and!; [by rewrite app_nil_r|apply sublist_nil_l|].
      left. constructor. }
    unfold route. fold selected. apply wp_on_env; [exact Hnone|].
    intros _ e1 Hc. apply wp_clock. intros now. apply wp_throw_if; [intros _; by apply Hnone|].
    intros _. rewrite <- Hc.
    assert (match explicit_provider (want_provider spec req) with
            | Some _ => route_fallback
            | None => default route_parallel (want_strategy spec req) end = route_fallback) as ->.
    { destruct (explicit_provider _); [done|]. by destruct Hstrat as [|Hs]; [done|by rewrite Hs]. }
    apply withFallback_spec. }
  unfold wp in Hwp. by destruct (route spec ps order req e).
Qed.
End properties.

(** ** Witness: a news run in which the first provider fails *)

Module Witness.
Import News.

(** A world that counts milliseconds; [brave] is down, [serper] answers. *)
#[local] Instance ticking : Runtime nat :=
  {| now_of := Z.of_nat; signal_reason := λ _, None; next_done := id |}.

#[local] Notation Env0 := (Env DynamicPenaltyHealthTracker MonthlySearchBudget nat).

Definition start : Env0 :=
  {| shared := {| health := None; budget := None; world := 0 |}; calls := [] |}.

Definition NewsProvider : Type :=
  Provider DynamicPenaltyHealthTracker MonthlySearchBudget nat NewsRequest NewsProviderResult.

Definition news_provider (id : SearchProviderId)
    (answer : result NewsProviderResult)
    : NewsProvider :=
  {| provider_id := id; supports := λ _, true;
     call := λ _ sh, (answer, {| health := health sh; budget := budget sh; world := world sh + 7 |}) |}.

Definition item (u : string) : NewsItem :=
  {| title := "t"; item_url := u; snippet := "s"; source := None; publishedAt := None;
     thumbnailUrl := None; item_provider := "serper" |}.

Definition serper_answer : NewsProviderResult :=
  {| by_provider := "serper"; res_query := "rocq";
     results := [item "https://a.test/1"; item "https://A.test/1"]; durationMs := 5;
     warnings := [] |}.

Definition newsroom :=
  [news_provider "brave" (Throw (TError "down")); news_provider "serper" (Ok serper_answer)].

Definition ask (s : RouteStrategy) : NewsRequest :=
  {| query := "rocq"; maxResults := int 10; provider := None; providers := None;
     strategy := Some s; timeRange := None; country := Some "US"%string; language := None |}.

Example both_called :
  match route news_spec newsroom NEWS_PROVIDER_IDS (ask route_parallel) start with
  | (Ok res, e') => calls e' = ["brave"; "serper"]%string ∧
      item_url <$> all_results res = ["https://a.test/1"%string] ∧
      r_warnings (providerResults res) = ["brave unavailable"%string]
  | _ => False
  end.
Proof. vm_compute. done. Qed.

Lemma fallback_stops_at_first_answer_witness : ∃ res e' (called : list NewsProvider),
  route news_spec newsroom NEWS_PROVIDER_IDS (ask route_fallback) start = (Ok res, e') ∧
  calls e' = provider_id <$> called.
Proof.
  pose proof (fallback_stops_at_first_answer news_spec (ask route_fallback) newsroom
    NEWS_PROVIDER_IDS start (or_intror eq_refl)) as Hrun.
  destruct (route news_spec newsroom NEWS_PROVIDER_IDS (ask route_fallback) start)
    as [r e'] eqn:Hr.
  destruct Hrun as (called & Hc & _).
  assert (is_Ok r) as [res ->].
  { replace r with (fst (r, e')) by reflexivity. rewrite <- Hr. vm_compute. by eexists. }
  exists res, e', called. split; [reflexivity|exact Hc].
Defined.
End Witness.
