(* ===== verification/SearchRouter.v ===== *)
(** * The search router

    [src/core/search-router.ts]: validation of a search, choice of the
    providers, then a fallback over them or a federation in batches whose
    results are fused.  The search runs on the state of ProviderCalls. *)

From S2P Require Import Prelude JsString JsMap UrlPolicy SearchBudget SearchSelect.
From S2P Require Import ProviderHealth SearchFusion ProviderCalls ProviderRouter.
From Stdlib Require Import PrimFloat.

Definition search_unavailable (stage message code text : string) : thrown :=
  gerror_hint PROVIDER_UNAVAILABLE stage message true (hint code text).

Definition budget_exhausted (id : SearchProviderId) : thrown :=
  search_unavailable "search-budget" (id +:+ " request budget is exhausted")
    "search_budget.exhausted"
    ("The per-provider request budget is empty for the selected provider. Wait for the next " +:+
     "reset window, raise SEARCH_*_REQUEST_BUDGETS in the operator config, or omit the explicit " +:+
     "provider to let the router pick one with remaining quota.").

Definition no_search_provider : thrown :=
  search_unavailable "search" "No configured provider supports this request" "search.no_provider"
    ("No configured search provider matched the request. Verify SEARCH_PROVIDER_ORDER, API " +:+
     "keys, and that the requested capabilities (news, images, etc.) are exposed by at least " +:+
     "one provider.").

Definition all_matching_failed : thrown :=
  search_unavailable "search" "All matching search providers were unavailable"
    "search.all_providers_failed"
    ("Every selected provider errored or returned no results. Check provider health, retry " +:+
     "once, or fall back to web_fetch on a known URL.").

Definition all_selected_failed : thrown :=
  gerror PROVIDER_UNAVAILABLE "search" "All selected search providers were unavailable" true.

Definition search_cancelled : thrown :=
  gerror CANCELLED "search" "The request was cancelled" false.

Definition validateSearchRequest (request : SearchRequest) : result unit :=
  throw_if (blank (query request) || not_int_in 1 50 (maxResults request) ||
            selection_invalid (req_provider request) (req_providers request))
    (gerror_hint INVALID_INPUT "search"
       "Search query, result limit, or provider selection is invalid" false
       (hint "search.invalid_input"
          ("Provide a non-empty query, set maxResults between 1 and 50, and choose either " +:+
           "provider OR providers (not both)."))).

Definition builtInDetail (id : SearchProviderId) : ProviderDetail :=
  {| detail_providerId := id; backend := "api"; ownership := "built-in"; protocolVersion := "1" |}.

(** [request.maxResults], once it is validated. *)
Definition result_limit (request : SearchRequest) : nat := Z.to_nat (to_Z (maxResults request)).

Definition normalizeProviderResult (id : SearchProviderId) (r : SearchResult) (limit : nat)
    : SearchResult :=
  r <| res_provider := id |>
    <| results := (λ item, item <| item_provider := id |>) <$> take limit (results r) |>.

(** [base / (1 + penalty * 0.1)] *)
Definition effective_weight (base pen : float) : float := (base / (1 + pen * 0.1))%float.

Section search.
Context {H T W : Type} `{ProviderHealthTracker H} `{SearchBudgetTracker T} `{Runtime W}.
Context `{UrlApi}.

#[local] Notation SearchProvider := (Provider H T W SearchRequest SearchResult).
#[local] Notation Run := (M (Env H T W)).

Definition candidate_ids (order : list SearchProviderId) (request : SearchRequest)
    : list SearchProviderId :=
  match explicit_provider (req_provider request) with
  | None => default order (req_providers request)
  | Some p => [p]
  end.

(** [resolveProviders]: the loop over the distinct ids; the providers that
    can be asked, and the warnings. *)
Fixpoint resolve_from (providers : js_map SearchProvider) (request : SearchRequest)
    (ids : list SearchProviderId) : Run (list SearchProvider * list string) :=
  match ids with
  | [] => mret ([], [])
  | id :: rest =>
      sh ← gets shared;
      match map_get id providers with
      | None => resolve_from providers request rest
      | Some p =>
          if negb (healthy (provider_id p) sh) || negb (supports p request)
          then resolve_from providers request rest
          else
            spent ← budget_is_empty (provider_id p);
            '(ps, warned) ← resolve_from providers request rest;
            mret (if (spent : bool) then (ps, (provider_id p +:+ " budget exhausted") :: warned)
                  else (p :: ps, warned))
      end
  end.

Definition selectProviderBatch (providers : js_map SearchProvider) (ps : list SearchProvider)
    (strategy : SearchStrategy) : list SearchProvider :=
  omap (λ id, map_get id providers) (selectSearchProviders (provider_id <$> ps) strategy).

(** ** Fallback *)

Fixpoint searchWithFallback (request : SearchRequest) (explicit : bool)
    (all rest : list SearchProvider) (warned : list string) (tried : list SearchProviderId)
    : Run SearchResult :=
  match rest with
  | [] => throw all_matching_failed
  | p :: rest =>
      let id := provider_id p in
      granted ← consume id;
      if negb (granted : bool) then
        if length all =? 1 then throw (budget_exhausted id)
        else searchWithFallback request explicit all rest
               (warned ++ [id +:+ " budget exhausted"]) tried
      else
        let tried := tried ++ [id] in
        begin_call p;;
        outcome ← attempt (await_call p request);
        match outcome with
        | inl raw =>
            let normalized := normalizeProviderResult id raw (result_limit request) in
            note_success id;;
            mret (normalized <| strategy := Some fallback |>
                    <| providersSelected := Some (provider_id <$> all) |>
                    <| providersAttempted := Some tried |>
                    <| providersSucceeded := Some [id] |>
                    <| warnings := warned ++ warnings normalized |>
                    <| providerDetails := Some [builtInDetail id] |>)
        | inr error =>
            let safe := toGroundlaneError error "search" in
            note_failure id;;
            if explicit || ((length all =? 1) && negb (errRetryable safe))
            then throw (TGroundlane safe)
            else searchWithFallback request explicit all rest
                   (warned ++ [unavailable id]) tried
        end
  end.

(** ** Federation *)

Definition search_launch (p : SearchProvider) : Run (option (Outcome SearchResult)) :=
  granted ← consume (provider_id p);
  if negb (granted : bool) then
    mret (Some {| out_provider := provider_id p; attempted := false; out_result := None;
                  out_warning := Some (provider_id p +:+ " budget exhausted") |})
  else begin_call p;; mret None.

Definition search_finish (request : SearchRequest) (p : SearchProvider)
    : Run (Outcome SearchResult) :=
  let id := provider_id p in
  outcome ← attempt (await_call p request);
  match outcome with
  | inl raw =>
      note_success id;;
      mret {| out_provider := id; attempted := true;
              out_result := Some (normalizeProviderResult id raw (result_limit request));
              out_warning := None |}
  | inr _ =>
      note_failure id;;
      mret {| out_provider := id; attempted := true; out_result := None;
              out_warning := Some (unavailable id) |}
  end.

Definition effectiveWeights (successes : list SearchResult) (sh : Shared H T W)
    : gmap string float :=
  foldl (λ weights r,
      <[res_provider r := effective_weight (searchProviderWeight (res_provider r))
                            (penalty_of (res_provider r) sh)]> weights)
    ∅ successes.

(** What is returned of a batch in which some provider succeeded. *)
Definition federated_result (request : SearchRequest) (how : SearchStrategy)
    (successes : list SearchResult) (warned : list string)
    (selectedIds attemptedIds : list SearchProviderId) (startedAt : Z) (sh : Shared H T W)
    : SearchResult :=
  {| res_query := query request;
     res_provider := match successes with
                     | [r] => res_provider r
                     | _ => "federated"
                     end;
     results := fuseSearchResults successes (result_limit request)
                  (effectiveWeights successes sh);
     durationMs := now_of (world sh) - startedAt;
     warnings := warned ++ mjoin (warnings <$> successes);
     strategy := Some how;
     providersSelected := Some selectedIds;
     providersAttempted := Some attemptedIds;
     providersSucceeded := Some (res_provider <$> successes);
     providerDetails := Some (builtInDetail <$> (res_provider <$> successes)) |}.

(** The [while] loop; every turn takes at least one provider out of
    [remaining], whose length is fuel enough. *)
Fixpoint federate (fuel : nat) (providers : js_map SearchProvider) (request : SearchRequest)
    (how : SearchStrategy) (remaining : list SearchProvider) (warned : list string)
    (selectedIds attemptedIds : list SearchProviderId) (startedAt : Z) : Run SearchResult :=
  match fuel with
  | O => throw all_selected_failed
  | S fuel' =>
      let batch := selectProviderBatch providers remaining how in
      match batch with
      | [] => throw all_selected_failed
      | _ =>
          let ids := provider_id <$> batch in
          outcomes ← promise_all search_launch (search_finish request) batch;
          check_signal search_cancelled;;
          let warned := warned ++ omap out_warning outcomes in
          let attemptedIds := attemptedIds ++ attempted_ids outcomes in
          let successes := omap out_result outcomes in
          match successes with
          | [] => federate fuel' providers request how
                    (filter (λ p, provider_id p ∉ ids) remaining) warned
                    (selectedIds ++ ids) attemptedIds startedAt
          | _ =>
              sh ← gets shared;
              mret (federated_result request how successes warned (selectedIds ++ ids)
                      attemptedIds startedAt sh)
          end
      end
  end.

Definition searchFederated (providers : js_map SearchProvider) (request : SearchRequest)
    (how : SearchStrategy) (ps : list SearchProvider) (warned : list string)
    : Run SearchResult :=
  startedAt ← clock;
  federate (length ps) providers request how ps warned [] [] startedAt.

(** ** [search] *)

Definition search_strategy (request : SearchRequest) : SearchStrategy :=
  match explicit_provider (req_provider request) with
  | None => default balanced (req_strategy request)
  | Some _ => fallback
  end.

Definition search (ps : list SearchProvider) (order : list SearchProviderId)
    (deploymentMaxDomains : option Z) (request : SearchRequest) : Run SearchResult :=
  let providers := provider_map ps in
  lift (validateSearchRequest request);;
  let explicit := explicit_provider (req_provider request) in
  let candidates := candidate_ids order request in
  lift (validateDomainFiltersForRequest request explicit candidates deploymentMaxDomains);;
  let how := search_strategy request in
  '(resolved, warned) ← resolve_from providers request (js_unique candidates);
  let selected := if decide (how = fallback) then resolved
                  else selectProviderBatch providers resolved how in
  match selected with
  | [] =>
      match explicit with
      | Some id =>
          spent ← budget_is_empty id;
          throw (if (spent : bool) then budget_exhausted id else no_search_provider)
      | None => throw no_search_provider
      end
  | _ =>
      if decide (how = fallback)
      then searchWithFallback request (is_defined explicit) selected selected warned []
      else searchFederated providers request how resolved warned
  end.
End search.
