(* ===== verification/SearchRouterSafety.v ===== *)
(** * Correctness of the search router *)

From S2P Require Import Prelude JsString JsMap UrlPolicy SearchBudget SearchSelect.
From S2P Require Import ProviderHealth SearchFusion ProviderCalls.
From S2P Require Import ProviderRouter Routers ProviderRouterSafety SearchRouter.
From Stdlib Require Import PrimFloat.

Section properties.
Context {H T W : Type} `{ProviderHealthTracker H} `{SearchBudgetTracker T} `{Runtime W} `{UrlApi}.
Context (ps : list (Provider H T W SearchRequest SearchResult)) (request : SearchRequest).
Implicit Types (p : Provider H T W SearchRequest SearchResult) (e : Env H T W).

#[local] Notation answered := (answered (PR := SearchResult) request).
#[local] Notation refused := (refused (PR := SearchResult) request).
#[local] Notation providers := (provider_map ps).

Lemma wp_consume id e :
  wp (consume id) (λ r e', calls e' = calls e ∧ is_Ok r) e.
Proof.
  unfold wp, consume, on_shared. destruct (budget (shared e)); cbn; [|split; [done|by eexists]].
  destruct (tryConsume _ _ _). split; [done|by eexists].
Qed.

Lemma wp_note_success {B} id (f : unit → M (Env H T W) B) (Q : result B → Env H T W → Prop) e :
  (∀ e', calls e' = calls e → wp (f tt) Q e') → wp (note_success id ≫= f) Q e.
Proof. intros Hf. apply wp_bind. by apply Hf. Qed.

Lemma wp_note_failure {B} id (f : unit → M (Env H T W) B) (Q : result B → Env H T W → Prop) e :
  (∀ e', calls e' = calls e → wp (f tt) Q e') → wp (note_failure id ≫= f) Q e.
Proof. intros Hf. apply wp_bind. by apply Hf. Qed.

(** Asking for the remaining budget calls no provider and leaves health and
    the world as they are. *)
Lemma wp_budget_is_empty id e :
  wp (budget_is_empty id) (λ r e', is_Ok r ∧ calls e' = calls e ∧
    health (shared e') = health (shared e) ∧ world (shared e') = world (shared e)) e.
Proof.
  unfold wp, budget_is_empty, on_shared.
  destruct (budget (shared e)); cbn; [|split_and!; [by eexists|done..]].
  destruct (remaining _ _ _). cbn. split_and!; [by eexists|done..].
Qed.

(** ** Resolution *)

(** [p] is registered, was healthy at [e], and supports the request. *)
Definition usable (e : Env H T W) p : Prop :=
  map_get (provider_id p) providers = Some p ∧ healthy (provider_id p) (shared e) = true ∧
  supports p request = true.

Lemma healthy_same id (sh sh' : Shared H T W) :
  health sh' = health sh → world sh' = world sh → healthy id sh' = healthy id sh.
Proof. unfold healthy. by intros -> ->. Qed.

(** A resolution of [ids] from [e], judged by the health at [e0]. *)
Definition resolution e0 e (ids : list SearchProviderId)
    (r : result (list (Provider H T W SearchRequest SearchResult) * list string)) e' : Prop :=
  ∃ resolved warned, r = Ok (resolved, warned) ∧
    calls e' = calls e ∧ (provider_id <$> resolved) `sublist_of` ids ∧
    Forall (usable e0) resolved.

Lemma resolve_from_spec ids e0 e :
  health (shared e) = health (shared e0) → world (shared e) = world (shared e0) →
  wp (resolve_from providers request ids) (resolution e0 e ids) e.
Proof.
  revert e. induction ids as [|id ids IH]; intros e Hh Hw; cbn [resolve_from].
  { apply wp_ret. exists [], []. split_and!; constructor || done. }
  assert (∀ r e', resolution e0 e ids r e' → resolution e0 e (id :: ids) r e') as Hskip.
  { intros r e' (resolved & warned & ? & ? & ? & ?). exists resolved, warned.
    split_and!; [done|done|by apply sublist_cons|done]. }
  apply wp_gets. destruct (map_get id providers) as [p|] eqn:Hp.
  2:{ eapply wp_mono; [by apply IH|exact Hskip]. }
  destruct (provider_map_id _ _ _ Hp) as [<- Hin].
  destruct (negb _ || negb _) eqn:Hbad; [eapply wp_mono; [by apply IH|exact Hskip]|]. reflect.
  apply wp_bind. eapply wp_mono; [apply wp_budget_is_empty|]. cbn.
  intros r e1 ([spent ->] & Hc & Hh1 & Hw1).
  apply wp_bind. eapply wp_mono; [apply IH; congruence|]. cbn.
  intros r e2 (resolved & warned & -> & Hc2 & Hsub & Hall). apply wp_ret.
  destruct spent; eexists _, _; (split; [done|]); rewrite Hc2, Hc.
  - split_and!; [done|by apply sublist_cons|done].
  - split_and!; [done|by apply sublist_skip|]. constructor; [|done].
    split; [done|]. split; [|done]. by rewrite <- (healthy_same _ (shared e0) (shared e)).
Qed.

(** A batch holds distinct registered providers out of those given. *)
Lemma batch_spec given how :
  (∀ p, p ∈ given → map_get (provider_id p) providers = Some p) →
  let batch := selectProviderBatch providers given how in
  provider_id <$> batch = selectSearchProviders (provider_id <$> given) how ∧
  batch ⊆ given.
Proof.
  intros Hg. unfold selectProviderBatch.
  assert (∀ id, id ∈ selectSearchProviders (provider_id <$> given) how →
    ∃ p, p ∈ given ∧ provider_id p = id ∧ map_get id providers = Some p) as Hsel.
  { intros id Hid. assert (id ∈ provider_id <$> given) as (p & -> & Hp)%list_elem_of_fmap.
    { apply elem_of_js_unique. destruct (decide (how = fallback)) as [->|Hne]; [done|].
      by apply (select_diverse_spec _ how Hne). }
    exists p. auto. }
  induction (selectSearchProviders _ how) as [|id ids IH]; [split; [done|apply list_subseteq_nil]|].
  destruct (Hsel id) as (p & Hp & Hid & Hget); [left|].
  cbn. rewrite Hget. cbn. destruct IH as [IH1 IH2]; [intros; apply Hsel; by right|].
  rewrite IH1, Hid. split; [done|]. intros q [->|Hq]%elem_of_cons; [done|by apply IH2].
Qed.

(** ** Results *)

(** An item is some provider's, from its answer to this request: as it was,
    or under its canonical URL, and attributed to that provider. *)
Definition item_from (succeeded : list SearchProviderId) (out : SearchResultItem) : Prop :=
  ∃ p raw item, p ∈ ps ∧ provider_id p ∈ succeeded ∧ answered p raw ∧
    item ∈ take (result_limit request) (results raw) ∧ item_provider out = provider_id p ∧
    (url out = url item ∨ canonicalSearchResultUrl (url item) = Some (url out)).

Definition search_report_ok (tried : list SearchProviderId) (res : SearchResult) : Prop :=
  length (results res) ≤ result_limit request ∧
  strategy res = Some (search_strategy request) ∧
  providersAttempted res = Some tried ∧
  ∃ succeeded, providersSucceeded res = Some succeeded ∧ succeeded ≠ [] ∧ succeeded ⊆ tried ∧
    Forall (item_from succeeded) (results res).

Lemma normalized_items p raw succeeded :
  p ∈ ps → provider_id p ∈ succeeded → answered p raw →
  let r := normalizeProviderResult (provider_id p) raw (result_limit request) in
  length (results r) ≤ result_limit request ∧ Forall (item_from succeeded) (results r).
Proof.
  intros Hp Hs Ha. cbn. rewrite length_fmap, length_take. split; [lia|].
  apply Forall_fmap, Forall_forall. intros item Hi.
  exists p, raw, item. split_and!; try done. by left.
Qed.

(** ** Fallback *)

Lemma searchWithFallback_spec explicit all rest warned tried e :
  search_strategy request = fallback → rest ⊆ ps →
  wp (searchWithFallback request explicit all rest warned tried) (λ r e', ∃ called,
    calls e' = calls e ++ (provider_id <$> called) ∧ called `sublist_of` rest ∧
    ∀ res, r = Ok res → search_report_ok (tried ++ (provider_id <$> called)) res ∧
      providersSelected res = Some (provider_id <$> all) ∧
      ∃ init p, called = init ++ [p] ∧ providersSucceeded res = Some [provider_id p] ∧
        Forall (λ q, ∃ err, refused q err) init) e.
Proof.
  intros Hs. revert warned tried e.
  induction rest as [|p rest IH]; intros warned tried e Hps; cbn [searchWithFallback].
  { apply wp_throw. exists []. split_and!; [by rewrite app_nil_r|done|done]. }
  assert (rest ⊆ ps) as Hrest by (intros q Hq; apply Hps; by right).
  apply wp_bind. eapply wp_mono; [apply wp_consume|]. cbn. intros r e1 [Hc [granted ->]].
  destruct granted; cbn [negb].
  2:{ destruct (length all =? 1).
      { apply wp_throw. exists []. rewrite Hc. split_and!; [by rewrite app_nil_r|apply sublist_nil_l|done]. }
      eapply wp_mono; [by apply IH|]. cbn. intros r e2 (called & Hc2 & Hsub & Hend).
      exists called. rewrite Hc2, Hc. split_and!; [done|by apply sublist_cons|exact Hend]. }
  apply wp_update, wp_attempt. eapply wp_mono; [apply wp_await_call|]. cbn.
  intros [x|err] e2 [Hc2 Hx].
  - apply wp_note_success. intros e3 Hc3. apply wp_ret. exists [p].
    rewrite Hc3, Hc2, Hc. split_and!; [done|apply sublist_skip, sublist_nil_l|].
    assert (provider_id p ∈ [provider_id p]) as Hin by left.
    destruct (normalized_items p x [provider_id p]) as [Hlen Hitems]; [apply Hps; left|done|done|].
    intros res [= <-]. unfold search_report_ok. rewrite Hs. cbn.
    split_and!; [exact Hlen|done|done| |done|].
    + exists [provider_id p]. split_and!; [done|done| |exact Hitems].
      intros q ->%list_elem_of_singleton. apply elem_of_app. right. left.
    + exists [], p. split_and!; constructor.
  - apply wp_note_failure. intros e3 Hc3. destruct (explicit || _).
    { apply wp_throw. exists [p]. rewrite Hc3, Hc2, Hc.
      split_and!; [done|apply sublist_skip, sublist_nil_l|done]. }
    eapply wp_mono; [by apply IH|]. cbn. intros r e4 (called & Hc4 & Hsub & Hend).
    exists (p :: called). rewrite Hc4, Hc3, Hc2, Hc, <- app_assoc.
    split_and!; [done|by apply sublist_skip|]. intros res Hr.
    destruct (Hend res Hr) as (Hrep & Hsel & init & q & -> & Hok & Hinit).
    rewrite <- app_assoc in Hrep. split_and!; [exact Hrep|done|].
    exists (p :: init), q. split_and!; [done|done|constructor; [by exists err|done]].
Qed.

(** ** Federation *)

Definition search_good p (o : Outcome SearchResult) : Prop :=
  out_provider o = provider_id p ∧
  match out_result o with
  | Some x => attempted o = true ∧ ∃ raw, answered p raw ∧
      x = normalizeProviderResult (provider_id p) raw (result_limit request)
  | None => attempted o = true → ∃ err, refused p err
  end.

Lemma search_launch_ok : launch_ok (search_launch (H := H) (T := T)) search_good.
Proof.
  intros p e. unfold search_launch. apply wp_bind. eapply wp_mono; [apply wp_consume|]. cbn.
  intros r e1 [Hc [granted ->]]. destruct granted; cbn [negb].
  - apply wp_update, wp_ret. exists None. cbn. by rewrite Hc.
  - apply wp_ret. eexists. split; [done|]. cbn. by rewrite Hc.
Qed.

Lemma search_finish_ok : finish_ok (search_finish request) search_good.
Proof.
  intros p e. unfold search_finish. apply wp_attempt. eapply wp_mono; [apply wp_await_call|]. cbn.
  intros [x|err] e1 [Hc Hx].
  - apply wp_note_success. intros e2 Hc2. apply wp_ret. eexists. split; [done|].
    rewrite Hc2, Hc. split_and!; [done| |done]. split; [done|]. cbn. split; [done|]. by exists x.
  - apply wp_note_failure. intros e2 Hc2. apply wp_ret. eexists. split; [done|].
    rewrite Hc2, Hc. split_and!; [done| |done]. split; [done|]. cbn. intros _. by exists err.
Qed.

(** The outcomes of a batch: who was called, who succeeded, who failed. *)
Lemma good_outcomes batch outs :
  Forall2 search_good batch outs →
  attempted_ids outs `sublist_of` (provider_id <$> batch) ∧
  (res_provider <$> omap out_result outs) ⊆ attempted_ids outs ∧
  Forall (λ x, ∃ p raw, p ∈ batch ∧ answered p raw ∧
    x = normalizeProviderResult (provider_id p) raw (result_limit request)) (omap out_result outs) ∧
  ∀ id, id ∈ attempted_ids outs → id ∉ res_provider <$> omap out_result outs →
    ∃ p err, p ∈ batch ∧ provider_id p = id ∧ refused p err.
Proof.
  unfold attempted_ids.
  induction 1 as [|p o batch outs [Hid Ho] Hall (Hsub & Hin & Hres & Hfail)].
  { split_and!; [constructor|apply list_subseteq_nil|constructor|].
    intros id Hi. by apply not_elem_of_nil in Hi. }
  assert (∀ id, id ∈ out_provider <$> filter (λ o, attempted o = true) outs →
    id ∉ res_provider <$> omap out_result outs →
    ∃ q err, q ∈ p :: batch ∧ provider_id q = id ∧ refused q err) as Hfail'.
  { intros id Hi Hn. destruct (Hfail id Hi Hn) as (q & err & ? & ? & ?).
    exists q, err. split_and!; [by right|done|done]. }
  assert (Forall (λ x, ∃ q raw, q ∈ p :: batch ∧ answered q raw ∧
    x = normalizeProviderResult (provider_id q) raw (result_limit request)) (omap out_result outs))
    as Hres'.
  { eapply Forall_impl; [exact Hres|]. cbn. intros x (q & raw & ? & ? & ?).
    exists q, raw. split_and!; [by right|done|done]. }
  rewrite filter_cons. destruct o as [id tried res w]. cbn in Hid, Ho |- *. subst id.
  destruct res as [x|].
  - destruct Ho as [-> (raw & Ha & ->)]. rewrite decide_True by done. cbn. split_and!.
    + by apply sublist_skip.
    + intros id [->|Hi]%elem_of_cons; [left|right; by apply Hin].
    + constructor; [|done]. exists p, raw. split_and!; [left|done|done].
    + intros id [->|Hi]%elem_of_cons Hn; [destruct Hn; left|].
      apply Hfail'; [done|]. intros Hi'. apply Hn. by right.
  - case_decide as Ht; cbn; split_and!; try done.
    + by apply sublist_skip.
    + intros id Hi. right. by apply Hin.
    + intros id [->|Hi]%elem_of_cons Hn; [|by apply Hfail'].
      destruct (Ho Ht) as [err Hr]. exists p, err. split_and!; [left|done|done].
    + by apply sublist_cons.
Qed.

(** A batch's fused results come from its answers. *)
Lemma fused_items batch outs weights :
  batch ⊆ ps → Forall2 search_good batch outs →
  let rs := omap out_result outs in
  Forall (item_from (res_provider <$> rs)) (fuseSearchResults rs (result_limit request) weights).
Proof.
  intros Hb Hall rs. apply Forall_forall. intros out Hout.
  destruct (fuse_spec rs (result_limit request) weights) as (_ & _ & _ & _ & Hfrom).
  destruct (Hfrom out Hout) as (r & item & Hr & Hi & Hp & Hu & _).
  destruct (good_outcomes _ _ Hall) as (_ & _ & Hres & _).
  rewrite Forall_forall in Hres. destruct (Hres r Hr) as (p & raw & Hpb & Ha & ->).
  cbn in Hi, Hp. apply list_elem_of_fmap in Hi as (item' & -> & Hi). cbn in Hu.
  exists p, raw, item'. split_and!; [by apply Hb| |done|done|done|by right].
  change (provider_id p) with
    (res_provider (normalizeProviderResult (provider_id p) raw (result_limit request))).
  by apply list_elem_of_fmap_2.
Qed.

(** How a federation over [remaining] ends: [tried] were called, and what
    is returned is of the batch [last], those [before] having failed. *)
Definition federation_ends (how : SearchStrategy)
    (remaining : list (Provider H T W SearchRequest SearchResult))
    (sel att tried : list SearchProviderId) (res : SearchResult) : Prop :=
  search_report_ok (att ++ tried) res ∧
  ∃ before last, providersSelected res = Some (sel ++ before ++ last) ∧
    last = selectSearchProviders
             (filter (λ id, id ∉ before) (provider_id <$> remaining)) how ∧
    (∀ succeeded, providersSucceeded res = Some succeeded →
       succeeded ⊆ last ∧
       ∀ id, id ∈ tried → id ∉ succeeded →
         ∃ p err, p ∈ ps ∧ provider_id p = id ∧ refused p err).

Lemma filter_ids (ids : list SearchProviderId)
    (l : list (Provider H T W SearchRequest SearchResult)) :
  provider_id <$> filter (λ p, provider_id p ∉ ids) l =
  filter (λ id, id ∉ ids) (provider_id <$> l).
Proof.
  induction l as [|p l IH]; [done|]. cbn [fmap list_fmap]. rewrite !filter_cons.
  repeat case_decide; try done. cbn. by f_equal.
Qed.

Lemma filter_not_nil (l : list SearchProviderId) : filter (λ id, id ∉ []) l = l.
Proof.
  induction l as [|id l IH]; [done|]. rewrite filter_cons, decide_True by apply not_elem_of_nil.
  by rewrite IH.
Qed.

(** A batch in which no call succeeded, then the rest of the federation. *)
Lemma federation_goes_on how remaining sel att tried res batch outs :
  batch ⊆ ps → Forall2 search_good batch outs → omap out_result outs = [] →
  federation_ends how (filter (λ p, provider_id p ∉ provider_id <$> batch) remaining)
    (sel ++ (provider_id <$> batch)) (att ++ attempted_ids outs) tried res →
  federation_ends how remaining sel att (attempted_ids outs ++ tried) res.
Proof.
  intros Hbps Hall Hom (Hrep & before & last & Hsel & Hlast & Hok).
  destruct (good_outcomes _ _ Hall) as (_ & _ & _ & Hfail). rewrite Hom in Hfail.
  rewrite <- app_assoc in Hrep, Hsel. split; [exact Hrep|].
  exists ((provider_id <$> batch) ++ before), last. rewrite Hsel, <- app_assoc.
  split_and!; [done| |].
  - rewrite Hlast, filter_ids, list_filter_filter. f_equal. apply list_filter_iff.
    intros id. rewrite elem_of_app. tauto.
  - intros succeeded Hsu. destruct (Hok succeeded Hsu) as [Hin Hf]. split; [done|].
    intros id [Hid|Hid]%elem_of_app Hn; [|by apply Hf].
    destruct (Hfail id Hid) as (p & err & ? & ? & ?); [apply not_elem_of_nil|].
    exists p, err. split_and!; [by apply Hbps|done|done].
Qed.

(** A batch in which some call succeeded: its results are returned. *)
Lemma federation_returns how remaining sel att warned startedAt (sh : Shared H T W) batch outs :
  search_strategy request = how → batch ⊆ ps → Forall2 search_good batch outs →
  provider_id <$> batch = selectSearchProviders (provider_id <$> remaining) how →
  omap out_result outs ≠ [] →
  federation_ends how remaining sel att (attempted_ids outs)
    (federated_result request how (omap out_result outs) warned (sel ++ (provider_id <$> batch))
       (att ++ attempted_ids outs) startedAt sh).
Proof.
  intros Hs Hbps Hall Hids Hne. destruct (good_outcomes _ _ Hall) as (Hatt & Hsucc & _ & Hfail).
  split.
  - unfold search_report_ok. rewrite Hs. cbn [results strategy providersAttempted
      providersSucceeded federated_result].
    split_and!; [apply fuse_spec|done|done|]. eexists. split; [done|].
    split_and!; [by intros Hnil%fmap_nil_inv| |by apply (fused_items batch)].
    intros id Hid. apply elem_of_app. right. by apply Hsucc.
  - exists [], (provider_id <$> batch). split_and!; [done|by rewrite Hids, filter_not_nil|].
    cbn. intros succeeded [= <-]. split.
    + intros id Hid%Hsucc. exact (elem_of_sublist _ _ _ Hid Hatt).
    + intros id Hid Hn. destruct (Hfail id Hid Hn) as (p & err & ? & ? & ?).
      exists p, err. split_and!; [by apply Hbps|done|done].
Qed.

Lemma batch_NoDup (given : list SearchProviderId) how : NoDup (selectSearchProviders given how).
Proof.
  destruct (decide (how = fallback)) as [->|Hne]; [apply NoDup_js_unique|].
  by apply (select_diverse_spec _ how Hne).
Qed.

Lemma federate_spec fuel how remaining warned sel att startedAt e :
  search_strategy request = how →
  (∀ p, p ∈ remaining → map_get (provider_id p) providers = Some p) →
  wp (federate fuel providers request how remaining warned sel att startedAt) (λ r e', ∃ tried,
    calls e' = calls e ++ tried ∧ NoDup tried ∧ tried ⊆ provider_id <$> remaining ∧
    ∀ res, r = Ok res → federation_ends how remaining sel att tried res) e.
Proof.
  intros Hs. revert remaining warned sel att e.
  induction fuel as [|fuel IH]; intros remaining warned sel att e Hrem; cbn [federate].
  { apply wp_throw. exists []. split_and!; [by rewrite app_nil_r|constructor|
      apply list_subseteq_nil|done]. }
  destruct (batch_spec remaining how Hrem) as [Hids Hsub].
  destruct (selectProviderBatch providers remaining how) as [|b batch] eqn:Hb.
  { apply wp_throw. exists []. split_and!; [by rewrite app_nil_r|constructor|
      apply list_subseteq_nil|done]. }
  rewrite <- Hb in *. clear b batch Hb. set (batch := selectProviderBatch _ _ _) in *.
  assert (batch ⊆ ps) as Hbps.
  { intros p Hp. by eapply (provider_map_id ps (provider_id p) p), Hrem, Hsub. }
  apply wp_bind. eapply wp_mono.
  { apply (promise_all_spec _ _ search_good); [apply search_launch_ok|apply search_finish_ok|].
    by intros p o []. }
  cbn beta. intros r e1 (outs & -> & Hall & Hc).
  destruct (good_outcomes _ _ Hall) as (Hatt & _).
  assert (NoDup (attempted_ids outs)) as Hndt.
  { eapply sublist_NoDup; [|exact Hatt]. rewrite Hids. apply batch_NoDup. }
  assert (attempted_ids outs ⊆ provider_id <$> remaining) as Hrm.
  { intros id Hid. eapply elem_of_sublist in Hid; [|exact Hatt].
    apply list_elem_of_fmap in Hid as (p & -> & Hp). by apply list_elem_of_fmap_2, Hsub. }
  apply wp_check_signal; [intros err; by exists (attempted_ids outs)|].
  destruct (omap out_result outs) as [|x xs] eqn:Hom.
  - eapply wp_mono; [apply IH; intros p [_ Hp]%list_elem_of_filter; by apply Hrem|].
    cbn beta. intros r e2 (tried & Hc2 & Hnd2 & Hsub2 & Hend). rewrite filter_ids in Hsub2.
    exists (attempted_ids outs ++ tried). rewrite Hc2, Hc, <- app_assoc. split_and!; [done| | |].
    + apply NoDup_app. split_and!; [done| |done]. intros id Hid Hid2.
      apply Hsub2, list_elem_of_filter in Hid2 as [Hn _]. apply Hn.
      exact (elem_of_sublist _ _ _ Hid Hatt).
    + intros id [Hid|Hid]%elem_of_app; [by apply Hrm|].
      by apply Hsub2, list_elem_of_filter in Hid as [_ ?].
    + intros res Hr. eapply federation_goes_on; eauto.
  - apply wp_gets, wp_ret. exists (attempted_ids outs). split_and!; [done|done|done|].
    intros res [= <-]. rewrite <- Hom. by apply federation_returns; rewrite ?Hom.
Qed.

(** The fuel of the loop is enough: more of it changes nothing. *)
Lemma federate_fuel fuel how remaining warned sel att startedAt e :
  (∀ p, p ∈ remaining → map_get (provider_id p) providers = Some p) →
  length remaining ≤ fuel →
  federate fuel providers request how remaining warned sel att startedAt e =
  federate (length remaining) providers request how remaining warned sel att startedAt e.
Proof.
  remember (length remaining) as n eqn:Hn. revert fuel remaining Hn warned sel att e.
  induction n as [n IH] using lt_wf_ind. intros fuel remaining Hn warned sel att e Hrem Hle.
  destruct (batch_spec remaining how Hrem) as [_ Hsub].
  destruct n as [|n].
  { destruct remaining; [|done]. destruct fuel; [done|]. cbn [federate].
    destruct (selectProviderBatch providers [] how) as [|b batch] eqn:Hb; [done|].
    exfalso. apply (not_elem_of_nil b), Hsub. left. }
  destruct fuel as [|fuel]; [lia|]. cbn [federate].
  destruct (selectProviderBatch providers remaining how) as [|b batch] eqn:Hb; [done|].
  set (ids := provider_id <$> b :: batch).
  unfold mbind, M_bind. destruct (promise_all _ _ _ _) as [[outs|err] e1]; [|done].
  destruct (check_signal _ _) as [[u|err] e2]; [|done].
  destruct (omap out_result outs); [|done].
  set (rest := filter _ remaining).
  assert (length rest < length remaining) as Hlt.
  { apply (length_filter_lt _ _ b); [apply Hsub; left|].
    intros Hnot. apply Hnot. unfold ids. left. }
  assert (∀ p, p ∈ rest → map_get (provider_id p) providers = Some p) as Hrest.
  { intros p [_ Hp]%list_elem_of_filter. by apply Hrem. }
  rewrite (IH (length rest) ltac:(lia) fuel rest eq_refl) by (done || lia).
  by rewrite (IH (length rest) ltac:(lia) n rest eq_refl) by (done || lia).
Qed.

(** ** The method *)

(** What became of the providers called, and where the answer is from. *)
Definition escalation (e : Env H T W) (tried : list SearchProviderId) (res : SearchResult) : Prop :=
  ∃ succeeded, providersSucceeded res = Some succeeded ∧
    (∀ id, id ∈ tried → id ∉ succeeded →
       ∃ p err, p ∈ ps ∧ provider_id p = id ∧ refused p err) ∧
    match search_strategy request with
    | fallback => ∃ init last, tried = init ++ [last] ∧ succeeded = [last]
    | how => ∃ resolved before last,
        NoDup resolved ∧ (∀ id, id ∈ resolved → ∃ p, provider_id p = id ∧ usable e p) ∧
        providersSelected res = Some (before ++ last) ∧
        last = selectSearchProviders (filter (λ id, id ∉ before) resolved) how ∧
        succeeded ⊆ last
    end.

(** What a search establishes of the providers it calls and of its result. *)
Definition search_post (e0 : Env H T W) (allowed : list SearchProviderId) e
    (r : result SearchResult) e' : Prop :=
  ∃ tried, calls e' = calls e ++ tried ∧ NoDup tried ∧ tried ⊆ allowed ∧
    ∀ res, r = Ok res → search_report_ok tried res ∧ escalation e0 tried res.

Lemma fallback_post explicit resolved warned e0 e :
  search_strategy request = fallback → NoDup (provider_id <$> resolved) →
  (∀ p, p ∈ resolved → usable e0 p) →
  wp (searchWithFallback request explicit resolved resolved warned [])
    (search_post e0 (provider_id <$> resolved) e) e.
Proof.
  intros Hfb Hnd Huse. assert (resolved ⊆ ps) as Hps.
  { intros p Hp. by apply (provider_map_id ps (provider_id p) p), Huse. }
  eapply wp_mono; [by apply searchWithFallback_spec|].
  intros r e2 (called & Hc2 & Hsubc & Hok).
  assert ((provider_id <$> called) `sublist_of` (provider_id <$> resolved)) as Hsubi
    by (by apply fmap_sublist).
  exists (provider_id <$> called). split_and!; [done|by eapply sublist_NoDup| |].
  { intros id Hid. exact (elem_of_sublist _ _ _ Hid Hsubi). }
  intros res Hr. destruct (Hok res Hr) as (Hrep & _ & init & p & -> & Hsu & Hinit).
  split; [exact Hrep|]. exists [provider_id p]. rewrite Hfb. split_and!; [done| |].
  - intros id. rewrite fmap_app. intros [Hid|Hid]%elem_of_app Hn; [|by destruct Hn].
    apply list_elem_of_fmap in Hid as (q & -> & Hq). rewrite Forall_forall in Hinit.
    destruct (Hinit q Hq) as [err Herr]. exists q, err. split_and!; [|done|done].
    apply Hps. eapply elem_of_sublist; [|exact Hsubc]. apply elem_of_app. by left.
  - exists (provider_id <$> init), (provider_id p). by rewrite fmap_app.
Qed.

Lemma federated_post how resolved warned e0 e :
  search_strategy request = how → how ≠ fallback → NoDup (provider_id <$> resolved) →
  (∀ p, p ∈ resolved → usable e0 p) →
  wp (searchFederated providers request how resolved warned)
    (search_post e0 (provider_id <$> resolved) e) e.
Proof.
  intros Hhow Hne Hnd Huse. unfold searchFederated. apply wp_clock. intros startedAt.
  eapply wp_mono; [apply federate_spec; [done|by intros p Hp; apply Huse]|].
  intros r e2 (tried & Hc2 & Hndt & Hsubt & Hok). exists tried. split_and!; [done|done|done|].
  intros res Hr. destruct (Hok res Hr) as (Hrep & before & last & Hsel & Hlast & Hsu).
  split; [exact Hrep|]. destruct Hrep as (_ & _ & _ & succeeded & Hs & _).
  exists succeeded. destruct (Hsu succeeded Hs) as [Hin Hfail].
  rewrite Hhow. split_and!; [done|exact Hfail|].
  assert (∀ id, id ∈ provider_id <$> resolved → ∃ p, provider_id p = id ∧ usable e0 p) as Hel.
  { intros id (p & -> & Hp)%list_elem_of_fmap. exists p. auto. }
  destruct how; [done| |]; by exists (provider_id <$> resolved), before, last.
Qed.

Lemma search_spec order cap e :
  wp (search ps order cap request) (λ r e', ∃ tried,
    calls e' = calls e ++ tried ∧ NoDup tried ∧
    (∀ id, id ∈ tried → id ∈ candidate_ids order request ∧ ∃ p, provider_id p = id ∧ usable e p) ∧
    ∀ res, r = Ok res → search_report_ok tried res ∧ escalation e tried res) e.
Proof.
  set (Q := λ (r : result SearchResult) (e' : Env H T W), ∃ tried, _ ∧ _).
  assert (∀ err e', calls e' = calls e → Q (Throw err) e') as Hnone.
  { intros err e' Hc. exists []. rewrite Hc, app_nil_r. split_and!; [done|constructor| |done].
    intros id Hid. by apply not_elem_of_nil in Hid. }
  unfold search. apply wp_bind, wp_lift. destruct (validateSearchRequest request); [|by apply Hnone].
  apply wp_bind, wp_lift. destruct (validateDomainFiltersForRequest _ _ _ _); [|by apply Hnone].
  apply wp_bind. eapply wp_mono; [by apply (resolve_from_spec _ e e)|].
  intros r e1 (resolved & warned & -> & Hc & Hsub & Huse). cbn beta iota.
  rewrite Forall_forall in Huse.
  assert (NoDup (provider_id <$> resolved)) as Hnd
    by (eapply sublist_NoDup; [apply NoDup_js_unique|exact Hsub]).
  assert (∀ r e', search_post e (provider_id <$> resolved) e1 r e' → Q r e') as Hpost.
  { intros r e' (tried & Hc' & Hndt & Hin & Hok). exists tried. rewrite Hc', Hc.
    split_and!; [done|done| |done]. intros id Hid%Hin. split.
    - apply elem_of_js_unique. exact (elem_of_sublist _ _ _ Hid Hsub).
    - apply list_elem_of_fmap in Hid as (p & -> & Hp). exists p. auto. }
  destruct (if decide _ then _ else _) as [|first others] eqn:Hsel.
  { destruct (explicit_provider _) as [id|]; [|apply wp_throw; by apply Hnone].
    apply wp_bind. eapply wp_mono; [apply wp_budget_is_empty|].
    intros r e2 ([spent ->] & Hc2 & _). apply wp_throw, Hnone. by rewrite Hc2. }
  rewrite <- Hsel. clear Hsel. case_decide.
  - eapply wp_mono; [by apply fallback_post|exact Hpost].
  - eapply wp_mono; [by apply federated_post|exact Hpost].
Qed.

(** C4: a search reports what happened.  Whatever the strategy, the
    providers' answers and their order, and however it ends: each provider
    is called at most once, and only if it is a candidate of the request,
    registered, healthy when the search began and able to serve it.  If the
    search returns, it has at most [maxResults] results; it lists as
    attempted exactly the providers called; at least one succeeded; and
    every result is an item among the first [maxResults] that a provider
    reported as successful answered, attributed to it, with its URL or that
    URL's canonical form. *)
Theorem search_reports_what_ran order cap e :
  let '(r, e') := search ps order cap request e in
  ∃ tried, calls e' = calls e ++ tried ∧ NoDup tried ∧
    (∀ id, id ∈ tried → id ∈ candidate_ids order request ∧ ∃ p, provider_id p = id ∧ usable e p) ∧
    ∀ res, r = Ok res → search_report_ok tried res.
Proof.
  pose proof (search_spec order cap e) as Hs. unfold wp in Hs.
  destruct (search ps order cap request e) as [r e'].
  destruct Hs as (tried & Hc & Hnd & Hel & Hok). exists tried. split_and!; [done|done|done|].
  intros res Hr. by apply Hok.
Qed.

(** a search escalates only on failure.  When it returns, every provider
    it called that is not reported as successful failed.  A fallback stops at
    its first success, the last call.  A federation answers from one batch,
    the selector's choice among the providers not in earlier batches, and
    so only after every provider called in those had failed. *)
Theorem search_escalates_only_on_failure order cap e res e' :
  search ps order cap request e = (Ok res, e') →
  ∃ tried, calls e' = calls e ++ tried ∧ escalation e tried res.
Proof.
  intros Hrun. pose proof (wp_run _ _ _ _ _ (search_spec order cap e) Hrun) as Hs.
  destruct Hs as (tried & Hc & _ & _ & Hok). exists tried. split; [done|]. by apply Hok.
Qed.
End properties.

(** ** Witness: a federated search whose first batch fails *)

Module Witness.
(** A parser that takes every text for an https URL of host [a.test]. *)
#[local] Instance flat_url : UrlApi := {|
  UrlObject := string;
  parse_url := Some;
  parse_relative := λ s _, Some s;
  url_protocol := λ _, "https:"%string;
  url_username := λ _, ""%string;
  url_password := λ _, ""%string;
  url_hostname := λ _, "a.test"%string;
  url_port := λ _, ""%string;
  url_href := id;
  clear_hash := id;
  param_names := λ _, [];
  delete_param := λ _ s, s;
  sort_params := id;
  url_toString := toLowerCase;
  localeCompare := λ _ _, 0%Z
|}.

#[local] Instance ticking : Runtime nat :=
  {| now_of := Z.of_nat; signal_reason := λ _, None; next_done := id |}.

Definition SearchProvider0 : Type :=
  Provider DynamicPenaltyHealthTracker MonthlySearchBudget nat SearchRequest SearchResult.

Definition start : Env DynamicPenaltyHealthTracker MonthlySearchBudget nat :=
  {| shared := {| health := Some (new_tracker DEFAULT_CONFIG); budget := None; world := 0 |};
     calls := [] |}.

Definition search_provider (id : SearchProviderId) (answer : result SearchResult)
    : SearchProvider0 :=
  {| provider_id := id; supports := λ _, true;
     call := λ _ sh, (answer, {| health := health sh; budget := budget sh; world := world sh + 7 |}) |}.

Definition item (u : string) : SearchResultItem :=
  {| title := "t"; url := u; snippet := "s"; publishedAt := None; item_score := None;
     item_provider := ""; fusionScore := None; sources := None |}.

Definition answer (us : list string) : result SearchResult :=
  Ok {| res_query := "rocq"; res_provider := ""; results := item <$> us; durationMs := 3;
        warnings := []; strategy := None; providersSelected := None; providersAttempted := None;
        providersSucceeded := None; providerDetails := None |}.

Definition web : list SearchProvider0 :=
  [search_provider "tavily" (Throw (TError "down")); search_provider "linkup" (Throw TOther);
   search_provider "exa" (Throw (TString "down"));
   search_provider "brave" (answer ["https://A.test/1"; "https://a.test/2"])]%string.

Definition ask : SearchRequest :=
  {| query := "rocq"; maxResults := int 5; domains := None; excludeDomains := None;
     timeRange := None; req_provider := None; req_providers := None;
     req_strategy := Some balanced |}.

Definition order : list SearchProviderId := ["tavily"; "linkup"; "exa"; "brave"]%string.

Example brave_in_second_batch :
  match search web order None ask start with
  | (Ok res, e') => calls e' = ["tavily"; "exa"; "linkup"; "brave"]%string ∧
      url <$> results res = ["https://a.test/1"; "https://a.test/2"]%string ∧
      providersSucceeded res = Some ["brave"%string]
  | _ => False
  end.
Proof. vm_compute. done. Qed.

Lemma search_escalates_only_on_failure_witness : ∃ res e' tried,
  search web order None ask start = (Ok res, e') ∧ calls e' = calls start ++ tried ∧
  escalation web ask start tried res.
Proof.
  destruct (search web order None ask start) as [r e'] eqn:Hrun.
  assert (is_Ok r) as [res ->].
  { replace r with (fst (r, e')) by reflexivity. rewrite <- Hrun. vm_compute. by eexists. }
  destruct (search_escalates_only_on_failure web ask order None start res e' Hrun)
    as (tried & Hc & Hesc).
  exists res, e', tried. split_and!; [reflexivity|exact Hc|exact Hesc].
Defined.
End Witness.
