(* ===== verification/ContentPagination.v ===== *)
(** * Paginating retrieved content

    [src/core/content-pagination.ts]: one page of a provider's content, as
    long as the output limit allows, fenced by a hash of the whole.  SHA-256
    over the JSON of the source and the length of the JSON of a page are the
    runtime's. *)

From S2P Require Import Prelude JsString SearchSelect ProviderRouter Routers.
Import Content.

Record PaginatedContent := {
  page : ContentProviderResult;
  contentOffset : Z;
  totalContentChars : Z;
  nextContentOffset : option Z;
  contentHash : string;
  sourceTruncated : bool
}.

Record PaginatedContentResult := {
  pages_url : string;
  paginated : Routed PaginatedContent
}.

Record ContentPageOptions := {
  offset : number;
  maxPageChars : number;
  maxOutputChars : number;
  expectedContentHash : option string
}.

(** [createHash("sha256").update(JSON.stringify([...])).digest("hex")], over
    the provider, both URLs, the format, the truncation flag and the content
    of the source, and [Array.from(JSON.stringify(page)).length]. *)
Class PageApi := {
  source_hash : ContentProviderResult → string;
  json_length : PaginatedContentResult → Z
}.

(** [/^[a-f0-9]{64}$/] *)
Definition is_hash (s : string) : bool :=
  (String.length s =? 64) && forallb (λ c, is_digit c || between 97 102 c) (chars s).

Definition hash_malformed (h : option string) : bool :=
  match h with Some h => negb (is_hash h) | None => false end.

(** [!Number.isSafeInteger(x) || x < lo || x > hi] *)
Definition not_safe_in (lo hi : Z) (x : number) : bool :=
  negb (isSafeInteger x) || (to_Z x <? lo)%Z || (hi <? to_Z x)%Z.

Definition options_invalid (o : ContentPageOptions) : bool :=
  not_safe_in 0 200000 (offset o) || not_safe_in 1 200000 (maxPageChars o) ||
  negb (isSafeInteger (maxOutputChars o)) || (to_Z (maxOutputChars o) <? 1)%Z ||
  hash_malformed (expectedContentHash o) ||
  ((0 <? to_Z (offset o))%Z && negb (is_defined (expectedContentHash o))).

Definition page_error (message : string) : thrown := gerror INVALID_INPUT "web_content" message false.
Definition output_limit (message : string) : thrown := gerror OUTPUT_LIMIT "web_content" message false.

(** [{ ...result, contents: [one] }] *)
Definition with_page (result : ContentResult) (one : PaginatedContent) : PaginatedContentResult :=
  let run := contents result in
  {| pages_url := asked_url result;
     paginated := {| r_strategy := r_strategy run; r_selected := r_selected run;
                     r_attempted := r_attempted run; r_succeeded := r_succeeded run;
                     r_results := [one]; r_durationMs := r_durationMs run;
                     r_warnings := r_warnings run |} |}.

(** [characters.slice(from, to)] *)
Definition slice_chars (from to : Z) (l : list ascii) : list ascii :=
  take (Z.to_nat (to - from)) (drop (Z.to_nat from) l).

(** [{ ...source, content, truncated }] *)
Definition with_content (source : ContentProviderResult) (text : string) (cut : bool)
    : ContentProviderResult :=
  {| by_provider := by_provider source; res_url := res_url source; finalUrl := finalUrl source;
     title := title source; content := text; format := format source; truncated := cut;
     durationMs := durationMs source; warnings := warnings source |}.

(** [l.lastIndexOf("\n")] *)
Fixpoint last_newline_from (i last : Z) (l : list ascii) : Z :=
  match l with
  | [] => last
  | c :: l' => last_newline_from (i + 1) (if decide (c = newline) then i else last) l'
  end.

Definition last_newline (l : list ascii) : Z := last_newline_from 0 (-1) l.

(** The [while] loop: the length of a page that fits, between [low] and
    [high].  Every turn shrinks the interval; its length is fuel enough. *)
Fixpoint search_fit (fits : Z → bool) (fuel : nat) (low high : Z) : Z :=
  match fuel with
  | O => low
  | S fuel' =>
      if (low <? high)%Z then
        let count := ((low + high + 1) / 2)%Z in
        if fits count then search_fit fits fuel' count high
        else search_fit fits fuel' low (count - 1)
      else low
  end.

Section paginate.
Context `{PageApi}.

Definition makePage (result : ContentResult) (source : ContentProviderResult) (off count : Z)
    : PaginatedContentResult :=
  let characters := chars (content source) in
  let total := Z.of_nat (length characters) in
  let end_ := (off + count)%Z in
  with_page result
    {| page := with_content source (unchars (slice_chars off end_ characters))
                 (truncated source || (0 <? off)%Z || (end_ <? total)%Z);
       contentOffset := off;
       totalContentChars := total;
       nextContentOffset := if (end_ <? total)%Z then Some end_ else None;
       contentHash := source_hash source;
       sourceTruncated := truncated source |}.

(** Prefer complete lines: the page's length after the last newline, if that
    leaves at least four fifths of it ([Math.floor(low * 0.8)]). *)
Definition prefer_lines (characters : list ascii) (off low : Z) : Z :=
  if (off + low <? Z.of_nat (length characters))%Z then
    let n := last_newline (slice_chars off (off + low) characters) in
    if (low * 4 / 5 <=? n)%Z then (n + 1)%Z else low
  else low.

Definition paginateContentResult (result : ContentResult) (o : ContentPageOptions)
    : Prelude.result PaginatedContentResult :=
  match r_results (contents result) with
  | [source] =>
      throw_if (options_invalid o)
        (page_error ("Pagination requires one provider, valid limits, and a content hash for " +:+
           "continuation"));;
      let characters := chars (content source) in
      let total := Z.of_nat (length characters) in
      let off := to_Z (offset o) in
      throw_if (total <? off)%Z
        (page_error "Content offset exceeds the retrieved source length");;
      throw_if (match expectedContentHash o with
                | Some h => negb (bool_decide (h = source_hash source)) | None => false end)
        (gerror_hint INVALID_INPUT "web_content" "Content changed since the previous page" false
           (hint "web_content.content_changed"
              ("Restart pagination at contentOffset=0; provider content or its final URL " +:+
               "changed.")));;
      let fits count := (json_length (makePage result source off count)
                           <=? to_Z (maxOutputChars o))%Z in
      throw_if (negb (fits 0%Z))
        (output_limit "Pagination metadata exceeds the configured output limit");;
      let high := Z.min (to_Z (maxPageChars o)) (total - off) in
      let low := search_fit fits (Z.to_nat high) 0 high in
      throw_if ((low =? 0) && (off <? total))%Z
        (output_limit "Output limit cannot fit a non-empty content page");;
      let low := prefer_lines characters off low in
      throw_if (negb (fits low))
        (output_limit "Content page exceeds the configured output limit");;
      Ok (makePage result source off low)
  | _ => Throw (page_error ("Pagination requires one provider, valid limits, and a content " +:+
                            "hash for continuation"))
  end.

(** ** A client that follows [nextContentOffset]

    [None] when [fuel] pages were not enough. *)
Fixpoint read_pages (fuel : nat) (result : ContentResult) (maxPage maxOut : number) (off : Z)
    (hash : option string) : option (Prelude.result (list PaginatedContent)) :=
  match fuel with
  | O => None
  | S fuel' =>
      match paginateContentResult result
              {| offset := int off; maxPageChars := maxPage; maxOutputChars := maxOut;
                 expectedContentHash := hash |} with
      | Throw e => Some (Throw e)
      | Ok p =>
          match r_results (paginated p) with
          | [one] =>
              match nextContentOffset one with
              | None => Some (Ok [one])
              | Some next =>
                  rest ← read_pages fuel' result maxPage maxOut next (Some (contentHash one));
                  Some (pages ← rest; Ok (one :: pages))
              end
          | _ => Some (Ok [])
          end
      end
  end.
End paginate.

(** * Correctness of content pagination *)

(** ** The search for a page that fits *)

Lemma midpoint low high : (low < high)%Z → (low < (low + high + 1) / 2 <= high)%Z.
Proof.
  intros. pose proof (Z.div_mod (low + high + 1) 2 ltac:(lia)).
  pose proof (Z.mod_pos_bound (low + high + 1) 2 ltac:(lia)). lia.
Qed.

Lemma search_fit_bounds fits fuel low high :
  (low <= high)%Z →
  (low <= search_fit fits fuel low high <= high)%Z ∧
  (search_fit fits fuel low high = low ∨ fits (search_fit fits fuel low high) = true).
Proof.
  revert low high. induction fuel as [|fuel IH]; intros low high Hle; cbn; [split; [lia|by left]|].
  destruct (low <? high)%Z eqn:Hlt; reflect; [|split; [lia|by left]].
  set (count := ((low + high + 1) / 2)%Z).
  assert (low < count <= high)%Z as Hc.
  { by apply midpoint. }
  destruct (fits count) eqn:Hf.
  - destruct (IH count high ltac:(lia)) as [? [->|?]]; (split; [lia|by right]).
  - destruct (IH low (count - 1)%Z ltac:(lia)) as [? [->|?]]; (split; [lia|by auto]).
Qed.

(** It finds the longest page that fits, when longer pages take more room. *)
Lemma search_fit_longest fits fuel low high :
  (high - low <= Z.of_nat fuel)%Z → fits low = true →
  (∀ a b, (a <= b)%Z → fits b = true → fits a = true) →
  ∀ c, (low <= c <= high)%Z → fits c = true → (c <= search_fit fits fuel low high)%Z.
Proof.
  intros Hfuel Hlow Hmono c. revert low high Hfuel Hlow.
  induction fuel as [|fuel IH]; intros low high Hfuel Hlow Hc Hfc; cbn; [lia|].
  destruct (low <? high)%Z eqn:Hlt; reflect; [|lia].
  set (count := ((low + high + 1) / 2)%Z).
  assert (low < count <= high)%Z as Hco.
  { by apply midpoint. }
  destruct (fits count) eqn:Hf.
  - destruct (Z.le_gt_cases count c); [apply IH; auto; lia|].
    destruct (search_fit_bounds fits fuel count high ltac:(lia)). lia.
  - apply IH; auto; [lia|]. split; [lia|].
    destruct (Z.le_gt_cases count c) as [Hge|]; [|lia].
    rewrite (Hmono count c) in Hf by done. done.
Qed.

Lemma last_newline_from_bound i last l :
  (last < i)%Z → (-1 <= last)%Z → (0 <= i)%Z →
  (-1 <= last_newline_from i last l < i + Z.of_nat (length l))%Z.
Proof.
  revert i last. induction l as [|c l IH]; intros i last H1 H2 H3; cbn [last_newline_from length];
    [lia|]. case_decide.
  - specialize (IH (i + 1)%Z i ltac:(lia) ltac:(lia) ltac:(lia)). lia.
  - specialize (IH (i + 1)%Z last ltac:(lia) ltac:(lia) ltac:(lia)). lia.
Qed.

Lemma length_slice from to (l : list ascii) :
  (0 <= from <= to)%Z → (Z.of_nat (length (slice_chars from to l)) <= to - from)%Z.
Proof. intros. unfold slice_chars. rewrite length_take. lia. Qed.

Lemma prefer_lines_bounds cs off low :
  (0 <= off)%Z → (0 <= low)%Z →
  (0 <= prefer_lines cs off low <= low)%Z ∧ (0 < low → 0 < prefer_lines cs off low)%Z.
Proof.
  intros Ho Hl. unfold prefer_lines. destruct (off + low <? _)%Z; [|lia].
  pose proof (last_newline_from_bound 0 (-1) (slice_chars off (off + low) cs)
    ltac:(lia) ltac:(lia) ltac:(lia)).
  pose proof (length_slice off (off + low) cs ltac:(lia)).
  assert (0 <= low * 4 / 5)%Z by (apply Z.div_pos; lia).
  unfold last_newline. destruct (_ <=? _)%Z eqn:Hle; reflect; lia.
Qed.

Section pages.
Context `{PageApi}.
Implicit Types (result : ContentResult) (source : ContentProviderResult).

(** A page that is returned: where it is, and that it fits. *)
Lemma paginate_Ok result source o p :
  r_results (contents result) = [source] → paginateContentResult result o = Ok p →
  let off := to_Z (offset o) in
  let total := Z.of_nat (length (chars (content source))) in
  ∃ count, p = makePage result source off count ∧
    (0 <= off <= total ∧ 0 <= count <= to_Z (maxPageChars o) ∧ off + count <= total)%Z ∧
    (off < total → 0 < count)%Z ∧ (json_length p <= to_Z (maxOutputChars o))%Z.
Proof.
  intros Hsrc. unfold paginateContentResult. rewrite Hsrc.
  set (off := to_Z (offset o)). set (cs := chars (content source)).
  set (total := Z.of_nat (length cs)).
  intros (u1 & Hopt%throw_if_Ok & (u2 & Hoff%throw_if_Ok & (u3 & _ & (u4 & _ & Hrest)
    %result_bind_Ok)%result_bind_Ok)%result_bind_Ok)%result_bind_Ok. reflect.
  apply result_bind_Ok in Hrest as (u5 & Hne%throw_if_Ok & Hrest).
  apply result_bind_Ok in Hrest as (u6 & Hfit%throw_if_Ok & [= <-]).
  apply negb_false_iff in Hfit.
  unfold options_invalid, not_safe_in in Hopt. reflect.
  set (fits := λ count, (json_length (makePage result source off count)
    <=? to_Z (maxOutputChars o))%Z) in *.
  set (high := Z.min (to_Z (maxPageChars o)) (total - off)) in *.
  destruct (search_fit_bounds fits (Z.to_nat high) 0 high ltac:(lia)) as [Hlow _].
  set (low := search_fit fits (Z.to_nat high) 0 high) in *.
  destruct (prefer_lines_bounds cs off low ltac:(lia) ltac:(lia)) as [Hp Hpos].
  exists (prefer_lines cs off low). split; [done|]. split; [lia|]. split.
  - intros Hlt. apply Hpos. apply andb_false_iff in Hne as [Hne|Hne]; reflect; lia.
  - unfold fits in Hfit. by reflect.
Qed.

Definition limits_ok (maxPage maxOut : number) : Prop :=
  not_safe_in 1 200000 maxPage = false ∧ isSafeInteger maxOut = true ∧ (1 <= to_Z maxOut)%Z.

(** The hash a client sends with an offset. *)
Definition hash_ok source (off : Z) (hash : option string) : Prop :=
  hash = Some (source_hash source) ∨ hash = None ∧ off = 0%Z.

(** Within the limits, only the output limit can stop a page. *)
Lemma paginate_only_output_limit result source maxPage maxOut off hash e :
  (∀ s, is_hash (source_hash s) = true) →
  r_results (contents result) = [source] → limits_ok maxPage maxOut → hash_ok source off hash →
  (0 <= off <= Z.of_nat (length (chars (content source))))%Z → (off <= 200000)%Z →
  paginateContentResult result {| offset := int off; maxPageChars := maxPage;
    maxOutputChars := maxOut; expectedContentHash := hash |} = Throw e →
  ∃ message, e = output_limit message.
Proof.
  intros Hhash Hsrc (Hp & Ho & Ho1) Hh Hoff Hcap. unfold paginateContentResult. rewrite Hsrc.
  cbn [offset maxPageChars maxOutputChars expectedContentHash].
  assert (isSafeInteger (int off) = true) as Hsafe.
  { unfold isSafeInteger. rewrite isInteger_int, to_Z_int. apply Z.leb_le.
    unfold MAX_SAFE_INTEGER. lia. }
  assert (options_invalid {| offset := int off; maxPageChars := maxPage;
    maxOutputChars := maxOut; expectedContentHash := hash |} = false) as ->.
  { unfold options_invalid. cbn [offset maxPageChars maxOutputChars expectedContentHash].
    rewrite Hp, Ho. unfold not_safe_in. rewrite Hsafe, to_Z_int.
    rewrite (proj2 (Z.ltb_ge off 0)), (proj2 (Z.ltb_ge 200000 off)),
      (proj2 (Z.ltb_ge (to_Z maxOut) 1)) by lia.
    destruct Hh as [->|[-> ->]]; cbn; [rewrite Hhash|]; by rewrite ?andb_false_r. }
  rewrite !to_Z_int. rewrite (proj2 (Z.ltb_ge _ off)) by lia. cbn.
  assert (match hash with Some h => negb (bool_decide (h = source_hash source)) | None => false end
    = false) as ->.
  { destruct Hh as [->|[-> _]]; [by rewrite bool_decide_true|done]. }
  unfold throw_if, mbind, result_bind. cbn.
  repeat (match goal with |- context [if ?b then _ else _] => destruct b end; cbn;
    [intros [= <-]; by eexists|]). done.
Qed.

Lemma page_slice_drop off count (l : list ascii) :
  (0 <= off)%Z → (0 <= count)%Z →
  slice_chars off (off + count) l ++ drop (Z.to_nat (off + count)) l = drop (Z.to_nat off) l.
Proof.
  intros. unfold slice_chars. replace (off + count - off)%Z with count by lia.
  rewrite Z2Nat.inj_add by done. rewrite <- drop_drop. apply take_drop.
Qed.

(** The contents of the pages, one after the other. *)
Definition joined_content (pages : list PaginatedContent) : list ascii :=
  mjoin ((λ p, chars (content (page p))) <$> pages).

Lemma joined_cons p pages :
  joined_content (p :: pages) = chars (content (page p)) ++ joined_content pages.
Proof. done. Qed.

(** A page of a reading of [source]. *)
Definition page_ok source (maxPage : number) (p : PaginatedContent) : Prop :=
  contentHash p = source_hash source ∧
  totalContentChars p = Z.of_nat (length (chars (content source))) ∧
  (Z.of_nat (length (chars (content (page p)))) <= to_Z maxPage)%Z.

Lemma read_pages_from fuel result source maxPage maxOut off hash :
  (∀ s, is_hash (source_hash s) = true) →
  r_results (contents result) = [source] → limits_ok maxPage maxOut → hash_ok source off hash →
  (Z.of_nat (length (chars (content source))) <= 200000)%Z →
  (0 <= off <= Z.of_nat (length (chars (content source))))%Z →
  (Z.of_nat (length (chars (content source))) - off < Z.of_nat fuel)%Z →
  ∃ r, read_pages fuel result maxPage maxOut off hash = Some r ∧
    match r with
    | Ok pages => joined_content pages =
                    drop (Z.to_nat off) (chars (content source)) ∧
                  Forall (page_ok source maxPage) pages
    | Throw e => ∃ message, e = output_limit message
    end.
Proof.
  intros Hhash Hsrc Hlim. revert off hash.
  induction fuel as [|fuel IH]; intros off hash Hh Hcap Hoff Hfuel; [lia|]. cbn [read_pages].
  destruct (paginateContentResult _ _) as [p|e] eqn:Hpage.
  2:{ eexists. split; [done|]. cbn. eapply paginate_only_output_limit; [..|exact Hpage]; done || lia. }
  apply (paginate_Ok _ source) in Hpage as (count & Hp & Hb & Hpos & _); [|done].
  cbn [offset maxPageChars] in Hp, Hb, Hpos. rewrite to_Z_int in Hp, Hb, Hpos. subst p.
  cbn [makePage with_page paginated
    r_results nextContentOffset contentHash].
  set (cs := chars (content source)) in *.
  match goal with |- context [Some (Ok [?p])] => set (one := p) end.
  assert (chars (content (page one)) = slice_chars off (off + count) cs) as Hcontent
    by apply chars_unchars.
  assert (page_ok source maxPage one) as Hone.
  { split_and!; [done|done|]. rewrite Hcontent.
    pose proof (length_slice off (off + count) cs ltac:(lia)). lia. }
  destruct (off + count <? Z.of_nat (length cs))%Z eqn:Hend; reflect.
  - destruct (IH (off + count)%Z (Some (source_hash source))) as (r & -> & Hr);
      [by left|done|lia|lia|].
    cbn [mbind option_bind]. destruct r as [pages|e]; eexists; (split; [done|]); [|done].
    destruct Hr as [Hr Hall]. split; [|by constructor].
    rewrite joined_cons, Hr, Hcontent. apply page_slice_drop; lia.
  - eexists. split; [done|]. split; [|by constructor].
    rewrite joined_cons, Hcontent. change (joined_content []) with (@nil ascii).
    rewrite app_nil_r, <- (page_slice_drop off count cs) by lia.
    rewrite (drop_ge cs) by lia. by rewrite app_nil_r.
Qed.

(** pages add up to the content.  A client that reads a source of at
    most 200000 characters from the start, following [nextContentOffset] and
    echoing the hash, is done after at most one page more than there are
    characters; it either gets pages whose contents, in order, are exactly
    the source's content, each of at most [maxContentChars] characters and
    under the same hash, or the error that the output limit is too small. *)
Theorem pages_cover_content result source maxPage maxOut :
  (∀ s, is_hash (source_hash s) = true) →
  r_results (contents result) = [source] → limits_ok maxPage maxOut →
  (str_length (content source) <= 200000)%Z →
  ∃ r, read_pages (S (String.length (content source))) result maxPage maxOut 0 None = Some r ∧
    match r with
    | Ok pages => joined_content pages = chars (content source) ∧
                  Forall (page_ok source maxPage) pages
    | Throw e => ∃ message, e = output_limit message
    end.
Proof.
  unfold str_length. rewrite <- length_chars. intros Hhash Hsrc Hlim Hcap.
  apply (read_pages_from _ _ source); try done; [by right|lia|lia].
Qed.
End pages.

(** ** Witness: pages of at most seven characters, lines kept whole *)

Module Witness.
#[local] Instance api : PageApi := {|
  source_hash := λ _, unchars (replicate 64 "a"%char);
  json_length := λ p, (Z.of_nat (length (joined_content (r_results (paginated p)))) + 20)%Z
|}.

Definition text : string := unchars (chars "one two" ++ [newline] ++ chars "three").

Definition source : ContentProviderResult :=
  {| by_provider := "exa"; res_url := "https://a.test/"; finalUrl := "https://a.test/";
     title := None; content := text; format := markdown; truncated := false; durationMs := 5;
     warnings := [] |}.

Definition found : ContentResult :=
  {| asked_url := "https://a.test/";
     contents := {| r_strategy := route_parallel; r_selected := ["exa"%string];
                    r_attempted := ["exa"%string]; r_succeeded := ["exa"%string];
                    r_results := [source]; r_durationMs := 9; r_warnings := [] |} |}.

Lemma pages_cover_content_witness : ∃ pages,
  read_pages 14 found (int 100) (int 29) 0 None = Some (Ok pages) ∧
  (λ p, contentOffset p) <$> pages = [0; 8]%Z ∧
  joined_content pages = chars text.
Proof.
  destruct (pages_cover_content found source (int 100) (int 29)) as (r & Hr & Hok).
  - intros s. vm_compute. reflexivity.
  - reflexivity.
  - split_and!; vm_compute; done.
  - vm_compute. done.
  - destruct r as [pages|e].
    + exists pages. split; [exact Hr|]. split; [|exact (proj1 Hok)].
      vm_compute in Hr. injection Hr as <-. reflexivity.
    + exfalso. vm_compute in Hr. done.
Defined.
End Witness.
