(* ===== verification/Limits.v ===== *)
(** * Deadlines, the concurrency limiter and truncation

    [src/core/limits.ts].  The limiter's promises are tickets and its
    release functions are numbers; an operation returns what its promise is
    settled with at once, and later settlements are recorded in the state. *)

From S2P Require Import Prelude JsString.
From stdpp Require Import sets fin_sets gmap.
From Stdlib Require Import Sorted.

(** ** [Deadline] *)

Definition num_neg (x : number) : number :=
  match x with NaN => NaN | PosInf => NegInf | NegInf => PosInf | Num n d => Num (- n) d end.

(** [Math.ceil(x)] *)
Definition num_ceil (x : number) : number :=
  match x with Num n d => int (- ((- n) / Zpos d)) | _ => x end.

Record Deadline := { expiresAt : number }.

Definition new_Deadline (timeoutMs now : number) : result Deadline :=
  throw_if (negb (isFinite timeoutMs) || num_leb timeoutMs (int 0))
    (gerror INVALID_INPUT "deadline" "Timeout must be a positive number" false);;
  Ok {| expiresAt := num_add now timeoutMs |}.

Definition deadline_exceeded (stage : string) : thrown :=
  gerror DEADLINE_EXCEEDED stage "The request deadline was exceeded" true.

Definition remainingMs (d : Deadline) (stage : string) (now : number) : result number :=
  let left := num_ceil (num_add (expiresAt d) (num_neg now)) in
  throw_if (num_leb left (int 0)) (deadline_exceeded stage);;
  Ok left.

Definition request_cancelled (stage : string) : thrown :=
  gerror CANCELLED stage "The request was cancelled" false.

(** ** [withinDeadline]

    How the race of the operation against the abort of its controller ends:
    the operation's outcome, and the abort reason if the controller is
    aborted by then.  [RaceAborted] is the abort winning.  The clock is read
    twice, before the start and for the timer. *)
Inductive race (A : Type) :=
  | RaceOperation (outcome : result A) (aborted : option thrown)
  | RaceAborted (reason : thrown).
Arguments RaceOperation {A} _ _.
Arguments RaceAborted {A} _.

(** The [catch] clause: the abort reason decides once there is one. *)
Definition abort_error (reason : thrown) (stage : string) : thrown :=
  match reason with TGroundlane e => TGroundlane e | _ => request_cancelled stage end.

Definition withinDeadline {A} (d : Deadline) (parent : option thrown) (stage : string)
    (now timer_now : number) (outcome : race A) : result A :=
  remainingMs d stage now;;
  throw_if (match parent with Some _ => true | None => false end) (request_cancelled stage);;
  remainingMs d stage timer_now;;
  match outcome with
  | RaceOperation (Ok a) _ => Ok a
  | RaceOperation (Throw e) None => Throw e
  | RaceOperation (Throw _) (Some reason) | RaceAborted reason =>
      Throw (abort_error reason stage)
  end.

(** ** [ConcurrencyLimiter] *)

(** What a queued promise was settled with. *)
Inductive settlement := Granted (release : nat) | Rejected (e : thrown).

(** [queue] holds the tickets of the waiting entries, in order.  [issued]
    counts the release functions made and [released] those called, each with
    its own [released] flag; [tickets] counts the entries made. *)
Record ConcurrencyLimiter := {
  limit : Z;
  maxQueue : Z;
  activeCount : Z;
  queue : list nat;
  issued : nat;
  released : gset nat;
  tickets : nat;
  settled : gmap nat settlement
}.

#[export] Instance ConcurrencyLimiter_updatable : Updatable ConcurrencyLimiter :=
  {| rebuild := λ l, Build_ConcurrencyLimiter (limit l) (maxQueue l) (activeCount l) (queue l)
       (issued l) (released l) (tickets l) (settled l) |}.

Definition new_ConcurrencyLimiter (lim maxq : number) : result ConcurrencyLimiter :=
  throw_if (negb (isInteger lim) || num_ltb lim (int 1) ||
            negb (isInteger maxq) || num_ltb maxq (int 0))
    (gerror INVALID_INPUT "concurrency" "Concurrency limits must be non-negative integers" false);;
  Ok {| limit := to_Z lim; maxQueue := to_Z maxq; activeCount := 0; queue := []; issued := 0;
        released := ∅; tickets := 0; settled := ∅ |}.

#[local] Notation Lim := (M ConcurrencyLimiter).

(** [this.releaseFactory()]: a new release function. *)
Definition releaseFactory : Lim nat := λ l,
  (Ok (issued l), l <| issued := S (issued l) |>).

(** The promise of [acquire]: settled with a release function, or pending. *)
Inductive acquired := AcquiredNow (release : nat) | Waiting (ticket : nat).

Definition acquire (d : Deadline) (aborted : bool) (now : number) : Lim acquired :=
  l ← get;
  if aborted then throw (gerror CANCELLED "queue" "The request was cancelled" false)
  else if (activeCount l <? limit l)%Z then
    update (λ l, l <| activeCount := (activeCount l + 1)%Z |>);;
    r ← releaseFactory;
    mret (AcquiredNow r)
  else if (maxQueue l <=? Z.of_nat (length (queue l)))%Z then
    throw (gerror CONCURRENCY_LIMIT "queue" "The request queue is full" true)
  else
    lift (remainingMs d "queue" now);;
    put (l <| queue := queue l ++ [tickets l] |> <| tickets := S (tickets l) |>);;
    mret (Waiting (tickets l)).

(** [remove(entry, error)]: what the entry's timer and its abort do. *)
Definition remove (ticket : nat) (e : thrown) : Lim unit :=
  update (λ l,
    if decide (ticket ∈ queue l)
    then l <| queue := filter (λ t, t ≠ ticket) (queue l) |>
           <| settled := <[ticket := Rejected e]> (settled l) |>
    else l).

Definition queue_timeout : thrown :=
  gerror DEADLINE_EXCEEDED "queue" "The request deadline was exceeded while queued" true.
Definition queue_cancelled : thrown :=
  gerror CANCELLED "queue" "The request was cancelled while queued" false.

(** A call of the release function [r]. *)
Definition release (r : nat) : Lim unit :=
  l ← get;
  if decide (r ∈ released l) then mret tt
  else
    put (l <| released := {[r]} ∪ released l |>);;
    match queue l with
    | [] => update (λ l, l <| activeCount := (activeCount l - 1)%Z |>)
    | next :: rest =>
        update (λ l, l <| queue := rest |>);;
        r' ← releaseFactory;
        update (λ l, l <| settled := <[next := Granted r']> (settled l) |>)
    end.

(** ** [truncateUnicode] *)

Record Truncated := {
  trunc_value : string;
  truncated : bool;
  originalLength : Z;
  returnedLength : Z
}.

Definition truncateUnicode (value : string) (maxChars : number) : result Truncated :=
  throw_if (negb (isInteger maxChars) || num_ltb maxChars (int 0))
    (gerror INVALID_INPUT "output" "Character limit must be a non-negative integer" false);;
  let n := to_Z maxChars in
  Ok {| trunc_value := slice_to (Z.to_nat n) value;
        truncated := (n <? str_length value)%Z;
        originalLength := str_length value;
        returnedLength := Z.min (str_length value) n |}.

(** * Correctness of the concurrency limiter *)

(** ** Histories: calls of [acquire], calls of release functions that were
    handed out, and the timers and aborts of queued entries, in any order. *)

Inductive command :=
  | Acquire (d : Deadline) (aborted : bool) (now : number)
  | Release (r : nat)
  | TimeOut (ticket : nat)
  | AbortTicket (ticket : nat).

Definition exec (c : command) (l : ConcurrencyLimiter) : ConcurrencyLimiter :=
  match c with
  | Acquire d aborted now => (acquire d aborted now l).2
  | Release r => if decide (r < issued l) then (release r l).2 else l
  | TimeOut t => (Limits.remove t queue_timeout l).2
  | AbortTicket t => (Limits.remove t queue_cancelled l).2
  end.

Definition run (cs : list command) (l : ConcurrencyLimiter) : ConcurrencyLimiter :=
  foldl (λ l c, exec c l) l cs.

(** The release functions handed out and not called: the slots in use. *)
Definition held (l : ConcurrencyLimiter) : gset nat := set_seq 0 (issued l) ∖ released l.

Record limiter_ok (l : ConcurrencyLimiter) : Prop := {
  active_is_held : activeCount l = Z.of_nat (size (held l));
  active_bounded : (activeCount l <= limit l)%Z;
  queue_bounded : (Z.of_nat (length (queue l)) <= maxQueue l)%Z;
  queue_waits : queue l ≠ [] → activeCount l = limit l;
  queue_in_order : StronglySorted lt (queue l);
  ticket_once : ∀ t, t < tickets l → (t ∈ queue l ↔ settled l !! t = None);
  ticket_known : ∀ t, t ∈ queue l → t < tickets l;
  no_overtaking : ∀ t r t', settled l !! t = Some (Granted r) → t' ∈ queue l → t < t'
}.

Record limiter_inv (l : ConcurrencyLimiter) : Prop := {
  inv_ok :> limiter_ok l;
  inv_limits : (0 < limit l ∧ 0 <= maxQueue l)%Z;
  inv_released : released l ⊆ set_seq 0 (issued l);
  inv_settled : ∀ t, is_Some (settled l !! t) → t < tickets l
}.

Lemma size_held l :
  released l ⊆ set_seq 0 (issued l) → size (held l) + size (released l) = issued l.
Proof.
  intros Hsub. unfold held. rewrite size_difference by done.
  pose proof (subseteq_size _ _ Hsub). rewrite size_set_seq in *. lia.
Qed.

(** A slot is taken: one more release function. *)
Lemma size_held_issue l l' :
  released l ⊆ set_seq 0 (issued l) → issued l' = S (issued l) → released l' = released l →
  released l' ⊆ set_seq 0 (issued l') ∧ size (held l') = S (size (held l)).
Proof.
  intros Hsub Hi Hr. assert (released l' ⊆ set_seq 0 (issued l')) as Hsub'.
  { rewrite Hr, Hi. set_solver by lia. }
  split; [done|]. pose proof (size_held l Hsub). pose proof (size_held l' Hsub').
  rewrite Hr in *. lia.
Qed.

(** A slot is given back. *)
Lemma size_held_release l l' r :
  released l ⊆ set_seq 0 (issued l) → r < issued l → r ∉ released l →
  issued l' = issued l → released l' = {[r]} ∪ released l →
  released l' ⊆ set_seq 0 (issued l') ∧ S (size (held l')) = size (held l).
Proof.
  intros Hsub Hr Hn Hi Hl. assert (released l' ⊆ set_seq 0 (issued l')) as Hsub'.
  { rewrite Hl, Hi. set_solver by lia. }
  split; [done|]. pose proof (size_held l Hsub). pose proof (size_held l' Hsub').
  rewrite Hl, Hi in *. rewrite size_union, size_singleton in * by set_solver. lia.
Qed.

Definition keeps_settled (l l' : ConcurrencyLimiter) : Prop :=
  limit l' = limit l ∧ maxQueue l' = maxQueue l ∧
  ∀ t s, settled l !! t = Some s → settled l' !! t = Some s.

Lemma keeps_settled_refl l : keeps_settled l l.
Proof. done. Qed.

Lemma sorted_snoc (q : list nat) n :
  StronglySorted lt q → (∀ t, t ∈ q → t < n) → StronglySorted lt (q ++ [n]).
Proof.
  induction 1 as [|a q Hs IH Ha]; intros Hlt; cbn; [repeat constructor|]. constructor.
  - apply IH. intros t Ht. apply Hlt. by right.
  - apply Forall_app. split; [done|]. repeat constructor. apply Hlt. left.
Qed.

Lemma sorted_filter (P : nat → Prop) `{∀ x, Decision (P x)} q :
  StronglySorted lt q → StronglySorted lt (filter P q).
Proof.
  induction 1 as [|a q Hs IH Ha]; [constructor|]. rewrite filter_cons. case_decide; [|done].
  constructor; [done|]. apply Forall_forall. intros x [_ Hx]%list_elem_of_filter.
  by eapply Forall_forall in Ha.
Qed.

(** A free slot is taken at once; nobody is waiting then. *)
Lemma take_slot_inv l :
  limiter_inv l → (activeCount l < limit l)%Z →
  limiter_inv (l <| activeCount := (activeCount l + 1)%Z |> <| issued := S (issued l) |>).
Proof.
  intros [[Ha Hb Hq Hw Hs Ho Hk Hn] Hl Hr Hse] Hlt.
  destruct (size_held_issue l (l <| activeCount := (activeCount l + 1)%Z |>
    <| issued := S (issued l) |>)) as [Hsub Hsize]; [done..|].
  assert (queue l = []) as Hnil by (destruct (queue l); [done|specialize (Hw ltac:(done)); lia]).
  split; [|done|done|done]. split; cbn in *; rewrite ?Hnil in *; try done; lia.
Qed.

(** A ticket joins the end of the queue, all slots being in use. *)
Lemma enqueue_inv l :
  limiter_inv l → (limit l <= activeCount l)%Z → (Z.of_nat (length (queue l)) < maxQueue l)%Z →
  limiter_inv (l <| queue := queue l ++ [tickets l] |> <| tickets := S (tickets l) |>).
Proof.
  intros [[Ha Hb Hq Hw Hs Ho Hk Hn] Hl Hr Hse] Hfull Hroom.
  assert (settled l !! tickets l = None) as Hnone.
  { destruct (settled l !! tickets l) eqn:Ht; [|done].
    specialize (Hse (tickets l)). rewrite Ht in Hse. specialize (Hse ltac:(by eexists)). lia. }
  split; [|done|done|intros t Ht; specialize (Hse t Ht); cbn; lia]. split; cbn in *; try done.
  - rewrite length_app. cbn. lia.
  - intros _. lia.
  - by apply sorted_snoc.
  - intros t Ht. rewrite elem_of_app, list_elem_of_singleton.
    destruct (decide (t = tickets l)) as [->|Hne]; [tauto|]. rewrite <- Ho by lia. tauto.
  - intros t [Ht|Ht%list_elem_of_singleton]%elem_of_app; [specialize (Hk t Ht); lia|lia].
  - intros t r t' Ht [Ht'|Ht'%list_elem_of_singleton]%elem_of_app; [by eapply Hn|].
    specialize (Hse t). rewrite Ht in Hse. specialize (Hse ltac:(by eexists)). lia.
Qed.

Lemma acquire_inv d aborted now l :
  limiter_inv l → limiter_inv (acquire d aborted now l).2 ∧
  keeps_settled l (acquire d aborted now l).2.
Proof.
  intros Hinv. unfold acquire, mbind, M_bind, get. cbn.
  destruct aborted; [by split|].
  destruct (activeCount l <? limit l)%Z eqn:Hlt; reflect.
  { split; [by apply take_slot_inv|done]. }
  destruct (maxQueue l <=? _)%Z eqn:Hfull; reflect; [by split|].
  unfold lift. destruct (remainingMs d "queue" now); cbn; [|by split].
  split; [by apply enqueue_inv|done].
Qed.

Lemma remove_inv t e l :
  limiter_inv l → limiter_inv (Limits.remove t e l).2 ∧ keeps_settled l (Limits.remove t e l).2.
Proof.
  intros Hinv. unfold Limits.remove, update. cbn. case_decide as Hin; [|by split].
  destruct Hinv as [[Ha Hb Hq Hw Hs Ho Hk Hn] Hl Hr Hse].
  pose proof (Hk t Hin) as Ht. pose proof (proj1 (Ho t Ht) Hin) as Hnone.
  split; [|split_and!; [done|done|]; cbn; intros t' s Hs'; rewrite lookup_insert_ne; congruence].
  split; [|done|done|].
  - split; cbn; try done.
    + pose proof (length_filter (λ t', t' ≠ t) (queue l)). lia.
    + intros Hne. apply Hw. intros Hnil. by rewrite Hnil in Hne.
    + by apply sorted_filter.
    + intros t' Ht'. rewrite list_elem_of_filter.
      destruct (decide (t' = t)) as [->|Hne].
      * rewrite lookup_insert_eq. naive_solver.
      * rewrite lookup_insert_ne by done. rewrite <- (Ho t' Ht'). tauto.
    + intros t' [_ Ht']%list_elem_of_filter. by apply Hk.
    + intros t1 r t2 Ht1 [_ Ht2]%list_elem_of_filter.
      destruct (decide (t = t1)) as [->|Hne]; [by rewrite lookup_insert_eq in Ht1|].
      rewrite lookup_insert_ne in Ht1 by done. by eapply Hn.
  - cbn. intros t' Ht'. destruct (decide (t = t')) as [<-|Hne]; [done|].
    rewrite lookup_insert_ne in Ht' by done. by apply Hse.
Qed.

Lemma release_inv r l :
  limiter_inv l → r < issued l →
  limiter_inv (release r l).2 ∧ keeps_settled l (release r l).2.
Proof.
  intros Hinv Hlt. unfold release, mbind, M_bind, get. cbn. case_decide as Hr; [by split|].
  set (l1 := l <| released := {[r]} ∪ released l |>).
  destruct Hinv as [[Ha Hb Hq Hw Hs Ho Hk Hn] Hl Hsub Hse].
  destruct (size_held_release l l1 r) as [Hsub1 Hsize1]; [done..|].
  cbn. destruct (queue l) as [|next rest] eqn:Hqueue; cbn.
  - split; [|done]. split; [|done|done|done].
    split; cbn; rewrite ?Hqueue; try done; [|lia].
    change (held _) with (held l1). lia.
  - set (l2 := l1 <| queue := rest |> <| issued := S (issued l) |>
      <| settled := <[next := Granted (issued l)]> (settled l) |>).
    destruct (size_held_issue l1 l2) as [Hsub2 Hsize2]; [done..|].
    assert (next < tickets l) as Hnext by (apply Hk; left).
    assert (settled l !! next = None) as Hnone by (apply Ho; [done|left]).
    apply StronglySorted_inv in Hs as [Hs Hall]. rewrite Forall_forall in Hall.
    split; [|split_and!; [done|done|]; cbn; intros t s Ht; rewrite lookup_insert_ne; congruence].
    split; [|done|done|].
    + split; cbn; try done.
      * change (held _) with (held l2). lia.
      * cbn in Hq. lia.
      * intros _. by apply Hw.
      * intros t Ht. destruct (decide (t = next)) as [->|Hne].
        -- rewrite lookup_insert_eq. split; [|done]. intros Hin. specialize (Hall next Hin). lia.
        -- rewrite lookup_insert_ne by done. rewrite <- (Ho t Ht), elem_of_cons. naive_solver.
      * intros t Ht. apply Hk. by right.
      * intros t r' t' Ht Hin. destruct (decide (next = t)) as [<-|Hne]; [by apply Hall|].
        rewrite lookup_insert_ne in Ht by done. eapply Hn; [done|by right].
    + cbn. intros t Ht. destruct (decide (next = t)) as [<-|Hne]; [done|].
      rewrite lookup_insert_ne in Ht by done. by apply Hse.
Qed.

Lemma exec_inv c l : limiter_inv l → limiter_inv (exec c l) ∧ keeps_settled l (exec c l).
Proof.
  intros Hinv. destruct c as [d aborted now|r|t|t]; cbn.
  - by apply acquire_inv.
  - case_decide; [by apply release_inv|by split].
  - by apply remove_inv.
  - by apply remove_inv.
Qed.

Lemma run_inv cs l : limiter_inv l → limiter_inv (run cs l) ∧ keeps_settled l (run cs l).
Proof.
  revert l. unfold run. induction cs as [|c cs IH]; intros l Hinv; cbn; [by split|].
  destruct (exec_inv c l Hinv) as [Hinv1 (Hl1 & Hm1 & Hk1)].
  destruct (IH _ Hinv1) as [Hinv2 (Hl2 & Hm2 & Hk2)]. split; [done|].
  split_and!; [by rewrite Hl2|by rewrite Hm2|auto].
Qed.

Lemma new_limiter_inv lim maxq l :
  new_ConcurrencyLimiter lim maxq = Ok l →
  limiter_inv l ∧ limit l = to_Z lim ∧ maxQueue l = to_Z maxq.
Proof.
  unfold new_ConcurrencyLimiter. intros (u & Hv%throw_if_Ok & [= <-])%result_bind_Ok. reflect.
  rewrite !num_ltb_integer, !to_Z_int in * by (done || apply isInteger_int). reflect.
  split; [|done]. split; cbn; [|lia|done|intros t [? Ht]; by rewrite lookup_empty in Ht].
  split; cbn; try lia; try done.
  - constructor.
  - intros t Ht. by apply not_elem_of_nil in Ht.
Qed.

(** C8: the limiter bounds concurrency, keeps every slot busy, and is fair.
    After any history of acquisitions, releases (repeated ones included),
    timeouts and aborts: the slots in use, the acquirers granted and not
    released, are counted exactly and are at most [limit]; the queue holds
    at most [maxQueue] waiters, and someone waits only while every slot is
    in use; a waiter is in the queue until it is settled and no longer; no
    waiter is granted before one that came earlier and still waits; and what
    a waiter was settled with never changes. *)
Theorem limiter_bounds_and_fairness lim maxq l before after :
  new_ConcurrencyLimiter lim maxq = Ok l →
  let l1 := run before l in let l2 := run after l1 in
  limiter_ok l1 ∧ limit l1 = to_Z lim ∧ maxQueue l1 = to_Z maxq ∧
  ∀ t s, settled l1 !! t = Some s → settled l2 !! t = Some s.
Proof.
  intros Hnew l1 l2. destruct (new_limiter_inv _ _ _ Hnew) as (Hinv & Hl & Hm).
  destruct (run_inv before l Hinv) as [Hinv1 (Hl1 & Hm1 & _)].
  destruct (run_inv after l1 Hinv1) as [_ (_ & _ & Hk)].
  split_and!; [by apply inv_ok|by rewrite <- Hl|by rewrite <- Hm|exact Hk].
Qed.

(** ** Witness: one slot, two waiters, the first of which gives up *)

Module Witness.
Definition soon : Deadline := {| expiresAt := int 1000 |}.
Definition history : list command :=
  [Acquire soon false (int 0); Acquire soon false (int 1); Acquire soon false (int 2);
   TimeOut 0; Release 0; Release 0].

Lemma limiter_bounds_and_fairness_witness : ∃ l,
  new_ConcurrencyLimiter (int 1) (int 5) = Ok l ∧ limiter_ok (run history l) ∧
  settled (run history l) !! 1 = Some (Granted 1) ∧ activeCount (run history l) = 1%Z.
Proof.
  eexists. split; [vm_compute; reflexivity|].
  split; [|split; vm_compute; reflexivity].
  eapply (limiter_bounds_and_fairness (int 1) (int 5) _ history []). vm_compute. reflexivity.
Defined.
End Witness.
