(* ===== verification/Json.v ===== *)
(** * JSON

    [JSON.stringify] and [JSON.parse] on the values the program stores: the
    printer, a recursive-descent parser, and the round trip between them.
    Numbers are integers (a fraction or an exponent is outside the model, as
    are code units above 255, and [JSON_parse] gives them no value); an object
    is the list of its own properties, in order and without repetition. *)

From S2P Require Import Prelude JsString JsMap.

(** ** Printing *)

Definition hex_digit (n : nat) : ascii :=
  if n <? 10 then ascii_of_nat (48 + n) else ascii_of_nat (87 + n).

Definition backslash : ascii := ascii_of_nat 92.
Definition quote_char : ascii := ascii_of_nat 34.

(** The escapes [\b], [\t], [\n], [\f], [\r], [\u00XX] of control characters,
    and those of the quote and the backslash. *)
Definition escape_char (c : ascii) : list ascii :=
  match nat_of_ascii c with
  | 8 => [backslash; "b"%char]
  | 9 => [backslash; "t"%char]
  | 10 => [backslash; "n"%char]
  | 12 => [backslash; "f"%char]
  | 13 => [backslash; "r"%char]
  | 34 => [backslash; quote_char]
  | 92 => [backslash; backslash]
  | n => if n <? 32
         then [backslash; "u"%char; "0"%char; "0"%char; hex_digit (n / 16); hex_digit (n mod 16)]
         else [c]
  end.

Definition quote_json (s : string) : list ascii :=
  quote_char :: flat_map escape_char (chars s) ++ [quote_char].

(** The items of an array or object, and the closing bracket. *)
Fixpoint comma_list (close : ascii) (items : list (list ascii)) : list ascii :=
  match items with
  | [] => [close]
  | [x] => x ++ [close]
  | x :: items' => x ++ ","%char :: comma_list close items'
  end.

Fixpoint json_text (v : js_value) : list ascii :=
  match v with
  | JUndefined | JNull => chars "null"
  | JBool true => chars "true"
  | JBool false => chars "false"
  | JNum z => chars (show z)
  | JStr s => quote_json s
  | JArr l => "["%char :: comma_list "]" (map json_text l)
  | JObj fields =>
      "{"%char :: comma_list "}"
        (flat_map (λ '(k, x), if is_undefined x then []
                              else [quote_json k ++ ":"%char :: json_text x]) fields)
  end.

(** [JSON.stringify(v)], [None] for [undefined]. *)
Definition JSON_stringify (v : js_value) : option string :=
  if is_undefined v then None else Some (unchars (json_text v)).

(** ** Parsing *)

Definition json_space (c : ascii) : bool :=
  let n := nat_of_ascii c in (n =? 32) || (n =? 9) || (n =? 10) || (n =? 13).

Definition skip_ws : list ascii → list ascii := drop_while json_space.

Definition hex_value (c : ascii) : option nat :=
  let n := nat_of_ascii c in
  if between 48 57 c then Some (n - 48)
  else if between 97 102 c then Some (n - 87)
  else if between 65 70 c then Some (n - 55)
  else None.

(** The code unit of [\uXXXX]. *)
Definition unicode_escape (a b c d : ascii) : option ascii :=
  h1 ← hex_value a; h2 ← hex_value b; h3 ← hex_value c; h4 ← hex_value d;
  if (h1 =? 0) && (h2 =? 0) then Some (ascii_of_nat (16 * h3 + h4)) else None.

Definition simple_escape (c : ascii) : option ascii :=
  match nat_of_ascii c with
  | 98 => Some (ascii_of_nat 8)
  | 116 => Some (ascii_of_nat 9)
  | 110 => Some (ascii_of_nat 10)
  | 102 => Some (ascii_of_nat 12)
  | 114 => Some (ascii_of_nat 13)
  | 34 | 92 | 47 => Some c
  | _ => None
  end.

Definition cons_parsed (c : ascii) (r : option (list ascii * list ascii))
    : option (list ascii * list ascii) :=
  '(s, rest) ← r; Some (c :: s, rest).

(** The rest of a string literal, up to its closing quote. *)
Fixpoint parse_string (l : list ascii) : option (list ascii * list ascii) :=
  match l with
  | [] => None
  | c :: l1 =>
      if bool_decide (c = quote_char) then Some ([], l1)
      else if bool_decide (c = backslash) then
        match l1 with
        | [] => None
        | e :: l2 =>
            if bool_decide (e = "u"%char) then
              match l2 with
              | a :: b :: c :: d :: l3 =>
                  u ← unicode_escape a b c d; cons_parsed u (parse_string l3)
              | _ => None
              end
            else x ← simple_escape e; cons_parsed x (parse_string l2)
        end
      else if nat_of_ascii c <? 32 then None
      else cons_parsed c (parse_string l1)
  end.

Fixpoint strip (p l : list ascii) : option (list ascii) :=
  match p, l with
  | [], _ => Some l
  | a :: p', b :: l' => if bool_decide (a = b) then strip p' l' else None
  | _, [] => None
  end.

(** A number: digits without a leading zero, then no fraction or exponent. *)
Definition parse_digits (l : list ascii) : option (Z * list ascii) :=
  let ds := take_while is_digit l in
  let rest := drop_while is_digit l in
  if bool_decide (ds = []) then None
  else if bool_decide (head ds = Some "0"%char) && negb (length ds =? 1) then None
  else if match rest with c :: _ => one_of ".eE" c | [] => false end then None
  else Some (digits_value ds, rest).

Definition parse_number (l : list ascii) : option (js_value * list ascii) :=
  match l with
  | "-"%char :: l' => '(z, rest) ← parse_digits l'; Some (JNum (- z), rest)
  | _ => '(z, rest) ← parse_digits l; Some (JNum z, rest)
  end.

(** The properties of an object literal: a repeated name keeps its place and
    takes the last value. *)
Definition object_of (members : list (string * js_value)) : js_value :=
  JObj (foldl (λ m kv, map_set kv.1 kv.2 m) [] members).

Fixpoint parse_value (fuel : nat) (l : list ascii) : option (js_value * list ascii) :=
  match fuel with
  | O => None
  | S n =>
      match skip_ws l with
      | "n"%char :: _ => rest ← strip (chars "null") (skip_ws l); Some (JNull, rest)
      | "t"%char :: _ => rest ← strip (chars "true") (skip_ws l); Some (JBool true, rest)
      | "f"%char :: _ => rest ← strip (chars "false") (skip_ws l); Some (JBool false, rest)
      | "["%char :: r =>
          match skip_ws r with
          | "]"%char :: rest => Some (JArr [], rest)
          | _ => '(vs, rest) ← parse_elements n r; Some (JArr vs, rest)
          end
      | "{"%char :: r =>
          match skip_ws r with
          | "}"%char :: rest => Some (JObj [], rest)
          | _ => '(kvs, rest) ← parse_members n r; Some (object_of kvs, rest)
          end
      | c :: r =>
          if bool_decide (c = quote_char)
          then '(s, rest) ← parse_string r; Some (JStr (unchars s), rest)
          else parse_number (c :: r)
      | [] => None
      end
  end
with parse_elements (fuel : nat) (l : list ascii) : option (list js_value * list ascii) :=
  match fuel with
  | O => None
  | S n =>
      '(v, r) ← parse_value n l;
      match skip_ws r with
      | "]"%char :: rest => Some ([v], rest)
      | ","%char :: r' => '(vs, rest) ← parse_elements n r'; Some (v :: vs, rest)
      | _ => None
      end
  end
with parse_members (fuel : nat) (l : list ascii)
    : option (list (string * js_value) * list ascii) :=
  match fuel with
  | O => None
  | S n =>
      match skip_ws l with
      | q :: r0 =>
          if bool_decide (q = quote_char) then
            '(k, r1) ← parse_string r0;
            match skip_ws r1 with
            | ":"%char :: r2 =>
                '(v, r) ← parse_value n r2;
                match skip_ws r with
                | "}"%char :: rest => Some ([(unchars k, v)], rest)
                | ","%char :: r' =>
                    '(kvs, rest) ← parse_members n r'; Some ((unchars k, v) :: kvs, rest)
                | _ => None
                end
            | _ => None
            end
          else None
      | [] => None
      end
  end.

(** [JSON.parse(s)].  Each level of nesting takes two units of fuel and two
    characters, its brackets, so the length is enough for a well-formed text;
    another text has no value whatever the fuel. *)
Definition JSON_parse (s : string) : result js_value :=
  match parse_value (S (String.length s)) (chars s) with
  | Some (v, rest) =>
      if bool_decide (skip_ws rest = []) then Ok v else Throw (TError "invalid JSON")
  | None => Throw (TError "invalid JSON")
  end.

(** ** The round trip *)

(** What parsing a printed value gives back. *)
Fixpoint json_normal (v : js_value) : js_value :=
  match v with
  | JUndefined => JNull
  | JArr l => JArr (map json_normal l)
  | JObj fields =>
      JObj (flat_map (λ '(k, x), if is_undefined x then [] else [(k, json_normal x)]) fields)
  | _ => v
  end.

(** Objects have each property once. *)
Fixpoint json_ok (v : js_value) : bool :=
  match v with
  | JArr l => forallb json_ok l
  | JObj fields => bool_decide (NoDup fields.*1) && forallb (λ '(_, x), json_ok x) fields
  | _ => true
  end.

Section js_value_ind.
Context (P : js_value → Prop)
  (Hundefined : P JUndefined) (Hnull : P JNull) (Hbool : ∀ b, P (JBool b))
  (Hnum : ∀ z, P (JNum z)) (Hstr : ∀ s, P (JStr s))
  (Harr : ∀ l, Forall P l → P (JArr l))
  (Hobj : ∀ fields, Forall (λ kv : string * js_value, P kv.2) fields → P (JObj fields)).

Fixpoint js_value_nested_ind (v : js_value) : P v :=
  match v with
  | JUndefined => Hundefined
  | JNull => Hnull
  | JBool b => Hbool b
  | JNum z => Hnum z
  | JStr s => Hstr s
  | JArr l => Harr l ((fix go l : Forall P l := match l with
      | [] => Forall_nil_2 _
      | x :: l' => Forall_cons_2 _ _ _ (js_value_nested_ind x) (go l')
      end) l)
  | JObj fields => Hobj fields ((fix go l : Forall (λ kv, P kv.2) l := match l with
      | [] => Forall_nil_2 _
      | x :: l' => Forall_cons_2 _ _ _ (js_value_nested_ind x.2) (go l')
      end) fields)
  end.
End js_value_ind.

Lemma parse_string_escape c l : parse_string (escape_char c ++ l) = cons_parsed c (parse_string l).
Proof. destruct c as [[] [] [] [] [] [] [] []]; reflexivity. Qed.

Lemma parse_string_escaped s rest :
  parse_string (flat_map escape_char s ++ quote_char :: rest) = Some (s, rest).
Proof.
  induction s as [|c s IH]; [done|]. cbn [flat_map]. by rewrite <- app_assoc, parse_string_escape, IH.
Qed.

(** What may follow a value. *)
Definition ends (rest : list ascii) : Prop :=
  match rest with [] => True | c :: _ => one_of ",]}" c = true end.

Lemma take_drop_while_app f (ds rest : list ascii) :
  forallb f ds = true → match rest with [] => true | c :: _ => negb (f c) end = true →
  take_while f (ds ++ rest) = ds ∧ drop_while f (ds ++ rest) = rest.
Proof.
  intros Hds Hrest. induction ds as [|d ds IH]; cbn.
  - destruct rest as [|c rest]; cbn; [done|]. apply negb_true_iff in Hrest. by rewrite Hrest.
  - cbn in Hds. apply andb_true_iff in Hds as [-> Hds]. destruct (IH Hds) as [-> ->]. done.
Qed.

Lemma ends_no_digit rest :
  ends rest → match rest with [] => true | c :: _ => negb (is_digit c) end = true ∧
              match rest with c :: _ => one_of ".eE" c | [] => false end = false.
Proof. destruct rest as [|[[] [] [] [] [] [] [] []] rest]; try done. Qed.

Lemma pretty_N_go_head n s :
  n ≠ 0%N → head (chars (pretty_N_go n s)) ≠ Some "0"%char.
Proof.
  revert s. induction (N.lt_wf_0 n) as [n _ IH]; intros s Hn. rewrite pretty_N_go_step by lia.
  destruct (decide (n `div` 10 = 0)%N) as [Hz|Hz].
  - rewrite Hz, pretty_N_go_0. cbn. intros [= Hc]. apply N.div_small_iff in Hz; [|done].
    rewrite N.mod_small in Hc by done. destruct n as [|p]; [done|].
    do 4 (destruct p as [p|p|]; try done; try lia).
  - apply IH; [|done]. apply N.div_lt; lia.
Qed.

Lemma show_head z : (0 < z)%Z → head (chars (show z)) ≠ Some "0"%char.
Proof.
  intros Hz. destruct z as [|p|p]; [lia| |lia].
  unfold show, pretty, pretty_Z, pretty, pretty_positive, pretty, pretty_N.
  rewrite decide_False by done. by apply pretty_N_go_head.
Qed.

Lemma parse_digits_show z rest :
  (0 <= z)%Z → ends rest → parse_digits (chars (show z) ++ rest) = Some (z, rest).
Proof.
  intros Hz [Hr1 Hr2]%ends_no_digit. destruct (show_digits z Hz) as (Hd & Hv & Hne).
  destruct (take_drop_while_app is_digit _ rest Hd Hr1) as [Ht Hdr].
  unfold parse_digits. rewrite Ht, Hdr, Hr2, Hv. rewrite bool_decide_false by done.
  assert (Hzero : bool_decide (head (chars (show z)) = Some "0"%char) &&
    negb (length (chars (show z)) =? 1) = false).
  { destruct (decide (z = 0%Z)) as [->|]; [done|].
    rewrite bool_decide_false by (apply show_head; lia). done. }
  by rewrite Hzero.
Qed.

Lemma parse_number_show z rest :
  ends rest → parse_number (chars (show z) ++ rest) = Some (JNum z, rest).
Proof.
  intros Hr. destruct (Z.le_gt_cases 0 z) as [Hz|Hz].
  - pose proof (parse_digits_show z rest Hz Hr) as Hp.
    destruct (show_digits z Hz) as (Hd & _ & Hne).
    destruct (chars (show z)) as [|c l]; [done|]. cbn in Hd.
    apply andb_true_iff in Hd as [Hc _]. cbn [app] in *.
    unfold parse_number. destruct c as [[] [] [] [] [] [] [] []]; try discriminate Hc;
      rewrite Hp; reflexivity.
  - destruct z as [|p|p]; [lia..|].
    change (chars (show (Z.neg p))) with ("-"%char :: chars (show (Z.pos p))). cbn [app].
    unfold parse_number. rewrite parse_digits_show by (done || lia). reflexivity.
Qed.

(** How a printed value starts. *)
Definition value_start (c : ascii) : bool :=
  is_digit c || one_of "ntf[{-" c || bool_decide (c = quote_char).

Lemma json_text_start v : ∃ c t, json_text v = c :: t ∧ value_start c = true.
Proof.
  destruct v as [| |[]|z|s|l|fields]; cbn; eauto.
  destruct (Z.le_gt_cases 0 z) as [Hz|Hz].
  - destruct (show_digits z Hz) as (Hd & _ & Hne). destruct (chars (show z)) as [|c t]; [done|].
    exists c, t. split; [done|]. unfold value_start. cbn in Hd. by apply andb_true_iff in Hd as [-> _].
  - destruct z as [|p|p]; [lia..|]. by exists "-"%char, (chars (show (Z.pos p))).
Qed.

Lemma parse_number_value fuel z rest :
  ends rest → parse_value (S fuel) (chars (show z) ++ rest) = Some (JNum z, rest).
Proof.
  intros Hr. pose proof (parse_number_show z rest Hr) as Hp.
  assert (Hc : ∃ c t, chars (show z) = c :: t ∧ (is_digit c || bool_decide (c = "-"%char)) = true).
  { destruct (Z.le_gt_cases 0 z) as [Hz|Hz].
    - destruct (show_digits z Hz) as (Hd & _ & Hne). destruct (chars (show z)) as [|c t]; [done|].
      exists c, t. split; [done|]. cbn in Hd. by apply andb_true_iff in Hd as [-> _].
    - destruct z as [|p|p]; [lia..|]. by exists "-"%char, (chars (show (Z.pos p))). }
  destruct Hc as (c & t & Hs & Hc). rewrite Hs in *. cbn [app] in *.
  destruct c as [[] [] [] [] [] [] [] []]; try discriminate Hc; exact Hp.
Qed.

Lemma skip_ws_start c t : value_start c = true → skip_ws (c :: t) = c :: t.
Proof. destruct c as [[] [] [] [] [] [] [] []]; try done. Qed.

(** After an opening bracket, an item is not mistaken for the closing one. *)
Lemma not_closed_array {A} c t (X : A) (Y : list ascii → A) :
  value_start c = true →
  match skip_ws (c :: t) with "]"%char :: rest => Y rest | _ => X end = X.
Proof. destruct c as [[] [] [] [] [] [] [] []]; try done. Qed.

Definition parses (v : js_value) : Prop :=
  ∀ fuel rest, length (json_text v) ≤ fuel → ends rest →
    parse_value fuel (json_text v ++ rest) = Some (json_normal v, rest).

Lemma comma_list_cons close x y (items : list (list ascii)) :
  comma_list close (x :: y :: items) = x ++ ","%char :: comma_list close (y :: items).
Proof. done. Qed.

Lemma parse_elements_text v vs fuel rest :
  Forall parses (v :: vs) →
  length (comma_list "]" (map json_text (v :: vs))) ≤ fuel →
  parse_elements fuel (comma_list "]" (map json_text (v :: vs)) ++ rest) =
    Some (map json_normal (v :: vs), rest).
Proof.
  revert v fuel. induction vs as [|w vs IH]; intros v fuel [Hv Hvs]%Forall_cons Hf.
  - change (comma_list "]" (map json_text [v])) with (json_text v ++ ["]"%char]) in *.
    rewrite length_app in Hf. cbn in Hf. destruct fuel as [|n]; [lia|].
    cbn [parse_elements]. rewrite <- app_assoc. rewrite Hv by (done || lia). reflexivity.
  - cbn [map] in *. rewrite comma_list_cons in *. rewrite length_app in Hf. cbn [length] in Hf.
    destruct fuel as [|n]; [lia|]. cbn [parse_elements]. rewrite <- app_assoc.
    rewrite Hv by (done || lia).
    pose proof (IH w n Hvs ltac:(cbn [map]; lia)) as Hrest. cbn [map] in Hrest.
    cbn [mbind option_bind].
    change (skip_ws ((","%char :: ?r) ++ rest)) with (","%char :: (r ++ rest)). cbv beta iota.
    rewrite Hrest. reflexivity.
Qed.

Definition item (kv : string * js_value) : list ascii := quote_json kv.1 ++ ":"%char :: json_text kv.2.

Lemma quote_json_app k l :
  quote_json k ++ l = quote_char :: (flat_map escape_char (chars k) ++ quote_char :: l).
Proof. unfold quote_json. cbn. by rewrite <- app_assoc. Qed.

Lemma parse_members_text kv kvs fuel rest :
  Forall (λ kv, parses kv.2) (kv :: kvs) →
  length (comma_list "}" (map item (kv :: kvs))) ≤ fuel →
  parse_members fuel (comma_list "}" (map item (kv :: kvs)) ++ rest) =
    Some (map (λ kv, (kv.1, json_normal kv.2)) (kv :: kvs), rest).
Proof.
  revert kv fuel. induction kvs as [|kv' kvs IH]; intros kv fuel [Hv Hvs]%Forall_cons Hf.
  - change (comma_list "}" (map item [kv])) with (item kv ++ ["}"%char]) in *.
    unfold item in *. rewrite !length_app in Hf. cbn [length] in Hf.
    destruct fuel as [|n]; [lia|]. cbn [parse_members].
    rewrite <- !app_assoc, quote_json_app.
    change (skip_ws (quote_char :: ?r)) with (quote_char :: r). cbv beta iota.
    rewrite bool_decide_true by done. rewrite parse_string_escaped. cbn [mbind option_bind].
    change (skip_ws ((":"%char :: ?r) ++ ?t)) with (":"%char :: (r ++ t)). cbv beta iota.
    rewrite Hv by (done || lia). cbn. by rewrite unchars_chars.
  - cbn [map] in *. rewrite comma_list_cons in *. unfold item at 1 in Hf. unfold item at 1.
    rewrite !length_app in Hf. cbn [length] in Hf.
    destruct fuel as [|n]; [lia|]. cbn [parse_members].
    rewrite <- !app_assoc, quote_json_app.
    change (skip_ws (quote_char :: ?r)) with (quote_char :: r). cbv beta iota.
    rewrite bool_decide_true by done. rewrite parse_string_escaped. cbn [mbind option_bind].
    change (skip_ws ((":"%char :: ?r) ++ ?t)) with (":"%char :: (r ++ t)). cbv beta iota.
    rewrite Hv by (done || lia). cbn [mbind option_bind].
    change (skip_ws ((","%char :: ?r) ++ rest)) with (","%char :: (r ++ rest)). cbv beta iota.
    pose proof (IH kv' n Hvs ltac:(cbn [map]; lia)) as Hrest. cbn [map] in Hrest.
    rewrite Hrest. cbn. by rewrite unchars_chars.
Qed.

(** The properties an object prints. *)
Definition defined_fields (fields : list (string * js_value)) : list (string * js_value) :=
  filter (λ kv, is_undefined kv.2 = false) fields.

Lemma flat_map_defined {A} (f : string * js_value → A) fields :
  flat_map (λ '(k, x), if is_undefined x then [] else [f (k, x)]) fields =
  map f (defined_fields fields).
Proof.
  unfold defined_fields. induction fields as [|[k x] fields IH]; [done|].
  rewrite filter_cons. cbn [flat_map snd]. rewrite IH. by destruct (is_undefined x).
Qed.

Lemma json_text_obj fields :
  json_text (JObj fields) = "{"%char :: comma_list "}" (map item (defined_fields fields)).
Proof. by rewrite <- flat_map_defined. Qed.

Lemma json_normal_obj fields :
  json_normal (JObj fields) = JObj (map (λ kv, (kv.1, json_normal kv.2)) (defined_fields fields)).
Proof. by rewrite <- flat_map_defined. Qed.

Lemma map_set_absent {V} k (v : V) (m : js_map V) : k ∉ map_keys m → map_set k v m = m ++ [(k, v)].
Proof.
  induction m as [|[k1 v1] m IH]; intros Hk; [done|]. rewrite map_keys_cons in Hk.
  apply not_elem_of_cons in Hk as [Hne Hk]. cbn. by rewrite decide_False, IH.
Qed.

Lemma foldl_map_set {V} (kvs m : list (string * V)) :
  NoDup (m ++ kvs).*1 → foldl (λ m kv, map_set kv.1 kv.2 m) m kvs = m ++ kvs.
Proof.
  revert m. induction kvs as [|[k v] kvs IH]; intros m Hnd; [by rewrite app_nil_r|]. cbn.
  rewrite map_set_absent.
  - rewrite IH; [by rewrite <- app_assoc|]. by rewrite <- app_assoc.
  - rewrite fmap_app in Hnd. apply NoDup_app in Hnd as (_ & Hdisj & _).
    intros Hin. by apply (Hdisj k Hin); left.
Qed.

Lemma parses_obj fields :
  NoDup fields.*1 → Forall (λ kv, parses kv.2) fields → parses (JObj fields).
Proof.
  intros Hnd Hall fuel rest Hf Hr. rewrite json_text_obj, json_normal_obj in *.
  assert (Hall' : Forall (λ kv, parses kv.2) (defined_fields fields)).
  { apply Forall_forall. intros kv [_ Hin]%list_elem_of_filter.
    by apply (proj1 (Forall_forall _ _) Hall). }
  assert (Hnd' : NoDup (map (λ kv, (kv.1, json_normal kv.2)) (defined_fields fields)).*1).
  { rewrite <- list_fmap_compose. change (NoDup (defined_fields fields).*1).
    eapply sublist_NoDup; [exact Hnd|]. apply fmap_sublist, sublist_filter. }
  destruct (defined_fields fields) as [|kv kvs]; (destruct fuel as [|n]; [cbn in Hf; lia|]);
    [reflexivity|].
  cbn [app parse_value]. change (skip_ws ("{"%char :: ?r)) with ("{"%char :: r). cbv beta iota.
  cbn [length] in Hf. pose proof (parse_members_text kv kvs n rest Hall' ltac:(lia)) as Hp.
  assert (Hq : ∃ t, comma_list "}" (map item (kv :: kvs)) ++ rest = quote_char :: t).
  { unfold item. cbn [map]. destruct (map _ kvs); cbn [comma_list];
      rewrite <- !app_assoc, quote_json_app; eauto. }
  destruct Hq as [t Hq]. rewrite Hq in *.
  change (skip_ws (quote_char :: t)) with (quote_char :: t). cbv beta iota.
  rewrite Hp. cbn [mbind option_bind]. unfold object_of. by rewrite foldl_map_set.
Qed.

Lemma parses_arr l : Forall parses l → parses (JArr l).
Proof.
  intros Hall fuel rest Hf Hr. destruct fuel as [|n]; [cbn in Hf; lia|].
  destruct l as [|v vs]; [reflexivity|].
  change (json_text (JArr (v :: vs))) with ("["%char :: comma_list "]" (map json_text (v :: vs))) in *.
  cbn [app parse_value]. change (skip_ws ("["%char :: ?r)) with ("["%char :: r). cbv beta iota.
  cbn [length] in Hf. pose proof (parse_elements_text v vs n rest Hall ltac:(lia)) as Hp.
  destruct (json_text_start v) as (c & t & Hv & Hc).
  assert (Hq : ∃ t, comma_list "]" (map json_text (v :: vs)) ++ rest = c :: t).
  { cbn [map]. rewrite Hv. destruct (map _ vs); cbn [comma_list app]; eauto. }
  destruct Hq as [t' Hq]. rewrite Hq in *. rewrite not_closed_array by done. by rewrite Hp.
Qed.

Lemma json_parses v : json_ok v = true → parses v.
Proof.
  induction v as [| |b|z|s|l Hl|fields Hf] using js_value_nested_ind; intros Hok.
  1-3: intros [|n] rest Hfu _; [|try destruct b; reflexivity];
    exfalso; try destruct b; cbn in Hfu; lia.
  - intros fuel rest Hfu Hr. cbn [json_text] in *.
    destruct (json_text_start (JNum z)) as (c & t & Hs & _). cbn [json_text] in Hs.
    destruct fuel as [|n]; [rewrite Hs in Hfu; cbn in Hfu; lia|]. by apply parse_number_value.
  - intros fuel rest Hfu _. destruct fuel as [|n]; [cbn in Hfu; lia|]. cbn [json_text].
    rewrite quote_json_app. cbn [parse_value].
    change (skip_ws (quote_char :: ?r)) with (quote_char :: r). cbv beta iota.
    change (bool_decide (quote_char = quote_char)) with true. cbv beta iota.
    rewrite parse_string_escaped. cbn. by rewrite unchars_chars.
  - apply parses_arr. cbn in Hok.
    apply Forall_forall. intros v Hin. eapply Forall_forall in Hl; [|exact Hin]. apply Hl.
    eapply forallb_forall in Hok; [exact Hok|]. by apply list_elem_of_In.
  - cbn in Hok. apply andb_true_iff in Hok as [Hnd%bool_decide_eq_true Hok].
    apply parses_obj; [done|].
    apply Forall_forall. intros [k v] Hin. eapply Forall_forall in Hf; [|exact Hin]. apply Hf.
    apply (proj1 (forallb_forall _ _) Hok (k, v)). by apply list_elem_of_In.
Qed.

(** [JSON.parse(JSON.stringify(v))]. *)
Lemma JSON_roundtrip v s :
  json_ok v = true → JSON_stringify v = Some s → JSON_parse s = Ok (json_normal v).
Proof.
  intros Hok Hs. unfold JSON_stringify in Hs. destruct (is_undefined v); [done|].
  injection Hs as <-. unfold JSON_parse. rewrite length_unchars, chars_unchars.
  rewrite <- (app_nil_r (json_text v)) at 2. rewrite (json_parses v Hok) by (done || lia).
  by rewrite bool_decide_true.
Qed.

(** ** Looking at parsed values *)

(** [v.name], [undefined] when absent. *)
Definition prop (v : js_value) (name : string) : js_value :=
  match v with
  | JObj fields => default JUndefined (map_get name fields)
  | _ => JUndefined
  end.

(** [Object.hasOwn(v, name)] *)
Definition has_own (v : js_value) (name : string) : bool :=
  match v with JObj fields => map_has name fields | _ => false end.

(** [typeof v === "object" && v !== null], arrays included, and without. *)
Definition is_object (v : js_value) : bool :=
  match v with JObj _ | JArr _ => true | _ => false end.
Definition isObject (v : js_value) : bool :=
  match v with JObj _ => true | _ => false end.

Definition as_string (v : js_value) : option string :=
  match v with JStr s => Some s | _ => None end.
Definition as_number (v : js_value) : option Z :=
  match v with JNum z => Some z | _ => None end.
Definition as_boolean (v : js_value) : option bool :=
  match v with JBool b => Some b | _ => None end.
Definition as_strings (v : js_value) : option (list string) :=
  match v with JArr l => mapM as_string l | _ => None end.
Definition as_null_or_string (v : js_value) : option (option string) :=
  match v with JNull => Some None | JStr s => Some (Some s) | _ => None end.

(** [JSON.parse] of what an object prints gives its properties back. *)
Lemma prop_normal fields name :
  NoDup fields.*1 →
  prop (json_normal (JObj fields)) name =
  match map_get name fields with
  | Some v => if is_undefined v then JUndefined else json_normal v
  | None => JUndefined
  end.
Proof.
  intros Hnd. rewrite json_normal_obj. unfold prop, defined_fields.
  induction fields as [|[k v] fields IH]; [done|]. cbn in Hnd.
  apply NoDup_cons in Hnd as [Hk Hnd]. rewrite filter_cons. cbn [snd map_get].
  destruct (is_undefined v) eqn:Hv; cbn [map map_get fst].
  - rewrite decide_False by done. rewrite IH by done. case_decide as Hn; [|done]. subst.
    assert (map_get k fields = None) as -> by (by apply map_get_None). by rewrite Hv.
  - rewrite decide_True by done. cbn [map map_get fst snd].
    case_decide; [by rewrite Hv|]. by apply IH.
Qed.

(** What has no undefined part is read back as it is. *)
Fixpoint json_exact (v : js_value) : bool :=
  match v with
  | JUndefined => false
  | JArr l => forallb json_exact l
  | JObj fields => bool_decide (NoDup fields.*1) && forallb (λ '(_, x), json_exact x) fields
  | _ => true
  end.

Lemma json_exact_normal v :
  json_exact v = true → json_ok v = true ∧ json_normal v = v ∧ is_undefined v = false.
Proof.
  induction v as [| | | | |l Hl|fields Hf] using js_value_nested_ind; try done; cbn [json_exact].
  - intros Hx. cbn. split; [|split; [f_equal|done]].
    + apply forallb_forall. intros v Hin. rewrite <- list_elem_of_In in Hin.
      rewrite Forall_forall in Hl. apply Hl; [done|].
      by apply (proj1 (forallb_forall _ _) Hx), list_elem_of_In.
    + induction Hl as [|v l Hv _ IH]; [done|]. cbn in Hx. apply andb_true_iff in Hx as [Hx Hxs].
      cbn. destruct (Hv Hx) as (_ & -> & _). by rewrite IH.
  - intros [Hnd Hx]%andb_true_iff. cbn. rewrite Hnd. clear Hnd. cbn [andb].
    induction Hf as [|[k v] l Hv _ IH]; [done|]. cbn in Hx. apply andb_true_iff in Hx as [Hx Hxs].
    destruct (Hv Hx) as (H1 & H2 & H3), (IH Hxs) as (H4 & [= H5] & _). cbn in H1, H2, H3 |- *.
    rewrite H1, H2, H3, H4. cbn. by rewrite H5.
Qed.

Lemma JSON_parse_exact v : json_exact v = true → JSON_parse (unchars (json_text v)) = Ok v.
Proof.
  intros (Hok & Hn & Hu)%json_exact_normal. rewrite <- Hn at 2. apply JSON_roundtrip; [done|].
  unfold JSON_stringify. by rewrite Hu.
Qed.

(** What is parsed has no undefined part. *)
Lemma foldl_map_set_exact (kvs m : list (string * js_value)) :
  NoDup m.*1 → Forall (λ kv, json_exact kv.2 = true) m → Forall (λ kv, json_exact kv.2 = true) kvs →
  json_exact (JObj (foldl (λ m kv, map_set kv.1 kv.2 m) m kvs)) = true.
Proof.
  revert m. induction kvs as [|[k v] kvs IH]; intros m Hnd Hm.
  - intros _. cbn. rewrite bool_decide_true by done. cbn. apply forallb_forall. intros [k x] Hin.
    rewrite <- list_elem_of_In in Hin. by apply (proj1 (Forall_forall _ _) Hm (k, x)).
  - intros [Hv Hkvs]%Forall_cons. apply IH; [by apply map_ok_set| |done].
    clear IH Hnd. induction Hm as [|[k' v'] m Hv' Hm IH]; cbn; [by constructor|].
    case_decide; by constructor.
Qed.


Lemma object_of_exact kvs :
  Forall (λ kv, json_exact kv.2 = true) kvs → json_exact (object_of kvs) = true.
Proof. intros Hk. apply foldl_map_set_exact; [constructor|constructor|done]. Qed.

Lemma parse_number_exact l v rest : parse_number l = Some (v, rest) → json_exact v = true.
Proof.
  unfold parse_number. intros H. repeat case_match;
    apply bind_Some in H as ([z r] & _ & [= <- _]); done.
Qed.

Lemma parsed_exact fuel :
  (∀ l v rest, parse_value fuel l = Some (v, rest) → json_exact v = true) ∧
  (∀ l vs rest, parse_elements fuel l = Some (vs, rest) → Forall (λ v, json_exact v = true) vs) ∧
  (∀ l kvs rest, parse_members fuel l = Some (kvs, rest) → Forall (λ kv, json_exact kv.2 = true) kvs).
Proof.
  induction fuel as [|n (IHv & IHe & IHm)]; [done|]. split_and!.
  - intros l v rest H. cbn [parse_value] in H.
    assert (Harr : ∀ r, ('(vs, rest) ← parse_elements n r; Some (JArr vs, rest)) = Some (v, rest) →
      json_exact v = true).
    { intros r ([vs r'] & Hvs & [= <- _])%bind_Some. cbn. apply forallb_forall. intros x Hx.
      rewrite <- list_elem_of_In in Hx. by apply (proj1 (Forall_forall _ _) (IHe _ _ _ Hvs)). }
    assert (Hobj : ∀ r, ('(kvs, rest) ← parse_members n r; Some (object_of kvs, rest)) = Some (v, rest) →
      json_exact v = true).
    { intros r ([kvs r'] & Hk & [= <- _])%bind_Some. apply object_of_exact. by eapply IHm. }
    assert (Hother : ∀ c r, (if bool_decide (c = quote_char)
        then '(s, rest) ← parse_string r; Some (JStr (unchars s), rest)
        else parse_number (c :: r)) = Some (v, rest) → json_exact v = true).
    { intros c r. destruct (bool_decide _); [|apply parse_number_exact].
      by intros ([s r'] & _ & [= <- _])%bind_Some. }
    assert (Hword : ∀ (w : js_value) o, json_exact w = true →
      (rest ← o; Some (w, rest)) = Some (v, rest) → json_exact v = true).
    { intros w o Hw. by intros (r & _ & [= <- _])%bind_Some. }
    assert (Hempty : ∀ w r, json_exact w = true → Some (w, r) = Some (v, rest) → json_exact v = true)
      by (intros w r Hw [= <- _]; done).
    destruct (skip_ws l) as [|c r]; [done|].
    specialize (Hother c r).
    destruct c as [[] [] [] [] [] [] [] []]; cbv beta iota in H; first
      [ exact (Hother H) | exact (Hword JNull _ eq_refl H) | exact (Hword (JBool _) _ eq_refl H)
      | idtac ].
    all: destruct (skip_ws r) as [|[[] [] [] [] [] [] [] []] r']; cbv beta iota in H; first
      [ exact (Harr _ H) | exact (Hobj _ H) | exact (Hempty (JArr []) _ eq_refl H)
      | exact (Hempty (JObj []) _ eq_refl H) ].
  - intros l vs rest H. cbn [parse_elements] in H.
    apply bind_Some in H as ([v r] & Hv%IHv & H). repeat case_match; try discriminate H.
    all: first [injection H as <- _; by constructor
      | apply bind_Some in H as ([vs' r'] & Hvs%IHe & [= <- _]); by constructor].
  - intros l kvs rest H. cbn [parse_members] in H.
    destruct (skip_ws l) as [|q r0]; [done|]. destruct (bool_decide _); [|done].
    apply bind_Some in H as ([k r1] & _ & H).
    destruct (skip_ws r1) as [|c r2]; [done|].
    destruct (decide (c = ":"%char)) as [->|Hc].
    2: { exfalso. destruct c as [[] [] [] [] [] [] [] []]; done. }
    apply bind_Some in H as ([v r] & Hv%IHv & H). repeat case_match; try discriminate H.
    all: first [injection H as <- _; by constructor
      | apply bind_Some in H as ([vs' r'] & Hvs%IHm & [= <- _]); by constructor].
Qed.

Lemma JSON_parsed_exact s v : JSON_parse s = Ok v → json_exact v = true.
Proof.
  unfold JSON_parse. destruct (parse_value _ _) as [[v' rest]|] eqn:Hp; [|done].
  case_bool_decide; [|done]. intros [= <-]. by eapply (parsed_exact _).
Qed.
