(* ===== verification/DurableStore.v ===== *)
(** * The durable record store and the blob store

    [src/core/durable-store.ts] and [src/core/immutable-blob.ts]: the checks
    on keys, values and times, the record store interface as a class, its
    in-memory implementation, and the blob interface.

    The clients of the store are asynchronous: between two of their calls, and
    while a call is under way, other parties may change the records, and a
    call may fail.  [DurableStoreLaws] states that each operation takes effect
    at one instant: the other parties act first (as [env] allows), then the
    operation does what the in-memory one does, or the call fails, before or
    after its effect.  A theorem proved from these laws holds under every
    interleaving. *)

From S2P Require Import Prelude Interference JsString JsMap Digest.

(** ** Records *)

Definition MAX_DURABLE_METADATA_BYTES : Z := 64 * 1024.
Definition MAX_DURABLE_KEY_CHARS : Z := 240.

(** Revisions and times are integers: writes are checked before they are
    stored. *)
Record DurableRecord := {
  rec_key : string;
  value : string;
  revision : Z;
  rec_createdAt : Z;
  rec_updatedAt : Z;
  rec_expiresAt : option Z
}.

#[export] Instance DurableRecord_eq_dec : EqDecision DurableRecord.
Proof. solve_decision. Defined.

#[export] Instance DurableRecord_updatable : Updatable DurableRecord :=
  {| rebuild := λ r, Build_DurableRecord (rec_key r) (value r) (revision r) (rec_createdAt r)
       (rec_updatedAt r) (rec_expiresAt r) |}.

(** [expiresAt] absent and [null] mean the same. *)
Record DurableRecordUpdate := {
  upd_value : string;
  upd_nowMs : number;
  upd_expiresAt : option number
}.

Record NewDurableRecord := { new_key : string; new_update : DurableRecordUpdate }.

Inductive DurableCreateResult :=
  | Created (r : DurableRecord)
  | Exists (r : DurableRecord).

Inductive DurableCasResult :=
  | Updated (r : DurableRecord)
  | Conflict (r : DurableRecord)
  | Missing.

Inductive DurableDeleteResult := Deleted | DeleteConflict | DeleteMissing.

#[export] Instance DurableDeleteResult_eq_dec : EqDecision DurableDeleteResult.
Proof. solve_decision. Defined.

Record DurableExpiredPage := {
  page_records : list DurableRecord;
  nextCursor : option string
}.

(** ** Checks *)

(** [/^[A-Za-z0-9._:-]+$/] *)
Definition key_char (c : ascii) : bool := is_alnum c || one_of "._:-" c.

Definition key_chars (s : string) : bool := negb (falsy s) && forallb key_char (chars s).

Definition validateDurableKey (key : string) : result unit :=
  throw_if (falsy key || (MAX_DURABLE_KEY_CHARS <? str_length key)%Z || negb (key_chars key))
    (TError "durable metadata key is invalid").

Definition validateDurableValue (v : string) : result unit :=
  throw_if (MAX_DURABLE_METADATA_BYTES <? byteLength (utf8 v))%Z
    (TError "durable metadata exceeds the 64 KiB limit; store large content as an ArtifactRef").

Definition validateDurableWrite (input : DurableRecordUpdate) : result unit :=
  validateDurableValue (upd_value input);;
  throw_if (negb (isSafeInteger (upd_nowMs input)) || num_ltb (upd_nowMs input) (int 0))
    (TError "durable metadata timestamp is invalid");;
  throw_if (match upd_expiresAt input with
            | Some e => negb (isSafeInteger e) || num_leb e (upd_nowMs input)
            | None => false
            end)
    (TError "durable metadata expiry must be later than nowMs").

(** ** The interface *)

Class DurableRecordStorePort (S : Type) := {
  ds_get : string → M S (option DurableRecord);
  ds_createIfAbsent : NewDurableRecord → M S DurableCreateResult;
  ds_compareAndSwap : string → Z → DurableRecordUpdate → M S DurableCasResult;
  ds_deleteIfRevision : string → Z → M S DurableDeleteResult;
  ds_scanExpired : number → option string → Z → M S DurableExpiredPage
}.

(** ** [InMemoryDurableRecordStore] *)

Definition memory : Type := js_map DurableRecord.

Definition mem_get (key : string) : M memory (option DurableRecord) :=
  lift (validateDurableKey key);;
  gets (map_get key).

Definition new_record (input : NewDurableRecord) : DurableRecord :=
  let u := new_update input in
  {| rec_key := new_key input; value := upd_value u; revision := 1;
     rec_createdAt := to_Z (upd_nowMs u); rec_updatedAt := to_Z (upd_nowMs u);
     rec_expiresAt := to_Z <$> upd_expiresAt u |}.

Definition mem_createIfAbsent (input : NewDurableRecord) : M memory DurableCreateResult :=
  lift (validateDurableKey (new_key input));;
  lift (validateDurableWrite (new_update input));;
  m ← get;
  match map_get (new_key input) m with
  | Some existing => mret (Exists existing)
  | None =>
      update (map_set (new_key input) (new_record input));;
      mret (Created (new_record input))
  end.

Definition updated_record (current : DurableRecord) (u : DurableRecordUpdate) : DurableRecord :=
  current <| value := upd_value u |> <| revision := (revision current + 1)%Z |>
          <| rec_updatedAt := to_Z (upd_nowMs u) |>
          <| rec_expiresAt := to_Z <$> upd_expiresAt u |>.

Definition mem_compareAndSwap (key : string) (expectedRevision : Z) (u : DurableRecordUpdate)
    : M memory DurableCasResult :=
  lift (validateDurableKey key);;
  lift (validateDurableWrite u);;
  m ← get;
  match map_get key m with
  | None => mret Missing
  | Some current =>
      if negb (revision current =? expectedRevision)%Z then mret (Conflict current)
      else
        update (map_set key (updated_record current u));;
        mret (Updated (updated_record current u))
  end.

Definition mem_deleteIfRevision (key : string) (expectedRevision : Z)
    : M memory DurableDeleteResult :=
  lift (validateDurableKey key);;
  m ← get;
  match map_get key m with
  | None => mret DeleteMissing
  | Some current =>
      if negb (revision current =? expectedRevision)%Z then mret DeleteConflict
      else update (map_delete key);; mret Deleted
  end.

(** [sort] is stable and follows the locale's [localeCompare]. *)
Section scan.
Context (localeCompare : string → string → Z).

Fixpoint insert_record (r : DurableRecord) (l : list DurableRecord) : list DurableRecord :=
  match l with
  | [] => [r]
  | x :: l' => if (localeCompare (rec_key r) (rec_key x) <=? 0)%Z then r :: l
               else x :: insert_record r l'
  end.

Definition sort_records (l : list DurableRecord) : list DurableRecord :=
  foldr insert_record [] l.

(** The records a scan is about. *)
Definition scannable (nowMs : number) (cursor : option string) (r : DurableRecord) : bool :=
  match rec_expiresAt r with Some e => num_leb (int e) nowMs | None => false end &&
  str_ltb (default "" cursor) (rec_key r).

(** [records.slice(0, limit)] of a positive limit. *)
Definition mem_scanExpired (nowMs : number) (cursor : option string) (limit : Z)
    : M memory DurableExpiredPage :=
  m ← get;
  let records := sort_records (filter (λ r, scannable nowMs cursor r = true) m.*2) in
  let page := take (Z.to_nat limit) records in
  mret {| page_records := page;
          nextCursor := if (limit <? Z.of_nat (length records))%Z
                        then rec_key <$> last page else None |}.

Definition InMemoryDurableRecordStore : DurableRecordStorePort memory := {|
  ds_get := mem_get;
  ds_createIfAbsent := mem_createIfAbsent;
  ds_compareAndSwap := mem_compareAndSwap;
  ds_deleteIfRevision := mem_deleteIfRevision;
  ds_scanExpired := mem_scanExpired
|}.
End scan.

(** ** Blobs *)

Definition MAX_IMMUTABLE_BLOB_BYTES : Z := 32 * 1024 * 1024.

Record ImmutableBlobStat := {
  stat_blobKey : string;
  stat_ownerId : string;
  stat_digest : string;
  stat_byteSize : Z
}.

Inductive ImmutableBlobPutResult :=
  | BlobCreated (stat : ImmutableBlobStat)
  | BlobExists (stat : ImmutableBlobStat)
  | BlobConflict (stat : option ImmutableBlobStat).

Inductive BlobDeleteResult := BlobDeleted | BlobMissing | OwnerMismatch.

#[export] Instance BlobDeleteResult_eq_dec : EqDecision BlobDeleteResult.
Proof. solve_decision. Defined.

Class ImmutableBlobPort (S : Type) := {
  blob_putIfAbsent : string → string → string → bytes → M S ImmutableBlobPutResult;
  blob_stat : string → M S (option ImmutableBlobStat);
  blob_get : string → string → string → Z → M S (option bytes);
  blob_deleteIfOwner : string → string → M S BlobDeleteResult
}.

Definition is_hex_char (c : ascii) : bool := is_digit c || between 97 102 c.

(** [/^<prefix>[a-f0-9]{64}$/] *)
Definition hex64_after (prefix s : string) : bool :=
  startsWith s prefix &&
  let rest := drop (String.length prefix) (chars s) in
  (length rest =? 64) && forallb is_hex_char rest.

Definition validateInternalBlobKey (blobKey : string) : result unit :=
  throw_if (negb (hex64_after "blobs/" blobKey)) (TError "internal blob key is invalid").

Definition validateBlobIdentity (ownerId digest : string) : result unit :=
  throw_if (falsy ownerId || (160 <? str_length ownerId)%Z) (TError "blob owner is invalid");;
  throw_if (negb (hex64_after "sha256-" digest)) (TError "blob digest is invalid").

(** ** Laws of the interface *)

Section laws.
Context {S : Type} (view : S → memory) (env : memory → memory → Prop).

(** [mem_scan] is a read; which records a scan returns is left open. *)
Class DurableStoreLaws `{DurableRecordStorePort S} : Prop := {
  env_refl m : env m m;
  env_trans m1 m2 m3 : env m1 m2 → env m2 m3 → env m1 m3;
  get_atomic key : atomic view env (ds_get key) (mem_get key);
  create_atomic input : atomic view env (ds_createIfAbsent input) (mem_createIfAbsent input);
  cas_atomic key rev u : atomic view env (ds_compareAndSwap key rev u) (mem_compareAndSwap key rev u);
  delete_atomic key rev : atomic view env (ds_deleteIfRevision key rev) (mem_deleteIfRevision key rev);
  scan_reads now cursor limit s : env (view s) (view (ds_scanExpired now cursor limit s).2)
}.

End laws.
Arguments get_atomic {_ _ _ _ _} _.
Arguments create_atomic {_ _ _ _ _} _.
Arguments cas_atomic {_ _ _ _ _} _ _ _.
Arguments delete_atomic {_ _ _ _ _} _ _.
Arguments scan_reads {_ _ _ _ _} _ _ _ _.
Arguments env_refl {_ _ _ _ _} _.
Arguments env_trans {_ _ _ _ _} _ _ _ _ _.

(** Laws that allow the others less hold when they are allowed more. *)
Lemma atomic_mono {S V A} (view : S → V) (env env' : V → V → Prop) (op : M S A) spec :
  (∀ m m', env m m' → env' m m') → atomic view env op spec → atomic view env' op spec.
Proof. intros Hsub Hop s. destruct (Hop s) as (m & Hm & H). exists m. auto. Qed.

Lemma store_laws_mono {S} `{!DurableRecordStorePort S} (view : S → memory) env env' :
  (∀ m m', env m m' → env' m m') → PreOrder env' →
  DurableStoreLaws view env → DurableStoreLaws view env'.
Proof.
  intros Hsub [Hrefl Htrans] Laws. split; [exact Hrefl|exact Htrans|..]; intros.
  - eapply atomic_mono; [exact Hsub|apply get_atomic].
  - eapply atomic_mono; [exact Hsub|apply create_atomic].
  - eapply atomic_mono; [exact Hsub|apply cas_atomic].
  - eapply atomic_mono; [exact Hsub|apply delete_atomic].
  - apply Hsub, scan_reads.
Qed.

(** ** A store shared with others *)

Section shared_store.
Context {env : memory → memory → Prop} (localeCompare : string → string → Z).

#[export] Instance shared_port : DurableRecordStorePort (SharedStore env) := {
  ds_get key := in_turn (mem_get key);
  ds_createIfAbsent input := in_turn (mem_createIfAbsent input);
  ds_compareAndSwap key rev u := in_turn (mem_compareAndSwap key rev u);
  ds_deleteIfRevision key rev := in_turn (mem_deleteIfRevision key rev);
  ds_scanExpired now cursor limit := in_turn (mem_scanExpired localeCompare now cursor limit)
}.

Context (Hrefl : ∀ m, env m m) (Htrans : ∀ m1 m2 m3, env m1 m2 → env m2 m3 → env m1 m3).

Lemma shared_store_laws : DurableStoreLaws contents env.
Proof.
  split; [exact Hrefl|exact Htrans|intros; apply in_turn_atomic, Hrefl..|].
  intros now cursor limit [m [|t ts]]; unfold ds_scanExpired, shared_port, in_turn; cbn;
    [apply Hrefl|]. destruct (turn_fault t) as [[]|]; cbn; apply turn_allowed.
Qed.
End shared_store.

(** The in-memory store, with no other party. *)
Lemma memory_store_laws localeCompare :
  DurableStoreLaws (H := InMemoryDurableRecordStore localeCompare) id eq.
Proof.
  assert (Hop : ∀ A (op : M memory A), atomic id eq op op) by (intros A op m; exists m; split; [done|by left]).
  split; [done|by intros ??? -> ->|intros; apply Hop..|done].
Qed.

(** ** What the in-memory operations do to the records *)

Lemma mem_get_spec key m :
  (mem_get key m).2 = m ∧ (is_Throw (mem_get key m).1 ∨ (mem_get key m).1 = Ok (map_get key m)).
Proof.
  unfold mem_get. rewrite lift_bind. destruct (validateDurableKey key); cbn; [by auto|].
  split; [done|]. left. by eexists.
Qed.

Lemma mem_create_spec input m :
  let key := new_key input in
  (mem_createIfAbsent input m).2 = m ∧
    (is_Throw (mem_createIfAbsent input m).1 ∨
     ∃ r, map_get key m = Some r ∧ (mem_createIfAbsent input m).1 = Ok (Exists r)) ∨
  map_get key m = None ∧ (mem_createIfAbsent input m).2 = map_set key (new_record input) m ∧
    (mem_createIfAbsent input m).1 = Ok (Created (new_record input)).
Proof.
  cbv zeta. unfold mem_createIfAbsent. rewrite lift_bind.
  destruct (validateDurableKey _); [|left; split; [done|left; by eexists]]. rewrite lift_bind.
  destruct (validateDurableWrite _); [|left; split; [done|left; by eexists]].
  unfold mbind, M_bind, get, update, mret, M_ret.
  destruct (map_get (new_key input) m) as [r|] eqn:Hm; cbn; [left; eauto|right; done].
Qed.

Lemma mem_cas_spec key rev u m :
  (mem_compareAndSwap key rev u m).2 = m ∧
    (is_Throw (mem_compareAndSwap key rev u m).1 ∨
     map_get key m = None ∧ (mem_compareAndSwap key rev u m).1 = Ok Missing ∨
     ∃ r, map_get key m = Some r ∧ revision r ≠ rev ∧
          (mem_compareAndSwap key rev u m).1 = Ok (Conflict r)) ∨
  ∃ r, map_get key m = Some r ∧ revision r = rev ∧
    (mem_compareAndSwap key rev u m).2 = map_set key (updated_record r u) m ∧
    (mem_compareAndSwap key rev u m).1 = Ok (Updated (updated_record r u)).
Proof.
  unfold mem_compareAndSwap. rewrite lift_bind.
  destruct (validateDurableKey _); [|left; split; [done|left; by eexists]]. rewrite lift_bind.
  destruct (validateDurableWrite _); [|left; split; [done|left; by eexists]].
  unfold mbind, M_bind, get, update, mret, M_ret.
  destruct (map_get key m) as [r|]; [|left; cbn; auto].
  destruct (revision r =? rev)%Z eqn:Hr; reflect; cbn; [right; by exists r|].
  left. split; [done|]. right. right. by exists r.
Qed.

Lemma mem_delete_spec key rev m :
  (mem_deleteIfRevision key rev m).2 = m ∧
    (mem_deleteIfRevision key rev m).1 ≠ Ok Deleted ∨
  ∃ r, map_get key m = Some r ∧ revision r = rev ∧
    (mem_deleteIfRevision key rev m).2 = map_delete key m ∧
    (mem_deleteIfRevision key rev m).1 = Ok Deleted.
Proof.
  unfold mem_deleteIfRevision. rewrite lift_bind. destruct (validateDurableKey _); [|by left].
  unfold mbind, M_bind, get, update, mret, M_ret.
  destruct (map_get key m) as [r|]; [|by left].
  destruct (revision r =? rev)%Z eqn:Hr; reflect; cbn; [right; by exists r|by left].
Qed.

(** Records are stored under their own keys. *)
Record keyed (m : memory) : Prop := {
  keyed_ok : map_ok m;
  keyed_rec k r : map_get k m = Some r → rec_key r = k
}.

Lemma keyed_set k r m : keyed m → rec_key r = k → keyed (map_set k r m).
Proof.
  intros [Hok Hk] Hr. split; [by apply map_ok_set|]. intros k' r'. rewrite map_get_set.
  case_decide; [intros [= <-]; by subst|apply Hk].
Qed.

Lemma keyed_delete k m : keyed m → keyed (map_delete k m).
Proof.
  intros [Hok Hk]. split; [by apply map_ok_delete|]. intros k' r'. rewrite map_get_delete.
  case_decide; [done|apply Hk].
Qed.

(** ** Scans *)

(** A scan reports expired records. *)
Definition scan_expired {S} `{!DurableRecordStorePort S} : Prop :=
  ∀ now cursor limit (s : S) page r,
  (ds_scanExpired now cursor limit s).1 = Ok page → r ∈ page_records page →
  ∃ e, rec_expiresAt r = Some e ∧ num_leb (int e) now = true.
Arguments scan_expired _ {_}.

(** A scan reports records that are there. *)
Definition scan_reports {S} `{!DurableRecordStorePort S} (view : S → memory) : Prop :=
  ∀ now cursor limit s page r,
  (ds_scanExpired now cursor limit s).1 = Ok page → r ∈ page_records page →
  map_ok (view (ds_scanExpired now cursor limit s).2) →
  ∃ k, map_get k (view (ds_scanExpired now cursor limit s).2) = Some r.

Lemma elem_of_insert_record localeCompare r x l :
  x ∈ insert_record localeCompare r l → x = r ∨ x ∈ l.
Proof.
  induction l as [|y l IH]; cbn; [by intros ->%list_elem_of_singleton; left|].
  case_match; rewrite ?elem_of_cons; naive_solver.
Qed.

Lemma elem_of_sort_records localeCompare x l : x ∈ sort_records localeCompare l → x ∈ l.
Proof.
  induction l as [|y l IH]; cbn; [done|].
  intros [->|Hx]%elem_of_insert_record; rewrite elem_of_cons; auto.
Qed.

Lemma mem_scan_reads localeCompare now cursor limit m :
  ∃ page, mem_scanExpired localeCompare now cursor limit m = (Ok page, m).
Proof. by eexists. Qed.

Lemma mem_scan_reports localeCompare now cursor limit m page r :
  (mem_scanExpired localeCompare now cursor limit m).1 = Ok page → r ∈ page_records page → map_ok m →
  ∃ k, map_get k m = Some r.
Proof.
  unfold mem_scanExpired. intros [= <-] Hr Hm. cbn [page_records] in Hr.
  apply subseteq_take, elem_of_sort_records, list_elem_of_filter in Hr as [_ Hr].
  apply list_elem_of_fmap in Hr as ([k r'] & -> & Hr). exists k. by apply map_get_Some.
Qed.

Lemma mem_scan_expired localeCompare now cursor limit m page r :
  (mem_scanExpired localeCompare now cursor limit m).1 = Ok page → r ∈ page_records page →
  ∃ e, rec_expiresAt r = Some e ∧ num_leb (int e) now = true.
Proof.
  unfold mem_scanExpired. intros [= <-] Hr. cbn [page_records] in Hr.
  apply subseteq_take, elem_of_sort_records, list_elem_of_filter in Hr as [Hs _].
  unfold scannable in Hs. apply andb_true_iff in Hs as [He _]. destruct (rec_expiresAt r) as [e|]; [by exists e|done].
Qed.

Lemma shared_scan_expired localeCompare env :
  scan_expired (SharedStore env) (DurableRecordStorePort0 := shared_port localeCompare).
Proof.
  intros now cursor limit s page r. unfold ds_scanExpired, shared_port, in_turn.
  destruct (turns s) as [|t ts]; [apply mem_scan_expired|]. cbv zeta.
  destruct (turn_fault t) as [[]|]; [done..|apply mem_scan_expired].
Qed.

Lemma shared_scan_reports localeCompare env :
  scan_reports (DurableRecordStorePort0 := shared_port localeCompare) (contents (env := env)).
Proof.
  intros now cursor limit s page r. unfold ds_scanExpired, shared_port, in_turn.
  assert (Hm : ∀ m ts, let out := (let '(r, m') := mem_scanExpired localeCompare now cursor limit m
      in (r, {| contents := m'; turns := ts : list (turn env) |})) in
    out.1 = Ok page → r ∈ page_records page → map_ok (contents out.2) →
    ∃ k, map_get k (contents out.2) = Some r).
  { intros m ts. destruct (mem_scan_reads localeCompare now cursor limit m) as [p Hp].
    pose proof (mem_scan_reports localeCompare now cursor limit m page r) as Ha.
    rewrite Hp in Ha |- *. exact Ha. }
  destruct (turns s) as [|t ts]; [apply Hm|]. cbv zeta.
  destruct (turn_fault t) as [[]|]; [done..|apply Hm].
Qed.

(** ** Facts about the records that a computation keeps

    [P] is kept by the other parties ([env]); a computation keeps it if its
    own operations do. *)

Section keeps.
Context {S : Type} `{!DurableRecordStorePort S} (view : S → memory)
  (env : memory → memory → Prop) `{Laws : !DurableStoreLaws view env}
  (P : memory → Prop) (HP : ∀ m m', env m m' → P m → P m').

Definition keeps {A} (c : M S A) : Prop := ∀ s, P (view s) → wp c (λ _ s', P (view s')) s.

Lemma keeps_atomic {A} (op : M S A) mem_op :
  atomic view env op mem_op → (∀ m, P m → P (mem_op m).2) → keeps op.
Proof.
  intros Hop Hm s Hs. eapply (wp_atomic view env); [exact Hop|..].
  - intros m s' He ->. eauto.
  - intros e m s' He [->| ->]; eauto.
Qed.

Lemma keeps_bind {A B} (c : M S A) (f : A → M S B) : keeps c → (∀ a, keeps (f a)) → keeps (c ≫= f).
Proof.
  intros Hc Hf s Hs. apply wp_bind. eapply wp_mono; [by apply Hc|]. intros [a|e] s' Hs'; [|done].
  by apply Hf.
Qed.

Lemma keeps_lift {A} (r : result A) : keeps (lift r).
Proof. intros s Hs. by apply wp_lift. Qed.

Lemma keeps_lift_bind {A B} (r : result A) (f : A → M S B) :
  (∀ a, r = Ok a → keeps (f a)) → keeps (lift r ≫= f).
Proof. intros Hf s Hs. apply wp_lift_bind; [|done]. intros a Ha. by apply Hf. Qed.

Lemma keeps_ret {A} (a : A) : keeps (mret a).
Proof. intros s Hs. by apply wp_ret. Qed.

Lemma keeps_throw {A} e : keeps (throw e : M S A).
Proof. intros s Hs. by apply wp_throw. Qed.

Lemma keeps_attempt {A} (c : M S A) : keeps c → keeps (attempt c).
Proof.
  intros Hc s Hs. specialize (Hc s Hs). unfold wp, attempt in *. by destruct (c s) as [[] ?].
Qed.

Lemma keeps_get k : keeps (ds_get k).
Proof.
  eapply keeps_atomic; [apply get_atomic|]. intros m Hm. by destruct (mem_get_spec k m) as [-> _].
Qed.

(** A write keeps [P] when the stored record does. *)
Lemma keeps_created input :
  (∀ m, P m → map_get (new_key input) m = None → P (map_set (new_key input) (new_record input) m)) →
  keeps (ds_createIfAbsent input).
Proof.
  intros Hw. eapply keeps_atomic; [apply create_atomic|]. intros m Hm.
  destruct (mem_create_spec input m) as [[-> _]|(? & -> & _)]; auto.
Qed.

Lemma keeps_cas k rev u :
  (∀ m r, P m → map_get k m = Some r → revision r = rev → P (map_set k (updated_record r u) m)) →
  keeps (ds_compareAndSwap k rev u).
Proof.
  intros Hw. eapply keeps_atomic; [apply cas_atomic|]. intros m Hm.
  destruct (mem_cas_spec k rev u m) as [[-> _]|(r & ? & ? & -> & _)]; eauto.
Qed.

Lemma keeps_delete k rev :
  (∀ m r, P m → map_get k m = Some r → revision r = rev → P (map_delete k m)) →
  keeps (ds_deleteIfRevision k rev).
Proof.
  intros Hw. eapply keeps_atomic; [apply delete_atomic|]. intros m Hm.
  destruct (mem_delete_spec k rev m) as [[-> _]|(r & ? & ? & -> & _)]; eauto.
Qed.
End keeps.

(** The rules for a read and for a conditional write, when nothing need be
    known of the other parties. *)
Section any_env.
Context {S : Type} `{!DurableRecordStorePort S} (view : S → memory)
  (env : memory → memory → Prop) `{Laws : !DurableStoreLaws view env}.

Lemma wp_get_any {A} k (f : option DurableRecord → M S A) Q s :
  (∀ s', wp (f (map_get k (view s'))) Q s') → (∀ e s', Q (Throw e) s') → wp (ds_get k ≫= f) Q s.
Proof.
  intros Hok Hfail. apply wp_bind. eapply (wp_atomic view env); [apply get_atomic| |by auto].
  intros m s' _ Hv. destruct (mem_get_spec k m) as [Hm Hr]. rewrite Hm in Hv.
  destruct Hr as [[e ->]| ->]; [done|]. rewrite <- Hv. apply Hok.
Qed.

Lemma wp_cas_any {A} k rev u (f : DurableCasResult → M S A) Q s :
  (∀ r s', map_get k (view s') = Some (updated_record r u) →
     wp (f (Updated (updated_record r u))) Q s') →
  (∀ r s', wp (f (Conflict r)) Q s') → (∀ s', wp (f Missing) Q s') →
  (∀ e s', Q (Throw e) s') →
  wp (ds_compareAndSwap k rev u ≫= f) Q s.
Proof.
  intros Hu Hc Hm Hfail. apply wp_bind. eapply (wp_atomic view env); [apply cas_atomic| |by auto].
  intros m s' _ Hv. destruct (mem_cas_spec k rev u m) as [[_ Hr]|(r & _ & _ & Hm' & Hr)].
  - destruct Hr as [[e ->]|[[_ ->]|(r & _ & _ & ->)]]; auto.
  - rewrite Hr. apply Hu. by rewrite Hv, Hm', map_get_set_eq.
Qed.
End any_env.

(** The same when the other parties keep [P]. *)
Section kept.
Context {S : Type} `{!DurableRecordStorePort S} (view : S → memory)
  (env : memory → memory → Prop) `{Laws : !DurableStoreLaws view env}
  (P : memory → Prop) (HP : ∀ m m', env m m' → P m → P m').

Lemma wp_get_kept {A} k (f : option DurableRecord → M S A) Q s :
  P (view s) → (∀ s', P (view s') → wp (f (map_get k (view s'))) Q s') → (∀ e s', Q (Throw e) s') →
  wp (ds_get k ≫= f) Q s.
Proof.
  intros Hs Hok Hfail. apply wp_bind. eapply (wp_atomic view env); [apply get_atomic| |by auto].
  intros m s' He Hv. destruct (mem_get_spec k m) as [Hm Hr]. rewrite Hm in Hv.
  destruct Hr as [[e ->]| ->]; [done|]. rewrite <- Hv. apply Hok. rewrite Hv. by eapply HP.
Qed.

Lemma wp_cas_kept {A} k rev u (f : DurableCasResult → M S A) Q s :
  P (view s) →
  (∀ m r s', P m → map_get k m = Some r → view s' = map_set k (updated_record r u) m →
     wp (f (Updated (updated_record r u))) Q s') →
  (∀ r s', P (view s') → wp (f (Conflict r)) Q s') → (∀ s', P (view s') → wp (f Missing) Q s') →
  (∀ e s', Q (Throw e) s') →
  wp (ds_compareAndSwap k rev u ≫= f) Q s.
Proof.
  intros Hs Hu Hc Hmi Hfail. apply wp_bind. eapply (wp_atomic view env); [apply cas_atomic| |by auto].
  intros m s' He Hv. destruct (mem_cas_spec k rev u m) as [[Hm Hr]|(r & Hget & _ & Hm' & Hr)].
  - rewrite Hm in Hv. assert (P (view s')) by (rewrite Hv; by eapply HP).
    destruct Hr as [[e ->]|[[_ ->]|(r & _ & _ & ->)]]; auto.
  - rewrite Hr. apply (Hu m); [by eapply HP|done|congruence].
Qed.
End kept.

#[export] Hint Resolve keeps_lift keeps_ret keeps_throw keeps_get : groundlane.
