(* ===== verification/DurableEffects.v ===== *)
(** * The journal of durable effects

    [src/core/durable-effects.ts]: an effect outside the program (a provider
    call that costs money, a task, an artifact write) is claimed in the record
    store before it is performed, and its outcome recorded, so that a restart
    or a second worker does not perform it again. *)

From S2P Require Import Prelude JsString JsMap Digest Json DurableStore.

Inductive DurableEffectKind :=
  | provider_task_create
  | provider_task_update
  | provider_task_cancel
  | paid_upstream_call
  | artifact_write.

#[export] Instance DurableEffectKind_eq_dec : EqDecision DurableEffectKind.
Proof. solve_decision. Defined.

Definition kind_name (k : DurableEffectKind) : string :=
  match k with
  | provider_task_create => "provider_task_create"
  | provider_task_update => "provider_task_update"
  | provider_task_cancel => "provider_task_cancel"
  | paid_upstream_call => "paid_upstream_call"
  | artifact_write => "artifact_write"
  end.

Inductive DurableEffectStatus := claimed | inflight | succeeded | uncertain.

#[export] Instance DurableEffectStatus_eq_dec : EqDecision DurableEffectStatus.
Proof. solve_decision. Defined.

Definition effect_status_name (s : DurableEffectStatus) : string :=
  match s with
  | claimed => "claimed"
  | inflight => "inflight"
  | succeeded => "succeeded"
  | uncertain => "uncertain"
  end.

(** [schemaVersion] is always 1.  Properties a stored effect may have beyond
    these are not kept; the journal writes none. *)
Record DurableEffect := {
  jobId : string;
  effectKind : DurableEffectKind;
  operationKey : string;
  status : DurableEffectStatus;
  claimedAt : Z;
  updatedAt : Z;
  receipt : option string
}.

#[export] Instance DurableEffect_eq_dec : EqDecision DurableEffect.
Proof. solve_decision. Defined.

#[export] Instance DurableEffect_updatable : Updatable DurableEffect :=
  {| rebuild := λ e, Build_DurableEffect (jobId e) (effectKind e) (operationKey e) (status e)
       (claimedAt e) (updatedAt e) (receipt e) |}.

(** [EffectClaimResult] and [EffectRetryResult] *)
Inductive EffectClaimResult :=
  | Claimed (effect : DurableEffect) (rev : Z)
  | Existing (effect : DurableEffect) (rev : Z).

Inductive EffectRetryResult :=
  | Reclaimed (effect : DurableEffect) (rev : Z)
  | Blocked (effect : DurableEffect) (rev : Z).

Record EffectIdentity := {
  id_jobId : string;
  id_kind : DurableEffectKind;
  id_operationKey : string
}.

Definition keyFor (id : EffectIdentity) : result string :=
  let safe := id_jobId id +:+ ":" +:+ kind_name (id_kind id) +:+ ":" +:+ id_operationKey id in
  throw_if (negb (key_chars safe) || (220 <? str_length safe)%Z)
    (TError "durable effect identity is invalid");;
  Ok ("effect:" +:+ safe).

Definition null_or_string (o : option string) : js_value :=
  match o with Some s => JStr s | None => JNull end.

Definition effect_json (e : DurableEffect) : js_value :=
  JObj [("schemaVersion", JStr "1"); ("jobId", JStr (jobId e));
        ("effectKind", JStr (kind_name (effectKind e)));
        ("operationKey", JStr (operationKey e));
        ("status", JStr (effect_status_name (status e)));
        ("claimedAt", JNum (claimedAt e)); ("updatedAt", JNum (updatedAt e));
        ("receipt", null_or_string (receipt e))].

(** [JSON.stringify(effect)]; an object is never [undefined]. *)
Definition encode (e : DurableEffect) : string := unchars (json_text (effect_json e)).

(** [names.includes(v ?? "")], with the value it names. *)
Definition named {A} (name : A → string) (all : list A) (v : js_value) : option A :=
  s ← as_string v;
  snd <$> list_find (λ a, name a = s) all.

Definition all_kinds : list DurableEffectKind :=
  [provider_task_create; provider_task_update; provider_task_cancel; paid_upstream_call;
   artifact_write].

Definition all_statuses : list DurableEffectStatus := [claimed; inflight; succeeded; uncertain].

Definition effect_of_json (v : js_value) : option DurableEffect :=
  version ← as_string (prop v "schemaVersion");
  _ ← guard (version = "1");
  job ← as_string (prop v "jobId");
  op ← as_string (prop v "operationKey");
  kind ← named kind_name all_kinds (prop v "effectKind");
  st ← named effect_status_name all_statuses (prop v "status");
  c ← as_number (prop v "claimedAt");
  u ← as_number (prop v "updatedAt");
  rc ← as_null_or_string (prop v "receipt");
  Some {| jobId := job; effectKind := kind; operationKey := op; status := st;
          claimedAt := c; updatedAt := u; receipt := rc |}.

Definition malformed : thrown := TError "durable effect record is malformed".

Definition decode (record : DurableRecord) : result DurableEffect :=
  match JSON_parse (value record) with
  | Throw _ => Throw malformed
  | Ok v => match effect_of_json v with Some e => Ok e | None => Throw malformed end
  end.

Section journal.
Context {S : Type} `{!DurableRecordStorePort S}.

Definition write (e : DurableEffect) (nowMs : Z) : DurableRecordUpdate :=
  {| upd_value := encode e; upd_nowMs := int nowMs; upd_expiresAt := None |}.

Definition claim (id : EffectIdentity) (nowMs : Z) : M S EffectClaimResult :=
  key ← lift (keyFor id);
  let effect := {| jobId := id_jobId id; effectKind := id_kind id;
                   operationKey := id_operationKey id; status := claimed;
                   claimedAt := nowMs; updatedAt := nowMs; receipt := None |} in
  created ← ds_createIfAbsent {| new_key := key; new_update := write effect nowMs |};
  match created with
  | Created record => mret (Claimed effect (revision record))
  | Exists record =>
      existing ← lift (decode record);
      mret (Existing existing (revision record))
  end.

(** The record of a claim that must exist. *)
Definition require_effect (key : string) : M S (DurableRecord * DurableEffect) :=
  current ← ds_get key;
  match current with
  | None => throw (TError "durable effect claim is missing")
  | Some record => previous ← lift (decode record); mret (record, previous)
  end.

(** [status] is any but [claimed]; [receipt] is [null] by default. *)
Definition transition (id : EffectIdentity) (expectedRevision : Z) (to : DurableEffectStatus)
    (nowMs : Z) (rc : option string) : M S (DurableEffect * Z) :=
  key ← lift (keyFor id);
  '(_, previous) ← require_effect key;
  lift (throw_if (bool_decide (status previous = succeeded) && negb (bool_decide (to = succeeded)))
    (TError "a succeeded durable effect is terminal"));;
  let next := previous <| status := to |> <| updatedAt := nowMs |> <| receipt := rc |> in
  swapped ← ds_compareAndSwap key expectedRevision (write next nowMs);
  match swapped with
  | Updated record => mret (next, revision record)
  | _ => throw (TError "durable effect revision conflict")
  end.

(** A cancellation recorded as succeeded without acknowledgement may be tried
    again. *)
Definition retryable (e : DurableEffect) : bool :=
  bool_decide (status e = uncertain) ||
  (bool_decide (status e = succeeded) && bool_decide (receipt e = Some "not-acknowledged"%string)).

Definition retry (id : EffectIdentity) (expectedRevision nowMs : Z) : M S EffectRetryResult :=
  lift (throw_if (negb (bool_decide (id_kind id = provider_task_cancel)))
    (TError "only provider cancellation effects may be retried"));;
  key ← lift (keyFor id);
  '(current, previous) ← require_effect key;
  if negb (revision current =? expectedRevision)%Z || negb (retryable previous)
  then mret (Blocked previous (revision current))
  else
    let next := previous <| status := claimed |> <| updatedAt := nowMs |> <| receipt := None |> in
    swapped ← ds_compareAndSwap key expectedRevision (write next nowMs);
    match swapped with
    | Updated record => mret (Reclaimed next (revision record))
    | Missing => throw (TError "durable effect claim is missing")
    | Conflict record =>
        e ← lift (decode record);
        mret (Blocked e (revision record))
    end.
End journal.
