(* ===== verification/DurableEffectsSafety.v ===== *)
(** * Correctness of the effect journal

    Under any interleaving with other workers, and whatever calls fail: an
    effect is claimed at most once, and the journal only ever moves an effect
    along its state machine. *)

From S2P Require Import Prelude Interference JsString JsMap Digest Json DurableStore DurableEffects.

(** ** Records round-trip *)

Lemma decode_encode e r : value r = encode e → decode r = Ok e.
Proof.
  intros Hv. unfold decode. rewrite Hv.
  rewrite (JSON_roundtrip (effect_json e) (encode e)); [|by destruct e as [? [] ? [] ? ? []]|done].
  replace (effect_of_json _) with (Some e); [done|].
  destruct e as [job k op st c u rc]. unfold effect_of_json.
  assert (Hp : ∀ name, prop (json_normal (effect_json (Build_DurableEffect job k op st c u rc))) name =
    prop (effect_json (Build_DurableEffect job k op st c u rc)) name) by (intros; by destruct rc).
  rewrite !Hp. by destruct k, st, rc.
Qed.

(** ** Identities and keys *)

Definition identity_of (e : DurableEffect) : EffectIdentity :=
  {| id_jobId := jobId e; id_kind := effectKind e; id_operationKey := operationKey e |}.

Lemma kind_colon_free k : colon_free (kind_name k).
Proof. by apply (bool_decide_eq_true_1 _); destruct k; vm_compute. Qed.

Lemma kind_name_inj k1 k2 : kind_name k1 = kind_name k2 → k1 = k2.
Proof. by destruct k1, k2. Qed.

Lemma keyFor_inj id1 id2 key :
  colon_free (id_jobId id1) → colon_free (id_jobId id2) →
  keyFor id1 = Ok key → keyFor id2 = Ok key → id1 = id2.
Proof.
  assert (Hraw : ∀ id, keyFor id = Ok key →
    "effect:" +:+ (id_jobId id +:+ ":" +:+ kind_name (id_kind id) +:+ ":" +:+ id_operationKey id) = key).
  { intros id (? & _ & [= H])%result_bind_Ok. exact H. }
  intros C1 C2 H1%Hraw H2%Hraw. rewrite <- H2 in H1. destruct id1 as [j1 k1 o1], id2 as [j2 k2 o2].
  cbn [id_jobId id_kind id_operationKey] in *. apply (f_equal chars) in H1.
  rewrite !chars_app in H1. apply (inj (app (chars "effect:"))) in H1.
  change (chars ":") with [colon] in H1. cbn [app] in H1.
  apply split_front in H1 as [?%chars_inj H1]; [|done..].
  apply split_front in H1 as [?%chars_inj%kind_name_inj ?%chars_inj]; [|apply kind_colon_free..].
  by subst.
Qed.

(** ** The state machine of one effect *)

(** What one write may do: an effect that succeeded stays so, and goes back to
    [claimed] only if it may be retried. *)
Record effect_step (e e' : DurableEffect) : Prop := {
  step_identity : identity_of e' = identity_of e;
  step_claimedAt : claimedAt e' = claimedAt e;
  step_succeeded : status e = succeeded → status e' ≠ succeeded →
    status e' = claimed ∧ receipt e = Some "not-acknowledged"%string;
  step_claimed : status e' = claimed → retryable e = true ∧ effectKind e = provider_task_cancel
}.

(** How the record of [id] evolves: it appears holding an effect of [id],
    never disappears, and each revision is reached by steps. *)
Definition holds (id : EffectIdentity) (r : DurableRecord) : Prop :=
  ∃ e, decode r = Ok e ∧ identity_of e = id.

Definition record_evolves (id : EffectIdentity) (o o' : option DurableRecord) : Prop :=
  match o, o' with
  | None, None => True
  | None, Some r' => holds id r'
  | Some r, Some r' => r' = r ∨ (revision r < revision r')%Z ∧
      ∃ e e', decode r = Ok e ∧ decode r' = Ok e' ∧ rtc effect_step e e'
  | Some _, None => False
  end.

Definition journal_key (id : EffectIdentity) (key : string) : Prop :=
  colon_free (id_jobId id) ∧ keyFor id = Ok key.

Definition journal_evolves (m m' : memory) : Prop := ∀ id key,
  journal_key id key → record_evolves id (map_get key m) (map_get key m').

(** Every effect record holds an effect of its key. *)
Definition journal_ok (m : memory) : Prop := ∀ id key r,
  journal_key id key → map_get key m = Some r → holds id r.

Lemma rtc_identity e e' : rtc effect_step e e' → identity_of e' = identity_of e.
Proof. induction 1 as [|e1 e2 e3 Hs _ IH]; [done|]. by rewrite IH, (step_identity _ _ Hs). Qed.

Lemma record_evolves_trans id o1 o2 o3 :
  record_evolves id o1 o2 → record_evolves id o2 o3 → record_evolves id o1 o3.
Proof.
  destruct o1 as [r1|], o2 as [r2|], o3 as [r3|]; cbn; try done.
  - intros [->|(H1 & e1 & e2 & D1 & D2 & S1)] [->|(H2 & e2' & e3 & D2' & D3 & S2)]; auto.
    + right. split; [done|]. by exists e2', e3.
    + right. split; [done|]. by exists e1, e2.
    + right. split; [lia|]. exists e1, e3. split_and!; [done..|].
      rewrite D2 in D2'. injection D2' as <-. by etrans.
  - intros (e & De & He) [->|(_ & e2 & e3 & D2 & D3 & S2)]; [by exists e|].
    exists e3. split; [done|]. rewrite (rtc_identity _ _ S2).
    rewrite De in D2. by injection D2 as <-.
Qed.

Lemma journal_evolves_refl m : journal_evolves m m.
Proof. intros id key _. destruct (map_get key m); cbn; auto. Qed.

Lemma journal_evolves_trans m1 m2 m3 :
  journal_evolves m1 m2 → journal_evolves m2 m3 → journal_evolves m1 m3.
Proof. intros H1 H2 id key Hk. eapply record_evolves_trans; eauto. Qed.

#[export] Instance journal_evolves_preorder : PreOrder journal_evolves.
Proof. split; [exact journal_evolves_refl|exact journal_evolves_trans]. Qed.

Lemma journal_evolves_ok m m' : journal_evolves m m' → journal_ok m → journal_ok m'.
Proof.
  intros He Hok id key r' Hk Hr'. specialize (He id key Hk). rewrite Hr' in He.
  destruct (map_get key m) as [r|] eqn:Hr; cbn in He; [|done].
  destruct (Hok id key r Hk Hr) as (e & De & Hid).
  destruct He as [->|(_ & e1 & e2 & D1 & D2 & S)]; [by exists e|].
  exists e2. split; [done|]. rewrite (rtc_identity _ _ S).
  rewrite De in D1. by injection D1 as <-.
Qed.

(** Writing at the key of [id] concerns no other identity. *)
Lemma journal_set id key r m :
  journal_key id key → record_evolves id (map_get key m) (Some r) →
  journal_evolves m (map_set key r m).
Proof.
  intros [Hc Hk] Hr id' key' [Hc' Hk']. destruct (decide (key' = key)) as [->|Hne].
  - rewrite (keyFor_inj id' id key), map_get_set_eq by done. done.
  - rewrite map_get_set_ne by done. destruct (map_get key' m); cbn; auto.
Qed.

(** ** Every operation keeps to the state machine *)

Inductive journal_op :=
  | OClaim (id : EffectIdentity) (nowMs : Z)
  | OTransition (id : EffectIdentity) (expectedRevision : Z) (to : DurableEffectStatus)
      (nowMs : Z) (rc : option string)
  | ORetry (id : EffectIdentity) (expectedRevision nowMs : Z).

Inductive journal_result :=
  | RClaim (r : EffectClaimResult)
  | RTransition (e : DurableEffect) (rev : Z)
  | RRetry (r : EffectRetryResult).

Definition op_identity (op : journal_op) : EffectIdentity :=
  match op with OClaim id _ | OTransition id _ _ _ _ | ORetry id _ _ => id end.

(** The caller's use of the journal: identities whose job has no colon, and
    transitions, never to [claimed], under a revision that has been reached. *)
Definition op_allowed (m : memory) (op : journal_op) : Prop :=
  colon_free (id_jobId (op_identity op)) ∧
  match op with
  | OTransition id rev to _ _ => to ≠ claimed ∧ ∀ key, keyFor id = Ok key →
      ∃ r, map_get key m = Some r ∧ (rev <= revision r)%Z
  | _ => True
  end.

Section operations.
Context {S : Type} `{!DurableRecordStorePort S}.

Definition run_op (op : journal_op) : M S journal_result :=
  match op with
  | OClaim id now => r ← claim id now; mret (RClaim r)
  | OTransition id rev to now rc => '(e, rev') ← transition id rev to now rc; mret (RTransition e rev')
  | ORetry id rev now => r ← retry id rev now; mret (RRetry r)
  end.

Section guarantee.
Context (view : S → memory) `{Laws : !DurableStoreLaws view journal_evolves}.

Lemma claim_guarantee id now s :
  colon_free (id_jobId id) →
  wp (claim id now) (λ _ s', journal_evolves (view s) (view s')) s.
Proof.
  intros Hc. unfold claim. apply wp_bind, wp_lift. destruct (keyFor id) as [key|] eqn:Hk; [|reflexivity].
  apply wp_bind.
  assert (Hstep : ∀ m, journal_evolves (view s) m →
    journal_evolves (view s) (mem_createIfAbsent {| new_key := key; new_update := write
      {| jobId := id_jobId id; effectKind := id_kind id; operationKey := id_operationKey id;
         status := claimed; claimedAt := now; updatedAt := now; receipt := None |} now |} m).2).
  { intros m Hm. match goal with |- context [mem_createIfAbsent ?i m] =>
      destruct (mem_create_spec i m) as [[-> _]|(Hnone & -> & _)] end; [done|].
    etrans; [exact Hm|]. eapply (journal_set id); [by split|]. cbn [new_key] in *. rewrite Hnone.
    eexists. split; [by apply decode_encode|]. by destruct id. }
  eapply (wp_atomic view journal_evolves _ _ (create_atomic _)).
  - intros m s' Hm Hv.
    assert (He : journal_evolves (view s) (view s')) by (rewrite Hv; by apply Hstep).
    destruct (mem_createIfAbsent _ m).1 as [[r|r]|e]; [done| |done].
    apply wp_bind, wp_lift. by destruct (decode r).
  - intros e m s' Hm [Hv|Hv]; rewrite Hv; auto.
Qed.

(** A compare-and-swap from an effect read before, under a revision already
    reached then: if it writes, nothing was written in between. *)
Lemma cas_guarantee id key r1 e1 next rev now m1 s :
  journal_key id key → map_get key m1 = Some r1 → decode r1 = Ok e1 → effect_step e1 next →
  (rev <= revision r1)%Z → journal_evolves m1 (view s) →
  wp (ds_compareAndSwap key rev (write next now)) (λ _ s', journal_evolves m1 (view s')) s.
Proof.
  intros Hk Hr1 De Hstep Hrev Hs.
  assert (Hcas : ∀ m, journal_evolves (view s) m →
    journal_evolves m1 (mem_compareAndSwap key rev (write next now) m).2).
  { intros m Hm. assert (Hm1 : journal_evolves m1 m) by (by etrans).
    destruct (mem_cas_spec key rev (write next now) m) as [[-> _]|(r2 & Hr2 & Hrev2 & -> & _)];
      [done|].
    etrans; [exact Hm1|]. eapply (journal_set id); [done|]. rewrite Hr2.
    destruct Hk as [Hc Hk]. pose proof (Hm1 id key (conj Hc Hk)) as He.
    rewrite Hr1, Hr2 in He. cbn in He. destruct He as [->|(Hlt & _)]; [|lia].
    right. cbn. split; [lia|]. exists e1, next. split_and!; [done|by apply decode_encode|].
    by apply rtc_once. }
  eapply (wp_atomic view journal_evolves _ _ (cas_atomic _ _ _)).
  - intros m s' Hm ->. auto.
  - intros e m s' Hm [->| ->]; [by etrans|auto].
Qed.

Lemma require_effect_spec id key s (Q : result (DurableRecord * DurableEffect) → S → Prop) :
  (∀ m r e s', journal_evolves (view s) m → map_get key m = Some r → decode r = Ok e →
     view s' = m → Q (Ok (r, e)) s') →
  (∀ err s', journal_evolves (view s) (view s') → Q (Throw err) s') →
  journal_key id key → wp (require_effect key) Q s.
Proof.
  intros Hok Hfail Hk. unfold require_effect. apply wp_bind.
  eapply (wp_atomic view journal_evolves _ _ (get_atomic _)).
  - intros m s' Hm Hv. destruct (mem_get_spec key m) as [Hm' [[e ->]|Hr]].
    + apply Hfail. by rewrite Hv, Hm'.
    + rewrite Hr. rewrite Hm' in Hv. destruct (map_get key m) as [r|] eqn:Hget.
      * apply wp_bind, wp_lift. destruct (decode r) as [e|e] eqn:De; [|apply Hfail; by rewrite Hv].
        apply wp_ret. by eapply Hok.
      * apply wp_throw, Hfail. by rewrite Hv.
  - intros e m s' Hm Hv. apply Hfail. destruct (mem_get_spec key m) as [Hm' _].
    rewrite Hm' in Hv. destruct Hv as [->| ->]; done.
Qed.

Lemma transition_guarantee id rev to now rc s :
  op_allowed (view s) (OTransition id rev to now rc) →
  wp (transition id rev to now rc) (λ _ s', journal_evolves (view s) (view s')) s.
Proof.
  intros (Hc & Hto & Hrev). unfold transition. apply wp_bind, wp_lift.
  destruct (keyFor id) as [key|] eqn:Hk; [|reflexivity].
  apply wp_bind. eapply (require_effect_spec id); [|done|by split].
  intros m r e s1 Hm Hr De Hv. apply wp_throw_if; [by rewrite Hv|]. intros Hterm.
  apply wp_bind. eapply wp_mono; [eapply (cas_guarantee id key r e _ _ _ m)|].
  - by split.
  - done.
  - done.
  - split; [by destruct e|done| |done]. cbn. intros Hsucc Hne.
    rewrite bool_decide_true, bool_decide_false in Hterm by done. done.
  - destruct (Hrev key eq_refl) as (r0 & Hr0 & Hle).
    pose proof (Hm id key (conj Hc Hk)) as He. rewrite Hr0, Hr in He. cbn in He.
    destruct He as [->|[? _]]; lia.
  - by rewrite Hv.
  - intros [[]|] s' Hs'; try apply wp_ret; try apply wp_throw; by etrans.
Qed.

Lemma retry_guarantee id rev now s :
  journal_ok (view s) → colon_free (id_jobId id) →
  wp (retry id rev now) (λ _ s', journal_evolves (view s) (view s')) s.
Proof.
  intros Hok Hc. unfold retry. apply wp_throw_if; [reflexivity|]. intros Hkind. reflect.
  apply wp_bind, wp_lift. destruct (keyFor id) as [key|] eqn:Hk; [|reflexivity].
  apply wp_bind. eapply (require_effect_spec id); [|done|by split].
  intros m r e s1 Hm Hr De Hv.
  destruct (negb (revision r =? rev)%Z || negb (retryable e)) eqn:Hcond;
    [apply wp_ret; by rewrite Hv|]. reflect.
  destruct (journal_evolves_ok _ _ Hm Hok id key r (conj Hc Hk) Hr) as (e' & De' & Hid).
  rewrite De in De'. injection De' as <-.
  apply wp_bind. eapply wp_mono; [eapply (cas_guarantee id key r e _ _ _ m)|].
  - by split.
  - done.
  - done.
  - split; [by destruct e|done| |].
    + cbn. intros Hsucc _. split; [done|].
      match goal with H : retryable e = true |- _ => unfold retryable in H; rewrite Hsucc in H;
        cbn in H; by apply bool_decide_eq_true in H end.
    + intros _. split; [done|]. rewrite <- Hkind, <- Hid. done.
  - lia.
  - by rewrite Hv.
  - intros [[r'|r'|]|err] s' Hs'; cbn.
    + apply wp_ret. by etrans.
    + apply wp_bind, wp_lift. destruct (decode r'); [apply wp_ret|]; by etrans.
    + apply wp_throw. by etrans.
    + by etrans.
Qed.

Lemma run_op_guarantee op s :
  journal_ok (view s) → op_allowed (view s) op →
  wp (run_op op) (λ _ s', journal_evolves (view s) (view s')) s.
Proof.
  intros Hok Hop. destruct op as [id now|id rev to now rc|id rev now]; apply wp_bind.
  - eapply wp_mono; [apply claim_guarantee, Hop|]. by intros [] ?.
  - eapply wp_mono; [by apply transition_guarantee|]. by intros [[]|] ?.
  - eapply wp_mono; [apply retry_guarantee; [done|apply Hop]|]. by intros [] ?.
Qed.
End guarantee.

(** ** Runs *)

Fixpoint run_ops (ops : list journal_op) (s : S) : list (result journal_result) * S :=
  match ops with
  | [] => ([], s)
  | op :: ops' =>
      let '(r, s1) := run_op op s in
      let '(rs, s2) := run_ops ops' s1 in (r :: rs, s2)
  end.

Fixpoint ops_allowed (view : S → memory) (ops : list journal_op) (s : S) : Prop :=
  match ops with
  | [] => True
  | op :: ops' => op_allowed (view s) op ∧ ops_allowed view ops' (run_op op s).2
  end.

Lemma run_ops_guarantee view `{Laws : !DurableStoreLaws view journal_evolves} ops s :
  journal_ok (view s) → ops_allowed view ops s →
  journal_evolves (view s) (view (run_ops ops s).2).
Proof.
  revert s. induction ops as [|op ops IH]; intros s Hok; cbn; [reflexivity|]. intros [Hop Hops].
  pose proof (run_op_guarantee view op s Hok Hop) as H1. unfold wp in H1.
  destruct (run_op op s) as [r s1]. cbn in *.
  specialize (IH s1 (journal_evolves_ok _ _ H1 Hok) Hops).
  destruct (run_ops ops s1). cbn in *. by etrans.
Qed.

(** ** At most one claim *)

Section once.
Context (view : S → memory) (env : memory → memory → Prop) `{Laws : !DurableStoreLaws view env}
  (key : string) (Hkeep : ∀ m m', env m m' → map_get key m ≠ None → map_get key m' ≠ None).

Definition present (s : S) : Prop := map_get key (view s) ≠ None.

(** The claim of the effect stored at [key] was won. *)
Definition won (op : journal_op) (r : result journal_result) : Prop :=
  keyFor (op_identity op) = Ok key ∧ ∃ e rev, r = Ok (RClaim (Claimed e rev)).

#[export] Instance won_dec op r : Decision (won op r).
Proof.
  unfold won. destruct (decide (keyFor (op_identity op) = Ok key)) as [Hk|Hk];
    [|right; by intros [? _]].
  destruct r as [[[e rev|]| |]|]; [left; by eauto|right; by intros (_ & ? & ? & ?)..].
Defined.

Lemma present_set k r (m : memory) : map_get key m ≠ None → map_get key (map_set k r m) ≠ None.
Proof. rewrite map_get_set. by case_decide. Qed.

Notation keeps_present := (keeps view (λ m, map_get key m ≠ None)).

Lemma create_keeps input : keeps_present (ds_createIfAbsent input).
Proof. apply (keeps_created view env _ Hkeep). intros. by apply present_set. Qed.

Lemma cas_keeps k rev u : keeps_present (ds_compareAndSwap k rev u).
Proof. apply (keeps_cas view env _ Hkeep). intros. by apply present_set. Qed.

Ltac keep := intros; first
  [ apply keeps_bind; [keep|intros; keep] | apply keeps_ret | apply keeps_lift
  | apply keeps_throw | apply (keeps_get view env _ Hkeep) | apply create_keeps | apply cas_keeps
  | case_match; keep ].

Lemma run_op_keeps op : keeps_present (run_op op).
Proof. destruct op; cbn; keep. Qed.

(** A claim is won only from the absence of the record, which it ends. *)
Lemma run_op_won op s :
  wp (run_op op) (λ r s', won op r → ¬ present s ∧ present s') s.
Proof.
  destruct op as [id now|id rev to now rc|id rev now]; apply wp_bind.
  - unfold claim. apply wp_bind, wp_lift. destruct (keyFor id) as [k|e] eqn:Hk;
      [|by intros (_ & ? & ? & ?)].
    apply wp_bind. eapply (wp_atomic view env); [apply create_atomic| |].
    + intros m s' He Hv.
      match goal with |- context [mem_createIfAbsent ?i m] =>
        destruct (mem_create_spec i m) as [[_ [[err ->]|(r & _ & ->)]]|(Hnone & Hset & ->)] end.
      * by intros (_ & ? & ? & ?).
      * apply wp_bind, wp_lift. destruct (decode r); [apply wp_ret, wp_ret|];
          by intros (_ & ? & ? & ?).
      * apply wp_ret, wp_ret. intros (Hkey & _). cbn in Hkey. rewrite Hk in Hkey.
        injection Hkey as ->. unfold present. cbn [new_key] in *. split.
        -- intros Hp. by apply (Hkeep _ _ He) in Hp.
        -- rewrite Hv, Hset. by rewrite map_get_set_eq.
    + intros e m s' _ _. by intros (_ & ? & ? & ?).
  - apply wp_intro. intros r s' _. destruct r as [[]|];
      [apply wp_ret|]; by intros (_ & ? & ? & ?).
  - apply wp_intro. intros r s' _. destruct r; [apply wp_ret|]; by intros (_ & ? & ? & ?).
Qed.

(** The claims won in a run. *)
Definition wins (ops : list journal_op) (rs : list (result journal_result)) : list (journal_op * result journal_result) :=
  filter (λ x, won x.1 x.2) (zip ops rs).

Lemma wins_cons op ops r rs :
  wins (op :: ops) (r :: rs) =
  if decide (won op r) then (op, r) :: wins ops rs else wins ops rs.
Proof. exact (filter_cons (λ x, won x.1 x.2) (op, r) (zip ops rs)). Qed.

Lemma wins_run op ops s :
  wins (op :: ops) (run_ops (op :: ops) s).1 =
  let '(r, s1) := run_op op s in
  if decide (won op r) then (op, r) :: wins ops (run_ops ops s1).1 else wins ops (run_ops ops s1).1.
Proof.
  cbn [run_ops]. destruct (run_op op s) as [r s1]. destruct (run_ops ops s1) as [rs s2].
  apply wins_cons.
Qed.

Lemma wins_after ops s :
  present s → wins ops (run_ops ops s).1 = [].
Proof.
  revert s. induction ops as [|op ops IH]; intros s Hs; [done|]. rewrite wins_run.
  pose proof (run_op_keeps op s Hs) as Hk. pose proof (run_op_won op s) as Hw.
  unfold wp in *. destruct (run_op op s) as [r s1]. cbn in Hk, Hw.
  rewrite decide_False by (intros [? _]%Hw; done). by apply IH.
Qed.

Lemma wins_at_most_one ops s : length (wins ops (run_ops ops s).1) ≤ 1.
Proof.
  revert s. induction ops as [|op ops IH]; intros s; [cbn; lia|]. rewrite wins_run.
  pose proof (run_op_won op s) as Hw. unfold wp in Hw.
  destruct (run_op op s) as [r s1]. cbn in Hw.
  case_decide as Hwon; [|apply IH]. rewrite wins_after by (by apply Hw). done.
Qed.
End once.
End operations.

(** ** What a worker that uses the journal knows *)

(** The effect was claimed, and its record has reached a revision. *)
Definition reached (id : EffectIdentity) (rev : Z) (m : memory) : Prop := ∀ key,
  keyFor id = Ok key → ∃ r, map_get key m = Some r ∧ (rev <= revision r)%Z.

Lemma reached_evolves id rev m m' :
  colon_free (id_jobId id) → journal_evolves m m' → reached id rev m → reached id rev m'.
Proof.
  intros Hc He Hr key Hk. destruct (Hr key Hk) as (r & Hget & Hle).
  specialize (He id key (conj Hc Hk)). rewrite Hget in He.
  destruct (map_get key m') as [r'|]; [|done]. exists r'. split; [done|].
  destruct He as [->|[? _]]; lia.
Qed.

Lemma keyFor_prefix id key : keyFor id = Ok key → startsWith key "effect:" = true.
Proof.
  intros (? & _ & [= <-])%result_bind_Ok. apply (startsWith_app "effect:").
Qed.

Section clients.
Context {S : Type} `{!DurableRecordStorePort S} (view : S → memory) (env : memory → memory → Prop)
  `{Laws : !DurableStoreLaws view env}.

Lemma claim_reached id now s :
  wp (claim id now) (λ r s', match r with
    | Ok (Claimed _ rev | Existing _ rev) => reached id rev (view s') | Throw _ => True end) s.
Proof.
  unfold claim. apply wp_bind, wp_lift. destruct (keyFor id) as [key|] eqn:Hk; [|done]. apply wp_bind.
  eapply (wp_atomic view env _ _ (create_atomic _)); [|done]. intros m s' _ Hv.
  match goal with |- context [mem_createIfAbsent ?i m] =>
    destruct (mem_create_spec i m) as [[Hm [[e ->]|(r & Hr & ->)]]|(_ & Hm & ->)] end; [done|..].
  - apply wp_bind, wp_lift. destruct (decode r); [|done]. apply wp_ret. intros key' Hk'. rewrite Hv, Hm.
    rewrite Hk in Hk'. injection Hk' as <-. by exists r.
  - apply wp_ret. intros key' Hk'. rewrite Hv, Hm. rewrite Hk in Hk'. injection Hk' as <-.
    rewrite map_get_set_eq. by eexists.
Qed.

(** What a conditional write answers, a record with some revision, is there. *)
Lemma cas_reached key rev u s (Q : result DurableCasResult → S → Prop) :
  (∀ e s', Q (Throw e) s') → (∀ s', Q (Ok Missing) s') →
  (∀ r s', map_get key (view s') = Some r → Q (Ok (Updated r)) s' ∧ Q (Ok (Conflict r)) s') →
  wp (ds_compareAndSwap key rev u) Q s.
Proof.
  intros Hfail Hmissing Hok. eapply (wp_atomic view env _ _ (cas_atomic _ _ _)); [|done].
  intros m s' _ Hv.
  destruct (mem_cas_spec key rev u m) as [[Hm [[e ->]|[[_ ->]|(r & Hr & _ & ->)]]]|(r & _ & _ & Hm & ->)];
    [done..| |]; apply Hok; rewrite Hv, Hm; [done|apply map_get_set_eq].
Qed.

Lemma transition_reached id rev to now rc s :
  wp (transition id rev to now rc) (λ r s', match r with
    | Ok (_, rev') => reached id rev' (view s') | Throw _ => True end) s.
Proof.
  unfold transition. apply wp_bind, wp_lift. destruct (keyFor id) as [key|] eqn:Hk; [|done].
  apply wp_bind_any; [|done]. intros [_ previous] s1. apply wp_throw_if; [done|]. intros _. apply wp_bind.
  apply cas_reached; [done|by intros; apply wp_throw|]. intros r s' Hr. split; [|by apply wp_throw].
  apply wp_ret. intros key' Hk'. rewrite Hk in Hk'. injection Hk' as <-. by exists r.
Qed.

Lemma retry_reached id rev now s :
  wp (retry id rev now) (λ r s', match r with
    | Ok (Reclaimed _ rev') => reached id rev' (view s') | _ => True end) s.
Proof.
  unfold retry. apply wp_throw_if; [done|]. intros _. apply wp_bind, wp_lift.
  destruct (keyFor id) as [key|] eqn:Hk; [|done]. apply wp_bind_any; [|done]. intros [current previous] s1.
  case_match; [by apply wp_ret|]. apply wp_bind.
  apply cas_reached; [done|by intros; apply wp_throw|]. intros r s' Hr. split.
  - apply wp_ret. intros key' Hk'. rewrite Hk in Hk'. injection Hk' as <-. by exists r.
  - apply wp_bind, wp_lift. by destruct (decode r); [apply wp_ret|].
Qed.

(** The journal writes at its own keys only. *)
Context (P : memory → Prop) (HP : ∀ m m', env m m' → P m → P m')
  (Hkeyed : ∀ m key r, P m → map_get key m = Some r → rec_key r = key)
  (Hset : ∀ m key r, startsWith key "effect:" = true → rec_key r = key → P m → P (map_set key r m)).
Notation keeps_P := (keeps view P).

Lemma claim_frame id now : keeps_P (claim id now).
Proof.
  apply keeps_lift_bind. intros key Hk. apply keeps_bind.
  - apply (keeps_created view env _ HP). intros m Hm _. apply Hset; [by eapply keyFor_prefix|done..].
  - intros [r|r]; [apply keeps_ret|]. apply keeps_bind; [apply keeps_lift|intros; apply keeps_ret].
Qed.

Lemma cas_frame id key rev u : keyFor id = Ok key → keeps_P (ds_compareAndSwap key rev u).
Proof.
  intros Hk. apply (keeps_cas view env _ HP). intros m r Hm Hr _.
  apply Hset; [by eapply keyFor_prefix|exact (Hkeyed m key r Hm Hr)|done].
Qed.

Lemma require_effect_frame key : keeps_P (require_effect key).
Proof.
  apply keeps_bind; [apply (keeps_get view env _ HP)|]. intros [r|]; [|apply keeps_throw].
  apply keeps_bind; [apply keeps_lift|intros; apply keeps_ret].
Qed.

Lemma transition_frame id rev to now rc : keeps_P (transition id rev to now rc).
Proof.
  apply keeps_lift_bind. intros key Hk. apply keeps_bind; [apply require_effect_frame|]. intros [_ previous].
  apply keeps_bind; [apply keeps_lift|]. intros _. apply keeps_bind; [by eapply cas_frame|].
  intros []; [apply keeps_ret|apply keeps_throw..].
Qed.

Lemma retry_frame id rev now : keeps_P (retry id rev now).
Proof.
  apply keeps_bind; [apply keeps_lift|]. intros _.
  apply keeps_lift_bind. intros key Hk. apply keeps_bind; [apply require_effect_frame|]. intros [current previous].
  case_match; [apply keeps_ret|]. apply keeps_bind; [by eapply cas_frame|].
  intros []; [apply keeps_ret| |apply keeps_throw].
  apply keeps_bind; [apply keeps_lift|intros; apply keeps_ret].
Qed.
End clients.

(** C22: an effect is claimed at most once.  Let any number of workers claim,
    update and retry effects in the record store, in any order and interleaved
    with anything that does not delete the record of the effect, calls failing
    before or after they took effect.  Then at most one of all the claims of
    one effect is answered [claimed]; so only one worker performs it. *)
Theorem effect_claimed_at_most_once {S} `{DurableRecordStorePort S} (view : S → memory) env
    (key : string) (ops : list journal_op) (s : S) :
  DurableStoreLaws view env →
  (∀ m m', env m m' → map_get key m ≠ None → map_get key m' ≠ None) →
  length (wins key ops (run_ops ops s).1) ≤ 1.
Proof. intros Laws Hkeep. by apply (wins_at_most_one view env). Qed.

Lemma rtc_final e e' :
  rtc effect_step e e' → status e = succeeded → effectKind e ≠ provider_task_cancel →
  status e' = succeeded.
Proof.
  induction 1 as [|e1 e2 e3 Hs _ IH]; [done|]. intros Hsucc Hkind. apply IH.
  - destruct (decide (status e2 = succeeded)) as [|Hne]; [done|].
    destruct (step_succeeded _ _ Hs Hsucc Hne) as [Hc _].
    by destruct (step_claimed _ _ Hs Hc).
  - pose proof (f_equal id_kind (step_identity _ _ Hs)) as Hid. cbn in Hid. by rewrite Hid.
Qed.

(** C23: the journal keeps to its state machine, by rely and guarantee.  If
    every other party only moves effect records along the state machine
    ([journal_evolves]), then so does any run of journal operations in which
    transitions use revisions already reached: records appear holding an
    effect of their key, never disappear, and change only by legal steps under
    a higher revision.  In particular an effect that succeeded, other than a
    cancellation, has succeeded for good. *)
Theorem journal_keeps_state_machine {S} `{DurableRecordStorePort S} (view : S → memory)
    (ops : list journal_op) (s : S) :
  DurableStoreLaws view journal_evolves →
  journal_ok (view s) → ops_allowed view ops s →
  let s' := (run_ops ops s).2 in
  journal_evolves (view s) (view s') ∧
  ∀ id key r e, journal_key id key → map_get key (view s) = Some r → decode r = Ok e →
    status e = succeeded → effectKind e ≠ provider_task_cancel →
    ∃ r' e', map_get key (view s') = Some r' ∧ decode r' = Ok e' ∧ status e' = succeeded ∧
             identity_of e' = identity_of e.
Proof.
  intros Laws Hok Hops s'. pose proof (run_ops_guarantee view ops s Hok Hops) as Hev.
  fold s' in Hev. split; [done|]. intros id key r e Hk Hr De Hsucc Hkind.
  specialize (Hev id key Hk). rewrite Hr in Hev. destruct (map_get key (view s')) as [r'|]; [|done].
  destruct Hev as [->|(_ & e1 & e2 & D1 & D2 & Hsteps)]; [by exists r, e|].
  rewrite De in D1. injection D1 as <-. exists r', e2.
  split_and!; [done|done|by eapply rtc_final|by apply rtc_identity].
Qed.

(** ** A concrete run *)

Module Demo.
Definition id : EffectIdentity :=
  {| id_jobId := "job-1"; id_kind := paid_upstream_call; id_operationKey := "op" |}.
Definition key : string := "effect:job-1:paid_upstream_call:op".
Definition no_locale : string → string → Z := λ _ _, 0%Z.
#[export] Instance port env : DurableRecordStorePort (SharedStore env) := shared_port no_locale.

(** Nothing else runs. *)
Definition alone : SharedStore journal_evolves := {| contents := []; turns := [] |}.

(** The first call fails after it took effect, then another worker adds an
    unrelated record. *)
Definition other : DurableRecord :=
  {| rec_key := "other"; value := "{}"; revision := 1; rec_createdAt := 1; rec_updatedAt := 1;
     rec_expiresAt := None |}.
Definition keeps_key (m m' : memory) : Prop := map_get key m ≠ None → map_get key m' ≠ None.

Lemma put_other_keeps m : keeps_key m (map_set "other" other m).
Proof. unfold keeps_key. by rewrite map_get_set_ne. Qed.

Definition busy : SharedStore keeps_key :=
  {| contents := [];
     turns := [Build_turn keeps_key (λ m, m) (λ m H, H) (Some true);
               Build_turn keeps_key (map_set "other" other) put_other_keeps None] |}.

Definition ops : list journal_op :=
  [OClaim id 10; OTransition id 1 succeeded 20 (Some "receipt"%string)].

Example demo_claims :
  (run_ops [OClaim id 10; OClaim id 20] alone).1 =
  [Ok (RClaim (Claimed (Build_DurableEffect "job-1" paid_upstream_call "op" claimed 10 10 None) 1));
   Ok (RClaim (Existing (Build_DurableEffect "job-1" paid_upstream_call "op" claimed 10 10 None) 1))].
Proof. vm_compute. reflexivity. Qed.

(** The failed call had claimed the effect: nobody is told so. *)
Example demo_fault :
  (run_ops [OClaim id 10; OClaim id 20] busy).1 =
  [Throw unavailable_call;
   Ok (RClaim (Existing (Build_DurableEffect "job-1" paid_upstream_call "op" claimed 10 10 None) 1))].
Proof. vm_compute. reflexivity. Qed.
End Demo.

#[local] Existing Instance Demo.port.

Lemma effect_claimed_at_most_once_witness :
  length (wins Demo.key [OClaim Demo.id 10; OClaim Demo.id 20]
            (run_ops [OClaim Demo.id 10; OClaim Demo.id 20] Demo.busy).1) ≤ 1.
Proof.
  apply (effect_claimed_at_most_once (contents (env := Demo.keeps_key)) Demo.keeps_key).
  - apply shared_store_laws; [intros m Hm; exact Hm|intros m1 m2 m3 H1 H2 Hm; exact (H2 (H1 Hm))].
  - intros m m' Hm. exact Hm.
Defined.

Lemma journal_keeps_state_machine_witness :
  let s' := (run_ops Demo.ops Demo.alone).2 in
  ∃ r e, map_get Demo.key (contents s') = Some r ∧ decode r = Ok e ∧ status e = succeeded ∧
         journal_evolves [] (contents s').
Proof.
  assert (Hlaws : DurableStoreLaws (contents (env := journal_evolves)) journal_evolves).
  { apply shared_store_laws; [reflexivity|]. intros m1 m2 m3 H1 H2. by etrans. }
  assert (Hallowed : ops_allowed contents Demo.ops Demo.alone).
  { repeat split; try (apply (bool_decide_eq_true_1 _); vm_compute; reflexivity).
    intros key Hk. vm_compute in Hk. injection Hk as <-.
    eexists. split; [vm_compute; reflexivity|vm_compute; discriminate]. }
  destruct (journal_keeps_state_machine contents Demo.ops Demo.alone Hlaws
    (λ id key r _ Hr, ltac:(discriminate Hr)) Hallowed) as [Hev _].
  do 2 eexists. split_and!; [vm_compute; reflexivity..|exact Hev].
Defined.
