(* ===== verification/DocumentCache.v ===== *)
(** * The document processing cache

    [src/core/document-cache-contract.ts]: cache modes and lifetimes, cache
    keys, source bindings, hits, the scope policy, the store port, its
    in-memory implementation and [processDocumentCache].

    The cached data has any type [T].  The store is a class of operations
    that may throw; the callback that parses the document is a computation on
    the same state, since it may itself use the store. *)

From S2P Require Import Prelude JsString JsMap Digest.

(** ** Modes and lifetimes *)

Inductive CacheMode := use | refresh | bypass.

#[export] Instance CacheMode_eq_dec : EqDecision CacheMode.
Proof. solve_decision. Defined.

Definition DEFAULT_CACHE_TTL_SECONDS : Z := 86400.
Definition DEFAULT_CACHE_MODE : CacheMode := use.

Record CacheConfig := {
  defaultTtlSeconds : number;
  operatorMaxTtlSeconds : option number;
  enabled : bool;
  sourceExpirySeconds : option number
}.

#[export] Instance CacheConfig_updatable : Updatable CacheConfig :=
  {| rebuild := λ c, Build_CacheConfig (defaultTtlSeconds c) (operatorMaxTtlSeconds c)
       (enabled c) (sourceExpirySeconds c) |}.

Record ResolvedCacheMode := {
  effectiveMode : CacheMode;
  degraded : bool;
  mode_reason : option string
}.

Definition resolveCacheMode (requested : CacheMode) (config : CacheConfig)
    : ResolvedCacheMode :=
  if negb (enabled config) then
    match requested with
    | use | refresh =>
        {| effectiveMode := bypass; degraded := true;
           mode_reason := Some "Operator disabled cache; degraded to bypass" |}
    | bypass => {| effectiveMode := bypass; degraded := false; mode_reason := None |}
    end
  else {| effectiveMode := requested; degraded := false; mode_reason := None |}.

Definition min_option (x : number) (limit : option number) : number :=
  match limit with Some y => num_min x y | None => x end.

Definition resolveEffectiveTtl (requestedTtlSeconds : option number) (config : CacheConfig)
    : number :=
  let requested := default (defaultTtlSeconds config) requestedTtlSeconds in
  let effective := min_option requested (operatorMaxTtlSeconds config) in
  let effective := min_option effective (sourceExpirySeconds config) in
  num_max effective (int 0).

(** The message of what was thrown; [String(err)] of a value that is neither
    an error nor a string is the runtime's. *)
Definition safeCacheOperation {A} (string_of_other : string) (operation : result A)
    (fallback : A) : A * option string :=
  match operation with
  | Ok a => (a, None)
  | Throw (TGroundlane e) => (fallback, Some (errMessage e))
  | Throw (TCoded _ message) | Throw (TError message) => (fallback, Some message)
  | Throw (TString s) => (fallback, Some s)
  | Throw TOther => (fallback, Some string_of_other)
  end.

(** ** Cache keys *)

Record ParsedPayloadCacheKey := {
  key_ownershipScope : string;
  key_contentHash : string;
  engineId : string;
  key_engineVersion : string;
  modelId : string;
  key_modelVersion : string;
  normalizedOptions : string;
  schemaVersion : string;
  policyVersion : string
}.

#[export] Instance ParsedPayloadCacheKey_eq_dec : EqDecision ParsedPayloadCacheKey.
Proof. solve_decision. Defined.

Definition required (field : string) (v : string) : result unit :=
  throw_if (falsy v) (TError ("Cache key must include " +:+ field)).

Definition validateCacheKey (key : ParsedPayloadCacheKey) : result unit :=
  required "ownershipScope" (key_ownershipScope key);;
  required "contentHash" (key_contentHash key);;
  required "engineId" (engineId key);;
  required "engineVersion" (key_engineVersion key);;
  required "modelId" (modelId key);;
  required "modelVersion" (key_modelVersion key);;
  required "schemaVersion" (schemaVersion key);;
  required "policyVersion" (policyVersion key).

Record KeyBasis := {
  hasContentHash : bool;
  hasUrlOnly : bool;
  hasFilenameOnly : bool;
  hasMimeOnly : bool;
  hasUnverifiedDigest : bool
}.

Definition rejectForbiddenKeyBasis (fields : KeyBasis) : result unit :=
  if hasContentHash fields then Ok tt
  else
    throw_if (hasUrlOnly fields) (TError "Cache key must not rely solely on URL");;
    throw_if (hasFilenameOnly fields) (TError "Cache key must not rely solely on filename");;
    throw_if (hasMimeOnly fields)
      (TError "Cache key must not rely solely on caller-declared MIME");;
    throw_if (hasUnverifiedDigest fields)
      (TError "Cache key must not rely on unverified digest").

Definition validateOwnershipScope (requestScope keyScope : string) : result unit :=
  throw_if (negb (bool_decide (requestScope = keyScope)))
    (TError ("Cross-tenant cache reuse forbidden: request scope " +:+ quoted requestScope +:+
             " does not match key scope " +:+ quoted keyScope)).

(** ** Source bindings *)

Record SourceBinding := {
  bindingId : string;
  bind_sourceIdentity : string;
  bind_payloadId : string;
  bind_ownershipScope : string;
  bind_createdAt : number;
  revoked : bool
}.

#[export] Instance SourceBinding_updatable : Updatable SourceBinding :=
  {| rebuild := λ b, Build_SourceBinding (bindingId b) (bind_sourceIdentity b)
       (bind_payloadId b) (bind_ownershipScope b) (bind_createdAt b) (revoked b) |}.

Record LiveReferenceSet := { set_payloadId : string; set_bindings : list SourceBinding }.

#[export] Instance LiveReferenceSet_updatable : Updatable LiveReferenceSet :=
  {| rebuild := λ s, Build_LiveReferenceSet (set_payloadId s) (set_bindings s) |}.

(** [b.sourceIdentity === source] *)
Definition of_source (source : string) (b : SourceBinding) : bool :=
  bool_decide (bind_sourceIdentity b = source).

(** [bindings.find((b) => b.sourceIdentity === source)] *)
Definition find_binding (source : string) (bs : list SourceBinding) : option SourceBinding :=
  snd <$> list_find (λ b, of_source source b = true) bs.

Definition revokeBinding (referenceSet : LiveReferenceSet) (sourceIdentity : string)
    : LiveReferenceSet :=
  {| set_payloadId := set_payloadId referenceSet;
     set_bindings :=
       (λ b, if of_source sourceIdentity b then b <| revoked := true |> else b)
         <$> set_bindings referenceSet |}.

Definition isPayloadReclaimable (referenceSet : LiveReferenceSet) : bool :=
  forallb revoked (set_bindings referenceSet).

Definition canSourceHitCache (referenceSet : LiveReferenceSet) (sourceIdentity : string) : bool :=
  match find_binding sourceIdentity (set_bindings referenceSet) with
  | Some b => negb (revoked b)
  | None => false
  end.

(** ** Hits *)

Record BillingProvenance := {
  isOriginal : bool;
  originalCost : Z;
  prov_engine : string;
  prov_model : string
}.

Record CacheHitResult := {
  hit_createdAt : number;
  hit_expiresAt : number;
  ageSeconds : number;
  sourceHash : string;
  hit_engineVersion : string;
  hit_modelVersion : string;
  billingProvenance : BillingProvenance
}.

Record InvalidationCheck := {
  engineVersionChanged : bool;
  modelVersionChanged : bool;
  schemaVersionChanged : bool;
  policyVersionChanged : bool;
  sourceDeleted : bool;
  sourceExpired : bool;
  ownershipChanged : bool;
  explicitInvalidation : bool
}.

Definition shouldInvalidate (check : InvalidationCheck) : bool :=
  engineVersionChanged check || modelVersionChanged check || schemaVersionChanged check ||
  policyVersionChanged check || sourceDeleted check || sourceExpired check ||
  ownershipChanged check || explicitInvalidation check.

Definition validateCacheHit (hit : CacheHitResult) : result unit :=
  throw_if (negb (isOriginal (billingProvenance hit)))
    (TError "Cache hit must report original billing provenance, not new execution");;
  throw_if (num_ltb (ageSeconds hit) (int 0))
    (TError "Cache hit ageSeconds must be non-negative");;
  throw_if (num_leb (hit_expiresAt hit) (hit_createdAt hit))
    (TError "Cache hit expiresAt must be after createdAt").

(** ** Scope policy *)

Record CacheScopePolicy := {
  appliesTo : string;
  excludes : list string;
  requiresNetworkPolicyCheck : bool
}.

Definition DEFAULT_CACHE_SCOPE_POLICY : CacheScopePolicy :=
  {| appliesTo := "document"; excludes := ["web_fetch"; "web_extract"; "parse"];
     requiresNetworkPolicyCheck := true |}.

Definition validateCacheScope (toolName : string) (policy : CacheScopePolicy) : bool * string :=
  if bool_decide (toolName ∈ excludes policy)
  then (false, "Tool " +:+ quoted toolName +:+ " is excluded from document processing cache")
  else (true, "Tool is within cache scope").

Definition validateNetworkPolicyRequired (policy : CacheScopePolicy)
    (networkPolicyChecked : bool) : result unit :=
  throw_if (requiresNetworkPolicyCheck policy && negb networkPolicyChecked)
    (TError "URL security/DNS/redirect checks must complete before cache lookup").

(** ** Core and projection keys *)

Record CanonicalCoreKey := {
  core_contentHash : string;
  core_engineVersion : string;
  core_modelVersion : string;
  core_schemaVersion : string;
  core_policyVersion : string;
  normalizedParseOptions : string
}.

Record ProjectionParams := {
  canonicalContentId : string;
  projectionKind : string;
  projectionVersion : string;
  projectionOptions : string
}.

(** A [ProjectionCacheKey] is a core key with more fields. *)
Record ProjectionCacheKey := { proj_core : CanonicalCoreKey; proj_params : ProjectionParams }.

Definition buildCanonicalCoreKey (params : CanonicalCoreKey) : CanonicalCoreKey :=
  {| core_contentHash := core_contentHash params;
     core_engineVersion := core_engineVersion params;
     core_modelVersion := core_modelVersion params;
     core_schemaVersion := core_schemaVersion params;
     core_policyVersion := core_policyVersion params;
     normalizedParseOptions := normalizedParseOptions params |}.

Definition buildProjectionCacheKey (coreKey : CanonicalCoreKey) (params : ProjectionParams)
    : ProjectionCacheKey := {| proj_core := coreKey; proj_params := params |}.

Definition canonicalCoreKeyString (key : CanonicalCoreKey) : string :=
  join ":" [core_contentHash key; core_engineVersion key; core_modelVersion key;
            core_schemaVersion key; core_policyVersion key; normalizedParseOptions key].

Definition projectionCacheKeyString (key : ProjectionCacheKey) : string :=
  let p := proj_params key in
  join ":" [canonicalCoreKeyString (proj_core key); canonicalContentId p; projectionKind p;
            projectionVersion p; projectionOptions p].

(** ** Runtime data *)

Definition MAX_DOCUMENT_CACHE_ENTRIES : Z := 500.
Definition MAX_DOCUMENT_CACHE_KEY_CHARS : Z := 2048.
Definition MAX_SOURCE_IDENTITY_CHARS : Z := 1024.

Record CachePayload (T : Type) := {
  payloadId : string;
  pay_contentHash : string;
  data : T;
  pay_createdAt : number
}.
Arguments Build_CachePayload {T} _ _ _ _.
Arguments payloadId {T} _.
Arguments pay_contentHash {T} _.
Arguments data {T} _.
Arguments pay_createdAt {T} _.

Record DocumentCacheEntry (T : Type) := {
  entry_key : ParsedPayloadCacheKey;
  keyString : string;
  payload : CachePayload T;
  bindings : LiveReferenceSet;
  createdAt : number;
  expiresAt : number;
  provenance : BillingProvenance
}.
Arguments Build_DocumentCacheEntry {T} _ _ _ _ _ _ _.
Arguments entry_key {T} _.
Arguments keyString {T} _.
Arguments payload {T} _.
Arguments bindings {T} _.
Arguments createdAt {T} _.
Arguments expiresAt {T} _.
Arguments provenance {T} _.

#[export] Instance DocumentCacheEntry_updatable {T} : Updatable (DocumentCacheEntry T) :=
  {| rebuild := λ e, Build_DocumentCacheEntry (entry_key e) (keyString e) (payload e)
       (bindings e) (createdAt e) (expiresAt e) (provenance e) |}.

Record DocumentCacheExecution (T : Type) := {
  exec_data : T;
  exec_provenance : BillingProvenance
}.
Arguments Build_DocumentCacheExecution {T} _ _.
Arguments exec_data {T} _.
Arguments exec_provenance {T} _.

Record DocumentCacheIdentity := {
  mode : CacheMode;
  key : ParsedPayloadCacheKey;
  sourceIdentity : string;
  sourceVersion : string;
  ownershipScope : string;
  nowMs : number;
  sourceExpiresAt : option number;
  requestedTtlSeconds : option number;
  toolName : option string;
  networkPolicyChecked : option bool
}.

Definition cacheConfigForIdentity (config : CacheConfig) (identity : DocumentCacheIdentity)
    : CacheConfig :=
  match sourceExpiresAt identity with
  | None => config
  | Some expires =>
      let remainingSeconds :=
        num_max (int 0) (num_floor_div (num_sub expires (nowMs identity)) 1000) in
      config <| sourceExpirySeconds := Some
        (match sourceExpirySeconds config with
         | None => remainingSeconds
         | Some s => num_min s remainingSeconds
         end) |>
  end.

(** [DocumentCacheCommitResult]: an answer that was executed afresh. *)
Record DocumentCacheCommitResult (T : Type) := {
  res_data : T;
  res_provenance : BillingProvenance;
  stored : bool;
  res_createdAt : option number;
  res_expiresAt : option number;
  res_degraded : bool;
  cacheError : option string
}.
Arguments Build_DocumentCacheCommitResult {T} _ _ _ _ _ _ _.
Arguments res_data {T} _.
Arguments res_provenance {T} _.
Arguments stored {T} _.
Arguments res_createdAt {T} _.
Arguments res_expiresAt {T} _.
Arguments res_degraded {T} _.
Arguments cacheError {T} _.

Inductive DocumentCacheProcessResult (T : Type) :=
  | Cached (hit_data : T) (hit : CacheHitResult)
  | Fresh (r : DocumentCacheCommitResult T).
Arguments Cached {T} _ _.
Arguments Fresh {T} _.

Definition result_data {T} (r : DocumentCacheProcessResult T) : T :=
  match r with Cached d _ => d | Fresh r => res_data r end.

Definition cacheRuntimeError (message : string) : thrown :=
  gerror INVALID_INPUT "document-cache" message false.

Definition key_fields (k : ParsedPayloadCacheKey) : list string :=
  [key_ownershipScope k; key_contentHash k; engineId k; key_engineVersion k; modelId k;
   key_modelVersion k; normalizedOptions k; schemaVersion k; policyVersion k].

Definition documentCacheKeyString (k : ParsedPayloadCacheKey) : result string :=
  validateCacheKey k;;
  let raw := join ":" (key_fields k) in
  throw_if (MAX_DOCUMENT_CACHE_KEY_CHARS <? str_length raw)%Z
    (cacheRuntimeError ("Document cache key exceeds " +:+ show MAX_DOCUMENT_CACHE_KEY_CHARS +:+
                        " characters"));;
  Ok raw.

Definition isExcludedTool (tool : option string) : bool :=
  match tool with
  | None => false
  | Some name => negb (validateCacheScope name DEFAULT_CACHE_SCOPE_POLICY).1
  end.

(** ** The store port and its in-memory implementation *)

Class DocumentCacheStorePort (T S : Type) := {
  store_get : string → M S (option (DocumentCacheEntry T));
  store_set : DocumentCacheEntry T → M S unit;
  store_revokeSourceBinding : string → M S unit;
  store_size : M S Z;
  store_sweepExpired : number → M S Z
}.

Record InMemoryDocumentCacheStore (T : Type) := {
  entries : js_map (DocumentCacheEntry T);
  maxEntries : number
}.
Arguments Build_InMemoryDocumentCacheStore {T} _ _.
Arguments entries {T} _.
Arguments maxEntries {T} _.

#[export] Instance InMemoryDocumentCacheStore_updatable {T}
    : Updatable (InMemoryDocumentCacheStore T) :=
  {| rebuild := λ s, Build_InMemoryDocumentCacheStore (entries s) (maxEntries s) |}.

(** [new InMemoryDocumentCacheStore(maxEntries)] *)
Definition new_store {T} (max : option number) : InMemoryDocumentCacheStore T :=
  {| entries := []; maxEntries := default (int MAX_DOCUMENT_CACHE_ENTRIES) max |}.

Section in_memory.
Context {T : Type}.
Implicit Types (m : js_map (DocumentCacheEntry T)) (s : InMemoryDocumentCacheStore T).

(** The loop of [set] over the entries: the oldest creation time so far, and
    the key it was found under. *)
Definition older (acc : option string * number) (kv : string * DocumentCacheEntry T)
    : option string * number :=
  if num_ltb (createdAt kv.2) acc.2 then (Some kv.1, createdAt kv.2) else acc.

Definition oldest_key m : option string := (foldl older (None, PosInf) m).1.

Definition evict_oldest m : js_map (DocumentCacheEntry T) :=
  match oldest_key m with Some k => map_delete k m | None => m end.

Definition cache_set (entry : DocumentCacheEntry T) s : InMemoryDocumentCacheStore T :=
  let full := negb (map_has (keyString entry) (entries s)) &&
              num_leb (maxEntries s) (int (map_count (entries s))) in
  let m := if full then evict_oldest (entries s) else entries s in
  s <| entries := map_set (keyString entry) entry m |>.

Definition has_binding (source : string) (entry : DocumentCacheEntry T) : bool :=
  existsb (of_source source) (set_bindings (bindings entry)).

Definition cache_revoke (source : string) s : InMemoryDocumentCacheStore T :=
  s <| entries := map_each (λ _ entry,
         if has_binding source entry
         then entry <| bindings := revokeBinding (bindings entry) source |>
         else entry) (entries s) |>.

Definition expired_at (nowMs : number) (kv : string * DocumentCacheEntry T) : bool :=
  num_ltb (expiresAt kv.2) nowMs.

Definition cache_sweep (nowMs : number) s : Z * InMemoryDocumentCacheStore T :=
  let kept := filter (λ kv, expired_at nowMs kv = false) (entries s) in
  ((map_count (entries s) - map_count kept)%Z, s <| entries := kept |>).
End in_memory.

#[export] Instance in_memory_port {T} : DocumentCacheStorePort T (InMemoryDocumentCacheStore T) := {
  store_get k := gets (λ s, map_get k (entries s));
  store_set entry := update (cache_set entry);
  store_revokeSourceBinding source := update (cache_revoke source);
  store_size := gets (λ s, map_count (entries s));
  store_sweepExpired nowMs s := let '(n, s') := cache_sweep nowMs s in (Ok n, s')
}.

Definition assertSourceIdentity (source : string) : result unit :=
  throw_if ((str_length source =? 0)%Z || (MAX_SOURCE_IDENTITY_CHARS <? str_length source)%Z)
    (cacheRuntimeError "sourceIdentity must be non-empty and bounded").

(** ** [processDocumentCache] *)

Section process.
Context {T S : Type} `{!DocumentCacheStorePort T S} `{!Sha256Api}.
Implicit Types (config : CacheConfig) (params : DocumentCacheIdentity)
  (entry : DocumentCacheEntry T) (execution : DocumentCacheExecution T).

Definition revokeDocumentSourceBinding (source : string) : M S unit :=
  lift (assertSourceIdentity source);;
  store_revokeSourceBinding source.

Definition buildPayloadId (ks : string) : string := slice_to 32 (sha256 (utf8 ks)).

(** [error instanceof Error ? error.message.slice(0, 500) : fallback] *)
Definition error_text (fallback : string) (error : thrown) : string :=
  match error with
  | TGroundlane e => slice_to 500 (errMessage e)
  | TCoded _ message | TError message => slice_to 500 message
  | _ => fallback
  end.

(** The binding a request makes to a payload. *)
Definition new_binding params (pid : string) : SourceBinding :=
  {| bindingId := "bind-" +:+ sourceIdentity params +:+ "@" +:+ sourceVersion params;
     bind_sourceIdentity := sourceIdentity params;
     bind_payloadId := pid;
     bind_ownershipScope := ownershipScope params;
     bind_createdAt := nowMs params;
     revoked := false |}.

Definition buildEntry params (ks : string) (expires : number) execution
    : DocumentCacheEntry T :=
  let pid := buildPayloadId ks in
  {| entry_key := key params;
     keyString := ks;
     payload := {| payloadId := pid; pay_contentHash := key_contentHash (key params);
                   data := exec_data execution; pay_createdAt := nowMs params |};
     bindings := {| set_payloadId := pid; set_bindings := [new_binding params pid] |};
     createdAt := nowMs params;
     expiresAt := expires;
     provenance := exec_provenance execution |}.

Definition toHitResult entry (now : number) : result CacheHitResult :=
  let hit := {| hit_createdAt := createdAt entry;
                hit_expiresAt := expiresAt entry;
                ageSeconds := num_max (int 0) (num_floor_div (num_sub now (createdAt entry)) 1000);
                sourceHash := key_contentHash (entry_key entry);
                hit_engineVersion := key_engineVersion (entry_key entry);
                hit_modelVersion := key_modelVersion (entry_key entry);
                billingProvenance := provenance entry |} in
  validateCacheHit hit;;
  Ok hit.

(** The literal returned when the document was executed afresh. *)
Definition fresh execution (was_stored : bool) (error : option string)
    : DocumentCacheProcessResult T :=
  Fresh {| res_data := exec_data execution; res_provenance := exec_provenance execution;
           stored := was_stored; res_createdAt := None; res_expiresAt := None;
           res_degraded := false; cacheError := error |}.

Definition degraded_fresh execution : DocumentCacheProcessResult T :=
  Fresh {| res_data := exec_data execution; res_provenance := exec_provenance execution;
           stored := false; res_createdAt := None; res_expiresAt := None;
           res_degraded := true; cacheError := None |}.

(** [{ ...entry, bindings: [...entry.bindings.bindings, binding] }] *)
Definition append_binding params entry : DocumentCacheEntry T :=
  let pid := payloadId (payload entry) in
  entry <| bindings := {| set_payloadId := pid;
                          set_bindings := set_bindings (bindings entry) ++
                                          [new_binding params pid] |} |>.

(** What [refresh] stores in the place of an existing entry. *)
Definition replace_entry params (ks : string) (expires : number) execution entry
    : DocumentCacheEntry T :=
  let pid := payloadId (payload entry) in
  let binding := new_binding params pid in
  let bs := set_bindings (bindings entry) in
  {| entry_key := key params;
     keyString := ks;
     payload := {| payloadId := pid; pay_contentHash := key_contentHash (key params);
                   data := exec_data execution; pay_createdAt := nowMs params |};
     bindings := {| set_payloadId := pid;
                    set_bindings := if has_binding (sourceIdentity params) entry
                      then (λ b, if of_source (sourceIdentity params) b then binding else b) <$> bs
                      else bs ++ [binding] |};
     createdAt := nowMs params;
     expiresAt := expires;
     provenance := exec_provenance execution |}.

(** The checks before any cache access. *)
Definition validateRequest params : result unit :=
  assertSourceIdentity (sourceIdentity params);;
  throw_if (negb (isInteger (nowMs params)) || num_leb (nowMs params) (int 0))
    (cacheRuntimeError "nowMs must be a positive integer");;
  throw_if (match sourceExpiresAt params with
            | Some e => negb (isSafeInteger e) || num_leb e (int 0)
            | None => false
            end)
    (cacheRuntimeError "sourceExpiresAt must be a positive integer");;
  validateCacheKey (key params);;
  validateOwnershipScope (ownershipScope params) (key_ownershipScope (key params));;
  match networkPolicyChecked params with
  | Some false => validateNetworkPolicyRequired DEFAULT_CACHE_SCOPE_POLICY false
  | _ => Ok tt
  end.

Definition request_mode config params : CacheMode :=
  if isExcludedTool (toolName params) then bypass
  else effectiveMode (resolveCacheMode (mode params) (cacheConfigForIdentity config params)).

Definition request_expiry config params : number :=
  num_add (nowMs params)
    (num_scale (resolveEffectiveTtl (requestedTtlSeconds params)
                  (cacheConfigForIdentity config params)) 1000).

Section modes.
Context config params (execute : M S (DocumentCacheExecution T)).

Definition process_bypass : M S (DocumentCacheProcessResult T) :=
  execution ← execute;
  mret (if degraded (resolveCacheMode (mode params) (cacheConfigForIdentity config params))
        then degraded_fresh execution else fresh execution false None).

(** [refresh]: skip the read, execute, and replace. *)
Definition process_refresh (ks : string) : M S (DocumentCacheProcessResult T) :=
  let expires := request_expiry config params in
  execution ← execute;
  written ← attempt (
    existing ← store_get ks;
    store_set (match existing with
               | None => buildEntry params ks expires execution
               | Some entry => replace_entry params ks expires execution entry
               end));
  mret (match written with
        | inl _ => fresh execution true None
        | inr error => fresh execution false (Some (error_text "Cache operation failed" error))
        end).

(** The end of [use]: execute, and write unless the read failed. *)
Definition use_miss (ks : string) (readError : option string)
    : M S (DocumentCacheProcessResult T) :=
  let expires := request_expiry config params in
  execution ← execute;
  match readError with
  | Some error => mret (fresh execution false (Some error))
  | None =>
      written ← attempt (
        existing ← store_get ks;
        match existing with
        | None => store_set (buildEntry params ks expires execution)
        | Some entry =>
            if num_ltb (expiresAt entry) (nowMs params)
            then store_set (buildEntry params ks expires execution)
            else if has_binding (sourceIdentity params) entry then mret tt
            else store_set (append_binding params entry)
        end);
      mret (match written with
            | inl _ => fresh execution true None
            | inr error => fresh execution false (Some (error_text "Cache write failed" error))
            end)
  end.

(** A payload shared by a new source: execute, then append its binding to
    what the store holds by then. *)
Definition use_append (ks : string) : M S (DocumentCacheProcessResult T) :=
  execution ← execute;
  appended ← attempt (
    latest ← store_get ks;
    match latest with
    | Some entry =>
        if num_leb (nowMs params) (expiresAt entry)
        then store_set (append_binding params entry);; mret true
        else mret false
    | None => mret false
    end);
  match appended with
  | inl true => mret (fresh execution true None)
  | inr error => mret (fresh execution false (Some (error_text "Cache write failed" error)))
  | inl false =>
      written ← attempt
        (store_set (buildEntry params ks (request_expiry config params) execution));
      mret (match written with
            | inl _ => fresh execution true None
            | inr error => fresh execution false (Some (error_text "Cache write failed" error))
            end)
  end.

(** The hit [use] finds in an entry: [None] when it does not apply, and the
    validation error when it applies and fails. *)
Definition binding_live entry : bool :=
  match find_binding (sourceIdentity params) (set_bindings (bindings entry)) with
  | Some b => negb (revoked b)
  | None => false
  end.

Definition ownership_ok entry : bool :=
  forallb (λ b, bool_decide (bind_ownershipScope b = ownershipScope params) ||
                negb (of_source (sourceIdentity params) b))
    (set_bindings (bindings entry)).

Definition try_hit entry : option (result CacheHitResult) :=
  if negb (num_ltb (expiresAt entry) (nowMs params)) && binding_live entry && ownership_ok entry
  then Some (validateOwnershipScope (ownershipScope params)
               (key_ownershipScope (entry_key entry));;
             toHitResult entry (nowMs params))
  else None.

Definition process_use (ks : string) : M S (DocumentCacheProcessResult T) :=
  read ← attempt (store_get ks);
  match read with
  | inr error => use_miss ks (Some (error_text "Cache read failed" error))
  | inl None => use_miss ks None
  | inl (Some entry) =>
      match try_hit entry with
      | Some (Ok hit) => mret (Cached (data (payload entry)) hit)
      | tried =>
          let readError :=
            match tried with
            | Some (Throw error) => Some (error_text "Cache hit validation failed" error)
            | _ => None
            end in
          match find_binding (sourceIdentity params) (set_bindings (bindings entry)) with
          | Some b =>
              if revoked b
              then execution ← execute; mret (fresh execution false readError)
              else use_miss ks readError
          | None =>
              if num_ltb (expiresAt entry) (nowMs params) then use_miss ks readError
              else use_append ks
          end
      end
  end.

Definition processDocumentCache : M S (DocumentCacheProcessResult T) :=
  lift (validateRequest params);;
  match request_mode config params with
  | bypass => process_bypass
  | refresh => ks ← lift (documentCacheKeyString (key params)); process_refresh ks
  | use => ks ← lift (documentCacheKeyString (key params)); process_use ks
  end.
End modes.
End process.
