(* ===== verification/DocumentCacheSafety.v ===== *)
(** * Correctness of the document processing cache

    The cache never changes what a request gets, apart from sparing the
    work: its answers are those of fresh executions, whatever its store does;
    hits obey ownership, revocation and expiry; the store keeps its shape and
    its bound. *)

From S2P Require Import Prelude JsString JsMap Digest DocumentCache.

(** ** Key strings

    The fields are joined with colons; all but the normalised options, which
    are JSON, are expected to have none. *)

Definition delimited (k : ParsedPayloadCacheKey) : Prop :=
  Forall colon_free
    [key_ownershipScope k; key_contentHash k; engineId k; key_engineVersion k; modelId k;
     key_modelVersion k; schemaVersion k; policyVersion k].

#[export] Instance delimited_dec k : Decision (delimited k).
Proof. unfold delimited. apply _. Defined.

Lemma chars_join_cons x y (xs : list string) :
  chars (join ":" (x :: y :: xs)) = chars x ++ colon :: chars (join ":" (y :: xs)).
Proof.
  change (join ":" (x :: y :: xs)) with (x +:+ ":" +:+ join ":" (y :: xs)).
  by rewrite !chars_app.
Qed.

Lemma key_string_inj k1 k2 ks :
  delimited k1 → delimited k2 →
  documentCacheKeyString k1 = Ok ks → documentCacheKeyString k2 = Ok ks → k1 = k2.
Proof.
  assert (Hraw : ∀ k, documentCacheKeyString k = Ok ks → join ":" (key_fields k) = ks).
  { intros k (? & _ & (? & _ & [= H])%result_bind_Ok)%result_bind_Ok. exact H. }
  intros D1 D2 H1%Hraw H2%Hraw. rewrite <- H2 in H1. clear H2 Hraw ks.
  destruct k1, k2. unfold delimited, key_fields in *. cbn -[join chars] in *.
  apply (f_equal chars) in H1. rewrite !chars_join_cons in H1.
  decompose_Forall_hyps. unfold colon_free in *.
  do 6 (apply split_front in H1 as [?%chars_inj H1]; [|done..]).
  cbn [join] in H1.
  change (?a ++ colon :: ?b ++ colon :: ?c) with (a ++ (colon :: b) ++ colon :: c) in H1.
  rewrite !app_assoc in H1. apply split_back in H1 as [H1 ?%chars_inj]; [|done..].
  apply split_back in H1 as [?%chars_inj ?%chars_inj]; [|done..]. by subst.
Qed.

(** ** What a request is checked for, and the answer without a cache *)

Section spec.
Context {T : Type}.

Definition request_ok (config : CacheConfig) (params : DocumentCacheIdentity) : result unit :=
  validateRequest params;;
  match request_mode config params with
  | bypass => Ok tt
  | _ => documentCacheKeyString (key params);; Ok tt
  end.

(** The data a request gets. *)
Definition answer (r : result (DocumentCacheProcessResult T)) : result T :=
  match r with Ok r => Ok (result_data r) | Throw e => Throw e end.

(** The reference: the checks, then a fresh execution. *)
Definition uncached (exec : DocumentCacheIdentity → DocumentCacheExecution T) config params
    : result T :=
  request_ok config params;; Ok (exec_data (exec params)).
End spec.

Lemma request_ok_cases config params :
  match request_ok config params with
  | Throw e => validateRequest params = Throw e ∨
               validateRequest params = Ok tt ∧ request_mode config params ≠ bypass ∧
               documentCacheKeyString (key params) = Throw e
  | Ok _ => validateRequest params = Ok tt ∧
            (request_mode config params = bypass ∨
             ∃ ks, documentCacheKeyString (key params) = Ok ks)
  end.
Proof.
  unfold request_ok. destruct (validateRequest params) as [[]|e]; cbn; [|by left].
  destruct (request_mode config params); cbn; [| |by auto];
    destruct (documentCacheKeyString (key params)); cbn; eauto.
Qed.

(** ** Faults of the store

    Any store: its operations may throw, lose or invent entries.  The first
    component of the state counts the executions. *)

Section faults.
Context {T S : Type} `{!Sha256Api} (P : DocumentCacheStorePort T S).

Definition beside {A} (m : M S A) : M (nat * S) A := λ ns,
  let '(r, s) := m ns.2 in (r, (ns.1, s)).

#[local] Instance counted_port : DocumentCacheStorePort T (nat * S) := {
  store_get k := beside (store_get k);
  store_set e := beside (store_set e);
  store_revokeSourceBinding src := beside (store_revokeSourceBinding src);
  store_size := beside store_size;
  store_sweepExpired now := beside (store_sweepExpired now)
}.

Context (execution : DocumentCacheExecution T).

Definition counted_execute : M (nat * S) (DocumentCacheExecution T) := λ ns,
  (Ok execution, (Datatypes.S ns.1, ns.2)).

(** The outcome promised for [n] executions before. *)
Definition served (n : nat) (r : result (DocumentCacheProcessResult T)) (ns : nat * S) : Prop :=
  match r with
  | Ok (Cached _ _) => ns.1 = n
  | Ok (Fresh c) => ns.1 = Datatypes.S n ∧ res_data c = exec_data execution ∧
                    res_provenance c = exec_provenance execution ∧
                    (stored c = true → cacheError c = None)
  | Throw _ => False
  end.

Lemma wp_beside {A B} (m : M S A) (k : A + thrown → M (nat * S) B) Q n s :
  (∀ r s', wp (k r) Q (n, s')) → wp (attempt (beside m) ≫= k) Q (n, s).
Proof.
  intros Hk. apply wp_attempt. unfold wp at 1, beside. cbn. destruct (m s) as [r s']. apply Hk.
Qed.

(** A bracketed block of store operations. *)
Lemma wp_block {A B} (m : M (nat * S) A) (k : A + thrown → M (nat * S) B) Q n s :
  (∀ s0, wp m (λ _ ns, ns.1 = n) (n, s0)) →
  (∀ r s', wp (k r) Q (n, s')) → wp (attempt m ≫= k) Q (n, s).
Proof.
  intros Hm Hk. apply wp_attempt. eapply wp_mono; [apply Hm|]. intros r [n' s'] Hn.
  cbn in Hn. subst. apply Hk.
Qed.

Lemma wp_beside_keeps {A} (m : M S A) n s : wp (beside m) (λ _ ns, ns.1 = n) (n, s).
Proof. unfold wp, beside. cbn. by destruct (m s). Qed.

Lemma wp_beside_then {A B} (m : M S A) (k : A → M (nat * S) B) n s :
  (∀ a s', wp (k a) (λ _ ns, ns.1 = n) (n, s')) →
  wp (beside m ≫= k) (λ _ ns, ns.1 = n) (n, s).
Proof.
  intros Hk. apply wp_bind. unfold wp at 1, beside. cbn. destruct (m s) as [[a|e] s']; [|done].
  apply Hk.
Qed.

Lemma wp_counted_execute {A} (k : DocumentCacheExecution T → M (nat * S) A) Q n s :
  wp (k execution) Q (Datatypes.S n, s) → wp (counted_execute ≫= k) Q (n, s).
Proof. intros Hk. apply wp_bind. exact Hk. Qed.

(** Store operations leave the count alone. *)
Ltac keeps := intros; first
  [ apply wp_beside_keeps | apply wp_beside_then; keeps | case_match; keeps
  | apply wp_ret; reflexivity ].

Lemma use_miss_served config params ks err n s :
  wp (use_miss config params counted_execute ks err) (served n) (n, s).
Proof.
  unfold use_miss. apply wp_counted_execute. destruct err; [by apply wp_ret|].
  apply wp_block; [keeps|intros]. case_match; by apply wp_ret.
Qed.

Lemma use_append_served config params ks n s :
  wp (use_append config params counted_execute ks) (served n) (n, s).
Proof.
  unfold use_append. apply wp_counted_execute. apply wp_block; [keeps|intros].
  case_match; [case_match; [by apply wp_ret|]|by apply wp_ret].
  apply wp_beside. intros. case_match; by apply wp_ret.
Qed.

Lemma process_use_served config params ks n s :
  wp (process_use config params counted_execute ks) (served n) (n, s).
Proof.
  unfold process_use. apply wp_beside. intros [[e|]|err] s'; [|apply use_miss_served..].
  destruct (try_hit params e) as [[hit|err]|]; [by apply wp_ret|..];
    (case_match; [case_match; [apply wp_counted_execute; by apply wp_ret|]|case_match]);
    auto using use_miss_served, use_append_served.
Qed.

Lemma lift_key_string_ok (k : ParsedPayloadCacheKey) ks A (f : string → M (nat * S) A) s :
  documentCacheKeyString k = Ok ks →
  (lift (documentCacheKeyString k) ≫= f) s = f ks s.
Proof. intros E. by rewrite lift_bind, E. Qed.

(** a cache fault never fails a request.  Whatever the store's operations
    do, throw included, a request that passes the checks is answered: by a hit
    without executing anything, or after exactly one execution, with the data
    and the provenance of that execution (and a reported cache error means
    that nothing was stored).  A request that fails the checks throws before
    it executes or touches the store. *)
Theorem cache_faults_never_fail_processing config params n s :
  let run := processDocumentCache config params counted_execute (n, s) in
  match request_ok config params with
  | Throw e => run = (Throw e, (n, s))
  | Ok _ => served n run.1 run.2
  end.
Proof.
  intros run. pose proof (request_ok_cases config params) as Hok. subst run.
  unfold processDocumentCache. rewrite lift_bind.
  destruct (request_ok config params) as [[]|e].
  - destruct Hok as [-> Hks]. destruct (request_mode config params) eqn:Hm.
    + destruct Hks as [?|[ks Hks]]; [done|]. rewrite (lift_key_string_ok _ _ _ _ _ Hks).
      apply process_use_served.
    + destruct Hks as [?|[ks Hks]]; [done|]. rewrite (lift_key_string_ok _ _ _ _ _ Hks).
      change (wp (process_refresh config params counted_execute ks) (served n) (n, s)).
      unfold process_refresh. apply wp_counted_execute. apply wp_block; [keeps|].
      intros. case_match; by apply wp_ret.
    + change (wp (process_bypass config params counted_execute) (served n) (n, s)).
      unfold process_bypass. apply wp_counted_execute. apply wp_ret. by case_match.
  - destruct Hok as [->|(-> & Hm & Hks)]; [done|].
    destruct (request_mode config params); [| |done]; by rewrite lift_bind, Hks.
Qed.
End faults.

(** ** The in-memory store under pure executions *)

Section store.
Context {T : Type} `{!Sha256Api}.
Implicit Types (s : InMemoryDocumentCacheStore T) (e : DocumentCacheEntry T)
  (I : InMemoryDocumentCacheStore T → Prop) (params : DocumentCacheIdentity)
  (ex : DocumentCacheExecution T).

(** The writes of a request keep [I]. *)
Record writes_ok I config params ex (ks : string) : Prop := {
  writes_build s :
    I s → I (cache_set (buildEntry params ks (request_expiry config params) ex) s);
  writes_replace s e : I s → map_get ks (entries s) = Some e →
    I (cache_set (replace_entry params ks (request_expiry config params) ex e) s);
  writes_append s e : I s → map_get ks (entries s) = Some e →
    has_binding (sourceIdentity params) e = false →
    I (cache_set (append_binding params e) s)
}.

(** A request that executes; it changes the store only if it says so. *)
Definition executed ex s (r : result (DocumentCacheProcessResult T)) s' : Prop :=
  ∃ c, r = Ok (Fresh c) ∧ res_data c = exec_data ex ∧ (stored c = false → s' = s).

Lemma executed_stored ex s s' err : executed ex s (Ok (fresh ex true err)) s'.
Proof. by eexists. Qed.

Lemma executed_not_stored ex s err : executed ex s (Ok (fresh ex false err)) s.
Proof. by eexists. Qed.

Lemma find_binding_None source (bs : list SourceBinding) :
  find_binding source bs = None ↔ existsb (of_source source) bs = false.
Proof.
  unfold find_binding. rewrite fmap_None, list_find_None, Forall_forall.
  rewrite <- not_true_iff_false, existsb_exists. setoid_rewrite <- list_elem_of_In. naive_solver.
Qed.

Lemma find_binding_Some source (bs : list SourceBinding) b :
  find_binding source bs = Some b → b ∈ bs ∧ bind_sourceIdentity b = source.
Proof.
  unfold find_binding. intros ([i b'] & (Hi & Hb & _)%list_find_Some & ->)%fmap_Some.
  split; [by eapply list_elem_of_lookup_2|]. by apply bool_decide_eq_true in Hb.
Qed.

#[local] Arguments cache_set : simpl never.
#[local] Arguments buildEntry : simpl never.
#[local] Arguments replace_entry : simpl never.
#[local] Arguments append_binding : simpl never.
#[local] Arguments fresh : simpl never.
#[local] Hint Resolve executed_stored executed_not_stored : core.

Notation run ex := (mret ex : M (InMemoryDocumentCacheStore T) (DocumentCacheExecution T)).

Section request.
Context I config params ex (ks : string) (Hw : writes_ok I config params ex ks).

#[local] Definition on_build := writes_build _ _ _ _ _ Hw.
#[local] Definition on_replace := writes_replace _ _ _ _ _ Hw.
#[local] Definition on_append := writes_append _ _ _ _ _ Hw.
#[local] Hint Resolve on_build on_replace on_append : core.

Notation post s := (λ r s', executed ex s r s' ∧ I s').

Lemma use_miss_keeps err s : I s → wp (use_miss config params (run ex) ks err) (post s) s.
Proof.
  intros Hs. unfold use_miss. destruct err as [err|]; [by apply wp_ret; auto|].
  unfold wp, mbind, M_bind, attempt, mret, M_ret. cbn.
  destruct (map_get ks (entries s)) as [e|] eqn:He; [|by cbn; eauto].
  destruct (num_ltb _ _); [by cbn; eauto|].
  destruct (has_binding _ e) eqn:Hb; cbn; eauto.
Qed.

Lemma use_append_keeps s e :
  I s → map_get ks (entries s) = Some e → has_binding (sourceIdentity params) e = false →
  wp (use_append config params (run ex) ks) (post s) s.
Proof.
  intros Hs He Hb. unfold use_append, wp, mbind, M_bind, attempt, mret, M_ret. cbn.
  rewrite He. destruct (num_leb _ _); cbn; eauto.
Qed.

Lemma process_refresh_keeps s :
  I s → wp (process_refresh config params (run ex) ks) (post s) s.
Proof.
  intros Hs. unfold process_refresh, wp, mbind, M_bind, attempt, mret, M_ret. cbn.
  split; [done|]. destruct (map_get ks (entries s)) as [e|] eqn:He; eauto.
Qed.

(** A hit on an entry of the store. *)
Definition hit_from s (r : result (DocumentCacheProcessResult T)) : Prop :=
  ∃ e hit, map_get ks (entries s) = Some e ∧ try_hit params e = Some (Ok hit) ∧
           r = Ok (Cached (data (payload e)) hit).

Lemma process_use_keeps s :
  I s → wp (process_use config params (run ex) ks)
          (λ r s', I s' ∧ (executed ex s r s' ∨ hit_from s r ∧ s' = s)) s.
Proof.
  intros Hs. unfold process_use. apply wp_attempt. unfold wp at 1. cbn.
  assert (Hor : ∀ m, wp m (post s) s →
    wp m (λ r s', I s' ∧ (executed ex s r s' ∨ hit_from s r ∧ s' = s)) s).
  { intros m Hm. eapply wp_mono; [exact Hm|]. intros r s' [Hr Hs']. auto. }
  destruct (map_get ks (entries s)) as [e|] eqn:He; [|by apply Hor, use_miss_keeps].
  destruct (try_hit params e) as [[hit|err]|] eqn:Hhit;
    [apply wp_ret; split; [done|]; right; split; [by exists e, hit|done]|..];
    apply Hor; (destruct (find_binding _ _) as [b|] eqn:Hf;
      [destruct (revoked b); [apply wp_ret; auto|by apply use_miss_keeps]
      |apply find_binding_None in Hf; destruct (num_ltb _ _); [by apply use_miss_keeps|];
       by eapply use_append_keeps]).
Qed.
End request.

(** A whole request: its checks, then a hit or an execution. *)
Lemma process_keeps I config params ex s :
  (∀ ks, validateRequest params = Ok tt → documentCacheKeyString (key params) = Ok ks →
         writes_ok I config params ex ks) →
  I s →
  wp (processDocumentCache config params (run ex))
    (λ r s', I s' ∧ match request_ok config params with
       | Throw e => r = Throw e ∧ s' = s
       | Ok _ => executed ex s r s' ∨
           ∃ ks, documentCacheKeyString (key params) = Ok ks ∧
                 request_mode config params = use ∧ hit_from params ks s r ∧ s' = s
       end) s.
Proof.
  intros Hw Hs. pose proof (request_ok_cases config params) as Hok.
  unfold processDocumentCache, wp. rewrite lift_bind.
  destruct (request_ok config params) as [[]|err].
  - destruct Hok as [Hv Hks]. rewrite Hv. destruct (request_mode config params) eqn:Hm.
    + destruct Hks as [?|[ks Hks]]; [done|]. rewrite lift_bind, Hks.
      pose proof (process_use_keeps I config params ex ks (Hw ks Hv Hks) s Hs) as [HI Hr].
      split; [done|]. destruct Hr as [?|[? ?]]; [by left|right; eauto].
    + destruct Hks as [?|[ks Hks]]; [done|]. rewrite lift_bind, Hks.
      pose proof (process_refresh_keeps I config params ex ks (Hw ks Hv Hks) s Hs) as [Hr HI].
      split; [done|]. by left.
    + split; [done|]. left. unfold process_bypass, mbind, M_bind, mret, M_ret. cbn.
      case_match; by eexists.
  - destruct Hok as [->|(-> & Hm & Hks)]; [done|].
    destruct (request_mode config params); [| |done]; by rewrite lift_bind, Hks.
Qed.
End store.

(** ** Sequences of requests, revocations and sweeps *)

Inductive command :=
  | CProcess (config : CacheConfig) (params : DocumentCacheIdentity)
  | CRevoke (source : string)
  | CSweep (nowMs : number).

Definition log_entry (T : Type) : Type :=
  CacheConfig * DocumentCacheIdentity * result (DocumentCacheProcessResult T).

Section traces.
Context {T : Type} `{Sha : !Sha256Api} (exec : DocumentCacheIdentity → DocumentCacheExecution T).
Implicit Types (s : InMemoryDocumentCacheStore T) (I : InMemoryDocumentCacheStore T → Prop)
  (e : DocumentCacheEntry T).

Definition run_command (c : command) s : list (log_entry T) * InMemoryDocumentCacheStore T :=
  match c with
  | CProcess config params =>
      let '(r, s') := processDocumentCache config params (mret (exec params)) s in
      ([(config, params, r)], s')
  | CRevoke source => ([], (revokeDocumentSourceBinding source s).2)
  | CSweep now => ([], (cache_sweep now s).2)
  end.

Fixpoint run_commands (cs : list command) s : list (log_entry T) * InMemoryDocumentCacheStore T :=
  match cs with
  | [] => ([], s)
  | c :: cs' =>
      let '(l, s1) := run_command c s in
      let '(l', s2) := run_commands cs' s1 in (l ++ l', s2)
  end.

(** Every command keeps [I]: its writes do, revocations and sweeps do. *)
Record commands_ok I (cs : list command) : Prop := {
  ok_process config params ks : CProcess config params ∈ cs →
    validateRequest params = Ok tt → documentCacheKeyString (key params) = Ok ks →
    writes_ok I config params (exec params) ks;
  ok_revoke s source : I s → I (cache_revoke source s);
  ok_sweep s now : I s → I (cache_sweep now s).2
}.

Lemma commands_ok_tail I c cs : commands_ok I (c :: cs) → commands_ok I cs.
Proof. intros [H1 H2 H3]. split; [|done..]. intros. by apply H1; [right|..]. Qed.

(** What one request does, from a store where [I] holds. *)
Definition outcome_ok I s (le : log_entry T) s' : Prop :=
  let '(config, params, r) := le in
  match request_ok config params with
  | Throw e => r = Throw e ∧ s' = s
  | Ok _ => executed (exec params) s r s' ∨
      ∃ ks, documentCacheKeyString (key params) = Ok ks ∧ request_mode config params = use ∧
            hit_from params ks s r ∧ s' = s
  end.

Lemma run_command_ok I c cs s :
  commands_ok I (c :: cs) → I s →
  I (run_command c s).2 ∧
  Forall (λ le, outcome_ok I s le (run_command c s).2) (run_command c s).1.
Proof.
  intros Hok Hs. destruct c as [config params|source|now]; cbn.
  - assert (H : wp (processDocumentCache config params (mret (exec params)))
      (λ r s', I s' ∧ outcome_ok I s (config, params, r) s') s).
    { apply process_keeps; [|done]. intros. by apply (ok_process _ _ Hok); [left|..]. }
    unfold wp in H. destruct (processDocumentCache _ _ _ _) as [r s']. cbn in *.
    destruct H. split; [done|]. by apply Forall_singleton.
  - split; [|done]. unfold revokeDocumentSourceBinding. rewrite lift_bind.
    destruct (assertSourceIdentity source); [|done]. by apply (ok_revoke _ _ Hok).
  - split; [|done]. by apply (ok_sweep _ _ Hok).
Qed.

Lemma run_commands_ok I cs s :
  commands_ok I cs → I s →
  I (run_commands cs s).2 ∧
  Forall (λ le, ∃ s s', I s ∧ outcome_ok I s le s') (run_commands cs s).1.
Proof.
  revert s. induction cs as [|c cs IH]; intros s Hok Hs; [done|]. cbn.
  pose proof (run_command_ok I c cs s Hok Hs) as [H1 Hl1].
  destruct (run_command c s) as [l s1]. cbn in *.
  destruct (IH s1 (commands_ok_tail _ _ _ Hok) H1) as [H2 Hl2].
  destruct (run_commands cs s1) as [l' s2]. cbn in *. split; [done|].
  apply Forall_app. split; [|done]. eapply Forall_impl; [exact Hl1|]. intros le Hle. by exists s, s1.
Qed.

Lemma run_commands_cons c cs s :
  (run_commands (c :: cs) s).1 =
  (run_command c s).1 ++ (run_commands cs (run_command c s).2).1.
Proof. cbn. destruct (run_command c s). cbn. by destruct (run_commands cs _). Qed.

(** Every logged request is one of the commands. *)
Lemma log_from_commands cs s le :
  le ∈ (run_commands cs s).1 → CProcess le.1.1 le.1.2 ∈ cs.
Proof.
  revert s. induction cs as [|c cs IH]; intros s; [by intros ?%elem_of_nil|]. cbn.
  destruct (run_command c s) as [l s1] eqn:Hrun.
  destruct (run_commands cs s1) as [l' s2] eqn:Hruns. cbn.
  intros [Hin|Hin]%elem_of_app; [|right; apply (IH s1); by rewrite Hruns].
  destruct c; cbn in Hrun; [destruct (processDocumentCache _ _ _ _)|..]; simplify_eq;
    [apply list_elem_of_singleton in Hin as ->; left|by apply elem_of_nil in Hin..].
Qed.

(** ** Invariants that hold of every entry *)

Definition store_all (P : string → DocumentCacheEntry T → Prop) s : Prop :=
  ∀ ks e, map_get ks (entries s) = Some e → P ks e.

Record entry_ok (P : string → DocumentCacheEntry T → Prop) config params ex (ks : string) : Prop := {
  entry_build : P ks (buildEntry params ks (request_expiry config params) ex);
  entry_replace e : P ks e →
    P ks (replace_entry params ks (request_expiry config params) ex e);
  entry_append e : P ks e → has_binding (sourceIdentity params) e = false →
    P ks (append_binding params e)
}.

Lemma store_all_set P e s :
  store_all P s → P (keyString e) e → store_all P (cache_set e s).
Proof.
  intros HP He ks e'. unfold cache_set, evict_oldest. cbn. rewrite map_get_set.
  case_decide; [intros [= <-]; by subst|]. case_match; [|apply HP].
  case_match; [|apply HP]. rewrite map_get_delete. case_decide; [done|]. apply HP.
Qed.

Lemma store_all_writes (P : string → DocumentCacheEntry T → Prop) config params ex ks :
  (∀ ks e, P ks e → keyString e = ks) → entry_ok P config params ex ks →
  writes_ok (store_all P) config params ex ks.
Proof.
  intros Hkey [Hb Hr Ha]. split.
  - intros s Hs. by apply store_all_set.
  - intros s e Hs He%Hs. apply store_all_set; [done|]. by apply Hr.
  - intros s e Hs He%Hs Hn. apply store_all_set; [done|].
    change (keyString (append_binding params e)) with (keyString e).
    rewrite (Hkey _ _ He). by apply Ha.
Qed.

Lemma store_all_revoke P source s :
  (∀ ks e, P ks e → P ks (e <| bindings := revokeBinding (bindings e) source |>)) →
  store_all P s → store_all P (cache_revoke source s).
Proof.
  intros HP Hs ks e. unfold cache_revoke. cbn. rewrite map_get_each.
  intros (e0 & He0%Hs & ->)%fmap_Some. case_match; [by apply HP|done].
Qed.

Lemma store_all_sweep P now s : map_ok (entries s) → store_all P s → store_all P (cache_sweep now s).2.
Proof.
  intros Hok Hs ks e He. apply Hs. unfold cache_sweep in He. cbn in He.
  apply map_get_Some in He.
  - apply map_get_Some; [done|]. by apply list_elem_of_filter in He as [_ He].
  - unfold map_ok, map_keys in *. eapply sublist_NoDup; [exact Hok|].
    apply fmap_sublist, sublist_filter.
Qed.

Lemma map_ok_cache_set e s : map_ok (entries s) → map_ok (entries (cache_set e s)).
Proof.
  intros Hs. unfold cache_set, evict_oldest. cbn. apply map_ok_set.
  case_match; [|done]. case_match; [|done]. by apply map_ok_delete.
Qed.

Definition all_entries (P : string → DocumentCacheEntry T → Prop) s : Prop :=
  store_all P s ∧ map_ok (entries s).

Lemma all_entries_new P max : all_entries P (new_store max).
Proof. split; [done|apply map_ok_nil]. Qed.

Lemma all_entries_ok (P : string → DocumentCacheEntry T → Prop) cs :
  (∀ ks e, P ks e → keyString e = ks) →
  (∀ config params ks, CProcess config params ∈ cs → validateRequest params = Ok tt →
     documentCacheKeyString (key params) = Ok ks → entry_ok P config params (exec params) ks) →
  (∀ source ks e, P ks e → P ks (e <| bindings := revokeBinding (bindings e) source |>)) →
  commands_ok (all_entries P) cs.
Proof.
  intros Hkey He Hr. split.
  - intros config params ks Hin Hv Hks.
    destruct (store_all_writes P config params (exec params) ks Hkey (He _ _ _ Hin Hv Hks))
      as [Hwb Hwr Hwa].
    split; [intros s [Hs Hm]|intros s e [Hs Hm] ?|intros s e [Hs Hm] ? ?];
      (split; [auto|by apply map_ok_cache_set]).
  - intros s source [Hs Hm]. split; [by apply store_all_revoke; [apply Hr|]|].
    change (map_ok (entries (cache_revoke source s))) with
      (map_ok (map_each (λ _ e, if has_binding source e
         then e <| bindings := revokeBinding (bindings e) source |> else e) (entries s))).
    by apply map_ok_each.
  - intros s now [Hs Hm]. split; [by apply store_all_sweep|]. unfold cache_sweep. cbn.
    unfold map_ok, map_keys in *. eapply sublist_NoDup; [exact Hm|].
    apply fmap_sublist, sublist_filter.
Qed.
End traces.

(** ** The cache is transparent *)

Section transparent.
Context {T : Type} `{Sha : !Sha256Api} (exec : DocumentCacheIdentity → DocumentCacheExecution T)
  (cs : list command).

(** A request for the key text [ks]. *)
Definition asks (ks : string) (params : DocumentCacheIdentity) : Prop :=
  (∃ config, CProcess config params ∈ cs) ∧ documentCacheKeyString (key params) = Ok ks.

(** Requests with one key text have one result. *)
Definition key_text_determines : Prop :=
  ∀ ks p1 p2, asks ks p1 → asks ks p2 → exec_data (exec p1) = exec_data (exec p2).

(** An entry holds what executing a request for its key text gives. *)
Definition faithful_entry (ks : string) (e : DocumentCacheEntry T) : Prop :=
  keyString e = ks ∧ ∃ params, asks ks params ∧ data (payload e) = exec_data (exec params).

Lemma faithful_commands : commands_ok exec (all_entries faithful_entry) cs.
Proof.
  apply all_entries_ok; [by intros ? ? []| |by intros ? ? ? (?&?)].
  intros config params ks Hin _ Hks.
  assert (Hasks : asks ks params) by (split; [by exists config|done]).
  split; [split; [done|by exists params]|intros e _; split; [done|by exists params]|].
  intros e (?&?) _. done.
Qed.

Lemma hit_is_faithful s config ks params r :
  key_text_determines → all_entries faithful_entry s → CProcess config params ∈ cs →
  documentCacheKeyString (key params) = Ok ks → hit_from params ks s r →
  answer r = Ok (exec_data (exec params)).
Proof.
  intros Hdet [Hs _] Hin Hks (e & hit & He & _ & ->). destruct (Hs _ _ He) as (_ & p & Hp & Hdata).
  cbn. rewrite Hdata. f_equal. eapply Hdet; [exact Hp|]. split; [by exists config|done].
Qed.
End transparent.

(** What depends on the key alone is determined by its text, when no field but
    the JSON options has a colon. *)
Lemma delimited_keys_determine {T} `{Sha256Api} (f : ParsedPayloadCacheKey → DocumentCacheExecution T) cs :
  (∀ config params, CProcess config params ∈ cs → delimited (key params)) →
  key_text_determines (λ params, f (key params)) cs.
Proof.
  intros Hd ks p1 p2 [[c1 H1] Hk1] [[c2 H2] Hk2].
  by rewrite (key_string_inj _ _ _ (Hd _ _ H1) (Hd _ _ H2) Hk1 Hk2).
Qed.

(** C7: caching is transparent whenever the key text is a sound key: if
    requests with the same key text have the same result, then over any
    sequence of requests in any modes, revocations and sweeps on an in-memory
    store of any size, every request gets exactly the data, or the error, that
    the uncached reference gives.  The text is sound for results determined by
    the fields of the key, as long as no field but the JSON options has a colon
    ([delimited_keys_determine]); otherwise it need not be
    ([colliding_keys_share_a_result]). *)
Theorem cache_is_transparent {T} `{Sha256Api} (exec : DocumentCacheIdentity → DocumentCacheExecution T)
    max cs :
  key_text_determines exec cs →
  Forall (λ '(config, params, r), answer r = uncached exec config params)
    (run_commands exec cs (new_store max)).1.
Proof.
  intros Hdet.
  pose proof (run_commands_ok _ _ cs _ (faithful_commands exec cs)
    (all_entries_new (faithful_entry exec cs) max)) as [_ Hall].
  apply Forall_forall. intros [[config params] r] Hin.
  pose proof (log_from_commands _ _ _ _ Hin) as Hd.
  eapply Forall_forall in Hall as (s & s' & Hs & Hout); [|exact Hin].
  unfold uncached. cbn in Hout. destruct (request_ok config params) as [[]|err].
  - destruct Hout as [(c & -> & Hc & _)|(ks & Hks & _ & Hhit & _)]; [cbn; by rewrite Hc|].
    by eapply hit_is_faithful.
  - by destruct Hout as [-> _].
Qed.

(** ** Revocation *)

Section revocation.
Context {T : Type} `{Sha : !Sha256Api} (exec : DocumentCacheIdentity → DocumentCacheExecution T)
  (src : string).
Implicit Types (s : InMemoryDocumentCacheStore T) (K : list string) (l : list (log_entry T)).

(** Outside the keys [K], no entry has a live binding of [src]. *)
Definition revoked_entry K (ks : string) (e : DocumentCacheEntry T) : Prop :=
  keyString e = ks ∧
  (ks ∉ K → Forall (λ b, bind_sourceIdentity b = src → revoked b = true)
              (set_bindings (bindings e))).

(** [src] executed afresh, and its binding was stored, for key [ks] in [l]. *)
Definition reexecuted l (ks : string) : Prop :=
  ∃ config params c, (config, params, Ok (Fresh c)) ∈ l ∧ sourceIdentity params = src ∧
    documentCacheKeyString (key params) = Ok ks ∧ stored c = true.

Lemma revoked_commands K c :
  match c with
  | CProcess _ params => sourceIdentity params = src →
      ∀ ks, documentCacheKeyString (key params) = Ok ks → ks ∈ K
  | _ => True
  end → commands_ok exec (all_entries (revoked_entry K)) [c].
Proof.
  intros Hc. apply all_entries_ok; [by intros ? ? []|..].
  - intros config params ks Hin%list_elem_of_singleton _ Hks. subst c.
    assert (Hks' : ks ∉ K → sourceIdentity params ≠ src) by naive_solver. split.
    + split; [done|]. intros Hn. apply Forall_singleton. intros ?. by apply Hks' in Hn.
    + intros e [_ He]. split; [done|]. intros Hn. specialize (He Hn). cbn. case_match.
      * apply Forall_fmap. eapply Forall_impl; [exact He|]. intros b Hb. cbn.
        case_match; [|done]. intros ?. by apply Hks' in Hn.
      * apply Forall_app. split; [done|]. apply Forall_singleton. intros ?. by apply Hks' in Hn.
    + intros e [Hk He] _. split; [done|]. intros Hn. apply Forall_app. split; [by apply He|].
      apply Forall_singleton. intros ?. by apply Hks' in Hn.
  - intros source ks e [Hk He]. split; [done|]. intros Hn. cbn. apply Forall_fmap.
    eapply Forall_impl; [by apply He|]. intros b Hb. cbn in *. destruct (of_source source b); [done|exact Hb].
Qed.

Lemma revoked_entry_mono K ks s :
  all_entries (revoked_entry K) s → all_entries (revoked_entry (ks :: K)) s.
Proof.
  intros [Hs Hm]. split; [|done]. intros k e He. destruct (Hs k e He) as [Hk Hb].
  split; [done|]. intros [_ ?]%not_elem_of_cons. auto.
Qed.

Lemma hit_needs_binding K s ks params (r : result (DocumentCacheProcessResult T)) :
  all_entries (revoked_entry K) s → hit_from params ks s r → sourceIdentity params = src →
  ks ∈ K.
Proof.
  intros [Hs _] (e & hit & He & Hhit & _) Hsrc. destruct (decide (ks ∈ K)) as [|Hn]; [done|].
  destruct (Hs ks e He) as [_ Hb]. specialize (Hb Hn). unfold try_hit, binding_live in Hhit.
  destruct (find_binding _ _) as [b|] eqn:Hf; [|by rewrite andb_false_r in Hhit].
  apply find_binding_Some in Hf as [Hin Hbsrc].
  eapply Forall_forall in Hb; [|exact Hin]. rewrite Hb in Hhit by congruence.
  by rewrite andb_false_r in Hhit.
Qed.

(** One request: its effect on the keys that may have a live binding. *)
Lemma revoked_step K config params s :
  all_entries (revoked_entry K) s →
  let '(l, s') := run_command exec (CProcess config params) s in
  ∃ r, l = [(config, params, r)] ∧
    (∀ d h, r = Ok (Cached d h) → sourceIdentity params = src →
       ∃ ks, documentCacheKeyString (key params) = Ok ks ∧ ks ∈ K) ∧
    ∃ K', all_entries (revoked_entry K') s' ∧ (∀ ks, ks ∈ K' → ks ∈ K ∨ reexecuted l ks).
Proof.
  intros HI.
  assert (Htrue : commands_ok exec (λ _ : InMemoryDocumentCacheStore T, True) [CProcess config params]).
  { split; [|done..]. intros. by split. }
  pose proof (run_command_ok exec _ _ _ s Htrue Logic.I) as [_ Hout].
  pose proof (λ K' Hc HI', proj1 (run_command_ok exec _ _ _ s
    (revoked_commands K' (CProcess config params) Hc) HI')) as Hkeep.
  cbn in *. destruct (processDocumentCache _ _ _ _) as [r s'].
  apply Forall_cons in Hout as [Hout _]. cbn in *. exists r. split; [done|]. split.
  { intros d h -> Hsrc. destruct (request_ok config params); [|by destruct Hout as [? _]].
    destruct Hout as [(? & [=] & _)|(ks & Hks & _ & Hhit & _)]. exists ks. split; [done|].
    by eapply hit_needs_binding. }
  destruct (decide (sourceIdentity params = src)) as [Hsrc|Hsrc];
    [|exists K; split; [by apply Hkeep|by left]].
  assert (Hsame : s' = s → ∃ K', all_entries (revoked_entry K') s' ∧
    ∀ ks, ks ∈ K' → ks ∈ K ∨ reexecuted [(config, params, r)] ks).
  { intros ->. exists K. by auto. }
  destruct (request_ok config params); [|by destruct Hout; apply Hsame].
  destruct Hout as [(c & -> & _ & Hst)|(? & _ & _ & _ & ->)]; [|by apply Hsame].
  destruct (stored c) eqn:Hc; [|by apply Hsame, Hst].
  destruct (documentCacheKeyString (key params)) as [ks|] eqn:Hks;
    [|exists K; split; [by apply Hkeep|by left]].
  exists (ks :: K). split.
  - apply Hkeep; [|by apply revoked_entry_mono]. intros _ ? [= ->]. by left.
  - intros k [->|?]%elem_of_cons; [|by left]. right. exists config, params, c.
    split_and!; [by left|done..].
Qed.

Lemma reexecuted_app l l' ks : reexecuted l ks ∨ reexecuted l' ks → reexecuted (l ++ l') ks.
Proof. intros [(? & ? & ? & Hin & ?)|(? & ? & ? & Hin & ?)]; do 3 eexists; rewrite elem_of_app; eauto. Qed.

Lemma revoked_run K cs s config params d h l1 l2 :
  all_entries (revoked_entry K) s → sourceIdentity params = src →
  (run_commands exec cs s).1 = l1 ++ (config, params, Ok (Cached d h)) :: l2 →
  ∃ ks, documentCacheKeyString (key params) = Ok ks ∧ (ks ∈ K ∨ reexecuted l1 ks).
Proof.
  intros HI Hsrc. revert K s l1 HI. induction cs as [|c cs IH]; intros K s l1 HI Hlog;
    [by destruct l1|]. rewrite run_commands_cons in Hlog.
  assert (Hother : commands_ok exec (all_entries (revoked_entry K)) [c] →
    (run_command exec c s).1 = [] →
    ∃ ks, documentCacheKeyString (key params) = Ok ks ∧ (ks ∈ K ∨ reexecuted l1 ks)).
  { intros Hc Hnil. rewrite Hnil in Hlog. eapply IH; [|exact Hlog].
    by apply (run_command_ok exec _ _ _ s Hc HI). }
  destruct c as [config0 params0|source|now];
    [|by apply Hother; [apply revoked_commands|]..].
  pose proof (revoked_step K config0 params0 s HI) as Hstep.
  destruct (run_command _ _ s) as [l s1]. cbn [fst snd] in Hlog.
  destruct Hstep as (r & -> & Hhit & K' & HI' & HK').
  destruct l1 as [|x l1]; injection Hlog; intros; subst.
  - destruct (Hhit d h eq_refl Hsrc) as (ks & ? & ?). by eauto.
  - destruct (IH K' s1 l1 HI') as (ks & Hks & Hor); [done|].
    exists ks. split; [done|].
    destruct Hor as [Hin|?]; [destruct (HK' _ Hin) as [?|?]; [by left|]|]; right;
      apply (reexecuted_app [_] l1); by auto.
Qed.

Lemma keyed_commands cs :
  commands_ok exec (all_entries (λ ks (e : DocumentCacheEntry T), keyString e = ks)) cs.
Proof. apply all_entries_ok; [done|by split|done]. Qed.

Lemma revoke_revokes s :
  all_entries (λ ks e, keyString e = ks) s → all_entries (revoked_entry []) (cache_revoke src s).
Proof.
  intros [Hs Hm]. split; [|by apply map_ok_each]. intros ks e. unfold cache_revoke. cbn.
  rewrite map_get_each. intros (e0 & He0 & ->)%fmap_Some. split; [case_match; by apply (Hs _ e0)|].
  intros _. destruct (has_binding src e0) eqn:Hb; cbn.
  - apply Forall_fmap, Forall_true. intros b. cbn. unfold of_source. case_match; [done|].
    by reflect.
  - apply Forall_forall. intros b Hin Hbsrc. apply not_true_iff_false in Hb. destruct Hb.
    apply existsb_exists. exists b. rewrite <- list_elem_of_In. split; [done|].
    by apply bool_decide_eq_true.
Qed.
End revocation.

(** a revoked source is not served from the cache.  In any store reached
    by requests, revocations and sweeps, once [revokeDocumentSourceBinding]
    has revoked a source, no later request of that source is a hit unless,
    after the revocation, a request of the same source with the same cache key
    executed the document afresh and stored its binding. *)
Theorem revoked_source_reexecutes {T} `{Sha256Api}
    (exec : DocumentCacheIdentity → DocumentCacheExecution T) src max cs0 s cs l1 l2 config params d h :
  revokeDocumentSourceBinding src (run_commands exec cs0 (new_store max)).2 = (Ok tt, s) →
  (run_commands exec cs s).1 = l1 ++ (config, params, Ok (Cached d h)) :: l2 →
  sourceIdentity params = src →
  ∃ ks, documentCacheKeyString (key params) = Ok ks ∧ reexecuted src l1 ks.
Proof.
  intros Hrev Hlog Hsrc.
  assert (HI : all_entries (revoked_entry src []) s).
  { unfold revokeDocumentSourceBinding in Hrev. rewrite lift_bind in Hrev.
    destruct (assertSourceIdentity src); [|done]. injection Hrev as <-. apply revoke_revokes.
    by apply (run_commands_ok exec _ _ _ (keyed_commands exec cs0)), all_entries_new. }
  destruct (revoked_run exec src [] cs s config params d h l1 l2 HI Hsrc Hlog)
    as (ks & Hks & [?%elem_of_nil|?]); [done|]. by exists ks.
Qed.

(** ** When a request is a hit *)

Section hits.
Context {T : Type} `{Sha : !Sha256Api}.
Implicit Types (s : InMemoryDocumentCacheStore T) (params : DocumentCacheIdentity).

Definition not_cached (r : result (DocumentCacheProcessResult T)) : Prop :=
  ∀ d h, r ≠ Ok (Cached d h).

Ltac run_cases := unfold wp, mbind, M_bind, attempt, mret, M_ret; cbn;
  repeat (case_match; simplify_eq; cbn); try done.

Context (config : CacheConfig) params (execute : M (InMemoryDocumentCacheStore T) (DocumentCacheExecution T)).

Lemma use_miss_not_cached ks err s :
  wp (use_miss config params execute ks err) (λ r _, not_cached r) s.
Proof. unfold use_miss. run_cases. Qed.

Lemma use_append_not_cached ks s :
  wp (use_append config params execute ks) (λ r _, not_cached r) s.
Proof. unfold use_append. run_cases. Qed.

Lemma process_use_cached ks s d h s' :
  process_use config params execute ks s = (Ok (Cached d h), s') →
  s' = s ∧ ∃ e, map_get ks (entries s) = Some e ∧ try_hit params e = Some (Ok h) ∧
                d = data (payload e).
Proof.
  intros Hrun.
  assert (Hno : ∀ (m : M (InMemoryDocumentCacheStore T) _), wp m (λ r _, not_cached r) s →
    m s ≠ (Ok (Cached d h), s')).
  { intros m Hm Heq. unfold wp in Hm. rewrite Heq in Hm. by apply (Hm d h). }
  unfold process_use in Hrun. unfold attempt in Hrun. cbn in Hrun. unfold mbind, M_bind in Hrun.
  cbn in Hrun.
  destruct (map_get ks (entries s)) as [e|]; [|by destruct (Hno _ (use_miss_not_cached _ _ _) Hrun)].
  destruct (try_hit params e) as [[hit|err]|] eqn:Hhit;
    [injection Hrun as <- <- <-; by eauto|..];
    (destruct (find_binding _ _) as [b|];
      [destruct (revoked b)|destruct (num_ltb _ _)];
      try (by destruct (Hno _ (use_miss_not_cached _ _ _) Hrun));
      try (by destruct (Hno _ (use_append_not_cached _ _) Hrun));
      by destruct (execute s) as [[] ?]).
Qed.

Lemma try_hit_spec (e : DocumentCacheEntry T) h :
  try_hit params e = Some (Ok h) ↔
  num_ltb (expiresAt e) (nowMs params) = false ∧
  (∃ b, find_binding (sourceIdentity params) (set_bindings (bindings e)) = Some b ∧
        revoked b = false) ∧
  ownership_ok params e = true ∧
  key_ownershipScope (entry_key e) = ownershipScope params ∧
  toHitResult e (nowMs params) = Ok h.
Proof.
  unfold try_hit, binding_live, validateOwnershipScope.
  destruct (num_ltb _ _); cbn; [naive_solver|].
  destruct (find_binding _ _) as [b|]; cbn; [|naive_solver].
  destruct (revoked b) eqn:Hb; cbn.
  { split; [done|]. intros (_ & (b' & [= <-] & ?) & _). congruence. }
  destruct (ownership_ok params e); cbn; [|naive_solver].
  case_bool_decide as Hs; cbn.
  - split; [intros [= ->]|by intros (_ & _ & _ & _ & ->)]. split_and!; eauto.
  - split; [done|]. intros (_ & _ & _ & ? & _). congruence.
Qed.

(** when a request is served from the cache.  A request is a hit exactly
    when it passes the checks, its mode comes to [use] (cache enabled, tool
    not excluded), and the entry stored under its key has not expired, has a
    binding of its source that is not revoked, all of its source's bindings
    are of its tenant, the entry's key is of its tenant, and the hit's own
    validation succeeds.  The answer is then the stored payload, and neither
    the store changes nor the document is executed. *)
Theorem cache_hit_iff s d h s' :
  processDocumentCache config params execute s = (Ok (Cached d h), s') ↔
  s' = s ∧ validateRequest params = Ok tt ∧ request_mode config params = use ∧
  ∃ ks e, documentCacheKeyString (key params) = Ok ks ∧
    map_get ks (entries s) = Some e ∧ d = data (payload e) ∧
    num_ltb (expiresAt e) (nowMs params) = false ∧
    (∃ b, find_binding (sourceIdentity params) (set_bindings (bindings e)) = Some b ∧
          revoked b = false) ∧
    ownership_ok params e = true ∧
    key_ownershipScope (entry_key e) = ownershipScope params ∧
    toHitResult e (nowMs params) = Ok h.
Proof.
  unfold processDocumentCache. rewrite lift_bind.
  destruct (validateRequest params) as [[]|err]; [|naive_solver].
  destruct (request_mode config params).
  - rewrite lift_bind. destruct (documentCacheKeyString (key params)) as [ks|err]; [|naive_solver].
    split.
    + intros (-> & e & He & Hhit%try_hit_spec & ->)%process_use_cached.
      do 3 (split; [done|]). exists ks, e. naive_solver.
    + intros (-> & _ & _ & ks' & e & [= <-] & He & -> & Hhit).
      apply try_hit_spec in Hhit. unfold process_use, attempt, mbind, M_bind. cbn.
      by rewrite He, Hhit.
  - split; [|naive_solver]. rewrite lift_bind.
    destruct (documentCacheKeyString (key params)) as [ks|err]; [|done].
    intros Hrun. exfalso. revert Hrun. unfold process_refresh. run_cases.
  - split; [|naive_solver]. intros Hrun. exfalso. revert Hrun. unfold process_bypass. run_cases.
Qed.
End hits.

(** ** The shape and the bound of the store *)

Section shape.
Context {T : Type} `{Sha : !Sha256Api} (exec : DocumentCacheIdentity → DocumentCacheExecution T).
Implicit Types (s : InMemoryDocumentCacheStore T) (e : DocumentCacheEntry T)
  (m : js_map (DocumentCacheEntry T)).

Definition entry_wf (ks : string) e : Prop :=
  keyString e = ks ∧ documentCacheKeyString (entry_key e) = Ok ks ∧
  payloadId (payload e) = buildPayloadId ks ∧
  pay_contentHash (payload e) = key_contentHash (entry_key e) ∧
  set_payloadId (bindings e) = buildPayloadId ks ∧
  Forall (λ b, bind_payloadId b = buildPayloadId ks) (set_bindings (bindings e)) ∧
  NoDup (bind_sourceIdentity <$> set_bindings (bindings e)) ∧
  isInteger (createdAt e) = true.

(** The scan of [set] finds an entry none is older than. *)
Lemma older_spec m k0 (e0 : DocumentCacheEntry T) :
  Forall (λ kv, isInteger (createdAt kv.2) = true) m → isInteger (createdAt e0) = true →
  ∃ k e, foldl older (Some k0, createdAt e0) m = (Some k, createdAt e) ∧
    (k, e) ∈ (k0, e0) :: m ∧
    Forall (λ kv, num_ltb (createdAt kv.2) (createdAt e) = false) ((k0, e0) :: m).
Proof.
  revert k0 e0. induction m as [|[k1 e1] m IH]; intros k0 e0 Hm He0.
  - exists k0, e0. split_and!; [done|left|]. apply Forall_singleton. cbn.
    rewrite num_ltb_integer by done. apply Z.ltb_irrefl.
  - apply Forall_cons in Hm as [He1 Hm]. cbn in He1. cbn [foldl]. unfold older at 2. cbn [fst snd].
    destruct (num_ltb (createdAt e1) (createdAt e0)) eqn:Hlt.
    + destruct (IH k1 e1 Hm He1) as (k & e & -> & Hin & Hall). exists k, e.
      split_and!; [done|by right|]. apply Forall_cons. split; [|done]. cbn.
      apply Forall_cons in Hall as [H1 Hall]. cbn in H1.
      apply elem_of_cons in Hin as [[= -> ->]|Hin].
      * rewrite num_ltb_integer in Hlt |- * by done. reflect. by apply Z.ltb_ge; lia.
      * pose proof (proj1 (Forall_forall _ _) Hm _ Hin) as He. cbn in He.
        rewrite num_ltb_integer in Hlt, H1 |- * by done. reflect. apply Z.ltb_ge. lia.
    + destruct (IH k0 e0 Hm He0) as (k & e & -> & Hin & Hall). exists k, e.
      apply Forall_cons in Hall as [H0 Hall]. cbn in H0.
      assert (He : isInteger (createdAt e) = true).
      { apply elem_of_cons in Hin as [[= -> ->]|Hin]; [done|].
        exact (proj1 (Forall_forall _ _) Hm _ Hin). }
      split_and!; [done|set_solver|]. repeat (apply Forall_cons; split); [done| |done]. cbn.
      rewrite num_ltb_integer in Hlt, H0 |- * by done. reflect. apply Z.ltb_ge. lia.
Qed.

Lemma oldest_key_spec m :
  Forall (λ kv, isInteger (createdAt kv.2) = true) m → m ≠ [] →
  ∃ k e, oldest_key m = Some k ∧ (k, e) ∈ m ∧
    Forall (λ kv, num_ltb (createdAt kv.2) (createdAt e) = false) m.
Proof.
  intros Hm Hne. destruct m as [|[k0 e0] m]; [done|]. apply Forall_cons in Hm as [He0 Hm].
  cbn in He0. unfold oldest_key. cbn [foldl]. unfold older at 2. cbn [fst snd].
  replace (num_ltb (createdAt e0) PosInf) with true by (by destruct (createdAt e0)).
  destruct (older_spec m k0 e0 Hm He0) as (k & e & -> & Hin & Hall). by exists k, e.
Qed.

Lemma map_count_delete_lt {V} k (v : V) (m : js_map V) :
  (k, v) ∈ m → (map_count (map_delete k m) < map_count m)%Z.
Proof.
  unfold map_count. induction m as [|[k1 v1] m IH]; [by intros ?%elem_of_nil|].
  cbn [map_delete length]. pose proof (map_count_delete k m) as Hle. unfold map_count in Hle.
  intros [[= -> ->]|Hin]%elem_of_cons; [rewrite decide_True by done; lia|].
  specialize (IH Hin). case_decide; cbn [length]; lia.
Qed.

Definition bounded (n : Z) s : Prop :=
  all_entries entry_wf s ∧ maxEntries s = int n ∧ (map_count (entries s) ≤ Z.max 1 n)%Z.

Lemma bounded_set n e s :
  bounded n s → all_entries entry_wf (cache_set e s) → bounded n (cache_set e s).
Proof.
  intros ((Hs & Hm) & Hmax & Hcount) Hall. split; [done|]. split; [done|].
  unfold cache_set. cbn [entries modify]. rewrite Hmax, num_leb_int.
  change (map_count (map_set (keyString e) e
    (if negb (map_has (keyString e) (entries s)) && (n <=? map_count (entries s))%Z
     then evict_oldest (entries s) else entries s)) ≤ Z.max 1 n)%Z.
  rewrite map_count_set. unfold map_has. case_bool_decide as Hhas; cbn.
  - destruct (map_get _ _); [lia|done].
  - destruct (Z.leb_spec n (map_count (entries s))) as [Hfull|]; [|case_match; lia].
    assert (Hint : Forall (λ kv, isInteger (createdAt kv.2) = true) (entries s)).
    { apply Forall_forall. intros [k e'] Hin. apply map_get_Some in Hin; [|done].
      by apply Hs in Hin as (?&?&?&?&?&?&?&?). }
    destruct (decide (entries s = [])) as [Hnil|Hne].
    + rewrite Hnil in *. cbn in *. unfold map_count in *. cbn in *. lia.
    + destruct (oldest_key_spec _ Hint Hne) as (k & e' & Hk & Hin & _).
      unfold evict_oldest. rewrite Hk.
      pose proof (map_count_delete_lt k e' (entries s) Hin). case_match; lia.
Qed.

Lemma NoDup_sources_snoc (bs : list SourceBinding) b :
  NoDup (bind_sourceIdentity <$> bs) → existsb (of_source (bind_sourceIdentity b)) bs = false →
  NoDup (bind_sourceIdentity <$> (bs ++ [b])).
Proof.
  intros Hbs Hnone. rewrite fmap_app. apply NoDup_app. split_and!; [done| |apply NoDup_singleton].
  intros x (b' & -> & Hin)%list_elem_of_fmap Heq%list_elem_of_singleton. cbn in Heq.
  apply not_true_iff_false in Hnone. apply Hnone, existsb_exists. exists b'.
  rewrite <- list_elem_of_In. split; [done|]. by apply bool_decide_eq_true.
Qed.

Lemma entry_wf_replace config params ex ks e :
  validateRequest params = Ok tt → documentCacheKeyString (key params) = Ok ks →
  isInteger (nowMs params) = true → entry_wf ks e →
  entry_wf ks (replace_entry params ks (request_expiry config params) ex e).
Proof.
  intros Hv Hks Hint (?&?&Hp&?&?&Hb&Hn&?). unfold entry_wf, replace_entry, has_binding. cbn.
  split_and!; try done.
  - case_match.
    + apply Forall_fmap. eapply Forall_impl; [exact Hb|]. intros b ?. cbn. by case_match.
    + apply Forall_app. split; [done|]. by apply Forall_singleton.
  - case_match eqn:Hhas.
    + rewrite <- list_fmap_compose. erewrite list_fmap_ext; [exact Hn|]. intros i b _. cbn.
      unfold of_source. case_bool_decide; [by subst|done].
    + by apply NoDup_sources_snoc.
Qed.

Lemma bounded_commands n cs : commands_ok exec (bounded n) cs.
Proof.
  assert (Hall : commands_ok exec (all_entries entry_wf) cs).
  { apply all_entries_ok; [by intros ? ? []|..].
    - intros config params ks _ Hv Hks.
      assert (Hint : isInteger (nowMs params) = true).
      { unfold validateRequest in Hv. apply result_bind_Ok in Hv as (_ & _ & Hv).
        apply result_bind_Ok in Hv as ([] & Hv%throw_if_Ok & _). by reflect. }
      split.
      + split_and!; try done; [by apply Forall_singleton|apply NoDup_singleton].
      + intros e He. by apply entry_wf_replace.
      + intros e (?&?&?&?&?&?&?&?) Hnone. split_and!; try done.
        * apply Forall_app. split; [done|]. by apply Forall_singleton.
        * by apply NoDup_sources_snoc.
    - intros source ks e (?&?&?&?&?&Hb&Hn&?). split_and!; try done; cbn.
      + apply Forall_fmap. eapply Forall_impl; [exact Hb|]. intros b ?. cbn. by case_match.
      + rewrite <- list_fmap_compose. erewrite list_fmap_ext; [exact Hn|]. intros i b _. cbn.
        by case_match. }
  destruct Hall as [Hp Hr Hs]. split.
  - intros config params ks Hin Hv Hks. destruct (Hp _ _ _ Hin Hv Hks) as [Hb Hre Ha].
    split; [intros s Hs'|intros s e Hs' ?|intros s e Hs' ? ?];
      (apply bounded_set; [done|]); destruct Hs' as [Hs' _];
      [by apply Hb|by apply Hre|by apply Ha].
  - intros s source (Ha & Hm & Hc). split_and!; [by apply Hr|done|]. unfold map_count in *.
    cbn. unfold map_each. by rewrite length_fmap.
  - intros s now (Ha & Hm & Hc). split_and!; [by apply Hs|done|]. unfold map_count in *.
    etrans; [|exact Hc]. apply inj_le, length_filter.
Qed.

(** the in-memory store keeps its shape and its bound.  After any sequence
    of requests, revocations and sweeps there are at most [maxEntries] entries
    (one, if the bound is less), no key twice, and every entry is stored under
    the key string of its key, its payload and all its bindings carry the
    payload identifier derived from that key, its content hash is the key's,
    and no source is bound to it twice. *)
Theorem cache_store_well_formed n cs :
  bounded n (run_commands exec cs (new_store (Some (int n)))).2.
Proof.
  apply (run_commands_ok exec _ _ _ (bounded_commands n cs)).
  split; [apply all_entries_new|]. split; [done|]. unfold map_count. cbn [entries new_store length]. lia.
Qed.
End shape.

(** ** A concrete run *)

Module Demo.
Definition config : CacheConfig :=
  {| defaultTtlSeconds := int DEFAULT_CACHE_TTL_SECONDS; operatorMaxTtlSeconds := None;
     enabled := true; sourceExpirySeconds := None |}.
Definition the_key : ParsedPayloadCacheKey :=
  {| key_ownershipScope := "tenant"; key_contentHash := "sha256-00"; engineId := "groundlane";
     key_engineVersion := "1"; modelId := "none"; key_modelVersion := "none";
     normalizedOptions := "a:b"; schemaVersion := "canonical-document-v1";
     policyVersion := "document-policy-v1" |}.
Definition request (m : CacheMode) (src : string) (now : Z) : DocumentCacheIdentity :=
  {| mode := m; key := the_key; sourceIdentity := src; sourceVersion := "1";
     ownershipScope := "tenant"; nowMs := int now; sourceExpiresAt := None;
     requestedTtlSeconds := None; toolName := None; networkPolicyChecked := None |}.
Definition parse (k : ParsedPayloadCacheKey) : DocumentCacheExecution string :=
  {| exec_data := "parsed " +:+ key_contentHash k;
     exec_provenance := {| isOriginal := true; originalCost := 3; prov_engine := "groundlane";
                           prov_model := "none" |} |}.
Definition exec (params : DocumentCacheIdentity) := parse (key params).
#[export] Instance digest : Sha256Api := zero_digest.

Definition outcomes (l : list (log_entry string)) : list (option bool) :=
  (λ '(_, _, r), match r with Ok (Cached _ _) => Some true | Ok _ => Some false | _ => None end) <$> l.

(** Miss, hit, a second source, revocation of the first, then its refresh. *)
Definition before : list command :=
  [CProcess config (request use "a" 1000); CProcess config (request use "a" 2000);
   CProcess config (request use "b" 3000)].
Definition after : list command :=
  [CProcess config (request use "a" 4000); CProcess config (request use "b" 4000);
   CProcess config (request refresh "a" 5000); CProcess config (request use "a" 6000)].

Example demo_outcomes :
  outcomes (run_commands exec (before ++ [CRevoke "a"] ++ after) (new_store None)).1 =
  [Some false; Some true; Some false; Some false; Some true; Some false; Some true].
Proof. vm_compute. reflexivity. Qed.
End Demo.

#[local] Existing Instance Demo.digest.

Lemma cache_is_transparent_witness :
  key_text_determines Demo.exec (Demo.before ++ Demo.after) ∧
  Forall (λ '(config, params, r), answer r = uncached Demo.exec config params)
    (run_commands Demo.exec (Demo.before ++ Demo.after) (new_store None)).1.
Proof.
  assert (H : key_text_determines Demo.exec (Demo.before ++ Demo.after)).
  { apply (delimited_keys_determine Demo.parse). intros config params Hin.
    repeat (apply elem_of_cons in Hin as [[= -> ->]|Hin];
      [by apply (bool_decide_eq_true_1 _); vm_compute|]). by apply elem_of_nil in Hin. }
  split; [exact H|]. exact (cache_is_transparent Demo.exec None _ H).
Defined.

(** Keys whose fields have colons may have one text: the second request, for
    another engine, is given the result of the first. *)
Lemma colliding_keys_share_a_result :
  let ask engine version := {| mode := use; key := {| key_ownershipScope := "tenant"; key_contentHash := "sha256-00";
    engineId := engine; key_engineVersion := version; modelId := "none"; key_modelVersion := "none";
    normalizedOptions := "{}"; schemaVersion := "1"; policyVersion := "1" |}; sourceIdentity := "a"; sourceVersion := "1";
    ownershipScope := "tenant"; nowMs := int 1000; sourceExpiresAt := None; requestedTtlSeconds := None;
    toolName := None; networkPolicyChecked := None |} in
  let by_engine params := {| exec_data := engineId (key params); exec_provenance := exec_provenance (Demo.exec params) |} in
  (λ '(_, _, r), answer r) <$>
    (run_commands by_engine [CProcess Demo.config (ask "ocr:fast" "2"%string); CProcess Demo.config (ask "ocr" "fast:2"%string)]
      (new_store None)).1 = [Ok "ocr:fast"%string; Ok "ocr:fast"%string].
Proof. vm_compute. reflexivity. Qed.

Lemma revoked_source_reexecutes_witness :
  let s0 := (run_commands Demo.exec Demo.before (new_store None)).2 in
  let s := (revokeDocumentSourceBinding "a" s0).2 in
  let log := (run_commands Demo.exec Demo.after s).1 in
  ∃ ks, documentCacheKeyString (key (Demo.request use "a" 6000)) = Ok ks ∧
        reexecuted "a" (take 3 log) ks.
Proof.
  intros s0 s log.
  assert (Hlog : ∃ h, log = take 3 log ++
    [(Demo.config, Demo.request use "a" 6000, Ok (Cached "parsed sha256-00" h))]).
  { eexists. vm_compute. reflexivity. }
  destruct Hlog as [h Hlog].
  apply (revoked_source_reexecutes Demo.exec "a" None Demo.before s Demo.after (take 3 log) []
           Demo.config (Demo.request use "a" 6000) "parsed sha256-00" h);
    [vm_compute; reflexivity|exact Hlog|reflexivity].
Defined.
