(* ===== verification/DurableDocumentCache.v ===== *)
(** * The durable document cache

    [src/core/durable-document-cache.ts]: the document cache over the durable
    record store, shared by several processes.  A payload has one core record;
    each source that may read it has a binding record, and an index record
    that lists the source's bindings and carries its revocation.  The payload
    itself is inline or in the blob store.  Every operation is a computation
    on the state behind the store's interface, call by call, so that other
    parties may act between two calls.

    [payloads] is the optional blob store.  A number that is not an integer is
    encoded as [null]: such a record never passes the store's checks, since
    the same number is its expiry. *)

From S2P Require Import Prelude JsString JsMap Digest Json DurableStore DocumentCache.

(** ** Records *)

Definition DEFAULT_CAS_ATTEMPTS : Z := 8.
Definition MAX_SOURCE_BINDINGS : Z := 128.

Record PayloadBlobRef := { ref_blobKey : string; ref_digest : string; ref_byteSize : Z }.

#[export] Instance PayloadBlobRef_eq_dec : EqDecision PayloadBlobRef.
Proof. solve_decision. Defined.

(** [data] is inline, or [payloadBlob] says where it is. *)
Record DurableCacheCore := {
  core_key : ParsedPayloadCacheKey;
  core_keyString : string;
  core_payloadId : string;
  core_data : option js_value;
  payloadBlob : option PayloadBlobRef;
  core_provenance : BillingProvenance;
  core_createdAt : number;
  core_expiresAt : number
}.

Record DurableSourceBinding := {
  db_coreRecordKey : string;
  db_sourceIdentity : string;
  db_sourceVersion : string;
  db_ownershipScope : string;
  db_createdAt : number;
  db_expiresAt : number;
  db_revoked : bool
}.

#[export] Instance DurableSourceBinding_updatable : Updatable DurableSourceBinding :=
  {| rebuild := λ b, Build_DurableSourceBinding (db_coreRecordKey b) (db_sourceIdentity b)
       (db_sourceVersion b) (db_ownershipScope b) (db_createdAt b) (db_expiresAt b)
       (db_revoked b) |}.

Record DurableSourceBindingIndex := {
  ix_ownershipScope : string;
  ix_sourceIdentity : string;
  ix_bindingKeys : list string;
  ix_createdAt : number;
  ix_updatedAt : number;
  ix_expiresAt : number;
  ix_revoked : bool
}.

#[export] Instance DurableSourceBindingIndex_updatable : Updatable DurableSourceBindingIndex :=
  {| rebuild := λ i, Build_DurableSourceBindingIndex (ix_ownershipScope i) (ix_sourceIdentity i)
       (ix_bindingKeys i) (ix_createdAt i) (ix_updatedAt i) (ix_expiresAt i) (ix_revoked i) |}.

Record DurablePayloadCleanup := {
  cl_coreRecordKey : string;
  cl_blobKey : string;
  cl_ownerId : string;
  cl_digest : string
}.

Record StoredPayload := { sp_ref : PayloadBlobRef; cleanupKey : string; cleanupRevision : Z }.

(** ** Record keys *)

Section keys.
Context `{!Sha256Api}.

Definition digest (v : string) : string := sha256 (utf8 v).

Definition NUL : string := unchars [ascii_of_nat 0].

Definition coreRecordKey (ks : string) : string := "document-cache.core." +:+ digest ks.

Definition bindingRecordKey (ks scope source : string) : string :=
  "document-cache.binding." +:+ digest (ks +:+ NUL +:+ scope +:+ NUL +:+ source).

Definition sourceIndexRecordKey (scope source : string) : string :=
  "document-cache.source." +:+ digest (scope +:+ NUL +:+ source).

Record RecordKeys := { rk_core : string; rk_binding : string }.

Definition durableDocumentCacheRecordKeys (k : ParsedPayloadCacheKey) (scope source : string)
    : result RecordKeys :=
  validateOwnershipScope scope (key_ownershipScope k);;
  ks ← documentCacheKeyString k;
  Ok {| rk_core := coreRecordKey ks; rk_binding := bindingRecordKey ks scope source |}.

(** [documentCacheBindingIdentity] of [document-cache-contract.ts] *)
Definition documentCacheBindingIdentity (source : js_value) (credentialBinding : string)
    : string :=
  let credentialHash := sha256 (utf8 credentialBinding) in
  "source-" +:+ sha256 (utf8 (unchars (json_text
    (JObj [("source", source); ("credentialHash", JStr credentialHash)])))).
End keys.

Definition cacheUnavailable : string := "Document cache unavailable".

(** ** Encoding and decoding *)

Definition num_json (x : number) : js_value := if isInteger x then JNum (to_Z x) else JNull.

Definition key_json (k : ParsedPayloadCacheKey) : js_value :=
  JObj [("ownershipScope", JStr (key_ownershipScope k)); ("contentHash", JStr (key_contentHash k));
        ("engineId", JStr (engineId k)); ("engineVersion", JStr (key_engineVersion k));
        ("modelId", JStr (modelId k)); ("modelVersion", JStr (key_modelVersion k));
        ("normalizedOptions", JStr (normalizedOptions k));
        ("schemaVersion", JStr (schemaVersion k)); ("policyVersion", JStr (policyVersion k))].

Definition provenance_json (p : BillingProvenance) : js_value :=
  JObj [("isOriginal", JBool (isOriginal p)); ("originalCost", JNum (originalCost p));
        ("engine", JStr (prov_engine p)); ("model", JStr (prov_model p))].

Definition blob_ref_json (b : PayloadBlobRef) : js_value :=
  JObj [("blobKey", JStr (ref_blobKey b)); ("digest", JStr (ref_digest b));
        ("byteSize", JNum (ref_byteSize b))].

Definition core_json (c : DurableCacheCore) : js_value :=
  JObj ([("schemaVersion", JNum 1); ("kind", JStr "document-cache-core");
         ("key", key_json (core_key c)); ("keyString", JStr (core_keyString c));
         ("payloadId", JStr (core_payloadId c))] ++
        match core_data c with Some d => [("data", d)] | None => [] end ++
        match payloadBlob c with Some b => [("payloadBlob", blob_ref_json b)] | None => [] end ++
        [("provenance", provenance_json (core_provenance c));
         ("createdAt", num_json (core_createdAt c)); ("expiresAt", num_json (core_expiresAt c))]).

Definition binding_json (b : DurableSourceBinding) : js_value :=
  JObj [("schemaVersion", JNum 1); ("kind", JStr "document-cache-source-binding");
        ("coreRecordKey", JStr (db_coreRecordKey b));
        ("sourceIdentity", JStr (db_sourceIdentity b));
        ("sourceVersion", JStr (db_sourceVersion b));
        ("ownershipScope", JStr (db_ownershipScope b));
        ("createdAt", num_json (db_createdAt b)); ("expiresAt", num_json (db_expiresAt b));
        ("revoked", JBool (db_revoked b))].

Definition index_json (i : DurableSourceBindingIndex) : js_value :=
  JObj [("schemaVersion", JNum 1); ("kind", JStr "document-cache-source-index");
        ("ownershipScope", JStr (ix_ownershipScope i));
        ("sourceIdentity", JStr (ix_sourceIdentity i));
        ("bindingKeys", JArr (map JStr (ix_bindingKeys i)));
        ("createdAt", num_json (ix_createdAt i)); ("updatedAt", num_json (ix_updatedAt i));
        ("expiresAt", num_json (ix_expiresAt i)); ("revoked", JBool (ix_revoked i))].

Definition cleanup_json (c : DurablePayloadCleanup) : js_value :=
  JObj [("schemaVersion", JNum 1); ("kind", JStr "document-cache-payload-cleanup");
        ("coreRecordKey", JStr (cl_coreRecordKey c)); ("blobKey", JStr (cl_blobKey c));
        ("ownerId", JStr (cl_ownerId c)); ("digest", JStr (cl_digest c))].

Definition encode (v : js_value) : string := unchars (json_text v).

(** The checks of one kind of record on the parsed value. *)
Definition has_kind (v : js_value) (kind : string) : bool :=
  isObject v &&
  match as_number (prop v "schemaVersion") with Some n => (n =? 1)%Z | None => false end &&
  match as_string (prop v "kind") with Some k => bool_decide (k = kind) | None => false end.

Definition key_of_json (v : js_value) : option ParsedPayloadCacheKey :=
  o ← as_string (prop v "ownershipScope"); h ← as_string (prop v "contentHash");
  e ← as_string (prop v "engineId"); ev ← as_string (prop v "engineVersion");
  m ← as_string (prop v "modelId"); mv ← as_string (prop v "modelVersion");
  n ← as_string (prop v "normalizedOptions"); s ← as_string (prop v "schemaVersion");
  p ← as_string (prop v "policyVersion");
  Some {| key_ownershipScope := o; key_contentHash := h; engineId := e; key_engineVersion := ev;
          modelId := m; key_modelVersion := mv; normalizedOptions := n; schemaVersion := s;
          policyVersion := p |}.

Definition provenance_of_json (v : js_value) : option BillingProvenance :=
  o ← as_boolean (prop v "isOriginal"); c ← as_number (prop v "originalCost");
  e ← as_string (prop v "engine"); m ← as_string (prop v "model");
  Some {| isOriginal := o; originalCost := c; prov_engine := e; prov_model := m |}.

Definition blob_ref_of_json (v : js_value) : option PayloadBlobRef :=
  k ← as_string (prop v "blobKey"); d ← as_string (prop v "digest");
  n ← as_number (prop v "byteSize");
  Some {| ref_blobKey := k; ref_digest := d; ref_byteSize := n |}.

Definition core_of_json (v : js_value) : option DurableCacheCore :=
  _ ← guard (has_kind v "document-cache-core" = true);
  k ← key_of_json (prop v "key");
  ks ← as_string (prop v "keyString");
  pid ← as_string (prop v "payloadId");
  p ← provenance_of_json (prop v "provenance");
  c ← as_number (prop v "createdAt");
  e ← as_number (prop v "expiresAt");
  let inline := has_own v "data" in
  let blob := blob_ref_of_json (prop v "payloadBlob") in
  _ ← guard (inline ≠ bool_decide (is_Some blob));
  Some {| core_key := k; core_keyString := ks; core_payloadId := pid;
          core_data := if inline then Some (prop v "data") else None; payloadBlob := blob;
          core_provenance := p; core_createdAt := int c; core_expiresAt := int e |}.

Definition binding_of_json (v : js_value) : option DurableSourceBinding :=
  _ ← guard (has_kind v "document-cache-source-binding" = true);
  ck ← as_string (prop v "coreRecordKey"); si ← as_string (prop v "sourceIdentity");
  sv ← as_string (prop v "sourceVersion"); o ← as_string (prop v "ownershipScope");
  c ← as_number (prop v "createdAt"); e ← as_number (prop v "expiresAt");
  r ← as_boolean (prop v "revoked");
  Some {| db_coreRecordKey := ck; db_sourceIdentity := si; db_sourceVersion := sv;
          db_ownershipScope := o; db_createdAt := int c; db_expiresAt := int e; db_revoked := r |}.

Definition index_of_json (v : js_value) : option DurableSourceBindingIndex :=
  _ ← guard (has_kind v "document-cache-source-index" = true);
  o ← as_string (prop v "ownershipScope"); si ← as_string (prop v "sourceIdentity");
  bk ← as_strings (prop v "bindingKeys");
  _ ← guard (Z.of_nat (length bk) <= MAX_SOURCE_BINDINGS)%Z;
  _ ← guard (forallb (λ k, startsWith k "document-cache.binding.") bk = true);
  c ← as_number (prop v "createdAt"); u ← as_number (prop v "updatedAt");
  e ← as_number (prop v "expiresAt"); r ← as_boolean (prop v "revoked");
  Some {| ix_ownershipScope := o; ix_sourceIdentity := si; ix_bindingKeys := bk;
          ix_createdAt := int c; ix_updatedAt := int u; ix_expiresAt := int e; ix_revoked := r |}.

Definition cleanup_of_json (v : js_value) : option DurablePayloadCleanup :=
  _ ← guard (has_kind v "document-cache-payload-cleanup" = true);
  ck ← as_string (prop v "coreRecordKey"); b ← as_string (prop v "blobKey");
  o ← as_string (prop v "ownerId"); d ← as_string (prop v "digest");
  Some {| cl_coreRecordKey := ck; cl_blobKey := b; cl_ownerId := o; cl_digest := d |}.

Definition malformed (what : string) : thrown :=
  TError ("durable document cache " +:+ what +:+ " is malformed").

(** Parse, check, and throw on a value of another shape; no record is no
    value. *)
Definition decode_as {A} (of_json : js_value → option A) (what : string)
    (record : option DurableRecord) : result (option A) :=
  match record with
  | None => Ok None
  | Some r =>
      v ← JSON_parse (value r);
      match of_json v with Some a => Ok (Some a) | None => Throw (malformed what) end
  end.

Definition decodeCore : option DurableRecord → result (option DurableCacheCore) :=
  decode_as core_of_json "core".
Definition decodeBinding : option DurableRecord → result (option DurableSourceBinding) :=
  decode_as binding_of_json "source binding".
Definition decodeSourceIndex : option DurableRecord → result (option DurableSourceBindingIndex) :=
  decode_as index_of_json "source index".

(** A record of another kind is not a cleanup marker. *)
Definition decodeCleanup (record : DurableRecord) : result (option DurablePayloadCleanup) :=
  v ← JSON_parse (value record);
  if isObject v &&
     match as_string (prop v "kind") with
     | Some k => bool_decide (k = "document-cache-payload-cleanup"%string)
     | None => false
     end
  then match cleanup_of_json v with
       | Some c => Ok (Some c)
       | None => Throw (malformed "cleanup marker")
       end
  else Ok None.

Definition sameCacheKey (left right : ParsedPayloadCacheKey) : result bool :=
  l ← documentCacheKeyString left;
  r ← documentCacheKeyString right;
  Ok (bool_decide (l = r)).

Definition makeHit (core : DurableCacheCore) (now : number) : result CacheHitResult :=
  let hit := {| hit_createdAt := core_createdAt core; hit_expiresAt := core_expiresAt core;
                ageSeconds := num_max (int 0)
                  (num_floor_div (num_sub now (core_createdAt core)) 1000);
                sourceHash := key_contentHash (core_key core);
                hit_engineVersion := key_engineVersion (core_key core);
                hit_modelVersion := key_modelVersion (core_key core);
                billingProvenance := core_provenance core |} in
  validateCacheHit hit;;
  Ok hit.

(** ** Checks *)

Definition bad_source (source : string) : bool :=
  (str_length source =? 0)%Z || (1024 <? str_length source)%Z.

Definition bad_now (now : number) : bool := negb (isSafeInteger now) || num_leb now (int 0).

Definition validateIdentity (params : DocumentCacheIdentity) : result unit :=
  throw_if (bad_source (sourceIdentity params))
    (TError "sourceIdentity must be non-empty and bounded");;
  throw_if (bad_now (nowMs params)) (TError "nowMs must be a positive integer");;
  throw_if (match sourceExpiresAt params with
            | Some e => negb (isSafeInteger e) || num_leb e (int 0)
            | None => false
            end) (TError "sourceExpiresAt must be a positive integer");;
  validateOwnershipScope (ownershipScope params) (key_ownershipScope (key params));;
  match networkPolicyChecked params with
  | Some false => validateNetworkPolicyRequired DEFAULT_CACHE_SCOPE_POLICY false
  | _ => Ok tt
  end;;
  documentCacheKeyString (key params);;
  Ok tt.

(** ** Decisions *)

Inductive DocumentCacheMissDisposition := ordinary | revoked_ | disabled | bypass_ | refresh_.

#[export] Instance DocumentCacheMissDisposition_eq_dec : EqDecision DocumentCacheMissDisposition.
Proof. solve_decision. Defined.

(** [commitFence] holds the revision of the binding, [null] for none. *)
Record DocumentCacheLookupMiss := {
  disposition : DocumentCacheMissDisposition;
  commitFence : option (option Z);
  miss_degraded : bool;
  miss_cacheError : option string
}.

Definition miss (d : DocumentCacheMissDisposition) : DocumentCacheLookupMiss :=
  {| disposition := d; commitFence := None; miss_degraded := false; miss_cacheError := None |}.

Inductive DocumentCacheLookupResult :=
  | LookupHit (hit_data : js_value) (hit : CacheHitResult)
  | LookupMiss (m : DocumentCacheLookupMiss).

(** [new DurableDocumentCacheRepository(store, { maxCasAttempts })]: the
    number of attempts. *)
Definition new_repository (maxCasAttempts : option number) : result nat :=
  let n := default (int DEFAULT_CAS_ATTEMPTS) maxCasAttempts in
  throw_if (negb (isInteger n) || num_ltb n (int 1))
    (TError "maxCasAttempts must be a positive integer");;
  Ok (Z.to_nat (to_Z n)).

Definition excluded_tool (params : DocumentCacheIdentity) : bool := isExcludedTool (toolName params).

(** The mode a lookup runs in. *)
Definition lookup_mode (config : CacheConfig) (params : DocumentCacheIdentity) : CacheMode :=
  if excluded_tool params then bypass
  else effectiveMode (resolveCacheMode (mode params) (cacheConfigForIdentity config params)).

Definition validateCommitDisposition (config : CacheConfig) (params : DocumentCacheIdentity)
    (decision : DocumentCacheLookupMiss) : result unit :=
  let resolved := resolveCacheMode (mode params) config in
  let d := disposition decision in
  let compatible :=
    if degraded resolved then bool_decide (d = disabled)
    else if excluded_tool params || bool_decide (effectiveMode resolved = bypass)
    then bool_decide (d = bypass_)
    else match effectiveMode resolved with
         | use => bool_decide (d = ordinary) || bool_decide (d = revoked_)
         | _ => bool_decide (d = refresh_)
         end in
  throw_if (negb compatible) (TError "document cache disposition does not match the request");;
  throw_if (bool_decide (miss_cacheError decision ≠ None) && negb (bool_decide (d = ordinary)))
    (TError "document cache fault is only valid for an ordinary lookup");;
  throw_if (bool_decide (d = ordinary) && bool_decide (miss_cacheError decision = None) &&
            bool_decide (commitFence decision = None))
    (TError "ordinary document cache commit is missing its lookup fence").

(** ** The repository *)

Section repository.
Context {S : Type} `{!Sha256Api} `{!DurableRecordStorePort S}
  (payloads : option (ImmutableBlobPort S)) (maxCasAttempts : nat).
Implicit Types (params identity : DocumentCacheIdentity) (config : CacheConfig).

(** [{ value, nowMs, expiresAt }] *)
Definition record_write (v : js_value) (now expires : number) : DurableRecordUpdate :=
  {| upd_value := encode v; upd_nowMs := now; upd_expiresAt := Some expires |}.

Definition new_durable (k : string) (v : js_value) (now expires : number) : NewDurableRecord :=
  {| new_key := k; new_update := record_write v now expires |}.

(** [for (let attempt = 0; attempt < maxCasAttempts; attempt += 1)]: [body]
    gives the value returned, or goes round again. *)
Fixpoint attempts {A} (n : nat) (failure : thrown) (body : M S (option A)) : M S A :=
  match n with
  | O => throw failure
  | Datatypes.S n' =>
      r ← body;
      match r with
      | Some a => mret a
      | None => attempts n' failure body
      end
  end.

Definition loadCoreData (core : DurableCacheCore) : M S js_value :=
  match payloadBlob core with
  | None => mret (default JUndefined (core_data core))
  | Some b =>
      match payloads with
      | None => throw (TError "document cache payload storage is unavailable")
      | Some port =>
          content ← blob_get (ref_blobKey b) (key_ownershipScope (core_key core)) (ref_digest b)
                      MAX_IMMUTABLE_BLOB_BYTES;
          match content with
          | Some data =>
              if negb (byteLength data =? ref_byteSize b)%Z
              then throw (TError "document cache payload blob is missing")
              else match utf8_decode data with
                   | Some text => lift (JSON_parse text)
                   | None => throw (TError "The encoded data was not valid for encoding utf-8")
                   end
          | None => throw (TError "document cache payload blob is missing")
          end
      end
  end.

Definition deleteUnusedPayload (candidate : option DurableCacheCore) (winner : DurableCacheCore)
    : M S unit :=
  match candidate with
  | Some c =>
      match payloadBlob c with
      | Some b =>
          if bool_decide (Some (ref_blobKey b) = ref_blobKey <$> payloadBlob winner) then mret tt
          else match payloads with
               | Some port =>
                   _ ← blob_deleteIfOwner (ref_blobKey b) (key_ownershipScope (core_key c)); mret tt
               | None => mret tt
               end
      | None => mret tt
      end
  | None => mret tt
  end.

Definition require_core (record : DurableRecord) : M S DurableCacheCore :=
  decoded ← lift (decodeCore (Some record));
  match decoded with
  | Some c => mret c
  | None => throw (TError "durable document cache core disappeared")
  end.

Definition replaceRecord (k : string) (core : DurableCacheCore) (now expires : number)
    : M S DurableCacheCore :=
  attempts maxCasAttempts (TError "durable document cache core CAS retry limit exceeded") (
    current ← ds_get k;
    match current with
    | None =>
        created ← ds_createIfAbsent (new_durable k (core_json core) now expires);
        match created with
        | Created record => c ← require_core record; mret (Some c)
        | Exists _ => mret None
        end
    | Some record =>
        updated ← ds_compareAndSwap k (revision record) (record_write (core_json core) now expires);
        match updated with
        | Updated record' =>
            decoded ← require_core record';
            old ← lift (decodeCore (Some record));
            deleteUnusedPayload old decoded;;
            mret (Some decoded)
        | _ => mret None
        end
    end).

Definition createCoreIfMissing (k : string) (core : DurableCacheCore) (now expires : number)
    : M S DurableCacheCore :=
  created ← ds_createIfAbsent (new_durable k (core_json core) now expires);
  match created with
  | Created _ => mret core
  | Exists record =>
      existing ← require_core record;
      if num_ltb now (core_expiresAt existing) &&
         bool_decide (core_keyString existing = core_keyString core)
      then deleteUnusedPayload (Some core) existing;; mret existing
      else _ ← replaceRecord k core now expires; mret core
  end.

Definition upsertRecord (k : string) (v : js_value) (now expires : number) : M S unit :=
  attempts maxCasAttempts (TError "durable document cache binding CAS retry limit exceeded") (
    current ← ds_get k;
    match current with
    | None =>
        created ← ds_createIfAbsent (new_durable k v now expires);
        mret (match created with Created _ => Some tt | Exists _ => None end)
    | Some record =>
        updated ← ds_compareAndSwap k (revision record) (record_write v now expires);
        mret (match updated with Updated _ => Some tt | _ => None end)
    end).

Definition isEquivalentLiveBinding (record : DurableRecord) (expected : DurableSourceBinding)
    (now : number) : result bool :=
  current ← decodeBinding (Some record);
  Ok (match current with
      | None => false
      | Some b =>
          negb (db_revoked b) && num_ltb now (db_expiresAt b) &&
          bool_decide (db_coreRecordKey b = db_coreRecordKey expected) &&
          bool_decide (db_sourceIdentity b = db_sourceIdentity expected) &&
          bool_decide (db_sourceVersion b = db_sourceVersion expected) &&
          bool_decide (db_ownershipScope b = db_ownershipScope expected)
      end).

(** Write the binding if it is still as the lookup saw it. *)
Definition upsertRecordFenced (k : string) (binding : DurableSourceBinding) (now : number)
    (expectedRevision : option Z) : M S bool :=
  match expectedRevision with
  | None =>
      created ← ds_createIfAbsent (new_durable k (binding_json binding) now (db_expiresAt binding));
      match created with
      | Created _ => mret true
      | Exists record => lift (isEquivalentLiveBinding record binding now)
      end
  | Some rev =>
      updated ← ds_compareAndSwap k rev (record_write (binding_json binding) now (db_expiresAt binding));
      match updated with
      | Updated _ => mret true
      | Missing => mret false
      | Conflict record => lift (isEquivalentLiveBinding record binding now)
      end
  end.

(** List the binding in the source's index; [false] when the source has been
    revoked. *)
Definition ensureSourceIndex (k bindingKey : string) params (expires : number) : M S bool :=
  attempts maxCasAttempts (TError "durable document cache source index CAS retry limit exceeded") (
    current ← ds_get k;
    decoded ← lift (decodeSourceIndex current);
    match current, decoded with
    | Some record, Some index =>
        lift (throw_if (negb (bool_decide (ix_ownershipScope index = ownershipScope params)) ||
                        negb (bool_decide (ix_sourceIdentity index = sourceIdentity params)))
          (TError "durable document cache source index binding mismatch"));;
        if ix_revoked index then mret (Some false)
        else
          let listed := bool_decide (bindingKey ∈ ix_bindingKeys index) in
          let bindingKeys := if listed then ix_bindingKeys index
                             else ix_bindingKeys index ++ [bindingKey] in
          lift (throw_if (MAX_SOURCE_BINDINGS <? Z.of_nat (length bindingKeys))%Z
            (TError "durable document cache source binding limit exceeded"));;
          let nextExpiry := num_max (ix_expiresAt index) expires in
          if listed && num_leb nextExpiry (ix_expiresAt index) then mret (Some true)
          else
            updated ← ds_compareAndSwap k (revision record)
              (record_write (index_json (index <| ix_bindingKeys := bindingKeys |>
                               <| ix_updatedAt := nowMs params |> <| ix_expiresAt := nextExpiry |>))
                 (nowMs params) nextExpiry);
            mret (match updated with Updated _ => Some true | _ => None end)
    | _, _ =>
        created ← ds_createIfAbsent (new_durable k
          (index_json {| ix_ownershipScope := ownershipScope params;
                         ix_sourceIdentity := sourceIdentity params;
                         ix_bindingKeys := [bindingKey]; ix_createdAt := nowMs params;
                         ix_updatedAt := nowMs params; ix_expiresAt := expires;
                         ix_revoked := false |}) (nowMs params) expires);
        mret (match created with Created _ => Some true | Exists _ => None end)
    end).

(** Write the payload to the blob store, after a marker by which a sweep finds
    it should the commit not go through. *)
Definition storePayload (ownerId ks coreKey : string) (now : number) (data : js_value)
    : M S (option StoredPayload) :=
  match payloads with
  | None => mret None
  | Some port =>
      match JSON_stringify data with
      | None => throw (TError "document cache payload is not serializable")
      | Some encoded =>
          let content := utf8 encoded in
          lift (throw_if ((byteLength content <? 1)%Z || (MAX_IMMUTABLE_BLOB_BYTES <? byteLength content)%Z)
            (TError "document cache payload exceeds the immutable blob limit"));;
          let payloadDigest := "sha256-" +:+ sha256 content in
          let blobKey := "blobs/" +:+ digest (ownerId +:+ NUL +:+ ks +:+ NUL +:+ payloadDigest) in
          let marker := "document-cache.cleanup." +:+ digest blobKey in
          cleanup ← ds_createIfAbsent (new_durable marker
            (cleanup_json {| cl_coreRecordKey := coreKey; cl_blobKey := blobKey;
                             cl_ownerId := ownerId; cl_digest := payloadDigest |})
            now (num_add now (int 3600000)));
          put ← blob_putIfAbsent blobKey ownerId payloadDigest content;
          match put with
          | BlobConflict _ => throw (TError "document cache payload blob conflict")
          | _ =>
              mret (Some {| sp_ref := {| ref_blobKey := blobKey; ref_digest := payloadDigest;
                                         ref_byteSize := byteLength content |};
                            cleanupKey := marker;
                            cleanupRevision := match cleanup with
                                               | Created r | Exists r => revision r
                                               end |})
          end
      end
  end.

Definition revokeBindingRecord (k : string) (now : number) : M S bool :=
  attempts maxCasAttempts (TError "durable document cache source binding CAS retry limit exceeded") (
    record ← ds_get k;
    decoded ← lift (decodeBinding record);
    match record, decoded with
    | Some r, Some binding =>
        if db_revoked binding then mret (Some true)
        else
          let expires := num_max (db_expiresAt binding) (num_add now (int 1)) in
          swapped ← ds_compareAndSwap k (revision r)
            (record_write (binding_json (binding <| db_revoked := true |> <| db_expiresAt := expires |>))
               now expires);
          mret (match swapped with
                | Updated _ => Some true
                | Missing => Some false
                | Conflict _ => None
                end)
    | _, _ => mret (Some false)
    end).

(** ** [lookup] *)

(** The keys a request uses. *)
Record RequestKeys := { q_keyString : string; q_core : string; q_binding : string; q_index : string }.

Definition request_keys params : result RequestKeys :=
  ks ← documentCacheKeyString (key params);
  Ok {| q_keyString := ks; q_core := coreRecordKey ks;
        q_binding := bindingRecordKey ks (ownershipScope params) (sourceIdentity params);
        q_index := sourceIndexRecordKey (ownershipScope params) (sourceIdentity params) |}.

Definition settled {A} (r : A + thrown) : result A :=
  match r with inl a => Ok a | inr e => Throw e end.

(** [core.keyString === keyString && sameCacheKey(core.key, identity.key)] *)
Definition core_matches (core : DurableCacheCore) (q : RequestKeys) params : result bool :=
  if bool_decide (core_keyString core = q_keyString q)
  then sameCacheKey (core_key core) (key params)
  else Ok false.

(** The conditions on the binding and the index of a hit. *)
Definition binding_valid (b : DurableSourceBinding) (i : DurableSourceBindingIndex)
    (q : RequestKeys) params : bool :=
  negb (ix_revoked i) && num_ltb (nowMs params) (ix_expiresAt i) &&
  bool_decide (ix_ownershipScope i = ownershipScope params) &&
  bool_decide (ix_sourceIdentity i = sourceIdentity params) &&
  bool_decide (q_binding q ∈ ix_bindingKeys i) &&
  num_ltb (nowMs params) (db_expiresAt b) && negb (db_revoked b) &&
  bool_decide (db_coreRecordKey b = q_core q) &&
  bool_decide (db_sourceIdentity b = sourceIdentity params) &&
  bool_decide (db_sourceVersion b = sourceVersion params) &&
  bool_decide (db_ownershipScope b = ownershipScope params).

Definition index_revoked (i : option DurableSourceBindingIndex) : bool :=
  match i with Some i => ix_revoked i | None => false end.
Definition binding_revoked (b : option DurableSourceBinding) : bool :=
  match b with Some b => db_revoked b | None => false end.

(** The binding a request makes. *)
Definition request_binding (q : RequestKeys) params (expires : number) : DurableSourceBinding :=
  {| db_coreRecordKey := q_core q; db_sourceIdentity := sourceIdentity params;
     db_sourceVersion := sourceVersion params; db_ownershipScope := ownershipScope params;
     db_createdAt := nowMs params; db_expiresAt := expires; db_revoked := false |}.

(** A core without a binding of this source: bind it to the payload. *)
Definition rebind (q : RequestKeys) params (core : DurableCacheCore) (expires : number)
    : M S DocumentCacheLookupResult :=
  data ← loadCoreData core;
  indexed ← ensureSourceIndex (q_index q) (q_binding q) params expires;
  if negb indexed then mret (LookupMiss (miss revoked_))
  else
    upsertRecord (q_binding q) (binding_json (request_binding q params expires)) (nowMs params) expires;;
    hit ← lift (makeHit core (nowMs params));
    mret (LookupHit data hit).

(** What is left when there is neither a hit nor a rebinding. *)
Definition no_hit (b : option DurableSourceBinding) (i : option DurableSourceBindingIndex)
    (bindingRecord : option DurableRecord) : DocumentCacheLookupResult :=
  if binding_revoked b || index_revoked i then LookupMiss (miss revoked_)
  else LookupMiss {| disposition := ordinary; commitFence := Some (revision <$> bindingRecord);
                     miss_degraded := false; miss_cacheError := None |}.

Definition lookup_records config params (q : RequestKeys) : M S DocumentCacheLookupResult :=
  coreRead ← attempt (ds_get (q_core q));
  bindingRead ← attempt (ds_get (q_binding q));
  indexRead ← attempt (ds_get (q_index q));
  coreRecord ← lift (settled coreRead);
  bindingRecord ← lift (settled bindingRead);
  indexRecord ← lift (settled indexRead);
  core ← lift (decodeCore coreRecord);
  binding ← lift (decodeBinding bindingRecord);
  index ← lift (decodeSourceIndex indexRecord);
  match core with
  | None => mret (no_hit binding index bindingRecord)
  | Some c =>
      let live := num_ltb (nowMs params) (core_expiresAt c) in
      matches ← lift (
        match binding, index with
        | Some b, Some i => if binding_valid b i q params && live then core_matches c q params
                            else Ok false
        | _, _ => Ok false
        end);
      if (matches : bool) then
        data ← loadCoreData c;
        hit ← lift (makeHit c (nowMs params));
        mret (LookupHit data hit)
      else
        unbound ← lift (
          match binding with
          | None => if negb (index_revoked index) && live then core_matches c q params else Ok false
          | Some _ => Ok false
          end);
        let ttlSeconds := resolveEffectiveTtl (requestedTtlSeconds params)
                            (cacheConfigForIdentity config params) in
        if (unbound : bool) && num_ltb (int 0) ttlSeconds
        then rebind q params c (num_min (core_expiresAt c)
               (num_add (nowMs params) (num_scale ttlSeconds 1000)))
        else mret (no_hit binding index bindingRecord)
  end.

Definition lookup config params : M S DocumentCacheLookupResult :=
  lift (validateIdentity params);;
  match lookup_mode config params with
  | bypass =>
      mret (LookupMiss
        (if degraded (resolveCacheMode (mode params) (cacheConfigForIdentity config params))
         then {| disposition := disabled; commitFence := None; miss_degraded := true;
                 miss_cacheError := None |}
         else miss bypass_))
  | refresh => mret (LookupMiss (miss refresh_))
  | use =>
      q ← lift (request_keys params);
      looked ← attempt (lookup_records config params q);
      mret (match looked with
            | inl r => r
            | inr _ => LookupMiss {| disposition := ordinary; commitFence := None;
                                     miss_degraded := false;
                                     miss_cacheError := Some cacheUnavailable |}
            end)
  end.

(** ** [commit] *)

Definition not_stored (execution : DocumentCacheExecution js_value) (deg : bool)
    (error : option string) : DocumentCacheCommitResult js_value :=
  {| res_data := exec_data execution; res_provenance := exec_provenance execution;
     stored := false; res_createdAt := None; res_expiresAt := None; res_degraded := deg;
     cacheError := error |}.

Definition commit_records (q : RequestKeys) params (execution : DocumentCacheExecution js_value)
    (decision : DocumentCacheLookupMiss) (expires : number)
    : M S (DocumentCacheCommitResult js_value) :=
  let now := nowMs params in
  let refreshing := bool_decide (disposition decision = refresh_) in
  storedPayload ← storePayload (ownershipScope params) (q_keyString q) (q_core q) now (exec_data execution);
  let core := {| core_key := key params; core_keyString := q_keyString q;
                 core_payloadId := buildPayloadId (q_keyString q);
                 core_data := match storedPayload with
                              | None => Some (exec_data execution) | Some _ => None end;
                 payloadBlob := sp_ref <$> storedPayload;
                 core_provenance := exec_provenance execution;
                 core_createdAt := now; core_expiresAt := expires |} in
  storedCore ← (if refreshing then replaceRecord (q_core q) core now expires
                else createCoreIfMissing (q_core q) core now expires);
  let bindingExpiry := num_min (core_expiresAt storedCore) expires in
  indexed ← ensureSourceIndex (q_index q) (q_binding q) params bindingExpiry;
  if negb indexed then
    deleteUnusedPayload (Some core) storedCore;;
    mret (not_stored execution false None)
  else
    let storedBinding := request_binding q params bindingExpiry in
    bindingStored ← (if refreshing
      then upsertRecord (q_binding q) (binding_json storedBinding) now bindingExpiry;; mret true
      else upsertRecordFenced (q_binding q) storedBinding now (mjoin (commitFence decision)));
    if negb bindingStored then mret (not_stored execution false None)
    else
      indexRecord ← ds_get (q_index q);
      index ← lift (decodeSourceIndex indexRecord);
      if index_revoked index then
        _ ← revokeBindingRecord (q_binding q) now;
        mret (not_stored execution false None)
      else
        (match storedPayload with
         | Some p => _ ← ds_deleteIfRevision (cleanupKey p) (cleanupRevision p); mret tt
         | None => mret tt
         end : M S unit);;
        mret {| res_data := exec_data execution; res_provenance := exec_provenance execution;
                stored := true; res_createdAt := Some now;
                res_expiresAt := Some bindingExpiry; res_degraded := false; cacheError := None |}.

(** A miss after which nothing is to be stored. *)
Definition skips_commit (decision : DocumentCacheLookupMiss) : bool :=
  match disposition decision with bypass_ | disabled | revoked_ => true | _ => false end ||
  bool_decide (miss_cacheError decision ≠ None).

Definition commit config params (execution : DocumentCacheExecution js_value)
    (decision : DocumentCacheLookupMiss) : M S (DocumentCacheCommitResult js_value) :=
  lift (validateIdentity params);;
  lift (validateCommitDisposition config params decision);;
  if skips_commit decision then
    mret (not_stored execution (bool_decide (disposition decision = disabled))
            (match miss_cacheError decision with
             | Some _ => Some cacheUnavailable
             | None => None
             end))
  else
    let ttlSeconds := resolveEffectiveTtl (requestedTtlSeconds params)
                        (cacheConfigForIdentity config params) in
    if num_leb ttlSeconds (int 0) then mret (not_stored execution false None)
    else
      q ← lift (request_keys params);
      committed ← attempt (commit_records q params execution decision
                             (num_add (nowMs params) (num_scale ttlSeconds 1000)));
      mret (match committed with
            | inl r => r
            | inr _ => not_stored execution false (Some cacheUnavailable)
            end).

(** [process]: look up, execute on a miss, commit. *)
Definition process config params (execute : M S (DocumentCacheExecution js_value))
    : M S (DocumentCacheProcessResult js_value) :=
  found ← lookup config params;
  match found with
  | LookupHit data hit => mret (Cached data hit)
  | LookupMiss decision =>
      execution ← execute;
      r ← commit config params execution decision;
      mret (Fresh r)
  end.

(** ** Revocation *)

(** [Promise.all(keys.map(revoke))]: all are run, then the first failure, if
    any, is thrown. *)
Fixpoint revoke_each (now : number) (bindingKeys : list string) : M S (list (bool + thrown)) :=
  match bindingKeys with
  | [] => mret []
  | k :: rest =>
      r ← attempt (revokeBindingRecord k now);
      rs ← revoke_each now rest;
      mret (r :: rs)
  end.

Definition revokeAllSourceBindings (source scope : string) (now : number) : M S bool :=
  lift (throw_if (bad_source source || (str_length scope =? 0)%Z || (2048 <? str_length scope)%Z)
    (TError "source cache binding identity is invalid"));;
  lift (throw_if (bad_now now) (TError "nowMs must be a positive integer"));;
  let k := sourceIndexRecordKey scope source in
  found ← attempts maxCasAttempts (TError "durable document cache source index CAS retry limit exceeded") (
    record ← ds_get k;
    decoded ← lift (decodeSourceIndex record);
    match record, decoded with
    | Some r, Some index =>
        lift (throw_if (negb (bool_decide (ix_ownershipScope index = scope)) ||
                        negb (bool_decide (ix_sourceIdentity index = source)))
          (TError "durable document cache source index binding mismatch"));;
        if ix_revoked index then mret (Some (Some index))
        else
          let expires := num_max (ix_expiresAt index) (num_add now (int 1)) in
          swapped ← ds_compareAndSwap k (revision r)
            (record_write (index_json (index <| ix_revoked := true |> <| ix_updatedAt := now |>
                             <| ix_expiresAt := expires |>)) now expires);
          match swapped with
          | Updated r' => index' ← lift (decodeSourceIndex (Some r')); mret (Some index')
          | Missing => mret (Some None)
          | Conflict _ => mret None
          end
    | _, _ => mret (Some None)
    end);
  match found with
  | None => mret false
  | Some index =>
      outcomes ← revoke_each now (ix_bindingKeys index);
      lift (mapM settled outcomes);;
      mret true
  end.

Definition revokeSourceBinding (k : ParsedPayloadCacheKey) (source scope : string) (now : number)
    : M S bool :=
  lift (validateOwnershipScope scope (key_ownershipScope k));;
  lift (throw_if (bad_source source) (TError "sourceIdentity must be non-empty and bounded"));;
  lift (throw_if (bad_now now) (TError "nowMs must be a positive integer"));;
  all ← revokeAllSourceBindings source scope now;
  if (all : bool) then mret true
  else
    ks ← lift (documentCacheKeyString k);
    revokeBindingRecord (bindingRecordKey ks scope source) now.

(** ** Sweeping *)

Record DurableDocumentCacheSweepPage := {
  scanned : Z;
  removed : Z;
  sweep_nextCursor : option string
}.

(** [payloads?.deleteIfOwner(...)], and whether the record must stay. *)
Definition blob_stays (blobKey ownerId : string) : M S bool :=
  match payloads with
  | None => mret true
  | Some port =>
      deleted ← blob_deleteIfOwner blobKey ownerId;
      mret (bool_decide (deleted = OwnerMismatch))
  end.

Definition remove_record (record : DurableRecord) : M S Z :=
  deleted ← ds_deleteIfRevision (rec_key record) (revision record);
  mret (if bool_decide (deleted = Deleted) then 1 else 0)%Z.

(** One expired record: how many were removed. *)
Definition sweep_record (record : DurableRecord) : M S Z :=
  cleanup ← lift (decodeCleanup record);
  match cleanup with
  | Some c =>
      coreRecord ← ds_get (cl_coreRecordKey c);
      core ← lift (decodeCore coreRecord);
      let in_use := bool_decide ((ref_blobKey <$> (core ≫= payloadBlob)) = Some (cl_blobKey c)) in
      stays ← ((if in_use then mret false else blob_stays (cl_blobKey c) (cl_ownerId c)) : M S bool);
      if (stays : bool) then mret 0%Z else remove_record record
  | None =>
      let core := match decodeCore (Some record) with Ok c => c | Throw _ => None end in
      stays ← (match core with
               | Some c =>
                   match payloadBlob c with
                   | Some b => blob_stays (ref_blobKey b) (key_ownershipScope (core_key c))
                   | None => mret false
                   end
               | None => mret false
               end : M S bool);
      if (stays : bool) then mret 0%Z else remove_record record
  end.

Fixpoint sweep_records (records : list DurableRecord) : M S Z :=
  match records with
  | [] => mret 0%Z
  | r :: rest => n ← sweep_record r; m ← sweep_records rest; mret (n + m)%Z
  end.

Definition sweepExpiredPage (now : number) (cursor : option string) (limit : number)
    : M S DurableDocumentCacheSweepPage :=
  lift (throw_if (negb (isSafeInteger now) || num_ltb now (int 1) || negb (isSafeInteger limit) ||
                  num_ltb limit (int 1) || num_ltb (int 100) limit)
    (TError "durable document cache sweep bounds are invalid"));;
  page ← ds_scanExpired now cursor (to_Z limit);
  n ← sweep_records (page_records page);
  mret {| scanned := Z.of_nat (length (page_records page)); removed := n;
          sweep_nextCursor := nextCursor page |}.

(** [do ... while (cursor !== null)], with fuel for the pages; [None] when it
    runs out. *)
Fixpoint sweep_from (fuel : nat) (now : number) (cursor : option string) (limit : number) (total : Z)
    : M S (option Z) :=
  match fuel with
  | O => mret None
  | Datatypes.S fuel' =>
      page ← sweepExpiredPage now cursor limit;
      let total := (total + removed page)%Z in
      match sweep_nextCursor page with
      | None => mret (Some total)
      | Some c => sweep_from fuel' now (Some c) limit total
      end
  end.

Definition sweepExpired (fuel : nat) (now : number) (limit : option number) : M S (option Z) :=
  sweep_from fuel now None (default (int 100) limit) 0.
End repository.
