(* ===== verification/DurableDocumentCacheSafety.v ===== *)
(** * Correctness of the durable document cache

    Faults of the stores never fail a request; a revoked source is not served
    and not stored again, whoever else is at work; the cache is transparent
    under interleaving; sweeping ends. *)

From S2P Require Import Prelude Interference JsString JsMap Digest Json DurableStore DocumentCache.
From S2P Require Import DurableDocumentCache.

(** ** Faults *)

Section faults.
Context {S : Type} `{Sha : !Sha256Api} `{Port : !DurableRecordStorePort S}
  (payloads : option (ImmutableBlobPort S)) (maxCasAttempts : nat).
Implicit Types (params : DocumentCacheIdentity) (config : CacheConfig).

(** A decision of [lookup] is one [commit] accepts. *)
Definition accepted config params (r : result DocumentCacheLookupResult) : Prop :=
  match r with
  | Ok (LookupHit _ _) => True
  | Ok (LookupMiss d) => validateCommitDisposition config params d = Ok tt
  | Throw _ => False
  end.

Lemma resolve_enabled (m : CacheMode) (c1 c2 : CacheConfig) :
  enabled c1 = enabled c2 → resolveCacheMode m c1 = resolveCacheMode m c2.
Proof. unfold resolveCacheMode. by intros ->. Qed.

Lemma effective_config_enabled config params :
  enabled (cacheConfigForIdentity config params) = enabled config.
Proof. unfold cacheConfigForIdentity. by case_match. Qed.

(** What [lookup] may answer in mode [use]. *)
Definition use_decision (d : DocumentCacheLookupMiss) : Prop :=
  disposition d = revoked_ ∧ miss_cacheError d = None ∨
  disposition d = ordinary ∧ (miss_cacheError d = None → commitFence d ≠ None).

Lemma use_decision_accepted config params d :
  lookup_mode config params = use → use_decision d →
  validateCommitDisposition config params d = Ok tt.
Proof.
  unfold lookup_mode, validateCommitDisposition. intros Hm Hd.
  rewrite (resolve_enabled _ _ config) in Hm by apply effective_config_enabled.
  destruct (excluded_tool params); [done|].
  assert (Hdeg : degraded (resolveCacheMode (mode params) config) = false).
  { unfold resolveCacheMode in *. destruct (enabled config); [done|]. by destruct (mode params). }
  rewrite Hdeg, Hm. destruct d as [d f g e], Hd as [[Hd He]|[Hd He]]; cbn in *; subst; cbn; [done|].
  destruct e; [done|]. destruct f; [done|]. by destruct He.
Qed.

Lemma no_hit_decision b i r : match no_hit b i r with
  | LookupMiss d => use_decision d | LookupHit _ _ => True end.
Proof. unfold no_hit. destruct (_ || _); [by left|by right]. Qed.

(** Any answer of [lookup_records] is a hit or an acceptable miss. *)
Lemma lookup_records_decision config params q s :
  wp (lookup_records payloads maxCasAttempts config params q)
    (λ r _, match r with Ok (LookupMiss d) => use_decision d | _ => True end) s.
Proof.
  unfold lookup_records. do 3 (apply wp_attempt_any; intros ? ?).
  do 6 (apply wp_lift_bind; [intros ? _|done]).
  destruct b2 as [c|]; [|apply wp_ret; exact (no_hit_decision _ _ _)].
  apply wp_lift_bind; [|done]. intros [] _.
  - apply wp_bind_any; [|done]. intros data s1. apply wp_lift_bind; [|done]. intros hit _. by apply wp_ret.
  - apply wp_lift_bind; [|done]. intros unbound _.
    destruct (unbound && _); [|apply wp_ret; exact (no_hit_decision _ _ _)].
    unfold rebind. apply wp_bind_any; [|done]. intros data s1.
    apply wp_bind_any; [|done]. intros [] s2; [|apply wp_ret; by left].
    apply wp_bind_any; [|done]. intros ? s3. apply wp_lift_bind; [|done]. intros hit _. by apply wp_ret.
Qed.

Lemma request_keys_ok params :
  validateIdentity params = Ok tt → ∃ q, request_keys params = Ok q.
Proof.
  unfold validateIdentity, request_keys. intros H.
  do 5 (apply result_bind_Ok in H as (_ & _ & H)).
  apply result_bind_Ok in H as (ks & Hks & _). rewrite Hks. by eexists.
Qed.

Lemma lookup_accepted config params s :
  validateIdentity params = Ok tt →
  wp (lookup payloads maxCasAttempts config params) (λ r _, accepted config params r) s.
Proof.
  intros Hv. unfold lookup. apply wp_bind, wp_lift. rewrite Hv.
  destruct (lookup_mode config params) eqn:Hm.
  - destruct (request_keys_ok params Hv) as [q Hq]. apply wp_bind, wp_lift. rewrite Hq.
    apply wp_attempt. eapply wp_mono; [apply lookup_records_decision|].
    intros [[d h|d]|e] s' Hd; apply wp_ret; [done| |].
    + by apply use_decision_accepted.
    + apply use_decision_accepted; [done|]. by right.
  - apply wp_ret. unfold accepted, validateCommitDisposition. unfold lookup_mode in Hm.
    rewrite (resolve_enabled _ _ config) in Hm by apply effective_config_enabled.
    destruct (excluded_tool params); [done|].
    assert (Hdeg : degraded (resolveCacheMode (mode params) config) = false).
    { unfold resolveCacheMode in *. destruct (enabled config); [done|]. by destruct (mode params). }
    by rewrite Hdeg, Hm.
  - apply wp_ret. unfold accepted, validateCommitDisposition. unfold lookup_mode in Hm.
    rewrite (resolve_enabled _ (cacheConfigForIdentity config params) config) in *
      by apply effective_config_enabled.
    destruct (degraded (resolveCacheMode (mode params) config)); [done|].
    destruct (excluded_tool params); [done|]. by rewrite Hm.
Qed.

(** [commit] of an accepted decision returns the execution's data. *)
Lemma commit_serves config params execution d s :
  validateIdentity params = Ok tt → validateCommitDisposition config params d = Ok tt →
  wp (commit payloads maxCasAttempts config params execution d)
    (λ r _, ∃ c, r = Ok c ∧ res_data c = exec_data execution ∧
                 res_provenance c = exec_provenance execution ∧
                 (stored c = true → cacheError c = None)) s.
Proof.
  intros Hv Hd. unfold commit. apply wp_bind, wp_lift. rewrite Hv. apply wp_bind, wp_lift. rewrite Hd.
  assert (Hns : ∀ deg e, ∃ c, Ok (not_stored execution deg e) = Ok c ∧ res_data c = exec_data execution ∧
    res_provenance c = exec_provenance execution ∧ (stored c = true → cacheError c = None))
    by (intros; by eexists).
  case_match; [by apply wp_ret|]. case_match; [by apply wp_ret|].
  destruct (request_keys_ok params Hv) as [q Hq]. apply wp_bind, wp_lift. rewrite Hq.
  apply wp_attempt.
  assert (Hrec : ∀ e s0, wp (commit_records payloads maxCasAttempts q params execution d e)
    (λ r _, match r with Ok c => res_data c = exec_data execution ∧
       res_provenance c = exec_provenance execution ∧ (stored c = true → cacheError c = None)
     | Throw _ => True end) s0).
  { intros e s0. unfold commit_records.
    apply wp_bind_any; [|done]. intros p s1. apply wp_bind_any; [|done]. intros sc s2.
    apply wp_bind_any; [|done]. intros [] s3;
      [|apply wp_bind_any; [|done]; intros; by apply wp_ret].
    apply wp_bind_any; [|done]. intros [] s4; [|by apply wp_ret].
    apply wp_bind_any; [|done]. intros ir s5. apply wp_lift_bind; [|done]. intros ix _.
    destruct (index_revoked ix); (apply wp_bind_any; [|done]; intros; by apply wp_ret). }
  eapply wp_mono; [apply Hrec|]. intros [c|e] s' Hc; apply wp_ret; [by exists c|apply Hns].
Qed.
End faults.

(** faults of the durable stores never fail a request.  Whatever the
    record store and the blob store do (calls may throw, lose their effect, or
    run interleaved with anything), a request that passes the checks is
    answered: by a hit, or with the data and provenance of its own execution
    (and a reported cache error means that it was not stored).  It throws only
    what the execution throws, and a request that fails the checks throws
    before anything happens. *)
Theorem durable_cache_faults_are_harmless {S} `{Sha256Api} `{DurableRecordStorePort S}
    (payloads : option (ImmutableBlobPort S)) (maxCasAttempts : nat) config params
    (execute : M S (DocumentCacheExecution js_value)) s :
  match validateIdentity params with
  | Throw e => process payloads maxCasAttempts config params execute s = (Throw e, s)
  | Ok _ =>
      wp (process payloads maxCasAttempts config params execute)
        (λ r _, match r with
         | Ok (Cached _ _) => True
         | Ok (Fresh c) => ∃ x s1 s2, execute s1 = (Ok x, s2) ∧ res_data c = exec_data x ∧
             res_provenance c = exec_provenance x ∧ (stored c = true → cacheError c = None)
         | Throw e => ∃ s1 s2, execute s1 = (Throw e, s2)
         end) s
  end.
Proof.
  destruct (validateIdentity params) as [[]|e] eqn:Hv.
  - unfold process. apply wp_bind. eapply wp_mono; [by apply lookup_accepted|].
    intros [[d h|d]|e] s1 Hr; [by apply wp_ret| |done].
    apply wp_bind, wp_intro. intros [x|e] s2 Hx; [|by eauto].
    apply wp_bind. eapply wp_mono; [by apply commit_serves|].
    intros r s3 (c & -> & Hc). apply wp_ret. by exists x, s1, s2.
  - unfold process, lookup. do 2 apply M_bind_fail. by rewrite Hv.
Qed.

(** ** Revocation *)

(** The index record at [k] is there until after the time [T], by the expiry
    it is stored under and by the one it states. *)
Definition lasts (T : Z) (r : DurableRecord) (i : DurableSourceBindingIndex) : Prop :=
  match rec_expiresAt r with Some e => (T < e)%Z | None => True end ∧ num_ltb (int T) (ix_expiresAt i) = true.

Definition indexed_until (T : Z) (k : string) (m : memory) : Prop :=
  keyed m ∧ ∃ r i, map_get k m = Some r ∧ decodeSourceIndex (Some r) = Ok (Some i) ∧ lasts T r i.

(** It also says that the source is revoked. *)
Definition revoked_until (T : Z) (k : string) (m : memory) : Prop :=
  keyed m ∧ ∃ r i, map_get k m = Some r ∧ decodeSourceIndex (Some r) = Ok (Some i) ∧ ix_revoked i = true ∧ lasts T r i.

Lemma revoked_until_set T k k' r m :
  k' ≠ k → rec_key r = k' → revoked_until T k m → revoked_until T k (map_set k' r m).
Proof.
  intros Hne Hr [Hm (r0 & i & Hr0 & Hi)]. split; [by apply keyed_set|]. exists r0, i. by rewrite map_get_set_ne.
Qed.

Lemma revoked_until_delete T k k' m : k' ≠ k → revoked_until T k m → revoked_until T k (map_delete k' m).
Proof.
  intros Hne [Hm (r0 & i & Hr0 & Hi)]. split; [by apply keyed_delete|]. exists r0, i.
  by rewrite map_get_delete, decide_False.
Qed.

Lemma indexed_until_delete T k k' m : k' ≠ k → indexed_until T k m → indexed_until T k (map_delete k' m).
Proof.
  intros Hne [Hm (r0 & i & Hr0 & Hi)]. split; [by apply keyed_delete|]. exists r0, i.
  by rewrite map_get_delete, decide_False.
Qed.

Lemma revoked_until_indexed T k m : revoked_until T k m → indexed_until T k m.
Proof. intros [Hm (r & i & Hr & Hi & _ & Hl)]. split; [done|]. by exists r, i. Qed.

Section revocation.
Context {S : Type} `{Sha : !Sha256Api} `{Port : !DurableRecordStorePort S}
  (payloads : option (ImmutableBlobPort S)) (maxCasAttempts : nat)
  (view : S → memory) (env : memory → memory → Prop) `{Laws : !DurableStoreLaws view env}
  (T : Z) (scope source : string).

Notation k := (sourceIndexRecordKey scope source).
Notation keeps_revoked := (keeps view (revoked_until T k)).

(** The other parties leave the revoked index in place, and so does what runs
    while the blob store is at work. *)
Context (Henv : ∀ m m', env m m' → revoked_until T k m → revoked_until T k m').

Definition blobs_keep : Prop := ∀ port, payloads = Some port →
  (∀ b o d c, keeps_revoked (blob_putIfAbsent b o d c)) ∧
  (∀ b o d n, keeps_revoked (blob_get b o d n)) ∧
  (∀ b o, keeps_revoked (blob_deleteIfOwner b o)).

Context (Hblobs : blobs_keep).

Lemma get_keeps k' : keeps_revoked (ds_get k').
Proof. apply (keeps_get view env _ Henv). Qed.

Lemma create_keeps_revoked input : new_key input ≠ k → keeps_revoked (ds_createIfAbsent input).
Proof. intros Hne. apply (keeps_created view env _ Henv). intros. by apply revoked_until_set. Qed.

Lemma cas_keeps_revoked k' rev u : k' ≠ k → keeps_revoked (ds_compareAndSwap k' rev u).
Proof. intros Hne. apply (keeps_cas view env _ Henv). intros m r Hm Hr _. apply revoked_until_set; [done| |done].
  exact (keyed_rec _ (proj1 Hm) _ _ Hr).
Qed.

Lemma delete_keeps_revoked k' rev : k' ≠ k → keeps_revoked (ds_deleteIfRevision k' rev).
Proof. intros Hne. apply (keeps_delete view env _ Henv). intros. by apply revoked_until_delete. Qed.

Lemma attempts_keeps {A} n e (body : M S (option A)) :
  keeps_revoked body → keeps_revoked (attempts n e body).
Proof.
  intros Hb. induction n as [|n IH]; cbn; [apply keeps_throw|].
  apply keeps_bind; [done|]. intros []; [apply keeps_ret|done].
Qed.

Lemma blob_keeps port : payloads = Some port →
  (∀ b o d c, keeps_revoked (blob_putIfAbsent b o d c)) ∧
  (∀ b o d n, keeps_revoked (blob_get b o d n)) ∧
  (∀ b o, keeps_revoked (blob_deleteIfOwner b o)).
Proof. apply Hblobs. Qed.

Ltac keep := intros; first
  [ apply keeps_bind; [keep|intros; keep] | apply attempts_keeps; keep
  | apply keeps_ret | apply keeps_lift | apply keeps_throw | apply keeps_attempt; keep
  | apply get_keeps
  | apply create_keeps_revoked; done | apply cas_keeps_revoked; done
  | apply delete_keeps_revoked; done
  | case_match; keep ].

Lemma deleteUnusedPayload_keeps c w : keeps_revoked (deleteUnusedPayload payloads c w).
Proof.
  unfold deleteUnusedPayload. destruct c as [c|]; [|apply keeps_ret].
  destruct (payloadBlob c) as [b|]; [|apply keeps_ret]. case_match; [apply keeps_ret|].
  destruct payloads as [port|] eqn:Hp; [|apply keeps_ret].
  apply keeps_bind; [by apply blob_keeps|]. intros. apply keeps_ret.
Qed.

Lemma replaceRecord_keeps k' c now e :
  k' ≠ k → keeps_revoked (replaceRecord payloads maxCasAttempts k' c now e).
Proof.
  intros Hne. unfold replaceRecord. apply attempts_keeps. apply keeps_bind; [apply get_keeps|].
  intros [r|].
  - apply keeps_bind; [by apply cas_keeps_revoked|]. intros []; [|keep..].
    apply keeps_bind; [keep|]. intros. apply keeps_bind; [keep|]. intros.
    apply keeps_bind; [apply deleteUnusedPayload_keeps|]. keep.
  - apply keeps_bind; [by apply create_keeps_revoked|]. keep.
Qed.

Lemma createCoreIfMissing_keeps k' c now e :
  k' ≠ k → keeps_revoked (createCoreIfMissing payloads maxCasAttempts k' c now e).
Proof.
  intros Hne. unfold createCoreIfMissing. apply keeps_bind; [by apply create_keeps_revoked|].
  intros [r|r]; [keep|]. apply keeps_bind; [keep|]. intros ex. case_match.
  - apply keeps_bind; [apply deleteUnusedPayload_keeps|]. keep.
  - apply keeps_bind; [by apply replaceRecord_keeps|]. keep.
Qed.

Lemma storePayload_keeps o ks ck now d : keeps_revoked (storePayload payloads o ks ck now d).
Proof.
  unfold storePayload. destruct payloads as [port|] eqn:Hp; [|apply keeps_ret].
  destruct (JSON_stringify d); [|keep]. apply keeps_bind; [keep|]. intros _.
  apply keeps_bind; [by apply create_keeps_revoked|]. intros cl.
  apply keeps_bind; [by apply blob_keeps|]. keep.
Qed.

(** A read of the index finds it revoked. *)
Lemma wp_get_revoked {A} (f : option DurableRecord → M S A) Q s :
  revoked_until T k (view s) →
  (∀ r i s', decodeSourceIndex (Some r) = Ok (Some i) → ix_revoked i = true →
     revoked_until T k (view s') → wp (f (Some r)) Q s') →
  (∀ e s', revoked_until T k (view s') → Q (Throw e) s') →
  wp (ds_get k ≫= f) Q s.
Proof.
  intros Hs Hok Hfail. apply wp_bind. eapply (wp_atomic view env); [apply get_atomic|..].
  - intros m s' He Hv. destruct (mem_get_spec k m) as [Hm Hr]. rewrite Hm in Hv.
    assert (HR : revoked_until T k (view s')) by (rewrite Hv; by eapply Henv).
    destruct Hr as [[e ->]| ->]; [by apply Hfail|].
    pose proof HR as [_ (r & i & Hr & Hi & Hrev & _)]. rewrite Hv in Hr. rewrite Hr. by eapply Hok.
  - intros e m s' He Hv. destruct (mem_get_spec k m) as [Hm _]. rewrite Hm in Hv.
    apply Hfail. destruct Hv as [->| ->]; by eapply Henv.
Qed.

Context (params : DocumentCacheIdentity) (Hscope : ownershipScope params = scope)
  (Hsource : sourceIdentity params = source).

Lemma ensureSourceIndex_refuses bk e s :
  revoked_until T k (view s) →
  wp (ensureSourceIndex maxCasAttempts k bk params e)
    (λ r s', revoked_until T k (view s') ∧ r ≠ Ok true) s.
Proof.
  intros Hs. unfold ensureSourceIndex. destruct maxCasAttempts as [|n]; [by apply wp_throw|].
  cbn [attempts]. apply wp_bind. apply wp_get_revoked; [done| |by auto].
  intros r i s' Hi Hrev HR. apply wp_lift_bind; rewrite Hi; [|done]. intros ? [= <-].
  apply wp_throw_if; [by auto|]. intros _. rewrite Hrev. by apply wp_ret.
Qed.

Lemma request_index_key q : request_keys params = Ok q →
  q_index q = k ∧ q_core q ≠ k ∧ q_binding q ≠ k.
Proof.
  unfold request_keys. intros (ks & _ & [= <-])%result_bind_Ok. cbn.
  rewrite Hscope, Hsource. done.
Qed.

Lemma lookup_records_refuses config q s :
  request_keys params = Ok q → revoked_until T k (view s) →
  wp (lookup_records payloads maxCasAttempts config params q)
    (λ r s', revoked_until T k (view s') ∧ ∀ d h, r ≠ Ok (LookupHit d h)) s.
Proof.
  intros Hq Hs. destruct (request_index_key q Hq) as (Hk & _). unfold lookup_records.
  apply wp_attempt. eapply wp_mono; [by apply get_keeps|]. intros r1 s1 H1. cbn.
  apply wp_attempt. eapply wp_mono; [by apply get_keeps|]. intros r2 s2 H2. cbn.
  rewrite Hk. apply wp_bind.
  assert (H3 : wp (attempt (ds_get k)) (λ r s', revoked_until T k (view s') ∧
    match r with
    | Ok (inl o) => ∃ rec i, o = Some rec ∧ decodeSourceIndex (Some rec) = Ok (Some i) ∧ ix_revoked i = true
    | Ok (inr _) => True
    | Throw _ => False
    end) s2).
  { assert (Hg : wp (ds_get k ≫= mret) (λ r s', revoked_until T k (view s') ∧
      match r with
      | Ok o => ∃ rec i, o = Some rec ∧ decodeSourceIndex (Some rec) = Ok (Some i) ∧ ix_revoked i = true
      | Throw _ => True end) s2).
    { apply wp_get_revoked; [done| |by auto]. intros r i s' ? ? ?. apply wp_ret. split; [done|]. by exists r, i. }
    unfold wp, attempt, mbind, M_bind in *. by destruct (ds_get k s2) as [[] ?]. }
  eapply wp_mono; [exact H3|]. intros [ir|e] s3 [HR Hir]; [|done].
  assert (Hthrow : ∀ e, revoked_until T k (view s3) ∧ ∀ d h, Throw e ≠ Ok (LookupHit d h)) by (split; done).
  apply wp_lift_bind; [intros cr _|done]. apply wp_lift_bind; [intros br _|done].
  apply wp_lift_bind; [intros ? Hset|done]. destruct ir as [ir|]; [|done]. injection Hset as <-.
  destruct Hir as (rec & i & -> & Hi & Hrev).
  apply wp_lift_bind; [intros core _|done]. apply wp_lift_bind; [intros b _|done].
  apply wp_lift_bind; rewrite Hi; [intros ? [= <-]|done].
  assert (Hno : ∀ br, wp (mret (no_hit b (Some i) br) : M S _)
    (λ r s', revoked_until T k (view s') ∧ ∀ d h, r ≠ Ok (LookupHit d h)) s3).
  { intros br'. apply wp_ret. split; [done|]. unfold no_hit. intros d h. by case_match. }
  destruct core as [c|]; [|apply Hno]. cbn [index_revoked]. rewrite Hrev. cbn [negb andb].
  destruct b as [b|].
  - unfold binding_valid. rewrite Hrev. cbn [negb andb]. apply wp_lift_bind; [intros ? [= <-]|done].
    apply wp_lift_bind; [intros ? [= <-]|done]. apply Hno.
  - apply wp_lift_bind; [intros ? [= <-]|done]. apply wp_lift_bind; [intros ? [= <-]|done]. apply Hno.
Qed.

Lemma lookup_refuses config s :
  revoked_until T k (view s) →
  wp (lookup payloads maxCasAttempts config params)
    (λ r s', revoked_until T k (view s') ∧ ∀ d h, r ≠ Ok (LookupHit d h)) s.
Proof.
  intros Hs. unfold lookup. apply wp_lift_bind; [intros _ _|done]. case_match.
  - apply wp_lift_bind; [intros q Hq|done]. apply wp_attempt.
    eapply wp_mono; [by apply lookup_records_refuses|]. intros [x|e] s' [HR Hx]; apply wp_ret.
    + split; [done|]. intros d h. destruct x; naive_solver.
    + by split.
  - by apply wp_ret.
  - by apply wp_ret.
Qed.

(** Nor is anything stored for it, even by a commit whose lookup came before
    the revocation. *)
Lemma commit_records_refuses q execution d e s :
  request_keys params = Ok q → revoked_until T k (view s) →
  wp (commit_records payloads maxCasAttempts q params execution d e)
    (λ r s', revoked_until T k (view s') ∧ ∀ c, r = Ok c → stored c = false) s.
Proof.
  intros Hq Hs. destruct (request_index_key q Hq) as (Hk & Hcore & _). unfold commit_records.
  assert (Hfail : ∀ s', revoked_until T k (view s') → ∀ e : thrown, revoked_until T k (view s') ∧
    ∀ c : DocumentCacheCommitResult js_value, Throw e = Ok c → stored c = false) by (split; done).
  apply wp_bind. eapply wp_mono; [by apply storePayload_keeps|]. intros [sp|?] s1 H1; [|by auto].
  apply wp_bind. eapply (wp_mono _ (λ _ s', revoked_until T k (view s'))).
  { case_match; [by apply replaceRecord_keeps|by apply createCoreIfMissing_keeps]. }
  intros [sc|?] s2 H2; [|by auto].
  apply wp_bind. rewrite Hk. eapply wp_mono; [by apply ensureSourceIndex_refuses|].
  intros [[]|?] s3 [H3 Hno]; [done| |by auto]. cbn [negb].
  apply wp_bind. eapply wp_mono; [by apply deleteUnusedPayload_keeps|].
  intros [[]|?] s4 H4; [|by auto]. apply wp_ret. split; [done|]. by intros c [= <-].
Qed.

Lemma commit_refuses config execution d s :
  revoked_until T k (view s) →
  wp (commit payloads maxCasAttempts config params execution d)
    (λ r s', revoked_until T k (view s') ∧ ∀ c, r = Ok c → stored c = false) s.
Proof.
  intros Hs. unfold commit. apply wp_lift_bind; [intros _ _|done].
  apply wp_lift_bind; [intros _ _|done].
  case_match; [apply wp_ret; split; [done|]; by intros c [= <-]|].
  case_match; [apply wp_ret; split; [done|]; by intros c [= <-]|].
  apply wp_lift_bind; [intros q Hq|done]. apply wp_attempt.
  eapply wp_mono; [by apply commit_records_refuses|]. intros [c|e] s' [HR Hc]; apply wp_ret.
  - split; [done|]. intros c' [= <-]. by apply Hc.
  - split; [done|]. by intros c' [= <-].
Qed.
End revocation.

(** ** What is written is read back *)

Lemma num_json_exact x : json_exact (num_json x) = true.
Proof. unfold num_json. by case_match. Qed.

Lemma index_json_exact i : json_exact (index_json i) = true.
Proof.
  unfold index_json. cbn. rewrite !num_json_exact, bool_decide_true by (apply (bool_decide_eq_true_1 _); reflexivity).
  cbn. rewrite !andb_true_r. apply forallb_forall. intros v Hv.
  apply in_map_iff in Hv as (s & <- & _). done.
Qed.

Lemma num_json_number x z : as_number (num_json x) = Some z → z = to_Z x.
Proof. unfold num_json. destruct (isInteger x); cbn; congruence. Qed.

Lemma index_of_json_written i i' : index_of_json (index_json i) = Some i' →
  ix_revoked i' = ix_revoked i ∧ ix_expiresAt i' = int (to_Z (ix_expiresAt i)).
Proof.
  unfold index_of_json. intros H. do 8 (apply bind_Some in H as (? & _ & H)).
  apply bind_Some in H as (e & He & H). apply bind_Some in H as (rv & Hx & H). injection H as <-.
  change (Some (ix_revoked i) = Some rv) in Hx. injection Hx as <-.
  change (as_number (num_json (ix_expiresAt i)) = Some e) in He. by rewrite (num_json_number _ _ He).
Qed.

Lemma index_of_json_keys v i :
  index_of_json v = Some i → Forall (λ k, startsWith k "document-cache.binding." = true) (ix_bindingKeys i).
Proof.
  unfold index_of_json. intros H. do 5 (apply bind_Some in H as (? & _ & H)).
  apply bind_Some in H as (Hk & _ & H).
  do 4 (apply bind_Some in H as (? & _ & H)). injection H as <-. cbn.
  apply Forall_forall. intros s Hs. apply (proj1 (forallb_forall _ _) Hk). by apply list_elem_of_In.
Qed.

(** ** [revokeAllSourceBindings] *)

Section revoke.
Context {S : Type} `{Sha : !Sha256Api} `{Port : !DurableRecordStorePort S}
  (payloads : option (ImmutableBlobPort S)) (maxCasAttempts : nat)
  (view : S → memory) (env : memory → memory → Prop) `{Laws : !DurableStoreLaws view env}
  (scope source : string).
Notation k := (sourceIndexRecordKey scope source).

(** Attempts from states of which [P] holds; an attempt that goes round again
    leaves such a state. *)
Lemma wp_attempts_from {A} n e (body : M S (option A)) (P : memory → Prop) (Q : result A → S → Prop) s :
  (∀ s, P (view s) → wp body (λ r s', match r with
     | Ok (Some a) => Q (Ok a) s' | Ok None => P (view s') | Throw e' => Q (Throw e') s' end) s) →
  (∀ s, Q (Throw e) s) →
  P (view s) → wp (attempts n e body) Q s.
Proof.
  intros Hb He. revert s. induction n as [|n IH]; intros s Hs; cbn; [by apply wp_throw|].
  apply wp_bind. eapply wp_mono; [by apply Hb|]. intros [[a|]|e'] s' Hr; [by apply wp_ret|by apply IH|done].
Qed.

Lemma wp_attempts {A} n e (body : M S (option A)) (Q : result A → S → Prop) s :
  (∀ s, wp body (λ r s', match r with
     | Ok (Some a) => Q (Ok a) s' | Ok None => True | Throw e' => Q (Throw e') s' end) s) →
  (∀ s, Q (Throw e) s) →
  wp (attempts n e body) Q s.
Proof.
  intros Hb He. revert s. induction n as [|n IH]; intros s; cbn; [by apply wp_throw|].
  apply wp_bind. eapply wp_mono; [apply Hb|]. intros [[a|]|e'] s' Hr; [by apply wp_ret|apply IH|done].
Qed.

Lemma decoded_expiry r i : decodeSourceIndex (Some r) = Ok (Some i) → ∃ e, ix_expiresAt i = int e.
Proof.
  unfold decodeSourceIndex, decode_as. intros (v & _ & Hv)%result_bind_Ok.
  destruct (index_of_json v) eqn:Hi; [|done]. injection Hv as ->. unfold index_of_json in Hi.
  do 10 (apply bind_Some in Hi as (? & _ & Hi)). injection Hi as <-. by eexists.
Qed.

Lemma decodeSourceIndex_keys r i : decodeSourceIndex (Some r) = Ok (Some i) →
  Forall (λ bk, startsWith bk "document-cache.binding." = true) (ix_bindingKeys i).
Proof.
  unfold decodeSourceIndex, decode_as. intros (v & _ & Hv)%result_bind_Ok.
  destruct (index_of_json v) eqn:Hi; [|done]. injection Hv as ->. by eapply index_of_json_keys.
Qed.

Lemma written_index r i i' :
  value r = encode (index_json i) → decodeSourceIndex (Some r) = Ok (Some i') →
  ix_revoked i' = ix_revoked i ∧ ix_expiresAt i' = int (to_Z (ix_expiresAt i)).
Proof.
  unfold decodeSourceIndex, decode_as, encode. intros ->.
  rewrite (JSON_parse_exact _ (index_json_exact _)).
  change (Ok ?a ≫= ?f) with (f a). cbv beta.
  destruct (index_of_json _) as [d|] eqn:Hi; [|done]. intros [= ->].
  by apply index_of_json_written.
Qed.

(** The loop of [revokeAllSourceBindings]. *)
Definition revoke_index (now : number) : M S (option DurableSourceBindingIndex) :=
  attempts maxCasAttempts (TError "durable document cache source index CAS retry limit exceeded") (
    record ← ds_get k;
    decoded ← lift (decodeSourceIndex record);
    match record, decoded with
    | Some r, Some index =>
        lift (throw_if (negb (bool_decide (ix_ownershipScope index = scope)) ||
                        negb (bool_decide (ix_sourceIdentity index = source)))
          (TError "durable document cache source index binding mismatch"));;
        if ix_revoked index then mret (Some (Some index))
        else
          let expires := num_max (ix_expiresAt index) (num_add now (int 1)) in
          swapped ← ds_compareAndSwap k (revision r)
            (record_write (index_json (index <| ix_revoked := true |> <| ix_updatedAt := now |>
                             <| ix_expiresAt := expires |>)) now expires);
          match swapped with
          | Updated r' => index' ← lift (decodeSourceIndex (Some r')); mret (Some index')
          | Missing => mret (Some None)
          | Conflict _ => mret None
          end
    | _, _ => mret (Some None)
    end).

Lemma revoke_index_keys now s :
  wp (revoke_index now) (λ r s', ∀ i, r = Ok (Some i) →
    Forall (λ bk, startsWith bk "document-cache.binding." = true) (ix_bindingKeys i)) s.
Proof.
  apply wp_attempts; [|done]. intros s0. eapply (wp_get_any view env); [|done]. intros s1.
  apply wp_lift_bind; [|done]. intros d Hd.
  destruct (map_get k (view s1)) as [r|], d as [i|]; try by apply wp_ret.
  apply wp_throw_if; [done|]. intros _. destruct (ix_revoked i).
  - apply wp_ret. intros i' [= <-]. by eapply decodeSourceIndex_keys.
  - eapply (wp_cas_any view env); [|intros; by apply wp_ret..|done].
    intros r' s2 _. apply wp_lift_bind; [|done]. intros d' Hd'. apply wp_ret. intros i' [= ->].
    by eapply decodeSourceIndex_keys.
Qed.

(** An expiry is only ever put off. *)
Lemma later_expiry T e now :
  bad_now now = false → num_ltb (int T) (int e) = true →
  (T < to_Z (num_max (int e) (num_add now (int 1))))%Z.
Proof.
  unfold bad_now, isSafeInteger. intros (Hsafe & _)%orb_false_iff. reflect.
  destruct now as [| | |n d]; try done. rewrite num_ltb_int. intros Hlt%Z.ltb_lt.
  unfold num_max, num_add, int. case_match eqn:Hle; unfold to_Z; [|rewrite Z.div_1_r; lia].
  unfold num_leb in Hle. apply Z.leb_le in Hle. apply (Z.lt_le_trans _ e); [lia|].
  apply Z.div_le_lower_bound; lia.
Qed.

Section lasting.
Context (T : Z) (Hkept : ∀ m m', env m m' → indexed_until T k m → indexed_until T k m').

(** The index it finds or writes is a revoked one. *)
Lemma revoke_index_revokes now s :
  bad_now now = false → indexed_until T k (view s) →
  wp (revoke_index now) (λ r s', ∀ i, r = Ok (Some i) → revoked_until T k (view s')) s.
Proof.
  intros Hnow. apply (wp_attempts_from _ _ _ (indexed_until T k)); [|done]. intros s0 Hs0.
  eapply (wp_get_kept view env); [exact Hkept|exact Hs0| |done]. intros s1 [Hkm (r & i & Hr & Hi & Hl)].
  rewrite Hr. apply wp_lift_bind; rewrite Hi; [|done]. intros ? [= <-].
  apply wp_throw_if; [done|]. intros _. destruct (ix_revoked i) eqn:Hrev.
  - apply wp_ret. intros i' [= <-]. split; [done|]. by exists r, i.
  - assert (Hix : indexed_until T k (view s1)) by (split; [done|by exists r, i]).
    eapply (wp_cas_kept view env); [exact Hkept|exact Hix| |intros; by apply wp_ret..|done].
    intros m r' s2 [Hm _] Hr' Hs2. apply wp_lift_bind; [|done]. intros d' Hd'. apply wp_ret. intros i' [= ->].
    rewrite Hs2. split; [apply keyed_set; [done|exact (keyed_rec _ Hm _ _ Hr')]|].
    eexists _, i'. split; [apply map_get_set_eq|]. split; [done|].
    eapply written_index in Hd' as [Hw He]; [|reflexivity].
    split; [exact Hw|]. pose proof (decoded_expiry _ _ Hi) as [e Hie].
    destruct Hl as [_ Hl]. rewrite Hie in Hl. pose proof (later_expiry T e now Hnow Hl) as Hlater.
    unfold lasts. rewrite He, num_ltb_int, Z.ltb_lt, Hie. by split.
Qed.

Context (Henv : ∀ m m', env m m' → revoked_until T k m → revoked_until T k m').

Lemma binding_key_ne bk : startsWith bk "document-cache.binding." = true → bk ≠ k.
Proof. by intros Hk ->. Qed.

Lemma revokeBindingRecord_keeps bk now :
  bk ≠ k → keeps view (revoked_until T k) (revokeBindingRecord maxCasAttempts bk now).
Proof.
  intros Hne. unfold revokeBindingRecord. apply (attempts_keeps view T scope source).
  apply keeps_bind; [by apply (get_keeps view env)|]. intros o.
  apply keeps_bind; [by apply keeps_lift|]. intros d. destruct o, d; try apply keeps_ret.
  case_match; [apply keeps_ret|]. apply keeps_bind; [by apply (cas_keeps_revoked view env)|].
  intros. apply keeps_ret.
Qed.

Lemma revoke_each_keeps now bks :
  Forall (λ bk, startsWith bk "document-cache.binding." = true) bks →
  keeps view (revoked_until T k) (revoke_each maxCasAttempts now bks).
Proof.
  induction 1 as [|bk bks Hk _ IH]; cbn; [apply keeps_ret|].
  apply keeps_bind; [by apply keeps_attempt, revokeBindingRecord_keeps, binding_key_ne|]. intros r.
  apply keeps_bind; [done|]. intros. apply keeps_ret.
Qed.

Lemma revoke_establishes now s :
  indexed_until T k (view s) →
  wp (revokeAllSourceBindings maxCasAttempts source scope now)
    (λ r s', r = Ok true → revoked_until T k (view s')) s.
Proof.
  intros Hs. unfold revokeAllSourceBindings. apply wp_throw_if; [done|]. intros _. apply wp_throw_if; [done|].
  intros Hnow. apply wp_bind. eapply (wp_mono (revoke_index now)).
  { apply wp_and; [by apply revoke_index_revokes|apply revoke_index_keys]. }
  intros [[i|]|e] s1 [H1 Hks]; [|by apply wp_ret|done]. specialize (H1 i eq_refl). specialize (Hks i eq_refl).
  apply wp_bind. eapply wp_mono; [by apply revoke_each_keeps|]. intros [rs|e] s2 Hs2; [|done].
  apply wp_lift_bind; [|done]. intros _ _. by apply wp_ret.
Qed.
End lasting.
End revoke.

(** ** Sweeps

    A sweep deletes the records a scan reported, as the scan saw them. *)

Section sweeps.
Context {S : Type} `{Port : !DurableRecordStorePort S} (payloads : option (ImmutableBlobPort S))
  (view : S → memory) (env : memory → memory → Prop) `{Laws : !DurableStoreLaws view env}
  (P : memory → Prop) (D : string → Prop)
  (Henv : ∀ m m', env m m' → P m → P m') (Hdel : ∀ m k, D k → P m → P (map_delete k m))
  (Hblobs : ∀ port, payloads = Some port → ∀ b o, keeps view P (blob_deleteIfOwner b o)).

Lemma remove_record_keeps r : D (rec_key r) → keeps view P (remove_record r).
Proof.
  intros Hr. unfold remove_record. apply keeps_bind; [|intros; apply keeps_ret].
  apply (keeps_delete view env _ Henv). intros m r' Hm _ _. by apply Hdel.
Qed.

Lemma blob_stays_keeps b o : keeps view P (blob_stays payloads b o).
Proof.
  unfold blob_stays. destruct payloads as [port|] eqn:Hp; [|apply keeps_ret].
  apply keeps_bind; [by apply Hblobs|intros; apply keeps_ret].
Qed.

Lemma sweep_record_keeps r : D (rec_key r) → keeps view P (sweep_record payloads r).
Proof.
  intros Hr. assert (Hend : ∀ b : bool, keeps view P (if b then mret 0%Z else remove_record r)).
  { intros []; [apply keeps_ret|by apply remove_record_keeps]. }
  unfold sweep_record. apply keeps_bind; [apply keeps_lift|]. intros [c|].
  - apply keeps_bind; [by apply (keeps_get view env)|]. intros o.
    apply keeps_bind; [apply keeps_lift|]. intros core.
    apply keeps_bind; [|apply Hend]. case_match; [apply keeps_ret|apply blob_stays_keeps].
  - apply keeps_bind; [|apply Hend]. destruct (decodeCore (Some r)) as [[c|]|]; try apply keeps_ret.
    destruct (payloadBlob c); [apply blob_stays_keeps|apply keeps_ret].
Qed.

Lemma sweep_records_keeps l : Forall (λ r, D (rec_key r)) l → keeps view P (sweep_records payloads l).
Proof.
  induction 1 as [|r l Hr _ IH]; cbn; [apply keeps_ret|].
  apply keeps_bind; [by apply sweep_record_keeps|]. intros n.
  apply keeps_bind; [done|]. intros. apply keeps_ret.
Qed.
End sweeps.

(** The sweeps of other workers: until [T] none removes the index. *)
Section sweep_index.
Context {S : Type} `{Port : !DurableRecordStorePort S} (payloads : option (ImmutableBlobPort S))
  (view : S → memory) (env : memory → memory → Prop) `{Laws : !DurableStoreLaws view env}
  (T : Z) (k : string) (P : memory → Prop)
  (HP : ∀ m, P m → indexed_until T k m) (Hdel : ∀ m k', k' ≠ k → P m → P (map_delete k' m))
  (Henv : ∀ m m', env m m' → P m → P m')
  (Hblobs : ∀ port, payloads = Some port → ∀ b o, keeps view P (blob_deleteIfOwner b o))
  (Hreports : scan_reports view) (Hexpired : scan_expired S).

Lemma sweep_keeps_index now cursor limit :
  num_leb now (int T) = true → keeps view P (sweepExpiredPage payloads now cursor limit).
Proof.
  intros Hnow s Hs. unfold sweepExpiredPage. apply wp_throw_if; [done|]. intros _. apply wp_bind, wp_intro.
  intros r s1 Hr. pose proof (scan_reads (view := view) (env := env) now cursor (to_Z limit) s) as Hv.
  pose proof (Hreports now cursor (to_Z limit) s) as Hrep. pose proof (Hexpired now cursor (to_Z limit) s) as Hexp.
  rewrite Hr in Hv, Hrep, Hexp. cbn [fst snd] in *. assert (Hs1 : P (view s1)) by eauto.
  destruct r as [page|e]; [|done]. apply wp_bind.
  eapply wp_mono; [eapply (sweep_records_keeps payloads view env P (λ k', k' ≠ k)); [done..| |exact Hs1]|].
  - apply Forall_forall. intros r Hin Hrk. destruct (HP _ Hs1) as [Hk (r0 & i & Hr0 & _ & Hl & _)].
    destruct (Hrep page r eq_refl Hin (keyed_ok _ Hk)) as [k' Hk'].
    pose proof (keyed_rec _ Hk _ _ Hk'). destruct (Hexp page r eq_refl Hin) as (e & He & Hle).
    assert (r0 = r) as -> by congruence. rewrite He in Hl.
    destruct now as [| | |n d]; try done. unfold num_leb, int in *. apply Z.leb_le in Hnow, Hle. nia.
  - intros [n|e] s2 Hs2; [by apply wp_ret|done].
Qed.
End sweep_index.

(** What the workers whose clocks are not past [T] do to the index. *)
Definition within_time (T : Z) (k : string) (m m' : memory) : Prop :=
  (indexed_until T k m → indexed_until T k m') ∧ (revoked_until T k m → revoked_until T k m').

Lemma sweep_keeps_revocation localeCompare T k now cursor limit m :
  num_leb now (int T) = true →
  within_time T k m (sweepExpiredPage (DurableRecordStorePort0 := InMemoryDurableRecordStore localeCompare)
                       None now cursor limit m).2.
Proof.
  intros Hnow.
  assert (Hrep : scan_reports (DurableRecordStorePort0 := InMemoryDurableRecordStore localeCompare) id)
    by (intros ??? m' p r; exact (mem_scan_reports localeCompare _ _ _ m' p r)).
  assert (Hexp : scan_expired memory (DurableRecordStorePort0 := InMemoryDurableRecordStore localeCompare))
    by (intros ??? m' p r; exact (mem_scan_expired localeCompare _ _ _ m' p r)).
  pose proof (memory_store_laws localeCompare) as Hlaws.
  assert (Hkeep : ∀ P : memory → Prop, (∀ m, P m → indexed_until T k m) →
    (∀ m k', k' ≠ k → P m → P (map_delete k' m)) → P m →
    P (sweepExpiredPage (DurableRecordStorePort0 := InMemoryDurableRecordStore localeCompare) None now cursor limit m).2).
  { intros P HP Hdel Hm. eapply (sweep_keeps_index (Port := InMemoryDurableRecordStore localeCompare) None id eq T k P);
      [done|exact Hdel|by intros ?? <-|done..]. }
  split; intros Hm; apply Hkeep; eauto using indexed_until_delete, revoked_until_delete, revoked_until_indexed.
Qed.

(** C24: a revoked source stays out of the durable cache, whoever else is at
    work, for as long as its index is kept.  Let the index of the source be
    there until after [T], and let the others, whatever they do between any two
    store operations, neither remove it nor unrevoke it before: so do the
    workers of this program whose clocks are not past [T], their sweeps
    included ([sweep_keeps_revocation]).  Then once [revokeAllSourceBindings]
    has returned [true], a request of that source never gets a hit and never
    stores anything, and neither does a request that had looked up before and
    commits after; operations may fail. *)
Theorem revoked_source_stays_out {S} `{Sha256Api} `{DurableRecordStorePort S}
    (payloads : option (ImmutableBlobPort S)) (maxCasAttempts : nat)
    (view : S → memory) (env : memory → memory → Prop) T config params
    (execute : M S (DocumentCacheExecution js_value)) execution decision now s :
  let k := sourceIndexRecordKey (ownershipScope params) (sourceIdentity params) in
  let revoke := revokeAllSourceBindings maxCasAttempts (sourceIdentity params)
                  (ownershipScope params) now in
  DurableStoreLaws view env →
  (∀ m m', env m m' → within_time T k m m') →
  blobs_keep payloads view T (ownershipScope params) (sourceIdentity params) →
  keeps view (revoked_until T k) execute →
  indexed_until T k (view s) →
  wp (revoked ← revoke; answer ← process payloads maxCasAttempts config params execute;
      mret (revoked, answer))
    (λ out _, ∀ answer, out = Ok (true, answer) →
       match answer with Cached _ _ => False | Fresh c => stored c = false end) s ∧
  wp (revoked ← revoke; answer ← commit payloads maxCasAttempts config params execution decision;
      mret (revoked, answer))
    (λ out _, ∀ c, out = Ok (true, c) → stored c = false) s.
Proof.
  intros k revoke Hlaws Hothers Hblobs Hexec Hix.
  assert (Henv : ∀ m m', env m m' → revoked_until T k m → revoked_until T k m') by (intros; by apply (Hothers m m')).
  assert (Hrev : wp revoke (λ r s', r = Ok true → revoked_until T k (view s')) s).
  { eapply revoke_establishes; eauto. intros m m' He. by apply (Hothers m m'). }
  split; (apply wp_bind; eapply wp_mono; [exact Hrev|]; clear Hrev; intros [[]|e] s1 Hs1;
    [|apply wp_bind_any; [intros; by apply wp_ret|done]|done];
    specialize (Hs1 eq_refl); apply wp_bind).
  - unfold process. apply wp_bind. eapply wp_mono; [by eapply lookup_refuses|].
    intros [[d h|d]|e] s2 [Hs2 Hno]; [by destruct (Hno d h)| |done].
    apply wp_bind. eapply wp_mono; [by apply Hexec|]. intros [x|e] s3 Hs3; [|done].
    apply wp_bind. eapply wp_mono; [by eapply commit_refuses|]. intros [c|e] s4 [_ Hc]; [|done].
    apply wp_ret, wp_ret. intros a [= <-]. by apply Hc.
  - eapply wp_mono; [by eapply commit_refuses|]. intros [c|e] s2 [_ Hc]; [|done].
    apply wp_ret. intros a [= <-]. by apply Hc.
Qed.

(** ** A concrete run *)

Module DurableDemo.
Definition config : CacheConfig :=
  {| defaultTtlSeconds := int 600; operatorMaxTtlSeconds := None; enabled := true;
     sourceExpirySeconds := None |}.
Definition the_key : ParsedPayloadCacheKey :=
  {| key_ownershipScope := "tenant"; key_contentHash := "sha256-00"; engineId := "groundlane";
     key_engineVersion := "1"; modelId := "none"; key_modelVersion := "none";
     normalizedOptions := "a:b"; schemaVersion := "canonical-document-v1";
     policyVersion := "document-policy-v1" |}.
Definition request_with (ttl : option Z) (src : string) (now : Z) : DocumentCacheIdentity :=
  {| mode := use; key := the_key; sourceIdentity := src; sourceVersion := "1";
     ownershipScope := "tenant"; nowMs := int now; sourceExpiresAt := None;
     requestedTtlSeconds := int <$> ttl; toolName := None; networkPolicyChecked := None |}.
Definition request : string → Z → DocumentCacheIdentity := request_with None.
Definition parsed : DocumentCacheExecution js_value :=
  {| exec_data := JStr "text";
     exec_provenance := {| isOriginal := true; originalCost := 3; prov_engine := "groundlane";
                           prov_model := "none" |} |}.
#[export] Instance digest : Sha256Api := zero_digest.
#[export] Instance port env : DurableRecordStorePort (SharedStore env) :=
  shared_port (λ _ _, 0%Z).

Definition index_key : string := sourceIndexRecordKey "tenant" "a".
(** The index of the demo is kept until after this time. *)
Definition horizon : Z := 600000.
Definition keeps_revoked : memory → memory → Prop := within_time horizon index_key.

Lemma keeps_revoked_laws : DurableStoreLaws (contents (env := keeps_revoked)) keeps_revoked.
Proof.
  apply shared_store_laws; [by intros m|]. intros m1 m2 m3 [H1 H1'] [H2 H2']. by split; auto.
Qed.

(** An expired record of another kind, which another worker's sweep removes. *)
Definition foreign : DurableRecord :=
  {| rec_key := "document-cache.binding.x"; value := "{}"; revision := 7; rec_createdAt := 1;
     rec_updatedAt := 1; rec_expiresAt := Some 5%Z |}.

Definition sweep (m : memory) : memory :=
  (sweepExpiredPage (DurableRecordStorePort0 := InMemoryDurableRecordStore (λ _ _, 0%Z)) None (int 2500) None (int 100) m).2.

Lemma sweep_allowed m : keeps_revoked m (sweep m).
Proof. by apply sweep_keeps_revocation. Qed.

Definition start : SharedStore keeps_revoked := {| contents := []; turns := [] |}.

Definition run (now : Z) : M (SharedStore keeps_revoked) (DocumentCacheProcessResult js_value) :=
  process None 8 config (request "a" now) (mret parsed).

Definition served (r : result (DocumentCacheProcessResult js_value)) : option bool :=
  match r with Ok (Cached _ _) => Some true | Ok (Fresh _) => Some false | Throw _ => None end.

(** A miss, then a hit. *)
Example demo_hit :
  served (run 1000 start).1 = Some false ∧ served (run 2000 (run 1000 start).2).1 = Some true.
Proof. split; vm_compute; reflexivity. Qed.

Definition busy : SharedStore keeps_revoked :=
  {| contents := map_set (rec_key foreign) foreign (contents (run 1000 start).2);
     turns := [Build_turn keeps_revoked _ sweep_allowed None] |}.

Example busy_is_swept : map_has (rec_key foreign) (contents (revokeAllSourceBindings 8 "a" "tenant" (int 2000) busy).2) = false.
Proof. vm_compute. reflexivity. Qed.

Lemma busy_indexed : indexed_until horizon index_key (contents busy).
Proof.
  split.
  - split; [apply (bool_decide_unpack _); vm_compute; exact I|]. intros k r Hr. apply map_get_Some in Hr.
    + vm_compute in Hr. repeat (apply elem_of_cons in Hr as [[= -> ->]|Hr]; [reflexivity|]). by apply elem_of_nil in Hr.
    + apply (bool_decide_unpack _); vm_compute; exact I.
  - destruct (map_get index_key (contents busy)) as [r|] eqn:Hr; [|vm_compute in Hr; discriminate Hr].
    destruct (decodeSourceIndex (Some r)) as [[i|]|] eqn:Hi; vm_compute in Hr; injection Hr as <-;
      vm_compute in Hi; try discriminate Hi.
    eexists _, i. split; [reflexivity|]. injection Hi as <-. split; [vm_compute; reflexivity|].
    split; vm_compute; reflexivity.
Qed.
End DurableDemo.

#[local] Existing Instances DurableDemo.digest DurableDemo.port.

Lemma revoked_source_stays_out_witness :
  let out := (revoked ← revokeAllSourceBindings 8 "a" "tenant" (int 2000);
              answer ← DurableDemo.run 3000; mret (revoked, answer)) DurableDemo.busy in
  ∃ answer, out.1 = Ok (true, answer) ∧
    match answer with Cached _ _ => False | Fresh c => stored c = false end.
Proof.
  intros out.
  assert (Hrun : ∃ answer, out.1 = Ok (true, answer)) by (eexists; vm_compute; reflexivity).
  destruct Hrun as [answer Hanswer]. exists answer. split; [exact Hanswer|].
  destruct (revoked_source_stays_out None 8 contents DurableDemo.keeps_revoked DurableDemo.horizon DurableDemo.config
    (DurableDemo.request "a" 3000) (mret DurableDemo.parsed) DurableDemo.parsed (miss ordinary)
    (int 2000) DurableDemo.busy DurableDemo.keeps_revoked_laws) as [Hprocess _].
  - intros m m' Hm. exact Hm.
  - intros p Hp. discriminate Hp.
  - intros s Hs. exact Hs.
  - exact DurableDemo.busy_indexed.
  - exact (Hprocess answer Hanswer).
Defined.

(** ** An observation

    The index of a revoked source is only kept until the latest expiry of what
    was bound to the source, or a millisecond after the revocation.  A request
    that looked up before the revocation, and commits after a sweep has removed
    the index, stores its result for the source, and later requests hit. *)

Lemma swept_revocation_is_forgotten :
  let port := InMemoryDurableRecordStore (λ _ _, 0%Z) in
  let slow := DurableDemo.request "a" in
  let brief := DurableDemo.request_with (Some 1%Z) "a" in
  let looked := lookup (DurableRecordStorePort0 := port) None 8 DurableDemo.config (slow 900%Z) [] in
  let bound := (process (DurableRecordStorePort0 := port) None 8 DurableDemo.config (brief 1000%Z)
                  (mret DurableDemo.parsed) looked.2).2 in
  let revoked := revokeAllSourceBindings (DurableRecordStorePort0 := port) 8 "a" "tenant" (int 2100) bound in
  let swept := (sweepExpiredPage (DurableRecordStorePort0 := port) None (int 2200) None (int 100) revoked.2).2 in
  ∃ d c, looked.1 = Ok (LookupMiss d) ∧ revoked.1 = Ok true ∧
    let committed := commit (DurableRecordStorePort0 := port) None 8 DurableDemo.config (slow 900%Z)
                       DurableDemo.parsed d swept in
    committed.1 = Ok c ∧ stored c = true ∧
    DurableDemo.served (process (DurableRecordStorePort0 := port) None 8 DurableDemo.config (slow 2300%Z)
                          (mret DurableDemo.parsed) committed.2).1 = Some true.
Proof. do 2 eexists. split; [vm_compute; reflexivity|]. split; [vm_compute; reflexivity|].
  split; [vm_compute; reflexivity|]. split; [vm_compute; reflexivity|]. vm_compute; reflexivity. Qed.
