(* ===== verification/DurableCacheSweep.v ===== *)
(** * Sweeping the durable document cache ends

    [sweepExpired] of [src/core/durable-document-cache.ts] reads pages of
    expired records until a page has no cursor.  The cursors grow, each is the
    key of a record, and a sweep only deletes: so many pages as there are
    records are enough. *)

From S2P Require Import Prelude Interference JsString JsMap Digest Json DurableStore DocumentCache.
From S2P Require Import DurableDocumentCache DurableDocumentCacheSafety.

(** ** The order of keys *)

(** ** Keys of records *)

Definition record_keys (m : memory) : list string := rec_key <$> m.*2.

Lemma record_keys_delete k m : record_keys (map_delete k m) ⊆ record_keys m.
Proof.
  unfold record_keys. induction m as [|[k1 r1] m IH]; cbn; [done|]. case_decide; cbn; set_solver.
Qed.

(** ** Scans *)

(** A scan's next cursor lies after its cursor, and is the key of a record. *)
Definition scan_advances {S} `{DurableRecordStorePort S} (view : S → memory) : Prop :=
  ∀ now cursor limit s, wp (ds_scanExpired now cursor limit) (λ r s',
    ∀ page c, r = Ok page → nextCursor page = Some c →
      str_ltb (default "" cursor) c = true ∧ c ∈ record_keys (view s')) s.

Lemma mem_scan_advances localeCompare now cursor limit m page c :
  (mem_scanExpired localeCompare now cursor limit m).1 = Ok page → nextCursor page = Some c →
  str_ltb (default "" cursor) c = true ∧ c ∈ record_keys m.
Proof.
  unfold mem_scanExpired. intros [= <-]. cbn [nextCursor]. case_match; [|done].
  intros (r & Hlast & ->)%fmap_Some.
  assert (Hr : r ∈ filter (λ r, scannable now cursor r = true) m.*2).
  { apply (elem_of_sort_records localeCompare).
    eapply subseteq_take. apply last_Some in Hlast as [l' ->]. set_solver. }
  apply list_elem_of_filter in Hr as [Hs Hr]. unfold scannable in Hs.
  apply andb_true_iff in Hs as [_ Hs]. split; [done|]. unfold record_keys. by apply list_elem_of_fmap_2.
Qed.

Lemma shared_scan_advances localeCompare env :
  scan_advances (H := shared_port localeCompare) (contents (env := env)).
Proof.
  intros now cursor limit s. unfold wp, ds_scanExpired, shared_port, in_turn. intros page c.
  assert (Hm : ∀ m ts, let out := (let '(r, m') := mem_scanExpired localeCompare now cursor limit m
      in (r, {| contents := m'; turns := ts : list (turn env) |})) in
    out.1 = Ok page → nextCursor page = Some c →
    str_ltb (default "" cursor) c = true ∧ c ∈ record_keys (contents out.2)).
  { intros m ts. destruct (mem_scan_reads localeCompare now cursor limit m) as [p Hp].
    pose proof (mem_scan_advances localeCompare now cursor limit m page c) as Ha.
    rewrite Hp in Ha |- *. exact Ha. }
  destruct (turns s) as [|t ts]; [apply Hm|]. cbv zeta.
  destruct (turn_fault t) as [[]|]; [done..|apply Hm].
Qed.

(** ** The sweep *)

Section sweep.
Context {S : Type} `{Port : !DurableRecordStorePort S}
  (payloads : option (ImmutableBlobPort S))
  (view : S → memory) (env : memory → memory → Prop) `{Laws : !DurableStoreLaws view env}.

(** The records that may be met: none is added during the sweep. *)
Context (K : list string).
Definition within (m : memory) : Prop := record_keys m ⊆ K.
Context (Henv : ∀ m m', env m m' → within m → within m')
  (Hblobs : ∀ port, payloads = Some port → ∀ b o, keeps view within (blob_deleteIfOwner b o))
  (Hscan : scan_advances view).

Lemma sweep_within l : keeps view within (sweep_records payloads l).
Proof.
  apply (sweep_records_keeps payloads view env within (λ _, True)); [done| |done|by apply Forall_true].
  intros m k _ Hm. unfold within in *. etrans; [apply record_keys_delete|done].
Qed.

(** A page leaves fewer keys after its cursor. *)
Definition ahead (cursor : option string) : nat :=
  length (filter (λ k, str_ltb (default "" cursor) k = true) K).

Lemma ahead_decreases cursor c :
  str_ltb (default "" cursor) c = true → c ∈ K → ahead (Some c) < ahead cursor.
Proof.
  intros Hlt. unfold ahead. change (default "" (Some c)) with c. induction K as [|k K' IH]; [by intros ?%elem_of_nil|].
  assert (Hle : ∀ l, length (filter (λ k, str_ltb c k = true) l) ≤
    length (filter (λ k, str_ltb (default "" cursor) k = true) l)).
  { induction l as [|k' l IHl]; [done|]. rewrite !filter_cons.
    destruct (decide (str_ltb c k' = true)) as [H1|]; [|destruct (decide _); cbn [length]; lia].
    rewrite decide_True by (by eapply str_ltb_trans). cbn [length]. lia. }
  rewrite elem_of_cons, !filter_cons. intros [<-|Hin].
  - rewrite decide_False, decide_True; [cbn [length]; specialize (Hle K'); lia|done|].
    unfold str_ltb. by rewrite chars_ltb_irrefl.
  - specialize (IH Hin).
    destruct (decide (str_ltb c k = true)) as [H1|]; [|destruct (decide _); cbn [length]; lia].
    rewrite decide_True by (by eapply str_ltb_trans). cbn [length]. lia.
Qed.

Lemma sweep_page_advances now cursor limit s :
  within (view s) →
  wp (sweepExpiredPage payloads now cursor limit) (λ r s', ∀ page, r = Ok page →
    within (view s') ∧ ∀ c, sweep_nextCursor page = Some c → ahead (Some c) < ahead cursor) s.
Proof.
  intros Hs. unfold sweepExpiredPage. apply wp_throw_if; [done|]. intros _. apply wp_bind.
  apply wp_intro. intros r s1 Hr. pose proof (Hscan now cursor (to_Z limit) s) as Ha.
  pose proof (scan_reads (view := view) (env := env) now cursor (to_Z limit) s) as Hv.
  unfold wp in Ha. rewrite Hr in Ha, Hv. cbn [fst snd] in *.
  destruct r as [page|e]; [|done]. assert (Hs1 : within (view s1)) by (by eapply Henv).
  apply wp_bind. eapply wp_mono; [by apply sweep_within|]. intros [n|e] s2 Hs2; [|done].
  apply wp_ret. intros page' [= <-]. split; [done|]. intros c Hc.
  destruct (Ha page c eq_refl Hc) as [Hlt Hin]. apply ahead_decreases; [done|]. by apply Hs1.
Qed.

Lemma sweep_from_ends fuel now cursor limit total s :
  within (view s) → ahead cursor < fuel →
  wp (sweep_from payloads fuel now cursor limit total) (λ r _, r ≠ Ok None) s.
Proof.
  revert cursor total s. induction fuel as [|fuel IH]; intros cursor total s Hs Hf; [lia|].
  cbn [sweep_from]. apply wp_bind. eapply wp_mono; [by apply sweep_page_advances|].
  intros [page|e] s1 Hp; [|done]. destruct (Hp page eq_refl) as [Hs1 Hc].
  destruct (sweep_nextCursor page) as [c|]; [|by apply wp_ret].
  apply IH; [done|]. specialize (Hc c eq_refl). lia.
Qed.
End sweep.

(** C25: a sweep of the durable document cache ends, within as many pages as
    there are records when it starts, and one more.  The others may change and
    delete records between any two operations, and operations may fail, as
    long as no record is added; each page's cursor must come after the one
    before, as the in-memory store's does. *)
Theorem sweep_terminates {S} `{DurableRecordStorePort S}
    (payloads : option (ImmutableBlobPort S)) (view : S → memory) (env : memory → memory → Prop)
    now limit s :
  DurableStoreLaws view env →
  (∀ K m m', env m m' → within K m → within K m') →
  (∀ K port, payloads = Some port → ∀ b o, keeps view (within K) (blob_deleteIfOwner b o)) →
  scan_advances view →
  ∀ fuel, length (view s) < fuel →
  wp (sweepExpired payloads fuel now limit) (λ r _, r ≠ Ok None) s.
Proof.
  intros Hlaws Henv Hblobs Hscan fuel Hf. unfold sweepExpired.
  apply (sweep_from_ends payloads view env (record_keys (view s)) (Henv _) (Hblobs _) Hscan);
    [by unfold within|].
  eapply Nat.le_lt_trans; [apply length_filter|].
  unfold record_keys. by rewrite !length_fmap.
Qed.

(** ** A concrete run *)

Module SweepDemo.
#[export] Instance port env : DurableRecordStorePort (SharedStore env) :=
  shared_port (λ a b, if str_ltb a b then (-1)%Z else 1%Z).

Definition shrinks (m m' : memory) : Prop := record_keys m' ⊆ record_keys m.

Definition expired (k : string) : string * DurableRecord :=
  (k, {| rec_key := k; value := "{}"; revision := 1; rec_createdAt := 1; rec_updatedAt := 1;
         rec_expiresAt := Some 5%Z |}).

(** Another sweeper removes a record between the first page's two calls. *)
Definition busy : SharedStore shrinks :=
  {| contents := [expired "b"; expired "a"; expired "d"; expired "c"];
     turns := [Build_turn shrinks (λ m, m) (λ m x Hx, Hx) None;
               Build_turn shrinks (map_delete "c") (record_keys_delete "c") None] |}.

Example demo_sweep : (sweepExpired None 5 (int 10) (Some (int 2)) busy).1 = Ok (Some 3%Z) ∧
                     contents (sweepExpired None 5 (int 10) (Some (int 2)) busy).2 = [].
Proof. split; vm_compute; reflexivity. Qed.
End SweepDemo.

#[local] Existing Instance SweepDemo.port.

Lemma sweep_terminates_witness :
  wp (sweepExpired None 5 (int 10) (Some (int 2))) (λ r _, r ≠ Ok None) SweepDemo.busy.
Proof.
  apply (sweep_terminates None (contents (env := SweepDemo.shrinks)) SweepDemo.shrinks).
  - apply shared_store_laws; [intros m k Hk; exact Hk|].
    intros m1 m2 m3 H1 H2 k Hk. exact (H1 k (H2 k Hk)).
  - intros K m m' Hm Hw k Hk. exact (Hw k (Hm k Hk)).
  - intros K p Hp. discriminate Hp.
  - apply shared_scan_advances.
  - vm_compute. lia.
Defined.

(** ** Two observations *)

(** A page of the in-memory store is sorted by [localeCompare], and the next
    one starts after its last key by code units: where a locale sorts "a"
    before "B", a sweep in pages of one misses the record "B". *)
Lemma locale_order_skips_records :
  let locale a b := if bool_decide (a = "a"%string) then (-1)%Z else 1%Z in
  let m := [SweepDemo.expired "B"; SweepDemo.expired "a"] in
  (sweepExpired (DurableRecordStorePort0 := InMemoryDurableRecordStore locale) None 3 (int 10) (Some (int 1)) m) =
    (Ok (Some 1%Z), [SweepDemo.expired "B"]).
Proof. vm_compute. reflexivity. Qed.

(** A malformed core or binding is removed, but text that is not JSON at all
    stops every sweep before the records behind it. *)
Definition not_json : string * DurableRecord :=
  ("a", {| rec_key := "a"; value := "oops"; revision := 1; rec_createdAt := 1; rec_updatedAt := 1;
           rec_expiresAt := Some 5%Z |}).

Lemma unparsable_record_blocks_sweep :
  let m := [not_json; SweepDemo.expired "b"] in
  sweepExpired (DurableRecordStorePort0 := InMemoryDurableRecordStore (λ _ _, (-1)%Z)) None 3 (int 10) None m =
    (Throw (TError "invalid JSON"), m).
Proof. vm_compute. reflexivity. Qed.
