(* ===== verification/DurableCacheTyping.v ===== *)
(** * The records of the durable document cache are well typed

    Whatever the operations of [src/core/durable-document-cache.ts] write
    decodes again: a store whose records decode keeps that property, so no
    operation of the cache ever makes a record another one refuses as
    malformed. *)

From S2P Require Import Prelude Interference JsString JsMap Digest Json DurableStore DocumentCache.
From S2P Require Import DurableDocumentCache DurableDocumentCacheSafety.

(** ** Kinds of records *)

Inductive record_kind := KCore | KBinding | KIndex | KCleanup.

Definition kind_of (k : string) : option record_kind :=
  if startsWith k "document-cache.core." then Some KCore
  else if startsWith k "document-cache.binding." then Some KBinding
  else if startsWith k "document-cache.source." then Some KIndex
  else if startsWith k "document-cache.cleanup." then Some KCleanup
  else None.

Definition decodes (kd : record_kind) (v : js_value) : Prop :=
  match kd with
  | KCore => is_Some (core_of_json v)
  | KBinding => is_Some (binding_of_json v)
  | KIndex => is_Some (index_of_json v)
  | KCleanup => is_Some (cleanup_of_json v)
  end.

(** The record is JSON text of its key's kind. *)
Definition typed (k : string) (text : string) : Prop :=
  match kind_of k with
  | Some kd => ∃ v, JSON_parse text = Ok v ∧ decodes kd v
  | None => True
  end.

Definition well_typed (m : memory) : Prop := ∀ k r, map_get k m = Some r → typed k (value r).

Lemma binding_kind k : startsWith k "document-cache.binding." = true → kind_of k = Some KBinding.
Proof.
  unfold kind_of, startsWith. intros H. destruct (is_prefix_inv _ _ H) as [t Ht].
  by rewrite Ht.
Qed.

Lemma well_typed_set k r m : typed k (value r) → well_typed m → well_typed (map_set k r m).
Proof.
  intros Hr Hm k' r'. rewrite map_get_set. case_decide; [by intros [= <-]; subst|]. apply Hm.
Qed.

Lemma well_typed_delete k m : well_typed m → well_typed (map_delete k m).
Proof. intros Hm k' r'. rewrite map_get_delete. case_decide; [done|]. apply Hm. Qed.

(** ** What is encoded decodes *)

Lemma typed_encode k kd v :
  kind_of k = Some kd → json_exact v = true → decodes kd v → typed k (encode v).
Proof. intros Hk Hv Hd. unfold typed. rewrite Hk. exists v. split; [by apply JSON_parse_exact|done]. Qed.

Lemma num_json_int x : isInteger x = true → num_json x = JNum (to_Z x).
Proof. unfold num_json. by intros ->. Qed.

Lemma as_strings_map l : as_strings (JArr (map JStr l)) = Some l.
Proof. cbn. induction l as [|s l IH]; [done|]. cbn. by rewrite IH. Qed.

Definition index_ok (i : DurableSourceBindingIndex) : Prop :=
  isInteger (ix_createdAt i) = true ∧ isInteger (ix_updatedAt i) = true ∧
  isInteger (ix_expiresAt i) = true ∧
  (Z.of_nat (length (ix_bindingKeys i)) <= MAX_SOURCE_BINDINGS)%Z ∧
  forallb (λ k, startsWith k "document-cache.binding.") (ix_bindingKeys i) = true.

Lemma index_decodes i : index_ok i → decodes KIndex (index_json i).
Proof.
  intros (Hc & Hu & He & Hl & Hk). cbn. unfold index_of_json, index_json.
  rewrite !num_json_int by done.
  set (v := JObj _).
  change (as_string (prop v "ownershipScope")) with (Some (ix_ownershipScope i)).
  change (as_string (prop v "sourceIdentity")) with (Some (ix_sourceIdentity i)).
  change (prop v "bindingKeys") with (JArr (map JStr (ix_bindingKeys i))).
  rewrite as_strings_map. change (has_kind v "document-cache-source-index") with true.
  cbn [mbind option_bind]. do 3 (rewrite option_guard_True by done). by eexists.
Qed.

Lemma binding_decodes b :
  isInteger (db_createdAt b) = true → isInteger (db_expiresAt b) = true →
  decodes KBinding (binding_json b).
Proof. intros Hc He. cbn. unfold binding_json. rewrite !num_json_int by done. by eexists. Qed.

Lemma cleanup_decodes c : decodes KCleanup (cleanup_json c).
Proof. by eexists. Qed.

Lemma binding_json_exact b : json_exact (binding_json b) = true.
Proof. unfold binding_json. cbn. by rewrite !num_json_exact. Qed.

(** The data of a core is inline, and defined all through, or in a blob. *)
Definition core_ok (c : DurableCacheCore) : Prop :=
  isInteger (core_createdAt c) = true ∧ isInteger (core_expiresAt c) = true ∧
  match core_data c, payloadBlob c with
  | Some d, None => json_exact d = true
  | None, Some _ => True
  | _, _ => False
  end.

Lemma core_json_exact c : core_ok c → json_exact (core_json c) = true.
Proof.
  intros (_ & _ & Hd). unfold core_json. destruct c as [? ? ? [d|] [b|] ? ? ?]; try done; cbn in Hd |- *;
    by rewrite !num_json_exact, ?Hd.
Qed.

Lemma core_decodes c : core_ok c → decodes KCore (core_json c).
Proof.
  intros (Hc & He & Hd). cbn. unfold core_json. rewrite !num_json_int by done.
  destruct c as [k ks p [d|] [b|] prov ? ?]; try done; destruct k, prov; by eexists.
Qed.

(** ** Operations that keep the records well typed *)

Section typing.
Context {S : Type} `{Sha : !Sha256Api} `{Port : !DurableRecordStorePort S}
  (payloads : option (ImmutableBlobPort S)) (maxCasAttempts : nat)
  (view : S → memory) (env : memory → memory → Prop) `{Laws : !DurableStoreLaws view env}
  (Henv : ∀ m m', env m m' → well_typed m → well_typed m').

Notation keeps_typed := (keeps view well_typed).

Context (Hblobs : ∀ port, payloads = Some port →
  (∀ b o d c, keeps_typed (blob_putIfAbsent b o d c)) ∧
  (∀ b o d n, keeps_typed (blob_get b o d n)) ∧
  (∀ b o, keeps_typed (blob_deleteIfOwner b o))).

Lemma typed_get k : keeps_typed (ds_get k).
Proof. apply (keeps_get view env _ Henv). Qed.

Lemma valid_write u : validateDurableWrite u = Ok tt →
  isInteger (upd_nowMs u) = true ∧ ∀ e, upd_expiresAt u = Some e → isInteger e = true.
Proof.
  unfold validateDurableWrite. intros (_ & _ & H)%result_bind_Ok.
  apply result_bind_Ok in H as ([] & Hn & He).
  apply throw_if_Ok in Hn. apply throw_if_Ok in He.
  apply orb_false_iff in Hn as [Hn%negb_false_iff _]. apply andb_true_iff in Hn as [Hn _].
  split; [done|]. intros e Hu. rewrite Hu in He. apply orb_false_iff in He as [He%negb_false_iff _].
  by apply andb_true_iff in He as [He _].
Qed.

(** A valid write of a text of the key's kind. *)
Definition good_write (k : string) (u : DurableRecordUpdate) : Prop :=
  validateDurableWrite u = Ok tt → typed k (upd_value u).

Lemma typed_create k v now e :
  good_write k (record_write v now e) → keeps_typed (ds_createIfAbsent (new_durable k v now e)).
Proof.
  intros Hw. eapply (keeps_atomic view env _ Henv); [apply create_atomic|]. intros m Hm.
  unfold mem_createIfAbsent. rewrite lift_bind. destruct (validateDurableKey _); [|done].
  rewrite lift_bind. destruct (validateDurableWrite _) as [[]|] eqn:Hv; [|done].
  unfold mbind, M_bind, get, update, mret, M_ret. cbn. case_match; [done|].
  apply well_typed_set; [by apply Hw|done].
Qed.

Lemma typed_cas k rev v now e :
  good_write k (record_write v now e) → keeps_typed (ds_compareAndSwap k rev (record_write v now e)).
Proof.
  intros Hw. eapply (keeps_atomic view env _ Henv); [apply cas_atomic|]. intros m Hm.
  unfold mem_compareAndSwap. rewrite lift_bind. destruct (validateDurableKey _); [|done].
  rewrite lift_bind. destruct (validateDurableWrite _) as [[]|] eqn:Hv; [|done].
  unfold mbind, M_bind, get, update, mret, M_ret. cbn. case_match; [|done]. case_match; [done|].
  apply well_typed_set; [by apply Hw|done].
Qed.

Lemma typed_delete k rev : keeps_typed (ds_deleteIfRevision k rev).
Proof. apply (keeps_delete view env _ Henv). intros. by apply well_typed_delete. Qed.

Lemma typed_attempts {A} n e (body : M S (option A)) : keeps_typed body → keeps_typed (attempts n e body).
Proof.
  intros Hb. induction n as [|n IH]; cbn; [apply keeps_throw|].
  apply keeps_bind; [done|]. intros []; [apply keeps_ret|done].
Qed.

Ltac typed := repeat (intros; first
  [ assumption | apply keeps_ret | apply keeps_lift | apply keeps_throw | apply typed_get
  | apply typed_delete | apply keeps_bind | apply typed_attempts | apply keeps_attempt
  | case_match | done ]).

Lemma typed_deleteUnusedPayload c w : keeps_typed (deleteUnusedPayload payloads c w).
Proof.
  unfold deleteUnusedPayload. destruct c as [c|]; [|typed]. destruct (payloadBlob c); [|typed].
  case_match; [typed|]. destruct payloads as [port|] eqn:Hp; [|typed].
  apply keeps_bind; [by apply (Hblobs port)|typed].
Qed.

Lemma typed_loadCoreData c : keeps_typed (loadCoreData payloads c).
Proof.
  unfold loadCoreData. destruct (payloadBlob c); [|typed].
  destruct payloads as [port|] eqn:Hp; [|typed]. apply keeps_bind; [by apply (Hblobs port)|typed].
Qed.

(** The core a commit writes at [now], until [e]. *)
Definition core_shape (c : DurableCacheCore) (now e : number) : Prop :=
  core_createdAt c = now ∧ core_expiresAt c = e ∧
  match core_data c, payloadBlob c with
  | Some d, None => json_exact d = true
  | None, Some _ => True
  | _, _ => False
  end.

Lemma good_core k c now e :
  kind_of k = Some KCore → core_shape c now e → good_write k (record_write (core_json c) now e).
Proof.
  intros Hk (Hc & He & Hd) Hv. apply valid_write in Hv as [Hn Hx]. cbn in Hn, Hx.
  assert (core_ok c) by (split_and!; [by rewrite Hc|by rewrite He; apply Hx|done]).
  eapply typed_encode; [exact Hk|by apply core_json_exact|by apply core_decodes].
Qed.

Lemma good_binding k b now e :
  kind_of k = Some KBinding → db_expiresAt b = e →
  (isInteger now = true → isInteger (db_createdAt b) = true) →
  good_write k (record_write (binding_json b) now e).
Proof.
  intros Hk He Hc Hv. apply valid_write in Hv as [Hn Hx]. cbn in Hn, Hx.
  eapply typed_encode; [exact Hk|apply binding_json_exact|].
  apply binding_decodes; [by apply Hc|rewrite He; by apply Hx].
Qed.

Lemma typed_replaceRecord k c now e :
  kind_of k = Some KCore → core_shape c now e →
  keeps_typed (replaceRecord payloads maxCasAttempts k c now e).
Proof.
  intros Hk Hc. pose proof (good_core k c now e Hk Hc) as Hw.
  unfold replaceRecord, require_core. apply typed_attempts, keeps_bind; [typed|]. intros [r|].
  - apply keeps_bind; [by apply typed_cas|]. intros []; [|typed..].
    apply keeps_bind; [typed|]. intros. apply keeps_bind; [typed|]. intros.
    apply keeps_bind; [apply typed_deleteUnusedPayload|typed].
  - apply keeps_bind; [by apply typed_create|typed].
Qed.

Lemma typed_createCoreIfMissing k c now e :
  kind_of k = Some KCore → core_shape c now e →
  keeps_typed (createCoreIfMissing payloads maxCasAttempts k c now e).
Proof.
  intros Hk Hc. pose proof (good_core k c now e Hk Hc) as Hw. unfold createCoreIfMissing, require_core.
  apply keeps_bind; [by apply typed_create|]. intros [r|r]; [typed|].
  apply keeps_bind; [typed|]. intros ex. case_match.
  - apply keeps_bind; [apply typed_deleteUnusedPayload|typed].
  - apply keeps_bind; [by apply typed_replaceRecord|typed].
Qed.

Lemma typed_storePayload o ks ck now d : keeps_typed (storePayload payloads o ks ck now d).
Proof.
  unfold storePayload. destruct payloads as [port|] eqn:Hp; [|typed].
  destruct (JSON_stringify d); [|typed]. apply keeps_bind; [typed|]. intros _. apply keeps_bind.
  - apply typed_create. intros _. eapply typed_encode; [|by vm_compute|apply cleanup_decodes]. done.
  - intros cl. apply keeps_bind; [by apply (Hblobs port)|typed].
Qed.
Lemma typed_upsertRecord k b now :
  kind_of k = Some KBinding → (isInteger now = true → isInteger (db_createdAt b) = true) →
  keeps_typed (upsertRecord maxCasAttempts k (binding_json b) now (db_expiresAt b)).
Proof.
  intros Hk Hc. pose proof (good_binding k b now _ Hk eq_refl Hc) as Hw.
  unfold upsertRecord. apply typed_attempts, keeps_bind; [typed|]. intros [r|].
  - apply keeps_bind; [by apply typed_cas|typed].
  - apply keeps_bind; [by apply typed_create|typed].
Qed.

Lemma typed_upsertRecordFenced k b now rev :
  kind_of k = Some KBinding → (isInteger now = true → isInteger (db_createdAt b) = true) →
  keeps_typed (upsertRecordFenced k b now rev).
Proof.
  intros Hk Hc. pose proof (good_binding k b now _ Hk eq_refl Hc) as Hw.
  unfold upsertRecordFenced. destruct rev.
  - apply keeps_bind; [by apply typed_cas|typed].
  - apply keeps_bind; [by apply typed_create|typed].
Qed.

Lemma good_index k i now e :
  kind_of k = Some KIndex → isInteger (ix_createdAt i) = true ∨ ix_createdAt i = now →
  ix_updatedAt i = now → ix_expiresAt i = e →
  (Z.of_nat (length (ix_bindingKeys i)) <= MAX_SOURCE_BINDINGS)%Z →
  forallb (λ k, startsWith k "document-cache.binding.") (ix_bindingKeys i) = true →
  good_write k (record_write (index_json i) now e).
Proof.
  intros Hk Hc Hu He Hl Hks Hv. apply valid_write in Hv as [Hn Hx]. cbn in Hn, Hx.
  eapply typed_encode; [exact Hk|apply index_json_exact|]. apply index_decodes.
  split_and!; [by destruct Hc as [| ->]|by rewrite Hu|rewrite He; by apply Hx|done|done].
Qed.

Lemma decoded_index r i : decodeSourceIndex r = Ok (Some i) → index_ok i.
Proof.
  unfold decodeSourceIndex, decode_as. destruct r as [r|]; [|done].
  intros (v & _ & Hv)%result_bind_Ok. destruct (index_of_json v) as [i'|] eqn:Hi; [|done].
  injection Hv as ->. unfold index_of_json in Hi. do 4 (apply bind_Some in Hi as (? & _ & Hi)).
  apply bind_Some in Hi as (Hl & _ & Hi). apply bind_Some in Hi as (Hk & _ & Hi).
  do 4 (apply bind_Some in Hi as (? & _ & Hi)). injection Hi as <-.
  unfold index_ok. cbn [ix_createdAt ix_updatedAt ix_expiresAt ix_bindingKeys].
  split_and!; [apply isInteger_int..|done|done].
Qed.

Lemma decoded_binding r b :
  decodeBinding r = Ok (Some b) → isInteger (db_createdAt b) = true.
Proof.
  unfold decodeBinding, decode_as. destruct r as [r|]; [|done].
  intros (v & _ & Hv)%result_bind_Ok. destruct (binding_of_json v) as [b'|] eqn:Hi; [|done].
  injection Hv as ->. unfold binding_of_json in Hi. do 8 (apply bind_Some in Hi as (? & _ & Hi)).
  injection Hi as <-. apply isInteger_int.
Qed.

Lemma typed_ensureSourceIndex k bk params e :
  kind_of k = Some KIndex → startsWith bk "document-cache.binding." = true →
  keeps_typed (ensureSourceIndex maxCasAttempts k bk params e).
Proof.
  intros Hk Hbk. unfold ensureSourceIndex. apply typed_attempts, keeps_bind; [typed|]. intros o.
  apply keeps_lift_bind. intros d Hd.
  assert (Hnew : keeps_typed (created ← ds_createIfAbsent (new_durable k
    (index_json {| ix_ownershipScope := ownershipScope params; ix_sourceIdentity := sourceIdentity params;
       ix_bindingKeys := [bk]; ix_createdAt := nowMs params; ix_updatedAt := nowMs params;
       ix_expiresAt := e; ix_revoked := false |}) (nowMs params) e);
    mret (match created with Created _ => Some true | Exists _ => None end))).
  { apply keeps_bind; [|typed]. apply typed_create, good_index;
      [done|by right|done|done|vm_compute; discriminate|]. cbn [forallb ix_bindingKeys]. by rewrite Hbk. }
  destruct o as [r|], d as [i|]; try exact Hnew.
  destruct (decoded_index _ _ Hd) as (Hc & _ & _ & Hl & Hks).
  apply keeps_lift_bind. intros _ _. destruct (ix_revoked i); [typed|]. cbv zeta.
  apply keeps_lift_bind. intros _ Hlen%throw_if_Ok. reflect.
  destruct (bool_decide (bk ∈ ix_bindingKeys i) && _); [typed|].
  apply keeps_bind; [|typed]. apply typed_cas, good_index; try done; [by left|].
  change (forallb (λ k, startsWith k "document-cache.binding.")
    (if bool_decide (bk ∈ ix_bindingKeys i) then ix_bindingKeys i else ix_bindingKeys i ++ [bk]) = true).
  case_match; [done|]. rewrite forallb_app, Hks. cbn [forallb andb]. by rewrite Hbk.
Qed.

Lemma typed_revokeBindingRecord k now :
  kind_of k = Some KBinding → keeps_typed (revokeBindingRecord maxCasAttempts k now).
Proof.
  intros Hk. unfold revokeBindingRecord. apply typed_attempts, keeps_bind; [typed|]. intros o.
  apply keeps_lift_bind. intros d Hd. destruct o as [r|], d as [b|]; try typed.
  apply typed_cas, good_binding; [done..|]. intros _.
  change (isInteger (db_createdAt b) = true). by eapply decoded_binding.
Qed.

(** ** Lookups, commits, revocations *)

Lemma request_kinds params q : request_keys params = Ok q →
  kind_of (q_core q) = Some KCore ∧ startsWith (q_binding q) "document-cache.binding." = true ∧
  kind_of (q_index q) = Some KIndex.
Proof. unfold request_keys. by intros (ks & _ & [= <-])%result_bind_Ok. Qed.

Lemma typed_rebind q params c e :
  request_keys params = Ok q → keeps_typed (rebind payloads maxCasAttempts q params c e).
Proof.
  intros (_ & Hb & Hi)%request_kinds. unfold rebind. apply keeps_bind; [apply typed_loadCoreData|].
  intros data. apply keeps_bind; [by apply typed_ensureSourceIndex|]. intros []; [|typed].
  apply keeps_bind; [|typed].
  apply (typed_upsertRecord _ (request_binding q params e)); [by apply binding_kind|done].
Qed.

Lemma typed_lookup config params : keeps_typed (lookup payloads maxCasAttempts config params).
Proof.
  unfold lookup. apply keeps_bind; [typed|]. intros _. case_match; [|typed..].
  apply keeps_lift_bind. intros q Hq. apply keeps_bind; [|typed]. apply keeps_attempt.
  unfold lookup_records. do 9 (apply keeps_bind; [typed|intros ?]). destruct a5 as [c|]; [|typed].
  apply keeps_bind; [typed|]. intros []; [apply keeps_bind; [apply typed_loadCoreData|typed]|].
  apply keeps_bind; [typed|]. intros u. cbv zeta. case_match; [by apply typed_rebind|typed].
Qed.
Lemma typed_commit_records q params x d e :
  request_keys params = Ok q → json_exact (exec_data x) = true →
  keeps_typed (commit_records payloads maxCasAttempts q params x d e).
Proof.
  intros (Hc & Hb & Hi)%request_kinds Hx. pose proof (binding_kind _ Hb) as Hbk.
  unfold commit_records. apply keeps_bind; [apply typed_storePayload|]. intros sp.
  assert (Hshape : core_shape {| core_key := key params; core_keyString := q_keyString q;
    core_payloadId := buildPayloadId (q_keyString q);
    core_data := match sp with None => Some (exec_data x) | Some _ => None end;
    payloadBlob := sp_ref <$> sp; core_provenance := exec_provenance x;
    core_createdAt := nowMs params; core_expiresAt := e |} (nowMs params) e)
    by (unfold core_shape; by destruct sp).
  apply keeps_bind.
  { destruct (bool_decide (disposition d = refresh_));
      [by apply typed_replaceRecord|by apply typed_createCoreIfMissing]. }
  intros sc. apply keeps_bind; [by apply typed_ensureSourceIndex|]. intros []; cbn [negb].
  2: { apply keeps_bind; [apply typed_deleteUnusedPayload|typed]. }
  apply keeps_bind.
  { destruct (bool_decide (disposition d = refresh_)); [|by apply typed_upsertRecordFenced]. apply keeps_bind; [|typed].
    by apply (typed_upsertRecord _ (request_binding q params _)). }
  intros []; [|typed]. apply keeps_bind; [typed|]. intros ir. apply keeps_bind; [typed|]. intros i.
  destruct (index_revoked i); [apply keeps_bind; [by apply typed_revokeBindingRecord|typed]|typed].
Qed.

Lemma typed_commit config params x d :
  json_exact (exec_data x) = true → keeps_typed (commit payloads maxCasAttempts config params x d).
Proof.
  intros Hx. unfold commit. apply keeps_bind; [typed|]. intros _. apply keeps_bind; [typed|]. intros _.
  case_match; [typed|]. cbv zeta. case_match; [typed|]. apply keeps_lift_bind. intros q Hq.
  apply keeps_bind; [by apply keeps_attempt, typed_commit_records|typed].
Qed.

Lemma typed_revoke_each now bks :
  Forall (λ bk, startsWith bk "document-cache.binding." = true) bks →
  keeps_typed (revoke_each maxCasAttempts now bks).
Proof.
  induction 1 as [|bk bks Hk _ IH]; cbn; [typed|].
  apply keeps_bind; [by apply keeps_attempt, typed_revokeBindingRecord, binding_kind|typed].
Qed.

Lemma typed_revokeAll source scope now :
  keeps_typed (revokeAllSourceBindings maxCasAttempts source scope now).
Proof.
  unfold revokeAllSourceBindings. apply keeps_bind; [typed|]. intros _. apply keeps_bind; [typed|].
  intros _ s Hs. apply wp_bind.
  eapply (wp_mono _ (λ r s', well_typed (view s') ∧ ∀ i, r = Ok (Some i) → _)).
  - apply wp_and; [|apply (revoke_index_keys maxCasAttempts view env)]. revert s Hs.
    apply typed_attempts, keeps_bind; [typed|]. intros o. apply keeps_lift_bind. intros d Hd.
    destruct o as [r|], d as [i|]; try typed. apply typed_cas.
    destruct (decoded_index _ _ Hd) as (Hc & _ & _ & Hl & Hks). apply good_index; try done; by left.
  - intros [[i|]|e] s1 [Hs1 Hi]; [|by apply wp_ret|done]. pose proof (Hi i eq_refl) as Hks.
    apply keeps_bind; [by apply typed_revoke_each|typed|done].
Qed.

Lemma typed_revokeSource k source scope now :
  keeps_typed (revokeSourceBinding maxCasAttempts k source scope now).
Proof.
  unfold revokeSourceBinding. do 3 (apply keeps_bind; [typed|intros _]).
  apply keeps_bind; [apply typed_revokeAll|]. intros []; [typed|].
  apply keeps_bind; [typed|]. intros ks. by apply typed_revokeBindingRecord.
Qed.
Lemma typed_process config params execute :
  (∀ s, well_typed (view s) → wp execute (λ r s', well_typed (view s') ∧
     ∀ x, r = Ok x → json_exact (exec_data x) = true) s) →
  keeps_typed (process payloads maxCasAttempts config params execute).
Proof.
  intros Hexec. unfold process. apply keeps_bind; [apply typed_lookup|]. intros [|d]; [typed|].
  intros s Hs. apply wp_bind. eapply wp_mono; [by apply Hexec|]. intros [x|e] s1 [Hs1 Hx]; [|done].
  apply keeps_bind; [by apply typed_commit, Hx|typed|done].
Qed.

Lemma typed_blob_stays b o : keeps_typed (blob_stays payloads b o).
Proof.
  unfold blob_stays. destruct payloads as [port|] eqn:Hp; [|typed].
  apply keeps_bind; [by apply (Hblobs port)|typed].
Qed.

Lemma typed_sweep_records l : keeps_typed (sweep_records payloads l).
Proof.
  induction l as [|r l IH]; cbn; [typed|]. apply keeps_bind; [|typed].
  assert (Hend : ∀ b : bool, keeps_typed (if b then mret 0%Z else remove_record r)).
  { intros []; [typed|]. unfold remove_record. typed. }
  unfold sweep_record. apply keeps_bind; [typed|]. intros [c|].
  - do 2 (apply keeps_bind; [typed|intros ?]). apply keeps_bind; [|apply Hend].
    destruct (bool_decide _); [typed|apply typed_blob_stays].
  - apply keeps_bind; [|apply Hend]. destruct (decodeCore (Some r)) as [[c|]|]; [|typed..].
    destruct (payloadBlob c); [apply typed_blob_stays|typed].
Qed.

Lemma typed_sweep fuel now cursor limit total :
  keeps_typed (sweep_from payloads fuel now cursor limit total).
Proof.
  revert cursor total. induction fuel as [|fuel IH]; intros; cbn; [typed|].
  apply keeps_bind; [|intros page; destruct (sweep_nextCursor page); [apply IH|typed]].
  unfold sweepExpiredPage. apply keeps_bind; [typed|]. intros _.
  apply keeps_bind; [|intros page; apply keeps_bind; [apply typed_sweep_records|typed]].
  intros s Hs. eapply Henv; [apply scan_reads|done].
Qed.
End typing.

(** the records of the durable document cache stay well typed.  Starting
    from records that all decode as the kind their key says (none, at first),
    every operation of the cache leaves only such records, so that nothing it
    writes is ever refused as malformed; in particular the blob reference and
    the inline payload exclude each other, the times are integers and an index
    lists at most 128 binding keys.  The data of an execution must be a JSON
    value without undefined parts, and the other parties and the blob store
    must not write malformed records. *)
Theorem durable_records_stay_well_typed {S} `{Sha256Api} `{DurableRecordStorePort S}
    (payloads : option (ImmutableBlobPort S)) (maxCasAttempts fuel : nat)
    (view : S → memory) (env : memory → memory → Prop) config params execute k scope source now limit :
  DurableStoreLaws view env →
  (∀ m m', env m m' → well_typed m → well_typed m') →
  (∀ port, payloads = Some port →
    (∀ b o d c, keeps view well_typed (blob_putIfAbsent b o d c)) ∧
    (∀ b o d n, keeps view well_typed (blob_get b o d n)) ∧
    (∀ b o, keeps view well_typed (blob_deleteIfOwner b o))) →
  (∀ s, well_typed (view s) → wp execute (λ r s', well_typed (view s') ∧
     ∀ x, r = Ok x → json_exact (exec_data x) = true) s) →
  keeps view well_typed (process payloads maxCasAttempts config params execute) ∧
  keeps view well_typed (revokeSourceBinding maxCasAttempts k source scope now) ∧
  keeps view well_typed (revokeAllSourceBindings maxCasAttempts source scope now) ∧
  keeps view well_typed (sweepExpired payloads fuel now limit) ∧
  well_typed [].
Proof.
  intros Hlaws Henv Hblobs Hexec. split_and!.
  - by eapply typed_process.
  - by eapply typed_revokeSource.
  - by eapply typed_revokeAll.
  - unfold sweepExpired. by eapply typed_sweep.
  - by intros k' r'.
Qed.

#[local] Existing Instances DurableDemo.digest DurableDemo.port.

(** A run with interference that writes foreign keys only. *)
Definition keeps_well_typed (m m' : memory) : Prop := well_typed m → well_typed m'.

Lemma put_elsewhere m : keeps_well_typed m (map_set "other" DurableDemo.foreign m).
Proof. intros Hm. by apply well_typed_set. Qed.

Definition disturbed : SharedStore keeps_well_typed :=
  {| contents := []; turns := [Build_turn keeps_well_typed _ put_elsewhere None] |}.

Lemma durable_records_stay_well_typed_witness :
  let run := process None 8 DurableDemo.config (DurableDemo.request "a" 1000) (mret DurableDemo.parsed) in
  well_typed (contents (run disturbed).2) ∧
  match map_get (coreRecordKey "") (contents (run disturbed).2) with
  | Some r => match decodeCore (Some r) with Ok (Some c) => core_data c | _ => None end
  | None => None
  end = Some (JStr "text").
Proof.
  intros run. split.
  - assert (Hlaws : DurableStoreLaws (contents (env := keeps_well_typed)) keeps_well_typed).
    { apply shared_store_laws; [intros m Hm; exact Hm|intros m1 m2 m3 H1 H2 Hm; exact (H2 (H1 Hm))]. }
    destruct (durable_records_stay_well_typed None 8 0 contents keeps_well_typed DurableDemo.config
      (DurableDemo.request "a" 1000) (mret DurableDemo.parsed) DurableDemo.the_key "tenant" "a" (int 1)
      None Hlaws) as [Hprocess _].
    + intros m m' Hm. exact Hm.
    + intros p Hp. discriminate Hp.
    + intros s Hs. split; [exact Hs|]. intros x [= <-]. reflexivity.
    + apply Hprocess. intros k' r' Hk. discriminate Hk.
  - vm_compute. reflexivity.
Defined.
