(* ===== verification/StatefulResources.v ===== *)
(** * Stateful resources and authenticated sessions

    [src/core/stateful-resources.ts]: the gate every stateful resource must
    pass, the status machines, the request and navigation checks of an
    authenticated session, its exclusive lease and expiry, and the boundary to
    the stateless tools.

    A field whose type is a union of strings is a string here where a check
    rejects the others.  An object may have own properties besides the declared
    ones; [..._keys] lists their names. *)

From S2P Require Import Prelude JsString AsyncContract.

(** [list.includes(x)] *)
Definition str_mem (x : string) (l : list string) : bool := bool_decide (x ∈ l).

(** ** Definitions *)

Inductive StatefulResourceKind :=
  | authenticated_session | monitor | scheduled_research | stateful_browser_session
  | orchestration | corpus_lifecycle | synthesis | model_extraction.

Definition resource_kind_name (k : StatefulResourceKind) : string :=
  match k with
  | authenticated_session => "authenticated_session" | monitor => "monitor"
  | scheduled_research => "scheduled_research"
  | stateful_browser_session => "stateful_browser_session"
  | orchestration => "orchestration" | corpus_lifecycle => "corpus_lifecycle"
  | synthesis => "synthesis" | model_extraction => "model_extraction"
  end.

Definition KNOWN_RESOURCE_KINDS : list string := resource_kind_name <$>
  [authenticated_session; monitor; scheduled_research; stateful_browser_session; orchestration;
   corpus_lifecycle; synthesis; model_extraction].

Record OwnerBinding := { ownerId : string; principalId : string }.

Record CredentialBindingRef := {
  credentialId : string;
  fundingSource : string;
  ref_keys : list string
}.

Record TtlRetention := {
  ttlSeconds : number;
  retentionSeconds : number;
  ttl_expiresAt : date_string
}.

Inductive StatefulResourceStatus :=
  | R_proposed | R_pending_approval | R_active | R_suspended | R_released | R_expired | R_deleted.

#[export] Instance StatefulResourceStatus_eq_dec : EqDecision StatefulResourceStatus.
Proof. solve_decision. Defined.

Definition resource_status_name (s : StatefulResourceStatus) : string :=
  match s with
  | R_proposed => "proposed" | R_pending_approval => "pending_approval" | R_active => "active"
  | R_suspended => "suspended" | R_released => "released" | R_expired => "expired"
  | R_deleted => "deleted"
  end.

Definition KNOWN_STATEFUL_STATUSES : list string := resource_status_name <$>
  [R_proposed; R_pending_approval; R_active; R_suspended; R_released; R_expired; R_deleted].

Definition REQUIRED_CANCEL_KINDS : list string := ["caller"; "groundlane"; "upstream"].

Record StatusResultCancel := {
  src_status : string;
  resultRef : option string;
  cancelKinds : list string
}.

Record NotificationConfig := { notify_mode : string; webhookUrl : option string }.

Record AbuseControls := {
  maxInstancesPerOwner : number;
  maxOperationsPerSession : number;
  requireExplicitOptIn : bool
}.

Record QuotaBillingProvenance := {
  providerId : string;
  billedUnits : number;
  billedAt : option string
}.

Record DataDeletion := {
  onRelease : string;
  retentionAfterReleaseSeconds : number;
  physicalCleanupPending : bool
}.

Record StatefulResourceDefinition := {
  def_kind : string;
  def_owner : OwnerBinding;
  def_credentialBinding : CredentialBindingRef;
  ttlRetention : TtlRetention;
  statusResultCancel : StatusResultCancel;
  notification : NotificationConfig;
  abuseControls : AbuseControls;
  quotaBilling : QuotaBillingProvenance;
  dataDeletion : DataDeletion
}.

Definition STATEFUL_MAX_TTL_SECONDS : Z := 30 * 24 * 3600.
Definition STATEFUL_MAX_RETENTION_SECONDS : Z := 90 * 24 * 3600.

Definition CREDENTIAL_SECRET_KEYS : list string :=
  ["secretValue"; "secret"; "token"; "apiKey"; "password"; "rawPassword"; "totpSeed"; "passkey";
   "cookieSnapshot"; "storageSnapshot"].

(** ** Checks of a definition *)

Definition validateOwnerBinding (owner : OwnerBinding) : result unit :=
  throw_if (falsy (ownerId owner)) (TError "ownerId is required for stateful resources");;
  throw_if (falsy (principalId owner)) (TError "principalId is required for stateful resources").

(** [for (const key of Object.keys(o)) if (bad.includes(key)) throw e(key)] *)
Fixpoint reject_keys (bad : list string) (e : string → thrown) (keys : list string) : result unit :=
  match keys with
  | [] => Ok tt
  | k :: keys' => throw_if (str_mem k bad) (e k);; reject_keys bad e keys'
  end.

Definition validateCredentialBindingRef (ref : CredentialBindingRef) : result unit :=
  throw_if (falsy (credentialId ref)) (TError "credentialId is required for stateful resources");;
  throw_if (falsy (fundingSource ref)) (TError "fundingSource is required for stateful resources");;
  reject_keys CREDENTIAL_SECRET_KEYS
    (λ key, TError ("credentialBinding must not carry secret value " +:+ quoted key +:+ "; " +:+
                    "bind by credential ID only"))
    ("credentialId" :: "fundingSource" :: ref_keys ref).

Definition not_positive (x : number) : bool := negb (isInteger x) || num_leb x (int 0).
Definition negative (x : number) : bool := negb (isInteger x) || num_ltb x (int 0).

(** [String(x)] of a number found to be an integer. *)
Definition int_text (x : number) : string := show (to_Z x).

Definition validateTtlRetention (ttl : TtlRetention) : result unit :=
  throw_if (not_positive (ttlSeconds ttl)) (TError "ttlSeconds must be positive");;
  throw_if (num_ltb (int STATEFUL_MAX_TTL_SECONDS) (ttlSeconds ttl))
    (TError ("ttlSeconds " +:+ int_text (ttlSeconds ttl) +:+ " exceeds gate maximum " +:+
             show STATEFUL_MAX_TTL_SECONDS));;
  throw_if (negative (retentionSeconds ttl)) (TError "retentionSeconds must be non-negative");;
  throw_if (num_ltb (int STATEFUL_MAX_RETENTION_SECONDS) (retentionSeconds ttl))
    (TError ("retentionSeconds " +:+ int_text (retentionSeconds ttl) +:+
             " exceeds gate maximum " +:+ show STATEFUL_MAX_RETENTION_SECONDS));;
  throw_if (bool_decide (getTime (ttl_expiresAt ttl) = None))
    (TError "expiresAt must be a valid timestamp").

Fixpoint require_kinds (required kinds : list string) : result unit :=
  match required with
  | [] => Ok tt
  | r :: required' =>
      throw_if (negb (str_mem r kinds))
        (TError ("cancelKinds must express caller, groundlane, and upstream independently; missing "
                 +:+ quoted r));;
      require_kinds required' kinds
  end.

Definition validateStatusResultCancel (s : StatusResultCancel) : result unit :=
  throw_if (negb (str_mem (src_status s) KNOWN_STATEFUL_STATUSES))
    (TError ("Unknown stateful resource status " +:+ quoted (src_status s)));;
  require_kinds REQUIRED_CANCEL_KINDS (cancelKinds s).

Definition with_credentials (u : URL) : bool :=
  negb (falsy (url_username u)) || negb (falsy (url_password u)).

Definition is_https (u : URL) : bool := bool_decide (url_protocol u = "https:"%string).

Definition validateNotificationConfig `{UrlApi} (config : NotificationConfig) : result unit :=
  if bool_decide (notify_mode config = "webhook"%string) then
    match webhookUrl config with
    | None => Throw (TError "webhookUrl is required when notification mode is webhook")
    | Some url =>
        throw_if (falsy url) (TError "webhookUrl is required when notification mode is webhook");;
        match new_URL url with
        | None => Throw (TError "webhookUrl must be a valid URL")
        | Some parsed =>
            throw_if (negb (is_https parsed)) (TError "webhookUrl must use HTTPS");;
            throw_if (with_credentials parsed) (TError "webhookUrl must not contain credentials")
        end
    end
  else
    throw_if (bool_decide (webhookUrl config ≠ None))
      (TError ("webhookUrl must not be set when notification mode is " +:+
               quoted (notify_mode config))).

Definition validateAbuseControls (c : AbuseControls) : result unit :=
  throw_if (not_positive (maxInstancesPerOwner c)) (TError "maxInstancesPerOwner must be positive");;
  throw_if (not_positive (maxOperationsPerSession c))
    (TError "maxOperationsPerSession must be positive");;
  throw_if (negb (requireExplicitOptIn c))
    (TError "requireExplicitOptIn must be true for stateful resources").

Definition validateQuotaBillingProvenance (p : QuotaBillingProvenance) : result unit :=
  throw_if (falsy (providerId p)) (TError "providerId is required in quota/billing provenance");;
  throw_if (negb (isFinite (billedUnits p)) || num_ltb (billedUnits p) (int 0))
    (TError "billedUnits must be non-negative").

Definition validateDataDeletion (d : DataDeletion) : result unit :=
  throw_if (negb (str_mem (onRelease d) ["delete"; "revoke"]%string))
    (TError ("Unknown data-deletion onRelease " +:+ quoted (onRelease d)));;
  throw_if (negative (retentionAfterReleaseSeconds d))
    (TError "retentionAfterReleaseSeconds must be non-negative").

Definition validateStatefulResourceDefinition `{UrlApi} (def : StatefulResourceDefinition)
    : result unit :=
  throw_if (negb (str_mem (def_kind def) KNOWN_RESOURCE_KINDS))
    (TError ("Unknown stateful resource kind " +:+ quoted (def_kind def)));;
  validateOwnerBinding (def_owner def);;
  validateCredentialBindingRef (def_credentialBinding def);;
  validateTtlRetention (ttlRetention def);;
  validateStatusResultCancel (statusResultCancel def);;
  validateNotificationConfig (notification def);;
  validateAbuseControls (abuseControls def);;
  validateQuotaBillingProvenance (quotaBilling def);;
  validateDataDeletion (dataDeletion def).

(** ** The status of a resource *)

Definition STATEFUL_TRANSITIONS (s : StatefulResourceStatus) : list StatefulResourceStatus :=
  match s with
  | R_proposed => [R_pending_approval; R_deleted]
  | R_pending_approval => [R_active; R_deleted]
  | R_active => [R_suspended; R_released; R_expired; R_deleted]
  | R_suspended => [R_active; R_released; R_expired; R_deleted]
  | R_released | R_expired => [R_deleted]
  | R_deleted => []
  end.

Definition validateStatefulStatusTransition (from to : StatefulResourceStatus) : result unit :=
  throw_if (bool_decide (from = to))
    (TError ("Status is already " +:+ quoted (resource_status_name from) +:+
             "; no transition needed"));;
  throw_if (negb (bool_decide (to ∈ STATEFUL_TRANSITIONS from)))
    (TError ("Invalid stateful resource status transition from " +:+
             quoted (resource_status_name from) +:+ " to " +:+ quoted (resource_status_name to))).

Definition isStatefulResourceExpired (def : StatefulResourceDefinition) (now : Z) : bool :=
  getTime_leb (ttl_expiresAt (ttlRetention def)) now.

(** ** Authenticated sessions *)

Record SessionGatePolicy := {
  allowlistedDomains : list string;
  authorizedAccounts : list string
}.

Record SessionNavigationPolicy := {
  nav_mode : string;
  maxNavigations : number;
  allowedDomains : list string
}.

Record AuthenticatedSessionRequest := {
  rq_domain : string;
  rq_accountId : string;
  loginMode : string;
  mfaRequired : bool;
  rq_profileKind : string;
  rq_principalId : string;
  rq_site : string;
  accountBinding : string;
  rq_leaseHolder : string;
  rq_idleTtlSeconds : number;
  rq_absoluteTtlSeconds : number;
  rq_navigation : SessionNavigationPolicy;
  rq_keys : list string
}.

Inductive AuthenticatedSessionStatus :=
  | S_pending_login | S_active | S_released | S_expired | S_deleted.

#[export] Instance AuthenticatedSessionStatus_eq_dec : EqDecision AuthenticatedSessionStatus.
Proof. solve_decision. Defined.

Definition session_status_name (s : AuthenticatedSessionStatus) : string :=
  match s with
  | S_pending_login => "pending_login" | S_active => "active" | S_released => "released"
  | S_expired => "expired" | S_deleted => "deleted"
  end.

Record AuthenticatedSession := {
  sessionId : string;
  s_principalId : string;
  s_site : string;
  s_accountId : string;
  s_domain : string;
  s_leaseHolder : string;
  idleTtlSeconds : number;
  absoluteTtlSeconds : number;
  s_createdAt : date_string;
  lastActivityAt : date_string;
  session_status : AuthenticatedSessionStatus;
  profileRef : option string;
  s_navigation : SessionNavigationPolicy;
  s_billingProvenance : QuotaBillingProvenance
}.

#[export] Instance AuthenticatedSession_updatable : Updatable AuthenticatedSession :=
  {| rebuild := λ s, Build_AuthenticatedSession (sessionId s) (s_principalId s) (s_site s)
       (s_accountId s) (s_domain s) (s_leaseHolder s) (idleTtlSeconds s) (absoluteTtlSeconds s)
       (s_createdAt s) (lastActivityAt s) (session_status s) (profileRef s) (s_navigation s)
       (s_billingProvenance s) |}.

Record SessionCallerBinding := { b_principalId : string; b_site : string; b_accountId : string }.

Record SessionNavigationRequest := { nr_url : string; nr_method : string }.

Definition SESSION_MIN_TTL_SECONDS : Z := 60.
Definition SESSION_MAX_IDLE_TTL_SECONDS : Z := 30 * 60.
Definition SESSION_MAX_ABSOLUTE_TTL_SECONDS : Z := 8 * 3600.
Definition SESSION_MAX_NAVIGATIONS : Z := 200.

Definition SESSION_FORBIDDEN_MATERIAL_KEYS : list string :=
  ["rawPassword"; "password"; "totpSeed"; "totpSecret"; "passkey"; "privateKey"; "cookie";
   "cookies"; "cookieSnapshot"; "storageSnapshot"; "localStorage"; "sessionStorage";
   "exportCookies"].

Definition CAPTCHA_BYPASS_KEYS : list string :=
  ["captchaBypass"; "captchaSolver"; "captchaSolution"; "managedChallengeBypass";
   "challengeBypass"; "undetectable"].

Definition assertNoForbiddenSessionMaterial (keys : list string) : result unit :=
  reject_keys SESSION_FORBIDDEN_MATERIAL_KEYS
    (λ key, TError ("Session field " +:+ quoted key +:+ " must never be stored: " +:+
       "raw passwords, TOTP seeds, passkeys, and exportable cookie/storage snapshots are forbidden"))
    keys.

Definition assertNoCaptchaBypassClaim (keys : list string) : result unit :=
  reject_keys CAPTCHA_BYPASS_KEYS
    (λ key, TError ("Session field " +:+ quoted key +:+ " rejected: " +:+
       (if str_includes (toLowerCase key) "captcha"
        then "CAPTCHA bypass must not be promised or configured"
        else "managed-challenge bypass must not be promised or configured")))
    keys.

Definition normalizeDomain (domain : string) : string := toLowerCase (trim domain).

Definition validateSessionNavigationPolicy (navigation : SessionNavigationPolicy)
    (sessionDomain : string) : result unit :=
  throw_if (negb (bool_decide (nav_mode navigation = "read-only"%string)))
    (TError ("Session navigation mode must be " +:+ quoted "read-only" +:+ ", got " +:+
             quoted (nav_mode navigation)));;
  throw_if (not_positive (maxNavigations navigation))
    (TError "maxNavigations must be a positive integer");;
  throw_if (num_ltb (int SESSION_MAX_NAVIGATIONS) (maxNavigations navigation))
    (TError ("maxNavigations " +:+ int_text (maxNavigations navigation) +:+
             " exceeds gate maximum " +:+ show SESSION_MAX_NAVIGATIONS));;
  throw_if (bool_decide (allowedDomains navigation = []))
    (TError "allowedDomains must contain at least the session domain");;
  throw_if (negb (str_mem (normalizeDomain sessionDomain)
                    (normalizeDomain <$> allowedDomains navigation)))
    (TError "allowedDomains must include the session domain").

(** The own properties of a request. *)
Definition request_own_keys (req : AuthenticatedSessionRequest) : list string :=
  ["domain"; "accountId"; "loginMode"; "mfaRequired"; "profileKind"; "principalId"; "site";
   "accountBinding"; "leaseHolder"; "idleTtlSeconds"; "absoluteTtlSeconds"; "navigation"] ++
  rq_keys req.

Definition outside (x : number) (lo hi : Z) : bool :=
  negb (isInteger x) || num_ltb x (int lo) || num_ltb (int hi) x.

Definition bounds_text (lo hi : Z) : string := "[" +:+ show lo +:+ ", " +:+ show hi +:+ "]".

Definition validateAuthenticatedSessionRequest (req : AuthenticatedSessionRequest)
    (policy : SessionGatePolicy) : result unit :=
  assertNoForbiddenSessionMaterial (request_own_keys req);;
  throw_if (negb (str_mem (normalizeDomain (rq_domain req))
                    (normalizeDomain <$> allowlistedDomains policy)))
    (TError ("Session domain " +:+ quoted (rq_domain req) +:+
             " is not allowlisted for authenticated browsing"));;
  throw_if (negb (str_mem (rq_accountId req) (authorizedAccounts policy)))
    (TError ("Session account " +:+ quoted (rq_accountId req) +:+
             " is not operator-authorized for authenticated browsing"));;
  throw_if (negb (bool_decide (loginMode req = "human-in-the-loop"%string)))
    (TError "Session loginMode must be human-in-the-loop: interactive login/MFA is required");;
  throw_if (negb (mfaRequired req)) (TError "mfaRequired must be true for authenticated sessions");;
  throw_if (negb (bool_decide (rq_profileKind req = "provider-owned-opaque"%string)))
    (TError ("Session profileKind must be provider-owned-opaque: " +:+
             "only opaque provider profile/context references are accepted"));;
  throw_if (falsy (rq_principalId req) || falsy (rq_site req) || falsy (accountBinding req))
    (TError "principal/site/account binding is required for authenticated sessions");;
  throw_if (negb (bool_decide (accountBinding req = rq_accountId req)))
    (TError "accountBinding must equal the authorized accountId");;
  throw_if (falsy (rq_leaseHolder req))
    (TError "leaseHolder is required: sessions run under an exclusive lease");;
  throw_if (outside (rq_idleTtlSeconds req) SESSION_MIN_TTL_SECONDS SESSION_MAX_IDLE_TTL_SECONDS)
    (TError ("idleTtlSeconds must be an integer in " +:+
             bounds_text SESSION_MIN_TTL_SECONDS SESSION_MAX_IDLE_TTL_SECONDS));;
  throw_if (outside (rq_absoluteTtlSeconds req) SESSION_MIN_TTL_SECONDS
              SESSION_MAX_ABSOLUTE_TTL_SECONDS)
    (TError ("absoluteTtlSeconds must be an integer in " +:+
             bounds_text SESSION_MIN_TTL_SECONDS SESSION_MAX_ABSOLUTE_TTL_SECONDS));;
  throw_if (num_ltb (rq_absoluteTtlSeconds req) (rq_idleTtlSeconds req))
    (TError "idleTtlSeconds must not exceed absoluteTtlSeconds");;
  validateSessionNavigationPolicy (rq_navigation req) (rq_domain req).

Definition validateSessionBinding (session : AuthenticatedSession) (caller : SessionCallerBinding)
    : result unit :=
  throw_if (negb (bool_decide (s_principalId session = b_principalId caller)) ||
            negb (bool_decide (s_site session = b_site caller)) ||
            negb (bool_decide (s_accountId session = b_accountId caller)))
    (TError "Owner mismatch: caller is not bound to this session").

Definition acquireExclusiveLease (currentHolder : option string) (requester : string)
    : result string :=
  throw_if (falsy requester) (TError "lease requester is required");;
  match currentHolder with
  | None => Ok requester
  | Some holder =>
      if bool_decide (holder = requester) then Ok requester
      else Throw (TError ("Session exclusive lease held by another holder; " +:+
                          quoted requester +:+ " cannot acquire it"))
  end.

(** ** Expiry *)

Definition sessionAbsoluteExpiryMs (session : AuthenticatedSession) : result number :=
  match getTime (s_createdAt session) with
  | None => Throw (TError "Session createdAt must be a valid timestamp")
  | Some createdMs => Ok (num_shift createdMs (num_scale (absoluteTtlSeconds session) 1000))
  end.

Definition sessionIdleExpiryMs (session : AuthenticatedSession) : result number :=
  match getTime (lastActivityAt session) with
  | None => Throw (TError "Session lastActivityAt must be a valid timestamp")
  | Some activityMs => Ok (num_shift activityMs (num_scale (idleTtlSeconds session) 1000))
  end.

(** [a || b]: [b] is not evaluated when [a] holds. *)
Definition isSessionExpired (session : AuthenticatedSession) (now : Z) : result bool :=
  absolute ← sessionAbsoluteExpiryMs session;
  if num_leb absolute (int now) then Ok true
  else idle ← sessionIdleExpiryMs session; Ok (num_leb idle (int now)).

Definition resolveSessionExpiry (session : AuthenticatedSession) : result date_string :=
  absolute ← sessionAbsoluteExpiryMs session;
  idle ← sessionIdleExpiryMs session;
  toISOString (new_Date (num_min absolute idle)).

(** ** The status of a session *)

Definition SESSION_TRANSITIONS (s : AuthenticatedSessionStatus) : list AuthenticatedSessionStatus :=
  match s with
  | S_pending_login => [S_active; S_expired; S_deleted]
  | S_active => [S_released; S_expired; S_deleted]
  | S_released | S_expired => [S_deleted]
  | S_deleted => []
  end.

Definition validateSessionStatusTransition (from to : AuthenticatedSessionStatus) : result unit :=
  throw_if (bool_decide (from = to))
    (TError ("Status is already " +:+ quoted (session_status_name from) +:+
             "; no transition needed"));;
  throw_if (negb (bool_decide (to ∈ SESSION_TRANSITIONS from)))
    (TError ("Invalid authenticated session transition from " +:+
             quoted (session_status_name from) +:+ " to " +:+ quoted (session_status_name to))).

Definition releaseAuthenticatedSession (session : AuthenticatedSession)
    : result AuthenticatedSession :=
  validateSessionStatusTransition (session_status session) S_released;;
  Ok (session <| session_status := S_released |>).

Definition deleteAuthenticatedSession (session : AuthenticatedSession)
    : result AuthenticatedSession :=
  validateSessionStatusTransition (session_status session) S_deleted;;
  Ok (session <| session_status := S_deleted |> <| profileRef := None |>).

(** ** Navigation *)

Definition validateNavigationRequest `{UrlApi} (session : AuthenticatedSession)
    (req : SessionNavigationRequest) (navigationsUsed : Z) : result unit :=
  throw_if (negb (bool_decide (nr_method req = "GET"%string)))
    (TError ("Session navigation is read-only: method " +:+ quoted (nr_method req) +:+ " rejected"));;
  throw_if (num_leb (maxNavigations (s_navigation session)) (int navigationsUsed))
    (TError ("Session navigation budget exceeded: " +:+ show navigationsUsed +:+ " >= " +:+
             int_text (maxNavigations (s_navigation session))));;
  match new_URL (nr_url req) with
  | None => Throw (TError "Session navigation URL must be a valid URL")
  | Some parsed =>
      throw_if (negb (is_https parsed)) (TError "Session navigation URL must use HTTPS");;
      throw_if (with_credentials parsed)
        (TError "Session navigation URL must not contain credentials");;
      throw_if (negb (str_mem (toLowerCase (url_hostname parsed))
                        (normalizeDomain <$> allowedDomains (s_navigation session))))
        (TError ("Session navigation to " +:+ quoted (url_hostname parsed) +:+
                 " is not within session navigation scope"))
  end.

(** ** The stateless tools *)

Definition AUTHENTICATED_BROWSING_TOOL_PREFIX : string := "authenticated_browse_".

Definition WEB_FETCH_STATELESS_INPUT_KEYS : list string :=
  ["url"; "format"; "selector"; "waitFor"; "render"; "timeoutMs"; "maxBytes"; "maxOutputChars"].

Definition WEB_FETCH_FORBIDDEN_INPUT_KEYS : list string :=
  ["sessionId"; "session"; "auth"; "profileRef"; "profile"; "credentials"; "cookies";
   "cookieSnapshot"; "storageSnapshot"; "accountId"; "loginMode"; "leaseHolder"].

Definition assertWebFetchInputStateless (keys : list string) : result unit :=
  reject_keys WEB_FETCH_FORBIDDEN_INPUT_KEYS
    (λ key, TError ("web_fetch input must not contain session/auth field " +:+ quoted key +:+ "; "
       +:+ "authenticated browsing requires a separate explicit opt-in tool"))
    keys.

Definition isAuthenticatedBrowsingTool (toolName : string) : bool :=
  startsWith toolName AUTHENTICATED_BROWSING_TOOL_PREFIX.

Inductive ToolFamily := stateless | authenticated.

Definition validateToolFamilyAssignment (toolName : string) (family : ToolFamily) : result unit :=
  let prefixed := isAuthenticatedBrowsingTool toolName in
  let hint := "authenticated browsing requires a separate explicit opt-in tool family" in
  match family with
  | stateless =>
      throw_if prefixed
        (TError ("Tool " +:+ quoted toolName +:+ " carries the authenticated prefix but is " +:+
                 "assigned to the stateless family; " +:+ hint))
  | authenticated =>
      throw_if (negb prefixed)
        (TError ("Tool " +:+ quoted toolName +:+ " lacks the " +:+
                 quoted AUTHENTICATED_BROWSING_TOOL_PREFIX +:+ " prefix; " +:+ hint))
  end.

(** * Correctness of the stateful resource gate

    A session only browses within its scope and budget, its status machine is
    acyclic and ends in a deletion that drops the profile, its reported expiry
    is the instant it expires, and its lease has one holder. *)

(** ** Navigation *)

Section navigation.
Context `{!UrlApi}.

(** Where a session may go. *)
Definition in_scope (session : AuthenticatedSession) (req : SessionNavigationRequest) : Prop :=
  nr_method req = "GET"%string ∧
  ∃ u, new_URL (nr_url req) = Some u ∧ url_protocol u = "https:"%string ∧
    url_username u = ""%string ∧ url_password u = ""%string ∧
    ∃ d, d ∈ allowedDomains (s_navigation session) ∧ normalizeDomain d = toLowerCase (url_hostname u).

Lemma throw_if_seq bad e {B} (f : unit → result B) b :
  (throw_if bad e ≫= f) = Ok b ↔ bad = false ∧ f tt = Ok b.
Proof. unfold throw_if. destruct bad; cbn; naive_solver. Qed.

Lemma bool_decide_negb_false P `{!Decision P} : negb (bool_decide P) = false ↔ P.
Proof. rewrite negb_false_iff. apply bool_decide_eq_true. Qed.

Lemma sr_falsy_false s : negb (falsy s) = false ↔ s = ""%string.
Proof. apply bool_decide_negb_false. Qed.

Lemma navigation_accepted session req used :
  validateNavigationRequest session req used = Ok tt ↔
  in_scope session req ∧ num_leb (maxNavigations (s_navigation session)) (int used) = false.
Proof.
  unfold validateNavigationRequest, in_scope. rewrite throw_if_seq, bool_decide_negb_false, throw_if_seq.
  destruct (new_URL (nr_url req)) as [u|]; [|naive_solver].
  unfold is_https, with_credentials, str_mem.
  rewrite !throw_if_seq, bool_decide_negb_false, orb_false_iff, !sr_falsy_false, throw_if_Ok,
    bool_decide_negb_false, list_elem_of_fmap. naive_solver.
Qed.

(** The caller counts the requests let through. *)
Fixpoint navigate (session : AuthenticatedSession) (used : Z) (reqs : list SessionNavigationRequest)
    : list SessionNavigationRequest :=
  match reqs with
  | [] => []
  | req :: rest =>
      match validateNavigationRequest session req used with
      | Ok _ => req :: navigate session (used + 1) rest
      | Throw _ => navigate session used rest
      end
  end.

Lemma navigate_bounded session reqs used m :
  num_leb (maxNavigations (s_navigation session)) (int m) = true → (used <= m)%Z →
  Forall (in_scope session) (navigate session used reqs) ∧
  (Z.of_nat (length (navigate session used reqs)) <= m - used)%Z.
Proof.
  intros Hm. revert used. induction reqs as [|req rest IH]; intros used Hu; cbn [navigate length]; [split; [done|lia]|].
  destruct (validateNavigationRequest session req used) as [[]|e] eqn:Hv; [|by apply IH].
  apply navigation_accepted in Hv as [Hs Hb].
  assert (used < m)%Z.
  { destruct (decide (used = m)) as [->|]; [congruence|lia]. }
  destruct (IH (used + 1)%Z) as [Hall Hl]; [lia|]. split; [by constructor|]. cbn [length]. lia.
Qed.
End navigation.

(** an authenticated session stays within its navigation gate.  For a
    session whose navigation policy is that of a request that passed the gate,
    whatever requests are made and in whatever order, every one let through is
    a GET of an https URL without credentials on one of the allowed domains,
    of which the session's own is one, and at most 200 are. *)
Theorem session_navigation_confined `{UrlApi} request policy session reqs :
  validateAuthenticatedSessionRequest request policy = Ok tt →
  s_navigation session = rq_navigation request →
  Forall (in_scope session) (navigate session 0 reqs) ∧
  (Z.of_nat (length (navigate session 0 reqs)) <= SESSION_MAX_NAVIGATIONS)%Z ∧
  normalizeDomain (rq_domain request) ∈ normalizeDomain <$> allowedDomains (s_navigation session) ∧
  normalizeDomain (rq_domain request) ∈ normalizeDomain <$> allowlistedDomains policy.
Proof.
  unfold validateAuthenticatedSessionRequest. intros (_ & _ & Hv)%result_bind_Ok Hnav.
  rewrite !throw_if_seq in Hv. destruct Hv as (Hallow%bool_decide_negb_false & Hv).
  do 10 (destruct Hv as (_ & Hv)). unfold validateSessionNavigationPolicy in Hv.
  rewrite !throw_if_seq in Hv. destruct Hv as (_ & Hpos & Hmax & _ & Hdom).
  apply throw_if_Ok, bool_decide_negb_false in Hdom. rewrite <- Hnav in *.
  unfold not_positive in Hpos. apply orb_false_iff in Hpos as [Hint%negb_false_iff _].
  assert (Hm : num_leb (maxNavigations (s_navigation session)) (int SESSION_MAX_NAVIGATIONS) = true).
  { rewrite num_ltb_integer, to_Z_int in Hmax by (done || apply isInteger_int).
    rewrite num_leb_integer, to_Z_int by (done || apply isInteger_int).
    apply Z.ltb_ge in Hmax. by apply Z.leb_le. }
  destruct (navigate_bounded session reqs 0 SESSION_MAX_NAVIGATIONS) as [Hall Hl]; [done|done|].
  split_and!; [done|lia|done|done].
Qed.

(** ** Expiry *)

(** [v] written with some denominator. *)
Definition denotes (x : number) (v : Z) : Prop := ∃ d, x = Num (v * Zpos d) d.

Lemma expiry_denotes t ttl :
  isInteger ttl = true → denotes (num_shift t (num_scale ttl 1000)) (t + 1000 * to_Z ttl).
Proof.
  destruct ttl as [| | |n d]; try done. cbn. intros (q & -> & ->)%Z.eqb_eq%integer_div.
  exists d. f_equal. lia.
Qed.

Lemma denotes_leb x v now : denotes x v → num_leb x (int now) = (v <=? now)%Z.
Proof.
  intros [d ->]. cbn. apply eq_bool_prop_intro. rewrite !Is_true_true, !Z.leb_le.
  rewrite Z.mul_1_r. symmetry. apply Z.mul_le_mono_pos_r. lia.
Qed.

Lemma denotes_min x y v w : denotes x v → denotes y w → denotes (num_min x y) (Z.min v w).
Proof.
  intros [d ->] [e ->].
  change (num_min (Num (v * Zpos d) d) (Num (w * Zpos e) e)) with
    (if num_leb (Num (v * Zpos d) d) (Num (w * Zpos e) e)
     then Num (v * Zpos d) d else Num (w * Zpos e) e).
  assert (Hle : num_leb (Num (v * Zpos d) d) (Num (w * Zpos e) e) = (v <=? w)%Z).
  { cbn. apply eq_bool_prop_intro. rewrite !Is_true_true, !Z.leb_le.
    replace (w * Zpos e * Zpos d)%Z with (w * (Zpos d * Zpos e))%Z by lia.
    rewrite <- Z.mul_assoc. symmetry. apply Z.mul_le_mono_pos_r. lia. }
  rewrite Hle. destruct (Z.leb_spec v w).
  - rewrite Z.min_l by lia. by exists d.
  - rewrite Z.min_r by lia. by exists e.
Qed.

Lemma denotes_Date x v ms : denotes x v → new_Date x = Some ms → ms = v.
Proof. intros [d ->]. cbn. case_match; [|done]. intros [= <-]. by rewrite Z.quot_mul. Qed.

(** the expiry a session reports is the instant it expires.  With whole
    numbers of seconds as lifetimes, [resolveSessionExpiry] gives the earlier
    of the absolute and the idle deadline, and [isSessionExpired] says at any
    time whether that instant has come. *)
Theorem session_expiry_agrees session e now :
  isInteger (absoluteTtlSeconds session) = true → isInteger (idleTtlSeconds session) = true →
  resolveSessionExpiry session = Ok e →
  isSessionExpired session now = Ok (getTime_leb e now) ∧
  ∃ c a, getTime (s_createdAt session) = Some c ∧ getTime (lastActivityAt session) = Some a ∧
    e = IsoAt (Z.min (c + 1000 * to_Z (absoluteTtlSeconds session))
                     (a + 1000 * to_Z (idleTtlSeconds session))).
Proof.
  intros Habs Hidle. unfold resolveSessionExpiry, isSessionExpired, sessionAbsoluteExpiryMs,
    sessionIdleExpiryMs.
  destruct (getTime (s_createdAt session)) as [c|]; [|done].
  destruct (getTime (lastActivityAt session)) as [a|]; [|done]. cbn [mbind result_bind].
  pose proof (expiry_denotes c _ Habs) as Hx. pose proof (expiry_denotes a _ Hidle) as Hy.
  set (x := num_shift c _) in *. set (y := num_shift a _) in *. clearbody x y.
  destruct (new_Date (num_min x y)) as [ms|] eqn:Hd; [|done]. intros [= <-].
  apply (denotes_Date _ _ _ (denotes_min _ _ _ _ Hx Hy)) in Hd. subst ms.
  rewrite (denotes_leb _ _ now Hx), (denotes_leb _ _ now Hy). split; [|by eauto].
  unfold getTime_leb. cbn. destruct (Z.leb_spec (c + 1000 * to_Z (absoluteTtlSeconds session)) now);
    f_equal; symmetry; [apply Z.leb_le; lia|].
  apply eq_bool_prop_intro. rewrite !Is_true_true, !Z.leb_le. lia.
Qed.

(** ** The life of a session *)

Inductive session_step (s : AuthenticatedSession) : AuthenticatedSession → Prop :=
  | step_activate :
      validateSessionStatusTransition (session_status s) S_active = Ok tt →
      session_step s (s <| session_status := S_active |>)
  | step_expire :
      validateSessionStatusTransition (session_status s) S_expired = Ok tt →
      session_step s (s <| session_status := S_expired |>)
  | step_release s' : releaseAuthenticatedSession s = Ok s' → session_step s s'
  | step_delete s' : deleteAuthenticatedSession s = Ok s' → session_step s s'.

Definition session_rank (s : AuthenticatedSessionStatus) : nat :=
  match s with
  | S_pending_login => 0 | S_active => 1 | S_released | S_expired => 2 | S_deleted => 3
  end.

(** Everything but the status and the profile. *)
Definition same_session (s s' : AuthenticatedSession) : Prop :=
  ∃ st p, s' = s <| session_status := st |> <| profileRef := p |>.

Lemma same_session_refl s : same_session s s.
Proof. exists (session_status s), (profileRef s). by destruct s. Qed.

Lemma same_session_trans s1 s2 s3 : same_session s1 s2 → same_session s2 s3 → same_session s1 s3.
Proof. intros (st & p & ->) (st' & p' & ->). by exists st', p'. Qed.

Lemma sr_transition_ok from to :
  validateSessionStatusTransition from to = Ok tt ↔ to ∈ SESSION_TRANSITIONS from.
Proof.
  unfold validateSessionStatusTransition. rewrite throw_if_seq, throw_if_Ok, bool_decide_negb_false.
  split; [naive_solver|]. intros H. split; [|done]. apply bool_decide_eq_false. intros ->.
  destruct to; cbn in H; set_solver.
Qed.

Lemma transition_rank from to :
  to ∈ SESSION_TRANSITIONS from → session_rank from < session_rank to ∧ session_rank to ≤ 3.
Proof. destruct from, to; cbn; rewrite ?elem_of_cons, ?elem_of_nil; intros; naive_solver lia. Qed.

Lemma session_step_progress s s' :
  session_step s s' →
  session_rank (session_status s) < session_rank (session_status s') ≤ 3 ∧ same_session s s' ∧
  (session_status s' = S_deleted → profileRef s' = None).
Proof.
  intros [Hv|Hv|s1 Hr|s1 Hr]; [| |apply result_bind_Ok in Hr as ([] & Hv & [= <-])..];
    apply sr_transition_ok, transition_rank in Hv; (split; [done|]); (split; [|done]);
    destruct s as [? ? ? ? ? ? ? ? ? ? st p ? ?].
  - by exists S_active, p.
  - by exists S_expired, p.
  - by exists S_released, p.
  - by exists S_deleted, None.
Qed.

(** the life of an authenticated session.  However its status moves, by
    activation, expiry, release and deletion, a session takes at most three
    steps; its owner, account, domain, lease, times and navigation policy never
    change; once deleted it is final and its profile reference is gone; and
    any session not yet deleted can be deleted. *)
Theorem session_lifecycle n s s' :
  nsteps session_step n s s' →
  n ≤ 3 ∧ same_session s s' ∧
  (n ≠ 0 → session_status s' = S_deleted → profileRef s' = None ∧ ∀ s'', ¬ session_step s' s'') ∧
  (session_status s' ≠ S_deleted → is_Ok (deleteAuthenticatedSession s')).
Proof.
  intros H. assert (Hdel : session_status s' ≠ S_deleted → is_Ok (deleteAuthenticatedSession s')).
  { intros Hne. unfold deleteAuthenticatedSession.
    assert (Hv : validateSessionStatusTransition (session_status s') S_deleted = Ok tt).
    { apply sr_transition_ok. destruct (session_status s'); cbn; set_solver. }
    rewrite Hv. by eexists. }
  assert (Hn : n + session_rank (session_status s) ≤ session_rank (session_status s') ∧
    session_rank (session_status s') ≤ 3 ∧ same_session s s' ∧
    (n ≠ 0 → session_status s' = S_deleted → profileRef s' = None)).
  { clear Hdel. induction H as [s|n s s1 s2 Hs Hn IH].
    - split_and!; [done|destruct (session_status s); cbn; lia|apply same_session_refl|done].
    - apply session_step_progress in Hs as (Hr & Hsame & Hp). destruct IH as (IH1 & IH2 & IH3 & IH4).
      split_and!; [lia|done| |].
      + by eapply same_session_trans.
      + intros _ Hd. destruct n as [|n]; [|by apply IH4]. inversion Hn; subst. by apply Hp. }
  destruct Hn as (Hle & Hr & Hsame & Hp). split_and!; [lia|done| |done].
  intros Hn Hd. split; [by apply Hp|]. intros s'' Hs. apply session_step_progress in Hs as (Hs & _).
  rewrite Hd in Hs. cbn in Hs. lia.
Qed.

(** ** A concrete session *)

Module SessionDemo.
#[export] Instance urls : UrlApi :=
  {| new_URL s := if startsWith s "https://bank.example/"
       then Some (Build_URL "https:" "" "" "bank.example" "" s)
       else if startsWith s "http://" then Some (Build_URL "http:" "" "" "bank.example" "" s)
       else None |}.
Definition navigation : SessionNavigationPolicy :=
  {| nav_mode := "read-only"; maxNavigations := int 2; allowedDomains := [" Bank.Example"] |}.
Definition request : AuthenticatedSessionRequest :=
  {| rq_domain := "bank.example"; rq_accountId := "acct"; loginMode := "human-in-the-loop";
     mfaRequired := true; rq_profileKind := "provider-owned-opaque"; rq_principalId := "p";
     rq_site := "bank"; accountBinding := "acct"; rq_leaseHolder := "worker";
     rq_idleTtlSeconds := int 600; rq_absoluteTtlSeconds := int 3600;
     rq_navigation := navigation; rq_keys := [] |}.
Definition policy : SessionGatePolicy :=
  {| allowlistedDomains := ["BANK.example"]; authorizedAccounts := ["acct"] |}.
Definition session : AuthenticatedSession :=
  {| sessionId := "s"; s_principalId := "p"; s_site := "bank"; s_accountId := "acct";
     s_domain := "bank.example"; s_leaseHolder := "worker"; idleTtlSeconds := int 600;
     absoluteTtlSeconds := int 3600; s_createdAt := IsoAt 0; lastActivityAt := IsoAt 1000;
     session_status := S_active; profileRef := Some "profile-1"%string; s_navigation := navigation;
     s_billingProvenance := {| providerId := "x"; billedUnits := int 0; billedAt := None |} |}.
Definition get (u : string) : SessionNavigationRequest := {| nr_url := u; nr_method := "GET" |}.
Definition visits : list SessionNavigationRequest :=
  [get "https://bank.example/a"; get "http://bank.example/";
   {| nr_url := "https://bank.example/pay"; nr_method := "POST" |};
   get "https://bank.example/b"; get "https://bank.example/c"].
End SessionDemo.

#[local] Existing Instance SessionDemo.urls.

Lemma session_navigation_confined_witness :
  navigate SessionDemo.session 0 SessionDemo.visits =
    [SessionDemo.get "https://bank.example/a"; SessionDemo.get "https://bank.example/b"] ∧
  Forall (in_scope SessionDemo.session) (navigate SessionDemo.session 0 SessionDemo.visits).
Proof.
  split; [vm_compute; reflexivity|].
  refine (proj1 (session_navigation_confined SessionDemo.request SessionDemo.policy
    SessionDemo.session SessionDemo.visits _ _)); vm_compute; reflexivity.
Defined.

Lemma session_expiry_agrees_witness :
  isSessionExpired SessionDemo.session 600999 = Ok false ∧
  isSessionExpired SessionDemo.session 601000 = Ok true.
Proof.
  assert (He : resolveSessionExpiry SessionDemo.session = Ok (IsoAt 601000)) by reflexivity.
  split; [rewrite (proj1 (session_expiry_agrees SessionDemo.session _ 600999 eq_refl eq_refl He))
         |rewrite (proj1 (session_expiry_agrees SessionDemo.session _ 601000 eq_refl eq_refl He))];
    reflexivity.
Defined.

Lemma session_lifecycle_witness :
  let released := SessionDemo.session <| session_status := S_released |> in
  let deleted := released <| session_status := S_deleted |> <| profileRef := None |> in
  nsteps session_step 2 SessionDemo.session deleted ∧ ∀ s, ¬ session_step deleted s.
Proof.
  intros released deleted.
  assert (H : nsteps session_step 2 SessionDemo.session deleted).
  { eapply nsteps_l; [apply (step_release _ released); reflexivity|].
    eapply nsteps_l; [apply (step_delete _ deleted); reflexivity|apply nsteps_O]. }
  split; [exact H|]. destruct (session_lifecycle 2 _ _ H) as (_ & _ & Hdel & _).
  apply Hdel; [discriminate|reflexivity].
Defined.
