(* ===== verification/CorpusContract.v ===== *)
(** * Corpus and durable job contracts

    [src/core/corpus-contract.ts]: expiries of enrollments, revocation, the
    guards of a retry, inline limits and artifact references, labels of search
    results, corpus identities, deletion reports and the manifest. *)

From S2P Require Import Prelude JsString.

(** ** Enrollment *)

Record RetentionPolicy := {
  rp_operator : option date_string;
  rp_project : option date_string;
  rp_corpus : option date_string;
  rp_source : option date_string;
  rp_minimumBoundMs : number
}.

Inductive SourceLifecycle := enrolled | removed | deleted_source.

#[export] Instance SourceLifecycle_eq_dec : EqDecision SourceLifecycle.
Proof. solve_decision. Defined.

Record CorpusSourceRecord := {
  sr_sourceId : string;
  sr_corpusId : string;
  sr_contentHash : string;
  sr_enrolledAt : date_string;
  lifecycle : SourceLifecycle;
  cacheBindings : list string
}.

#[export] Instance CorpusSourceRecord_updatable : Updatable CorpusSourceRecord :=
  {| rebuild := λ r, Build_CorpusSourceRecord (sr_sourceId r) (sr_corpusId r) (sr_contentHash r)
       (sr_enrolledAt r) (lifecycle r) (cacheBindings r) |}.

(** [CorpusEnrollment], and the fields [StoredEnrollment] of
    [corpus-runtime.ts] adds to it. *)
Record StoredEnrollment := {
  en_sourceId : string;
  en_corpusId : string;
  enrolledAt : date_string;
  en_expiresAt : option date_string;
  en_retentionPolicy : RetentionPolicy;
  sourceRecord : CorpusSourceRecord;
  acl : list string;
  en_deletionPolicy : string;
  lifecycleProvenance : string;
  citationProvenance : string
}.

#[export] Instance StoredEnrollment_updatable : Updatable StoredEnrollment :=
  {| rebuild := λ e, Build_StoredEnrollment (en_sourceId e) (en_corpusId e) (enrolledAt e)
       (en_expiresAt e) (en_retentionPolicy e) (sourceRecord e) (acl e) (en_deletionPolicy e)
       (lifecycleProvenance e) (citationProvenance e) |}.

(** [Math.min] of time values, [None] for [NaN]. *)
Fixpoint earliest (t : option Z) (ts : list (option Z)) : option Z :=
  match ts with
  | [] => t
  | u :: ts' => earliest (match t, u with Some a, Some b => Some (Z.min a b) | _, _ => None end) ts'
  end.

Definition resolveEnrollmentExpiry (callerExpiresAt operatorCapExpiresAt projectCapExpiresAt
    corpusCapExpiresAt sourceCapExpiresAt : option date_string) : result (option date_string) :=
  let candidates := getTime <$> omap id [callerExpiresAt; operatorCapExpiresAt; projectCapExpiresAt;
                                         corpusCapExpiresAt; sourceCapExpiresAt] in
  match candidates with
  | [] => Ok None
  | t :: ts => iso ← toISOString (earliest t ts); Ok (Some iso)
  end.

(** [now.getTime() + minimumBoundMs] *)
Definition validateEnrollmentExpiry (expiresAt : option date_string) (minimumBoundMs : number)
    (now : Z) : result unit :=
  match expiresAt with
  | None => Ok tt
  | Some e =>
      let minMs := num_shift now minimumBoundMs in
      if match getTime e with Some ms => num_ltb (int ms) minMs | None => false end then
        match new_Date minMs with
        | Some m => Throw (TError ("Enrollment expiry is below minimum bound: expiry at " +:+
                      date_text e +:+ " is less than minimum " +:+ iso_text m))
        | None => Throw (TError "Invalid time value")
        end
      else Ok tt
  end.

Definition time_gt (a b : option Z) : bool :=
  match a, b with Some x, Some y => (y <? x)%Z | _, _ => false end.

Definition validateReEnroll (existing : StoredEnrollment) (newExpiresAt : option date_string)
    : result unit :=
  match en_expiresAt existing, newExpiresAt with
  | None, _ => Ok tt
  | Some _, None =>
      Throw (TError ("Re-enrollment cannot extend expiry from finite to persistent; " +:+
                     "use explicit extend operation"))
  | Some old, Some new =>
      throw_if (time_gt (getTime new) (getTime old))
        (TError "Re-enrollment cannot extend expiry; use explicit extend operation")
  end.

Definition revokeEnrollment (e : StoredEnrollment) : StoredEnrollment * list string :=
  let r := (sourceRecord e) <| lifecycle := deleted_source |> <| cacheBindings := [] |> in
  (e <| sourceRecord := r |>,
   cacheBindings (sourceRecord e)).

(** ** Retries *)

Record RetryIdempotencyGuard := {
  g_idempotencyKey : string;
  previousAttemptId : option string;
  g_providerTaskCreated : bool;
  g_paidCallCompleted : bool;
  g_artifactWriteCompleted : bool
}.

(** [previousResult !== null] tells a stored result from none; a result may
    itself be [null]. *)
Record RetryResult := {
  rr_idempotencyKey : string;
  rr_reused : bool;
  rr_result : js_value
}.

Definition validateRetryIdempotency (guard : RetryIdempotencyGuard) (previousResult : js_value)
    : RetryResult :=
  let is_null := match previousResult with JNull => true | _ => false end in
  if bool_decide (previousAttemptId guard ≠ None) && negb is_null
  then {| rr_idempotencyKey := g_idempotencyKey guard; rr_reused := true;
          rr_result := previousResult |}
  else {| rr_idempotencyKey := g_idempotencyKey guard; rr_reused := false; rr_result := JNull |}.

Definition attempted (guard : RetryIdempotencyGuard) : bool :=
  bool_decide (previousAttemptId guard ≠ None).

Definition validateProviderTaskNotDuplicated (guard : RetryIdempotencyGuard) : result unit :=
  throw_if (g_providerTaskCreated guard && attempted guard)
    (TError ("Provider task already created for this idempotency key; " +:+
             "retry must reuse existing task")).

Definition validatePaidCallNotDuplicated (guard : RetryIdempotencyGuard) : result unit :=
  throw_if (g_paidCallCompleted guard && attempted guard)
    (TError ("Paid upstream call already completed for this idempotency key; " +:+
             "retry must not re-bill")).

Definition validateArtifactWriteNotDuplicated (guard : RetryIdempotencyGuard) : result unit :=
  throw_if (g_artifactWriteCompleted guard && attempted guard)
    (TError ("Artifact write already completed for this idempotency key; " +:+
             "retry must not duplicate")).

Inductive CancelStatus := confirmed | uncertain | not_requested.

Record CancelAcknowledgmentStatus := {
  ack_requested : bool;
  providerAcknowledged : bool;
  ack_status : CancelStatus
}.

Definition resolveCancelAcknowledgment (requested acknowledged : bool) : CancelAcknowledgmentStatus :=
  if negb requested then
    {| ack_requested := false; providerAcknowledged := false; ack_status := not_requested |}
  else if acknowledged then
    {| ack_requested := true; providerAcknowledged := true; ack_status := confirmed |}
  else {| ack_requested := true; providerAcknowledged := false; ack_status := uncertain |}.

(** ** Durable state and artifact references *)

Definition MAX_INLINE_BYTES : Z := 4096.

Inductive ArtifactDeletionPolicy := on_expiry | on_owner_delete | manual.

Record DurableArtifactRef := {
  ar_tenantId : string;
  ar_ownerId : string;
  ar_contentHash : string;
  ar_byteSize : Z;
  ar_retentionPolicy : string;
  ar_expiresAt : date_string;
  ar_deletionPolicy : ArtifactDeletionPolicy
}.

Definition validateDurableState (inlineBytes maxInlineBytes : Z) : result unit :=
  throw_if (maxInlineBytes <? inlineBytes)%Z
    (TError ("Inline content size " +:+ show inlineBytes +:+ " exceeds durable state limit " +:+
             show maxInlineBytes +:+ "; " +:+ "use ArtifactRef for large content")).

(** A deletion policy is a non-empty string. *)
Definition validateDurableArtifactRef (ref : DurableArtifactRef) : result unit :=
  throw_if (falsy (ar_tenantId ref)) (TError "tenantId is required");;
  throw_if (falsy (ar_ownerId ref)) (TError "ownerId is required");;
  throw_if (falsy (ar_contentHash ref)) (TError "contentHash is required");;
  throw_if (ar_byteSize ref <=? 0)%Z (TError "byteSize must be positive");;
  throw_if (falsy (ar_retentionPolicy ref)) (TError "retentionPolicy is required");;
  throw_if (negb (date_truthy (ar_expiresAt ref))) (TError "expiresAt is required").

(** ** Search results *)

Inductive SearchSourceKind := public_web | corpus.

#[export] Instance SearchSourceKind_eq_dec : EqDecision SearchSourceKind.
Proof. solve_decision. Defined.

Record SearchResultProvenance := {
  sourceKind : SearchSourceKind;
  prov_provider : string;
  prov_backend : string;
  corpusBoundary : option string;
  freshnessTimestamp : date_string
}.

Definition validateSearchResultLabeling (p : SearchResultProvenance) : result unit :=
  match corpusBoundary p, sourceKind p with
  | Some boundary, public_web =>
      Throw (TError ("Corpus-scoped search result must not be labeled as public_web; " +:+
        "corpus boundary " +:+ quoted boundary +:+ " requires sourceKind " +:+ quoted "corpus"))
  | _, _ => Ok tt
  end.

(** ** Identity, deletion, health *)

Inductive CorpusState := active | syncing | degraded | deleting | deleted.

#[export] Instance CorpusState_eq_dec : EqDecision CorpusState.
Proof. solve_decision. Defined.

Record DeletionStatus := {
  derivedIndexDeleted : bool;
  artifactDeleted : bool;
  isComplete : bool
}.

(** The patterns [/^<prefix>[-_]/iu], and [/^vs_/iu]. *)
Definition dashed_prefixes : list string :=
  ["idx"; "job"; "vec"; "ns"; "coll"; "pinecone"; "weaviate"; "qdrant"].

(** Case is ignored in the Unicode way: the long s also matches [s] and the
    Kelvin sign [k], which are not Latin-1 characters. *)
Definition backend_id (corpusId : string) : bool :=
  let id := toLowerCase corpusId in
  existsb (λ p, startsWith id (p +:+ "-") || startsWith id (p +:+ "_")) dashed_prefixes ||
  startsWith id "vs_".

Definition validateCorpusIdentity (corpusId : string) : result unit :=
  throw_if (backend_id corpusId)
    (TError ("Corpus ID " +:+ quoted corpusId +:+ " appears to be a backend internal ID; " +:+
             "use an opaque Groundlane-generated ID")).

Definition validateDeletionStatus (s : DeletionStatus) : result unit :=
  throw_if (isComplete s && (negb (derivedIndexDeleted s) || negb (artifactDeleted s)))
    (TError ("Deletion cannot be reported as complete when derived index or artifact " +:+
             "deletion is pending")).

Definition mapBackendFailureToState (backendHealthy indexHealthy : bool) : CorpusState :=
  if backendHealthy && indexHealthy then active else degraded.

(** ** The manifest *)

Record CorpusSourceManifestEntry := {
  me_sourceId : string;
  me_contentHash : string;
  me_acl : list string;
  me_retentionPolicy : string;
  me_deletionPolicy : string;
  me_lifecycleProvenance : string;
  me_citationProvenance : string;
  me_backendProvenance : string
}.

Record CorpusManifest := {
  mf_corpusId : string;
  sources : list CorpusSourceManifestEntry;
  mf_updatedAt : date_string
}.

Record DerivedIndexPolicy := {
  isRebuildable : bool;
  isIdentityTruth : bool;
  isAuthorizationTruth : bool;
  isRetentionTruth : bool;
  isDeletionTruth : bool
}.

Definition DERIVED_INDEX_POLICY : DerivedIndexPolicy :=
  {| isRebuildable := true; isIdentityTruth := false; isAuthorizationTruth := false;
     isRetentionTruth := false; isDeletionTruth := false |}.

(** The loop over the sources, of which there are equally many. *)
Fixpoint same_sources (before after : list CorpusSourceManifestEntry) : result unit :=
  match before, after with
  | [], _ => Ok tt
  | b :: before', a :: after' =>
      throw_if (negb (bool_decide (me_sourceId b = me_sourceId a)))
        (TError ("Source identity changed after index rebuild: " +:+ quoted (me_sourceId b) +:+
                 " -> " +:+ quoted (me_sourceId a)));;
      throw_if (negb (bool_decide (me_contentHash b = me_contentHash a)))
        (TError ("Source content hash changed after index rebuild for " +:+ quoted (me_sourceId b)));;
      same_sources before' after'
  | _ :: _, [] => Throw (TError "Source entry missing during rebuild comparison")
  end.

Definition verifyManifestStableAfterRebuild (before after : CorpusManifest) : result unit :=
  throw_if (negb (bool_decide (mf_corpusId before = mf_corpusId after)))
    (TError "Corpus identity changed after index rebuild; manifest must be stable");;
  throw_if (negb (length (sources before) =? length (sources after)))
    (TError "Source count changed after index rebuild; manifest must be stable");;
  same_sources (sources before) (sources after).
