(* ===== verification/Corpora.v ===== *)
(** * The corpus store

    [CorpusStore] of [src/core/corpus-runtime.ts]: corpora with their sources,
    kept in a manifest that is the truth, over an index backend behind an
    interface.  The state is the store's fields and the state [W] of the
    backend and the clock; a call of the backend may throw. *)

From S2P Require Import Prelude JsString JsMap Digest DurableStore CorpusContract.

(** ** Bounds and errors *)

Definition CORPUS_ID_PREFIX : string := "gl-corpus-".

Inductive SearchToolFamily := PUBLIC_WEB_TOOL_FAMILY | SCOPED_CORPUS_TOOL_FAMILY.

#[export] Instance SearchToolFamily_eq_dec : EqDecision SearchToolFamily.
Proof. solve_decision. Defined.

Definition MAX_DISPLAY_NAME_CHARS : Z := 120.
Definition MAX_SOURCE_ID_CHARS : Z := 160.
Definition MAX_ACL_ENTRIES : Z := 32.
Definition MAX_ACL_ENTRY_CHARS : Z := 64.
Definition MAX_CONTENT_HASH_CHARS : Z := 128.
Definition MAX_SEARCH_QUERY_CHARS : Z := 500.
Definition MAX_SEARCH_RESULTS : Z := 50.
Definition DEFAULT_SEARCH_RESULTS : Z := 10.

Definition stage : string := "corpus-runtime".

Definition invalidInput (message code text : string) : thrown :=
  gerror_hint INVALID_INPUT stage message false (hint code text).

Definition assertBoundedText (value field : string) (maxChars : Z) : result unit :=
  throw_if (falsy value || falsy (trim value))
    (invalidInput (field +:+ " must be a non-empty string") "corpus.invalid_input"
       ("Provide a non-empty " +:+ field +:+ "."));;
  throw_if (maxChars <? str_length value)%Z
    (invalidInput (field +:+ " exceeds maximum length of " +:+ show maxChars +:+ " characters")
       "corpus.output_limit"
       ("Shorten " +:+ field +:+ " to at most " +:+ show maxChars +:+ " characters.")).

Fixpoint assert_entries (entries : list string) : result unit :=
  match entries with
  | [] => Ok tt
  | e :: rest => assertBoundedText e "ACL entry" MAX_ACL_ENTRY_CHARS;; assert_entries rest
  end.

Definition assertValidAcl (entries : list string) : result unit :=
  throw_if (bool_decide (entries = []))
    (invalidInput "Source ACL must contain at least one entry" "corpus.invalid_input"
       "Provide at least one ACL entry for the enrolled source.");;
  throw_if (MAX_ACL_ENTRIES <? Z.of_nat (length entries))%Z
    (invalidInput ("Source ACL exceeds maximum of " +:+ show MAX_ACL_ENTRIES +:+ " entries")
       "corpus.output_limit"
       ("Reduce the source ACL to at most " +:+ show MAX_ACL_ENTRIES +:+ " entries."));;
  assert_entries entries.

(** ** Inputs and views *)

Record CallerPrincipal := { caller_principalId : string; roles : list string }.

Record CorpusRetentionCaps := {
  operatorCapExpiresAt : option date_string;
  projectCapExpiresAt : option date_string;
  corpusCapExpiresAt : option date_string;
  sourceCapExpiresAt : option date_string;
  minimumBoundMs : number
}.

Definition DEFAULT_RETENTION_MINIMUM_BOUND_MS : Z := 3600000.

Record CreateCorpusInput := {
  in_displayName : string;
  in_ownerId : string;
  in_tenantId : string;
  in_callerExpiresAt : option date_string;
  in_caps : option CorpusRetentionCaps
}.

Record EnrollSourceInput := {
  es_sourceId : string;
  es_contentHash : string;
  es_acl : list string;
  es_retentionPolicy : string;
  es_deletionPolicy : string;
  es_lifecycleProvenance : string;
  es_citationProvenance : string;
  es_backendProvenance : string;
  es_callerExpiresAt : option date_string;
  es_cacheBindings : option (list string)
}.

Record UpdateSourceInput := {
  us_contentHash : option string;
  us_acl : option (list string);
  us_deletionPolicy : option string;
  us_citationProvenance : option string
}.

Record CorpusView := {
  v_corpusId : string;
  v_displayName : string;
  v_state : CorpusState;
  v_sourceCount : Z;
  v_updatedAt : date_string;
  v_expiresAt : option date_string
}.

Record CorpusStatusView := {
  status_view : CorpusView;
  enrolledCount : Z;
  manifest : CorpusManifest;
  v_deletion : DeletionStatus;
  status_warnings : list string
}.

Record ScopedCorpusSearchResult := {
  r_sourceId : string;
  r_contentHash : string;
  r_snippet : string;
  r_score : number;
  r_provenance : SearchResultProvenance
}.

Record ScopedCorpusSearchResponse := {
  toolFamily : SearchToolFamily;
  resp_corpusId : string;
  resp_query : string;
  results : list ScopedCorpusSearchResult;
  resp_warnings : list string
}.

Record PublicWebSearchResult := {
  web_title : string;
  web_url : string;
  web_snippet : string;
  web_provenance : SearchResultProvenance
}.

Record PublicWebSearchResponse := {
  web_toolFamily : SearchToolFamily;
  web_query : string;
  web_results : list PublicWebSearchResult
}.

Definition resolveSearchToolFamily (k : SearchSourceKind) : SearchToolFamily :=
  match k with corpus => SCOPED_CORPUS_TOOL_FAMILY | public_web => PUBLIC_WEB_TOOL_FAMILY end.

Definition fakePublicWebSearch (query provider backend : string) (now : Z)
    : result PublicWebSearchResponse :=
  assertBoundedText query "Search query" MAX_SEARCH_QUERY_CHARS;;
  assertBoundedText provider "Provider" MAX_ACL_ENTRY_CHARS;;
  assertBoundedText backend "Backend" MAX_ACL_ENTRY_CHARS;;
  let provenance := {| sourceKind := public_web; prov_provider := provider;
                       prov_backend := backend; corpusBoundary := None;
                       freshnessTimestamp := IsoAt now |} in
  validateSearchResultLabeling provenance;;
  Ok {| web_toolFamily := PUBLIC_WEB_TOOL_FAMILY; web_query := query;
        web_results := [{| web_title := "Fake public result for " +:+ query;
          web_url := "https://example.com/fake-public-result";
          web_snippet := "Deterministic fake public-web snippet for family boundary tests.";
          web_provenance := provenance |}] |}.

(** ** The backend and the clock *)

Record BackendSearchHit := {
  hit_sourceId : string;
  hit_contentHash : string;
  hit_snippet : string;
  hit_score : number
}.

Class CorpusBackendPort (W : Type) := {
  backendName : string;
  bk_createIndex : string → M W string;
  bk_enrollDocument : string → string → string → M W unit;
  bk_removeDocument : string → string → M W unit;
  bk_searchDocuments : string → string → Z → M W (list BackendSearchHit);
  bk_deleteIndex : string → M W unit;
  bk_backendHealthy : M W bool;
  bk_indexHealthy : string → M W bool
}.

(** [this.now()], a valid date. *)
Class Clock (W : Type) := { read_clock : W → Z * W }.

(** ** [InMemoryCorpusBackend] *)

Record InMemoryIndex := { ix_key : string; docs : js_map string; healthy : bool }.

#[export] Instance InMemoryIndex_updatable : Updatable InMemoryIndex :=
  {| rebuild := λ i, Build_InMemoryIndex (ix_key i) (docs i) (healthy i) |}.

Record InMemoryCorpusBackend := {
  mem_seq : Z;
  failDelete : bool;
  backendUp : bool;
  indexes : js_map InMemoryIndex
}.

#[export] Instance InMemoryCorpusBackend_updatable : Updatable InMemoryCorpusBackend :=
  {| rebuild := λ b, Build_InMemoryCorpusBackend (mem_seq b) (failDelete b) (backendUp b) (indexes b) |}.

Definition setFailDelete (fail : bool) : M InMemoryCorpusBackend unit :=
  update (λ b, b <| failDelete := fail |>).

Definition setBackendHealthy (h : bool) : M InMemoryCorpusBackend unit :=
  update (λ b, b <| backendUp := h |>).

Definition setIndexHealthy (corpusId : string) (h : bool) : M InMemoryCorpusBackend unit :=
  b ← get;
  match map_get corpusId (indexes b) with
  | None => throw (invalidInput ("Unknown corpus " +:+ quoted corpusId) "corpus.invalid_input"
                     "Create the corpus before changing backend health.")
  | Some i => update (λ b, b <| indexes := map_set corpusId (i <| healthy := h |>) (indexes b) |>)
  end.

Definition internalIndexKeyCount : M InMemoryCorpusBackend Z := gets (λ b, map_count (indexes b)).

Definition mem_createIndex (corpusId : string) : M InMemoryCorpusBackend string :=
  b ← get;
  let n := (mem_seq b + 1)%Z in
  let key := "idx-mem-" +:+ padStart0 4 (hex_text n) in
  put (b <| mem_seq := n |>
         <| indexes := map_set corpusId {| ix_key := key; docs := []; healthy := true |} (indexes b) |>);;
  mret key.

Definition requireIndex (corpusId : string) : M InMemoryCorpusBackend InMemoryIndex :=
  b ← get;
  match map_get corpusId (indexes b) with
  | None => throw (gerror_hint UPSTREAM_ERROR "corpus-backend" "Corpus backend index is unavailable"
      true (hint "corpus.backend_unavailable"
              "The corpus backend index is unavailable. Retry after the backend recovers."))
  | Some i => mret i
  end.

Definition mem_enrollDocument (corpusId sourceId contentHash : string)
    : M InMemoryCorpusBackend unit :=
  i ← requireIndex corpusId;
  update (λ b, b <| indexes := map_set corpusId (i <| docs := map_set sourceId contentHash (docs i) |>)
                                 (indexes b) |>).

Definition mem_removeDocument (corpusId sourceId : string) : M InMemoryCorpusBackend unit :=
  i ← requireIndex corpusId;
  update (λ b, b <| indexes := map_set corpusId (i <| docs := map_delete sourceId (docs i) |>)
                                 (indexes b) |>).

Definition mem_searchDocuments (corpusId query : string) (maxResults : Z)
    : M InMemoryCorpusBackend (list BackendSearchHit) :=
  i ← requireIndex corpusId;
  mret ((λ '(sourceId, contentHash),
           {| hit_sourceId := sourceId; hit_contentHash := contentHash;
              hit_snippet := "Enrolled source " +:+ sourceId; hit_score := int 1 |})
        <$> take (Z.to_nat maxResults) (docs i)).

Definition mem_deleteIndex (corpusId : string) : M InMemoryCorpusBackend unit :=
  b ← get;
  if failDelete b then
    throw (gerror_hint UPSTREAM_ERROR "corpus-backend"
      "Corpus backend deletion failed; derived index removal is pending" true
      (hint "corpus.backend_delete_pending"
         ("The backend did not finish deleting the derived index. " +:+
          "Poll corpus status and retry delete.")))
  else put (b <| indexes := map_delete corpusId (indexes b) |>).

#[export] Instance mem_corpus_backend : CorpusBackendPort InMemoryCorpusBackend := {|
  backendName := "mem-fake-v1";
  bk_createIndex := mem_createIndex;
  bk_enrollDocument := mem_enrollDocument;
  bk_removeDocument := mem_removeDocument;
  bk_searchDocuments := mem_searchDocuments;
  bk_deleteIndex := mem_deleteIndex;
  bk_backendHealthy := gets backendUp;
  bk_indexHealthy := λ corpusId, gets (λ b,
    match map_get corpusId (indexes b) with Some i => healthy i | None => false end)
|}.

(** ** [CorpusStore] *)

Record CorpusRecord := {
  corpusId : string;
  displayName : string;
  ownerId : string;
  tenantId : string;
  readerRoles : list string;
  state : CorpusState;
  enrollments : js_map StoredEnrollment;
  backendIndexKey : string;
  createdAt : date_string;
  updatedAt : date_string;
  expiresAt : option date_string;
  deletion : DeletionStatus
}.

#[export] Instance CorpusRecord_updatable : Updatable CorpusRecord :=
  {| rebuild := λ r, Build_CorpusRecord (corpusId r) (displayName r) (ownerId r) (tenantId r)
       (readerRoles r) (state r) (enrollments r) (backendIndexKey r) (createdAt r) (updatedAt r)
       (expiresAt r) (deletion r) |}.

Record CorpusStore (W : Type) := {
  seq : Z;
  records : js_map CorpusRecord;
  revokedCacheBindings : list string;
  world : W
}.
Arguments seq {W} _.
Arguments records {W} _.
Arguments revokedCacheBindings {W} _.
Arguments world {W} _.
Arguments Build_CorpusStore {W} _ _ _ _.

#[export] Instance CorpusStore_updatable {W} : Updatable (CorpusStore W) :=
  {| rebuild := λ s, Build_CorpusStore (seq s) (records s) (revokedCacheBindings s) (world s) |}.

Definition BACKEND_PROVENANCE_LABEL : string := "mem-fake-v1".

Definition defaultCaps : CorpusRetentionCaps :=
  {| operatorCapExpiresAt := None; projectCapExpiresAt := None; corpusCapExpiresAt := None;
     sourceCapExpiresAt := None; minimumBoundMs := int DEFAULT_RETENTION_MINIMUM_BOUND_MS |}.

Definition toRetentionPolicy (caps : CorpusRetentionCaps) : RetentionPolicy :=
  {| rp_operator := operatorCapExpiresAt caps; rp_project := projectCapExpiresAt caps;
     rp_corpus := corpusCapExpiresAt caps; rp_source := sourceCapExpiresAt caps;
     rp_minimumBoundMs := minimumBoundMs caps |}.

Definition is_enrolled (e : StoredEnrollment) : bool :=
  bool_decide (lifecycle (sourceRecord e) = enrolled).

Definition manifest_entry (e : StoredEnrollment) : CorpusSourceManifestEntry :=
  {| me_sourceId := en_sourceId e; me_contentHash := sr_contentHash (sourceRecord e);
     me_acl := acl e;
     me_retentionPolicy := match en_expiresAt e with Some d => date_text d | None => "persistent" end;
     me_deletionPolicy := en_deletionPolicy e; me_lifecycleProvenance := lifecycleProvenance e;
     me_citationProvenance := citationProvenance e;
     me_backendProvenance := BACKEND_PROVENANCE_LABEL |}.

(** The stable sort by source identifier, in code unit order. *)
Definition manifestFromRecord (record : CorpusRecord) : CorpusManifest :=
  {| mf_corpusId := corpusId record;
     sources := sort_by me_sourceId
       (manifest_entry <$> filter (λ e, is_enrolled e = true) (enrollments record).*2);
     mf_updatedAt := updatedAt record |}.

Definition earliestExpiry (existing resolved : option date_string) : option date_string :=
  match existing, resolved with
  | None, _ => resolved
  | _, None => existing
  | Some old, Some new => if time_gt (getTime old) (getTime new) then resolved else existing
  end.

(** [set.add(x)] *)
Definition set_add (x : string) (l : list string) : list string :=
  if bool_decide (x ∈ l) then l else l ++ [x].

Definition set_add_all (xs l : list string) : list string := foldl (λ l x, set_add x l) l xs.

Definition toView (record : CorpusRecord) (st : option CorpusState) : CorpusView :=
  {| v_corpusId := corpusId record; v_displayName := displayName record;
     v_state := default (state record) st; v_sourceCount := map_count (enrollments record);
     v_updatedAt := updatedAt record; v_expiresAt := expiresAt record |}.

Definition has_role (r : string) (caller : CallerPrincipal) : bool := bool_decide (r ∈ roles caller).

Definition is_owner (record : CorpusRecord) (caller : CallerPrincipal) : bool :=
  bool_decide (caller_principalId caller = ownerId record).

Definition canWrite (record : CorpusRecord) (caller : CallerPrincipal) : bool :=
  is_owner record caller || has_role "role:writer" caller.

Definition canRead (record : CorpusRecord) (caller : CallerPrincipal) : bool :=
  is_owner record caller || existsb (λ r, bool_decide (r ∈ readerRoles record)) (roles caller).

Definition canSeeSource (record : CorpusRecord) (caller : CallerPrincipal) (e : StoredEnrollment)
    : bool :=
  is_owner record caller || existsb (λ r, bool_decide (r ∈ acl e)) (roles caller).

Definition access_error (message code text : string) : thrown :=
  gerror_hint INVALID_INPUT stage message false (hint code text).

Definition sanitizedBackendError (error : thrown) : thrown :=
  let h := hint "corpus.backend_error"
             "The corpus backend failed. Poll corpus status; the manifest is unchanged." in
  match error with
  | TGroundlane e => gerror_hint (errCode e) stage "Corpus backend operation failed" (errRetryable e) h
  | _ => gerror_hint UPSTREAM_ERROR stage "Corpus backend operation failed" true h
  end.

Section store.
Context {W : Type} `{!Sha256Api} `{!CorpusBackendPort W} `{!Clock W}.
Notation Store := (CorpusStore W).

Definition on_world {A} (m : M W A) : M Store A := λ s,
  let '(r, w) := m (world s) in (r, s <| world := w |>).

Definition now : M Store Z := λ s,
  let '(t, w) := read_clock (world s) in (Ok t, s <| world := w |>).

(** [try { m } catch (error) { throw this.sanitizedBackendError(error); }] *)
Definition backend_call {A} (m : M W A) : M Store A :=
  catch (on_world m) (λ e, throw (sanitizedBackendError e)).

(** A change of the record's fields, in place. *)
Definition on_record (id : string) (f : CorpusRecord → CorpusRecord) : M Store unit :=
  update (λ s, match map_get id (records s) with
               | Some r => s <| records := map_set id (f r) (records s) |>
               | None => s
               end).

Definition set_enrollment (sourceId : string) (e : StoredEnrollment) (r : CorpusRecord)
    : CorpusRecord := r <| enrollments := map_set sourceId e (enrollments r) |>.

Definition touch (id : string) : M Store unit :=
  t ← now;
  on_record id (λ r, r <| updatedAt := IsoAt t |>).

Definition requireRecord (id : string) : M Store CorpusRecord :=
  s ← get;
  match map_get id (records s) with
  | Some r => mret r
  | None => throw (invalidInput "Unknown corpus" "corpus.invalid_input"
                     "Create the corpus before operating on it.")
  end.

Definition requireWritableRecord (id : string) (caller : CallerPrincipal) (allowDeleting : bool)
    : M Store CorpusRecord :=
  record ← requireRecord id;
  lift (throw_if (negb (canWrite record caller))
    (access_error "Corpus access denied for this caller" "corpus.access_denied"
       "The caller is not the corpus owner and has no writer role."));;
  lift (throw_if (bool_decide (state record = deleted))
    (access_error "Corpus access was revoked; the corpus is deleted" "corpus.access_revoked"
       "This corpus was deleted and cannot be modified."));;
  lift (throw_if (bool_decide (state record = deleting) && negb allowDeleting)
    (access_error "Corpus access was revoked; deletion is in progress" "corpus.access_revoked"
       "Deletion is in progress. Poll corpus status until it completes."));;
  mret record.

Definition requireReadableRecord (id : string) (caller : CallerPrincipal) : M Store CorpusRecord :=
  record ← requireRecord id;
  lift (throw_if (negb (canRead record caller))
    (access_error "Corpus access denied for this caller" "corpus.access_denied"
       "The caller is not the corpus owner and has no reader role."));;
  mret record.

Definition resolve_expiry (callerExpiresAt : option date_string) (caps : CorpusRetentionCaps)
    : M Store (option date_string) :=
  e ← lift (resolveEnrollmentExpiry callerExpiresAt (operatorCapExpiresAt caps)
              (projectCapExpiresAt caps) (corpusCapExpiresAt caps) (sourceCapExpiresAt caps));
  t ← now;
  lift (validateEnrollmentExpiry e (minimumBoundMs caps) t);;
  mret e.

Definition not_deleted : DeletionStatus :=
  {| derivedIndexDeleted := false; artifactDeleted := false; isComplete := false |}.

Definition corpus_id (tenant owner name : string) (n : Z) : string :=
  let digest := slice_to 12 (sha256 (utf8 (tenant +:+ ":" +:+ owner +:+ ":" +:+ name +:+ ":" +:+
                                           show n))) in
  CORPUS_ID_PREFIX +:+ padStart0 4 (hex_text n) +:+ digest.

Definition createCorpus (input : CreateCorpusInput) : M Store CorpusView :=
  lift (assertBoundedText (in_displayName input) "Display name" MAX_DISPLAY_NAME_CHARS);;
  lift (assertBoundedText (in_ownerId input) "Owner ID" MAX_ACL_ENTRY_CHARS);;
  lift (assertBoundedText (in_tenantId input) "Tenant ID" MAX_ACL_ENTRY_CHARS);;
  e ← resolve_expiry (in_callerExpiresAt input) (default defaultCaps (in_caps input));
  update (λ s, s <| seq := (seq s + 1)%Z |>);;
  n ← gets seq;
  let id := corpus_id (in_tenantId input) (in_ownerId input) (in_displayName input) n in
  lift (validateCorpusIdentity id);;
  indexKey ← backend_call (bk_createIndex id);
  t ← now;
  let record := {| corpusId := id; displayName := in_displayName input; ownerId := in_ownerId input;
                   tenantId := in_tenantId input; readerRoles := ["role:reader"; "role:writer"];
                   state := active; enrollments := []; backendIndexKey := indexKey;
                   createdAt := IsoAt t; updatedAt := IsoAt t; expiresAt := e;
                   deletion := not_deleted |} in
  update (λ s, s <| records := map_set id record (records s) |>);;
  mret (toView record None).

(** The enrollment a request makes, over the one there was. *)
Definition new_enrollment (id : string) (input : EnrollSourceInput) (caps : CorpusRetentionCaps)
    (existing : option StoredEnrollment) (resolved : option date_string) (t : Z)
    : StoredEnrollment :=
  let at_ := match existing with Some e => enrolledAt e | None => IsoAt t end in
  {| en_sourceId := es_sourceId input; en_corpusId := id; enrolledAt := at_;
     en_expiresAt := earliestExpiry (existing ≫= en_expiresAt) resolved;
     en_retentionPolicy := toRetentionPolicy caps;
     sourceRecord := {| sr_sourceId := es_sourceId input; sr_corpusId := id;
                        sr_contentHash := es_contentHash input; sr_enrolledAt := at_;
                        lifecycle := enrolled; cacheBindings := default [] (es_cacheBindings input) |};
     acl := es_acl input; en_deletionPolicy := es_deletionPolicy input;
     lifecycleProvenance := es_lifecycleProvenance input;
     citationProvenance := es_citationProvenance input |}.

(** The backend's health, both parts asked. *)
Definition backend_state (id : string) : M Store CorpusState :=
  b ← on_world bk_backendHealthy;
  i ← on_world (bk_indexHealthy id);
  mret (mapBackendFailureToState b i).

Definition enrollSource (id : string) (input : EnrollSourceInput) (caller : CallerPrincipal)
    (caps : option CorpusRetentionCaps) : M Store StoredEnrollment :=
  record ← requireWritableRecord id caller false;
  lift (assertBoundedText (es_sourceId input) "Source ID" MAX_SOURCE_ID_CHARS);;
  lift (assertBoundedText (es_contentHash input) "Content hash" MAX_CONTENT_HASH_CHARS);;
  lift (assertValidAcl (es_acl input));;
  let resolvedCaps := default defaultCaps caps in
  resolved ← resolve_expiry (es_callerExpiresAt input) resolvedCaps;
  let existing := map_get (es_sourceId input) (enrollments record) in
  lift (match existing with
        | Some e => if is_enrolled e then validateReEnroll e resolved else Ok tt
        | None => Ok tt
        end);;
  backend_call (bk_enrollDocument id (es_sourceId input) (es_contentHash input));;
  t ← now;
  let enrollment := new_enrollment (corpusId record) input resolvedCaps existing resolved t in
  on_record id (λ r, set_enrollment (es_sourceId input) enrollment r <| updatedAt := IsoAt t |>);;
  (if bool_decide (state record = active) || bool_decide (state record = degraded) then
     st ← backend_state id; on_record id (λ r, r <| state := st |>)
   else mret tt : M Store unit);;
  mret enrollment.

Definition not_enrolled (sourceId text : string) : thrown :=
  invalidInput ("Source " +:+ quoted sourceId +:+ " is not enrolled") "corpus.invalid_input" text.

(** [record.enrollments.get(sourceId)], enrolled. *)
Definition require_enrolled (record : CorpusRecord) (sourceId text : string)
    : M Store StoredEnrollment :=
  match map_get sourceId (enrollments record) with
  | Some e => if is_enrolled e then mret e else throw (not_enrolled sourceId text)
  | None => throw (not_enrolled sourceId text)
  end.

Definition updated_enrollment (e : StoredEnrollment) (u : UpdateSourceInput) (nextHash : string)
    : StoredEnrollment :=
  let source := (sourceRecord e) <| sr_contentHash := nextHash |> in
  e <| sourceRecord := source |>
    <| acl := default (acl e) (us_acl u) |>
    <| en_deletionPolicy := default (en_deletionPolicy e) (us_deletionPolicy u) |>
    <| citationProvenance := default (citationProvenance e) (us_citationProvenance u) |>.

Definition updateSource (id sourceId : string) (u : UpdateSourceInput) (caller : CallerPrincipal)
    : M Store StoredEnrollment :=
  record ← requireWritableRecord id caller false;
  existing ← require_enrolled record sourceId "Enroll the source before updating it.";
  lift (match us_contentHash u with
        | Some h => assertBoundedText h "Content hash" MAX_CONTENT_HASH_CHARS
        | None => Ok tt
        end);;
  lift (match us_acl u with Some a => assertValidAcl a | None => Ok tt end);;
  let nextHash := default (sr_contentHash (sourceRecord existing)) (us_contentHash u) in
  backend_call (bk_enrollDocument id sourceId nextHash);;
  let updated := updated_enrollment existing u nextHash in
  on_record id (set_enrollment sourceId updated);;
  touch id;;
  mret updated.

Fixpoint enroll_all (id : string) (es : list StoredEnrollment) : M W unit :=
  match es with
  | [] => mret tt
  | e :: rest =>
      (if is_enrolled e
       then bk_enrollDocument id (en_sourceId e) (sr_contentHash (sourceRecord e))
       else mret tt);;
      enroll_all id rest
  end.

Definition rebuildDerivedIndex (id : string) (caller : CallerPrincipal) : M Store CorpusManifest :=
  record ← requireWritableRecord id caller false;
  let before := manifestFromRecord record in
  backend_call (enroll_all id (enrollments record).*2);;
  record' ← requireRecord id;
  let after := manifestFromRecord record' in
  lift (verifyManifestStableAfterRebuild before after);;
  touch id;;
  mret after.

Definition removeSource (id sourceId : string) (caller : CallerPrincipal) : M Store string :=
  record ← requireWritableRecord id caller false;
  existing ← require_enrolled record sourceId "Only an enrolled source can be removed.";
  update (λ s, s <| revokedCacheBindings :=
    set_add_all (cacheBindings (sourceRecord existing)) (revokedCacheBindings s) |>);;
  backend_call (bk_removeDocument id sourceId);;
  let source := (sourceRecord existing) <| lifecycle := removed |> <| cacheBindings := [] |> in
  on_record id (set_enrollment sourceId (existing <| sourceRecord := source |>));;
  touch id;;
  mret sourceId.

Definition corpusStatus (id : string) (caller : CallerPrincipal) : M Store CorpusStatusView :=
  record ← requireReadableRecord id caller;
  lift (validateDeletionStatus (deletion record));;
  st ← (if bool_decide (state record = deleting) || bool_decide (state record = deleted)
        then mret (state record) else backend_state id);
  let warnings :=
    (if bool_decide (st = degraded)
     then ["Corpus backend is degraded; freshness may be stale."%string] else []) ++
    (if bool_decide (st = deleting)
     then ["Corpus deletion is in progress; access is revoked."%string] else []) in
  mret {| status_view := toView record (Some st);
          enrolledCount := Z.of_nat (length (filter (λ e, is_enrolled e = true) (enrollments record).*2));
          manifest := manifestFromRecord record; v_deletion := deletion record;
          status_warnings := warnings |}.

(** The hits the caller may see, up to the limit; the clock is read for each. *)
Fixpoint visible_results (record : CorpusRecord) (caller : CallerPrincipal) (limit : nat)
    (hits : list BackendSearchHit) : M Store (list ScopedCorpusSearchResult) :=
  match hits with
  | [] => mret []
  | hit :: rest =>
      let seen := match map_get (hit_sourceId hit) (enrollments record) with
                  | Some e => is_enrolled e && canSeeSource record caller e
                  | None => false
                  end in
      if negb seen then visible_results record caller limit rest
      else
        t ← now;
        let provenance := {| sourceKind := corpus; prov_provider := "internal";
                             prov_backend := backendName; corpusBoundary := Some (corpusId record);
                             freshnessTimestamp := IsoAt t |} in
        lift (validateSearchResultLabeling provenance);;
        let r := {| r_sourceId := hit_sourceId hit; r_contentHash := hit_contentHash hit;
                    r_snippet := hit_snippet hit; r_score := hit_score hit;
                    r_provenance := provenance |} in
        match limit with
        | S (S limit') => rs ← visible_results record caller (S limit') rest; mret (r :: rs)
        | _ => mret [r]
        end
  end.

Definition searchCorpus (id query : string) (caller : CallerPrincipal) (maxResults : option number)
    : M Store ScopedCorpusSearchResponse :=
  record ← requireReadableRecord id caller;
  lift (throw_if (bool_decide (state record = deleted) || bool_decide (state record = deleting))
    (access_error "Corpus access was revoked; the corpus is deleted or deletion is in progress"
       "corpus.access_revoked"
       "This corpus was deleted. Its sources and cache bindings are no longer searchable."));;
  lift (assertBoundedText query "Search query" MAX_SEARCH_QUERY_CHARS);;
  let limit := default (int DEFAULT_SEARCH_RESULTS) maxResults in
  lift (throw_if (negb (isInteger limit) || num_ltb limit (int 1) ||
                  num_ltb (int MAX_SEARCH_RESULTS) limit)
    (invalidInput ("maxResults must be an integer between 1 and " +:+ show MAX_SEARCH_RESULTS)
       "corpus.invalid_input"
       ("Pass maxResults between 1 and " +:+ show MAX_SEARCH_RESULTS +:+ ".")));;
  hits ← backend_call (bk_searchDocuments id query (to_Z limit));
  up ← on_world bk_backendHealthy;
  fine ← (if (up : bool) then on_world (bk_indexHealthy id) else mret false);
  let warnings := if (fine : bool) then []
                  else ["Corpus backend is degraded; results may be stale."%string] in
  rs ← visible_results record caller (Z.to_nat (to_Z limit)) hits;
  lift (throw_if (bool_decide (rs = []) && negb (bool_decide (enrollments record = [])))
    (access_error "Corpus access denied for all enrolled sources" "corpus.access_denied"
       "The caller is not in any enrolled source ACL. Ask the corpus owner for access."));;
  mret {| toolFamily := SCOPED_CORPUS_TOOL_FAMILY; resp_corpusId := corpusId record;
          resp_query := query; results := rs; resp_warnings := warnings |}.

(** Every enrolled source revoked. *)
Definition revoke_all (r : CorpusRecord) : CorpusRecord :=
  r <| enrollments := map_each (λ _ e, if is_enrolled e then (revokeEnrollment e).1 else e)
                        (enrollments r) |> <| state := deleting |>.

Definition revoked_bindings (r : CorpusRecord) : list string :=
  mjoin ((λ e, (revokeEnrollment e).2) <$> filter (λ e, is_enrolled e = true) (enrollments r).*2).

(** The revocation, before the backend is asked to clean up. *)
Definition revoke_record (id : string) (record : CorpusRecord) : M Store unit :=
  if bool_decide (state record = deleting) then mret tt
  else
    update (λ s, s <| revokedCacheBindings :=
      set_add_all (revoked_bindings record) (revokedCacheBindings s) |>);;
    on_record id revoke_all.

Definition delete_record (id : string) (record : CorpusRecord) : M Store DeletionStatus :=
  if isComplete (deletion record) && bool_decide (state record = deleted)
  then mret (deletion record)
  else
    revoke_record id record;;
    gone ← attempt (on_world (bk_deleteIndex id));
    match gone with
    | inr _ =>
        on_record id (λ r, r <| deletion := not_deleted |>);;
        lift (validateDeletionStatus not_deleted);;
        touch id;;
        mret not_deleted
    | inl _ =>
        let d := {| derivedIndexDeleted := true; artifactDeleted := true; isComplete := true |} in
        on_record id (λ r, r <| deletion := d |>);;
        lift (validateDeletionStatus d);;
        on_record id (λ r, r <| state := deleted |>);;
        touch id;;
        mret d
    end.

Definition deleteCorpus (id : string) (caller : CallerPrincipal) : M Store DeletionStatus :=
  record ← requireWritableRecord id caller true;
  delete_record id record.

Definition isCacheBindingHittable (binding : string) : M Store bool :=
  gets (λ s, negb (bool_decide (binding ∈ revokedCacheBindings s))).
End store.
