(* ===== verification/CorporaSafety.v ===== *)
(** * Correctness of the corpus store

    Corpora only move forward, under any operations of any callers over any
    backend: identities are fixed and distinct, retention never extends, a
    deletion revokes everything at once and is final; searches show a caller
    only what the access lists allow. *)

From S2P Require Import Prelude JsString JsMap Digest DurableStore CorpusContract Corpora.

(** ** Corpus identifiers are distinct *)

Definition hex_step (acc : Z) (c : ascii) : Z :=
  let n := Z.of_nat (nat_of_ascii c) in (16 * acc + (if n <? 58 then n - 48 else n - 87))%Z.

Definition hex_value (l : list ascii) : Z := foldl hex_step 0%Z l.

Lemma hex_step_char a d : (0 <= d < 16)%Z → hex_step a (hex_char d) = (16 * a + d)%Z.
Proof.
  intros Hd. assert (Hc : (λ d, (let n := Z.of_nat (nat_of_ascii (hex_char d)) in
    if n <? 58 then n - 48 else n - 87)%Z) d = d).
  { assert (Hall : Forall (λ d, (let n := Z.of_nat (nat_of_ascii (hex_char d)) in
      if n <? 58 then n - 48 else n - 87)%Z = d) (seqZ 0 16)) by (repeat constructor).
    rewrite Forall_forall in Hall. apply Hall, elem_of_seqZ. lia. }
  unfold hex_step. cbv zeta beta in *. by rewrite Hc.
Qed.

Lemma hex_go_value fuel z acc :
  (0 <= z < 16 ^ Z.of_nat fuel)%Z → foldl hex_step 0%Z (hex_go fuel z acc) = foldl hex_step z acc.
Proof.
  revert z acc. induction fuel as [|fuel IH]; intros z acc Hz; cbn [hex_go].
  { change (16 ^ Z.of_nat 0)%Z with 1%Z in Hz. by replace z with 0%Z by lia. }
  assert (Hm : (0 <= z mod 16 < 16)%Z) by (apply Z.mod_pos_bound; lia).
  destruct (Z.ltb_spec z 16).
  - cbn [foldl]. rewrite hex_step_char by done. f_equal. rewrite Z.mod_small by lia. lia.
  - rewrite IH.
    + cbn [foldl]. rewrite hex_step_char by done. f_equal. pose proof (Z.div_mod z 16). lia.
    + rewrite Nat2Z.inj_succ, Z.pow_succ_r in Hz by lia.
      split; [apply Z.div_pos; lia|]. apply Z.div_lt_upper_bound; lia.
Qed.

Lemma hex_text_value z : (0 <= z)%Z → hex_value (chars (hex_text z)) = z.
Proof.
  intros Hz. unfold hex_text, hex_value. rewrite chars_unchars, hex_go_value; [done|].
  split; [done|]. rewrite Nat2Z.inj_succ, Z2Nat.id by apply Z.log2_nonneg.
  destruct (decide (z = 0)%Z) as [->|]; [by vm_compute|].
  eapply Z.lt_le_trans; [apply Z.log2_spec; lia|]. apply Z.pow_le_mono_l. lia.
Qed.

Lemma pad_value n s : hex_value (chars (padStart0 n s)) = hex_value (chars s).
Proof.
  unfold padStart0, hex_value. rewrite chars_app, chars_unchars, foldl_app. f_equal.
  induction (n - String.length s) as [|k IH]; [done|]. exact IH.
Qed.

Lemma slice_length n s : n ≤ String.length s → length (chars (slice_to n s)) = n.
Proof. intros Hn. unfold slice_to. rewrite chars_unchars, length_take, length_chars. lia. Qed.

Lemma corpus_id_inj `{Sha256Api} t o nm n t' o' nm' n' :
  (0 <= n)%Z → (0 <= n')%Z → corpus_id t o nm n = corpus_id t' o' nm' n' → n = n'.
Proof.
  intros Hn Hn' Heq. unfold corpus_id in Heq. apply (f_equal chars) in Heq.
  rewrite !chars_app in Heq. apply app_inv_head in Heq.
  apply app_inj_2 in Heq as [Hp _].
  - by rewrite <- (hex_text_value n Hn), <- (hex_text_value n' Hn'), <- (pad_value 4), Hp, pad_value.
  - rewrite !slice_length; [done|rewrite sha256_length; lia..].
Qed.

(** ** The invariant and how corpora move *)

Definition no_later (new old : option date_string) : Prop :=
  match old with
  | None => True
  | Some d => ∃ t d' t', getTime d = Some t ∧ new = Some d' ∧ getTime d' = Some t' ∧ (t' <= t)%Z
  end.

Definition enrollment_evolves (e e' : StoredEnrollment) : Prop :=
  enrolledAt e' = enrolledAt e ∧ no_later (en_expiresAt e') (en_expiresAt e).

Definition gone (st : CorpusState) : bool := bool_decide (st = deleting) || bool_decide (st = deleted).

Record record_evolves (r r' : CorpusRecord) : Prop := {
  same_identity : (corpusId r', displayName r', ownerId r', tenantId r', readerRoles r',
                   backendIndexKey r', createdAt r', expiresAt r') =
                  (corpusId r, displayName r, ownerId r, tenantId r, readerRoles r,
                   backendIndexKey r, createdAt r, expiresAt r);
  gone_stays : gone (state r) = true → gone (state r') = true;
  deleted_stays : state r = deleted → state r' = deleted;
  sources_stay : ∀ k e, map_get k (enrollments r) = Some e →
    ∃ e', map_get k (enrollments r') = Some e' ∧ enrollment_evolves e e'
}.

(** No source of a corpus being deleted is enrolled; a corpus is deleted
    exactly when its deletion is complete, and then both parts are. *)
Record record_ok (r : CorpusRecord) : Prop := {
  finite_dates : ∀ k e d, map_get k (enrollments r) = Some e → en_expiresAt e = Some d →
    getTime d ≠ None;
  gone_empty : gone (state r) = true → ∀ k e, map_get k (enrollments r) = Some e → is_enrolled e = false;
  complete_iff : isComplete (deletion r) = true ↔ state r = deleted;
  complete_parts : isComplete (deletion r) = true →
    derivedIndexDeleted (deletion r) = true ∧ artifactDeleted (deletion r) = true
}.

Section evolution.
Context {W : Type} `{!Sha256Api} `{!CorpusBackendPort W} `{!Clock W}.
Notation Store := (CorpusStore W).

Record store_ok (s : Store) : Prop := {
  seq_nonneg : (0 <= seq s)%Z;
  issued_ids : ∀ id r, map_get id (records s) = Some r →
    id = corpusId r ∧ record_ok r ∧
    ∃ t o nm n, (0 <= n <= seq s)%Z ∧ id = corpus_id t o nm n
}.

Record store_evolves (s s' : Store) : Prop := {
  seq_grows : (seq s <= seq s')%Z;
  corpora_stay : ∀ id r, map_get id (records s) = Some r →
    ∃ r', map_get id (records s') = Some r' ∧ record_evolves r r';
  revocations_stay : revokedCacheBindings s ⊆ revokedCacheBindings s'
}.

Lemma enrollment_evolves_refl e : (∀ d, en_expiresAt e = Some d → getTime d ≠ None) → enrollment_evolves e e.
Proof.
  intros Hd. split; [done|]. unfold no_later. destruct (en_expiresAt e) as [d|]; [|done].
  destruct (getTime d) as [t|] eqn:Ht; [|by destruct (Hd d)]. by exists t, d, t.
Qed.

Lemma enrollment_evolves_trans e1 e2 e3 :
  enrollment_evolves e1 e2 → enrollment_evolves e2 e3 → enrollment_evolves e1 e3.
Proof.
  intros [H1 L1] [H2 L2]. split; [congruence|]. unfold no_later in *.
  destruct (en_expiresAt e1) as [d|]; [|done]. destruct L1 as (t & d' & t' & Ht & Hd' & Ht' & Hle).
  rewrite Hd' in L2. destruct L2 as (t2 & d2 & t2' & Ht2 & Hd2 & Ht2' & Hle2).
  exists t, d2, t2'. split_and!; [done..|]. assert (t' = t2) by congruence. lia.
Qed.

Lemma record_evolves_refl r : record_ok r → record_evolves r r.
Proof.
  intros Hr. split; [done..|]. intros k e He. exists e. split; [done|].
  apply enrollment_evolves_refl. intros d. by eapply finite_dates.
Qed.

Lemma cp_record_evolves_trans r1 r2 r3 : record_evolves r1 r2 → record_evolves r2 r3 → record_evolves r1 r3.
Proof.
  intros [I1 G1 D1 S1] [I2 G2 D2 S2]. split; [congruence|auto|auto|].
  intros k e (e' & He' & Hev)%S1. destruct (S2 _ _ He') as (e'' & He'' & Hev').
  exists e''. split; [done|]. by eapply enrollment_evolves_trans.
Qed.

Lemma store_evolves_refl s : store_ok s → store_evolves s s.
Proof.
  intros Hs. split; [done| |done]. intros id r Hr. exists r. split; [done|].
  apply record_evolves_refl. by apply (issued_ids s Hs id r).
Qed.

Lemma store_evolves_trans s1 s2 s3 : store_evolves s1 s2 → store_evolves s2 s3 → store_evolves s1 s3.
Proof.
  intros [Q1 C1 R1] [Q2 C2 R2]. split; [lia| |by etrans].
  intros id r (r' & Hr' & Hev)%C1. destruct (C2 _ _ Hr') as (r'' & Hr'' & Hev').
  exists r''. split; [done|]. by eapply cp_record_evolves_trans.
Qed.

(** [s'] is well formed and comes after [s]. *)
Definition follows (s s' : Store) : Prop := store_ok s' ∧ store_evolves s s'.

Lemma follows_refl s : store_ok s → follows s s.
Proof. intros Hs. split; [done|]. by apply store_evolves_refl. Qed.

Lemma follows_trans s1 s2 s3 : follows s1 s2 → follows s2 s3 → follows s1 s3.
Proof. intros [_ E1] [O2 E2]. split; [done|]. by eapply store_evolves_trans. Qed.

(** The backend and the clock are outside the store. *)
Lemma follows_world s s' w : follows s s' → follows s (s' <| world := w |>).
Proof. intros [[O1 O2] [E1 E2 E3]]. split; split; done. Qed.

(** A change of one record that is a step of it. *)
Lemma follows_record s s' id r r' :
  follows s s' → map_get id (records s') = Some r → record_ok r' → record_evolves r r' →
  follows s (s' <| records := map_set id r' (records s') |>).
Proof.
  intros Hf Hr Hok Hev. eapply follows_trans; [exact Hf|]. destruct Hf as [Hs' _].
  pose proof (f_equal (λ '(a, _, _, _, _, _, _, _), a) (same_identity _ _ Hev)) as Hid. cbn in Hid.
  split; split; cbn.
  - by apply seq_nonneg.
  - intros id' r0. rewrite map_get_set. case_decide as Hi; [|by apply issued_ids].
    intros [= <-]. subst id'. rewrite Hid. destruct (issued_ids s' Hs' id r Hr) as (-> & _ & Hn).
    done.
  - lia.
  - intros id' r0 Hr0. rewrite map_get_set. case_decide as Hi; [|].
    + subst id'. exists r'. split; [done|]. by replace r0 with r by congruence.
    + exists r0. split; [done|]. apply record_evolves_refl. by apply (issued_ids s' Hs' id' r0).
  - done.
Qed.

Lemma follows_revoked s s' xs :
  follows s s' →
  follows s (s' <| revokedCacheBindings := set_add_all xs (revokedCacheBindings s') |>).
Proof.
  intros [[O1 O2] [E1 E2 E3]]. split; split; [done..|]. cbn. etrans; [exact E3|].
  generalize (revokedCacheBindings s'). unfold set_add_all. induction xs as [|x xs IH]; intros l; cbn; [done|].
  etrans; [|apply IH]. unfold set_add. case_bool_decide; [done|]. set_solver.
Qed.
(** ** Rules for the steps of an operation *)

Lemma wp_world {A B} (m : M W A) (f : A → M Store B) Q s :
  (∀ a w, wp (f a) Q (s <| world := w |>)) → (∀ e w, Q (Throw e) (s <| world := w |>)) →
  wp (on_world m ≫= f) Q s.
Proof.
  intros Hok Hthrow. unfold wp, mbind, M_bind, on_world.
  destruct (m (world s)) as [[a|e] w]; [apply Hok|apply Hthrow].
Qed.

Lemma wp_backend {A B} (m : M W A) (f : A → M Store B) Q s :
  (∀ a w, wp (f a) Q (s <| world := w |>)) → (∀ e w, Q (Throw e) (s <| world := w |>)) →
  wp (backend_call m ≫= f) Q s.
Proof.
  intros Hok Hthrow. unfold wp, mbind, M_bind, backend_call, catch, on_world.
  destruct (m (world s)) as [[a|e] w]; [apply Hok|apply Hthrow].
Qed.

Lemma wp_now {B} (f : Z → M Store B) Q s :
  (∀ t w, wp (f t) Q (s <| world := w |>)) → wp (now ≫= f) Q s.
Proof.
  intros Hok. unfold wp, mbind, M_bind, now. destruct (read_clock (world s)) as [t w]. apply Hok.
Qed.

Lemma wp_on_record {B} id g (f : unit → M Store B) Q s r :
  map_get id (records s) = Some r →
  wp (f tt) Q (s <| records := map_set id (g r) (records s) |>) → wp (on_record id g ≫= f) Q s.
Proof. intros Hr. unfold wp, mbind, M_bind, on_record, update. by rewrite Hr. Qed.

Lemma wp_record_set id g (Q : result unit → Store → Prop) s r :
  map_get id (records s) = Some r →
  Q (Ok tt) (s <| records := map_set id (g r) (records s) |>) → wp (on_record id g) Q s.
Proof. intros Hr. unfold wp, on_record, update. by rewrite Hr. Qed.

Lemma wp_touch {B} id (f : unit → M Store B) Q s r :
  map_get id (records s) = Some r →
  (∀ t w, wp (f tt) Q (s <| world := w |>
                         <| records := map_set id (r <| updatedAt := IsoAt t |>) (records s) |>)) →
  wp (touch id ≫= f) Q s.
Proof.
  intros Hr Hf. unfold touch. apply wp_bind. apply wp_now. intros t w. by eapply wp_on_record.
Qed.

Lemma wp_record {B} id (f : CorpusRecord → M Store B) Q s :
  (∀ r, map_get id (records s) = Some r → wp (f r) Q s) → (∀ e, Q (Throw e) s) →
  wp (requireRecord id ≫= f) Q s.
Proof.
  intros Hok Hthrow. unfold requireRecord. apply wp_bind. apply wp_get.
  destruct (map_get id (records s)); [by apply Hok|]. by apply wp_throw.
Qed.

Lemma wp_writable {B} id caller al (f : CorpusRecord → M Store B) Q s :
  (∀ r, map_get id (records s) = Some r → canWrite r caller = true → state r ≠ deleted →
     (al = false → gone (state r) = false) → wp (f r) Q s) →
  (∀ e, Q (Throw e) s) →
  wp (requireWritableRecord id caller al ≫= f) Q s.
Proof.
  intros Hok Hthrow. unfold requireWritableRecord. apply wp_bind. apply wp_record; [|done].
  intros r Hr. apply wp_throw_if; [auto|]. intros Hw.
  apply wp_throw_if; [auto|]. intros Hd.
  apply wp_throw_if; [auto|]. intros Hg.
  apply wp_ret. apply negb_false_iff in Hw. apply bool_decide_eq_false in Hd.
  apply Hok; [done..|]. intros ->. rewrite andb_true_r in Hg. unfold gone. rewrite Hg.
  by apply bool_decide_eq_false.
Qed.

Lemma wp_readable {B} id caller (f : CorpusRecord → M Store B) Q s :
  (∀ r, map_get id (records s) = Some r → canRead r caller = true → wp (f r) Q s) →
  (∀ e, Q (Throw e) s) →
  wp (requireReadableRecord id caller ≫= f) Q s.
Proof.
  intros Hok Hthrow. unfold requireReadableRecord. apply wp_bind. apply wp_record; [|done].
  intros r Hr. apply wp_throw_if; [auto|]. intros Hw%negb_false_iff.
  apply wp_ret. by apply Hok.
Qed.

(** A resolved expiry is an ISO date. *)
Lemma cp_wp_resolve {B} caller caps (f : option date_string → M Store B) Q s :
  (∀ e w, (∀ d, e = Some d → ∃ ms, d = IsoAt ms) → wp (f e) Q (s <| world := w |>)) →
  (∀ e, Q (Throw e) s) → (∀ e w, Q (Throw e) (s <| world := w |>)) →
  wp (resolve_expiry caller caps ≫= f) Q s.
Proof.
  intros Hok Hthrow Hthrow'. unfold resolve_expiry. apply wp_bind.
  apply wp_lift_bind; [|done]. intros e He. apply wp_now. intros t w.
  apply wp_lift_bind; [|done]. intros _ _. apply wp_ret. apply Hok.
  intros d ->. unfold resolveEnrollmentExpiry in He. destruct (getTime <$> _) as [|x xs]; [done|].
  apply result_bind_Ok in He as (iso & Hiso & [= ->]). unfold toISOString in Hiso.
  destruct (earliest x xs) as [ms|]; [|done]. injection Hiso as <-. by exists ms.
Qed.
(** ** The operations *)

(** Calls of the backend and the clock leave the store as it is. *)
Ltac worlds := repeat apply follows_world; done.

Definition advances {A} (c : M Store A) : Prop :=
  ∀ s, store_ok s → wp c (λ _ s', follows s s') s.

(** A new corpus, under an identifier not yet issued. *)
Lemma follows_create s t o nm r :
  store_ok s → corpusId r = corpus_id t o nm (seq s + 1) → record_ok r →
  follows s (s <| seq := (seq s + 1)%Z |> <| records := map_set (corpusId r) r (records s) |>).
Proof.
  intros Hs Hid Hr. pose proof (seq_nonneg s Hs) as Hseq. rewrite Hid.
  assert (Hfresh : map_get (corpus_id t o nm (seq s + 1)) (records s) = None).
  { destruct (map_get _ _) as [r0|] eqn:H0; [|done].
    destruct (issued_ids s Hs _ _ H0) as (_ & _ & t' & o' & nm' & n & Hn & Heq).
    apply corpus_id_inj in Heq; lia. }
  split; split; cbn.
  - lia.
  - intros id r0. rewrite map_get_set. case_decide as Hi.
    + intros [= <-]. split; [by rewrite Hid|]. split; [done|]. exists t, o, nm, (seq s + 1)%Z.
      split; [lia|done].
    + intros H0. destruct (issued_ids s Hs _ _ H0) as (? & ? & t' & o' & nm' & n & Hn & ?).
      split; [done|]. split; [done|]. exists t', o', nm', n. split; [lia|done].
  - lia.
  - intros id r0 H0. rewrite map_get_set_ne by (intros ->; congruence).
    exists r0. split; [done|]. apply record_evolves_refl. by apply (issued_ids s Hs id r0).
  - done.
Qed.

Lemma createCorpus_advances input : advances (createCorpus input).
Proof.
  intros s Hs. pose proof (follows_refl s Hs) as Hf. unfold createCorpus.
  do 3 (apply wp_lift_bind; [intros _ _|done]).
  apply cp_wp_resolve; [|done|intros; by apply follows_world]. intros e w He.
  apply wp_update, wp_gets. cbn [seq]. set (id := corpus_id _ _ _ _).
  assert (Hseq : ∀ w', follows s (s <| world := w' |> <| seq := (seq s + 1)%Z |>)).
  { intros w'. split; split; cbn; try done; try lia.
    - pose proof (seq_nonneg s Hs). lia.
    - intros i r Hr. destruct (issued_ids s Hs _ _ Hr) as (? & ? & t' & o' & nm' & n & Hn & ?).
      split; [done|]. split; [done|]. exists t', o', nm', n. split; [lia|done].
    - intros i r Hr. exists r. split; [done|]. apply record_evolves_refl. by apply (issued_ids s Hs i r). }
  apply wp_lift_bind; [intros _ _|intros; apply (Hseq w)].
  apply wp_backend; [|intros; apply (Hseq w0)]. intros key w1. apply wp_now. intros t w2.
  apply wp_update, wp_ret. cbn.
  refine (follows_world _ _ w2 (follows_create s (in_tenantId input) (in_ownerId input)
    (in_displayName input) (Build_CorpusRecord id _ _ _ _ _ _ _ _ _ _ _) Hs eq_refl _)).
  by split.
Qed.

(** Record steps that leave the sources alone. *)
Lemma record_evolves_fields r r' :
  record_ok r → (corpusId r', displayName r', ownerId r', tenantId r', readerRoles r',
     backendIndexKey r', createdAt r', expiresAt r') =
    (corpusId r, displayName r, ownerId r, tenantId r, readerRoles r, backendIndexKey r,
     createdAt r, expiresAt r) →
  enrollments r' = enrollments r → (gone (state r) = true → state r' = state r) →
  record_evolves r r'.
Proof.
  intros Hok Hid He Hst. split; [done| | |].
  - intros Hg. by rewrite Hst.
  - intros Hd. rewrite <- Hd. apply Hst. unfold gone. by rewrite Hd.
  - rewrite He. intros k e Hk. exists e. split; [done|]. apply enrollment_evolves_refl.
    intros d. by eapply finite_dates.
Qed.

Lemma follows_touch s s' id r t :
  follows s s' → map_get id (records s') = Some r →
  follows s (s' <| records := map_set id (r <| updatedAt := IsoAt t |>) (records s') |>).
Proof.
  intros Hf Hr. pose proof (issued_ids s' (proj1 Hf) id r Hr) as (_ & Hok & _).
  apply (follows_record s s' id r); [done|done| |by apply record_evolves_fields].
  destruct Hok. by split.
Qed.

(** One source written in a corpus that is not being deleted. *)
Lemma follows_enrollment s s' id r k e t :
  follows s s' → map_get id (records s') = Some r → gone (state r) = false →
  (∀ d, en_expiresAt e = Some d → getTime d ≠ None) →
  (∀ e0, map_get k (enrollments r) = Some e0 → enrollment_evolves e0 e) →
  follows s (s' <| records := map_set id (set_enrollment k e r <| updatedAt := t |>) (records s') |>).
Proof.
  intros Hf Hr Hg Hd He. pose proof (issued_ids s' (proj1 Hf) id r Hr) as (_ & Hok & _).
  apply (follows_record s s' id r); [done|done| |].
  - destruct Hok as [F G C P]. split; cbn.
    + intros k0 e0 d. rewrite map_get_set. case_decide; [|by apply F]. intros [= <-]. apply Hd.
    + by rewrite Hg.
    + done.
    + done.
  - split; cbn; [done|by rewrite Hg|done|]. intros k0 e0 Hk. rewrite map_get_set. case_decide as Hi.
    + subst k0. exists e. auto.
    + exists e0. split; [done|]. apply enrollment_evolves_refl. intros d. by eapply finite_dates.
Qed.
Lemma follows_source s s' id r k e :
  follows s s' → map_get id (records s') = Some r → gone (state r) = false →
  (∀ d, en_expiresAt e = Some d → getTime d ≠ None) →
  (∀ e0, map_get k (enrollments r) = Some e0 → enrollment_evolves e0 e) →
  follows s (s' <| records := map_set id (set_enrollment k e r) (records s') |>).
Proof.
  intros. replace r with (r <| updatedAt := updatedAt r |>) by (by destruct r).
  by apply follows_enrollment.
Qed.

Lemma earliestExpiry_no_later old new :
  (∀ d, old = Some d → getTime d ≠ None) → (∀ d, new = Some d → ∃ ms, d = IsoAt ms) →
  no_later (earliestExpiry old new) old ∧
  (∀ d, earliestExpiry old new = Some d → getTime d ≠ None).
Proof.
  intros Hold Hnew. destruct old as [d|]; cbn.
  2: { split; [done|]. intros d Hd. by destruct (Hnew d Hd) as [ms ->]. }
  destruct (getTime d) as [t|] eqn:Ht; [|by destruct (Hold d)]. destruct new as [d'|].
  - destruct (Hnew d' eq_refl) as [ms ->]. cbn. destruct (Z.ltb_spec ms t).
    + split; [exists t, (IsoAt ms), ms; split_and!; [done..|lia]|]. by intros ? [= <-].
    + split; [by exists t, d, t|]. intros ? [= <-]. congruence.
  - split; [by exists t, d, t|]. intros ? [= <-]. congruence.
Qed.

Lemma enrollSource_advances id input caller caps : advances (enrollSource id input caller caps).
Proof.
  intros s Hs. pose proof (follows_refl s Hs) as Hf. unfold enrollSource.
  apply wp_writable; [|done]. intros r Hr _ _ Hg. specialize (Hg eq_refl).
  do 3 (apply wp_lift_bind; [intros _ _|done]). cbv zeta.
  apply cp_wp_resolve; [|done|intros; worlds]. intros e w He.
  apply wp_lift_bind; [intros _ _|intros; worlds].
  apply wp_backend; [|intros; worlds]. intros [] w1.
  apply wp_now. intros t w2. pose proof (issued_ids s Hs id r Hr) as (_ & Hok & _).
  set (e' := new_enrollment _ _ _ _ _ _).
  assert (He' : no_later (en_expiresAt e') (map_get (es_sourceId input) (enrollments r) ≫= en_expiresAt) ∧
    ∀ d, en_expiresAt e' = Some d → getTime d ≠ None).
  { apply earliestExpiry_no_later; [|done]. intros d.
    destruct (map_get (es_sourceId input) (enrollments r)) as [e0|] eqn:Hk; [|done]. cbn. intros Hd. exact (finite_dates r Hok _ _ _ Hk Hd). }
  eapply wp_on_record; [exact Hr|]. set (s1 := s <| world := _ |> <| world := _ |> <| world := _ |> <| records := _ |>).
  assert (Hf1 : follows s s1).
  { apply (follows_enrollment s (s <| world := w |> <| world := w1 |> <| world := w2 |>) id r); try done.
    - by do 3 apply follows_world.
    - apply He'.
    - intros e0 H0. destruct He' as [Hnl _]. rewrite H0 in Hnl. split; [|exact Hnl].
      unfold e', new_enrollment. by rewrite H0. }
  assert (Hr1 : map_get id (records s1) = Some (set_enrollment (es_sourceId input) e' r <| updatedAt := IsoAt t |>))
    by apply map_get_set_eq.
  clearbody s1. apply wp_bind.
  destruct (bool_decide (state r = active) || _); [|by apply wp_ret, wp_ret].
  unfold backend_state. apply wp_bind, wp_world; [|intros; worlds]. intros up w3.
  apply wp_world; [|intros; worlds]. intros fine w4. apply wp_ret.
  eapply wp_record_set; [exact Hr1|]. apply wp_ret.
  eapply (follows_record s (s1 <| world := w3 |> <| world := w4 |>) id); [worlds|exact Hr1| |].
  - pose proof (issued_ids s1 (proj1 Hf1) _ _ Hr1) as (_ & [F G C P] & _). split; cbn; [done|..|done].
    + unfold mapBackendFailureToState. by destruct (up && fine).
    + cbn in C. rewrite C. unfold mapBackendFailureToState, gone in *.
      split; [intros Hd; by rewrite Hd in Hg|by destruct (up && fine)].
  - apply record_evolves_fields; [|done..|cbn; by rewrite Hg].
    by apply (issued_ids s1 (proj1 Hf1) _ _ Hr1).
Qed.

Lemma updateSource_advances id sid u caller : advances (updateSource id sid u caller).
Proof.
  intros s Hs. pose proof (follows_refl s Hs) as Hf. unfold updateSource.
  apply wp_writable; [|done]. intros r Hr _ _ Hg. specialize (Hg eq_refl).
  unfold require_enrolled. apply wp_bind.
  destruct (map_get sid (enrollments r)) as [e|] eqn:He; [|by apply wp_throw].
  destruct (is_enrolled e); [|by apply wp_throw]. apply wp_ret.
  do 2 (apply wp_lift_bind; [intros _ _|done]). cbv zeta.
  apply wp_backend; [|intros; worlds]. intros [] w. pose proof (issued_ids s Hs id r Hr) as (_ & Hok & _).
  eapply wp_on_record; [exact Hr|]. set (e' := updated_enrollment _ _ _).
  assert (Hf1 : follows s (s <| world := w |> <| records := map_set id (set_enrollment sid e' r) (records s) |>)).
  { refine (follows_source s (s <| world := w |>) id r sid e' _ _ _ _ _); [worlds|done..| |].
    - intros d. exact (finite_dates r Hok sid e d He).
    - rewrite He. intros e0 [= <-]. destruct (enrollment_evolves_refl e) as [H1 H2]; [|by split].
      intros d. exact (finite_dates r Hok sid e d He). }
  eapply wp_touch; [apply map_get_set_eq|]. intros t w1. apply wp_ret.
  refine (follows_touch _ _ id _ t (follows_world _ _ w1 Hf1) _). apply map_get_set_eq.
Qed.

Lemma rebuildDerivedIndex_advances id caller : advances (rebuildDerivedIndex id caller).
Proof.
  intros s Hs. pose proof (follows_refl s Hs) as Hf. unfold rebuildDerivedIndex.
  apply wp_writable; [|done]. intros r Hr _ _ _. cbv zeta.
  apply wp_backend; [|intros; worlds]. intros [] w. apply wp_record; [|intros; worlds]. intros r' Hr'.
  apply wp_lift_bind; [intros _ _|intros; worlds].
  eapply wp_touch; [exact Hr'|]. intros t w1. apply wp_ret.
  refine (follows_touch s (s <| world := w |> <| world := w1 |>) id r' t _ Hr'). worlds.
Qed.

Lemma removeSource_advances id sid caller : advances (removeSource id sid caller).
Proof.
  intros s Hs. pose proof (follows_refl s Hs) as Hf. unfold removeSource.
  apply wp_writable; [|done]. intros r Hr _ _ Hg. specialize (Hg eq_refl).
  unfold require_enrolled. apply wp_bind.
  destruct (map_get sid (enrollments r)) as [e|] eqn:He; [|by apply wp_throw].
  destruct (is_enrolled e); [|by apply wp_throw]. apply wp_ret. apply wp_update.
  pose proof (follows_revoked s s (cacheBindings (sourceRecord e)) Hf) as Hf0.
  set (s0 := s <| revokedCacheBindings := _ |>) in *.
  apply wp_backend; [|intros; worlds]. intros [] w. pose proof (issued_ids s Hs id r Hr) as (_ & Hok & _).
  cbv zeta. eapply wp_on_record; [exact Hr|]. set (e' := e <| sourceRecord := _ |>).
  assert (Hf1 : follows s (s0 <| world := w |> <| records := map_set id (set_enrollment sid e' r) (records s0) |>)).
  { refine (follows_source s (s0 <| world := w |>) id r sid e' _ _ _ _ _); [worlds|done..| |].
    - intros d. exact (finite_dates r Hok sid e d He).
    - rewrite He. intros e0 [= <-]. destruct (enrollment_evolves_refl e) as [H1 H2]; [|by split].
      intros d. exact (finite_dates r Hok sid e d He). }
  eapply wp_touch; [apply map_get_set_eq|]. intros t w1. apply wp_ret.
  refine (follows_touch _ _ id _ t (follows_world _ _ w1 Hf1) _). apply map_get_set_eq.
Qed.
(** Reads leave the corpora and the revocations as they are. *)
Definition reads {A} (c : M Store A) : Prop := ∀ s, wp c (λ _ s', ∃ w, s' = s <| world := w |>) s.

Lemma backend_state_reads id : reads (backend_state id).
Proof.
  intros s. unfold backend_state. apply wp_world; [|by eauto]. intros up w.
  apply wp_world; [|by eauto]. intros fine w'. apply wp_ret. by eauto.
Qed.

Lemma world_same (s : Store) : s = s <| world := world s |>.
Proof. by destruct s. Qed.

Lemma corpusStatus_reads id caller : reads (corpusStatus id caller).
Proof.
  intros s. assert (Hs : ∃ w, s = s <| world := w |>) by (eexists; apply world_same).
  unfold corpusStatus. apply wp_readable; [|done]. intros r Hr _.
  apply wp_lift_bind; [intros _ _|done].
  apply wp_bind. eapply (wp_mono _ (λ _ s', ∃ w, s' = s <| world := w |>)).
  - case_match; [by apply wp_ret|apply backend_state_reads].
  - intros [st|e] s' Hs'; [by apply wp_ret|done].
Qed.

Lemma reads_advances {A} (c : M Store A) : reads c → advances c.
Proof.
  intros Hc s Hs. eapply wp_mono; [apply Hc|]. intros _ s' [w ->]. by apply follows_world, follows_refl.
Qed.
(** ** Searches *)

(** What a caller may be shown of a corpus. *)
Definition allowed (r : CorpusRecord) (caller : CallerPrincipal) (x : ScopedCorpusSearchResult) : Prop :=
  (∃ e, map_get (r_sourceId x) (enrollments r) = Some e ∧ is_enrolled e = true ∧
        canSeeSource r caller e = true) ∧
  sourceKind (r_provenance x) = corpus ∧ corpusBoundary (r_provenance x) = Some (corpusId r).

Lemma visible_results_allowed r caller limit hits s :
  wp (visible_results r caller limit hits) (λ out s', (∃ w, s' = s <| world := w |>) ∧
    ∀ rs, out = Ok rs → Forall (allowed r caller) rs ∧ length rs ≤ Nat.max 1 limit) s.
Proof.
  revert limit s. induction hits as [|hit hits IH]; intros limit s; cbn [visible_results].
  { apply wp_ret. split; [by eexists; apply world_same|]. intros rs [= <-]. split; [done|cbn; lia]. }
  destruct (map_get (hit_sourceId hit) (enrollments r)) as [e|] eqn:He; cbn [negb]; [|apply IH].
  destruct (is_enrolled e && canSeeSource r caller e) eqn:Hsee; cbn [negb]; [|apply IH].
  apply andb_true_iff in Hsee as [Hen Hsee].
  apply wp_now. intros t w. apply wp_lift_bind; [intros _ _|done]. cbv zeta.
  set (x := {| r_sourceId := _ |}). assert (Hx : allowed r caller x) by (split; [by exists e|done]).
  destruct limit as [|[|limit]]; [apply wp_ret..|].
  1-2: split; [by eexists|]; intros rs [= <-]; split; [by constructor|done].
  apply wp_bind. eapply wp_mono; [apply IH|]. intros [rs|err] s' [[w' ->] Hrs]; [|split; [by eexists|done]].
  apply wp_ret. split; [by eexists|]. intros rs' [= <-]. destruct (Hrs rs eq_refl) as [Hall Hlen].
  split; [by constructor|cbn in *; lia].
Qed.

(** The answer of a search of a record. *)
Definition search_answer (s : Store) id query caller (out : result ScopedCorpusSearchResponse) : Prop :=
  ∀ resp, out = Ok resp → ∃ r, map_get id (records s) = Some r ∧ canRead r caller = true ∧
    gone (state r) = false ∧ toolFamily resp = SCOPED_CORPUS_TOOL_FAMILY ∧
    resp_corpusId resp = corpusId r ∧ resp_query resp = query ∧
    Forall (allowed r caller) (results resp) ∧
    (Z.of_nat (length (results resp)) <= MAX_SEARCH_RESULTS)%Z ∧
    (results resp = [] → enrollments r = []).

Lemma searchCorpus_answers id query caller maxResults s :
  wp (searchCorpus id query caller maxResults)
    (λ out s', (∃ w, s' = s <| world := w |>) ∧ search_answer s id query caller out) s.
Proof.
  assert (Hs : ∃ w, s = s <| world := w |>) by (eexists; apply world_same).
  unfold searchCorpus. apply wp_readable; [|done]. intros r Hr Hread.
  apply wp_throw_if; [done|]. intros Hgone. apply wp_lift_bind; [intros _ _|done]. cbv zeta.
  apply wp_throw_if; [done|]. intros Hlim.
  apply wp_backend; [|intros; split; [by eexists|done]]. intros hits w1.
  apply wp_world; [|intros; split; [by eexists|done]]. intros up w2.
  apply wp_bind. eapply (wp_mono _ (λ _ s', ∃ w, s' = s <| world := w |>)).
  { destruct up; [|apply wp_ret; by eexists]. unfold wp, on_world. by destruct (bk_indexHealthy _ _) eqn:?; eexists. }
  intros [fine|e] s3 [w3 ->]; [|split; [by eexists|done]].
  apply wp_bind. eapply wp_mono; [apply visible_results_allowed|].
  intros [rs|e] s4 [[w4 ->] Hrs]; [|split; [by eexists|done]].
  apply wp_throw_if; [intros; split; [by eexists|done]|]. intros Hne. apply wp_ret.
  split; [by eexists|]. intros resp [= <-]. exists r. destruct (Hrs rs eq_refl) as [Hall Hlen].
  apply orb_false_iff in Hlim as [Hlim Hmax]. apply orb_false_iff in Hlim as [Hint Hmin].
  apply negb_false_iff in Hint. rewrite num_ltb_integer, to_Z_int in Hmax by (done || apply isInteger_int).
  rewrite num_ltb_integer, to_Z_int in Hmin by (done || apply isInteger_int).
  apply Z.ltb_ge in Hmax, Hmin.
  split_and!; try done; cbn.
  - unfold gone. by rewrite orb_comm.
  - lia.
  - intros ->. apply andb_false_iff in Hne as [Hne|Hne]; [done|]. by apply negb_false_iff, bool_decide_eq_true in Hne.
Qed.
(** ** Deletion *)

Lemma map_get_elem {V} k (v : V) (m : js_map V) : map_get k m = Some v → (k, v) ∈ m.
Proof.
  induction m as [|[k1 v1] m IH]; cbn; [done|].
  case_decide; [intros [= ->]; subst; by left|]. intros Hm. right. by apply IH.
Qed.

Lemma revoke_all_get r k :
  map_get k (enrollments (revoke_all r)) =
  (λ e, if is_enrolled e then (revokeEnrollment e).1 else e) <$> map_get k (enrollments r).
Proof. apply map_get_each. Qed.

Lemma revoke_all_ok r : record_ok r → state r ≠ deleted → record_ok (revoke_all r).
Proof.
  intros [F G C P] Hd. split.
  - intros k e d. rewrite revoke_all_get. destruct (map_get k (enrollments r)) as [e0|] eqn:He; [|done].
    cbn. intros [= <-]. destruct (is_enrolled e0); apply (F k e0 d He).
  - intros _ k e. rewrite revoke_all_get. destruct (map_get k (enrollments r)) as [e0|] eqn:He; [|done].
    cbn. intros [= <-]. by destruct (is_enrolled e0) eqn:Hen.
  - cbn. rewrite C. split; [done|]. by intros [=].
  - exact P.
Qed.

Lemma revoke_all_evolves r : record_ok r → state r ≠ deleted → record_evolves r (revoke_all r).
Proof.
  intros Hok Hd. split; [done|done|done|]. intros k e He. eexists. rewrite revoke_all_get, He.
  split; [done|]. destruct (enrollment_evolves_refl e) as [H1 H2].
  { intros d. by apply (finite_dates r Hok k). }
  by destruct (is_enrolled e).
Qed.

Lemma elem_of_set_add_all x xs l : x ∈ set_add_all xs l ↔ x ∈ xs ∨ x ∈ l.
Proof.
  unfold set_add_all. revert l. induction xs as [|y xs IH]; intros l; cbn; [set_solver|].
  rewrite IH. unfold set_add. case_bool_decide; set_solver.
Qed.

(** Nothing of the corpus can be reached any more. *)
Definition revoked_corpus (s : Store) (id : string) (r0 r : CorpusRecord) : Prop :=
  map_get id (records s) = Some r ∧ gone (state r) = true ∧
  ∀ k e b, map_get k (enrollments r0) = Some e → is_enrolled e = true →
    b ∈ cacheBindings (sourceRecord e) → b ∈ revokedCacheBindings s.

(** Its first half revokes, before the backend is asked. *)
Lemma revoke_first id r s (f : unit → M Store DeletionStatus) Q :
  store_ok s → map_get id (records s) = Some r → state r ≠ deleted →
  (∀ s1 r1, follows s s1 → revoked_corpus s1 id r r1 → state r1 ≠ deleted → world s1 = world s →
     wp (f tt) Q s1) →
  wp (revoke_record id r ≫= f) Q s.
Proof.
  intros Hs Hr Hd Hf. pose proof (issued_ids s Hs id r Hr) as (_ & Hok & _). apply wp_bind.
  unfold revoke_record. case_bool_decide as Hg.
  - apply wp_ret. apply (Hf s r); [by apply follows_refl| |done..]. split; [done|].
    assert (Hgone : gone (state r) = true) by (unfold gone; by rewrite Hg).
    split; [done|]. intros k e b He Hen. by rewrite (gone_empty r Hok Hgone k e He) in Hen.
  - apply wp_update. eapply wp_record_set; [exact Hr|].
    pose proof (follows_revoked s s (revoked_bindings r) (follows_refl s Hs)) as Hf0.
    apply (Hf _ (revoke_all r)); [|split; [apply map_get_set_eq|split; [done|]]|done..].
    + refine (follows_record s _ id r (revoke_all r) Hf0 Hr _ _);
        [by apply revoke_all_ok|by apply revoke_all_evolves].
    + intros k e b He Hen Hb. cbn. apply elem_of_set_add_all. left.
      unfold revoked_bindings. apply list_elem_of_join. exists (cacheBindings (sourceRecord e)).
      split; [done|]. apply list_elem_of_fmap. exists e. split; [done|].
      apply list_elem_of_filter. split; [done|]. apply list_elem_of_fmap. exists (k, e). split; [done|].
      by apply map_get_elem.
Qed.

Lemma map_set_twice {V} k (v v' : V) (m : js_map V) : map_set k v' (map_set k v m) = map_set k v' m.
Proof.
  induction m as [|[k1 v1] m IH]; cbn; [by rewrite decide_True|].
  case_decide; cbn; [by rewrite decide_True|]. by rewrite decide_False, IH.
Qed.

(** What the deletion of a record that can be deleted comes to. *)
Definition deletes (s : Store) id r (out : result DeletionStatus) (s' : Store) : Prop :=
  follows s s' ∧ ∃ d r', out = Ok d ∧ revoked_corpus s' id r r' ∧ deletion r' = d ∧
                         (isComplete d = true ↔ state r' = deleted) ∧
                         (isComplete d = true ↔ is_Ok (bk_deleteIndex id (world s)).1).

(** A step of a revoked record that keeps its sources. *)
Lemma deletes_step s s1 id r r1 r2 d t w :
  follows s s1 → revoked_corpus s1 id r r1 → state r1 ≠ deleted →
  enrollments r2 = enrollments r1 → gone (state r2) = true → record_ok r2 →
  (corpusId r2, displayName r2, ownerId r2, tenantId r2, readerRoles r2, backendIndexKey r2,
   createdAt r2, expiresAt r2) =
  (corpusId r1, displayName r1, ownerId r1, tenantId r1, readerRoles r1, backendIndexKey r1,
   createdAt r1, expiresAt r1) → deletion r2 = d →
  (isComplete d = true ↔ is_Ok (bk_deleteIndex id (world s)).1) →
  deletes s id r (Ok d)
    (s1 <| world := w |>
        <| records := map_set id (r2 <| updatedAt := IsoAt t |>) (records s1) |>).
Proof.
  intros Hf (Hr1 & Hg1 & Hb) Hd He Hg2 Hok Hid Hdel Hback.
  assert (Hf2 : follows s (s1 <| world := w |> <| records := map_set id r2 (records s1) |>)).
  { refine (follows_record s (s1 <| world := w |>) id r1 r2 (follows_world _ _ w Hf) Hr1 Hok _).
    split; [done|done|by intros ?|]. rewrite He. intros k e Hk. exists e. split; [done|].
    apply enrollment_evolves_refl. pose proof (issued_ids s1 (proj1 Hf) id r1 Hr1) as (_ & Hok1 & _).
    intros d0. exact (finite_dates r1 Hok1 k e d0 Hk). }
  split.
  - pose proof (follows_touch s _ id r2 t Hf2 (map_get_set_eq _ _ _)) as Hf3.
    cbn in Hf3 |- *. by rewrite map_set_twice in Hf3.
  - exists d, (r2 <| updatedAt := IsoAt t |>). split; [done|]. split; [|split; [done|]].
    + split; [apply map_get_set_eq|]. split; [done|]. exact Hb.
    + split; [|done]. rewrite <- Hdel. apply (complete_iff r2 Hok).
Qed.

Lemma delete_record_deletes id r s :
  store_ok s → map_get id (records s) = Some r → state r ≠ deleted →
  wp (delete_record id r) (deletes s id r) s.
Proof.
  intros Hs Hr Hd. unfold delete_record. rewrite (bool_decide_false (state r = deleted)), andb_false_r by done.
  apply revoke_first; [done..|]. intros s1 r1 Hf Hrev Hd1 Hw.
  pose proof (issued_ids s1 (proj1 Hf) id r1 (proj1 Hrev)) as (_ & Hok1 & _).
  assert (Hempty := gone_empty r1 Hok1 (proj1 (proj2 Hrev))).
  apply wp_attempt. unfold wp at 1, on_world.
  destruct (bk_deleteIndex id (world s1)) as [[[]|e] w] eqn:Hbk; cbn [fst snd].
  - cbv zeta. eapply wp_on_record; [exact (proj1 Hrev)|]. apply wp_lift_bind; [intros _ _|done].
    eapply wp_on_record; [apply map_get_set_eq|]. eapply wp_touch; [apply map_get_set_eq|]. intros t w1.
    apply wp_ret. cbn. rewrite !map_set_twice.
    refine (deletes_step s s1 id r r1 (r1 <| deletion := _ |> <| state := deleted |>) _ t w1 Hf Hrev Hd1
      eq_refl eq_refl _ eq_refl eq_refl _).
    2: { rewrite <- Hw, Hbk. split; [by eexists|done]. }
    split; cbn; [exact (finite_dates r1 Hok1)|intros _; exact Hempty|done|done].
  - eapply wp_on_record; [exact (proj1 Hrev)|]. apply wp_lift_bind; [intros _ _|done].
    eapply wp_touch; [apply map_get_set_eq|]. intros t w1.
    apply wp_ret. cbn. rewrite !map_set_twice.
    refine (deletes_step s s1 id r r1 (r1 <| deletion := _ |>) _ t w1 Hf Hrev Hd1
      eq_refl (proj1 (proj2 Hrev)) _ eq_refl eq_refl _).
    2: { rewrite <- Hw, Hbk. split; [done|by intros [? ?]]. }
    split; cbn; [exact (finite_dates r1 Hok1)|intros _; exact Hempty|by split|done].
Qed.

Lemma deleteCorpus_advances id caller : advances (deleteCorpus id caller).
Proof.
  intros s Hs. unfold deleteCorpus. apply wp_writable; [|intros; by apply follows_refl].
  intros r Hr _ Hd _. eapply wp_mono; [by apply delete_record_deletes|]. by intros out s' [Hf _].
Qed.

(** ** Runs *)

Inductive corpus_op :=
  | OCreate (input : CreateCorpusInput)
  | OEnroll (id : string) (input : EnrollSourceInput) (caller : CallerPrincipal)
            (caps : option CorpusRetentionCaps)
  | OUpdate (id sid : string) (u : UpdateSourceInput) (caller : CallerPrincipal)
  | ORebuild (id : string) (caller : CallerPrincipal)
  | ORemove (id sid : string) (caller : CallerPrincipal)
  | OStatus (id : string) (caller : CallerPrincipal)
  | OSearch (id query : string) (caller : CallerPrincipal) (maxResults : option number)
  | ODelete (id : string) (caller : CallerPrincipal).

(** The state an operation leaves, whether it returns or throws. *)
Definition after_op (op : corpus_op) (s : Store) : Store :=
  match op with
  | OCreate input => (createCorpus input s).2
  | OEnroll id input caller caps => (enrollSource id input caller caps s).2
  | OUpdate id sid u caller => (updateSource id sid u caller s).2
  | ORebuild id caller => (rebuildDerivedIndex id caller s).2
  | ORemove id sid caller => (removeSource id sid caller s).2
  | OStatus id caller => (corpusStatus id caller s).2
  | OSearch id query caller n => (searchCorpus id query caller n s).2
  | ODelete id caller => (deleteCorpus id caller s).2
  end.

Definition after_ops (ops : list corpus_op) (s : Store) : Store := foldl (λ s op, after_op op s) s ops.

Lemma after_op_follows op s : store_ok s → follows s (after_op op s).
Proof.
  intros Hs. destruct op; cbn.
  - by apply createCorpus_advances.
  - by apply enrollSource_advances.
  - by apply updateSource_advances.
  - by apply rebuildDerivedIndex_advances.
  - by apply removeSource_advances.
  - apply (reads_advances _ (corpusStatus_reads id caller) s Hs).
  - destruct (searchCorpus_answers id query caller maxResults s) as [[w ->] _].
    by apply follows_world, follows_refl.
  - by apply deleteCorpus_advances.
Qed.

Lemma after_ops_follows ops s : store_ok s → follows s (after_ops ops s).
Proof.
  revert s. induction ops as [|op ops IH]; intros s Hs; [by apply follows_refl|].
  pose proof (after_op_follows op s Hs) as Hf. eapply follows_trans; [exact Hf|]. apply IH, Hf.
Qed.

Lemma empty_store_ok w : store_ok (Build_CorpusStore 0 [] [] w).
Proof. split; [done|]. by intros id r. Qed.
(** C26: corpora only move forward.  Over any backend, after any sequence of
    operations (returning or throwing, by any callers) on an empty store and
    any further sequence: every corpus stays under its own identifier, which
    no other is ever given, with its owner, tenant and creation date; a corpus
    being deleted never comes back and a deleted one stays deleted; its
    deletion is complete exactly when it is deleted, and none of its sources
    is enrolled from the moment the deletion starts; a source never disappears
    from the records, keeps its enrollment date, and its expiry is never put
    off, not even by removing and enrolling it again; revoked cache bindings
    stay revoked. *)
Theorem corpora_only_move_forward w ops ops' :
  let s := after_ops ops (Build_CorpusStore 0 [] [] w) in
  store_ok s ∧ store_evolves s (after_ops ops' s).
Proof.
  intros s. assert (Hs : store_ok s) by apply (after_ops_follows ops _ (empty_store_ok w)).
  split; [done|]. by apply after_ops_follows.
Qed.

(** a search shows a caller only what it may see.  Whatever the backend
    answers, a search changes neither corpora nor revocations; a response
    means that the corpus exists, may be read by the caller and is not being
    deleted, and each of its at most 50 results is a source that is enrolled
    now and that the caller may see (by ownership or a role of the source's
    access list), labelled as a corpus result within this corpus. *)
Theorem corpus_search_respects_access id query caller maxResults s :
  let '(out, s') := searchCorpus id query caller maxResults s in
  records s' = records s ∧ revokedCacheBindings s' = revokedCacheBindings s ∧
  search_answer s id query caller out.
Proof.
  pose proof (searchCorpus_answers id query caller maxResults s) as Hout. unfold wp in Hout.
  destruct (searchCorpus id query caller maxResults s) as [out s']. cbn in Hout. by destruct Hout as [[w ->] Ha].
Qed.

(** a deletion revokes everything at once.  On a store that operations
    have led to, when a caller who may write deletes a corpus not yet deleted,
    the call returns, whatever the backend does; it reports completion exactly
    when the backend has removed the index; and from then on, after any
    further operations, no search of the corpus by anyone is answered and no
    cache binding of a source that was enrolled can hit. *)
Theorem deletion_revokes_at_once w ops id caller r :
  let s := after_ops ops (Build_CorpusStore 0 [] [] w) in
  map_get id (records s) = Some r → canWrite r caller = true → state r ≠ deleted →
  let '(out, s1) := deleteCorpus id caller s in
  (∃ d, out = Ok d ∧ (isComplete d = true ↔ is_Ok (bk_deleteIndex id (world s)).1)) ∧
  ∀ ops', let s2 := after_ops ops' s1 in
    (∀ query caller' n, is_Throw (searchCorpus id query caller' n s2).1) ∧
    (∀ k e b, map_get k (enrollments r) = Some e → is_enrolled e = true →
       b ∈ cacheBindings (sourceRecord e) → (isCacheBindingHittable b s2).1 = Ok false).
Proof.
  intros s Hr Hw Hd. assert (Hs : store_ok s) by apply (after_ops_follows ops _ (empty_store_ok w)).
  assert (Hdel : wp (deleteCorpus id caller) (deletes s id r) s).
  { unfold deleteCorpus, requireWritableRecord, requireRecord, wp. unfold mbind, M_bind, get.
    rewrite Hr. cbn. rewrite Hw. cbn. rewrite bool_decide_false by done. cbn.
    rewrite andb_false_r. cbn. by apply delete_record_deletes. }
  unfold wp in Hdel. destruct (deleteCorpus id caller s) as [out s1]. cbn [fst snd] in Hdel.
  destruct Hdel as (Hf & d & r1 & -> & Hrev & _ & _ & Hback). split; [by eauto|]. intros ops' s2.
  destruct (after_ops_follows ops' s1 (proj1 Hf)) as [_ [_ Hcorpora Hrevs]].
  destruct Hrev as (Hr1 & Hg1 & Hb). destruct (Hcorpora id r1 Hr1) as (r2 & Hr2 & Hev). split.
  - intros query caller' n. pose proof (searchCorpus_answers id query caller' n s2) as [_ Ha].
    destruct (searchCorpus id query caller' n s2).1 as [resp|e]; [|by eexists].
    destruct (Ha resp eq_refl) as (r3 & Hr3 & _ & Hg3 & _).
    assert (r3 = r2) as -> by (unfold s2 in Hr3; congruence).
    by rewrite (gone_stays _ _ Hev Hg1) in Hg3.
  - intros k e b He Hen Hin. cbn. rewrite bool_decide_true; [done|].
    apply Hrevs. by eapply Hb.
Qed.
End evolution.

(** ** A concrete store *)

Module CorpusDemo.
#[export] Instance digest : Sha256Api := zero_digest.
#[export] Instance clock : Clock InMemoryCorpusBackend := {| read_clock := λ b, (1000%Z, b) |}.
(** An empty backend whose deletions fail. *)
Definition backend : InMemoryCorpusBackend :=
  {| mem_seq := 0; failDelete := true; backendUp := true; indexes := [] |}.
Definition owner : CallerPrincipal := {| caller_principalId := "ann"; roles := [] |}.
Definition reader : CallerPrincipal :=
  {| caller_principalId := "bob"; roles := ["role:reader"; "team:x"] |}.
Definition source (sid role binding : string) : EnrollSourceInput :=
  {| es_sourceId := sid; es_contentHash := "h"; es_acl := [role]; es_retentionPolicy := "p";
     es_deletionPolicy := "d"; es_lifecycleProvenance := "l"; es_citationProvenance := "c";
     es_backendProvenance := "b"; es_callerExpiresAt := None; es_cacheBindings := Some [binding] |}.
Definition id : string := "gl-corpus-0001000000000000".
Definition create : corpus_op := OCreate {| in_displayName := "Docs"; in_ownerId := "ann";
  in_tenantId := "t"; in_callerExpiresAt := None; in_caps := None |}.
Definition setup : list corpus_op :=
  [create; OEnroll id (source "s1" "team:y" "bind-1") owner None;
   OEnroll id (source "s2" "team:x" "bind-2") owner None].
Notation store := (after_ops setup (Build_CorpusStore 0 [] [] backend)).

Definition found (r : result ScopedCorpusSearchResponse) : option (list string) :=
  match r with Ok resp => Some (r_sourceId <$> results resp) | Throw _ => None end.

(** The owner sees both sources, the reader only the second. *)
Example demo_search :
  found (searchCorpus id "q" owner None store).1 = Some ["s1"; "s2"]%string ∧
  found (searchCorpus id "q" reader None store).1 = Some ["s2"]%string.
Proof. split; vm_compute; reflexivity. Qed.
End CorpusDemo.

#[local] Existing Instances CorpusDemo.digest CorpusDemo.clock.

Lemma deletion_revokes_at_once_witness :
  let '(out, s1) := deleteCorpus CorpusDemo.id CorpusDemo.owner CorpusDemo.store in
  out = Ok not_deleted ∧ is_Throw (searchCorpus CorpusDemo.id "q" CorpusDemo.owner None s1).1.
Proof.
  assert (Hr : ∃ r, map_get CorpusDemo.id (records CorpusDemo.store) = Some r ∧
    canWrite r CorpusDemo.owner = true ∧ state r ≠ deleted).
  { eexists. split; [vm_compute; reflexivity|]. split; [reflexivity|]. intros H. discriminate H. }
  destruct Hr as (r & Hr & Hw & Hd).
  pose proof (deletion_revokes_at_once CorpusDemo.backend CorpusDemo.setup CorpusDemo.id
    CorpusDemo.owner r Hr Hw Hd) as Hdel.
  cbv zeta in Hdel.
  assert (Hout : (deleteCorpus CorpusDemo.id CorpusDemo.owner CorpusDemo.store).1 = Ok not_deleted)
    by (vm_compute; reflexivity).
  destruct (deleteCorpus CorpusDemo.id CorpusDemo.owner CorpusDemo.store) as [out s1].
  split; [exact Hout|]. destruct Hdel as [_ Hafter]. apply (proj1 (Hafter [])).
Defined.

(** ** Observations *)

(** The backend's page is cut before the access lists are applied: a reader
    of the second source only is refused when one result is asked for. *)
Lemma hidden_hits_deny_access :
  (∃ e, (searchCorpus CorpusDemo.id "q" CorpusDemo.reader (Some (int 1)) CorpusDemo.store).1 = Throw e) ∧
  CorpusDemo.found (searchCorpus CorpusDemo.id "q" CorpusDemo.reader (Some (int 2)) CorpusDemo.store).1 =
    Some ["s2"]%string.
Proof. split; [eexists|]; vm_compute; reflexivity. Qed.

(** A completed deletion is not idempotent: deleting again throws, and the
    branch of [deleteCorpus] that would return the status is never reached. *)
Lemma repeated_deletion_throws {W} `{CorpusBackendPort W} `{Clock W} (s : CorpusStore W) id caller r :
  map_get id (records s) = Some r → state r = deleted →
  is_Throw (deleteCorpus id caller s).1.
Proof.
  intros Hr Hd. unfold deleteCorpus, requireWritableRecord, requireRecord, mbind, M_bind, get.
  rewrite Hr. cbn. rewrite Hd. destruct (canWrite r caller); by eexists.
Qed.
