(* ===== verification/CorpusEffects.v ===== *)
(** * Idempotent effects, durable state and artifact blobs of corpora

    The rest of [src/core/corpus-runtime.ts]: the retry guard that replays a
    completed result, the store of small durable records, references to
    artifacts and the in-memory blob store behind them. *)

From S2P Require Import Prelude JsString JsMap Digest Json CorpusContract Corpora.

(** ** [IdempotencyStore] *)

(** The result is any value, [null] included. *)
Record IdempotentEffect := {
  fx_result : js_value;
  providerTaskCreated : bool;
  paidCallCompleted : bool;
  artifactWriteCompleted : bool
}.

Record IdempotentRunResult := { run_key : string; run_reused : bool; run_result : js_value }.

Record UnfinishedAttemptFlags := {
  uf_providerTaskCreated : bool;
  uf_paidCallCompleted : bool;
  uf_artifactWriteCompleted : bool
}.

Record StoredAttempt := {
  attemptId : string;
  guard_ : RetryIdempotencyGuard;
  att_result : js_value;
  hasResult : bool
}.

(** The store, and the state effects act on. *)
Record IdempotencyStore (W : Type) := { attempts : js_map StoredAttempt; outside : W }.
Arguments attempts {W} _.
Arguments outside {W} _.
Arguments Build_IdempotencyStore {W} _ _.

#[export] Instance IdempotencyStore_updatable {W} : Updatable (IdempotencyStore W) :=
  {| rebuild := λ s, Build_IdempotencyStore (attempts s) (outside s) |}.

Section idempotency.
Context {W : Type}.
Notation Store := (IdempotencyStore W).

Definition getGuard (key : string) : M Store (option RetryIdempotencyGuard) :=
  gets (λ s, guard_ <$> map_get key (attempts s)).

Definition check_ids (key attempt : string) : result unit :=
  throw_if (falsy key) (invalidInput "Idempotency key must be non-empty" "corpus.invalid_input"
    "Provide a non-empty idempotency key.");;
  throw_if (falsy attempt) (invalidInput "Attempt ID must be non-empty" "corpus.invalid_input"
    "Provide a non-empty attempt ID.").

Definition recordUnfinishedAttempt (key attempt : string) (flags : UnfinishedAttemptFlags)
    : M Store unit :=
  lift (check_ids key attempt);;
  s ← get;
  lift (throw_if (match map_get key (attempts s) with Some a => hasResult a | None => false end)
    (invalidInput "Idempotency key already has a completed result" "corpus.invalid_input"
       "Reuse the stored result instead of recording a new attempt."));;
  update (λ s, s <| attempts := map_set key
    {| attemptId := attempt;
       guard_ := {| g_idempotencyKey := key; previousAttemptId := Some attempt;
                    g_providerTaskCreated := uf_providerTaskCreated flags;
                    g_paidCallCompleted := uf_paidCallCompleted flags;
                    g_artifactWriteCompleted := uf_artifactWriteCompleted flags |};
       att_result := JNull; hasResult := false |} (attempts s) |>).

(** [effect()] *)
Definition perform {A} (effect : M W A) : M Store A := λ s,
  let '(r, w) := effect (outside s) in (r, s <| outside := w |>).

Definition fresh_guard (key : string) : RetryIdempotencyGuard :=
  {| g_idempotencyKey := key; previousAttemptId := None; g_providerTaskCreated := false;
     g_paidCallCompleted := false; g_artifactWriteCompleted := false |}.

(** The guards that only one of the flags can trip. *)
Definition check_duplicates (key : string) (existing : StoredAttempt)
    (previous : RetryIdempotencyGuard) (produced : IdempotentEffect) : result unit :=
  let g task paid write :=
    {| g_idempotencyKey := key; previousAttemptId := Some (attemptId existing);
       g_providerTaskCreated := task; g_paidCallCompleted := paid;
       g_artifactWriteCompleted := write |} in
  validateProviderTaskNotDuplicated
    (g (g_providerTaskCreated previous && providerTaskCreated produced) false false);;
  validatePaidCallNotDuplicated
    (g false (g_paidCallCompleted previous && paidCallCompleted produced) false);;
  validateArtifactWriteNotDuplicated
    (g false false (g_artifactWriteCompleted previous && artifactWriteCompleted produced)).

Definition completed_attempt (key attempt : string) (existing : option StoredAttempt)
    (previous : RetryIdempotencyGuard) (produced : IdempotentEffect) : StoredAttempt :=
  {| attemptId := attempt;
     guard_ := {| g_idempotencyKey := key;
       previousAttemptId := Some (default (default attempt (attemptId <$> existing))
                                          (previousAttemptId previous));
       g_providerTaskCreated := g_providerTaskCreated previous || providerTaskCreated produced;
       g_paidCallCompleted := g_paidCallCompleted previous || paidCallCompleted produced;
       g_artifactWriteCompleted := g_artifactWriteCompleted previous || artifactWriteCompleted produced |};
     att_result := fx_result produced; hasResult := true |}.

Definition run (key attempt : string) (effect : M W IdempotentEffect) : M Store IdempotentRunResult :=
  lift (check_ids key attempt);;
  s ← get;
  let existing := map_get key (attempts s) in
  match existing with
  | Some a =>
      if hasResult a then
        let replay := validateRetryIdempotency (guard_ a) (att_result a) in
        mret {| run_key := key; run_reused := rr_reused replay; run_result := rr_result replay |}
      else
        produced ← perform effect;
        lift (check_duplicates key a (guard_ a) produced);;
        update (λ s, s <| attempts :=
          map_set key (completed_attempt key attempt existing (guard_ a) produced) (attempts s) |>);;
        mret {| run_key := key; run_reused := false; run_result := fx_result produced |}
  | None =>
      produced ← perform effect;
      update (λ s, s <| attempts :=
        map_set key (completed_attempt key attempt existing (fresh_guard key) produced) (attempts s) |>);;
      mret {| run_key := key; run_reused := false; run_result := fx_result produced |}
  end.
End idempotency.

Definition resolveUpstreamCancel : bool → bool → CancelAcknowledgmentStatus :=
  resolveCancelAcknowledgment.

(** ** [InMemoryDurableStateStore] *)

Record DurableStateRecord := {
  ds_key : string;
  inlineBytes : Z;
  ds_ref : option DurableArtifactRef
}.

Definition state_get (key : string) : M (js_map DurableStateRecord) (option DurableStateRecord) :=
  gets (map_get key).

Definition state_put (record : DurableStateRecord) : M (js_map DurableStateRecord) unit :=
  lift (throw_if (falsy (ds_key record))
    (invalidInput "Durable state key must be non-empty" "corpus.invalid_input"
       "Provide a non-empty durable state key."));;
  lift (validateDurableState (inlineBytes record) MAX_INLINE_BYTES);;
  lift (match ds_ref record with Some ref => validateDurableArtifactRef ref | None => Ok tt end);;
  update (map_set (ds_key record) record).

Definition state_delete (key : string) : M (js_map DurableStateRecord) unit :=
  update (map_delete key).

(** ** Artifacts *)

Record CreateDurableArtifactInput := {
  ca_tenantId : string;
  ca_ownerId : string;
  ca_contentHash : string;
  ca_byteSize : Z;
  ca_retentionPolicy : string;
  ca_deletionPolicy : ArtifactDeletionPolicy;
  ca_expiresAt : date_string
}.

(** The names of a reference's properties, among which no storage field is
    found. *)
Definition ref_keys_of (ref : DurableArtifactRef) : list string :=
  ["tenantId"; "ownerId"; "contentHash"; "byteSize"; "retentionPolicy"; "expiresAt";
   "deletionPolicy"].

Fixpoint reject_storage_fields (forbidden keys : list string) : result unit :=
  match forbidden with
  | [] => Ok tt
  | f :: rest =>
      throw_if (bool_decide (f ∈ keys))
        (invalidInput ("Durable ArtifactRef must not carry storage field " +:+ quoted f)
           "corpus.invalid_input"
           "Keep the ArtifactRef storage-neutral; the deployment maps it to a backend.");;
      reject_storage_fields rest keys
  end.

Definition createDurableArtifact (input : CreateDurableArtifactInput) : result DurableArtifactRef :=
  let ref := {| ar_tenantId := ca_tenantId input; ar_ownerId := ca_ownerId input;
                ar_contentHash := ca_contentHash input; ar_byteSize := ca_byteSize input;
                ar_retentionPolicy := ca_retentionPolicy input; ar_expiresAt := ca_expiresAt input;
                ar_deletionPolicy := ca_deletionPolicy input |} in
  reject_storage_fields ["storageBackend"; "bucket"; "region"; "endpoint"; "r2Binding"]
    (ref_keys_of ref);;
  validateDurableArtifactRef ref;;
  Ok ref.

Inductive ArtifactStorageName := r2 | in_memory_fake.

Definition resolveStorageBackendName (deployment : string) : result ArtifactStorageName :=
  if bool_decide (deployment = "cloudflare"%string) then Ok r2
  else if bool_decide (deployment = "local"%string) then Ok in_memory_fake
  else Throw (invalidInput "Unknown deployment target" "corpus.invalid_input"
    ("Use deployment " +:+ quoted "cloudflare" +:+ " or " +:+ quoted "local" +:+ ".")).

(** ** [InMemoryArtifactStorageBackend] *)

Definition artifact_blob_key (tenant owner contentHash : string) : string :=
  tenant +:+ ":" +:+ owner +:+ ":" +:+ contentHash.

Section blobs.
Context `{!Sha256Api}.

Definition storeBlob (tenant owner contentHash : string) (content : bytes) : M (js_map bytes) unit :=
  lift (assertBoundedText tenant "Tenant ID" MAX_ACL_ENTRY_CHARS);;
  lift (assertBoundedText owner "Owner ID" MAX_ACL_ENTRY_CHARS);;
  lift (assertBoundedText contentHash "Content hash" MAX_CONTENT_HASH_CHARS);;
  lift (throw_if (negb (bool_decide (sha256 content = contentHash)))
    (invalidInput "Content hash mismatch; blob was not stored" "corpus.invalid_input"
       "Store the blob with the SHA-256 hex digest of its exact bytes."));;
  update (map_set (artifact_blob_key tenant owner contentHash) content).

Definition loadBlob (tenant owner contentHash : string) : M (js_map bytes) bytes :=
  m ← get;
  match map_get (artifact_blob_key tenant owner contentHash) m with
  | Some content => mret content
  | None => throw (invalidInput "Artifact not found or access denied" "corpus.invalid_input"
                     "Check the tenant/owner binding and content hash, then retry.")
  end.

Definition deleteBlob (tenant owner contentHash : string) : M (js_map bytes) unit :=
  update (map_delete (artifact_blob_key tenant owner contentHash)).
End blobs.

(** ** What a completed run leaves *)

Section replay.
Context {W : Type}.
Notation Store := (IdempotencyStore W).

Inductive attempt_op :=
  | ORecord (key attempt : string) (flags : UnfinishedAttemptFlags)
  | ORun (key attempt : string) (effect : M W IdempotentEffect).

Definition after_attempt (op : attempt_op) (s : Store) : Store :=
  match op with
  | ORecord key attempt flags => (recordUnfinishedAttempt key attempt flags s).2
  | ORun key attempt effect => (run key attempt effect s).2
  end.

Definition after_attempts (l : list attempt_op) (s : Store) : Store :=
  foldl (λ s op, after_attempt op s) s l.

(** The key has a completed attempt with this result. *)
Definition completed (key : string) (v : js_value) (s : Store) : Prop :=
  ∃ a, map_get key (attempts s) = Some a ∧ hasResult a = true ∧ att_result a = v ∧
       previousAttemptId (guard_ a) ≠ None.

Lemma completed_set key key' v a s :
  completed key v s → (key' = key → hasResult a = true ∧ att_result a = v ∧
    previousAttemptId (guard_ a) ≠ None) →
  completed key v (s <| attempts := map_set key' a (attempts s) |>).
Proof.
  intros (a0 & Ha & H) Heq. unfold completed. cbn. rewrite map_get_set. case_decide as Hk; [|by exists a0].
  subst. exists a. destruct (Heq eq_refl) as (? & ? & ?). done.
Qed.

Lemma perform_completed key v (effect : M W IdempotentEffect) s :
  completed key v s → completed key v (perform effect s).2.
Proof. unfold perform. intros (a & H). destruct (effect (outside s)). by exists a. Qed.

Lemma record_completed key v key' attempt flags s :
  completed key v s → completed key v (recordUnfinishedAttempt key' attempt flags s).2.
Proof.
  intros Hc. pose proof Hc as (a & Ha & Hres & _). unfold recordUnfinishedAttempt. rewrite lift_bind.
  destruct (check_ids key' attempt); [|done]. unfold get, mbind, M_bind, lift, throw_if, update.
  destruct (map_get key' (attempts s)) as [a'|] eqn:Ha'; [destruct (hasResult a') eqn:Hr'; [done|]|];
    cbn; apply completed_set; try done; intros ->; congruence.
Qed.

Lemma run_completed key v key' attempt effect s :
  completed key v s → completed key v (run key' attempt effect s).2.
Proof.
  intros Hc. pose proof Hc as (a & Ha & Hres & _). unfold run. rewrite lift_bind.
  destruct (check_ids key' attempt); [|done].
  assert (Hset : ∀ s1 a1, completed key v s1 → map_get key' (attempts s) ≠ Some a →
    completed key v (s1 <| attempts := map_set key' a1 (attempts s1) |>)).
  { intros s1 a1 H1 Hne. apply completed_set; [done|]. by intros ->. }
  change ((get ≫= ?f) s) with (f s s). cbv beta zeta.
  destruct (map_get key' (attempts s)) as [a'|] eqn:Ha'; [destruct (hasResult a') eqn:Hr'; [done|]|].
  - pose proof (perform_completed key v effect s Hc) as Hp. unfold mbind, M_bind, lift, update.
    destruct (perform effect s) as [[x|e] s1]; [|done]. cbn in Hp.
    destruct (check_duplicates _ _ _ _); [|done]. apply Hset; [done|]. intros [= ->]. congruence.
  - pose proof (perform_completed key v effect s Hc) as Hp. unfold mbind, M_bind, update.
    destruct (perform effect s) as [[x|e] s1]; [|done]. by apply Hset.
Qed.

Lemma attempts_keep_completed key v l s : completed key v s → completed key v (after_attempts l s).
Proof.
  revert s. induction l as [|op l IH]; intros s Hc; [done|]. apply IH.
  destruct op; [by apply record_completed|by apply run_completed].
Qed.

Lemma run_completes key attempt effect s r :
  (run key attempt effect s).1 = Ok r → run_reused r = false → run_result r ≠ JNull →
  completed key (run_result r) (run key attempt effect s).2.
Proof.
  unfold run. rewrite lift_bind. destruct (check_ids key attempt); [|done].
  change ((get ≫= ?f) s) with (f s s). cbv beta zeta.
  destruct (map_get key (attempts s)) as [a'|] eqn:Ha'; [destruct (hasResult a') eqn:Hr'|].
  - cbn. intros [= <-]. cbn. unfold validateRetryIdempotency. by case_match.
  - unfold mbind, M_bind, lift, update. destruct (perform effect s) as [[x|e] s1]; [|done].
    destruct (check_duplicates _ _ _ _); [|done]. cbn. intros [= <-] _ _. eexists. cbn.
    by rewrite map_get_set_eq.
  - unfold mbind, M_bind, update. destruct (perform effect s) as [[x|e] s1]; [|done].
    cbn. intros [= <-] _ _. eexists. cbn. by rewrite map_get_set_eq.
Qed.

(** a completed effect is replayed, never run again.  Once a run under a
    key has returned a result other than [null], every later run under that
    key, after any recorded attempts and runs in between, returns that result
    marked as reused, leaves the store as it is and performs no effect. *)
Theorem completed_result_is_replayed key attempt effect s r l attempt' effect' :
  (run key attempt effect s).1 = Ok r → run_reused r = false → run_result r ≠ JNull →
  attempt' ≠ ""%string →
  let s' := after_attempts l (run key attempt effect s).2 in
  run key attempt' effect' s' =
    (Ok {| run_key := key; run_reused := true; run_result := run_result r |}, s').
Proof.
  intros Hr Hnew Hnull Hat s'.
  assert (Hc : completed key (run_result r) s')
    by exact (attempts_keep_completed key (run_result r) l _ (run_completes _ _ _ _ _ Hr Hnew Hnull)).
  clearbody s'. destruct Hc as (a & Ha & Hres & Hv & Hp).
  assert (Hkey : falsy key = false).
  { unfold run in Hr. rewrite lift_bind in Hr. unfold check_ids in Hr. by destruct (falsy key). }
  unfold run. rewrite lift_bind. unfold check_ids. rewrite Hkey. unfold falsy.
  rewrite (bool_decide_false (attempt' = _)) by done.
  change ((get ≫= ?f) s') with (f s' s'). cbv beta zeta. rewrite Ha, Hres, Hv.
  unfold validateRetryIdempotency. rewrite bool_decide_true by done. by destruct (run_result r).
Qed.
End replay.

(** ** A concrete run, and observations *)

Module EffectsDemo.
(** An effect that bills: the state counts its calls. *)
Definition bill (v : js_value) : M Z IdempotentEffect := λ n,
  (Ok {| fx_result := v; providerTaskCreated := false; paidCallCompleted := true;
         artifactWriteCompleted := false |}, (n + 1)%Z).
Definition start : IdempotencyStore Z := {| attempts := []; outside := 0%Z |}.
Definition paid : UnfinishedAttemptFlags :=
  {| uf_providerTaskCreated := false; uf_paidCallCompleted := true; uf_artifactWriteCompleted := false |}.
#[export] Instance digest : Sha256Api := zero_digest.
End EffectsDemo.

#[local] Existing Instance EffectsDemo.digest.

Lemma completed_result_is_replayed_witness :
  let s := (run "k" "a1" (EffectsDemo.bill (JStr "done")) EffectsDemo.start).2 in
  let s' := after_attempts [ORun "other" "a2" (EffectsDemo.bill JNull)] s in
  run "k" "a3" (EffectsDemo.bill (JStr "again")) s' =
    (Ok {| run_key := "k"; run_reused := true; run_result := JStr "done" |}, s').
Proof.
  intros s s'.
  refine (completed_result_is_replayed "k" "a1" (EffectsDemo.bill (JStr "done")) EffectsDemo.start
    {| run_key := "k"; run_reused := false; run_result := JStr "done" |}
    [ORun "other" "a2" (EffectsDemo.bill JNull)] "a3" (EffectsDemo.bill (JStr "again")) _ _ _ _);
    [vm_compute; reflexivity|reflexivity|discriminate|discriminate].
Defined.

(** After an unfinished attempt that had paid, a retry that pays again is
    refused, but only once its effect has run: the call is billed twice. *)
Lemma refused_retry_has_paid :
  let s := (recordUnfinishedAttempt "k" "a1" EffectsDemo.paid EffectsDemo.start).2 in
  let '(r, s') := run "k" "a2" (EffectsDemo.bill (JStr "x")) s in
  is_Throw r ∧ outside s = 0%Z ∧ outside s' = 1%Z.
Proof. vm_compute. split; [by eexists|done]. Qed.

(** The key of a blob joins tenant, owner and hash with colons, which tenants
    and owners may contain: another tenant's blob can be loaded. *)
Lemma blob_keys_cross_tenants :
  let hash := sha256 (utf8 "secret") in
  let m := (storeBlob "a" "b:c" hash (utf8 "secret") []).2 in
  (loadBlob "a:b" "c" hash m).1 = Ok (utf8 "secret").
Proof. vm_compute. reflexivity. Qed.
