(* ===== verification/SchemaContract.v ===== *)
(** * Schema extraction contracts

    [src/core/schema-extraction-contract.ts]: the bounds of a caller's
    schema, which is any JSON value, the provenance of a result, and the
    benchmark gate before production routing. *)

From S2P Require Import Prelude JsString Json.

(** [String(x)] of a number that need not be an integer. *)
Class NumberText := { Number_toString : number → string }.

(** ** Schemas *)

Record ExtractionSchemaField := { f_name : string; f_type : string; f_required : bool }.

(** [maxDepth] and [maxProperties] are integers, which the parser of schemas
    has checked. *)
Record ExtractionSchema := {
  s_fields : list ExtractionSchemaField;
  s_maxDepth : Z;
  s_maxProperties : Z;
  s_rawSchema : js_value
}.

Inductive FieldStatus := present | missing | invalid.

#[export] Instance FieldStatus_eq_dec : EqDecision FieldStatus.
Proof. solve_decision. Defined.

(** [value] and [reason] may be absent. *)
Record ExtractionFieldResult := {
  fr_name : string;
  fr_status : FieldStatus;
  fr_value : option js_value;
  fr_reason : option string
}.

Record ExtractionProvenance := {
  pv_provider : string;
  pv_model : string;
  pv_source : string;
  pv_billedUnits : number
}.

Record ExtractionResult := {
  er_fields : list ExtractionFieldResult;
  er_provenance : ExtractionProvenance
}.

(** [/^https?:\/\//u] *)
Definition remote_ref (s : string) : bool := startsWith s "http://" || startsWith s "https://".

(** [typeof value === "string"] under the key [$ref]. *)
Definition ref_at (key : string) (value : js_value) : option string :=
  match value with
  | JStr s => if bool_decide (key = "$ref"%string) && remote_ref s then Some s else None
  | _ => None
  end.

(** The first of the items that has one; [fuel] is [maxDepth - depth]. *)
Fixpoint first_some {A B} (f : A → option B) (l : list A) : option B :=
  match l with
  | [] => None
  | x :: l' => match f x with Some b => Some b | None => first_some f l' end
  end.

Fixpoint containsRemoteRef (levels : nat) (obj : js_value) : option string :=
  match levels with
  | O => None
  | S levels' =>
      match obj with
      | JArr items => first_some (containsRemoteRef levels') items
      | JObj entries =>
          first_some (λ kv, match ref_at kv.1 kv.2 with
                            | Some found => Some found
                            | None => containsRemoteRef levels' kv.2
                            end) entries
      | _ => None
      end
  end.

Fixpoint measureDepth (obj : js_value) (current : Z) : Z :=
  match obj with
  | JArr items => foldl (λ m x, Z.max m (measureDepth x (current + 1))) current items
  | JObj entries => foldl (λ m '(_, x), Z.max m (measureDepth x (current + 1))) current entries
  | _ => current
  end.

Fixpoint countProperties (obj : js_value) : Z :=
  match obj with
  | JObj entries =>
      foldl (λ count '(_, x), (count + countProperties x)%Z) (Z.of_nat (length entries)) entries
  | _ => 0
  end.

Definition validateExtractionSchema (schema : ExtractionSchema) : result unit :=
  throw_if (bool_decide (s_fields schema = []))
    (TError "Extraction schema must define at least one field");;
  throw_if (s_maxDepth schema <=? 0)%Z (TError "maxDepth must be a positive integer");;
  throw_if (s_maxProperties schema <=? 0)%Z (TError "maxProperties must be a positive integer");;
  match containsRemoteRef 101 (s_rawSchema schema) with
  | Some ref => Throw (TError ("Remote $ref is not allowed in extraction schemas: " +:+ quoted ref))
  | None =>
      let depth := measureDepth (s_rawSchema schema) 0 in
      throw_if (s_maxDepth schema <? depth)%Z
        (TError ("Schema depth " +:+ show depth +:+ " exceeds maxDepth " +:+
                 show (s_maxDepth schema)));;
      let propCount := countProperties (s_rawSchema schema) in
      throw_if (s_maxProperties schema <? propCount)%Z
        (TError ("Schema has " +:+ show propCount +:+ " properties, exceeding maxProperties " +:+
                 show (s_maxProperties schema)))
  end.

Definition validateExtractionResult (r : ExtractionResult) : result unit :=
  let p := er_provenance r in
  throw_if (falsy (pv_provider p)) (TError "Extraction provenance must include provider");;
  throw_if (falsy (pv_model p)) (TError "Extraction provenance must include model");;
  throw_if (falsy (pv_source p)) (TError "Extraction provenance must include source");;
  throw_if (num_ltb (pv_billedUnits p) (int 0))
    (TError "Extraction provenance billedUnits must be non-negative").

(** ** The benchmark gate *)

Record ExtractionBenchmarkEntry := {
  schemaId : string;
  repeatabilityScore : number;
  fieldAccuracy : number;
  missingFieldRate : number;
  invalidFieldRate : number;
  latencyMs : number;
  outputSizeBytes : number;
  billedUnits : number
}.

Record ExtractionBenchmarkReport := {
  reportId : string;
  generatedAt : string;
  entries : list ExtractionBenchmarkEntry
}.

Record BenchmarkThresholds := {
  minRepeatability : number;
  maxLatencyMs : number;
  minFieldAccuracy : number;
  minEntries : number
}.

Definition negative_number (x : number) : bool := num_ltb x (int 0).
Definition outside_unit (x : number) : bool := num_ltb x (int 0) || num_ltb (int 1) x.

Definition validateBenchmarkEntry (e : ExtractionBenchmarkEntry) : result unit :=
  throw_if (falsy (schemaId e)) (TError "Benchmark entry must include schemaId");;
  throw_if (outside_unit (repeatabilityScore e))
    (TError "repeatabilityScore must be between 0 and 1");;
  throw_if (outside_unit (fieldAccuracy e)) (TError "fieldAccuracy must be between 0 and 1");;
  throw_if (negative_number (latencyMs e)) (TError "latencyMs must be non-negative");;
  throw_if (negative_number (outputSizeBytes e)) (TError "outputSizeBytes must be non-negative");;
  throw_if (negative_number (billedUnits e)) (TError "billedUnits must be non-negative").

Fixpoint validate_entries (es : list ExtractionBenchmarkEntry) : result unit :=
  match es with
  | [] => Ok tt
  | e :: rest => validateBenchmarkEntry e;; validate_entries rest
  end.

Definition validateBenchmarkReport (r : ExtractionBenchmarkReport) : result unit :=
  throw_if (falsy (reportId r)) (TError "Benchmark report must include reportId");;
  throw_if (falsy (generatedAt r)) (TError "Benchmark report must include generatedAt");;
  throw_if (bool_decide (entries r = []))
    (TError "Benchmark report must contain at least one entry");;
  validate_entries (entries r).

Record BenchmarkGateResult := { allowed : bool; gate_reason : string }.

Definition refused (reason : string) : BenchmarkGateResult :=
  {| allowed := false; gate_reason := reason |}.

Section gate.
Context `{!NumberText}.

(** Why an entry falls short of the thresholds. *)
Definition entry_shortfall (t : BenchmarkThresholds) (e : ExtractionBenchmarkEntry)
    : option string :=
  if num_ltb (repeatabilityScore e) (minRepeatability t) then
    Some ("Entry " +:+ quoted (schemaId e) +:+ " repeatability " +:+
          Number_toString (repeatabilityScore e) +:+ " below threshold " +:+
          Number_toString (minRepeatability t))
  else if num_ltb (fieldAccuracy e) (minFieldAccuracy t) then
    Some ("Entry " +:+ quoted (schemaId e) +:+ " field accuracy " +:+
          Number_toString (fieldAccuracy e) +:+ " below threshold " +:+
          Number_toString (minFieldAccuracy t))
  else if num_ltb (maxLatencyMs t) (latencyMs e) then
    Some ("Entry " +:+ quoted (schemaId e) +:+ " latency " +:+ Number_toString (latencyMs e) +:+
          "ms exceeds threshold " +:+ Number_toString (maxLatencyMs t) +:+ "ms")
  else None.

Definition checkBenchmarkGate (report : option ExtractionBenchmarkReport)
    (thresholds : BenchmarkThresholds) (providerAvailable : bool) : result BenchmarkGateResult :=
  match report with
  | None =>
      Ok (refused (if providerAvailable
                   then "Provider availability alone is not sufficient; benchmark report required"
                   else "No benchmark report available"))
  | Some r =>
      validateBenchmarkReport r;;
      if num_ltb (int (Z.of_nat (length (entries r)))) (minEntries thresholds) then
        Ok (refused ("Benchmark has " +:+ show (Z.of_nat (length (entries r))) +:+
                     " entries, " +:+ "minimum " +:+ Number_toString (minEntries thresholds) +:+
                     " required"))
      else
        match first_some (entry_shortfall thresholds) (entries r) with
        | Some reason => Ok (refused reason)
        | None => Ok {| allowed := true; gate_reason := "Benchmark report meets all thresholds" |}
        end
  end.
End gate.
