(* ===== verification/SchemaExtraction.v ===== *)
(** * Schema extraction: schemas, validation and digests

    The pure part of [src/core/schema-extraction-runtime.ts]: the limits, the
    parser of a caller's schema, the validation of a provider's output against
    it, and the digest that tells repeated runs apart.  Values are JSON
    values, so that every number is finite. *)

From S2P Require Import Prelude JsString JsMap Json AsyncContract UrlPolicy Limits SchemaContract.

(** [Date.parse(s)], [None] for [NaN]. *)
Class DateApi := { Date_parse : string → option Z }.

(** ** Field types *)

Inductive ScalarFieldType := t_string | t_number | t_boolean | t_url | t_date.
Inductive SchemaFieldType := Scalar (t : ScalarFieldType) | t_array.

#[export] Instance ScalarFieldType_eq_dec : EqDecision ScalarFieldType.
Proof. solve_decision. Defined.
#[export] Instance SchemaFieldType_eq_dec : EqDecision SchemaFieldType.
Proof. solve_decision. Defined.

Definition SCHEMA_FIELD_TYPES : list (string * SchemaFieldType) :=
  [("string", Scalar t_string); ("number", Scalar t_number); ("boolean", Scalar t_boolean);
   ("url", Scalar t_url); ("date", Scalar t_date); ("array", t_array)]%string.

(** [typeof value === "string"] and one of the types. *)
Definition isSchemaFieldType (value : js_value) : option SchemaFieldType :=
  match value with JStr s => map_get s SCHEMA_FIELD_TYPES | _ => None end.

Definition scalar_name (t : ScalarFieldType) : string :=
  match t with
  | t_string => "string" | t_number => "number" | t_boolean => "boolean" | t_url => "url"
  | t_date => "date"
  end.

Definition type_name (t : SchemaFieldType) : string :=
  match t with Scalar t => scalar_name t | t_array => "array" end.

(** [/^[A-Za-z][A-Za-z0-9_]{0,63}$/u] *)
Definition FIELD_NAME_RE (s : string) : bool :=
  match chars s with
  | c :: l => (is_upper c || is_lower c) && forallb is_word l && (length l <=? 63)
  | [] => false
  end.

Record ParsedSchemaField := {
  pf_name : string;
  pf_type : SchemaFieldType;
  pf_required : bool;
  pf_items : option ScalarFieldType
}.

Record ParsedExtractionSchema := {
  ps_fields : list ParsedSchemaField;
  ps_maxDepth : Z;
  ps_maxProperties : Z;
  ps_rawSchema : js_value
}.

(** A parsed schema as the contract's. *)
Definition contract_schema (s : ParsedExtractionSchema) : ExtractionSchema :=
  {| s_fields := (λ f, {| f_name := pf_name f; f_type := type_name (pf_type f);
                          f_required := pf_required f |}) <$> ps_fields s;
     s_maxDepth := ps_maxDepth s; s_maxProperties := ps_maxProperties s;
     s_rawSchema := ps_rawSchema s |}.

(** ** Limits

    [SchemaExtractionLimits] of numbers, and, with optional fields, its
    [Partial]. *)

Record SchemaExtractionLimits (A : Type) := {
  maxFields : A;
  maxDepth : A;
  maxProperties : A;
  maxArrayItems : A;
  maxStringChars : A;
  maxOutputChars : A;
  maxWarnings : A;
  maxWarningChars : A
}.
Arguments maxFields {A} _.
Arguments maxDepth {A} _.
Arguments maxProperties {A} _.
Arguments maxArrayItems {A} _.
Arguments maxStringChars {A} _.
Arguments maxOutputChars {A} _.
Arguments maxWarnings {A} _.
Arguments maxWarningChars {A} _.
Arguments Build_SchemaExtractionLimits {A} _ _ _ _ _ _ _ _.

#[export] Instance SchemaExtractionLimits_updatable {A} : Updatable (SchemaExtractionLimits A) :=
  {| rebuild := λ l, Build_SchemaExtractionLimits (maxFields l) (maxDepth l) (maxProperties l)
       (maxArrayItems l) (maxStringChars l) (maxOutputChars l) (maxWarnings l) (maxWarningChars l) |}.

(** A field of the result from the same field of two. *)
Definition limits_with {A B C} (f : A → B → C) (l : SchemaExtractionLimits A)
    (m : SchemaExtractionLimits B) : SchemaExtractionLimits C :=
  {| maxFields := f (maxFields l) (maxFields m);
     maxDepth := f (maxDepth l) (maxDepth m);
     maxProperties := f (maxProperties l) (maxProperties m);
     maxArrayItems := f (maxArrayItems l) (maxArrayItems m);
     maxStringChars := f (maxStringChars l) (maxStringChars m);
     maxOutputChars := f (maxOutputChars l) (maxOutputChars m);
     maxWarnings := f (maxWarnings l) (maxWarnings m);
     maxWarningChars := f (maxWarningChars l) (maxWarningChars m) |}.

Definition DEFAULT_SCHEMA_EXTRACTION_LIMITS : SchemaExtractionLimits Z :=
  {| maxFields := 50; maxDepth := 5; maxProperties := 100; maxArrayItems := 100;
     maxStringChars := 10000; maxOutputChars := 100000; maxWarnings := 10;
     maxWarningChars := 500 |}%Z.

Definition DEFAULT_SCHEMA_EXTRACTION_TIMEOUT_MS : Z := 30000.

Definition HARD_LIMIT_CEILINGS : SchemaExtractionLimits Z :=
  {| maxFields := 200; maxDepth := 20; maxProperties := 5000; maxArrayItems := 10000;
     maxStringChars := 200000; maxOutputChars := 1000000; maxWarnings := 50;
     maxWarningChars := 2000 |}%Z.

Definition no_overrides : SchemaExtractionLimits (option number) :=
  {| maxFields := None; maxDepth := None; maxProperties := None; maxArrayItems := None;
     maxStringChars := None; maxOutputChars := None; maxWarnings := None; maxWarningChars := None |}.

(** Limits passed on as overrides. *)
Definition as_overrides (l : SchemaExtractionLimits Z) : SchemaExtractionLimits (option number) :=
  limits_with (λ x _, Some (int x)) l l.

Definition limit_entries {A} (l : SchemaExtractionLimits A) : list (string * A) :=
  [("maxFields", maxFields l); ("maxDepth", maxDepth l); ("maxProperties", maxProperties l);
   ("maxArrayItems", maxArrayItems l); ("maxStringChars", maxStringChars l);
   ("maxOutputChars", maxOutputChars l); ("maxWarnings", maxWarnings l);
   ("maxWarningChars", maxWarningChars l)]%string.

Definition invalidInput (message code text : string) : thrown :=
  gerror_hint INVALID_INPUT "schema-extract" message false (hint code text).

Definition limit_ok (value : number) (ceiling : Z) : bool :=
  isInteger value && negb (num_leb value (int 0)) && negb (num_ltb (int ceiling) value).

Fixpoint check_limits (es : list (string * (number * Z))) : result unit :=
  match es with
  | [] => Ok tt
  | (key, (value, ceiling)) :: rest =>
      throw_if (negb (limit_ok value ceiling))
        (invalidInput ("Schema extraction limit " +:+ key +:+ " is outside the allowed range")
           "schema_extract.invalid_limit"
           ("Limits must be positive integers within deployment ceilings. " +:+
            "Check the operator configuration."));;
      check_limits rest
  end.

Definition resolveSchemaExtractionLimits (overrides : SchemaExtractionLimits (option number))
    : result (SchemaExtractionLimits Z) :=
  let resolved := limits_with (λ d o, default (int d) o) DEFAULT_SCHEMA_EXTRACTION_LIMITS overrides in
  check_limits (limit_entries (limits_with pair resolved HARD_LIMIT_CEILINGS));;
  Ok (limits_with (λ x _, to_Z x) resolved resolved).

(** ** The bounded schema parser *)

Definition MAX_SCHEMA_SCAN_NODES : Z := 5000.

Definition schema_too_large : thrown :=
  invalidInput "Extraction schema exceeds the scannable node bound" "schema_extract.schema_too_large"
    ("Shrink the schema to at most 50 flat fields without $ref. " +:+
     "Inline referenced shapes instead of nesting.").

Definition ref_rejected : thrown :=
  invalidInput
    (quoted "$ref" +:+ " is not allowed in extraction schemas; inline the referenced shape")
    "schema_extract.ref_rejected"
    ("Remote $ref is never fetched. Local $ref is not resolved in v1 — " +:+
     "inline the referenced object shape as plain fields.").

(** The loop over the stack, whose top is the head; [left] is how many more
    nodes may be seen.  The items are pushed in order, the last on top. *)
Fixpoint scan_refs (left : nat) (stack : list js_value) : result unit :=
  match stack with
  | [] => Ok tt
  | current :: rest =>
      match left with
      | O => Throw schema_too_large
      | S left' =>
          match current with
          | JArr items => scan_refs left' (reverse items ++ rest)
          | JObj entries =>
              throw_if (bool_decide ("$ref"%string ∈ entries.*1)) ref_rejected;;
              scan_refs left' (reverse entries.*2 ++ rest)
          | _ => scan_refs left' rest
          end
      end
  end.

Definition rejectRefKeys (raw : js_value) : result unit :=
  scan_refs (Z.to_nat MAX_SCHEMA_SCAN_NODES) [raw].

Definition parse_required (name : string) (definition : js_value) : result bool :=
  match prop definition "required" with
  | JUndefined => Ok false
  | JBool b => Ok b
  | _ => Throw (invalidInput
      ("Extraction field " +:+ quoted name +:+ " has a non-boolean required flag")
      "schema_extract.invalid_required_flag"
      "The required flag must be a boolean; omit it to default to optional.")
  end.

Definition is_object (v : js_value) : bool := match v with JObj _ => true | _ => false end.

Definition parse_items (name : string) (definition : js_value) : result ScalarFieldType :=
  let items := prop definition "items" in
  throw_if (negb (is_object items))
    (invalidInput ("Extraction field " +:+ quoted name +:+ " of type array must declare items")
       "schema_extract.array_missing_items"
       ("Array fields need an item type, e.g. { type: " +:+ quoted "array" +:+ ", items: { type: " +:+
        quoted "string" +:+ " } }."));;
  match isSchemaFieldType (prop items "type") with
  | Some (Scalar t) => Ok t
  | _ => Throw (invalidInput
      ("Extraction field " +:+ quoted name +:+ " has an unsupported array item type")
      "schema_extract.unsupported_item_type"
      ("Array items must be a scalar: string, number, boolean, url, or date. " +:+
       "Nested arrays are not supported in v1."))
  end.

Definition parse_field (entry : string * js_value) : result ParsedSchemaField :=
  let '(name, definition) := entry in
  throw_if (negb (FIELD_NAME_RE name))
    (invalidInput ("Extraction field name " +:+ quoted name +:+ " is invalid")
       "schema_extract.invalid_field_name"
       ("Field names must start with a letter, use only letters/digits/underscore, " +:+
        "and stay under 64 characters."));;
  throw_if (negb (is_object definition))
    (invalidInput ("Extraction field " +:+ quoted name +:+ " must be an object")
       "schema_extract.invalid_field_definition"
       ("Each field must be an object like { type: " +:+ quoted "string" +:+
        " }. Supported types: string, number, boolean, url, date, array."));;
  match isSchemaFieldType (prop definition "type") with
  | None => Throw (invalidInput ("Extraction field " +:+ quoted name +:+ " has an unsupported type")
      "schema_extract.unsupported_field_type"
      ("Supported field types: string, number, boolean, url, date, array. " +:+
       "Nested objects are not supported in v1."))
  | Some type =>
      required ← parse_required name definition;
      match type with
      | t_array =>
          itemType ← parse_items name definition;
          Ok {| pf_name := name; pf_type := t_array; pf_required := required;
                pf_items := Some itemType |}
      | Scalar _ =>
          Ok {| pf_name := name; pf_type := type; pf_required := required; pf_items := None |}
      end
  end.

Fixpoint parse_fields (entries : list (string * js_value)) : result (list ParsedSchemaField) :=
  match entries with
  | [] => Ok []
  | e :: rest => f ← parse_field e; fs ← parse_fields rest; Ok (f :: fs)
  end.

Definition parseBoundedSchema (rawSchema : js_value)
    (limitOverrides : SchemaExtractionLimits (option number)) : result ParsedExtractionSchema :=
  limits ← resolveSchemaExtractionLimits limitOverrides;
  throw_if (negb (is_object rawSchema))
    (invalidInput "Extraction schema must be an object" "schema_extract.schema_not_object"
       ("Provide an object schema like { type: " +:+ quoted "object" +:+
        ", properties: { title: { type: " +:+ quoted "string" +:+ " } } }."));;
  rejectRefKeys rawSchema;;
  throw_if (match prop rawSchema "type" with
            | JStr t => negb (bool_decide (t = "object"%string)) | _ => true end)
    (invalidInput ("Extraction schema must declare type " +:+ quoted "object")
       "schema_extract.schema_root_type"
       ("The top level must be { type: " +:+ quoted "object" +:+ ", properties: { ... } }. " +:+
        "Only flat field extraction is supported in v1."));;
  match prop rawSchema "properties" with
  | JObj entries =>
      throw_if (bool_decide (entries = []))
        (invalidInput "Extraction schema must define at least one field"
           "schema_extract.schema_no_fields" "Add at least one named field to properties.");;
      throw_if (maxFields limits <? Z.of_nat (length entries))%Z
        (invalidInput ("Extraction schema defines " +:+ show (Z.of_nat (length entries)) +:+
                       " fields, exceeding maxFields " +:+ show (maxFields limits))
           "schema_extract.too_many_fields"
           "Split the request into smaller extractions within maxFields.");;
      fields ← parse_fields entries;
      let schema := {| ps_fields := fields; ps_maxDepth := maxDepth limits;
                       ps_maxProperties := maxProperties limits; ps_rawSchema := rawSchema |} in
      match validateExtractionSchema (contract_schema schema) with
      | Ok _ => Ok schema
      | Throw error =>
          Throw (invalidInput (thrown_message error) "schema_extract.schema_rejected"
            ("The schema violated a contract bound (depth, property count, or remote " +:+
             "reference). Flatten and shrink it."))
      end
  | _ => Throw (invalidInput "Extraction schema must define a properties object"
      "schema_extract.schema_no_properties"
      ("Add a properties object with at least one named field, e.g. properties: { title: { type: "
       +:+ quoted "string" +:+ " } }."))
  end.

(** ** Validation of a provider's output *)

Inductive FieldCheck :=
  | Valid (value : js_value)
  | Bad (reason : string) (value : option js_value).

Record ProviderOutputValidation := {
  val_fields : list ExtractionFieldResult;
  val_truncated : bool
}.

Definition truncateBoundedString (value : string) (maxChars : Z) : result (string * bool) :=
  if (str_length value <=? maxChars)%Z then Ok (value, false)
  else
    let window := slice_to (Z.to_nat (maxChars * 2 + 16)) value in
    r ← truncateUnicode window (int maxChars);
    Ok (trunc_value r, true).

Definition bounded_text (limits : SchemaExtractionLimits Z) (s : string) : result js_value :=
  r ← truncateBoundedString s (maxStringChars limits); Ok (JStr r.1).

Definition MAX_URL_VALUE_UNITS : Z := 8192.
Definition MAX_DATE_VALUE_UNITS : Z := 120.

Section validation.
Context `{!UrlApi} `{!DateApi}.

Definition checkScalar (type : ScalarFieldType) (raw : js_value) (limits : SchemaExtractionLimits Z)
    : result FieldCheck :=
  match type, raw with
  | t_string, JStr s => v ← bounded_text limits s; Ok (Valid v)
  | t_string, _ => Ok (Bad "Expected string" None)
  | t_number, JNum _ => Ok (Valid raw)
  | t_number, _ => Ok (Bad "Expected finite number" None)
  | t_boolean, JBool _ => Ok (Valid raw)
  | t_boolean, _ => Ok (Bad "Expected boolean" None)
  | t_url, JStr s =>
      if (MAX_URL_VALUE_UNITS <? str_length s)%Z then Ok (Bad "Expected public HTTP(S) URL" None)
      else
        v ← bounded_text limits s;
        match parsePublicUrl s default_ports with
        | Throw _ => Ok (Bad "Expected public HTTP(S) URL" (Some v))
        | Ok _ => Ok (Valid v)
        end
  | t_url, _ => Ok (Bad "Expected public HTTP(S) URL" None)
  | t_date, JStr s =>
      v ← bounded_text limits s;
      if (MAX_DATE_VALUE_UNITS <? str_length s)%Z || bool_decide (Date_parse s = None)
      then Ok (Bad "Expected date string" (Some v)) else Ok (Valid v)
  | t_date, _ => Ok (Bad "Expected date string" None)
  end.

(** The values, or the index of the first item that fails. *)
Fixpoint check_items (itemType : ScalarFieldType) (limits : SchemaExtractionLimits Z) (index : Z)
    (raw : list js_value) : result (list js_value + Z) :=
  match raw with
  | [] => Ok (inl [])
  | item :: rest =>
      checked ← checkScalar itemType item limits;
      match checked with
      | Bad _ _ => Ok (inr index)
      | Valid v =>
          rs ← check_items itemType limits (index + 1) rest;
          Ok (match rs with inl vs => inl (v :: vs) | inr i => inr i end)
      end
  end.

Definition checkFieldValue (field : ParsedSchemaField) (raw : js_value)
    (limits : SchemaExtractionLimits Z) : result FieldCheck :=
  match pf_type field with
  | Scalar t => checkScalar t raw limits
  | t_array =>
      match raw with
      | JArr items =>
          if (maxArrayItems limits <? Z.of_nat (length items))%Z then
            Ok (Bad ("Array exceeds maxArrayItems of " +:+ show (maxArrayItems limits)) None)
          else
            let itemType := default t_string (pf_items field) in
            rs ← check_items itemType limits 0 items;
            Ok (match rs with
                | inl vs => Valid (JArr vs)
                | inr i => Bad ("Expected array of " +:+ scalar_name itemType +:+
                                " (first invalid index " +:+ show i +:+ ")") None
                end)
      | _ => Ok (Bad "Expected array" None)
      end
  end.

(** The members of [Object.prototype] a field name can be, found where the
    output has no property of that name.  They are functions, which like an
    object are neither [null] nor of any of the types. *)
Definition inherited_names : list string :=
  ["constructor"; "hasOwnProperty"; "isPrototypeOf"; "propertyIsEnumerable"; "toLocaleString";
   "toString"; "valueOf"]%string.

Definition data_member (data : js_value) (name : string) : js_value :=
  if has_own data name then prop data name
  else if bool_decide (name ∈ inherited_names) then JObj []
  else JUndefined.

Definition nullish (v : js_value) : bool :=
  match v with JUndefined | JNull => true | _ => false end.

(** A string that differs from the raw one. *)
Definition shortened_string (v raw : js_value) : bool :=
  match v with
  | JStr s => negb (match raw with JStr r => bool_decide (s = r) | _ => false end)
  | _ => false
  end.

Definition shortened (v raw : js_value) : bool :=
  match v, raw with
  | JStr _, JStr _ => shortened_string v raw
  | JArr vs, JArr raws => existsb (λ vr, shortened_string vr.1 vr.2) (combine vs raws)
  | _, _ => false
  end.

Definition field_result (field : ParsedSchemaField) (raw : js_value)
    (limits : SchemaExtractionLimits Z) : result (ExtractionFieldResult * bool) :=
  if nullish raw then
    Ok ({| fr_name := pf_name field; fr_status := missing; fr_value := None;
           fr_reason := Some "Field not found in provider output"%string |}, false)
  else
    checked ← checkFieldValue field raw limits;
    Ok (match checked with
        | Bad reason value =>
            ({| fr_name := pf_name field; fr_status := invalid; fr_value := value;
                fr_reason := Some reason |}, false)
        | Valid v =>
            ({| fr_name := pf_name field; fr_status := present; fr_value := Some v;
                fr_reason := None |}, shortened v raw)
        end).

Fixpoint field_results (fields : list ParsedSchemaField) (data : js_value)
    (limits : SchemaExtractionLimits Z) : result (list ExtractionFieldResult * bool) :=
  match fields with
  | [] => Ok ([], false)
  | f :: fs =>
      r ← field_result f (data_member data (pf_name f)) limits;
      rs ← field_results fs data limits;
      Ok (r.1 :: rs.1, r.2 || rs.2)
  end.

Definition status_name (s : FieldStatus) : string :=
  match s with present => "present" | missing => "missing" | invalid => "invalid" end.

(** A result as it is serialised; a present one has no reason. *)
Definition field_json (r : ExtractionFieldResult) : js_value :=
  JObj ([("name"%string, JStr (fr_name r)); ("status"%string, JStr (status_name (fr_status r)))] ++
        match fr_reason r with Some reason => [("reason"%string, JStr reason)] | None => [] end ++
        match fr_value r with Some v => [("value"%string, v)] | None => [] end).

Definition malformed_output (text : string) : thrown :=
  gerror_hint UPSTREAM_ERROR "schema-extract" "Provider returned malformed extraction output" true
    (hint "schema_extract.malformed_output" text).

Definition validateProviderOutput (data : js_value) (schema : ParsedExtractionSchema)
    (limitOverrides : SchemaExtractionLimits (option number)) : result ProviderOutputValidation :=
  limits ← resolveSchemaExtractionLimits limitOverrides;
  match data with
  | JObj entries =>
      throw_if (maxProperties limits + Z.of_nat (length (ps_fields schema)) <?
                Z.of_nat (length entries))%Z
        (gerror_hint OUTPUT_LIMIT "schema-extract"
           "Provider returned more fields than the configured bound" false
           (hint "schema_extract.output_too_many_keys"
              ("The provider output carries more top-level keys than the schema plus property " +:+
               "bound allows. Retry with a smaller schema.")));;
      rs ← field_results (ps_fields schema) data limits;
      let serialized := json_text (JArr (field_json <$> rs.1)) in
      throw_if (maxOutputChars limits <? Z.of_nat (length serialized))%Z
        (gerror_hint OUTPUT_LIMIT "schema-extract"
           "Validated extraction output exceeds the configured limit" false
           (hint "schema_extract.output_too_large"
              ("Lower maxOutputChars pressure by requesting fewer fields, smaller arrays, or " +:+
               "shorter string caps.")));;
      Ok {| val_fields := rs.1; val_truncated := rs.2 |}
  | _ => Throw (malformed_output
      ("The provider did not return a JSON object for the requested schema. Retry, or check " +:+
       "provider_quota for upstream state."))
  end.
End validation.

(** ** Repeatability *)

(** The members of an object in the order of their names, [null] for
    [undefined]. *)
Fixpoint stableStringify (value : js_value) : list ascii :=
  match value with
  | JNull | JUndefined => chars "null"
  | JStr s => quote_json s
  | JNum z => chars (show z)
  | JBool true => chars "true"
  | JBool false => chars "false"
  | JArr items => "["%char :: comma_list "]" (map stableStringify items)
  | JObj entries =>
      "{"%char :: comma_list "}"
        (map (λ kt : string * list ascii, quote_json kt.1 ++ ":"%char :: kt.2)
           (sort_by fst (map (λ '(k, x), (k, stableStringify x)) entries)))
  end.

Definition canonical_field (f : ExtractionFieldResult) : js_value :=
  JObj [("name", JStr (fr_name f));
        ("reason", match fr_reason f with Some r => JStr r | None => JNull end);
        ("status", JStr (status_name (fr_status f)));
        ("value", match fr_value f with Some v => v | None => JNull end)]%string.

Definition canonicalizeExtractionFields (fields : list ExtractionFieldResult) : list ascii :=
  stableStringify (JArr (canonical_field <$> sort_by fr_name fields)).

(** [ToUint32] and [ToInt32] of an integer. *)
Definition uint32 (z : Z) : Z := z mod 2 ^ 32.
Definition int32 (z : Z) : Z :=
  let m := uint32 z in if (m <? 2 ^ 31)%Z then m else (m - 2 ^ 32)%Z.

(** [hash ^= code; hash = Math.imul(hash, 0x01000193)] *)
Definition fnv_step (hash : Z) (c : ascii) : Z :=
  let hash := int32 (Z.lxor (int32 hash) (int32 (Z.of_nat (nat_of_ascii c)))) in
  int32 (int32 hash * int32 0x01000193).

Definition digestExtractionFields (fields : list ExtractionFieldResult) : string :=
  padStart0 8 (hex_text (uint32 (foldl fnv_step 0x811c9dc5%Z (canonicalizeExtractionFields fields)))).

Record RepeatabilitySummary := {
  totalRuns : Z;
  matchingRuns : Z;
  rs_repeatabilityScore : number
}.

Definition summarizeRepeatability (digests : list string) : RepeatabilitySummary :=
  match digests with
  | [] => {| totalRuns := 0; matchingRuns := 0; rs_repeatabilityScore := int 0 |}
  | first :: _ =>
      let matching := Z.of_nat (length (filter (λ d, d = first) digests)) in
      {| totalRuns := Z.of_nat (length digests); matchingRuns := matching;
         rs_repeatabilityScore := Num matching (Pos.of_nat (length digests)) |}
  end.
