(* ===== verification/SchemaExtractionSafety.v ===== *)
(** * Correctness of schema extraction

    Which schemas the parser accepts, what a validated output is, and the
    digest against the reference FNV-1a hash. *)

From S2P Require Import Prelude JsString JsMap Json AsyncContract UrlPolicy Limits SchemaContract SchemaExtraction.

(** ** Measures of a JSON value *)

Fixpoint nodes (v : js_value) : nat :=
  match v with
  | JArr items => S (sum_list_with nodes items)
  | JObj entries => S (sum_list_with (λ '(_, x), nodes x) entries)
  | _ => 1
  end.

(** No object inside has a property named [$ref]. *)
Fixpoint no_ref (v : js_value) : bool :=
  match v with
  | JArr items => forallb no_ref items
  | JObj entries => forallb (λ '(k, x), negb (bool_decide (k = "$ref"%string)) && no_ref x) entries
  | _ => true
  end.

(** Levels below the value: an empty array or object has none. *)
Fixpoint depth (v : js_value) : Z :=
  match v with
  | JArr items => foldr (λ x m, Z.max (1 + depth x) m) 0%Z items
  | JObj entries => foldr (λ '(_, x) m, Z.max (1 + depth x) m) 0%Z entries
  | _ => 0
  end.

(** Properties of the value and of the objects reached through properties. *)
Fixpoint properties (v : js_value) : Z :=
  match v with
  | JObj entries => foldr (λ '(_, x) n, (1 + properties x + n)%Z) 0%Z entries
  | _ => 0
  end.

Lemma depth_nonneg v : (0 <= depth v)%Z.
Proof.
  destruct v as [| | | | |l|l]; cbn; try lia; induction l as [|x l IH]; cbn; try lia.
  destruct x. lia.
Qed.

Lemma fold_max (f g : js_value → Z) (c : Z) (l : list js_value) m :
  Forall (λ x, f x = (c + g x)%Z) l → (c <= m)%Z →
  foldl (λ m x, Z.max m (f x)) m l = Z.max m (c + foldr (λ x m, Z.max (g x) m) 0 l)%Z.
Proof.
  intros Hl. revert m. induction Hl as [|x l Hx Hl IH]; intros m Hm; cbn; [lia|].
  rewrite IH by lia. rewrite Hx. lia.
Qed.

Lemma measureDepth_depth v c : measureDepth v c = (c + depth v)%Z.
Proof.
  revert c. induction v as [| | | | |l IH|l IH] using js_value_nested_ind; intros c; cbn; try lia.
  - pose proof (depth_nonneg (JArr l)) as Hd. cbn in Hd.
    rewrite (fold_max _ (λ x, 1 + depth x)%Z c); [lia| |lia].
    eapply Forall_impl; [exact IH|]. intros x Hx. cbn. rewrite Hx. lia.
  - pose proof (depth_nonneg (JObj l)) as Hd. cbn in Hd.
    transitivity (foldl (λ m x, Z.max m (measureDepth x (c + 1))) c l.*2).
    { clear. generalize c at 2 4. induction l as [|[k x] l IHl]; intros m; cbn; [done|]. apply IHl. }
    rewrite (fold_max _ (λ x, 1 + depth x)%Z c).
    + replace (foldr (λ x m, Z.max (1 + depth x) m) 0%Z l.*2)
        with (foldr (λ '(_, x) m, Z.max (1 + depth x) m) 0%Z l); [lia|].
      clear. induction l as [|[k x] l IHl]; cbn; [done|]. by rewrite IHl.
    + apply Forall_fmap. eapply Forall_impl; [exact IH|]. intros [k x] Hx. cbn in *. rewrite Hx. lia.
    + lia.
Qed.

Lemma countProperties_properties v : countProperties v = properties v.
Proof.
  induction v as [| | | | |l IH|l IH] using js_value_nested_ind; cbn; try done.
  assert (Hn : ∀ n, foldl (λ count '(_, x), (count + countProperties x)%Z) n l =
    (n - Z.of_nat (length l) + foldr (λ '(_, x) n, (1 + properties x + n)%Z) 0%Z l)%Z).
  { induction IH as [|[k x] l Hx Hl IHl]; intros n; cbn [foldl foldr length]; [lia|].
    cbn in Hx. rewrite IHl, Hx. lia. }
  rewrite Hn. lia.
Qed.

(** A schema without [$ref] has no remote one. *)
Lemma no_ref_not_remote n v : no_ref v = true → containsRemoteRef n v = None.
Proof.
  revert v. induction n as [|n IH]; intros v Hv; [done|]. destruct v as [| | | | |l|l]; cbn in *; try done.
  - induction l as [|x l IHl]; cbn in *; [done|]. apply andb_true_iff in Hv as [Hx Hl].
    rewrite (IH x Hx). by apply IHl.
  - induction l as [|[k x] l IHl]; cbn in *; [done|]. apply andb_true_iff in Hv as [[Hk Hx]%andb_true_iff Hl].
    apply negb_true_iff in Hk. rewrite (IH x Hx).
    replace (ref_at k x) with (@None string); [by apply IHl|].
    destruct x; cbn; try done. by rewrite Hk.
Qed.

(** ** The scan *)

Definition stack_nodes : list js_value → nat := sum_list_with nodes.

Lemma stack_nodes_app l1 l2 : stack_nodes (l1 ++ l2) = stack_nodes l1 + stack_nodes l2.
Proof. apply sum_list_with_app. Qed.

Lemma stack_nodes_reverse l : stack_nodes (reverse l) = stack_nodes l.
Proof. apply sum_list_with_reverse. Qed.

Lemma forallb_reverse {A} (f : A → bool) l : forallb f (reverse l) = forallb f l.
Proof.
  induction l as [|x l IH]; [done|]. rewrite reverse_cons, forallb_app, IH. cbn.
  by rewrite andb_true_r, andb_comm.
Qed.

Lemma nodes_values (l : list (string * js_value)) :
  sum_list_with (λ '(_, x), nodes x) l = stack_nodes l.*2.
Proof. unfold stack_nodes. induction l as [|[k x] l IH]; cbn; [done|]. by rewrite IH. Qed.

Lemma no_ref_values (l : list (string * js_value)) :
  forallb (λ '(k, x), negb (bool_decide (k = "$ref"%string)) && no_ref x) l =
  negb (bool_decide ("$ref"%string ∈ l.*1)) && forallb no_ref l.*2.
Proof.
  induction l as [|[k x] l IH]; [done|]. cbn [forallb fmap list_fmap fst snd]. rewrite IH.
  destruct (decide (k = "$ref"%string)) as [->|Hk].
  - by rewrite (bool_decide_true ("$ref"%string = _)), (bool_decide_true ("$ref"%string ∈ "$ref"%string :: l.*1)) by (done || left).
  - rewrite (bool_decide_false (k = _)) by done.
    rewrite (bool_decide_ext ("$ref"%string ∈ k :: l.*1) ("$ref"%string ∈ l.*1)) by set_solver.
    cbn. by destruct (no_ref x), (bool_decide _).
Qed.

(** The scan sees every node once, and fails at the first [$ref] or at the
    first node past the bound. *)
Lemma scan_refs_spec left stack :
  scan_refs left stack = Ok tt ↔ stack_nodes stack ≤ left ∧ forallb no_ref stack = true.
Proof.
  revert stack. induction left as [|left IH]; intros [|v stack]; cbn [scan_refs forallb].
  - split; [by intros _|done].
  - split; [done|]. intros [Hn _]. unfold stack_nodes in Hn. cbn in Hn. destruct v; cbn in Hn; lia.
  - split; [intros _; split; [unfold stack_nodes; cbn; lia|done]|done].
  - change (stack_nodes (v :: stack)) with (nodes v + stack_nodes stack).
    destruct v as [| | | | |l|l]; cbn [nodes no_ref andb]; try (rewrite IH; intuition lia).
    + rewrite IH, stack_nodes_app, stack_nodes_reverse, forallb_app, forallb_reverse, andb_true_iff.
      unfold stack_nodes. intuition lia.
    + rewrite nodes_values, no_ref_values. case_bool_decide as Hr; cbn [negb andb].
      * split; [done|]. by intros [_ ?].
      * change (scan_refs left (reverse l.*2 ++ stack) = Ok tt ↔
          S (stack_nodes l.*2) + stack_nodes stack ≤ S left ∧ forallb no_ref l.*2 && forallb no_ref stack = true).
        rewrite IH, stack_nodes_app, stack_nodes_reverse, forallb_app, forallb_reverse, andb_true_iff.
        intuition lia.
Qed.

Lemma rejectRefKeys_spec raw :
  rejectRefKeys raw = Ok tt ↔ (Z.of_nat (nodes raw) <= MAX_SCHEMA_SCAN_NODES)%Z ∧ no_ref raw = true.
Proof.
  unfold rejectRefKeys. rewrite scan_refs_spec. cbn [forallb]. rewrite andb_true_r.
  unfold stack_nodes. cbn [sum_list_with].
  assert (Hm : (0 <= MAX_SCHEMA_SCAN_NODES)%Z) by done. revert Hm.
  generalize MAX_SCHEMA_SCAN_NODES. intros m Hm. split; intros [Hn Hr]; (split; [lia|done]).
Qed.

#[local] Opaque rejectRefKeys.

(** ** Which schemas are accepted *)

(** A property of [properties] and the field it declares. *)
Inductive required_flag (d : js_value) : bool → Prop :=
  | flag_given b : prop d "required" = JBool b → required_flag d b
  | flag_absent : prop d "required" = JUndefined → required_flag d false.

Inductive declares : string * js_value → ParsedSchemaField → Prop :=
  | declares_scalar name d t required :
      FIELD_NAME_RE name = true → is_object d = true → required_flag d required →
      prop d "type" = JStr (scalar_name t) →
      declares (name, d) {| pf_name := name; pf_type := Scalar t; pf_required := required;
                            pf_items := None |}
  | declares_array name d t required :
      FIELD_NAME_RE name = true → is_object d = true → required_flag d required →
      prop d "type" = JStr "array" → is_object (prop d "items") = true →
      prop (prop d "items") "type" = JStr (scalar_name t) →
      declares (name, d) {| pf_name := name; pf_type := t_array; pf_required := required;
                            pf_items := Some t |}.

Lemma isSchemaFieldType_scalar v t : isSchemaFieldType v = Some (Scalar t) ↔ v = JStr (scalar_name t).
Proof.
  split; [|intros ->; by destruct t].
  destruct v as [| | | |s| |]; try done. unfold isSchemaFieldType, SCHEMA_FIELD_TYPES, map_get.
  repeat case_decide; try done; intros [= <-]; by subst.
Qed.

Lemma isSchemaFieldType_array v : isSchemaFieldType v = Some t_array ↔ v = JStr "array".
Proof.
  split; [|intros ->; done].
  destruct v as [| | | |s| |]; try done. unfold isSchemaFieldType, SCHEMA_FIELD_TYPES, map_get.
  repeat case_decide; try done; by subst.
Qed.

Lemma parse_required_spec name d b : parse_required name d = Ok b ↔ required_flag d b.
Proof.
  unfold parse_required. split.
  - destruct (prop d "required") eqn:Hp; try done; intros [= <-]; by constructor.
  - by intros [b' ->| ->].
Qed.

Lemma parse_items_spec name d t :
  parse_items name d = Ok t ↔
  is_object (prop d "items") = true ∧ prop (prop d "items") "type" = JStr (scalar_name t).
Proof.
  unfold parse_items. rewrite <- isSchemaFieldType_scalar.
  destruct (is_object (prop d "items")); cbn [throw_if negb mbind result_bind]; [|naive_solver].
  destruct (isSchemaFieldType _) as [[|]|]; naive_solver.
Qed.

Lemma parse_field_spec e f : parse_field e = Ok f ↔ declares e f.
Proof.
  destruct e as [name d]. unfold parse_field. split.
  - intros (_ & Hn%throw_if_Ok%negb_false_iff & H)%result_bind_Ok.
    apply result_bind_Ok in H as (_ & Ho%throw_if_Ok%negb_false_iff & H).
    destruct (isSchemaFieldType (prop d "type")) as [ty|] eqn:Ht; [|done].
    apply result_bind_Ok in H as (b & Hb%parse_required_spec & H). destruct ty as [t|].
    + injection H as <-. apply isSchemaFieldType_scalar in Ht. by constructor.
    + apply isSchemaFieldType_array in Ht.
      apply result_bind_Ok in H as (t & [Hi1 Hi2]%parse_items_spec & [= <-]). by constructor.
  - intros Hd. inversion Hd as [? ? t b Hn Ho Hb%(parse_required_spec name) Ht|? ? t b Hn Ho Hb%(parse_required_spec name) Ht Hi1 Hi2]; subst;
      rewrite Hn, Ho; cbn [throw_if negb mbind result_bind].
    + apply isSchemaFieldType_scalar in Ht. by rewrite Ht, Hb.
    + apply isSchemaFieldType_array in Ht. rewrite Ht, Hb. cbn [mbind result_bind].
      by rewrite (proj2 (parse_items_spec name d t)).
Qed.

Lemma parse_fields_spec es fs : parse_fields es = Ok fs ↔ Forall2 declares es fs.
Proof.
  revert fs. induction es as [|e es IH]; intros fs; cbn [parse_fields].
  - split; [by intros [= <-]; constructor|]. by intros ->%Forall2_nil_inv_l.
  - split.
    + intros (f & Hf%parse_field_spec & H)%result_bind_Ok.
      apply result_bind_Ok in H as (fs' & Hfs%IH & [= <-]). by constructor.
    + intros (f & fs' & Hf%parse_field_spec & Hfs%IH & ->)%Forall2_cons_inv_l. by rewrite Hf, Hfs.
Qed.

(** The contract's checks of a schema without [$ref]. *)
Lemma contract_check s :
  no_ref (ps_rawSchema s) = true → ps_fields s ≠ [] → (0 < ps_maxDepth s)%Z →
  (0 < ps_maxProperties s)%Z →
  validateExtractionSchema (contract_schema s) = Ok tt ↔
  (depth (ps_rawSchema s) <= ps_maxDepth s)%Z ∧ (properties (ps_rawSchema s) <= ps_maxProperties s)%Z.
Proof.
  intros Hr Hf Hd Hp. unfold validateExtractionSchema, contract_schema. cbn [s_fields s_maxDepth s_maxProperties s_rawSchema].
  rewrite bool_decide_false by (by destruct (ps_fields s)).
  rewrite (proj2 (Z.leb_gt _ _) Hd), (proj2 (Z.leb_gt _ _) Hp), no_ref_not_remote by done.
  cbn [throw_if mbind result_bind]. rewrite measureDepth_depth, countProperties_properties, Z.add_0_l.
  destruct (Z.ltb_spec (ps_maxDepth s) (depth (ps_rawSchema s))); cbn [throw_if mbind result_bind].
  { split; [done|]. lia. }
  destruct (Z.ltb_spec (ps_maxProperties s) (properties (ps_rawSchema s))); cbn [throw_if].
  { split; [done|]. lia. }
  by split.
Qed.

Lemma check_limits_spec es :
  check_limits es = Ok tt ↔ Forall (λ e, limit_ok e.2.1 e.2.2 = true) es.
Proof.
  induction es as [|[k [v c]] es IH]; cbn [check_limits]; [by split; [constructor|]|].
  rewrite Forall_cons, <- IH. cbn [snd fst]. destruct (limit_ok v c); cbn; naive_solver.
Qed.

Lemma limit_ok_positive v c : limit_ok v c = true → (0 < to_Z v <= c)%Z.
Proof.
  unfold limit_ok. intros [[Hi Hp%negb_true_iff]%andb_true_iff Hc%negb_true_iff]%andb_true_iff.
  rewrite num_leb_integer, to_Z_int in Hp by (done || apply isInteger_int).
  rewrite num_ltb_integer, to_Z_int in Hc by (done || apply isInteger_int).
  apply Z.leb_gt in Hp. apply Z.ltb_ge in Hc. lia.
Qed.

(** Every limit is positive and within its ceiling. *)
Definition limits_ok (l : SchemaExtractionLimits Z) : Prop :=
  Forall (λ e, 0 < e.2.1 <= e.2.2)%Z (limit_entries (limits_with pair l HARD_LIMIT_CEILINGS)).

Lemma resolve_limits_ok ov l : resolveSchemaExtractionLimits ov = Ok l → limits_ok l.
Proof.
  unfold resolveSchemaExtractionLimits. intros ([] & Hc%check_limits_spec & [= <-])%result_bind_Ok.
  unfold limits_ok, limit_entries, limits_with in *. cbn [maxFields maxDepth maxProperties maxArrayItems
    maxStringChars maxOutputChars maxWarnings maxWarningChars] in *.
  rewrite !Forall_cons in *. cbn [fst snd] in *. destruct_and!.
  repeat (split; [by apply limit_ok_positive|]). by apply Forall_nil.
Qed.

Lemma limits_positive l : limits_ok l → (0 < maxDepth l)%Z ∧ (0 < maxProperties l)%Z.
Proof.
  unfold limits_ok, limit_entries. rewrite !Forall_cons. cbn [fst snd limits_with maxDepth maxProperties].
  lia.
Qed.

(** the parser accepts exactly the bounded flat schemas.  It answers with
    a schema if and only if the limits are within their ceilings, the root
    declares [type: "object"] and a [properties] object of 1 to [maxFields]
    properties, each of which declares a field (a valid name, one of the six
    types, a boolean or absent [required] flag, and for an array a scalar item
    type), no object anywhere has a [$ref], there are at most 5000 nodes, and
    depth and property count are within the limits; the fields are those
    declared, in order, and nothing of the raw schema is lost. *)
Theorem schema_accepted_iff raw ov s :
  parseBoundedSchema raw ov = Ok s ↔
  ∃ limits entries,
    resolveSchemaExtractionLimits ov = Ok limits ∧ limits_ok limits ∧
    prop raw "type" = JStr "object" ∧ prop raw "properties" = JObj entries ∧
    (1 <= Z.of_nat (length entries) <= maxFields limits)%Z ∧
    Forall2 declares entries (ps_fields s) ∧
    no_ref raw = true ∧ (Z.of_nat (nodes raw) <= MAX_SCHEMA_SCAN_NODES)%Z ∧
    (depth raw <= maxDepth limits)%Z ∧ (properties raw <= maxProperties limits)%Z ∧
    ps_maxDepth s = maxDepth limits ∧ ps_maxProperties s = maxProperties limits ∧
    ps_rawSchema s = raw.
Proof.
  unfold parseBoundedSchema. split.
  - intros (l & Hl & H)%result_bind_Ok. pose proof (resolve_limits_ok _ _ Hl) as Hok.
    apply result_bind_Ok in H as (_ & _ & H).
    apply result_bind_Ok in H as ([] & [Hn Hr]%rejectRefKeys_spec & H).
    apply result_bind_Ok in H as (_ & Ht%throw_if_Ok & H).
    destruct (prop raw "type") as [| | | |t| |] eqn:Hty; try done. apply negb_false_iff, bool_decide_eq_true in Ht as ->.
    destruct (prop raw "properties") as [| | | | | |es] eqn:Hp; try done.
    apply result_bind_Ok in H as (_ & Hne%throw_if_Ok%bool_decide_eq_false & H).
    apply result_bind_Ok in H as (_ & Hlen%throw_if_Ok%Z.ltb_ge & H).
    apply result_bind_Ok in H as (fs & Hfs%parse_fields_spec & H). cbv zeta in H.
    destruct (validateExtractionSchema _) as [[]|] eqn:Hv; [|done]. injection H as <-.
    apply contract_check in Hv as [Hd Hc]; [|exact Hr| | |].
    + exists l, es.
      destruct es; [done|]. cbn [length ps_fields ps_maxDepth ps_maxProperties ps_rawSchema] in *.
      split_and!; try done; lia.
    + cbn. intros ->. by apply Forall2_nil_inv_r in Hfs.
    + by apply limits_positive.
    + by apply limits_positive.
  - intros (l & es & Hl & Hok & Ht & Hp & Hlen & Hfs & Hr & Hn & Hd & Hc & Hsd & Hsp & <-).
    destruct (limits_positive l Hok) as [Hpd Hpp].
    rewrite Hl. cbn [mbind result_bind].
    assert (Hobj : is_object (ps_rawSchema s) = true) by (by destruct (ps_rawSchema s)).
    assert (Hscan : rejectRefKeys (ps_rawSchema s) = Ok tt) by (by apply rejectRefKeys_spec).
    rewrite Hobj, Hscan, Ht, Hp. cbn [negb throw_if mbind result_bind].
    rewrite (bool_decide_true ("object"%string = _)) by done.
    rewrite (bool_decide_false (es = [])) by (intros ->; cbn in Hlen; lia).
    rewrite (proj2 (Z.ltb_ge _ _)) by lia. cbn [negb throw_if mbind result_bind].
    rewrite (proj2 (parse_fields_spec es (ps_fields s)) Hfs). cbn [mbind result_bind]. cbv zeta.
    replace {| ps_fields := ps_fields s; ps_maxDepth := maxDepth l; ps_maxProperties := maxProperties l;
               ps_rawSchema := ps_rawSchema s |} with s by (destruct s; cbn in *; by subst).
    assert (Hv : validateExtractionSchema (contract_schema s) = Ok tt).
    { apply contract_check; [done| |lia..]. intros Hnil. rewrite Hnil in Hfs.
      apply Forall2_nil_inv_r in Hfs as ->. cbn in Hlen. lia. }
    by rewrite Hv.
Qed.

(** ** What a validated output is *)

(** Every string cut to the limit. *)
Fixpoint clip (n : Z) (v : js_value) : js_value :=
  match v with
  | JStr s => JStr (slice_to (Z.to_nat n) s)
  | JArr items => JArr (map (clip n) items)
  | _ => v
  end.

Lemma slice_to_all n s : String.length s ≤ n → slice_to n s = s.
Proof. intros Hn. unfold slice_to. rewrite take_ge by (by rewrite length_chars). apply unchars_chars. Qed.

Lemma slice_to_twice n m s : n ≤ m → slice_to n (slice_to m s) = slice_to n s.
Proof. intros Hn. unfold slice_to. by rewrite chars_unchars, take_take, Nat.min_l. Qed.

Lemma slice_to_same n s : slice_to n s = s → String.length s ≤ n.
Proof. intros <-. apply length_slice_to. Qed.

Lemma truncateBoundedString_spec s n :
  (0 <= n)%Z → truncateBoundedString s n = Ok (slice_to (Z.to_nat n) s, (n <? str_length s)%Z).
Proof.
  intros Hn. unfold truncateBoundedString, str_length. destruct (Z.leb_spec (Z.of_nat (String.length s)) n).
  - rewrite slice_to_all by lia. by rewrite (proj2 (Z.ltb_ge _ _)) by lia.
  - unfold truncateUnicode. rewrite isInteger_int, num_ltb_int, (proj2 (Z.ltb_ge n 0)) by lia.
    cbn [throw_if orb negb mbind result_bind trunc_value]. rewrite to_Z_int, slice_to_twice by lia.
    by rewrite (proj2 (Z.ltb_lt _ _)) by lia.
Qed.

Lemma bounded_text_spec l s :
  limits_ok l → bounded_text l s = Ok (clip (maxStringChars l) (JStr s)).
Proof.
  intros Hl. unfold bounded_text. rewrite truncateBoundedString_spec; [done|].
  unfold limits_ok, limit_entries in Hl. rewrite !Forall_cons in Hl. cbn in Hl. lia.
Qed.

Section verdicts.
Context `{!UrlApi} `{!DateApi}.

(** The values each type admits. *)
Definition scalar_ok (t : ScalarFieldType) (raw : js_value) : bool :=
  match t, raw with
  | t_string, JStr _ | t_number, JNum _ | t_boolean, JBool _ => true
  | t_url, JStr s =>
      (str_length s <=? MAX_URL_VALUE_UNITS)%Z &&
      match parsePublicUrl s default_ports with Ok _ => true | Throw _ => false end
  | t_date, JStr s =>
      (str_length s <=? MAX_DATE_VALUE_UNITS)%Z && negb (bool_decide (Date_parse s = None))
  | _, _ => false
  end.

Definition value_ok (l : SchemaExtractionLimits Z) (f : ParsedSchemaField) (raw : js_value) : bool :=
  match pf_type f, raw with
  | Scalar t, _ => scalar_ok t raw
  | t_array, JArr items =>
      (Z.of_nat (length items) <=? maxArrayItems l)%Z &&
      forallb (scalar_ok (default t_string (pf_items f))) items
  | t_array, _ => false
  end.

(** A check that says whether the value is fine, and gives it clipped. *)
Definition checked (fine : bool) (n : Z) (raw : js_value) (c : FieldCheck) : Prop :=
  match c with
  | Valid v => fine = true ∧ v = clip n raw
  | Bad _ v => fine = false ∧ (v = None ∨ v = Some (clip n raw))
  end.

Lemma checkScalar_spec t raw l :
  limits_ok l →
  ∃ c, checkScalar t raw l = Ok c ∧ checked (scalar_ok t raw) (maxStringChars l) raw c.
Proof.
  intros Hl. pose proof (bounded_text_spec l) as Hb.
  destruct t, raw as [| | | |s| |]; cbn [checkScalar scalar_ok];
    try (eexists; split; [done|]; split; [done|by left]);
    try (eexists; split; [done|]; by split).
  - rewrite Hb by done. cbn. by eexists.
  - destruct (Z.ltb_spec MAX_URL_VALUE_UNITS (str_length s)).
    + eexists; split; [done|]. split; [|by left]. by rewrite (proj2 (Z.leb_gt _ _)).
    + rewrite Hb, (proj2 (Z.leb_le _ _)) by done. cbn [mbind result_bind].
      destruct (parsePublicUrl s default_ports); eexists; (split; [done|]); [by split|].
      split; [done|by right].
  - rewrite Hb by done. cbn [mbind result_bind].
    destruct (Z.ltb_spec MAX_DATE_VALUE_UNITS (str_length s)); cbn [orb].
    + eexists; split; [done|]. split; [|by right]. by rewrite (proj2 (Z.leb_gt _ _)).
    + rewrite (proj2 (Z.leb_le _ _)) by done.
      case_bool_decide; eexists; (split; [done|]); [split; [done|by right]|by split].
Qed.

Lemma check_items_spec t l i raw :
  limits_ok l →
  ∃ r, check_items t l i raw = Ok r ∧
       match r with
       | inl vs => forallb (scalar_ok t) raw = true ∧ vs = map (clip (maxStringChars l)) raw
       | inr _ => forallb (scalar_ok t) raw = false
       end.
Proof.
  intros Hl. revert i. induction raw as [|v raw IH]; intros i; cbn [check_items forallb map].
  - by exists (inl []).
  - destruct (checkScalar_spec t v l Hl) as (c & Hc & Hv). rewrite Hc. cbn [mbind result_bind].
    destruct c as [w|]; cbn in Hv; destruct Hv as [-> Hv].
    + destruct (IH (i + 1)%Z) as (r & Hr & Hvs). rewrite Hr. cbn [mbind result_bind andb].
      destruct r as [vs|j]; (eexists; split; [done|]); [|done]. destruct Hvs as [-> ->]. by subst w.
    + by eexists.
Qed.

Lemma checkFieldValue_spec f raw l :
  limits_ok l →
  ∃ c, checkFieldValue f raw l = Ok c ∧ checked (value_ok l f raw) (maxStringChars l) raw c.
Proof.
  intros Hl. unfold checkFieldValue, value_ok. destruct (pf_type f) as [t|]; [by apply checkScalar_spec|].
  destruct raw as [| | | | |items|]; try (eexists; split; [done|]; split; [done|by left]).
  destruct (Z.ltb_spec (maxArrayItems l) (Z.of_nat (length items))).
  { eexists; split; [done|]. split; [|by left]. by rewrite (proj2 (Z.leb_gt _ _)). }
  rewrite (proj2 (Z.leb_le _ _)) by done. cbv zeta.
  destruct (check_items_spec (default t_string (pf_items f)) l 0 items Hl) as (r & Hr & Hv).
  rewrite Hr. cbn [mbind result_bind andb]. eexists; split; [done|].
  destruct r as [vs|j]; [destruct Hv as [-> ->]; by split|]. by split; [|left].
Qed.
(** The verdict on a field, given the value the output has for it. *)
Definition judged (l : SchemaExtractionLimits Z) (data : js_value) (f : ParsedSchemaField)
    (r : ExtractionFieldResult) : Prop :=
  let raw := data_member data (pf_name f) in
  fr_name r = pf_name f ∧
  if nullish raw then fr_status r = missing ∧ fr_value r = None ∧ is_Some (fr_reason r)
  else if value_ok l f raw
  then fr_status r = present ∧ fr_value r = Some (clip (maxStringChars l) raw) ∧ fr_reason r = None
  else fr_status r = invalid ∧ is_Some (fr_reason r) ∧
       (fr_value r = None ∨ fr_value r = Some (clip (maxStringChars l) raw)).

(** A present value of which something was cut. *)
Definition cut (l : SchemaExtractionLimits Z) (data : js_value) (f : ParsedSchemaField) : Prop :=
  let raw := data_member data (pf_name f) in
  nullish raw = false ∧ value_ok l f raw = true ∧ clip (maxStringChars l) raw ≠ raw.

Lemma shortened_scalar t n raw :
  scalar_ok t raw = true → shortened_string (clip n raw) raw = true ↔ clip n raw ≠ raw.
Proof.
  intros Ht. destruct t, raw as [| | | |s| |]; try done; cbn; rewrite negb_true_iff, bool_decide_eq_false;
    split; intros H1 H2; apply H1; congruence.
Qed.

Lemma unshortened_scalar t n raw :
  scalar_ok t raw = true → shortened_string (clip n raw) raw = false → clip n raw = raw.
Proof.
  destruct t, raw as [| | | |s| |]; try done; cbn;
    by intros _ ->%negb_false_iff%bool_decide_eq_true.
Qed.

Lemma shortened_items t n items :
  forallb (scalar_ok t) items = true →
  existsb (λ vr, shortened_string vr.1 vr.2) (combine (map (clip n) items) items) = true ↔
  map (clip n) items ≠ items.
Proof.
  induction items as [|v items IH]; cbn; [by split|]. intros [Hv Hi]%andb_true_iff.
  rewrite orb_true_iff, (IH Hi), (shortened_scalar _ _ _ Hv).
  split; [by intros [Hne|Hne] [= ? ?]; apply Hne|]. intros Hne.
  destruct (shortened_string (clip n v) v) eqn:Hs; [left; by apply (shortened_scalar t)|].
  right. intros Heq. apply Hne. by rewrite Heq, (unshortened_scalar _ _ _ Hv Hs).
Qed.

Lemma shortened_clip l f raw :
  value_ok l f raw = true →
  shortened (clip (maxStringChars l) raw) raw = true ↔ clip (maxStringChars l) raw ≠ raw.
Proof.
  unfold value_ok. destruct (pf_type f) as [t|].
  - intros Ht. pose proof (shortened_scalar t (maxStringChars l) raw Ht) as Hs.
    by destruct t, raw as [| | | |s| |].
  - destruct raw as [| | | | |items|]; try done. intros [_ Hi]%andb_true_iff. cbn.
    transitivity (map (clip (maxStringChars l)) items ≠ items).
    { by apply (shortened_items (default t_string (pf_items f))). }
    split; intros H1 H2; apply H1; congruence.
Qed.

Lemma field_result_spec l data f :
  limits_ok l →
  ∃ r, field_result f (data_member data (pf_name f)) l = Ok r ∧ judged l data f r.1 ∧
       (r.2 = true ↔ cut l data f).
Proof.
  intros Hl. unfold field_result, judged, cut. cbv zeta.
  generalize (data_member data (pf_name f)). intros raw. destruct (nullish raw).
  { eexists. split; [done|]. cbn. split; [by eauto|]. split; [done|]. by intros [? _]. }
  destruct (checkFieldValue_spec f raw l Hl) as (c & Hc & Hv). rewrite Hc. cbn [mbind result_bind].
  eexists. split; [done|]. destruct c as [v|reason v]; destruct Hv as [Hok Hv]; rewrite Hok; cbn.
  - subst v. split; [done|]. rewrite (shortened_clip l f raw Hok). naive_solver.
  - split; [by eauto|]. split; [done|]. by intros (_ & ? & _).
Qed.

Lemma field_results_spec l data fs :
  limits_ok l →
  ∃ rs, field_results fs data l = Ok rs ∧ Forall2 (judged l data) fs rs.1 ∧
        (rs.2 = true ↔ Exists (cut l data) fs).
Proof.
  intros Hl. induction fs as [|f fs IH]; cbn [field_results].
  { eexists. split; [done|]. split; [constructor|]. by rewrite Exists_nil. }
  destruct (field_result_spec l data f Hl) as (r & Hr & Hj & Hc). rewrite Hr. cbn [mbind result_bind].
  destruct IH as (rs & Hrs & Hjs & Hcs). rewrite Hrs. cbn [mbind result_bind].
  eexists. split; [done|]. split; [by constructor|]. cbn. by rewrite orb_true_iff, Exists_cons, Hc, Hcs.
Qed.

(** the validation of an output is total and exact.  With limits within
    their ceilings, an output that is an object of few enough properties is
    judged field by field, in the order of the schema: missing exactly when
    the output has no such member or a [null] one, present exactly when the
    value is of the declared type, with its strings cut to the limit, and
    invalid with a reason otherwise; truncation is reported exactly when a
    present value was cut.  The result is returned if and only if its text is
    within the limit, and no other output is. *)
Theorem validated_output_is_exact data schema ov l :
  resolveSchemaExtractionLimits ov = Ok l →
  ∃ results truncated,
    Forall2 (judged l data) (ps_fields schema) results ∧
    (truncated = true ↔ Exists (cut l data) (ps_fields schema)) ∧
    ∀ v, validateProviderOutput data schema ov = Ok v ↔
      v = {| val_fields := results; val_truncated := truncated |} ∧
      (∃ entries, data = JObj entries ∧
         (Z.of_nat (length entries) <= maxProperties l + Z.of_nat (length (ps_fields schema)))%Z) ∧
      (Z.of_nat (length (json_text (JArr (field_json <$> results)))) <= maxOutputChars l)%Z.
Proof.
  intros Hov. pose proof (resolve_limits_ok _ _ Hov) as Hl.
  destruct (field_results_spec l data (ps_fields schema) Hl) as ([rs cutting] & Hrs & Hj & Hc).
  exists rs, cutting. split; [done|]. split; [done|]. intros v. unfold validateProviderOutput. rewrite Hov.
  cbn [mbind result_bind]. destruct data as [| | | | | |es]; try (split; [done|]; naive_solver).
  destruct (Z.ltb_spec (maxProperties l + Z.of_nat (length (ps_fields schema))) (Z.of_nat (length es)));
    cbn [throw_if mbind result_bind].
  { split; [done|]. intros (_ & (es' & [= <-] & ?) & _). lia. }
  rewrite Hrs. cbn [mbind result_bind fst snd].
  destruct (Z.ltb_spec (maxOutputChars l) (Z.of_nat (length (json_text (JArr (field_json <$> rs))))));
    cbn [throw_if mbind result_bind].
  { split; [done|]. intros (_ & _ & ?). lia. }
  split; [intros [= <-]; split_and!; eauto; lia|]. by intros [-> _].
Qed.
End verdicts.

(** ** The digest *)

(** FNV-1a on 32-bit words, without signs. *)
Definition fnv1a (text : list ascii) : Z :=
  foldl (λ h c, (Z.lxor h (Z.of_nat (nat_of_ascii c)) * 16777619) mod 2 ^ 32)%Z 2166136261%Z text.

Lemma int32_cong z : (int32 z mod 2 ^ 32 = z mod 2 ^ 32)%Z.
Proof.
  unfold int32, uint32. case_match; [apply Z.mod_mod; lia|].
  rewrite Zminus_mod, Z_mod_same_full, Z.sub_0_r, !Z.mod_mod by lia. done.
Qed.

Lemma lxor_mod a b n : (0 <= n)%Z → (Z.lxor a b mod 2 ^ n = Z.lxor (a mod 2 ^ n) (b mod 2 ^ n))%Z.
Proof.
  intros Hn. rewrite <- !Z.land_ones by done. apply Z.bits_inj'. intros i Hi.
  rewrite !Z.lxor_spec, !Z.land_spec, Z.lxor_spec. by destruct (Z.testbit (Z.ones n) i), (Z.testbit a i), (Z.testbit b i).
Qed.

Lemma fnv_step_mod h c :
  (uint32 (fnv_step h c) =
   (Z.lxor (uint32 h) (Z.of_nat (nat_of_ascii c)) * 16777619) mod 2 ^ 32)%Z.
Proof.
  assert (Hx : (int32 (Z.lxor (int32 h) (int32 (Z.of_nat (nat_of_ascii c)))) mod 2 ^ 32 =
                Z.lxor (uint32 h) (Z.of_nat (nat_of_ascii c)))%Z).
  { rewrite int32_cong, lxor_mod, !int32_cong by lia. f_equal.
    apply Z.mod_small. pose proof (nat_ascii_bounded c).
    change (2 ^ 32)%Z with 4294967296%Z. lia. }
  unfold fnv_step. cbv zeta. unfold uint32 at 1.
  rewrite int32_cong, Zmult_mod, (int32_cong (int32 _)), Hx.
  change (int32 16777619 mod 2 ^ 32)%Z with 16777619%Z. done.
Qed.

Lemma fnv1a_text text : uint32 (foldl fnv_step 0x811c9dc5%Z text) = fnv1a text.
Proof.
  unfold fnv1a. enough (H : ∀ h, uint32 (foldl fnv_step h text) =
    foldl (λ h c, (Z.lxor h (Z.of_nat (nat_of_ascii c)) * 16777619) mod 2 ^ 32)%Z (uint32 h) text)
    by apply (H 2166136261%Z).
  induction text as [|c text IH]; intros h; cbn [foldl]; [done|]. by rewrite IH, fnv_step_mod.
Qed.

(** the digest of a list of field results is the FNV-1a hash, on 32-bit
    words, of their canonical text, as eight hexadecimal digits or more; the
    order of the fields, whose names are distinct, does not matter. *)
Theorem digest_is_fnv1a fields :
  digestExtractionFields fields =
    padStart0 8 (hex_text (fnv1a (canonicalizeExtractionFields fields))) ∧
  ∀ fields', NoDup (fr_name <$> fields) → fields ≡ₚ fields' →
    digestExtractionFields fields' = digestExtractionFields fields.
Proof.
  unfold digestExtractionFields. rewrite fnv1a_text. split; [done|]. intros fields' Hnd Hp.
  rewrite fnv1a_text. unfold canonicalizeExtractionFields. by rewrite (sort_by_unique _ _ _ Hnd Hp).
Qed.

(** ** A concrete schema, and an observation *)

Module SchemaDemo.
Definition date : DateApi := {| Date_parse := λ s, if startsWith s "20" then Some 0%Z else None |}.
(** A parser of the URLs of one host. *)
Definition urls : UrlApi := {|
  UrlObject := string;
  parse_url s := if startsWith s "https://example.com/" then Some s else None;
  parse_relative _ _ := None;
  url_protocol _ := "https:"%string; url_username _ := ""%string; url_password _ := ""%string;
  url_hostname _ := "example.com"%string; url_port _ := ""%string; url_href s := s;
  clear_hash u := u; param_names _ := []; delete_param _ u := u; sort_params u := u;
  url_toString u := u; localeCompare _ _ := 0%Z |}.
Definition field (name type : string) : string * js_value := (name, JObj [("type"%string, JStr type)]).
Definition raw : js_value :=
  JObj [("type"%string, JStr "object");
        ("properties"%string, JObj [field "title" "string"; field "link" "url"; field "constructor" "string"])].
Definition schema : ParsedExtractionSchema :=
  match parseBoundedSchema raw no_overrides with
  | Ok s => s
  | Throw _ => {| ps_fields := []; ps_maxDepth := 0; ps_maxProperties := 0; ps_rawSchema := JNull |}
  end.
Definition data : js_value :=
  JObj [("title"%string, JStr "Report"); ("link"%string, JStr "ftp://example.com/")].
#[export] Existing Instance date.
#[export] Existing Instance urls.
End SchemaDemo.

#[local] Existing Instance SchemaDemo.date.
#[local] Existing Instance SchemaDemo.urls.

Lemma validated_output_is_exact_witness :
  ∃ results truncated,
    Forall2 (judged DEFAULT_SCHEMA_EXTRACTION_LIMITS SchemaDemo.data) (ps_fields SchemaDemo.schema) results ∧
    (truncated = true ↔
     Exists (cut DEFAULT_SCHEMA_EXTRACTION_LIMITS SchemaDemo.data) (ps_fields SchemaDemo.schema)) ∧
    ∀ v, validateProviderOutput SchemaDemo.data SchemaDemo.schema no_overrides = Ok v ↔
      v = {| val_fields := results; val_truncated := truncated |} ∧
      (∃ entries, SchemaDemo.data = JObj entries ∧
         (Z.of_nat (length entries) <= maxProperties DEFAULT_SCHEMA_EXTRACTION_LIMITS +
            Z.of_nat (length (ps_fields SchemaDemo.schema)))%Z) ∧
      (Z.of_nat (length (json_text (JArr (field_json <$> results)))) <=
       maxOutputChars DEFAULT_SCHEMA_EXTRACTION_LIMITS)%Z.
Proof.
  exact (validated_output_is_exact SchemaDemo.data SchemaDemo.schema no_overrides
    DEFAULT_SCHEMA_EXTRACTION_LIMITS eq_refl).
Defined.

(** A field named after a member of [Object.prototype] and absent from the
    output is found invalid, not missing. *)
Lemma inherited_member_is_invalid :
  (λ v, fr_status <$> val_fields v) <$>
    match validateProviderOutput SchemaDemo.data SchemaDemo.schema no_overrides with
    | Ok v => Some v | Throw _ => None end = Some [present; invalid; invalid].
Proof. vm_compute. reflexivity. Qed.
