(* ===== verification/SchemaRun.v ===== *)
(** * Running a schema extraction

    [runSchemaExtraction] of [src/core/schema-extraction-runtime.ts]: opt-in,
    limits, benchmark gate, URL policy, schema, provider, one call within a
    deadline, validation.  The state is the resolver's: the caller's DNS cache
    and the world [W] in which lookups, clocks and providers act. *)

From S2P Require Import Prelude JsString JsMap Json AsyncContract UrlPolicy Limits SchemaContract SchemaExtraction SchemaExtractionSafety.

(** ** Providers *)

Record SchemaExtractionProviderInput := { in_url : string; in_schema : ParsedExtractionSchema }.

(** What a provider answers, as the caller looks at it: an object's [data],
    its [billedUnits] if that is a number, and its [warnings]. *)
Record SchemaExtractionProviderOutput := {
  out_data : js_value;
  out_billedUnits : option number;
  out_warnings : js_value
}.

(** A call settles the race with the deadline; an answer that is not an
    object is [None].  [supports] is a method a provider may lack, and may
    throw. *)
Record SchemaExtractionProvider (W : Type) := {
  p_id : string;
  p_model : string;
  p_supports : option (SchemaExtractionProviderInput → result bool);
  p_extract : SchemaExtractionProviderInput → W → race (option SchemaExtractionProviderOutput) * W
}.
Arguments p_id {W} _.
Arguments p_model {W} _.
Arguments p_supports {W} _.
Arguments p_extract {W} _.

Record SchemaExtractionRequest := {
  rq_url : string;
  rq_schema : js_value;
  rq_providerBacked : js_value;
  rq_provider : option string;
  rq_timeoutMs : option number;
  rq_maxOutputChars : option number;
  rq_maxStringChars : option number
}.

Record SchemaExtractionRuntimeOptions (W : Type) := {
  providers : list (SchemaExtractionProvider W);
  defaultProvider : option string;
  benchmarkReport : option ExtractionBenchmarkReport;
  thresholds : BenchmarkThresholds;
  opt_limits : SchemaExtractionLimits (option number);
  opt_lookup : string → M W (list ResolvedAddress)
}.
Arguments providers {W} _.
Arguments defaultProvider {W} _.
Arguments benchmarkReport {W} _.
Arguments thresholds {W} _.
Arguments opt_limits {W} _.
Arguments opt_lookup {W} _.

Record SchemaExtractionOutcome := {
  so_result : ExtractionResult;
  so_warnings : list string;
  so_durationMs : Z;
  so_truncated : bool;
  so_digest : string
}.

(** [performance.now()] and [Date.now()]. *)
Class Clocks (W : Type) := {
  performance_now : W → number * W;
  Date_now : W → Z * W
}.

Definition ellipsis : string := "…".

Definition truncateId (value : string) : string :=
  if (128 <? str_length value)%Z then slice_to 128 value +:+ ellipsis else value.

Definition unavailable (message : string) (retryable : bool) (code text : string) : thrown :=
  gerror_hint PROVIDER_UNAVAILABLE "schema-extract" message retryable (hint code text).

Definition upstream (message code text : string) : thrown :=
  gerror_hint UPSTREAM_ERROR "schema-extract" message true (hint code text).

Section run.
Context {W : Type} `{!UrlApi} `{!IpApi} `{!DateApi} `{!NumberText} `{!Clocks W}.

Definition find_provider (id : string) (ps : list (SchemaExtractionProvider W))
    : option (SchemaExtractionProvider W) := find (λ p, bool_decide (p_id p = id)) ps.

Definition resolveProvider (requested : option string) (options : SchemaExtractionRuntimeOptions W)
    : result (SchemaExtractionProvider W) :=
  match requested with
  | Some id =>
      match find_provider id (providers options) with
      | Some p => Ok p
      | None => Throw (unavailable
          ("Unknown schema extraction provider " +:+ quoted (truncateId id)) false
          "schema_extract.unknown_provider"
          ("Explicit providers are never silently substituted. Check provider_capabilities for " +:+
           "available extraction providers."))
      end
  | None =>
      match defaultProvider options with
      | Some id =>
          match find_provider id (providers options) with
          | Some p => Ok p
          | None => Throw (unavailable "Default schema extraction provider is not configured" false
              "schema_extract.no_default_provider"
              ("The configured default provider has no registered extraction adapter. Specify an " +:+
               "explicit provider instead."))
          end
      | None =>
          match providers options with
          | p :: _ => Ok p
          | [] => Throw (unavailable "No schema extraction provider is configured" true
              "schema_extract.no_provider"
              "Register at least one extraction provider adapter before calling this operation.")
          end
      end
  end.

(** The first [maxWarnings] non-empty strings, each cut. *)
Fixpoint clean_warnings (room : nat) (limits : SchemaExtractionLimits Z) (ws : list js_value)
    : result (list string) :=
  match room, ws with
  | S room', JStr s :: rest =>
      if falsy s then clean_warnings room limits rest
      else
        r ← truncateBoundedString s (maxWarningChars limits);
        rs ← clean_warnings room' limits rest;
        Ok (r.1 :: rs)
  | S _, _ :: rest => clean_warnings room limits rest
  | _, _ => Ok []
  end.

Definition sanitizeWarnings (warnings : js_value) (limits : SchemaExtractionLimits Z)
    : result (list string) :=
  match warnings with
  | JArr ws => clean_warnings (Z.to_nat (maxWarnings limits)) limits ws
  | _ => Ok []
  end.

(** ** The steps of a run

    [parentSignal] tells in which worlds the caller has aborted, and why. *)

Definition url_options (options : SchemaExtractionRuntimeOptions W) (parentSignal : W → option thrown)
    : UrlPolicyOptions W :=
  {| lookup := opt_lookup options; allowedPorts := default_ports; signal := parentSignal |}.

Definition opted_in (request : SchemaExtractionRequest) : bool :=
  match rq_providerBacked request with JBool true => true | _ => false end.

Definition check_timeout (request : SchemaExtractionRequest) : result number :=
  let timeoutMs := default (int DEFAULT_SCHEMA_EXTRACTION_TIMEOUT_MS) (rq_timeoutMs request) in
  throw_if (negb (isInteger timeoutMs) || num_ltb timeoutMs (int 1000) ||
            num_ltb (int 120000) timeoutMs)
    (invalidInput "Schema extraction timeoutMs is outside the allowed range"
       "schema_extract.invalid_timeout"
       "timeoutMs must be an integer between 1000 and 120000 milliseconds.");;
  Ok timeoutMs.

(** The caps a request may lower. *)
Definition caps_out_of_range (base : SchemaExtractionLimits Z) (output text : number) : bool :=
  negb (isInteger output) || negb (isInteger text) || num_leb output (int 0) ||
  num_leb text (int 0) || num_ltb (int (maxOutputChars base)) output ||
  num_ltb (int (maxStringChars base)) text.

Definition request_limits (request : SchemaExtractionRequest) (base : SchemaExtractionLimits Z)
    : result (SchemaExtractionLimits Z) :=
  match rq_maxOutputChars request, rq_maxStringChars request with
  | None, None => Ok base
  | mo, ms =>
      let output := default (int (maxOutputChars base)) mo in
      let text := default (int (maxStringChars base)) ms in
      throw_if (caps_out_of_range base output text)
        (invalidInput "Per-request output caps exceed deployment limits"
           "schema_extract.cap_exceeds_deployment"
           ("Per-request maxOutputChars/maxStringChars must be positive integers within the " +:+
            "deployment limits."));;
      Ok (base <| maxOutputChars := to_Z output |> <| maxStringChars := to_Z text |>)
  end.

Definition check_gate (options : SchemaExtractionRuntimeOptions W) : result unit :=
  gate ← checkBenchmarkGate (benchmarkReport options) (thresholds options)
           (negb (bool_decide (length (providers options) = 0)));
  throw_if (negb (allowed gate))
    (unavailable ("Schema extraction is not routed to production: " +:+ gate_reason gate) true
       "schema_extract.benchmark_gate"
       ("Provider availability alone does not enable this operation. A benchmark report passing " +:+
        "repeatability, accuracy, and latency thresholds is required first.")).

Definition supported (p : SchemaExtractionProvider W) (input : SchemaExtractionProviderInput) : bool :=
  match p_supports p with
  | None => true
  | Some f => match f input with Ok b => b | Throw _ => false end
  end.

Definition check_provider (p : SchemaExtractionProvider W) (input : SchemaExtractionProviderInput)
    : result unit :=
  throw_if (negb (supported p input))
    (unavailable ("Schema extraction provider " +:+ quoted (truncateId (p_id p)) +:+
                  " does not support this request") false
       "schema_extract.provider_unsupported"
       ("The selected provider cannot serve this schema or URL. Pick another explicit provider; " +:+
        "Groundlane does not substitute silently."));;
  throw_if (falsy (p_id p) || falsy (p_model p))
    (invalidInput "Schema extraction provider adapter is misconfigured"
       "schema_extract.provider_misconfigured"
       "Provider adapters must declare non-empty id and model for provenance.").

(** The [catch] around the call, inside the race. *)
Definition handle_failure (p : SchemaExtractionProvider W) (aborted : option thrown) (e : thrown)
    : thrown :=
  match cancelled aborted "schema-extract" "Schema extraction was cancelled" with
  | Throw c => c
  | Ok _ =>
      match e with
      | TGroundlane _ => e
      | _ => upstream ("Schema extraction provider " +:+ quoted (truncateId (p_id p)) +:+ " failed")
               "schema_extract.provider_failed"
               ("The provider call failed without returning usable output. Retry, or check " +:+
                "provider_quota for billing and rate-limit state. Raw upstream errors are withheld.")
      end
  end.

Definition settled_call (p : SchemaExtractionProvider W)
    (r : race (option SchemaExtractionProviderOutput))
    : race (option SchemaExtractionProviderOutput) :=
  match r with
  | RaceOperation (Throw e) aborted => RaceOperation (Throw (handle_failure p aborted e)) aborted
  | _ => r
  end.

Definition read_performance : M (Resolver W) number := on_net (λ w, let '(t, w') := performance_now w in (Ok t, w')).
Definition read_date : M (Resolver W) Z := on_net (λ w, let '(t, w') := Date_now w in (Ok t, w')).

(** [withinDeadline]: the operation starts only when its guards pass, which
    [Limits.withinDeadline] then repeats with the same readings. *)
Definition call_provider (p : SchemaExtractionProvider W) (input : SchemaExtractionProviderInput)
    (parentSignal : W → option thrown) (d : Deadline)
    : M (Resolver W) (option SchemaExtractionProviderOutput) :=
  now ← read_performance;
  lift (remainingMs d "schema-extract" now);;
  s ← get;
  let parent := parentSignal (net s) in
  lift (throw_if (match parent with Some _ => true | None => false end)
          (request_cancelled "schema-extract"));;
  timer_now ← read_performance;
  lift (remainingMs d "schema-extract" timer_now);;
  outcome ← on_net (λ w, let '(r, w') := p_extract p input w in (Ok r, w'));
  lift (withinDeadline d parent "schema-extract" now timer_now (settled_call p outcome)).

(** From the provider's answer to the outcome. *)
Definition assemble (p : SchemaExtractionProvider W) (input : SchemaExtractionProviderInput)
    (limits : SchemaExtractionLimits Z) (output : option SchemaExtractionProviderOutput)
    : result (ExtractionResult * list string * bool) :=
  match output with
  | None => Throw (malformed_output
      ("The provider did not return a usable extraction envelope. Retry, or check " +:+
       "provider_quota for upstream state."))
  | Some out =>
      let bad_billing := upstream "Provider returned invalid billing metadata"
        "schema_extract.invalid_billing"
        ("The provider envelope carried missing or negative billedUnits. Retry, or check " +:+
         "provider_quota for upstream state.") in
      match out_billedUnits out with
      | None => Throw bad_billing
      | Some units =>
          throw_if (negb (isFinite units) || num_ltb units (int 0)) bad_billing;;
          warnings ← sanitizeWarnings (out_warnings out) limits;
          validation ← validateProviderOutput (out_data out) (in_schema input) (as_overrides limits);
          let r := {| er_fields := val_fields validation;
                      er_provenance := {| pv_provider := p_id p; pv_model := p_model p;
                                          pv_source := in_url input; pv_billedUnits := units |} |} in
          match validateExtractionResult r with
          | Throw error => Throw (upstream "Failed to assemble a valid extraction result"
              "schema_extract.result_rejected" (thrown_message error))
          | Ok _ => Ok (r, warnings, val_truncated validation)
          end
      end
  end.

(** What is settled before the provider is called. *)
Definition admission (request : SchemaExtractionRequest) (options : SchemaExtractionRuntimeOptions W)
    (parentSignal : W → option thrown) : M (Resolver W) (SchemaExtractionProvider W * SchemaExtractionProviderInput *
                      SchemaExtractionLimits Z * number) :=
  throwIfAborted (url_options options parentSignal) "schema-extract" "Schema extraction was cancelled";;
  lift (throw_if (negb (opted_in request))
    (invalidInput
       "Provider-backed schema extraction requires explicit opt-in (providerBacked: true)"
       "schema_extract.opt_in_required"
       ("Set providerBacked: true to use provider inference, or use web_extract for deterministic " +:+
        "selector/pattern extraction. Groundlane never upgrades silently.")));;
  base ← lift (resolveSchemaExtractionLimits (opt_limits options));
  timeoutMs ← lift (check_timeout request);
  limits ← lift (request_limits request base);
  lift (check_gate options);;
  destination ← resolvePublicUrl (rq_url request) (url_options options parentSignal);
  let source := url_href (dest_url destination) in
  schema ← lift (parseBoundedSchema (rq_schema request) (as_overrides limits));
  provider ← lift (resolveProvider (rq_provider request) options);
  let input := {| in_url := source; in_schema := schema |} in
  lift (check_provider provider input);;
  mret (provider, input, limits, timeoutMs).

Definition runSchemaExtraction (request : SchemaExtractionRequest)
    (options : SchemaExtractionRuntimeOptions W) (parentSignal : W → option thrown)
    : M (Resolver W) SchemaExtractionOutcome :=
  '(provider, input, limits, timeoutMs) ← admission request options parentSignal;
  created ← read_performance;
  deadline ← lift (new_Deadline timeoutMs created);
  started ← read_date;
  output ← call_provider provider input parentSignal deadline;
  '(r, warnings, cut_short) ← lift (assemble provider input limits output);
  ended ← read_date;
  mret {| so_result := r; so_warnings := warnings; so_durationMs := Z.max 0 (ended - started);
          so_truncated := cut_short; so_digest := digestExtractionFields (er_fields r) |}.
End run.

(** * Admission of schema extractions

    A provider is called at most once in a run, and only after every check
    has passed; what a run returns is that one provider's validated output. *)

Section admission_rules.
Context {W : Type} `{!UrlApi} `{!IpApi} `{!DateApi} `{!NumberText} `{!Clocks W}.
Notation Options := (SchemaExtractionRuntimeOptions W).
Notation Provider := (SchemaExtractionProvider W).

(** Lookups and readings of the clocks, and nothing else, lead from one world
    to the other. *)
Inductive quiet (options : Options) : W → W → Prop :=
  | quiet_refl w : quiet options w w
  | quiet_lookup h w w' : quiet options (opt_lookup options h w).2 w' → quiet options w w'
  | quiet_performance w w' : quiet options (performance_now w).2 w' → quiet options w w'
  | quiet_date w w' : quiet options (Date_now w).2 w' → quiet options w w'.

Lemma quiet_trans o w1 w2 w3 : quiet o w1 w2 → quiet o w2 w3 → quiet o w1 w3.
Proof. induction 1; eauto using quiet. Qed.

(** Every entry of the report meets the thresholds. *)
Definition gate_passed (options : Options) : Prop :=
  ∃ r, benchmarkReport options = Some r ∧ validateBenchmarkReport r = Ok tt ∧
       num_ltb (int (Z.of_nat (length (entries r)))) (minEntries (thresholds options)) = false ∧
       Forall (λ e,
         num_ltb (repeatabilityScore e) (minRepeatability (thresholds options)) = false ∧
         num_ltb (fieldAccuracy e) (minFieldAccuracy (thresholds options)) = false ∧
         num_ltb (maxLatencyMs (thresholds options)) (latencyMs e) = false) (entries r).

Lemma gate_spec options : check_gate options = Ok tt → gate_passed options.
Proof.
  unfold check_gate. intros (g & Hg & Ha%throw_if_Ok%negb_false_iff)%result_bind_Ok.
  unfold checkBenchmarkGate in Hg. destruct (benchmarkReport options) as [r|] eqn:Hr; [|by injection Hg as <-].
  apply result_bind_Ok in Hg as ([] & Hv & Hg). exists r. split; [done|]. split; [done|].
  destruct (num_ltb (int _) _); [by injection Hg as <-|]. split; [done|].
  destruct (first_some _ _) eqn:Hf; [by injection Hg as <-|]. clear -Hf.
  induction (entries r) as [|e es IH]; [constructor|]. cbn in Hf.
  destruct (entry_shortfall (thresholds options) e) eqn:He; [done|]. constructor; [|by apply IH].
  unfold entry_shortfall in He. by repeat (case_match; [done|]).
Qed.

(** What holds when a provider is called. *)
Record admitted (request : SchemaExtractionRequest) (options : Options) (sig : W → option thrown)
    (p : Provider) (input : SchemaExtractionProviderInput) (l : SchemaExtractionLimits Z) : Prop := {
  adm_opted_in : rq_providerBacked request = JBool true;
  adm_gate : gate_passed options;
  adm_limits : limits_ok l;
  adm_destination : ∃ s1 dest s2,
    resolvePublicUrl (rq_url request) (url_options options sig) s1 = (Ok dest, s2) ∧
    in_url input = url_href (dest_url dest);
  adm_schema : parseBoundedSchema (rq_schema request) (as_overrides l) = Ok (in_schema input);
  adm_provider : p ∈ providers options ∧ ∀ id, rq_provider request = Some id → p_id p = id;
  adm_supported : supported p input = true ∧ p_id p ≠ ""%string ∧ p_model p ≠ ""%string
}.

(** ** The steps *)

Lemma quiet_net {A} o (m : M W A) s (Q : result A → Resolver W → Prop) :
  (∀ w, quiet o w (m w).2) → (∀ r s', quiet o (net s) (net s') → Q r s') → wp (on_net m) Q s.
Proof.
  intros Hm HQ. unfold wp, on_net. specialize (Hm (net s)). destruct (m (net s)) as [r w].
  by apply HQ.
Qed.

Lemma wp_aborted {A} (o : UrlPolicyOptions W) stage msg (f : unit → M (Resolver W) A) Q s :
  wp (f tt) Q s → (∀ e, Q (Throw e) s) → wp (throwIfAborted o stage msg ≫= f) Q s.
Proof.
  intros Hok Hthrow. unfold throwIfAborted. apply wp_bind, wp_get, wp_lift.
  by destruct (cancelled _ _ _) as [[]|].
Qed.

Lemma quiet_addresses o sig h s :
  wp (addresses_of (url_options o sig) h) (λ _ s', quiet o (net s) (net s')) s.
Proof.
  unfold addresses_of. apply wp_get. destruct (cache s ≫= _); [apply wp_ret, quiet_refl|].
  apply wp_bind. apply (wp_mono _ (λ _ s', quiet o (net s) (net s'))).
  - destruct (isIP h =? 0)%Z; [|apply wp_ret, quiet_refl].
    apply wp_attempt. apply (quiet_net o); [intros w; cbn; eauto using quiet|].
    intros [?|?] s' Hq; [|by apply wp_throw].
    apply wp_bind. unfold throwIfAborted, wp, get, mbind, M_bind, lift. cbn.
    by destruct (cancelled _ _ _).
  - intros [a|e] s' Hq; [|done]. apply wp_bind. unfold remember, wp, update. cbn. done.
Qed.

Lemma quiet_resolve o sig v s :
  wp (resolvePublicUrl v (url_options o sig)) (λ _ s', quiet o (net s) (net s')) s.
Proof.
  unfold resolvePublicUrl. apply wp_aborted; [|intros; apply quiet_refl].
  apply wp_lift_bind; [intros u _|intros; apply quiet_refl].
  apply wp_throw_if; [intros; apply quiet_refl|]. intros _.
  apply wp_bind. eapply wp_mono; [apply quiet_addresses|]. intros [a|e] s' Hq; [|done].
  apply wp_throw_if; [done|]. intros _. by apply wp_ret.
Qed.

Lemma caps_ok base output text :
  limits_ok base → caps_out_of_range base output text = false →
  limits_ok (base <| maxOutputChars := to_Z output |> <| maxStringChars := to_Z text |>).
Proof.
  intros Hb Hc. assert (Hok : limit_ok output (maxOutputChars base) = true ∧
                              limit_ok text (maxStringChars base) = true).
  { unfold caps_out_of_range, limit_ok in *.
    by destruct (isInteger output), (isInteger text), (num_leb output _), (num_leb text _),
      (num_ltb _ output), (num_ltb _ text). }
  destruct Hok as [Ho%limit_ok_positive Ht%limit_ok_positive].
  revert Hb. unfold limits_ok, limit_entries. rewrite !Forall_cons. cbn. intros Hb.
  destruct_and!. split_and!; try done; lia.
Qed.

Lemma request_limits_ok request base l :
  limits_ok base → request_limits request base = Ok l → limits_ok l.
Proof.
  intros Hb Hl. unfold request_limits in Hl.
  destruct (rq_maxOutputChars request), (rq_maxStringChars request); try by injection Hl as <-.
  all: apply result_bind_Ok in Hl as (_ & Hc%throw_if_Ok & Hl); injection Hl as <-; exact (caps_ok _ _ _ Hb Hc).
Qed.

Lemma resolveProvider_spec requested (options : Options) (p : Provider) :
  resolveProvider requested options = Ok p →
  p ∈ providers options ∧ ∀ id, requested = Some id → p_id p = id.
Proof.
  unfold resolveProvider, find_provider. intros Hr.
  assert (Hfind : ∀ id q, find (λ p : Provider, bool_decide (p_id p = id)) (providers options) = Some q →
    q ∈ providers options ∧ p_id q = id).
  { intros id q [Hin Hid]%find_some. split; [by apply list_elem_of_In|]. by apply bool_decide_eq_true in Hid. }
  destruct requested as [id|].
  - destruct (find _ _) eqn:Hf; [|done]. injection Hr as ->. apply Hfind in Hf as [? ?].
    split; [done|]. by intros ? [= <-].
  - split; [|done]. destruct (defaultProvider options) as [id|].
    + destruct (find _ _) eqn:Hf; [|done]. injection Hr as ->. by apply Hfind in Hf as [? _].
    + destruct (providers options); [done|]. injection Hr as ->. left.
Qed.

Lemma admit_spec request options sig s :
  wp (admission request options sig) (λ out s', quiet options (net s) (net s') ∧
    ∀ p input l t, out = Ok (p, input, l, t) → admitted request options sig p input l) s.
Proof.
  unfold admission. apply wp_aborted; [|intros; split; [apply quiet_refl|done]].
  apply wp_throw_if; [intros; split; [apply quiet_refl|done]|]. intros Hopt.
  apply wp_lift_bind; [intros base Hbase|intros; split; [apply quiet_refl|done]].
  apply wp_lift_bind; [intros t _|intros; split; [apply quiet_refl|done]].
  apply wp_lift_bind; [intros l Hl|intros; split; [apply quiet_refl|done]].
  apply wp_lift_bind; [intros [] Hgate|intros; split; [apply quiet_refl|done]].
  apply wp_bind. pose proof (quiet_resolve options sig (rq_url request) s) as Hq.
  unfold wp at 1. unfold wp in Hq.
  destruct (resolvePublicUrl (rq_url request) (url_options options sig) s) as [[dest|e] s2] eqn:Hdest;
    cbn in *; [|by split].
  apply wp_lift_bind; [intros schema Hschema|intros; by split].
  apply wp_lift_bind; [intros p Hp|intros; by split].
  apply wp_lift_bind; [intros [] Hcheck|intros; by split].
  apply wp_ret. split; [done|]. intros p' input' l' t' [= <- <- <- <-].
  apply result_bind_Ok in Hcheck as (_ & Hs%throw_if_Ok%negb_false_iff & [Hi Hm]%throw_if_Ok%orb_false_iff).
  apply negb_false_iff in Hopt. unfold opted_in in Hopt.
  split.
  - by destruct (rq_providerBacked request) as [| |[]| | | |].
  - by apply gate_spec.
  - exact (request_limits_ok _ _ _ (resolve_limits_ok _ _ Hbase) Hl).
  - by exists s, dest, s2.
  - done.
  - by apply resolveProvider_spec.
  - rewrite <- !falsy_false. done.
Qed.

Lemma quiet_read_date options (w : W) :
  quiet options w (let '(t, w') := Date_now w in (Ok t, w') : result Z * W).2.
Proof.
  pose proof (quiet_date options w) as Hq. destruct (Date_now w). apply Hq, quiet_refl.
Qed.

Lemma quiet_read_performance options (w : W) :
  quiet options w (let '(t, w') := performance_now w in (Ok t, w') : result number * W).2.
Proof.
  pose proof (quiet_performance options w) as Hq. destruct (performance_now w). apply Hq, quiet_refl.
Qed.

(** ** The call *)

(** A call of the provider in [w], between quiet steps, and what it answers. *)
Definition called (options : Options) (p : Provider) (input : SchemaExtractionProviderInput)
    (w0 w w' : W) : Prop :=
  quiet options w0 w ∧ quiet options (p_extract p input w).2 w'.

Lemma withinDeadline_Ok {A} d parent stage now t (r : race A) a :
  withinDeadline d parent stage now t r = Ok a → ∃ aborted, r = RaceOperation (Ok a) aborted.
Proof.
  unfold withinDeadline. intros (_ & _ & (_ & _ & (_ & _ & Hr)%result_bind_Ok)%result_bind_Ok)%result_bind_Ok.
  destruct r as [[a'|e] [x|]|x]; try done; injection Hr as <-; eauto.
Qed.

Lemma call_provider_spec (options : Options) (p : Provider) input sig d s :
  wp (call_provider p input sig d) (λ out s',
    (quiet options (net s) (net s') ∧ is_Throw out) ∨
    ∃ w, called options p input (net s) w (net s') ∧
      ∀ a, out = Ok a → ∃ aborted, (p_extract p input w).1 = RaceOperation (Ok a) aborted) s.
Proof.
  unfold call_provider, read_performance.
  apply wp_bind. apply (quiet_net options); [apply quiet_read_performance|].
  intros [now|e] s1 Hq1; [|left; split; [done|by eexists]].
  apply wp_lift_bind; [intros _ _|intros; left; split; [done|by eexists]].
  apply wp_get. cbv zeta. apply wp_throw_if; [intros; left; split; [done|by eexists]|]. intros _.
  apply wp_bind. apply (quiet_net options); [apply quiet_read_performance|].
  intros [t|e] s2 Hq2; [|left; split; [by eapply quiet_trans|by eexists]].
  pose proof (quiet_trans _ _ _ _ Hq1 Hq2) as Hq12.
  apply wp_lift_bind; [intros _ _|intros; left; split; [done|by eexists]].
  apply wp_bind. unfold wp at 1, on_net. destruct (p_extract p input (net s2)) as [r w'] eqn:Hr.
  cbn [fst snd]. apply wp_lift. right. exists (net s2). split.
  { split; [done|]. rewrite Hr. apply quiet_refl. }
  rewrite Hr. intros a (aborted & Ha)%withinDeadline_Ok. exists aborted.
  unfold settled_call in Ha. by destruct r as [[?|?] ?|?].
Qed.

(** What a run returns, given the provider's answer in [w]. *)
Definition reports (p : Provider) (input : SchemaExtractionProviderInput)
    (l : SchemaExtractionLimits Z) (w : W) (o : SchemaExtractionOutcome) : Prop :=
  ∃ answer aborted units v,
    (p_extract p input w).1 = RaceOperation (Ok (Some answer)) aborted ∧
    out_billedUnits answer = Some units ∧ num_ltb units (int 0) = false ∧
    validateProviderOutput (out_data answer) (in_schema input) (as_overrides l) = Ok v ∧
    so_result o = {| er_fields := val_fields v;
                     er_provenance := {| pv_provider := p_id p; pv_model := p_model p;
                                         pv_source := in_url input; pv_billedUnits := units |} |} ∧
    so_truncated o = val_truncated v ∧ so_digest o = digestExtractionFields (val_fields v).

Lemma assemble_spec (p : Provider) input l answer r ws cutting :
  assemble p input l answer = Ok (r, ws, cutting) →
  ∃ out units v, answer = Some out ∧ out_billedUnits out = Some units ∧
    num_ltb units (int 0) = false ∧
    validateProviderOutput (out_data out) (in_schema input) (as_overrides l) = Ok v ∧
    r = {| er_fields := val_fields v;
           er_provenance := {| pv_provider := p_id p; pv_model := p_model p;
                               pv_source := in_url input; pv_billedUnits := units |} |} ∧
    cutting = val_truncated v.
Proof.
  unfold assemble. destruct answer as [out|]; [|done]. cbv zeta.
  destruct (out_billedUnits out) as [units|] eqn:Hu; [|done].
  intros (_ & [_ Hn]%throw_if_Ok%orb_false_iff & Hr)%result_bind_Ok.
  apply result_bind_Ok in Hr as (ws' & _ & (v & Hv & Hr)%result_bind_Ok).
  destruct (validateExtractionResult _); [|done]. injection Hr as <- <- <-. by exists out, units, v.
Qed.

(** a provider is called at most once, and only when admitted.  Whatever
    the request, the options, the network and the providers do, a run either
    ends in an error after DNS lookups and clock readings alone, or makes
    exactly one provider call between such steps; then the caller had opted
    in, the benchmark report passes the gate, the limits are within their
    ceilings, the URL given to the provider is the one the URL policy let
    through, the schema is the parsed bounded one, and the provider is the one
    asked for.  A returned outcome is the validation of that call's answer,
    attributed to that provider, that URL and the units it billed. *)
Theorem extraction_calls_once_when_admitted request options sig s :
  let '(out, s') := runSchemaExtraction request options sig s in
  (quiet options (net s) (net s') ∧ is_Throw out) ∨
  ∃ p input l w, admitted request options sig p input l ∧
    called options p input (net s) w (net s') ∧ ∀ o, out = Ok o → reports p input l w o.
Proof.
  enough (Hrun : wp (runSchemaExtraction request options sig) (λ out s',
    (quiet options (net s) (net s') ∧ is_Throw out) ∨
    ∃ p input l w, admitted request options sig p input l ∧
      called options p input (net s) w (net s') ∧ ∀ o, out = Ok o → reports p input l w o) s).
  { unfold wp in Hrun. by destruct (runSchemaExtraction _ _ _ _). }
  unfold runSchemaExtraction. apply wp_bind. eapply wp_mono; [apply admit_spec|].
  intros [[[[p input] l] t]|e] s1 [Hq1 Hadm]; [|left; split; [done|by eexists]].
  specialize (Hadm _ _ _ _ eq_refl).
  apply wp_bind. apply (quiet_net options); [apply quiet_read_performance|].
  intros [created|e] s2 Hq2; [|left; split; [by eapply quiet_trans|by eexists]].
  pose proof (quiet_trans _ _ _ _ Hq1 Hq2) as Hq12.
  apply wp_lift_bind; [intros d _|intros; left; split; [done|by eexists]].
  apply wp_bind. apply (quiet_net options); [apply quiet_read_date|].
  intros [started|e] s3 Hq3; [|left; split; [by eapply quiet_trans|by eexists]].
  pose proof (quiet_trans _ _ _ _ Hq12 Hq3) as Hq13.
  apply wp_bind. eapply wp_mono; [apply (call_provider_spec options)|].
  intros answer s4 [[Hq4 [e ->]]|(w & [Hw1 Hw2] & Hans)].
  { left. split; [by eapply quiet_trans|by eexists]. }
  destruct answer as [a|e].
  2: { right. exists p, input, l, w. split; [done|]. split; [|done]. split; [by eapply quiet_trans|done]. }
  destruct (Hans a eq_refl) as [aborted Ha].
  apply wp_lift_bind; [intros [[r ws] cutting] Has|].
  2: { intros. right. exists p, input, l, w. split; [done|]. split; [|done]. split; [by eapply quiet_trans|done]. }
  apply wp_bind. apply (quiet_net options); [apply quiet_read_date|].
  intros [ended|e] s5 Hq5; right; exists p, input, l, w; (split; [done|]);
    (split; [split; by eapply quiet_trans|]); [|done].
  intros o [= <-]. destruct (assemble_spec _ _ _ _ _ _ _ Has) as (out & units & v & -> & Hu & Hn & Hv & -> & ->).
  exists out, aborted, units, v. done.
Qed.
End admission_rules.
