(* ===== verification/DurableUpload.v ===== *)
(** * The durable upload service

    [DurableUploadArtifactService] of [src/core/durable-upload-flow.ts]: upload
    intents and the source artifacts they become, as JSON records of the
    durable store, with their bytes in the blob store.  Every operation is a
    computation on the state behind the two interfaces, call by call, so that
    other workers may act between any two calls and a call may fail.

    The numbers in a record are integers: inputs are checked before they are
    stored, and a record with another number is not decoded. *)

From S2P Require Import Prelude JsString JsMap Digest Json DurableStore.
From S2P Require ArtifactLifecycle.

(** ** Bounds, inputs and views *)

Definition DEFAULT_UPLOAD_INTENT_TTL_MS : Z := ArtifactLifecycle.UPLOAD_DEFAULT_TTL_SECONDS * 1000.
Definition MIN_UPLOAD_INTENT_TTL_MS : Z := ArtifactLifecycle.UPLOAD_MIN_TTL_SECONDS * 1000.
Definition MAX_UPLOAD_INTENT_TTL_MS : Z := ArtifactLifecycle.UPLOAD_HARD_MAX_TTL_SECONDS * 1000.
Definition DEFAULT_ARTIFACT_TTL_MS : Z := ArtifactLifecycle.ARTIFACT_DEFAULT_TTL_SECONDS * 1000.
Definition MIN_ARTIFACT_TTL_MS : Z := ArtifactLifecycle.ARTIFACT_MIN_TTL_SECONDS * 1000.
Definition MAX_ARTIFACT_TTL_MS : Z := ArtifactLifecycle.ARTIFACT_HARD_MAX_TTL_SECONDS * 1000.

Definition SCHEMA_VERSION : string := "1".
Definition MAX_IDENTITY_CHARS : Z := 256.
Definition MAX_MIME_CHARS : Z := 128.
Definition MAX_FILENAME_CHARS : Z := 512.
Definition HASH_PATTERN : string → bool := hex64_after "sha256-".
Definition CLEANUP_RETRY_DELAY_MS : Z := 60 * 1000.

Record DurableUploadCaller := { ownerId : string; credentialBinding : string }.

Record CreateDurableUploadIntentInput := {
  ci_idempotencyKey : string;
  ci_declaredMime : string;
  ci_declaredSize : number;
  ci_filename : string;
  ci_expectedDigest : option string;
  ci_uploadTtlMs : option number;
  ci_artifactTtlMs : option number;
  ci_nowMs : number
}.

Inductive DurableUploadIntentStatus := pending | finalizing | finalized | intent_expired.
Inductive ArtifactStatus := active | expired | deleted | physical_cleanup_pending.
Inductive CleanupReason := was_expired | was_deleted.

#[export] Instance DurableUploadIntentStatus_eq_dec : EqDecision DurableUploadIntentStatus.
Proof. solve_decision. Defined.
#[export] Instance ArtifactStatus_eq_dec : EqDecision ArtifactStatus.
Proof. solve_decision. Defined.
#[export] Instance CleanupReason_eq_dec : EqDecision CleanupReason.
Proof. solve_decision. Defined.

(** [artifactKind] is "source" and [verified] is [true]. *)
Record DurableSourceArtifactRef := {
  ref_refId : string;
  ref_ownershipScope : string;
  ref_contentHash : string;
  ref_byteSize : Z;
  ref_createdAt : Z;
  ref_expiresAt : Z
}.

#[export] Instance DurableSourceArtifactRef_eq_dec : EqDecision DurableSourceArtifactRef.
Proof. solve_decision. Defined.

Record DurableUploadIntentView := {
  view_intentId : string;
  view_status : DurableUploadIntentStatus;
  view_declaredMime : string;
  view_declaredSize : Z;
  view_filename : string;
  view_expectedDigest : option string;
  view_expiresAt : Z;
  view_artifactTtlMs : Z;
  view_artifactRef : option DurableSourceArtifactRef
}.

Record FinalizeDurableUploadInput := {
  fi_intentId : string;
  fi_bytes : bytes;
  fi_observedMime : string;
  fi_nowMs : number
}.

Record DurableArtifactRead := {
  read_ref : DurableSourceArtifactRef;
  read_bytes : bytes;
  read_mimeType : string;
  read_filename : string
}.

Record DurableArtifactRevocation := {
  rv_refId : string;
  rv_ownerId : string;
  rv_credentialBinding : string;
  rv_contentHash : string;
  rv_filename : string;
  rv_reason : CleanupReason;
  rv_nowMs : Z
}.

(** ** Stored states *)

Record FinalizationState := {
  fin_refId : string;
  fin_contentHash : string;
  fin_byteSize : Z;
  fin_blobKey : string;
  fin_createdAt : Z;
  fin_expiresAt : Z
}.

#[export] Instance FinalizationState_eq_dec : EqDecision FinalizationState.
Proof. solve_decision. Defined.

Record UploadIntentState := {
  in_intentId : string;
  in_ownerId : string;
  in_credentialBinding : string;
  in_idempotencyKey : string;
  in_requestFingerprint : string;
  in_declaredMime : string;
  in_declaredSize : Z;
  in_filename : string;
  in_expectedDigest : option string;
  in_expiresAt : Z;
  in_artifactTtlMs : Z;
  in_status : DurableUploadIntentStatus;
  in_finalization : option FinalizationState;
  in_createdAt : Z;
  in_updatedAt : Z
}.

#[export] Instance UploadIntentState_updatable : Updatable UploadIntentState :=
  {| rebuild := λ i, Build_UploadIntentState (in_intentId i) (in_ownerId i) (in_credentialBinding i)
       (in_idempotencyKey i) (in_requestFingerprint i) (in_declaredMime i) (in_declaredSize i)
       (in_filename i) (in_expectedDigest i) (in_expiresAt i) (in_artifactTtlMs i) (in_status i)
       (in_finalization i) (in_createdAt i) (in_updatedAt i) |}.

Record ArtifactState := {
  art_refId : string;
  art_ownerId : string;
  art_credentialBinding : string;
  art_contentHash : string;
  art_byteSize : Z;
  art_mimeType : string;
  art_filename : string;
  art_blobKey : string;
  art_createdAt : Z;
  art_updatedAt : Z;
  art_expiresAt : Z;
  art_status : ArtifactStatus;
  art_cleanupReason : option CleanupReason
}.

#[export] Instance ArtifactState_updatable : Updatable ArtifactState :=
  {| rebuild := λ a, Build_ArtifactState (art_refId a) (art_ownerId a) (art_credentialBinding a)
       (art_contentHash a) (art_byteSize a) (art_mimeType a) (art_filename a) (art_blobKey a)
       (art_createdAt a) (art_updatedAt a) (art_expiresAt a) (art_status a) (art_cleanupReason a) |}.

Record DurableUploadCleanupPage := {
  scanned : Z;
  logicallyRevoked : Z;
  physicallyDeleted : Z;
  retryPending : Z;
  failures : list string;
  up_nextCursor : option string
}.

(** ** Errors and checks *)

Definition uploadError (message : string) : thrown :=
  gerror INVALID_INPUT "durable-upload" message false.

Definition upstreamError (message : string) (retryable : bool) : thrown :=
  gerror UPSTREAM_ERROR "durable-upload" message retryable.

Definition storageError : thrown := upstreamError "Artifact storage operation failed" true.

Definition sanitizedStorageCall {S A} (operation : M S A) : M S A :=
  catch operation (λ e, match e with TGroundlane _ => throw e | _ => throw storageError end).

Definition not_trimmed (s : string) : bool := negb (bool_decide (trim s = s)).

Definition bad_text (maxChars : Z) (v : string) : bool :=
  (str_length v =? 0)%Z || (maxChars <? str_length v)%Z || not_trimmed v.

Definition assertBoundedIdentity (v field : string) : result unit :=
  throw_if (bad_text MAX_IDENTITY_CHARS v)
    (uploadError (field +:+ " must be non-empty within " +:+ show MAX_IDENTITY_CHARS +:+ " characters")).

Definition assertCaller (caller : DurableUploadCaller) : result unit :=
  assertBoundedIdentity (ownerId caller) "ownerId";;
  assertBoundedIdentity (credentialBinding caller) "credentialBinding".

Definition assertTime (nowMs : number) : result unit :=
  throw_if (negb (isSafeInteger nowMs) || num_ltb nowMs (int 0))
    (uploadError "Upload timestamp is invalid").

Definition assertTtl (v : number) (min max : Z) (field : string) : result unit :=
  throw_if (negb (isSafeInteger v) || num_ltb v (int min) || num_ltb (int max) v)
    (uploadError (field +:+ " TTL must be " +:+ show min +:+ ".." +:+ show max +:+ " milliseconds")).

Definition assertMime (v field : string) : result unit :=
  throw_if (bad_text MAX_MIME_CHARS v || negb (str_includes v "/"))
    (uploadError (field +:+ " must be a bounded MIME type")).

(** [/[\0\r\n]/u] *)
Definition line_char (c : ascii) : bool := between 0 0 c || between 10 10 c || between 13 13 c.

Definition assertFilename (v : string) : result unit :=
  throw_if (bad_text MAX_FILENAME_CHARS v || existsb line_char (chars v))
    (uploadError "filename must be non-empty and bounded").

Definition assertDigest (v : option string) : result unit :=
  throw_if (match v with Some d => negb (HASH_PATTERN d) | None => false end)
    (uploadError "expectedDigest must be a sha256 digest").

(** ** Keys and identifiers *)

Definition intentKey (id : string) : string := "upload-intent:" +:+ id.
Definition artifactKey (refId : string) : string := "upload-artifact:" +:+ refId.

Definition NUL : string := unchars [ascii_of_nat 0].

Section identifiers.
Context `{!Sha256Api}.

Definition contentDigest (b : bytes) : string := "sha256-" +:+ sha256 b.

Definition intentId (caller : DurableUploadCaller) (idempotencyKey : string) : string :=
  "upl_" +:+ slice_to 40 (sha256 (utf8
    (ownerId caller +:+ NUL +:+ credentialBinding caller +:+ NUL +:+ idempotencyKey))).

Definition optional_string (s : option string) : js_value :=
  match s with Some s => JStr s | None => JNull end.

Definition requestFingerprint (declaredMime : string) (declaredSize : Z) (filename : string)
    (expectedDigest : option string) (uploadTtlMs artifactTtlMs : Z) : string :=
  sha256 (utf8 (unchars (json_text (JObj
    [("declaredMime", JStr declaredMime); ("declaredSize", JNum declaredSize);
     ("filename", JStr filename); ("expectedDigest", optional_string expectedDigest);
     ("uploadTtlMs", JNum uploadTtlMs); ("artifactTtlMs", JNum artifactTtlMs)]%string)))).

Definition refFor (intent : UploadIntentState) (contentHash : string) : string :=
  "art_" +:+ slice_to 40 (sha256 (utf8 (in_intentId intent +:+ NUL +:+ contentHash))).

Definition blobKey (intent : UploadIntentState) (refId contentHash : string) : string :=
  "blobs/" +:+ sha256 (utf8 (in_ownerId intent +:+ NUL +:+ in_credentialBinding intent +:+ NUL +:+
                             refId +:+ NUL +:+ contentHash)).
End identifiers.

(** ** Encoding and decoding *)

Definition intent_status_name (st : DurableUploadIntentStatus) : string :=
  match st with
  | pending => "pending" | finalizing => "finalizing" | finalized => "finalized"
  | intent_expired => "expired"
  end.

Definition artifact_status_name (st : ArtifactStatus) : string :=
  match st with
  | active => "active" | expired => "expired" | deleted => "deleted"
  | physical_cleanup_pending => "physical_cleanup_pending"
  end.

Definition reason_name (r : CleanupReason) : string :=
  match r with was_expired => "expired" | was_deleted => "deleted" end.

Definition isIntentStatus (v : js_value) : option DurableUploadIntentStatus :=
  s ← as_string v;
  find (λ st, bool_decide (intent_status_name st = s)) [pending; finalizing; finalized; intent_expired].

Definition isArtifactStatus (v : js_value) : option ArtifactStatus :=
  s ← as_string v;
  find (λ st, bool_decide (artifact_status_name st = s))
    [active; expired; deleted; physical_cleanup_pending].

(** Absent, [null], or one of the reasons; [item.cleanupReason ?? null]. *)
Definition reason_of_json (v : js_value) : option (option CleanupReason) :=
  match v with
  | JUndefined | JNull => Some None
  | JStr s =>
      if bool_decide (s = "expired"%string) then Some (Some was_expired)
      else if bool_decide (s = "deleted"%string) then Some (Some was_deleted) else None
  | _ => None
  end.

Definition finalization_json (f : FinalizationState) : js_value :=
  JObj [("refId", JStr (fin_refId f)); ("contentHash", JStr (fin_contentHash f));
        ("byteSize", JNum (fin_byteSize f)); ("blobKey", JStr (fin_blobKey f));
        ("createdAt", JNum (fin_createdAt f)); ("expiresAt", JNum (fin_expiresAt f))]%string.

Definition intent_json (i : UploadIntentState) : js_value :=
  JObj [("schemaVersion", JStr SCHEMA_VERSION); ("intentId", JStr (in_intentId i));
        ("ownerId", JStr (in_ownerId i)); ("credentialBinding", JStr (in_credentialBinding i));
        ("idempotencyKey", JStr (in_idempotencyKey i));
        ("requestFingerprint", JStr (in_requestFingerprint i));
        ("declaredMime", JStr (in_declaredMime i)); ("declaredSize", JNum (in_declaredSize i));
        ("filename", JStr (in_filename i)); ("expectedDigest", optional_string (in_expectedDigest i));
        ("expiresAt", JNum (in_expiresAt i)); ("artifactTtlMs", JNum (in_artifactTtlMs i));
        ("status", JStr (intent_status_name (in_status i)));
        ("finalization", match in_finalization i with Some f => finalization_json f | None => JNull end);
        ("createdAt", JNum (in_createdAt i)); ("updatedAt", JNum (in_updatedAt i))]%string.

Definition artifact_json (a : ArtifactState) : js_value :=
  JObj [("schemaVersion", JStr SCHEMA_VERSION); ("refId", JStr (art_refId a));
        ("ownerId", JStr (art_ownerId a)); ("credentialBinding", JStr (art_credentialBinding a));
        ("contentHash", JStr (art_contentHash a)); ("byteSize", JNum (art_byteSize a));
        ("mimeType", JStr (art_mimeType a)); ("filename", JStr (art_filename a));
        ("blobKey", JStr (art_blobKey a)); ("createdAt", JNum (art_createdAt a));
        ("updatedAt", JNum (art_updatedAt a)); ("expiresAt", JNum (art_expiresAt a));
        ("status", JStr (artifact_status_name (art_status a)));
        ("cleanupReason", match art_cleanupReason a with
                          | Some r => JStr (reason_name r) | None => JNull end)]%string.

Definition encode (v : js_value) : string := unchars (json_text v).

Definition isFinalization (v : js_value) : option FinalizationState :=
  _ ← guard (isObject v = true);
  r ← as_string (prop v "refId"); h ← as_string (prop v "contentHash");
  n ← as_number (prop v "byteSize"); b ← as_string (prop v "blobKey");
  c ← as_number (prop v "createdAt"); e ← as_number (prop v "expiresAt");
  Some {| fin_refId := r; fin_contentHash := h; fin_byteSize := n; fin_blobKey := b;
          fin_createdAt := c; fin_expiresAt := e |}.

Definition finalization_of_json (v : js_value) : option (option FinalizationState) :=
  match v with JNull => Some None | _ => Some <$> isFinalization v end.

Definition has_version (v : js_value) : bool :=
  match as_string (prop v "schemaVersion") with
  | Some s => bool_decide (s = SCHEMA_VERSION)
  | None => false
  end.

Definition intent_of_json (v : js_value) : option UploadIntentState :=
  _ ← guard (has_version v = true);
  id ← as_string (prop v "intentId"); o ← as_string (prop v "ownerId");
  cb ← as_string (prop v "credentialBinding"); ik ← as_string (prop v "idempotencyKey");
  fp ← as_string (prop v "requestFingerprint"); dm ← as_string (prop v "declaredMime");
  n ← as_number (prop v "declaredSize"); fn ← as_string (prop v "filename");
  ed ← as_null_or_string (prop v "expectedDigest"); e ← as_number (prop v "expiresAt");
  ttl ← as_number (prop v "artifactTtlMs"); st ← isIntentStatus (prop v "status");
  fin ← finalization_of_json (prop v "finalization");
  c ← as_number (prop v "createdAt"); u ← as_number (prop v "updatedAt");
  Some {| in_intentId := id; in_ownerId := o; in_credentialBinding := cb; in_idempotencyKey := ik;
          in_requestFingerprint := fp; in_declaredMime := dm; in_declaredSize := n;
          in_filename := fn; in_expectedDigest := ed; in_expiresAt := e; in_artifactTtlMs := ttl;
          in_status := st; in_finalization := fin; in_createdAt := c; in_updatedAt := u |}.

Definition artifact_of_json (v : js_value) : option ArtifactState :=
  _ ← guard (has_version v = true);
  id ← as_string (prop v "refId"); o ← as_string (prop v "ownerId");
  cb ← as_string (prop v "credentialBinding"); h ← as_string (prop v "contentHash");
  n ← as_number (prop v "byteSize"); mt ← as_string (prop v "mimeType");
  fn ← as_string (prop v "filename"); b ← as_string (prop v "blobKey");
  c ← as_number (prop v "createdAt"); u ← as_number (prop v "updatedAt");
  e ← as_number (prop v "expiresAt"); st ← isArtifactStatus (prop v "status");
  why ← reason_of_json (prop v "cleanupReason");
  Some {| art_refId := id; art_ownerId := o; art_credentialBinding := cb; art_contentHash := h;
          art_byteSize := n; art_mimeType := mt; art_filename := fn; art_blobKey := b;
          art_createdAt := c; art_updatedAt := u; art_expiresAt := e; art_status := st;
          art_cleanupReason := why |}.

(** A finalization exactly while or after finalizing; any with an expired
    intent. *)
Definition intent_consistent (key : string) (i : UploadIntentState) : bool :=
  bool_decide (key = intentKey (in_intentId i)) &&
  match in_status i, in_finalization i with
  | pending, Some _ | finalizing, None | finalized, None => false
  | _, _ => true
  end.

Definition artifact_consistent (key : string) (a : ArtifactState) : bool :=
  bool_decide (key = artifactKey (art_refId a)) &&
  match art_status a, art_cleanupReason a with
  | physical_cleanup_pending, None => false
  | physical_cleanup_pending, Some _ => true
  | _, Some _ => false
  | _, None => true
  end.

(** [parseJson] gives an object or the storage error, as every failed check
    does. *)
Definition decode {A} (of_json : js_value → option A) (consistent : string → A → bool)
    (record : DurableRecord) : result (A * Z) :=
  match JSON_parse (value record) with
  | Throw _ => Throw storageError
  | Ok v =>
      match (if isObject v then of_json v else None) with
      | None => Throw storageError
      | Some a =>
          throw_if (negb (consistent (rec_key record) a)) storageError;;
          Ok (a, revision record)
      end
  end.

Definition decodeIntent : DurableRecord → result (UploadIntentState * Z) :=
  decode intent_of_json intent_consistent.
Definition decodeArtifact : DurableRecord → result (ArtifactState * Z) :=
  decode artifact_of_json artifact_consistent.

(** ** Access and views *)

Definition assertIntentCaller (i : UploadIntentState) (caller : DurableUploadCaller) : result unit :=
  throw_if (negb (bool_decide (in_ownerId i = ownerId caller)) ||
            negb (bool_decide (in_credentialBinding i = credentialBinding caller)))
    (uploadError "Unknown or unavailable upload intent").

Definition assertArtifactCaller (a : ArtifactState) (caller : DurableUploadCaller) : result unit :=
  throw_if (negb (bool_decide (art_ownerId a = ownerId caller)) ||
            negb (bool_decide (art_credentialBinding a = credentialBinding caller)))
    (uploadError "Unknown or unavailable artifact").

(** [artifactRef] of an artifact, and of a finalization with its owner. *)
Definition artifactRef (a : ArtifactState) : DurableSourceArtifactRef :=
  {| ref_refId := art_refId a; ref_ownershipScope := art_ownerId a;
     ref_contentHash := art_contentHash a; ref_byteSize := art_byteSize a;
     ref_createdAt := art_createdAt a; ref_expiresAt := art_expiresAt a |}.

Definition finalizationRef (f : FinalizationState) (owner : string) : DurableSourceArtifactRef :=
  {| ref_refId := fin_refId f; ref_ownershipScope := owner; ref_contentHash := fin_contentHash f;
     ref_byteSize := fin_byteSize f; ref_createdAt := fin_createdAt f;
     ref_expiresAt := fin_expiresAt f |}.

Definition intentView (i : UploadIntentState) : DurableUploadIntentView :=
  {| view_intentId := in_intentId i; view_status := in_status i;
     view_declaredMime := in_declaredMime i; view_declaredSize := in_declaredSize i;
     view_filename := in_filename i; view_expectedDigest := in_expectedDigest i;
     view_expiresAt := in_expiresAt i; view_artifactTtlMs := in_artifactTtlMs i;
     view_artifactRef := match in_status i, in_finalization i with
                         | finalized, Some f => Some (finalizationRef f (in_ownerId i))
                         | _, _ => None
                         end |}.

(** Everything but the time of the last write. *)
Definition sameArtifact (left right : ArtifactState) : bool :=
  bool_decide (
    (art_refId left, art_ownerId left, art_credentialBinding left, art_contentHash left,
     art_byteSize left, art_mimeType left, art_filename left, art_blobKey left,
     art_createdAt left, art_expiresAt left, art_status left, art_cleanupReason left) =
    (art_refId right, art_ownerId right, art_credentialBinding right, art_contentHash right,
     art_byteSize right, art_mimeType right, art_filename right, art_blobKey right,
     art_createdAt right, art_expiresAt right, art_status right, art_cleanupReason right)).

(** ** [DurableUploadArtifactService] *)

Record UploadService (S : Type) := {
  retention : ArtifactLifecycle.ArtifactRetentionPolicy;
  revocations : option (DurableArtifactRevocation → M S unit)
}.
Arguments retention {S} _.
Arguments revocations {S} _.

Section service.
Context {S : Type} `{!Sha256Api} `{!DurableRecordStorePort S} `{!ImmutableBlobPort S}
  (service : UploadService S).

Definition write (v : js_value) (nowMs : Z) (expiresAt : option Z) : DurableRecordUpdate :=
  {| upd_value := encode v; upd_nowMs := int nowMs; upd_expiresAt := int <$> expiresAt |}.

Definition cas (key : string) (rev : Z) (u : DurableRecordUpdate) : M S DurableCasResult :=
  sanitizedStorageCall (ds_compareAndSwap key rev u).

Definition revokeArtifactSource (a : ArtifactState) (reason : CleanupReason) (nowMs : Z) : M S unit :=
  match revocations service with
  | None => mret tt
  | Some revoke => sanitizedStorageCall (revoke
      {| rv_refId := art_refId a; rv_ownerId := art_ownerId a;
         rv_credentialBinding := art_credentialBinding a; rv_contentHash := art_contentHash a;
         rv_filename := art_filename a; rv_reason := reason; rv_nowMs := nowMs |})
  end.

Definition readIntent (id : string) (caller : DurableUploadCaller) : M S (UploadIntentState * Z) :=
  record ← sanitizedStorageCall (ds_get (intentKey id));
  match record with
  | None => throw (uploadError "Unknown or unavailable upload intent")
  | Some r =>
      current ← lift (decodeIntent r);
      lift (assertIntentCaller current.1 caller);;
      mret current
  end.

Definition readArtifactState (refId : string) (caller : DurableUploadCaller)
    : M S (ArtifactState * Z) :=
  record ← sanitizedStorageCall (ds_get (artifactKey refId));
  match record with
  | None => throw (uploadError "Unknown or unavailable artifact")
  | Some r =>
      current ← lift (decodeArtifact r);
      lift (assertArtifactCaller current.1 caller);;
      mret current
  end.

(** *** Creating and reading intents *)

Definition check_ttls (uploadTtlMs artifactTtlMs : number) : result unit :=
  let u := ArtifactLifecycle.upload (retention service) in
  let a := ArtifactLifecycle.artifact (retention service) in
  assertTtl uploadTtlMs (ArtifactLifecycle.minTtlSeconds u * 1000)
    (ArtifactLifecycle.maxTtlSeconds u * 1000) "upload";;
  assertTtl artifactTtlMs (ArtifactLifecycle.minTtlSeconds a * 1000)
    (ArtifactLifecycle.maxTtlSeconds a * 1000) "artifact".

(** The checked input: the size and the two lifetimes as integers. *)
Definition check_create (input : CreateDurableUploadIntentInput) (caller : DurableUploadCaller)
    : result (Z * Z * Z) :=
  assertCaller caller;;
  assertBoundedIdentity (ci_idempotencyKey input) "idempotencyKey";;
  assertMime (ci_declaredMime input) "declaredMime";;
  assertFilename (ci_filename input);;
  assertTime (ci_nowMs input);;
  throw_if (negb (isSafeInteger (ci_declaredSize input)) ||
            num_ltb (ci_declaredSize input) (int 1) ||
            num_ltb (int MAX_IMMUTABLE_BLOB_BYTES) (ci_declaredSize input))
    (uploadError ("declaredSize must be 1.." +:+ show MAX_IMMUTABLE_BLOB_BYTES +:+ " bytes"));;
  assertDigest (ci_expectedDigest input);;
  let uploadTtlMs := default (int (ArtifactLifecycle.defaultTtlSeconds
    (ArtifactLifecycle.upload (retention service)) * 1000)) (ci_uploadTtlMs input) in
  let artifactTtlMs := default (int (ArtifactLifecycle.defaultTtlSeconds
    (ArtifactLifecycle.artifact (retention service)) * 1000)) (ci_artifactTtlMs input) in
  check_ttls uploadTtlMs artifactTtlMs;;
  Ok (to_Z (ci_declaredSize input), to_Z uploadTtlMs, to_Z artifactTtlMs).

Definition initial_intent (input : CreateDurableUploadIntentInput) (caller : DurableUploadCaller)
    (declaredSize uploadTtlMs artifactTtlMs : Z) : UploadIntentState :=
  let nowMs := to_Z (ci_nowMs input) in
  {| in_intentId := intentId caller (ci_idempotencyKey input);
     in_ownerId := ownerId caller; in_credentialBinding := credentialBinding caller;
     in_idempotencyKey := ci_idempotencyKey input;
     in_requestFingerprint := requestFingerprint (ci_declaredMime input) declaredSize
       (ci_filename input) (ci_expectedDigest input) uploadTtlMs artifactTtlMs;
     in_declaredMime := ci_declaredMime input; in_declaredSize := declaredSize;
     in_filename := ci_filename input; in_expectedDigest := ci_expectedDigest input;
     in_expiresAt := nowMs + uploadTtlMs; in_artifactTtlMs := artifactTtlMs;
     in_status := pending; in_finalization := None; in_createdAt := nowMs; in_updatedAt := nowMs |}.

Definition created_record (r : DurableCreateResult) : DurableRecord :=
  match r with Created r | Exists r => r end.

Definition createIntent (input : CreateDurableUploadIntentInput) (caller : DurableUploadCaller)
    : M S DurableUploadIntentView :=
  '(declaredSize, uploadTtlMs, artifactTtlMs) ← lift (check_create input caller);
  let initial := initial_intent input caller declaredSize uploadTtlMs artifactTtlMs in
  created ← sanitizedStorageCall (ds_createIfAbsent
    {| new_key := intentKey (in_intentId initial);
       new_update := write (intent_json initial) (to_Z (ci_nowMs input)) (Some (in_expiresAt initial)) |});
  '(current, _) ← lift (decodeIntent (created_record created));
  lift (assertIntentCaller current caller);;
  lift (throw_if (negb (bool_decide (in_requestFingerprint current = in_requestFingerprint initial)))
    (uploadError "Idempotency key is already bound to a different upload request"));;
  mret (intentView current).

Definition expire_intent (i : UploadIntentState) (nowMs : Z) : UploadIntentState :=
  i <| in_status := intent_expired |> <| in_updatedAt := nowMs |>.

Definition getIntent (id : string) (caller : DurableUploadCaller) (nowMs : number)
    : M S DurableUploadIntentView :=
  lift (assertCaller caller);;
  lift (assertBoundedIdentity id "intentId");;
  lift (assertTime nowMs);;
  let now := to_Z nowMs in
  '(i, rev) ← readIntent id caller;
  if bool_decide (in_status i = pending) && (in_expiresAt i <=? now)%Z then
    let expired := expire_intent i now in
    saved ← cas (intentKey id) rev (write (intent_json expired) now None);
    match saved with
    | Updated r => '(i', _) ← lift (decodeIntent r); mret (intentView i')
    | _ => mret (intentView expired)
    end
  else mret (intentView i).

(** *** Finalization *)

Definition validateFinalBytes (i : UploadIntentState) (input : FinalizeDurableUploadInput)
    (digest : string) : result unit :=
  throw_if (negb (byteLength (fi_bytes input) =? in_declaredSize i)%Z)
    (uploadError "Uploaded byte size does not match the declared size");;
  throw_if (negb (bool_decide (fi_observedMime input = in_declaredMime i)))
    (uploadError "Observed MIME type does not match the declared MIME type");;
  throw_if (match in_expectedDigest i with
            | Some d => negb (bool_decide (d = digest)) | None => false end)
    (uploadError "Uploaded content hash does not match expectedDigest");;
  throw_if (bool_decide (in_status i = finalized) &&
            negb (bool_decide (fin_contentHash <$> in_finalization i = Some digest)))
    (uploadError "Finalized upload cannot be replayed with different content").

Definition new_finalization (i : UploadIntentState) (digest : string) (size nowMs : Z)
    : FinalizationState :=
  let refId := refFor i digest in
  {| fin_refId := refId; fin_contentHash := digest; fin_byteSize := size;
     fin_blobKey := blobKey i refId digest; fin_createdAt := nowMs;
     fin_expiresAt := nowMs + in_artifactTtlMs i |}.

Definition finalization_conflict : thrown :=
  upstreamError "Upload finalization conflicted; retry" true.

(** A pending intent is claimed for these bytes; one being finalized goes on. *)
Definition claim_finalization (id : string) (current : UploadIntentState * Z) (digest : string)
    (size nowMs : Z) : M S (UploadIntentState * Z) :=
  let '(i, rev) := current in
  if bool_decide (in_status i = pending) then
    let finalization := new_finalization i digest size nowMs in
    let next := i <| in_status := finalizing |> <| in_finalization := Some finalization |>
                  <| in_updatedAt := nowMs |> in
    claimed ← cas (intentKey id) rev (write (intent_json next) nowMs (Some (fin_expiresAt finalization)));
    match claimed with
    | Updated r => lift (decodeIntent r)
    | _ => throw finalization_conflict
    end
  else mret current.

Definition put_stat (r : ImmutableBlobPutResult) : option ImmutableBlobStat :=
  match r with BlobCreated st | BlobExists st => Some st | BlobConflict _ => None end.

(** The blob is there with this owner, digest and size. *)
Definition put_ok (r : ImmutableBlobPutResult) (owner digest : string) (size : Z) : bool :=
  match put_stat r with
  | Some st => bool_decide (stat_ownerId st = owner) && bool_decide (stat_digest st = digest) &&
               (stat_byteSize st =? size)%Z
  | None => false
  end.

Definition new_artifact (i : UploadIntentState) (f : FinalizationState) (digest : string)
    (size nowMs : Z) : ArtifactState :=
  {| art_refId := fin_refId f; art_ownerId := in_ownerId i;
     art_credentialBinding := in_credentialBinding i; art_contentHash := digest;
     art_byteSize := size; art_mimeType := in_declaredMime i; art_filename := in_filename i;
     art_blobKey := fin_blobKey f; art_createdAt := fin_createdAt f; art_updatedAt := nowMs;
     art_expiresAt := fin_expiresAt f; art_status := active; art_cleanupReason := None |}.

Definition create_artifact (a : ArtifactState) : M S unit :=
  created ← sanitizedStorageCall (ds_createIfAbsent
    {| new_key := artifactKey (art_refId a);
       new_update := write (artifact_json a) (art_createdAt a) (Some (art_expiresAt a)) |});
  '(durable, _) ← lift (decodeArtifact (created_record created));
  lift (throw_if (negb (sameArtifact durable a))
    (upstreamError "Immutable artifact metadata conflict" false)).

(** The intent is marked finalized, or somebody else has done so. *)
Definition settle_intent (id : string) (current : UploadIntentState * Z) (f : FinalizationState)
    (digest : string) (nowMs : Z) : M S DurableSourceArtifactRef :=
  let '(i, rev) := current in
  let next := i <| in_status := finalized |> <| in_updatedAt := nowMs |> in
  saved ← cas (intentKey id) rev (write (intent_json next) nowMs (Some (fin_expiresAt f)));
  match saved with
  | Updated _ => mret (finalizationRef f (in_ownerId i))
  | Conflict r =>
      '(raced, _) ← lift (decodeIntent r);
      if bool_decide (in_status raced = finalized) &&
         bool_decide (fin_contentHash <$> in_finalization raced = Some digest)
      then mret (finalizationRef f (in_ownerId i))
      else throw finalization_conflict
  | Missing => throw finalization_conflict
  end.

(** The claimed intent's bytes, its artifact, and the intent itself. *)
Definition publish (input : FinalizeDurableUploadInput) (current : UploadIntentState * Z)
    (digest : string) (size nowMs : Z) : M S DurableSourceArtifactRef :=
  let i := current.1 in
  match in_finalization i with
  | Some f =>
      if bool_decide (fin_contentHash f = digest) && (fin_byteSize f =? size)%Z then
        put ← sanitizedStorageCall
                (blob_putIfAbsent (fin_blobKey f) (in_ownerId i) digest (fi_bytes input));
        lift (throw_if (negb (put_ok put (in_ownerId i) digest size))
          (upstreamError "Immutable artifact identity conflict" false));;
        create_artifact (new_artifact i f digest size nowMs);;
        settle_intent (fi_intentId input) current f digest nowMs
      else throw (uploadError "Upload finalization is already bound to different content")
  | None => throw (uploadError "Upload finalization is already bound to different content")
  end.

Definition upload_expired : thrown := uploadError "Upload intent has expired".

Definition finalize (input : FinalizeDurableUploadInput) (caller : DurableUploadCaller)
    : M S DurableSourceArtifactRef :=
  lift (assertCaller caller);;
  lift (assertBoundedIdentity (fi_intentId input) "intentId");;
  lift (assertTime (fi_nowMs input));;
  lift (assertMime (fi_observedMime input) "observedMime");;
  let now := to_Z (fi_nowMs input) in
  let digest := contentDigest (fi_bytes input) in
  let size := byteLength (fi_bytes input) in
  '(i, rev) ← readIntent (fi_intentId input) caller;
  if bool_decide (in_status i = intent_expired) then throw upload_expired
  else if bool_decide (in_status i = pending) && (in_expiresAt i <=? now)%Z then
    cas (intentKey (fi_intentId input)) rev (write (intent_json (expire_intent i now)) now None);;
    throw upload_expired
  else
    lift (validateFinalBytes i input digest);;
    if bool_decide (in_status i = finalized) then
      match in_finalization i with
      | Some f =>
          if bool_decide (fin_contentHash f = digest) then mret (finalizationRef f (in_ownerId i))
          else throw (uploadError "Finalized upload cannot be replayed with different content")
      | None => throw (uploadError "Finalized upload cannot be replayed with different content")
      end
    else
      current ← claim_finalization (fi_intentId input) (i, rev) digest size now;
      publish input current digest size now.

(** *** Reading and deleting artifacts *)

Definition artifact_unavailable : thrown := uploadError "Unknown or unavailable artifact".

Definition set_artifact (a : ArtifactState) (st : ArtifactStatus) (why : option CleanupReason)
    (nowMs : Z) : ArtifactState :=
  a <| art_status := st |> <| art_cleanupReason := why |> <| art_updatedAt := nowMs |>.

Definition retry_at (nowMs : Z) : option Z := Some (nowMs + CLEANUP_RETRY_DELAY_MS)%Z.

Definition readArtifact (refId : string) (caller : DurableUploadCaller) (nowMs maxBytes : number)
    : M S DurableArtifactRead :=
  lift (assertCaller caller);;
  lift (assertBoundedIdentity refId "refId");;
  lift (assertTime nowMs);;
  lift (throw_if (negb (isSafeInteger maxBytes) || num_ltb maxBytes (int 1) ||
                  num_ltb (int MAX_IMMUTABLE_BLOB_BYTES) maxBytes)
    (uploadError ("maxBytes must be 1.." +:+ show MAX_IMMUTABLE_BLOB_BYTES)));;
  let now := to_Z nowMs in
  '(a, rev) ← readArtifactState refId caller;
  lift (throw_if (bool_decide (art_status a = deleted) ||
                  bool_decide (art_status a = physical_cleanup_pending)) artifact_unavailable);;
  if bool_decide (art_status a = expired) || (art_expiresAt a <=? now)%Z then
    (if bool_decide (art_status a = active) then
       cas (artifactKey refId) rev
         (write (artifact_json (set_artifact a expired None now)) now (retry_at now));;
       mret tt
     else mret tt : M S unit);;
    throw (uploadError "Artifact has expired")
  else
    lift (throw_if (to_Z maxBytes <? art_byteSize a)%Z
      (gerror OUTPUT_LIMIT "durable-upload" "Artifact exceeds the requested read limit" false));;
    found ← sanitizedStorageCall
              (blob_get (art_blobKey a) (art_ownerId a) (art_contentHash a) (to_Z maxBytes));
    match found with
    | None => throw storageError
    | Some content =>
        '(latest, rev') ← readArtifactState refId caller;
        lift (throw_if (negb (rev' =? rev)%Z || negb (bool_decide (art_status latest = active)))
          artifact_unavailable);;
        mret {| read_ref := artifactRef a; read_bytes := content; read_mimeType := art_mimeType a;
                read_filename := art_filename a |}
    end.

Definition deletion_conflict : thrown := upstreamError "Artifact deletion conflicted; retry" true.

(** The record as deleted, by this call or another. *)
Definition mark_deleted (refId : string) (current : ArtifactState * Z) (nowMs : Z)
    : M S (ArtifactState * Z) :=
  let '(a, rev) := current in
  if bool_decide (art_status a = deleted) then mret current
  else
    saved ← cas (artifactKey refId) rev
      (write (artifact_json (set_artifact a deleted None nowMs)) nowMs (retry_at nowMs));
    current' ← (match saved with
                | Conflict r | Updated r => lift (decodeArtifact r)
                | Missing => throw deletion_conflict
                end : M S (ArtifactState * Z));
    lift (throw_if (negb (bool_decide (art_status current'.1 = deleted))) deletion_conflict);;
    mret current'.

Definition deleteArtifact (refId : string) (caller : DurableUploadCaller) (nowMs : number) : M S unit :=
  lift (assertCaller caller);;
  lift (assertBoundedIdentity refId "refId");;
  lift (assertTime nowMs);;
  let now := to_Z nowMs in
  read ← readArtifactState refId caller;
  '(a, rev) ← mark_deleted refId read now;
  revokeArtifactSource a was_deleted now;;
  removed ← sanitizedStorageCall (blob_deleteIfOwner (art_blobKey a) (art_ownerId a));
  lift (throw_if (bool_decide (removed = OwnerMismatch))
    (upstreamError "Artifact storage operation failed" false));;
  cas (artifactKey refId) rev (write (artifact_json (a <| art_updatedAt := now |>)) now None);;
  mret tt.

(** *** Scheduled cleanup *)

(** [{ logicallyRevoked, physicallyDeleted, retryPending }] *)
Record CleanupCounts := { n_revoked : Z; n_deleted : Z; n_retry : Z }.

Definition counts (revoked removed retry : Z) : CleanupCounts :=
  {| n_revoked := revoked; n_deleted := removed; n_retry := retry |}.

(** The blob is removed and the record settled; a failure to remove it is
    tried again later. *)
Definition remove_blob (key owner : string) : M S (option BlobDeleteResult) :=
  removed ← attempt (blob_deleteIfOwner key owner);
  mret (match removed with inl OwnerMismatch | inr _ => None | inl r => Some r end).

Definition removed_count (r : BlobDeleteResult) : Z := if bool_decide (r = BlobDeleted) then 1 else 0.

(** The revocation an artifact's status calls for. *)
Definition revocation_reason (a : ArtifactState) : option CleanupReason :=
  match art_status a with
  | physical_cleanup_pending => art_cleanupReason a
  | expired => Some was_expired
  | deleted => Some was_deleted
  | active => None
  end.

(** [status: reason]: the status a cleanup started from. *)
Definition reason_status (r : CleanupReason) : ArtifactStatus :=
  match r with was_expired => expired | was_deleted => deleted end.

(** The physical half, once the record is claimed for cleanup. *)
Definition finish_cleanup (key : string) (current : ArtifactState * Z) (revoked nowMs : Z)
    : M S CleanupCounts :=
  let '(a, rev) := current in
  removed ← remove_blob (art_blobKey a) (art_ownerId a);
  match removed, art_cleanupReason a with
  | None, _ | _, None => mret (counts revoked 0 1)
  | Some r, Some reason =>
      saved ← ds_compareAndSwap key rev
        (write (artifact_json (set_artifact a (reason_status reason) None nowMs)) nowMs None);
      mret (match saved with
            | Updated _ => counts revoked (removed_count r) 0
            | _ => counts revoked (removed_count r) 1
            end)
  end.

(** The claim: [physical_cleanup_pending] with the reason, or again. *)
Definition claim_cleanup (key : string) (current : ArtifactState * Z) (nowMs : Z)
    : M S (option (ArtifactState * Z)) :=
  let '(a, rev) := current in
  let next := if bool_decide (art_status a = physical_cleanup_pending)
              then a <| art_updatedAt := nowMs |>
              else set_artifact a physical_cleanup_pending (revocation_reason a) nowMs in
  claimed ← ds_compareAndSwap key rev (write (artifact_json next) nowMs (retry_at nowMs));
  match claimed with
  | Updated r => current' ← lift (decodeArtifact r); mret (Some current')
  | _ => mret None
  end.

Definition expire_artifact (key : string) (current : ArtifactState * Z) (nowMs : Z)
    : M S (option (ArtifactState * Z * Z)) :=
  let '(a, rev) := current in
  if bool_decide (art_status a = active) then
    revoked ← ds_compareAndSwap key rev
      (write (artifact_json (set_artifact a expired None nowMs)) nowMs (retry_at nowMs));
    match revoked with
    | Updated r => current' ← lift (decodeArtifact r); mret (Some (current', 1%Z))
    | _ => mret None
    end
  else mret (Some (current, 0%Z)).

Definition cleanupArtifactRecord (record : DurableRecord) (nowMs : Z) : M S CleanupCounts :=
  first ← lift (decodeArtifact record);
  expired_now ← expire_artifact (rec_key record) first nowMs;
  match expired_now with
  | None => mret (counts 0 0 1)
  | Some (current, revoked) =>
      (match revocation_reason current.1 with
       | Some reason => revokeArtifactSource current.1 reason nowMs
       | None => mret tt
       end : M S unit);;
      if bool_decide (art_status current.1 = active) then mret (counts revoked 0 0)
      else
        claimed ← claim_cleanup (rec_key record) current nowMs;
        match claimed with
        | None => mret (counts revoked 0 1)
        | Some current' => finish_cleanup (rec_key record) current' revoked nowMs
        end
  end.

(** The blob of an intent that expired while it was being finalized. *)
Definition cleanup_intent_blob (record : DurableRecord) (current : UploadIntentState * Z) (nowMs : Z)
    : M S CleanupCounts :=
  let '(i, rev) := current in
  match in_finalization i, rec_expiresAt record with
  | None, _ | _, None => mret (counts 0 0 0)
  | Some f, Some _ =>
      removed ← remove_blob (fin_blobKey f) (in_ownerId i);
      match removed with
      | None => mret (counts 0 0 1)
      | Some r =>
          saved ← ds_compareAndSwap (rec_key record) rev
            (write (intent_json (i <| in_updatedAt := nowMs |>)) nowMs None);
          mret (match saved with
                | Updated _ => counts 0 (removed_count r) 0
                | _ => counts 0 (removed_count r) 1
                end)
      end
  end.

Definition cleanupIntentRecord (record : DurableRecord) (nowMs : Z) : M S CleanupCounts :=
  '(i, rev) ← lift (decodeIntent record);
  if bool_decide (in_status i = intent_expired) then cleanup_intent_blob record (i, rev) nowMs
  else
    let needsBlobCleanup := bool_decide (in_status i = finalizing) &&
                            bool_decide (is_Some (in_finalization i)) in
    revoked ← ds_compareAndSwap (rec_key record) rev
      (write (intent_json (expire_intent i nowMs)) nowMs
         (if needsBlobCleanup then retry_at nowMs else None));
    match revoked with
    | Updated r =>
        current ← lift (decodeIntent r);
        if needsBlobCleanup then cleanup_intent_blob record current nowMs
        else mret (counts 1 0 0)
    | _ => mret (counts 0 0 1)
    end.

Definition cleanup_record (record : DurableRecord) (nowMs : Z) : M S (option CleanupCounts) :=
  if startsWith (rec_key record) "upload-artifact:" then
    c ← cleanupArtifactRecord record nowMs; mret (Some c)
  else if startsWith (rec_key record) "upload-intent:" then
    c ← cleanupIntentRecord record nowMs; mret (Some c)
  else mret None.

(** The loop over the page: a failed record is counted and named. *)
Fixpoint cleanup_records (records : list DurableRecord) (nowMs : Z) (acc : CleanupCounts)
    (failed : list string) : M S (CleanupCounts * list string) :=
  match records with
  | [] => mret (acc, failed)
  | record :: rest =>
      outcome ← attempt (cleanup_record record nowMs);
      match outcome with
      | inl (Some c) =>
          cleanup_records rest nowMs
            (counts (n_revoked acc + n_revoked c) (n_deleted acc + n_deleted c)
               (n_retry acc + n_retry c)) failed
      | inl None => cleanup_records rest nowMs acc (failed ++ [rec_key record])
      | inr _ =>
          cleanup_records rest nowMs (counts (n_revoked acc) (n_deleted acc) (n_retry acc + 1))
            (failed ++ [rec_key record])
      end
  end.

Definition cleanupExpiredPage (nowMs : number) (cursor : option string) (limit : number)
    : M S DurableUploadCleanupPage :=
  lift (assertTime nowMs);;
  lift (throw_if (match cursor with
                  | Some c => (str_length c =? 0)%Z || (240 <? str_length c)%Z | None => false end)
    (uploadError "Cleanup cursor is invalid"));;
  lift (throw_if (negb (isSafeInteger limit) || num_ltb limit (int 1) || num_ltb (int 100) limit)
    (uploadError "Cleanup page limit must be 1..100"));;
  page ← sanitizedStorageCall (ds_scanExpired nowMs cursor (to_Z limit));
  '(c, failed) ← cleanup_records (page_records page) (to_Z nowMs) (counts 0 0 0) [];
  mret {| scanned := Z.of_nat (length (page_records page)); logicallyRevoked := n_revoked c;
          physicallyDeleted := n_deleted c; retryPending := n_retry c; failures := failed;
          up_nextCursor := nextCursor page |}.
End service.
