(* ===== verification/DurableUploadSafety.v ===== *)
(** * Correctness of the durable upload service

    Under any interleaving with other workers of the service, and whatever
    calls fail: records of intents and artifacts only move forward, what is
    read is what was finalized, and a finalized intent has one reference. *)

From S2P Require Import Prelude Interference JsString JsMap Digest Json DurableStore DurableUpload.

(** ** Records round-trip *)

Lemma record_decode_encode {A} of_json consistent (r : DurableRecord) (v : js_value) (a : A) :
  value r = encode v → json_exact v = true → isObject v = true → of_json v = Some a →
  consistent (rec_key r) a = true → decode of_json consistent r = Ok (a, revision r).
Proof.
  intros Hv Hx Ho Ha Hc. unfold decode. rewrite Hv. unfold encode.
  by rewrite JSON_parse_exact, Ho, Ha, Hc by done.
Qed.

Lemma decode_Ok {A} (of_json : js_value → option A) consistent r a rev :
  decode of_json consistent r = Ok (a, rev) → rev = revision r ∧ consistent (rec_key r) a = true.
Proof.
  unfold decode. destruct (JSON_parse _) as [v|]; [|done].
  destruct (if isObject v then of_json v else None) as [a'|]; [|done].
  intros (_ & Hc%throw_if_Ok%negb_false_iff & [= <- <-])%result_bind_Ok. done.
Qed.

Lemma intent_json_ok i : json_exact (intent_json i) = true ∧ intent_of_json (intent_json i) = Some i.
Proof.
  destruct i as [? ? ? ? ? ? ? ? [d|] ? ? st [f|] ? ?], st; try destruct f; done.
Qed.

Lemma artifact_json_ok a :
  json_exact (artifact_json a) = true ∧ artifact_of_json (artifact_json a) = Some a.
Proof. destruct a as [? ? ? ? ? ? ? ? ? ? ? st [why|]], st; try destruct why; done. Qed.

Lemma decodeIntent_encode r i :
  value r = encode (intent_json i) → intent_consistent (rec_key r) i = true →
  decodeIntent r = Ok (i, revision r).
Proof. intros Hv Hc. destruct (intent_json_ok i). by eapply record_decode_encode. Qed.

Lemma decodeArtifact_encode r a :
  value r = encode (artifact_json a) → artifact_consistent (rec_key r) a = true →
  decodeArtifact r = Ok (a, revision r).
Proof. intros Hv Hc. destruct (artifact_json_ok a). by eapply record_decode_encode. Qed.

(** ** How the records evolve *)

Definition rank (st : DurableUploadIntentStatus) : nat :=
  match st with pending => 0 | finalizing => 1 | finalized => 2 | intent_expired => 3 end.

Record intent_step (i i' : UploadIntentState) : Prop := {
  istep_identity :
    (in_intentId i', in_ownerId i', in_credentialBinding i', in_idempotencyKey i',
     in_requestFingerprint i', in_declaredMime i', in_declaredSize i', in_filename i',
     in_expectedDigest i', in_expiresAt i', in_artifactTtlMs i', in_createdAt i') =
    (in_intentId i, in_ownerId i, in_credentialBinding i, in_idempotencyKey i,
     in_requestFingerprint i, in_declaredMime i, in_declaredSize i, in_filename i,
     in_expectedDigest i, in_expiresAt i, in_artifactTtlMs i, in_createdAt i);
  istep_status : rank (in_status i) ≤ rank (in_status i');
  istep_finalization f : in_finalization i = Some f → in_finalization i' = Some f
}.

Record artifact_step (a a' : ArtifactState) : Prop := {
  astep_identity :
    (art_refId a', art_ownerId a', art_credentialBinding a', art_contentHash a', art_byteSize a',
     art_mimeType a', art_filename a', art_blobKey a', art_createdAt a', art_expiresAt a') =
    (art_refId a, art_ownerId a, art_credentialBinding a, art_contentHash a, art_byteSize a,
     art_mimeType a, art_filename a, art_blobKey a, art_createdAt a, art_expiresAt a);
  astep_revoked : art_status a ≠ active → art_status a' ≠ active
}.

Inductive rec_step (r r' : DurableRecord) : Prop :=
  | intent_moves i i' :
      decodeIntent r = Ok (i, revision r) → decodeIntent r' = Ok (i', revision r') →
      intent_step i i' → rec_step r r'
  | artifact_moves a a' :
      decodeArtifact r = Ok (a, revision r) → decodeArtifact r' = Ok (a', revision r') →
      artifact_step a a' → rec_step r r'.

(** A record stays as it is, or has a higher revision that steps reached. *)
Definition rec_evolves (r r' : DurableRecord) : Prop :=
  r' = r ∨ (revision r < revision r')%Z ∧ rec_step r r'.

Definition upload_key (k : string) : Prop :=
  startsWith k "upload-intent:" = true ∨ startsWith k "upload-artifact:" = true.

Section finalizations.
Context `{!Sha256Api}.

(** The finalization of an intent is made of the intent and the content. *)
Record fin_ok (i : UploadIntentState) (f : FinalizationState) : Prop := {
  fin_size : fin_byteSize f = in_declaredSize i;
  fin_ref : fin_refId f = refFor i (fin_contentHash f);
  fin_blob : fin_blobKey f = blobKey i (fin_refId f) (fin_contentHash f);
  fin_lifetime : fin_expiresAt f = (fin_createdAt f + in_artifactTtlMs i)%Z;
  fin_digest d : in_expectedDigest i = Some d → fin_contentHash f = d
}.

(** Records are stored under their keys, and intents are well formed. *)
Record store_ok (m : memory) : Prop := {
  store_keys : map_ok m;
  store_keyed k r : map_get k m = Some r → rec_key r = k;
  store_intents k r i rev f : map_get k m = Some r → decodeIntent r = Ok (i, rev) →
    in_finalization i = Some f → fin_ok i f
}.

(** What a worker of the service may do to the records. *)
Record upload_env (m m' : memory) : Prop := {
  env_ok : store_ok m → store_ok m';
  env_evolves k r : upload_key k → map_get k m = Some r →
    ∃ r', map_get k m' = Some r' ∧ rec_evolves r r'
}.
End finalizations.

Lemma intent_step_refl i : intent_step i i.
Proof. by split. Qed.

Lemma intent_step_trans i1 i2 i3 : intent_step i1 i2 → intent_step i2 i3 → intent_step i1 i3.
Proof. intros [I1 S1 F1] [I2 S2 F2]. split; [congruence|lia|auto]. Qed.

Lemma artifact_step_trans a1 a2 a3 : artifact_step a1 a2 → artifact_step a2 a3 → artifact_step a1 a3.
Proof. intros [I1 S1] [I2 S2]. split; [congruence|auto]. Qed.

Lemma keys_differ r i a rev rev' :
  decodeIntent r = Ok (i, rev) → decodeArtifact r = Ok (a, rev') → False.
Proof.
  intros [_ Hi]%decode_Ok [_ Ha]%decode_Ok.
  apply andb_true_iff in Hi as [Hi%bool_decide_eq_true _].
  apply andb_true_iff in Ha as [Ha%bool_decide_eq_true _]. rewrite Hi in Ha.
  apply (f_equal chars) in Ha. unfold intentKey, artifactKey in Ha. by rewrite !chars_app in Ha.
Qed.

Lemma rec_step_trans r1 r2 r3 : rec_step r1 r2 → rec_step r2 r3 → rec_step r1 r3.
Proof.
  intros [i1 i2 D1 D2 S1|a1 a2 D1 D2 S1] [i2' i3 D2' D3 S2|a2' a3 D2' D3 S2].
  - eapply intent_moves; [done..|]. rewrite D2 in D2'. injection D2' as <-. by eapply intent_step_trans.
  - by destruct (keys_differ _ _ _ _ _ D2 D2').
  - by destruct (keys_differ _ _ _ _ _ D2' D2).
  - eapply artifact_moves; [done..|]. rewrite D2 in D2'. injection D2' as <-.
    by eapply artifact_step_trans.
Qed.

Lemma rec_evolves_trans r1 r2 r3 : rec_evolves r1 r2 → rec_evolves r2 r3 → rec_evolves r1 r3.
Proof.
  intros [->|[L1 S1]] [->|[L2 S2]]; unfold rec_evolves; auto.
  right. split; [lia|]. by eapply rec_step_trans.
Qed.

Section env.
Context `{!Sha256Api}.

Lemma upload_env_refl m : upload_env m m.
Proof. split; [done|]. intros k r _ Hr. exists r. split; [done|by left]. Qed.

Lemma upload_env_trans m1 m2 m3 : upload_env m1 m2 → upload_env m2 m3 → upload_env m1 m3.
Proof.
  intros [O1 E1] [O2 E2]. split; [auto|]. intros k r Hk (r' & Hr' & Hev)%E1; [|done].
  destruct (E2 k r' Hk Hr') as (r'' & Hr'' & Hev'). exists r''. split; [done|].
  by eapply rec_evolves_trans.
Qed.

(** A write of one record that is a step of it, or a new one. *)
Lemma upload_env_set m k r :
  store_ok m → rec_key r = k →
  (∀ i rev f, decodeIntent r = Ok (i, rev) → in_finalization i = Some f → fin_ok i f) →
  (∀ r0, upload_key k → map_get k m = Some r0 → rec_evolves r0 r) →
  upload_env m (map_set k r m).
Proof.
  intros [Hk Hkeyed Hi] Hr Hfin Hev. split.
  - intros _. split; [by apply map_ok_set|..].
    + intros k' r'. rewrite map_get_set. case_decide as Hkk; [|by apply Hkeyed].
      intros [= <-]. by subst.
    + intros k' r' i rev f. rewrite map_get_set. case_decide as Hkk; [|by apply Hi].
      intros [= <-]. apply Hfin.
  - intros k' r' Hup Hr'. rewrite map_get_set. case_decide as Hkk.
    + subst k'. exists r. split; [done|]. by apply Hev.
    + exists r'. split; [done|by left].
Qed.
End env.

#[export] Instance upload_evolution `{!Sha256Api} : Evolution memory := {
  good := store_ok;
  evolves := upload_env;
  evolves_refl := upload_env_refl;
  evolves_trans := upload_env_trans;
  evolves_good m m' He := env_ok m m' He
}.

(** ** What is known of a record

    A record that was read is still there, or what its steps made of it. *)

Section known.
Context `{!Sha256Api}.

Definition well_finalized (r : DurableRecord) : Prop :=
  ∀ i rev f, decodeIntent r = Ok (i, rev) → in_finalization i = Some f → fin_ok i f.

Record known (r : DurableRecord) (m : memory) : Prop := {
  known_key : upload_key (rec_key r);
  known_ok : well_finalized r;
  known_now : ∃ r', map_get (rec_key r) m = Some r' ∧ rec_evolves r r'
}.

Lemma known_stable r : stable (known r).
Proof.
  intros m m' [_ He] [Hk Hok (r' & Hr' & Hev)]. split; [done..|].
  destruct (He _ _ Hk Hr') as (r'' & Hr'' & Hev'). exists r''. split; [done|].
  by eapply rec_evolves_trans.
Qed.

Lemma known_current m k r : store_ok m → upload_key k → map_get k m = Some r → known r m.
Proof.
  intros Hok Hk Hr. pose proof (store_keyed _ Hok k r Hr) as <-. split; [done|..].
  - intros i rev f. by eapply store_intents.
  - exists r. split; [done|by left].
Qed.

(** A known record with the revision in the store is the record there. *)
Lemma known_same r m r' :
  known r m → map_get (rec_key r) m = Some r' → revision r' = revision r → r' = r.
Proof. intros [_ _ (r'' & -> & [->|[Hlt _]])] [= <-] Hrev; [done|lia]. Qed.

Definition intent_at (k : string) (current : UploadIntentState * Z) (m : memory) : Prop :=
  ∃ r, rec_key r = k ∧ decodeIntent r = Ok current ∧ known r m.

Definition artifact_at (k : string) (current : ArtifactState * Z) (m : memory) : Prop :=
  ∃ r, rec_key r = k ∧ decodeArtifact r = Ok current ∧ known r m.

Lemma intent_at_stable k c : stable (intent_at k c).
Proof. intros m m' He (r & Hk & Hd & Hr). exists r. split_and!; [done..|]. by eapply known_stable. Qed.

Lemma artifact_at_stable k c : stable (artifact_at k c).
Proof. intros m m' He (r & Hk & Hd & Hr). exists r. split_and!; [done..|]. by eapply known_stable. Qed.

(** The finalization of an intent, once there, is the one. *)
Definition bound (k : string) (f : FinalizationState) (owner : string) (m : memory) : Prop :=
  ∃ r i, map_get k m = Some r ∧ upload_key k ∧ decodeIntent r = Ok (i, revision r) ∧
    in_finalization i = Some f ∧ in_ownerId i = owner ∧ fin_ok i f.

Lemma fin_ok_step i i' f : intent_step i i' → fin_ok i f → fin_ok i' f.
Proof.
  intros [Hid _ _] [? Href ? ? ?]. injection Hid as Hid Ho Hc _ _ _ Hs _ Hd _ Ht _.
  split; rewrite ?Hs, ?Ht, ?Hd; try done.
  - unfold refFor in *. by rewrite Hid.
  - unfold blobKey in *. by rewrite Ho, Hc.
Qed.

Lemma intent_evolves r r' i rev :
  decodeIntent r = Ok (i, rev) → rec_evolves r r' →
  ∃ i', decodeIntent r' = Ok (i', revision r') ∧ intent_step i i'.
Proof.
  intros Hd [->|[_ [i1 i' D1 D2 Hs|a1 a' D1 D2 Hs]]].
  - exists i. destruct (decode_Ok _ _ _ _ _ Hd) as [-> _]. split; [done|apply intent_step_refl].
  - rewrite D1 in Hd. injection Hd as -> _. by exists i'.
  - by destruct (keys_differ _ _ _ _ _ Hd D1).
Qed.

Lemma artifact_evolves r r' a rev :
  decodeArtifact r = Ok (a, rev) → rec_evolves r r' →
  ∃ a', decodeArtifact r' = Ok (a', revision r') ∧ artifact_step a a'.
Proof.
  intros Hd [->|[_ [i1 i' D1 D2 Hs|a1 a' D1 D2 Hs]]].
  - exists a. destruct (decode_Ok _ _ _ _ _ Hd) as [-> _]. split; [done|by split].
  - by destruct (keys_differ _ _ _ _ _ D1 Hd).
  - rewrite D1 in Hd. injection Hd as -> _. by exists a'.
Qed.

Lemma intent_at_bound k i rev f m :
  intent_at k (i, rev) m → in_finalization i = Some f → bound k f (in_ownerId i) m.
Proof.
  intros (r & <- & Hd & [Hk Hok (r' & Hr' & Hev)]) Hf.
  destruct (intent_evolves _ _ _ _ Hd Hev) as (i' & Hd' & Hs).
  pose proof (fin_ok_step _ _ _ Hs (Hok _ _ _ Hd Hf)) as Hfin.
  destruct Hs as [Hid _ Hfin']. exists r', i'. split_and!; auto. by injection Hid.
Qed.

Lemma intent_at_fin_ok k i rev f m : intent_at k (i, rev) m → in_finalization i = Some f → fin_ok i f.
Proof. intros (r & _ & Hd & [_ Hok _]) Hf. by eapply Hok. Qed.

Lemma bound_stable k f owner : stable (bound k f owner).
Proof.
  intros m m' [_ He] (r & i & Hr & Hk & Hd & Hf & Ho & Hok).
  destruct (He _ _ Hk Hr) as (r' & Hr' & Hev).
  destruct (intent_evolves _ _ _ _ Hd Hev) as (i' & Hd' & Hs).
  pose proof (fin_ok_step _ _ _ Hs Hok).
  destruct Hs as [Hid _ Hfin']. exists r', i'. split_and!; auto. injection Hid. congruence.
Qed.

Lemma bound_unique k f f' owner owner' m :
  bound k f owner m → bound k f' owner' m → f' = f ∧ owner' = owner.
Proof.
  intros (r & i & Hr & _ & Hd & Hf & Ho & _) (r' & i' & Hr' & _ & Hd' & Hf' & Ho' & _).
  rewrite Hr in Hr'. injection Hr' as <-. rewrite Hd in Hd'. injection Hd' as <-.
  split; congruence.
Qed.
End known.

(** ** The operations of the store *)

Section moves.
Context {S : Type} `{!Sha256Api} `{!DurableRecordStorePort S} (view : S → memory)
  (env : memory → memory → Prop) `{Laws : !DurableStoreLaws view env}
  (Henv : ∀ m m', env m m' → upload_env m m').
Notation moves := (moves view).

Lemma moves_sanitized {A} K (c : M S A) Q : moves K c Q → moves K (sanitizedStorageCall c) Q.
Proof. apply moves_catch. intros e. destruct e; apply moves_throw. Qed.

Lemma moves_get K k :
  stable K → upload_key k →
  moves K (ds_get k) (λ o m, ∀ r, o = Some r → rec_key r = k ∧ known r m ∧ map_get k m = Some r).
Proof.
  intros HK Hk. eapply (moves_atomic view env); [exact Henv|done|apply get_atomic|]. intros m Hok _.
  destruct (mem_get_spec k m) as [-> [[e ->]| ->]]; (split; [apply upload_env_refl|]); [done|].
  intros r Hr. split; [by eapply store_keyed|]. split; [by eapply known_current|done].
Qed.

(** A conditional write of a known record. *)
Lemma moves_cas (K : memory → Prop) r u :
  stable K → (∀ m, K m → known r m) → well_finalized (updated_record r u) →
  rec_step r (updated_record r u) →
  moves K (ds_compareAndSwap (rec_key r) (revision r) u)
    (λ o m, match o with
            | Updated r' => r' = updated_record r u ∧ known r' m
            | Conflict r' => rec_key r' = rec_key r ∧ known r' m
            | Missing => True
            end).
Proof.
  intros HK HKr Hok' Hs. eapply (moves_atomic view env); [exact Henv|done|apply cas_atomic|]. intros m Hok Hm.
  pose proof (HKr m Hm) as Hr. pose proof (known_key _ _ Hr) as Hk.
  destruct (mem_cas_spec (rec_key r) (revision r) u m) as [[-> Hres]|(r' & Hr' & Hrev & -> & ->)].
  - split; [apply upload_env_refl|].
    destruct Hres as [[e ->]|[[_ ->]|(r' & Hr' & _ & ->)]]; [done..|].
    split; [by eapply store_keyed|by eapply known_current].
  - assert (r' = r) as -> by (by eapply known_same).
    assert (He : upload_env m (map_set (rec_key r) (updated_record r u) m)).
    { apply upload_env_set; [done..|]. intros r0 _ Hr0. rewrite Hr' in Hr0. injection Hr0 as <-.
      right. split; [cbn; lia|done]. }
    split; [done|]. split; [done|]. eapply known_current; [by eapply env_ok|exact Hk|].
    apply map_get_set_eq.
Qed.

Lemma moves_create K i :
  stable K → upload_key (new_key i) → well_finalized (new_record i) →
  moves K (ds_createIfAbsent i)
    (λ o m, rec_key (created_record o) = new_key i ∧ known (created_record o) m).
Proof.
  intros HK Hk Hw. eapply (moves_atomic view env); [exact Henv|done|apply create_atomic|]. intros m Hok _.
  destruct (mem_create_spec i m) as [[-> Hres]|(Hnone & -> & ->)].
  - split; [apply upload_env_refl|]. destruct Hres as [[e ->]|(r & Hr & ->)]; [done|].
    split; [by eapply store_keyed|by eapply known_current].
  - assert (He : upload_env m (map_set (new_key i) (new_record i) m)).
    { apply upload_env_set; [done..|]. intros r0 _ Hr0. by rewrite Hnone in Hr0. }
    split; [done|]. split; [done|]. eapply known_current; [by eapply env_ok|exact Hk|].
    apply map_get_set_eq.
Qed.
End moves.

(** *** Writes of intents and artifacts *)

Lemma intentKey_upload id : upload_key (intentKey id).
Proof. left. apply (startsWith_app "upload-intent:"). Qed.

Lemma artifactKey_upload id : upload_key (artifactKey id).
Proof. right. apply (startsWith_app "upload-artifact:"). Qed.

#[export] Hint Resolve intentKey_upload artifactKey_upload : groundlane.

Section writes.
Context {S : Type} `{!Sha256Api} `{!DurableRecordStorePort S} (view : S → memory)
  (env : memory → memory → Prop) `{Laws : !DurableStoreLaws view env}
  (Henv : ∀ m m', env m m' → upload_env m m').

(** What a conditional write leaves: the record written, or another one. *)
Definition intent_written (k : string) (i' : UploadIntentState) (o : DurableCasResult)
    (m : memory) : Prop :=
  match o with
  | Updated r => decodeIntent r = Ok (i', revision r) ∧ intent_at k (i', revision r) m
  | Conflict r => rec_key r = k ∧ known r m
  | Missing => True
  end.

Definition artifact_written (k : string) (a' : ArtifactState) (o : DurableCasResult)
    (m : memory) : Prop :=
  match o with
  | Updated r => decodeArtifact r = Ok (a', revision r) ∧ artifact_at k (a', revision r) m
  | Conflict r => rec_key r = k ∧ known r m
  | Missing => True
  end.

Definition intent_fits (i : UploadIntentState) : Prop :=
  match in_status i, in_finalization i with
  | pending, Some _ | finalizing, None | finalized, None => False
  | _, _ => True
  end.

Definition artifact_fits (a : ArtifactState) : Prop :=
  match art_status a, art_cleanupReason a with
  | physical_cleanup_pending, None => False
  | physical_cleanup_pending, Some _ => True
  | _, Some _ => False
  | _, None => True
  end.

Lemma intent_consistent_iff k i :
  intent_consistent k i = true ↔ k = intentKey (in_intentId i) ∧ intent_fits i.
Proof.
  unfold intent_consistent, intent_fits. rewrite andb_true_iff, bool_decide_eq_true.
  destruct (in_status i), (in_finalization i); naive_solver.
Qed.

Lemma artifact_consistent_iff k a :
  artifact_consistent k a = true ↔ k = artifactKey (art_refId a) ∧ artifact_fits a.
Proof.
  unfold artifact_consistent, artifact_fits. rewrite andb_true_iff, bool_decide_eq_true.
  destruct (art_status a), (art_cleanupReason a); naive_solver.
Qed.

Lemma intent_at_fits k i rev m : intent_at k (i, rev) m → intent_fits i.
Proof. intros (r & <- & [_ [_ Hc]%intent_consistent_iff]%decode_Ok & _). done. Qed.

Lemma artifact_at_fits k a rev m : artifact_at k (a, rev) m → artifact_fits a.
Proof. intros (r & <- & [_ [_ Hc]%artifact_consistent_iff]%decode_Ok & _). done. Qed.

Lemma artifact_written_stable k a' o : stable (artifact_written k a' o).
Proof.
  destruct o as [r|r|]; cbn; [| |apply stable_const].
  - apply stable_and; [apply stable_const|apply artifact_at_stable].
  - apply stable_and; [apply stable_const|apply known_stable].
Qed.

Lemma intent_written_stable k i' o : stable (intent_written k i' o).
Proof.
  destruct o as [r|r|]; cbn; [| |apply stable_const].
  - apply stable_and; [apply stable_const|apply intent_at_stable].
  - apply stable_and; [apply stable_const|apply known_stable].
Qed.

Lemma moves_write_intent (K : memory → Prop) k i rev i' now exp :
  stable K → (∀ m, K m → intent_at k (i, rev) m) → intent_fits i' →
  intent_step i i' → (∀ f, in_finalization i' = Some f → in_finalization i = Some f ∨ fin_ok i' f) →
  moves view K (ds_compareAndSwap k rev (write (intent_json i') now exp)) (intent_written k i').
Proof.
  intros HK HKi Hc Hs Hf. eapply moves_pick; [exact HKi|]. intros r.
  eapply (moves_pure view _ (rec_key r = k ∧ decodeIntent r = Ok (i, rev) ∧ well_finalized r));
    [by intros m (_ & ? & ? & [])|]. intros (<- & Hd & Hw).
  destruct (decode_Ok _ _ _ _ _ Hd) as [-> [Hk _]%intent_consistent_iff].
  set (u := write (intent_json i') now exp).
  assert (Hd' : decodeIntent (updated_record r u) = Ok (i', revision (updated_record r u)))
    by (apply decodeIntent_encode; [done|]; apply intent_consistent_iff; split;
        [etrans; [exact Hk|]; f_equal; by destruct Hs as [[=] _ _]|done]).
  eapply moves_mono; [| |apply (moves_cas view env Henv (known r) r u)].
  - intros m (_ & _ & _ & Hr). exact Hr.
  - intros [r'|r'|] m; cbn; [|done..]. intros [-> Hkn]. split; [done|]. by exists (updated_record r u).
  - apply known_stable.
  - done.
  - intros i1 rev1 f Hd1 Hf1. rewrite Hd' in Hd1. injection Hd1 as <- _.
    destruct (Hf f Hf1) as [Hold|]; [|done]. eapply fin_ok_step; [exact Hs|by eapply Hw].
  - by eapply intent_moves.
Qed.

Lemma artifact_well_finalized r a rev : decodeArtifact r = Ok (a, rev) → well_finalized r.
Proof. intros Ha i rev' f Hi. by destruct (keys_differ _ _ _ _ _ Hi Ha). Qed.

Lemma moves_write_artifact (K : memory → Prop) k a rev a' now exp :
  stable K → (∀ m, K m → artifact_at k (a, rev) m) → artifact_fits a' →
  artifact_step a a' →
  moves view K (ds_compareAndSwap k rev (write (artifact_json a') now exp)) (artifact_written k a').
Proof.
  intros HK HKi Hc Hs. eapply moves_pick; [exact HKi|]. intros r.
  eapply (moves_pure view _ (rec_key r = k ∧ decodeArtifact r = Ok (a, rev) ∧ well_finalized r));
    [by intros m (_ & ? & ? & [])|]. intros (<- & Hd & Hw).
  destruct (decode_Ok _ _ _ _ _ Hd) as [-> [Hk _]%artifact_consistent_iff].
  set (u := write (artifact_json a') now exp).
  assert (Hd' : decodeArtifact (updated_record r u) = Ok (a', revision (updated_record r u)))
    by (apply decodeArtifact_encode; [done|]; apply artifact_consistent_iff; split;
        [etrans; [exact Hk|]; f_equal; by destruct Hs as [[=] _]|done]).
  eapply moves_mono; [| |apply (moves_cas view env Henv (known r) r u)].
  - intros m (_ & _ & _ & Hr). exact Hr.
  - intros [r'|r'|] m; cbn; [|done..]. intros [-> Hkn]. split; [done|]. by exists (updated_record r u).
  - apply known_stable.
  - done.
  - by eapply artifact_well_finalized.
  - by eapply artifact_moves.
Qed.
End writes.

#[export] Hint Resolve artifact_written_stable intent_written_stable : groundlane.
#[export] Hint Resolve known_stable intent_at_stable artifact_at_stable
  bound_stable : groundlane.

(** ** The operations of the service *)

(** Calls to the blob store and to the revocation port do not touch the
    records; other workers act meanwhile. *)
Record quiet_ports {S} `{!Sha256Api} `{!ImmutableBlobPort S} (view : S → memory)
    (env : memory → memory → Prop) (service : UploadService S) : Prop := {
  put_quiet k o d b s : env (view s) (view (blob_putIfAbsent k o d b s).2);
  get_quiet k o d n s : env (view s) (view (blob_get k o d n s).2);
  delete_quiet k o s : env (view s) (view (blob_deleteIfOwner k o s).2);
  revoke_quiet revoke x s : revocations service = Some revoke → env (view s) (view (revoke x s).2)
}.

Section operations.
Context {S : Type} `{!Sha256Api} `{!DurableRecordStorePort S} `{!ImmutableBlobPort S}
  (view : S → memory) (env : memory → memory → Prop) `{Laws : !DurableStoreLaws view env}
  (Henv : ∀ m m', env m m' → upload_env m m') (service : UploadService S)
  (Hquiet : quiet_ports view env service).

Notation moves := (moves view).

Lemma moves_quiet {A} K (c : M S A) (P : A → Prop) :
  (∀ s, env (view s) (view (c s).2)) → (∀ s a, (c s).1 = Ok a → P a) → moves K c (λ a _, P a).
Proof. by apply moves_elsewhere. Qed.

(** The rule for a call whose failures become the storage error. *)
Lemma moves_call {A B} K (c : M S A) Q (f : A → M S B) R :
  stable K → moves K c Q → (∀ a, moves (λ m, K m ∧ Q a m) (f a) R) →
  moves K (sanitizedStorageCall c ≫= f) R.
Proof. intros HK Hc. apply moves_bind; [done|by apply moves_sanitized]. Qed.

Definition callers_intent (id : string) (caller : DurableUploadCaller)
    (current : UploadIntentState * Z) (m : memory) : Prop :=
  intent_at (intentKey id) current m ∧
  in_ownerId current.1 = ownerId caller ∧ in_credentialBinding current.1 = credentialBinding caller.

Definition callers_artifact (refId : string) (caller : DurableUploadCaller)
    (current : ArtifactState * Z) (m : memory) : Prop :=
  artifact_at (artifactKey refId) current m ∧
  art_ownerId current.1 = ownerId caller ∧ art_credentialBinding current.1 = credentialBinding caller.

Lemma moves_readIntent K id caller :
  stable K → moves K (readIntent id caller) (callers_intent id caller).
Proof.
  intros HK. eapply moves_call; [done|by eapply moves_get; auto with groundlane|].
  intros [r|]; [|apply moves_throw]. apply moves_lift_bind. intros current Hd.
  apply moves_lift_bind. intros [] Hc%throw_if_Ok. reflect.
  apply moves_ret. intros m [_ Hr]. destruct (Hr r eq_refl) as (Hk & Hkn & _).
  split; [|done]. by exists r.
Qed.

Lemma moves_readArtifactState K refId caller :
  stable K → moves K (readArtifactState refId caller) (callers_artifact refId caller).
Proof.
  intros HK. eapply moves_call; [done|by eapply moves_get; auto with groundlane|].
  intros [r|]; [|apply moves_throw]. apply moves_lift_bind. intros current Hd.
  apply moves_lift_bind. intros [] Hc%throw_if_Ok. reflect.
  apply moves_ret. intros m [_ Hr]. destruct (Hr r eq_refl) as (Hk & Hkn & _).
  split; [|done]. by exists r.
Qed.

Lemma moves_revoke K a why now :
  moves K (revokeArtifactSource service a why now) (λ _ _, True).
Proof.
  unfold revokeArtifactSource. destruct (revocations service) as [revoke|] eqn:Hrev.
  - apply moves_sanitized, moves_quiet; [|done]. intros s. by eapply revoke_quiet.
  - by apply moves_ret.
Qed.

Lemma callers_intent_stable id caller c : stable (callers_intent id caller c).
Proof. unfold callers_intent. auto with groundlane. Qed.

Lemma callers_artifact_stable id caller c : stable (callers_artifact id caller c).
Proof. unfold callers_artifact. auto with groundlane. Qed.

#[local] Hint Resolve callers_intent_stable callers_artifact_stable : groundlane.

(** *** Intents *)

Lemma expire_step i now : intent_step i (expire_intent i now).
Proof. split; [done| |done]. cbn. destruct (in_status i); cbn; lia. Qed.

Lemma expire_fits i now : intent_fits (expire_intent i now).
Proof. unfold intent_fits. cbn. by destruct (in_finalization i). Qed.

Lemma moves_createIntent K input caller :
  stable K → moves K (createIntent service input caller) (λ _ _, True).
Proof.
  intros HK. apply moves_lift_bind. intros [[size up] ttl] _. cbn [fst snd].
  set (initial := initial_intent input caller size up ttl).
  eapply moves_call; [done|eapply moves_create; [done..|cbn; auto with groundlane|]|].
  - cbn. intros i rev f Hd Hf.
    rewrite (decodeIntent_encode _ initial) in Hd; [|done|by apply intent_consistent_iff].
    by injection Hd as <- _.
  - intros created. apply moves_lift_bind. intros [current rev] _.
    apply moves_lift_bind. intros _ _. apply moves_lift_bind. intros _ _. by apply moves_ret.
Qed.

Lemma moves_getIntent K id caller now :
  stable K → moves K (getIntent id caller now) (λ _ _, True).
Proof.
  intros HK. do 3 (apply moves_lift_bind; intros [] _). cbv zeta.
  eapply moves_bind; [done|by apply moves_readIntent|]. intros [i rev].
  destruct (_ && _); [|by apply moves_ret].
  eapply moves_call; [auto with groundlane| |].
  - eapply (moves_write_intent view env Henv); [auto with groundlane| |apply expire_fits|apply expire_step|
      cbn; auto].
    by intros m (_ & Hi & _).
  - intros [r|r|]; [|by apply moves_ret..]. apply moves_lift_bind. intros [i' _] _. by apply moves_ret.
Qed.
(** *** Finalization *)

Definition finalizes (id : string) (current : UploadIntentState * Z) (m : memory) : Prop :=
  intent_at (intentKey id) current m ∧ in_status current.1 = finalizing.

Lemma finalizes_stable id c : stable (finalizes id c).
Proof. unfold finalizes. auto with groundlane. Qed.
#[local] Hint Resolve finalizes_stable : groundlane.

Lemma new_finalization_ok i digest now :
  (∀ d, in_expectedDigest i = Some d → d = digest) →
  fin_ok i (new_finalization i digest (in_declaredSize i) now).
Proof. intros Hd. split; try done. intros d Hi. cbn. by rewrite (Hd d Hi). Qed.

Lemma moves_claim (K : memory → Prop) id caller i rev digest now :
  stable K → (∀ m, K m → callers_intent id caller (i, rev) m) →
  in_status i = pending ∨ in_status i = finalizing →
  (∀ d, in_expectedDigest i = Some d → d = digest) →
  moves K (claim_finalization id (i, rev) digest (in_declaredSize i) now)
    (λ cur m, finalizes id cur m ∧ intent_step i cur.1).
Proof.
  intros HK HKi Hst Hd. unfold claim_finalization. case_bool_decide as Hp.
  - eapply moves_pure; [intros m Hm; eapply intent_at_fits, (HKi m Hm)|]. intros Hfits.
    unfold intent_fits in Hfits. rewrite Hp in Hfits.
    destruct (in_finalization i) eqn:Hnone; [done|].
    assert (Hstep : intent_step i (i <| in_status := finalizing |>
      <| in_finalization := Some (new_finalization i digest (in_declaredSize i) now) |>
      <| in_updatedAt := now |>)).
    { split; [done|cbn; rewrite Hp; cbn; lia|]. intros f Hf. by rewrite Hnone in Hf. }
    eapply moves_call; [done| |].
    + eapply (moves_write_intent view env Henv); [done|apply HKi|done|exact Hstep|].
      cbn. intros f [= <-]. right.
      apply (fin_ok_step _ _ _ Hstep), new_finalization_ok, Hd.
    + intros [r|r|]; [|apply moves_throw..]. apply moves_lift. intros cur m Hr [_ [Hd' Hat]].
      rewrite Hd' in Hr. injection Hr as <-. done.
  - apply moves_ret. intros m Hm. destruct (HKi m Hm) as [Hat _]. destruct Hst; [done|].
    split; [done|apply intent_step_refl].
Qed.

Lemma moves_create_artifact K a :
  stable K → artifact_fits a → moves K (create_artifact a) (λ _ _, True).
Proof.
  intros HK Hfits. eapply moves_call; [done|eapply moves_create; [done..|cbn; auto with groundlane|]|].
  - eapply artifact_well_finalized, decodeArtifact_encode; [done|].
    by apply artifact_consistent_iff.
  - intros created. apply moves_lift_bind. intros [durable rev] _. by apply moves_lift.
Qed.

Lemma moves_settle (K : memory → Prop) id current f digest now :
  stable K → (∀ m, K m → finalizes id current m) → in_finalization current.1 = Some f →
  moves K (settle_intent id current f digest now)
    (λ ref m, bound (intentKey id) f (in_ownerId current.1) m ∧
              ref = finalizationRef f (in_ownerId current.1)).
Proof.
  destruct current as [i rev]. intros HK HKi Hf. cbn [fst] in *.
  eapply moves_pure; [intros m Hm; exact (proj2 (HKi m Hm))|]. cbn. intros Hst.
  assert (Hb : ∀ m, K m → bound (intentKey id) f (in_ownerId i) m).
  { intros m Hm. eapply intent_at_bound; [apply (HKi m Hm)|done]. }
  eapply moves_call; [done| |].
  - eapply (moves_write_intent view env Henv) with (i := i); [done| | | |].
    + intros m Hm. apply (HKi m Hm).
    + unfold intent_fits. cbn. by rewrite Hf.
    + split; [done|cbn; rewrite Hst; cbn; lia|done].
    + cbn. auto.
  - intros [r|r|]; [apply moves_ret; intros m [Hm _]; auto| |apply moves_throw].
    apply moves_lift_bind. intros [raced rev'] _. destruct (_ && _); [|apply moves_throw].
    apply moves_ret. intros m [Hm _]. auto.
Qed.

(** What a successful finalization says of the intent's record. *)
Definition finalized_as (input : FinalizeDurableUploadInput) (caller : DurableUploadCaller)
    (ref : DurableSourceArtifactRef) (m : memory) : Prop :=
  ∃ f, bound (intentKey (fi_intentId input)) f (ownerId caller) m ∧
       ref = finalizationRef f (ownerId caller) ∧
       fin_contentHash f = contentDigest (fi_bytes input) ∧
       fin_byteSize f = byteLength (fi_bytes input).

Lemma validated_bytes i input digest :
  validateFinalBytes i input digest = Ok tt →
  byteLength (fi_bytes input) = in_declaredSize i ∧
  ∀ d, in_expectedDigest i = Some d → d = digest.
Proof.
  unfold validateFinalBytes.
  intros ([] & H1%throw_if_Ok & ([] & H2%throw_if_Ok & ([] & H3%throw_if_Ok & _)%result_bind_Ok)%result_bind_Ok)%result_bind_Ok.
  reflect. split; [done|]. intros d Hd. rewrite Hd in H3. by reflect.
Qed.

Lemma moves_publish (K : memory → Prop) input caller current now :
  stable K → (∀ m, K m → finalizes (fi_intentId input) current m) →
  in_ownerId current.1 = ownerId caller →
  moves K (publish input current (contentDigest (fi_bytes input)) (byteLength (fi_bytes input)) now)
    (finalized_as input caller).
Proof.
  intros HK HKi Ho. unfold publish. cbv zeta.
  destruct (in_finalization current.1) as [f|] eqn:Hf; [|apply moves_throw].
  destruct (_ && _) eqn:Hfit; [|apply moves_throw]. reflect.
  eapply moves_call; [done|apply (moves_quiet _ _ (λ _, True)); [|done]|].
  { intros s. by eapply put_quiet. }
  intros put. apply moves_lift_bind. intros [] _.
  eapply moves_bind; [auto with groundlane|by apply moves_create_artifact; auto with groundlane|].
  intros []. eapply moves_mono; [intros m Hm; exact Hm| |apply moves_settle with (f := f)].
  - cbn. intros ref m [Hb ->]. rewrite Ho in *. by exists f.
  - auto with groundlane.
  - intros m [[Hm _] _]. by apply HKi.
  - done.
Qed.

Lemma moves_finalize K input caller :
  stable K → moves K (finalize input caller) (finalized_as input caller).
Proof.
  intros HK. do 4 (apply moves_lift_bind; intros [] _). cbv zeta.
  eapply moves_bind; [done|by apply moves_readIntent|]. intros [i rev].
  case_bool_decide as Hexp; [apply moves_throw|].
  destruct (_ && _).
  { eapply moves_call; [auto with groundlane| |intros ?; apply moves_throw].
    eapply (moves_write_intent view env Henv); [auto with groundlane| |apply expire_fits
      |apply expire_step|cbn; auto]. by intros m (_ & Hi & _). }
  apply moves_lift_bind. intros [] [Hsize Hdig]%validated_bytes. rewrite Hsize.
  eapply moves_pure; [intros m (_ & _ & Ho & _); exact Ho|]. cbn. intros Howner.
  case_bool_decide as Hfin.
  - destruct (in_finalization i) as [f|] eqn:Hf; [|apply moves_throw].
    case_bool_decide as Hh; [|apply moves_throw]. apply moves_ret. intros m (_ & Hi & _).
    pose proof (fin_size _ _ (intent_at_fin_ok _ _ _ _ _ Hi Hf)).
    exists f. rewrite <- Howner. split_and!; [by eapply intent_at_bound|done|done|congruence].
  - eapply moves_bind; [auto with groundlane| |].
    + eapply moves_claim; [auto with groundlane|by intros m [_ Hi]| |done].
      destruct (in_status i); auto; done.
    + intros current. rewrite <- Hsize.
      eapply (moves_pure view _ (in_ownerId current.1 = ownerId caller)).
      { intros m [_ [_ [Hid _ _]]]. injection Hid. congruence. }
      intros Ho. apply moves_publish; [|by intros m [_ [? _]]|done]. auto with groundlane.
Qed.
(** *** Artifacts *)

Lemma set_artifact_step a st why now : st ≠ active → artifact_step a (set_artifact a st why now).
Proof. intros Hst. by split. Qed.

Lemma touch_artifact_step a now : artifact_step a (a <| art_updatedAt := now |>).
Proof. by split. Qed.

(** What a successful read says of the artifact's record. *)
Definition served (refId : string) (caller : DurableUploadCaller) (now maxBytes : number)
    (read : DurableArtifactRead) (m : memory) : Prop :=
  ∃ a rev, callers_artifact refId caller (a, rev) m ∧
    read_ref read = artifactRef a ∧ read_mimeType read = art_mimeType a ∧
    read_filename read = art_filename a ∧ (art_byteSize a ≤ to_Z maxBytes)%Z ∧
    art_status a = active ∧ (to_Z now < art_expiresAt a)%Z ∧
    ∃ s, (blob_get (art_blobKey a) (art_ownerId a) (art_contentHash a) (to_Z maxBytes) s).1
         = Ok (Some (read_bytes read)).

Lemma moves_readArtifact K refId caller now maxBytes :
  stable K →
  moves K (readArtifact refId caller now maxBytes) (served refId caller now maxBytes).
Proof.
  intros HK. do 4 (apply moves_lift_bind; intros [] _). cbv zeta.
  eapply moves_bind; [done|by apply moves_readArtifactState|]. intros [a rev].
  apply moves_lift_bind. intros [] Hst%throw_if_Ok. reflect.
  destruct (_ || _) eqn:Hexp.
  - eapply moves_bind with (Q := λ _ _, True); [auto with groundlane| |intros ?; apply moves_throw].
    destruct (bool_decide (art_status a = active)); [|by apply moves_ret].
    eapply moves_call; [auto with groundlane| |intros ?; by apply moves_ret].
    eapply (moves_write_artifact view env Henv); [auto with groundlane|
      by intros m [_ [Ha _]]|done|by apply set_artifact_step].
  - reflect. apply moves_lift_bind. intros [] Hmax%throw_if_Ok. reflect.
    eapply moves_call; [auto with groundlane|apply (moves_quiet _ _ (λ found, ∃ s,
      (blob_get (art_blobKey a) (art_ownerId a) (art_contentHash a) (to_Z maxBytes) s).1 = Ok found))|].
    { intros s. by eapply get_quiet. }
    { intros s found Hs. by exists s. }
    intros [content|]; [|apply moves_throw].
    eapply moves_bind; [auto 6 with groundlane|by apply moves_readArtifactState; auto 6 with groundlane|].
    intros [latest rev']. apply moves_lift_bind. intros [] _.
    apply moves_ret. intros m [[[_ Ha] Hs] _]. exists a, rev. split_and!; [done..| |lia|done].
    destruct (art_status a); congruence.
Qed.

Lemma moves_mark_deleted (K : memory → Prop) refId current now :
  stable K → (∀ m, K m → artifact_at (artifactKey refId) current m) →
  moves K (mark_deleted refId current now)
    (λ cur m, artifact_at (artifactKey refId) cur m ∧ art_status cur.1 = deleted).
Proof.
  destruct current as [a rev]. intros HK HKa. unfold mark_deleted. case_bool_decide as Hd.
  { apply moves_ret. auto. }
  eapply moves_call; [done| |].
  { eapply (moves_write_artifact view env Henv); [done|exact HKa|done|by apply set_artifact_step]. }
  intros saved. eapply moves_bind with (Q := λ cur m, artifact_at (artifactKey refId) cur m).
  - apply stable_and; [done|apply artifact_written_stable].
  - destruct saved as [r|r|]; [| |apply moves_throw]; apply moves_lift.
    + intros cur m Hr [_ [Hd' Hat]]. rewrite Hd' in Hr. by injection Hr as <-.
    + intros cur m Hr [_ [Hk Hkn]]. by exists r.
  - intros cur. apply moves_lift_bind. intros [] Hst%throw_if_Ok. reflect.
    apply moves_ret. by intros m [_ Hat].
Qed.

Lemma moves_deleteArtifact K refId caller now :
  stable K → moves K (deleteArtifact service refId caller now)
    (λ _ m, ∃ a rev, artifact_at (artifactKey refId) (a, rev) m ∧ art_status a = deleted).
Proof.
  intros HK. do 3 (apply moves_lift_bind; intros [] _). cbv zeta.
  eapply moves_bind; [done|by apply moves_readArtifactState|]. intros read.
  eapply moves_bind; [auto with groundlane|apply moves_mark_deleted;
    [auto with groundlane|by intros m [_ [Ha _]]]|]. intros [a rev].
  assert (HK' : stable (λ m, (K m ∧ callers_artifact refId caller read m) ∧
    artifact_at (artifactKey refId) (a, rev) m ∧ art_status (a, rev).1 = deleted))
    by auto with groundlane.
  eapply moves_bind; [exact HK'|apply moves_revoke|]. intros [].
  eapply moves_call; [auto with groundlane|apply (moves_quiet _ _ (λ _, True)); [|done]|].
  { intros s. by eapply delete_quiet. }
  intros removed. apply moves_lift_bind. intros [] _.
  eapply (moves_pure view _ (artifact_fits a ∧ art_status a = deleted)).
  { intros m [[[_ [Hat Hst]] _] _]. split; [by eapply artifact_at_fits|done]. }
  intros [Hfits Hst]. eapply moves_call; [auto with groundlane| |].
  - eapply (moves_write_artifact view env Henv); [auto with groundlane|
      by intros m [[[_ [Hat _]] _] _]|exact Hfits|apply touch_artifact_step].
  - intros o. apply moves_ret. intros m [[[[_ [Hat _]] _] _] _]. by exists a, rev.
Qed.
(** *** Cleanup *)

Lemma moves_remove_blob K key owner : moves K (remove_blob key owner) (λ _ _, True).
Proof.
  unfold remove_blob. intros s Hok Hs. apply wp_attempt, wp_intro. intros r s' Hr. apply wp_ret.
  split; [|done]. apply Henv. pose proof (delete_quiet _ _ _ Hquiet key owner s) as Hd.
  by rewrite Hr in Hd.
Qed.

Lemma moves_finish_cleanup (K : memory → Prop) key current revoked now :
  stable K → (∀ m, K m → artifact_at key current m) →
  moves K (finish_cleanup key current revoked now) (λ _ _, True).
Proof.
  destruct current as [a rev]. intros HK HKa. unfold finish_cleanup.
  eapply moves_bind; [done|apply moves_remove_blob|]. intros removed.
  destruct removed as [r|], (art_cleanupReason a) as [why|]; try by apply moves_ret.
  eapply moves_bind; [auto with groundlane| |intros ?; by apply moves_ret].
  eapply (moves_write_artifact view env Henv); [auto with groundlane|by intros m [Hm _]; apply HKa| |].
  - by destruct why.
  - by apply set_artifact_step; destruct why.
Qed.

Lemma moves_claim_cleanup (K : memory → Prop) key current now :
  stable K → (∀ m, K m → artifact_at key current m) → art_status current.1 ≠ active →
  moves K (claim_cleanup key current now)
    (λ o m, match o with Some current' => artifact_at key current' m | None => True end).
Proof.
  destruct current as [a rev]. intros HK HKa Hst. unfold claim_cleanup.
  eapply moves_pure; [intros m Hm; eapply artifact_at_fits, HKa, Hm|]. intros Hfits.
  eapply moves_bind; [done| |].
  - eapply (moves_write_artifact view env Henv) with (a := a); [done|exact HKa| |].
    + case_bool_decide as Hp; [done|]. unfold artifact_fits, revocation_reason. cbn.
      cbn in Hst. by destruct (art_status a).
    + case_bool_decide; [apply touch_artifact_step|by apply set_artifact_step].
  - intros [r|r|]; [|by apply moves_ret..]. apply moves_lift_bind. intros cur Hr.
    apply moves_ret. intros m [_ [Hd Hat]]. rewrite Hd in Hr. by injection Hr as <-.
Qed.

Lemma moves_expire_artifact (K : memory → Prop) key current now :
  stable K → (∀ m, K m → artifact_at key current m) →
  moves K (expire_artifact key current now)
    (λ o m, match o with Some (current', _) => artifact_at key current' m | None => True end).
Proof.
  destruct current as [a rev]. intros HK HKa. unfold expire_artifact.
  case_bool_decide; [|apply moves_ret; auto].
  eapply moves_bind; [done|eapply (moves_write_artifact view env Henv);
    [done|exact HKa|done|by apply set_artifact_step]|].
  intros [r|r|]; [|by apply moves_ret..]. apply moves_lift_bind. intros cur Hr.
  apply moves_ret. intros m [_ [Hd Hat]]. rewrite Hd in Hr. by injection Hr as <-.
Qed.

Lemma moves_cleanup_artifact (K : memory → Prop) record now :
  stable K → (∀ m, K m → known record m) →
  moves K (cleanupArtifactRecord service record now) (λ _ _, True).
Proof.
  intros HK HKr. apply moves_lift_bind. intros first Hd.
  eapply moves_bind; [done|apply moves_expire_artifact; [done|]|].
  { intros m Hm. exists record. auto. }
  intros [[current revoked]|]; [|by apply moves_ret].
  eapply moves_bind with (Q := λ _ _, True); [auto with groundlane| |].
  { destruct (revocation_reason _); [apply moves_revoke|by apply moves_ret]. }
  intros []. case_bool_decide as Hst; [by apply moves_ret|].
  eapply moves_bind; [auto with groundlane|apply moves_claim_cleanup;
    [auto with groundlane|by intros m [[_ ?] _]|done]|].
  intros [current'|]; [|by apply moves_ret].
  apply moves_finish_cleanup; [auto 6 with groundlane|by intros m [_ ?]].
Qed.

Lemma touch_intent_step i now : intent_step i (i <| in_updatedAt := now |>).
Proof. by split. Qed.

Lemma moves_cleanup_blob (K : memory → Prop) record current now :
  stable K → (∀ m, K m → intent_at (rec_key record) current m) →
  moves K (cleanup_intent_blob record current now) (λ _ _, True).
Proof.
  destruct current as [i rev]. intros HK HKi. unfold cleanup_intent_blob.
  eapply moves_pure; [intros m Hm; eapply intent_at_fits, HKi, Hm|]. intros Hfits.
  destruct (in_finalization i) as [f|] eqn:Hf, (rec_expiresAt record); try by apply moves_ret.
  eapply moves_bind; [done|apply moves_remove_blob|]. intros [r|]; [|by apply moves_ret].
  eapply moves_bind; [auto with groundlane| |intros ?; by apply moves_ret].
  eapply (moves_write_intent view env Henv); [auto with groundlane|by intros m [Hm _]; apply HKi
    |exact Hfits|apply touch_intent_step|cbn; auto].
Qed.

Lemma moves_cleanup_intent (K : memory → Prop) record now :
  stable K → (∀ m, K m → known record m) → moves K (cleanupIntentRecord record now) (λ _ _, True).
Proof.
  intros HK HKr. apply moves_lift_bind. intros [i rev] Hd.
  assert (HKi : ∀ m, K m → intent_at (rec_key record) (i, rev) m) by (intros m Hm; exists record; auto).
  case_bool_decide; [by apply moves_cleanup_blob|]. cbv zeta.
  eapply moves_bind; [done|eapply (moves_write_intent view env Henv);
    [done|exact HKi|apply expire_fits|apply expire_step|cbn; auto]|].
  intros [r|r|]; [|by apply moves_ret..]. apply moves_lift_bind. intros current Hr.
  destruct (_ && _); [|by apply moves_ret].
  apply moves_cleanup_blob; [auto with groundlane|].
  intros m [_ [Hd' Hat]]. rewrite Hd' in Hr. by injection Hr as <-.
Qed.

Lemma moves_cleanup_records (K : memory → Prop) records now acc failed :
  stable K →
  (∀ m r, K m → r ∈ records → upload_key (rec_key r) → known r m) →
  moves K (cleanup_records service records now acc failed) (λ _ _, True).
Proof.
  revert acc failed. induction records as [|r rs IH]; intros acc failed HK HKr; [by apply moves_ret|].
  cbn [cleanup_records]. eapply moves_bind; [done|apply moves_attempt with (Q := λ _ _, True)|].
  - unfold cleanup_record. destruct (startsWith (rec_key r) "upload-artifact:") eqn:Ha.
    { eapply moves_bind; [done|apply moves_cleanup_artifact; [done|]|intros ?; by apply moves_ret].
      intros m Hm. apply HKr; [done|set_solver|by right]. }
    destruct (startsWith (rec_key r) "upload-intent:") eqn:Hi; [|by apply moves_ret].
    eapply moves_bind; [done|apply moves_cleanup_intent; [done|]|intros ?; by apply moves_ret].
    intros m Hm. apply HKr; [done|set_solver|by left].
  - intros o.
    assert (Hrest : ∀ acc failed, moves K (cleanup_records service rs now acc failed) (λ _ _, True)).
    { intros acc' failed'. apply IH; [done|]. intros m r' Hm Hr'. apply HKr; [done|set_solver]. }
    eapply (moves_mono view K); [by intros m [Hm _]|by intros ? ?|].
    destruct o as [[c|]|e]; apply Hrest.
Qed.

Lemma moves_cleanupExpiredPage K now cursor limit :
  scan_reports view → stable K →
  moves K (cleanupExpiredPage service now cursor limit) (λ _ _, True).
Proof.
  intros Hscan HK. do 3 (apply moves_lift_bind; intros [] _).
  eapply moves_call with (Q := λ page m, ∀ r, r ∈ page_records page → upload_key (rec_key r) → known r m);
    [done| |].
  - intros s Hok Hs. pose proof (Henv _ _ (scan_reads now cursor (to_Z limit) s)) as He.
    unfold wp. split; [done|]. destruct (ds_scanExpired _ _ _ s).1 as [page|] eqn:Hpage; [|done].
    intros r Hr Hk. pose proof (env_ok _ _ He Hok) as Hok'.
    destruct (Hscan _ _ _ _ _ _ Hpage Hr (store_keys _ Hok')) as [k Hkr].
    pose proof (store_keyed _ Hok' _ _ Hkr) as Hkey. subst k. by eapply known_current.
  - intros page. eapply moves_bind; [|apply moves_cleanup_records|].
    + apply stable_and; [done|]. intros m m' He Hk r Hr Hu. eapply known_stable; [done|auto].
    + apply stable_and; [done|]. intros m m' He Hk r Hr Hu. eapply known_stable; [done|auto].
    + intros m r [_ Hm] Hr Hu. auto.
    + intros [c failed]. by apply moves_ret.
Qed.
(** *** Reads of revoked artifacts *)

(** The artifact is expired, deleted or being cleaned up. *)
Definition revoked_artifact (refId : string) (m : memory) : Prop :=
  ∃ a rev, artifact_at (artifactKey refId) (a, rev) m ∧ art_status a ≠ active.

Lemma revoked_artifact_stable refId : stable (revoked_artifact refId).
Proof.
  intros m m' He (a & rev & Ha & Hst). exists a, rev. split; [|done].
  by eapply artifact_at_stable.
Qed.

Lemma moves_read_revoked refId caller :
  moves (revoked_artifact refId) (readArtifactState refId caller) (λ cur _, art_status cur.1 ≠ active).
Proof.
  eapply moves_call; [apply revoked_artifact_stable|
    by eapply moves_get; auto using revoked_artifact_stable with groundlane|].
  intros [r|]; [|apply moves_throw]. apply moves_lift_bind. intros [a rev] Hd.
  apply moves_lift_bind. intros [] _. apply moves_ret.
  intros m [(a0 & rev0 & (r0 & Hk0 & Hd0 & [_ _ (r' & Hr' & Hev)]) & Hst0) Hr].
  destruct (Hr r eq_refl) as (_ & _ & Hkr). rewrite Hk0 in Hr'. rewrite Hkr in Hr'.
  injection Hr' as <-. destruct (artifact_evolves _ _ _ _ Hd0 Hev) as (a' & Hd' & Hs).
  rewrite Hd' in Hd. injection Hd as <- <-. by apply Hs.
Qed.

Lemma moves_readArtifact_revoked refId caller now maxBytes :
  moves (revoked_artifact refId) (readArtifact refId caller now maxBytes) (λ _ _, False).
Proof.
  do 4 (apply moves_lift_bind; intros [] _). cbv zeta.
  eapply moves_bind; [apply revoked_artifact_stable|apply moves_read_revoked|]. intros [a rev].
  eapply moves_pure; [intros m [_ Hst]; exact Hst|]. cbn. intros Hst.
  apply moves_lift_bind. intros [] Hst'%throw_if_Ok. reflect.
  assert (Hexp : art_status a = expired) by (destruct (art_status a); done).
  rewrite (bool_decide_true (art_status a = expired)), (bool_decide_false (art_status a = active)) by done.
  cbn [orb]. eapply moves_bind with (Q := λ _ _, True); [|by apply moves_ret|intros ?; apply moves_throw].
  apply stable_and; [apply revoked_artifact_stable|apply stable_const].
Qed.
End operations.

(** ** Any calls of the service *)

Inductive upload_call :=
  | CreateIntent (input : CreateDurableUploadIntentInput) (caller : DurableUploadCaller)
  | GetIntent (id : string) (caller : DurableUploadCaller) (now : number)
  | Finalize (input : FinalizeDurableUploadInput) (caller : DurableUploadCaller)
  | ReadArtifact (refId : string) (caller : DurableUploadCaller) (now maxBytes : number)
  | DeleteArtifact (refId : string) (caller : DurableUploadCaller) (now : number)
  | CleanupPage (now : number) (cursor : option string) (limit : number).

Section calls.
Context {S : Type} `{!Sha256Api} `{!DurableRecordStorePort S} `{!ImmutableBlobPort S}
  (service : UploadService S).

Definition perform (c : upload_call) : M S unit :=
  match c with
  | CreateIntent input caller => ignore (createIntent service input caller)
  | GetIntent id caller now => ignore (getIntent id caller now)
  | Finalize input caller => ignore (finalize input caller)
  | ReadArtifact refId caller now maxBytes => ignore (readArtifact refId caller now maxBytes)
  | DeleteArtifact refId caller now => ignore (deleteArtifact service refId caller now)
  | CleanupPage now cursor limit => ignore (cleanupExpiredPage service now cursor limit)
  end.

Fixpoint perform_all (cs : list upload_call) : M S unit :=
  match cs with
  | [] => mret tt
  | c :: cs' => perform c;; perform_all cs'
  end.
End calls.

Section claims.
Context {S : Type} `{!Sha256Api} `{!DurableRecordStorePort S} `{!ImmutableBlobPort S}
  (view : S → memory) (env : memory → memory → Prop) (service : UploadService S).

Lemma moves_perform_all `{Laws : !DurableStoreLaws view env} cs :
  (∀ m m', env m m' → upload_env m m') → quiet_ports view env service →
  scan_reports view → moves view (λ _, True) (perform_all service cs) (λ _ _, True).
Proof.
  intros Henv Hquiet Hscan. induction cs as [|c cs IH]; [by apply moves_ret|].
  cbn [perform_all]. eapply moves_bind with (Q := λ _ _, True); [apply stable_const| |].
  - destruct c; eapply moves_ignore.
    + by eapply moves_createIntent; auto with groundlane.
    + by eapply moves_getIntent; auto with groundlane.
    + by eapply moves_finalize; auto with groundlane.
    + by eapply moves_readArtifact; auto with groundlane.
    + by eapply moves_deleteArtifact; auto with groundlane.
    + by eapply moves_cleanupExpiredPage; auto with groundlane.
  - intros _. eapply moves_mono; [| |exact IH]; done.
Qed.

(** whatever calls the service makes, and however other workers of it
    interleave and calls fail, every record of an intent or artifact stays
    under its key, keeps its identity, and only moves forward: an intent's
    status never goes back and its finalization is never replaced, and an
    artifact that was revoked is never active again; intents stay well formed. *)
Theorem upload_records_only_move_forward cs s :
  DurableStoreLaws view env → (∀ m m', env m m' → upload_env m m') →
  quiet_ports view env service → scan_reports view → store_ok (view s) →
  let m' := view (perform_all service cs s).2 in
  store_ok m' ∧
  (∀ id r i rev, map_get (intentKey id) (view s) = Some r → decodeIntent r = Ok (i, rev) →
     ∃ r' i' rev', map_get (intentKey id) m' = Some r' ∧ decodeIntent r' = Ok (i', rev') ∧
       (rev ≤ rev')%Z ∧ intent_step i i') ∧
  (∀ refId r a rev, map_get (artifactKey refId) (view s) = Some r → decodeArtifact r = Ok (a, rev) →
     ∃ r' a' rev', map_get (artifactKey refId) m' = Some r' ∧ decodeArtifact r' = Ok (a', rev') ∧
       (rev ≤ rev')%Z ∧ artifact_step a a').
Proof.
  intros Laws Henv Hquiet Hscan Hok m'.
  destruct (moves_perform_all (Laws := Laws) cs Henv Hquiet Hscan s Hok I) as [He _].
  split; [by eapply env_ok|]. split.
  - intros id r i rev Hr Hd. destruct (env_evolves _ _ He _ _ (intentKey_upload id) Hr) as (r' & Hr' & Hev).
    destruct (intent_evolves _ _ _ _ Hd Hev) as (i' & Hd' & Hs). exists r', i', (revision r').
    destruct (decode_Ok _ _ _ _ _ Hd) as [-> _]. split_and!; [done..| |done].
    destruct Hev as [->|[? _]]; lia.
  - intros id r i rev Hr Hd. destruct (env_evolves _ _ He _ _ (artifactKey_upload id) Hr) as (r' & Hr' & Hev).
    destruct (artifact_evolves _ _ _ _ Hd Hev) as (i' & Hd' & Hs). exists r', i', (revision r').
    destruct (decode_Ok _ _ _ _ _ Hd) as [-> _]. split_and!; [done..| |done].
    destruct Hev as [->|[? _]]; lia.
Qed.

(** once a finalization of an intent succeeded, every later finalization
    of it that succeeds had the same bytes (up to SHA-256) and caller, and
    returns the same reference, whatever happened in between; the reference
    names the digest and size of the bytes. *)
Theorem finalized_upload_is_bound input1 caller1 s1 ref1 s1' input2 caller2 s2 ref2 s2' :
  DurableStoreLaws view env → (∀ m m', env m m' → upload_env m m') →
  quiet_ports view env service → store_ok (view s1) →
  finalize input1 caller1 s1 = (Ok ref1, s1') → upload_env (view s1') (view s2) →
  fi_intentId input2 = fi_intentId input1 → finalize input2 caller2 s2 = (Ok ref2, s2') →
  ref2 = ref1 ∧ ownerId caller2 = ownerId caller1 ∧
  contentDigest (fi_bytes input2) = contentDigest (fi_bytes input1) ∧
  ref_contentHash ref1 = contentDigest (fi_bytes input1) ∧
  ref_byteSize ref1 = byteLength (fi_bytes input1).
Proof.
  intros Laws Henv Hquiet Hok Hrun1 Hbetween Hid Hrun2.
  assert (Hstable : stable (λ _, True)) by apply stable_const.
  destruct (wp_run _ _ _ _ _ (moves_finalize view env Henv service Hquiet _ input1 caller1 Hstable s1 Hok I)
    Hrun1) as [He1 (f1 & Hb1 & -> & Hh1 & Hs1)].
  assert (Hok2 : store_ok (view s2)) by (eapply env_ok; [exact Hbetween|]; by eapply env_ok).
  destruct (wp_run _ _ _ _ _ (moves_finalize view env Henv service Hquiet _ input2 caller2 Hstable s2 Hok2 I)
    Hrun2) as [He2 (f2 & Hb2 & -> & Hh2 & Hs2)].
  rewrite Hid in Hb2.
  destruct (bound_unique _ _ _ _ _ _ (bound_stable _ _ _ _ _ (upload_env_trans _ _ _ Hbetween He2) Hb1)
    Hb2) as [-> ->].
  split_and!; try done. congruence.
Qed.

(** what a read serves is the caller's artifact, not expired, within
    the limit asked for, and its bytes have the digest its reference names. *)
Theorem artifact_read_is_intact refId caller now maxBytes s read s' :
  DurableStoreLaws view env → (∀ m m', env m m' → upload_env m m') →
  quiet_ports view env service →
  (∀ k o d n s b, (blob_get k o d n s).1 = Ok (Some b) → contentDigest b = d) →
  store_ok (view s) → readArtifact refId caller now maxBytes s = (Ok read, s') →
  contentDigest (read_bytes read) = ref_contentHash (read_ref read) ∧
  ref_refId (read_ref read) = refId ∧ ref_ownershipScope (read_ref read) = ownerId caller ∧
  (to_Z now < ref_expiresAt (read_ref read))%Z ∧ (ref_byteSize (read_ref read) ≤ to_Z maxBytes)%Z ∧
  ∃ r a rev, map_get (artifactKey refId) (view s') = Some r ∧ decodeArtifact r = Ok (a, rev) ∧
    artifactRef a = read_ref read.
Proof.
  intros Laws Henv Hquiet Hblob Hok Hrun.
  destruct (wp_run _ _ _ _ _ (moves_readArtifact view env Henv service Hquiet (λ _, True) refId caller
    now maxBytes (stable_const _) s Hok I) Hrun) as [_ (a & rev & [Hat [Ho _]] & Hserved)].
  destruct Hserved as (-> & _ & _ & Hmax & _ & Hexp & (s0 & Hget)).
  pose proof (Hblob _ _ _ _ _ _ Hget) as Hdig. cbn in Ho |- *.
  destruct Hat as (r & Hk & Hd & [_ _ (r' & Hr' & Hev)]).
  destruct (artifact_evolves _ _ _ _ Hd Hev) as (a' & Hd' & Hs).
  destruct (decode_Ok _ _ _ _ _ Hd) as [_ [Href _]%artifact_consistent_iff].
  rewrite Hk in Href, Hr'. apply (f_equal chars) in Href. unfold artifactKey in Href.
  rewrite !chars_app in Href. apply (app_inv_head _) in Href. apply chars_inj in Href.
  split_and!; [done|done|done|done|done|]. exists r', a', (revision r'). split_and!; [done..|].
  destruct Hs as [Hid _]. unfold artifactRef. injection Hid. congruence.
Qed.

(** once an artifact was deleted, no read serves it again, whatever else
    happens and whatever the artifact's blob. *)
Theorem deleted_artifact_is_never_read refId caller now s s' caller' now' maxBytes s2 :
  DurableStoreLaws view env → (∀ m m', env m m' → upload_env m m') →
  quiet_ports view env service → store_ok (view s) →
  deleteArtifact service refId caller now s = (Ok tt, s') → upload_env (view s') (view s2) →
  is_Throw (readArtifact refId caller' now' maxBytes s2).1.
Proof.
  intros Laws Henv Hquiet Hok Hrun Hbetween.
  destruct (wp_run _ _ _ _ _ (moves_deleteArtifact view env Henv service Hquiet (λ _, True) refId caller
    now (stable_const _) s Hok I) Hrun) as [He (a & rev & Hat & Hst)].
  assert (Hrev : revoked_artifact refId (view s2)).
  { eapply revoked_artifact_stable; [exact Hbetween|]. exists a, rev. by rewrite Hst. }
  assert (Hok2 : store_ok (view s2)) by (eapply env_ok; [exact Hbetween|]; by eapply env_ok).
  destruct (moves_readArtifact_revoked view env Henv refId caller' now' maxBytes s2 Hok2 Hrev) as [_ Hr].
  destruct (readArtifact _ _ _ _ s2).1 as [read|e]; [done|by exists e].
Qed.
End claims.

(** ** A store shared with nobody, and a blob store that keeps one blob *)

Module UploadDemo.
#[export] Instance digest : Sha256Api := zero_digest.
#[export] Instance port : DurableRecordStorePort (SharedStore upload_env) := shared_port (λ _ _, 0%Z).
Definition content : bytes := chars "hello".

#[export] Instance blobs : ImmutableBlobPort (SharedStore upload_env) := {
  blob_putIfAbsent key owner digest b :=
    mret (BlobCreated {| stat_blobKey := key; stat_ownerId := owner; stat_digest := digest;
                         stat_byteSize := byteLength b |});
  blob_stat key := mret None;
  blob_get key owner digest maxBytes :=
    mret (if bool_decide (contentDigest content = digest) then Some content else None);
  blob_deleteIfOwner key owner := mret BlobDeleted
}.

Definition policy : ArtifactLifecycle.ArtifactRetentionPolicy :=
  {| ArtifactLifecycle.upload := {| ArtifactLifecycle.defaultTtlSeconds := 900;
       ArtifactLifecycle.minTtlSeconds := 60; ArtifactLifecycle.maxTtlSeconds := 3600 |};
     ArtifactLifecycle.artifact := {| ArtifactLifecycle.defaultTtlSeconds := 86400;
       ArtifactLifecycle.minTtlSeconds := 60; ArtifactLifecycle.maxTtlSeconds := 2592000 |} |}%Z.

Definition service : UploadService (SharedStore upload_env) :=
  {| retention := policy; revocations := None |}.
Definition caller : DurableUploadCaller := {| ownerId := "tenant"; credentialBinding := "cred" |}.
Definition create : CreateDurableUploadIntentInput :=
  {| ci_idempotencyKey := "k"; ci_declaredMime := "text/plain"; ci_declaredSize := int 5;
     ci_filename := "a.txt"; ci_expectedDigest := None; ci_uploadTtlMs := None;
     ci_artifactTtlMs := None; ci_nowMs := int 1000 |}.
Definition id : string := intentId caller "k".
Definition upload (now : Z) : FinalizeDurableUploadInput :=
  {| fi_intentId := id; fi_bytes := content; fi_observedMime := "text/plain"; fi_nowMs := int now |}.

Definition start : SharedStore upload_env := {| contents := []; turns := [] |}.
Definition created : SharedStore upload_env := (createIntent service create caller start).2.
Definition done_ : SharedStore upload_env := (finalize (upload 2000) caller created).2.
Definition ref : string := match (finalize (upload 2000) caller created).1 with
  Ok r => ref_refId r | Throw _ => "" end.
Definition gone : SharedStore upload_env := (deleteArtifact service ref caller (int 3000) done_).2.

Example demo_flow :
  (match (readArtifact ref caller (int 2500) (int 100) done_).1 with Ok r => read_bytes r | _ => [] end) = content ∧
  (deleteArtifact service ref caller (int 3000) done_).1 = Ok tt ∧
  (readArtifact ref caller (int 3500) (int 100) gone).1 = Throw artifact_unavailable.
Proof. split_and!; vm_compute; reflexivity. Qed.

Lemma laws : DurableStoreLaws (contents (env := upload_env)) upload_env.
Proof. apply shared_store_laws; [apply upload_env_refl|apply upload_env_trans]. Qed.

Lemma quiet : quiet_ports (contents (env := upload_env)) upload_env service.
Proof. by split; intros; try apply upload_env_refl. Qed.

Lemma reports : scan_reports (contents (env := upload_env)).
Proof. apply shared_scan_reports. Qed.

Lemma ok_start : store_ok (contents start).
Proof. split; [constructor|done..]. Qed.

Lemma ok_created : store_ok (contents created).
Proof.
  destruct (moves_createIntent contents upload_env (Laws := laws) (λ m m' He, He) service
    (λ _, True) create caller (stable_const True) start ok_start I) as [He _].
  exact (env_ok _ _ He ok_start).
Qed.

Lemma ok_done : store_ok (contents done_).
Proof.
  destruct (moves_finalize contents upload_env (Laws := laws) (λ m m' He, He) service quiet
    (λ _, True) (upload 2000) caller (stable_const True) created ok_created I) as [He _].
  exact (env_ok _ _ He ok_created).
Qed.
End UploadDemo.

#[local] Existing Instances UploadDemo.digest UploadDemo.port UploadDemo.blobs.

Lemma upload_records_only_move_forward_witness :
  let m' := contents (perform_all UploadDemo.service
    [Finalize (UploadDemo.upload 2000) UploadDemo.caller;
     DeleteArtifact UploadDemo.ref UploadDemo.caller (int 3000);
     CleanupPage (int 4000) None (int 10)] UploadDemo.created).2 in
  store_ok m' ∧ ∃ r' i' rev', map_get (intentKey UploadDemo.id) m' = Some r' ∧
    decodeIntent r' = Ok (i', rev') ∧ in_intentId i' = UploadDemo.id.
Proof.
  intros m'.
  destruct (upload_records_only_move_forward contents upload_env UploadDemo.service
    [Finalize (UploadDemo.upload 2000) UploadDemo.caller;
     DeleteArtifact UploadDemo.ref UploadDemo.caller (int 3000);
     CleanupPage (int 4000) None (int 10)] UploadDemo.created UploadDemo.laws (λ m m' He, He)
    UploadDemo.quiet UploadDemo.reports UploadDemo.ok_created) as (Hok & Hintents & _).
  split; [exact Hok|].
  destruct (Hintents UploadDemo.id
    match map_get (intentKey UploadDemo.id) (contents UploadDemo.created) with
    | Some r => r | None => Build_DurableRecord "" "" 0 0 0 None end
    (initial_intent UploadDemo.create UploadDemo.caller 5 900000 86400000) 1%Z)
    as (r' & i' & rev' & Hr' & Hd' & _ & [Hid _ _]); [vm_compute; reflexivity..|].
  exists r', i', rev'. split_and!; [exact Hr'|exact Hd'|]. by injection Hid.
Defined.

Lemma finalized_upload_is_bound_witness :
  let out := finalize (UploadDemo.upload 2500) UploadDemo.caller UploadDemo.done_ in
  ∃ ref1 ref2, (finalize (UploadDemo.upload 2000) UploadDemo.caller UploadDemo.created).1 = Ok ref1 ∧
    out.1 = Ok ref2 ∧ ref2 = ref1.
Proof.
  intros out. do 2 eexists. split; [vm_compute; reflexivity|].
  split; [vm_compute; reflexivity|].
  refine (proj1 (finalized_upload_is_bound contents upload_env UploadDemo.service
    (UploadDemo.upload 2000) UploadDemo.caller UploadDemo.created _
    (finalize (UploadDemo.upload 2000) UploadDemo.caller UploadDemo.created).2
    (UploadDemo.upload 2500) UploadDemo.caller UploadDemo.done_ _ out.2 UploadDemo.laws
    (λ m m' He, He) UploadDemo.quiet UploadDemo.ok_created _ (upload_env_refl _) eq_refl _));
    vm_compute; reflexivity.
Defined.

Lemma artifact_read_is_intact_witness :
  ∃ read, (readArtifact UploadDemo.ref UploadDemo.caller (int 2500) (int 100) UploadDemo.done_).1 = Ok read ∧
    contentDigest (read_bytes read) = ref_contentHash (read_ref read).
Proof.
  eexists. split; [vm_compute; reflexivity|].
  refine (proj1 (artifact_read_is_intact contents upload_env UploadDemo.service UploadDemo.ref
    UploadDemo.caller (int 2500) (int 100) UploadDemo.done_ _
    (readArtifact UploadDemo.ref UploadDemo.caller (int 2500) (int 100) UploadDemo.done_).2
    UploadDemo.laws (λ m m' He, He) UploadDemo.quiet _ UploadDemo.ok_done _)); [|vm_compute; reflexivity].
  intros k o d n s b. cbn. case_bool_decide; [|done]. by intros [= <-].
Defined.

Lemma deleted_artifact_is_never_read_witness :
  is_Throw (readArtifact UploadDemo.ref UploadDemo.caller (int 3500) (int 100) UploadDemo.gone).1.
Proof.
  refine (deleted_artifact_is_never_read contents upload_env UploadDemo.service UploadDemo.ref
    UploadDemo.caller (int 3000) UploadDemo.done_ UploadDemo.gone UploadDemo.caller (int 3500) (int 100)
    UploadDemo.gone UploadDemo.laws (λ m m' He, He) UploadDemo.quiet UploadDemo.ok_done _
    (upload_env_refl _)).
  vm_compute; reflexivity.
Defined.

(** ** A conflict that [getIntent] takes for an expiry *)

Module RaceDemo.
Definition any (m m' : memory) : Prop := True.
#[export] Instance port : DurableRecordStorePort (SharedStore any) := shared_port (λ _ _, 0%Z).

(** Another worker claims the intent just before its expiry is recorded. *)
Definition claimed : memory :=
  (match map_get (intentKey UploadDemo.id) (contents UploadDemo.created) with
   | Some r =>
       let i := initial_intent UploadDemo.create UploadDemo.caller 5 900000 86400000 in
       let f := new_finalization i (contentDigest UploadDemo.content) 5 900500 in
       [(rec_key r, updated_record r (write (intent_json (i <| in_status := finalizing |>
          <| in_finalization := Some f |> <| in_updatedAt := 900500%Z |>)) 900500
          (Some (fin_expiresAt f))))]
   | None => [] end).

Definition racing : SharedStore any :=
  {| contents := contents UploadDemo.created;
     turns := [Build_turn any (λ m, m) (λ _, I) None; Build_turn any (λ _, claimed) (λ _, I) None] |}.
End RaceDemo.

#[local] Existing Instance RaceDemo.port.

(** The caller is told that the intent expired while it is being finalized. *)
Lemma get_intent_reports_expired_on_conflict :
  let '(r, s') := getIntent UploadDemo.id UploadDemo.caller (int 901000) RaceDemo.racing in
  match r with Ok v => view_status v = intent_expired | Throw _ => False end ∧
  match map_get (intentKey UploadDemo.id) (contents s') with
  | Some record => match decodeIntent record with
                   | Ok (i, _) => in_status i = finalizing
                   | Throw _ => False
                   end
  | None => False
  end.
Proof. vm_compute. done. Qed.
