(* ===== verification/Base64Url.v ===== *)
(** * Base64url

    The unpadded base64url encoder of [src/worker/managed-tokens.ts] and
    [src/worker/internal-context.ts], and the decoder of the latter, on bytes
    and the 24-bit groups the code builds with shifts. *)

From S2P Require Import Prelude JsString Digest.

Definition BASE64URL_ALPHABET : string :=
  "ABCDEFGHIJKLMNOPQRSTUVWXYZabcdefghijklmnopqrstuvwxyz0123456789-_".

(** [BASE64URL_ALPHABET[(n >>> k) & 63]] *)
Definition sextet (n k : Z) : ascii :=
  nth (Z.to_nat (Z.land (Z.shiftr n k) 63)) (chars BASE64URL_ALPHABET) "A"%char.

Definition byte (c : ascii) : Z := Z.of_nat (nat_of_ascii c).

Fixpoint encode_groups (b : bytes) : list ascii :=
  match b with
  | x :: y :: z :: rest =>
      let n := Z.lor (Z.lor (Z.shiftl (byte x) 16) (Z.shiftl (byte y) 8)) (byte z) in
      sextet n 18 :: sextet n 12 :: sextet n 6 :: sextet n 0 :: encode_groups rest
  | [x; y] =>
      let n := Z.lor (Z.shiftl (byte x) 16) (Z.shiftl (byte y) 8) in
      [sextet n 18; sextet n 12; sextet n 6]
  | [x] => let n := Z.shiftl (byte x) 16 in [sextet n 18; sextet n 12]
  | [] => []
  end.

Definition encodeBase64Url (b : bytes) : string := unchars (encode_groups b).

(** [[A-Za-z0-9_-]] *)
Definition id_char (c : ascii) : bool := is_alnum c || one_of "_-" c.

Definition base64UrlEncodeString (input : string) : string := encodeBase64Url (utf8 input).

(** [rev.get(c)]: the index of a character in the alphabet. *)
Fixpoint index_in (c : ascii) (l : list ascii) : option Z :=
  match l with
  | [] => None
  | d :: l' => if bool_decide (d = c) then Some 0%Z else Z.succ <$> index_in c l'
  end.

Definition rev_get (c : ascii) : option Z := index_in c (chars BASE64URL_ALPHABET).

(** [(n >>> k) & 255], a byte. *)
Definition octet (n k : Z) : ascii := ascii_of_nat (Z.to_nat (Z.land (Z.shiftr n k) 255)).

Fixpoint decode_groups (l : list ascii) : option bytes :=
  match l with
  | [] => Some []
  | [_] => None
  | [c1; c2] =>
      a ← rev_get c1; b ← rev_get c2;
      let n := Z.lor (Z.shiftl a 18) (Z.shiftl b 12) in
      Some [octet n 16]
  | [c1; c2; c3] =>
      a ← rev_get c1; b ← rev_get c2; c ← rev_get c3;
      let n := Z.lor (Z.lor (Z.shiftl a 18) (Z.shiftl b 12)) (Z.shiftl c 6) in
      Some [octet n 16; octet n 8]
  | c1 :: c2 :: c3 :: c4 :: rest =>
      a ← rev_get c1; b ← rev_get c2; c ← rev_get c3; d ← rev_get c4;
      let n := Z.lor (Z.lor (Z.lor (Z.shiftl a 18) (Z.shiftl b 12)) (Z.shiftl c 6)) d in
      out ← decode_groups rest;
      Some (octet n 16 :: octet n 8 :: octet n 0 :: out)
  end.

(** [TextDecoder] is not fatal in the code: bytes that are not the UTF-8 of a
    string of the model's code units decode to a text with other characters,
    which the model leaves out. *)
Definition base64UrlDecodeToString (input : string) : option string :=
  if falsy input || (str_length input mod 4 =? 1)%Z then None
  else b ← decode_groups (chars input); utf8_decode b.

(** ** The round trip *)

Lemma nth_alphabet_char n : n < 64 → id_char (nth n (chars BASE64URL_ALPHABET) "A"%char) = true.
Proof.
  intros Hn. assert (Hall : forallb id_char (chars BASE64URL_ALPHABET) = true) by (vm_compute; done).
  rewrite forallb_forall in Hall. apply Hall, nth_In.
  replace (length (chars BASE64URL_ALPHABET)) with 64 by (vm_compute; done). done.
Qed.

Lemma land63_bound z : (0 <= Z.land z 63 < 64)%Z.
Proof. change 63%Z with (Z.ones 6). rewrite Z.land_ones by lia. apply Z.mod_pos_bound. lia. Qed.

Lemma sextet_char n k : id_char (sextet n k) = true.
Proof. apply nth_alphabet_char. pose proof (land63_bound (Z.shiftr n k)). lia. Qed.

(** Induction three bytes at a time. *)
Lemma bytes_ind3 (P : bytes → Prop) :
  P [] → (∀ x, P [x]) → (∀ x y, P [x; y]) → (∀ x y z b, P b → P (x :: y :: z :: b)) → ∀ b, P b.
Proof.
  intros H0 H1 H2 H3. fix IH 1. intros [|x [|y [|z b]]]; [exact H0|apply H1|apply H2|].
  apply H3, IH.
Qed.

Lemma encode_groups_chars b : forallb id_char (encode_groups b) = true.
Proof.
  induction b as [|x|x y|x y z b IH] using bytes_ind3; cbn [encode_groups forallb];
    rewrite ?sextet_char; done.
Qed.

Lemma length_encode_groups b : length (encode_groups b) = (4 * length b + 2) / 3.
Proof.
  induction b as [|x|x y|x y z b IH] using bytes_ind3; try done.
  cbn [encode_groups length]. rewrite IH.
  replace (4 * S (S (S (length b))) + 2) with (4 * 3 + (4 * length b + 2)) by lia.
  by rewrite Nat.div_add_l.
Qed.

Lemma lor_shiftl x y k : (0 <= k)%Z → (0 <= y < 2 ^ k)%Z → Z.lor (Z.shiftl x k) y = (x * 2 ^ k + y)%Z.
Proof.
  intros Hk Hy. rewrite <- Z.shiftl_mul_pow2 by done. symmetry.
  pose proof (Z.add_lor_land (Z.shiftl x k) y) as Hadd.
  assert (Hland : Z.land (Z.shiftl x k) y = 0%Z); [|lia].
  apply Z.bits_inj'. intros i Hi. rewrite Z.land_spec, Z.bits_0, Z.shiftl_spec by done.
  destruct (Z.ltb_spec i k); [by rewrite Z.testbit_neg_r by lia|].
  replace (Z.testbit y i) with false; [by rewrite andb_false_r|]. symmetry.
  destruct (decide (y = 0%Z)) as [->|]; [by apply Z.bits_0|].
  apply Z.bits_above_log2; [lia|]. apply Z.log2_lt_pow2; [lia|].
  eapply Z.lt_le_trans; [apply Hy|]. apply Z.pow_le_mono_r; lia.
Qed.

Lemma byte_bound c : (0 <= byte c < 256)%Z.
Proof. unfold byte. pose proof (nat_ascii_bounded c). lia. Qed.

Lemma octet_byte n k c : (0 <= k)%Z → ((n / 2 ^ k) mod 256)%Z = byte c → octet n k = c.
Proof.
  intros Hk Hn. unfold octet. rewrite Z.shiftr_div_pow2 by done. change 255%Z with (Z.ones 8).
  rewrite Z.land_ones by lia. change (2 ^ 8)%Z with 256%Z. rewrite Hn. unfold byte.
  by rewrite Nat2Z.id, ascii_nat_embedding.
Qed.

Lemma rev_get_nth n :
  n < 64 → rev_get (nth n (chars BASE64URL_ALPHABET) "A"%char) = Some (Z.of_nat n).
Proof.
  intros Hn.
  assert (Hall : forallb (λ n, bool_decide (rev_get (nth n (chars BASE64URL_ALPHABET) "A"%char) =
                                            Some (Z.of_nat n))) (seq 0 64) = true) by (vm_compute; done).
  rewrite forallb_forall in Hall. eapply bool_decide_eq_true, Hall, in_seq. lia.
Qed.

Lemma rev_get_sextet n k : (0 <= k)%Z → rev_get (sextet n k) = Some ((n / 2 ^ k) mod 64)%Z.
Proof.
  intros Hk. unfold sextet. pose proof (land63_bound (Z.shiftr n k)).
  rewrite rev_get_nth by lia. rewrite Z2Nat.id by lia.
  rewrite Z.shiftr_div_pow2 by done. change 63%Z with (Z.ones 6). by rewrite Z.land_ones.
Qed.

Lemma group3 x y z :
  (0 <= x < 256)%Z → (0 <= y < 256)%Z → (0 <= z < 256)%Z →
  Z.lor (Z.lor (Z.shiftl x 16) (Z.shiftl y 8)) z = (x * 65536 + y * 256 + z)%Z.
Proof.
  intros Hx Hy Hz. rewrite <- Z.lor_assoc, (lor_shiftl y z 8) by lia.
  rewrite lor_shiftl by lia. lia.
Qed.

Lemma group2 x y :
  (0 <= x < 256)%Z → (0 <= y < 256)%Z →
  Z.lor (Z.shiftl x 16) (Z.shiftl y 8) = (x * 65536 + y * 256)%Z.
Proof. intros Hx Hy. rewrite (Z.shiftl_mul_pow2 y) by lia. rewrite lor_shiftl by lia. lia. Qed.

(** The groups the decoder builds. *)
Lemma sextets2 a b :
  (0 <= b < 64)%Z → Z.lor (Z.shiftl a 18) (Z.shiftl b 12) = (a * 262144 + b * 4096)%Z.
Proof. intros Hb. rewrite (Z.shiftl_mul_pow2 b) by lia. rewrite lor_shiftl by lia. lia. Qed.

Lemma sextets3 a b c :
  (0 <= b < 64)%Z → (0 <= c < 64)%Z →
  Z.lor (Z.lor (Z.shiftl a 18) (Z.shiftl b 12)) (Z.shiftl c 6) = (a * 262144 + b * 4096 + c * 64)%Z.
Proof.
  intros Hb Hc. rewrite <- Z.lor_assoc, (Z.shiftl_mul_pow2 c) by lia.
  rewrite (lor_shiftl b _ 12) by lia. rewrite lor_shiftl by lia. lia.
Qed.

Lemma sextets4 a b c d :
  (0 <= b < 64)%Z → (0 <= c < 64)%Z → (0 <= d < 64)%Z →
  Z.lor (Z.lor (Z.lor (Z.shiftl a 18) (Z.shiftl b 12)) (Z.shiftl c 6)) d =
  (a * 262144 + b * 4096 + c * 64 + d)%Z.
Proof.
  intros Hb Hc Hd. rewrite <- !Z.lor_assoc, (lor_shiftl c d 6) by lia.
  rewrite (lor_shiftl b _ 12) by lia. rewrite lor_shiftl by lia. lia.
Qed.

Lemma base64_decode_encode b : decode_groups (encode_groups b) = Some b.
Proof.
  induction b as [|x|x y|x y z b IH] using bytes_ind3; cbn [encode_groups decode_groups]; [done|..];
    rewrite ?IH, !rev_get_sextet by lia; cbn [mbind option_bind];
    pose proof (byte_bound x); try pose proof (byte_bound y); try pose proof (byte_bound z).
  - rewrite sextets2, Z.shiftl_mul_pow2 by (lia || apply Z.mod_pos_bound; lia).
    do 2 f_equal. apply octet_byte; [lia|]. cbn [Z.pow Z.pow_pos Pos.iter Z.mul Pos.mul].
    Z.div_mod_to_equations. lia.
  - rewrite sextets3, group2 by (lia || apply Z.mod_pos_bound; lia).
    do 2 f_equal; [|f_equal]; (apply octet_byte; [lia|]); cbn [Z.pow Z.pow_pos Pos.iter Z.mul Pos.mul];
      Z.div_mod_to_equations; lia.
  - rewrite sextets4, group3 by (lia || apply Z.mod_pos_bound; lia).
    do 2 f_equal; [|f_equal; [|f_equal]]; (apply octet_byte; [lia|]);
      cbn [Z.pow Z.pow_pos Pos.iter Z.mul Pos.mul]; Z.div_mod_to_equations; lia.
Qed.

Lemma decode_string s :
  base64UrlDecodeToString (base64UrlEncodeString s) = if falsy s then None else Some s.
Proof.
  unfold base64UrlDecodeToString, base64UrlEncodeString, encodeBase64Url.
  destruct (falsy s) eqn:Hs; [apply bool_decide_eq_true in Hs; by subst|].
  apply falsy_false in Hs. destruct (falsy (unchars _)) eqn:He.
  - apply bool_decide_eq_true in He. destruct Hs. apply (inj Some). rewrite <- !utf8_decode_utf8.
    apply (f_equal chars) in He. rewrite chars_unchars in He. change (chars "") with (@nil ascii) in He.
    pose proof (base64_decode_encode (utf8 s)) as Hd. rewrite He in Hd. injection Hd as <-. done.
  - unfold str_length. rewrite length_unchars, length_encode_groups, chars_unchars, base64_decode_encode.
    cbn [mbind option_bind orb]. rewrite utf8_decode_utf8.
    destruct (_ =? 1)%Z eqn:Hm; [|done]. apply Z.eqb_eq in Hm. exfalso.
    rewrite Nat2Z.inj_div, Nat2Z.inj_add, Nat2Z.inj_mul in Hm. Z.div_mod_to_equations. lia.
Qed.

(** what [base64UrlEncodeString] writes, [base64UrlDecodeToString] reads
    back, except the empty string, which the decoder refuses; bytes take four
    characters of the alphabet for three, without padding. *)
Theorem base64url_roundtrip s b :
  base64UrlDecodeToString (base64UrlEncodeString s) = (if falsy s then None else Some s) ∧
  String.length (encodeBase64Url b) = (4 * length b + 2) / 3 ∧
  forallb id_char (chars (encodeBase64Url b)) = true.
Proof.
  unfold encodeBase64Url. rewrite chars_unchars, length_unchars.
  split_and!; [apply decode_string|apply length_encode_groups|apply encode_groups_chars].
Qed.
