(* ===== verification/WorkerHttp.v ===== *)
(** * Requests and responses of the worker

    The Fetch API's requests, responses and headers as the worker uses them,
    [jsonError] of [src/worker/http.ts], and the platform: random ids, the
    date, and the URL of a request, whose parts are the runtime's.

    A header set is a map from lower-case names. *)

From S2P Require Import Prelude JsString JsMap Json.

(** ** Headers *)

Definition Headers : Type := js_map string.

Definition delete_headers (names : list string) (h : Headers) : Headers :=
  foldl (λ h name, map_delete name h) h names.

Lemma map_get_delete_headers names h name :
  map_get name (delete_headers names h) = if decide (name ∈ names) then None else map_get name h.
Proof. apply map_get_delete_list. Qed.

(** ** Requests *)

Record Request := {
  rq_url : string;
  rq_method : string;
  rq_headers : Headers;
  rq_body : string
}.

(** [new Request(r, { headers })] *)
Definition with_headers (r : Request) (h : Headers) : Request :=
  {| rq_url := rq_url r; rq_method := rq_method r; rq_headers := h; rq_body := rq_body r |}.

(** ** Responses *)

Record Response := {
  rs_status : Z;
  rs_headers : Headers;
  rs_body : js_value
}.

Definition REQUEST_ID_HEADER : string := "x-request-id".

Definition jsonError (status : Z) (code message requestId : string) (headers : Headers) : Response :=
  {| rs_status := status;
     rs_headers := map_set REQUEST_ID_HEADER requestId
                     (map_set "content-type" "application/json; charset=utf-8" headers);
     rs_body := JObj [("error", JObj [("code", JStr code); ("message", JStr message)]);
                      ("requestId", JStr requestId)]%string |}.

(** [Response.json(body, { status, headers })] *)
Definition json_response (status : Z) (body : js_value) (requestId : string) : Response :=
  {| rs_status := status;
     rs_headers := [("content-type", "application/json"); (REQUEST_ID_HEADER, requestId)]%string;
     rs_body := body |}.

Definition bearer_challenge : Headers :=
  [("www-authenticate", "Bearer realm=" +:+ quoted "groundlane")]%string.

(** ** The platform *)

(** [crypto.randomUUID()] and [Date.now()], and the parts of a request's URL. *)
Class EdgePlatform (S : Type) := {
  random_uuid : S → string * S;
  date_now : S → Z * S
}.

Class RequestUrls := {
  pathname : string → string;
  search_param : string → string → option string
}.

Definition randomUUID {S} `{!EdgePlatform S} : M S string := λ s,
  let '(u, s') := random_uuid s in (Ok u, s').
Definition dateNow {S} `{!EdgePlatform S} : M S Z := λ s,
  let '(t, s') := date_now s in (Ok t, s').

(** Properties that are present when their value is. *)
Definition opt_field (name : string) (v : option string) : list (string * js_value) :=
  match v with Some s => [(name, JStr s)] | None => [] end.

Definition opt_num_field (name : string) (v : option Z) : list (string * js_value) :=
  match v with Some z => [(name, JNum z)] | None => [] end.
