(* ===== verification/WorkerAuth.v ===== *)
(** * Worker authentication

    [src/worker/auth.ts]: bearer headers and token comparison, principals,
    the headers a caller may not set, the authentication profile of a
    deployment, the check that its secrets differ, and the routes.  SHA-256 is
    [Sha256Api]. *)

From S2P Require Import Prelude JsString JsMap Digest WorkerHttp.

(** ** Bearer headers *)

(** [/^Bearer ([^\s]+)$/i] *)
Definition parseBearerToken (v : option string) : option string :=
  s ← v;
  rest ← lit (chars "bearer ") (chars s);
  match rest with
  | [] => None
  | _ => if forallb (λ c, negb (is_space c)) rest then Some (unchars rest) else None
  end.

(** Redact an Authorization value for logs. *)
Definition redactAuthorization (value : option string) : string :=
  match value with
  | None => "none"
  | Some _ =>
      match parseBearerToken value with
      | None => "non-bearer"
      | Some token => "bearer:len=" +:+ show (str_length token)
      end
  end.

Section digests.
Context `{!Sha256Api}.

Definition timingSafeTokenEqual (candidate expected : string) : bool :=
  bool_decide (sha256 (utf8 candidate) = sha256 (utf8 expected)).

Definition isBearerEqualToSecret (authorization : option string) (expectedSecret : string) : bool :=
  negb (falsy expectedSecret) &&
  timingSafeTokenEqual (default ""%string (parseBearerToken authorization)) expectedSecret.

Definition hasValidBearerToken (authorization : option string) (expectedToken : string) : bool :=
  isBearerEqualToSecret authorization expectedToken.
End digests.

(** ** Principals *)

Inductive DataPlaneAuthMethod := static_bearer | managed_token | oauth.

#[export] Instance DataPlaneAuthMethod_eq_dec : EqDecision DataPlaneAuthMethod.
Proof. solve_decision. Defined.

(** [principalId] is always "owner". *)
Record AuthenticatedPrincipal := {
  authMethod : DataPlaneAuthMethod;
  pr_scopes : list string;
  clientId : option string;
  credentialId : option string
}.

Definition createStaticPrincipal : AuthenticatedPrincipal :=
  {| authMethod := static_bearer; pr_scopes := ["mcp"%string]; clientId := None; credentialId := None |}.

Definition createManagedPrincipal (id : string) (scopes : list string) : AuthenticatedPrincipal :=
  {| authMethod := managed_token; pr_scopes := scopes; clientId := None; credentialId := Some id |}.

Definition createOAuthPrincipal (client : string) (scopes : list string) : AuthenticatedPrincipal :=
  {| authMethod := oauth; pr_scopes := scopes; clientId := Some client; credentialId := None |}.

(** ** Headers *)

Definition CALLER_PRINCIPAL_OVERRIDE_HEADERS : list string :=
  ["x-groundlane-principal"; "x-groundlane-tenant"; "x-groundlane-policy"; "x-groundlane-user";
   "x-groundlane-client"; "x-principal-id"; "x-tenant-id"; "x-user-id"; "x-policy"]%string.

Definition sanitizeCallerPrincipalHeaders (input : Headers) : Headers :=
  delete_headers CALLER_PRINCIPAL_OVERRIDE_HEADERS input.

(** ** Profiles *)

Inductive WorkerAuthProfile := local_static | worker_internal_context.

#[export] Instance WorkerAuthProfile_eq_dec : EqDecision WorkerAuthProfile.
Proof. solve_decision. Defined.

Record ProfileEnv := {
  GROUNDLANE_AUTH_MODE : option string;
  GROUNDLANE_INTERNAL_SIGNING_SECRET : option string
}.

Definition profile_name (p : WorkerAuthProfile) : string :=
  match p with local_static => "local_static" | worker_internal_context => "worker_internal_context" end.

Definition resolveWorkerAuthProfile (env : ProfileEnv) : WorkerAuthProfile :=
  if bool_decide (GROUNDLANE_AUTH_MODE env = Some (profile_name worker_internal_context))
  then worker_internal_context
  else if bool_decide (GROUNDLANE_AUTH_MODE env = Some (profile_name local_static)) then local_static
  else if falsy (default ""%string (GROUNDLANE_INTERNAL_SIGNING_SECRET env)) then local_static
  else worker_internal_context.

Definition assertSingleAuthProfile (env : ProfileEnv) : result WorkerAuthProfile :=
  let mode := trim (default ""%string (GROUNDLANE_AUTH_MODE env)) in
  throw_if (negb (bool_decide (mode = ""%string)) &&
            negb (bool_decide (mode = profile_name local_static)) &&
            negb (bool_decide (mode = profile_name worker_internal_context)))
    (TError ("Invalid GROUNDLANE_AUTH_MODE: " +:+ mode));;
  Ok (resolveWorkerAuthProfile env).

Definition allowsRawBearerAtContainer (profile : WorkerAuthProfile) : bool :=
  bool_decide (profile = local_static).

(** The profile, and whether the edge keeps the static bearer. *)
Definition describeEdgeBackwardCompat (profile : WorkerAuthProfile) : WorkerAuthProfile * bool :=
  (profile, true).

(** ** Distinct secrets *)

Record DistinctSecretSet := {
  adminToken : option string;
  legacyToken : option string;
  passphrase : option string;
  signingSecret : option string;
  providerSecrets : option (list string)
}.

(** [check(label, value)] on the secrets seen and the conflicts found. *)
Definition check_secret (st : js_map string * list string) (lv : string * option string)
    : js_map string * list string :=
  match lv.2 with
  | None => st
  | Some value =>
      if falsy value then st
      else match map_get value st.1 with
           | Some first => (st.1, st.2 ++ [lv.1 +:+ " reuses " +:+ first])
           | None => (map_set value lv.1 st.1, st.2)
           end
  end.

Definition provider_label (i : nat) : string := "provider[" +:+ show (Z.of_nat i) +:+ "]".

Definition labelled_secrets (secrets : DistinctSecretSet) : list (string * option string) :=
  [("GROUNDLANE_ADMIN_TOKEN"%string, adminToken secrets);
   ("GROUNDLANE_AUTH_TOKEN"%string, legacyToken secrets);
   ("OAUTH_OWNER_PASSPHRASE"%string, passphrase secrets);
   ("GROUNDLANE_INTERNAL_SIGNING_SECRET"%string, signingSecret secrets)] ++
  imap (λ i value, (provider_label i, Some value)) (default [] (providerSecrets secrets)).

Definition findSecretReuse (secrets : DistinctSecretSet) : list string :=
  (foldl check_secret ([], []) (labelled_secrets secrets)).2.

(** ** Routes *)

Definition isAdminCredentialsPath (pathname : string) : bool :=
  bool_decide (pathname = "/admin/credentials"%string) || startsWith pathname "/admin/credentials/".
Definition isMcpPath (pathname : string) : bool := bool_decide (pathname = "/mcp"%string).
Definition isReadyzPath (pathname : string) : bool := bool_decide (pathname = "/readyz"%string).
Definition isRegisterPath (pathname : string) : bool := bool_decide (pathname = "/register"%string).
Definition isOAuthPath (pathname : string) : bool :=
  bool_decide (pathname = "/authorize"%string) || bool_decide (pathname = "/token"%string) ||
  startsWith pathname "/token/" || startsWith pathname "/authorize/" ||
  startsWith pathname "/.well-known/oauth".

(** ** Facts *)

(** The secrets that are set. *)
Definition set_secrets (l : list (string * option string)) : list string :=
  filter (λ s, s ≠ ""%string) (omap snd l).

Lemma check_secrets_distinct l seen found :
  (foldl check_secret (seen, found) l).2 = [] ↔
  found = [] ∧ NoDup (set_secrets l) ∧ ∀ s, s ∈ set_secrets l → map_get s seen = None.
Proof.
  revert seen found. induction l as [|[label v] l IH]; intros seen found.
  { cbn. split; [|by intros (? & _)]. intros ->. split_and!; [done|constructor|].
    intros s Hs. by apply not_elem_of_nil in Hs. }
  cbn [foldl]. unfold check_secret at 2. cbn [fst snd].
  change (set_secrets ((label, v) :: l)) with
    (filter (λ s, s ≠ ""%string) (match v with Some s => s :: omap snd l | None => omap snd l end)).
  destruct v as [s|]; [|by rewrite IH].
  destruct (falsy s) eqn:Hs; unfold falsy in Hs; reflect.
  { subst s. rewrite IH, filter_cons_False by tauto. done. }
  rewrite filter_cons_True by done. change (filter _ (omap snd l)) with (set_secrets l).
  rewrite NoDup_cons. destruct (map_get s seen) as [first|] eqn:Hget; rewrite IH.
  - split; [|intros (-> & _ & Hd)].
    + intros (Hf & _). by destruct found.
    + specialize (Hd s ltac:(left)). congruence.
  - split; intros (-> & Hnd & Hd).
    + split_and!; [done| |done|].
      * intros Hin. specialize (Hd s Hin). by rewrite map_get_set_eq in Hd.
      * intros x [->|Hx]%elem_of_cons; [done|]. specialize (Hd x Hx). rewrite map_get_set in Hd. by case_decide.
    + destruct Hnd as [Hn Hnd]. split_and!; [done|done|]. intros x Hx. rewrite map_get_set.
      case_decide as Heq; [by subst|]. apply Hd. by right.
Qed.

(** no reuse is reported exactly when the secrets that are set, of every
    kind, are pairwise different. *)
Theorem secrets_distinct_iff secrets :
  findSecretReuse secrets = [] ↔ NoDup (set_secrets (labelled_secrets secrets)).
Proof.
  unfold findSecretReuse. rewrite check_secrets_distinct. split; [by intros (_ & ? & _)|].
  intros Hnd. by split_and!.
Qed.
