(* ===== verification/ManagedTokens.v ===== *)
(** * Managed tokens

    [src/worker/managed-tokens.ts]: the token format, credential
    records and their effective status, the store interface with its
    in-memory implementation, and the operations that create, authenticate,
    rotate, revoke, expire and list credentials.

    Times are [Date.now()] milliseconds.  The random source and the clock are
    the runtime's, reached through the state; SHA-256 is [Sha256Api]. *)

From S2P Require Import Prelude JsString JsMap Digest Base64Url WorkerHttp WorkerAuth.

(** ** Bounds *)

Definition MANAGED_TOKEN_PREFIX : string := "glmt_".
Definition DEFAULT_OVERLAP_SECONDS : Z := 3600.
Definition MIN_OVERLAP_SECONDS : Z := 0.
Definition MAX_OVERLAP_SECONDS : Z := 86400.
Definition MIN_SECRET_BYTES : nat := 32.
Definition MAX_LABEL_LENGTH : Z := 64.
Definition MAX_SCOPES : Z := 16.
Definition MAX_SCOPE_LENGTH : Z := 64.
Definition MAX_LIST_LIMIT : Z := 100.
Definition DEFAULT_LIST_LIMIT : Z := 50.
Definition MAX_AUDIT_RECORDS : nat := 500.
Definition MAX_IDEMPOTENCY_KEYS : Z := 200.
Definition ID_COLLISION_RETRY_MAX : nat := 5.
Definition MAX_IDEMPOTENCY_KEY_LENGTH : Z := 128.

(** ** Records *)

Inductive ManagedStoredStatus := active | rotating | revoked | disabled.
Inductive ManagedEffectiveStatus :=
  | eff_active | eff_rotating | eff_expired | eff_rotation_expired | eff_revoked | eff_disabled.

#[export] Instance ManagedStoredStatus_eq_dec : EqDecision ManagedStoredStatus.
Proof. solve_decision. Defined.
#[export] Instance ManagedEffectiveStatus_eq_dec : EqDecision ManagedEffectiveStatus.
Proof. solve_decision. Defined.

Definition status_name (st : ManagedStoredStatus) : string :=
  match st with
  | active => "active" | rotating => "rotating" | revoked => "revoked" | disabled => "disabled"
  end.

(** [principalId] is always "owner". *)
Record ManagedCredentialRecord := {
  id : string;
  verifier : string;
  scopes : list string;
  label : string;
  status : ManagedStoredStatus;
  createdAt : Z;
  updatedAt : Z;
  expiresAt : Z;
  validUntil : option Z;
  rotatedTo : option string;
  rotatedFrom : option string;
  revokedAt : option Z
}.

#[export] Instance ManagedCredentialRecord_eq_dec : EqDecision ManagedCredentialRecord.
Proof. solve_decision. Defined.

#[export] Instance ManagedCredentialRecord_updatable : Updatable ManagedCredentialRecord :=
  {| rebuild := λ r, Build_ManagedCredentialRecord (id r) (verifier r) (scopes r) (label r) (status r)
       (createdAt r) (updatedAt r) (expiresAt r) (validUntil r) (rotatedTo r) (rotatedFrom r)
       (revokedAt r) |}.

Record ManagedCredentialMetadata := {
  md_id : string;
  md_scopes : list string;
  md_label : string;
  md_status : ManagedStoredStatus;
  md_effectiveStatus : ManagedEffectiveStatus;
  md_usable : bool;
  md_createdAt : Z;
  md_updatedAt : Z;
  md_expiresAt : Z;
  md_validUntil : option Z;
  md_rotatedTo : option string;
  md_rotatedFrom : option string;
  md_revokedAt : option Z
}.

(** ** Digests *)

Section digests.
Context `{!Sha256Api}.

Definition computeVerifier (rawSecret : string) : string := sha256 (utf8 rawSecret).

Definition fingerprintForAudit (value : string) : string :=
  "sha256:" +:+ slice_to 16 (sha256 (utf8 ("groundlane-admin-fingerprint:" +:+ value))).
End digests.

(** ** Token format *)

(** [/^[A-Za-z0-9_-]{8,64}$/] *)
Definition isValidCredentialId (s : string) : bool :=
  (8 <=? str_length s)%Z && (str_length s <=? 64)%Z && forallb id_char (chars s).

Definition formatManagedToken (id rawSecret : string) : string :=
  MANAGED_TOKEN_PREFIX +:+ id +:+ "." +:+ rawSecret.

Definition isManagedTokenFormat (token : string) : bool := startsWith token MANAGED_TOKEN_PREFIX.

Definition is_dot (c : ascii) : bool := bool_decide (c = "."%char).

Definition parseManagedToken (rawToken : string) : option (string * string) :=
  if negb (startsWith rawToken MANAGED_TOKEN_PREFIX) then None
  else
    let rest := drop (String.length MANAGED_TOKEN_PREFIX) (chars rawToken) in
    let sep := length (take_while (λ c, negb (is_dot c)) rest) in
    if (sep =? 0) || (length rest <=? sep + 1) then None
    else
      let id := unchars (take sep rest) in
      let secret := drop (sep + 1) rest in
      if negb (isValidCredentialId id) then None
      else if (length secret <? 43) || (128 <? length secret) then None
      else if negb (forallb id_char secret) then None
      else Some (id, unchars secret).

Definition parseManagedTokenFromHeader (authorization : option string) : option (string * string) :=
  token ← parseBearerToken authorization; parseManagedToken token.

(** ** Checks of inputs *)

Definition ManagedTokenError (code message : string) : thrown := TCoded code message.

Definition invalid (message : string) : thrown := ManagedTokenError "validation" message.

Definition parseOverlapSeconds (input : js_value) : result Z :=
  match input with
  | JNum z =>
      throw_if ((z <? MIN_OVERLAP_SECONDS)%Z || (MAX_OVERLAP_SECONDS <? z)%Z)
        (invalid "overlapSeconds must be an integer 0..86400");;
      Ok z
  | _ => Throw (invalid "overlapSeconds must be an integer 0..86400")
  end.

Definition normalizeOverlapSeconds (input : js_value) : result Z :=
  if is_undefined input then Ok DEFAULT_OVERLAP_SECONDS else parseOverlapSeconds input.

(** [[A-Za-z0-9:_-]] *)
Definition scope_char (c : ascii) : bool := id_char c || bool_decide (c = ":"%char).

Definition scope_entry (entry : js_value) : result string :=
  match entry with
  | JStr s =>
      throw_if ((str_length s =? 0)%Z || (MAX_SCOPE_LENGTH <? str_length s)%Z)
        (invalid "invalid scope entry");;
      throw_if (negb (forallb scope_char (chars s))) (invalid "invalid scope entry");;
      Ok s
  | _ => Throw (invalid "invalid scope entry")
  end.

Fixpoint scope_entries (entries : list js_value) : result (list string) :=
  match entries with
  | [] => Ok []
  | e :: es => s ← scope_entry e; rest ← scope_entries es; Ok (s :: rest)
  end.

Definition validateScopes (scopes : js_value) : result (list string) :=
  match scopes with
  | JUndefined => Ok ["mcp"%string]
  | JArr entries =>
      throw_if (MAX_SCOPES <? Z.of_nat (length entries))%Z (invalid "too many scopes");;
      scope_entries entries
  | _ => Throw (invalid "scopes must be an array")
  end.

Definition validateLabel (label : js_value) : result string :=
  match label with
  | JUndefined => Ok ""%string
  | JStr s => throw_if (MAX_LABEL_LENGTH <? str_length s)%Z (invalid "invalid label");; Ok s
  | _ => Throw (invalid "invalid label")
  end.

Definition validateIdempotencyKey (key : js_value) : result (option string) :=
  match key with
  | JUndefined => Ok None
  | JStr s =>
      throw_if ((str_length s =? 0)%Z || (MAX_IDEMPOTENCY_KEY_LENGTH <? str_length s)%Z ||
                negb (forallb id_char (chars s))) (invalid "invalid idempotency key");;
      Ok (Some s)
  | _ => Throw (invalid "invalid idempotency key")
  end.

(** ** Effective status *)

Definition getEffectiveStatus (r : ManagedCredentialRecord) (now : Z)
    : ManagedEffectiveStatus * bool :=
  match status r with
  | revoked => (eff_revoked, false)
  | disabled => (eff_disabled, false)
  | active => if (now <? expiresAt r)%Z then (eff_active, true) else (eff_expired, false)
  | rotating =>
      match validUntil r with
      | None => (eff_rotation_expired, false)
      | Some v =>
          if (now <? Z.min v (expiresAt r))%Z then (eff_rotating, true)
          else if (now <? expiresAt r)%Z then (eff_rotation_expired, false)
          else (eff_expired, false)
      end
  end.

Definition toMetadata (r : ManagedCredentialRecord) (now : Z) : ManagedCredentialMetadata :=
  let '(effective, usable) := getEffectiveStatus r now in
  {| md_id := id r; md_scopes := scopes r; md_label := label r; md_status := status r;
     md_effectiveStatus := effective; md_usable := usable; md_createdAt := createdAt r;
     md_updatedAt := updatedAt r; md_expiresAt := expiresAt r; md_validUntil := validUntil r;
     md_rotatedTo := rotatedTo r; md_rotatedFrom := rotatedFrom r; md_revokedAt := revokedAt r |}.

(** ** The store *)

(** [Pick<ManagedCredentialRecord, "status" | "validUntil" | "rotatedTo" | "updatedAt">] *)
Record RotateUpdate := {
  ru_status : ManagedStoredStatus;
  ru_validUntil : option Z;
  ru_rotatedTo : option string;
  ru_updatedAt : Z
}.

Inductive RotateTransition := Rotated | RotateRefused (reason : string).

#[export] Instance RotateTransition_eq_dec : EqDecision RotateTransition.
Proof. solve_decision. Defined.

Class ManagedTokenStore (S : Type) := {
  mt_getById : string → M S (option ManagedCredentialRecord);
  mt_insert : ManagedCredentialRecord → M S unit;
  mt_tryRotate : string → RotateUpdate → ManagedCredentialRecord → M S RotateTransition;
  mt_revokeById : string → Z → M S (option ManagedCredentialRecord);
  mt_expireById : string → Z → M S (option ManagedCredentialRecord);
  mt_scan : M S (list ManagedCredentialRecord)
}.

(** *** [FakeManagedTokenStore] *)

Definition rows_map : Type := js_map ManagedCredentialRecord.

Record FakeManagedTokenStore := {
  rows : rows_map;
  unavailable : bool;
  getByIdCalls : Z;
  scanCalls : Z
}.

#[export] Instance FakeManagedTokenStore_updatable : Updatable FakeManagedTokenStore :=
  {| rebuild := λ s, Build_FakeManagedTokenStore (rows s) (unavailable s) (getByIdCalls s) (scanCalls s) |}.

Definition setUnavailable (b : bool) (s : FakeManagedTokenStore) : FakeManagedTokenStore :=
  s <| unavailable := b |>.

Definition seed (r : ManagedCredentialRecord) (s : FakeManagedTokenStore) : FakeManagedTokenStore :=
  s <| rows := map_set (id r) r (rows s) |>.

Definition store_unavailable : thrown := ManagedTokenError "storage_unavailable" "auth store unavailable".

Definition duplicate_id : thrown := ManagedTokenError "duplicate_id" "credential id collision".

Definition assertAvailable : M FakeManagedTokenStore unit :=
  s ← get; lift (throw_if (unavailable s) store_unavailable).

(** What the operations do to the rows. *)
Definition rows_insert (r : ManagedCredentialRecord) : M rows_map unit :=
  m ← get;
  lift (throw_if (map_has (id r) m) duplicate_id);;
  update (map_set (id r) r).

Definition rotated_record (current : ManagedCredentialRecord) (u : RotateUpdate) : ManagedCredentialRecord :=
  current <| status := ru_status u |> <| validUntil := ru_validUntil u |>
          <| rotatedTo := ru_rotatedTo u |> <| updatedAt := ru_updatedAt u |>.

Definition rows_tryRotate (oldId : string) (u : RotateUpdate) (next : ManagedCredentialRecord)
    : M rows_map RotateTransition :=
  m ← get;
  match map_get oldId m with
  | None => mret (RotateRefused "not_found")
  | Some current =>
      if negb (bool_decide (status current = active))
      then mret (RotateRefused ("status:" +:+ status_name (status current)))
      else if bool_decide (rotatedTo current ≠ None) then mret (RotateRefused "already_rotated")
      else if map_has (id next) m then mret (RotateRefused "id_collision")
      else if negb (bool_decide (rotatedFrom next = Some oldId)) ||
              negb (bool_decide (ru_rotatedTo u = Some (id next)))
      then mret (RotateRefused "lineage_mismatch")
      else
        update (map_set oldId (rotated_record current u));;
        update (map_set (id next) next);;
        mret Rotated
  end.

Definition revoked_record (current : ManagedCredentialRecord) (now : Z) : ManagedCredentialRecord :=
  current <| status := revoked |> <| revokedAt := Some now |> <| updatedAt := now |>.

Definition rows_revoke (i : string) (now : Z) : M rows_map (option ManagedCredentialRecord) :=
  m ← get;
  match map_get i m with
  | None => mret None
  | Some current =>
      if bool_decide (status current = revoked) then mret (Some current)
      else
        update (map_set i (revoked_record current now));;
        mret (Some (revoked_record current now))
  end.

Definition expired_record (current : ManagedCredentialRecord) (now : Z) : ManagedCredentialRecord :=
  current <| expiresAt := Z.min (expiresAt current) now |> <| updatedAt := now |>.

Definition rows_expire (i : string) (now : Z) : M rows_map (option ManagedCredentialRecord) :=
  m ← get;
  match map_get i m with
  | None => mret None
  | Some current =>
      update (map_set i (expired_record current now));;
      mret (Some (expired_record current now))
  end.

(** The comparator never says "equal": rows created at the same time keep
    their order, as in a merge sort that asks whether a later row is less. *)
Fixpoint insert_row (r : ManagedCredentialRecord) (l : list ManagedCredentialRecord)
    : list ManagedCredentialRecord :=
  match l with
  | [] => [r]
  | x :: l' => if (createdAt x <? createdAt r)%Z then x :: insert_row r l' else r :: l
  end.

Definition sort_rows (l : list ManagedCredentialRecord) : list ManagedCredentialRecord :=
  foldr insert_row [] l.

(** An operation on the rows of the store. *)
Definition on_rows {A} (op : M rows_map A) : M FakeManagedTokenStore A := λ s,
  let '(r, m) := op (rows s) in (r, s <| rows := m |>).

#[export] Instance fake_store : ManagedTokenStore FakeManagedTokenStore := {
  mt_getById i :=
    update (λ s, s <| getByIdCalls := (getByIdCalls s + 1)%Z |>);;
    assertAvailable;;
    on_rows (gets (map_get i));
  mt_insert r := assertAvailable;; on_rows (rows_insert r);
  mt_tryRotate oldId u next := assertAvailable;; on_rows (rows_tryRotate oldId u next);
  mt_revokeById i now := assertAvailable;; on_rows (rows_revoke i now);
  mt_expireById i now := assertAvailable;; on_rows (rows_expire i now);
  mt_scan :=
    update (λ s, s <| scanCalls := (scanCalls s + 1)%Z |>);;
    assertAvailable;;
    on_rows (gets (λ m, sort_rows m.*2))
}.

(** ** The runtime *)

(** [clock.now()] and the random source, which do not fail. *)
Class ManagedRuntime (S : Type) := {
  clock_now : S → Z * S;
  random_bytes : nat → S → bytes * S
}.

Definition now {S} `{!ManagedRuntime S} : M S Z := λ s, let '(t, s') := clock_now s in (Ok t, s').
Definition random {S} `{!ManagedRuntime S} (n : nat) : M S bytes := λ s,
  let '(b, s') := random_bytes n s in (Ok b, s').

Definition generateCredentialId {S} `{!ManagedRuntime S} : M S string :=
  b ← random 12; mret ("cred_" +:+ slice_to 16 (encodeBase64Url b)).

Definition generateRawSecret {S} `{!ManagedRuntime S} : M S string :=
  b ← random MIN_SECRET_BYTES; mret (encodeBase64Url b).

(** ** Creation and authentication *)

Section operations.
Context {S : Type} `{!Sha256Api} `{!ManagedTokenStore S} `{!ManagedRuntime S}.

(** [id] is a string; what the caller passes is checked by the pattern only. *)
Record CreateManagedInput := {
  ci_label : js_value;
  ci_scopes : js_value;
  ci_expiresAt : number;
  ci_id : option string
}.

Definition is_duplicate (e : thrown) : bool :=
  match e with TCoded code _ => bool_decide (code = "duplicate_id"%string) | _ => false end.

Definition new_credential (i secret_verifier : string) (scopes : list string) (label : string)
    (nowMs expires : Z) (from : option string) : ManagedCredentialRecord :=
  {| id := i; verifier := secret_verifier; scopes := scopes; label := label; status := active;
     createdAt := nowMs; updatedAt := nowMs; expiresAt := expires; validUntil := None;
     rotatedTo := None; rotatedFrom := from; revokedAt := None |}.

(** The loop, [tries] attempts from the last one down to the first. *)
Fixpoint create_attempts (tries : nat) (candidateId : option string)
    (record : string → ManagedCredentialRecord) (rawSecret : string)
    : M S (ManagedCredentialRecord * string) :=
  match tries with
  | O => throw (ManagedTokenError "conflict" "id allocation failed")
  | Datatypes.S tries' =>
      i ← match candidateId with Some i => mret i | None => generateCredentialId end;
      inserted ← attempt (mt_insert (record i));
      match inserted with
      | inl _ => mret (record i, formatManagedToken i rawSecret)
      | inr e =>
          if is_duplicate e && bool_decide (candidateId = None) && negb (tries' =? 0)
          then create_attempts tries' candidateId record rawSecret
          else throw e
      end
  end.

Definition createManagedCredential (input : CreateManagedInput) : M S (ManagedCredentialRecord * string) :=
  nowMs ← now;
  lift (throw_if (negb (isInteger (ci_expiresAt input)) || num_leb (ci_expiresAt input) (int nowMs))
    (invalid "expiresAt must be a future integer ms"));;
  label ← lift (validateLabel (ci_label input));
  scopes ← lift (validateScopes (ci_scopes input));
  lift (throw_if (match ci_id input with
                  | Some i => negb (isValidCredentialId i) | None => false end)
    (invalid "invalid credential id"));;
  rawSecret ← generateRawSecret;
  create_attempts (Datatypes.S ID_COLLISION_RETRY_MAX) (ci_id input)
    (λ i, new_credential i (computeVerifier rawSecret) scopes label nowMs
            (to_Z (ci_expiresAt input)) None) rawSecret.

Definition authenticateManagedToken (rawToken : string) : M S (option AuthenticatedPrincipal) :=
  match parseManagedToken rawToken with
  | None => mret None
  | Some (i, secret) =>
      stored ← mt_getById i;
      match stored with
      | None => mret None
      | Some r =>
          if bool_decide (status r = revoked) || bool_decide (status r = disabled) then mret None
          else if negb (timingSafeTokenEqual (computeVerifier secret) (verifier r)) then mret None
          else
            nowMs ← now;
            if (getEffectiveStatus r nowMs).2
            then mret (Some (createManagedPrincipal (id r) (scopes r)))
            else mret None
      end
  end.

(** ** Revocation, expiry and listing *)

Definition unknown_credential : thrown := ManagedTokenError "not_found" "unknown credential".

Definition revokeManagedCredential (i : string) : M S ManagedCredentialRecord :=
  nowMs ← now;
  stored ← mt_revokeById i nowMs;
  match stored with None => throw unknown_credential | Some r => mret r end.

Definition expireManagedCredential (i : string) : M S ManagedCredentialRecord :=
  nowMs ← now;
  stored ← mt_expireById i nowMs;
  match stored with None => throw unknown_credential | Some r => mret r end.

(** The page a list of rows shows from an offset. *)
Definition page_of {A} (offset limit : Z) (l : list A) : list A :=
  take (Z.to_nat limit) (drop (Z.to_nat offset) l).

Definition page_cursor {A} (offset limit : Z) (l : list A) : option string :=
  if (offset + limit <? Z.of_nat (length l))%Z then Some (show (offset + limit)) else None.

(** [Number(cursor)], an offset. *)
Definition cursor_offset (cursor : option string) (what : string) : result Z :=
  match cursor with
  | None => Ok 0%Z
  | Some c =>
      let decoded := Number_of_string c in
      throw_if (negb (isInteger decoded) || num_ltb decoded (int 0)) (invalid what);;
      Ok (to_Z decoded)
  end.

Definition listManagedMetadata (limit : option number) (cursor : option string) : M S (list ManagedCredentialMetadata * option string) :=
  let limit := match limit with None => int DEFAULT_LIST_LIMIT | Some l => num_floor_div l 1 end in
  lift (throw_if (negb (isInteger limit) || num_leb limit (int 0) || num_ltb (int MAX_LIST_LIMIT) limit)
    (invalid ("limit must be 1.." +:+ show MAX_LIST_LIMIT)));;
  offset ← lift (cursor_offset cursor "invalid cursor");
  rows ← mt_scan;
  nowMs ← now;
  mret ((λ r, toMetadata r nowMs) <$> page_of offset (to_Z limit) rows,
        page_cursor offset (to_Z limit) rows).
End operations.

(** ** Rotation, idempotency keys and the audit log

    The idempotency entries and the audit log are objects of the process,
    next to the store behind [S]. *)

Inductive AuditKind := audit_create | audit_rotate | audit_revoke | audit_expire.
Inductive AuditResult :=
  | audit_ok | audit_conflict | audit_not_found | audit_validation_error | audit_storage_unavailable.

Record AuditRecord := {
  opId : string;
  adminFingerprint : string;
  kind : AuditKind;
  au_oldId : option string;
  au_newId : option string;
  au_overlapSeconds : option Z;
  commitTime : Z;
  au_result : AuditResult
}.

Record Desk (S : Type) := {
  backend : S;
  idempotency : js_map string;
  audits : list AuditRecord;
  opCounter : Z
}.
Arguments backend {S} _.
Arguments idempotency {S} _.
Arguments audits {S} _.
Arguments opCounter {S} _.
Arguments Build_Desk {S} _ _ _ _.

Definition with_backend {S} (d : Desk S) (b : S) : Desk S :=
  Build_Desk b (idempotency d) (audits d) (opCounter d).
Definition with_idempotency {S} (d : Desk S) (m : js_map string) : Desk S :=
  Build_Desk (backend d) m (audits d) (opCounter d).
Definition with_audits {S} (d : Desk S) (l : list AuditRecord) : Desk S :=
  Build_Desk (backend d) (idempotency d) l (opCounter d).

Definition on_backend {S A} (op : M S A) : M (Desk S) A := λ d,
  let '(r, b) := op (backend d) in (r, with_backend d b).

(** [RotateIdempotencyStore]: a full store forgets its oldest entry. *)
Definition idem_set (key newId : string) (m : js_map string) : js_map string :=
  let m := if (MAX_IDEMPOTENCY_KEYS <=? map_count m)%Z
           then match m with (k, _) :: _ => map_delete k m | [] => m end
           else m in
  map_set key newId m.

(** [BoundedAuditLog.append] *)
Definition audit_append (max : nat) (r : AuditRecord) (l : list AuditRecord) : list AuditRecord :=
  let l := l ++ [r] in drop (length l - max) l.

Definition audit_list (limit : option number) (cursor : option string) (l : list AuditRecord)
    : result (list AuditRecord * option string) :=
  let limit := default (int DEFAULT_LIST_LIMIT) limit in
  throw_if (negb (isInteger limit) || num_leb limit (int 0) || num_ltb (int MAX_LIST_LIMIT) limit)
    (invalid "invalid audit limit");;
  offset ← cursor_offset cursor "invalid audit cursor";
  Ok (page_of offset (to_Z limit) l, page_cursor offset (to_Z limit) l).

Record RotateManagedInput := {
  ri_oldId : string;
  ri_overlapSeconds : js_value;
  ri_newId : option string;
  ri_idempotencyKey : js_value
}.

Record RotateManagedResult := {
  newRecord : ManagedCredentialRecord;
  rawToken : option string;
  isReplay : bool;
  newId : string;
  overlapSeconds : Z
}.

(** [secretAvailable] says whether the token is given. *)
Definition secretAvailable (r : RotateManagedResult) : bool := bool_decide (rawToken r ≠ None).

Section rotation.
Context {S : Type} `{!Sha256Api} `{!ManagedTokenStore S} `{!ManagedRuntime S}.

Definition scoped_key (oldId : string) (key : option string) : option string :=
  (λ k, oldId +:+ ":" +:+ k) <$> key.

(** The checks of the credential that is to rotate. *)
Definition check_rotatable (old : ManagedCredentialRecord) (nowMs : Z) : result unit :=
  throw_if (negb (bool_decide (status old = active)))
    (ManagedTokenError "conflict"
       ("rotate requires active credential (status:" +:+ status_name (status old) +:+ ")"));;
  throw_if (bool_decide (rotatedTo old ≠ None))
    (ManagedTokenError "conflict" "credential already rotated");;
  throw_if (negb (nowMs <? expiresAt old)%Z) (ManagedTokenError "conflict" "credential expired").

Definition rotate_update (newId : string) (validUntilMs nowMs : Z) : RotateUpdate :=
  {| ru_status := rotating; ru_validUntil := Some validUntilMs; ru_rotatedTo := Some newId;
     ru_updatedAt := nowMs |}.

(** The loop over successor ids; the result is the successor. *)
Fixpoint rotate_attempts (tries : nat) (chosen : option string) (old : ManagedCredentialRecord)
    (secret_verifier : string) (nowMs validUntilMs : Z) (lastCollision : option thrown)
    : M S ManagedCredentialRecord :=
  match tries with
  | O => throw (default (ManagedTokenError "conflict" "id allocation failed") lastCollision)
  | Datatypes.S tries' =>
      i ← match chosen with Some i => mret i | None => generateCredentialId end;
      if bool_decide (i = id old) then
        match chosen with
        | Some _ => throw (invalid "successor id must differ")
        | None => rotate_attempts tries' chosen old secret_verifier nowMs validUntilMs (Some duplicate_id)
        end
      else
        let next := new_credential i secret_verifier (scopes old) (label old) nowMs (expiresAt old)
                      (Some (id old)) in
        transition ← mt_tryRotate (id old) (rotate_update i validUntilMs nowMs) next;
        match transition with
        | Rotated => mret next
        | RotateRefused reason =>
            if bool_decide (reason = "id_collision"%string) then
              match chosen with
              | Some _ => throw (ManagedTokenError "conflict" "credential id collision")
              | None =>
                  rotate_attempts tries' chosen old secret_verifier nowMs validUntilMs (Some duplicate_id)
              end
            else throw (ManagedTokenError "conflict" ("rotate conflict (" +:+ reason +:+ ")"))
        end
  end.

(** A new rotation, with the successor and its secret. *)
Definition rotate_fresh (input : RotateManagedInput) (overlap : Z)
    : M S (ManagedCredentialRecord * string) :=
  nowMs ← now;
  found ← mt_getById (ri_oldId input);
  match found with
  | None => throw unknown_credential
  | Some old =>
      lift (check_rotatable old nowMs);;
      rawSecret ← generateRawSecret;
      next ← rotate_attempts (Datatypes.S ID_COLLISION_RETRY_MAX) (ri_newId input) old
               (computeVerifier rawSecret) nowMs (nowMs + overlap * 1000) None;
      mret (next, rawSecret)
  end.

Definition rotateManagedCredential (input : RotateManagedInput) : M (Desk S) RotateManagedResult :=
  key ← lift (validateIdempotencyKey (ri_idempotencyKey input));
  overlap ← lift (normalizeOverlapSeconds (ri_overlapSeconds input));
  lift (throw_if (match ri_newId input with
                  | Some i => negb (isValidCredentialId i) | None => false end)
    (invalid "invalid credential id"));;
  let scopedKey := scoped_key (ri_oldId input) key in
  replay ← gets (λ d, k ← scopedKey; map_get k (idempotency d));
  match replay with
  | Some newId =>
      stored ← on_backend (mt_getById newId);
      match stored with
      | None => throw (ManagedTokenError "conflict" "idempotency replay missing successor")
      | Some r =>
          mret {| newRecord := r; rawToken := None; isReplay := true; newId := id r;
                  overlapSeconds := overlap |}
      end
  | None =>
      '(next, rawSecret) ← on_backend (rotate_fresh input overlap);
      match scopedKey with
      | Some k => update (λ d, with_idempotency d (idem_set k (id next) (idempotency d)))
      | None => mret tt
      end;;
      mret {| newRecord := next; rawToken := Some (formatManagedToken (id next) rawSecret);
              isReplay := false; newId := id next; overlapSeconds := overlap |}
  end.
End rotation.
