(* ===== verification/ManagedTokensSafety.v ===== *)
(** * Correctness of managed tokens

    The token text is parsed back exactly, authentication admits exactly the
    live credentials, and under any interleaving of the service's calls
    credentials only move forward, with one successor each. *)

From S2P Require Import Prelude Interference JsString JsMap Digest Base64Url WorkerHttp WorkerAuth ManagedTokens.

(** ** The token text *)

Lemma id_char_no_dot l : forallb id_char l = true → Forall (λ c, negb (is_dot c) = true) l.
Proof.
  rewrite forallb_forall. intros Hl. apply Forall_forall. intros c Hc%list_elem_of_In.
  specialize (Hl c Hc). unfold is_dot. case_bool_decide as Hd; [|done]. by subst c.
Qed.

Lemma take_while_stop f (l : list ascii) c rest :
  Forall (λ x, f x = true) l → f c = false → take_while f (l ++ c :: rest) = l.
Proof. intros Hl Hc. induction Hl as [|x l Hx Hl IH]; cbn; [by rewrite Hc|]. by rewrite Hx, IH. Qed.

Lemma take_while_split f (l : list ascii) :
  length (take_while f l) < length l →
  ∃ c rest, l = take_while f l ++ c :: rest ∧ f c = false.
Proof.
  induction l as [|x l IH]; cbn; [lia|]. destruct (f x) eqn:Hx; cbn.
  - intros Hlt. destruct IH as (c & rest & Hl & Hc); [lia|]. exists c, rest. split; [congruence|done].
  - intros _. by exists x, l.
Qed.

Definition secret_text (s : string) : bool :=
  (43 <=? String.length s) && (String.length s <=? 128) && forallb id_char (chars s).

Lemma secret_text_iff s :
  secret_text s = true ↔ 43 ≤ String.length s ≤ 128 ∧ forallb id_char (chars s) = true.
Proof. unfold secret_text. rewrite !andb_true_iff, !Nat.leb_le. tauto. Qed.

Lemma chars_format i s :
  chars (formatManagedToken i s) = chars MANAGED_TOKEN_PREFIX ++ chars i ++ "."%char :: chars s.
Proof. unfold formatManagedToken. by rewrite !chars_app. Qed.

Lemma valid_id_chars i : isValidCredentialId i = true → forallb id_char (chars i) = true ∧ i ≠ ""%string.
Proof.
  unfold isValidCredentialId. intros H. reflect. split; [done|]. intros ->. done.
Qed.

Lemma parse_format i s :
  isValidCredentialId i = true → secret_text s = true →
  parseManagedToken (formatManagedToken i s) = Some (i, s).
Proof.
  intros Hi Hs. destruct (valid_id_chars i Hi) as [Hic Hne].
  apply secret_text_iff in Hs as [[Hmin Hmax] Hsc].
  unfold parseManagedToken, startsWith. rewrite chars_format, is_prefix_app. cbn [negb].
  rewrite <- length_chars, drop_app_length. cbv zeta.
  rewrite take_while_stop by (by try apply id_char_no_dot).
  rewrite length_app. cbn [length]. rewrite !length_chars.
  destruct (String.length i =? 0) eqn:Hz; [by destruct i|].
  destruct (_ <=? String.length i + 1) eqn:Hl; [apply Nat.leb_le in Hl; lia|]. cbn [orb].
  rewrite <- (length_chars i), take_app_length, unchars_chars, Hi. cbn [negb].
  replace (drop (length (chars i) + 1) _) with (chars s)
    by (rewrite <- drop_drop, drop_app_length; done).
  rewrite length_chars. destruct (_ <? 43) eqn:Hlo; [apply Nat.ltb_lt in Hlo; lia|].
  destruct (128 <? _) eqn:Hhi; [apply Nat.ltb_lt in Hhi; lia|]. cbn [orb].
  rewrite Hsc. cbn [negb]. by rewrite unchars_chars.
Qed.

Lemma parse_inv t i s :
  parseManagedToken t = Some (i, s) →
  t = formatManagedToken i s ∧ isValidCredentialId i = true ∧ secret_text s = true.
Proof.
  unfold parseManagedToken. destruct (startsWith t _) eqn:Hp; [|done]. cbn [negb]. cbv zeta.
  destruct (is_prefix_inv _ _ Hp) as [rest Hrest]. rewrite Hrest.
  rewrite <- (length_chars MANAGED_TOKEN_PREFIX), drop_app_length.
  set (f := λ c, negb (is_dot c)).
  destruct (_ || _) eqn:Hsep; [done|]. reflect.
  match goal with H : (length rest <=? _) = false |- _ => apply Nat.leb_gt in H; rename H into Hlt end.
  destruct (take_while_split f rest ltac:(lia)) as (c & tl & Hr & Hc).
  set (l := take_while f rest) in *. clearbody l. subst rest.
  rewrite take_app_length, <- drop_drop, drop_app_length. change (drop 1 (c :: tl)) with tl.
  destruct (isValidCredentialId _) eqn:Hid; [|done]. cbn [negb].
  destruct (_ || _) eqn:Hlen; [done|]. destruct (forallb id_char tl) eqn:Hs; [|done]. cbn [negb].
  intros [= <- <-]. split_and!; [|done|].
  - apply chars_inj. rewrite chars_format, Hrest, !chars_unchars. do 3 f_equal. unfold f, is_dot in Hc. by reflect.
  - apply secret_text_iff. rewrite chars_unchars, length_unchars.
    apply orb_false_iff in Hlen as [Hmin%Nat.ltb_ge Hmax%Nat.ltb_ge]. done.
Qed.

(** a token is parsed into the id and secret it was formatted from, and
    nothing but such a text of a valid id and a 43 to 128 character secret
    is accepted, so no token names two credentials. *)
Theorem token_parse_iff t i s :
  parseManagedToken t = Some (i, s) ↔
  t = formatManagedToken i s ∧ isValidCredentialId i = true ∧ secret_text s = true.
Proof.
  split; [apply parse_inv|]. intros (-> & Hi & Hs). by apply parse_format.
Qed.

(** ** Authentication *)

(** Two results that cannot agree. *)
Ltac no_such_case :=
  cbn; split; [discriminate|]; intros;
  repeat match goal with
  | H : ex _ |- _ => destruct H
  | H : _ ∧ _ |- _ => destruct H
  end; congruence.

(** The credential can be used at [t]. *)
Definition live (r : ManagedCredentialRecord) (t : Z) : Prop :=
  (t < expiresAt r)%Z ∧
  (status r = active ∨ status r = rotating ∧ ∃ v, validUntil r = Some v ∧ (t < v)%Z).

Lemma usable_iff r t : (getEffectiveStatus r t).2 = true ↔ live r t.
Proof.
  unfold getEffectiveStatus, live. destruct (status r); cbn.
  - destruct (Z.ltb_spec t (expiresAt r)); cbn; [by split; auto|]. split; [done|]. intros [? _]. lia.
  - destruct (validUntil r) as [v|]; cbn;
      [|split; [done|]; intros [_ [?|(_ & ? & ? & _)]]; done].
    destruct (Z.ltb_spec t (Z.min v (expiresAt r))); cbn.
    + split; [|done]. intros _. split; [lia|]. right. split; [done|]. exists v. split; [done|lia].
    + destruct (Z.ltb_spec t (expiresAt r)); cbn; (split; [done|]);
          intros [? [?|(_ & v1 & [= <-] & ?)]]; done || lia.
  - split; [done|]. intros [_ [?|[? _]]]; done.
  - split; [done|]. intros [_ [?|[? _]]]; done.
Qed.

Section authentication.
Context {S : Type} `{!Sha256Api} `{!ManagedTokenStore S} `{!ManagedRuntime S}.

(** a token is authenticated exactly when it parses, the store returns the
    record of its id, the verifier of its secret has the digest of the stored
    one, and the record is live at the time read after that; the principal
    carries the record's id and scopes.  Storage failures are passed on:
    nothing is admitted without the store. *)
Theorem managed_authentication_iff t s s' :
  (∀ p, authenticateManagedToken t s = (Ok (Some p), s') ↔
     ∃ i secret r s1 nowMs, parseManagedToken t = Some (i, secret) ∧
       mt_getById i s = (Ok (Some r), s1) ∧
       sha256 (utf8 (computeVerifier secret)) = sha256 (utf8 (verifier r)) ∧
       clock_now s1 = (nowMs, s') ∧ live r nowMs ∧ p = createManagedPrincipal (id r) (scopes r)) ∧
  (∀ e, authenticateManagedToken t s = (Throw e, s') ↔
     ∃ i secret, parseManagedToken t = Some (i, secret) ∧ mt_getById i s = (Throw e, s')).
Proof.
  unfold authenticateManagedToken.
  destruct (parseManagedToken t) as [[i secret]|]; [|by split; intros; no_such_case].
  unfold mbind, M_bind.
  destruct (mt_getById i s) as [[[r|]|e0] s1] eqn:Hget; [| |]; [|by split; intros; no_such_case|].
  2: { split; [by intros; no_such_case|]. intros e. split; [intros [= <- <-]; eauto|].
       intros (? & ? & [= <- <-] & ?). congruence. }
  destruct (bool_decide (status r = revoked) || bool_decide (status r = disabled)) eqn:Hst.
  { split; [|by intros; no_such_case]. intros p. split; [done|].
    intros (? & ? & r' & ? & nowMs & [= <- <-] & Hr & _ & _ & [_ Hl] & _). rewrite Hget in Hr.
    injection Hr as <- <-.
    apply orb_true_iff in Hst as [Hst|Hst]; reflect; destruct Hl as [?|[? _]]; congruence. }
  unfold timingSafeTokenEqual.
  destruct (bool_decide (sha256 _ = sha256 _)) eqn:Hv; reflect; cbn [negb];
    [|by split; intros; no_such_case].
  unfold now. destruct (clock_now s1) as [nowMs s2] eqn:Hclock. cbn.
  pose proof (usable_iff r nowMs) as Hu.
  destruct (getEffectiveStatus r nowMs).2 eqn:Heff; (split; [intros p|by intros; no_such_case]).
  - split.
    + intros [= <- <-]. exists i, secret, r, s1, nowMs. split_and!; try done. by apply Hu.
    + intros (? & ? & r' & s1' & ? & [= <- <-] & Hr & _ & Hc & _ & ->). rewrite Hget in Hr.
      injection Hr as <- <-. rewrite Hclock in Hc. by injection Hc as <- <-.
  - split; [done|]. intros (? & ? & r' & s1' & ? & [= <- <-] & Hr & _ & Hc & Hl & ->).
    rewrite Hget in Hr. injection Hr as <- <-. rewrite Hclock in Hc. injection Hc as <- <-.
    by apply Hu in Hl.
Qed.
End authentication.

(** ** How credentials evolve *)

Definition srank (st : ManagedStoredStatus) : nat :=
  match st with active => 0 | rotating => 1 | disabled => 2 | revoked => 3 end.

Record cred_evolves (r r' : ManagedCredentialRecord) : Prop := {
  ce_identity : (id r', verifier r', scopes r', label r', createdAt r', rotatedFrom r') =
                (id r, verifier r, scopes r, label r, createdAt r, rotatedFrom r);
  ce_expiry : (expiresAt r' ≤ expiresAt r)%Z;
  ce_status : srank (status r) ≤ srank (status r');
  ce_revoked : status r = revoked → revokedAt r' = revokedAt r;
  ce_overlap : status r ≠ active → validUntil r' = validUntil r ∧ rotatedTo r' = rotatedTo r
}.

(** Key [k] is inserted before key [j]. *)
Definition before (k j : string) (m : rows_map) : Prop :=
  ∃ l1 l2, map_keys m = l1 ++ j :: l2 ∧ k ∈ l1.

(** Records are stored under their ids; a rotating record has one successor,
    which names it, has its scopes and came later: lineage is one to one and
    without cycles. *)
Record creds_ok (m : rows_map) : Prop := {
  co_map : map_ok m;
  co_keyed k r : map_get k m = Some r → id r = k;
  co_active k r : map_get k m = Some r → status r = active → rotatedTo r = None ∧ validUntil r = None;
  co_forward k r j : map_get k m = Some r → rotatedTo r = Some j →
    ∃ r', map_get j m = Some r' ∧ rotatedFrom r' = Some k;
  co_backward j r' k : map_get j m = Some r' → rotatedFrom r' = Some k →
    ∃ r, map_get k m = Some r ∧ rotatedTo r = Some j ∧ scopes r' = scopes r;
  co_order j r' k : map_get j m = Some r' → rotatedFrom r' = Some k → before k j m
}.

Record creds_evolve (m m' : rows_map) : Prop := {
  evolve_ok : creds_ok m → creds_ok m';
  evolve_each k r : map_get k m = Some r → ∃ r', map_get k m' = Some r' ∧ cred_evolves r r'
}.

Lemma cred_evolves_refl r : cred_evolves r r.
Proof. by split. Qed.

Lemma cred_evolves_trans r1 r2 r3 : cred_evolves r1 r2 → cred_evolves r2 r3 → cred_evolves r1 r3.
Proof.
  intros [I1 E1 S1 R1 O1] [I2 E2 S2 R2 O2]. split; [congruence|lia|lia| |].
  - intros Hr. rewrite R2, R1; [done|done|]. rewrite Hr in S1. destruct (status r2); cbn in S1; done || lia.
  - intros Ha. destruct (O1 Ha) as [<- <-]. apply O2. intros Ha2. rewrite Ha2 in S1.
    destruct (status r1); cbn in S1; done || lia.
Qed.

Lemma creds_evolve_refl m : creds_evolve m m.
Proof. split; [done|]. intros k r Hr. exists r. split; [done|apply cred_evolves_refl]. Qed.

Lemma creds_evolve_trans m1 m2 m3 : creds_evolve m1 m2 → creds_evolve m2 m3 → creds_evolve m1 m3.
Proof.
  intros [O1 E1] [O2 E2]. split; [auto|]. intros k r (r' & Hr' & Hs)%E1.
  destruct (E2 k r' Hr') as (r'' & Hr'' & Hs'). exists r''. split; [done|].
  by eapply cred_evolves_trans.
Qed.

#[export] Instance creds_evolution : Evolution rows_map := {
  good := creds_ok;
  evolves := creds_evolve;
  evolves_refl := creds_evolve_refl;
  evolves_trans := creds_evolve_trans;
  evolves_good m m' He := evolve_ok m m' He
}.

(** *** The operations on the rows *)

Lemma keys_set_has k r (m : rows_map) r0 :
  map_get k m = Some r0 → map_keys (map_set k r m) = map_keys m.
Proof. intros Hk. rewrite map_keys_set. unfold map_has. by rewrite Hk, bool_decide_true. Qed.

Lemma keys_set_new k r (m : rows_map) :
  map_get k m = None → map_keys (map_set k r m) = map_keys m ++ [k].
Proof. intros Hk. rewrite map_keys_set. unfold map_has. by rewrite Hk, bool_decide_false by naive_solver. Qed.

(** A record changed in place. *)
Lemma set_evolves k r r' (m : rows_map) :
  map_get k m = Some r → cred_evolves r r' → rotatedTo r' = rotatedTo r →
  (status r' = active → status r = active ∧ validUntil r' = validUntil r) →
  creds_evolve m (map_set k r' m).
Proof.
  intros Hk Hev Hto Hact.
  assert (Hget : ∀ j x, map_get j (map_set k r' m) = Some x →
    ∃ x0, map_get j m = Some x0 ∧ (x = x0 ∨ x0 = r ∧ x = r' ∧ j = k)).
  { intros j x. rewrite map_get_set. case_decide as Hj; [|naive_solver].
    intros [= <-]. subst j. exists r. auto. }
  assert (Hput : ∀ j x, map_get j m = Some x →
    ∃ x', map_get j (map_set k r' m) = Some x' ∧ (x' = x ∨ x = r ∧ x' = r' ∧ j = k)).
  { intros j x Hx. rewrite map_get_set. case_decide as Hj; [|naive_solver].
    subst j. rewrite Hk in Hx. injection Hx as <-. exists r'. auto. }
  pose proof (ce_identity _ _ Hev) as Hid. injection Hid as Hid _ Hsc _ _ Hfrom.
  split.
  - intros [Om Ok Oa Of Ob Oo]. split.
    + by apply map_ok_set.
    + intros j x (x0 & Hx0 & [->|(-> & -> & ->)])%Hget; [by apply Ok|]. rewrite Hid. by apply Ok.
    + intros j x (x0 & Hx0 & [->|(-> & -> & ->)])%Hget; [by eapply Oa|].
      intros [Ha Hv]%Hact. rewrite Hto, Hv. by eapply Oa.
    + intros j x i (x0 & Hx0 & Hc)%Hget Hxi.
      assert (Hxi0 : rotatedTo x0 = Some i) by (destruct Hc as [->|(-> & -> & _)]; congruence).
      destruct (Of _ _ _ Hx0 Hxi0) as (y & Hy & Hyf). destruct (Hput _ _ Hy) as (y' & Hy' & Hc').
      exists y'. split; [done|]. destruct Hc' as [->|(-> & -> & _)]; congruence.
    + intros j x i (x0 & Hx0 & Hc)%Hget Hxi.
      assert (Hx00 : rotatedFrom x0 = Some i ∧ scopes x0 = scopes x)
        by (destruct Hc as [->|(-> & -> & _)]; split; congruence).
      destruct Hx00 as [Hxf Hxs]. destruct (Ob _ _ _ Hx0 Hxf) as (y & Hy & Hyt & Hys).
      destruct (Hput _ _ Hy) as (y' & Hy' & Hc'). exists y'. split; [done|].
      destruct Hc' as [->|(-> & -> & _)]; split; congruence.
    + intros j x i (x0 & Hx0 & Hc)%Hget Hxi. unfold before. rewrite (keys_set_has k r' m r Hk).
      apply (Oo j x0); [done|]. destruct Hc as [->|(-> & -> & _)]; congruence.
  - intros j x (x' & Hx' & Hc)%Hput. exists x'. split; [done|].
    destruct Hc as [->|(-> & -> & _)]; [apply cred_evolves_refl|done].
Qed.

Lemma not_elem_of_None_keys k (m : rows_map) : map_get k m ≠ None → k ∈ map_keys m.
Proof. intros Hk. destruct (decide (k ∈ map_keys m)) as [|Hn]; [done|]. by apply map_get_None in Hn. Qed.

Lemma before_snoc k j i (m : rows_map) r :
  map_get i m = None → before k j m → before k j (map_set i r m).
Proof.
  intros Hi (l1 & l2 & Hl & Hk). exists l1, (l2 ++ [i]). rewrite keys_set_new by done.
  split; [|done]. by rewrite Hl, <- app_assoc.
Qed.

(** A new record, without a predecessor or as the successor of a record that
    is set to name it. *)
Lemma insert_ok r (m : rows_map) :
  creds_ok m → map_get (id r) m = None → rotatedTo r = None → validUntil r = None →
  (∀ k, rotatedFrom r = Some k → ∃ old, map_get k m = Some old ∧ rotatedTo old = Some (id r) ∧
     scopes r = scopes old) →
  creds_ok (map_set (id r) r m).
Proof.
  intros [Om Ok Oa Of Ob Oo] Hnew Hto Hv Hfrom. split.
  - by apply map_ok_set.
  - intros k x. rewrite map_get_set. case_decide; [|by apply Ok]. intros [= <-]. by subst.
  - intros k x. rewrite map_get_set. case_decide; [|by apply Oa]. intros [= <-] _. done.
  - intros k x j. rewrite map_get_set. case_decide; [intros [= <-]; congruence|]. intros Hx Hj.
    destruct (Of _ _ _ Hx Hj) as (y & Hy & Hyf). rewrite map_get_set. case_decide; [|by eauto].
    congruence.
  - intros j x k. rewrite !map_get_set. case_decide as Hj.
    + intros [= <-] (old & Hold & Hot & Hs)%Hfrom. rewrite decide_False by congruence. subst j. eauto.
    + intros Hx Hk. destruct (Ob _ _ _ Hx Hk) as (y & Hy & Hyt & Hys).
      rewrite decide_False by congruence. eauto.
  - intros j x k. rewrite map_get_set. case_decide as Hj.
    + intros [= <-] (old & Hold & _)%Hfrom. subst j. exists (map_keys m), [].
      rewrite keys_set_new by done. split; [done|]. apply not_elem_of_None_keys. congruence.
    + intros Hx Hk. apply before_snoc; [done|]. by eapply Oo.
Qed.

Lemma insert_evolves r (m : rows_map) :
  map_get (id r) m = None → rotatedTo r = None → validUntil r = None → rotatedFrom r = None →
  creds_evolve m (map_set (id r) r m).
Proof.
  intros Hnew Hto Hv Hfrom. split.
  - intros Hok. apply insert_ok; auto. by rewrite Hfrom.
  - intros k x Hx. exists x. rewrite map_get_set_ne by congruence. split; [done|apply cred_evolves_refl].
Qed.

(** A rotation: the old record names the new one, and the new one is inserted. *)
Lemma rotate_evolves k old u next (m : rows_map) :
  map_get k m = Some old → status old = active → map_get (id next) m = None →
  rotatedFrom next = Some k → ru_rotatedTo u = Some (id next) → ru_status u = rotating →
  scopes next = scopes old → rotatedTo next = None → validUntil next = None →
  creds_evolve m (map_set (id next) next (map_set k (rotated_record old u) m)).
Proof.
  intros Hold Hst Hnew Hfrom Hto Hrot Hsc Hnto Hnv.
  assert (Hne : k ≠ id next) by congruence.
  assert (Hev : cred_evolves old (rotated_record old u)).
  { split; cbn; rewrite ?Hst; done || (cbn; lia). }
  split.
  - intros [Om Ok Oa Of Ob Oo]. destruct (Oa _ _ Hold Hst) as [Hto0 _]. split.
    + by do 2 apply map_ok_set.
    + intros j x. rewrite !map_get_set. case_decide; [intros [= <-]; by subst|].
      case_decide; [|by apply Ok]. intros [= <-]. cbn. rewrite (Ok _ _ Hold). done.
    + intros j x. rewrite !map_get_set. case_decide; [intros [= <-]; done|].
      case_decide; [|by apply Oa]. intros [= <-]. cbn. by rewrite Hrot.
    + intros j x i. rewrite !map_get_set. case_decide; [intros [= <-]; congruence|].
      case_decide as Hjk.
      * intros [= <-]. cbn. rewrite Hto. intros [= <-]. exists next. subst j.
        by rewrite decide_True by done.
      * intros Hx Hi. destruct (Of _ _ _ Hx Hi) as (y & Hy & Hyf).
        rewrite decide_False by congruence. case_decide as Hik; [|by eauto].
        subst i. rewrite Hold in Hy. injection Hy as <-. exists (rotated_record old u). split; [done|].
        by cbn.
    + intros j x i. rewrite !map_get_set. case_decide as Hj.
      * intros [= <-]. rewrite Hfrom. intros [= <-]. exists (rotated_record old u).
        rewrite decide_False, decide_True by done. subst j. by cbn.
      * assert (Hx0 : (if decide (j = k) then Some (rotated_record old u) else map_get j m) = Some x →
          rotatedFrom x = Some i → ∃ x0, map_get j m = Some x0 ∧ rotatedFrom x0 = Some i ∧ scopes x0 = scopes x).
        { case_decide as Hjk; [|by eauto]. intros [= <-] Hi. subst j. exists old. by split_and!. }
        intros Hx Hi. destruct (Hx0 Hx Hi) as (x0 & Hx1 & Hi0 & Hs0).
        destruct (Ob _ _ _ Hx1 Hi0) as (y & Hy & Hyt & Hys).
        rewrite decide_False by congruence.
        destruct (decide (i = k)) as [Hik|Hik]; [|exists y; split_and!; congruence].
        subst i. congruence.
    + intros j x i Hx Hi. unfold before.
      assert (Hkeys : map_keys (map_set (id next) next (map_set k (rotated_record old u) m)) =
        map_keys m ++ [id next]).
      { rewrite keys_set_new, (keys_set_has k _ m old) by (rewrite ?map_get_set_ne by done; done). done. }
      rewrite Hkeys. revert Hx. rewrite !map_get_set. case_decide as Hj.
      * intros [= <-]. rewrite Hfrom in Hi. injection Hi as <-. subst j.
        exists (map_keys m), []. split; [done|]. apply not_elem_of_None_keys. congruence.
      * intros Hx. assert (Hb : before i j m).
        { revert Hx. case_decide; [intros [= <-]; subst j; by eapply Oo|]. intros Hx. by eapply Oo. }
        destruct Hb as (l1 & l2 & -> & Hil). exists l1, (l2 ++ [id next]). by rewrite <- app_assoc.
  - intros j x Hx. rewrite !map_get_set, decide_False by congruence.
    case_decide as Hjk; [|exists x; split; [done|apply cred_evolves_refl]].
    subst j. rewrite Hold in Hx. injection Hx as <-. by exists (rotated_record old u).
Qed.

(** ** The laws of a store

    Each operation takes effect on the rows at one instant or fails; the
    clock and the random source do not touch them. *)

Class ManagedStoreLaws {S} (view : S → rows_map) (env : rows_map → rows_map → Prop)
    `{!ManagedTokenStore S} `{!ManagedRuntime S} : Prop := {
  ml_get i : atomic view env (mt_getById i) (gets (map_get i));
  ml_insert r : atomic view env (mt_insert r) (rows_insert r);
  ml_rotate oldId u next : atomic view env (mt_tryRotate oldId u next) (rows_tryRotate oldId u next);
  ml_revoke i t : atomic view env (mt_revokeById i t) (rows_revoke i t);
  ml_expire i t : atomic view env (mt_expireById i t) (rows_expire i t);
  ml_scan : atomic view env mt_scan (gets (λ m, sort_rows m.*2));
  ml_clock s : env (view s) (view (clock_now s).2);
  ml_random n s : env (view s) (view (random_bytes n s).2)
}.

Section service.
Context {S : Type} `{!Sha256Api} `{!ManagedTokenStore S} `{!ManagedRuntime S}
  (view : S → rows_map) (env : rows_map → rows_map → Prop) `{Laws : !ManagedStoreLaws view env}
  (Henv : ∀ m m', env m m' → creds_evolve m m').

Notation moves := (moves view).

(** A record that was read is still there, or what it became. *)
Definition was (r : ManagedCredentialRecord) (m : rows_map) : Prop :=
  ∃ r', map_get (id r) m = Some r' ∧ cred_evolves r r'.

Lemma was_stable r : stable (was r).
Proof.
  intros m m' [_ He] (r' & Hr' & Hs). destruct (He _ _ Hr') as (r'' & Hr'' & Hs').
  exists r''. split; [done|]. by eapply cred_evolves_trans.
Qed.

Lemma was_there k r m : creds_ok m → map_get k m = Some r → was r m ∧ id r = k.
Proof.
  intros Hok Hr. pose proof (co_keyed _ Hok _ _ Hr) as Hk. split; [|done]. exists r.
  split; [by rewrite Hk|apply cred_evolves_refl].
Qed.

#[local] Hint Resolve was_stable : groundlane.

Lemma moves_now K : moves K now (λ _ _, True).
Proof.
  apply (moves_elsewhere view env K now (λ _, True)); [done| |done].
  intros s. pose proof (ml_clock s) as Hc. unfold now. by destruct (clock_now s).
Qed.

Lemma moves_random K n : moves K (random n) (λ _ _, True).
Proof.
  apply (moves_elsewhere view env K (random n) (λ _, True)); [done| |done].
  intros s. pose proof (ml_random n s) as Hc. unfold random. by destruct (random_bytes n s).
Qed.

Lemma moves_chosen K (chosen : option string) :
  stable K →
  moves K (match chosen with Some i => mret i | None => generateCredentialId end)
    (λ i _, match chosen with Some c => i = c | None => True end).
Proof.
  intros HK. destruct chosen as [c|]; [by apply moves_ret|].
  eapply moves_bind; [done|apply moves_random|]. intros b. by apply moves_ret.
Qed.

Lemma moves_getById K i :
  stable K → moves K (mt_getById i) (λ o m, ∀ r, o = Some r → was r m ∧ id r = i ∧ map_get i m = Some r).
Proof.
  intros HK. eapply (moves_atomic view env); [exact Henv|done|apply ml_get|].
  intros m Hok _. cbn. split; [apply creds_evolve_refl|]. intros r Hr.
  destruct (was_there _ _ _ Hok Hr). done.
Qed.

Lemma moves_insert K r :
  stable K → rotatedTo r = None → validUntil r = None → rotatedFrom r = None →
  moves K (mt_insert r) (λ _ m, was r m).
Proof.
  intros HK Hto Hv Hfrom. eapply (moves_atomic view env); [exact Henv|done|apply ml_insert|].
  intros m Hok _. unfold rows_insert, mbind, M_bind, get, lift, update, map_has. cbn.
  case_bool_decide as Hh; cbn; [by split; [apply creds_evolve_refl|]|].
  split; [by apply insert_evolves|].
  exists r. split; [apply map_get_set_eq|apply cred_evolves_refl].
Qed.

Lemma token_moves_revoke K i t :
  stable K →
  moves K (mt_revokeById i t) (λ o m, ∀ r, o = Some r → was r m ∧ id r = i ∧ status r = revoked).
Proof.
  intros HK. eapply (moves_atomic view env); [exact Henv|done|apply ml_revoke|].
  intros m Hok _. unfold rows_revoke, mbind, M_bind, get, update. cbn.
  destruct (map_get i m) as [r|] eqn:Hr; cbn; [|by split; [apply creds_evolve_refl|]].
  case_bool_decide as Hst; cbn.
  { split; [apply creds_evolve_refl|]. intros ? [= <-]. by destruct (was_there _ _ _ Hok Hr). }
  pose proof (co_keyed _ Hok _ _ Hr) as Hk. split.
  - eapply set_evolves; [done| |done|done]. split; try done. cbn. destruct (status r); cbn; lia.
  - intros ? [= <-]. split_and!; [|done|done]. exists (revoked_record r t).
    cbn. rewrite Hk, map_get_set_eq. split; [done|apply cred_evolves_refl].
Qed.

Lemma moves_expire K i t :
  stable K →
  moves K (mt_expireById i t) (λ o m, ∀ r, o = Some r → was r m ∧ id r = i ∧ (expiresAt r ≤ t)%Z).
Proof.
  intros HK. eapply (moves_atomic view env); [exact Henv|done|apply ml_expire|].
  intros m Hok _. unfold rows_expire, mbind, M_bind, get, update. cbn.
  destruct (map_get i m) as [r|] eqn:Hr; cbn; [|by split; [apply creds_evolve_refl|]].
  pose proof (co_keyed _ Hok _ _ Hr) as Hk. split.
  - eapply set_evolves; [done| |done|done]. split; try done. cbn. lia.
  - intros ? [= <-]. split_and!; [|done|cbn; lia]. exists (expired_record r t).
    cbn. rewrite Hk, map_get_set_eq. split; [done|apply cred_evolves_refl].
Qed.

Lemma moves_scan K : stable K → moves K mt_scan (λ _ _, True).
Proof.
  intros HK. eapply (moves_atomic view env); [exact Henv|done|apply ml_scan|].
  intros m Hok _. cbn. split; [apply creds_evolve_refl|done].
Qed.

(** A transition to a successor of a record that was read before; when it
    succeeds the old record was still active. *)
Definition succeeded_by (old next : ManagedCredentialRecord) (m : rows_map) : Prop :=
  was next m ∧ ∃ r, map_get (id old) m = Some r ∧ rotatedTo r = Some (id next) ∧ status r ≠ active.

Lemma succeeded_by_stable old next : stable (succeeded_by old next).
Proof.
  intros m m' He [Hw (r & Hr & Hto & Hst)]. split; [by eapply was_stable|].
  destruct (evolve_each _ _ He _ _ Hr) as (r' & Hr' & Hs). exists r'. split; [done|].
  destruct (ce_overlap _ _ Hs Hst) as [_ ->]. split; [done|]. intros Ha.
  pose proof (ce_status _ _ Hs) as Hrank. rewrite Ha in Hrank. destruct (status r); cbn in Hrank; done || lia.
Qed.

Lemma moves_tryRotate (K : rows_map → Prop) old i v nowMs vu :
  stable K → (∀ m, K m → was old m) →
  let next := new_credential i v (scopes old) (label old) nowMs (expiresAt old) (Some (id old)) in
  moves K (mt_tryRotate (id old) (rotate_update i vu nowMs) next)
    (λ o m, o = Rotated → succeeded_by old next m).
Proof.
  intros HK HKo next. eapply (moves_atomic view env); [exact Henv|done|apply ml_rotate|].
  intros m Hok Hm. destruct (HKo m Hm) as (cur & Hcur & Hs).
  unfold rows_tryRotate, mbind, M_bind, get, update. rewrite Hcur.
  destruct (bool_decide (status cur = active)) eqn:Hst; reflect; cbn [negb];
    [|cbn; split; [apply creds_evolve_refl|done]].
  destruct (co_active _ Hok _ _ Hcur Hst) as [Hto _]. rewrite Hto. cbn [bool_decide].
  unfold map_has. destruct (map_get (id next) m) as [x|] eqn:Hnew;
    [rewrite (bool_decide_true (Some x ≠ None)) by done; cbn; split; [apply creds_evolve_refl|done]|].
  rewrite bool_decide_false by naive_solver. cbn [negb].
  assert (Hne : id old ≠ id next) by (intros Heq; rewrite Heq in Hcur; congruence).
  rewrite (bool_decide_true (rotatedFrom next = _)), (bool_decide_true (ru_rotatedTo _ = _)) by done. cbn.
  assert (He : creds_evolve m (map_set (id next) next (map_set (id old) (rotated_record cur (rotate_update i vu nowMs)) m))).
  { apply rotate_evolves; try done. cbn. pose proof (ce_identity _ _ Hs). congruence. }
  split; [exact He|]. intros _. split.
  - exists next. split; [apply map_get_set_eq|apply cred_evolves_refl].
  - exists (rotated_record cur (rotate_update i vu nowMs)).
    rewrite map_get_set_ne, map_get_set_eq by exact Hne. done.
Qed.
#[local] Hint Resolve succeeded_by_stable : groundlane.

(** *** The operations of the service *)

Lemma moves_create_attempts K tries candidate record rawSecret :
  stable K → (∀ i, id (record i) = i ∧ status (record i) = active ∧ rotatedTo (record i) = None ∧
                   validUntil (record i) = None ∧ rotatedFrom (record i) = None) →
  moves K (create_attempts tries candidate record rawSecret)
    (λ out m, was out.1 m ∧ status out.1 = active).
Proof.
  intros HK Hrec. induction tries as [|tries IH]; cbn [create_attempts]; [apply moves_throw|].
  eapply moves_bind; [done|by apply moves_chosen|]. intros i.
  destruct (Hrec i) as (Hid & Hst & Hto & Hv & Hfrom).
  eapply moves_bind; [auto with groundlane|apply moves_attempt, (moves_insert _ (record i));
    auto with groundlane|].
  intros [u|e]; [apply moves_ret; by intros m [_ ?]|].
  destruct (_ && _); [|apply moves_throw]. eapply (moves_mono view K); [by intros m [[? _] _]|intros out m Hq; exact Hq|exact IH].
Qed.

Lemma token_moves_create K input :
  stable K →
  moves K (createManagedCredential input) (λ out m, was out.1 m ∧ status out.1 = active).
Proof.
  intros HK. eapply moves_bind; [done|apply moves_now|]. intros nowMs.
  do 4 (apply moves_lift_bind; intros ? _). eapply moves_bind; [auto with groundlane| |].
  { eapply moves_bind; [auto with groundlane|apply moves_random|]. intros b.
    apply (moves_ret _ _ _ (λ _ _, True)). done. }
  intros rawSecret. apply moves_create_attempts; [auto with groundlane|done].
Qed.

(** The status of a record that is not active for good. *)
Definition retired (i : string) (m : rows_map) : Prop :=
  ∃ r, map_get i m = Some r ∧ status r ≠ active.
Definition revoked_at (i : string) (m : rows_map) : Prop :=
  ∃ r, map_get i m = Some r ∧ status r = revoked.

Lemma retired_stable i : stable (retired i).
Proof.
  intros m m' [_ He] (r & Hr & Hst). destruct (He _ _ Hr) as (r' & Hr' & Hs). exists r'.
  split; [done|]. intros Ha. pose proof (ce_status _ _ Hs) as Hrank. rewrite Ha in Hrank.
  destruct (status r); cbn in Hrank; done || lia.
Qed.

Lemma revoked_at_stable i : stable (revoked_at i).
Proof.
  intros m m' [_ He] (r & Hr & Hst). destruct (He _ _ Hr) as (r' & Hr' & Hs). exists r'.
  split; [done|]. pose proof (ce_status _ _ Hs) as Hrank. rewrite Hst in Hrank.
  destruct (status r'); cbn in Hrank; done || lia.
Qed.
#[local] Hint Resolve retired_stable revoked_at_stable : groundlane.

Lemma moves_authenticate K t :
  stable K → moves K (authenticateManagedToken t) (λ _ _, True).
Proof.
  intros HK. unfold authenticateManagedToken.
  destruct (parseManagedToken t) as [[i secret]|]; [|by apply moves_ret].
  eapply moves_bind; [done|by apply moves_getById|]. intros [r|]; [|by apply moves_ret].
  apply moves_forget. destruct (_ || _); [by apply moves_ret|]. destruct (negb _); [by apply moves_ret|].
  eapply moves_bind; [done|apply moves_now|]. intros nowMs.
  destruct (getEffectiveStatus _ _).2; by apply moves_ret.
Qed.

(** A revoked credential authenticates nobody. *)
Lemma moves_authenticate_revoked t i secret :
  parseManagedToken t = Some (i, secret) →
  moves (revoked_at i) (authenticateManagedToken t) (λ o _, o = None).
Proof.
  intros Hp. unfold authenticateManagedToken. rewrite Hp.
  eapply moves_bind; [auto with groundlane|by apply moves_getById; auto with groundlane|].
  intros [r|]; [|by apply moves_ret].
  eapply (moves_pure view _ (status r = revoked)).
  - intros m [(r' & Hr' & Hst) Hr]. destruct (Hr r eq_refl) as (_ & _ & Hr''). congruence.
  - intros Hst. rewrite Hst. by apply moves_ret.
Qed.

Lemma moves_revokeManaged K i :
  stable K → moves K (revokeManagedCredential i) (λ r m, was r m ∧ revoked_at i m).
Proof.
  intros HK. eapply moves_bind; [done|apply moves_now|]. intros nowMs.
  eapply moves_bind; [auto with groundlane|apply token_moves_revoke; auto with groundlane|].
  intros [r|]; [|apply moves_throw]. apply moves_ret. intros m [_ Hr].
  destruct (Hr r eq_refl) as (Hw & Hid & Hst). split; [done|].
  destruct Hw as (r' & Hr' & Hs). exists r'. rewrite <- Hid. split; [done|].
  pose proof (ce_status _ _ Hs) as Hrank. rewrite Hst in Hrank.
  destruct (status r'); cbn in Hrank; done || lia.
Qed.

Lemma moves_expireManaged K i :
  stable K → moves K (expireManagedCredential i) (λ r m, was r m).
Proof.
  intros HK. eapply moves_bind; [done|apply moves_now|]. intros nowMs.
  eapply moves_bind; [auto with groundlane|apply moves_expire; auto with groundlane|].
  intros [r|]; [|apply moves_throw]. apply moves_ret. intros m [_ Hr].
  by destruct (Hr r eq_refl).
Qed.

Lemma moves_list K limit cursor : stable K → moves K (listManagedMetadata limit cursor) (λ _ _, True).
Proof.
  intros HK. do 2 (apply moves_lift_bind; intros ? _).
  eapply moves_bind; [done|by apply moves_scan|]. intros l.
  eapply moves_bind; [auto with groundlane|apply moves_now|]. intros nowMs. by apply moves_ret.
Qed.

(** The successor has the scopes and the expiry the old record had. *)
Definition successor_of (old next : ManagedCredentialRecord) : Prop :=
  scopes next = scopes old ∧ expiresAt next = expiresAt old ∧ rotatedFrom next = Some (id old) ∧
  id next ≠ id old.

Lemma moves_rotate_attempts (K : rows_map → Prop) tries chosen old v nowMs vu last :
  stable K → (∀ m, K m → was old m) →
  moves K (rotate_attempts tries chosen old v nowMs vu last)
    (λ next m, succeeded_by old next m ∧ successor_of old next).
Proof.
  intros HK HKo. revert last. induction tries as [|tries IH]; intros last; cbn [rotate_attempts];
    [apply moves_throw|].
  eapply moves_bind; [done|by apply moves_chosen|]. intros i. case_bool_decide as Hi.
  { destruct chosen; [apply moves_throw|]. apply moves_forget, IH. }
  cbv zeta. eapply moves_bind; [auto with groundlane|
    apply moves_tryRotate; [auto with groundlane|by intros m [? _]; auto]|].
  intros [|reason]; [apply moves_ret; intros m [_ Hs]; split; [by apply Hs|by split_and!]|].
  case_bool_decide; [|apply moves_throw]. destruct chosen; [apply moves_throw|].
  by apply moves_forget, moves_forget, IH.
Qed.

Lemma moves_rotate_fresh K input overlap :
  stable K →
  moves K (rotate_fresh input overlap)
    (λ out m, ∃ old, id old = ri_oldId input ∧ was old m ∧ succeeded_by old out.1 m ∧
                     successor_of old out.1).
Proof.
  intros HK. eapply moves_bind; [done|apply moves_now|]. intros nowMs. apply moves_forget.
  eapply moves_bind; [done|by apply moves_getById|]. intros [old|]; [|apply moves_throw].
  apply moves_lift_bind. intros [] _.
  eapply (moves_pure view _ (id old = ri_oldId input)).
  { intros m [_ Hr]. by destruct (Hr old eq_refl) as (_ & ? & _). }
  intros Hid. eapply (moves_mono view (was old)).
  { intros m [_ Hr]. by destruct (Hr old eq_refl). }
  { intros out m Hq. exact Hq. }
  eapply moves_bind; [auto with groundlane| |].
  { eapply moves_bind; [auto with groundlane|apply moves_random|]. intros b.
    apply (moves_ret _ _ _ (λ _ _, True)). done. }
  intros rawSecret. eapply moves_bind; [auto with groundlane|apply moves_rotate_attempts;
    [auto with groundlane|by intros m [? _]]|].
  intros next. apply moves_ret. intros m [[Hw _] [Hs Hsucc]]. by exists old.
Qed.

(** A credential that is no longer active is not rotated. *)
Lemma moves_rotate_retired input overlap :
  moves (retired (ri_oldId input)) (rotate_fresh input overlap) (λ _ _, False).
Proof.
  eapply moves_bind; [auto with groundlane|apply moves_now|]. intros nowMs. apply moves_forget.
  eapply moves_bind; [auto with groundlane|by apply moves_getById; auto with groundlane|].
  intros [old|]; [|apply moves_throw].
  eapply (moves_pure view _ (status old ≠ active)).
  { intros m [(r & Hr & Hst) Hold]. destruct (Hold old eq_refl) as (_ & _ & Hr'). congruence. }
  intros Hst. apply moves_lift_bind. intros [] Hc. unfold check_rotatable in Hc.
  rewrite (bool_decide_false (status old = active)) in Hc by done. done.
Qed.
End service.

(** ** Issued tokens *)

Section issued.
Context {S : Type} `{!Sha256Api} `{!ManagedTokenStore S} `{!ManagedRuntime S}
  (Hrandom : ∀ n (s : S), length (random_bytes n s).1 = n).

Lemma wp_random {A} n (f : bytes → M S A) Q s :
  (∀ b s', length b = n → wp (f b) Q s') → wp (random n ≫= f) Q s.
Proof.
  intros Hf. apply wp_bind. unfold wp, random. specialize (Hrandom n s).
  destruct (random_bytes n s) as [b s']. by apply Hf.
Qed.

Lemma generated_secret b : length b = MIN_SECRET_BYTES → secret_text (encodeBase64Url b) = true.
Proof.
  intros Hb. apply secret_text_iff. unfold encodeBase64Url.
  rewrite chars_unchars, length_unchars, length_encode_groups, Hb. cbn [MIN_SECRET_BYTES].
  split; [vm_compute; lia|apply encode_groups_chars].
Qed.

Lemma forallb_take {A} (f : A → bool) n l : forallb f l = true → forallb f (take n l) = true.
Proof.
  rewrite !forallb_forall. intros Hl x Hx. apply Hl. apply list_elem_of_In in Hx.
  apply list_elem_of_In. by eapply subseteq_take.
Qed.

Lemma generated_id b : length b = 12 → isValidCredentialId ("cred_" +:+ slice_to 16 (encodeBase64Url b)) = true.
Proof.
  intros Hb. unfold isValidCredentialId, str_length, slice_to, encodeBase64Url.
  rewrite <- length_chars, !chars_app, !chars_unchars, length_app, length_take, length_encode_groups, Hb.
  rewrite forallb_app, forallb_take by apply encode_groups_chars. done.
Qed.

Definition issued (out : ManagedCredentialRecord * string) : Prop :=
  ∃ secret, out.2 = formatManagedToken (id out.1) secret ∧ isValidCredentialId (id out.1) = true ∧
    secret_text secret = true ∧ verifier out.1 = computeVerifier secret ∧ status out.1 = active.

Lemma wp_create_attempts tries candidate record rawSecret s :
  match candidate with Some i => isValidCredentialId i | None => true end = true →
  secret_text rawSecret = true →
  (∀ i, id (record i) = i ∧ verifier (record i) = computeVerifier rawSecret ∧ status (record i) = active) →
  wp (create_attempts tries candidate record rawSecret)
    (λ r _, match r with Ok out => issued out | Throw _ => True end) s.
Proof.
  intros Hc Hsec Hrec. revert s. induction tries as [|tries IH]; intros s; cbn [create_attempts]; [done|].
  assert (Hgo : ∀ i s', isValidCredentialId i = true → wp
    (inserted ← attempt (mt_insert (record i));
     match inserted with
     | inl _ => mret (record i, formatManagedToken i rawSecret)
     | inr e => if is_duplicate e && bool_decide (candidate = None) && negb (tries =? 0)
                then create_attempts tries candidate record rawSecret else throw e
     end) (λ r _, match r with Ok out => issued out | Throw _ => True end) s').
  { intros i s' Hi. apply wp_attempt_any. intros [u|e] s''.
    - apply wp_ret. destruct (Hrec i) as (Hid & Hv & Hst). exists rawSecret. cbn. rewrite Hid. auto.
    - destruct (_ && _); [apply IH|by apply wp_throw]. }
  destruct candidate as [c|].
  - apply Hgo, Hc.
  - apply wp_bind. unfold generateCredentialId. apply wp_random. intros b s' Hb. apply wp_ret.
    by apply Hgo, generated_id.
Qed.

Lemma wp_createManaged input s :
  wp (createManagedCredential input) (λ r _, match r with Ok out => issued out | Throw _ => True end) s.
Proof.
  apply wp_bind_any; [|done]. intros nowMs s1.
  apply wp_throw_if; [done|intros _]. do 2 (apply wp_lift_bind; [intros ? _|done]).
  apply wp_throw_if; [done|intros Hid]. apply wp_bind. apply wp_random. intros rb s2 Hb. apply wp_ret.
  apply wp_create_attempts; [|by apply generated_secret|done].
  destruct (ci_id input); [by apply negb_false_iff|done].
Qed.

(** the token a creation hands out authenticates, as the principal of the
    record, while the store has the record as it was created and the time is
    before its expiry. *)
Theorem created_token_authenticates input s r tok s' s2 s3 t s4 :
  createManagedCredential input s = (Ok (r, tok), s') →
  mt_getById (id r) s2 = (Ok (Some r), s3) → clock_now s3 = (t, s4) → (t < expiresAt r)%Z →
  authenticateManagedToken tok s2 = (Ok (Some (createManagedPrincipal (id r) (scopes r))), s4).
Proof.
  intros Hrun Hget Hclock Ht.
  destruct (wp_run _ _ _ _ _ (wp_createManaged input s) Hrun) as (secret & Htok & Hi & Hsec & Hv & Hst).
  cbn [fst snd] in *. subst tok. unfold authenticateManagedToken. rewrite parse_format by done.
  unfold mbind, M_bind. rewrite Hget, Hst. cbn [bool_decide orb].
  rewrite !bool_decide_false by done. cbn [orb].
  unfold timingSafeTokenEqual. rewrite Hv, bool_decide_true by done. cbn [negb].
  unfold now. rewrite Hclock. assert (Hl : (getEffectiveStatus r t).2 = true).
  { apply usable_iff. split; [done|by left]. }
  by rewrite Hl.
Qed.
End issued.

(** ** Any calls of the service *)

Inductive managed_call :=
  | CreateCredential (input : CreateManagedInput)
  | Authenticate (t : string)
  | Rotate (input : RotateManagedInput)
  | Revoke (i : string)
  | Expire (i : string)
  | ListCredentials (limit : option number) (cursor : option string).

Section claims.
Context {S : Type} `{!Sha256Api} `{!ManagedTokenStore S} `{!ManagedRuntime S}
  (view : S → rows_map) (env : rows_map → rows_map → Prop).

Definition desk_view (d : Desk S) : rows_map := view (backend d).

Lemma moves_on_backend {A} K (op : M S A) Q : moves view K op Q → moves desk_view K (on_backend op) Q.
Proof.
  intros Hop d Hok Hd. specialize (Hop (backend d) Hok Hd). unfold wp, on_backend, desk_view in *.
  by destruct (op (backend d)).
Qed.

Lemma moves_rotateManaged `{Laws : !ManagedStoreLaws view env} K input :
  (∀ m m', env m m' → creds_evolve m m') → stable K →
  moves desk_view K (rotateManagedCredential input)
    (λ res m, isReplay res = false → ∃ old, id old = ri_oldId input ∧ was old m ∧
       succeeded_by old (newRecord res) m ∧ successor_of old (newRecord res)).
Proof.
  intros Henv HK. do 2 (apply moves_lift_bind; intros ? _). apply moves_lift_bind. intros _ _.
  intros d Hok Hd. apply wp_gets. revert d Hok Hd.
  cut (∀ replay, moves desk_view K (match replay with
    | Some newId =>
        stored ← on_backend (mt_getById newId);
        match stored with
        | None => throw (ManagedTokenError "conflict" "idempotency replay missing successor")
        | Some r => mret {| newRecord := r; rawToken := None; isReplay := true; newId := id r;
                            overlapSeconds := a0 |}
        end
    | None =>
        '(next, rawSecret) ← on_backend (rotate_fresh input a0);
        match scoped_key (ri_oldId input) a with
        | Some k => update (λ d, with_idempotency d (idem_set k (id next) (idempotency d)))
        | None => mret tt
        end;;
        mret {| newRecord := next; rawToken := Some (formatManagedToken (id next) rawSecret);
                isReplay := false; newId := id next; overlapSeconds := a0 |}
    end) (λ res m, isReplay res = false → ∃ old, id old = ri_oldId input ∧ was old m ∧
       succeeded_by old (newRecord res) m ∧ successor_of old (newRecord res))).
  { intros Hall d Hok Hd. by apply Hall. }
  intros [newId|].
  - eapply moves_bind; [done|by eapply moves_on_backend, moves_getById|].
    intros [r|]; [by apply moves_ret|apply moves_throw].
  - eapply moves_bind; [done|by eapply moves_on_backend, moves_rotate_fresh|]. intros [next rawSecret].
    intros d Hok [_ Hd]. destruct (scoped_key _ _); cbn;
      (split; [apply creds_evolve_refl|]); intros _; exact Hd.
Qed.
Definition ignored {A} (c : M S A) : M (Desk S) unit := attempt (on_backend c);; mret tt.

Definition perform (c : managed_call) : M (Desk S) unit :=
  match c with
  | CreateCredential input => ignored (createManagedCredential input)
  | Authenticate t => ignored (authenticateManagedToken t)
  | Rotate input => attempt (rotateManagedCredential input);; mret tt
  | Revoke i => ignored (revokeManagedCredential i)
  | Expire i => ignored (expireManagedCredential i)
  | ListCredentials limit cursor => ignored (listManagedMetadata limit cursor)
  end.

Fixpoint perform_all (cs : list managed_call) : M (Desk S) unit :=
  match cs with
  | [] => mret tt
  | c :: cs' => perform c;; perform_all cs'
  end.

Lemma moves_ignored {A} (c : M S A) Q :
  moves view (λ _, True) c Q → moves desk_view (λ _, True) (ignored c) (λ _ _, True).
Proof.
  intros Hc. eapply moves_bind; [apply stable_const|by apply moves_attempt, moves_on_backend|].
  intros o. by apply moves_ret.
Qed.

Lemma token_moves_perform_all `{Laws : !ManagedStoreLaws view env} cs :
  (∀ m m', env m m' → creds_evolve m m') →
  moves desk_view (λ _, True) (perform_all cs) (λ _ _, True).
Proof.
  intros Henv. induction cs as [|c cs IH]; [by apply moves_ret|].
  cbn [perform_all]. eapply moves_bind with (Q := λ _ _, True); [apply stable_const| |].
  - destruct c as [input|t|input|i|i|limit cursor]; [eapply moves_ignored..| | | |].
    + by eapply token_moves_create; auto with groundlane.
    + by eapply moves_authenticate; auto with groundlane.
    + eapply moves_bind; [apply stable_const|by apply moves_attempt, moves_rotateManaged; auto with groundlane|].
      intros o. by apply moves_ret.
    + by eapply moves_ignored, moves_revokeManaged; auto with groundlane.
    + by eapply moves_ignored, moves_expireManaged; auto with groundlane.
    + by eapply moves_ignored, moves_list; auto with groundlane.
  - intros []. eapply moves_mono; [| |exact IH]; done.
Qed.

(** C38: whatever the service is asked, and however other workers interleave
    and calls fail, a credential keeps its identity, verifier, scopes and
    creation time, its expiry is never extended and its status never goes
    back; and every rotated credential has exactly one successor, which names
    it, has its scopes and was inserted later. *)
Theorem managed_credentials_move_forward cs d :
  ManagedStoreLaws view env → (∀ m m', env m m' → creds_evolve m m') → creds_ok (desk_view d) →
  let m' := desk_view (perform_all cs d).2 in
  creds_ok m' ∧
  ∀ k r, map_get k (desk_view d) = Some r → ∃ r', map_get k m' = Some r' ∧ cred_evolves r r'.
Proof.
  intros Laws Henv Hok m'.
  destruct (token_moves_perform_all (Laws := Laws) cs Henv d Hok I) as [[He1 He2] _].
  split; [by apply He1|exact He2].
Qed.

(** C40: once a revocation returned, no token of the credential authenticates,
    whatever else happens before or meanwhile. *)
Theorem revoked_token_never_authenticates i s r s' t secret s2 :
  ManagedStoreLaws view env → (∀ m m', env m m' → creds_evolve m m') → creds_ok (view s) →
  revokeManagedCredential i s = (Ok r, s') → creds_evolve (view s') (view s2) →
  parseManagedToken t = Some (i, secret) →
  (authenticateManagedToken t s2).1 = Ok None ∨ is_Throw (authenticateManagedToken t s2).1.
Proof.
  intros Laws Henv Hok Hrun Hbetween Hp.
  destruct (wp_run _ _ _ _ _ (moves_revokeManaged view env Henv (λ _, True) i (stable_const _) s Hok I) Hrun)
    as [He [_ Hrev]].
  assert (Hok2 : creds_ok (view s2)) by (apply Hbetween, He, Hok).
  pose proof (revoked_at_stable i _ _ Hbetween Hrev) as Hrev2.
  destruct (moves_authenticate_revoked view env Henv t i secret Hp s2 Hok2 Hrev2) as [_ Hr].
  destruct (authenticateManagedToken t s2).1 as [o|e]; [left; by rewrite Hr|right; by exists e].
Qed.

(** a credential is rotated at most once: after a rotation, another one of
    the same credential can only be a replay, whoever asks and whatever
    happens in between.  The successor has the scopes and the expiry of the
    record that was rotated, so a rotation extends neither. *)
Theorem credential_rotates_once input1 d1 res1 d1' input2 d2 res2 d2' :
  ManagedStoreLaws view env → (∀ m m', env m m' → creds_evolve m m') → creds_ok (desk_view d1) →
  rotateManagedCredential input1 d1 = (Ok res1, d1') → isReplay res1 = false →
  creds_evolve (desk_view d1') (desk_view d2) → ri_oldId input2 = ri_oldId input1 →
  rotateManagedCredential input2 d2 = (Ok res2, d2') →
  isReplay res2 = true ∧ ∃ old, id old = ri_oldId input1 ∧ was old (desk_view d1') ∧
    successor_of old (newRecord res1).
Proof.
  intros Laws Henv Hok Hrun1 Hfresh Hbetween Hid Hrun2.
  destruct (wp_run _ _ _ _ _ (moves_rotateManaged (Laws := Laws) (λ _, True) input1 Henv (stable_const _)
    d1 Hok I) Hrun1) as [He1 Hq]. destruct (Hq Hfresh) as (old & Hold & Hwas & Hsucc & Hsof).
  split; [|by exists old]. destruct (isReplay res2) eqn:Hr2; [done|]. exfalso.
  assert (Hret : retired (ri_oldId input2) (desk_view d2)).
  { eapply retired_stable; [exact Hbetween|]. destruct Hsucc as [_ (r & Hr & _ & Hst)].
    exists r. rewrite Hid, <- Hold. done. }
  assert (Hok2 : creds_ok (desk_view d2)) by (apply Hbetween, He1, Hok).
  revert Hrun2 Hr2. unfold rotateManagedCredential. unfold mbind at 1 2, M_bind at 1 2. unfold lift at 1 2.
  destruct (validateIdempotencyKey _) as [key|]; [|done]. destruct (normalizeOverlapSeconds _) as [ov|]; [|done].
  rewrite M_bind_Ok. intros ([] & d3 & Hd3 & Hrun). injection Hd3 as _ <-. cbv zeta in Hrun.
  rewrite M_bind_Ok in Hrun. destruct Hrun as (replay & d4 & [= <- <-] & Hrun).
  destruct (_ ≫= _) as [newId|].
  - apply M_bind_Ok in Hrun as ([r|] & d5 & _ & Hrun); [by injection Hrun as <- _|done].
  - apply M_bind_Ok in Hrun as ([next raw] & d5 & Hf & _).
    destruct (wp_run _ _ _ _ _ (moves_on_backend _ _ _ (moves_rotate_retired view env Henv input2 ov) d2 Hok2 Hret) Hf)
      as [_ []].
Qed.
End claims.

(** ** The in-memory store, and one shared with others *)

(** The clock shows [t]; random bytes are zeros, but the first is the time. *)
Definition fixed_runtime {S} (t : Z) : ManagedRuntime S :=
  {| clock_now s := (t, s); random_bytes n s := (replicate n "z"%char, s) |}.

Lemma fake_store_laws t (env : rows_map → rows_map → Prop) :
  (∀ m, env m m) → ManagedStoreLaws (ManagedRuntime0 := fixed_runtime t) rows env.
Proof.
  intros Hrefl.
  assert (Hop : ∀ A (f : FakeManagedTokenStore → FakeManagedTokenStore) (op : M rows_map A),
    (∀ s, rows (f s) = rows s) →
    atomic rows env (update f;; assertAvailable;; on_rows op) op).
  { intros A f op Hf s. exists (rows s). split; [apply Hrefl|].
    unfold assertAvailable, mbind, M_bind, update, get, lift, on_rows, throw_if. cbn.
    destruct (unavailable (f s)); cbn; [right; split; [by eexists|left; apply Hf]|left].
    rewrite Hf. by destruct (op (rows s)). }
  assert (Hop' : ∀ A (op : M rows_map A), atomic rows env (assertAvailable;; on_rows op) op).
  { intros A op s. destruct (Hop A (λ s, s) op (λ _, eq_refl) s) as (m & Hm & H). exists m. split; [done|].
    exact H. }
  split; intros; try apply Hrefl; try apply Hop'; by apply Hop.
Qed.

Module TokenDemo.
#[export] Instance digest : Sha256Api := zero_digest.
#[export] Instance runtime : ManagedRuntime FakeManagedTokenStore := fixed_runtime 1000.

Definition empty_store : FakeManagedTokenStore :=
  {| rows := []; unavailable := false; getByIdCalls := 0; scanCalls := 0 |}.
Definition input : CreateManagedInput :=
  {| ci_label := JStr "ci"; ci_scopes := JUndefined; ci_expiresAt := int 5000;
     ci_id := Some "cred_first"%string |}.
Definition desk (s : FakeManagedTokenStore) : Desk FakeManagedTokenStore := Build_Desk s [] [] 0.
Definition first : FakeManagedTokenStore := (createManagedCredential input empty_store).2.
Definition rotate (key : string) : RotateManagedInput :=
  {| ri_oldId := "cred_first"; ri_overlapSeconds := JNum 1; ri_newId := Some "cred_second"%string;
     ri_idempotencyKey := JStr key |}.
Definition rotated : Desk FakeManagedTokenStore := (rotateManagedCredential (rotate "k1") (desk first)).2.

Lemma token_laws : ManagedStoreLaws rows eq.
Proof. by apply fake_store_laws. Qed.

Lemma env_ok m m' : m = m' → creds_evolve m m'.
Proof. intros ->. apply creds_evolve_refl. Qed.

Lemma ok_empty : creds_ok [].
Proof. split; [constructor|done..]. Qed.

Lemma ok_first : creds_ok (rows first).
Proof.
  destruct (token_moves_create rows eq (Laws := token_laws) env_ok (λ _, True) input (stable_const True) empty_store
    ok_empty I) as [He _]. exact (evolve_ok _ _ He ok_empty).
Qed.

(** The same key replays; another is refused. *)
Example demo_rotation :
  (isReplay <$> match (rotateManagedCredential (rotate "k1") rotated).1 with
                | Ok r => Some r | Throw _ => None end) = Some true ∧
  (rotateManagedCredential (rotate "k2") rotated).1 =
    Throw (ManagedTokenError "conflict" "rotate requires active credential (status:rotating)").
Proof. split; vm_compute; reflexivity. Qed.
End TokenDemo.

#[local] Existing Instances TokenDemo.digest TokenDemo.runtime.

Lemma managed_credentials_move_forward_witness :
  creds_ok (desk_view rows (perform_all [Rotate (TokenDemo.rotate "k1"); Revoke "cred_first"; Expire "cred_second"]
    (TokenDemo.desk TokenDemo.first)).2).
Proof.
  exact (proj1 (managed_credentials_move_forward rows eq
    [Rotate (TokenDemo.rotate "k1"); Revoke "cred_first"; Expire "cred_second"]
    (TokenDemo.desk TokenDemo.first) TokenDemo.token_laws TokenDemo.env_ok TokenDemo.ok_first)).
Defined.

Lemma revoked_token_never_authenticates_witness :
  let s' := (revokeManagedCredential "cred_first" TokenDemo.first).2 in
  let t := formatManagedToken "cred_first" (encodeBase64Url (replicate 32 "z"%char)) in
  (authenticateManagedToken t s').1 = Ok None ∨ is_Throw (authenticateManagedToken t s').1.
Proof.
  intros s' t.
  apply (revoked_token_never_authenticates rows eq "cred_first" TokenDemo.first
    (match (revokeManagedCredential "cred_first" TokenDemo.first).1 with
     | Ok r => r | Throw _ => new_credential "" "" [] "" 0 0 None end) s' t
    (encodeBase64Url (replicate 32 "z"%char)) s' TokenDemo.token_laws TokenDemo.env_ok TokenDemo.ok_first).
  - vm_compute. reflexivity.
  - apply creds_evolve_refl.
  - vm_compute. reflexivity.
Defined.

Lemma credential_rotates_once_witness :
  ∃ res2 d2', rotateManagedCredential (TokenDemo.rotate "k1") TokenDemo.rotated = (Ok res2, d2') ∧
    isReplay res2 = true.
Proof.
  do 2 eexists. split; [vm_compute; reflexivity|].
  refine (proj1 (credential_rotates_once rows eq (TokenDemo.rotate "k1") (TokenDemo.desk TokenDemo.first)
    (match (rotateManagedCredential (TokenDemo.rotate "k1") (TokenDemo.desk TokenDemo.first)).1 with
     | Ok r => r | Throw _ => Build_RotateManagedResult (new_credential "" "" [] "" 0 0 None) None true "" 0 end)
    TokenDemo.rotated (TokenDemo.rotate "k1") TokenDemo.rotated _ _ TokenDemo.token_laws TokenDemo.env_ok
    TokenDemo.ok_first _ _ (creds_evolve_refl _) eq_refl _)); vm_compute; reflexivity.
Defined.

Lemma created_token_authenticates_witness :
  ∃ r tok, (createManagedCredential TokenDemo.input TokenDemo.empty_store).1 = Ok (r, tok) ∧
    (authenticateManagedToken tok TokenDemo.first).1 = Ok (Some (createManagedPrincipal (id r) (scopes r))).
Proof.
  do 2 eexists. split; [vm_compute; reflexivity|].
  match goal with |- (authenticateManagedToken ?tok _).1 = Ok (Some (createManagedPrincipal (id ?r) _)) =>
    assert (Hauth : authenticateManagedToken tok TokenDemo.first =
      (Ok (Some (createManagedPrincipal (id r) (scopes r))), (mt_getById "cred_first" TokenDemo.first).2))
  end; [|by rewrite Hauth].
  eapply (created_token_authenticates (ManagedRuntime0 := TokenDemo.runtime)
    (λ n (s : FakeManagedTokenStore), length_replicate n "z"%char) TokenDemo.input TokenDemo.empty_store _ _ TokenDemo.first);
    [vm_compute; reflexivity..|]. vm_compute. reflexivity.
Defined.

(** ** An expiry that a rotation outlives

    The rotation has read the credential; before it commits, an
    administrator forces the credential to expire.  The store's check is of
    the status and the successor only, so the rotation succeeds and its
    successor lives on with the original expiry. *)

Definition any_change (m m' : rows_map) : Prop := True.

#[export] Instance shared_tokens {env} : ManagedTokenStore (SharedStore env) := {
  mt_getById i := in_turn (gets (map_get i));
  mt_insert r := in_turn (rows_insert r);
  mt_tryRotate oldId u next := in_turn (rows_tryRotate oldId u next);
  mt_revokeById i t := in_turn (rows_revoke i t);
  mt_expireById i t := in_turn (rows_expire i t);
  mt_scan := in_turn (gets (λ m, sort_rows m.*2))
}.

Definition racing : Desk (SharedStore any_change) :=
  Build_Desk {| contents := rows TokenDemo.first;
                turns := [Build_turn any_change (λ m, m) (λ _, I) None;
                          Build_turn any_change (λ m, (rows_expire "cred_first" 1000 m).2) (λ _, I) None] |}
    [] [] 0.

Lemma forced_expiry_lost_to_rotation :
  let '(r, d) := rotateManagedCredential (ManagedRuntime0 := fixed_runtime 1000)
                   (TokenDemo.rotate "k1") racing in
  match r with Ok res => expiresAt (newRecord res) = 5000%Z | Throw _ => False end ∧
  (expiresAt <$> map_get "cred_first" (contents (backend d))) = Some 1000%Z ∧
  (expiresAt <$> map_get "cred_second" (contents (backend d))) = Some 5000%Z.
Proof. vm_compute. done. Qed.
