(* ===== verification/D1ManagedStore.v ===== *)
(** * The managed-token store on D1

    [D1ManagedTokenStore] of [src/worker/d1-managed-store.ts] over the table
    of [src/migrations/0001_managed_tokens.sql].  The statements are the SQL
    texts of the source, with what each does to the table; D1 runs them
    ([D1Database]), a batch as one transaction, and any call may fail. *)

From S2P Require Import Prelude Interference JsString JsMap Json Digest ManagedTokens.

(** ** Rows *)

(** The columns of a row, of any SQLite value. *)
Record CredentialRow := {
  row_id : js_value;
  row_verifier : js_value;
  row_principal_id : js_value;
  row_scopes : js_value;
  row_label : js_value;
  row_status : js_value;
  row_created_at : js_value;
  row_updated_at : js_value;
  row_expires_at : js_value;
  row_valid_until : js_value;
  row_rotated_to : js_value;
  row_rotated_from : js_value;
  row_revoked_at : js_value
}.

#[export] Instance CredentialRow_updatable : Updatable CredentialRow :=
  {| rebuild := λ r, Build_CredentialRow (row_id r) (row_verifier r) (row_principal_id r) (row_scopes r)
       (row_label r) (row_status r) (row_created_at r) (row_updated_at r) (row_expires_at r)
       (row_valid_until r) (row_rotated_to r) (row_rotated_from r) (row_revoked_at r) |}.

Definition storageUnavailable : thrown := store_unavailable.

Definition MANAGED_STATUSES : list ManagedStoredStatus := [active; rotating; revoked; disabled].

Definition isRecordStatus (v : js_value) : option ManagedStoredStatus :=
  s ← as_string v; find (λ st, bool_decide (status_name st = s)) MANAGED_STATUSES.

(** The numbers of the model are integers. *)
Definition toInteger (v : js_value) : option Z := as_number v.
Definition toNullableInteger (v : js_value) : option Z :=
  match v with JNull | JUndefined => None | _ => toInteger v end.
Definition toNullableText (v : js_value) : option string :=
  match v with JNull | JUndefined => None | _ => as_string v end.

(** A JSON array of strings. *)
Definition parse_scopes (v : js_value) : option (list string) :=
  s ← as_string v;
  match JSON_parse s with Ok parsed => as_strings parsed | Throw _ => None end.

Definition nonempty_text (v : js_value) : option string :=
  s ← as_string v; if falsy s then None else Some s.

Definition read_row (row : CredentialRow) : option ManagedCredentialRecord :=
  i ← nonempty_text (row_id row);
  v ← nonempty_text (row_verifier row);
  p ← as_string (row_principal_id row);
  _ ← guard (p = "owner"%string);
  scopes ← parse_scopes (row_scopes row);
  label ← as_string (row_label row);
  st ← isRecordStatus (row_status row);
  created ← toInteger (row_created_at row);
  updated ← toInteger (row_updated_at row);
  expires ← toInteger (row_expires_at row);
  Some {| id := i; verifier := v; scopes := scopes; label := label; status := st;
          createdAt := created; updatedAt := updated; expiresAt := expires;
          validUntil := toNullableInteger (row_valid_until row);
          rotatedTo := toNullableText (row_rotated_to row);
          rotatedFrom := toNullableText (row_rotated_from row);
          revokedAt := toNullableInteger (row_revoked_at row) |}.

Definition mapCredentialRow (row : CredentialRow) : result ManagedCredentialRecord :=
  match read_row row with Some r => Ok r | None => Throw storageUnavailable end.

Definition opt_number (z : option Z) : js_value := match z with Some z => JNum z | None => JNull end.
Definition opt_text (s : option string) : js_value := match s with Some s => JStr s | None => JNull end.

(** The values bound to an insert. *)
Definition bound_row (r : ManagedCredentialRecord) : CredentialRow :=
  {| row_id := JStr (id r); row_verifier := JStr (verifier r); row_principal_id := JStr "owner";
     row_scopes := JStr (unchars (json_text (JArr (JStr <$> scopes r)))); row_label := JStr (label r);
     row_status := JStr (status_name (status r)); row_created_at := JNum (createdAt r);
     row_updated_at := JNum (updatedAt r); row_expires_at := JNum (expiresAt r);
     row_valid_until := opt_number (validUntil r); row_rotated_to := opt_text (rotatedTo r);
     row_rotated_from := opt_text (rotatedFrom r); row_revoked_at := opt_number (revokedAt r) |}.

(** ** The statements *)

Definition table : Type := list CredentialRow.

Definition SCAN_LIMIT : nat := 500.

Definition sql_eq (v w : js_value) : bool :=
  match v, w with
  | JStr a, JStr b => bool_decide (a = b)
  | JNum a, JNum b => (a =? b)%Z
  | _, _ => false
  end.

Definition sql_null (v : js_value) : bool := match v with JNull | JUndefined => true | _ => false end.

(** [v > z]: a text is greater than every integer. *)
Definition sql_above (v : js_value) (z : Z) : bool :=
  match v with JNum a => (z <? a)%Z | JStr _ => true | _ => false end.

Definition has_id (i : string) (row : CredentialRow) : bool := sql_eq (row_id row) (JStr i).

Definition eligible (i : string) (row : CredentialRow) : bool :=
  has_id i row && sql_eq (row_status row) (JStr "active") && sql_null (row_rotated_to row).

Inductive statement :=
  | InsertRow (row : CredentialRow)
  | InsertSuccessor (row : CredentialRow) (oldId : string)
  | MarkRotating (validUntil : Z) (rotatedTo : string) (updatedAt : Z) (oldId : string)
  | RevokeRow (now : Z) (i : string)
  | ExpireRow (now : Z) (i : string).

(** An [UPDATE] of the rows a condition selects, with the count of changes. *)
Definition update_where (p : CredentialRow → bool) (f : CredentialRow → CredentialRow) (t : list CredentialRow)
    : table * Z :=
  ((λ row, if p row then f row else row) <$> t, Z.of_nat (length (filter (λ row, p row = true) t))).

(** The primary key is unique: a second row of an id is a constraint error. *)
Definition insert_unique (row : CredentialRow) (t : table) : option (table * Z) :=
  if existsb (λ r, sql_eq (row_id r) (row_id row)) t then None else Some (t ++ [row], 1%Z).

(** [INSERT ... SELECT ... WHERE EXISTS (...)] *)
Definition insert_successor (row : CredentialRow) (oldId : string) (t : table) : option (table * Z) :=
  if existsb (eligible oldId) t then insert_unique row t else Some (t, 0%Z).

Definition mark_rotating (vu : Z) (to : string) (now : Z) (oldId : string) (t : table) : table * Z :=
  update_where (eligible oldId) (λ row,
    row <| row_status := JStr "rotating" |> <| row_valid_until := JNum vu |>
        <| row_rotated_to := JStr to |> <| row_updated_at := JNum now |>) t.

Definition revoke_row (now : Z) (i : string) (t : table) : table * Z :=
  update_where (λ row, has_id i row && negb (sql_null (row_status row)) &&
                       negb (sql_eq (row_status row) (JStr "revoked")))
    (λ row, row <| row_status := JStr "revoked" |>
      <| row_revoked_at := if sql_null (row_revoked_at row) then JNum now else row_revoked_at row |>
      <| row_updated_at := JNum now |>) t.

Definition expire_row (now : Z) (i : string) (t : table) : table * Z :=
  update_where (has_id i) (λ row,
    row <| row_expires_at := if sql_above (row_expires_at row) now then JNum now else row_expires_at row |>
        <| row_updated_at := JNum now |>) t.

Definition exec (s : statement) (t : table) : option (table * Z) :=
  match s with
  | InsertRow row => insert_unique row t
  | InsertSuccessor row oldId => insert_successor row oldId t
  | MarkRotating vu to now oldId => Some (mark_rotating vu to now oldId t)
  | RevokeRow now i => Some (revoke_row now i t)
  | ExpireRow now i => Some (expire_row now i t)
  end.

(** One transaction: all statements, or none. *)
Fixpoint exec_all (ss : list statement) (t : table) : option (table * list Z) :=
  match ss with
  | [] => Some (t, [])
  | s :: ss' =>
      '(t1, n) ← exec s t;
      '(t2, ns) ← exec_all ss' t1;
      Some (t2, n :: ns)
  end.

(** [ORDER BY created_at ASC LIMIT 500] of the integers of the column. *)
Fixpoint insert_by_created (row : CredentialRow) (l : table) : table :=
  match l with
  | [] => [row]
  | x :: l' => if sql_above (row_created_at row) (default 0%Z (as_number (row_created_at x)))
               then x :: insert_by_created row l' else row :: l
  end.

Definition scan_rows (t : table) : table := take SCAN_LIMIT (foldr insert_by_created [] t).

(** ** The database *)

(** [has_sessions]: the binding offers [withSession]. *)
Class D1Database (S : Type) := {
  has_sessions : bool;
  d1_first : string → M S (option CredentialRow);
  d1_all : M S table;
  d1_run : statement → M S Z;
  d1_batch : list statement → M S (list Z)
}.

(** ** [D1ManagedTokenStore] *)

Section store.
Context {S : Type} `{!D1Database S}.

(** [try { c } catch { throw storageUnavailable() }] *)
Definition guarded {A} (c : M S A) : M S A := catch c (λ _, throw storageUnavailable).

Definition readDb : result unit := throw_if (negb has_sessions) storageUnavailable.

Definition selectById (i : string) : M S (option ManagedCredentialRecord) :=
  row ← guarded (lift readDb;; d1_first i);
  match row with
  | None => mret None
  | Some row => r ← lift (mapCredentialRow row); mret (Some r)
  end.

Definition d1_insert (r : ManagedCredentialRecord) : M S unit :=
  outcome ← attempt (d1_run (InsertRow (bound_row r)));
  match outcome with
  | inl _ => mret tt
  | inr _ =>
      existing ← guarded (selectById (id r));
      match existing with Some _ => throw duplicate_id | None => throw storageUnavailable end
  end.

Definition conflictReasonFor (row : option ManagedCredentialRecord) : RotateTransition :=
  match row with
  | None => RotateRefused "not_found"
  | Some r =>
      if negb (bool_decide (status r = active))
      then RotateRefused ("status:" +:+ status_name (status r))
      else if bool_decide (rotatedTo r ≠ None) then RotateRefused "already_rotated"
      else RotateRefused "conflict"
  end.

(** The batch aborted: the old row is untouched, and a re-read tells a
    collision or a lost race from an outage. *)
Definition aborted_rotation (oldId nextId : string) : M S RotateTransition :=
  successor ← guarded (selectById nextId);
  match successor with
  | Some _ => mret (RotateRefused "id_collision")
  | None =>
      current ← guarded (selectById oldId);
      match current with
      | Some r =>
          if negb (bool_decide (status r = active)) || bool_decide (rotatedTo r ≠ None)
          then mret (conflictReasonFor current) else throw storageUnavailable
      | None => mret (conflictReasonFor current)
      end
  end.

Definition d1_tryRotate (oldId : string) (u : RotateUpdate) (next : ManagedCredentialRecord)
    : M S RotateTransition :=
  if negb (bool_decide (rotatedFrom next = Some oldId)) ||
     negb (bool_decide (ru_rotatedTo u = Some (id next)))
  then mret (RotateRefused "lineage_mismatch")
  else
    match ru_validUntil u, ru_rotatedTo u with
    | Some vu, Some to =>
        outcome ← attempt (d1_batch [InsertSuccessor (bound_row next) oldId;
                                     MarkRotating vu to (ru_updatedAt u) oldId]);
        match outcome with
        | inr _ => aborted_rotation oldId (id next)
        | inl results =>
            let inserted := nth 0 results 0%Z in
            let updated := nth 1 results 0%Z in
            if (inserted =? 1)%Z && (updated =? 1)%Z then mret Rotated
            else current ← guarded (selectById oldId); mret (conflictReasonFor current)
        end
    | _, _ => mret (RotateRefused "lineage_mismatch")
    end.

Definition d1_revoke (i : string) (now : Z) : M S (option ManagedCredentialRecord) :=
  guarded (d1_run (RevokeRow now i));; selectById i.

Definition d1_expire (i : string) (now : Z) : M S (option ManagedCredentialRecord) :=
  guarded (d1_run (ExpireRow now i));; selectById i.

Fixpoint map_rows (t : table) : result (list ManagedCredentialRecord) :=
  match t with
  | [] => Ok []
  | row :: t' => r ← mapCredentialRow row; rs ← map_rows t'; Ok (r :: rs)
  end.

Definition d1_scan : M S (list ManagedCredentialRecord) :=
  found ← guarded (lift readDb;; d1_all);
  lift (map_rows found).

#[export] Instance d1_store : ManagedTokenStore S := {
  mt_getById := selectById;
  mt_insert := d1_insert;
  mt_tryRotate := d1_tryRotate;
  mt_revokeById := d1_revoke;
  mt_expireById := d1_expire;
  mt_scan := d1_scan
}.
End store.

(** * The D1 store refines the map of records

    When D1 runs its statements without failures, the D1 store returns what
    the in-memory store returns and its table holds the same records. *)

(** ** Rows and records *)

(** What every stored record satisfies. *)
Definition wf_record (r : ManagedCredentialRecord) : Prop :=
  id r ≠ ""%string ∧ verifier r ≠ ""%string ∧ (status r ≠ revoked → revokedAt r = None).

Lemma as_strings_strs l : as_strings (JArr (JStr <$> l)) = Some l.
Proof. by apply mapM_fmap_Some. Qed.

Lemma exact_strs l : json_exact (JArr (JStr <$> l)) = true.
Proof. cbn [json_exact]. by induction l. Qed.

Lemma parse_scopes_bound r : parse_scopes (row_scopes (bound_row r)) = Some (scopes r).
Proof.
  change (parse_scopes (JStr (unchars (json_text (JArr (JStr <$> scopes r))))) = Some (scopes r)).
  unfold parse_scopes. change (as_string (JStr ?x)) with (Some x).
  change (Some ?x ≫= ?f) with (f x). cbv beta. rewrite JSON_parse_exact by apply exact_strs.
  apply as_strings_strs.
Qed.

Lemma nonempty_text_str s : s ≠ ""%string → nonempty_text (JStr s) = Some s.
Proof. intros Hs. unfold nonempty_text, falsy. cbn. by rewrite bool_decide_false. Qed.

Lemma read_bound_row r : wf_record r → read_row (bound_row r) = Some r.
Proof.
  intros (Hid & Hv & _). unfold read_row. rewrite parse_scopes_bound.
  change (row_id (bound_row r)) with (JStr (id r)).
  change (row_verifier (bound_row r)) with (JStr (verifier r)).
  rewrite !nonempty_text_str by done. clear.
  destruct r as [? ? ? ? st ? ? ? vu to fr ra]; destruct st, vu, to, fr, ra; done.
Qed.

Lemma map_bound_row r : wf_record r → mapCredentialRow (bound_row r) = Ok r.
Proof. intros Hr. unfold mapCredentialRow. by rewrite read_bound_row. Qed.

(** The table holds the records of the map, in its order. *)
Record represents (t : table) (m : rows_map) : Prop := {
  rep_rows : t = bound_row <$> m.*2;
  rep_ok : map_ok m;
  rep_keyed : Forall (λ kr, kr.1 = id kr.2) m;
  rep_wf : Forall (λ kr, wf_record kr.2) m
}.

Lemma has_id_bound i r : has_id i (bound_row r) = bool_decide (id r = i).
Proof. done. Qed.

Lemma find_row i m :
  Forall (λ kr : string * ManagedCredentialRecord, kr.1 = id kr.2) m →
  find (has_id i) (bound_row <$> m.*2) = bound_row <$> map_get i m.
Proof.
  induction 1 as [|[k r] m Hk _ IH]; [done|]. cbn in Hk. subst k. rewrite !fmap_cons. cbn [find snd map_get].
  rewrite has_id_bound.
  destruct (decide (i = id r)) as [->|Hne]; [by rewrite bool_decide_true|].
  rewrite bool_decide_false by congruence. exact IH.
Qed.

(** ** A database without failures *)

Class D1Laws {S} `{!D1Database S} (view : S → table) : Prop := {
  sessions_law : has_sessions = true;
  first_law i s : (d1_first i s).1 = Ok (find (has_id i) (view s)) ∧ view (d1_first i s).2 = view s;
  all_law s : (d1_all s).1 = Ok (scan_rows (view s)) ∧ view (d1_all s).2 = view s;
  run_law st s :
    match exec st (view s) with
    | Some (t, n) => (d1_run st s).1 = Ok n ∧ view (d1_run st s).2 = t
    | None => is_Throw (d1_run st s).1 ∧ view (d1_run st s).2 = view s
    end;
  batch_law sts s :
    match exec_all sts (view s) with
    | Some (t, ns) => (d1_batch sts s).1 = Ok ns ∧ view (d1_batch sts s).2 = t
    | None => is_Throw (d1_batch sts s).1 ∧ view (d1_batch sts s).2 = view s
    end
}.

Section refinement.
Context {S : Type} `{!D1Database S} (view : S → table) `{Laws : !D1Laws view}.

(** The same result, and tables that go on representing the maps. *)
Definition refines {A} (c : M S A) (spec : M rows_map A) : Prop := ∀ s m,
  represents (view s) m → (c s).1 = (spec m).1 ∧ represents (view (c s).2) (spec m).2.

Lemma wp_refines {A} (c : M S A) (spec : M rows_map A) :
  (∀ s m, represents (view s) m → wp c (λ r s', r = (spec m).1 ∧ represents (view s') (spec m).2) s) →
  refines c spec.
Proof. intros Hc s m Hs. exact (Hc s m Hs). Qed.

Lemma wf_lookup i r t m : represents t m → map_get i m = Some r → wf_record r ∧ id r = i.
Proof.
  intros [_ Hok Hk Hw] Hr%map_get_Some; [|done]. rewrite Forall_forall in Hk, Hw.
  split; [apply (Hw _ Hr)|symmetry; apply (Hk _ Hr)].
Qed.

Lemma wp_guarded {A} (c : M S A) Q s : wp c (λ r s', is_Ok r ∧ Q r s') s → wp (guarded c) Q s.
Proof. unfold wp, guarded, catch. destruct (c s) as [[a|e] s']; [by intros [_ ?]|by intros [[? ?] _]]. Qed.

Lemma wp_select i (Q : result (option ManagedCredentialRecord) → S → Prop) s m :
  represents (view s) m →
  (∀ s', view s' = view s → Q (Ok (map_get i m)) s') → wp (selectById i) Q s.
Proof.
  intros Hs HQ. apply wp_bind, wp_guarded. unfold readDb. rewrite sessions_law. cbn [negb].
  apply wp_bind. apply wp_lift. destruct (first_law i s) as [Hr Hv]. unfold wp. rewrite Hr.
  split; [by eexists|]. rewrite (rep_rows _ _ Hs), find_row by apply (rep_keyed _ _ Hs).
  destruct (map_get i m) as [r|] eqn:Hm; cbn; [|by apply HQ].
  destruct (wf_lookup _ _ _ _ Hs Hm) as [Hw _]. rewrite map_bound_row by done. by apply HQ.
Qed.

Lemma select_refines i : refines (selectById i) (gets (map_get i)).
Proof.
  apply wp_refines. intros s m Hs. eapply wp_select; [exact Hs|]. intros s' Hv. by rewrite Hv.
Qed.

Lemma existsb_id r m :
  Forall (λ kr : string * ManagedCredentialRecord, kr.1 = id kr.2) m →
  existsb (λ row, sql_eq (row_id row) (row_id (bound_row r))) (bound_row <$> m.*2) = map_has (id r) m.
Proof.
  intros Hk. unfold map_has. induction Hk as [|[k x] m Hk _ IH]; [done|]. cbn in Hk. subst k.
  rewrite !fmap_cons. cbn [existsb snd map_get]. rewrite IH.
  change (sql_eq (row_id (bound_row x)) (row_id (bound_row r))) with (bool_decide (id x = id r)).
  destruct (decide (id r = id x)) as [Heq|Hne].
  - rewrite bool_decide_true by done. symmetry. by apply bool_decide_eq_true.
  - by rewrite bool_decide_false by congruence.
Qed.

Lemma map_set_new r (m : rows_map) : map_get (id r) m = None → map_set (id r) r m = m ++ [(id r, r)].
Proof. intros Hn. apply map_set_absent. by apply map_get_None. Qed.

Lemma map_set_comm_new i j (v w r : ManagedCredentialRecord) (m : rows_map) :
  map_get i m = Some r → map_get j m = None → map_set i v (map_set j w m) = map_set j w (map_set i v m).
Proof.
  induction m as [|[k x] m IH]; [done|]. cbn [map_get map_set]. intros Hi Hj.
  destruct (decide (j = k)) as [->|Hj']; [done|].
  destruct (decide (i = k)) as [->|Hi']; cbn [map_set].
  - by rewrite decide_True, decide_False.
  - rewrite !decide_False by done. by rewrite IH.
Qed.

Lemma represents_insert r m :
  wf_record r → map_get (id r) m = None → represents (bound_row <$> m.*2) m →
  represents ((bound_row <$> m.*2) ++ [bound_row r]) (map_set (id r) r m).
Proof.
  intros Hw Hn [_ Hok Hk Hwf]. split.
  - rewrite map_set_new by done. by rewrite !fmap_app.
  - by apply map_ok_set.
  - rewrite map_set_new by done. apply Forall_app_2; [done|]. by constructor.
  - rewrite map_set_new by done. apply Forall_app_2; [done|]. by constructor.
Qed.

Lemma insert_refines r : wf_record r → refines (d1_insert r) (rows_insert r).
Proof.
  intros Hw. apply wp_refines. intros s m Hs. apply wp_attempt, wp_intro. intros out s1 Hrun.
  pose proof (run_law (InsertRow (bound_row r)) s) as Hlaw. rewrite Hrun in Hlaw. cbn [exec] in Hlaw.
  unfold insert_unique in Hlaw.
  pose proof Hs as [Hrows _ Hkeyed _]. rewrite Hrows, existsb_id in Hlaw by done.
  unfold rows_insert, mbind, M_bind, get, lift, update, throw_if.
  destruct (map_has (id r) m) eqn:Hh; cbn in Hlaw |- *.
  - destruct Hlaw as [[e ->] Hv]. apply wp_bind, wp_guarded.
    eapply wp_select; [rewrite Hv, <- Hrows; exact Hs|].
    intros s' Hv'. split; [by eexists|]. unfold map_has in Hh. reflect.
    destruct (map_get (id r) m); [|done]. apply wp_throw. split; [done|]. congruence.
  - destruct Hlaw as [-> Hv]. apply wp_ret. split; [done|]. rewrite Hv.
    unfold map_has in Hh. reflect. apply represents_insert; [done| |rewrite <- Hrows; exact Hs].
    by apply dec_stable.
Qed.

(** *** Updates *)

Lemma update_where_none p f (m : rows_map) :
  (∀ k r, (k, r) ∈ m → p (bound_row r) = false) →
  update_where p f (bound_row <$> m.*2) = (bound_row <$> m.*2, 0%Z).
Proof.
  induction m as [|[k r] m IH]; intros Hp; [done|].
  assert (Hr : p (bound_row r) = false) by (apply (Hp k); left).
  assert (Hm : ∀ k r, (k, r) ∈ m → p (bound_row r) = false) by (intros k' r' Hin; apply (Hp k'); by right).
  specialize (IH Hm). unfold update_where in *. injection IH as H1 H2.
  rewrite !fmap_cons. cbn [snd]. rewrite Hr, H1, filter_cons, decide_False by (by rewrite Hr). by f_equal.
Qed.

Lemma update_where_one p f i r r' (m : rows_map) :
  map_ok m → map_get i m = Some r → p (bound_row r) = true → f (bound_row r) = bound_row r' →
  (∀ k x, (k, x) ∈ m → p (bound_row x) = true → k = i) →
  update_where p f (bound_row <$> m.*2) = (bound_row <$> (map_set i r' m).*2, 1%Z).
Proof.
  intros Hok Hget Hp Hf. induction m as [|[k x] m IH]; [done|]. intros Hother.
  apply NoDup_cons in Hok as [Hk Hok]. cbn in Hget.
  assert (Hrest : ∀ k0 x0, (k0, x0) ∈ m → p (bound_row x0) = true → k0 = i).
  { intros k0 x0 Hin. apply (Hother k0). by right. }
  cbn [map_set]. destruct (decide (i = k)) as [->|Hne].
  - injection Hget as ->. pose proof (update_where_none p f m) as Hn. unfold update_where in *.
    assert (Hnone : ∀ k0 x0, (k0, x0) ∈ m → p (bound_row x0) = false).
    { intros k0 x0 Hin. destruct (p (bound_row x0)) eqn:Hx; [|done]. destruct Hk.
      rewrite <- (Hrest _ _ Hin Hx). apply (list_elem_of_fmap_2 fst _ _ Hin). }
    specialize (Hn Hnone). injection Hn as H1 H2.
    rewrite !fmap_cons. cbn [snd]. rewrite Hp, Hf, H1, filter_cons, decide_True by done. cbn [length].
    by replace (length _) with 0 by lia.
  - specialize (IH Hok Hget Hrest). unfold update_where in *. injection IH as H1 H2.
    assert (Hx : p (bound_row x) = false).
    { destruct (p (bound_row x)) eqn:Hx; [|done]. destruct Hne. symmetry.
      apply (Hother k x); [left|done]. }
    rewrite !fmap_cons. cbn [snd]. rewrite Hx, H1, filter_cons, decide_False by (by rewrite Hx). by f_equal.
Qed.

Lemma represents_set i r r' t m :
  represents t m → map_get i m = Some r → id r' = i → wf_record r' →
  represents (bound_row <$> (map_set i r' m).*2) (map_set i r' m).
Proof.
  intros [_ Hok Hk Hw] Hget Hid Hw'. split; [done|by apply map_ok_set|..]; clear Hok.
  - induction Hk as [|[k x] m Hkx Hk IH]; [done|]. cbn in *. apply Forall_cons in Hw as [Hx Hw].
    destruct (decide (i = k)) as [->|]; constructor; [done|done|done|by apply IH].
  - induction Hw as [|[k x] m Hx Hw IH]; [done|]. cbn in *. apply Forall_cons in Hk as [Hkx Hk].
    destruct (decide (i = k)) as [->|]; constructor; [done|done|done|by apply IH].
Qed.

Lemma key_of t m k x : represents t m → (k, x) ∈ m → id x = k.
Proof. intros [_ _ Hk _] Hin. rewrite Forall_forall in Hk. symmetry. exact (Hk _ Hin). Qed.

(** A row is updated, and read again. *)
Lemma update_refines st i p f s m r r' :
  represents (view s) m → map_get i m = Some r →
  (∀ t, exec st t = Some (update_where p f t)) →
  p (bound_row r) = true → f (bound_row r) = bound_row r' → id r' = i → wf_record r' →
  (∀ x, p (bound_row x) = true → id x = i) →
  wp (guarded (d1_run st);; selectById i)
    (λ res s', res = Ok (Some r') ∧ represents (view s') (map_set i r' m)) s.
Proof.
  intros Hs Hget Hst Hp Hf Hid Hw Hother. apply wp_bind, wp_guarded. pose proof (run_law st s) as Hlaw.
  rewrite Hst, (rep_rows _ _ Hs), (update_where_one p f i r r' m) in Hlaw; [|apply Hs|done..|].
  2: { intros k x Hin Hx. by rewrite <- (key_of _ _ _ _ Hs Hin), (Hother x Hx). }
  destruct Hlaw as [Hr Hv]. unfold wp at 1. rewrite Hr. split; [by eexists|].
  eapply wp_select; [rewrite Hv; by eapply represents_set|].
  intros s' Hv'. rewrite map_get_set_eq, Hv', Hv. split; [done|]. by eapply represents_set.
Qed.

(** No row is, and the record is read again. *)
Lemma no_update_refines st i p f s m :
  represents (view s) m → (∀ t, exec st t = Some (update_where p f t)) →
  (∀ k x, (k, x) ∈ m → p (bound_row x) = false) →
  wp (guarded (d1_run st);; selectById i)
    (λ res s', res = Ok (map_get i m) ∧ represents (view s') m) s.
Proof.
  intros Hs Hst Hp. apply wp_bind, wp_guarded. pose proof (run_law st s) as Hlaw.
  rewrite Hst, (rep_rows _ _ Hs), update_where_none in Hlaw by done.
  destruct Hlaw as [Hr Hv]. unfold wp at 1. rewrite Hr. split; [by eexists|]. rewrite <- (rep_rows _ _ Hs) in Hv.
  eapply wp_select; [by rewrite Hv|]. intros s' Hv'. rewrite Hv', Hv. by split.
Qed.

Lemma absent_id t m i k x : represents t m → map_get i m = None → (k, x) ∈ m → has_id i (bound_row x) = false.
Proof.
  intros Hs Hget Hin. rewrite has_id_bound. apply bool_decide_false. intros Hx.
  pose proof (key_of _ _ _ _ Hs Hin) as Hk. apply map_get_Some in Hin; [|apply Hs]. congruence.
Qed.

Lemma the_record t m i k x r :
  represents t m → map_get i m = Some r → (k, x) ∈ m → has_id i (bound_row x) = bool_decide (x = r).
Proof.
  intros Hs Hget Hin. rewrite has_id_bound. pose proof (key_of _ _ _ _ Hs Hin) as Hk.
  destruct (wf_lookup _ _ _ _ Hs Hget) as [_ Hid]. apply map_get_Some in Hin; [|apply Hs].
  apply bool_decide_ext. split; congruence.
Qed.

Lemma revoke_refines i t : refines (d1_revoke i t) (rows_revoke i t).
Proof.
  apply wp_refines. intros s m Hs. unfold rows_revoke, mbind, M_bind, get. cbn.
  assert (Hex : ∀ tb, exec (RevokeRow t i) tb = Some (update_where _ _ tb)) by (intros; reflexivity).
  destruct (map_get i m) as [r|] eqn:Hget.
  - destruct (wf_lookup _ _ _ _ Hs Hget) as [(Hi & Hv & Hrev) Hid].
    destruct (decide (status r = revoked)) as [Hst|Hst].
    + rewrite bool_decide_true by done. eapply wp_mono; [eapply no_update_refines; [done|exact Hex|]|].
      * intros k x Hin. cbv beta. rewrite (the_record _ _ _ _ _ _ Hs Hget Hin).
        destruct (decide (x = r)) as [->|Hx]; [|by rewrite bool_decide_false].
        rewrite bool_decide_true by done.
        cbn. rewrite Hst. cbn. done.
      * intros res s' [-> Hs']. by rewrite Hget.
    + rewrite bool_decide_false by done. eapply (update_refines _ i); [exact Hs|exact Hget|exact Hex|..].
      * cbv beta. rewrite has_id_bound, Hid, bool_decide_true by done. revert Hst. clear. cbn. by destruct (status r).
      * cbn. rewrite (Hrev Hst). done.
      * done.
      * done.
      * intros x. cbv beta. rewrite has_id_bound. intros Hx. apply andb_prop in Hx as [Hx _].
        apply andb_prop in Hx as [Hx _]. by reflect.
  - eapply wp_mono; [eapply no_update_refines; [done|exact Hex|]|].
    + intros k x Hin. cbv beta. by rewrite (absent_id _ _ _ _ _ Hs Hget Hin).
    + intros res s' [-> Hs']. by rewrite Hget.
Qed.

Lemma expire_refines i t : refines (d1_expire i t) (rows_expire i t).
Proof.
  apply wp_refines. intros s m Hs. unfold rows_expire, mbind, M_bind, get. cbn.
  assert (Hex : ∀ tb, exec (ExpireRow t i) tb = Some (update_where _ _ tb)) by done.
  destruct (map_get i m) as [r|] eqn:Hget.
  - destruct (wf_lookup _ _ _ _ Hs Hget) as [(Hi & Hv & Hrev) Hid].
    eapply (update_refines _ i); [exact Hs|exact Hget|exact Hex|..].
    + by rewrite has_id_bound, Hid, bool_decide_true.
    + unfold expired_record. cbn. destruct (Z.ltb_spec t (expiresAt r)).
      * rewrite Z.min_r by lia. done.
      * rewrite Z.min_l by lia. done.
    + done.
    + done.
    + intros x. rewrite has_id_bound. by intros ?%bool_decide_eq_true.
  - eapply wp_mono; [eapply no_update_refines; [done|exact Hex|]|].
    + intros k x Hin. by eapply absent_id.
    + intros res s' [-> Hs']. by rewrite Hget.
Qed.

(** *** Scans *)

Lemma insert_by_created_bound r l :
  insert_by_created (bound_row r) (bound_row <$> l) = bound_row <$> insert_row r l.
Proof.
  induction l as [|x l IH]; [done|]. rewrite fmap_cons. cbn [insert_by_created insert_row].
  change (sql_above _ _) with (createdAt x <? createdAt r)%Z.
  destruct (_ <? _)%Z; [|done]. by rewrite IH, fmap_cons.
Qed.

Lemma scan_rows_bound l : scan_rows (bound_row <$> l) = bound_row <$> take SCAN_LIMIT (sort_rows l).
Proof.
  unfold scan_rows. rewrite fmap_take. f_equal. unfold sort_rows.
  induction l as [|r l IH]; [done|]. rewrite fmap_cons. cbn [foldr].
  by rewrite IH, insert_by_created_bound.
Qed.

Lemma insert_row_Forall P r l : P r → Forall P l → Forall P (insert_row r l).
Proof. intros Hr. induction 1; cbn; [by constructor|]. case_match; auto. Qed.

Lemma sort_rows_Forall P l : Forall P l → Forall P (sort_rows l).
Proof. induction 1; cbn; [done|]. by apply insert_row_Forall. Qed.

Lemma map_rows_bound l : Forall wf_record l → map_rows (bound_row <$> l) = Ok l.
Proof.
  induction 1 as [|r l Hr _ IH]; [done|]. rewrite fmap_cons. cbn [map_rows].
  rewrite map_bound_row by done. change (map_rows (fmap ?f ?l)) with (map_rows (bound_row <$> l)).
  unfold mbind, result_bind in *. by rewrite IH.
Qed.

Lemma scan_refines : refines d1_scan (gets (λ m : rows_map, take SCAN_LIMIT (sort_rows m.*2))).
Proof.
  apply wp_refines. intros s m Hs. apply wp_bind, wp_guarded. unfold readDb. rewrite sessions_law.
  apply wp_lift_bind; [intros _ _|done]. destruct (all_law s) as [Hr Hv]. unfold wp. rewrite Hr.
  split; [by eexists|]. rewrite (rep_rows _ _ Hs), scan_rows_bound. cbn -[SCAN_LIMIT].
  rewrite map_rows_bound; [|apply Forall_take, sort_rows_Forall].
  - split; [done|]. by rewrite Hv.
  - pose proof (rep_wf _ _ Hs) as Hw. by rewrite Forall_fmap.
Qed.

(** *** Rotation *)

(** What [rotateManagedCredential] asks of a rotation. *)
Definition rotation_of (oldId : string) (u : RotateUpdate) (next : ManagedCredentialRecord) : Prop :=
  rotatedFrom next = Some oldId ∧ ru_rotatedTo u = Some (id next) ∧ ru_status u = rotating ∧
  ru_validUntil u ≠ None ∧ wf_record next.

Lemma eligible_bound i r :
  eligible i (bound_row r) = bool_decide (id r = i ∧ status r = active ∧ rotatedTo r = None).
Proof.
  unfold eligible. rewrite has_id_bound, <- andb_assoc. rewrite !bool_decide_and. f_equal.
  destruct r as [? ? ? ? st ? ? ? ? to ? ?]. cbn. by destruct st, to.
Qed.

Lemma existsb_eligible i t m : represents t m →
  existsb (eligible i) (bound_row <$> m.*2) =
  match map_get i m with Some r => bool_decide (status r = active ∧ rotatedTo r = None) | None => false end.
Proof.
  intros [_ Hok Hk _]. induction Hk as [|[k x] m Hkx Hk IH]; [done|]. cbn in Hkx. subst k.
  apply NoDup_cons in Hok as [Hn Hok]. specialize (IH Hok).
  rewrite !fmap_cons. cbn [existsb snd map_get]. rewrite eligible_bound, IH.
  destruct (decide (i = id x)) as [->|Hne].
  - apply map_get_None in Hn. cbn in Hn. rewrite Hn, orb_false_r. apply bool_decide_ext. naive_solver.
  - by rewrite bool_decide_false by naive_solver.
Qed.

Lemma conflict_refines i s m :
  represents (view s) m →
  wp (current ← guarded (selectById i); mret (conflictReasonFor current))
    (λ r s', r = Ok (conflictReasonFor (map_get i m)) ∧ represents (view s') m) s.
Proof.
  intros Hs. apply wp_bind, wp_guarded. eapply wp_select; [done|]. intros s' Hv.
  split; [by eexists|]. apply wp_ret. by rewrite Hv.
Qed.

Lemma exec_all_two s1 s2 t :
  exec_all [s1; s2] t =
  match exec s1 t with
  | Some (t1, n1) => match exec s2 t1 with Some (t2, n2) => Some (t2, [n1; n2]) | None => None end
  | None => None
  end.
Proof. cbn [exec_all]. destruct (exec s1 t) as [[t1 n1]|]; [|done]. cbn. by destruct (exec s2 t1) as [[]|]. Qed.

(** The two statements of a batch, on the rows of the map. *)
Lemma exec_rotation oldId vu u next t m :
  represents t m → rotation_of oldId u next → ru_validUntil u = Some vu →
  exec_all [InsertSuccessor (bound_row next) oldId; MarkRotating vu (id next) (ru_updatedAt u) oldId] t =
  match map_get oldId m with
  | Some r =>
      if bool_decide (status r = active ∧ rotatedTo r = None) then
        if map_has (id next) m then None
        else Some (bound_row <$> (map_set (id next) next (map_set oldId (rotated_record r u) m)).*2, [1; 1]%Z)
      else Some (t, [0; 0]%Z)
  | None => Some (t, [0; 0]%Z)
  end.
Proof.
  intros Hs (Hfrom & Hto & Hst & _ & Hw) Hvu. pose proof (rep_rows _ _ Hs) as Hrows.
  pose proof (existsb_eligible oldId t m Hs) as He. rewrite exec_all_two. cbn [exec].
  unfold insert_successor, mark_rotating. rewrite Hrows, He.
  assert (Hnone : match map_get oldId m with
            | Some r => bool_decide (status r = active ∧ rotatedTo r = None) | None => false end = false →
          ∀ f, update_where (eligible oldId) f (bound_row <$> m.*2) = (bound_row <$> m.*2, 0%Z)).
  { intros Hf f. apply update_where_none. intros k x Hin. rewrite <- He in Hf.
    destruct (eligible oldId (bound_row x)) eqn:Hx; [|done]. rewrite <- Hf. symmetry.
    apply existsb_exists. exists (bound_row x). split; [|done].
    apply list_elem_of_In, list_elem_of_fmap_2, (list_elem_of_fmap_2 snd _ _ Hin). }
  destruct (map_get oldId m) as [r|] eqn:Hget; [|by rewrite Hnone].
  destruct (bool_decide _) eqn:Hel; [|by rewrite Hnone]. clear Hnone. unfold insert_unique.
  rewrite existsb_id by apply (rep_keyed _ _ Hs). destruct (map_has (id next) m) eqn:Hh; [done|].
  unfold map_has in Hh. reflect. apply dec_stable in Hh.
  pose proof (represents_insert next m Hw Hh (eq_rect _ (λ t, represents t m) Hs _ Hrows)) as Hs2.
  rewrite (rep_rows _ _ Hs2). destruct Hel as [Hact Hrot].
  destruct (wf_lookup _ _ _ _ Hs Hget) as [(Hi & Hv & Hrev) Hid].
  assert (Hne : oldId ≠ id next) by (intros ->; congruence).
  erewrite (update_where_one _ _ oldId r (rotated_record r u)).
  - by rewrite (map_set_comm_new oldId (id next) _ next r).
  - apply Hs2.
  - by rewrite map_get_set_ne.
  - rewrite eligible_bound. by apply bool_decide_true.
  - cbv beta. unfold rotated_record. destruct u as [ust uvu uto uat]. cbn in *. by subst.
  - intros k x Hin Hx. rewrite <- (key_of _ _ _ _ Hs2 Hin). rewrite eligible_bound in Hx. by apply bool_decide_eq_true in Hx as [? _].
Qed.

Lemma rows_tryRotate_run oldId u next m :
  rotation_of oldId u next →
  rows_tryRotate oldId u next m =
  match map_get oldId m with
  | Some r =>
      if bool_decide (status r = active ∧ rotatedTo r = None) then
        if map_has (id next) m then (Ok (RotateRefused "id_collision"), m)
        else (Ok Rotated, map_set (id next) next (map_set oldId (rotated_record r u) m))
      else (Ok (conflictReasonFor (Some r)), m)
  | None => (Ok (conflictReasonFor None), m)
  end.
Proof.
  intros (Hfrom & Hto & _). unfold rows_tryRotate, mbind, M_bind, get. cbn.
  destruct (map_get oldId m) as [r|]; [|done]. rewrite Hfrom, Hto, !(bool_decide_true (Some _ = Some _)) by done.
  unfold conflictReasonFor. destruct (decide (status r = active)) as [Ha|Ha].
  - rewrite Ha, (bool_decide_true (active = active)) by done. destruct (rotatedTo r) as [j|]; cbn [negb].
    + rewrite (bool_decide_true (Some j ≠ None)) by done. by rewrite bool_decide_false by naive_solver.
    + rewrite (bool_decide_false (None ≠ None)) by auto. rewrite bool_decide_true by done. by destruct (map_has _ _).
  - rewrite (bool_decide_false (status r = active)) by done. rewrite (bool_decide_false (_ ∧ _)); [done|]. by intros [? _].
Qed.

Lemma rotate_refines oldId u next :
  rotation_of oldId u next → refines (d1_tryRotate oldId u next) (rows_tryRotate oldId u next).
Proof.
  intros Hrot. apply wp_refines. intros s m Hs. pose proof Hrot as (Hfrom & Hto & Hst & Hvu & Hw).
  rewrite rows_tryRotate_run by done. destruct (ru_validUntil u) as [vu|] eqn:Hu; [|done].
  unfold d1_tryRotate. rewrite Hfrom, Hto, Hu, !bool_decide_true by done. cbn [negb orb].
  apply wp_attempt, wp_intro. intros out s1 Hrun.
  pose proof (batch_law [InsertSuccessor (bound_row next) oldId; MarkRotating vu (id next) (ru_updatedAt u) oldId] s)
    as Hlaw.
  rewrite (exec_rotation oldId vu u next _ m), Hrun in Hlaw by done. clear Hrun.
  assert (Hnone : view s1 = view s → wp (current ← guarded (selectById oldId); mret (conflictReasonFor current))
    (λ r s', r = Ok (conflictReasonFor (map_get oldId m)) ∧ represents (view s') m) s1).
  { intros Hv. apply conflict_refines. by rewrite Hv. }
  destruct (map_get oldId m) as [r|] eqn:Hget; cbn in Hlaw.
  2: { destruct Hlaw as [-> Hv]. by apply Hnone. }
  destruct (bool_decide _) eqn:Hel; cbn in Hlaw; [|destruct Hlaw as [-> Hv]; by apply Hnone].
  destruct (map_has (id next) m) eqn:Hh; cbn in Hlaw.
  - destruct Hlaw as [[e ->] Hv]. apply wp_bind, wp_guarded. eapply wp_select; [rewrite Hv; exact Hs|].
    intros s' Hv'. split; [by eexists|]. unfold map_has in Hh. reflect.
    destruct (map_get (id next) m); [|done]. apply wp_ret. split; [done|]. by rewrite Hv', Hv.
  - destruct Hlaw as [-> Hv]. apply wp_ret. split; [done|]. rewrite Hv. cbn [snd].
    unfold map_has in Hh. reflect. apply dec_stable in Hh.
    destruct (wf_lookup _ _ _ _ Hs Hget) as [(Hi & Hver & Hrev) Hid].
    assert (Hs2 : represents (bound_row <$> (map_set oldId (rotated_record r u) m).*2)
                    (map_set oldId (rotated_record r u) m)).
    { eapply represents_set; [exact Hs|exact Hget|exact Hid|]. split_and!; [done|done|].
      intros _. apply Hrev. destruct Hel as [-> _]. done. }
    assert (Hnew : map_get (id next) (map_set oldId (rotated_record r u) m) = None).
    { rewrite map_get_set_ne; [done|]. intros Heq. congruence. }
    destruct (represents_insert next _ Hw Hnew Hs2) as [_ ? ? ?]. by split.
Qed.
End refinement.

(** over a database that runs its statements, the D1 store is the
    in-memory store: from a table that holds the records of a map, in its
    order, each operation returns what the map's operation returns (a scan,
    its first rows) and leaves a table that holds the records of the map the
    operation leaves; the two guarded statements of a rotation apply both or
    neither. *)
Theorem d1_store_refines_rows {S} `{!D1Database S} (view : S → table) :
  D1Laws view →
  (∀ i, refines view (mt_getById i) (gets (map_get i))) ∧
  (∀ r, wf_record r → refines view (mt_insert r) (rows_insert r)) ∧
  (∀ oldId u next, rotation_of oldId u next →
     refines view (mt_tryRotate oldId u next) (rows_tryRotate oldId u next)) ∧
  (∀ i t, refines view (mt_revokeById i t) (rows_revoke i t)) ∧
  (∀ i t, refines view (mt_expireById i t) (rows_expire i t)) ∧
  refines view mt_scan (gets (λ m : rows_map, take SCAN_LIMIT (sort_rows m.*2))).
Proof.
  intros Laws. split_and!; intros.
  - by apply select_refines.
  - by apply insert_refines.
  - by apply rotate_refines.
  - by apply revoke_refines.
  - by apply expire_refines.
  - by apply scan_refines.
Qed.

(** ** A database on its own *)

#[export] Instance table_database : D1Database table := {
  has_sessions := true;
  d1_first i := gets (find (has_id i));
  d1_all := gets scan_rows;
  d1_run st := λ t, match exec st t with Some (t', n) => (Ok n, t') | None => (Throw store_unavailable, t) end;
  d1_batch sts := λ t, match exec_all sts t with
                       | Some (t', ns) => (Ok ns, t') | None => (Throw store_unavailable, t) end
}.

#[export] Instance table_laws : D1Laws (λ t : table, t).
Proof.
  split; [done|done|done|..]; intros st t; cbn.
  - destruct (exec st t) as [[t' n]|]; cbn; [done|]. split; [by eexists|done].
  - destruct (exec_all st t) as [[t' n]|]; cbn; [done|]. split; [by eexists|done].
Qed.

Definition one_credential : ManagedCredentialRecord :=
  {| id := "cred_aaaaaaaa"; verifier := "v1"; scopes := ["mcp"%string]; label := ""; status := active;
     createdAt := 1; updatedAt := 1; expiresAt := 100; validUntil := None; rotatedTo := None;
     rotatedFrom := None; revokedAt := None |}.

Definition its_successor : ManagedCredentialRecord :=
  one_credential <| id := "cred_bbbbbbbb" |> <| rotatedFrom := Some "cred_aaaaaaaa"%string |>.

Lemma one_represented : represents [bound_row one_credential] [(id one_credential, one_credential)].
Proof.
  split; [done|repeat constructor; by intros ?%list_elem_of_In|..]; (constructor; [|done]); [done|].
  by split_and!.
Qed.

Lemma d1_store_refines_rows_witness :
  (d1_tryRotate "cred_aaaaaaaa" (rotate_update "cred_bbbbbbbb" 50 10) its_successor
    [bound_row one_credential]).1 = Ok Rotated ∧
  refines (λ t : table, t) (mt_tryRotate "cred_aaaaaaaa" (rotate_update "cred_bbbbbbbb" 50 10) its_successor)
    (rows_tryRotate "cred_aaaaaaaa" (rotate_update "cred_bbbbbbbb" 50 10) its_successor).
Proof.
  split; [by vm_compute|].
  destruct (d1_store_refines_rows (λ t : table, t) table_laws) as (_ & _ & Hrot & _).
  apply Hrot. split_and!; done.
Defined.
