(* ===== verification/InternalContext.v ===== *)
(** * The internal context between the worker and the container

    [src/worker/internal-context.ts]: the worker mints a short-lived signed
    context that names the request and its principal, forwards the request
    without the caller's credential, and the container verifies it.

    HMAC-SHA-256 is the runtime's ([HmacApi], hexadecimal); the clock reading
    is an argument. *)

From S2P Require Import Prelude JsString JsMap Json Digest Base64Url WorkerHttp WorkerAuth.

Definition INTERNAL_CONTEXT_HEADER : string := "x-groundlane-internal-context".
Definition INTERNAL_REQUEST_ID_HEADER : string := "x-request-id".

Definition CALLER_INTERNAL_HEADERS : list string :=
  [INTERNAL_CONTEXT_HEADER; "x-groundlane-internal-auth"; "x-internal-auth"; "x-groundlane-container-auth"]%string.

Definition INTERNAL_ISSUER : string := "groundlane-worker".
Definition INTERNAL_MAX_TTL_MS : Z := 60000.
Definition INTERNAL_DEFAULT_TTL_MS : Z := 30000.

Class HmacApi := {
  hmac_sha256 : string → string → string;
  hmac_hex secret text : Forall (λ c, is_digit c || between 97 102 c = true) (chars (hmac_sha256 secret text))
}.

(** [computeSignature(payloadB64, signingSecret)] *)
Definition computeSignature `{!HmacApi} (payloadB64 signingSecret : string) : string :=
  hmac_sha256 signingSecret payloadB64.

(** ** Requests *)

Definition stripCallerInternalHeaders (r : Request) : Request :=
  with_headers r (delete_headers CALLER_INTERNAL_HEADERS (sanitizeCallerPrincipalHeaders (rq_headers r))).

Definition buildContainerRequestWithInternalContext (original : Request) (internalToken requestId : string)
    : Request :=
  let stripped := stripCallerInternalHeaders original in
  let headers := map_delete "authorization" (rq_headers stripped) in
  let headers := map_set INTERNAL_CONTEXT_HEADER internalToken headers in
  with_headers stripped (map_set INTERNAL_REQUEST_ID_HEADER requestId headers).

(** ** The payload *)

Definition auth_method_name (m : DataPlaneAuthMethod) : string :=
  match m with
  | static_bearer => "static_bearer" | managed_token => "managed_token" | oauth => "oauth"
  end.

Definition principal_json (p : AuthenticatedPrincipal) : js_value :=
  JObj ([("principalId", JStr "owner"); ("authMethod", JStr (auth_method_name (authMethod p)));
         ("scopes", JArr (JStr <$> pr_scopes p))]%string ++
        opt_field "clientId" (clientId p) ++ opt_field "credentialId" (credentialId p)).

(** [toUpperCase], of the letters of the Latin-1 block whose upper case is in it. *)
Definition upper_char (c : ascii) : ascii :=
  let n := nat_of_ascii c in
  if is_lower c || (between 224 254 c && negb (n =? 247)) then ascii_of_nat (n - 32) else c.

Definition toUpperCase (s : string) : string := unchars (map upper_char (chars s)).

(** [/^[a-z0-9._-]{1,64}$/] *)
Definition is_name (s : string) : bool :=
  negb (falsy s) && (str_length s <=? 64)%Z &&
  forallb (λ c, is_lower c || is_digit c || one_of "._-" c) (chars s).

(** [/^sha256-[a-f0-9]{64}$/] *)
Definition is_body_digest (s : string) : bool :=
  startsWith s "sha256-" && (str_length s =? 71)%Z &&
  forallb (λ c, is_digit c || between 97 102 c) (drop 7 (chars s)).

(** ** Minting *)

Record MintOptions := {
  mi_issuer : option string;
  mi_signingSecret : string;
  mi_audience : string;
  mi_method : string;
  mi_path : string;
  mi_requestId : string;
  mi_principal : AuthenticatedPrincipal;
  mi_credentialBinding : string;
  mi_ttlMs : option number;
  mi_purpose : option string;
  mi_bodySha256 : option string
}.

Definition mint_issuer (o : MintOptions) : string := default INTERNAL_ISSUER (mi_issuer o).
Definition mint_ttl (o : MintOptions) : number := default (int INTERNAL_DEFAULT_TTL_MS) (mi_ttlMs o).

Definition bad_length (max : Z) (s : string) : bool := falsy s || (max <? str_length s)%Z.

(** The principal of the type is always the owner. *)
Definition check_mint (o : MintOptions) : result unit :=
  throw_if (falsy (mi_signingSecret o)) (TError "signing secret is required");;
  throw_if (negb (is_name (mint_issuer o))) (TError "invalid issuer");;
  throw_if (bad_length 128 (mi_audience o)) (TError "invalid audience");;
  throw_if (bad_length 128 (mi_requestId o)) (TError "invalid request id");;
  throw_if ((length (pr_scopes (mi_principal o)) =? 0) || (32 <? length (pr_scopes (mi_principal o))))
    (TError "invalid principal scopes");;
  throw_if (bad_length 256 (mi_credentialBinding o)) (TError "invalid credential binding");;
  throw_if (xorb (bool_decide (mi_purpose o = None)) (bool_decide (mi_bodySha256 o = None)))
    (TError "purpose and body digest must be provided together");;
  throw_if (match mi_purpose o with
            | Some p => negb (is_name p) || negb (is_body_digest (default ""%string (mi_bodySha256 o)))
            | None => false
            end) (TError "invalid internal body binding");;
  throw_if (negb (isInteger (mint_ttl o)) || num_leb (mint_ttl o) (int 0) ||
            num_ltb (int INTERNAL_MAX_TTL_MS) (mint_ttl o)) (TError "ttl must be 1..60000 ms").

Definition mint_payload (o : MintOptions) (now : Z) : js_value :=
  JObj ([("iss", JStr (mint_issuer o)); ("aud", JStr (mi_audience o)); ("iat", JNum now);
         ("exp", JNum (now + to_Z (mint_ttl o))); ("method", JStr (toUpperCase (mi_method o)));
         ("path", JStr (mi_path o)); ("requestId", JStr (mi_requestId o));
         ("principal", principal_json (mi_principal o));
         ("credentialBinding", JStr (mi_credentialBinding o))]%string ++
        opt_field "purpose" (mi_purpose o) ++ opt_field "bodySha256" (mi_bodySha256 o)).

Definition mintInternalContext `{!HmacApi} (o : MintOptions) (now : Z) : result string :=
  check_mint o;;
  let payloadB64 := base64UrlEncodeString (unchars (json_text (mint_payload o now))) in
  Ok ("v1." +:+ payloadB64 +:+ "." +:+ computeSignature payloadB64 (mi_signingSecret o)).

(** ** Verification *)

Record VerifyInternalOptions := {
  vo_signingSecret : string;
  expectedIssuer : option string;
  expectedAudience : string;
  expectedMethod : string;
  expectedPath : string;
  expectedRequestId : option string;
  expectedPurpose : option string;
  expectedBodySha256 : option string
}.

(** The payload stays the decoded JSON value. *)
Inductive InternalVerification := Verified (payload : js_value) | Refused (reason : string).

(** [token.split(".")] *)
Fixpoint split_dots (l : list ascii) : list (list ascii) :=
  match l with
  | [] => [[]]
  | c :: l' =>
      if bool_decide (c = "."%char) then [] :: split_dots l'
      else match split_dots l' with [] => [[c]] | part :: parts => (c :: part) :: parts end
  end.

Definition is_text (v : js_value) (s : string) : bool := bool_decide (as_string v = Some s).

Definition bad_text (max : Z) (v : js_value) : bool :=
  match v with JStr s => bad_length max s | _ => true end.

Definition bad_principal (v : js_value) : bool :=
  negb (is_object v) || negb (is_text (prop v "principalId") "owner") ||
  negb (existsb (is_text (prop v "authMethod")) ["static_bearer"; "managed_token"; "oauth"]%string) ||
  match prop v "scopes" with
  | JArr scopes => (length scopes =? 0) || (32 <? length scopes) || existsb (bad_text 128) scopes
  | _ => true
  end.

(** [undefined], or a string of the pattern. *)
Definition optional_text (pattern : string → bool) (v : js_value) : bool :=
  match v with JUndefined => true | JStr s => pattern s | _ => false end.

(** An expectation that is given and not met. *)
Definition unmet (expected : option string) (v : js_value) : bool :=
  match expected with Some s => negb (is_text v s) | None => false end.

(** The reason of the first check that fails. *)
Definition first_reason (checks : list (bool * string)) : option string :=
  snd <$> find fst checks.

Definition payload_refusal (o : VerifyInternalOptions) (now : Z) (p : js_value) : option string :=
  let iat := as_number (prop p "iat") in
  let exp := as_number (prop p "exp") in
  let issued := default 0%Z iat in
  let expires := default 0%Z exp in
  first_reason
    [(negb (is_text (prop p "iss") (default INTERNAL_ISSUER (expectedIssuer o))), "issuer");
     (negb (is_text (prop p "aud") (expectedAudience o)), "audience");
     (negb (is_text (prop p "method") (toUpperCase (expectedMethod o))), "method");
     (negb (is_text (prop p "path") (expectedPath o)), "path");
     (match prop p "requestId" with JStr s => falsy s | _ => true end, "request_binding");
     (bad_principal (prop p "principal"), "principal");
     (negb (optional_text is_name (prop p "purpose")), "purpose");
     (negb (optional_text is_body_digest (prop p "bodySha256")), "body_binding");
     (unmet (expectedPurpose o) (prop p "purpose"), "purpose");
     (unmet (expectedBodySha256 o) (prop p "bodySha256"), "body_binding");
     (bad_text 256 (prop p "credentialBinding"), "credential_binding");
     (unmet (expectedRequestId o) (prop p "requestId"), "request_binding");
     (bool_decide (iat = None) || bool_decide (exp = None), "time");
     (negb ((issued <=? now)%Z && (now <? expires)%Z), "expired");
     ((INTERNAL_MAX_TTL_MS <? expires - issued)%Z, "ttl")]%string.

Section verification.
Context `{!Sha256Api} `{!HmacApi}.

Definition verifyInternalContext (token : option string) (o : VerifyInternalOptions) (now : Z)
    : InternalVerification :=
  let token := default ""%string token in
  if falsy token then Refused "missing_context"
  else
    match split_dots (chars token) with
    | [version; payload; signature] =>
        let payloadB64 := unchars payload in
        let presentedSig := unchars signature in
        if negb (bool_decide (unchars version = "v1"%string)) then Refused "malformed"
        else if falsy (vo_signingSecret o) then Refused "missing_secret"
        else
          let expectedSig := computeSignature payloadB64 (vo_signingSecret o) in
          if negb (bool_decide (sha256 (utf8 presentedSig) = sha256 (utf8 expectedSig))) ||
             negb (bool_decide (presentedSig = expectedSig)) then Refused "forged"
          else
            match base64UrlDecodeToString payloadB64 with
            | None => Refused "malformed"
            | Some json =>
                match JSON_parse json with
                | Throw _ => Refused "malformed"
                | Ok decoded =>
                    if negb (is_object decoded) then Refused "malformed"
                    else match payload_refusal o now decoded with
                         | Some reason => Refused reason
                         | None => Verified decoded
                         end
                end
            end
    | _ => Refused "malformed"
    end.

(** ** The container listener *)

Record ContainerAuthOptions := {
  ca_legacyToken : option string;
  ca_signingSecret : option string;
  ca_expectedAudience : string;
  ca_expectedMethod : string;
  ca_expectedPath : string;
  ca_expectedPurpose : option string;
  ca_expectedBodySha256 : option string
}.

Inductive ContainerAuthDecision :=
  | Accepted (reason : string) (principal : js_value) (credentialBinding : js_value)
  | Rejected (reason : string).

Definition verify_options (r : Request) (o : ContainerAuthOptions) : VerifyInternalOptions :=
  {| vo_signingSecret := default ""%string (ca_signingSecret o);
     expectedIssuer := None;
     expectedAudience := ca_expectedAudience o;
     expectedMethod := ca_expectedMethod o;
     expectedPath := ca_expectedPath o;
     expectedRequestId := map_get INTERNAL_REQUEST_ID_HEADER (rq_headers r);
     expectedPurpose := ca_expectedPurpose o;
     expectedBodySha256 := ca_expectedBodySha256 o |}.

Definition verifyContainerAuth (r : Request) (profile : WorkerAuthProfile) (o : ContainerAuthOptions)
    (now : Z) : ContainerAuthDecision :=
  match profile with
  | worker_internal_context =>
      match verifyInternalContext (map_get INTERNAL_CONTEXT_HEADER (rq_headers r)) (verify_options r o) now with
      | Refused reason => Rejected reason
      | Verified payload =>
          if map_has "authorization" (rq_headers r) then Rejected "raw_bearer_rejected"
          else Accepted "internal_context" (prop payload "principal") (prop payload "credentialBinding")
      end
  | local_static =>
      match map_get "authorization" (rq_headers r) with
      | None => Rejected "missing_bearer"
      | Some authorization =>
          let expected := default ""%string (ca_legacyToken o) in
          if falsy expected then Rejected "missing_secret"
          else if timingSafeTokenEqual (default ""%string (parseBearerToken (Some authorization))) expected
          then Accepted "legacy" (principal_json createStaticPrincipal) (JStr "static:legacy")
          else Rejected "invalid_bearer"
      end
  end.
End verification.
