(* ===== verification/InternalContextSafety.v ===== *)
(** * Correctness of the internal context

    A context verifies exactly when it was signed with the shared secret over
    a payload that names this request, its owner and a current, short
    lifetime; what the worker mints and forwards is accepted for as long as
    it lives, whatever headers the caller sent. *)

From S2P Require Import Prelude JsString JsMap Json Digest Base64Url WorkerHttp WorkerAuth InternalContext.

(** ** Splitting at dots *)

Definition no_dot (l : list ascii) : Prop := Forall (λ c, c ≠ "."%char) l.

Lemma split_dots_app a l : no_dot a → split_dots (a ++ "."%char :: l) = a :: split_dots l.
Proof.
  induction 1 as [|c a Hc _ IH]; [done|]. cbn [app split_dots].
  rewrite bool_decide_false by done. by rewrite IH.
Qed.

Lemma split_dots_last a : no_dot a → split_dots a = [a].
Proof.
  induction 1 as [|c a Hc _ IH]; [done|]. cbn [split_dots]. rewrite bool_decide_false by done.
  by rewrite IH.
Qed.

(** The parts are free of dots, and joined they are the text. *)
Lemma split_dots_parts l :
  Forall no_dot (split_dots l) ∧ split_dots l ≠ [] ∧
  l = match split_dots l with
      | [] => []
      | p :: ps => p ++ flat_map (λ q, "."%char :: q) ps
      end.
Proof.
  induction l as [|c l (Hd & Hn & Hl)]; [by repeat constructor|]. cbn [split_dots].
  destruct (split_dots l) as [|p ps]; [done|]. destruct (decide (c = "."%char)) as [->|Hc].
  - rewrite bool_decide_true by done. split_and!; [constructor; [by constructor|done]|done|]. exact (f_equal (cons _) Hl).
  - rewrite bool_decide_false by done. apply Forall_cons in Hd as [Hp Hps].
    split_and!; [|done|exact (f_equal (cons _) Hl)]. constructor; [by constructor|done].
Qed.

Lemma split_dots_three l a b c :
  split_dots l = [a; b; c] → l = a ++ "."%char :: b ++ "."%char :: c ∧ no_dot a ∧ no_dot b ∧ no_dot c.
Proof.
  intros Hs. destruct (split_dots_parts l) as (Hd & _ & Hl). rewrite Hs in Hd, Hl.
  apply Forall_cons in Hd as [Ha Hd]. apply Forall_cons in Hd as [Hb Hd]. apply Forall_cons in Hd as [Hc _].
  split_and!; [|done..]. rewrite Hl. cbn. by rewrite app_nil_r.
Qed.

Lemma id_chars_no_dot l : forallb id_char l = true → no_dot l.
Proof.
  rewrite forallb_forall. intros Hl. apply Forall_forall. intros c Hc ->.
  apply list_elem_of_In in Hc. by specialize (Hl _ Hc).
Qed.

Lemma hex_no_dot l : Forall (λ c, is_digit c || between 97 102 c = true) l → no_dot l.
Proof. intros Hl. eapply Forall_impl; [exact Hl|]. by intros c Hc ->. Qed.

(** ** The payload checks *)

(** What a verified payload says. *)
Record binds (o : VerifyInternalOptions) (now : Z) (p : js_value) : Prop := {
  b_iss : prop p "iss" = JStr (default INTERNAL_ISSUER (expectedIssuer o));
  b_aud : prop p "aud" = JStr (expectedAudience o);
  b_method : prop p "method" = JStr (toUpperCase (expectedMethod o));
  b_path : prop p "path" = JStr (expectedPath o);
  b_request : ∃ r, prop p "requestId" = JStr r ∧ r ≠ ""%string ∧
                   ∀ e, expectedRequestId o = Some e → r = e;
  b_principal : bad_principal (prop p "principal") = false;
  b_purpose : optional_text is_name (prop p "purpose") = true ∧
              ∀ e, expectedPurpose o = Some e → prop p "purpose" = JStr e;
  b_body : optional_text is_body_digest (prop p "bodySha256") = true ∧
           ∀ e, expectedBodySha256 o = Some e → prop p "bodySha256" = JStr e;
  b_credential : bad_text 256 (prop p "credentialBinding") = false;
  b_time : ∃ iat exp, prop p "iat" = JNum iat ∧ prop p "exp" = JNum exp ∧
             (iat <= now < exp)%Z ∧ (exp - iat <= INTERNAL_MAX_TTL_MS)%Z
}.

Lemma first_reason_None checks : first_reason checks = None ↔ Forall (λ c, c.1 = false) checks.
Proof.
  unfold first_reason. induction checks as [|[b r] cs IH]; cbn; [split; [constructor|done]|].
  rewrite Forall_cons. cbn. destruct b; [split; [done|by intros [? _]]|]. rewrite IH. tauto.
Qed.

Lemma is_text_iff v s : negb (is_text v s) = false ↔ v = JStr s.
Proof.
  unfold is_text. rewrite negb_false_iff, bool_decide_eq_true.
  destruct v; cbn; naive_solver.
Qed.

Lemma unmet_iff e v : unmet e v = false ↔ ∀ s, e = Some s → v = JStr s.
Proof.
  unfold unmet. destruct e as [s|]; [rewrite is_text_iff; naive_solver|]. naive_solver.
Qed.

Lemma payload_ok_iff o now p : payload_refusal o now p = None ↔ binds o now p.
Proof.
  unfold payload_refusal. cbv zeta. rewrite first_reason_None, !Forall_cons, Forall_nil. cbn [fst].
  rewrite !is_text_iff, !unmet_iff, !negb_false_iff, orb_false_iff, !bool_decide_eq_false.
  split.
  - intros (Hiss & Haud & Hm & Hp & Hr & Hpr & Hpu & Hb & Hpu' & Hb' & Hc & Hr' & [Hi He] & Ht & Httl & _).
    split; try done.
    + destruct (prop p "requestId") as [| | | |r| |]; try done. exists r. apply falsy_false in Hr.
      split_and!; [done|done|]. intros e Hx. specialize (Hr' e Hx). by injection Hr'.
    + destruct (prop p "iat") as [| | |iat| | |]; try done. destruct (prop p "exp") as [| | |exp| | |]; try done.
      exists iat, exp. cbn in Ht, Httl. split; [done|]. split; [done|]. unfold INTERNAL_MAX_TTL_MS in *. lia.
  - intros [Hiss Haud Hm Hp (r & Hr & Hne & Hr') Hpr [Hpu Hpu'] [Hb Hb'] Hc (iat & exp & Hi & He & Ht & Httl)].
    rewrite Hr, Hi, He. cbn. split_and!; try done.
    + by apply falsy_false.
    + intros s Hs. by rewrite (Hr' s Hs).
    + lia.
    + unfold INTERNAL_MAX_TTL_MS in *. lia.
Qed.

(** ** Verification *)

Section verification.
Context `{!Sha256Api} `{!HmacApi}.

Definition context_text (payload secret : string) : string :=
  "v1." +:+ payload +:+ "." +:+ computeSignature payload secret.

Definition judge (o : VerifyInternalOptions) (now : Z) (p : js_value) : InternalVerification :=
  if negb (is_object p) then Refused "malformed"
  else match payload_refusal o now p with Some reason => Refused reason | None => Verified p end.

(** The verdict on a text signed with the secret. *)
Lemma verify_signed o now payload json p :
  vo_signingSecret o ≠ ""%string → no_dot (chars payload) →
  base64UrlDecodeToString payload = Some json → JSON_parse json = Ok p →
  verifyInternalContext (Some (context_text payload (vo_signingSecret o))) o now = judge o now p.
Proof.
  intros Hsecret Hdot Hdec Hparse. unfold verifyInternalContext. cbv zeta. cbn [default from_option id].
  replace (falsy (context_text payload (vo_signingSecret o))) with false by done.
  assert (Hs : split_dots (chars (context_text payload (vo_signingSecret o))) =
               [chars "v1"; chars payload; chars (computeSignature payload (vo_signingSecret o))]).
  { unfold context_text. rewrite !chars_app.
    change (chars "v1." ++ ?l) with (chars "v1" ++ "."%char :: l).
    rewrite split_dots_app by (by repeat constructor). f_equal.
    change (chars "." ++ ?l) with ("."%char :: l). rewrite split_dots_app by done. f_equal.
    apply split_dots_last, hex_no_dot, hmac_hex. }
  rewrite Hs, !unchars_chars, bool_decide_true by done. cbn [negb].
  replace (falsy (vo_signingSecret o)) with false by (symmetry; by apply falsy_false).
  rewrite !bool_decide_true by done. cbn [negb orb]. by rewrite Hdec, Hparse.
Qed.

Lemma verify_inv token o now p :
  verifyInternalContext token o now = Verified p →
  ∃ payload json, token = Some (context_text payload (vo_signingSecret o)) ∧
    vo_signingSecret o ≠ ""%string ∧ no_dot (chars payload) ∧
    base64UrlDecodeToString payload = Some json ∧ JSON_parse json = Ok p ∧ binds o now p.
Proof.
  unfold verifyInternalContext. cbv zeta. destruct token as [t|]; [|done]. cbn [default from_option id].
  destruct (falsy t); [done|]. destruct (split_dots (chars t)) as [|v [|payload [|sig [|? ?]]]] eqn:Hs; try done.
  apply split_dots_three in Hs as (Ht & _ & Hdot & _).
  destruct (bool_decide (unchars v = _)) eqn:Hv; [|done]. cbn [negb].
  destruct (falsy (vo_signingSecret o)) eqn:Hsecret; [done|]. apply falsy_false in Hsecret.
  destruct (bool_decide (sha256 _ = _)); [|done]. cbn [negb orb].
  destruct (bool_decide (unchars sig = _)) eqn:Hsig; [|done]. cbn [negb]. reflect.
  destruct (base64UrlDecodeToString _) as [json|] eqn:Hdec; [|done].
  destruct (JSON_parse json) as [d|] eqn:Hparse; [|done]. destruct (negb (is_object d)); [done|].
  destruct (payload_refusal o now d) eqn:Hr; [done|]. intros [= <-]. apply payload_ok_iff in Hr.
  exists (unchars payload), json. rewrite chars_unchars. split_and!; try done.
  f_equal. apply chars_inj. unfold context_text. rewrite !chars_app, chars_unchars, Ht, <- Hsig, chars_unchars.
  apply (f_equal chars) in Hv. rewrite chars_unchars in Hv. by rewrite Hv.
Qed.

(** the container accepts a context exactly when it is the signature, with
    the shared secret, of a base64url JSON payload that names the issuer and
    audience, this method, path and request, the owner with 1 to 32 scopes,
    the expected purpose and body digest, and a lifetime of at most a minute
    that the clock is in. *)
Theorem internal_context_verified_iff token o now p :
  verifyInternalContext token o now = Verified p ↔
  ∃ payload json, token = Some (context_text payload (vo_signingSecret o)) ∧
    vo_signingSecret o ≠ ""%string ∧ no_dot (chars payload) ∧
    base64UrlDecodeToString payload = Some json ∧ JSON_parse json = Ok p ∧ binds o now p.
Proof.
  split; [apply verify_inv|]. intros (payload & json & -> & Hsecret & Hdot & Hdec & Hparse & Hb).
  rewrite (verify_signed o now payload json p) by done. unfold judge.
  apply payload_ok_iff in Hb as Hr. rewrite Hr. destruct Hb as [Hiss _ _ _ _ _ _ _ _ _].
  by destruct p.
Qed.

(** ** Minted contexts *)

(** The container expects what the worker minted. *)
Definition expects (o : VerifyInternalOptions) (m : MintOptions) : Prop :=
  vo_signingSecret o = mi_signingSecret m ∧ default INTERNAL_ISSUER (expectedIssuer o) = mint_issuer m ∧
  expectedAudience o = mi_audience m ∧ toUpperCase (expectedMethod o) = toUpperCase (mi_method m) ∧
  expectedPath o = mi_path m ∧ (∀ r, expectedRequestId o = Some r → r = mi_requestId m) ∧
  (∀ s, expectedPurpose o = Some s → mi_purpose m = Some s) ∧
  (∀ s, expectedBodySha256 o = Some s → mi_bodySha256 m = Some s).

Definition scopes_fit (p : AuthenticatedPrincipal) : Prop :=
  Forall (λ s, bad_length 128 s = false) (pr_scopes p).

Lemma payload_exact m now : json_exact (mint_payload m now) = true.
Proof.
  assert (Hscopes : forallb json_exact (JStr <$> pr_scopes (mi_principal m)) = true).
  { by induction (pr_scopes (mi_principal m)). }
  assert (Hprincipal : json_exact (principal_json (mi_principal m)) = true).
  { unfold principal_json. destruct (mi_principal m) as [am sc cl cr]. cbn [clientId credentialId pr_scopes] in *.
    destruct cl, cr; cbn -[json_exact]; cbn [json_exact forallb]; by rewrite Hscopes. }
  unfold mint_payload. destruct (mi_purpose m), (mi_bodySha256 m); cbn [opt_field app json_exact forallb];
    by rewrite Hprincipal.
Qed.

(** What the checks of the minting leave. *)
Record mintable (m : MintOptions) : Prop := {
  m_secret : mi_signingSecret m ≠ ""%string;
  m_issuer : is_name (mint_issuer m) = true;
  m_request : mi_requestId m ≠ ""%string;
  m_scopes : (length (pr_scopes (mi_principal m)) =? 0) = false ∧
             (32 <? length (pr_scopes (mi_principal m))) = false;
  m_binding : bad_length 256 (mi_credentialBinding m) = false;
  m_purpose : ∀ s, mi_purpose m = Some s → is_name s = true;
  m_body : ∀ s, mi_bodySha256 m = Some s → is_body_digest s = true;
  m_ttl : (0 < to_Z (mint_ttl m) <= INTERNAL_MAX_TTL_MS)%Z
}.

Lemma check_mint_Ok m : check_mint m = Ok tt → mintable m.
Proof.
  unfold check_mint.
  intros ([] & H1%throw_if_Ok & ([] & H2%throw_if_Ok & ([] & H3%throw_if_Ok & ([] & H4%throw_if_Ok &
    ([] & H5%throw_if_Ok & ([] & H6%throw_if_Ok & ([] & H7%throw_if_Ok & ([] & H8%throw_if_Ok &
    H9%throw_if_Ok)%result_bind_Ok)%result_bind_Ok)%result_bind_Ok)%result_bind_Ok)%result_bind_Ok)%result_bind_Ok)%result_bind_Ok)%result_bind_Ok.
  apply orb_false_iff in H4 as [H4 _], H5, H9 as [H9 Hmax]. apply orb_false_iff in H9 as [Hint Hmin].
  apply negb_false_iff in Hint, H2.
  rewrite num_leb_integer, to_Z_int in Hmin by (done || apply isInteger_int).
  rewrite num_ltb_integer, to_Z_int in Hmax by (done || apply isInteger_int).
  split; try done.
  - by apply falsy_false.
  - by apply falsy_false.
  - intros s Hs. rewrite Hs in H8. by apply orb_false_iff in H8 as [?%negb_false_iff _].
  - intros s Hs. destruct (mi_purpose m) as [q|]; [|by rewrite Hs in H7].
    rewrite Hs in H8. by apply orb_false_iff in H8 as [_ ?%negb_false_iff].
  - apply Z.leb_gt in Hmin. apply Z.ltb_ge in Hmax. done.
Qed.

(** Once accepted, a payload is refused later only for its age. *)
Lemma refusal_later o now now' p :
  payload_refusal o now p = None → (now <= now')%Z →
  payload_refusal o now' p =
    if (now' <? default 0 (as_number (prop p "exp")))%Z then None else Some "expired"%string.
Proof.
  unfold payload_refusal. cbv zeta. rewrite first_reason_None, !Forall_cons. cbn [fst].
  intros (H1 & H2 & H3 & H4 & H5 & H6 & H7 & H8 & H9 & H10 & H11 & H12 & H13 & H14 & H15 & _) Hle.
  unfold first_reason. cbn [find fst]. rewrite H1, H2, H3, H4, H5, H6, H7, H8, H9, H10, H11, H12, H13, H15.
  apply negb_false_iff, andb_prop in H14 as [Hi _]. apply Z.leb_le in Hi.
  rewrite (proj2 (Z.leb_le _ now')) by lia. by destruct (now' <? _)%Z.
Qed.

Lemma good_principal pr :
  (length (pr_scopes pr) =? 0) = false → (32 <? length (pr_scopes pr)) = false → scopes_fit pr →
  bad_principal (principal_json pr) = false.
Proof.
  intros Hz Hm Hfit. unfold bad_principal, principal_json.
  assert (Hs : existsb (bad_text 128) (JStr <$> pr_scopes pr) = false).
  { unfold scopes_fit in Hfit. clear Hz Hm. induction Hfit as [|s l Hs _ IH]; [done|]. cbn. by rewrite Hs. }
  change (prop _ "scopes") with (JArr (JStr <$> pr_scopes pr)). cbv iota beta.
  rewrite length_fmap, Hz, Hm, Hs. by destruct (authMethod pr).
Qed.

Lemma minted_binds m o now :
  mintable m → scopes_fit (mi_principal m) → expects o m → binds o now (mint_payload m now).
Proof.
  intros [Hsec Hiss Hreq [Hz Hmax] Hbind Hpur Hbody Httl] Hfit (_ & Ei & Ea & Em & Ep & Er & Epu & Eb).
  assert (Hp : prop (mint_payload m now) "purpose" =
               match mi_purpose m with Some s => JStr s | None => JUndefined end).
  { unfold mint_payload. by destruct (mi_purpose m), (mi_bodySha256 m). }
  assert (Hb : prop (mint_payload m now) "bodySha256" =
               match mi_bodySha256 m with Some s => JStr s | None => JUndefined end).
  { unfold mint_payload. by destruct (mi_purpose m), (mi_bodySha256 m). }
  split.
  - by rewrite Ei.
  - by rewrite Ea.
  - by rewrite Em.
  - by rewrite Ep.
  - exists (mi_requestId m). split_and!; [done|done|]. intros e He. by rewrite (Er e He).
  - by apply good_principal.
  - rewrite Hp. split; [destruct (mi_purpose m); [by apply Hpur|done]|]. intros e He. by rewrite (Epu e He).
  - rewrite Hb. split; [destruct (mi_bodySha256 m); [by apply Hbody|done]|]. intros e He. by rewrite (Eb e He).
  - done.
  - exists now, (now + to_Z (mint_ttl m))%Z. split; [done|]. split; [done|]. lia.
Qed.

Lemma mint_inv m now t :
  mintInternalContext m now = Ok t →
  mintable m ∧ t = context_text (base64UrlEncodeString (unchars (json_text (mint_payload m now)))) (mi_signingSecret m).
Proof.
  unfold mintInternalContext. intros ([] & Hm%check_mint_Ok & [= <-])%result_bind_Ok. done.
Qed.

Lemma verify_minted m now t o now' :
  mintInternalContext m now = Ok t → scopes_fit (mi_principal m) → expects o m → (now <= now')%Z →
  verifyInternalContext (Some t) o now' =
    if (now' <? now + to_Z (mint_ttl m))%Z then Verified (mint_payload m now) else Refused "expired".
Proof.
  intros [Hm ->]%mint_inv Hfit Hexp Hle. pose proof (minted_binds m o now Hm Hfit Hexp) as Hb.
  apply payload_ok_iff in Hb. pose proof Hexp as [Hsec _]. rewrite <- Hsec.
  rewrite (verify_signed o now' _ (unchars (json_text (mint_payload m now))) (mint_payload m now)).
  - unfold judge. change (is_object (mint_payload m now)) with true. cbn [negb].
    rewrite (refusal_later o now now') by done.
    change (prop (mint_payload m now) "exp") with (JNum (now + to_Z (mint_ttl m))). cbn [as_number default from_option id].
    by destruct (_ <? _)%Z.
  - rewrite Hsec. by apply m_secret.
  - unfold base64UrlEncodeString, encodeBase64Url. rewrite chars_unchars.
    apply id_chars_no_dot, encode_groups_chars.
  - rewrite decode_string. destruct (falsy _) eqn:Hf; [|done]. exfalso.
    apply bool_decide_eq_true, (f_equal chars) in Hf. rewrite chars_unchars in Hf.
    destruct (json_text_start (mint_payload m now)) as (c & l & Hc & _). by rewrite Hf in Hc.
  - apply JSON_parse_exact, payload_exact.
Qed.

(** a minted context, shown with what it was minted for, verifies from
    then on for exactly as long as it lives, giving back its payload, and is
    refused as expired after that. *)
Theorem minted_context_verifies m now t o now' :
  mintInternalContext m now = Ok t → scopes_fit (mi_principal m) → expects o m → (now <= now')%Z →
  verifyInternalContext (Some t) o now' =
    if (now' <? now + to_Z (mint_ttl m))%Z then Verified (mint_payload m now) else Refused "expired".
Proof. apply verify_minted. Qed.

(** ** The container *)

Lemma forwarded_header original t rid name :
  map_get name (rq_headers (buildContainerRequestWithInternalContext original t rid)) =
  if decide (name = INTERNAL_REQUEST_ID_HEADER) then Some rid
  else if decide (name = INTERNAL_CONTEXT_HEADER) then Some t
  else if decide (name = "authorization"%string) then None
  else if decide (name ∈ CALLER_INTERNAL_HEADERS) then None
  else if decide (name ∈ CALLER_PRINCIPAL_OVERRIDE_HEADERS) then None
  else map_get name (rq_headers original).
Proof.
  cbn [rq_headers with_headers buildContainerRequestWithInternalContext stripCallerInternalHeaders].
  rewrite map_get_set. case_decide; [done|]. rewrite map_get_set. case_decide; [done|].
  rewrite map_get_delete. case_decide; [done|]. rewrite map_get_delete_headers. case_decide; [done|].
  unfold sanitizeCallerPrincipalHeaders. by rewrite map_get_delete_headers.
Qed.

Definition container_expects (o : ContainerAuthOptions) (m : MintOptions) : Prop :=
  ca_signingSecret o = Some (mi_signingSecret m) ∧ mint_issuer m = INTERNAL_ISSUER ∧
  ca_expectedAudience o = mi_audience m ∧
  toUpperCase (ca_expectedMethod o) = toUpperCase (mi_method m) ∧ ca_expectedPath o = mi_path m ∧
  (∀ s, ca_expectedPurpose o = Some s → mi_purpose m = Some s) ∧
  (∀ s, ca_expectedBodySha256 o = Some s → mi_bodySha256 m = Some s).

Lemma forwarded_accepted m now t original o now' :
  mintInternalContext m now = Ok t → scopes_fit (mi_principal m) → container_expects o m →
  (now <= now' < now + to_Z (mint_ttl m))%Z →
  let r := buildContainerRequestWithInternalContext original t (mi_requestId m) in
  verifyContainerAuth r worker_internal_context o now' =
    Accepted "internal_context" (principal_json (mi_principal m)) (JStr (mi_credentialBinding m)) ∧
  map_get "authorization" (rq_headers r) = None ∧
  ∀ name, name ∈ CALLER_PRINCIPAL_OVERRIDE_HEADERS ++ tail CALLER_INTERNAL_HEADERS →
    map_get name (rq_headers r) = None.
Proof.
  intros Hmint Hfit (Hsec & Hiss & Haud & Hm & Hp & Hpu & Hb) [Hlo Hhi] r.
  assert (Hauth : map_get "authorization" (rq_headers r) = None) by (subst r; by rewrite forwarded_header).
  split_and!; [|done|].
  - unfold verifyContainerAuth. subst r. rewrite forwarded_header, decide_False, decide_True by done.
    erewrite verify_minted; [|exact Hmint|exact Hfit| |exact Hlo].
    + rewrite (proj2 (Z.ltb_lt _ _) Hhi). unfold map_has. by rewrite Hauth.
    + unfold expects, verify_options. cbn [vo_signingSecret expectedIssuer expectedAudience expectedMethod
        expectedPath expectedRequestId expectedPurpose expectedBodySha256].
      rewrite forwarded_header, decide_True by done. split_and!; [by rewrite Hsec|by rewrite Hiss|done..| |done|done].
      by intros ? [= <-].
  - intros name Hin. subst r. rewrite forwarded_header. revert name Hin.
    apply Forall_forall. repeat (constructor; [reflexivity|]). constructor.
Qed.

(** whatever headers the caller sent, a request forwarded with a context
    minted for it is accepted as the minted principal while the context
    lives; it carries no authorization and none of the headers that could
    override the principal or the context. *)
Theorem forwarded_request_is_authenticated m now t original o now' :
  mintInternalContext m now = Ok t → scopes_fit (mi_principal m) → container_expects o m →
  (now <= now' < now + to_Z (mint_ttl m))%Z →
  let r := buildContainerRequestWithInternalContext original t (mi_requestId m) in
  verifyContainerAuth r worker_internal_context o now' =
    Accepted "internal_context" (principal_json (mi_principal m)) (JStr (mi_credentialBinding m)) ∧
  map_get "authorization" (rq_headers r) = None ∧
  ∀ name, name ∈ CALLER_PRINCIPAL_OVERRIDE_HEADERS ++ tail CALLER_INTERNAL_HEADERS →
    map_get name (rq_headers r) = None.
Proof. apply forwarded_accepted. Qed.

(** in the internal profile a request is accepted only without an
    authorization header and with a context that was signed with the shared
    secret for this method, path and request and is current; the principal is
    the payload's. *)
Theorem container_accepts_only_signed r o now reason p b :
  verifyContainerAuth r worker_internal_context o now = Accepted reason p b →
  map_get "authorization" (rq_headers r) = None ∧
  ∃ payload json pl secret, ca_signingSecret o = Some secret ∧ secret ≠ ""%string ∧
    map_get INTERNAL_CONTEXT_HEADER (rq_headers r) = Some (context_text payload secret) ∧
    base64UrlDecodeToString payload = Some json ∧ JSON_parse json = Ok pl ∧
    binds (verify_options r o) now pl ∧ p = prop pl "principal" ∧ b = prop pl "credentialBinding".
Proof.
  unfold verifyContainerAuth. destruct (verifyInternalContext _ _ _) as [pl|] eqn:Hv; [|done].
  apply verify_inv in Hv as (payload & json & Hh & Hsec & _ & Hdec & Hparse & Hb).
  destruct (map_has _ _) eqn:Hauth; [done|]. intros [= <- <- <-]. unfold map_has in Hauth. reflect.
  split; [by apply dec_stable|]. cbn in Hsec, Hh. destruct (ca_signingSecret o) as [secret|] eqn:Hs; [|done].
  by exists payload, json, pl, secret.
Qed.
End verification.

(** ** Examples *)

Definition zero_hmac : HmacApi.
Proof.
  refine {| hmac_sha256 := λ _ _, unchars (replicate 64 "0"%char) |}. intros _ _.
  rewrite chars_unchars. by apply Forall_replicate.
Defined.

Definition sample_mint : MintOptions :=
  {| mi_issuer := None; mi_signingSecret := "s3cret"; mi_audience := "container"; mi_method := "post";
     mi_path := "/mcp"; mi_requestId := "r1"; mi_principal := createStaticPrincipal;
     mi_credentialBinding := "static:legacy"; mi_ttlMs := None; mi_purpose := None; mi_bodySha256 := None |}.

Definition sample_options : ContainerAuthOptions :=
  {| ca_legacyToken := None; ca_signingSecret := Some "s3cret"%string; ca_expectedAudience := "container";
     ca_expectedMethod := "POST"; ca_expectedPath := "/mcp"; ca_expectedPurpose := None;
     ca_expectedBodySha256 := None |}.

(** A caller that brings a credential and a principal of its own. *)
Definition sample_request : Request :=
  {| rq_url := "https://worker/mcp"; rq_method := "POST";
     rq_headers := [("authorization", "Bearer abc"); ("x-groundlane-principal", "root")]%string;
     rq_body := "" |}.

Definition sample_token : string :=
  match @mintInternalContext zero_hmac sample_mint 1000 with Ok t => t | Throw _ => "" end.

Definition forwarded : Request :=
  buildContainerRequestWithInternalContext sample_request sample_token "r1".

Lemma minted_context_verifies_witness :
  @verifyInternalContext zero_digest zero_hmac (Some sample_token) (verify_options forwarded sample_options) 2000
  = Verified (mint_payload sample_mint 1000).
Proof.
  apply (@minted_context_verifies zero_digest zero_hmac sample_mint 1000 sample_token
           (verify_options forwarded sample_options) 2000).
  - by vm_compute.
  - by repeat constructor.
  - split_and!; try done. by intros r [= <-].
  - lia.
Defined.

Lemma forwarded_request_is_authenticated_witness :
  map_get "authorization" (rq_headers forwarded) = None ∧
  @verifyContainerAuth zero_digest zero_hmac forwarded worker_internal_context sample_options 2000 =
    Accepted "internal_context" (principal_json createStaticPrincipal) (JStr "static:legacy").
Proof.
  destruct (@forwarded_request_is_authenticated zero_digest zero_hmac sample_mint 1000 sample_token
              sample_request sample_options 2000) as (Hok & Hauth & _).
  - by vm_compute.
  - by repeat constructor.
  - by split_and!.
  - split; by vm_compute.
  - split; [exact Hauth|exact Hok].
Defined.

Lemma container_accepts_only_signed_witness :
  map_get "authorization" (rq_headers forwarded) = None.
Proof.
  destruct (@container_accepts_only_signed zero_digest zero_hmac forwarded sample_options 2000 "internal_context"
              (principal_json createStaticPrincipal) (JStr "static:legacy")) as [Hauth _].
  - by vm_compute.
  - exact Hauth.
Defined.
