(* ===== verification/AdminCredentials.v ===== *)
(** * The credentials API of administrators

    [src/worker/admin-credentials.ts]: [handleAdminCredentialsRequest] checks
    the administrator's bearer, runs the managed-token operations and writes
    the audit log.

    Ids of a body that are not strings are taken as their text, which is what
    the id pattern tests and what the text column stores; arrays as ids are
    left out. *)

From S2P Require Import Prelude JsString JsMap Json Digest Base64Url WorkerHttp WorkerAuth ManagedTokens InternalContext.

(** ** Digits

    [z.toString(36)] of a natural number. *)
Definition digit36 (d : Z) : ascii := ascii_of_nat (Z.to_nat (if (d <? 10)%Z then d + 48 else d + 87)).

Fixpoint base36_go (fuel : nat) (z : Z) (acc : list ascii) : list ascii :=
  match fuel with
  | O => acc
  | Datatypes.S fuel' =>
      let acc := digit36 (z mod 36) :: acc in
      if (z <? 36)%Z then acc else base36_go fuel' (z / 36) acc
  end.

Definition base36_text (z : Z) : string := unchars (base36_go (Datatypes.S (Z.to_nat (Z.log2 z))) z []).

(** ** Requests *)

Definition ADMIN_MAX_BODY_BYTES : Z := 8192.

Definition isAdminConfigured (token : option string) : bool := negb (falsy (default ""%string token)).

Definition isAdminBearer `{!Sha256Api} (r : Request) (token : option string) : bool :=
  isBearerEqualToSecret (map_get "authorization" (rq_headers r)) (default ""%string token).

Definition readBoundedJson (r : Request) : result js_value :=
  if falsy (rq_body r) then Ok (JObj [])
  else
    throw_if (ADMIN_MAX_BODY_BYTES <? str_length (rq_body r))%Z (invalid "body too large");;
    match JSON_parse (rq_body r) with
    | Ok v => Ok v
    | Throw _ => Throw (invalid "malformed json")
    end.

Definition asRecord (v : js_value) : result js_value :=
  match v with JObj _ => Ok v | _ => Throw (invalid "body must be an object") end.

Definition error_code (e : thrown) : option string :=
  match e with TCoded code _ => Some code | _ => None end.

Definition toAuditResult (e : thrown) : AuditResult :=
  match error_code e with
  | Some code =>
      if bool_decide (code = "conflict"%string) || bool_decide (code = "duplicate_id"%string) then audit_conflict
      else if bool_decide (code = "not_found"%string) then audit_not_found
      else if bool_decide (code = "storage_unavailable"%string) then audit_storage_unavailable
      else audit_validation_error
  | None => audit_validation_error
  end.

Definition errorToResponse (e : thrown) (requestId : string) : Response :=
  match e with
  | TCoded code message =>
      let conflict := bool_decide (code = "conflict"%string) || bool_decide (code = "duplicate_id"%string) in
      if bool_decide (code = "validation"%string) then jsonError 400 "invalid_request" message requestId []
      else if bool_decide (code = "not_found"%string) then jsonError 404 "not_found" message requestId []
      else if conflict then jsonError 409 "conflict" message requestId []
      else jsonError 503 "store_unavailable" message requestId []
  | _ => jsonError 500 "internal_error" "Internal error" requestId []
  end.

(** ** What responses show *)

Definition effective_name (st : ManagedEffectiveStatus) : string :=
  match st with
  | eff_active => "active" | eff_rotating => "rotating" | eff_expired => "expired"
  | eff_rotation_expired => "rotation_expired" | eff_revoked => "revoked" | eff_disabled => "disabled"
  end.

Definition metadata_json (m : ManagedCredentialMetadata) : js_value :=
  JObj ([("id", JStr (md_id m)); ("principalId", JStr "owner"); ("scopes", JArr (JStr <$> md_scopes m));
         ("label", JStr (md_label m)); ("status", JStr (status_name (md_status m)));
         ("effectiveStatus", JStr (effective_name (md_effectiveStatus m))); ("usable", JBool (md_usable m));
         ("createdAt", JNum (md_createdAt m)); ("updatedAt", JNum (md_updatedAt m));
         ("expiresAt", JNum (md_expiresAt m))]%string ++
        opt_num_field "validUntil" (md_validUntil m) ++ opt_field "rotatedTo" (md_rotatedTo m) ++
        opt_field "rotatedFrom" (md_rotatedFrom m) ++ opt_num_field "revokedAt" (md_revokedAt m)).

Definition kind_name (k : AuditKind) : string :=
  match k with
  | audit_create => "create" | audit_rotate => "rotate" | audit_revoke => "revoke" | audit_expire => "expire"
  end.

Definition audit_result_name (r : AuditResult) : string :=
  match r with
  | audit_ok => "ok" | audit_conflict => "conflict" | audit_not_found => "not_found"
  | audit_validation_error => "validation_error" | audit_storage_unavailable => "storage_unavailable"
  end.

Definition audit_json (a : AuditRecord) : js_value :=
  JObj ([("opId", JStr (opId a)); ("adminFingerprint", JStr (adminFingerprint a));
         ("kind", JStr (kind_name (kind a))); ("commitTime", JNum (commitTime a));
         ("result", JStr (audit_result_name (au_result a)))]%string ++
        opt_field "oldId" (au_oldId a) ++ opt_field "newId" (au_newId a) ++
        opt_num_field "overlapSeconds" (au_overlapSeconds a)).

Definition page_json (field : string) (items : list js_value) (cursor : option string) : js_value :=
  JObj ((field, JArr items) :: opt_field "nextCursor" cursor).

(** [String(v)], of values that are not arrays. *)
Definition id_text (v : js_value) : option string :=
  match v with
  | JUndefined => None
  | JStr s => Some s
  | JNum z => Some (show z)
  | JBool b => Some (if b then "true" else "false")%string
  | JNull => Some "null"%string
  | _ => Some "[object Object]"%string
  end.

Definition number_of (v : js_value) : number := match v with JNum z => int z | _ => NaN end.

(** ** The handler *)

Record AdminDeps := {
  GROUNDLANE_ADMIN_TOKEN : option string;
  store_bound : bool
}.

Section handler.
Context {S : Type} `{!Sha256Api} `{!RequestUrls} `{!ManagedTokenStore S} `{!ManagedRuntime S} `{!EdgePlatform S}.

Definition nextOpId : M (Desk S) string :=
  update (λ d, Build_Desk (backend d) (idempotency d) (audits d) (opCounter d + 1));;
  t ← on_backend dateNow;
  n ← gets opCounter;
  mret ("op_" +:+ base36_text t +:+ "_" +:+ show n).

Definition audit (fingerprint : string) (k : AuditKind) (res : AuditResult) (old new : option string)
    (overlap : option Z) : M (Desk S) unit :=
  op ← nextOpId;
  t ← on_backend now;
  update (λ d, with_audits d (audit_append MAX_AUDIT_RECORDS
    {| opId := op; adminFingerprint := fingerprint; kind := k; au_oldId := old; au_newId := new;
       au_overlapSeconds := overlap; commitTime := t; au_result := res |} (audits d))).

(** [try { r = c; audit(ok); respond } catch { audit(error); throw }] *)
Definition audited {A} (c : M (Desk S) A) (fingerprint : string) (k : AuditKind) (old : option string)
    (new : A → option string) (overlap : A → option Z) (respond : A → Response) : M (Desk S) Response :=
  outcome ← attempt c;
  match outcome with
  | inl a => audit fingerprint k audit_ok old (new a) (overlap a);; mret (respond a)
  | inr e => audit fingerprint k (toAuditResult e) old None None;; throw e
  end.

Definition limit_of (r : Request) : option number := Number_of_string <$> search_param (rq_url r) "limit".
Definition cursor_of (r : Request) : option string := search_param (rq_url r) "cursor".

Definition audit_route (r : Request) (requestId : string) : M (Desk S) Response :=
  listed ← gets (λ d, audit_list (limit_of r) (cursor_of r) (audits d));
  '(items, cursor) ← lift listed;
  mret (json_response 200 (page_json "items" (audit_json <$> items) cursor) requestId).

Definition list_route (r : Request) (requestId : string) : M (Desk S) Response :=
  '(items, cursor) ← on_backend (listManagedMetadata (limit_of r) (cursor_of r));
  mret (json_response 200 (page_json "credentials" (metadata_json <$> items) cursor) requestId).

Definition read_body (r : Request) : result js_value := body ← readBoundedJson r; asRecord body.

Definition create_route (r : Request) (fingerprint requestId : string) : M (Desk S) Response :=
  body ← lift (read_body r);
  audited (on_backend (createManagedCredential
      {| ci_label := prop body "label"; ci_scopes := prop body "scopes";
         ci_expiresAt := number_of (prop body "expiresAt"); ci_id := id_text (prop body "id") |}))
    fingerprint audit_create None (λ created, Some (id created.1)) (λ _, None)
    (λ created, json_response 201
       (JObj [("id", JStr (id created.1)); ("token", JStr created.2); ("secretAvailable", JBool true);
              ("expiresAt", JNum (expiresAt created.1)); ("scopes", JArr (JStr <$> scopes created.1))]%string)
       requestId).

(** [const id = body["id"]], a string that is not empty. *)
Definition required_id (body : js_value) : result string :=
  match prop body "id" with
  | JStr i => throw_if (falsy i) (invalid "id is required");; Ok i
  | _ => Throw (invalid "id is required")
  end.

Definition rotate_route (r : Request) (fingerprint requestId : string) : M (Desk S) Response :=
  body ← lift (read_body r);
  oldId ← lift (required_id body);
  audited (rotateManagedCredential
      {| ri_oldId := oldId; ri_overlapSeconds := prop body "overlapSeconds";
         ri_newId := id_text (prop body "newId"); ri_idempotencyKey := prop body "idempotencyKey" |})
    fingerprint audit_rotate (Some oldId) (λ res, Some (newId res)) (λ res, Some (overlapSeconds res))
    (λ res, json_response 200
       (JObj (("id"%string, JStr (newId res)) ::
              if isReplay res then [("secretAvailable"%string, JBool false)]
              else opt_field "token" (rawToken res) ++ [("secretAvailable"%string, JBool true)])) requestId).

Definition revoke_route (r : Request) (fingerprint requestId : string) : M (Desk S) Response :=
  body ← lift (read_body r);
  i ← lift (required_id body);
  audited (on_backend (revokeManagedCredential i)) fingerprint audit_revoke (Some i) (λ _, None) (λ _, None)
    (λ c, json_response 200
       (JObj ([("id", JStr (id c)); ("status", JStr (status_name (status c)))]%string ++
              opt_num_field "revokedAt" (revokedAt c))) requestId).

Definition expire_route (r : Request) (fingerprint requestId : string) : M (Desk S) Response :=
  body ← lift (read_body r);
  i ← lift (required_id body);
  audited (on_backend (expireManagedCredential i)) fingerprint audit_expire (Some i) (λ _, None) (λ _, None)
    (λ c, json_response 200 (JObj [("id", JStr (id c)); ("expiresAt", JNum (expiresAt c))]%string) requestId).

Definition is_route (r : Request) (path method : string) : bool :=
  bool_decide (pathname (rq_url r) = path) && bool_decide (rq_method r = method).

Definition admin_routes (r : Request) (fingerprint requestId : string) : M (Desk S) Response :=
  if is_route r "/admin/credentials/audit" "GET" then audit_route r requestId
  else if is_route r "/admin/credentials" "GET" then list_route r requestId
  else if is_route r "/admin/credentials" "POST" then create_route r fingerprint requestId
  else if is_route r "/admin/credentials/rotate" "POST" then rotate_route r fingerprint requestId
  else if is_route r "/admin/credentials/revoke" "POST" then revoke_route r fingerprint requestId
  else if is_route r "/admin/credentials/expire" "POST" then expire_route r fingerprint requestId
  else mret (jsonError 404 "not_found" "Route not found" requestId []).

(** The answer to a request without the administrator's bearer. *)
Definition admin_refusal (r : Request) (requestId : string) : Response :=
  match map_get "authorization" (rq_headers r) with
  | None => jsonError 401 "unauthorized" "A valid bearer token is required" requestId bearer_challenge
  | Some _ => jsonError 403 "forbidden" "Admin access is required" requestId []
  end.

Definition requestIdOf (r : Request) : M (Desk S) string :=
  match map_get REQUEST_ID_HEADER (rq_headers r) with
  | Some i => mret i
  | None => on_backend randomUUID
  end.

Definition handleAdminCredentialsRequest (r : Request) (deps : AdminDeps) : M (Desk S) Response :=
  requestId ← requestIdOf r;
  if negb (isAdminConfigured (GROUNDLANE_ADMIN_TOKEN deps))
  then mret (jsonError 503 "admin_unavailable" "Admin API is not configured" requestId [])
  else if negb (isAdminBearer r (GROUNDLANE_ADMIN_TOKEN deps)) then mret (admin_refusal r requestId)
  else if negb (store_bound deps)
  then mret (jsonError 503 "managed_unavailable" "Managed tokens are unavailable" requestId [])
  else
    let fingerprint := fingerprintForAudit (default ""%string (GROUNDLANE_ADMIN_TOKEN deps)) in
    catch (admin_routes r fingerprint requestId) (λ e, mret (errorToResponse e requestId)).
End handler.

(** * Correctness of the credentials API

    Nothing happens without the administrator's bearer; every change that is
    asked for leaves exactly one audit record, which says whether it was
    made. *)

Section admin.
Context {S : Type} `{!Sha256Api} `{!RequestUrls} `{!ManagedTokenStore S} `{!ManagedRuntime S} `{!EdgePlatform S}.

(** ** What an operation leaves alone *)

(** The audit log is left alone. *)
Definition keeps_audits {A} (c : M (Desk S) A) : Prop := ∀ d, wp c (λ _ d', audits d' = audits d) d.

Lemma audits_keep_bind {A B} (c : M (Desk S) A) (f : A → M (Desk S) B) :
  keeps_audits c → (∀ a, keeps_audits (f a)) → keeps_audits (c ≫= f).
Proof.
  intros Hc Hf d. apply wp_bind. eapply wp_mono; [apply Hc|]. intros [a|e] d' Hd; [|done].
  eapply wp_mono; [apply Hf|]. intros r d'' Hd'. congruence.
Qed.

Lemma audits_keep_lift {A} (r : result A) : keeps_audits (lift r).
Proof. by intros d. Qed.

Lemma audits_keep_ret {A} (a : A) : keeps_audits (mret a).
Proof. by intros d. Qed.

Lemma audits_keep_gets {A} (f : Desk S → A) : keeps_audits (gets f).
Proof. by intros d. Qed.

Lemma audits_keep_on_backend {A} (op : M S A) : keeps_audits (on_backend op).
Proof. intros d. unfold wp, on_backend. by destruct (op (backend d)). Qed.

Lemma audits_keep_rotate input : keeps_audits (rotateManagedCredential input).
Proof.
  unfold rotateManagedCredential. do 2 (apply audits_keep_bind; [apply audits_keep_lift|intros ?]).
  apply audits_keep_bind; [apply audits_keep_lift|intros _]. apply audits_keep_bind; [apply audits_keep_gets|intros [new|]].
  - apply audits_keep_bind; [apply audits_keep_on_backend|intros [r|]]; [apply audits_keep_ret|by intros d].
  - apply audits_keep_bind; [apply audits_keep_on_backend|intros [next secret]].
    apply audits_keep_bind; [|intros _; apply audits_keep_ret]. destruct (scoped_key _ _); by intros d.
Qed.

(** ** One audit record *)

Definition succeeded {A} (r : result A) : bool := match r with Ok _ => true | Throw _ => false end.

Definition one_record (k : AuditKind) (fp : string) (ok : bool) (d d' : Desk S) : Prop :=
  ∃ a, audits d' = audit_append MAX_AUDIT_RECORDS a (audits d) ∧ kind a = k ∧ adminFingerprint a = fp ∧
       (au_result a = audit_ok ↔ ok = true).

Lemma wp_audit fp k res old new overlap (Q : result unit → Desk S → Prop) d :
  (∀ d' a, audits d' = audit_append MAX_AUDIT_RECORDS a (audits d) → kind a = k → adminFingerprint a = fp →
     au_result a = res → Q (Ok tt) d') →
  wp (audit fp k res old new overlap) Q d.
Proof.
  intros HQ. unfold audit, nextOpId, wp, mbind, M_bind, update, gets, on_backend, dateNow, now. cbn.
  destruct (date_now (backend d)) as [t s1]. cbn. destruct (clock_now s1) as [t2 s2]. cbn.
  eapply HQ; reflexivity.
Qed.

Lemma to_audit_not_ok e : toAuditResult e ≠ audit_ok.
Proof. unfold toAuditResult. destruct (error_code e); [|done]. by repeat case_match. Qed.

Lemma wp_audited {A} (c : M (Desk S) A) fp k old new overlap respond d :
  keeps_audits c →
  wp (audited c fp k old new overlap respond)
    (λ res d', one_record k fp (succeeded res) d d' ∧
               ∀ resp, res = Ok resp → ∃ a, resp = respond a) d.
Proof.
  intros Hc. apply wp_attempt. eapply wp_mono; [apply Hc|]. intros [a|e] d1 Hd1; cbv beta iota.
  - apply wp_bind, wp_audit. intros d2 rec Hd2 Hk Hfp Hres. apply wp_ret. rewrite Hd1 in Hd2. split.
    + exists rec. split_and!; [done..|]. rewrite Hres. done.
    + intros resp [= <-]. by exists a.
  - apply wp_bind, wp_audit. intros d2 rec Hd2 Hk Hfp Hres. apply wp_throw. rewrite Hd1 in Hd2. split; [|done].
    exists rec. split_and!; [done..|]. rewrite Hres. by split; [intros ?%to_audit_not_ok|].
Qed.

(** ** The handler *)

(** The state after the id of the request was found. *)
Definition after_request_id (r : Request) (d : Desk S) : Desk S :=
  match map_get REQUEST_ID_HEADER (rq_headers r) with
  | Some _ => d
  | None => with_backend d (random_uuid (backend d)).2
  end.

Lemma wp_request_id {A} r (f : string → M (Desk S) A) Q d :
  (∀ i, wp (f i) Q (after_request_id r d)) → wp (requestIdOf r ≫= f) Q d.
Proof.
  intros Hf. unfold requestIdOf, after_request_id in *. apply wp_bind. destruct (map_get _ _) as [i|]; [apply Hf|].
  unfold wp, on_backend, randomUUID in *. cbn. destruct (random_uuid (backend d)) as [u s']. apply Hf.
Qed.

(** without the administrator's configured secret as its bearer, a
    request to the credentials API is refused with 401, 403 or 503 and
    changes nothing: neither the store nor the idempotency keys nor the audit
    log. *)
Theorem admin_api_needs_the_secret r deps d :
  isAdminBearer r (GROUNDLANE_ADMIN_TOKEN deps) = false →
  ∃ resp, handleAdminCredentialsRequest r deps d = (Ok resp, after_request_id r d) ∧
    rs_status resp ∈ [401; 403; 503]%Z.
Proof.
  intros Hno. pose (Q := λ (res : result Response) d', ∃ resp, (res, d') = (Ok resp, after_request_id r d) ∧
    rs_status resp ∈ [401; 403; 503]%Z).
  assert (Hwp : wp (handleAdminCredentialsRequest r deps) Q d).
  { apply wp_request_id. intros i. rewrite Hno. cbn [negb].
    destruct (negb (isAdminConfigured _)); apply wp_ret; eexists; (split; [reflexivity|]).
    - by apply (bool_decide_unpack _).
    - unfold admin_refusal. by destruct (map_get _ _); apply (bool_decide_unpack _). }
  destruct Hwp as (resp & Heq & Hst). exists resp. split; [|done]. by rewrite <- Heq, <- surjective_pairing.
Qed.

(** The change a request asks for, if its body is one. *)
Definition asked_change (r : Request) : option AuditKind :=
  let change k := match (body ← read_body r; required_id body) with Ok _ => Some k | Throw _ => None end in
  if is_route r "/admin/credentials/audit" "GET" || is_route r "/admin/credentials" "GET" then None
  else if is_route r "/admin/credentials" "POST"
  then match read_body r with Ok _ => Some audit_create | Throw _ => None end
  else if is_route r "/admin/credentials/rotate" "POST" then change audit_rotate
  else if is_route r "/admin/credentials/revoke" "POST" then change audit_revoke
  else if is_route r "/admin/credentials/expire" "POST" then change audit_expire
  else None.

Definition done_status (resp : Response) : bool :=
  bool_decide (rs_status resp = 200%Z) || bool_decide (rs_status resp = 201%Z).

(** What the log shows of a request. *)
Definition logged (r : Request) (fp : string) (ok : bool) (d d' : Desk S) : Prop :=
  match asked_change r with
  | Some k => one_record k fp ok d d'
  | None => audits d' = audits d
  end.

Lemma wp_logged_change {A} (c : M (Desk S) A) fp k old new overlap respond d :
  keeps_audits c → (∀ a, done_status (respond a) = true) →
  wp (audited c fp k old new overlap respond)
    (λ res d', one_record k fp (succeeded res) d d' ∧ ∀ resp, res = Ok resp → done_status resp = true) d.
Proof.
  intros Hc Hr. eapply wp_mono; [by apply wp_audited|]. intros res d' [Hone Hresp]. split; [done|].
  intros resp [a ->]%Hresp. apply Hr.
Qed.

(** Requests for a change of one credential. *)
Lemma wp_change {A} r fp k (c : string → js_value → M (Desk S) A) old new overlap respond d :
  (∀ i body, keeps_audits (c i body)) → (∀ a, done_status (respond a) = true) →
  wp (body ← lift (read_body r); i ← lift (required_id body);
      audited (c i body) fp k (old i) (new i) (overlap i) respond)
    (λ res d', match (body ← read_body r; required_id body) with
               | Ok _ => one_record k fp (succeeded res) d d' ∧ ∀ resp, res = Ok resp → done_status resp = true
               | Throw _ => is_Throw res ∧ audits d' = audits d
               end) d.
Proof.
  intros Hc Hr. destruct (read_body r) as [body|e]; [|by (split; [eexists|])].
  apply wp_bind, wp_lift. cbn [mbind result_bind]. destruct (required_id body) as [i|e]; [|by (split; [eexists|])].
  apply wp_bind, wp_lift. by apply wp_logged_change.
Qed.

Definition outcome_logged (r : Request) (fp : string) (d : Desk S) (res : result Response) (d' : Desk S) : Prop :=
  logged r fp (succeeded res) d d' ∧
  (asked_change r ≠ None → ∀ resp, res = Ok resp → done_status resp = true).

Lemma outcome_of_change r fp k d (res : result Response) d' :
  asked_change r = match (body ← read_body r; required_id body) with Ok _ => Some k | Throw _ => None end →
  match (body ← read_body r; required_id body) with
  | Ok _ => one_record k fp (succeeded res) d d' ∧ ∀ resp, res = Ok resp → done_status resp = true
  | Throw _ => is_Throw res ∧ audits d' = audits d
  end → outcome_logged r fp d res d'.
Proof.
  intros Hk. unfold outcome_logged, logged. rewrite Hk.
  destruct (body ← read_body r; required_id body); [by intros []|by intros [_ ?]].
Qed.

Lemma wp_admin_routes r fp requestId d :
  wp (admin_routes r fp requestId) (outcome_logged r fp d) d.
Proof.
  assert (Hno : asked_change r = None → ∀ c, keeps_audits c → wp c (outcome_logged r fp d) d).
  { intros Ha c Hc. eapply wp_mono; [apply Hc|]. intros res d' Hd. unfold outcome_logged, logged. by rewrite Ha. }
  unfold admin_routes. destruct (is_route r "/admin/credentials/audit" "GET") eqn:R1.
  { apply Hno; [unfold asked_change; by rewrite R1|].
    apply audits_keep_bind; [apply audits_keep_gets|intros listed]. apply audits_keep_bind; [apply audits_keep_lift|intros []].
    apply audits_keep_ret. }
  destruct (is_route r "/admin/credentials" "GET") eqn:R2.
  { apply Hno; [unfold asked_change; by rewrite R1, R2|].
    apply audits_keep_bind; [apply audits_keep_on_backend|intros []]. apply audits_keep_ret. }
  destruct (is_route r "/admin/credentials" "POST") eqn:R3.
  { unfold create_route, outcome_logged, logged, asked_change. rewrite R1, R2, R3. cbn [orb].
    destruct (read_body r) as [body|e]; [|by (split; [reflexivity|])]. apply wp_bind, wp_lift.
    eapply wp_mono; [apply wp_logged_change; [apply audits_keep_on_backend|done]|]. by intros res d' [? ?]. }
  destruct (is_route r "/admin/credentials/rotate" "POST") eqn:R4.
  { eapply wp_mono; [apply (wp_change r fp audit_rotate); [intros; apply audits_keep_rotate|done]|].
    intros res d'. apply outcome_of_change. unfold asked_change. by rewrite R1, R2, R3, R4. }
  destruct (is_route r "/admin/credentials/revoke" "POST") eqn:R5.
  { eapply wp_mono; [apply (wp_change r fp audit_revoke (λ i _, on_backend (revokeManagedCredential i)));
      [intros; apply audits_keep_on_backend|done]|].
    intros res d'. apply outcome_of_change. unfold asked_change. by rewrite R1, R2, R3, R4, R5. }
  destruct (is_route r "/admin/credentials/expire" "POST") eqn:R6.
  { eapply wp_mono; [apply (wp_change r fp audit_expire (λ i _, on_backend (expireManagedCredential i)));
      [intros; apply audits_keep_on_backend|done]|].
    intros res d'. apply outcome_of_change. unfold asked_change. by rewrite R1, R2, R3, R4, R5, R6. }
  apply Hno; [unfold asked_change; by rewrite R1, R2, R3, R4, R5, R6|apply audits_keep_ret].
Qed.

Lemma error_not_done e requestId : done_status (errorToResponse e requestId) = false.
Proof. unfold errorToResponse. destruct e; try done. by repeat case_match. Qed.

(** with the administrator's bearer and a bound store the API always
    answers; a well-formed request to create, rotate, revoke or expire a
    credential appends exactly one audit record, of its kind and of the
    administrator, which says "ok" exactly when the answer is a success; any
    other request leaves the log alone. *)
Theorem admin_changes_are_audited r deps d :
  isAdminBearer r (GROUNDLANE_ADMIN_TOKEN deps) = true → store_bound deps = true →
  ∃ resp, (handleAdminCredentialsRequest r deps d).1 = Ok resp ∧
    logged r (fingerprintForAudit (default ""%string (GROUNDLANE_ADMIN_TOKEN deps))) (done_status resp)
      d (handleAdminCredentialsRequest r deps d).2.
Proof.
  intros Hadmin Hstore. set (fp := fingerprintForAudit _).
  assert (Hconf : isAdminConfigured (GROUNDLANE_ADMIN_TOKEN deps) = true).
  { unfold isAdminBearer, isBearerEqualToSecret in Hadmin. by apply andb_prop in Hadmin as [? _]. }
  pose (Q := λ (res : result Response) d', ∃ resp, res = Ok resp ∧ logged r fp (done_status resp) d d').
  cut (wp (handleAdminCredentialsRequest r deps) Q d); [done|].
  apply wp_request_id. intros i. rewrite Hconf, Hadmin, Hstore. cbn [negb].
  assert (Hkeep : audits (after_request_id r d) = audits d).
  { unfold after_request_id. by destruct (map_get _ _). }
  pose proof (wp_admin_routes r fp i (after_request_id r d)) as Hroutes. unfold wp, catch, Q in *. cbv zeta. fold fp.
  destruct (admin_routes r fp i (after_request_id r d)) as [[resp|e] d'];
    destruct Hroutes as [Hlog Hdone]; eexists; (split; [reflexivity|]);
    unfold logged, one_record in *; rewrite <- Hkeep; destruct (asked_change r); try done.
  - by rewrite (Hdone ltac:(done) resp eq_refl).
  - by rewrite error_not_done.
Qed.
End admin.

(** ** Examples *)

(** A digest that tells the empty text from others. *)
#[local] Instance two_digests : Sha256Api.
Proof.
  refine {| sha256 := λ b, unchars (replicate 64 (match b with [] => "0"%char | _ => "1"%char end)) |};
    intros b; [by destruct b|].
  rewrite chars_unchars. apply Forall_replicate. by destruct b.
Defined.

#[local] Instance still_platform : EdgePlatform FakeManagedTokenStore :=
  {| random_uuid := λ s, ("uuid"%string, s); date_now := λ s, (0%Z, s) |}.

#[local] Instance still_runtime : ManagedRuntime FakeManagedTokenStore :=
  {| clock_now := λ s, (0%Z, s); random_bytes := λ n s, (replicate n "a"%char, s) |}.

#[local] Instance plain_urls : RequestUrls := {| pathname := λ u, u; search_param := λ _ _, None |}.

Definition no_credentials : Desk FakeManagedTokenStore :=
  Build_Desk {| rows := []; unavailable := false; getByIdCalls := 0; scanCalls := 0 |} [] [] 0.

Definition admin_deps : AdminDeps := {| GROUNDLANE_ADMIN_TOKEN := Some "adm"%string; store_bound := true |}.

Definition revoke_request (headers : Headers) : Request :=
  {| rq_url := "/admin/credentials/revoke"; rq_method := "POST"; rq_headers := headers;
     rq_body := unchars (json_text (JObj [("id"%string, JStr "cred_aaaaaaaa")])) |}.

Lemma admin_api_needs_the_secret_witness :
  ∃ resp, handleAdminCredentialsRequest (revoke_request []) admin_deps no_credentials =
            (Ok resp, no_credentials) ∧ rs_status resp ∈ [401; 403; 503]%Z.
Proof. exact (admin_api_needs_the_secret (revoke_request []) admin_deps no_credentials eq_refl). Defined.

Lemma admin_changes_are_audited_witness :
  let r := revoke_request [("authorization", "Bearer adm")]%string in
  asked_change r = Some audit_revoke ∧
  ∃ resp, (handleAdminCredentialsRequest r admin_deps no_credentials).1 = Ok resp ∧
    logged r (fingerprintForAudit "adm") (done_status resp) no_credentials
      (handleAdminCredentialsRequest r admin_deps no_credentials).2.
Proof.
  split; [by vm_compute|].
  exact (admin_changes_are_audited (revoke_request [("authorization", "Bearer adm")]%string) admin_deps
           no_credentials eq_refl eq_refl).
Defined.
