(* ===== verification/McpRouting.v ===== *)
(** * Routing headers of MCP requests

    [src/core/mcp-routing.ts] and the edge validation of
    [src/worker/handler.ts] that uses it: the headers a proxy routes and meters
    by must name what the JSON-RPC body asks for.

    [classifyInboundRequest] is the protocol SDK's ([McpClassifier]), as is
    the name of the protocol version field. *)

From S2P Require Import Prelude JsString JsMap Json Digest WorkerHttp.

(** ** Header values in base64 *)

Definition BASE64_SENTINEL_PREFIX : string := "=?base64?".
Definition BASE64_SENTINEL_SUFFIX : string := "?=".

Definition base64_alphabet : string :=
  "ABCDEFGHIJKLMNOPQRSTUVWXYZabcdefghijklmnopqrstuvwxyz0123456789+/".

Fixpoint base64_index (c : ascii) (l : list ascii) : option Z :=
  match l with
  | [] => None
  | d :: l' => if bool_decide (d = c) then Some 0%Z else Z.succ <$> base64_index c l'
  end.

Definition base64_value (c : ascii) : option Z := base64_index c (chars base64_alphabet).

Definition is_pad (c : ascii) : bool := bool_decide (c = "="%char).

Definition byte_at (n k : Z) : ascii := ascii_of_nat (Z.to_nat (Z.land (Z.shiftr n k) 255)).

(** [BASE64_CANONICAL] and [atob] in one: groups of four, the last padded. *)
Fixpoint base64_bytes (l : list ascii) : option bytes :=
  match l with
  | [] => Some []
  | c1 :: c2 :: c3 :: c4 :: rest =>
      a ← base64_value c1; b ← base64_value c2;
      let n := Z.lor (Z.shiftl a 18) (Z.shiftl b 12) in
      if is_pad c3 && is_pad c4 && bool_decide (rest = []) then Some [byte_at n 16]
      else
        c ← base64_value c3;
        let n := Z.lor n (Z.shiftl c 6) in
        if is_pad c4 && bool_decide (rest = []) then Some [byte_at n 16; byte_at n 8]
        else
          d ← base64_value c4;
          let n := Z.lor n d in
          out ← base64_bytes rest;
          Some (byte_at n 16 :: byte_at n 8 :: byte_at n 0 :: out)
  | _ => None
  end.

(** The decoder is fatal; texts of other characters are left out. *)
Definition base64ToUtf8 (value : string) : option string := b ← base64_bytes (chars value); utf8_decode b.

Definition ends_with (suffix l : list ascii) : bool := is_prefix (rev suffix) (rev l).

Definition decodeMcpHeaderValue (value : string) : option string :=
  let normalized := trim value in
  let l := chars normalized in
  let prefix := chars BASE64_SENTINEL_PREFIX in
  let suffix := chars BASE64_SENTINEL_SUFFIX in
  if negb (is_prefix prefix l) || negb (ends_with suffix l) then Some normalized
  else base64ToUtf8 (unchars (take (length l - length suffix - length prefix) (drop (length prefix) l))).

(** ** The SDK's classification *)

Inductive classification :=
  | Rejects (cell : string)
  | ModernRequest (method : string) (params : js_value)
  | Otherwise.

Record McpRoutingHeaders := {
  protocolVersion : option string;
  h_method : option string;
  h_name : option string
}.

Class McpClassifier := {
  classifyInboundRequest : string → McpRoutingHeaders → js_value → classification;
  PROTOCOL_VERSION_META_KEY : string;
  InvalidRequest_code : Z
}.

(** ** Validation *)

Definition EDGE_HEADER_REJECTION_CELLS : list string :=
  ["header-body-version-mismatch"; "initialize-with-modern-header"; "method-header-mismatch";
   "modern-header-without-claim"; "notification-header-body-version-mismatch";
   "notification-method-header-mismatch"]%string.

Record InboundLadderRejection := {
  rj_cell : string;
  rj_header : string;
  rj_message : string
}.

Definition headerMismatch (cell headerState detail : string) : InboundLadderRejection :=
  {| rj_cell := cell; rj_header := headerState;
     rj_message := "Bad Request: the request headers and body disagree: " +:+ detail |}.

(** The parameter that names what a method acts on. *)
Definition source_field (method : string) : option string :=
  if bool_decide (method = "tools/call"%string) || bool_decide (method = "prompts/get"%string)
  then Some "name"%string
  else if bool_decide (method = "resources/read"%string) then Some "uri"%string
  else if startsWith method "tasks/" then Some "taskId"%string
  else None.

Definition check_name (h : McpRoutingHeaders) (field value : string) : option InboundLadderRejection :=
  match h_name h with
  | None =>
      Some (headerMismatch "name-header-missing" "missing"
        ("the body carries params." +:+ field +:+ " but the required Mcp-Name header is absent"))
  | Some name =>
      match decodeMcpHeaderValue name with
      | None =>
          Some (headerMismatch "name-header-invalid-encoding" "invalid"
            "the Mcp-Name header carries an invalid Base64 sentinel value")
      | Some decoded =>
          if bool_decide (decoded = value) then None
          else Some (headerMismatch "name-header-mismatch" "present"
            ("the body params." +:+ field +:+ " and Mcp-Name header name different targets"))
      end
  end.

Section validation.
Context `{!McpClassifier}.

Definition validateMcpRoutingHeaders (httpMethod : string) (h : McpRoutingHeaders) (body : js_value)
    : option InboundLadderRejection :=
  match classifyInboundRequest httpMethod h body with
  | Rejects cell =>
      if bool_decide (cell ∈ EDGE_HEADER_REJECTION_CELLS)
      then Some (headerMismatch cell
             (if bool_decide (protocolVersion h = None) && bool_decide (h_method h = None)
              then "missing" else "present")
             "the standard routing headers do not match the JSON-RPC envelope")
      else None
  | Otherwise => None
  | ModernRequest method params =>
      if bool_decide (protocolVersion h = None)
      then Some (headerMismatch "protocol-version-header-missing" "missing"
             "the request envelope names a modern protocol version but the required MCP-Protocol-Version header is absent")
      else if bool_decide (h_method h = None)
      then Some (headerMismatch "method-header-missing" "missing"
             "the body names a method but the required Mcp-Method header is absent")
      else
        match source_field method with
        | None => None
        | Some field =>
            match prop params field with JStr value => check_name h field value | _ => None end
        end
  end.

(** The fields a request's [params] miss. *)
Definition meta_missing (params : js_value) : option (list string) :=
  if negb (is_object params) || negb (has_own params "_meta") then Some ["_meta"%string]
  else
    let meta := prop params "_meta" in
    if negb (is_object meta) then Some ["_meta"%string]
    else match prop meta PROTOCOL_VERSION_META_KEY with
         | JStr v => if falsy v then Some [PROTOCOL_VERSION_META_KEY] else None
         | _ => Some [PROTOCOL_VERSION_META_KEY]
         end.

Definition missingRequestMetaVersion (h : McpRoutingHeaders) (body : js_value) : option (list string) :=
  if falsy (default ""%string (protocolVersion h)) then None
  else if negb (has_own body "id") then None
  else
    match prop body "method" with
    | JStr m =>
        if bool_decide (m = "initialize"%string) || bool_decide (m = "notifications/initialized"%string)
        then None else meta_missing (prop body "params")
    | _ => meta_missing (prop body "params")
    end.

(** ** Answers *)

(** The id of a JSON-RPC body, [null] when it is no string or number. *)
Definition rpc_id (body : js_value) : js_value :=
  match prop body "id" with JStr s => JStr s | JNum z => JNum z | _ => JNull end.

Definition rpc_error (status : Z) (id : js_value) (code : Z) (message : string)
    (data : list (string * js_value)) (requestId : string) : Response :=
  json_response status
    (JObj [("jsonrpc", JStr "2.0"); ("id", id);
           ("error", JObj ([("code", JNum code); ("message", JStr message)] ++ data))]%string) requestId.

Definition mcpInvalidMetaResponse (requestId : string) (body : js_value) (missing : list string) : Response :=
  rpc_error 400 (rpc_id body) (-32602) "Bad Request: the request _meta is missing required MCP fields"
    [("data"%string, JObj [("missing"%string, JArr (JStr <$> missing))])] requestId.

Definition mcpRoutingRejectionResponse (r : InboundLadderRejection) (requestId : string) (body : js_value)
    : Response :=
  rpc_error 400 (rpc_id body) (-32020) (rj_message r)
    [("data", JObj [("mismatch", JObj [("header", JStr (rj_header r)); ("body", JStr "present")])])]%string
    requestId.

Definition mcpBodyTooLargeResponse (requestId : string) : Response :=
  rpc_error 413 JNull InvalidRequest_code "MCP request body exceeds the 1 MiB limit" [] requestId.

(** ** The edge *)

Definition MCP_EDGE_BODY_LIMIT_BYTES : Z := 1024 * 1024.

(** [split(";", 1)[0].trim().toLowerCase()] *)
Definition media_type (v : string) : string :=
  toLowerCase (trim (unchars (take_while (λ c, negb (bool_decide (c = ";"%char))) (chars v)))).

Definition too_long (declared : option string) : bool :=
  match declared with
  | None => false
  | Some s => let n := Number_of_string s in isFinite n && num_ltb (int MCP_EDGE_BODY_LIMIT_BYTES) n
  end.

Definition routing_headers (r : Request) : McpRoutingHeaders :=
  {| protocolVersion := map_get "mcp-protocol-version" (rq_headers r);
     h_method := map_get "mcp-method" (rq_headers r);
     h_name := map_get "mcp-name" (rq_headers r) |}.

Definition validateMcpEdgeRequest `{!RequestUrls} (r : Request) (requestId : string) : option Response :=
  if negb (bool_decide (pathname (rq_url r) = "/mcp"%string)) || negb (bool_decide (rq_method r = "POST"%string))
  then None
  else if negb (bool_decide (media_type <$> map_get "content-type" (rq_headers r) = Some "application/json"%string))
  then None
  else if too_long (map_get "content-length" (rq_headers r)) then Some (mcpBodyTooLargeResponse requestId)
  else if (MCP_EDGE_BODY_LIMIT_BYTES <? byteLength (utf8 (rq_body r)))%Z
  then Some (mcpBodyTooLargeResponse requestId)
  else
    match JSON_parse (rq_body r) with
    | Throw _ => None
    | Ok body =>
        let h := routing_headers r in
        match validateMcpRoutingHeaders (rq_method r) h body with
        | None => None
        | Some rejected =>
            match missingRequestMetaVersion h body with
            | Some missing => Some (mcpInvalidMetaResponse requestId body missing)
            | None => Some (mcpRoutingRejectionResponse rejected requestId body)
            end
        end
    end.
End validation.

(** ** What passes is routed by what it asks for *)

(** a request the SDK classifies as a modern one passes the validation
    exactly when the version and method headers are there and, for a method
    that names its target in a string parameter, the name header is there and
    denotes the same target, as text or in canonical base64. *)
Theorem routed_name_is_the_body_name `{!McpClassifier} httpMethod h body method params :
  classifyInboundRequest httpMethod h body = ModernRequest method params →
  validateMcpRoutingHeaders httpMethod h body = None ↔
  protocolVersion h ≠ None ∧ h_method h ≠ None ∧
  ∀ field value, source_field method = Some field → prop params field = JStr value →
    ∃ name, h_name h = Some name ∧ decodeMcpHeaderValue name = Some value.
Proof.
  intros Hc. unfold validateMcpRoutingHeaders. rewrite Hc.
  destruct (decide (protocolVersion h = None)) as [Hv|Hv];
    [rewrite bool_decide_true by done; split; [done|by intros [? _]]|].
  rewrite bool_decide_false by done. destruct (decide (h_method h = None)) as [Hm|Hm];
    [rewrite bool_decide_true by done; split; [done|by intros (_ & ? & _)]|].
  rewrite bool_decide_false by done. destruct (source_field method) as [field|]; [|split; [intros _; by split_and!|done]].
  split.
  - intros Hn. split_and!; [done|done|]. intros f value [= <-] Hp. rewrite Hp in Hn. unfold check_name in Hn.
    destruct (h_name h) as [name|]; [|done]. exists name. split; [done|].
    destruct (decodeMcpHeaderValue name) as [d|]; [|done]. case_bool_decide; [by subst|done].
  - intros (_ & _ & Hn). destruct (prop params field) as [| | | |value| |] eqn:Hp; try done.
    destruct (Hn field value eq_refl Hp) as (name & Hname & Hd). unfold check_name.
    by rewrite Hname, Hd, bool_decide_true.
Qed.

(** A classifier that takes every body for a modern call. *)
Definition calls_only : McpClassifier :=
  {| classifyInboundRequest := λ _ _ body, ModernRequest "tools/call" (prop body "params");
     PROTOCOL_VERSION_META_KEY := "v"; InvalidRequest_code := (-32600)%Z |}.

Lemma routed_name_is_the_body_name_witness :
  let h name := {| protocolVersion := Some "v1"; h_method := Some "tools/call"; h_name := Some name |}%string in
  let body := JObj [("params", JObj [("name", JStr "search")])]%string in
  @validateMcpRoutingHeaders calls_only "POST" (h "=?base64?c2VhcmNo?="%string) body = None ∧
  @validateMcpRoutingHeaders calls_only "POST" (h "fetch"%string) body ≠ None.
Proof.
  intros h body. split; [|by vm_compute].
  destruct (@routed_name_is_the_body_name calls_only "POST" (h "=?base64?c2VhcmNo?="%string) body "tools/call"
              (prop body "params") eq_refl) as [_ Hok].
  apply Hok. split_and!; [done|done|]. intros field value [= <-] [= <-]. by eexists.
Defined.
