(* ===== verification/WorkerHandler.v ===== *)
(** * The worker's request handler

    [src/worker/handler.ts], the API handler of [src/worker/oauth.ts] and
    [requestWithId] of [src/worker/proxy.ts]: which credential unlocks which
    route, and how an authenticated request reaches the container.

    The services behind the data plane (document jobs, artifacts, tasks, the
    lite server, the container) and the OAuth provider are a parameter,
    [DataPlane]. *)

From S2P Require Import Prelude JsString JsMap Json Digest WorkerHttp WorkerAuth ManagedTokens InternalContext AdminCredentials McpRouting Base64Url InternalContextSafety.

Definition CONTAINER_INSTANCE_NAME : string := "groundlane-mcp-v2".
Definition INTERNAL_ARTIFACT_PURPOSE : string := "document-parse-artifact".

Record WorkerEnv := {
  GROUNDLANE_AUTH_TOKEN : string;
  env_admin_token : option string;
  env_signing_secret : option string;
  GROUNDLANE_MODE : option string;
  env_store_bound : bool
}.

Definition requestWithId (r : Request) (requestId : string) : Request :=
  with_headers r (map_set "x-request-id" requestId (rq_headers r)).

(** The container checks the shared bearer again, so the caller's is replaced. *)
Definition requestForContainer (r : Request) (requestId groundlaneAuthToken : string) : Request :=
  with_headers r (map_set "authorization" ("Bearer " +:+ groundlaneAuthToken)
                    (map_set "x-request-id" requestId (rq_headers r))).

(** The provider answers itself, or calls the API handler with a request and
    the properties of its grant. *)
Inductive oauth_outcome :=
  | ProviderAnswers (resp : Response)
  | CallsApi (r : Request) (props : js_value).

Class DataPlane (S : Type) := {
  edge_document_jobs : Request → AuthenticatedPrincipal → string → string → M S (option Response);
  edge_artifacts : Request → AuthenticatedPrincipal → string → string → M S (option Response);
  prepare_artifact_parse : Request → AuthenticatedPrincipal → string → M S (option Request);
  artifact_error : Request → thrown → string → Response;
  edge_tasks : Request → AuthenticatedPrincipal → string → string → M S (option Response);
  lite_init : M S unit;
  lite_mcp : Request → AuthenticatedPrincipal → string → M S Response;
  error_text : thrown → string;
  container_fetch : Request → M S Response;
  was_aborted : Request → S → bool;
  oauth_fetch : Request → M S oauth_outcome
}.

Definition unauthorized (requestId : string) : Response :=
  jsonError 401 "unauthorized" "A valid bearer token is required" requestId bearer_challenge.

Definition container_unavailable (requestId : string) : Response :=
  jsonError 502 "container_unavailable" "The MCP runtime is unavailable" requestId [].

Definition invalid_oauth_context : Response :=
  {| rs_status := 401; rs_headers := [("content-type", "application/json")]%string;
     rs_body := JObj [("error", JObj [("code", JStr "invalid_oauth_context");
                                      ("message", JStr "OAuth context is invalid")])]%string |}.

Section handler.
Context {S : Type} `{!Sha256Api} `{!HmacApi} `{!RequestUrls} `{!McpClassifier}
  `{!ManagedTokenStore S} `{!ManagedRuntime S} `{!EdgePlatform S} `{!DataPlane S}.

(** ** The data plane *)

Definition isLiteMode (env : WorkerEnv) : bool := bool_decide (GROUNDLANE_MODE env = Some "lite"%string).

Definition handleLiteDataPlane (r : Request) (requestId : string) (p : AuthenticatedPrincipal)
    (binding : string) : M S Response :=
  if negb (isMcpPath (pathname (rq_url r))) || negb (bool_decide (rq_method r = "POST"%string))
  then mret (jsonError 404 "not_found" "Route not found in lite mode" requestId [])
  else
    match validateMcpEdgeRequest r requestId with
    | Some rejection => mret rejection
    | None =>
        started ← attempt lite_init;
        match started with
        | inr e => mret (jsonError 500 "lite_init_error" (error_text (S := S) e) requestId [])
        | inl _ =>
            answered ← attempt (lite_mcp r p binding);
            match answered with
            | inl resp => mret resp
            | inr e => mret (jsonError 500 "internal_error" (error_text (S := S) e) requestId [])
            end
        end
    end.

(** The first service that takes the request, or the request to forward. *)
Definition edge_services (r : Request) (p : AuthenticatedPrincipal) (binding requestId : string)
    : M S (Response + option Request) :=
  job ← edge_document_jobs r p binding requestId;
  match job with
  | Some resp => mret (inl resp)
  | None =>
      artifact ← edge_artifacts r p binding requestId;
      match artifact with
      | Some resp => mret (inl resp)
      | None =>
          prepared ← attempt (prepare_artifact_parse r p binding);
          match prepared with
          | inr e => mret (inl (artifact_error (S := S) r e requestId))
          | inl parse =>
              task ← edge_tasks r p binding requestId;
              match task with
              | Some resp => mret (inl resp)
              | None => mret (inr parse)
              end
          end
      end
  end.

(** [sha256-] and the digest of the body. *)
Definition body_digest (r : Request) : string := "sha256-" +:+ sha256 (utf8 (rq_body r)).

Definition mint_options (env_secret : string) (r : Request) (path requestId : string)
    (p : AuthenticatedPrincipal) (binding : string) (parse : option Request) : MintOptions :=
  {| mi_issuer := None; mi_signingSecret := env_secret; mi_audience := CONTAINER_INSTANCE_NAME;
     mi_method := rq_method r; mi_path := path; mi_requestId := requestId; mi_principal := p;
     mi_credentialBinding := binding; mi_ttlMs := None;
     mi_purpose := match parse with Some _ => Some INTERNAL_ARTIFACT_PURPOSE | None => None end;
     mi_bodySha256 := body_digest <$> parse |}.

(** The container's answer, with the id of the request. *)
Definition fetch_container (original forContainer : Request) (requestId : string) : M S Response :=
  outcome ← attempt (container_fetch forContainer);
  match outcome with
  | inl resp => mret {| rs_status := rs_status resp;
                        rs_headers := map_set "x-request-id" requestId (rs_headers resp);
                        rs_body := rs_body resp |}
  | inr e =>
      aborted ← gets (was_aborted original);
      match aborted with
      | true => throw e
      | false => mret (container_unavailable requestId)
      end
  end.

Definition forward (r : Request) (env : WorkerEnv) (requestId : string) (p : AuthenticatedPrincipal)
    (binding : string) (parse : option Request) : M S Response :=
  let profile := resolveWorkerAuthProfile {| GROUNDLANE_AUTH_MODE := None;
                   GROUNDLANE_INTERNAL_SIGNING_SECRET := env_signing_secret env |} in
  let sanitized := stripCallerInternalHeaders (default r parse) in
  match profile with
  | worker_internal_context =>
      let secret := default ""%string (env_signing_secret env) in
      if falsy secret
      then mret (jsonError 503 "internal_context_unavailable" "Internal context is not configured" requestId [])
      else
        t ← now;
        token ← lift (mintInternalContext
          (mint_options secret r (pathname (rq_url sanitized)) requestId p binding parse) t);
        fetch_container r (buildContainerRequestWithInternalContext sanitized token requestId) requestId
  | local_static =>
      fetch_container sanitized (requestForContainer sanitized requestId (GROUNDLANE_AUTH_TOKEN env)) requestId
  end.

Definition proxyDataPlane (r : Request) (env : WorkerEnv) (requestId : string)
    (p : AuthenticatedPrincipal) (binding : string) : M S Response :=
  if isLiteMode env then handleLiteDataPlane r requestId p binding
  else
    match validateMcpEdgeRequest r requestId with
    | Some rejection => mret rejection
    | None =>
        served ← edge_services r p binding requestId;
        match served with
        | inl resp => mret resp
        | inr parse => forward r env requestId p binding parse
        end
    end.

(** ** Credentials *)

Definition hasValidStaticBearerToken (r : Request) (env : WorkerEnv) : bool :=
  negb (falsy (GROUNDLANE_AUTH_TOKEN env)) &&
  hasValidBearerToken (map_get "authorization" (rq_headers r)) (GROUNDLANE_AUTH_TOKEN env).

(** The bearer of a request, when it has the form of a managed token. *)
Definition managed_candidate (r : Request) : option string :=
  token ← parseBearerToken (map_get "authorization" (rq_headers r));
  if isManagedTokenFormat token then Some token else None.

Definition store_unavailable_response (requestId : string) : Response :=
  jsonError 503 "store_unavailable" "Auth store is unavailable" requestId [].

Definition authenticateManagedRequest (token : string) (env : WorkerEnv)
    : M S (AuthenticatedPrincipal + Response) :=
  requestId ← randomUUID;
  if negb (env_store_bound env)
  then mret (inr (jsonError 503 "managed_unavailable" "Managed tokens are unavailable" requestId []))
  else
    outcome ← attempt (authenticateManagedToken token);
    match outcome with
    | inl (Some p) => mret (inl p)
    | inl None => mret (inr (unauthorized requestId))
    | inr e =>
        if bool_decide (error_code e = Some "storage_unavailable"%string)
        then mret (inr (store_unavailable_response requestId)) else throw e
    end.

Definition static_proxy (r : Request) (env : WorkerEnv) (requestId : string) : M S Response :=
  proxyDataPlane r env requestId createStaticPrincipal "static:legacy".

Definition managed_binding (p : AuthenticatedPrincipal) : string :=
  "managed:" +:+ default "unknown"%string (credentialId p).

Definition managed_proxy (r : Request) (env : WorkerEnv) (requestId token : string) : M S Response :=
  checked ← authenticateManagedRequest token env;
  match checked with
  | inr refusal => mret refusal
  | inl p => proxyDataPlane r env requestId p (managed_binding p)
  end.

(** [props.clientId] and [props.scopes] of a grant. *)
Definition oauth_principal (props : js_value) : option AuthenticatedPrincipal :=
  client ← as_string (prop props "clientId");
  scopes ← as_strings (prop props "scopes");
  if falsy client then None
  else Some (createOAuthPrincipal client (match scopes with [] => ["mcp"%string] | _ => scopes end)).

Definition oauth_proxy (r : Request) (env : WorkerEnv) (requestId : string) : M S Response :=
  outcome ← oauth_fetch (requestWithId (stripCallerInternalHeaders r) requestId);
  match outcome with
  | ProviderAnswers resp => mret resp
  | CallsApi r' props =>
      match oauth_principal props with
      | None => mret invalid_oauth_context
      | Some p => proxyDataPlane r' env requestId p ("oauth:" +:+ default ""%string (clientId p))
      end
  end.

(** ** Routes *)

Definition OAUTH_MANAGED_PATH_PREFIXES : list string :=
  ["/authorize"; "/token"; "/register"; "/.well-known/oauth"]%string.

Definition isOAuthManagedPath (path : string) : bool :=
  bool_decide (path = "/mcp"%string) || existsb (startsWith path) OAUTH_MANAGED_PATH_PREFIXES.

Definition healthResponse (requestId : string) : Response :=
  json_response 200 (JObj [("status", JStr "ok"); ("service", JStr "groundlane-worker");
                           ("requestId", JStr requestId)]%string) requestId.

Definition is_get (r : Request) : bool := bool_decide (rq_method r = "GET"%string).

(** The routes below the administrator's guard. *)
Definition data_routes (r : Request) (env : WorkerEnv) (requestId : string) : M S Response :=
  let path := pathname (rq_url r) in
  if isReadyzPath path && is_get r then
    if hasValidStaticBearerToken r env then static_proxy r env requestId
    else match managed_candidate r with
         | Some token => managed_proxy r env requestId token
         | None => mret (unauthorized requestId)
         end
  else if isRegisterPath path && negb (hasValidStaticBearerToken r env) then mret (unauthorized requestId)
  else if isMcpPath path && hasValidStaticBearerToken r env then static_proxy r env requestId
  else
    let via_oauth :=
      if isOAuthManagedPath path then oauth_proxy r env requestId
      else mret (jsonError 404 "not_found" "Route not found" requestId []) in
    if isMcpPath path then
      match managed_candidate r with
      | Some token => managed_proxy r env requestId token
      | None => via_oauth
      end
    else via_oauth.

Definition admin_forbidden (requestId : string) : Response :=
  jsonError 403 "forbidden" "Admin token cannot access this route" requestId [].

Definition handleWorkerRequest (r : Request) (env : WorkerEnv) : M (Desk S) Response :=
  requestId ← on_backend randomUUID;
  let path := pathname (rq_url r) in
  if bool_decide (path = "/healthz"%string) && is_get r then mret (healthResponse requestId)
  else if isAdminCredentialsPath path
  then handleAdminCredentialsRequest r
         {| GROUNDLANE_ADMIN_TOKEN := env_admin_token env; store_bound := env_store_bound env |}
  else if isAdminBearer r (env_admin_token env) then mret (admin_forbidden requestId)
  else on_backend (data_routes r env requestId).
End handler.

(** * Correctness of the worker's routing

    The data plane is reached with a credential only, the administrator's
    bearer never reaches it, and what the container receives verifies as the
    principal the worker authenticated. *)

Section handler.
Context {S : Type} `{!Sha256Api} `{!HmacApi} `{!RequestUrls} `{!McpClassifier}
  `{!ManagedTokenStore S} `{!ManagedRuntime S} `{!EdgePlatform S} `{!DataPlane S}.

(** ** The administrator's bearer *)

(** a request with the administrator's bearer gets 403 on every route but
    the health check and the credentials API: no other handler runs and only
    a request id is drawn. *)
Theorem admin_bearer_stays_out r env (d : Desk S) :
  isAdminBearer r (env_admin_token env) = true →
  isAdminCredentialsPath (pathname (rq_url r)) = false →
  pathname (rq_url r) ≠ "/healthz"%string →
  ∃ requestId s, random_uuid (backend d) = (requestId, s) ∧
    handleWorkerRequest r env d = (Ok (admin_forbidden requestId), with_backend d s).
Proof.
  intros Hadmin Hpath Hhealth. destruct (random_uuid (backend d)) as [requestId s] eqn:Hu.
  exists requestId, s. split; [done|]. unfold handleWorkerRequest, mbind, M_bind, on_backend, randomUUID.
  rewrite Hu. cbn. by rewrite bool_decide_false, Hpath, Hadmin by done.
Qed.

(** ** Credentials of the data plane *)

(** How a request below the administrator's guard ends, from [s]: in one of
    the three ways to the data plane, or at a check, and then in the state the
    check left. *)
Inductive data_outcome (r : Request) (env : WorkerEnv) (requestId : string) (s : S) : result Response * S → Prop :=
  | by_static :
      hasValidStaticBearerToken r env = true →
      data_outcome r env requestId s (proxyDataPlane r env requestId createStaticPrincipal "static:legacy" s)
  | by_managed token p s1 :
      managed_candidate r = Some token → env_store_bound env = true →
      authenticateManagedToken token (random_uuid s).2 = (Ok (Some p), s1) →
      data_outcome r env requestId s (proxyDataPlane r env requestId p (managed_binding p) s1)
  | by_oauth r' props p s1 :
      oauth_fetch (requestWithId (stripCallerInternalHeaders r) requestId) s = (Ok (CallsApi r' props), s1) →
      oauth_principal props = Some p →
      data_outcome r env requestId s
        (proxyDataPlane r' env requestId p ("oauth:" +:+ default ""%string (clientId p)) s1)
  | provider_answered resp s1 :
      oauth_fetch (requestWithId (stripCallerInternalHeaders r) requestId) s = (Ok (ProviderAnswers resp), s1) →
      data_outcome r env requestId s (Ok resp, s1)
  | grant_refused r' props s1 :
      oauth_fetch (requestWithId (stripCallerInternalHeaders r) requestId) s = (Ok (CallsApi r' props), s1) →
      oauth_principal props = None →
      data_outcome r env requestId s (Ok invalid_oauth_context, s1)
  | provider_failed e s1 :
      oauth_fetch (requestWithId (stripCallerInternalHeaders r) requestId) s = (Throw e, s1) →
      data_outcome r env requestId s (Throw e, s1)
  | store_not_bound token resp :
      managed_candidate r = Some token → env_store_bound env = false → rs_status resp = 503%Z →
      data_outcome r env requestId s (Ok resp, (random_uuid s).2)
  | token_refused token resp s1 :
      managed_candidate r = Some token → rs_status resp = 401%Z →
      authenticateManagedToken token (random_uuid s).2 = (Ok None, s1) →
      data_outcome r env requestId s (Ok resp, s1)
  | token_unchecked token res e s1 :
      managed_candidate r = Some token →
      authenticateManagedToken token (random_uuid s).2 = (Throw e, s1) →
      (res = Throw e ∨ ∃ resp, res = Ok resp ∧ rs_status resp = 503%Z) →
      data_outcome r env requestId s (res, s1)
  | refused resp :
      rs_status resp ∈ [401; 404]%Z → hasValidStaticBearerToken r env = false ∨ isMcpPath (pathname (rq_url r)) = false →
      data_outcome r env requestId s (Ok resp, s).

Section reached.
Context (r : Request) (env : WorkerEnv) (requestId : string).

Lemma managed_outcome token s :
  managed_candidate r = Some token → data_outcome r env requestId s (managed_proxy r env requestId token s).
Proof.
  intros Hc. unfold managed_proxy, authenticateManagedRequest, mbind, M_bind, randomUUID.
  destruct (random_uuid s) as [u s0] eqn:Hu. assert (Hs0 : s0 = (random_uuid s).2) by (by rewrite Hu).
  destruct (env_store_bound env) eqn:Hb; cbn [negb].
  2: { rewrite Hs0. by eapply store_not_bound. }
  unfold attempt. destruct (authenticateManagedToken token s0) as [[[p|]|e] s1] eqn:Ha; cbn; rewrite Hs0 in Ha.
  - by eapply by_managed.
  - by eapply token_refused.
  - case_bool_decide; cbn; eapply token_unchecked; try done; [|by left]. right. by eexists.
Qed.

Lemma oauth_ends s : data_outcome r env requestId s (oauth_proxy r env requestId s).
Proof.
  unfold oauth_proxy, mbind, M_bind.
  destruct (oauth_fetch _ s) as [[[resp|r' props]|e] s1] eqn:Ho; cbn.
  - by apply provider_answered.
  - destruct (oauth_principal props) as [p|] eqn:Hp; [by eapply by_oauth|by eapply grant_refused].
  - by apply provider_failed.
Qed.

Lemma routes_end s : data_outcome r env requestId s (data_routes r env requestId s).
Proof.
  unfold data_routes. cbv zeta.
  assert (Hout : isMcpPath (pathname (rq_url r)) = false ∨ hasValidStaticBearerToken r env = false →
    data_outcome r env requestId s ((if isOAuthManagedPath (pathname (rq_url r)) then oauth_proxy r env requestId
      else mret (jsonError 404 "not_found" "Route not found" requestId [])) s)).
  { intros Hroute. destruct (isOAuthManagedPath _); [by apply oauth_ends|].
    apply refused; [by apply (bool_decide_unpack _)|tauto]. }
  assert (Hno : hasValidStaticBearerToken r env = false →
    data_outcome r env requestId s ((mret (unauthorized requestId) : M S Response) s)).
  { intros Hroute. apply refused; [by apply (bool_decide_unpack _)|by left]. }
  destruct (hasValidStaticBearerToken r env) eqn:Hst; rewrite ?andb_true_r, ?andb_false_r;
    destruct (managed_candidate r) as [token|] eqn:Hc; repeat case_match;
    solve [by auto | by apply by_static | by apply managed_outcome].
Qed.
End reached.

(** C39: the data plane is reached in three ways only: with the deployment's
    static bearer, as its principal; with a managed token the store
    authenticates, as the credential's principal; or through the OAuth
    provider, as the client its grant names.  Every other request ends at a
    check, with its answer, in the state that this check left: neither the
    data plane nor anything else ran.  The health check, the administrator's
    routes and refused administrator bearers stay outside altogether. *)
Theorem data_plane_is_authenticated r env (d : Desk S) :
  let requestId := (random_uuid (backend d)).1 in
  let d1 := with_backend d (random_uuid (backend d)).2 in
  let path := pathname (rq_url r) in
  if bool_decide (path = "/healthz"%string) && is_get r
  then handleWorkerRequest r env d = (Ok (healthResponse requestId), d1)
  else if isAdminCredentialsPath path
  then handleWorkerRequest r env d = handleAdminCredentialsRequest r
         {| GROUNDLANE_ADMIN_TOKEN := env_admin_token env; store_bound := env_store_bound env |} d1
  else if isAdminBearer r (env_admin_token env)
  then handleWorkerRequest r env d = (Ok (admin_forbidden requestId), d1)
  else ∃ out, data_outcome r env requestId (backend d1) out ∧
         handleWorkerRequest r env d = (out.1, with_backend d1 out.2).
Proof.
  cbv zeta. unfold handleWorkerRequest, mbind, M_bind, on_backend, randomUUID.
  destruct (random_uuid (backend d)) as [requestId s]. cbn [fst snd].
  destruct (_ && is_get r); [done|]. destruct (isAdminCredentialsPath _); [done|].
  destruct (isAdminBearer _ _); [done|]. eexists. split; [apply routes_end|].
  by destruct (data_routes r env requestId _).
Qed.

(** ** Forwarding *)

(** The bounds of a principal and a binding. *)
Definition presentable (p : AuthenticatedPrincipal) (binding requestId : string) : Prop :=
  (1 ≤ length (pr_scopes p) ≤ 32) ∧ scopes_fit p ∧ bad_length 256 binding = false ∧
  bad_length 128 requestId = false.

(** How the container is set up next to the worker. *)
Definition container_options (env : WorkerEnv) (method path : string) : ContainerAuthOptions :=
  {| ca_legacyToken := None; ca_signingSecret := env_signing_secret env;
     ca_expectedAudience := CONTAINER_INSTANCE_NAME; ca_expectedMethod := method;
     ca_expectedPath := path; ca_expectedPurpose := None; ca_expectedBodySha256 := None |}.

Lemma mint_forward secret r path requestId p binding t :
  secret ≠ ""%string → presentable p binding requestId →
  ∃ token, mintInternalContext (mint_options secret r path requestId p binding None) t = Ok token.
Proof.
  intros Hs (Hn & _ & Hb & Hr). unfold mintInternalContext, check_mint.
  cbn [mi_signingSecret mint_options mi_issuer mi_audience mi_requestId mi_principal mi_credentialBinding
    mi_purpose mi_bodySha256 mi_ttlMs fmap option_fmap option_map].
  rewrite Hb, Hr, (proj2 (falsy_false secret) Hs).
  replace (length (pr_scopes p) =? 0) with false by (symmetry; apply Nat.eqb_neq; lia).
  replace (32 <? length (pr_scopes p)) with false by (symmetry; apply Nat.ltb_ge; lia).
  eexists. reflexivity.
Qed.

(** in the internal profile the container is handed a request without
    the caller's authorization that it accepts, for the thirty seconds the
    context lives, as exactly the principal and binding the worker
    authenticated, whatever headers the caller sent. *)
Theorem container_sees_the_principal r env requestId p binding secret s :
  env_signing_secret env = Some secret → secret ≠ ""%string → presentable p binding requestId →
  ∃ rq, forward r env requestId p binding None s = fetch_container r rq requestId (clock_now s).2 ∧
    map_get "authorization" (rq_headers rq) = None ∧
    ∀ t, ((clock_now s).1 <= t < (clock_now s).1 + INTERNAL_DEFAULT_TTL_MS)%Z →
      verifyContainerAuth rq worker_internal_context
        (container_options env (rq_method r) (pathname (rq_url r))) t =
      Accepted "internal_context" (principal_json p) (JStr binding).
Proof.
  intros Hs Hne Hp. destruct (clock_now s) as [t0 s1] eqn:Hclock. cbn [fst snd].
  destruct (mint_forward secret r (pathname (rq_url (stripCallerInternalHeaders r))) requestId p binding t0 Hne Hp)
    as [token Hmint].
  pose (m := mint_options secret r (pathname (rq_url (stripCallerInternalHeaders r))) requestId p binding None).
  assert (Hall : ∀ t, (t0 <= t < t0 + INTERNAL_DEFAULT_TTL_MS)%Z → _) by
    (intros t Ht; apply (forwarded_accepted m t0 token (stripCallerInternalHeaders r)
       (container_options env (rq_method r) (pathname (rq_url r))) t Hmint);
     [apply Hp|split_and!; done|exact Ht]).
  exists (buildContainerRequestWithInternalContext (stripCallerInternalHeaders r) token requestId).
  split_and!.
  - unfold forward, resolveWorkerAuthProfile. cbn [GROUNDLANE_AUTH_MODE GROUNDLANE_INTERNAL_SIGNING_SECRET].
    rewrite !bool_decide_false by done. rewrite Hs. cbn [default from_option Datatypes.id].
    rewrite (proj2 (falsy_false secret) Hne). unfold mbind, M_bind, now. rewrite Hclock.
    cbn [lift]. rewrite Hmint. done.
  - rewrite forwarded_header. done.
  - intros t Ht. by apply Hall.
Qed.

(** ** Credentials that cannot be used *)

(** An administrator may create a credential without scopes, and it
    authenticates; but no context can be minted for its principal, so each of
    its forwarded requests fails with an uncaught error. *)
Theorem scopeless_credential_is_never_forwarded r env requestId p binding secret s :
  env_signing_secret env = Some secret → secret ≠ ""%string → pr_scopes p = [] →
  bad_length 128 requestId = false →
  validateScopes (JArr []) = Ok [] ∧
  forward r env requestId p binding None s = (Throw (TError "invalid principal scopes"), (clock_now s).2).
Proof.
  intros Hs Hne Hp Hid. split; [done|]. unfold forward, resolveWorkerAuthProfile.
  cbn [GROUNDLANE_AUTH_MODE GROUNDLANE_INTERNAL_SIGNING_SECRET].
  rewrite !bool_decide_false by done. rewrite Hs. cbn [default from_option Datatypes.id].
  rewrite (proj2 (falsy_false secret) Hne). unfold mbind, M_bind, now. destruct (clock_now s) as [t s1].
  unfold lift, mintInternalContext, check_mint.
  cbn [mi_signingSecret mint_options mi_issuer mi_audience mi_requestId mi_principal mi_credentialBinding
    mi_purpose mi_bodySha256 mi_ttlMs]. rewrite Hp, Hid, (proj2 (falsy_false secret) Hne). done.
Qed.
End handler.

(** ** Examples *)

Module WorkerDemo.
(** A digest that tells texts of different lengths apart. *)
#[export] Instance digest : Sha256Api.
Proof.
  refine {| sha256 := λ b, unchars (replicate 64 (ascii_of_nat (97 + length b mod 6))) |}; intros b.
  - by rewrite length_unchars, length_replicate.
  - rewrite chars_unchars. apply Forall_replicate.
    pose proof (Nat.mod_upper_bound (length b) 6 ltac:(lia)) as Hlt.
    destruct (length b mod 6) as [|[|[|[|[|[|k]]]]]]; [done..|lia].
Defined.
#[export] Instance signer : HmacApi := zero_hmac.
#[export] Instance urls : RequestUrls := {| pathname := λ u, u; search_param := λ _ _, None |}.
#[export] Instance classifier : McpClassifier := calls_only.

Notation state := FakeManagedTokenStore.

#[export] Instance runtime : ManagedRuntime state :=
  {| clock_now := λ s, (1000%Z, s); random_bytes := λ n s, (replicate n "a"%char, s) |}.
#[export] Instance platform : EdgePlatform state :=
  {| random_uuid := λ s, ("uuid"%string, s); date_now := λ s, (0%Z, s) |}.

(** No edge service takes a request, and the provider refuses. *)
#[export] Instance plane : DataPlane state := {
  edge_document_jobs := λ _ _ _ _, mret None;
  edge_artifacts := λ _ _ _ _, mret None;
  prepare_artifact_parse := λ _ _ _, mret None;
  artifact_error := λ _ _ requestId, container_unavailable requestId;
  edge_tasks := λ _ _ _ _, mret None;
  lite_init := mret tt;
  lite_mcp := λ _ _ _, throw (TError "lite");
  error_text := λ _, "error"%string;
  container_fetch := λ _, mret (json_response 200 (JStr "container") "inner");
  was_aborted := λ _ _, false;
  oauth_fetch := λ r, mret (ProviderAnswers (unauthorized "oauth"))
}.

Definition env : WorkerEnv :=
  {| GROUNDLANE_AUTH_TOKEN := "legacy-token"; env_admin_token := Some "admin"%string;
     env_signing_secret := Some "signing"%string; GROUNDLANE_MODE := None; env_store_bound := true |}.

Definition store : state := {| rows := []; unavailable := false; getByIdCalls := 0; scanCalls := 0 |}.

Definition mcp_request (authorization : string) : Request :=
  {| rq_url := "/mcp"; rq_method := "POST";
     rq_headers := [("authorization", authorization); ("x-groundlane-principal", "root")]%string;
     rq_body := "" |}.
End WorkerDemo.

Import WorkerDemo.

Lemma admin_bearer_stays_out_witness :
  ∃ requestId s, handleWorkerRequest (WorkerDemo.mcp_request "Bearer admin") WorkerDemo.env
                   (Build_Desk WorkerDemo.store [] [] 0) =
                 (Ok (admin_forbidden requestId), with_backend (Build_Desk WorkerDemo.store [] [] 0) s).
Proof.
  destruct (admin_bearer_stays_out (WorkerDemo.mcp_request "Bearer admin") WorkerDemo.env
              (Build_Desk WorkerDemo.store [] [] 0)) as (u & s & _ & Hrun); [by vm_compute..|].
  exists u, s. exact Hrun.
Defined.

(** A request with another bearer ends at the provider, with nothing changed. *)
Example demo_refused : ∃ resp,
  handleWorkerRequest (WorkerDemo.mcp_request "Bearer nope") WorkerDemo.env (Build_Desk WorkerDemo.store [] [] 0) =
    (Ok resp, Build_Desk WorkerDemo.store [] [] 0) ∧ rs_status resp = 401%Z.
Proof. eexists. split; vm_compute; reflexivity. Qed.

Lemma container_sees_the_principal_witness :
  ∃ rq, (forward (WorkerDemo.mcp_request "Bearer legacy-token") WorkerDemo.env "id" createStaticPrincipal
           "static:legacy" None WorkerDemo.store).1 =
        (fetch_container (WorkerDemo.mcp_request "Bearer legacy-token") rq "id" WorkerDemo.store).1 ∧
    verifyContainerAuth rq worker_internal_context
      (container_options WorkerDemo.env "POST" "/mcp") 2000 =
    Accepted "internal_context" (principal_json createStaticPrincipal) (JStr "static:legacy").
Proof.
  destruct (container_sees_the_principal (WorkerDemo.mcp_request "Bearer legacy-token") WorkerDemo.env "id"
              createStaticPrincipal "static:legacy" "signing" WorkerDemo.store) as (rq & Hrun & _ & Hok).
  - done.
  - done.
  - split_and!; [by cbn; lia|by cbn; lia|by repeat constructor|done|done].
  - exists rq. split; [by rewrite Hrun|]. apply Hok. split; by vm_compute.
Defined.
