(* ===== verification/DurableMcpTasks.v ===== *)
(** * The durable MCP task runtime

    [src/core/durable-mcp-tasks.ts] with the types of [src/core/mcp-tasks.ts]:
    tasks a provider works on for a caller, as JSON records of the durable
    store.  Every operation is a computation on the state behind the store and
    the provider, call by call: other workers may act between any two calls,
    and a call may fail.  Calls of the provider that must not be repeated go
    through the journal of durable effects.

    The numbers in a record are integers, and properties a record may have
    beyond those of a task are not kept; the runtime writes none. *)

From S2P Require Import Prelude Interference JsString JsMap Digest Json DurableStore.
From S2P Require DurableEffects AsyncContract AsyncJobs.

#[local] Existing Instance DurableEffects.DurableEffectStatus_eq_dec.

Abbreviation AsyncJobCaller := AsyncJobs.AsyncJobCaller.
Abbreviation ownerId := AsyncJobs.c_ownerId.
Abbreviation credentialBinding := AsyncJobs.c_credentialBinding.

(** ** Types of [mcp-tasks.ts] *)

Definition DEFAULT_MCP_TASK_TTL_MS : Z := 3600000.
Definition DEFAULT_MCP_TASK_POLL_INTERVAL_MS : Z := 5000.

Record McpTaskBase := {
  mt_taskId : string;
  mt_createdAt : date_string;
  mt_lastUpdatedAt : date_string;
  mt_ttlMs : Z;
  mt_pollIntervalMs : Z
}.

(** A failed task's [statusMessage] is the message of its error. *)
Inductive DetailedMcpTask :=
  | TaskWorking (base : McpTaskBase)
  | TaskInputRequired (base : McpTaskBase) (inputRequests : list (string * js_value))
  | TaskCompleted (base : McpTaskBase) (result : js_value)
  | TaskFailed (base : McpTaskBase) (code : Z) (message : string)
  | TaskCancelled (base : McpTaskBase).

Inductive PollStatus := poll_working | poll_input_required | poll_completed | poll_failed.

(** An absent property is [None]. *)
Record AsyncTaskPollOutcome := {
  oc_status : PollStatus;
  oc_result : option js_value;
  oc_inputRequests : option (list (string * js_value));
  oc_error : option string;
  oc_billing : option js_value
}.

Record AsyncTaskProviderPort (S : Type) := {
  pv_id : string;
  pv_parseInput : js_value → result js_value;
  pv_create : js_value → AbortSignal S → M S string;
  pv_poll : string → js_value → AbortSignal S → M S AsyncTaskPollOutcome;
  pv_update : option (string → list (string * js_value) → AbortSignal S → M S unit);
  pv_cancel : option (string → AbortSignal S →
                      M S (option AsyncContract.ProviderCancelAcknowledgment))
}.
Arguments pv_id {S} _.
Arguments pv_parseInput {S} _ _.
Arguments pv_create {S} _ _ _.
Arguments pv_poll {S} _ _ _ _.
Arguments pv_update {S} _.
Arguments pv_cancel {S} _.

(** [so_now] is the time given, or the clock's. *)
Record StartMcpTaskOptions := {
  so_ttlMs : option number;
  so_idempotencyKey : option string;
  so_now : number
}.

(** [reported] says whether there are units. *)
Record McpTaskOperationalDetails := {
  td_task : DetailedMcpTask;
  td_providerId : string;
  td_units : option (Z * Z);
  td_callerStoppedWaiting : bool;
  td_groundlanePollingCancelled : bool;
  td_upstreamCancelRequested : bool;
  td_upstreamCancelled : bool
}.

(** ** Stored states *)

Definition SCHEMA_VERSION : string := "1".
Definition TASK_KEY_PREFIX : string := "mcp-task:".
Definition MAX_ENCODED_STATE_BYTES : Z := 48 * 1024.
Definition MAX_IDENTITY_CHARS : Z := 256.

Inductive DurableTaskStatus := creating | working | input_required | completed | failed | cancelled.

#[export] Instance DurableTaskStatus_eq_dec : EqDecision DurableTaskStatus.
Proof. solve_decision. Defined.

Definition TERMINAL (st : DurableTaskStatus) : bool :=
  match st with completed | failed | cancelled => true | _ => false end.

Record DurableTaskState := {
  tk_taskId : string;
  tk_ownerId : string;
  tk_credentialBinding : string;
  tk_providerId : string;
  tk_providerTaskId : option string;
  tk_operationInput : js_value;
  tk_idempotencyKey : option string;
  tk_status : DurableTaskStatus;
  tk_result : option js_value;
  tk_inputRequests : list (string * js_value);
  tk_usedInputKeys : list string;
  tk_sanitizedError : option string;
  tk_createdAt : Z;
  tk_updatedAt : Z;
  tk_expiresAt : Z;
  tk_ttlMs : Z;
  tk_pollIntervalMs : Z;
  tk_nextPollAt : Z;
  tk_billing : option js_value;
  tk_callerCancelled : bool;
  tk_groundlanePollingCancelled : bool;
  tk_upstreamCancelRequested : bool;
  tk_upstreamCancelled : bool
}.

#[export] Instance DurableTaskState_updatable : Updatable DurableTaskState :=
  {| rebuild := λ t, Build_DurableTaskState (tk_taskId t) (tk_ownerId t) (tk_credentialBinding t)
       (tk_providerId t) (tk_providerTaskId t) (tk_operationInput t) (tk_idempotencyKey t)
       (tk_status t) (tk_result t) (tk_inputRequests t) (tk_usedInputKeys t) (tk_sanitizedError t)
       (tk_createdAt t) (tk_updatedAt t) (tk_expiresAt t) (tk_ttlMs t) (tk_pollIntervalMs t)
       (tk_nextPollAt t) (tk_billing t) (tk_callerCancelled t) (tk_groundlanePollingCancelled t)
       (tk_upstreamCancelRequested t) (tk_upstreamCancelled t) |}.

(** ** Errors, checks and keys *)

Definition taskErrorOf (code : ErrorCode) (message : string) : thrown :=
  gerror code "mcp-tasks" message false.
Definition taskError : string → thrown := taskErrorOf INVALID_INPUT.

Definition uncertainUpdateError : thrown :=
  taskErrorOf UPSTREAM_ERROR "Provider task update outcome is uncertain".

Definition unavailable : thrown := taskError "Unknown or unavailable task".
Definition malformed : thrown := taskError "Durable task record is malformed".
Definition CREATION_UNCERTAIN : string := "Provider task creation outcome is uncertain".

Definition assertIdentity (v field : string) : result unit :=
  throw_if ((str_length v =? 0)%Z || (MAX_IDENTITY_CHARS <? str_length v)%Z)
    (taskError (field +:+ " must be non-empty within " +:+ show MAX_IDENTITY_CHARS +:+ " characters")).

Definition validateTime (nowMs : number) : result unit :=
  throw_if (negb (isSafeInteger nowMs) || num_ltb nowMs (int 0)) (taskError "Task timestamp is invalid").

Definition taskKey (taskId : string) : string := TASK_KEY_PREFIX +:+ taskId.

Definition NUL : string := unchars [ascii_of_nat 0].

Section digests.
Context `{!Sha256Api}.

Definition idempotencyRecordKey (owner binding idempotencyKey : string) : string :=
  "mcp-task-idempotency:" +:+
  sha256 (utf8 (owner +:+ NUL +:+ binding +:+ NUL +:+ idempotencyKey)).

(** [undefined] has no JSON text to hash. *)
Definition inputFingerprint (input : js_value) : result string :=
  match JSON_stringify input with
  | Some text => Ok (sha256 (utf8 text))
  | None => Throw (TError "The data argument must be of type string")
  end.

Definition object_fingerprint (fields : list (string * js_value)) : string :=
  sha256 (utf8 (unchars (json_text (JObj fields)))).
End digests.

(** ** Encoding and decoding *)

Definition status_name (st : DurableTaskStatus) : string :=
  match st with
  | creating => "creating" | working => "working" | input_required => "input_required"
  | completed => "completed" | failed => "failed" | cancelled => "cancelled"
  end.

Definition isStatus (v : js_value) : option DurableTaskStatus :=
  s ← as_string v;
  find (λ st, bool_decide (status_name st = s))
    [creating; working; input_required; completed; failed; cancelled].

Definition null_or (v : option js_value) : js_value := default JNull v.
Definition null_or_text (s : option string) : js_value := null_or (JStr <$> s).

Definition task_json (t : DurableTaskState) : js_value :=
  JObj [("schemaVersion", JStr SCHEMA_VERSION); ("taskId", JStr (tk_taskId t));
        ("ownerId", JStr (tk_ownerId t)); ("credentialBinding", JStr (tk_credentialBinding t));
        ("providerId", JStr (tk_providerId t)); ("providerTaskId", null_or_text (tk_providerTaskId t));
        ("operationInput", tk_operationInput t);
        ("idempotencyKey", null_or_text (tk_idempotencyKey t));
        ("status", JStr (status_name (tk_status t))); ("result", null_or (tk_result t));
        ("inputRequests", JObj (tk_inputRequests t));
        ("usedInputKeys", JArr (JStr <$> tk_usedInputKeys t));
        ("sanitizedError", null_or_text (tk_sanitizedError t));
        ("createdAt", JNum (tk_createdAt t)); ("updatedAt", JNum (tk_updatedAt t));
        ("expiresAt", JNum (tk_expiresAt t)); ("ttlMs", JNum (tk_ttlMs t));
        ("pollIntervalMs", JNum (tk_pollIntervalMs t)); ("nextPollAt", JNum (tk_nextPollAt t));
        ("billing", null_or (tk_billing t)); ("callerCancelled", JBool (tk_callerCancelled t));
        ("groundlanePollingCancelled", JBool (tk_groundlanePollingCancelled t));
        ("upstreamCancelRequested", JBool (tk_upstreamCancelRequested t));
        ("upstreamCancelled", JBool (tk_upstreamCancelled t))]%string.

Definition encode (t : DurableTaskState) : result string :=
  let text := unchars (json_text (task_json t)) in
  throw_if (MAX_ENCODED_STATE_BYTES <? byteLength (utf8 text))%Z
    (taskError "Durable task metadata exceeds 48 KiB; store large output as an ArtifactRef");;
  Ok text.

(** [v === null || isObject(v)] *)
Definition null_or_object (v : js_value) : option (option js_value) :=
  match v with JNull => Some None | JObj _ => Some (Some v) | _ => None end.

Definition as_fields (v : js_value) : option (list (string * js_value)) :=
  match v with JObj fields => Some fields | _ => None end.

Definition integer_units (v : js_value) : bool :=
  match prop v "inputUnits", prop v "outputUnits" with JNum _, JNum _ => true | _, _ => false end.

Definition billing_of_json (v : js_value) : option (option js_value) :=
  b ← null_or_object v;
  match b with Some u => if integer_units u then Some b else None | None => Some None end.

Definition task_of_json (v : js_value) : option DurableTaskState :=
  version ← as_string (prop v "schemaVersion"); _ ← guard (version = SCHEMA_VERSION);
  id ← as_string (prop v "taskId"); o ← as_string (prop v "ownerId");
  cb ← as_string (prop v "credentialBinding"); pid ← as_string (prop v "providerId");
  ptid ← as_null_or_string (prop v "providerTaskId");
  ik ← as_null_or_string (prop v "idempotencyKey"); st ← isStatus (prop v "status");
  res ← null_or_object (prop v "result"); reqs ← as_fields (prop v "inputRequests");
  used ← as_strings (prop v "usedInputKeys"); err ← as_null_or_string (prop v "sanitizedError");
  c ← as_number (prop v "createdAt"); u ← as_number (prop v "updatedAt");
  e ← as_number (prop v "expiresAt"); ttl ← as_number (prop v "ttlMs");
  pi ← as_number (prop v "pollIntervalMs"); np ← as_number (prop v "nextPollAt");
  b ← billing_of_json (prop v "billing"); cc ← as_boolean (prop v "callerCancelled");
  gp ← as_boolean (prop v "groundlanePollingCancelled");
  ucr ← as_boolean (prop v "upstreamCancelRequested");
  uc ← as_boolean (prop v "upstreamCancelled");
  _ ← guard (has_own v "operationInput" = true);
  Some {| tk_taskId := id; tk_ownerId := o; tk_credentialBinding := cb; tk_providerId := pid;
          tk_providerTaskId := ptid; tk_operationInput := prop v "operationInput";
          tk_idempotencyKey := ik; tk_status := st; tk_result := res; tk_inputRequests := reqs;
          tk_usedInputKeys := used; tk_sanitizedError := err; tk_createdAt := c;
          tk_updatedAt := u; tk_expiresAt := e; tk_ttlMs := ttl; tk_pollIntervalMs := pi;
          tk_nextPollAt := np; tk_billing := b; tk_callerCancelled := cc;
          tk_groundlanePollingCancelled := gp; tk_upstreamCancelRequested := ucr;
          tk_upstreamCancelled := uc |}.

Definition decode (record : DurableRecord) : result (DurableTaskState * Z) :=
  match JSON_parse (value record) with
  | Throw _ => Throw malformed
  | Ok v =>
      match (if isObject v then task_of_json v else None) with
      | None => Throw malformed
      | Some t =>
          assertIdentity (tk_taskId t) "taskId";;
          assertIdentity (tk_ownerId t) "ownerId";;
          assertIdentity (tk_credentialBinding t) "credentialBinding";;
          Ok (t, revision record)
      end
  end.

(** One answer for an unknown task and for another caller's. *)
Definition assertCaller (t : DurableTaskState) (caller : AsyncJobCaller) : result unit :=
  throw_if (negb (bool_decide (tk_ownerId t = ownerId caller)) ||
            negb (bool_decide (tk_credentialBinding t = credentialBinding caller))) unavailable.

Definition toDetailed (t : DurableTaskState) : result DetailedMcpTask :=
  c ← toISOString (new_Date (int (tk_createdAt t)));
  u ← toISOString (new_Date (int (tk_updatedAt t)));
  let base := {| mt_taskId := tk_taskId t; mt_createdAt := c; mt_lastUpdatedAt := u;
                 mt_ttlMs := tk_ttlMs t; mt_pollIntervalMs := tk_pollIntervalMs t |} in
  Ok (match tk_status t with
      | completed => TaskCompleted base (default (JObj []) (tk_result t))
      | failed => TaskFailed base (-32603) (default "Task execution failed"%string (tk_sanitizedError t))
      | cancelled => TaskCancelled base
      | input_required => TaskInputRequired base (tk_inputRequests t)
      | creating | working => TaskWorking base
      end).

(** ** [DurableMcpTaskRuntime] *)

Record DurableMcpTaskRuntime (S : Type) := {
  provider : AsyncTaskProviderPort S;
  pollIntervalMs : Z
}.
Arguments provider {S} _.
Arguments pollIntervalMs {S} _.

Definition new_DurableMcpTaskRuntime {S} (p : AsyncTaskProviderPort S) (interval : option number)
    : result (DurableMcpTaskRuntime S) :=
  let interval := default (int DEFAULT_MCP_TASK_POLL_INTERVAL_MS) interval in
  throw_if (negb (isInteger interval) || num_ltb interval (int 5000) || num_ltb (int 60000) interval)
    (taskError "pollIntervalMs must be 5000..60000");;
  Ok {| provider := p; pollIntervalMs := to_Z interval |}.

(** [effectKind]s of the journal. *)
Definition create_effect (taskId : string) : DurableEffects.EffectIdentity :=
  {| DurableEffects.id_jobId := taskId;
     DurableEffects.id_kind := DurableEffects.provider_task_create;
     DurableEffects.id_operationKey := "initial" |}.
Definition update_effect (taskId operationKey : string) : DurableEffects.EffectIdentity :=
  {| DurableEffects.id_jobId := taskId;
     DurableEffects.id_kind := DurableEffects.provider_task_update;
     DurableEffects.id_operationKey := operationKey |}.
Definition cancel_effect (taskId : string) : DurableEffects.EffectIdentity :=
  {| DurableEffects.id_jobId := taskId;
     DurableEffects.id_kind := DurableEffects.provider_task_cancel;
     DurableEffects.id_operationKey := "cancel" |}.

Definition created_record (r : DurableCreateResult) : DurableRecord :=
  match r with Created record | Exists record => record end.

Section runtime.
Context {S : Type} `{!Sha256Api} `{!DurableRecordStorePort S} (rt : DurableMcpTaskRuntime S)
  (randomUUID : M S string).

Definition write (t : DurableTaskState) (nowMs : Z) : result DurableRecordUpdate :=
  text ← encode t;
  Ok {| upd_value := text; upd_nowMs := int nowMs; upd_expiresAt := Some (int (tk_expiresAt t)) |}.

Definition cas_task (taskId : string) (rev : Z) (next : DurableTaskState) (nowMs : Z)
    : M S DurableCasResult :=
  u ← lift (write next nowMs);
  ds_compareAndSwap (taskKey taskId) rev u.

Definition read (taskId : string) (caller : AsyncJobCaller) (nowMs : number)
    : M S (DurableTaskState * Z) :=
  lift (assertIdentity taskId "taskId");;
  lift (validateTime nowMs);;
  found ← ds_get (taskKey taskId);
  match found with
  | None => throw unavailable
  | Some record =>
      '(t, rev) ← lift (decode record);
      lift (assertCaller t caller);;
      lift (throw_if (tk_expiresAt t <=? to_Z nowMs)%Z unavailable);;
      mret (t, rev)
  end.

(** The answer after a lost race. *)
Definition read_detailed (taskId : string) (caller : AsyncJobCaller) (nowMs : Z)
    : M S DetailedMcpTask :=
  '(t, _) ← read taskId caller (int nowMs);
  lift (toDetailed t).

Definition decoded_detailed (record : DurableRecord) : M S DetailedMcpTask :=
  '(t, _) ← lift (decode record);
  lift (toDetailed t).

(** [cause] is what was caught, if [failUncertain] runs in a [catch]. *)
Definition failUncertain (current : DurableTaskState * Z) (caller : AsyncJobCaller) (nowMs : Z)
    (cause : option thrown) : M S DetailedMcpTask :=
  let '(t, rev) := current in
  saved ← cas_task (tk_taskId t) rev
    (t <| tk_status := failed |> <| tk_sanitizedError := Some CREATION_UNCERTAIN |>
       <| tk_updatedAt := nowMs |>) nowMs;
  match saved with
  | Updated record => decoded_detailed record
  | Missing =>
      if bool_decide (is_Some cause) then throw (taskError CREATION_UNCERTAIN)
      else read_detailed (tk_taskId t) caller nowMs
  | Conflict _ => read_detailed (tk_taskId t) caller nowMs
  end.

Definition markEffectUncertain (taskId : string) (rev nowMs : Z) : M S unit :=
  attempt (DurableEffects.transition (create_effect taskId) rev DurableEffects.uncertain nowMs None);;
  mret tt.

(** *** Starting *)

Definition initial_task (taskId : string) (input : js_value) (caller : AsyncJobCaller)
    (idempotencyKey : option string) (nowMs ttlMs : Z) : DurableTaskState :=
  {| tk_taskId := taskId; tk_ownerId := ownerId caller;
     tk_credentialBinding := credentialBinding caller; tk_providerId := pv_id (provider rt);
     tk_providerTaskId := None; tk_operationInput := input; tk_idempotencyKey := idempotencyKey;
     tk_status := creating; tk_result := None; tk_inputRequests := []; tk_usedInputKeys := [];
     tk_sanitizedError := None; tk_createdAt := nowMs; tk_updatedAt := nowMs;
     tk_expiresAt := (nowMs + ttlMs)%Z; tk_ttlMs := ttlMs; tk_pollIntervalMs := pollIntervalMs rt;
     tk_nextPollAt := nowMs; tk_billing := None; tk_callerCancelled := false;
     tk_groundlanePollingCancelled := false; tk_upstreamCancelRequested := false;
     tk_upstreamCancelled := false |}.

(** The caller, the lifetime, the key and the time; then the lifetime. *)
Definition check_start (caller : AsyncJobCaller) (options : StartMcpTaskOptions) : result Z :=
  assertIdentity (ownerId caller) "ownerId";;
  assertIdentity (credentialBinding caller) "credentialBinding";;
  let ttlMs := default (int DEFAULT_MCP_TASK_TTL_MS) (so_ttlMs options) in
  throw_if (negb (isInteger ttlMs) || num_ltb ttlMs (int 60000) || num_ltb (int 86400000) ttlMs)
    (taskError "ttlMs must be 60000..86400000");;
  match so_idempotencyKey options with
  | Some key => assertIdentity key "idempotencyKey"
  | None => Ok tt
  end;;
  validateTime (so_now options);;
  Ok (to_Z ttlMs).

Definition key_taken : thrown :=
  taskError "Idempotency key is already bound to a different task request".

Definition index_json (taskId fingerprint : string) : js_value :=
  JObj [("taskId", JStr taskId); ("fingerprint", JStr fingerprint)]%string.

(** The task and the request an index record names. *)
Definition decode_index (record : DurableRecord) : result (string * string) :=
  v ← JSON_parse (value record);
  match as_string (prop v "taskId"), as_string (prop v "fingerprint") with
  | Some id, Some fp => Ok (id, fp)
  | _, _ => Throw (taskError "Durable task idempotency record is malformed")
  end.

(** The task of an idempotency key: the first to use it chose the task. *)
Definition bind_task (input : js_value) (caller : AsyncJobCaller) (key fresh : string)
    (nowMs ttlMs : Z) : M S string :=
  fingerprint ← lift (inputFingerprint input);
  index ← ds_createIfAbsent
    {| new_key := idempotencyRecordKey (ownerId caller) (credentialBinding caller) key;
       new_update := {| upd_value := unchars (json_text (index_json fresh fingerprint));
                        upd_nowMs := int nowMs; upd_expiresAt := Some (int (nowMs + ttlMs)) |} |};
  '(taskId, bound) ← lift (decode_index (created_record index));
  lift (throw_if (negb (bool_decide (bound = fingerprint))) key_taken);;
  mret taskId.

(** What starting has come to before the provider is asked: an answer, or the
    record with the revision of the claim that allows one call. *)
Inductive start_outcome :=
  | Answered (d : DetailedMcpTask)
  | Launch (taskId : string) (current : DurableTaskState * Z) (claimRevision : Z).

Definition same_request (t initial : DurableTaskState) : bool :=
  bool_decide (tk_idempotencyKey t = tk_idempotencyKey initial) &&
  bool_decide (JSON_stringify (tk_operationInput t) = JSON_stringify (tk_operationInput initial)).

(** The task's record, created or found, then the claim of its creation. *)
Definition enter_task (initial : DurableTaskState) (caller : AsyncJobCaller) (nowMs : Z)
    : M S start_outcome :=
  u ← lift (write initial nowMs);
  created ← ds_createIfAbsent {| new_key := taskKey (tk_taskId initial); new_update := u |};
  '(t, rev) ← lift (decode (created_record created));
  lift (assertCaller t caller);;
  lift (throw_if (negb (same_request t initial)) key_taken);;
  match created with
  | Exists _ =>
      if bool_decide (tk_status t = creating)
      then d ← failUncertain (t, rev) caller nowMs None; mret (Answered d)
      else d ← lift (toDetailed t); mret (Answered d)
  | Created _ =>
      claim ← DurableEffects.claim (create_effect (tk_taskId initial)) nowMs;
      match claim with
      | DurableEffects.Claimed _ claimRevision => mret (Launch (tk_taskId initial) (t, rev) claimRevision)
      | DurableEffects.Existing _ _ =>
          d ← failUncertain (t, rev) caller nowMs None; mret (Answered d)
      end
  end.

Definition enter (input : js_value) (caller : AsyncJobCaller) (options : StartMcpTaskOptions)
    : M S start_outcome :=
  ttlMs ← lift (check_start caller options);
  let nowMs := to_Z (so_now options) in
  uuid ← randomUUID;
  let fresh := "ajob-" +:+ uuid in
  taskId ← (match so_idempotencyKey options with
            | Some key => bind_task input caller key fresh nowMs ttlMs
            | None => mret fresh
            end : M S string);
  enter_task (initial_task taskId input caller (so_idempotencyKey options) nowMs ttlMs) caller nowMs.

(** The catch of the creation: the record as last read is marked failed. *)
Definition creation_failed (current : DurableTaskState * Z) (caller : AsyncJobCaller) (taskId : string)
    (effectRevision nowMs : Z) (e : thrown) : M S DetailedMcpTask :=
  markEffectUncertain taskId effectRevision nowMs;;
  failUncertain current caller nowMs (Some e).

(** The provider is asked, and its handle stored. *)
Definition create_upstream (current : DurableTaskState * Z) (input : js_value) (signal : AbortSignal S)
    (taskId : string) (nowMs : Z) : M S (DurableTaskState * Z) :=
  let '(t, rev) := current in
  providerTaskId ← pv_create (provider rt) input signal;
  saved ← cas_task taskId rev
    (t <| tk_providerTaskId := Some providerTaskId |> <| tk_status := working |>
       <| tk_updatedAt := nowMs |> <| tk_nextPollAt := nowMs |>) nowMs;
  match saved with
  | Updated record => lift (decode record)
  | _ => throw (taskError CREATION_UNCERTAIN)
  end.

Definition launch (taskId : string) (current : DurableTaskState * Z) (claimRevision : Z)
    (input : js_value) (caller : AsyncJobCaller) (signal : AbortSignal S) (nowMs : Z)
    : M S DetailedMcpTask :=
  '(_, effectRevision) ← DurableEffects.transition (create_effect taskId) claimRevision
                           DurableEffects.inflight nowMs None;
  stored ← attempt (create_upstream current input signal taskId nowMs);
  match stored with
  | inr e => creation_failed current caller taskId effectRevision nowMs e
  | inl current' =>
      settled ← attempt (
        DurableEffects.transition (create_effect taskId) effectRevision DurableEffects.succeeded nowMs
          (Some "provider-handle-persisted"%string);;
        lift (toDetailed current'.1));
      match settled with
      | inl d => mret d
      | inr e => creation_failed current' caller taskId effectRevision nowMs e
      end
  end.

Definition start (input : js_value) (caller : AsyncJobCaller) (signal : AbortSignal S)
    (options : StartMcpTaskOptions) : M S DetailedMcpTask :=
  outcome ← enter input caller options;
  match outcome with
  | Answered d => mret d
  | Launch taskId current claimRevision =>
      launch taskId current claimRevision input caller signal (to_Z (so_now options))
  end.

(** *** Reading a task, which polls the provider *)

Definition persistPollOutcome (current : DurableTaskState * Z) (outcome : AsyncTaskPollOutcome)
    (caller : AsyncJobCaller) (nowMs : Z) : M S DetailedMcpTask :=
  let '(t, rev) := current in
  let next :=
    match oc_status outcome with
    | poll_completed =>
        t <| tk_status := completed |> <| tk_result := Some (default (JObj []) (oc_result outcome)) |>
          <| tk_billing := oc_billing outcome |>
    | poll_failed =>
        t <| tk_status := failed |>
          <| tk_sanitizedError := Some (AsyncContract.sanitizeUpstreamError
               (TString (default "The provider task failed"%string (oc_error outcome)))) |>
    | poll_input_required =>
        t <| tk_status := input_required |>
          <| tk_inputRequests := filter (λ kv, kv.1 ∉ tk_usedInputKeys t)
               (default [] (oc_inputRequests outcome)) |>
    | poll_working => t <| tk_status := working |>
    end <| tk_updatedAt := nowMs |> in
  saved ← cas_task (tk_taskId t) rev next nowMs;
  match saved with
  | Updated record => decoded_detailed record
  | _ => read_detailed (tk_taskId t) caller nowMs
  end.

Definition failed_outcome (e : thrown) : AsyncTaskPollOutcome :=
  {| oc_status := poll_failed; oc_result := None; oc_inputRequests := None;
     oc_error := Some (AsyncContract.sanitizeUpstreamError e); oc_billing := None |}.

(** The poll itself, under a lease: the failure of an aborted call is passed
    on, any other fails the task. *)
Definition poll_leased (lease : DurableTaskState * Z) (caller : AsyncJobCaller)
    (signal : AbortSignal S) (nowMs : Z) : M S DetailedMcpTask :=
  outcome ← attempt (
    input ← lift (pv_parseInput (provider rt) (tk_operationInput lease.1));
    pv_poll (provider rt) (default ""%string (tk_providerTaskId lease.1)) input signal);
  match outcome with
  | inl o => persistPollOutcome lease o caller nowMs
  | inr e =>
      aborted ← gets signal;
      match aborted with
      | true => throw e
      | false => persistPollOutcome lease (failed_outcome e) caller nowMs
      end
  end.

(** The next poll is put off before the provider is asked, so that of the
    concurrent readers one polls. *)
Definition get_task (taskId : string) (caller : AsyncJobCaller) (signal : AbortSignal S)
    (now : number) : M S DetailedMcpTask :=
  '(t, rev) ← read taskId caller now;
  let nowMs := to_Z now in
  if TERMINAL (tk_status t) || bool_decide (tk_status t = input_required) ||
     (nowMs <? tk_nextPollAt t)%Z then lift (toDetailed t)
  else if bool_decide (tk_status t = creating) || bool_decide (tk_providerTaskId t = None)
  then failUncertain (t, rev) caller nowMs None
  else
    lease ← cas_task taskId rev
      (t <| tk_updatedAt := nowMs |> <| tk_nextPollAt := (nowMs + tk_pollIntervalMs t)%Z |>) nowMs;
    match lease with
    | Updated record => leased ← lift (decode record); poll_leased leased caller signal nowMs
    | _ => read_detailed taskId caller nowMs
    end.

(** *** Answering a task's input requests *)

(** The requests of a task at one time, as the key of one update. *)
Definition update_key (t : DurableTaskState) : string :=
  "input-" +:+ object_fingerprint
    [("inputRequests", JObj (tk_inputRequests t));
     ("usedInputKeys", JArr (JStr <$> tk_usedInputKeys t))]%string.

Definition accepted_responses (t : DurableTaskState) (responses : list (string * js_value))
    : list (string * js_value) :=
  filter (λ kv, map_has kv.1 (tk_inputRequests t) = true ∧ kv.1 ∉ tk_usedInputKeys t) responses.

Definition update_conflict : thrown := taskError "Task update conflicted; retry with fresh state".

(** The provider is given the responses once: an update already claimed counts
    only if it succeeded with the same responses. *)
Definition send_update (taskId operationKey receipt providerTaskId : string)
    (send : string → list (string * js_value) → AbortSignal S → M S unit)
    (accepted : list (string * js_value)) (signal : AbortSignal S) (nowMs : Z) : M S unit :=
  let identity := update_effect taskId operationKey in
  claim ← DurableEffects.claim identity nowMs;
  match claim return M S unit with
  | DurableEffects.Existing effect _ =>
      lift (throw_if (negb (bool_decide (DurableEffects.status effect = DurableEffects.succeeded)) ||
                      negb (bool_decide (DurableEffects.receipt effect = Some receipt)))
        uncertainUpdateError)
  | DurableEffects.Claimed _ claimRevision =>
      '(_, effectRevision) ← DurableEffects.transition identity claimRevision
                               DurableEffects.inflight nowMs None;
      sent ← attempt (send providerTaskId accepted signal);
      match sent with
      | inr _ =>
          attempt (DurableEffects.transition identity effectRevision DurableEffects.uncertain nowMs None);;
          throw uncertainUpdateError
      | inl _ =>
          settled ← attempt (DurableEffects.transition identity effectRevision
                               DurableEffects.succeeded nowMs (Some receipt));
          match settled with inl _ => mret tt | inr _ => throw uncertainUpdateError end
      end
  end.

Definition answered_task (t : DurableTaskState) (acceptedKeys : list string) (nowMs : Z)
    : DurableTaskState :=
  let remaining := filter (λ kv : string * js_value, kv.1 ∉ acceptedKeys) (tk_inputRequests t) in
  t <| tk_status := if bool_decide (remaining = []) then working else input_required |>
    <| tk_inputRequests := remaining |> <| tk_usedInputKeys := tk_usedInputKeys t ++ acceptedKeys |>
    <| tk_updatedAt := nowMs |> <| tk_nextPollAt := nowMs |>.

(** The loop that records the keys as used, while the requests stay. *)
Fixpoint record_answers (attempts : nat) (taskId operationKey : string) (acceptedKeys : list string)
    (current : DurableTaskState * Z) (caller : AsyncJobCaller) (nowMs : Z) : M S unit :=
  match attempts with
  | O => throw update_conflict
  | Datatypes.S attempts' =>
      let '(t, rev) := current in
      saved ← cas_task taskId rev (answered_task t acceptedKeys nowMs) nowMs;
      match saved with
      | Updated _ => mret tt
      | Missing => throw unavailable
      | Conflict record =>
          '(t', rev') ← lift (decode record);
          lift (assertCaller t' caller);;
          if bool_decide (Forall (λ k, k ∈ tk_usedInputKeys t') acceptedKeys) then mret tt
          else if negb (bool_decide (tk_status t' = input_required)) ||
                  negb (bool_decide (update_key t' = operationKey)) then throw update_conflict
          else record_answers attempts' taskId operationKey acceptedKeys (t', rev') caller nowMs
      end
  end.

Definition update_task (taskId : string) (inputResponses : list (string * js_value))
    (caller : AsyncJobCaller) (signal : AbortSignal S) (now : number) : M S unit :=
  '(t, rev) ← read taskId caller now;
  let nowMs := to_Z now in
  lift (throw_if (negb (bool_decide (tk_status t = input_required)))
    (taskError "Task is not waiting for input"));;
  let accepted := accepted_responses t inputResponses in
  if bool_decide (accepted = []) then mret tt
  else
    match pv_update (provider rt), tk_providerTaskId t with
    | Some send, Some providerTaskId =>
        let operationKey := update_key t in
        let receipt := "response-" +:+ object_fingerprint accepted in
        send_update taskId operationKey receipt providerTaskId send accepted signal nowMs;;
        record_answers 4 taskId operationKey accepted.*1 (t, rev) caller nowMs
    | _, _ => throw (taskError "Provider task does not accept updates")
    end.

(** *** Cancelling *)

Definition acknowledged_task (t : DurableTaskState) (nowMs : Z) : DurableTaskState :=
  t <| tk_upstreamCancelled := true |> <| tk_updatedAt := nowMs |>.

Fixpoint mark_cancelled_from (attempts : nat) (taskId : string) (caller : AsyncJobCaller) (nowMs : Z)
    : M S unit :=
  match attempts with
  | O => throw (taskErrorOf UPSTREAM_ERROR "Task cancellation acknowledgment conflicted")
  | Datatypes.S attempts' =>
      '(t, rev) ← read taskId caller (int nowMs);
      if tk_upstreamCancelled t then mret tt
      else
        saved ← cas_task taskId rev (acknowledged_task t nowMs) nowMs;
        match saved with
        | Updated _ => mret tt
        | Missing => throw unavailable
        | Conflict _ => mark_cancelled_from attempts' taskId caller nowMs
        end
  end.

Definition markUpstreamCancelled : string → AsyncJobCaller → Z → M S unit := mark_cancelled_from 4.

(** The revision under which the provider may be asked to cancel, if it is
    this call's turn. *)
Definition claim_cancel (taskId : string) (caller : AsyncJobCaller) (nowMs : Z) : M S (option Z) :=
  claim ← DurableEffects.claim (cancel_effect taskId) nowMs;
  match claim with
  | DurableEffects.Claimed _ rev => mret (Some rev)
  | DurableEffects.Existing effect rev =>
      match DurableEffects.status effect with
      | DurableEffects.succeeded => markUpstreamCancelled taskId caller nowMs;; mret None
      | DurableEffects.uncertain =>
          retried ← DurableEffects.retry (cancel_effect taskId) rev nowMs;
          mret (match retried with
                | DurableEffects.Blocked _ _ => None
                | DurableEffects.Reclaimed _ rev' => Some rev'
                end)
      | _ => mret None
      end
  end.

Definition send_cancel (taskId providerTaskId : string) (claimedRevision : Z)
    (send : string → AbortSignal S → M S (option AsyncContract.ProviderCancelAcknowledgment))
    (caller : AsyncJobCaller) (signal : AbortSignal S) (nowMs : Z) : M S unit :=
  inflight ← attempt (DurableEffects.transition (cancel_effect taskId) claimedRevision
                        DurableEffects.inflight nowMs None);
  match inflight with
  | inr _ => mret tt
  | inl (_, effectRevision) =>
      asked ← attempt (send providerTaskId signal);
      match asked with
      | inl (Some _) =>
          settled ← attempt (DurableEffects.transition (cancel_effect taskId) effectRevision
                               DurableEffects.succeeded nowMs
                               (Some "provider-cancel-acknowledged"%string));
          match settled with
          | inl _ => markUpstreamCancelled taskId caller nowMs
          | inr _ => mret tt
          end
      | _ =>
          attempt (DurableEffects.transition (cancel_effect taskId) effectRevision
                     DurableEffects.uncertain nowMs None);;
          mret tt
      end
  end.

Definition cancelled_task (t : DurableTaskState) (nowMs : Z) : DurableTaskState :=
  t <| tk_status := cancelled |> <| tk_groundlanePollingCancelled := true |>
    <| tk_upstreamCancelRequested := true |> <| tk_updatedAt := nowMs |>.

(** The task as cancelled, or [None] after a lost race. *)
Definition cancel_record (taskId : string) (current : DurableTaskState * Z) (caller : AsyncJobCaller)
    (nowMs : Z) : M S (option DurableTaskState) :=
  let '(t, rev) := current in
  if bool_decide (tk_status t = cancelled) then mret (Some t)
  else
    lift (throw_if (TERMINAL (tk_status t)) (taskError "Task is already terminal"));;
    saved ← cas_task taskId rev (cancelled_task t nowMs) nowMs;
    match saved with
    | Missing => throw unavailable
    | Updated record | Conflict record =>
        '(t', _) ← lift (decode record);
        lift (assertCaller t' caller);;
        mret (if bool_decide (tk_status t' = cancelled) then Some t' else None)
    end.

Definition cancel (taskId : string) (caller : AsyncJobCaller) (signal : AbortSignal S) (now : number)
    : M S unit :=
  current ← read taskId caller now;
  let nowMs := to_Z now in
  cancelled ← cancel_record taskId current caller nowMs;
  match cancelled with
  | None => mret tt
  | Some t =>
      if tk_upstreamCancelled t then mret tt
      else
        match pv_cancel (provider rt), tk_providerTaskId t with
        | Some send, Some providerTaskId =>
            turn ← claim_cancel taskId caller nowMs;
            match turn with
            | Some rev => send_cancel taskId providerTaskId rev send caller signal nowMs
            | None => mret tt
            end
        | _, _ => mret tt
        end
  end.

(** The result of the write is not looked at. *)
Definition stopWaiting (taskId : string) (caller : AsyncJobCaller) (now : number) : M S unit :=
  '(t, rev) ← read taskId caller now;
  if tk_callerCancelled t then mret tt
  else
    cas_task taskId rev (t <| tk_callerCancelled := true |> <| tk_updatedAt := to_Z now |>) (to_Z now);;
    mret tt.

Definition reported_units (billing : option js_value) : option (Z * Z) :=
  b ← billing; i ← as_number (prop b "inputUnits"); o ← as_number (prop b "outputUnits"); Some (i, o).

Definition describe (taskId : string) (caller : AsyncJobCaller) (signal : AbortSignal S) (now : number)
    : M S McpTaskOperationalDetails :=
  task ← get_task taskId caller signal now;
  '(t, _) ← read taskId caller now;
  mret {| td_task := task; td_providerId := tk_providerId t;
          td_units := reported_units (tk_billing t);
          td_callerStoppedWaiting := tk_callerCancelled t;
          td_groundlanePollingCancelled := tk_groundlanePollingCancelled t;
          td_upstreamCancelRequested := tk_upstreamCancelRequested t;
          td_upstreamCancelled := tk_upstreamCancelled t |}.
End runtime.
