(* ===== verification/DurableMcpTasksSafety.v ===== *)
(** * Correctness of the durable MCP task runtime

    Under any interleaving with other workers of the runtime, and whatever
    calls fail: tasks only move along their state machine, an idempotency key
    stands for one task whose creation is asked of the provider once, and a
    caller learns nothing about the tasks of others. *)

From S2P Require Import Prelude Interference JsString JsMap Digest Json DurableStore DurableMcpTasks.
From S2P Require DurableEffects DurableEffectsSafety AsyncContract AsyncJobs.

#[local] Existing Instance DurableEffectsSafety.journal_evolves_preorder.

Abbreviation journal_evolves := DurableEffectsSafety.journal_evolves.
Abbreviation journal_ok := DurableEffectsSafety.journal_ok.

(** ** Records round-trip *)

Definition normal_fields (fields : list (string * js_value)) : list (string * js_value) :=
  flat_map (λ '(k, x), if is_undefined x then [] else [(k, json_normal x)]) fields.

(** A task as its record gives it back. *)
Definition normal_task (t : DurableTaskState) : DurableTaskState :=
  t <| tk_operationInput := json_normal (tk_operationInput t) |>
    <| tk_result := json_normal <$> tk_result t |>
    <| tk_inputRequests := normal_fields (tk_inputRequests t) |>
    <| tk_billing := json_normal <$> tk_billing t |>.

Definition object_ok (v : js_value) : Prop := isObject v = true ∧ json_ok v = true.

(** What the types of [DurableTaskState] say of a task. *)
Record task_ok (t : DurableTaskState) : Prop := {
  ok_ids : assertIdentity (tk_taskId t) "taskId" = Ok tt ∧ assertIdentity (tk_ownerId t) "ownerId" = Ok tt ∧
           assertIdentity (tk_credentialBinding t) "credentialBinding" = Ok tt;
  ok_input : is_undefined (tk_operationInput t) = false ∧ json_ok (tk_operationInput t) = true;
  ok_result v : tk_result t = Some v → object_ok v;
  ok_requests : json_ok (JObj (tk_inputRequests t)) = true;
  ok_billing v : tk_billing t = Some v → object_ok v ∧ integer_units v = true
}.

Lemma json_normal_undefined v : is_undefined v = false → json_normal v ≠ JUndefined.
Proof. by destruct v. Qed.

Lemma has_own_prop v name : prop v name ≠ JUndefined → has_own v name = true.
Proof.
  destruct v as [| | | | | |fields]; try done. cbn. unfold map_has. intros Hp.
  apply bool_decide_eq_true. intros Hn. by rewrite Hn in Hp.
Qed.

Lemma as_strings_normal l : as_strings (json_normal (JArr (JStr <$> l))) = Some l.
Proof. cbn. induction l as [|s l IH]; [done|]. cbn. cbn in IH. by rewrite IH. Qed.

Lemma null_or_object_normal o :
  (∀ v, o = Some v → object_ok v) →
  null_or_object (json_normal (null_or o)) = Some (json_normal <$> o).
Proof. destruct o as [v|]; [|done]. intros H. destruct (H v eq_refl) as [Ho _]. by destruct v. Qed.

Lemma integer_units_normal v :
  object_ok v → integer_units v = true → integer_units (json_normal v) = true.
Proof.
  destruct v as [| | | | | |fields]; intros [Ho Hk]; try done. cbn [json_ok] in Hk.
  apply andb_true_iff in Hk as [Hnd%bool_decide_eq_true _].
  unfold integer_units. rewrite !prop_normal by done. cbn [prop].
  destruct (map_get "inputUnits" fields) as [[]|], (map_get "outputUnits" fields) as [[]|]; done.
Qed.

Lemma billing_normal o :
  (∀ v, o = Some v → object_ok v ∧ integer_units v = true) →
  billing_of_json (json_normal (null_or o)) = Some (json_normal <$> o).
Proof.
  intros H. unfold billing_of_json. rewrite null_or_object_normal by (intros v Hv; by apply H).
  destruct o as [v|]; [|done]. cbn. destruct (H v eq_refl) as [Ho Hu]. by rewrite integer_units_normal.
Qed.

Lemma normal_text o : as_null_or_string (json_normal (null_or_text o)) = Some o.
Proof. by destruct o. Qed.

Lemma null_or_text_defined o : is_undefined (null_or_text o) = false.
Proof. by destruct o. Qed.

Lemma object_defined o : (∀ v, o = Some v → object_ok v) → is_undefined (null_or o) = false.
Proof. destruct o as [v|]; [|done]. intros H. destruct (H v eq_refl) as [Ho _]. by destruct v. Qed.

Lemma isStatus_name st : isStatus (JStr (status_name st)) = Some st.
Proof. by destruct st. Qed.

Lemma null_or_json_ok o : (∀ v, o = Some v → object_ok v) → json_ok (null_or o) = true.
Proof. destruct o as [v|]; [|done]. intros H. by destruct (H v eq_refl) as [_ ?]. Qed.

Lemma task_json_ok t :
  json_ok (tk_operationInput t) = true → (∀ v, tk_result t = Some v → object_ok v) →
  json_ok (JObj (tk_inputRequests t)) = true → (∀ v, tk_billing t = Some v → object_ok v) →
  json_ok (task_json t) = true.
Proof.
  intros Hi Hr Hq Hb. unfold task_json. cbn [json_ok]. apply andb_true_iff. split; [done|].
  cbn [forallb]. rewrite !null_or_json_ok by done.
  assert (Ht : ∀ o, json_ok (null_or_text o) = true) by (by intros []). rewrite !Ht, Hi.
  cbn [json_ok]. cbn [json_ok] in Hq. rewrite Hq. cbn [andb].
  assert (Hu : forallb json_ok (JStr <$> tk_usedInputKeys t) = true)
    by (induction (tk_usedInputKeys t); done). by rewrite Hu.
Qed.

Lemma prop_written t name v :
  prop (task_json t) name = v → is_undefined v = false →
  prop (json_normal (task_json t)) name = json_normal v.
Proof.
  intros Hv Hu. unfold task_json. rewrite prop_normal by (by apply (bool_decide_eq_true_1 _); vm_compute).
  change (default JUndefined (map_get name (match task_json t with JObj f => f | _ => [] end)) = v) in Hv.
  unfold task_json in Hv. destruct (map_get name _) as [w|]; cbn in Hv; subst; [by rewrite Hu|done].
Qed.

Lemma task_of_json_normal t :
  task_ok t → task_of_json (json_normal (task_json t)) = Some (normal_task t).
Proof.
  intros [_ [Hi _] Hr Hq Hb].
  pose proof (prop_written t) as Hp.
  unfold task_of_json. rewrite has_own_prop.
  2: { rewrite (Hp _ (tk_operationInput t)) by done. by apply json_normal_undefined. }
  rewrite (Hp "schemaVersion"%string (JStr SCHEMA_VERSION)), (Hp "taskId"%string (JStr (tk_taskId t))),
    (Hp "ownerId"%string (JStr (tk_ownerId t))),
    (Hp "credentialBinding"%string (JStr (tk_credentialBinding t))),
    (Hp "providerId"%string (JStr (tk_providerId t))),
    (Hp "providerTaskId"%string (null_or_text (tk_providerTaskId t))),
    (Hp "operationInput"%string (tk_operationInput t)),
    (Hp "idempotencyKey"%string (null_or_text (tk_idempotencyKey t))),
    (Hp "status"%string (JStr (status_name (tk_status t)))),
    (Hp "result"%string (null_or (tk_result t))),
    (Hp "inputRequests"%string (JObj (tk_inputRequests t))),
    (Hp "usedInputKeys"%string (JArr (JStr <$> tk_usedInputKeys t))),
    (Hp "sanitizedError"%string (null_or_text (tk_sanitizedError t))),
    (Hp "createdAt"%string (JNum (tk_createdAt t))), (Hp "updatedAt"%string (JNum (tk_updatedAt t))),
    (Hp "expiresAt"%string (JNum (tk_expiresAt t))), (Hp "ttlMs"%string (JNum (tk_ttlMs t))),
    (Hp "pollIntervalMs"%string (JNum (tk_pollIntervalMs t))),
    (Hp "nextPollAt"%string (JNum (tk_nextPollAt t))), (Hp "billing"%string (null_or (tk_billing t))),
    (Hp "callerCancelled"%string (JBool (tk_callerCancelled t))),
    (Hp "groundlanePollingCancelled"%string (JBool (tk_groundlanePollingCancelled t))),
    (Hp "upstreamCancelRequested"%string (JBool (tk_upstreamCancelRequested t))),
    (Hp "upstreamCancelled"%string (JBool (tk_upstreamCancelled t)))
    by first [done | apply null_or_text_defined | by apply object_defined
      | apply object_defined; intros v Hv; by apply Hb].
  rewrite !normal_text, as_strings_normal, null_or_object_normal, billing_normal by done.
  change (json_normal (JStr ?s)) with (JStr s). rewrite isStatus_name. by destruct t.
Qed.

Lemma encode_Ok t text : encode t = Ok text → text = unchars (json_text (task_json t)).
Proof.
  intros (_ & _ & He)%result_bind_Ok. revert He. generalize (unchars (json_text (task_json t))).
  by intros ? [= <-].
Qed.

(** What is written is read back, up to undefined parts of its data. *)
Lemma decode_written r t :
  task_ok t → encode t = Ok (value r) → decode r = Ok (normal_task t, revision r).
Proof.
  intros Hok Hv%encode_Ok. unfold decode. rewrite Hv.
  rewrite (JSON_roundtrip (task_json t))
    by (done || (destruct Hok as [_ [_ ?] ? ? Hb]; apply task_json_ok; [done..|intros v Hw; by apply Hb])).
  change (isObject (json_normal (task_json t))) with true. cbv iota.
  rewrite task_of_json_normal by done. destruct (ok_ids _ Hok) as (H1 & H2 & H3).
  change (tk_taskId (normal_task t)) with (tk_taskId t). rewrite H1. cbn.
  change (tk_ownerId (normal_task t)) with (tk_ownerId t). rewrite H2. cbn.
  change (tk_credentialBinding (normal_task t)) with (tk_credentialBinding t). by rewrite H3.
Qed.

(** Whatever is read back is the task that was written. *)
Lemma decode_fields r t t' rev :
  json_ok (task_json t) = true → encode t = Ok (value r) → decode r = Ok (t', rev) →
  (tk_taskId t', tk_status t', tk_providerTaskId t') = (tk_taskId t, tk_status t, tk_providerTaskId t).
Proof.
  intros Hok Hv%encode_Ok. unfold decode. rewrite Hv, (JSON_roundtrip (task_json t)) by done.
  destruct (if isObject _ then _ else _) as [t1|] eqn:Ht; [|done].
  intros (_ & _ & (_ & _ & (_ & _ & [= <- _])%result_bind_Ok)%result_bind_Ok)%result_bind_Ok.
  destruct (isObject _); [|done]. unfold task_of_json in Ht.
  rewrite (prop_written t "taskId" (JStr (tk_taskId t))),
    (prop_written t "status" (JStr (status_name (tk_status t)))),
    (prop_written t "providerTaskId" (null_or_text (tk_providerTaskId t))) in Ht
    by (done || apply null_or_text_defined).
  change (json_normal (JStr ?x)) with (JStr x) in Ht. rewrite isStatus_name, normal_text in Ht.
  repeat (apply bind_Some in Ht as (? & ? & Ht)). injection Ht as <-. cbn in *. congruence.
Qed.

Lemma decode_named r t t' rev :
  json_ok (task_json t) = true → encode t = Ok (value r) → decode r = Ok (t', rev) →
  tk_taskId t' = tk_taskId t.
Proof. intros Hok Hv Hd. by injection (decode_fields r t t' rev Hok Hv Hd). Qed.

(** A task that was read has no undefined parts. *)
Definition task_exact (t : DurableTaskState) : Prop := task_ok t ∧ normal_task t = t.

Lemma prop_exact v name : json_exact v = true → prop v name ≠ JUndefined → json_exact (prop v name) = true.
Proof.
  destruct v as [| | | | | |fields]; try done. cbn. intros [_ Hx]%andb_true_iff.
  induction fields as [|[k x] fields IH]; [done|]. cbn in *. apply andb_true_iff in Hx as [Hx Hxs].
  case_decide; [done|]. by apply IH.
Qed.

Lemma object_exact v o :
  json_exact v = true → null_or_object v = Some o →
  (∀ w, o = Some w → object_ok w) ∧ json_normal <$> o = o.
Proof.
  intros (Hk & Hn & _)%json_exact_normal H. destruct v as [| | | | | |fields]; try done; injection H as <-.
  - done.
  - split; [by intros w [= <-]|]. cbn [fmap option_fmap option_map]. by rewrite Hn.
Qed.

Lemma has_own_exact v name : json_exact v = true → has_own v name = true → prop v name ≠ JUndefined.
Proof.
  destruct v as [| | | | | |fields]; try done. cbn. intros [_ Hx]%andb_true_iff.
  unfold map_has. intros Hh%bool_decide_eq_true.
  induction fields as [|[k x] fields IH]; [done|]. cbn in *. apply andb_true_iff in Hx as [Hx Hxs].
  case_decide; [by destruct x|]. by apply IH.
Qed.

Lemma defined_exact v name : json_exact v = true → is_undefined (prop v name) = false → json_exact (prop v name) = true.
Proof. intros Hx Hu. apply prop_exact; [done|]. by destruct (prop v name). Qed.

Lemma task_of_json_exact v t :
  json_exact v = true → task_of_json v = Some t →
  assertIdentity (tk_taskId t) "taskId" = Ok tt → assertIdentity (tk_ownerId t) "ownerId" = Ok tt →
  assertIdentity (tk_credentialBinding t) "credentialBinding" = Ok tt → task_exact t.
Proof.
  intros Hx H H1 H2 H3. unfold task_of_json in H.
  repeat (apply bind_Some in H as (? & ? & H)). injection H as <-.
  match goal with H : has_own v _ = true |- _ => pose proof (has_own_exact _ _ Hx H) as Hown end.
  match goal with H : null_or_object (prop v "result") = Some _ |- _ => rename H into Hr end.
  match goal with H : as_fields _ = Some _ |- _ => rename H into Hq end.
  match goal with H : billing_of_json _ = Some _ |- _ => rename H into Hb end.
  pose proof (prop_exact _ _ Hx Hown) as (Hi1 & Hi2 & Hi3)%json_exact_normal.
  assert (Hd : ∀ n o, null_or_object (prop v n) = Some o → json_exact (prop v n) = true)
    by (intros n o Ho; apply prop_exact; [done|]; intros Hp; by rewrite Hp in Ho).
  apply object_exact in Hr as [Hr1 Hr2]; [|by eapply Hd].
  unfold billing_of_json in Hb. apply bind_Some in Hb as (b & Hb & Hu).
  apply object_exact in Hb as [Hb1 Hb2]; [|by eapply Hd].
  destruct (prop v "inputRequests") as [| | | | | |reqs] eqn:Hreq; try done. injection Hq as <-.
  assert (Hqx : json_exact (JObj reqs) = true) by (rewrite <- Hreq; apply defined_exact; [done|by rewrite Hreq]).
  apply json_exact_normal in Hqx as (Hq1 & [= Hq2] & _).
  cbn [tk_taskId tk_ownerId tk_credentialBinding] in *. split.
  - split; cbn -[json_ok]; [done|done|done|done|].
    intros w Hw. assert (b = Some w) as -> by (destruct b as [u|]; [|by injection Hu as <-];
      destruct (integer_units u); [by injection Hu as <-|done]).
    split; [by apply Hb1|]. by destruct (integer_units w).
  - unfold normal_task. cbn -[json_normal normal_fields]. f_equal; [done|exact Hr2|exact Hq2|].
    destruct b as [u|]; [|by injection Hu as <-]. destruct (integer_units u); [|done]. by injection Hu as <-.
Qed.

Lemma task_decode_Ok r t rev : decode r = Ok (t, rev) → rev = revision r ∧ task_exact t.
Proof.
  unfold decode. destruct (JSON_parse _) as [v|] eqn:Hv; [|done]. apply JSON_parsed_exact in Hv.
  destruct (isObject v); [|done]. destruct (task_of_json v) as [t'|] eqn:Ht; [|done].
  intros ([] & H1 & ([] & H2 & ([] & H3 & [= <- <-])%result_bind_Ok)%result_bind_Ok)%result_bind_Ok.
  split; [done|]. by eapply task_of_json_exact.
Qed.

(** ** How tasks evolve *)

(** What one write may make of a status. *)
Definition task_moves (st st' : DurableTaskStatus) : bool :=
  match st, st' with
  | creating, (creating | working | failed | cancelled)
  | working, (working | input_required | completed | failed | cancelled)
  | input_required, (input_required | working | cancelled)
  | completed, completed | failed, failed | cancelled, cancelled => true
  | _, _ => false
  end.

Record task_step (t t' : DurableTaskState) : Prop := {
  step_identity :
    (tk_taskId t', tk_ownerId t', tk_credentialBinding t', tk_providerId t', tk_operationInput t',
     tk_idempotencyKey t', tk_createdAt t', tk_expiresAt t', tk_ttlMs t', tk_pollIntervalMs t') =
    (tk_taskId t, tk_ownerId t, tk_credentialBinding t, tk_providerId t, tk_operationInput t,
     tk_idempotencyKey t, tk_createdAt t, tk_expiresAt t, tk_ttlMs t, tk_pollIntervalMs t);
  step_status : task_moves (tk_status t) (tk_status t') = true;
  step_handle p : tk_providerTaskId t = Some p → tk_providerTaskId t' = Some p;
  step_used : tk_usedInputKeys t `prefix_of` tk_usedInputKeys t';
  step_flags :
    implb (tk_callerCancelled t) (tk_callerCancelled t') &&
    implb (tk_groundlanePollingCancelled t) (tk_groundlanePollingCancelled t') &&
    implb (tk_upstreamCancelRequested t) (tk_upstreamCancelRequested t') &&
    implb (tk_upstreamCancelled t) (tk_upstreamCancelled t') = true;
  step_final : TERMINAL (tk_status t) = true →
    (tk_result t', tk_sanitizedError t', tk_billing t') = (tk_result t, tk_sanitizedError t, tk_billing t)
}.

(** A record keeps its contents, or has a higher revision; a task it held has
    moved by steps. *)
Definition rec_evolves (r r' : DurableRecord) : Prop :=
  r' = r ∨ (revision r < revision r')%Z ∧
    ∀ t rev, decode r = Ok (t, rev) → ∃ t', decode r' = Ok (t', revision r') ∧ rtc task_step t t'.

Definition task_key (k : string) : Prop := startsWith k TASK_KEY_PREFIX = true.
Definition index_key (k : string) : Prop := startsWith k "mcp-task-idempotency:" = true.

(** Records are stored under their keys, and name tasks without colons. *)
Record tasks_ok (m : memory) : Prop := {
  tasks_keyed k r : map_get k m = Some r → rec_key r = k;
  tasks_named k r t rev : task_key k → map_get k m = Some r → decode r = Ok (t, rev) →
    taskKey (tk_taskId t) = k ∧ colon_free (tk_taskId t);
  index_named k r id fp : index_key k → map_get k m = Some r → decode_index r = Ok (id, fp) →
    colon_free id
}.

Record tasks_evolve (m m' : memory) : Prop := {
  evolve_ok : tasks_ok m → tasks_ok m';
  evolve_tasks k r : task_key k → map_get k m = Some r →
    ∃ r', map_get k m' = Some r' ∧ rec_evolves r r';
  evolve_index k r : index_key k → map_get k m = Some r → map_get k m' = Some r
}.

(** What a worker of the runtime may do to the records. *)
Definition task_env (m m' : memory) : Prop := tasks_evolve m m' ∧ journal_evolves m m'.

Lemma task_rec_evolves_trans r1 r2 r3 : rec_evolves r1 r2 → rec_evolves r2 r3 → rec_evolves r1 r3.
Proof.
  intros [->|[L1 S1]] [->|[L2 S2]]; unfold rec_evolves; auto.
  right. split; [lia|]. intros t rev (t2 & D2 & Hs)%S1. destruct (S2 _ _ D2) as (t3 & D3 & Hs').
  exists t3. split; [done|]. by etrans.
Qed.

Lemma tasks_evolve_refl m : tasks_evolve m m.
Proof. split; [done| |done]. intros k r _ Hr. exists r. split; [done|by left]. Qed.

Lemma tasks_evolve_trans m1 m2 m3 : tasks_evolve m1 m2 → tasks_evolve m2 m3 → tasks_evolve m1 m3.
Proof.
  intros [O1 E1 I1] [O2 E2 I2]. split; [auto| |auto]. intros k r Hk (r' & Hr' & Hev)%E1; [|done].
  destruct (E2 k r' Hk Hr') as (r'' & Hr'' & Hev'). exists r''. split; [done|].
  by eapply task_rec_evolves_trans.
Qed.

Lemma task_env_refl m : task_env m m.
Proof. split; [apply tasks_evolve_refl|reflexivity]. Qed.

Lemma task_env_trans m1 m2 m3 : task_env m1 m2 → task_env m2 m3 → task_env m1 m3.
Proof. intros [T1 J1] [T2 J2]. split; [by eapply tasks_evolve_trans|by etrans]. Qed.

Definition good_store (m : memory) : Prop := tasks_ok m ∧ journal_ok m.

#[export] Instance task_evolution : Evolution memory := {
  good := good_store;
  evolves := task_env;
  evolves_refl := task_env_refl;
  evolves_trans := task_env_trans;
  evolves_good m m' He Hg := conj (evolve_ok m m' (proj1 He) (proj1 Hg))
    (DurableEffectsSafety.journal_evolves_ok m m' (proj2 He) (proj2 Hg))
}.

(** *** Keys *)

Lemma taskKey_task id : task_key (taskKey id).
Proof. apply (startsWith_app TASK_KEY_PREFIX). Qed.

Lemma taskKey_inj id1 id2 : taskKey id1 = taskKey id2 → id1 = id2.
Proof.
  intros H%(f_equal chars). unfold taskKey in H. rewrite !chars_app in H.
  by apply (inj (app _)), chars_inj in H.
Qed.

Lemma indexKey_index `{!Sha256Api} o b k : index_key (idempotencyRecordKey o b k).
Proof. apply (startsWith_app "mcp-task-idempotency:"). Qed.

Lemma task_not_index k : task_key k → ¬ index_key k.
Proof. intros [l1 H1]%startsWith_inv [l2 H2]%startsWith_inv. by rewrite H1 in H2. Qed.

Lemma journal_key_effect id k : DurableEffectsSafety.journal_key id k → startsWith k "effect:" = true.
Proof.
  intros [_ Hk]. unfold DurableEffects.keyFor in Hk. apply result_bind_Ok in Hk as (_ & _ & [= <-]).
  apply (startsWith_app "effect:").
Qed.

Lemma effect_not_task k : startsWith k "effect:" = true → ¬ task_key k ∧ ¬ index_key k.
Proof.
  intros [l1 H1]%startsWith_inv. split; intros [l2 H2]%startsWith_inv; by rewrite H1 in H2.
Qed.

#[export] Hint Resolve taskKey_task indexKey_index : groundlane.

(** Writes at keys that are not the journal's leave the journal. *)
Lemma journal_other k r m : startsWith k "effect:" ≠ true → journal_evolves m (map_set k r m).
Proof.
  intros Hk id key Hj. rewrite map_get_set_ne.
  - destruct (map_get key m); cbn; [by left|done].
  - intros ->. by apply Hk, (journal_key_effect id).
Qed.

(** ** What is known of a task

    A record that was read is still there, or what its steps made of it. *)

Record known (r : DurableRecord) (m : memory) : Prop := {
  known_key : task_key (rec_key r);
  known_named t rev : decode r = Ok (t, rev) → taskKey (tk_taskId t) = rec_key r ∧ colon_free (tk_taskId t);
  known_now : ∃ r', map_get (rec_key r) m = Some r' ∧ rec_evolves r r'
}.

Lemma task_known_stable r : stable (known r).
Proof.
  intros m m' [He _] [Hk Hn (r' & Hr' & Hev)]. split; [done..|].
  destruct (evolve_tasks _ _ He _ _ Hk Hr') as (r'' & Hr'' & Hev'). exists r''. split; [done|].
  by eapply task_rec_evolves_trans.
Qed.

Lemma task_known_current m k r : tasks_ok m → task_key k → map_get k m = Some r → rec_key r = k ∧ known r m.
Proof.
  intros Hok Hk Hr. pose proof (tasks_keyed _ Hok k r Hr) as <-. split; [done|]. split; [done|..].
  - intros t rev. by eapply tasks_named.
  - exists r. split; [done|by left].
Qed.

Lemma task_known_same r m r' :
  known r m → map_get (rec_key r) m = Some r' → revision r' = revision r → r' = r.
Proof. intros [_ _ (r'' & -> & [->|[Hlt _]])] [= <-] Hrev; [done|lia]. Qed.

(** The task [id] as read at some revision. *)
Definition task_at (id : string) (current : DurableTaskState * Z) (m : memory) : Prop :=
  ∃ r, rec_key r = taskKey id ∧ decode r = Ok current ∧ known r m.

Lemma task_at_stable id c : stable (task_at id c).
Proof. intros m m' He (r & Hk & Hd & Hr). exists r. split_and!; [done..|]. by eapply task_known_stable. Qed.

Lemma task_at_facts id t rev m :
  task_at id (t, rev) m → tk_taskId t = id ∧ colon_free id ∧ task_exact t.
Proof.
  intros (r & Hk & Hd & [_ Hn _]). destruct (Hn _ _ Hd) as [Hid Hc]. rewrite Hk in Hid.
  apply taskKey_inj in Hid as <-. split_and!; [done..|]. by eapply task_decode_Ok.
Qed.

(** ** Writes *)

Lemma tasks_set m k r :
  tasks_ok m → task_key k → rec_key r = k →
  (∀ t rev, decode r = Ok (t, rev) → taskKey (tk_taskId t) = k ∧ colon_free (tk_taskId t)) →
  (∀ r0, map_get k m = Some r0 → rec_evolves r0 r) → task_env m (map_set k r m).
Proof.
  intros [Hkeyed Hnamed Hindex] Hk Hr Hn Hev. split.
  2: { apply journal_other. intros He%effect_not_task. by destruct He. }
  split.
  - intros _. split.
    + intros k' r'. rewrite map_get_set. case_decide as Hkk; [|by apply Hkeyed]. intros [= <-]. by subst.
    + intros k' r' t rev. rewrite map_get_set. case_decide as Hkk; [|by apply Hnamed].
      intros _ [= <-]. subst. apply Hn.
    + intros k' r' id fp Hk'. rewrite map_get_set_ne; [by apply Hindex|].
      intros ->. by eapply task_not_index.
  - intros k' r' _ Hr'. rewrite map_get_set. case_decide as Hkk.
    + subst k'. exists r. split; [done|]. by apply Hev.
    + exists r'. split; [done|by left].
  - intros k' r' Hk' Hr'. rewrite map_get_set_ne; [done|]. intros ->. by eapply task_not_index.
Qed.

Lemma tasks_set_index m k r :
  tasks_ok m → index_key k → rec_key r = k → map_get k m = None →
  (∀ id fp, decode_index r = Ok (id, fp) → colon_free id) → task_env m (map_set k r m).
Proof.
  intros [Hkeyed Hnamed Hindex] Hk Hr Hnone Hn.
  assert (Hne : ∀ k', task_key k' → k' ≠ k) by (intros k' Hk' ->; by eapply task_not_index).
  split.
  2: { apply journal_other. intros He%effect_not_task. by destruct He. }
  split.
  - intros _. split.
    + intros k' r'. rewrite map_get_set. case_decide as Hkk; [|by apply Hkeyed]. intros [= <-]. by subst.
    + intros k' r' t rev Hk'. rewrite map_get_set_ne by auto. by apply Hnamed.
    + intros k' r' id fp. rewrite map_get_set. case_decide as Hkk; [|by apply Hindex].
      intros _ [= <-]. apply Hn.
  - intros k' r' Hk' Hr'. rewrite map_get_set_ne by auto. exists r'. split; [done|by left].
  - intros k' r' Hk' Hr'. rewrite map_get_set_ne; [done|]. intros ->. by rewrite Hnone in Hr'.
Qed.

Lemma tasks_set_effect m k r :
  tasks_ok m → startsWith k "effect:" = true → rec_key r = k →
  tasks_evolve m (map_set k r m) ∧ tasks_ok (map_set k r m).
Proof.
  intros Hok [Hk1 Hk2]%effect_not_task Hr.
  assert (H1 : ∀ k', task_key k' → k' ≠ k) by (by intros k' ? ->).
  assert (H2 : ∀ k', index_key k' → k' ≠ k) by (by intros k' ? ->).
  assert (Hok' : tasks_ok (map_set k r m)).
  { destruct Hok as [Hkeyed Hnamed Hindex]. split.
    - intros k' r'. rewrite map_get_set. case_decide as Hkk; [|by apply Hkeyed]. intros [= <-]. by subst.
    - intros k' r' t rev Hk'. rewrite map_get_set_ne by auto. by apply Hnamed.
    - intros k' r' id fp Hk'. rewrite map_get_set_ne by auto. by apply Hindex. }
  split; [|done]. split; [done|..]; intros k' r' Hk' Hr'; rewrite map_get_set_ne by auto; [|done].
  exists r'. split; [done|by left].
Qed.

(** ** The operations of the store and the journal *)

(** Everything of a task that JSON could change. *)
Definition task_data (t : DurableTaskState) :=
  (tk_taskId t, tk_ownerId t, tk_credentialBinding t, tk_operationInput t, tk_result t,
   tk_inputRequests t, tk_billing t).

Lemma same_data t next :
  task_exact t → task_data next = task_data t → task_ok next ∧ normal_task next = next.
Proof.
  intros [[H1 H2 H3 H4 H5] Hn] Hd. destruct t, next. unfold task_data in Hd. cbn in Hd.
  injection Hd as -> -> -> -> -> -> ->. cbn in *. split; [by split|]. unfold normal_task in *. cbn in *.
  injection Hn as Hi Hr Hq Hb. by rewrite Hi, Hr, Hq, Hb.
Qed.

Definition written (id : string) (t : DurableTaskState) (o : DurableCasResult) (m : memory) : Prop :=
  match o with
  | Updated r => decode r = Ok (t, revision r) ∧ task_at id (t, revision r) m
  | Conflict r => rec_key r = taskKey id ∧ known r m
  | Missing => True
  end.

Lemma written_stable id t o : stable (written id t o).
Proof.
  destruct o as [r|r|]; cbn; [| |apply stable_const].
  - apply stable_and; [apply stable_const|apply task_at_stable].
  - apply stable_and; [apply stable_const|apply task_known_stable].
Qed.

#[export] Hint Resolve task_at_stable written_stable task_known_stable : groundlane.

Section moves.
Context {S : Type} `{!Sha256Api} `{!DurableRecordStorePort S} (view : S → memory)
  (env : memory → memory → Prop) `{Laws : !DurableStoreLaws view env}
  (Henv : ∀ m m', env m m' → task_env m m').
Notation moves := (moves view).

Lemma moves_get_task K id :
  stable K → moves K (ds_get (taskKey id))
    (λ o m, ∀ r, o = Some r → rec_key r = taskKey id ∧ known r m).
Proof.
  intros HK. eapply (moves_atomic view env); [exact Henv|done|apply get_atomic|]. intros m [Hok _] _.
  destruct (mem_get_spec (taskKey id) m) as [-> [[e ->]| ->]]; (split; [apply task_env_refl|]); [done|].
  intros r Hr. by apply task_known_current; [|apply taskKey_task|].
Qed.

(** A conditional write of a task that was read. *)
Lemma moves_cas_task (K : memory → Prop) id t rev next now :
  stable K → (∀ m, K m → task_at id (t, rev) m) → task_ok next → task_step t (normal_task next) →
  moves K (cas_task id rev next now) (written id (normal_task next)).
Proof.
  intros HK HKt Hnext Hs. eapply moves_pick; [exact HKt|]. intros r.
  eapply (moves_pure view _ (rec_key r = taskKey id ∧ decode r = Ok (t, rev))); [by intros m (_ & ? & ? & _)|].
  intros (Hkey & Hd). destruct (task_decode_Ok _ _ _ Hd) as [-> _]. unfold cas_task.
  apply moves_lift_bind. intros u (text & He & [= <-])%result_bind_Ok.
  set (u := {| upd_value := text; upd_nowMs := int now; upd_expiresAt := Some (int (tk_expiresAt next)) |}).
  assert (Hd' : decode (updated_record r u) = Ok (normal_task next, revision (updated_record r u)))
    by (by apply decode_written).
  rewrite <- Hkey.
  eapply moves_mono; [intros m Hm; exact (proj2 (proj2 (proj2 Hm)))|intros a m Ha; exact Ha|].
  eapply (moves_atomic view env); [exact Henv|apply task_known_stable|apply cas_atomic|]. intros m [Hok _] Hr.
  destruct (mem_cas_spec (rec_key r) (revision r) u m) as [[-> Hres]|(r' & Hr' & Hrev & -> & ->)].
  - split; [apply task_env_refl|]. destruct Hres as [[e ->]|[[_ ->]|(r' & Hr' & _ & ->)]]; [done..|].
    cbn. rewrite <- Hkey. by apply task_known_current; [|apply (known_key _ _ Hr)|].
  - assert (r' = r) as -> by (by eapply task_known_same). cbn [written].
    assert (He' : task_env m (map_set (rec_key r) (updated_record r u) m)).
    { apply tasks_set; [done|apply (known_key _ _ Hr)|done|..].
      - intros t1 rev1 Hd1. rewrite Hd' in Hd1. injection Hd1 as <- _.
        destruct (known_named _ _ Hr _ _ Hd) as [<- Hc].
        assert (tk_taskId (normal_task next) = tk_taskId t) as -> by (by destruct Hs as [[=] _ _ _ _ _]). done.
      - intros r0 Hr0. rewrite Hr' in Hr0. injection Hr0 as <-. right. split; [cbn; lia|].
        intros t1 rev1 Hd1. rewrite Hd in Hd1. injection Hd1 as <- _. exists (normal_task next).
        split; [done|]. by apply rtc_once. }
    split; [done|]. split; [done|]. exists (updated_record r u). split_and!; [exact Hkey|done|].
    apply (task_known_current _ (rec_key r)); [|apply (known_key _ _ Hr)|apply map_get_set_eq].
    by apply (evolve_ok _ _ (proj1 He')).
Qed.

(** The record of a new task, or the one that is there. *)
Lemma moves_create_task (K : memory → Prop) t u now :
  stable K → write t now = Ok u → json_ok (task_json t) = true → colon_free (tk_taskId t) →
  moves K (ds_createIfAbsent {| new_key := taskKey (tk_taskId t); new_update := u |})
    (λ o m, rec_key (created_record o) = taskKey (tk_taskId t) ∧ known (created_record o) m ∧
       match o with Created r => value r = upd_value u | Exists _ => True end).
Proof.
  intros HK (text & He & [= <-])%result_bind_Ok Hjson Hc.
  eapply (moves_atomic view env); [exact Henv|done|apply create_atomic|]. intros m [Hok _] _.
  match goal with |- context [mem_createIfAbsent ?i m] =>
    destruct (mem_create_spec i m) as [[-> Hres]|(Hnone & -> & ->)] end; cbn [new_key] in *.
  - split; [apply task_env_refl|]. destruct Hres as [[e ->]|(r & Hr & ->)]; [done|]. cbn [created_record].
    destruct (task_known_current _ _ _ Hok (taskKey_task _) Hr). done.
  - set (r := new_record _).
    assert (He' : task_env m (map_set (taskKey (tk_taskId t)) r m)).
    { apply tasks_set; [done|apply taskKey_task|done|..].
      - intros t1 rev1 Hd1. by rewrite (decode_named r t t1 rev1).
      - intros r0 Hr0. by rewrite Hnone in Hr0. }
    split; [done|]. cbn [created_record].
    destruct (task_known_current _ _ r (evolve_ok _ _ (proj1 He') Hok) (taskKey_task (tk_taskId t))
      (map_get_set_eq _ _ _)). done.
Qed.

(** *** The journal *)

Notation reached := DurableEffectsSafety.reached.

Lemma reached_stable id rev : colon_free (DurableEffects.id_jobId id) → stable (reached id rev).
Proof. intros Hc m m' [_ He]. by apply DurableEffectsSafety.reached_evolves. Qed.

Lemma journal_laws : DurableStoreLaws view journal_evolves.
Proof.
  eapply store_laws_mono; [|apply _|exact Laws]. intros m m' [_ He]%Henv. exact He.
Qed.

(** A journal operation moves the store as its parts say. *)
Lemma moves_journal {A} (K : memory → Prop) (c : M S A) (Q : A → memory → Prop) :
  (∀ s, good_store (view s) → K (view s) → wp c (λ _ s', journal_evolves (view s) (view s')) s) →
  (∀ P, (∀ m m', env m m' → P m → P m') →
    (∀ m key r, P m → map_get key m = Some r → rec_key r = key) →
    (∀ m key r, startsWith key "effect:" = true → rec_key r = key → P m → P (map_set key r m)) →
    keeps view P c) →
  (∀ s, wp c (λ r s', match r with Ok a => Q a (view s') | Throw _ => True end) s) →
  moves K c Q.
Proof.
  intros Hj Hframe HQ s Hg Hs.
  assert (HP : wp c (λ _ s', tasks_evolve (view s) (view s') ∧ tasks_ok (view s')) s).
  { apply (Hframe (λ m, tasks_evolve (view s) m ∧ tasks_ok m)).
    - intros m m' [He _]%Henv [Hm Hok]. split; [by eapply tasks_evolve_trans|by eapply evolve_ok].
    - intros m key r [_ Hok]. by apply tasks_keyed.
    - intros m key r Hkey Hr [Hm Hok]. destruct (tasks_set_effect m key r) as [He Hok']; [done..|].
      split; [by eapply tasks_evolve_trans|done].
    - split; [apply tasks_evolve_refl|apply Hg]. }
  eapply wp_mono; [apply wp_and; [apply (Hj s Hg Hs)|apply wp_and; [exact HP|apply HQ]]|].
  intros r s' (Hje & [Hte _] & HR). by split.
Qed.

Lemma task_moves_claim K id now :
  colon_free (DurableEffects.id_jobId id) →
  moves K (DurableEffects.claim id now) (λ r m, match r with
    | DurableEffects.Claimed _ rev | DurableEffects.Existing _ rev => reached id rev m end).
Proof.
  intros Hc. pose proof journal_laws. apply moves_journal.
  - intros s _ _. by apply DurableEffectsSafety.claim_guarantee.
  - intros P HP Hkeyed Hset. by apply (DurableEffectsSafety.claim_frame view env).
  - intros s. eapply wp_mono; [apply (DurableEffectsSafety.claim_reached view env)|]. by intros [[]|].
Qed.

Lemma moves_transition K id rev to now rc :
  colon_free (DurableEffects.id_jobId id) → to ≠ DurableEffects.claimed → (∀ m, K m → reached id rev m) →
  moves K (DurableEffects.transition id rev to now rc) (λ r m, reached id r.2 m).
Proof.
  intros Hc Hto HK. pose proof journal_laws. apply moves_journal.
  - intros s _ Hs. apply (DurableEffectsSafety.transition_guarantee view).
    exact (conj Hc (conj Hto (HK _ Hs))).
  - intros P HP Hkeyed Hset. by apply (DurableEffectsSafety.transition_frame view env).
  - intros s. eapply wp_mono; [apply (DurableEffectsSafety.transition_reached view env)|]. by intros [[]|].
Qed.

Lemma moves_retry K id rev now :
  colon_free (DurableEffects.id_jobId id) →
  moves K (DurableEffects.retry id rev now) (λ r m, match r with
    | DurableEffects.Reclaimed _ rev' => reached id rev' m | DurableEffects.Blocked _ _ => True end).
Proof.
  intros Hc. pose proof journal_laws. apply moves_journal.
  - intros s [_ Hj] _. by apply DurableEffectsSafety.retry_guarantee.
  - intros P HP Hkeyed Hset. by apply (DurableEffectsSafety.retry_frame view env).
  - intros s. eapply wp_mono; [apply (DurableEffectsSafety.retry_reached view env)|]. by intros [[]|].
Qed.
End moves.

(** ** Every operation *)

Definition owns (t : DurableTaskState) (caller : AsyncJobCaller) : Prop :=
  tk_ownerId t = ownerId caller ∧ tk_credentialBinding t = credentialBinding caller.

Definition detail_base (d : DetailedMcpTask) : McpTaskBase :=
  match d with
  | TaskWorking b | TaskInputRequired b _ | TaskCompleted b _ | TaskFailed b _ _ | TaskCancelled b => b
  end.

Definition about (id : string) (d : DetailedMcpTask) (m : memory) : Prop := mt_taskId (detail_base d) = id.

Lemma about_stable id d : stable (about id d).
Proof. apply stable_const. Qed.

#[export] Hint Resolve about_stable : groundlane.

Lemma toDetailed_id t d : toDetailed t = Ok d → mt_taskId (detail_base d) = tk_taskId t.
Proof.
  unfold toDetailed. intros (c & _ & (u & _ & [= <-])%result_bind_Ok)%result_bind_Ok.
  by destruct (tk_status t).
Qed.

Lemma assertCaller_Ok t caller u : assertCaller t caller = Ok u → owns t caller.
Proof. intros H%throw_if_Ok. apply orb_false_iff in H as [H1 H2]. by reflect. Qed.

(** A write that leaves the data of a task as it is. *)
Lemma plain_step t next :
  task_exact t → task_data next = task_data t → task_step t next →
  task_ok next ∧ task_step t (normal_task next) ∧ normal_task next = next.
Proof. intros Hx Hd Hs. destruct (same_data _ _ Hx Hd) as [Hok Hn]. by rewrite Hn. Qed.

Ltac step_flags := cbn; by rewrite ?implb_same, ?implb_true_r.
Ltac plain :=
  match goal with Hx : task_exact ?t |- _ => first
    [ apply (plain_step t); [exact Hx|reflexivity|split; cbn; try done; try step_flags; intros;
        repeat match goal with H : tk_status _ = _ |- _ => rewrite H in * end; try done] ] end.

(** What a provider answers has the types it declares. *)
Record outcome_ok (o : AsyncTaskPollOutcome) : Prop := {
  outcome_result v : oc_result o = Some v → object_ok v;
  outcome_requests f : oc_inputRequests o = Some f → json_ok (JObj f) = true;
  outcome_billing v : oc_billing o = Some v → object_ok v ∧ integer_units v = true
}.

Section service.
Context {S : Type} `{!Sha256Api} `{!DurableRecordStorePort S} (view : S → memory)
  (env : memory → memory → Prop) `{Laws : !DurableStoreLaws view env}
  (Henv : ∀ m m', env m m' → task_env m m') (rt : DurableMcpTaskRuntime S) (randomUUID : M S string).
Notation moves := (moves view).

(** The provider and the source of identifiers leave the records to others. *)
Record quiet : Prop := {
  quiet_uuid s : env (view s) (view (randomUUID s).2);
  uuid_colon_free s u : (randomUUID s).1 = Ok u → colon_free u;
  quiet_create input signal s : env (view s) (view (pv_create (provider rt) input signal s).2);
  quiet_poll id input signal s : env (view s) (view (pv_poll (provider rt) id input signal s).2);
  poll_typed id input signal s o : (pv_poll (provider rt) id input signal s).1 = Ok o → outcome_ok o;
  quiet_update send id a signal s : pv_update (provider rt) = Some send →
    env (view s) (view (send id a signal s).2);
  quiet_cancel send id signal s : pv_cancel (provider rt) = Some send →
    env (view s) (view (send id signal s).2)
}.
Context (Hquiet : quiet).

Lemma moves_decode (K : memory → Prop) id r (c : DurableTaskState * Z) :
  (∀ m, K m → rec_key r = taskKey id ∧ known r m) → decode r = Ok c → ∀ m, K m → task_at id c m.
Proof. intros HK Hd m Hm. destruct (HK m Hm) as [Hr Hkn]. by exists r. Qed.

Lemma moves_read (K : memory → Prop) id caller now :
  stable K → moves K (read id caller now) (λ c m, task_at id c m ∧ owns c.1 caller).
Proof.
  intros HK. unfold read. do 2 (apply moves_lift_bind; intros [] _).
  eapply moves_bind; [done|by apply (moves_get_task view env Henv)|]. intros [r|]; [|apply moves_throw].
  apply moves_lift_bind. intros [t rev] Hd. apply moves_lift_bind. intros [] Ho%assertCaller_Ok.
  apply moves_lift_bind. intros [] _. apply moves_ret. intros m [_ Hr].
  split; [|done]. by exists r; split_and!; [by apply Hr|done|by apply Hr].
Qed.

(** A task read, and what follows. *)
Lemma moves_bind_read {A} (K : memory → Prop) id caller now (f : DurableTaskState * Z → M S A) Q :
  stable K →
  (∀ t rev (K' : memory → Prop), stable K' → (∀ m, K' m → task_at id (t, rev) m) →
    tk_taskId t = id → colon_free id → task_exact t → moves K' (f (t, rev)) Q) →
  moves K (read id caller now ≫= f) Q.
Proof.
  intros HK Hf. eapply moves_bind; [done|by apply moves_read|]. intros [t rev].
  set (K' := λ m, K m ∧ task_at id (t, rev) m ∧ owns (t, rev).1 caller).
  eapply (moves_pure view _ (tk_taskId t = id ∧ colon_free id ∧ task_exact t));
    [by intros m (_ & ?%task_at_facts & _)|]. intros (Hid & Hc & Hx).
  apply (Hf t rev K'); try done.
  - apply stable_and; [done|]. apply stable_and; [apply task_at_stable|apply stable_const].
  - by intros m (_ & ? & _).
Qed.

Lemma moves_read_detailed (K : memory → Prop) id caller now :
  stable K → moves K (read_detailed id caller now) (about id).
Proof.
  intros HK. eapply moves_bind; [done|by apply moves_read|]. intros [t rev].
  apply moves_lift. intros d m Hd%toDetailed_id [_ [(Ht & _)%task_at_facts _]]. unfold about. congruence.
Qed.

Lemma moves_decoded_detailed (K : memory → Prop) id r t :
  (∀ m, K m → written id t (Updated r) m) → moves K (decoded_detailed r) (about id).
Proof.
  intros HK s Hg Hs. destruct (HK _ Hs) as [Hd Ht]. revert s Hg Hs HK Ht. unfold decoded_detailed.
  rewrite Hd. intros s Hg Hs HK Ht.
  apply (moves_lift_bind view K (Ok (t, revision r)) (λ '(t, _), lift (toDetailed t)) (about id));
    [|done|done].
  intros [t' rev'] [= <- <-]. apply moves_lift. intros d m Hdet%toDetailed_id [_ Hm]%HK.
  apply task_at_facts in Hm as (Hid & _). unfold about. congruence.
Qed.

(** The answer after a conditional write. *)
Lemma moves_answer (K : memory → Prop) id t next rev caller now (other : thrown + unit) :
  stable K → (∀ m, K m → task_at id (t, rev) m) →
  task_ok next → task_step t (normal_task next) →
  moves K (saved ← cas_task id rev next now;
           match saved with
           | Updated record => decoded_detailed record
           | Missing => match other with inl e => throw e | inr _ => read_detailed id caller now end
           | Conflict _ => read_detailed id caller now
           end) (about id).
Proof.
  intros HK HKt Hok Hs. eapply moves_bind; [done|by eapply (moves_cas_task view env Henv)|].
  intros [r|r|].
  - apply (moves_decoded_detailed _ id _ (normal_task next)). by intros m [_ Hm].
  - apply moves_forget. by apply moves_read_detailed.
  - destruct other; [apply moves_throw|]. apply moves_forget. by apply moves_read_detailed.
Qed.

Lemma moves_failUncertain (K : memory → Prop) id t rev caller now cause :
  stable K → (∀ m, K m → task_at id (t, rev) m) → (tk_status t = creating ∨ tk_status t = working) →
  moves K (failUncertain (t, rev) caller now cause) (about id).
Proof.
  intros HK HKt Hst. eapply (moves_pure view _ (tk_taskId t = id ∧ task_exact t));
    [by intros m (? & _ & ?)%HKt%task_at_facts|]. intros [<- Hx].
  set (next := t <| tk_status := failed |> <| tk_sanitizedError := Some CREATION_UNCERTAIN |>
                 <| tk_updatedAt := now |>).
  assert (Hn : task_ok next ∧ task_step t (normal_task next) ∧ normal_task next = next)
    by (destruct Hst as [Hst|Hst]; plain).
  destruct Hn as (Hok & Hs & _).
  pose proof (moves_answer K (tk_taskId t) t next rev caller now
    (if bool_decide (is_Some cause) then inl (taskError CREATION_UNCERTAIN) else inr tt) HK HKt Hok Hs) as Hm.
  unfold failUncertain. by destruct (bool_decide (is_Some cause)).
Qed.
(** *** Polling *)

Lemma filter_json_ok (P : string * js_value → Prop) `{∀ x, Decision (P x)} fields :
  json_ok (JObj fields) = true → json_ok (JObj (filter P fields)) = true.
Proof.
  cbn. intros [Hnd%bool_decide_eq_true Hf]%andb_true_iff. apply andb_true_iff. split.
  - apply bool_decide_eq_true. eapply sublist_NoDup; [exact Hnd|]. apply fmap_sublist, sublist_filter.
  - apply forallb_forall. intros x Hin. rewrite <- list_elem_of_In in Hin.
    apply list_elem_of_filter in Hin as [_ Hin].
    by apply (proj1 (forallb_forall _ _) Hf x), list_elem_of_In.
Qed.

Lemma moves_persist (K : memory → Prop) id t rev o caller now :
  stable K → (∀ m, K m → task_at id (t, rev) m) → tk_status t = working → outcome_ok o →
  moves K (persistPollOutcome (t, rev) o caller now) (about id).
Proof.
  intros HK HKt Hst [Hr Hq Hb]. eapply (moves_pure view _ (tk_taskId t = id ∧ task_exact t));
    [by intros m (? & _ & ?)%HKt%task_at_facts|]. intros [<- Hx].
  unfold persistPollOutcome. match goal with |- context [cas_task _ _ ?n _] => set (next := n) end.
  assert (Hn : task_ok next ∧ task_step t (normal_task next)).
  { destruct Hx as [[H1 H2 H3 H4 H5] Hn]. pose proof Hn as Hn'. unfold normal_task in Hn'.
    destruct t as [? ? ? ? ? inp ? ? res reqs ? ? ? ? ? ? ? ? bil ? ? ? ?]. cbn in *. subst.
    injection Hn' as Hi' _ _ _. unfold next. clear next HKt Hn.
    destruct (oc_status o); cbn -[json_ok]; (split; [split; cbn -[json_ok]; try done|
      split; cbn -[json_normal normal_fields]; try done; [by rewrite Hi'|step_flags]]).
    - by apply filter_json_ok; destruct (oc_inputRequests o); [apply Hq|].
    - intros v [= <-]. by destruct (oc_result o); [apply Hr|]. }
  destruct Hn as [Hok Hs].
  pose proof (moves_answer K (tk_taskId t) t next rev caller now (inr tt) HK HKt Hok Hs) as Hm.
  eapply moves_bind; [done|by eapply (moves_cas_task view env Henv)|]. intros [r|r|].
  - apply (moves_decoded_detailed _ (tk_taskId t) _ (normal_task next)). by intros m [_ Hw].
  - apply moves_forget. by apply moves_read_detailed.
  - apply moves_forget. by apply moves_read_detailed.
Qed.

Lemma failed_outcome_ok e : outcome_ok (failed_outcome e).
Proof. by split. Qed.

Lemma moves_poll_leased (K : memory → Prop) id t rev caller signal now :
  stable K → (∀ m, K m → task_at id (t, rev) m) → tk_status t = working →
  moves K (poll_leased rt (t, rev) caller signal now) (about id).
Proof.
  intros HK HKt Hst. unfold poll_leased. eapply moves_bind; [done| |].
  - apply moves_attempt. apply moves_lift_bind. intros input _.
    apply (moves_elsewhere view env _ _ outcome_ok); [exact Henv|apply (quiet_poll Hquiet)|].
    intros s a Ha. by eapply (poll_typed Hquiet).
  - intros [o|e].
    + eapply (moves_pure view _ (outcome_ok o)); [by intros m [_ Ho]|]. intros Ho.
      apply moves_forget. by eapply moves_persist.
    + apply moves_forget. eapply moves_bind; [done| |].
      * apply (moves_elsewhere view env _ _ (λ _, True)); [exact Henv|by intros; apply env_refl|done].
      * intros [|]; [apply moves_throw|]. apply moves_forget.
        by eapply moves_persist; [..|apply failed_outcome_ok].
Qed.

Lemma task_moves_get (K : memory → Prop) id caller signal now :
  stable K → moves K (get_task rt id caller signal now) (about id).
Proof.
  intros HK. apply moves_bind_read; [done|]. intros t rev K' HK' HKt <- _ Hx. cbv zeta beta iota.
  destruct (TERMINAL (tk_status t) || bool_decide (tk_status t = input_required) ||
     (to_Z now <? tk_nextPollAt t)%Z) eqn:Hidle.
  { apply moves_lift. intros d m Hd%toDetailed_id _. exact Hd. }
  apply orb_false_iff in Hidle as [[Hterm Hin%bool_decide_eq_false]%orb_false_iff _].
  destruct (bool_decide (tk_status t = creating) || bool_decide (tk_providerTaskId t = None)) eqn:Hc.
  { apply moves_failUncertain; [done..|]. by destruct (tk_status t); auto. }
  apply orb_false_iff in Hc as [Hcr%bool_decide_eq_false _].
  assert (Hst : tk_status t = working) by (by destruct (tk_status t)).
  set (next := t <| tk_updatedAt := to_Z now |>
                 <| tk_nextPollAt := (to_Z now + tk_pollIntervalMs t)%Z |>).
  assert (Hn : task_ok next ∧ task_step t (normal_task next) ∧ normal_task next = next) by plain.
  destruct Hn as (Hok & Hs & _).
  eapply moves_bind; [done|by eapply (moves_cas_task view env Henv)|]. intros [r|r|].
  - apply moves_lift_bind. intros c Hd'.
    eapply (moves_pure view _ (c = (normal_task next, revision r))).
    { intros m (_ & Hw & _). cbn in Hw. rewrite Hd' in Hw. by injection Hw as ->. }
    intros ->. apply moves_poll_leased; [|by intros m (_ & _ & ?)|done].
    apply stable_and; [done|apply (written_stable _ _ (Updated r))].
  - apply moves_forget. by apply moves_read_detailed.
  - apply moves_forget. by apply moves_read_detailed.
Qed.
(** *** Answering input requests *)

Notation anything := (λ _ _, True).

Lemma moves_elsewhere_any {A} (K : memory → Prop) (c : M S A) :
  (∀ s, env (view s) (view (c s).2)) → moves K c anything.
Proof. intros Hc. by apply (moves_elsewhere view env _ _ (λ _, True)). Qed.

(** A transition under a revision that is known, and what follows. *)
Lemma moves_bind_transition {A} (K : memory → Prop) id rev to now rc
    (f : DurableEffects.DurableEffect * Z → M S A) Q :
  stable K → colon_free (DurableEffects.id_jobId id) → to ≠ DurableEffects.claimed →
  (∀ m, K m → DurableEffectsSafety.reached id rev m) →
  (∀ e rev' (K' : memory → Prop), stable K' → (∀ m, K' m → K m) →
    (∀ m, K' m → DurableEffectsSafety.reached id rev' m) → moves K' (f (e, rev')) Q) →
  moves K (DurableEffects.transition id rev to now rc ≫= f) Q.
Proof.
  intros HK Hc Hto Hrev Hf.
  eapply moves_bind; [done|by apply (moves_transition view env Henv)|]. intros [e rev'].
  apply (Hf e rev'); [|by intros m [? _]|by intros m [_ ?]].
  apply stable_and; [done|by apply reached_stable].
Qed.

Lemma moves_attempt_transition (K : memory → Prop) id rev to now rc :
  colon_free (DurableEffects.id_jobId id) → to ≠ DurableEffects.claimed →
  (∀ m, K m → DurableEffectsSafety.reached id rev m) →
  moves K (attempt (DurableEffects.transition id rev to now rc)) anything.
Proof.
  intros Hc Hto Hrev. eapply moves_mono; [intros m Hm; exact Hm| |
    by apply moves_attempt, (moves_transition view env Henv)]. done.
Qed.

Lemma moves_send_update (K : memory → Prop) id operationKey receipt handle send accepted signal now :
  stable K → colon_free id → pv_update (provider rt) = Some send →
  moves K (send_update id operationKey receipt handle send accepted signal now) anything.
Proof.
  intros HK Hc Hsend. eapply moves_bind; [done|by apply (task_moves_claim view env Henv)|]. intros [e rev|e rev].
  - apply moves_bind_transition; [apply stable_and; [done|by apply reached_stable]|done..|
      by intros m [_ ?]|]. intros _ rev' K' HK' _ Hrev.
    eapply moves_bind; [done|apply moves_attempt, moves_elsewhere_any; intros; by eapply (quiet_update Hquiet)|].
    intros [[]|err].
    + eapply moves_bind; [apply stable_and; [done|apply stable_const]| |].
      * apply moves_forget. by apply moves_attempt_transition.
      * intros []; [by apply moves_ret|apply moves_throw].
    + eapply moves_bind; [apply stable_and; [done|apply stable_const]| |intros; apply moves_throw].
      apply moves_forget. by apply moves_attempt_transition.
  - by apply moves_lift.
Qed.

Lemma answered_ok t keys now :
  task_exact t → tk_status t = input_required →
  task_ok (answered_task t keys now) ∧ task_step t (normal_task (answered_task t keys now)).
Proof.
  intros [[H1 H2 H3 H4 H5] Hn] Hst. unfold normal_task in Hn.
  destruct t as [? ? ? ? ? inp ? ? res reqs ? ? ? ? ? ? ? ? bil ? ? ? ?]. cbn in *. subst.
  injection Hn as Hi _ _ _. unfold answered_task. cbn -[json_ok]. split.
  - split; cbn -[json_ok]; try done. by apply filter_json_ok.
  - split; cbn -[json_normal normal_fields]; try done; [by rewrite Hi|by repeat case_match| |step_flags].
    by apply prefix_app_r.
Qed.

Lemma moves_record_answers attempts (K : memory → Prop) id operationKey keys t rev caller now :
  stable K → (∀ m, K m → task_at id (t, rev) m) → tk_status t = input_required →
  moves K (record_answers attempts id operationKey keys (t, rev) caller now) anything.
Proof.
  revert K t rev. induction attempts as [|n IH]; intros K t rev HK HKt Hst; [apply moves_throw|].
  eapply (moves_pure view _ (task_exact t)); [by intros m (_ & _ & ?)%HKt%task_at_facts|]. intros Hx.
  destruct (answered_ok t keys now Hx Hst) as [Hok Hs]. cbn [record_answers].
  eapply moves_bind; [done|by eapply (moves_cas_task view env Henv)|].
  intros [r|r|]; [by apply moves_ret| |apply moves_throw].
  apply moves_lift_bind. intros [t' rev'] Hd. apply moves_lift_bind. intros _ _.
  destruct (bool_decide (Forall _ keys)); [by apply moves_ret|].
  destruct (negb _ || negb _) eqn:Hcond; [apply moves_throw|].
  apply orb_false_iff in Hcond as [Hin%negb_false_iff%bool_decide_eq_true _].
  apply IH; [apply stable_and; [done|apply (written_stable _ _ (Conflict r))]| |done].
  intros m [_ [Hkey Hr]]. by exists r.
Qed.

Lemma moves_update (K : memory → Prop) id responses caller signal now :
  stable K → moves K (update_task rt id responses caller signal now) anything.
Proof.
  intros HK. apply moves_bind_read; [done|]. intros t rev K' HK' HKt Hid Hc Hx. cbv zeta beta iota.
  apply moves_lift_bind. intros [] Hst%throw_if_Ok%negb_false_iff%bool_decide_eq_true.
  destruct (bool_decide (accepted_responses t responses = [])); [by apply moves_ret|].
  destruct (pv_update (provider rt)) as [send|] eqn:Hsend; [|apply moves_throw].
  destruct (tk_providerTaskId t) as [handle|]; [|apply moves_throw].
  eapply moves_bind; [done|by apply moves_send_update|]. intros [].
  apply moves_forget. by apply moves_record_answers.
Qed.

(** *** Cancelling *)

Lemma moves_mark_cancelled attempts (K : memory → Prop) id caller now :
  stable K → moves K (mark_cancelled_from attempts id caller now) anything.
Proof.
  revert K. induction attempts as [|n IH]; intros K HK; [apply moves_throw|]. cbn [mark_cancelled_from].
  apply moves_bind_read; [done|]. intros t rev K' HK' HKt Hid Hc Hx.
  destruct (tk_upstreamCancelled t); [by apply moves_ret|].
  set (next := acknowledged_task t now).
  assert (Hn : task_ok next ∧ task_step t (normal_task next) ∧ normal_task next = next).
  { destruct t as [? ? ? ? ? ? ? st ? ? ? ? ? ? ? ? ? ? ? ? ? ? ?]. unfold next. destruct st; plain. }
  destruct Hn as (Hok & Hs & _).
  eapply moves_bind; [done|by eapply (moves_cas_task view env Henv)|].
  intros [r|r|]; [by apply moves_ret| |apply moves_throw].
  apply IH, stable_and; [done|apply (written_stable _ _ (Conflict r))].
Qed.
Lemma moves_claim_cancel (K : memory → Prop) id caller now :
  stable K → colon_free id →
  moves K (claim_cancel id caller now)
    (λ turn m, match turn with
               | Some rev => DurableEffectsSafety.reached (cancel_effect id) rev m | None => True end).
Proof.
  intros HK Hc. eapply moves_bind; [done|by apply (task_moves_claim view env Henv)|].
  assert (HK' : ∀ rev, stable (λ m, K m ∧ DurableEffectsSafety.reached (cancel_effect id) rev m))
    by (intros rev; apply stable_and; [done|by apply reached_stable]).
  intros [e rev|e rev]; [by apply moves_ret; intros m [_ ?]|].
  destruct (DurableEffects.status e); [by apply moves_ret..| |].
  - eapply moves_bind; [done|by apply moves_mark_cancelled|]. intros []. by apply moves_ret.
  - eapply moves_bind; [done|by apply (moves_retry view env Henv)|].
    intros [e' rev'|e' rev']; apply moves_ret; by intros m [_ ?].
Qed.

Lemma moves_send_cancel (K : memory → Prop) id handle rev send caller signal now :
  stable K → colon_free id → pv_cancel (provider rt) = Some send →
  (∀ m, K m → DurableEffectsSafety.reached (cancel_effect id) rev m) →
  moves K (send_cancel id handle rev send caller signal now) anything.
Proof.
  intros HK Hc Hsend Hrev. unfold send_cancel.
  eapply moves_bind; [done|apply moves_attempt, (moves_transition view env Henv); done|].
  intros [[e rev']|err]; [|by apply moves_ret].
  assert (HK' : stable (λ m, K m ∧ DurableEffectsSafety.reached (cancel_effect id) rev' m))
    by (apply stable_and; [done|by apply reached_stable]).
  eapply moves_bind; [exact HK'|apply moves_attempt, moves_elsewhere_any; intros; by eapply (quiet_cancel Hquiet)|].
  intros [[ack|]|err].
  - eapply moves_bind; [apply stable_and; [exact HK'|apply stable_const]| |].
    { apply moves_attempt_transition; [done..|]. by intros m [[_ ?] _]. }
    intros [x|err]; [|by apply moves_ret]. do 2 apply moves_forget. apply moves_forget.
    by apply moves_mark_cancelled.
  - eapply moves_bind; [apply stable_and; [exact HK'|apply stable_const]| |by intros; apply moves_ret].
    apply moves_attempt_transition; [done..|]. by intros m [[_ ?] _].
  - eapply moves_bind; [apply stable_and; [exact HK'|apply stable_const]| |by intros; apply moves_ret].
    apply moves_attempt_transition; [done..|]. by intros m [[_ ?] _].
Qed.

Lemma moves_cancel_record (K : memory → Prop) id t rev caller now :
  stable K → (∀ m, K m → task_at id (t, rev) m) → task_exact t →
  moves K (cancel_record id (t, rev) caller now) anything.
Proof.
  intros HK HKt Hx. unfold cancel_record.
  destruct (bool_decide (tk_status t = cancelled)); [by apply moves_ret|].
  apply moves_lift_bind. intros [] Hterm%throw_if_Ok. set (next := cancelled_task t now).
  assert (Hn : task_ok next ∧ task_step t (normal_task next) ∧ normal_task next = next).
  { destruct t as [? ? ? ? ? ? ? st ? ? ? ? ? ? ? ? ? ? ? ? ? ? ?]. unfold next. destruct st; try done; plain. }
  destruct Hn as (Hok & Hs & _).
  eapply moves_bind; [done|by eapply (moves_cas_task view env Henv)|].
  intros [r|r|]; [..|apply moves_throw]; apply moves_lift_bind; intros [t' rev'] _;
    apply moves_lift_bind; intros _ _; by apply moves_ret.
Qed.

Lemma moves_cancel (K : memory → Prop) id caller signal now :
  stable K → moves K (cancel rt id caller signal now) anything.
Proof.
  intros HK. apply moves_bind_read; [done|]. intros t rev K' HK' HKt Hid Hc Hx. cbv zeta beta iota.
  eapply moves_bind; [done|by apply moves_cancel_record|]. intros [t'|]; [|by apply moves_ret].
  destruct (tk_upstreamCancelled t'); [by apply moves_ret|].
  destruct (pv_cancel (provider rt)) as [send|] eqn:Hsend; [|by apply moves_ret].
  destruct (tk_providerTaskId t') as [handle|]; [|by apply moves_ret].
  apply moves_forget. eapply moves_bind; [done|by apply moves_claim_cancel|].
  intros [rev'|]; [|by apply moves_ret].
  apply moves_send_cancel; [|done..|by intros m [_ ?]].
  apply stable_and; [done|by apply reached_stable].
Qed.

Lemma moves_stopWaiting (K : memory → Prop) id caller now :
  stable K → moves K (stopWaiting id caller now) anything.
Proof.
  intros HK. apply moves_bind_read; [done|]. intros t rev K' HK' HKt Hid Hc Hx. cbv zeta beta iota.
  destruct (tk_callerCancelled t); [by apply moves_ret|].
  set (next := t <| tk_callerCancelled := true |> <| tk_updatedAt := to_Z now |>).
  assert (Hn : task_ok next ∧ task_step t (normal_task next) ∧ normal_task next = next).
  { destruct t as [? ? ? ? ? ? ? st ? ? ? ? ? ? ? ? ? ? ? ? ? ? ?]. unfold next. destruct st; plain. }
  destruct Hn as (Hok & Hs & _).
  eapply moves_bind; [done|by eapply (moves_cas_task view env Henv)|]. intros. by apply moves_ret.
Qed.

Lemma moves_describe (K : memory → Prop) id caller signal now :
  stable K → moves K (describe rt id caller signal now) anything.
Proof.
  intros HK. eapply moves_bind; [done|by apply task_moves_get|]. intros d. apply moves_forget.
  eapply moves_bind; [done|by apply moves_read|]. intros [t rev]. by apply moves_ret.
Qed.

(** *** Starting *)

(** The task an idempotency key stands for, once it stands for one. *)
Definition bound (k id : string) (m : memory) : Prop :=
  ∃ r fp, map_get k m = Some r ∧ decode_index r = Ok (id, fp).

Lemma task_bound_stable k id : index_key k → stable (bound k id).
Proof. intros Hk m m' [He _] (r & fp & Hr & Hd). exists r, fp. split; [|done]. by eapply evolve_index. Qed.

Lemma decode_index_written r id fp :
  value r = unchars (json_text (index_json id fp)) → decode_index r = Ok (id, fp).
Proof. intros Hv. unfold decode_index. by rewrite Hv, JSON_parse_exact. Qed.

Lemma moves_create_index (K : memory → Prop) k fresh fp u :
  stable K → index_key k → colon_free fresh → upd_value u = unchars (json_text (index_json fresh fp)) →
  moves K (ds_createIfAbsent {| new_key := k; new_update := u |})
    (λ o m, map_get k m = Some (created_record o) ∧
       ∀ id fp, decode_index (created_record o) = Ok (id, fp) → colon_free id).
Proof.
  intros HK Hk Hc Hu.
  eapply (moves_atomic view env); [exact Henv|done|apply create_atomic|]. intros m [Hok _] _.
  match goal with |- context [mem_createIfAbsent ?i m] =>
    destruct (mem_create_spec i m) as [[-> Hres]|(Hnone & -> & ->)] end; cbn [new_key] in *.
  - split; [apply task_env_refl|]. destruct Hres as [[e ->]|(r & Hr & ->)]; [done|]. cbn [created_record].
    split; [done|]. intros id fp'. by eapply index_named.
  - set (r := new_record _). assert (Hd : decode_index r = Ok (fresh, fp)) by (by apply decode_index_written).
    assert (He : task_env m (map_set k r m)).
    { apply tasks_set_index; [done..|]. intros id fp'. rewrite Hd. by intros [= <- <-]. }
    split; [done|]. cbn [created_record]. split; [apply map_get_set_eq|].
    intros id fp'. rewrite Hd. by intros [= <- <-].
Qed.

Lemma moves_bind_task (K : memory → Prop) input caller key fresh now ttl :
  stable K → colon_free fresh →
  moves K (bind_task input caller key fresh now ttl)
    (λ id m, colon_free id ∧ bound (idempotencyRecordKey (ownerId caller) (credentialBinding caller) key) id m).
Proof.
  intros HK Hc. apply moves_lift_bind. intros fp _.
  eapply moves_bind; [done|eapply moves_create_index; [done|apply indexKey_index|exact Hc|reflexivity]|]. intros o.
  apply moves_lift_bind. intros [id fp'] Hd. apply moves_lift_bind. intros [] _.
  apply moves_ret. intros m (_ & Hr & Hn). split; [by eapply Hn|]. by exists (created_record o), fp'.
Qed.

Definition launchable (id : string) (out : start_outcome) (m : memory) : Prop :=
  match out with
  | Answered d => about id d m
  | Launch id' current claimRevision =>
      id' = id ∧ task_at id current m ∧ tk_status current.1 = creating ∧
      tk_providerTaskId current.1 = None ∧
      DurableEffectsSafety.reached (create_effect id) claimRevision m
  end.

Lemma moves_enter_task (K : memory → Prop) initial caller now :
  stable K → json_ok (task_json initial) = true → colon_free (tk_taskId initial) →
  tk_status initial = creating → tk_providerTaskId initial = None →
  moves K (enter_task initial caller now) (launchable (tk_taskId initial)).
Proof.
  intros HK Hjson Hc Hst Hh. apply moves_lift_bind. intros u Hu. set (id := tk_taskId initial).
  eapply moves_bind; [done|by apply (moves_create_task view env Henv _ _ u now)|]. intros o.
  apply moves_lift_bind. intros [t rev] Hd. apply moves_lift_bind. intros [] _.
  apply moves_lift_bind. intros [] _.
  set (K' := λ m, K m ∧ rec_key (created_record o) = taskKey id ∧ known (created_record o) m ∧
    match o with Created r => value r = upd_value u | Exists _ => True end).
  assert (HK' : stable K')
    by (apply stable_and; [done|apply stable_and; [apply stable_const|apply stable_and;
        [apply task_known_stable|apply stable_const]]]).
  assert (HKt : ∀ m, K' m → task_at id (t, rev) m)
    by (intros m (_ & Hk & Hkn & _); by exists (created_record o)).
  assert (Hanswer : moves K' (d ← failUncertain (t, rev) caller now None; mret (Answered d)) (launchable id)
    ∨ tk_status t ≠ creating).
  { destruct (decide (tk_status t = creating)) as [Hcr|]; [left|by right].
    eapply moves_bind; [done|by apply (moves_failUncertain _ id); [..|left]|]. intros d.
    apply moves_ret. by intros m [_ ?]. }
  destruct o as [r|r].
  - eapply (moves_pure view _ (value r = upd_value u)); [by intros m (_ & _ & _ & ?)|]. intros Hv.
    apply result_bind_Ok in Hu as (text & He & [= <-]). cbn in Hv.
    assert (He' : encode initial = Ok (value r)) by (by rewrite Hv).
    injection (decode_fields _ _ _ _ Hjson He' Hd) as _ Hst' Hh'. rewrite Hst in Hst'. rewrite Hh in Hh'.
    eapply moves_bind; [exact HK'|by apply (task_moves_claim view env Henv)|]. intros [e crev|e crev].
    + apply moves_ret. intros m [Hm Hr]. split_and!; [done|by apply HKt|done..].
    + apply moves_forget. by destruct Hanswer.
  - destruct (bool_decide (tk_status t = creating)) eqn:Hcr; reflect; [by destruct Hanswer|].
    apply moves_lift_bind. intros d Hdet%toDetailed_id. apply moves_ret.
    intros m (Hid & _)%HKt%task_at_facts. cbn. unfold about. congruence.
Qed.

Lemma initial_json_ok id input caller key now ttl :
  json_ok input = true → json_ok (task_json (initial_task rt id input caller key now ttl)) = true.
Proof. intros Hi. by apply task_json_ok. Qed.

Lemma colon_free_fresh u : colon_free u → colon_free ("ajob-" +:+ u).
Proof.
  unfold colon_free. intros Hu. rewrite chars_app. rewrite elem_of_app. intros [Hin|]; [|done].
  revert Hin. by apply (bool_decide_eq_false_1 _).
Qed.

Lemma moves_enter (K : memory → Prop) input caller options :
  stable K → json_ok input = true →
  moves K (enter rt randomUUID input caller options) (λ out m, ∃ id, launchable id out m ∧
    match so_idempotencyKey options with
    | Some key => bound (idempotencyRecordKey (ownerId caller) (credentialBinding caller) key) id m
    | None => True
    end).
Proof.
  intros HK Hi. apply moves_lift_bind. intros ttl _. cbv zeta.
  eapply moves_bind; [done|apply (moves_elsewhere view env _ _ colon_free);
    [exact Henv|apply (quiet_uuid Hquiet)|intros s u; apply (uuid_colon_free Hquiet)]|]. intros u.
  eapply (moves_pure view _ (colon_free u)); [by intros m [_ ?]|]. intros Hu%colon_free_fresh.
  apply moves_forget. set (now := to_Z (so_now options)).
  eapply (moves_bind view _ _ (λ id m, colon_free id ∧ match so_idempotencyKey options with
    | Some key => bound (idempotencyRecordKey (ownerId caller) (credentialBinding caller) key) id m
    | None => True end)); [done| |].
  - destruct (so_idempotencyKey options) as [key|]; [by apply moves_bind_task|by apply moves_ret].
  - intros id. eapply (moves_pure view _ (colon_free id)); [by intros m (_ & ? & _)|]. intros Hc.
    assert (Hb : stable (λ m, match so_idempotencyKey options with
      | Some key => bound (idempotencyRecordKey (ownerId caller) (credentialBinding caller) key) id m
      | None => True end))
      by (destruct (so_idempotencyKey options); [apply task_bound_stable, indexKey_index|apply stable_const]).
    intros s Hg (Hm & _ & Hbound).
    eapply wp_mono; [apply (moves_enter_task K (initial_task rt id input caller (so_idempotencyKey options)
      now ttl) caller now HK (initial_json_ok _ _ _ _ _ _ Hi) Hc eq_refl eq_refl s Hg Hm)|].
    intros [out|e] s' [He HQ]; (split; [exact He|]); [|done]. exists id. split; [exact HQ|].
    by eapply Hb.
Qed.

Lemma moves_creation_failed (K : memory → Prop) id c effectRevision caller now e :
  stable K → colon_free id → (∀ m, K m → task_at id c m) →
  (tk_status c.1 = creating ∨ tk_status c.1 = working) →
  (∀ m, K m → DurableEffectsSafety.reached (create_effect id) effectRevision m) →
  moves K (creation_failed c caller id effectRevision now e) (about id).
Proof.
  intros HK Hc HKc Hst Hrev. destruct c as [t rev].
  eapply (moves_bind view _ _ anything); [done| |].
  - eapply moves_bind; [done|by apply moves_attempt_transition|]. intros. by apply moves_ret.
  - intros []. apply moves_forget. by apply moves_failUncertain.
Qed.

Lemma moves_create_upstream (K : memory → Prop) id c input signal now :
  stable K → (∀ m, K m → task_at id c m) → tk_status c.1 = creating → tk_providerTaskId c.1 = None →
  moves K (create_upstream rt c input signal id now) (λ c' m, task_at id c' m ∧ tk_status c'.1 = working).
Proof.
  intros HK HKc Hst Hh. destruct c as [t rev]. cbn in Hst, Hh. cbn [create_upstream].
  eapply (moves_pure view _ (task_exact t)); [by intros m (_ & _ & ?)%HKc%task_at_facts|]. intros Hx.
  eapply moves_bind; [done|apply moves_elsewhere_any, (quiet_create Hquiet)|]. intros handle.
  apply moves_forget.
  set (next := t <| tk_providerTaskId := Some handle |> <| tk_status := working |>
                 <| tk_updatedAt := now |> <| tk_nextPollAt := now |>).
  assert (Hn : task_ok next ∧ task_step t (normal_task next) ∧ normal_task next = next).
  { apply (plain_step t); [exact Hx|reflexivity|]. split; cbn; try done;
      [by rewrite Hst|intros p Hp; by rewrite Hh in Hp|step_flags]. }
  destruct Hn as (Hok & Hs & _).
  eapply moves_bind; [done|by eapply (moves_cas_task view env Henv)|]. intros [r|r|]; try apply moves_throw.
  apply moves_lift. intros c m Hd (_ & Hw & Ht). cbn in Hw. rewrite Hd in Hw. by injection Hw as ->.
Qed.

Lemma moves_launch (K : memory → Prop) id c claimRevision input caller signal now :
  stable K → colon_free id → (∀ m, K m → task_at id c m) →
  tk_status c.1 = creating → tk_providerTaskId c.1 = None →
  (∀ m, K m → DurableEffectsSafety.reached (create_effect id) claimRevision m) →
  moves K (launch rt id c claimRevision input caller signal now) (about id).
Proof.
  intros HK Hc HKc Hst Hh Hrev. apply moves_bind_transition; [done..|].
  intros e rev' K' HK' HKK Hrev'. cbv beta iota.
  assert (HKc' : ∀ m, K' m → task_at id c m) by auto.
  eapply moves_bind; [done|by apply moves_attempt, (moves_create_upstream K' id)|].
  intros [c'|err]; [|apply moves_forget; apply moves_creation_failed; auto].
  set (K2 := λ m, K' m ∧ task_at id c' m ∧ tk_status c'.1 = working).
  assert (HK2 : stable K2) by (apply stable_and; [done|apply stable_and; [apply task_at_stable|apply stable_const]]).
  eapply (moves_pure view _ (tk_status c'.1 = working ∧ tk_taskId c'.1 = id));
    [intros m (_ & Ht & ?); split; [done|]; destruct c' as [t' rev2]; by apply task_at_facts in Ht as (? & _)|].
  intros [Hst' Hid].
  eapply (moves_bind view K2 _ (λ o m, match o with inl d => about id d m | inr _ => True end)); [done| |].
  - apply moves_attempt. apply moves_bind_transition; [done..|by intros m (? & _); auto|]. intros.
    apply moves_lift. intros d m Hd%toDetailed_id _. unfold about. congruence.
  - intros [d|err]; [by apply moves_ret; intros m [_ ?]|]. apply moves_forget.
    apply moves_creation_failed; [done|done|by intros m (_ & ? & _)|by right|by intros m (? & _); auto].
Qed.

Lemma moves_start (K : memory → Prop) input caller signal options :
  stable K → json_ok input = true →
  moves K (start rt randomUUID input caller signal options) (λ d m, ∃ id, about id d m ∧
    match so_idempotencyKey options with
    | Some key => bound (idempotencyRecordKey (ownerId caller) (credentialBinding caller) key) id m
    | None => True
    end).
Proof.
  intros HK Hi. eapply moves_bind; [done|by apply moves_enter|]. intros out.
  eapply moves_pick; [intros m [_ Hid]; exact Hid|]. intros id.
  set (B := λ m, match so_idempotencyKey options with
    | Some key => bound (idempotencyRecordKey (ownerId caller) (credentialBinding caller) key) id m
    | None => True end).
  assert (HB : stable B) by (unfold B; destruct (so_idempotencyKey options);
    [apply task_bound_stable, indexKey_index|apply stable_const]).
  destruct out as [d|id' c crev].
  { apply moves_ret. intros m [_ [Hd Hb]]. by exists id. }
  eapply (moves_pure view _ (id' = id ∧ tk_status c.1 = creating ∧ tk_providerTaskId c.1 = None ∧ colon_free id));
    [intros m (_ & (-> & Ht & ? & ? & _) & _); destruct c as [t rev]; by apply task_at_facts in Ht as (_ & ? & _)|].
  intros (-> & Hst & Hh & Hc).
  set (K2 := λ m, task_at id c m ∧ DurableEffectsSafety.reached (create_effect id) crev m).
  assert (HK2 : stable K2) by (apply stable_and; [apply task_at_stable|by apply reached_stable]).
  intros s Hg (_ & (_ & Ht & _ & _ & Hr) & Hb).
  eapply wp_mono; [apply (moves_launch K2 id c crev input caller signal (to_Z (so_now options)) HK2 Hc
    (λ m Hm, proj1 Hm) Hst Hh (λ m Hm, proj2 Hm) s Hg (conj Ht Hr))|].
  intros [d|e] s' [He HQ]; (split; [exact He|]); [|done]. exists id. split; [done|]. by eapply HB.
Qed.
End service.

(** ** Claims *)

Inductive task_command (S : Type) :=
  | Start (input : js_value) (caller : AsyncJobCaller) (signal : AbortSignal S) (options : StartMcpTaskOptions)
  | Get (taskId : string) (caller : AsyncJobCaller) (signal : AbortSignal S) (now : number)
  | Update (taskId : string) (responses : list (string * js_value)) (caller : AsyncJobCaller)
      (signal : AbortSignal S) (now : number)
  | Cancel (taskId : string) (caller : AsyncJobCaller) (signal : AbortSignal S) (now : number)
  | StopWaiting (taskId : string) (caller : AsyncJobCaller) (now : number)
  | Describe (taskId : string) (caller : AsyncJobCaller) (signal : AbortSignal S) (now : number).
Arguments Start {S} _ _ _ _.
Arguments Get {S} _ _ _ _.
Arguments Update {S} _ _ _ _ _.
Arguments Cancel {S} _ _ _ _.
Arguments StopWaiting {S} _ _ _.
Arguments Describe {S} _ _ _ _.

(** The same runtime on a provider that creates tasks otherwise. *)
Definition with_create {S} (rt : DurableMcpTaskRuntime S) (create : js_value → AbortSignal S → M S string)
    : DurableMcpTaskRuntime S :=
  let p := provider rt in
  {| provider := {| pv_id := pv_id p; pv_parseInput := pv_parseInput p; pv_create := create;
                    pv_poll := pv_poll p; pv_update := pv_update p; pv_cancel := pv_cancel p |};
     pollIntervalMs := pollIntervalMs rt |}.

Section claims.
Context {S : Type} `{!Sha256Api} `{!DurableRecordStorePort S} (view : S → memory)
  (env : memory → memory → Prop) (rt : DurableMcpTaskRuntime S) (randomUUID : M S string).

Definition perform (c : task_command S) : M S unit :=
  match c with
  | Start input caller signal options => ignore (start rt randomUUID input caller signal options)
  | Get id caller signal now => ignore (get_task rt id caller signal now)
  | Update id responses caller signal now => ignore (update_task rt id responses caller signal now)
  | Cancel id caller signal now => ignore (cancel rt id caller signal now)
  | StopWaiting id caller now => ignore (stopWaiting id caller now)
  | Describe id caller signal now => ignore (describe rt id caller signal now)
  end.

Fixpoint perform_all (cs : list (task_command S)) : M S unit :=
  match cs with
  | [] => mret tt
  | c :: cs' => perform c;; perform_all cs'
  end.

(** Inputs are objects of JavaScript: no property twice. *)
Definition input_ok (c : task_command S) : Prop :=
  match c with Start input _ _ _ => json_ok input = true | _ => True end.

Lemma task_moves_perform_all `{Laws : !DurableStoreLaws view env} cs :
  (∀ m m', env m m' → task_env m m') → quiet view env rt randomUUID → Forall input_ok cs →
  moves view (λ _, True) (perform_all cs) (λ _ _, True).
Proof.
  intros Henv Hquiet. assert (Ht : stable (λ _ : memory, True)) by apply stable_const.
  induction 1 as [|c cs Hc _ IH]; [by apply moves_ret|].
  cbn [perform_all]. eapply moves_bind with (Q := λ _ _, True); [done| |].
  - destruct c; eapply moves_ignore.
    + by eapply moves_start.
    + by eapply task_moves_get.
    + by eapply moves_update.
    + by eapply moves_cancel.
    + by eapply moves_stopWaiting.
    + by eapply moves_describe.
  - intros _. by eapply moves_mono; [| |exact IH].
Qed.

Lemma steps_final t t' :
  rtc task_step t t' →
  (TERMINAL (tk_status t) = true →
    (tk_status t', tk_result t', tk_sanitizedError t', tk_billing t') =
    (tk_status t, tk_result t, tk_sanitizedError t, tk_billing t)) ∧
  (tk_ownerId t', tk_credentialBinding t', tk_operationInput t', tk_expiresAt t') =
  (tk_ownerId t, tk_credentialBinding t, tk_operationInput t, tk_expiresAt t) ∧
  tk_usedInputKeys t `prefix_of` tk_usedInputKeys t'.
Proof.
  induction 1 as [t|t1 t2 t3 Hs _ (IH1 & IH2 & IH3)]; [done|].
  destruct Hs as [Hid Hst _ Hused _ Hfinal]. split_and!.
  - intros Hterm. pose proof (Hfinal Hterm) as Hf.
    assert (tk_status t2 = tk_status t1) as Heq by (by destruct (tk_status t1), (tk_status t2)).
    rewrite Heq in IH1. rewrite IH1 by done. injection Hf. congruence.
  - injection Hid. injection IH2. congruence.
  - by etrans.
Qed.

(** C12: on a store each of whose calls answers for the one instant at which
    it takes effect ([DurableStoreLaws], as the in-memory store does and the
    SQLite store in one process), whatever calls the runtime makes, and however other
    workers, which move tasks as this one does, interleave and calls fail, a
    task's record stays and only moves along the state machine of
    [task_moves]: its owner, input and lifetime never change, answered input
    requests stay answered, and once it completed, failed or was cancelled,
    its status, result and billing are final.  The D1 store is not such a
    store: it answers a write by a read of its own, and there a poll can undo
    a cancellation ([d1_poll_undoes_cancellation]). *)
Theorem durable_tasks_only_move_forward cs s :
  DurableStoreLaws view env → (∀ m m', env m m' → task_env m m') →
  quiet view env rt randomUUID → Forall input_ok cs → good_store (view s) →
  let m' := view (perform_all cs s).2 in
  good_store m' ∧
  ∀ id r t rev, map_get (taskKey id) (view s) = Some r → decode r = Ok (t, rev) →
    ∃ r' t' rev', map_get (taskKey id) m' = Some r' ∧ decode r' = Ok (t', rev') ∧
      (rev ≤ rev')%Z ∧ rtc task_step t t' ∧
      (TERMINAL (tk_status t) = true →
        (tk_status t', tk_result t', tk_sanitizedError t', tk_billing t') =
        (tk_status t, tk_result t, tk_sanitizedError t, tk_billing t)) ∧
      (tk_ownerId t', tk_credentialBinding t', tk_operationInput t', tk_expiresAt t') =
      (tk_ownerId t, tk_credentialBinding t, tk_operationInput t, tk_expiresAt t) ∧
      tk_usedInputKeys t `prefix_of` tk_usedInputKeys t'.
Proof.
  intros Laws Henv Hquiet Hcs Hg m'.
  destruct (task_moves_perform_all (Laws := Laws) cs Henv Hquiet Hcs s Hg I) as [He _].
  split; [exact (evolves_good _ _ He Hg)|]. intros id r t rev Hr Hd.
  destruct (evolve_tasks _ _ (proj1 He) _ _ (taskKey_task id) Hr) as (r' & Hr' & Hev).
  destruct (task_decode_Ok _ _ _ Hd) as [-> _].
  destruct Hev as [->|[Hlt Hsteps]].
  - exists r, t, (revision r). split_and!; try done; lia.
  - destruct (Hsteps _ _ Hd) as (t' & Hd' & Hs). exists r', t', (revision r').
    destruct (steps_final _ _ Hs) as (Hf & Hi & Hu). split_and!; try done; lia.
Qed.

(** *** One creation per idempotency key *)

Lemma create_present `{Laws : !DurableStoreLaws view env} key u r0 s :
  (∀ m m', env m m' → task_env m m') → task_key key → map_get key (view s) = Some r0 →
  wp (ds_createIfAbsent {| new_key := key; new_update := u |})
    (λ o _, match o with Ok (Created _) => False | _ => True end) s.
Proof.
  intros Henv Hk Hr0. eapply (wp_atomic view env); [apply create_atomic| |done]. intros m s' [He _]%Henv _.
  destruct (evolve_tasks _ _ He _ _ Hk Hr0) as (r1 & Hr1 & _).
  match goal with |- context [mem_createIfAbsent ?i m] =>
    destruct (mem_create_spec i m) as [[_ [[e ->]|(r & _ & ->)]]|(Hnone & _ & _)] end; [done..|].
  cbn [new_key] in Hnone. by rewrite Hr1 in Hnone.
Qed.

Definition no_launch (r : result start_outcome) : Prop :=
  match r with Ok (Launch _ _ _) => False | _ => True end.

Lemma enter_task_present `{Laws : !DurableStoreLaws view env} initial caller now r0 s :
  (∀ m m', env m m' → task_env m m') → map_get (taskKey (tk_taskId initial)) (view s) = Some r0 →
  wp (enter_task initial caller now) (λ r _, no_launch r) s.
Proof.
  intros Henv Hr0. apply wp_lift_bind; [|done]. intros u _. apply wp_bind.
  eapply wp_mono; [eapply (create_present _ u _ _ Henv (taskKey_task _) Hr0)|].
  intros [[r|r]|e] s' Ho; [done| |done].
  apply wp_lift_bind; [|done]. intros [t rev] _. do 2 (apply wp_lift_bind; [|done]; intros [] _).
  destruct (bool_decide _); [by apply wp_bind_any|]. apply wp_lift_bind; [|done]. intros d _. by apply wp_ret.
Qed.

Lemma task_bound_unique k id1 id2 m : bound k id1 m → bound k id2 m → id1 = id2.
Proof.
  intros (r1 & fp1 & Hr1 & Hd1) (r2 & fp2 & Hr2 & Hd2). rewrite Hr1 in Hr2. injection Hr2 as <-.
  rewrite Hd1 in Hd2. by injection Hd2.
Qed.

Lemma enter_bound `{Laws : !DurableStoreLaws view env} input caller options key id r0 s :
  (∀ m m', env m m' → task_env m m') → quiet view env rt randomUUID → good_store (view s) →
  so_idempotencyKey options = Some key →
  bound (idempotencyRecordKey (ownerId caller) (credentialBinding caller) key) id (view s) →
  map_get (taskKey id) (view s) = Some r0 →
  wp (enter rt randomUUID input caller options) (λ r _, no_launch r) s.
Proof.
  intros Henv Hquiet Hg Hkey Hb Hr0. set (k := idempotencyRecordKey _ _ _) in Hb.
  apply wp_lift_bind; [|done]. intros ttl _. cbv zeta. rewrite Hkey. apply wp_bind.
  assert (Huuid : moves view (λ _, True) randomUUID (λ u _, colon_free u)).
  { apply (moves_elsewhere view env _ _ colon_free); [exact Henv|apply (quiet_uuid _ _ _ _ Hquiet)|].
    intros s' u. apply (uuid_colon_free _ _ _ _ Hquiet). }
  eapply wp_mono; [exact (Huuid s Hg I)|].
  intros [u|e] s1 [He1 Hu]; [|done]. apply wp_bind. apply colon_free_fresh in Hu.
  eapply wp_mono; [apply (moves_bind_task view env Henv (λ _, True) input caller key _
    (to_Z (so_now options)) ttl (stable_const _) Hu s1 (evolves_good _ _ He1 Hg) I)|].
  intros [id'|e] s2 [He2 Hid]; [|done]. destruct Hid as [_ Hb'].
  assert (He : task_env (view s) (view s2)) by (by eapply task_env_trans).
  assert (id' = id) as ->
    by (eapply task_bound_unique; [exact Hb'|]; by eapply task_bound_stable; [apply indexKey_index|exact He|]).
  destruct (evolve_tasks _ _ (proj1 He) _ _ (taskKey_task id) Hr0) as (r2 & Hr2 & _).
  by eapply enter_task_present.
Qed.

(** C13: an idempotency key has its task created at the provider at most once.
    Let a start with a key have come to the point where it asks the provider
    to create the task.  Whatever happens then, to this call or others, a
    start of the same caller with the same key never asks the provider again
    (another way of creating tasks makes no difference to it), and if it
    answers, then about that task. *)
Theorem task_creation_is_asked_once input1 caller options1 s1 id current claimRevision s1'
    input2 signal options2 s2 key create' :
  DurableStoreLaws view env → (∀ m m', env m m' → task_env m m') →
  quiet view env rt randomUUID → good_store (view s1) →
  json_ok input1 = true → json_ok input2 = true →
  so_idempotencyKey options1 = Some key → so_idempotencyKey options2 = Some key →
  enter rt randomUUID input1 caller options1 s1 = (Ok (Launch id current claimRevision), s1') →
  task_env (view s1') (view s2) →
  let run := start rt randomUUID input2 caller signal options2 s2 in
  start (with_create rt create') randomUUID input2 caller signal options2 s2 = run ∧
  ∀ d, run.1 = Ok d → mt_taskId (detail_base d) = id.
Proof.
  intros Laws Henv Hquiet Hg Hi1 Hi2 Hk1 Hk2 Hrun1 Hbetween run.
  destruct (wp_run _ _ _ _ _ (moves_enter view env Henv rt randomUUID Hquiet (λ _, True) input1 caller
    options1 (stable_const _) Hi1 s1 Hg I) Hrun1) as [He1 (id' & (-> & Ht & _) & Hb)].
  rewrite Hk1 in Hb. destruct Ht as (r1 & Hr1 & _ & [_ _ (r1' & Hget1 & _)]). rewrite Hr1 in Hget1.
  assert (Hg2 : good_store (view s2)).
  { apply (evolves_good (Evolution := task_evolution) _ _ Hbetween), (evolves_good _ _ He1), Hg. }
  assert (Hb2 : bound (idempotencyRecordKey (ownerId caller) (credentialBinding caller) key) id' (view s2))
    by (eapply task_bound_stable; [apply indexKey_index|exact Hbetween|exact Hb]).
  destruct (evolve_tasks _ _ (proj1 Hbetween) _ _ (taskKey_task id') Hget1) as (r2 & Hr2 & _).
  split.
  - pose proof (enter_bound input2 caller options2 key id' r2 s2 Henv Hquiet Hg2 Hk2 Hb2 Hr2) as Hn.
    unfold run, start, mbind, M_bind, wp in *.
    change (enter (with_create rt create')) with (enter rt).
    by destruct (enter rt randomUUID input2 caller options2 s2) as [[[d|]|e] s'].
  - intros d Hd. pose proof (moves_start view env Henv rt randomUUID Hquiet (λ _, True) input2 caller signal
      options2 (stable_const _) Hi2 s2 Hg2 I) as Hm. unfold run in Hd. unfold wp in Hm. rewrite Hd in Hm.
    destruct Hm as [He (id2 & Hid2 & Hb3)]. rewrite Hk2 in Hb3. rewrite Hid2.
    eapply task_bound_unique; [exact Hb3|]. by eapply task_bound_stable; [apply indexKey_index|exact He|].
Qed.

(** *** Other callers *)

(** All that a caller sees of a task that is not there. *)
Definition refusal (id : string) (now : number) : M S unit :=
  lift (assertIdentity id "taskId");; lift (validateTime now);; ds_get (taskKey id);; throw unavailable.

Definition foreign (id : string) (caller : AsyncJobCaller) (m : memory) : Prop :=
  ∃ r t rev, map_get (taskKey id) m = Some r ∧ decode r = Ok (t, rev) ∧ ¬ owns t caller.

(** The store answers that there is no task, or it has one of somebody else. *)
Definition out_of_reach (id : string) (caller : AsyncJobCaller) (s : S) : Prop :=
  (ds_get (taskKey id) s).1 = Ok None ∨ foreign id caller (view s).

Lemma foreign_stable id caller : stable (foreign id caller).
Proof.
  intros m1 m2 [He _] (r1 & t1 & rev1 & Hr1 & Hd1 & Ho).
  destruct (evolve_tasks _ _ He _ _ (taskKey_task id) Hr1) as (r2 & Hr2 & [->|[_ Hs]]);
    [by exists r1, t1, rev1|].
  destruct (Hs _ _ Hd1) as (t2 & Hd2 & Hsteps). exists r2, t2, (revision r2). split_and!; [done..|].
  destruct (steps_final _ _ Hsteps) as (_ & Hid & _). injection Hid as H1 H2 _ _.
  unfold owns. by rewrite H1, H2.
Qed.

Lemma assertCaller_foreign t caller : ¬ owns t caller → assertCaller t caller = Throw unavailable.
Proof.
  intros Ho. unfold assertCaller. destruct (negb _ || negb _) eqn:Hc; [done|]. exfalso. apply Ho.
  apply orb_false_iff in Hc as [H1 H2]. by reflect.
Qed.

(** A read is refused as if there were no task. *)
Lemma read_refused `{Laws : !DurableStoreLaws view env} id caller now s :
  (∀ m m', env m m' → task_env m m') → out_of_reach id caller s →
  ∃ e s', refusal id now s = (Throw e, s') ∧ read id caller now s = (Throw e, s').
Proof.
  intros Henv Hout. unfold refusal, read. rewrite !lift_bind.
  destruct (assertIdentity id "taskId"); [|by eauto].
  destruct (validateTime now); [|by eauto]. unfold mbind, M_bind.
  destruct Hout as [Hnone|Hf].
  { destruct (ds_get (taskKey id) s) as [r s']. cbn in Hnone. subst. by exists unavailable, s'. }
  assert (Hget : wp (ds_get (taskKey id)) (λ r s', match r with
    | Ok (Some record) => ∃ t rev, decode record = Ok (t, rev) ∧ ¬ owns t caller
    | Ok None => False | Throw _ => True end) s).
  { eapply (wp_atomic view env); [apply get_atomic| |done]. intros m s' He%Henv _.
    destruct (foreign_stable _ _ _ _ He Hf) as (r & t & rev & Hr & Hd & Ho).
    destruct (mem_get_spec (taskKey id) m) as [_ [[e ->]| ->]]; [done|]. rewrite Hr. by exists t, rev. }
  unfold wp in Hget. destruct (ds_get (taskKey id) s) as [[[record|]|e] s']; [|done|by exists e, s'].
  destruct Hget as (t & rev & Hd & Ho). exists unavailable, s'. split; [done|].
  unfold mbind, M_bind, lift. by rewrite Hd, assertCaller_foreign.
Qed.

(** a task is out of reach for other callers, and cannot be told from one
    that does not exist.  On the task of another owner or credential, or one
    that is missing, every operation fails with the same error and leaves the
    same state as merely looking the task up and refusing: nothing is written
    and the provider is not called. *)
Theorem foreign_task_is_refused id caller signal responses now s :
  DurableStoreLaws view env → (∀ m m', env m m' → task_env m m') → out_of_reach id caller s →
  ∃ e s', refusal id now s = (Throw e, s') ∧
    get_task rt id caller signal now s = (Throw e, s') ∧
    update_task rt id responses caller signal now s = (Throw e, s') ∧
    cancel rt id caller signal now s = (Throw e, s') ∧
    stopWaiting id caller now s = (Throw e, s') ∧
    describe rt id caller signal now s = (Throw e, s').
Proof.
  intros Laws Henv Hout. destruct (read_refused id caller now s Henv Hout) as (e & s' & Hr & Hread).
  assert (Hget : get_task rt id caller signal now s = (Throw e, s')) by (by apply M_bind_fail).
  exists e, s'. split_and!; [done|done|by apply M_bind_fail..].
Qed.
End claims.

(** ** A store shared with nobody, and a provider that asks once *)

Module TasksDemo.
#[export] Instance digest : Sha256Api := zero_digest.
#[export] Instance port : DurableRecordStorePort (SharedStore task_env) := shared_port (λ _ _, 0%Z).
Abbreviation St := (SharedStore task_env).

Definition linkup : AsyncTaskProviderPort St := {|
  pv_id := "linkup";
  pv_parseInput := λ v, Ok v;
  pv_create := λ _ _, mret "handle-1"%string;
  pv_poll := λ _ _ _, mret {| oc_status := poll_completed; oc_result := Some (JObj [("answer", JStr "42")]%string);
                              oc_inputRequests := None; oc_error := None; oc_billing := None |};
  pv_update := None;
  pv_cancel := None
|}.

Definition rt : DurableMcpTaskRuntime St := {| provider := linkup; pollIntervalMs := 5000 |}.
Definition uuid : M St string := mret "0000"%string.
Definition caller : AsyncJobCaller :=
  {| AsyncJobs.c_ownerId := "tenant"; AsyncJobs.c_credentialBinding := "cred" |}.
Definition other : AsyncJobCaller :=
  {| AsyncJobs.c_ownerId := "tenant"; AsyncJobs.c_credentialBinding := "other" |}.
Definition input : js_value := JObj [("q", JStr "why?")]%string.
Definition calm : AbortSignal St := λ _, false.
Definition options (now : Z) : StartMcpTaskOptions :=
  {| so_ttlMs := None; so_idempotencyKey := Some "k"%string; so_now := int now |}.

Definition empty : St := {| contents := []; turns := [] |}.
Definition entered : St := (enter rt uuid input caller (options 1000) empty).2.
Definition started : St := (start rt uuid input caller calm (options 1000) empty).2.
Definition id : string := "ajob-0000".

Example task_demo_flow :
  let '(r, s) := get_task rt id caller calm (int 7000) started in
  match r with Ok (TaskCompleted _ v) => v = JObj [("answer", JStr "42")]%string | _ => False end ∧
  (cancel rt id caller calm (int 8000) s).1 = Throw (taskError "Task is already terminal") ∧
  (get_task rt id other calm (int 8000) s).1 = Throw unavailable.
Proof. vm_compute. done. Qed.

Lemma task_laws : DurableStoreLaws (contents (env := task_env)) task_env.
Proof. apply shared_store_laws; [apply task_env_refl|apply task_env_trans]. Qed.

Lemma quiet_demo : quiet (contents (env := task_env)) task_env rt uuid.
Proof.
  split; intros; try apply task_env_refl; try done.
  - match goal with H : _ = Ok _ |- _ => injection H as <- end. by apply (bool_decide_eq_true_1 _).
  - match goal with H : _ = Ok _ |- _ => injection H as <- end. split; [|done..].
    by intros v [= <-].
Qed.

Lemma good_empty : good_store (contents empty).
Proof. split; [by split|]. by intros ? ? ? ? ?. Qed.

Lemma good_started : good_store (contents started).
Proof.
  destruct (moves_start contents task_env (Laws := task_laws) (λ m m' He, He) rt uuid quiet_demo (λ _, True)
    input caller calm (options 1000) (stable_const True) eq_refl empty good_empty I) as [He _].
  exact (evolves_good _ _ He good_empty).
Qed.

Definition record : DurableRecord :=
  match map_get (taskKey id) (contents started) with
  | Some r => r | None => Build_DurableRecord "" "" 0 0 0 None end.
Definition task : DurableTaskState :=
  match decode record with Ok (t, _) => t | Throw _ => initial_task rt "" JNull caller None 0 0 end.

(** The first start, up to the call of the provider. *)
Definition launched : (DurableTaskState * Z) * Z :=
  match (enter rt uuid input caller (options 1000) empty).1 with
  | Ok (Launch _ c r) => (c, r) | _ => ((task, 0), 0)%Z end.

Lemma entered_launch :
  enter rt uuid input caller (options 1000) empty = (Ok (Launch id launched.1 launched.2), entered).
Proof. apply injective_projections; [vm_compute; reflexivity|reflexivity]. Qed.
End TasksDemo.

#[local] Existing Instances TasksDemo.digest TasksDemo.port.

Lemma durable_tasks_only_move_forward_witness :
  let m' := contents (perform_all TasksDemo.rt TasksDemo.uuid
    [Get TasksDemo.id TasksDemo.caller TasksDemo.calm (int 7000);
     StopWaiting TasksDemo.id TasksDemo.caller (int 7500)] TasksDemo.started).2 in
  ∃ r' t' rev', map_get (taskKey TasksDemo.id) m' = Some r' ∧ decode r' = Ok (t', rev') ∧
    rtc task_step TasksDemo.task t'.
Proof.
  intros m'.
  destruct (durable_tasks_only_move_forward contents task_env TasksDemo.rt TasksDemo.uuid
    [Get TasksDemo.id TasksDemo.caller TasksDemo.calm (int 7000);
     StopWaiting TasksDemo.id TasksDemo.caller (int 7500)] TasksDemo.started TasksDemo.task_laws
    (λ m m' He, He) TasksDemo.quiet_demo ltac:(by repeat constructor) TasksDemo.good_started) as [_ Hall].
  destruct (Hall TasksDemo.id TasksDemo.record TasksDemo.task 2%Z) as (r' & t' & rev' & Hr' & Hd' & _ & Hs & _);
    [vm_compute; reflexivity..|].
  exists r', t', rev'. split; [exact Hr'|]. split; [exact Hd'|exact Hs].
Defined.

Lemma task_creation_is_asked_once_witness :
  start (with_create TasksDemo.rt (λ _ _, throw TOther)) TasksDemo.uuid TasksDemo.input TasksDemo.caller
    TasksDemo.calm (TasksDemo.options 2000) TasksDemo.entered =
  start TasksDemo.rt TasksDemo.uuid TasksDemo.input TasksDemo.caller TasksDemo.calm
    (TasksDemo.options 2000) TasksDemo.entered.
Proof.
  refine (proj1 (task_creation_is_asked_once contents task_env TasksDemo.rt TasksDemo.uuid TasksDemo.input
    TasksDemo.caller (TasksDemo.options 1000) TasksDemo.empty TasksDemo.id TasksDemo.launched.1
    TasksDemo.launched.2 TasksDemo.entered TasksDemo.input TasksDemo.calm (TasksDemo.options 2000)
    TasksDemo.entered "k"%string _ TasksDemo.task_laws (λ m m' He, He) TasksDemo.quiet_demo
    TasksDemo.good_empty eq_refl eq_refl eq_refl eq_refl TasksDemo.entered_launch (task_env_refl _))).
Defined.

Lemma foreign_task_is_refused_witness :
  ∃ e s', cancel TasksDemo.rt TasksDemo.id TasksDemo.other TasksDemo.calm (int 2000) TasksDemo.started =
    (Throw e, s').
Proof.
  destruct (foreign_task_is_refused contents task_env TasksDemo.rt TasksDemo.id TasksDemo.other
    TasksDemo.calm [] (int 2000) TasksDemo.started TasksDemo.task_laws (λ m m' He, He))
    as (e & s' & _ & _ & _ & Hcancel & _); [|by exists e, s'].
  right. exists TasksDemo.record, TasksDemo.task, 2%Z.
  split; [vm_compute; reflexivity|]. split; [vm_compute; reflexivity|].
  intros [_ Ho]. vm_compute in Ho. discriminate Ho.
Defined.

(** ** A cancellation lost to a poll *)

Module TaskRaceDemo.
Definition any (m m' : memory) : Prop := True.
#[export] Instance port : DurableRecordStorePort (SharedStore any) := shared_port (λ _ _, 0%Z).

(** Another worker takes the lease of a poll just before the cancellation is
    written. *)
Definition leased : memory :=
  match write (TasksDemo.task <| tk_updatedAt := 7000%Z |> <| tk_nextPollAt := 12000%Z |>) 7000 with
  | Ok u => map_set (taskKey TasksDemo.id) (updated_record TasksDemo.record u) (contents TasksDemo.started)
  | Throw _ => []
  end.

Definition rt : DurableMcpTaskRuntime (SharedStore any) := {|
  provider := {| pv_id := "linkup"; pv_parseInput := λ v, Ok v; pv_create := λ _ _, throw TOther;
                 pv_poll := λ _ _ _, throw TOther; pv_update := None; pv_cancel := None |};
  pollIntervalMs := 5000 |}.

Definition racing : SharedStore any :=
  {| contents := contents TasksDemo.started;
     turns := [Build_turn any (λ m, m) (λ _, I) None; Build_turn any (λ _, leased) (λ _, I) None] |}.
End TaskRaceDemo.

#[local] Existing Instance TaskRaceDemo.port.

(** The cancellation succeeds and the task goes on. *)
Lemma cancel_succeeds_without_cancelling :
  let '(r, s') := cancel TaskRaceDemo.rt TasksDemo.id TasksDemo.caller (λ _, false) (int 7001)
                    TaskRaceDemo.racing in
  r = Ok tt ∧
  match map_get (taskKey TasksDemo.id) (contents s') with
  | Some record => match decode record with
                   | Ok (t, _) => tk_status t = working ∧ tk_upstreamCancelRequested t = false
                   | Throw _ => False
                   end
  | None => False
  end.
Proof. vm_compute. done. Qed.
