(* ===== verification/SqlDurableStores.v ===== *)
(** * The durable record stores on D1 and on SQLite

    [D1DurableRecordStore] of [src/worker/d1-durable-store.ts] and
    [SqliteDurableRecordStore] of [src/adapters/state/sqlite-durable-store.ts],
    over the table of [src/migrations/0002_durable_records.sql].  The
    statements are the SQL texts of the sources, with what each does to the
    table; the database runs them, one at a time, and any call may fail.  A
    write is followed by a read, in a call of its own. *)

From S2P Require Import Prelude JsString JsMap Digest Json DurableStore.

(** ** The table *)

(** The columns of a row, of any SQLite value. *)
Record DurableRow := {
  row_namespace : js_value;
  row_key : js_value;
  row_value : js_value;
  row_revision : js_value;
  row_created_at : js_value;
  row_updated_at : js_value;
  row_expires_at : js_value
}.

#[export] Instance DurableRow_updatable : Updatable DurableRow :=
  {| rebuild := λ r, Build_DurableRow (row_namespace r) (row_key r) (row_value r) (row_revision r)
       (row_created_at r) (row_updated_at r) (row_expires_at r) |}.

Abbreviation records_table := (list DurableRow).

Definition is_str (s : string) (v : js_value) : bool :=
  match v with JStr s' => bool_decide (s' = s) | _ => false end.
Definition is_num (z : Z) (v : js_value) : bool :=
  match v with JNum z' => (z' =? z)%Z | _ => false end.

Definition null_or_number (z : option Z) : js_value :=
  match z with Some z => JNum z | None => JNull end.

(** [WHERE namespace = ? AND key = ?], [... AND revision = ?] *)
Definition at_key (ns key : string) (row : DurableRow) : bool :=
  is_str ns (row_namespace row) && is_str key (row_key row).
Definition at_revision (ns key : string) (rev : Z) (row : DurableRow) : bool :=
  at_key ns key row && is_num rev (row_revision row).

Inductive durable_statement :=
  | InsertIfAbsent (ns key value : string) (now : Z) (expiresAt : option Z)
  | UpdateRevision (ns key : string) (rev : Z) (value : string) (now : Z) (expiresAt : option Z)
  | DeleteRevision (ns key : string) (rev : Z).

Definition inserted_row (ns key value : string) (now : Z) (expiresAt : option Z) : DurableRow :=
  {| row_namespace := JStr ns; row_key := JStr key; row_value := JStr value; row_revision := JNum 1;
     row_created_at := JNum now; row_updated_at := JNum now;
     row_expires_at := null_or_number expiresAt |}.

(** [revision = revision + 1] *)
Definition next_revision (v : js_value) : js_value :=
  match v with JNum z => JNum (z + 1) | _ => v end.

Definition updated_row (value : string) (now : Z) (expiresAt : option Z) (row : DurableRow) : DurableRow :=
  row <| row_value := JStr value |> <| row_revision := next_revision (row_revision row) |>
      <| row_updated_at := JNum now |> <| row_expires_at := null_or_number expiresAt |>.

(** A statement and the number of rows it changed; [namespace] and [key] are
    the primary key. *)
Definition exec (st : durable_statement) (t : records_table) : records_table * Z :=
  match st with
  | InsertIfAbsent ns key value now expiresAt =>
      if existsb (at_key ns key) t then (t, 0%Z)
      else (t ++ [inserted_row ns key value now expiresAt], 1%Z)
  | UpdateRevision ns key rev value now expiresAt =>
      ((λ row, if at_revision ns key rev row then updated_row value now expiresAt row else row) <$> t,
       Z.of_nat (length (filter (λ row, at_revision ns key rev row = true) t)))
  | DeleteRevision ns key rev =>
      (filter (λ row, at_revision ns key rev row = false) t,
       Z.of_nat (length (filter (λ row, at_revision ns key rev row = true) t)))
  end.

(** [expires_at IS NOT NULL AND expires_at <= ? AND key > ? ORDER BY key LIMIT ?] *)
Definition expired_row (ns : string) (now : Z) (cursor : string) (row : DurableRow) : bool :=
  is_str ns (row_namespace row) &&
  match row_expires_at row with JNum e => (e <=? now)%Z | _ => false end &&
  match row_key row with JStr k => str_ltb cursor k | _ => false end.

Definition key_before (row row' : DurableRow) : bool :=
  match row_key row, row_key row' with JStr k, JStr k' => negb (str_ltb k' k) | _, _ => false end.

Fixpoint insert_by_key (row : DurableRow) (l : records_table) : records_table :=
  match l with
  | [] => [row]
  | x :: l' => if key_before row x then row :: l else x :: insert_by_key row l'
  end.

Definition expired_rows (ns : string) (now : Z) (cursor : string) (limit : Z) (t : records_table)
    : records_table :=
  take (Z.to_nat limit) (foldr insert_by_key [] (filter (λ row, expired_row ns now cursor row = true) t)).

(** ** The database

    [dd_run] answers the number of changes, or [None] when it did not
    succeed.  A session only picks the replica that answers a read. *)
Class DurableDatabase (S : Type) := {
  dd_run : durable_statement → M S (option Z);
  dd_first : string → string → M S (option DurableRow);
  dd_all : string → Z → string → Z → M S (list DurableRow)
}.

Definition storageUnavailable : thrown := TError "durable metadata store unavailable".

(** [Number.isSafeInteger(v)] *)
Definition safe_integer (v : js_value) : option Z :=
  z ← as_number v; if (Z.abs z <=? MAX_SAFE_INTEGER)%Z then Some z else None.

Definition null_or (read : js_value → option Z) (v : js_value) : option (option Z) :=
  match v with JNull => Some None | _ => Some <$> read v end.

Definition invalid_revision (rev : Z) : bool := (rev <? 1)%Z || (MAX_SAFE_INTEGER <? rev)%Z.

Definition expired_args (nowMs : number) (cursor : option string) (limit : Z) : result unit :=
  throw_if (negb (isSafeInteger nowMs) || num_ltb nowMs (int 0)) (TError "expiry scan timestamp is invalid");;
  match cursor with Some c => validateDurableKey c | None => Ok tt end;;
  throw_if ((limit <? 1)%Z || (1000 <? limit)%Z) (TError "expiry scan limit must be 1..1000").

(** The page of the rows read, one more than asked for telling of others. *)
Definition expired_page (limit : Z) (decoded : list DurableRecord) : DurableExpiredPage :=
  let records := take (Z.to_nat limit) decoded in
  {| page_records := records;
     nextCursor := if (limit <? Z.of_nat (length decoded))%Z then rec_key <$> last records else None |}.

Fixpoint decode_all (decode : DurableRow → result DurableRecord) (rows : list DurableRow)
    : result (list DurableRecord) :=
  match rows with
  | [] => Ok []
  | row :: rows' => r ← decode row; rs ← decode_all decode rows'; Ok (r :: rs)
  end.

(** ** [D1DurableRecordStore] *)

Definition read_record (row : DurableRow) : option DurableRecord :=
  k ← as_string (row_key row); v ← as_string (row_value row);
  rev ← safe_integer (row_revision row); c ← safe_integer (row_created_at row);
  u ← safe_integer (row_updated_at row); e ← null_or safe_integer (row_expires_at row);
  if (rev <? 1)%Z || (c <? 0)%Z || (u <? c)%Z ||
     match e with Some e => (e <=? c)%Z | None => false end then None
  else Some {| rec_key := k; value := v; revision := rev; rec_createdAt := c; rec_updatedAt := u;
               rec_expiresAt := e |}.

Definition decodeRecord (row : DurableRow) : result DurableRecord :=
  match read_record row with
  | None => Throw storageUnavailable
  | Some r =>
      match validateDurableKey (rec_key r);; validateDurableValue (value r) with
      | Ok _ => Ok r
      | Throw _ => Throw storageUnavailable
      end
  end.

Section d1.
Context {S : Type} `{!DurableDatabase S} (namespace : string).

(** Every failure inside a [try] becomes the one error. *)
Definition guarded {A} (c : M S A) : M S A := catch c (λ _, throw storageUnavailable).

Definition select (key : string) : M S (option DurableRecord) :=
  guarded (row ← dd_first namespace key;
           match row with
           | None => mret None
           | Some row => r ← lift (decodeRecord row); mret (Some r)
           end).

(** The number of changes of a statement that succeeded. *)
Definition run_changes (st : durable_statement) : M S Z :=
  guarded (changes ← dd_run st;
           match changes with Some n => mret n | None => throw storageUnavailable end).

Definition d1_get (key : string) : M S (option DurableRecord) :=
  lift (validateDurableKey key);; select key.

Definition d1_createIfAbsent (input : NewDurableRecord) : M S DurableCreateResult :=
  let u := new_update input in
  lift (validateDurableKey (new_key input));;
  lift (validateDurableWrite u);;
  changes ← run_changes (InsertIfAbsent namespace (new_key input) (upd_value u) (to_Z (upd_nowMs u))
                           (to_Z <$> upd_expiresAt u));
  record ← select (new_key input);
  match record with
  | None => throw storageUnavailable
  | Some r => mret (if (changes =? 1)%Z then Created r else Exists r)
  end.

Definition d1_compareAndSwap (key : string) (expectedRevision : Z) (u : DurableRecordUpdate)
    : M S DurableCasResult :=
  lift (validateDurableKey key);;
  lift (validateDurableWrite u);;
  lift (throw_if (invalid_revision expectedRevision) (TError "expected revision is invalid"));;
  changes ← run_changes (UpdateRevision namespace key expectedRevision (upd_value u)
                           (to_Z (upd_nowMs u)) (to_Z <$> upd_expiresAt u));
  record ← select key;
  if (changes =? 1)%Z then
    match record with None => throw storageUnavailable | Some r => mret (Updated r) end
  else mret (match record with None => Missing | Some r => Conflict r end).

Definition d1_deleteIfRevision (key : string) (expectedRevision : Z) : M S DurableDeleteResult :=
  lift (validateDurableKey key);;
  lift (throw_if (invalid_revision expectedRevision) (TError "expected revision is invalid"));;
  changes ← run_changes (DeleteRevision namespace key expectedRevision);
  if (changes =? 1)%Z then mret Deleted
  else
    record ← select key;
    mret (match record with None => DeleteMissing | Some _ => DeleteConflict end).

Definition d1_scanExpired (nowMs : number) (cursor : option string) (limit : Z)
    : M S DurableExpiredPage :=
  lift (expired_args nowMs cursor limit);;
  guarded (rows ← dd_all namespace (to_Z nowMs) (default ""%string cursor) (limit + 1);
           decoded ← lift (decode_all decodeRecord rows);
           mret (expired_page limit decoded)).

Definition D1DurableRecordStore : DurableRecordStorePort S := {|
  ds_get := d1_get;
  ds_createIfAbsent := d1_createIfAbsent;
  ds_compareAndSwap := d1_compareAndSwap;
  ds_deleteIfRevision := d1_deleteIfRevision;
  ds_scanExpired := d1_scanExpired
|}.
End d1.

(** ** [SqliteDurableRecordStore] *)

(** The numbers of the model are integers. *)
Definition decodeRow (row : DurableRow) : result DurableRecord :=
  match as_string (row_key row), as_string (row_value row), as_number (row_revision row),
        as_number (row_created_at row), as_number (row_updated_at row),
        null_or as_number (row_expires_at row) with
  | Some k, Some v, Some rev, Some c, Some u, Some e =>
      Ok {| rec_key := k; value := v; revision := rev; rec_createdAt := c; rec_updatedAt := u;
            rec_expiresAt := e |}
  | _, _, _, _, _, _ => Throw (TError "durable metadata row is malformed")
  end.

Section sqlite.
Context {S : Type} `{!DurableDatabase S} (namespace : string).

(** [run(...).changes]; a statement that fails throws. *)
Definition sqlite_run (st : durable_statement) : M S Z :=
  changes ← dd_run st;
  match changes with Some n => mret n | None => throw TOther end.

Definition sqlite_get (key : string) : M S (option DurableRecord) :=
  lift (validateDurableKey key);;
  row ← dd_first namespace key;
  match row with
  | None => mret None
  | Some row => r ← lift (decodeRow row); mret (Some r)
  end.

Definition sqlite_createIfAbsent (input : NewDurableRecord) : M S DurableCreateResult :=
  let u := new_update input in
  lift (validateDurableKey (new_key input));;
  lift (validateDurableWrite u);;
  changes ← sqlite_run (InsertIfAbsent namespace (new_key input) (upd_value u) (to_Z (upd_nowMs u))
                          (to_Z <$> upd_expiresAt u));
  record ← sqlite_get (new_key input);
  match record with
  | None => throw (TError "durable metadata create did not produce a record")
  | Some r => mret (if (changes =? 1)%Z then Created r else Exists r)
  end.

Definition sqlite_compareAndSwap (key : string) (expectedRevision : Z) (u : DurableRecordUpdate)
    : M S DurableCasResult :=
  lift (validateDurableKey key);;
  lift (validateDurableWrite u);;
  lift (throw_if (invalid_revision expectedRevision) (TError "expected revision is invalid"));;
  changes ← sqlite_run (UpdateRevision namespace key expectedRevision (upd_value u)
                          (to_Z (upd_nowMs u)) (to_Z <$> upd_expiresAt u));
  record ← sqlite_get key;
  if (changes =? 1)%Z then
    match record with
    | None => throw (TError "durable metadata update lost its record")
    | Some r => mret (Updated r)
    end
  else mret (match record with None => Missing | Some r => Conflict r end).

Definition sqlite_deleteIfRevision (key : string) (expectedRevision : Z) : M S DurableDeleteResult :=
  lift (validateDurableKey key);;
  lift (throw_if (invalid_revision expectedRevision) (TError "expected revision is invalid"));;
  changes ← sqlite_run (DeleteRevision namespace key expectedRevision);
  if (changes =? 1)%Z then mret Deleted
  else
    record ← sqlite_get key;
    mret (match record with None => DeleteMissing | Some _ => DeleteConflict end).

Definition sqlite_scanExpired (nowMs : number) (cursor : option string) (limit : Z)
    : M S DurableExpiredPage :=
  lift (expired_args nowMs cursor limit);;
  rows ← dd_all namespace (to_Z nowMs) (default ""%string cursor) (limit + 1);
  decoded ← lift (decode_all decodeRow rows);
  mret (expired_page limit decoded).

Definition SqliteDurableRecordStore : DurableRecordStorePort S := {|
  ds_get := sqlite_get;
  ds_createIfAbsent := sqlite_createIfAbsent;
  ds_compareAndSwap := sqlite_compareAndSwap;
  ds_deleteIfRevision := sqlite_deleteIfRevision;
  ds_scanExpired := sqlite_scanExpired
|}.
End sqlite.
