(* ===== verification/SqlDurableStoresSafety.v ===== *)
(** * The SQL record stores refine the in-memory one

    Alone on a database that runs its statements, the D1 and the SQLite store
    return what the in-memory store returns, for their own namespace only.
    Among other writers, a conditional write of D1 still succeeds at most once
    per revision; but what it answers is read back in a second call, and may
    be a later record than the one it wrote. *)

From S2P Require Import Prelude Interference JsString JsMap Digest Json DurableStore SqlDurableStores.
From S2P Require DurableMcpTasks DurableMcpTasksSafety AsyncJobs.

(** ** Rows and records *)

Definition row_of (ns : string) (r : DurableRecord) : DurableRow :=
  {| row_namespace := JStr ns; row_key := JStr (rec_key r); row_value := JStr (value r);
     row_revision := JNum (revision r); row_created_at := JNum (rec_createdAt r);
     row_updated_at := JNum (rec_updatedAt r); row_expires_at := null_or_number (rec_expiresAt r) |}.

Definition in_namespace (ns : string) (row : DurableRow) : bool := is_str ns (row_namespace row).

(** What the checks on rows ask of a record. *)
Record storable (r : DurableRecord) : Prop := {
  st_key : validateDurableKey (rec_key r) = Ok tt;
  st_value : validateDurableValue (value r) = Ok tt;
  st_revision : (1 ≤ revision r ≤ MAX_SAFE_INTEGER)%Z;
  st_created : (0 ≤ rec_createdAt r)%Z;
  st_updated : (rec_createdAt r ≤ rec_updatedAt r ≤ MAX_SAFE_INTEGER)%Z;
  st_expires e : rec_expiresAt r = Some e → (rec_createdAt r < e ≤ MAX_SAFE_INTEGER)%Z
}.

(** The rows of a namespace are the records of the map, in its order. *)
Record holds_records (ns : string) (t : records_table) (m : memory) : Prop := {
  holds_rows : filter (λ row, in_namespace ns row = true) t = row_of ns <$> m.*2;
  holds_ok : map_ok m;
  holds_keyed : Forall (λ kr, kr.1 = rec_key kr.2) m;
  holds_storable : Forall (λ kr, storable kr.2) m
}.

Lemma safe_integer_num z : (Z.abs z ≤ MAX_SAFE_INTEGER)%Z → safe_integer (JNum z) = Some z.
Proof. intros Hz. unfold safe_integer. cbn [as_number mbind option_bind]. by rewrite (proj2 (Z.leb_le _ _) Hz). Qed.

Lemma decodeRecord_row ns r : storable r → decodeRecord (row_of ns r) = Ok r.
Proof.
  intros [Hk Hv Hr Hc Hu He]. unfold decodeRecord, read_record. cbn [row_of row_key row_value row_revision
    row_created_at row_updated_at row_expires_at as_string mbind option_bind].
  rewrite !safe_integer_num by lia. cbn [mbind option_bind].
  assert (Hexp : null_or safe_integer (null_or_number (rec_expiresAt r)) = Some (rec_expiresAt r)).
  { destruct (rec_expiresAt r) as [e|]; [|done]. cbn [null_or_number null_or].
    by rewrite safe_integer_num by (destruct (He e eq_refl); lia). }
  rewrite Hexp. cbn [mbind option_bind].
  rewrite (proj2 (Z.ltb_ge _ _)), (proj2 (Z.ltb_ge _ _)), (proj2 (Z.ltb_ge _ _)) by lia. cbn [orb].
  assert (Hle : match rec_expiresAt r with Some e => (e <=? rec_createdAt r)%Z | None => false end = false)
    by (destruct (rec_expiresAt r) as [e|]; [apply Z.leb_gt; by apply He|done]).
  rewrite Hle. cbn [rec_key value]. rewrite Hk, Hv. cbn. by destruct r.
Qed.

Lemma decodeRow_row ns r : decodeRow (row_of ns r) = Ok r.
Proof. by destruct r as [? ? ? ? ? []]. Qed.

Lemma at_key_row ns key r : at_key ns key (row_of ns r) = bool_decide (rec_key r = key).
Proof. unfold at_key. cbn. by rewrite bool_decide_true. Qed.

Lemma at_key_namespace ns key row : at_key ns key row = true → in_namespace ns row = true.
Proof. by intros [? _]%andb_true_iff. Qed.

(** ** What the statements do to the records *)

Lemma find_filter {A} (p q : A → bool) (l : list A) :
  (∀ x, p x = true → q x = true) → find p l = find p (filter (λ x, q x = true) l).
Proof.
  intros Hpq. induction l as [|x l IH]; [done|]. rewrite filter_cons. cbn [find].
  destruct (p x) eqn:Hp; [by rewrite decide_True by auto; cbn; rewrite Hp|].
  case_decide; [by cbn; rewrite Hp|done].
Qed.

Lemma existsb_filter {A} (p q : A → bool) (l : list A) :
  (∀ x, p x = true → q x = true) → existsb p l = existsb p (filter (λ x, q x = true) l).
Proof.
  intros Hpq. induction l as [|x l IH]; [done|]. rewrite filter_cons. cbn [existsb].
  destruct (p x) eqn:Hp; [by rewrite decide_True by auto; cbn; rewrite Hp|].
  case_decide; [by cbn; rewrite Hp|done].
Qed.

Lemma filter_filter_sub {A} (p q : A → bool) (l : list A) :
  (∀ x, p x = true → q x = true) →
  filter (λ x, p x = true) (filter (λ x, q x = true) l) = filter (λ x, p x = true) l.
Proof.
  intros Hpq. induction l as [|x l IH]; [done|]. rewrite (filter_cons (λ x, q x = true)).
  case_decide as Hq; rewrite !(filter_cons (λ x, p x = true)); [by rewrite IH|].
  rewrite IH, decide_False; [done|]. intros Hp. by apply Hq, Hpq.
Qed.

Section rows.
Context (ns : string).
Notation rows m := (row_of ns <$> (m : memory).*2).

Lemma find_rows key (m : memory) :
  Forall (λ kr, kr.1 = rec_key kr.2) m → find (at_key ns key) (rows m) = row_of ns <$> map_get key m.
Proof.
  induction 1 as [|[k r] m Hk _ IH]; [done|]. cbn in Hk. subst k. rewrite !fmap_cons. cbn [find snd map_get].
  rewrite at_key_row. destruct (decide (key = rec_key r)) as [->|Hne].
  - by rewrite bool_decide_true.
  - by rewrite bool_decide_false by congruence.
Qed.

Lemma existsb_rows key (m : memory) :
  Forall (λ kr, kr.1 = rec_key kr.2) m → existsb (at_key ns key) (rows m) = map_has key m.
Proof.
  unfold map_has. induction 1 as [|[k r] m Hk _ IH]; [done|]. cbn in Hk. subst k. rewrite !fmap_cons.
  cbn [existsb snd map_get]. rewrite at_key_row, IH. destruct (decide (key = rec_key r)) as [->|Hne].
  - by rewrite bool_decide_true.
  - by rewrite bool_decide_false by congruence.
Qed.

Lemma at_revision_row key rev r :
  at_revision ns key rev (row_of ns r) = bool_decide (rec_key r = key) && (revision r =? rev)%Z.
Proof. unfold at_revision. by rewrite at_key_row. Qed.

(** The rows of one revision of a key: none, or the one of the map. *)
Lemma no_rows_at key rev (m : memory) :
  Forall (λ kr, kr.1 = rec_key kr.2) m →
  (∀ r, map_get key m = Some r → revision r ≠ rev) → map_ok m →
  Forall (λ row, at_revision ns key rev row = false) (rows m).
Proof.
  intros Hk. induction Hk as [|[k r] m Hk _ IH]; [constructor|]. cbn in Hk. subst k. intros Hget Hok.
  apply NoDup_cons in Hok as [Hn Hok]. rewrite !fmap_cons. cbn [map_get fst snd] in *. constructor.
  - rewrite at_revision_row. apply andb_false_iff. case_bool_decide as Hkey; [right|by left].
    apply Z.eqb_neq, Hget. by rewrite decide_True.
  - apply IH; [|done]. intros r' Hr'. apply Hget. rewrite decide_False; [done|].
    intros ->. apply Hn. destruct (decide (rec_key r ∈ map_keys m)) as [|Hnot]; [done|].
    apply map_get_None in Hnot. by rewrite Hnot in Hr'.
Qed.

Lemma no_change key rev f (t : list DurableRow) :
  Forall (λ row, at_revision ns key rev row = false) t →
  (λ row, if at_revision ns key rev row then f row else row) <$> t = t ∧
  filter (λ row, at_revision ns key rev row = true) t = [] ∧
  filter (λ row, at_revision ns key rev row = false) t = t.
Proof.
  induction 1 as [|row t Hrow _ (IH1 & IH2 & IH3)]; [done|]. rewrite fmap_cons, !filter_cons, Hrow.
  rewrite IH1, IH2. rewrite decide_False, decide_True by done. by rewrite IH3.
Qed.

Lemma one_row_at key r (m : memory) :
  Forall (λ kr, kr.1 = rec_key kr.2) m → map_ok m → map_get key m = Some r →
  length (filter (λ row, at_revision ns key (revision r) row = true) (rows m)) = 1 ∧
  filter (λ row, at_revision ns key (revision r) row = false) (rows m) = rows (map_delete key m) ∧
  ∀ f r', f (row_of ns r) = row_of ns r' →
    (λ row, if at_revision ns key (revision r) row then f row else row) <$> rows m = rows (map_set key r' m).
Proof.
  intros Hk. induction Hk as [|[k x] m Hk Hks IH]; [done|]. cbn in Hk. subst k. intros Hok Hget.
  pose proof Hok as Hok'. apply NoDup_cons in Hok' as [Hn Hok'].
  rewrite !fmap_cons, !filter_cons, at_revision_row. cbn [map_get map_set map_delete fst snd] in *.
  destruct (decide (key = rec_key x)) as [->|Hne].
  - injection Hget as ->. rewrite bool_decide_true, Z.eqb_refl by done. cbn [andb].
    assert (Hnone : map_get (rec_key r) m = None) by (by apply map_get_None).
    assert (Hrest : Forall (λ row, at_revision ns (rec_key r) (revision r) row = false) (rows m))
      by (apply no_rows_at; [done|intros r1 Hr1; by rewrite Hnone in Hr1|done]).
    rewrite decide_True, decide_False by done.
    assert (Hdel : map_delete (rec_key r) m = m).
    { clear -Hnone. induction m as [|[k v] m IH]; [done|]. cbn in *. case_decide; [done|]. by rewrite IH. }
    split_and!.
    + cbn [length]. destruct (no_change _ _ (λ x, x) _ Hrest) as (_ & -> & _). done.
    + destruct (no_change _ _ (λ x, x) _ Hrest) as (_ & _ & ->). by rewrite Hdel.
    + intros f r' Hf. rewrite fmap_cons. cbn [snd]. rewrite at_revision_row, bool_decide_true, Z.eqb_refl by done.
      cbn [andb]. destruct (no_change _ _ f _ Hrest) as (-> & _). by rewrite Hf.
  - rewrite bool_decide_false by congruence. cbn [andb]. destruct (IH Hok' Hget) as (IH1 & IH2 & IH3).
    rewrite decide_False, decide_True by done. split_and!; [done|by rewrite IH2|].
    intros f r' Hf. rewrite !fmap_cons. cbn [snd]. rewrite at_revision_row, bool_decide_false by congruence.
    cbn [andb]. by rewrite (IH3 f r' Hf).
Qed.
End rows.

Definition elsewhere (ns : string) (t : records_table) : records_table :=
  filter (λ row, in_namespace ns row = false) t.

Lemma filter_map_same {A} (p : A → bool) (f : A → A) (b : bool) (l : list A) :
  (∀ x, p (f x) = p x) → filter (λ x, p x = b) (f <$> l) = f <$> filter (λ x, p x = b) l.
Proof.
  intros Hf. induction l as [|x l IH]; [done|]. rewrite fmap_cons, !filter_cons, Hf, IH. by case_decide.
Qed.

Lemma map_untouched {A} (p : A → bool) (f : A → A) (l : list A) :
  Forall (λ x, p x = false) l → (λ x, if p x then f x else x) <$> l = l.
Proof. induction 1 as [|x l Hx _ IH]; [done|]. by rewrite fmap_cons, Hx, IH. Qed.

Lemma elsewhere_revision ns key rev t :
  Forall (λ row, at_revision ns key rev row = false) (elsewhere ns t).
Proof.
  apply Forall_forall. intros row [Hns _]%list_elem_of_filter. unfold at_revision, at_key.
  unfold in_namespace in Hns. by rewrite Hns.
Qed.

Lemma revision_namespace ns key rev row : at_revision ns key rev row = true → in_namespace ns row = true.
Proof. by intros [?%at_key_namespace _]%andb_true_iff. Qed.

Lemma Forall_map_set {V} (P : string * V → Prop) k v (m : js_map V) :
  P (k, v) → Forall P m → Forall P (map_set k v m).
Proof.
  intros Hkv. induction 1 as [|[k' v'] m Hx Hm IH]; cbn; [by apply Forall_singleton|].
  case_decide; [subst; by constructor|by constructor].
Qed.

Lemma Forall_map_delete {V} (P : string * V → Prop) k (m : js_map V) : Forall P m → Forall P (map_delete k m).
Proof. induction 1 as [|[k' v'] m Hx Hm IH]; cbn; [done|]. case_decide; [done|by constructor]. Qed.

Section statements.
Context (ns : string) (t : records_table) (m : memory) (Hm : holds_records ns t m).

Lemma holds_lookup key r : map_get key m = Some r → rec_key r = key ∧ storable r.
Proof.
  intros Hr%map_get_Some; [|apply Hm]. pose proof (holds_keyed _ _ _ Hm) as Hk.
  pose proof (holds_storable _ _ _ Hm) as Hs. rewrite Forall_forall in Hk, Hs.
  split; [symmetry; apply (Hk _ Hr)|apply (Hs _ Hr)].
Qed.

Lemma find_record key : find (at_key ns key) t = row_of ns <$> map_get key m.
Proof.
  rewrite (find_filter _ (in_namespace ns)) by apply at_key_namespace.
  rewrite (holds_rows _ _ _ Hm). apply find_rows, Hm.
Qed.

Lemma exec_insert key v now e :
  let r := {| rec_key := key; value := v; revision := 1; rec_createdAt := now; rec_updatedAt := now;
              rec_expiresAt := e |} in
  storable r →
  match map_get key m with
  | Some _ => exec (InsertIfAbsent ns key v now e) t = (t, 0%Z)
  | None =>
      (exec (InsertIfAbsent ns key v now e) t).2 = 1%Z ∧
      holds_records ns (exec (InsertIfAbsent ns key v now e) t).1 (map_set key r m) ∧
      elsewhere ns (exec (InsertIfAbsent ns key v now e) t).1 = elsewhere ns t
  end.
Proof.
  intros r Hr. cbn [exec]. rewrite (existsb_filter _ (in_namespace ns)) by apply at_key_namespace.
  rewrite (holds_rows _ _ _ Hm), existsb_rows by apply Hm. unfold map_has.
  destruct (map_get key m) as [x|] eqn:Hget; [by rewrite bool_decide_true|].
  rewrite bool_decide_false by (intros Hn; by apply Hn). cbn [fst snd].
  change (inserted_row ns key v now e) with (row_of ns r).
  assert (Hset : map_set key r m = m ++ [(key, r)]) by (by apply map_set_absent, map_get_None).
  split; [done|]. rewrite Hset. split.
  - split.
    + rewrite filter_app, (holds_rows _ _ _ Hm), !fmap_app. f_equal. rewrite filter_cons, filter_nil.
      unfold in_namespace. cbn. by rewrite bool_decide_true, decide_True.
    + rewrite <- Hset. apply map_ok_set, Hm.
    + apply Forall_app. split; [apply Hm|by apply Forall_singleton].
    + apply Forall_app. split; [apply Hm|by apply Forall_singleton].
  - unfold elsewhere. rewrite filter_app, filter_cons, filter_nil. unfold in_namespace at 2. cbn.
    rewrite bool_decide_true, decide_False by done. by rewrite app_nil_r.
Qed.

Lemma update_namespace v now e key rev row :
  in_namespace ns (if at_revision ns key rev row then updated_row v now e row else row) = in_namespace ns row.
Proof. by destruct (at_revision _ _ _ _). Qed.

Lemma count_namespace key rev :
  filter (λ row, at_revision ns key rev row = true) t =
  filter (λ row, at_revision ns key rev row = true) (row_of ns <$> m.*2).
Proof.
  rewrite <- (holds_rows _ _ _ Hm), (filter_filter_sub _ (in_namespace ns)); [done|].
  intros row. apply revision_namespace.
Qed.

(** A statement on a revision that is not there does nothing. *)
Lemma exec_absent key rev v now e :
  (∀ r, map_get key m = Some r → revision r ≠ rev) →
  exec (UpdateRevision ns key rev v now e) t = (t, 0%Z) ∧ exec (DeleteRevision ns key rev) t = (t, 0%Z).
Proof.
  intros Hget.
  assert (Hnone : Forall (λ row, at_revision ns key rev row = false) t).
  { apply Forall_forall. intros row Hin. destruct (at_revision ns key rev row) eqn:Hrow; [|done].
    pose proof (no_rows_at ns key rev m (holds_keyed _ _ _ Hm) Hget (holds_ok _ _ _ Hm)) as Hrows.
    rewrite <- (holds_rows _ _ _ Hm), Forall_forall in Hrows.
    rewrite <- Hrow. apply Hrows, list_elem_of_filter. split; [by eapply revision_namespace|done]. }
  cbn [exec]. destruct (no_change ns key rev (updated_row v now e) _ Hnone) as (-> & -> & ->). done.
Qed.

Lemma exec_update key r v now e :
  let r' := r <| value := v |> <| revision := (revision r + 1)%Z |> <| rec_updatedAt := now |>
              <| rec_expiresAt := e |> in
  map_get key m = Some r → storable r' →
  let '(t', n) := exec (UpdateRevision ns key (revision r) v now e) t in
  n = 1%Z ∧ holds_records ns t' (map_set key r' m) ∧ elsewhere ns t' = elsewhere ns t.
Proof.
  intros r' Hget Hst. cbn [exec].
  destruct (one_row_at ns key r m (holds_keyed _ _ _ Hm) (holds_ok _ _ _ Hm) Hget) as (Hone & _ & Hset).
  rewrite count_namespace, Hone. split; [done|]. destruct (holds_lookup _ _ Hget) as [Hkey _]. split.
  - split.
    + rewrite (filter_map_same (in_namespace ns)) by apply update_namespace.
      rewrite (holds_rows _ _ _ Hm). apply Hset. by destruct r.
    + apply map_ok_set, Hm.
    + apply Forall_map_set; [by symmetry|apply Hm].
    + apply Forall_map_set; [done|apply Hm].
  - unfold elsewhere. rewrite (filter_map_same (in_namespace ns)) by apply update_namespace.
    apply map_untouched, elsewhere_revision.
Qed.

Lemma exec_delete key r :
  map_get key m = Some r →
  let '(t', n) := exec (DeleteRevision ns key (revision r)) t in
  n = 1%Z ∧ holds_records ns t' (map_delete key m) ∧ elsewhere ns t' = elsewhere ns t.
Proof.
  intros Hget. cbn [exec].
  destruct (one_row_at ns key r m (holds_keyed _ _ _ Hm) (holds_ok _ _ _ Hm) Hget) as (Hone & Hdel & _).
  rewrite count_namespace, Hone. split; [done|].
  assert (Hcomm : ∀ b, filter (λ row, in_namespace ns row = b)
      (filter (λ row, at_revision ns key (revision r) row = false) t) =
    filter (λ row, at_revision ns key (revision r) row = false) (filter (λ row, in_namespace ns row = b) t)).
  { intros b. rewrite !list_filter_filter. apply list_filter_iff. tauto. }
  split.
  - split.
    + rewrite Hcomm, (holds_rows _ _ _ Hm). exact Hdel.
    + apply map_ok_delete, Hm.
    + apply Forall_map_delete, Hm.
    + apply Forall_map_delete, Hm.
  - unfold elsewhere. rewrite Hcomm. apply (no_change ns key (revision r) (λ x, x)), elsewhere_revision.
Qed.
End statements.

(** ** What the checks promise *)

Lemma validated_write u :
  validateDurableWrite u = Ok tt →
  validateDurableValue (upd_value u) = Ok tt ∧ (0 ≤ to_Z (upd_nowMs u) ≤ MAX_SAFE_INTEGER)%Z ∧
  ∀ e, to_Z <$> upd_expiresAt u = Some e → (to_Z (upd_nowMs u) < e ≤ MAX_SAFE_INTEGER)%Z.
Proof.
  intros ([] & Hv & ([] & Hn & He)%result_bind_Ok)%result_bind_Ok. split; [done|].
  apply throw_if_Ok in Hn, He. unfold isSafeInteger in Hn. reflect.
  assert (Hzero : isInteger (int 0) = true) by done.
  rewrite num_ltb_integer, to_Z_int in * by done. reflect. split; [lia|].
  intros e Hexp. destruct (upd_expiresAt u) as [x|]; [|done]. injection Hexp as <-.
  unfold isSafeInteger in He. reflect. rewrite num_leb_integer in * by done. reflect. lia.
Qed.

Lemma storable_new input :
  validateDurableKey (new_key input) = Ok tt → validateDurableWrite (new_update input) = Ok tt →
  storable (new_record input).
Proof. intros Hk (Hv & Hn & He)%validated_write. split; cbn; try done; lia. Qed.

Lemma storable_updated r u :
  storable r → validateDurableWrite u = Ok tt → (rec_createdAt r ≤ to_Z (upd_nowMs u))%Z →
  (revision r < MAX_SAFE_INTEGER)%Z → storable (updated_record r u).
Proof.
  intros Hr (Hv & Hn & He)%validated_write Hclock Hrev. destruct Hr. split; cbn; try done; try lia.
  intros e Hexp. specialize (He e Hexp). lia.
Qed.

(** ** A database of one party *)

Class DatabaseLaws {S} `{!DurableDatabase S} (view : S → records_table) : Prop := {
  run_law st s : (dd_run st s).1 = Ok (Some (exec st (view s)).2) ∧ view (dd_run st s).2 = (exec st (view s)).1;
  first_law ns key s :
    (dd_first ns key s).1 = Ok (find (at_key ns key) (view s)) ∧ view (dd_first ns key s).2 = view s;
  all_law ns now cursor limit s :
    (dd_all ns now cursor limit s).1 = Ok (expired_rows ns now cursor limit (view s)) ∧
    view (dd_all ns now cursor limit s).2 = view s
}.

(** The database as the table alone. *)
#[export] Instance TableDatabase : DurableDatabase records_table := {
  dd_run st t := let '(t', n) := exec st t in (Ok (Some n), t');
  dd_first ns key t := (Ok (find (at_key ns key) t), t);
  dd_all ns now cursor limit t := (Ok (expired_rows ns now cursor limit t), t)
}.

#[export] Instance TableDatabase_laws : DatabaseLaws (λ t : records_table, t).
Proof.
  split; intros; cbn [dd_run dd_first dd_all TableDatabase]; [|by split..]. by destruct (exec st s).
Qed.

(** ** The scan *)

(** The order of SQLite's [BINARY] collation. *)
Definition binary_compare (a b : string) : Z :=
  if str_ltb b a then 1 else if str_ltb a b then -1 else 0.

Lemma binary_compare_leb a b : (binary_compare a b <=? 0)%Z = negb (str_ltb b a).
Proof. unfold binary_compare. by destruct (str_ltb b a), (str_ltb a b). Qed.

Lemma insert_by_key_rows ns r l :
  insert_by_key (row_of ns r) (row_of ns <$> l) = row_of ns <$> insert_record binary_compare r l.
Proof.
  induction l as [|x l IH]; [done|]. rewrite fmap_cons. cbn [insert_by_key insert_record].
  unfold key_before. cbn [row_key row_of]. rewrite binary_compare_leb.
  destruct (str_ltb (rec_key x) (rec_key r)); cbn [negb]; [by rewrite IH|done].
Qed.

Lemma sort_rows ns l :
  foldr insert_by_key [] (row_of ns <$> l) = row_of ns <$> sort_records binary_compare l.
Proof.
  unfold sort_records. induction l as [|x l IH]; [done|]. rewrite fmap_cons. cbn [foldr].
  by rewrite IH, insert_by_key_rows.
Qed.

Lemma expired_row_of ns now cursor r :
  isInteger now = true →
  expired_row ns (to_Z now) (default "" cursor) (row_of ns r) = scannable now cursor r.
Proof.
  intros Hnow. unfold expired_row, scannable. cbn [row_of row_namespace row_expires_at row_key is_str].
  rewrite bool_decide_true by done. destruct (rec_expiresAt r) as [e|]; [|done]. cbn [null_or_number andb].
  rewrite (num_leb_integer (int e)), to_Z_int; [done|apply isInteger_int|done].
Qed.

Lemma filter_fmap_iff {A B} (f : A → B) (p : B → bool) (q : A → bool) (l : list A) :
  (∀ x, p (f x) = q x) → filter (λ y, p y = true) (f <$> l) = f <$> filter (λ x, q x = true) l.
Proof.
  intros Hpq. induction l as [|x l IH]; [done|]. rewrite fmap_cons, !filter_cons, Hpq, IH. by case_decide.
Qed.

Lemma expired_rows_of ns t m now cursor limit :
  holds_records ns t m → isInteger now = true →
  expired_rows ns (to_Z now) (default "" cursor) limit t =
  row_of ns <$> take (Z.to_nat limit)
    (sort_records binary_compare (filter (λ r, scannable now cursor r = true) m.*2)).
Proof.
  intros Hm Hnow. unfold expired_rows. rewrite <- (filter_filter_sub _ (in_namespace ns)).
  - rewrite (holds_rows _ _ _ Hm), (filter_fmap_iff _ _ (scannable now cursor)) by (intros; by apply expired_row_of).
    by rewrite sort_rows, fmap_take.
  - unfold expired_row, in_namespace. intros row [[? _]%andb_true_iff _]%andb_true_iff. done.
Qed.

Lemma decode_all_rows ns decode l :
  Forall (λ r, decode (row_of ns r) = Ok r) l → decode_all decode (row_of ns <$> l) = Ok l.
Proof.
  induction 1 as [|r l Hr _ IH]; [done|]. rewrite fmap_cons. cbn [decode_all]. rewrite Hr. cbn. by rewrite IH.
Qed.

Lemma expired_page_take limit (l : list DurableRecord) :
  (0 ≤ limit)%Z →
  expired_page limit (take (Z.to_nat (limit + 1)) l) =
  {| page_records := take (Z.to_nat limit) l;
     nextCursor := if (limit <? Z.of_nat (length l))%Z then rec_key <$> last (take (Z.to_nat limit) l) else None |}.
Proof.
  intros Hlimit. unfold expired_page. rewrite take_take, Nat.min_l, length_take by lia. f_equal.
  destruct (Z.ltb_spec limit (Z.of_nat (length l))) as [Hl|Hl];
    destruct (Z.ltb_spec limit (Z.of_nat (Z.to_nat (limit + 1) `min` length l))); (done || lia).
Qed.

(** ** The refinement

    Both stores run a statement and read the record back; they differ in how
    they read and in what they throw. *)

Section refinement.
Context {S : Type} `{!DurableDatabase S} (view : S → records_table) `{Laws : !DatabaseLaws view} (ns : string).

(** Of its namespace the operation makes what [spec] makes of the map, and it
    leaves the other namespaces. *)
Definition refines {A} (op : M S A) (spec : M memory A) (pre : memory → Prop) : Prop :=
  ∀ s m, holds_records ns (view s) m → pre m →
  (op s).1 = (spec m).1 ∧ holds_records ns (view (op s).2) (spec m).2 ∧
  elsewhere ns (view (op s).2) = elsewhere ns (view s).

Definition any_memory : memory → Prop := λ _, True.

Definition runs (st : durable_statement) (c : M S Z) : Prop := ∀ s,
  ∃ s', c s = (Ok (exec st (view s)).2, s') ∧ view s' = (exec st (view s)).1.

Definition reads (key : string) (c : M S (option DurableRecord)) : Prop := ∀ s m,
  holds_records ns (view s) m → ∃ s', c s = (Ok (map_get key m), s') ∧ view s' = view s.

Lemma refines_lift {A} (r : result unit) (op : M S A) (spec : M memory A) pre :
  (r = Ok tt → refines op spec pre) → refines (lift r;; op) (lift r;; spec) pre.
Proof.
  intros Hop s m Hm Hpre. rewrite !lift_bind. destruct r as [[]|e]; [by apply Hop|]. by split_and!.
Qed.

Lemma refines_check {A} (r : result unit) (op : M S A) (spec : M memory A) pre :
  r = Ok tt → refines op spec pre → refines (lift r;; op) spec pre.
Proof. intros -> Hop. exact Hop. Qed.

Lemma runs_run_changes st : runs st (run_changes st).
Proof.
  intros s. unfold run_changes, guarded, catch, mbind, M_bind. destruct (run_law st s) as [Hr Hv].
  destruct (dd_run st s) as [r s']. cbn in Hr, Hv. subst r. by exists s'.
Qed.

Lemma runs_sqlite_run st : runs st (sqlite_run st).
Proof.
  intros s. unfold sqlite_run, mbind, M_bind. destruct (run_law st s) as [Hr Hv].
  destruct (dd_run st s) as [r s']. cbn in Hr, Hv. subst r. by exists s'.
Qed.

Lemma reads_select key : reads key (select ns key).
Proof.
  intros s m Hm. unfold select, guarded, catch, mbind, M_bind. destruct (first_law ns key s) as [Hr Hv].
  destruct (dd_first ns key s) as [r s']. cbn in Hr, Hv. subst r. rewrite (find_record _ _ _ Hm).
  exists s'. split; [|done]. destruct (map_get key m) as [r|] eqn:Hget; [|done]. cbn.
  rewrite decodeRecord_row; [done|by eapply holds_lookup].
Qed.

Lemma reads_sqlite_get key : validateDurableKey key = Ok tt → reads key (sqlite_get ns key).
Proof.
  intros Hkey s m Hm. unfold sqlite_get. rewrite lift_bind, Hkey. unfold mbind, M_bind.
  destruct (first_law ns key s) as [Hr Hv]. destruct (dd_first ns key s) as [r s']. cbn in Hr, Hv. subst r.
  rewrite (find_record _ _ _ Hm). exists s'. split; [|done]. destruct (map_get key m) as [r|]; [|done].
  cbn [fmap option_fmap option_map]. by rewrite decodeRow_row.
Qed.

Lemma refines_get key (read : M S (option DurableRecord)) :
  (validateDurableKey key = Ok tt → reads key read) →
  refines (lift (validateDurableKey key);; read) (mem_get key) any_memory.
Proof.
  intros Hread. apply refines_lift. intros Hkey s m Hm _. destruct (Hread Hkey s m Hm) as (s' & -> & Hv).
  cbn. by rewrite Hv.
Qed.

(** A write read back. *)
Lemma write_then_read {A} st run key read (answer : Z → option DurableRecord → M S A) s m' :
  runs st run → reads key read → holds_records ns (exec st (view s)).1 m' →
  ∃ s', (n ← run; record ← read; answer n record) s = answer (exec st (view s)).2 (map_get key m') s' ∧
        view s' = (exec st (view s)).1.
Proof.
  intros Hrun Hread Hm. destruct (Hrun s) as (s1 & H1 & Hv1). rewrite (M_bind_run _ _ _ _ _ H1).
  rewrite <- Hv1 in Hm |- *. destruct (Hread s1 m' Hm) as (s2 & H2 & Hv2).
  rewrite (M_bind_run _ _ _ _ _ H2). eauto.
Qed.

(** What [refines] asks, once the run is known. *)
Lemma refined {A} (op : M S A) (spec : M memory A) s s' m r m' t' :
  op s = (r, s') → view s' = t' → spec m = (r, m') → holds_records ns t' m' →
  elsewhere ns t' = elsewhere ns (view s) →
  (op s).1 = (spec m).1 ∧ holds_records ns (view (op s).2) (spec m).2 ∧
  elsewhere ns (view (op s).2) = elsewhere ns (view s).
Proof. by intros -> <- ->. Qed.

Definition insert_of (input : NewDurableRecord) : durable_statement :=
  let u := new_update input in
  InsertIfAbsent ns (new_key input) (upd_value u) (to_Z (upd_nowMs u)) (to_Z <$> upd_expiresAt u).

Definition update_of (key : string) (rev : Z) (u : DurableRecordUpdate) : durable_statement :=
  UpdateRevision ns key rev (upd_value u) (to_Z (upd_nowMs u)) (to_Z <$> upd_expiresAt u).

Definition created_answer (lost : thrown) (changes : Z) (record : option DurableRecord)
    : M S DurableCreateResult :=
  match record with
  | None => throw lost
  | Some r => mret (if (changes =? 1)%Z then Created r else Exists r)
  end.

Definition cas_answer (lost : thrown) (changes : Z) (record : option DurableRecord) : M S DurableCasResult :=
  if (changes =? 1)%Z then
    match record with None => throw lost | Some r => mret (Updated r) end
  else mret (match record with None => Missing | Some r => Conflict r end).

Lemma refines_create input run read lost :
  runs (insert_of input) run →
  (validateDurableKey (new_key input) = Ok tt → reads (new_key input) read) →
  refines (lift (validateDurableKey (new_key input));; lift (validateDurableWrite (new_update input));;
           changes ← run; record ← read; created_answer lost changes record)
    (mem_createIfAbsent input) any_memory.
Proof.
  intros Hrun Hread. apply refines_lift. intros Hkey. apply refines_lift. intros Hu s m Hm _.
  pose proof (exec_insert _ _ _ Hm _ _ _ _ (storable_new _ Hkey Hu)) as He. fold (insert_of input) in He.
  pose proof (λ m', write_then_read (insert_of input) run (new_key input) read (created_answer lost) s m') as Hrw.
  destruct (map_get (new_key input) m) as [r|] eqn:Hget.
  - destruct (Hrw m Hrun (Hread Hkey)) as (s' & Hop & Hv); [by rewrite He|]. rewrite He in Hop, Hv.
    rewrite Hget in Hop. eapply refined; [exact Hop|exact Hv| |exact Hm|done].
    unfold mbind, M_bind, get. by rewrite Hget.
  - destruct He as (Hn & Hh & Hel). destruct (Hrw _ Hrun (Hread Hkey) Hh) as (s' & Hop & Hv).
    rewrite map_get_set_eq, Hn in Hop. eapply refined; [exact Hop|exact Hv| |exact Hh|exact Hel].
    unfold mbind, M_bind, get. by rewrite Hget.
Qed.

(** The clock that dates the write is not behind the one that created the record. *)
Definition clock_follows (key : string) (u : DurableRecordUpdate) (m : memory) : Prop :=
  ∀ r, map_get key m = Some r → (rec_createdAt r ≤ to_Z (upd_nowMs u))%Z ∧ (revision r < MAX_SAFE_INTEGER)%Z.

Lemma cas_case key rev (m : memory) :
  (∃ r, map_get key m = Some r ∧ revision r = rev) ∨ (∀ r, map_get key m = Some r → revision r ≠ rev).
Proof.
  destruct (map_get key m) as [r|]; [|by right]. destruct (decide (revision r = rev)); [by left; exists r|].
  right. by intros ? [= <-].
Qed.

Lemma refines_cas key rev u run read lost :
  invalid_revision rev = false → runs (update_of key rev u) run →
  (validateDurableKey key = Ok tt → reads key read) →
  refines (lift (validateDurableKey key);; lift (validateDurableWrite u);;
           lift (throw_if (invalid_revision rev) (TError "expected revision is invalid"));;
           changes ← run; record ← read; cas_answer lost changes record)
    (mem_compareAndSwap key rev u) (clock_follows key u).
Proof.
  intros Hrev Hrun Hread. apply refines_lift. intros Hkey. apply refines_lift. intros Hu.
  apply refines_check; [by rewrite Hrev|]. intros s m Hm Hclock.
  pose proof (λ m', write_then_read (update_of key rev u) run key read (cas_answer lost) s m') as Hrw.
  destruct (cas_case key rev m) as [(r & Hget & <-)|Hne].
  - destruct (Hclock r Hget) as [Hc Hr]. destruct (holds_lookup _ _ _ Hm _ _ Hget) as [_ Hst].
    pose proof (exec_update _ _ _ Hm key r _ _ _ Hget (storable_updated _ _ Hst Hu Hc Hr)) as He.
    fold (update_of key (revision r) u) in He. destruct (exec (update_of _ _ _) (view s)) as [t' n].
    destruct He as (-> & Hh & Hel). destruct (Hrw _ Hrun (Hread Hkey) Hh) as (s' & Hop & Hv).
    rewrite map_get_set_eq in Hop. eapply refined; [exact Hop|exact Hv| |exact Hh|exact Hel].
    unfold mbind, M_bind, get. by rewrite Hget, Z.eqb_refl.
  - destruct (exec_absent _ _ _ Hm key rev (upd_value u) (to_Z (upd_nowMs u)) (to_Z <$> upd_expiresAt u) Hne)
      as [He _]. fold (update_of key rev u) in He. rewrite He in Hrw.
    destruct (Hrw m Hrun (Hread Hkey) Hm) as (s' & Hop & Hv).
    eapply refined; [exact Hop|exact Hv| |exact Hm|done]. unfold mbind, M_bind, get, cas_answer.
    destruct (map_get key m) as [r|]; [|done]. by rewrite (proj2 (Z.eqb_neq _ _) (Hne r eq_refl)).
Qed.

Lemma refines_delete key rev run read :
  invalid_revision rev = false → runs (DeleteRevision ns key rev) run →
  (validateDurableKey key = Ok tt → reads key read) →
  refines (lift (validateDurableKey key);;
           lift (throw_if (invalid_revision rev) (TError "expected revision is invalid"));;
           changes ← run;
           if (changes =? 1)%Z then mret Deleted
           else record ← read; mret (match record with None => DeleteMissing | Some _ => DeleteConflict end))
    (mem_deleteIfRevision key rev) any_memory.
Proof.
  intros Hrev Hrun Hread. apply refines_lift. intros Hkey. apply refines_check; [by rewrite Hrev|].
  intros s m Hm _. destruct (Hrun s) as (s1 & H1 & Hv1). rewrite (M_bind_run _ _ _ _ _ H1).
  destruct (cas_case key rev m) as [(r & Hget & <-)|Hne].
  - pose proof (exec_delete _ _ _ Hm key r Hget) as He. destruct (exec _ _) as [t' n].
    destruct He as (-> & Hh & Hel). eapply (refined (λ _, _)); [done|exact Hv1| |exact Hh|exact Hel].
    unfold mbind, M_bind, get. by rewrite Hget, Z.eqb_refl.
  - destruct (exec_absent _ _ _ Hm key rev "" 0 None Hne) as [_ He]. rewrite He in *. cbn in Hv1.
    rewrite <- Hv1 in Hm. destruct (Hread Hkey s1 m Hm) as (s2 & H2 & Hv2).
    cbn [snd Z.eqb]. rewrite (M_bind_run _ _ _ _ _ H2).
    unfold mbind, M_bind, get. cbn [fst snd mret M_ret]. rewrite Hv2, Hv1 in *.
    destruct (map_get key m) as [r|]; [|done]. by rewrite (proj2 (Z.eqb_neq _ _) (Hne r eq_refl)).
Qed.
End refinement.

Lemma decoded_scan ns decode now cursor n (m : memory) :
  (∀ r, storable r → decode (row_of ns r) = Ok r) → Forall (λ kr, storable kr.2) m →
  Forall (λ r, decode (row_of ns r) = Ok r)
    (take n (sort_records binary_compare (filter (λ r, scannable now cursor r = true) m.*2))).
Proof.
  intros Hdecode Hst. rewrite Forall_forall in Hst. apply Forall_forall. intros r Hin. apply Hdecode.
  apply subseteq_take, elem_of_sort_records, list_elem_of_filter in Hin as [_ Hin].
  apply list_elem_of_fmap in Hin as (kr & -> & Hin). by apply Hst.
Qed.

Section stores.
Context {S : Type} `{!DurableDatabase S} (view : S → records_table) `{Laws : !DatabaseLaws view} (ns : string).

Definition reads_page (now : number) (cursor : option string) (limit : Z)
    (decode : DurableRow → result DurableRecord) (c : M S DurableExpiredPage) : Prop := ∀ s rows,
  (dd_all ns (to_Z now) (default "" cursor) (limit + 1) s).1 = Ok rows → ∀ records,
  decode_all decode rows = Ok records →
  c s = (Ok (expired_page limit records), (dd_all ns (to_Z now) (default "" cursor) (limit + 1) s).2).

Lemma refines_scan now cursor limit decode c :
  expired_args now cursor limit = Ok tt → (∀ r, storable r → decode (row_of ns r) = Ok r) →
  reads_page now cursor limit decode c →
  refines view ns (lift (expired_args now cursor limit);; c) (mem_scanExpired binary_compare now cursor limit)
    any_memory.
Proof.
  intros Hargs Hdecode Hc. apply refines_check; [done|]. intros s m Hm _.
  apply result_bind_Ok in Hargs as ([] & Hnow%throw_if_Ok & ([] & _ & Hlimit%throw_if_Ok)%result_bind_Ok).
  apply orb_false_iff in Hnow as [Hnow _]. unfold isSafeInteger in Hnow. reflect.
  destruct (all_law ns (to_Z now) (default "" cursor) (limit + 1) s) as [Hr Hv].
  rewrite (expired_rows_of _ _ m) in Hr by done.
  rewrite (Hc s _ Hr _ (decode_all_rows ns decode _ (decoded_scan _ _ _ _ _ _ Hdecode (holds_storable _ _ _ Hm)))).
  rewrite expired_page_take by lia. cbn [fst snd]. by rewrite Hv.
Qed.

(** A store that returns what the in-memory one does, on its own namespace. *)
Record store_refines (D : DurableRecordStorePort S) : Prop := {
  refines_ds_get key : refines view ns (ds_get key) (mem_get key) any_memory;
  refines_ds_create input : refines view ns (ds_createIfAbsent input) (mem_createIfAbsent input) any_memory;
  refines_ds_cas key rev u : invalid_revision rev = false →
    refines view ns (ds_compareAndSwap key rev u) (mem_compareAndSwap key rev u) (clock_follows key u);
  refines_ds_delete key rev : invalid_revision rev = false →
    refines view ns (ds_deleteIfRevision key rev) (mem_deleteIfRevision key rev) any_memory;
  refines_ds_scan now cursor limit : expired_args now cursor limit = Ok tt →
    refines view ns (ds_scanExpired now cursor limit) (mem_scanExpired binary_compare now cursor limit) any_memory
}.

(** C37: Alone on a database that runs its statements as SQLite does, the D1
    store and the SQLite store are the in-memory store.  A read and a creation
    always return the same result or error; so do a conditional write and a
    deletion whose revision is a positive safe integer, the write if it is not
    dated before its record's creation, and a scan whose arguments are valid,
    where the in-memory store orders keys by their code units.  They leave, in
    the namespace, the same records, which decode again, whatever they are;
    rows of other namespaces are as before.  Outside these conditions they
    differ: on D1 a write dated before the creation is lost
    ([d1_backdated_write_is_lost]). *)
Theorem sql_stores_refine_memory :
  store_refines (D1DurableRecordStore ns) ∧ store_refines (SqliteDurableRecordStore ns).
Proof.
  split; split; intros.
  - apply refines_get. intros _. by apply (reads_select view).
  - apply (refines_create view ns input _ _ storageUnavailable); [by apply (runs_run_changes view)|intros _; by apply (reads_select view)].
  - apply (refines_cas view ns key rev u _ _ storageUnavailable); [done|by apply (runs_run_changes view)|intros _; by apply (reads_select view)].
  - apply (refines_delete view ns key rev); [done|by apply (runs_run_changes view)|intros _; by apply (reads_select view)].
  - apply refines_scan with decodeRecord; [done|apply decodeRecord_row|].
    intros s rows Hrows records Hdec. unfold guarded, catch, mbind, M_bind.
    destruct (dd_all _ _ _ _ s) as [r s']. cbn in Hrows. subst r. by rewrite Hdec.
  - intros s m Hm Hpre. pose proof (refines_get view ns key (sqlite_get ns key)) as Hget.
    assert (Hop : ds_get (DurableRecordStorePort := SqliteDurableRecordStore ns) key s =
                  (lift (validateDurableKey key);; sqlite_get ns key) s).
    { cbn. unfold sqlite_get. rewrite !lift_bind. by destruct (validateDurableKey key). }
    rewrite Hop. apply Hget; [by apply (reads_sqlite_get view)|done|done].
  - apply (refines_create view ns input _ _ (TError "durable metadata create did not produce a record"));
      [by apply (runs_sqlite_run view)|by apply (reads_sqlite_get view)].
  - apply (refines_cas view ns key rev u _ _ (TError "durable metadata update lost its record"));
      [done|by apply (runs_sqlite_run view)|by apply (reads_sqlite_get view)].
  - apply (refines_delete view ns key rev); [done|by apply (runs_sqlite_run view)|by apply (reads_sqlite_get view)].
  - apply refines_scan with decodeRow; [done|intros r _; apply decodeRow_row|].
    intros s rows Hrows records Hdec. unfold mbind, M_bind.
    destruct (dd_all _ _ _ _ s) as [r s']. cbn in Hrows. subst r. by rewrite Hdec.
Qed.
End stores.

(** ** Among other writers *)

(** The other parties act as [env] allows before a statement and around a
    read; a call may fail, before or after its effect. *)
Class SharedDatabaseLaws {S} `{!DurableDatabase S} (view : S → records_table)
    (env : records_table → records_table → Prop) : Prop := {
  shared_refl t : env t t;
  shared_trans t1 t2 t3 : env t1 t2 → env t2 t3 → env t1 t3;
  shared_run st s : ∃ t, env (view s) t ∧
    ((dd_run st s).1 = Ok (Some (exec st t).2) ∧ view (dd_run st s).2 = (exec st t).1 ∨
     (is_Throw (dd_run st s).1 ∨ (dd_run st s).1 = Ok None) ∧
     (view (dd_run st s).2 = t ∨ view (dd_run st s).2 = (exec st t).1));
  shared_first ns key s : env (view s) (view (dd_first ns key s).2)
}.

#[export] Instance SharedTableDatabase {env : records_table → records_table → Prop} :
    DurableDatabase (SharedStore env) := {
  dd_run st := in_turn (dd_run st);
  dd_first ns key := in_turn (dd_first ns key);
  dd_all ns now cursor limit := in_turn (dd_all ns now cursor limit)
}.

Lemma SharedTableDatabase_laws (env : records_table → records_table → Prop) :
  (∀ t, env t t) → (∀ t1 t2 t3, env t1 t2 → env t2 t3 → env t1 t3) → SharedDatabaseLaws (contents (env := env)) env.
Proof.
  intros Hrefl Htrans. split; [done|done|..].
  - intros st s. destruct (in_turn_atomic (env := env) (dd_run st) Hrefl s) as (t & Ht & Hop). exists t.
    split; [done|]. destruct (run_law st t) as [Hr Hv]. cbn [dd_run SharedTableDatabase] in *.
    destruct Hop as [[H1 H2]|[H1 H2]]; [left; by rewrite H1, H2|right]. split; [by left|].
    by rewrite <- Hv.
  - intros ns key s. destruct (in_turn_atomic (env := env) (dd_first ns key) Hrefl s) as (t & Ht & Hop).
    cbn [dd_first SharedTableDatabase TableDatabase snd] in *. by destruct Hop as [[_ ->]|[_ [->| ->]]].
Qed.

Section shared.
Context {S : Type} `{!DurableDatabase S} (view : S → records_table) (env : records_table → records_table → Prop)
  `{Laws : !SharedDatabaseLaws view env} (ns : string).

(** What a write's answer says of the statement: that it changed its row,
    that it changed nothing, or, when it throws, neither. *)
Definition tells_effect {A} (st : durable_statement) (changed : A → bool) (op : M S A) : Prop := ∀ s,
  view (op s).2 = view s ∧ is_Throw (op s).1 ∨
  ∃ t, env (view s) t ∧
    match (op s).1 with
    | Ok a => changed a = ((exec st t).2 =? 1)%Z ∧ env (exec st t).1 (view (op s).2)
    | Throw _ => env t (view (op s).2) ∨ env (exec st t).1 (view (op s).2)
    end.

Lemma tells_lift {A} st changed (r : result unit) (op : M S A) :
  tells_effect st changed op → tells_effect st changed (lift r;; op).
Proof. intros Hop s. rewrite lift_bind. destruct r as [[]|e]; [apply Hop|]. left. split; [done|by eexists]. Qed.

Lemma select_env key s : env (view s) (view (select ns key s).2).
Proof.
  unfold select, guarded, catch, mbind, M_bind. pose proof (shared_first (env := env) ns key s) as Henv.
  destruct (dd_first ns key s) as [[[row|]|e] s']; try done. cbn in *. by destruct (decodeRecord row).
Qed.

Lemma run_changes_env st s : ∃ t, env (view s) t ∧
  match (run_changes st s).1 with
  | Ok n => n = (exec st t).2 ∧ view (run_changes st s).2 = (exec st t).1
  | Throw _ => view (run_changes st s).2 = t ∨ view (run_changes st s).2 = (exec st t).1
  end.
Proof.
  destruct (shared_run (env := env) st s) as (t & Ht & Hop). exists t. split; [done|].
  unfold run_changes, guarded, catch, mbind, M_bind. destruct (dd_run st s) as [r s']. cbn [fst snd] in Hop.
  destruct Hop as [[-> Hv]|[[[e ->]| ->] Hv]]; by cbn.
Qed.

(** What follows the statement only reads. *)
Lemma tells_run {A} st changed (f : Z → M S A) :
  (∀ n s, env (view s) (view (f n s).2) ∧ ∀ a, (f n s).1 = Ok a → changed a = (n =? 1)%Z) →
  tells_effect st changed (run_changes st ≫= f).
Proof.
  intros Hf s. right. destruct (run_changes_env st s) as (t & Ht & Hop). exists t. split; [done|].
  unfold mbind, M_bind. destruct (run_changes st s) as [[n|e] s']; cbn [fst snd] in Hop |- *.
  - destruct Hop as [-> Hv]. destruct (Hf (exec st t).2 s') as [Henv Ha]. rewrite Hv in Henv.
    destruct (f _ s') as [[a|e] s'']; cbn in *; [split; [by apply Ha|done]|by right].
  - destruct Hop as [-> | ->]; [left|right]; apply shared_refl.
Qed.

Lemma select_then {A} key (g : option DurableRecord → M S A) (P : A → Prop) s :
  (∀ record s, (g record s).2 = s ∧ ∀ a, (g record s).1 = Ok a → P a) →
  env (view s) (view ((select ns key ≫= g) s).2) ∧ ∀ a, ((select ns key ≫= g) s).1 = Ok a → P a.
Proof.
  intros Hg. unfold mbind, M_bind. pose proof (select_env key s) as Henv.
  destruct (select ns key s) as [[record|e] s']; cbn in *; [|by split].
  destruct (Hg record s') as [-> Ha]. by split.
Qed.

Definition is_created (a : DurableCreateResult) : bool := match a with Created _ => true | _ => false end.
Definition is_updated (a : DurableCasResult) : bool := match a with Updated _ => true | _ => false end.
Definition is_deleted (a : DurableDeleteResult) : bool := match a with Deleted => true | _ => false end.

(** Whatever other workers do between and around the calls, and whichever
    call fails, a write of the D1 store is one statement that takes effect at
    one instant or not at all: an answer [created], [updated] or [deleted]
    means exactly that the statement changed its row, and any other answer
    that it changed none; only an error leaves it open. *)
Theorem d1_write_answers_tell_effect :
  (∀ input, tells_effect (insert_of ns input) is_created (d1_createIfAbsent ns input)) ∧
  (∀ key rev u, tells_effect (update_of ns key rev u) is_updated (d1_compareAndSwap ns key rev u)) ∧
  (∀ key rev, tells_effect (DeleteRevision ns key rev) is_deleted (d1_deleteIfRevision ns key rev)).
Proof.
  split_and!; intros; repeat apply tells_lift; apply tells_run; intros n s.
  - apply select_then. intros [r|] s'; split; try done. intros a [= <-]. by destruct (n =? 1)%Z.
  - apply select_then. intros [r|] s'; destruct (n =? 1)%Z; split; try done; by intros a [= <-].
  - destruct (n =? 1)%Z; [split; [apply shared_refl|by intros a [= <-]]|].
    apply select_then. intros [r|] s'; split; try done; by intros a [= <-].
Qed.
End shared.

(** ** Witnesses *)

Lemma sql_stores_refine_memory_witness :
  store_refines (λ t : records_table, t) "jobs" (D1DurableRecordStore "jobs") ∧
  store_refines (λ t : records_table, t) "jobs" (SqliteDurableRecordStore "jobs").
Proof. exact (sql_stores_refine_memory (λ t : records_table, t) "jobs"). Defined.

Definition any_change (t t' : records_table) : Prop := True.

Lemma d1_write_answers_tell_effect_witness :
  tells_effect (contents (env := any_change)) any_change (DeleteRevision "jobs" "k" 1) is_deleted
    (d1_deleteIfRevision "jobs" "k" 1).
Proof.
  exact (proj2 (proj2 (d1_write_answers_tell_effect (contents (env := any_change)) any_change
    (Laws := SharedTableDatabase_laws any_change (λ _, I) (λ _ _ _ _ _, I)) "jobs")) "k"%string 1%Z).
Defined.

(** ** A poll on D1 that undoes a cancellation *)

Module D1RaceDemo.
Import DurableMcpTasks.
Abbreviation St := (SharedStore any_change).
#[export] Instance port : DurableRecordStorePort St := D1DurableRecordStore "mcp-tasks".
#[local] Existing Instance DurableMcpTasksSafety.TasksDemo.digest.

Definition rt : DurableMcpTaskRuntime St := {|
  provider := {| pv_id := "linkup"; pv_parseInput := λ v, Ok v; pv_create := λ _ _, throw TOther;
                 pv_poll := λ _ _ _, mret {| oc_status := poll_completed; oc_result := Some (JObj []);
                                             oc_inputRequests := None; oc_error := None; oc_billing := None |};
                 pv_update := None; pv_cancel := None |};
  pollIntervalMs := 5000 |}.

Definition id : string := DurableMcpTasksSafety.TasksDemo.id.
Definition caller : AsyncJobs.AsyncJobCaller := DurableMcpTasksSafety.TasksDemo.caller.
Definition started : records_table :=
  row_of "mcp-tasks" <$> (contents DurableMcpTasksSafety.TasksDemo.started).*2.
Definition alone (t : records_table) : St := {| contents := t; turns := [] |}.

(** What another worker's cancellation makes of the table. *)
Definition cancelled_by_other (t : records_table) : records_table :=
  contents (cancel rt id caller (λ _, false) (int 7001) (alone t)).2.

(** It is read, and updated, in peace; the cancellation comes before the
    update is read back. *)
Definition racing : St :=
  let peace := Build_turn any_change (λ t, t) (λ _, I) None in
  {| contents := started; turns := [peace; peace; Build_turn any_change cancelled_by_other (λ _, I) None] |}.

Definition stored_status (t : records_table) : option DurableTaskStatus :=
  match (ds_get (taskKey id) (alone t)).1 with
  | Ok (Some record) => match decode record with Ok (task, _) => Some (tk_status task) | Throw _ => None end
  | _ => None
  end.
End D1RaceDemo.

Import D1RaceDemo.
#[local] Existing Instance D1RaceDemo.port.
#[local] Existing Instance DurableMcpTasksSafety.TasksDemo.digest.

(** The other worker did cancel the task; the poll reads that back as its
    lease, and then completes it. *)
Lemma d1_poll_undoes_cancellation :
  stored_status (cancelled_by_other started) = Some DurableMcpTasks.cancelled ∧
  let '(r, s') := DurableMcpTasks.get_task rt id caller (λ _, false) (int 7000) racing in
  is_Ok r ∧ stored_status (contents s') = Some DurableMcpTasks.completed.
Proof. vm_compute. split; [|split; [eexists|]]; reflexivity. Qed.

(** A write dated before its record's creation is stored, and the record can
    no longer be read from D1; the in-memory store reads it. *)
Lemma d1_backdated_write_is_lost :
  let r := {| rec_key := "k"; value := "v"; revision := 1; rec_createdAt := 1000; rec_updatedAt := 1000;
              rec_expiresAt := None |} in
  let u := {| upd_value := "w"; upd_nowMs := int 999; upd_expiresAt := None |} in
  let '(res, t) := d1_compareAndSwap (S := records_table) "jobs" "k" 1 u [row_of "jobs" r] in
  res = Throw storageUnavailable ∧
  (d1_get (S := records_table) "jobs" "k" t).1 = Throw storageUnavailable ∧
  (mem_compareAndSwap "k" 1 u [("k", r)]%string).1 = Ok (Updated (updated_record r u)) ∧
  (sqlite_get (S := records_table) "jobs" "k" t).1 = Ok (Some (updated_record r u)).
Proof. vm_compute. split_and!; reflexivity. Qed.
