(* ===== verification/RecordFamily.v ===== *)
(** * Families of records that move forward

    Several components keep one record per object in the record store beside
    the effect journal, and write it only by compare-and-swap from what they
    read.  [RecordFamily] states what such a component promises of its
    records: their keys, what a record satisfies, and what one write may make
    of it.  From that, this file gives the evolution of the store and the
    rules for the operations of the store and of the journal under
    interference. *)

From S2P Require Import Prelude Interference JsString JsMap Digest Json DurableStore.
From S2P Require Import DurableEffects DurableEffectsSafety.

Class RecordFamily := {
  fam_key : string → Prop;
  fam_ok : string → DurableRecord → Prop;
  fam_moves : DurableRecord → DurableRecord → Prop;
  fam_moves_trans r1 r2 r3 : fam_moves r1 r2 → fam_moves r2 r3 → fam_moves r1 r3;
  fam_not_effect k : fam_key k → startsWith k "effect:" = false
}.

Section family.
Context `{Fam : !RecordFamily}.

(** ** Evolution *)

(** A record keeps its contents, or moved on under a higher revision. *)
Definition rec_moved (r r' : DurableRecord) : Prop :=
  (revision r < revision r')%Z ∧ fam_moves r r'.
Definition rec_evolves (r r' : DurableRecord) : Prop := r' = r ∨ rec_moved r r'.

Record family_ok (m : memory) : Prop := {
  fam_keyed k r : map_get k m = Some r → rec_key r = k;
  fam_each k r : fam_key k → map_get k m = Some r → fam_ok k r
}.

Record family_evolves (m m' : memory) : Prop := {
  fam_evolve_ok : family_ok m → family_ok m';
  fam_evolve_records k r : fam_key k → map_get k m = Some r →
    ∃ r', map_get k m' = Some r' ∧ rec_evolves r r'
}.

(** What a worker of the component may do to the store. *)
Definition family_env (m m' : memory) : Prop := family_evolves m m' ∧ journal_evolves m m'.
Definition family_good (m : memory) : Prop := family_ok m ∧ journal_ok m.

Lemma rec_moved_evolves r1 r2 r3 : rec_moved r1 r2 → rec_evolves r2 r3 → rec_moved r1 r3.
Proof. intros [L1 M1] [->|[L2 M2]]; split; [done..|lia|by eapply fam_moves_trans]. Qed.

Lemma fam_rec_evolves_trans r1 r2 r3 : rec_evolves r1 r2 → rec_evolves r2 r3 → rec_evolves r1 r3.
Proof. intros [->|H1] H2; [done|]. right. by eapply rec_moved_evolves. Qed.

Lemma family_evolves_refl m : family_evolves m m.
Proof. split; [done|]. intros k r _ Hr. exists r. split; [done|by left]. Qed.

Lemma family_evolves_trans m1 m2 m3 : family_evolves m1 m2 → family_evolves m2 m3 → family_evolves m1 m3.
Proof.
  intros [O1 E1] [O2 E2]. split; [auto|]. intros k r Hk (r' & Hr' & H1)%E1; [|done].
  destruct (E2 k r' Hk Hr') as (r'' & Hr'' & H2). exists r''. split; [done|]. by eapply fam_rec_evolves_trans.
Qed.

Lemma family_env_refl m : family_env m m.
Proof. split; [apply family_evolves_refl|reflexivity]. Qed.

Lemma family_env_trans m1 m2 m3 : family_env m1 m2 → family_env m2 m3 → family_env m1 m3.
Proof. intros [T1 J1] [T2 J2]. split; [by eapply family_evolves_trans|by etrans]. Qed.

#[export] Instance family_evolution : Evolution memory := {
  good := family_good;
  evolves := family_env;
  evolves_refl := family_env_refl;
  evolves_trans := family_env_trans;
  evolves_good m m' He Hg := conj (fam_evolve_ok m m' (proj1 He) (proj1 Hg))
    (journal_evolves_ok m m' (proj2 He) (proj2 Hg))
}.

Lemma family_env_good m m' : family_env m m' → family_good m → family_good m'.
Proof. apply (evolves_good (Evolution := family_evolution)). Qed.

(** ** What is known of a record that was read *)

Record known (r : DurableRecord) (m : memory) : Prop := {
  known_key : fam_key (rec_key r);
  known_ok : fam_ok (rec_key r) r;
  known_now : ∃ r', map_get (rec_key r) m = Some r' ∧ rec_evolves r r'
}.

Lemma fam_known_stable r : stable (known r).
Proof.
  intros m m' [He _] [Hk Hok (r' & Hr' & H1)]. split; [done..|].
  destruct (fam_evolve_records _ _ He _ _ Hk Hr') as (r'' & Hr'' & H2). exists r''. split; [done|].
  by eapply fam_rec_evolves_trans.
Qed.

Lemma fam_known_current m k r :
  family_ok m → fam_key k → map_get k m = Some r → rec_key r = k ∧ known r m.
Proof.
  intros Hok Hk Hr. pose proof (fam_keyed _ Hok k r Hr) as <-. split; [done|].
  split; [done|by apply (fam_each _ Hok)|]. exists r. split; [done|by left].
Qed.

Lemma fam_known_same r m r' :
  known r m → map_get (rec_key r) m = Some r' → revision r' = revision r → r' = r.
Proof. intros [_ _ (r'' & -> & [->|[Hlt _]])] [= <-] Hrev; [done|lia]. Qed.

(** What replaced a record that was read, at another revision, moved on from it. *)
Lemma known_moved r m r' :
  known r m → map_get (rec_key r) m = Some r' → revision r' ≠ revision r → rec_moved r r'.
Proof. intros [_ _ (r'' & -> & [->|Hm])] [= <-] Hrev; done. Qed.

(** ** Writes *)

Lemma journal_untouched k r m : fam_key k → journal_evolves m (map_set k r m).
Proof.
  intros Hk id key [_ Hj]. rewrite map_get_set_ne.
  - destruct (map_get key m); cbn; [by left|done].
  - intros ->. apply keyFor_prefix in Hj. by rewrite (fam_not_effect _ Hk) in Hj.
Qed.

Lemma family_set m k r :
  family_ok m → fam_key k → rec_key r = k → fam_ok k r →
  (∀ r0, map_get k m = Some r0 → rec_evolves r0 r) → family_env m (map_set k r m).
Proof.
  intros [Hkeyed Heach] Hk Hr Hrok Hev. split; [|by apply journal_untouched]. split.
  - intros _. split.
    + intros k' r'. rewrite map_get_set. case_decide as Hkk; [|by apply Hkeyed]. intros [= <-]. by subst.
    + intros k' r' Hk'. rewrite map_get_set. case_decide as Hkk; [|by apply Heach]. intros [= <-]. by subst.
  - intros k' r' _ Hr'. rewrite map_get_set. case_decide as Hkk.
    + subst k'. exists r. split; [done|]. by apply Hev.
    + exists r'. split; [done|by left].
Qed.

Lemma family_set_effect m k r :
  family_ok m → startsWith k "effect:" = true → rec_key r = k →
  family_evolves m (map_set k r m) ∧ family_ok (map_set k r m).
Proof.
  intros [Hkeyed Heach] Hk Hr.
  assert (Hne : ∀ k', fam_key k' → k' ≠ k) by (intros k' Hk' ->; by rewrite (fam_not_effect _ Hk') in Hk).
  assert (Hok' : family_ok (map_set k r m)).
  { split.
    - intros k' r'. rewrite map_get_set. case_decide as Hkk; [|by apply Hkeyed]. intros [= <-]. by subst.
    - intros k' r' Hk'. rewrite map_get_set_ne by auto. by apply Heach. }
  split; [|done]. split; [done|]. intros k' r' Hk' Hr'. rewrite map_get_set_ne by auto.
  exists r'. split; [done|by left].
Qed.

(** ** The operations of the store and of the journal *)

Section moves.
Context {S : Type} `{!DurableRecordStorePort S} (view : S → memory)
  (env : memory → memory → Prop) `{Laws : !DurableStoreLaws view env}
  (Henv : ∀ m m', env m m' → family_env m m').
Notation moves := (moves view).

(** A read returns the record as it is at that instant. *)
Lemma fam_moves_get (K : memory → Prop) k :
  stable K → moves K (ds_get k) (λ o m, good m ∧ K m ∧ o = map_get k m).
Proof.
  intros HK. eapply (moves_atomic view env); [exact Henv|done|apply get_atomic|]. intros m Hg Hm.
  destruct (mem_get_spec k m) as [-> [[e ->]| ->]]; split; (done || apply family_env_refl).
Qed.

Definition written (r : DurableRecord) (u : DurableRecordUpdate) (o : DurableCasResult) (m : memory) : Prop :=
  match o with
  | Updated r' => r' = updated_record r u ∧ known r' m
  | Conflict r' => rec_key r' = rec_key r ∧ known r' m ∧ rec_moved r r'
  | Missing => False
  end.

Lemma fam_written_stable r u o : stable (written r u o).
Proof.
  destruct o as [r'|r'|]; cbn; [| |apply stable_const].
  - apply stable_and; [apply stable_const|apply fam_known_stable].
  - apply stable_and; [apply stable_const|]. apply stable_and; [apply fam_known_stable|apply stable_const].
Qed.

(** A conditional write from a record that was read. *)
Lemma fam_moves_cas (K : memory → Prop) r u :
  (∀ m, K m → known r m) → fam_ok (rec_key r) (updated_record r u) → fam_moves r (updated_record r u) →
  moves K (ds_compareAndSwap (rec_key r) (revision r) u) (written r u).
Proof.
  intros HK Hok Hs. eapply moves_mono; [exact HK|intros a m Ha; exact Ha|].
  eapply (moves_atomic view env); [exact Henv|apply fam_known_stable|apply cas_atomic|]. intros m [Hm _] Hr.
  destruct (mem_cas_spec (rec_key r) (revision r) u m) as [[-> Hres]|(r' & Hr' & Hrev & -> & ->)].
  - split; [apply family_env_refl|]. destruct Hres as [[e ->]|[[Hnone ->]|(r' & Hr' & Hne & ->)]]; [done|..].
    + destruct Hr as [_ _ (r' & Hr' & _)]. by rewrite Hnone in Hr'.
    + destruct (fam_known_current _ _ _ Hm (known_key _ _ Hr) Hr') as [Hkey Hkn].
      cbn. split_and!; [done..|]. by eapply known_moved.
  - assert (r' = r) as -> by (by eapply fam_known_same).
    assert (He' : family_env m (map_set (rec_key r) (updated_record r u) m)).
    { apply family_set; [done|apply (known_key _ _ Hr)|done|done|].
      intros r0 Hr0. rewrite Hr' in Hr0. injection Hr0 as <-. right. split; [cbn; lia|done]. }
    split; [done|]. split; [done|].
    apply (fam_known_current _ (rec_key r)); [|apply (known_key _ _ Hr)|apply map_get_set_eq].
    by apply (fam_evolve_ok _ _ (proj1 He')).
Qed.

(** The record of a new object, or the one that is there. *)
Lemma fam_moves_create (K : memory → Prop) input :
  stable K → fam_key (new_key input) → fam_ok (new_key input) (new_record input) →
  moves K (ds_createIfAbsent input) (λ o m, match o with
    | Created r => r = new_record input ∧ known r m
    | Exists r => rec_key r = new_key input ∧ known r m end).
Proof.
  intros HK Hk Hok.
  eapply (moves_atomic view env); [exact Henv|done|apply create_atomic|]. intros m [Hm _] _.
  destruct (mem_create_spec input m) as [[-> Hres]|(Hnone & -> & ->)].
  - split; [apply family_env_refl|]. destruct Hres as [[e ->]|(r & Hr & ->)]; [done|].
    by apply fam_known_current.
  - assert (He' : family_env m (map_set (new_key input) (new_record input) m)).
    { apply family_set; [done..|]. intros r0 Hr0. by rewrite Hnone in Hr0. }
    split; [done|]. split; [done|].
    apply (fam_known_current _ (new_key input)); [|done|apply map_get_set_eq].
    by apply (fam_evolve_ok _ _ (proj1 He')).
Qed.

(** Records of neither kind: nothing is known of them. *)
Definition elsewhere (k : string) : Prop := ¬ fam_key k ∧ startsWith k "effect:" = false.

Lemma family_elsewhere m m' k :
  elsewhere k → (∀ k', k' ≠ k → map_get k' m' = map_get k' m) →
  (∀ r, map_get k m' = Some r → rec_key r = k) → family_env m m'.
Proof.
  intros [Hk He] Hsame Hkeyed. split; [split|].
  - intros [Hok Heach]. split.
    + intros k' r Hr. destruct (decide (k' = k)) as [->|Hne]; [by apply Hkeyed|].
      apply Hok. by rewrite <- Hsame.
    + intros k' r Hk' Hr. apply Heach; [done|]. rewrite <- Hsame; [done|by intros ->].
  - intros k' r Hk' Hr. exists r. rewrite Hsame; [split; [done|by left]|by intros ->].
  - intros id key [_ Hj]. rewrite Hsame; [by destruct (map_get key m); [left|]|].
    intros ->. apply keyFor_prefix in Hj. by rewrite He in Hj.
Qed.

Lemma fam_moves_create_elsewhere (K : memory → Prop) input :
  stable K → elsewhere (new_key input) → moves K (ds_createIfAbsent input) (λ _ _, True).
Proof.
  intros HK Hk. eapply (moves_atomic view env); [exact Henv|done|apply create_atomic|]. intros m _ _.
  split; [|by case_match]. destruct (mem_create_spec input m) as [[-> _]|(_ & -> & _)]; [apply family_env_refl|].
  eapply family_elsewhere; [exact Hk|intros k' Hne; by rewrite map_get_set_ne|].
  rewrite map_get_set_eq. by intros r [= <-].
Qed.

Lemma fam_moves_cas_elsewhere (K : memory → Prop) k rev u :
  stable K → elsewhere k → moves K (ds_compareAndSwap k rev u) (λ _ _, True).
Proof.
  intros HK Hk. eapply (moves_atomic view env); [exact Henv|done|apply cas_atomic|]. intros m [Hm _] _.
  split; [|by case_match].
  destruct (mem_cas_spec k rev u m) as [[-> _]|(r & Hr & _ & -> & _)]; [apply family_env_refl|].
  eapply family_elsewhere; [exact Hk|intros k' Hne; by rewrite map_get_set_ne|].
  rewrite map_get_set_eq. intros r' [= <-]. exact (fam_keyed _ Hm _ _ Hr).
Qed.

Lemma fam_moves_delete_elsewhere (K : memory → Prop) k rev :
  stable K → elsewhere k → moves K (ds_deleteIfRevision k rev) (λ _ _, True).
Proof.
  intros HK Hk. eapply (moves_atomic view env); [exact Henv|done|apply delete_atomic|]. intros m _ _.
  split; [|by case_match]. destruct (mem_delete_spec k rev m) as [[-> _]|(r & _ & _ & -> & _)];
    [apply family_env_refl|].
  eapply family_elsewhere; [exact Hk|intros k' Hne; rewrite map_get_delete; by rewrite decide_False|].
  rewrite map_get_delete. by rewrite decide_True.
Qed.

(** The effect was claimed, now or before. *)
Definition claimed_effect (id : EffectIdentity) (m : memory) : Prop :=
  colon_free (id_jobId id) ∧ ∀ key, keyFor id = Ok key → map_get key m ≠ None.

Lemma claimed_effect_stable id : stable (claimed_effect id).
Proof.
  intros m m' [_ He] [Hc Hm]. split; [done|]. intros key Hk. specialize (Hm key Hk).
  specialize (He id key (conj Hc Hk)). destruct (map_get key m); [|done]. by destruct (map_get key m').
Qed.

(** Nobody claims it again. *)
Lemma claim_claimed_effect id now s :
  claimed_effect id (view s) →
  wp (claim id now) (λ r _, match r with Ok (Claimed _ _) => False | _ => True end) s.
Proof.
  intros [Hc Hm]. unfold claim. apply wp_lift_bind; [|done]. intros key Hk. apply wp_bind.
  eapply (wp_atomic view env); [apply create_atomic| |done]. intros m s' He%Henv _.
  destruct (claimed_effect_stable id _ _ He (conj Hc Hm)) as [_ Hm'].
  match goal with |- context [mem_createIfAbsent ?i m] =>
    destruct (mem_create_spec i m) as [[_ [[e ->]|(r & _ & ->)]]|(Hnone & _ & _)] end; [done| |].
  - apply wp_lift_bind; [|done]. intros e _. by apply wp_ret.
  - by apply (Hm' key Hk) in Hnone.
Qed.

Lemma fam_reached_stable id rev : colon_free (id_jobId id) → stable (reached id rev).
Proof. intros Hc m m' [_ He]. by apply reached_evolves. Qed.

Lemma family_journal_laws : DurableStoreLaws view journal_evolves.
Proof. eapply store_laws_mono; [|apply _|exact Laws]. intros m m' [_ He]%Henv. exact He. Qed.

(** A journal operation moves the store as its parts say. *)
Lemma fam_moves_journal {A} (K : memory → Prop) (c : M S A) (Q : A → memory → Prop) :
  (∀ s, good (view s) → K (view s) → wp c (λ _ s', journal_evolves (view s) (view s')) s) →
  (∀ P, (∀ m m', env m m' → P m → P m') →
    (∀ m key r, P m → map_get key m = Some r → rec_key r = key) →
    (∀ m key r, startsWith key "effect:" = true → rec_key r = key → P m → P (map_set key r m)) →
    keeps view P c) →
  (∀ s, wp c (λ r s', match r with Ok a => Q a (view s') | Throw _ => True end) s) →
  moves K c Q.
Proof.
  intros Hj Hframe HQ s Hg Hs.
  assert (HP : wp c (λ _ s', family_evolves (view s) (view s') ∧ family_ok (view s')) s).
  { apply (Hframe (λ m, family_evolves (view s) m ∧ family_ok m)).
    - intros m m' [He _]%Henv [Hm Hok]. split; [by eapply family_evolves_trans|by eapply fam_evolve_ok].
    - intros m key r [_ Hok]. by apply fam_keyed.
    - intros m key r Hkey Hr [Hm Hok]. destruct (family_set_effect m key r) as [He Hok']; [done..|].
      split; [by eapply family_evolves_trans|done].
    - split; [apply family_evolves_refl|apply Hg]. }
  eapply wp_mono; [apply wp_and; [apply (Hj s Hg Hs)|apply wp_and; [exact HP|apply HQ]]|].
  intros r s' (Hje & [Hte _] & HR). by split.
Qed.

Lemma fam_moves_claim K id now :
  colon_free (id_jobId id) →
  moves K (claim id now) (λ r m, match r with Claimed _ rev | Existing _ rev => reached id rev m end).
Proof.
  intros Hc. pose proof family_journal_laws. apply fam_moves_journal.
  - intros s _ _. by apply claim_guarantee.
  - intros P HP Hkeyed Hset. by apply (claim_frame view env).
  - intros s. eapply wp_mono; [apply (claim_reached view env)|]. by intros [[]|].
Qed.

Lemma fam_moves_retry K id rev now :
  colon_free (id_jobId id) →
  moves K (retry id rev now) (λ r m, match r with Reclaimed _ rev => reached id rev m | Blocked _ _ => True end).
Proof.
  intros Hc. pose proof family_journal_laws. apply fam_moves_journal.
  - intros s [_ Hj] _. by apply retry_guarantee.
  - intros P HP Hkeyed Hset. by apply (retry_frame view env).
  - intros s. eapply wp_mono; [apply (retry_reached view env)|]. by intros [[]|].
Qed.

Lemma fam_moves_transition K id rev to now rc :
  colon_free (id_jobId id) → to ≠ claimed → (∀ m, K m → reached id rev m) →
  moves K (transition id rev to now rc) (λ r m, reached id r.2 m).
Proof.
  intros Hc Hto HK. pose proof family_journal_laws. apply fam_moves_journal.
  - intros s _ Hs. apply (transition_guarantee view). exact (conj Hc (conj Hto (HK _ Hs))).
  - intros P HP Hkeyed Hset. by apply (transition_frame view env).
  - intros s. eapply wp_mono; [apply (transition_reached view env)|]. by intros [[]|].
Qed.
End moves.
End family.

#[export] Hint Resolve fam_known_stable fam_written_stable : groundlane.
