(* ===== verification/DurableDocumentJobs.v ===== *)
(** * Durable document jobs

    [src/core/durable-document-jobs.ts] and
    [src/core/durable-document-executor.ts]: the repository of asynchronous
    document jobs over the record store and the effect journal, and the
    executor that runs the three external effects of a job behind claims.
    Between any two calls, other workers may act (see [Interference]). *)

From S2P Require Import Prelude Interference JsString JsMap Digest Json DurableStore.
From S2P Require DurableEffects.

#[local] Existing Instance DurableEffects.DurableEffectStatus_eq_dec.

Abbreviation EffectIdentity := DurableEffects.EffectIdentity.

(** ** Data *)

Definition SCHEMA_VERSION : string := "1".
Definition MAX_DOCUMENT_JOB_IDENTITY_CHARS : Z := 256.
Definition MAX_DOCUMENT_JOB_FINGERPRINT_CHARS : Z := 512.
Definition MAX_DOCUMENT_JOB_ERROR_CHARS : Z := 500.

Inductive DurableDocumentJobStatus :=
  | created | pending | running | completed | failed | cancelled | expired.

#[export] Instance DurableDocumentJobStatus_eq_dec : EqDecision DurableDocumentJobStatus.
Proof. solve_decision. Defined.

Record DurableDocumentJob := {
  job_jobId : string;
  job_ownerId : string;
  job_credentialBinding : string;
  job_idempotencyKey : string;
  job_requestFingerprint : string;
  job_status : DurableDocumentJobStatus;
  job_createdAt : Z;
  job_updatedAt : Z;
  job_expiresAt : Z;
  job_resultArtifactRef : option string;
  job_sanitizedError : option string
}.

#[export] Instance DurableDocumentJob_updatable : Updatable DurableDocumentJob :=
  {| rebuild := λ j, Build_DurableDocumentJob (job_jobId j) (job_ownerId j) (job_credentialBinding j)
       (job_idempotencyKey j) (job_requestFingerprint j) (job_status j) (job_createdAt j)
       (job_updatedAt j) (job_expiresAt j) (job_resultArtifactRef j) (job_sanitizedError j) |}.

(** A job with the revision of its record. *)
Abbreviation VersionedDurableDocumentJob := (DurableDocumentJob * Z)%type.

Record DurableDocumentJobCaller := { jc_ownerId : string; jc_credentialBinding : string }.

Record CreateDurableDocumentJobInput := {
  cj_caller : DurableDocumentJobCaller;
  cj_idempotencyKey : string;
  cj_requestFingerprint : string;
  cj_nowMs : number;
  cj_expiresAt : number
}.

Inductive CreateDurableDocumentJobResult :=
  | JobCreated (value : VersionedDurableDocumentJob)
  | JobReused (value : VersionedDurableDocumentJob).

(** An absent property is [None], [null] is [Some None]. *)
Record DurableDocumentJobTransitionPatch := {
  patch_resultArtifactRef : option (option string);
  patch_sanitizedError : option (option string)
}.

Definition empty_patch : DurableDocumentJobTransitionPatch :=
  {| patch_resultArtifactRef := None; patch_sanitizedError := None |}.

Inductive DurableDocumentJobTransitionResult :=
  | JobUpdated (value : VersionedDurableDocumentJob)
  | JobConflict (value : VersionedDurableDocumentJob).

Inductive BeginDurableDocumentEffectResult :=
  | Execute (effect : DurableEffects.DurableEffect) (rev : Z)
  | Replay (effect : DurableEffects.DurableEffect) (rev : Z) (receipt : string)
  | Blocked (effect : DurableEffects.DurableEffect) (rev : Z)
      (reason : DurableEffects.DurableEffectStatus).

Definition TERMINAL_STATUSES (st : DurableDocumentJobStatus) : bool :=
  match st with completed | failed | cancelled | expired => true | _ => false end.

Definition STATUS_ORDER (st : DurableDocumentJobStatus) : Z :=
  match st with
  | created => 0 | pending => 1 | running => 2
  | completed | failed | cancelled | expired => 3
  end.

Definition status_name (st : DurableDocumentJobStatus) : string :=
  match st with
  | created => "created" | pending => "pending" | running => "running" | completed => "completed"
  | failed => "failed" | cancelled => "cancelled" | expired => "expired"
  end.

(** ** Errors and checks *)

Definition jobError (message : string) : thrown :=
  gerror INVALID_INPUT "durable-document-job" message false.

Definition assertBounded (v field : string) (max : Z) : result unit :=
  throw_if ((str_length v =? 0)%Z || (max <? str_length v)%Z)
    (jobError (field +:+ " must be non-empty within " +:+ show max +:+ " characters")).

Definition assertTimestamp (v : number) (field : string) : result unit :=
  throw_if (negb (isSafeInteger v) || num_ltb v (int 0))
    (jobError (field +:+ " must be a non-negative safe integer timestamp")).

Definition NUL : string := unchars [ascii_of_nat 0].

Definition jobIdFor `{!Sha256Api} (ownerId idempotencyKey : string) : string :=
  "djob-" +:+ slice_to 32 (sha256 (utf8 (ownerId +:+ NUL +:+ idempotencyKey))).

Definition recordKey (jobId : string) : string := "document-job:" +:+ jobId.

(** ** Encoding and decoding *)

Definition null_or_text (s : option string) : js_value :=
  match s with Some s => JStr s | None => JNull end.

Definition job_json (j : DurableDocumentJob) : js_value :=
  JObj [("schemaVersion", JStr SCHEMA_VERSION); ("jobId", JStr (job_jobId j));
        ("ownerId", JStr (job_ownerId j)); ("credentialBinding", JStr (job_credentialBinding j));
        ("idempotencyKey", JStr (job_idempotencyKey j));
        ("requestFingerprint", JStr (job_requestFingerprint j));
        ("status", JStr (status_name (job_status j)));
        ("createdAt", JNum (job_createdAt j)); ("updatedAt", JNum (job_updatedAt j));
        ("expiresAt", JNum (job_expiresAt j));
        ("resultArtifactRef", null_or_text (job_resultArtifactRef j));
        ("sanitizedError", null_or_text (job_sanitizedError j))]%string.

Definition encode (j : DurableDocumentJob) : string := unchars (json_text (job_json j)).

Definition isStatus (v : js_value) : option DurableDocumentJobStatus :=
  s ← as_string v;
  find (λ st, bool_decide (status_name st = s))
    [created; pending; running; completed; failed; cancelled; expired].

Definition malformed : thrown := jobError "Durable document job record is malformed".

Definition job_of_json (v : js_value) : option DurableDocumentJob :=
  version ← as_string (prop v "schemaVersion"); _ ← guard (version = SCHEMA_VERSION);
  id ← as_string (prop v "jobId"); o ← as_string (prop v "ownerId");
  cb ← as_string (prop v "credentialBinding"); ik ← as_string (prop v "idempotencyKey");
  rf ← as_string (prop v "requestFingerprint"); st ← isStatus (prop v "status");
  c ← as_number (prop v "createdAt"); u ← as_number (prop v "updatedAt");
  e ← as_number (prop v "expiresAt"); ar ← as_null_or_string (prop v "resultArtifactRef");
  er ← as_null_or_string (prop v "sanitizedError");
  Some {| job_jobId := id; job_ownerId := o; job_credentialBinding := cb; job_idempotencyKey := ik;
          job_requestFingerprint := rf; job_status := st; job_createdAt := c; job_updatedAt := u;
          job_expiresAt := e; job_resultArtifactRef := ar; job_sanitizedError := er |}.

Definition check_job (j : DurableDocumentJob) : result unit :=
  assertBounded (job_jobId j) "jobId" MAX_DOCUMENT_JOB_IDENTITY_CHARS;;
  assertBounded (job_ownerId j) "ownerId" MAX_DOCUMENT_JOB_IDENTITY_CHARS;;
  assertBounded (job_credentialBinding j) "credentialBinding" MAX_DOCUMENT_JOB_IDENTITY_CHARS;;
  assertBounded (job_idempotencyKey j) "idempotencyKey" MAX_DOCUMENT_JOB_IDENTITY_CHARS;;
  assertBounded (job_requestFingerprint j) "requestFingerprint" MAX_DOCUMENT_JOB_FINGERPRINT_CHARS;;
  assertTimestamp (int (job_createdAt j)) "createdAt";;
  assertTimestamp (int (job_updatedAt j)) "updatedAt";;
  assertTimestamp (int (job_expiresAt j)) "expiresAt".

(** An array is an object too, with none of the properties. *)
Definition decode (record : DurableRecord) : result VersionedDurableDocumentJob :=
  match JSON_parse (value record) with
  | Throw _ => Throw malformed
  | Ok v =>
      match job_of_json v with
      | None => Throw malformed
      | Some j => check_job j;; Ok (j, revision record)
      end
  end.

Definition assertCaller (j : DurableDocumentJob) (caller : DurableDocumentJobCaller) : result unit :=
  throw_if (negb (bool_decide (job_ownerId j = jc_ownerId caller)))
    (jobError "Owner mismatch: caller does not own this document job");;
  throw_if (negb (bool_decide (job_credentialBinding j = jc_credentialBinding caller)))
    (jobError "Credential binding mismatch for this document job").

Definition quoted (st : DurableDocumentJobStatus) : string := dq +:+ status_name st +:+ dq.

Definition assertTransition (from to : DurableDocumentJobStatus) : result unit :=
  throw_if (bool_decide (from = to)) (jobError ("Document job is already " +:+ quoted from));;
  throw_if (TERMINAL_STATUSES from)
    (jobError ("Cannot transition from terminal document job status " +:+ quoted from));;
  throw_if (STATUS_ORDER to <? STATUS_ORDER from)%Z
    (jobError ("Non-monotonic document job transition " +:+ quoted from +:+ " -> " +:+ quoted to)).

(** ** [DurableDocumentJobRepository] *)

Definition unknown_job : thrown := jobError "Unknown durable document job".

Section repository.
Context {S : Type} `{!DurableRecordStorePort S}.

Definition write (j : DurableDocumentJob) (nowMs : number) (expiresAt : option number)
    : DurableRecordUpdate :=
  {| upd_value := encode j; upd_nowMs := nowMs; upd_expiresAt := expiresAt |}.

Section create.
Context `{!Sha256Api}.

Definition check_create (input : CreateDurableDocumentJobInput) : result unit :=
  assertBounded (jc_ownerId (cj_caller input)) "ownerId" MAX_DOCUMENT_JOB_IDENTITY_CHARS;;
  assertBounded (jc_credentialBinding (cj_caller input)) "credentialBinding" MAX_DOCUMENT_JOB_IDENTITY_CHARS;;
  assertBounded (cj_idempotencyKey input) "idempotencyKey" MAX_DOCUMENT_JOB_IDENTITY_CHARS;;
  assertBounded (cj_requestFingerprint input) "requestFingerprint" MAX_DOCUMENT_JOB_FINGERPRINT_CHARS;;
  assertTimestamp (cj_nowMs input) "nowMs";;
  assertTimestamp (cj_expiresAt input) "expiresAt";;
  throw_if (num_leb (cj_expiresAt input) (cj_nowMs input)) (jobError "expiresAt must be later than nowMs").

Definition new_job (input : CreateDurableDocumentJobInput) : DurableDocumentJob :=
  {| job_jobId := jobIdFor (jc_ownerId (cj_caller input)) (cj_idempotencyKey input);
     job_ownerId := jc_ownerId (cj_caller input);
     job_credentialBinding := jc_credentialBinding (cj_caller input);
     job_idempotencyKey := cj_idempotencyKey input;
     job_requestFingerprint := cj_requestFingerprint input; job_status := created;
     job_createdAt := to_Z (cj_nowMs input); job_updatedAt := to_Z (cj_nowMs input);
     job_expiresAt := to_Z (cj_expiresAt input); job_resultArtifactRef := None;
     job_sanitizedError := None |}.

Definition createIfAbsent (input : CreateDurableDocumentJobInput)
    : M S CreateDurableDocumentJobResult :=
  lift (check_create input);;
  let job := new_job input in
  result ← ds_createIfAbsent {| new_key := recordKey (job_jobId job);
                                new_update := write job (cj_nowMs input) (Some (cj_expiresAt input)) |};
  match result with
  | Created record => value ← lift (decode record); mret (JobCreated value)
  | Exists record =>
      value ← lift (decode record);
      lift (assertCaller value.1 (cj_caller input));;
      lift (throw_if (negb (bool_decide (job_idempotencyKey value.1 = cj_idempotencyKey input)) ||
                      negb (bool_decide (job_requestFingerprint value.1 = cj_requestFingerprint input)))
        (jobError "Idempotency key is already bound to a different document request"));;
      mret (JobReused value)
  end.
End create.

(** The record of a job that the caller may see. *)
Definition read_job (jobId : string) (caller : DurableDocumentJobCaller)
    : M S (DurableRecord * VersionedDurableDocumentJob) :=
  record ← ds_get (recordKey jobId);
  match record with
  | None => throw unknown_job
  | Some record =>
      current ← lift (decode record);
      lift (assertCaller current.1 caller);;
      mret (record, current)
  end.

(** [for (;;)], taken as many times as [fuel]: [None] if that was not enough. *)
Fixpoint get_loop (fuel : nat) (jobId : string) (caller : DurableDocumentJobCaller) (nowMs : number)
    : M S (option VersionedDurableDocumentJob) :=
  match fuel with
  | O => mret None
  | Datatypes.S fuel' =>
      '(record, current) ← read_job jobId caller;
      if num_ltb nowMs (int (job_expiresAt current.1)) ||
         bool_decide (job_status current.1 = expired) || bool_decide (job_status current.1 = cancelled)
      then mret (Some current)
      else
        let job := current.1 <| job_status := expired |> <| job_updatedAt := to_Z nowMs |> in
        result ← ds_compareAndSwap (rec_key record) current.2 (write job nowMs None);
        match result with
        | Updated record => value ← lift (decode record); mret (Some value)
        | Missing => throw unknown_job
        | Conflict _ => get_loop fuel' jobId caller nowMs
        end
  end.

(** A job's status changes at most four times, so the fifth round is the last:
    see [job_reads_terminate]. *)
Definition GET_ROUNDS : nat := 5.

Definition get_job (jobId : string) (caller : DurableDocumentJobCaller) (nowMs : number)
    : M S VersionedDurableDocumentJob :=
  lift (assertBounded jobId "jobId" MAX_DOCUMENT_JOB_IDENTITY_CHARS);;
  lift (assertTimestamp nowMs "nowMs");;
  found ← get_loop GET_ROUNDS jobId caller nowMs;
  match found with Some current => mret current | None => throw TOther end.

Definition resume := get_job.

Fixpoint revoke_loop (attempts : nat) (jobId : string) (caller : DurableDocumentJobCaller)
    (nowMs : number) : M S VersionedDurableDocumentJob :=
  match attempts with
  | O => throw (jobError "Document source revocation conflicted")
  | Datatypes.S attempts' =>
      '(record, current) ← read_job jobId caller;
      if TERMINAL_STATUSES (job_status current.1) then mret current
      else
        let job := current.1 <| job_status := cancelled |> <| job_updatedAt := to_Z nowMs |> in
        changed ← ds_compareAndSwap (rec_key record) current.2 (write job nowMs None);
        match changed with
        | Updated record => lift (decode record)
        | Missing => throw unknown_job
        | Conflict _ => revoke_loop attempts' jobId caller nowMs
        end
  end.

Definition revokeSource (jobId : string) (caller : DurableDocumentJobCaller) (nowMs : number)
    : M S VersionedDurableDocumentJob :=
  lift (assertBounded jobId "jobId" MAX_DOCUMENT_JOB_IDENTITY_CHARS);;
  lift (assertTimestamp nowMs "nowMs");;
  revoke_loop 16 jobId caller nowMs.

Definition check_patch (ref err : option string) : result unit :=
  match ref with
  | Some ref => assertBounded ref "resultArtifactRef" MAX_DOCUMENT_JOB_FINGERPRINT_CHARS
  | None => Ok tt
  end;;
  throw_if (match err with
            | Some e => (str_length e =? 0)%Z || (MAX_DOCUMENT_JOB_ERROR_CHARS <? str_length e)%Z
            | None => false
            end)
    (jobError ("sanitizedError must be within " +:+ show MAX_DOCUMENT_JOB_ERROR_CHARS +:+ " characters")).

Definition transition (jobId : string) (caller : DurableDocumentJobCaller) (expectedRevision : Z)
    (to : DurableDocumentJobStatus) (nowMs : number) (patch : DurableDocumentJobTransitionPatch)
    : M S DurableDocumentJobTransitionResult :=
  lift (throw_if ((expectedRevision <? 1)%Z || (MAX_SAFE_INTEGER <? expectedRevision)%Z)
    (jobError "expectedRevision must be a positive safe integer"));;
  current ← get_job jobId caller nowMs;
  let '(job, rev) := current in
  if negb (rev =? expectedRevision)%Z then mret (JobConflict current)
  else
    lift (assertTransition (job_status job) to);;
    let ref := default (job_resultArtifactRef job) (patch_resultArtifactRef patch) in
    let err := default (job_sanitizedError job) (patch_sanitizedError patch) in
    lift (check_patch ref err);;
    let next := job <| job_status := to |> <| job_updatedAt := to_Z nowMs |>
                    <| job_resultArtifactRef := ref |> <| job_sanitizedError := err |> in
    result ← ds_compareAndSwap (recordKey jobId) expectedRevision
               (write next nowMs (Some (int (job_expiresAt job))));
    match result with
    | Updated record => value ← lift (decode record); mret (JobUpdated value)
    | Missing => throw unknown_job
    | Conflict record =>
        conflicted ← lift (decode record);
        lift (assertCaller conflicted.1 caller);;
        mret (JobConflict conflicted)
    end.

(** *** Effects *)

Definition beginEffect (identity : EffectIdentity) (caller : DurableDocumentJobCaller) (nowMs : number)
    : M S BeginDurableDocumentEffectResult :=
  current ← get_job (DurableEffects.id_jobId identity) caller nowMs;
  lift (throw_if (TERMINAL_STATUSES (job_status current.1))
    (jobError ("Cannot begin an effect for terminal document job status " +:+ quoted (job_status current.1))));;
  claim ← DurableEffects.claim identity (to_Z nowMs);
  match claim return M S BeginDurableDocumentEffectResult with
  | DurableEffects.Claimed effect rev => mret (Execute effect rev)
  | DurableEffects.Existing effect rev =>
      if bool_decide (DurableEffects.status effect = DurableEffects.succeeded) then
        match DurableEffects.receipt effect return M S BeginDurableDocumentEffectResult with
        | None => throw (jobError "Succeeded durable effect is missing its replay receipt")
        | Some receipt => mret (Replay effect rev receipt)
        end
      else mret (Blocked effect rev (DurableEffects.status effect))
  end.

Definition transitionEffect (identity : EffectIdentity) (caller : DurableDocumentJobCaller)
    (expectedRevision : Z) (to : DurableEffects.DurableEffectStatus) (nowMs : number)
    (receipt : option string) : M S (DurableEffects.DurableEffect * Z) :=
  current ← get_job (DurableEffects.id_jobId identity) caller nowMs;
  lift (throw_if (TERMINAL_STATUSES (job_status current.1))
    (jobError ("Cannot update an effect for terminal document job status " +:+ quoted (job_status current.1))));;
  DurableEffects.transition identity expectedRevision to (to_Z nowMs) receipt.

Definition markEffectInflight (identity : EffectIdentity) (caller : DurableDocumentJobCaller)
    (expectedRevision : Z) (nowMs : number) : M S (DurableEffects.DurableEffect * Z) :=
  transitionEffect identity caller expectedRevision DurableEffects.inflight nowMs None.

Definition markEffectSucceeded (identity : EffectIdentity) (caller : DurableDocumentJobCaller)
    (expectedRevision : Z) (nowMs : number) (receipt : string) : M S (DurableEffects.DurableEffect * Z) :=
  lift (assertBounded receipt "effect receipt" MAX_DOCUMENT_JOB_FINGERPRINT_CHARS);;
  transitionEffect identity caller expectedRevision DurableEffects.succeeded nowMs (Some receipt).

Definition markEffectUncertain (identity : EffectIdentity) (caller : DurableDocumentJobCaller)
    (expectedRevision : Z) (nowMs : number) : M S (DurableEffects.DurableEffect * Z) :=
  transitionEffect identity caller expectedRevision DurableEffects.uncertain nowMs None.
End repository.

(** ** [DurableDocumentExecutor] *)

Record DurableDocumentExecutionPorts (S : Type) := {
  createProviderTask : AbortSignal S → M S string;
  performPaidCall : AbortSignal S → M S string;
  writeResultArtifact : AbortSignal S → M S string
}.
Arguments createProviderTask {S} _ _.
Arguments performPaidCall {S} _ _.
Arguments writeResultArtifact {S} _ _.

Definition executionError (message : string) : thrown :=
  gerror UPSTREAM_ERROR "durable-document-execution" message false.

Section executor.
Context {S : Type} `{!DurableRecordStorePort S} (clock : S → number * S).

Definition assertDispatchActive (signal : AbortSignal S) : M S unit := λ s,
  lift (throw_if (signal s)
    (gerror CANCELLED "durable-document-execution" "Document dispatch was cancelled" false)) s.

(** [now()]: the clock, never before the last time it gave. *)
Definition tick (lastNowMs : number) : M S number := λ s,
  let '(t, s') := clock s in (Ok (num_max lastNowMs t), s').

(** What follows the operation inside the [try], or its failure; the last
    time given is part of both. *)
Definition perform (identity : EffectIdentity) (caller : DurableDocumentJobCaller) (inflightRevision : Z)
    (signal : AbortSignal S) (operation : AbortSignal S → M S string) (last : number)
    : M S (option string * number) :=
  outcome ← attempt (assertDispatchActive signal;; operation signal);
  match outcome with
  | inr _ => mret (None, last)
  | inl receipt =>
      last ← tick last;
      marked ← attempt (markEffectSucceeded identity caller inflightRevision last receipt);
      mret (match marked with inl _ => Some receipt | inr _ => None end, last)
  end.

Definition runEffect (identity : EffectIdentity) (caller : DurableDocumentJobCaller)
    (signal : AbortSignal S) (operation : AbortSignal S → M S string) (last : number)
    : M S (string * number) :=
  let outcome_is word := executionError ("Durable " +:+
    DurableEffects.kind_name (DurableEffects.id_kind identity) +:+ " outcome is " +:+ word) in
  assertDispatchActive signal;;
  last ← tick last;
  begun ← beginEffect identity caller last;
  match begun with
  | Replay _ _ receipt => mret (receipt, last)
  | Blocked _ _ reason => throw (outcome_is (DurableEffects.effect_status_name reason))
  | Execute _ rev =>
      assertDispatchActive signal;;
      last ← tick last;
      '(_, inflightRevision) ← markEffectInflight identity caller rev last;
      '(performed, last) ← perform identity caller inflightRevision signal operation last;
      match performed with
      | Some receipt => mret (receipt, last)
      | None =>
          last ← tick last;
          attempt (markEffectUncertain identity caller inflightRevision last);;
          throw (outcome_is "uncertain")
      end
  end.

Definition provider_effect (jobId : string) : EffectIdentity :=
  DurableEffects.Build_EffectIdentity jobId DurableEffects.provider_task_create
    "document-execution-v1:provider".
Definition paid_effect (jobId : string) : EffectIdentity :=
  DurableEffects.Build_EffectIdentity jobId DurableEffects.paid_upstream_call
    "document-execution-v1:paid".
Definition artifact_effect (jobId : string) : EffectIdentity :=
  DurableEffects.Build_EffectIdentity jobId DurableEffects.artifact_write
    "document-execution-v1:artifact".

(** The job, running, or what a job that is over comes to. *)
Definition enter_running (jobId : string) (caller : DurableDocumentJobCaller) (last : number)
    : M S (option string * number) :=
  last ← tick last;
  '(job, rev) ← get_job jobId caller last;
  match job_status job, job_resultArtifactRef job return M S (option string * number) with
  | completed, Some ref => mret (Some ref, last)
  | failed, _ | cancelled, _ | expired, _ => throw (executionError "Durable document job is terminal")
  | running, _ => mret (None, last)
  | _, _ =>
      last ← tick last;
      running ← transition jobId caller rev running last empty_patch;
      match running with
      | JobUpdated _ => mret (None, last)
      | JobConflict _ => throw (executionError "Durable document job transition conflicted")
      end
  end.

Definition complete (jobId : string) (caller : DurableDocumentJobCaller) (artifactRef : string)
    (last : number) : M S string :=
  last ← tick last;
  '(job, rev) ← get_job jobId caller last;
  if bool_decide (job_status job = completed) && bool_decide (job_resultArtifactRef job = Some artifactRef)
  then mret artifactRef
  else
    last ← tick last;
    done ← transition jobId caller rev completed last
             {| patch_resultArtifactRef := Some (Some artifactRef); patch_sanitizedError := None |};
    match done with
    | JobUpdated _ => mret artifactRef
    | JobConflict _ => throw (executionError "Durable document completion conflicted")
    end.

Definition execute (ports : DurableDocumentExecutionPorts S) (jobId : string) (nowMs : number)
    (caller : DurableDocumentJobCaller) (signal : AbortSignal S) : M S string :=
  assertDispatchActive signal;;
  '(over, last) ← enter_running jobId caller nowMs;
  match over with
  | Some ref => mret ref
  | None =>
      '(_, last) ← runEffect (provider_effect jobId) caller signal (createProviderTask ports) last;
      '(_, last) ← runEffect (paid_effect jobId) caller signal (performPaidCall ports) last;
      '(artifactRef, last) ← runEffect (artifact_effect jobId) caller signal (writeResultArtifact ports) last;
      assertDispatchActive signal;;
      complete jobId caller artifactRef last
  end.
End executor.
