(* ===== verification/DurableDocumentJobsSafety.v ===== *)
(** * Correctness of the durable document jobs

    Under any interleaving with other workers, and whatever calls fail: a job
    only moves forward, reading one terminates, the external effects of a job
    are asked for at most once, and an execution that returns a result has
    completed the job with it. *)

From S2P Require Import Prelude Interference JsString JsMap Digest Json DurableStore RecordFamily DurableDocumentJobs.
From S2P Require DurableEffects DurableEffectsSafety.

Abbreviation reached := DurableEffectsSafety.reached.

(** ** Records round-trip *)

Lemma isStatus_status_name st : isStatus (JStr (status_name st)) = Some st.
Proof. by destruct st. Qed.

Lemma job_of_json_normal j : job_of_json (json_normal (job_json j)) = Some j.
Proof.
  destruct j as [id o cb ik rf st c u e ar er].
  assert (Hp : ∀ name, prop (json_normal (job_json (Build_DurableDocumentJob id o cb ik rf st c u e ar er))) name =
    prop (job_json (Build_DurableDocumentJob id o cb ik rf st c u e ar er)) name)
    by (intros; by destruct ar, er).
  unfold job_of_json. rewrite !Hp. by destruct st, ar, er.
Qed.

Lemma decode_job r j : value r = encode j → check_job j = Ok tt → decode r = Ok (j, revision r).
Proof.
  intros Hv Hc. unfold decode. rewrite Hv.
  rewrite (JSON_roundtrip (job_json j) (encode j)); [|by destruct j as [? ? ? ? ? ? ? ? ? [] []]|done].
  by rewrite job_of_json_normal, Hc.
Qed.

Lemma decode_job_Ok r j rev : decode r = Ok (j, rev) → rev = revision r ∧ check_job j = Ok tt.
Proof.
  unfold decode. destruct (JSON_parse _) as [v|]; [|done]. destruct (job_of_json v) as [j'|]; [|done].
  intros ([] & Hc & [= <- <-])%result_bind_Ok. done.
Qed.

(** Only the times of a job matter to its checks once its texts are kept. *)
Lemma check_job_update j j' :
  check_job j = Ok tt →
  (job_jobId j', job_ownerId j', job_credentialBinding j', job_idempotencyKey j',
   job_requestFingerprint j', job_createdAt j', job_expiresAt j') =
  (job_jobId j, job_ownerId j, job_credentialBinding j, job_idempotencyKey j,
   job_requestFingerprint j, job_createdAt j, job_expiresAt j) →
  assertTimestamp (int (job_updatedAt j')) "updatedAt" = Ok tt → check_job j' = Ok tt.
Proof.
  unfold check_job. intros Hc [= -> -> -> -> -> -> ->] Hu. rewrite Hu.
  repeat (apply result_bind_Ok in Hc as ([] & -> & Hc); cbn).
  apply result_bind_Ok in Hc as ([] & _ & Hc). by rewrite Hc.
Qed.

Lemma isSafeInteger_to_Z x : isSafeInteger x = true → isSafeInteger (int (to_Z x)) = true.
Proof.
  unfold isSafeInteger. intros [_ Hx]%andb_true_iff. by rewrite isInteger_int, to_Z_int, Hx.
Qed.

Lemma assertTimestamp_to_Z x f f' : assertTimestamp x f = Ok tt → assertTimestamp (int (to_Z x)) f' = Ok tt.
Proof.
  intros [Hs Hz]%throw_if_Ok%orb_false_iff. apply negb_false_iff in Hs. apply throw_if_Ok.
  rewrite isSafeInteger_to_Z by done. apply andb_true_iff in Hs as [Hi _].
  rewrite num_ltb_int. rewrite (num_ltb_integer x (int 0)), to_Z_int in Hz by done. by rewrite Hz.
Qed.

(** ** How jobs evolve *)

Definition rank (st : DurableDocumentJobStatus) : nat :=
  match st with
  | created => 0 | pending => 1 | running => 2 | completed | failed => 3 | cancelled | expired => 4
  end.

Definition job_identity (j : DurableDocumentJob) :=
  (job_jobId j, job_ownerId j, job_credentialBinding j, job_idempotencyKey j,
   job_requestFingerprint j, job_createdAt j, job_expiresAt j).

(** Every write takes a job to a later status; from a final one only to
    [expired], with its outcome. *)
Record job_step (j j' : DurableDocumentJob) : Prop := {
  step_identity : job_identity j' = job_identity j;
  step_rank : rank (job_status j) < rank (job_status j');
  step_final : TERMINAL_STATUSES (job_status j) = true →
    job_status j' = expired ∧
    (job_resultArtifactRef j', job_sanitizedError j') = (job_resultArtifactRef j, job_sanitizedError j)
}.

Lemma rank_bound st : rank st ≤ 4.
Proof. destruct st; cbn; lia. Qed.

Lemma job_step_trans j1 j2 j3 : job_step j1 j2 → job_step j2 j3 → job_step j1 j3.
Proof.
  intros [I1 R1 F1] [I2 R2 F2]. split; [congruence|lia|]. intros Hf. destruct (F1 Hf) as [He _].
  pose proof (rank_bound (job_status j3)). rewrite He in R2. cbn in R2. lia.
Qed.

Definition job_key (k : string) : Prop := startsWith k "document-job:" = true.

Definition job_named (k : string) (r : DurableRecord) : Prop := ∀ j rev,
  decode r = Ok (j, rev) → recordKey (job_jobId j) = k ∧ colon_free (job_jobId j).

Definition job_moves (r r' : DurableRecord) : Prop := ∀ j rev, decode r = Ok (j, rev) →
  ∃ j', decode r' = Ok (j', revision r') ∧ job_step j j'.

Lemma job_moves_trans r1 r2 r3 : job_moves r1 r2 → job_moves r2 r3 → job_moves r1 r3.
Proof.
  intros H1 H2 j rev (j2 & D2 & S2)%H1. destruct (H2 _ _ D2) as (j3 & D3 & S3). exists j3.
  split; [done|]. by eapply job_step_trans.
Qed.

Lemma job_not_effect k : job_key k → startsWith k "effect:" = false.
Proof.
  intros [l1 H1]%startsWith_inv. destruct (startsWith k "effect:") eqn:He; [|done].
  apply startsWith_inv in He as [l2 H2]. by rewrite H1 in H2.
Qed.

#[export] Instance job_family : RecordFamily := {
  fam_key := job_key;
  fam_ok := job_named;
  fam_moves := job_moves;
  fam_moves_trans := job_moves_trans;
  fam_not_effect := job_not_effect
}.

Lemma recordKey_job id : job_key (recordKey id).
Proof. apply (startsWith_app "document-job:"). Qed.

Lemma recordKey_inj id1 id2 : recordKey id1 = recordKey id2 → id1 = id2.
Proof.
  intros H%(f_equal chars). unfold recordKey in H. rewrite !chars_app in H.
  by apply (inj (app _)), chars_inj in H.
Qed.

Lemma jobIdFor_colon_free `{!Sha256Api} o k : colon_free (jobIdFor o k).
Proof.
  unfold colon_free, jobIdFor, slice_to. rewrite chars_app, chars_unchars. intros [Hc|Hc]%elem_of_app.
  - revert Hc. by apply (bool_decide_eq_true_1 (¬ _)).
  - apply subseteq_take in Hc. pose proof (sha256_hex (utf8 (o +:+ NUL +:+ k))) as Hh.
    rewrite Forall_forall in Hh. by apply Hh in Hc.
Qed.

#[export] Hint Resolve recordKey_job jobIdFor_colon_free : groundlane.

(** A job as it was read, with the record it was read from. *)
Definition job_at (id : string) (r : DurableRecord) (current : VersionedDurableDocumentJob)
    (m : memory) : Prop :=
  rec_key r = recordKey id ∧ decode r = Ok current ∧ known r m.

Lemma job_at_stable id r c : stable (job_at id r c).
Proof.
  intros m m' He (Hk & Hd & Hr). split_and!; [done..|]. by eapply fam_known_stable.
Qed.

Lemma job_at_facts id r j rev m :
  job_at id r (j, rev) m → job_jobId j = id ∧ colon_free id ∧ rev = revision r ∧ check_job j = Ok tt.
Proof.
  intros (Hk & Hd & [_ Hn _]). destruct (Hn _ _ Hd) as [Hid Hc]. rewrite Hk in Hid.
  apply recordKey_inj in Hid as <-. destruct (decode_job_Ok _ _ _ Hd). done.
Qed.

#[export] Hint Resolve job_at_stable : groundlane.

Definition owns (j : DurableDocumentJob) (caller : DurableDocumentJobCaller) : Prop :=
  job_ownerId j = jc_ownerId caller ∧ job_credentialBinding j = jc_credentialBinding caller.

Lemma assertCaller_owns j caller : assertCaller j caller = Ok tt → owns j caller.
Proof.
  intros ([] & H1%throw_if_Ok & H2%throw_if_Ok)%result_bind_Ok. by reflect.
Qed.

(** ** Every operation moves the jobs forward *)

(** The job of [id] has come at least as far as rank [n]. *)
Definition floor (id : string) (n : nat) (m : memory) : Prop :=
  n = 0 ∨ ∃ r c, job_at id r c m ∧ n ≤ rank (job_status c.1).

Lemma floor_stable id n : stable (floor id n).
Proof.
  intros m m' He [->|(r & c & Hr & Hn)]; [by left|]. right. exists r, c. split; [|done].
  by eapply job_at_stable.
Qed.

Lemma job_at_later id r c r' j' rev' m :
  job_at id r c m → rec_evolves r r' → decode r' = Ok (j', rev') → rank (job_status c.1) ≤ rank (job_status j').
Proof.
  destruct c as [j rev]. intros (_ & Hd & _) [->|[_ Hm]] Hd'.
  - rewrite Hd in Hd'. by injection Hd' as <- _.
  - destruct (Hm _ _ Hd) as (j2 & Hd2 & Hs). rewrite Hd' in Hd2. injection Hd2 as <- _.
    pose proof (step_rank _ _ Hs). cbn. lia.
Qed.

(** A write from what was read, and what it leaves. *)
Lemma job_write_ok id r j rev j' u m :
  job_at id r (j, rev) m → job_step j j' → check_job j' = Ok tt → upd_value u = encode j' →
  job_named (rec_key r) (updated_record r u) ∧ job_moves r (updated_record r u) ∧
  decode (updated_record r u) = Ok (j', (revision r + 1)%Z).
Proof.
  intros Hat Hs Hc Hu. pose proof Hat as (Hk & Hd & Hkn). destruct (job_at_facts _ _ _ _ _ Hat) as (Hid & Hcol & _).
  assert (Hd' : decode (updated_record r u) = Ok (j', (revision r + 1)%Z)) by (by apply decode_job).
  pose proof (step_identity _ _ Hs) as Hident. injection Hident as Hid' _.
  split_and!; [|intros j1 rev1 Hd1|done].
  - intros j1 rev1 Hd1. rewrite Hd' in Hd1. injection Hd1 as <- _. rewrite Hid', Hid, Hk. done.
  - rewrite Hd in Hd1. injection Hd1 as <- _. by exists j'.
Qed.

Section service.
Context {S : Type} `{!DurableRecordStorePort S} (view : S → memory)
  (env : memory → memory → Prop) `{Laws : !DurableStoreLaws view env}
  (Henv : ∀ m m', env m m' → family_env m m').
Notation moves := (moves view).

Lemma moves_read_job (K : memory → Prop) id caller :
  stable K → moves K (read_job id caller)
    (λ rc m, job_at id rc.1 rc.2 m ∧ owns rc.2.1 caller ∧ good m ∧ K m ∧ map_get (recordKey id) m = Some rc.1).
Proof.
  intros HK. unfold read_job. eapply moves_bind; [done|by apply (fam_moves_get view env Henv)|].
  intros [r|]; [|apply moves_throw]. apply moves_lift_bind. intros c Hd.
  apply moves_lift_bind. intros [] Ho%assertCaller_owns. apply moves_ret.
  intros m (_ & Hg & HKm & Hr). symmetry in Hr.
  destruct (fam_known_current m (recordKey id) r (proj1 Hg) (recordKey_job id) Hr). done.
Qed.

(** The result of reading a job: it is not over time, or says so. *)
Definition current_job (id : string) (caller : DurableDocumentJobCaller) (now : number)
    (c : VersionedDurableDocumentJob) (m : memory) : Prop :=
  (∃ r, job_at id r c m) ∧ owns c.1 caller ∧
  (num_ltb now (int (job_expiresAt c.1)) = true ∨ rank (job_status c.1) = 4).

Lemma current_job_stable id caller now c : stable (current_job id caller now c).
Proof.
  intros m m' He [(r & Hr) Ho]. split; [|done]. exists r. by eapply job_at_stable.
Qed.

(** A conditional write from a job that was read. *)
Definition job_written (id : string) (j j' : DurableDocumentJob) (rev : Z) (o : DurableCasResult)
    (m : memory) : Prop :=
  match o with
  | Updated r' => job_at id r' (j', (rev + 1)%Z) m
  | Conflict r' => ∃ j2, job_at id r' (j2, revision r') m ∧ job_step j j2
  | Missing => False
  end.

Lemma moves_cas_job (K : memory → Prop) id r j rev j' k u :
  (∀ m, K m → job_at id r (j, rev) m) → k = rec_key r ∨ k = recordKey id → job_step j j' →
  check_job j' = Ok tt → upd_value u = encode j' →
  moves K (ds_compareAndSwap k rev u) (job_written id j j' rev).
Proof.
  intros HK Hkey Hs Hc Hu.
  eapply (moves_pure view _ (rec_key r = recordKey id ∧ decode r = Ok (j, rev) ∧ rev = revision r ∧
    job_named (rec_key r) (updated_record r u) ∧ job_moves r (updated_record r u) ∧
    decode (updated_record r u) = Ok (j', (revision r + 1)%Z))).
  { intros m Hat%HK. pose proof (job_at_facts _ _ _ _ _ Hat) as (_ & _ & ? & _).
    destruct (job_write_ok _ _ _ _ _ _ _ Hat Hs Hc Hu) as (? & ? & ?). destruct Hat as (? & ? & _). done. }
  intros (Hk & Hd & -> & Hok & Hmv & Hd').
  assert (k = rec_key r) as -> by (by destruct Hkey as [->| ->]).
  eapply moves_mono; [intros m Hm; exact Hm| |apply (fam_moves_cas view env Henv); [by intros m (_ & _ & ?)%HK|done|done]].
  intros [r'|r'|] m; cbn; [intros (-> & Hkn)|intros (Hk' & Hkn & _ & Hmoved)|done].
  - by split_and!.
  - destruct (Hmoved _ _ Hd) as (j2 & Hd2 & Hs2). exists j2. split; [|done]. split_and!; [congruence|done|done].
Qed.

Lemma expired_step j now :
  job_status j ≠ expired → job_status j ≠ cancelled → check_job j = Ok tt →
  assertTimestamp now "nowMs" = Ok tt →
  let j' := j <| job_status := expired |> <| job_updatedAt := to_Z now |> in
  job_step j j' ∧ check_job j' = Ok tt.
Proof.
  intros He Hc Hok Hnow j'. split.
  - split; [by destruct j| |by destruct j]. cbn. by destruct (job_status j); cbn in *; lia || done.
  - apply (check_job_update j); [done..|]. by eapply assertTimestamp_to_Z.
Qed.

Lemma moves_get_loop fuel n (K : memory → Prop) id caller now :
  stable K → 5 ≤ n + fuel → (∀ m, K m → floor id n m) → assertTimestamp now "nowMs" = Ok tt →
  moves K (get_loop fuel id caller now) (λ o m, ∃ c, o = Some c ∧ current_job id caller now c m).
Proof.
  revert n K. induction fuel as [|fuel IH]; intros n K HK Hn Hfloor Hnow.
  { eapply (moves_pure view _ False); [|done]. intros m [->|(r & c & _ & Hr)]%Hfloor; [lia|].
    pose proof (rank_bound (job_status c.1)). lia. }
  cbn [get_loop]. eapply moves_bind; [done|by apply moves_read_job|]. intros [r [j rev]]. cbn [fst snd].
  set (K' := λ m, job_at id r (j, rev) m ∧ owns j caller ∧ n ≤ rank (job_status j)).
  apply (moves_mono view K' _ _ (λ o m, ∃ c, o = Some c ∧ current_job id caller now c m)); [|done|].
  { intros m (_ & Hat & Ho & Hg & [->|(r0 & c0 & H0 & Hn0)]%Hfloor & Hr); split_and!; try done; [lia|].
    pose proof H0 as (Hk0 & _ & [_ _ (r1 & Hr1 & Hev)]). rewrite Hk0, Hr in Hr1. injection Hr1 as <-.
    pose proof Hat as (_ & Hd & _). pose proof (job_at_later _ _ _ _ _ _ _ H0 Hev Hd). cbn in *. lia. }
  assert (HK' : stable K') by (apply stable_and; [apply job_at_stable|apply stable_const]).
  destruct (num_ltb now (int (job_expiresAt j)) || _ || _) eqn:Hopen.
  { apply moves_ret. intros m (Hat & Ho & _). eexists. split; [done|]. split; [by eexists|]. split; [done|].
    cbn. apply orb_true_iff in Hopen as [[Hopen|Hopen]%orb_true_iff|Hopen]; [by left|..]; reflect;
      right; by rewrite Hopen. }
  apply orb_false_iff in Hopen as [[_ He]%orb_false_iff Hc]. reflect.
  eapply (moves_pure view _ (check_job j = Ok tt)).
  { by intros m [(_ & _ & _ & ?)%job_at_facts _]. }
  intros Hcheck. destruct (expired_step j now) as [Hs Hc']; [done..|].
  set (j' := j <| job_status := expired |> <| job_updatedAt := to_Z now |>) in *.
  eapply moves_bind; [done|apply (moves_cas_job _ id r j rev j'); [by intros m [? _]|by left|done..]|].
  intros [r'|r'|]; cbn [job_written].
  - eapply (moves_pure view _ (decode r' = Ok (j', (rev + 1)%Z))); [by intros m (_ & _ & ? & _)|]. intros Hd.
    rewrite Hd. apply moves_lift_bind. intros c [= <-]. apply moves_ret.
    intros m ((_ & Ho & _) & Hat). eexists. split; [done|]. split; [by eexists|]. split; [exact Ho|]. by right.
  - eapply (moves_mono view (floor id (Datatypes.S n))); [|intros a m Ha; exact Ha|apply (IH (Datatypes.S n)); [apply floor_stable|lia|done|done]].
    intros m ((Hat & _ & Hn0) & (j2 & Hat2 & Hs2)). right. exists r', (j2, revision r'). split; [done|].
    pose proof (step_rank _ _ Hs2). cbn. lia.
  - by apply moves_throw.
Qed.

(** A job that was read, and what follows. *)
Record job_facts (id : string) (caller : DurableDocumentJobCaller) (now : number)
    (j : DurableDocumentJob) : Prop := {
  fact_id : job_jobId j = id;
  fact_colon_free : colon_free id;
  fact_check : check_job j = Ok tt;
  fact_owns : owns j caller;
  fact_now : assertTimestamp now "nowMs" = Ok tt;
  fact_open : num_ltb now (int (job_expiresAt j)) = true ∨ rank (job_status j) = 4
}.

Lemma moves_get_job (K : memory → Prop) id caller now :
  stable K → moves K (get_job id caller now)
    (λ c m, assertTimestamp now "nowMs" = Ok tt ∧ current_job id caller now c m).
Proof.
  intros HK. unfold get_job. apply moves_lift_bind. intros [] _. apply moves_lift_bind. intros [] Hnow.
  eapply moves_bind; [done|apply (moves_get_loop GET_ROUNDS 0); [done|done|by left|done]|].
  intros [c|]; [apply moves_ret|apply moves_throw]. intros m (_ & c' & [= <-] & Hc). by split.
Qed.

Lemma moves_bind_get {A} (K : memory → Prop) id caller now (f : VersionedDurableDocumentJob → M S A) Q :
  stable K →
  (∀ r j rev (K' : memory → Prop), stable K' → (∀ m, K' m → K m ∧ job_at id r (j, rev) m) →
    job_facts id caller now j → moves K' (f (j, rev)) Q) →
  moves K (get_job id caller now ≫= f) Q.
Proof.
  intros HK Hf. eapply moves_bind; [done|by apply moves_get_job|]. intros [j rev].
  eapply (moves_pick view _ (λ r, job_at id r (j, rev))); [by intros m (_ & _ & Hr & _)|]. intros r.
  eapply (moves_pure view _ (job_facts id caller now j)).
  { intros m ((_ & Hnow & _ & Ho & Hopen) & Hat). destruct (job_at_facts _ _ _ _ _ Hat) as (? & ? & _ & ?). by split. }
  intros Hfacts. eapply moves_mono; [| |apply (Hf r j rev (λ m, K m ∧ job_at id r (j, rev) m)); try done].
  - by intros m ((? & _) & ?).
  - done.
  - by apply stable_and; [|apply job_at_stable].
Qed.

Lemma moves_revoke_loop n (K : memory → Prop) id caller now :
  stable K → assertTimestamp now "nowMs" = Ok tt →
  moves K (revoke_loop n id caller now)
    (λ c m, (∃ r, job_at id r c m) ∧ TERMINAL_STATUSES (job_status c.1) = true).
Proof.
  revert K. induction n as [|n IH]; intros K HK Hnow; cbn [revoke_loop]; [apply moves_throw|].
  eapply moves_bind; [done|by apply moves_read_job|]. intros [r [j rev]]. cbn [fst snd].
  destruct (TERMINAL_STATUSES (job_status j)) eqn:Ht.
  { apply moves_ret. intros m (_ & Hat & _). split; [by eexists|done]. }
  apply (moves_mono view (job_at id r (j, rev)) _ _
    (λ c m, (∃ r, job_at id r c m) ∧ TERMINAL_STATUSES (job_status c.1) = true)); [by intros m (_ & ? & _)|done|].
  eapply (moves_pure view _ (check_job j = Ok tt)); [by intros m (_ & _ & _ & ?)%job_at_facts|]. intros Hc.
  set (j' := j <| job_status := cancelled |> <| job_updatedAt := to_Z now |>).
  eapply moves_bind; [apply job_at_stable|apply (moves_cas_job _ id r j rev j'); [done|by left| | |done]|].
  - split; [by destruct j| |by rewrite Ht]. cbn. by destruct (job_status j); cbn in *; lia || done.
  - apply (check_job_update j); [done..|]. by eapply assertTimestamp_to_Z.
  - intros [r'|r'|]; cbn [job_written].
    + apply moves_lift. intros c m Hd [_ Hat]. pose proof Hat as (_ & Hd' & _). rewrite Hd in Hd'.
      injection Hd' as ->. split; [by eexists|done].
    + eapply (moves_mono view (λ _, True)); [done| |by apply IH; [apply stable_const|]]. done.
    + by apply moves_throw.
Qed.

Lemma assertTransition_rank from to :
  assertTransition from to = Ok tt → rank from < rank to ∧ TERMINAL_STATUSES from = false.
Proof. by destruct from, to; vm_compute; intros [=]; split; try lia. Qed.

Lemma moves_transition_job (K : memory → Prop) id caller rev to now patch :
  stable K →
  moves K (transition id caller rev to now patch) (λ o m, match o with
    | JobUpdated c => (∃ r, job_at id r c m) ∧ job_status c.1 = to ∧
        (∀ ref, patch_resultArtifactRef patch = Some ref → job_resultArtifactRef c.1 = ref)
    | JobConflict c => ∃ r, job_at id r c m end).
Proof.
  intros HK. unfold transition. apply moves_lift_bind. intros [] _.
  apply moves_bind_get; [done|]. intros r j rev' K' HK' Hat Hf.
  destruct (rev' =? rev)%Z eqn:Hrev; cbn [negb].
  2: { apply moves_ret. intros m [_ Hm]%Hat. by exists r. }
  apply Z.eqb_eq in Hrev as ->. apply moves_lift_bind. intros [] [Hrank Hterm]%assertTransition_rank. cbv zeta.
  apply moves_lift_bind. intros [] _.
  set (j' := j <| job_status := to |> <| job_updatedAt := to_Z now |> <| job_resultArtifactRef := _ |>
               <| job_sanitizedError := _ |>).
  eapply moves_bind; [done|apply (moves_cas_job _ id r j rev j'); [by intros m [_ ?]%Hat|by right| | |done]|].
  - split; [by destruct j|done|by rewrite Hterm].
  - destruct Hf. apply (check_job_update j); [done..|]. by eapply assertTimestamp_to_Z.
  - intros [r'|r'|]; cbn [job_written]; apply moves_lift_bind || apply moves_throw.
    + intros c Hd. apply moves_ret. intros m [_ Hm]. pose proof Hm as (_ & Hd' & _). rewrite Hd in Hd'.
      injection Hd' as ->. split_and!; [by eexists|done|]. cbn. intros ref Href. by rewrite Href.
    + intros c Hd. apply moves_lift_bind. intros [] _. apply moves_ret.
      intros m (_ & j2 & Hm & _). pose proof Hm as (_ & Hd' & _). rewrite Hd in Hd'. injection Hd' as ->. by exists r'.
Qed.

(** What is read later is the same job, at the same status or a later one. *)
Definition later_than (c0 c : VersionedDurableDocumentJob) : Prop :=
  c = c0 ∨ rank (job_status c0.1) < rank (job_status c.1).

Lemma current_later id r0 c0 r c m :
  job_at id r0 c0 m → job_at id r c m → map_get (recordKey id) m = Some r → later_than c0 c.
Proof.
  intros (Hk0 & Hd0 & [_ _ (r1 & Hr1 & Hev)]) (_ & Hd & _) Hr.
  rewrite Hk0, Hr in Hr1. injection Hr1 as <-. destruct Hev as [->|[_ Hm]]; [left; congruence|right].
  destruct c0 as [j0 rev0]. destruct (Hm _ _ Hd0) as (j2 & Hd2 & Hs). rewrite Hd in Hd2.
  injection Hd2 as ->. exact (step_rank _ _ Hs).
Qed.

Lemma moves_get_later n id caller now r0 c0 :
  assertTimestamp now "nowMs" = Ok tt →
  moves (job_at id r0 c0) (get_loop n id caller now) (λ o _, ∀ c, o = Some c → later_than c0 c).
Proof.
  intros Hnow. pose proof (job_at_stable id r0 c0) as HK. induction n as [|n IH]; cbn [get_loop]; [by apply moves_ret|].
  eapply moves_bind; [done|by apply moves_read_job|]. intros [r [j rev]]. cbn [fst snd].
  set (K := λ m, job_at id r0 c0 m ∧ job_at id r (j, rev) m).
  assert (HKs : stable K) by (apply stable_and; [done|apply job_at_stable]).
  apply (moves_pure view _ (later_than c0 (j, rev) ∧ check_job j = Ok tt)).
  { intros m (_ & Hat & _ & _ & H0 & Hr). split; [exact (current_later _ _ _ _ _ _ H0 Hat Hr)|].
    by apply job_at_facts in Hat as (_ & _ & _ & ?). }
  intros [Hlater Hcheck]. apply (moves_mono view K _ _ (λ o _, ∀ c, o = Some c → later_than c0 c));
    [by intros m (_ & Hat & _ & _ & H0 & _)|done|].
  destruct (num_ltb now _ || _ || _) eqn:Hopen; [apply moves_ret; by intros m _ c [= <-]|].
  apply orb_false_iff in Hopen as [[_ He]%orb_false_iff Hc]. reflect.
  destruct (expired_step j now) as [Hs Hc']; [done..|].
  set (j' := j <| job_status := expired |> <| job_updatedAt := to_Z now |>) in *.
  eapply moves_bind; [done|apply (moves_cas_job K id r j rev j'); [by intros m [_ ?]|by left|done..]|].
  intros [r'|r'|]; cbn [job_written]; [|by eapply moves_mono; [| |exact IH]; [intros m [[? _] _]|]|apply moves_throw].
  eapply (moves_pure view _ (decode r' = Ok (j', (rev + 1)%Z))); [by intros m (_ & _ & ? & _)|]. intros ->.
  apply moves_lift_bind. intros c [= <-]. apply moves_ret. intros m _ c [= <-]. right.
  pose proof (step_rank _ _ Hs). destruct Hlater as [<-|Hl]; cbn in *; lia.
Qed.

Lemma moves_get_job_later id caller now r0 c0 :
  moves (job_at id r0 c0) (get_job id caller now) (λ c m, (∃ r, job_at id r c m) ∧ later_than c0 c).
Proof.
  unfold get_job. apply moves_lift_bind. intros [] _. apply moves_lift_bind. intros [] Hnow.
  pose proof (job_at_stable id r0 c0) as HK. eapply moves_bind; [done| |].
  - apply moves_and; [apply (moves_get_loop GET_ROUNDS 0); [done..|by left|done]|by apply (moves_get_later GET_ROUNDS)].
  - intros [c|]; [apply moves_ret|apply moves_throw]. intros m (_ & (c' & [= <-] & Hr & _) & Hl). by split; [|apply Hl].
Qed.

(** A transition from what was read conflicts with a later status only. *)
Lemma moves_transition_conflict id caller rev to now patch r0 c0 :
  rev = c0.2 →
  moves (job_at id r0 c0) (transition id caller rev to now patch) (λ o m, match o with
    | JobUpdated _ => True
    | JobConflict c => (∃ r, job_at id r c m) ∧ rank (job_status c0.1) < rank (job_status c.1) end).
Proof.
  intros ->. pose proof (job_at_stable id r0 c0) as HK. unfold transition. apply moves_lift_bind. intros [] _.
  eapply moves_bind; [done|apply moves_and; [by apply moves_get_job|apply moves_get_job_later]|]. intros [j rev].
  eapply (moves_pick view _ (λ r m, job_at id r (j, rev) m)); [by intros m (_ & _ & Hr & _)|]. intros r.
  set (K := λ m, job_at id r (j, rev) m). assert (HKs : stable K) by apply job_at_stable.
  eapply (moves_pure view _ (later_than c0 (j, rev) ∧ check_job j = Ok tt ∧ assertTimestamp now "nowMs" = Ok tt)).
  { intros m ((_ & (Hnow & _) & _ & Hl) & (_ & _ & _ & Hc)%job_at_facts). done. }
  intros (Hl & Hc & Hnow). eapply (moves_mono view K); [by intros m [_ ?]|intros a m Ha; exact Ha|].
  destruct (rev =? c0.2)%Z eqn:Hrev; cbn [negb].
  2: { apply moves_ret. intros m Hm. split; [by exists r|]. destruct Hl as [<-|Hl]; [cbn in Hrev; lia|exact Hl]. }
  apply Z.eqb_eq in Hrev as <-. assert (Hle : rank (job_status c0.1) ≤ rank (job_status j)).
  { destruct Hl as [<-|Hl]; cbn in *; lia. }
  apply moves_lift_bind. intros [] [Hrank Hterm]%assertTransition_rank. cbv zeta. apply moves_lift_bind. intros [] _.
  set (j' := j <| job_status := to |> <| job_updatedAt := to_Z now |> <| job_resultArtifactRef := _ |>
               <| job_sanitizedError := _ |>).
  eapply moves_bind; [done|apply (moves_cas_job K id r j rev j'); [done|by right| | |done]|].
  - split; [by destruct j|done|by rewrite Hterm].
  - apply (check_job_update j); [done..|]. by eapply assertTimestamp_to_Z.
  - intros [r'|r'|]; cbn [job_written]; apply moves_lift_bind || apply moves_throw; intros c Hd; [by apply moves_ret|].
    apply moves_lift_bind. intros [] _. apply moves_ret. intros m (_ & j2 & Hm & Hs).
    pose proof Hm as (_ & Hd' & _). rewrite Hd in Hd'. injection Hd' as ->. split; [by exists r'|].
    pose proof (step_rank _ _ Hs). cbn. lia.
Qed.

Lemma decode_job_encoded r j j' rev : value r = encode j → decode r = Ok (j', rev) → j' = j.
Proof.
  intros Hv. unfold decode. rewrite Hv.
  rewrite (JSON_roundtrip (job_json j) (encode j)); [|by destruct j as [? ? ? ? ? ? ? ? ? [] []]|done].
  rewrite job_of_json_normal. by intros ([] & _ & [= <- _])%result_bind_Ok.
Qed.

Lemma moves_createIfAbsent `{!Sha256Api} (K : memory → Prop) input :
  stable K →
  moves K (createIfAbsent input) (λ o m, match o with JobCreated c | JobReused c =>
    (∃ r, job_at (job_jobId (new_job input)) r c m) ∧ owns c.1 (cj_caller input) end).
Proof.
  intros HK. unfold createIfAbsent. apply moves_lift_bind. intros [] _. cbv zeta.
  set (j := new_job input). set (w := Build_NewDurableRecord _ _).
  assert (Hnew : ∀ j' rev, decode (new_record w) = Ok (j', rev) → j' = j)
    by (intros j' rev; by apply decode_job_encoded).
  eapply moves_bind; [done|apply (fam_moves_create view env Henv); [done|apply recordKey_job|]|].
  - intros j' rev ->%Hnew. split; [done|apply jobIdFor_colon_free].
  - intros [r|r]; apply moves_lift_bind; intros c Hd.
    + apply moves_ret. intros m (_ & -> & Hkn). split; [by exists (new_record w)|]. destruct c as [j1 rev]. apply Hnew in Hd as ->. by split.
    + apply moves_lift_bind. intros [] Ho%assertCaller_owns. apply moves_lift_bind. intros [] _. apply moves_ret.
      intros m (_ & Hkey & Hkn). split; [by exists r|done].
Qed.

(** *** Effects *)

Definition begun (identity : EffectIdentity) (o : BeginDurableDocumentEffectResult) (m : memory) : Prop :=
  colon_free (DurableEffects.id_jobId identity) ∧
  match o with Execute _ rev | Replay _ rev _ | Blocked _ rev _ => reached identity rev m end.

Lemma begun_stable identity o : stable (begun identity o).
Proof. intros m m' He [Hc Hr]. split; [done|]. destruct o; by eapply fam_reached_stable. Qed.

Lemma moves_beginEffect (K : memory → Prop) identity caller now :
  stable K → moves K (beginEffect identity caller now) (begun identity).
Proof.
  intros HK. apply moves_bind_get; [done|]. intros r j rev K' HK' Hat Hf. apply moves_lift_bind. intros [] _.
  destruct Hf as [_ Hc _ _ _ _]. eapply moves_bind; [done|by apply (fam_moves_claim view env Henv)|].
  intros [e erev|e erev]; [by apply moves_ret; intros m [_ Hm]|].
  case_match; [|by apply moves_ret; intros m [_ Hm]].
  destruct (DurableEffects.receipt e); [by apply moves_ret; intros m [_ Hm]|apply moves_throw].
Qed.

Lemma moves_transitionEffect (K : memory → Prop) identity caller rev to now receipt :
  stable K → to ≠ DurableEffects.claimed → (∀ m, K m → reached identity rev m) →
  moves K (transitionEffect identity caller rev to now receipt) (λ r m, reached identity r.2 m).
Proof.
  intros HK Hto Hr. apply moves_bind_get; [done|]. intros r j jrev K' HK' Hat Hf.
  apply moves_lift_bind. intros [] _.
  apply (fam_moves_transition view env Henv); [apply Hf|done|]. by intros m [? _]%Hat; apply Hr.
Qed.

Section executor.
Context (clock : S → number * S) (Hclock : ∀ s, env (view s) (view (clock s).2)).

Lemma moves_tick (K : memory → Prop) last : moves K (tick clock last) (λ _ _, True).
Proof.
  apply (moves_elsewhere view env _ _ (λ _, True)); [exact Henv| |done].
  intros s. specialize (Hclock s). unfold tick. by destruct (clock s).
Qed.

Lemma moves_bind_tick {A} (K : memory → Prop) last (f : number → M S A) Q :
  stable K → (∀ t, moves K (f t) Q) → moves K (tick clock last ≫= f) Q.
Proof.
  intros HK Hf. eapply moves_bind; [done|apply moves_tick|]. intros t. by apply moves_forget.
Qed.

Lemma moves_dispatch {A} (K : memory → Prop) (signal : AbortSignal S) (c : M S A) Q :
  moves K c Q → moves K (assertDispatchActive signal;; c) Q.
Proof.
  intros Hc s Hg Hs. unfold assertDispatchActive, wp, mbind, M_bind, lift.
  destruct (signal s); cbn; [by split; [apply family_env_refl|]|by apply Hc].
Qed.

Definition quiet_operation (op : AbortSignal S → M S string) : Prop :=
  ∀ signal s, env (view s) (view (op signal s).2).

Lemma moves_perform (K : memory → Prop) identity caller rev signal op last :
  stable K → quiet_operation op → (∀ m, K m → reached identity rev m) →
  moves K (perform clock identity caller rev signal op last) (λ _ _, True).
Proof.
  intros HK Hop Hr. eapply moves_bind with (Q := λ _ _, True); [done| |].
  - eapply moves_mono; [by intros m Hm; exact Hm| |apply moves_attempt, moves_dispatch].
    2: { apply (moves_elsewhere view env _ _ (λ _, True)); [exact Henv|apply Hop|done]. }
    done.
  - intros [receipt|e]; apply moves_forget; [|by apply moves_ret]. apply moves_bind_tick; [done|]. intros t.
    eapply moves_bind with (Q := λ _ _, True); [done| |intros o; by apply moves_ret].
    eapply moves_mono; [by intros m Hm; exact Hm|done|apply moves_attempt].
    apply moves_lift_bind. intros [] _. by apply moves_transitionEffect.
Qed.

Lemma moves_runEffect (K : memory → Prop) identity caller signal op last :
  stable K → quiet_operation op →
  moves K (runEffect clock identity caller signal op last) (λ _ _, True).
Proof.
  intros HK Hop. apply moves_dispatch, moves_bind_tick; [done|]. intros t.
  eapply moves_bind; [done|by apply moves_beginEffect|]. intros [e rev|e rev rc|e rev reason];
    [|by apply moves_ret|apply moves_throw].
  apply (moves_mono view (begun identity (Execute e rev)) _ _ (λ _ _, True)); [by intros m [_ ?]|done|].
  apply moves_dispatch, moves_bind_tick; [apply begun_stable|]. intros t2.
  eapply moves_bind; [apply begun_stable|apply moves_transitionEffect; [apply begun_stable|done|by intros m [_ ?]]|].
  intros [e2 rev2]. cbn [snd].
  eapply (moves_pure view _ (colon_free (DurableEffects.id_jobId identity))); [by intros m ([? _] & _)|]. intros Hc.
  apply (moves_mono view (reached identity rev2) _ _ (λ _ _, True)); [by intros m [_ ?]|done|].
  assert (Hst : stable (reached identity rev2)) by (by apply fam_reached_stable).
  eapply moves_bind; [done|by apply moves_perform|]. intros [[receipt|] t3]; apply moves_forget; [by apply moves_ret|].
  apply moves_bind_tick; [done|]. intros t4. eapply moves_bind with (Q := λ _ _, True); [done| |intros; apply moves_throw].
  eapply moves_mono; [by intros m Hm; exact Hm|done|apply moves_attempt; by apply moves_transitionEffect].
Qed.

(** The job is completed with a result. *)
Definition completed_with (id ref : string) (m : memory) : Prop :=
  ∃ r c, job_at id r c m ∧ job_status c.1 = completed ∧ job_resultArtifactRef c.1 = Some ref.

Lemma moves_enter_running (K : memory → Prop) id caller last :
  stable K → moves K (enter_running clock id caller last)
    (λ o m, match o.1 with Some ref => completed_with id ref m | None => True end).
Proof.
  intros HK. apply moves_bind_tick; [done|]. intros t. apply moves_bind_get; [done|].
  intros r j rev K' HK' Hat Hf.
  assert (Hrun : moves K' (t2 ← tick clock t; running ← transition id caller rev running t2 empty_patch;
    match running with
    | JobUpdated _ => mret (None, t2)
    | JobConflict _ => throw (executionError "Durable document job transition conflicted")
    end) (λ o m, match o.1 with Some ref => completed_with id ref m | None => True end)).
  { apply moves_bind_tick; [done|]. intros t2. eapply moves_bind; [done|by apply moves_transition_job|].
    intros [c|c]; [by apply moves_ret|apply moves_throw]. }
  destruct (job_status j) eqn:Hst; try exact Hrun; try apply moves_throw; try by apply moves_ret.
  destruct (job_resultArtifactRef j) as [ref|] eqn:Href; [|exact Hrun]. apply moves_ret.
  intros m [_ Hm]%Hat. by exists r, (j, rev).
Qed.

Lemma moves_complete (K : memory → Prop) id caller ref last :
  stable K → moves K (complete clock id caller ref last) (λ ref' m, ref' = ref ∧ completed_with id ref m).
Proof.
  intros HK. apply moves_bind_tick; [done|]. intros t. apply moves_bind_get; [done|].
  intros r j rev K' HK' Hat Hf. destruct (_ && _) eqn:Hdone.
  { apply andb_true_iff in Hdone as [H1 H2]. reflect. apply moves_ret. intros m [_ Hm]%Hat. split; [done|].
    by exists r, (j, rev). }
  apply moves_bind_tick; [done|]. intros t2. eapply moves_bind; [done|by apply moves_transition_job|].
  intros [c|c]; [|apply moves_throw]. apply moves_ret. intros m (_ & (r' & Hr') & Hst & Href).
  split; [done|]. exists r', c. split_and!; [done..|]. by apply Href.
Qed.

Record quiet_ports (ports : DurableDocumentExecutionPorts S) : Prop := {
  quiet_create : quiet_operation (createProviderTask ports);
  quiet_paid : quiet_operation (performPaidCall ports);
  quiet_write : quiet_operation (writeResultArtifact ports)
}.

Lemma moves_execute (K : memory → Prop) ports id now caller signal :
  stable K → quiet_ports ports →
  moves K (execute clock ports id now caller signal) (λ ref m, completed_with id ref m).
Proof.
  intros HK [Hc Hp Hw]. apply moves_dispatch. eapply moves_bind; [done|by apply moves_enter_running|].
  intros [[ref|] t]; cbn [fst]; [by apply moves_ret; intros m [_ ?]|]. apply moves_forget.
  do 3 (eapply moves_bind; [done|by apply moves_runEffect|]; intros [? ?]; apply moves_forget).
  apply moves_dispatch. eapply moves_mono; [by intros m Hm; exact Hm| |by apply moves_complete].
  by intros ref m [-> ?].
Qed.
End executor.
End service.

(** ** What a worker may run *)

Inductive job_command (S : Type) :=
  | JCreate (input : CreateDurableDocumentJobInput)
  | JGet (id : string) (caller : DurableDocumentJobCaller) (now : number)
  | JRevoke (id : string) (caller : DurableDocumentJobCaller) (now : number)
  | JTransition (id : string) (caller : DurableDocumentJobCaller) (rev : Z)
      (to : DurableDocumentJobStatus) (now : number) (patch : DurableDocumentJobTransitionPatch)
  | JBegin (identity : EffectIdentity) (caller : DurableDocumentJobCaller) (now : number)
  | JExecute (ports : DurableDocumentExecutionPorts S) (id : string) (now : number)
      (caller : DurableDocumentJobCaller) (signal : AbortSignal S).
Arguments JCreate {S} _.
Arguments JGet {S} _ _ _.
Arguments JRevoke {S} _ _ _.
Arguments JTransition {S} _ _ _ _ _ _.
Arguments JBegin {S} _ _ _.
Arguments JExecute {S} _ _ _ _ _.

Section claims.
Context {S : Type} `{!Sha256Api} `{!DurableRecordStorePort S} (view : S → memory)
  (env : memory → memory → Prop) (clock : S → number * S).

Definition run_job_command (c : job_command S) : M S unit :=
  match c with
  | JCreate input => ignore (createIfAbsent input)
  | JGet id caller now => ignore (get_job id caller now)
  | JRevoke id caller now => ignore (revokeSource id caller now)
  | JTransition id caller rev to now patch => ignore (transition id caller rev to now patch)
  | JBegin identity caller now => ignore (beginEffect identity caller now)
  | JExecute ports id now caller signal => ignore (execute clock ports id now caller signal)
  end.

Fixpoint run_job_commands (cs : list (job_command S)) : M S unit :=
  match cs with
  | [] => mret tt
  | c :: cs' => run_job_command c;; run_job_commands cs'
  end.

(** The ports of an execution leave the records to others. *)
Definition command_quiet (c : job_command S) : Prop :=
  match c with JExecute ports _ _ _ _ => quiet_ports view env ports | _ => True end.

Lemma moves_job_commands `{Laws : !DurableStoreLaws view env} cs :
  (∀ m m', env m m' → family_env m m') → (∀ s, env (view s) (view (clock s).2)) →
  Forall command_quiet cs → moves view (λ _, True) (run_job_commands cs) (λ _ _, True).
Proof.
  intros Henv Hclock. assert (Ht : stable (λ _ : memory, True)) by apply stable_const.
  induction 1 as [|c cs Hc _ IH]; [by apply moves_ret|].
  cbn [run_job_commands]. eapply moves_bind with (Q := λ _ _, True); [done| |].
  - destruct c; eapply moves_ignore.
    + by eapply moves_createIfAbsent.
    + by eapply moves_get_job.
    + apply moves_lift_bind. intros [] _. apply moves_lift_bind. intros [] Hnow. by eapply moves_revoke_loop.
    + by eapply moves_transition_job.
    + by eapply moves_beginEffect.
    + by eapply moves_execute.
  - intros _. by eapply moves_mono; [| |exact IH].
Qed.

(** C20: whatever calls the repository and the executor make, and however
    other workers interleave and calls fail, the record of a job stays, keeps
    the job's identity, owner, request and lifetime, and only ever takes the
    job to a later status; from a final status it can only expire, and then
    keeps its result and its error. *)
Theorem document_jobs_only_move_forward cs s :
  DurableStoreLaws view env → (∀ m m', env m m' → family_env m m') →
  (∀ s, env (view s) (view (clock s).2)) → Forall command_quiet cs → family_good (view s) →
  let m' := view (run_job_commands cs s).2 in
  family_good m' ∧
  ∀ id r j rev, map_get (recordKey id) (view s) = Some r → decode r = Ok (j, rev) →
    ∃ r' j' rev', map_get (recordKey id) m' = Some r' ∧ decode r' = Ok (j', rev') ∧
      job_identity j' = job_identity j ∧
      (j' = j ∨ (rev < rev')%Z ∧ rank (job_status j) < rank (job_status j')) ∧
      (TERMINAL_STATUSES (job_status j) = true →
        (job_status j' = job_status j ∨ job_status j' = expired) ∧
        (job_resultArtifactRef j', job_sanitizedError j') = (job_resultArtifactRef j, job_sanitizedError j)).
Proof.
  intros Laws Henv Hclock Hcs Hg m'.
  destruct (moves_job_commands (Laws := Laws) cs Henv Hclock Hcs s Hg I) as [He _].
  split; [exact (evolves_good _ _ He Hg)|]. intros id r j rev Hr Hd.
  destruct (fam_evolve_records _ _ (proj1 He) _ _ (recordKey_job id) Hr) as (r' & Hr' & Hev).
  destruct (decode_job_Ok _ _ _ Hd) as [-> _]. destruct Hev as [->|[Hlt Hsteps]].
  - exists r, j, (revision r). split_and!; [done..|by left|]. intros _. split; [by left|done].
  - destruct (Hsteps _ _ Hd) as (j' & Hd' & [Hi Hrank Hf]). exists r', j', (revision r').
    split_and!; [done..|by right|]. intros Ht. destruct (Hf Ht) as [Hx Ho]. split; [by right|done].
Qed.

(** reading a job terminates.  The loop of [get] goes round again only
    when another worker's write came in between, and every such write takes
    the job to a later status, of which there are five: whatever the others
    do, five rounds are enough for an answer or an error. *)
Theorem job_reads_terminate id caller now s :
  DurableStoreLaws view env → (∀ m m', env m m' → family_env m m') → family_good (view s) →
  assertTimestamp now "nowMs" = Ok tt →
  (get_loop GET_ROUNDS id caller now s).1 ≠ Ok None.
Proof.
  intros Laws Henv Hg Hnow.
  pose proof (moves_get_loop view env Henv GET_ROUNDS 0 (λ _, True) id caller now (stable_const True)
    ltac:(done) (λ _ _, or_introl eq_refl) Hnow s Hg I) as [_ Hr].
  destruct (get_loop _ id caller now s) as [[o|e] s']; cbn in *; [|done]. by destruct Hr as (c & -> & _).
Qed.

(** an execution that returns a reference has completed its job with it:
    the job's record says so, or says that it has expired since. *)
Theorem executed_job_is_completed ports id now caller signal s ref s' :
  DurableStoreLaws view env → (∀ m m', env m m' → family_env m m') →
  (∀ s, env (view s) (view (clock s).2)) → quiet_ports view env ports → family_good (view s) →
  execute clock ports id now caller signal s = (Ok ref, s') →
  ∃ r j rev, map_get (recordKey id) (view s') = Some r ∧ decode r = Ok (j, rev) ∧
    job_resultArtifactRef j = Some ref ∧ (job_status j = completed ∨ job_status j = expired).
Proof.
  intros Laws Henv Hclock Hports Hg Hrun.
  destruct (wp_run _ _ _ _ _ (moves_execute view env Henv clock Hclock (λ _, True) ports id now caller signal
    (stable_const True) Hports s Hg I) Hrun) as [_ (r & [j rev] & (Hk & Hd & [_ _ (r' & Hr' & Hev)]) & Hst & Href)].
  cbn in Hst, Href. rewrite Hk in Hr'. destruct Hev as [->|[_ Hm]].
  - exists r, j, rev. split_and!; [done..|by left].
  - destruct (Hm _ _ Hd) as (j' & Hd' & [_ _ Hf]). rewrite Hst in Hf. destruct (Hf eq_refl) as [Hx Ho].
    exists r', j', (revision r'). split_and!; [done..|congruence|by right].
Qed.
End claims.

(** ** Effects are asked for at most once *)

Abbreviation claimed := claimed_effect.

Lemma reached_claimed identity rev m :
  colon_free (DurableEffects.id_jobId identity) → reached identity rev m → claimed identity m.
Proof. intros Hc Hr. split; [done|]. intros key Hk. destruct (Hr key Hk) as (r & -> & _). done. Qed.

Lemma claimed_stable identity : stable (claimed identity).
Proof. apply claimed_effect_stable. Qed.

Section once.
Context {S : Type} `{!DurableRecordStorePort S} (view : S → memory)
  (env : memory → memory → Prop) `{Laws : !DurableStoreLaws view env}
  (Henv : ∀ m m', env m m' → family_env m m')
  (clock : S → number * S) (Hclock : ∀ s, env (view s) (view (clock s).2)).

(** Nobody is told to execute an effect that was claimed. *)
Lemma begin_claimed identity caller now s a s' :
  family_good (view s) → claimed identity (view s) → beginEffect identity caller now s = (Ok a, s') →
  match a with Execute _ _ => False | _ => True end.
Proof.
  intros Hg Hc Hrun. unfold beginEffect in Hrun. apply M_bind_Ok in Hrun as (c & s1 & Hget & Hrun).
  destruct (wp_run _ _ _ _ _ (moves_get_job view env Henv (λ _, True) _ caller now (stable_const True) s Hg I) Hget)
    as [He _]. pose proof (claimed_stable _ _ _ He Hc) as Hc1.
  rewrite lift_bind in Hrun. destruct (throw_if _ _); [|done].
  apply M_bind_Ok in Hrun as (r & s2 & Hclaim & Hrun).
  pose proof (wp_run _ _ _ _ _ (claim_claimed_effect view env Henv identity (to_Z now) s1 Hc1) Hclaim) as Hr.
  destruct r as [e rev|e rev]; [done|]. destruct (bool_decide _); [|by injection Hrun as <- _].
  destruct (DurableEffects.receipt e); [by injection Hrun as <- _|done].
Qed.

Lemma runEffect_claimed identity caller signal op op' last s :
  family_good (view s) → claimed identity (view s) →
  runEffect clock identity caller signal op last s = runEffect clock identity caller signal op' last s.
Proof.
  intros Hg Hc. unfold runEffect. apply bind_same. intros u s1 Hs1.
  assert (s1 = s) as -> by (unfold assertDispatchActive, lift in Hs1; by injection Hs1 as _ <-). apply bind_same. intros t s2 Ht.
  assert (He : family_env (view s) (view s2)).
  { apply Henv. pose proof (Hclock s) as Hcl. unfold tick in Ht. destruct (clock s). by injection Ht as _ <-. }
  apply bind_same. intros a s3 Ha.
  pose proof (begin_claimed _ _ _ _ _ _ (family_env_good _ _ He Hg) (claimed_stable _ _ _ He Hc) Ha) as Hb.
  by destruct a.
Qed.

(** At the same port, or for an effect claimed before. *)
Lemma runEffect_same identity caller signal op op' last s :
  family_good (view s) → op = op' ∨ claimed identity (view s) →
  runEffect clock identity caller signal op last s = runEffect clock identity caller signal op' last s.
Proof. intros Hg [->|Hc]; [done|]. by apply runEffect_claimed. Qed.

Lemma effect_then {B} identity caller signal op op' last (f g : string * number → M S B) s :
  family_good (view s) → quiet_operation view env op → op = op' ∨ claimed identity (view s) →
  (∀ a s', family_env (view s) (view s') → f a s' = g a s') →
  (runEffect clock identity caller signal op last ≫= f) s =
  (runEffect clock identity caller signal op' last ≫= g) s.
Proof.
  intros Hg Hop Hsame Hfg. pose proof (runEffect_same identity caller signal op op' last s Hg Hsame) as Hs.
  transitivity ((runEffect clock identity caller signal op last ≫= g) s).
  - apply bind_same. intros a s' Hrun. apply Hfg.
    by destruct (wp_run _ _ _ _ _ (moves_runEffect view env Henv clock Hclock (λ _, True) identity caller signal
      op last (stable_const True) Hop s Hg I) Hrun) as [He _].
  - unfold mbind, M_bind. by rewrite Hs.
Qed.

(** Some worker was told, before [s], to execute the effect. *)
Definition begun_before (identity : EffectIdentity) (s : S) : Prop :=
  ∃ caller now s1 e rev s1', family_good (view s1) ∧
    beginEffect identity caller now s1 = (Ok (Execute e rev), s1') ∧ family_env (view s1') (view s).

Lemma begun_claimed identity s : begun_before identity s → claimed identity (view s).
Proof.
  intros (caller & now & s1 & e & rev & s1' & Hg & Hrun & He).
  destruct (wp_run _ _ _ _ _ (moves_beginEffect view env Henv (λ _, True) identity caller now
    (stable_const True) s1 Hg I) Hrun) as [_ [Hc Hr]].
  apply (claimed_stable _ _ _ He). by eapply reached_claimed.
Qed.
End once.

(** C19: each external effect of a job is asked for at most once.  Let a
    worker have been told to execute an effect of a job; whatever became of it
    (an answer, an error, a crash) and whatever happened since, no execution
    of the job asks for that effect again: what the port would do makes no
    difference to the execution, in result or in state. *)
Theorem document_effects_are_asked_once {S} `{!DurableRecordStorePort S} (view : S → memory) env clock
    ports ports' id now caller signal (s : S) :
  DurableStoreLaws view env → (∀ m m', env m m' → family_env m m') →
  (∀ s, env (view s) (view (clock s).2)) → quiet_ports view env ports → family_good (view s) →
  (createProviderTask ports = createProviderTask ports' ∨ begun_before view (provider_effect id) s) →
  (performPaidCall ports = performPaidCall ports' ∨ begun_before view (paid_effect id) s) →
  (writeResultArtifact ports = writeResultArtifact ports' ∨ begun_before view (artifact_effect id) s) →
  execute clock ports id now caller signal s = execute clock ports' id now caller signal s.
Proof.
  intros Laws Henv Hclock Hports Hg Hp Hq Hw.
  assert (Hb : ∀ identity (P : Prop), P ∨ begun_before view identity s → P ∨ claimed identity (view s)).
  { intros identity P [?|?]; [by left|]. right. by eapply begun_claimed. }
  apply Hb in Hp, Hq, Hw. clear Hb.
  assert (Hstay : ∀ identity (P : Prop) m m', family_env m m' → P ∨ claimed identity m → P ∨ claimed identity m').
  { intros identity P m m' He [?|Hc]; [by left|right]. by eapply claimed_stable. }
  destruct Hports as [Hc1 Hc2 Hc3]. unfold execute. apply bind_same. intros u s0 Hs0.
  assert (s0 = s) as -> by (unfold assertDispatchActive, lift in Hs0; by injection Hs0 as _ <-).
  apply bind_same. intros [over t] s1 Hs1.
  destruct (wp_run _ _ _ _ _ (moves_enter_running view env Henv clock Hclock (λ _, True) id caller now
    (stable_const True) s Hg I) Hs1) as [He1 _]. pose proof (family_env_good _ _ He1 Hg) as Hg1.
  destruct over as [ref|]; [done|].
  apply (effect_then view env Henv clock Hclock); [done|done|exact (Hstay _ _ _ _ He1 Hp)|]. intros [a1 t1] s2 He2.
  assert (He12 : family_env (view s) (view s2)) by exact (family_env_trans _ _ _ He1 He2).
  pose proof (family_env_good _ _ He2 Hg1) as Hg2.
  apply (effect_then view env Henv clock Hclock); [done|done|exact (Hstay _ _ _ _ He12 Hq)|]. intros [a2 t2] s3 He3.
  assert (He13 : family_env (view s) (view s3)) by exact (family_env_trans _ _ _ He12 He3).
  apply (effect_then view env Henv clock Hclock);
    [exact (family_env_good _ _ He3 Hg2)|done|exact (Hstay _ _ _ _ He13 Hw)|]. by intros [a3 t3] s4 _.
Qed.

(** ** A job executed, alone *)

Module JobsDemo.
#[export] Instance digest : Sha256Api := zero_digest.
#[export] Instance port : DurableRecordStorePort (SharedStore family_env) := shared_port (λ _ _, 0%Z).
Abbreviation St := (SharedStore family_env).

Definition clock (s : St) : number * St := (int 2000, s).
Definition calm : AbortSignal St := λ _, false.
Definition caller : DurableDocumentJobCaller := {| jc_ownerId := "tenant"; jc_credentialBinding := "cred" |}.
Definition input : CreateDurableDocumentJobInput :=
  {| cj_caller := caller; cj_idempotencyKey := "k"; cj_requestFingerprint := "fp"; cj_nowMs := int 1000;
     cj_expiresAt := int 9000 |}.
Definition answering (s : string) : AbortSignal St → M St string := λ _, mret s.
Definition ports : DurableDocumentExecutionPorts St :=
  {| createProviderTask := answering "task"; performPaidCall := answering "paid";
     writeResultArtifact := answering "art_1" |}.
(** A provider call that does not answer. *)
Definition failing : DurableDocumentExecutionPorts St :=
  {| createProviderTask := answering "task"; performPaidCall := λ _, throw TOther;
     writeResultArtifact := answering "art_1" |}.

Definition empty : St := {| contents := []; turns := [] |}.
Definition id : string := jobIdFor "tenant" "k".
Definition started : St := (createIfAbsent input empty).2.

(** The first execution fails at the paid call; the second does not repeat it. *)
Definition failed_once : St := (execute clock failing id (int 2000) caller calm started).2.
(** A worker claims the paid call, and is not heard of again. *)
Definition begun_paid : St := (beginEffect (paid_effect id) caller (int 2000) started).2.

Example job_demo_runs :
  (execute clock ports id (int 2000) caller calm started).1 = Ok "art_1"%string ∧
  (execute clock failing id (int 2000) caller calm started).1 =
    Throw (executionError "Durable paid_upstream_call outcome is uncertain") ∧
  (execute clock ports id (int 2000) caller calm failed_once).1 =
    Throw (executionError "Durable paid_upstream_call outcome is uncertain").
Proof. vm_compute. split_and!; reflexivity. Qed.

Lemma job_laws : DurableStoreLaws (contents (env := family_env)) family_env.
Proof. apply shared_store_laws; [apply family_env_refl|apply family_env_trans]. Qed.

Lemma job_good_empty : family_good (contents empty).
Proof. split; [by split|]. by intros ? ? ? ? ?. Qed.

Lemma job_good_started : family_good (contents started).
Proof.
  destruct (moves_createIfAbsent contents family_env (Laws := job_laws) (λ m m' He, He) (λ _, True) input
    (stable_const True) empty job_good_empty I) as [He _].
  exact (family_env_good _ _ He job_good_empty).
Qed.

Lemma quiet_answering a : quiet_operation contents family_env (answering a).
Proof. intros signal s. apply family_env_refl. Qed.

Lemma job_quiet_ports : quiet_ports contents family_env ports.
Proof. split; apply quiet_answering. Qed.

Lemma quiet_clock s : family_env (contents s) (contents (clock s).2).
Proof. apply family_env_refl. Qed.
End JobsDemo.

#[local] Existing Instances JobsDemo.digest JobsDemo.port.

Definition demo_record : DurableRecord :=
  match map_get (recordKey JobsDemo.id) (contents JobsDemo.started) with
  | Some r => r | None => Build_DurableRecord "" "" 0 0 0 None end.

Lemma document_jobs_only_move_forward_witness :
  let m' := contents (run_job_commands JobsDemo.clock
    [JExecute JobsDemo.ports JobsDemo.id (int 2000) JobsDemo.caller JobsDemo.calm;
     JGet JobsDemo.id JobsDemo.caller (int 9000)] JobsDemo.started).2 in
  ∃ r' j' rev', map_get (recordKey JobsDemo.id) m' = Some r' ∧ decode r' = Ok (j', rev') ∧
    job_identity j' = job_identity (new_job JobsDemo.input).
Proof.
  intros m'.
  destruct (document_jobs_only_move_forward contents family_env JobsDemo.clock
    [JExecute JobsDemo.ports JobsDemo.id (int 2000) JobsDemo.caller JobsDemo.calm;
     JGet JobsDemo.id JobsDemo.caller (int 9000)] JobsDemo.started JobsDemo.job_laws (λ m m' He, He)
    JobsDemo.quiet_clock ltac:(constructor; [exact JobsDemo.job_quiet_ports|by repeat constructor])
    JobsDemo.job_good_started) as [_ Hall].
  destruct (Hall JobsDemo.id demo_record (new_job JobsDemo.input) 1%Z) as (r' & j' & rev' & Hr' & Hd' & Hi & _);
    [vm_compute; reflexivity..|].
  exists r', j', rev'. split; [exact Hr'|]. split; [exact Hd'|exact Hi].
Defined.

Lemma job_reads_terminate_witness :
  (get_loop GET_ROUNDS JobsDemo.id JobsDemo.caller (int 9000) JobsDemo.started).1 ≠ Ok None.
Proof.
  exact (job_reads_terminate contents family_env JobsDemo.id JobsDemo.caller (int 9000) JobsDemo.started
    JobsDemo.job_laws (λ m m' He, He) JobsDemo.job_good_started eq_refl).
Defined.

Definition demo_run := execute JobsDemo.clock JobsDemo.ports JobsDemo.id (int 2000) JobsDemo.caller
  JobsDemo.calm JobsDemo.started.

Lemma executed_job_is_completed_witness :
  ∃ r j rev, map_get (recordKey JobsDemo.id) (contents demo_run.2) = Some r ∧ decode r = Ok (j, rev) ∧
    job_resultArtifactRef j = Some "art_1"%string ∧ (job_status j = completed ∨ job_status j = expired).
Proof.
  refine (executed_job_is_completed contents family_env JobsDemo.clock JobsDemo.ports JobsDemo.id (int 2000)
    JobsDemo.caller JobsDemo.calm JobsDemo.started "art_1" demo_run.2 JobsDemo.job_laws (λ m m' He, He)
    JobsDemo.quiet_clock JobsDemo.job_quiet_ports JobsDemo.job_good_started _).
  apply injective_projections; [vm_compute; reflexivity|reflexivity].
Defined.

Lemma document_effects_are_asked_once_witness :
  execute JobsDemo.clock JobsDemo.ports JobsDemo.id (int 2000) JobsDemo.caller JobsDemo.calm JobsDemo.begun_paid =
  execute JobsDemo.clock JobsDemo.failing JobsDemo.id (int 2000) JobsDemo.caller JobsDemo.calm JobsDemo.begun_paid.
Proof.
  refine (document_effects_are_asked_once contents family_env JobsDemo.clock JobsDemo.ports JobsDemo.failing
    JobsDemo.id (int 2000) JobsDemo.caller JobsDemo.calm JobsDemo.begun_paid JobsDemo.job_laws (λ m m' He, He)
    JobsDemo.quiet_clock JobsDemo.job_quiet_ports _ (or_introl eq_refl) (or_intror _) (or_introl eq_refl)).
  - destruct (moves_beginEffect contents family_env (Laws := JobsDemo.job_laws) (λ m m' He, He) (λ _, True)
      (paid_effect JobsDemo.id) JobsDemo.caller (int 2000) (stable_const True) JobsDemo.started
      JobsDemo.job_good_started I) as [He _].
    exact (family_env_good _ _ He JobsDemo.job_good_started).
  - exists JobsDemo.caller, (int 2000), JobsDemo.started. do 3 eexists.
    split; [exact JobsDemo.job_good_started|]. split; [|apply family_env_refl].
    apply injective_projections; [vm_compute; reflexivity|reflexivity].
Defined.
