(* ===== verification/DurableArtifacts.v ===== *)
(** * Durable artifacts

    [DurableArtifactRepository] of [src/core/durable-artifacts.ts], less the
    lists of external outputs (see [ExternalOutputs]): metadata of artifacts
    as JSON records of the durable store, their bytes in the blob store.

    The numbers in a record are integers, and a record has the shape that
    [encode] gives: [decode] takes any other for malformed. *)

From S2P Require Import Prelude Interference JsString JsMap Digest Json DurableStore.

(** ** Data *)

Inductive DurableArtifactStatus :=
  | active | logically_expired | logically_deleted | physical_cleanup_pending.
Inductive DurableArtifactVerification := unverified | verified.
Inductive DurableArtifactDeletionPolicy := on_expiry | on_owner_delete | manual.
Inductive CleanupReason := was_expired | explicit_delete.
Inductive ProjectionFormat := markdown | structured | text.

#[export] Instance DurableArtifactStatus_eq_dec : EqDecision DurableArtifactStatus.
Proof. solve_decision. Defined.
#[export] Instance DurableArtifactVerification_eq_dec : EqDecision DurableArtifactVerification.
Proof. solve_decision. Defined.
#[export] Instance DurableArtifactDeletionPolicy_eq_dec : EqDecision DurableArtifactDeletionPolicy.
Proof. solve_decision. Defined.
#[export] Instance CleanupReason_eq_dec : EqDecision CleanupReason.
Proof. solve_decision. Defined.
#[export] Instance ProjectionFormat_eq_dec : EqDecision ProjectionFormat.
Proof. solve_decision. Defined.

Record DurableArtifactCaller := {
  ac_tenantId : string;
  ac_ownerId : string;
  ac_credentialBinding : string
}.

Inductive DurableArtifactDetails :=
  | SourceDetails (mediaType filename : string)
  | CanonicalDetails (sourceRefId documentSchemaVersion : string) (externalSourceRef : option string)
  | ProjectionDetails (canonicalRefId : string) (format : ProjectionFormat).

#[export] Instance DurableArtifactDetails_eq_dec : EqDecision DurableArtifactDetails.
Proof. solve_decision. Defined.

Record DurableArtifactMetadata := {
  am_refId : string;
  am_tenantId : string;
  am_ownerId : string;
  am_contentHash : string;
  am_byteSize : Z;
  am_retentionPolicy : string;
  am_deletionPolicy : DurableArtifactDeletionPolicy;
  am_expiresAt : Z;
  am_verification : DurableArtifactVerification;
  am_status : DurableArtifactStatus;
  am_cleanupReason : option CleanupReason;
  am_createdAt : Z;
  am_updatedAt : Z;
  am_details : DurableArtifactDetails
}.

#[export] Instance DurableArtifactMetadata_updatable : Updatable DurableArtifactMetadata :=
  {| rebuild := λ a, Build_DurableArtifactMetadata (am_refId a) (am_tenantId a) (am_ownerId a)
       (am_contentHash a) (am_byteSize a) (am_retentionPolicy a) (am_deletionPolicy a)
       (am_expiresAt a) (am_verification a) (am_status a) (am_cleanupReason a) (am_createdAt a)
       (am_updatedAt a) (am_details a) |}.

(** The view that callers get, and what only the store knows. *)
Record StoredDurableArtifactMetadata := {
  publicMetadata : DurableArtifactMetadata;
  am_credentialBindingHash : string;
  am_blobKey : string
}.
#[export] Instance StoredDurableArtifactMetadata_updatable : Updatable StoredDurableArtifactMetadata :=
  {| rebuild := λ a, Build_StoredDurableArtifactMetadata (publicMetadata a)
       (am_credentialBindingHash a) (am_blobKey a) |}.

(** A record with its revision. *)
Abbreviation DurableArtifactRecord := (DurableArtifactMetadata * Z)%type.
Abbreviation StoredDurableArtifactRecord := (StoredDurableArtifactMetadata * Z)%type.

Record PutDurableArtifactInput := {
  pa_refId : string;
  pa_caller : DurableArtifactCaller;
  pa_contentHash : string;
  pa_expiresAt : number;
  pa_retentionPolicy : string;
  pa_deletionPolicy : DurableArtifactDeletionPolicy;
  pa_bytes : bytes;
  pa_verification : DurableArtifactVerification;
  pa_details : DurableArtifactDetails;
  pa_nowMs : number
}.

Inductive PutDurableArtifactResult :=
  | ArtifactCreated (record : DurableArtifactRecord)
  | ArtifactExists (record : DurableArtifactRecord).

Inductive DurableArtifactTransitionResult :=
  | ArtifactUpdated (record : DurableArtifactRecord)
  | ArtifactConflict (record : DurableArtifactRecord)
  | ArtifactMissing.

Inductive DurableArtifactCleanupResult := CleanupDone (r : DurableDeleteResult) | CleanupOwnerMismatch.

Record DurableArtifactExpiryPage := {
  ep_expired : list DurableArtifactRecord;
  ep_conflicts : list string;
  ep_nextCursor : option string
}.

Definition MAX_REF_ID_CHARS : Z := 180.
Definition MAX_OWNER_ID_CHARS : Z := 160.
Definition MAX_TENANT_ID_CHARS : Z := 160.
Definition MAX_CREDENTIAL_BINDING_CHARS : Z := 512.
Definition MAX_DESCRIPTOR_CHARS : Z := 512.

(** ** Checks *)

Definition artifactError (message : string) : thrown := TError ("durable artifact " +:+ message).

(** [/^[A-Za-z0-9._-]+$/] *)
Definition REF_ID_RE (s : string) : bool :=
  negb (falsy s) && forallb (λ c, is_alnum c || one_of "._-" c) (chars s).
Definition HASH_RE : string → bool := hex64_after "sha256-".

Definition assertRefId (v : string) : result unit :=
  throw_if (falsy v || (MAX_REF_ID_CHARS <? str_length v)%Z || negb (REF_ID_RE v))
    (artifactError "refId is invalid").

Definition assertTrimmed (v : string) (max : Z) (what : string) : result unit :=
  throw_if (falsy v || (max <? str_length v)%Z || negb (bool_decide (trim v = v)))
    (artifactError (what +:+ " is invalid")).

Definition assertOwnerId (v : string) : result unit := assertTrimmed v MAX_OWNER_ID_CHARS "owner".
Definition assertTenantId (v : string) : result unit := assertTrimmed v MAX_TENANT_ID_CHARS "tenant".
Definition assertCredentialBinding (v : string) : result unit :=
  assertTrimmed v MAX_CREDENTIAL_BINDING_CHARS "credential binding".
Definition assertDescriptor (v label : string) : result unit := assertTrimmed v MAX_DESCRIPTOR_CHARS label.

Definition assertCaller (caller : DurableArtifactCaller) : result unit :=
  assertTenantId (ac_tenantId caller);;
  assertOwnerId (ac_ownerId caller);;
  assertCredentialBinding (ac_credentialBinding caller).

Definition validateDetails (d : DurableArtifactDetails) : result unit :=
  match d with
  | SourceDetails mediaType filename =>
      assertDescriptor mediaType "media type";; assertDescriptor filename "filename"
  | CanonicalDetails sourceRefId version external =>
      assertRefId sourceRefId;;
      match external with Some ref => assertRefId ref | None => Ok tt end;;
      assertDescriptor version "document schema version"
  | ProjectionDetails canonicalRefId _ => assertRefId canonicalRefId
  end.

Definition timestamp_invalid : thrown := artifactError "timestamp is invalid".

Definition safe (z : Z) : bool := (Z.abs z <=? MAX_SAFE_INTEGER)%Z.

(** The other fields are of the types they have. *)
Definition validateMetadata (a : StoredDurableArtifactMetadata) : result unit :=
  let p := publicMetadata a in
  assertRefId (am_refId p);;
  assertTenantId (am_tenantId p);;
  assertOwnerId (am_ownerId p);;
  throw_if (negb (hex64_after "" (am_credentialBindingHash a))) (artifactError "credential binding is invalid");;
  throw_if (negb (HASH_RE (am_contentHash p))) (artifactError "content hash is invalid");;
  throw_if (negb (safe (am_byteSize p)) || (am_byteSize p <? 1)%Z) (artifactError "size is invalid");;
  throw_if (negb (safe (am_expiresAt p)) || (am_expiresAt p <=? am_createdAt p)%Z)
    (artifactError "expiry is invalid");;
  throw_if (negb (safe (am_createdAt p)) || (am_createdAt p <? 0)%Z ||
            negb (safe (am_updatedAt p)) || (am_updatedAt p <? am_createdAt p)%Z) timestamp_invalid;;
  throw_if (negb (hex64_after "blobs/" (am_blobKey a))) (artifactError "blob key is invalid");;
  assertDescriptor (am_retentionPolicy p) "retention policy";;
  throw_if (bool_decide (am_status p = active) && bool_decide (is_Some (am_cleanupReason p)))
    (TError "active durable artifact cannot have a cleanup reason");;
  validateDetails (am_details p).

(** ** Keys and digests *)

Definition NUL : string := unchars [ascii_of_nat 0].

Definition metadataKey (refId : string) : result string :=
  assertRefId refId;; Ok ("artifact:" +:+ refId).

Section digests.
Context `{!Sha256Api}.

Definition sha256_text (v : string) : string := sha256 (utf8 v).
Definition credentialBindingHash (binding : string) : string := sha256_text binding.

Definition blobKey (caller : DurableArtifactCaller) (refId contentHash : string) : string :=
  "blobs/" +:+ sha256_text (ac_tenantId caller +:+ NUL +:+ ac_ownerId caller +:+ NUL +:+
    credentialBindingHash (ac_credentialBinding caller) +:+ NUL +:+ refId +:+ NUL +:+ contentHash).

Definition blobOwnerId (a : StoredDurableArtifactMetadata) : string :=
  "artifact-owner-" +:+ sha256_text (am_tenantId (publicMetadata a) +:+ NUL +:+
    am_ownerId (publicMetadata a) +:+ NUL +:+ am_credentialBindingHash a).

Definition digest (b : bytes) : string := "sha256-" +:+ sha256 b.

(** ** Encoding and decoding *)

Definition status_name (s : DurableArtifactStatus) : string :=
  match s with
  | active => "active" | logically_expired => "logically_expired"
  | logically_deleted => "logically_deleted" | physical_cleanup_pending => "physical_cleanup_pending"
  end.
Definition verification_name (v : DurableArtifactVerification) : string :=
  match v with unverified => "pending" | verified => "verified" end.
Definition policy_name (p : DurableArtifactDeletionPolicy) : string :=
  match p with on_expiry => "on_expiry" | on_owner_delete => "on_owner_delete" | manual => "manual" end.
Definition reason_name (r : CleanupReason) : string :=
  match r with was_expired => "expired" | explicit_delete => "explicit_delete" end.
Definition format_name (f : ProjectionFormat) : string :=
  match f with markdown => "markdown" | structured => "structured" | text => "text" end.

Definition details_json (d : DurableArtifactDetails) : js_value :=
  JObj (match d with
        | SourceDetails mediaType filename =>
            [("kind", JStr "source"); ("mediaType", JStr mediaType); ("filename", JStr filename)]
        | CanonicalDetails sourceRefId version external =>
            ("kind", JStr "canonical") :: ("sourceRefId", JStr sourceRefId) ::
            ("documentSchemaVersion", JStr version) ::
            match external with Some ref => [("externalSourceRef", JStr ref)] | None => [] end
        | ProjectionDetails canonicalRefId format =>
            [("kind", JStr "projection"); ("canonicalRefId", JStr canonicalRefId);
             ("format", JStr (format_name format))]
        end)%string.

Definition metadata_json (a : StoredDurableArtifactMetadata) : js_value :=
  let p := publicMetadata a in
  JObj [("schemaVersion", JStr "1"); ("refId", JStr (am_refId p)); ("ownerId", JStr (am_ownerId p));
        ("tenantId", JStr (am_tenantId p));
        ("credentialBindingHash", JStr (am_credentialBindingHash a));
        ("retentionPolicy", JStr (am_retentionPolicy p));
        ("deletionPolicy", JStr (policy_name (am_deletionPolicy p)));
        ("contentHash", JStr (am_contentHash p)); ("byteSize", JNum (am_byteSize p));
        ("expiresAt", JNum (am_expiresAt p)); ("blobKey", JStr (am_blobKey a));
        ("verification", JStr (verification_name (am_verification p)));
        ("status", JStr (status_name (am_status p)));
        ("cleanupReason", match am_cleanupReason p with Some r => JStr (reason_name r) | None => JNull end);
        ("createdAt", JNum (am_createdAt p)); ("updatedAt", JNum (am_updatedAt p));
        ("details", details_json (am_details p))]%string.

Definition encode (a : StoredDurableArtifactMetadata) : result string :=
  validateMetadata a;; Ok (unchars (json_text (metadata_json a))).

(** The value with a name among [all]. *)
Definition by_name {A} (name : A → string) (all : list A) (v : js_value) : option A :=
  s ← as_string v; find (λ a, bool_decide (name a = s)) all.

Definition reason_of_json (v : js_value) : option (option CleanupReason) :=
  match v with JNull => Some None | _ => Some <$> by_name reason_name [was_expired; explicit_delete] v end.

Definition optional_text (v : js_value) : option (option string) :=
  match v with JUndefined => Some None | JStr s => Some (Some s) | _ => None end.

Definition details_of_json (v : js_value) : option DurableArtifactDetails :=
  kind ← as_string (prop v "kind");
  if bool_decide (kind = "source") then
    m ← as_string (prop v "mediaType"); f ← as_string (prop v "filename"); Some (SourceDetails m f)
  else if bool_decide (kind = "canonical") then
    s ← as_string (prop v "sourceRefId"); d ← as_string (prop v "documentSchemaVersion");
    e ← optional_text (prop v "externalSourceRef"); Some (CanonicalDetails s d e)
  else if bool_decide (kind = "projection") then
    c ← as_string (prop v "canonicalRefId");
    f ← by_name format_name [markdown; structured; text] (prop v "format"); Some (ProjectionDetails c f)
  else None.

Definition metadata_of_json (v : js_value) : option StoredDurableArtifactMetadata :=
  version ← as_string (prop v "schemaVersion"); _ ← guard (version = "1");
  id ← as_string (prop v "refId"); o ← as_string (prop v "ownerId"); t ← as_string (prop v "tenantId");
  cb ← as_string (prop v "credentialBindingHash"); rp ← as_string (prop v "retentionPolicy");
  dp ← by_name policy_name [on_expiry; on_owner_delete; manual] (prop v "deletionPolicy");
  h ← as_string (prop v "contentHash"); b ← as_number (prop v "byteSize");
  e ← as_number (prop v "expiresAt"); k ← as_string (prop v "blobKey");
  vf ← by_name verification_name [unverified; verified] (prop v "verification");
  st ← by_name status_name [active; logically_expired; logically_deleted; physical_cleanup_pending]
         (prop v "status");
  cr ← reason_of_json (prop v "cleanupReason"); c ← as_number (prop v "createdAt");
  u ← as_number (prop v "updatedAt"); d ← details_of_json (prop v "details");
  Some {| publicMetadata :=
            {| am_refId := id; am_tenantId := t; am_ownerId := o; am_contentHash := h; am_byteSize := b;
               am_retentionPolicy := rp; am_deletionPolicy := dp; am_expiresAt := e;
               am_verification := vf; am_status := st; am_cleanupReason := cr; am_createdAt := c;
               am_updatedAt := u; am_details := d |};
          am_credentialBindingHash := cb; am_blobKey := k |}.

Definition malformed : thrown := artifactError "metadata is malformed".

Definition decode (record : DurableRecord) : result StoredDurableArtifactRecord :=
  match JSON_parse (value record) with
  | Throw _ => Throw malformed
  | Ok v =>
      match metadata_of_json v with
      | None => Throw malformed
      | Some a =>
          validateMetadata a;;
          key ← metadataKey (am_refId (publicMetadata a));
          throw_if (negb (bool_decide (key = rec_key record)) ||
                    negb (am_createdAt (publicMetadata a) =? rec_createdAt record)%Z)
            (artifactError "metadata binding is malformed");;
          Ok (a, revision record)
      end
  end.

Definition publicRecord (r : StoredDurableArtifactRecord) : DurableArtifactRecord :=
  (publicMetadata r.1, r.2).

(** Details are the same when their JSON texts are, in the order of the
    interface's properties. *)
Definition sameArtifact (l r : StoredDurableArtifactMetadata) : bool :=
  let p := publicMetadata l in let q := publicMetadata r in
  bool_decide (am_refId p = am_refId q) && bool_decide (am_tenantId p = am_tenantId q) &&
  bool_decide (am_ownerId p = am_ownerId q) &&
  bool_decide (am_credentialBindingHash l = am_credentialBindingHash r) &&
  bool_decide (am_contentHash p = am_contentHash q) && (am_byteSize p =? am_byteSize q)%Z &&
  (am_expiresAt p =? am_expiresAt q)%Z && bool_decide (am_blobKey l = am_blobKey r) &&
  bool_decide (am_retentionPolicy p = am_retentionPolicy q) &&
  bool_decide (am_deletionPolicy p = am_deletionPolicy q) &&
  bool_decide (am_verification p = am_verification q) && bool_decide (am_details p = am_details q).
End digests.

(** ** [DurableArtifactRepository] *)

Definition unavailable : thrown := artifactError "is unavailable".

Section repository.
Context {S : Type} `{!Sha256Api} `{!DurableRecordStorePort S} `{!ImmutableBlobPort S}.

Definition getStored (refId : string) : M S (option StoredDurableArtifactRecord) :=
  key ← lift (metadataKey refId);
  record ← ds_get key;
  match record with
  | None => mret None
  | Some record => a ← lift (decode record); mret (Some a)
  end.

Definition get_artifact (refId : string) : M S (option DurableArtifactRecord) :=
  record ← getStored refId; mret (publicRecord <$> record).

Definition same_owner (a : StoredDurableArtifactMetadata) (caller : DurableArtifactCaller) : bool :=
  bool_decide (am_ownerId (publicMetadata a) = ac_ownerId caller) &&
  bool_decide (am_tenantId (publicMetadata a) = ac_tenantId caller) &&
  bool_decide (am_credentialBindingHash a = credentialBindingHash (ac_credentialBinding caller)).

Definition assertOwner (a : StoredDurableArtifactMetadata) (caller : DurableArtifactCaller) : result unit :=
  assertCaller caller;;
  throw_if (negb (same_owner a caller)) unavailable.

Definition getForCaller (refId : string) (caller : DurableArtifactCaller)
    : M S (option DurableArtifactRecord) :=
  record ← getStored refId;
  match record with
  | None => mret None
  | Some record => lift (assertOwner record.1 caller);; mret (Some (publicRecord record))
  end.

(** *** Putting *)

Definition check_put (input : PutDurableArtifactInput) : result unit :=
  assertRefId (pa_refId input);;
  assertCaller (pa_caller input);;
  validateDetails (pa_details input);;
  throw_if (negb (HASH_RE (pa_contentHash input)) ||
            negb (bool_decide (digest (pa_bytes input) = pa_contentHash input)))
    (artifactError "content hash does not match bytes");;
  throw_if (byteLength (pa_bytes input) <? 1)%Z (artifactError "bytes are empty");;
  throw_if (negb (isSafeInteger (pa_nowMs input)) || num_ltb (pa_nowMs input) (int 0) ||
            negb (isSafeInteger (pa_expiresAt input)) || num_leb (pa_expiresAt input) (pa_nowMs input))
    (artifactError "expiry is invalid").

Definition new_metadata (input : PutDurableArtifactInput) : StoredDurableArtifactMetadata :=
  let caller := pa_caller input in
  {| publicMetadata :=
       {| am_refId := pa_refId input; am_tenantId := ac_tenantId caller; am_ownerId := ac_ownerId caller;
          am_contentHash := pa_contentHash input; am_byteSize := byteLength (pa_bytes input);
          am_retentionPolicy := pa_retentionPolicy input; am_deletionPolicy := pa_deletionPolicy input;
          am_expiresAt := to_Z (pa_expiresAt input); am_verification := pa_verification input;
          am_status := active; am_cleanupReason := None; am_createdAt := to_Z (pa_nowMs input);
          am_updatedAt := to_Z (pa_nowMs input); am_details := pa_details input |};
     am_credentialBindingHash := credentialBindingHash (ac_credentialBinding caller);
     am_blobKey := blobKey caller (pa_refId input) (pa_contentHash input) |}.

Definition record_metadata (input : PutDurableArtifactInput) : M S DurableCreateResult :=
  key ← lift (metadataKey (pa_refId input));
  value ← lift (encode (new_metadata input));
  ds_createIfAbsent {| new_key := key;
                       new_update := {| upd_value := value; upd_nowMs := pa_nowMs input;
                                        upd_expiresAt := Some (pa_expiresAt input) |} |}.

Definition discard_blob (a : StoredDurableArtifactMetadata) : M S BlobDeleteResult :=
  blob_deleteIfOwner (am_blobKey a) (blobOwnerId a).

(** After a failed write, a blob that no record refers to is deleted again. *)
Definition compensate_put (refId : string) (a : StoredDurableArtifactMetadata) : M S unit :=
  ignore (committed ← getStored refId;
          match committed with
          | Some c =>
              if bool_decide (am_blobKey c.1 = am_blobKey a) then mret tt else discard_blob a;; mret tt
          | None => discard_blob a;; mret tt
          end).

Definition put (input : PutDurableArtifactInput) : M S PutDurableArtifactResult :=
  lift (check_put input);;
  let metadata := new_metadata input in
  blobResult ← blob_putIfAbsent (am_blobKey metadata) (blobOwnerId metadata) (pa_contentHash input)
                 (pa_bytes input);
  let fresh := match blobResult with BlobCreated _ => true | _ => false end in
  lift (throw_if (match blobResult with BlobConflict _ => true | _ => false end)
    (artifactError "blob identity conflict"));;
  created ← catch (record_metadata input)
    (λ error, (if fresh then compensate_put (pa_refId input) metadata else mret tt);; throw error);
  let '(record, is_new) := match created with Created r => (r, true) | Exists r => (r, false) end in
  result ← lift (decode record);
  if negb (sameArtifact result.1 metadata) then
    (if fresh then discard_blob metadata;; mret tt else mret tt);;
    throw (artifactError "refId already has different metadata")
  else mret (if is_new : bool then ArtifactCreated (publicRecord result)
             else ArtifactExists (publicRecord result)).

(** *** Transitions *)

(** [next] is what the metadata becomes at the time [nowMs]; revoked records
    stay due for cleanup. *)
Definition cas (current : StoredDurableArtifactRecord) (expectedRevision : Z)
    (next : Z → StoredDurableArtifactMetadata) (nowMs : number) (expiresAt : option number)
    : M S DurableArtifactTransitionResult :=
  if negb (current.2 =? expectedRevision)%Z then mret (ArtifactConflict (publicRecord current))
  else
    key ← lift (metadataKey (am_refId (publicMetadata current.1)));
    lift (throw_if (negb (isSafeInteger nowMs)) timestamp_invalid);;
    let a := next (to_Z nowMs) in
    value ← lift (encode a);
    result ← ds_compareAndSwap key expectedRevision
      {| upd_value := value; upd_nowMs := nowMs;
         upd_expiresAt := if bool_decide (am_status (publicMetadata a) = active) then expiresAt
                          else Some (int (to_Z nowMs + 1)) |};
    match result with
    | Missing => mret ArtifactMissing
    | Conflict record => r ← lift (decode record); mret (ArtifactConflict (publicRecord r))
    | Updated record => r ← lift (decode record); mret (ArtifactUpdated (publicRecord r))
    end.

Definition set_status (a : StoredDurableArtifactMetadata) (st : DurableArtifactStatus)
    (reason : option CleanupReason) (now : Z) : StoredDurableArtifactMetadata :=
  a <| publicMetadata := ((publicMetadata a) <| am_status := st |> <| am_cleanupReason := reason |>
                                           <| am_updatedAt := now |>) |>.

Definition set_verified (a : StoredDurableArtifactMetadata) (now : Z) : StoredDurableArtifactMetadata :=
  a <| publicMetadata := ((publicMetadata a) <| am_verification := verified |> <| am_updatedAt := now |>) |>.

(** The artifact of a transition, if the caller owns it. *)
Definition owned (refId : string) (caller : DurableArtifactCaller) : M S (option StoredDurableArtifactRecord) :=
  current ← getStored refId;
  match current with
  | None => mret None
  | Some current => lift (assertOwner current.1 caller);; mret (Some current)
  end.

Definition stat_matches (a : StoredDurableArtifactMetadata) (stat : option ImmutableBlobStat) : bool :=
  match stat with
  | Some s => bool_decide (stat_ownerId s = blobOwnerId a) &&
              bool_decide (stat_digest s = am_contentHash (publicMetadata a)) &&
              (stat_byteSize s =? am_byteSize (publicMetadata a))%Z
  | None => false
  end.

Definition markVerified (refId : string) (caller : DurableArtifactCaller) (expectedRevision : Z)
    (nowMs : number) : M S DurableArtifactTransitionResult :=
  current ← owned refId caller;
  match current with
  | None => mret ArtifactMissing
  | Some current =>
      let a := current.1 in
      lift (throw_if (negb (bool_decide (am_status (publicMetadata a) = active)))
        (TError "revoked durable artifact cannot be verified"));;
      stat ← blob_stat (am_blobKey a);
      lift (throw_if (negb (stat_matches a stat)) (artifactError "blob verification failed"));;
      cas current expectedRevision (set_verified a) nowMs (Some (int (am_expiresAt (publicMetadata a))))
  end.

Definition deleteExplicit (refId : string) (caller : DurableArtifactCaller) (expectedRevision : Z)
    (nowMs : number) : M S DurableArtifactTransitionResult :=
  current ← owned refId caller;
  match current with
  | None => mret ArtifactMissing
  | Some current =>
      lift (throw_if (negb (bool_decide (am_status (publicMetadata current.1) = active)))
        (artifactError "is already revoked"));;
      cas current expectedRevision (set_status current.1 logically_deleted (Some explicit_delete)) nowMs None
  end.

Definition markCleanupPending (refId : string) (caller : DurableArtifactCaller) (expectedRevision : Z)
    (nowMs : number) : M S DurableArtifactTransitionResult :=
  current ← owned refId caller;
  match current with
  | None => mret ArtifactMissing
  | Some current =>
      let p := publicMetadata current.1 in
      lift (throw_if (negb (bool_decide (am_status p = logically_expired)) &&
                      negb (bool_decide (am_status p = logically_deleted)))
        (artifactError "is not logically revoked"));;
      cas current expectedRevision (set_status current.1 physical_cleanup_pending (am_cleanupReason p))
        nowMs None
  end.

Definition cleanupPending (refId : string) (caller : DurableArtifactCaller) (expectedRevision : Z)
    : M S DurableArtifactCleanupResult :=
  current ← owned refId caller;
  match current with
  | None => mret (CleanupDone DeleteMissing)
  | Some current =>
      lift (throw_if (negb (bool_decide (am_status (publicMetadata current.1) = physical_cleanup_pending)))
        (artifactError "cleanup is not pending"));;
      if negb (current.2 =? expectedRevision)%Z then mret (CleanupDone DeleteConflict)
      else
        blobDeleted ← discard_blob current.1;
        if bool_decide (blobDeleted = OwnerMismatch) then mret CleanupOwnerMismatch
        else
          key ← lift (metadataKey refId);
          r ← ds_deleteIfRevision key expectedRevision; mret (CleanupDone r)
  end.

(** *** Reading *)

(** Whether a blob that was fetched for [current] may be served now. *)
Definition recheck (refId : string) (caller : DurableArtifactCaller) (rev : Z) (maxBytes : number)
    (b : bytes) : M S unit :=
  latest ← getStored refId;
  match latest with
  | None => throw unavailable
  | Some (a, rev') =>
      let p := publicMetadata a in
      lift (assertOwner a caller);;
      lift (throw_if (negb (rev' =? rev)%Z || negb (bool_decide (am_status p = active)) ||
                      negb (bool_decide (am_verification p = verified)))
        (artifactError "access is revoked or changed"));;
      lift (throw_if (negb (byteLength b =? am_byteSize p)%Z || num_ltb maxBytes (int (byteLength b)) ||
                      negb (bool_decide (digest b = am_contentHash p)))
        (artifactError "blob integrity check failed"))
  end.

Definition readVerified (refId : string) (caller : DurableArtifactCaller) (nowMs maxBytes : number)
    : M S bytes :=
  current ← getStored refId;
  match current with
  | None => throw unavailable
  | Some current =>
      let a := current.1 in
      let p := publicMetadata a in
      lift (assertOwner a caller);;
      if num_leb (int (am_expiresAt p)) nowMs then
        (if bool_decide (am_status p = active)
         then cas current current.2 (set_status a logically_expired (Some was_expired)) nowMs None;; mret tt
         else mret tt);;
        throw (artifactError "has expired")
      else
        lift (throw_if (negb (bool_decide (am_status p = active))) (artifactError "access is revoked"));;
        lift (throw_if (negb (bool_decide (am_verification p = verified))) (artifactError "is not verified"));;
        b ← blob_get (am_blobKey a) (blobOwnerId a) (am_contentHash p) (to_Z maxBytes);
        match b with
        | None => throw (artifactError "blob is unavailable")
        | Some b => recheck refId caller current.2 maxBytes b;; mret b
        end
  end.

(** *** Sweeps *)

(** One record of a page: what it adds to the expired and the conflicts. *)
Definition expire_one (nowMs : number) (raw : DurableRecord)
    : M S (list DurableArtifactRecord * list string) :=
  current ← lift (decode raw);
  let p := publicMetadata current.1 in
  if negb (bool_decide (am_status p = active)) then mret ([], [])
  else
    r ← cas current current.2 (set_status current.1 logically_expired (Some was_expired)) nowMs None;
    mret (match r with
          | ArtifactUpdated record => ([record], [])
          | ArtifactConflict _ => ([], [am_refId p])
          | ArtifactMissing => ([], [])
          end).

Fixpoint expire_all (nowMs : number) (raws : list DurableRecord)
    : M S (list DurableArtifactRecord * list string) :=
  match raws with
  | [] => mret ([], [])
  | raw :: raws' =>
      '(e, c) ← expire_one nowMs raw; '(es, cs) ← expire_all nowMs raws'; mret (e ++ es, c ++ cs)
  end.

Definition expireDue (nowMs : number) (cursor : option string) (limit : Z) : M S DurableArtifactExpiryPage :=
  page ← ds_scanExpired nowMs cursor limit;
  '(es, cs) ← expire_all nowMs (page_records page);
  mret {| ep_expired := es; ep_conflicts := cs; ep_nextCursor := nextCursor page |}.

(** [new Set(l)] *)
Fixpoint unique_from (seen l : list string) : list string :=
  match l with
  | [] => []
  | x :: l' => if decide (x ∈ seen) then unique_from seen l' else x :: unique_from (x :: seen) l'
  end.

Definition revoke_one (caller : DurableArtifactCaller) (nowMs : number) (refId : string) : M S bool :=
  current ← getStored refId;
  match current with
  | Some (a, rev) =>
      if same_owner a caller && bool_decide (am_status (publicMetadata a) = active) then
        r ← deleteExplicit refId caller rev nowMs;
        mret (match r with ArtifactUpdated _ => true | _ => false end)
      else mret false
  | None => mret false
  end.

Fixpoint revoke_all (caller : DurableArtifactCaller) (nowMs : number) (refIds : list string)
    : M S (list string * list string) :=
  match refIds with
  | [] => mret ([], [])
  | refId :: refIds' =>
      done ← revoke_one caller nowMs refId;
      '(revoked, skipped) ← revoke_all caller nowMs refIds';
      mret (if done : bool then (refId :: revoked, skipped) else (revoked, refId :: skipped))
  end.

Definition deleteOwnerArtifacts (caller : DurableArtifactCaller) (refIds : list string) (nowMs : number)
    : M S (list string * list string) :=
  lift (assertCaller caller);;
  revoke_all caller nowMs (unique_from [] refIds).

Definition same_scope (a b : StoredDurableArtifactMetadata) : bool :=
  bool_decide (am_tenantId (publicMetadata a) = am_tenantId (publicMetadata b)) &&
  bool_decide (am_ownerId (publicMetadata a) = am_ownerId (publicMetadata b)) &&
  bool_decide (am_credentialBindingHash a = am_credentialBindingHash b).

(** Whether a canonical artifact still has its source; a source whose
    canonical was deleted is deleted as well. *)
Definition source_remains (current : StoredDurableArtifactMetadata) (nowMs : number) : M S bool :=
  match am_details (publicMetadata current) with
  | CanonicalDetails sourceRefId _ _ =>
      source ← getStored sourceRefId;
      match source with
      | None => mret false
      | Some (a, rev) =>
          (if same_scope a current && bool_decide (am_status (publicMetadata a) = active) &&
              bool_decide (am_cleanupReason (publicMetadata current) = Some explicit_delete)
           then cas (a, rev) rev (set_status a logically_deleted (Some explicit_delete)) nowMs None;; mret tt
           else mret tt);;
          mret true
      end
  | _ => mret false
  end.

(** The artifact of a due record, as it is to be cleaned up. *)
Definition make_pending (current : StoredDurableArtifactRecord) (nowMs : number)
    : M S (option StoredDurableArtifactRecord) :=
  let p := publicMetadata current.1 in
  if bool_decide (am_status p = physical_cleanup_pending) then mret (Some current)
  else
    r ← cas current current.2
          (set_status current.1 physical_cleanup_pending (Some (default was_expired (am_cleanupReason p))))
          nowMs (Some nowMs);
    match r with
    | ArtifactUpdated record =>
        refreshed ← getStored (am_refId p);
        mret (match refreshed with
              | Some fresh => if (fresh.2 =? record.2)%Z then Some fresh else None
              | None => None
              end)
    | _ => mret None
    end.

(** Whether the record and its bytes were removed. *)
Definition sweep_one (nowMs : number) (raw : DurableRecord) : M S bool :=
  current ← lift (decode raw);
  let p := publicMetadata current.1 in
  if bool_decide (am_status p = active) && num_ltb nowMs (int (am_expiresAt p)) then mret false
  else
    remains ← source_remains current.1 nowMs;
    if remains : bool then mret false
    else
      pending ← make_pending current nowMs;
      match pending with
      | None => mret false
      | Some (a, rev) =>
          removed ← discard_blob a;
          if bool_decide (removed = OwnerMismatch) then mret false
          else
            r ← ds_deleteIfRevision (rec_key raw) rev;
            mret (bool_decide (r = Deleted))
      end.

Fixpoint sweep_all (nowMs : number) (raws : list DurableRecord) : M S Z :=
  match raws with
  | [] => mret 0%Z
  | raw :: raws' =>
      done ← attempt (sweep_one nowMs raw);
      n ← sweep_all nowMs raws';
      mret (match done with inl true => n + 1 | _ => n end)%Z
  end.

Definition sweepExpired (nowMs : number) (cursor : option string) (limit : Z) : M S (Z * option string) :=
  lift (throw_if ((limit <? 1)%Z || (1000 <? limit)%Z) (TError "invalid cleanup limit"));;
  page ← ds_scanExpired nowMs cursor limit;
  deleted ← sweep_all nowMs (page_records page);
  mret (deleted, nextCursor page).
End repository.
