(* ===== verification/DurableArtifactsSafety.v ===== *)
(** * Correctness of the durable artifacts

    Whatever the other users of the store do: bytes are only served of an
    artifact of the caller that was found active and verified after they were
    fetched, and that they match.  If the others keep to the life cycle and do
    not recreate the artifact: once revoked, it stays revoked. *)

From S2P Require Import Prelude Interference JsString JsMap Digest Json DurableStore DurableArtifacts.

(** ** Records round-trip *)

Lemma details_json_exact d : json_exact (details_json d) = true.
Proof. by destruct d as [m f|s v [e|]|c []]. Qed.

Lemma details_of_json_written d : details_of_json (details_json d) = Some d.
Proof. by destruct d as [m f|s v [e|]|c []]. Qed.

Lemma metadata_json_exact a : json_exact (metadata_json a) = true.
Proof.
  unfold metadata_json. cbn [json_exact forallb snd].
  rewrite details_json_exact. by destruct (am_cleanupReason (publicMetadata a)).
Qed.

Lemma metadata_of_json_written a : metadata_of_json (metadata_json a) = Some a.
Proof.
  destruct a as [[id t o h b rp dp e vf st cr c u d] cb k]. unfold metadata_json. cbn [publicMetadata am_details].
  pose proof (details_of_json_written d) as Hd. revert Hd. generalize (details_json d). intros j Hj.
  transitivity (d' ← details_of_json j;
    Some (Build_StoredDurableArtifactMetadata
            (Build_DurableArtifactMetadata id t o h b rp dp e vf st cr c u d') cb k)); [|by rewrite Hj].
  by destruct dp, vf, st, cr as [[]|].
Qed.

Lemma encode_text a v : encode a = Ok v → v = unchars (json_text (metadata_json a)) ∧ validateMetadata a = Ok tt.
Proof.
  intros ([] & Hc & He)%result_bind_Ok. split; [|done]. revert He. generalize (unchars (json_text (metadata_json a))).
  by intros ? [= <-].
Qed.

Lemma decode_encoded a r key :
  encode a = Ok (value r) → metadataKey (am_refId (publicMetadata a)) = Ok key → rec_key r = key →
  rec_createdAt r = am_createdAt (publicMetadata a) → decode r = Ok (a, revision r).
Proof.
  intros [Hv Hc]%encode_text Hk Hkey Hcr. unfold decode. rewrite Hv, (JSON_parse_exact _ (metadata_json_exact a)).
  rewrite metadata_of_json_written, Hc. cbn. rewrite Hk. cbn.
  by rewrite bool_decide_true, Hcr, Z.eqb_refl by done.
Qed.

(** What a record decodes to is bound to its key. *)
Lemma decode_bound r a rev :
  decode r = Ok (a, rev) →
  rev = revision r ∧ validateMetadata a = Ok tt ∧ metadataKey (am_refId (publicMetadata a)) = Ok (rec_key r) ∧
  am_createdAt (publicMetadata a) = rec_createdAt r.
Proof.
  unfold decode. destruct (JSON_parse _) as [v|]; [|done]. destruct (metadata_of_json v) as [a'|]; [|done].
  intros ([] & Hc & (key & Hk & ([] & Hb%throw_if_Ok & [= <- <-])%result_bind_Ok)%result_bind_Ok)%result_bind_Ok.
  apply orb_false_iff in Hb as [H1 H2]. reflect. subst key. done.
Qed.

Lemma metadataKey_Ok id key : metadataKey id = Ok key → key = ("artifact:" +:+ id)%string.
Proof. by intros (? & _ & [= <-])%result_bind_Ok. Qed.

Lemma artifact_key_inj id1 id2 : ("artifact:" +:+ id1 = "artifact:" +:+ id2)%string → id1 = id2.
Proof.
  intros H%(f_equal chars). rewrite !chars_app in H. by apply (inj (app _)), chars_inj in H.
Qed.

Definition owned_by `{!Sha256Api} (a : StoredDurableArtifactMetadata) (caller : DurableArtifactCaller) : Prop :=
  am_ownerId (publicMetadata a) = ac_ownerId caller ∧ am_tenantId (publicMetadata a) = ac_tenantId caller ∧
  am_credentialBindingHash a = credentialBindingHash (ac_credentialBinding caller).

Lemma assertOwner_owned `{!Sha256Api} a caller : assertOwner a caller = Ok tt → owned_by a caller.
Proof.
  intros (_ & _ & Ho%throw_if_Ok)%result_bind_Ok. apply negb_false_iff in Ho. unfold same_owner in Ho.
  reflect. by split_and!.
Qed.

(** ** What is served was authorized *)

(** The record of an artifact in a state of the store. *)
Definition stored_at (refId : string) (a : StoredDurableArtifactMetadata) (rev : Z) (m : memory) : Prop :=
  ∃ r, map_get ("artifact:" +:+ refId) m = Some r ∧ decode r = Ok (a, rev).

Section authorized.
Context {S : Type} `{!Sha256Api} `{!DurableRecordStorePort S} `{!ImmutableBlobPort S} (view : S → memory)
  (env : memory → memory → Prop) `{Laws : !DurableStoreLaws view env}.

(** A read of the metadata, as it is at an instant of the call. *)
Lemma wp_getStored refId (Q : result (option StoredDurableArtifactRecord) → S → Prop) s :
  (∀ s', env (view s) (view s') → map_get ("artifact:" +:+ refId) (view s') = None → Q (Ok None) s') →
  (∀ a rev s', env (view s) (view s') → stored_at refId a rev (view s') → Q (Ok (Some (a, rev))) s') →
  (∀ e s', env (view s) (view s') → Q (Throw e) s') → wp (getStored refId) Q s.
Proof.
  intros Hnone Hsome Hfail. unfold getStored. apply wp_lift_bind; [|intros; apply Hfail, (env_refl (view := view))].
  intros key ->%metadataKey_Ok. apply wp_bind. eapply (wp_atomic view env); [apply get_atomic|..].
  - intros m s' Hm Hv. destruct (mem_get_spec ("artifact:" +:+ refId) m) as [Hm' Hr]. rewrite Hm' in Hv.
    rewrite <- Hv in *. destruct Hr as [[e ->]| ->]; [by apply Hfail|].
    destruct (map_get _ (view s')) as [r|] eqn:Hget; [|by apply wp_ret, Hnone].
    apply wp_lift_bind; [|intros; by apply Hfail]. intros [a rev] Hd. apply wp_ret, Hsome; [done|]. by exists r.
  - intros e m s' Hm Hv. apply Hfail. destruct (mem_get_spec ("artifact:" +:+ refId) m) as [Hm' _].
    rewrite Hm' in Hv. by destruct Hv as [->| ->].
Qed.

Definition authorized (refId : string) (caller : DurableArtifactCaller) (maxBytes : number) (b : bytes)
    (rev : Z) (m : memory) : Prop :=
  ∃ a, let p := publicMetadata a in
    stored_at refId a rev m ∧ owned_by a caller ∧ am_status p = active ∧ am_verification p = verified ∧
    digest b = am_contentHash p ∧ byteLength b = am_byteSize p ∧ num_ltb maxBytes (int (byteLength b)) = false.

Lemma wp_recheck refId caller rev maxBytes b s :
  wp (recheck refId caller rev maxBytes b)
    (λ r s', env (view s) (view s') ∧ ∀ u, r = Ok u → authorized refId caller maxBytes b rev (view s')) s.
Proof.
  unfold recheck. apply wp_bind. apply wp_getStored.
  - intros s' He _. by apply wp_throw.
  - intros a rev' s' He Hat. do 2 (apply wp_lift_bind; [|by intros]; intros []; intros ?).
    apply wp_lift. split; [done|]. intros [] Hb. exists a.
    match goal with Ho : assertOwner _ _ = _ |- _ => apply assertOwner_owned in Ho end.
    repeat match goal with Ht : throw_if _ _ = _ |- _ => apply throw_if_Ok in Ht end.
    reflect. subst. by split_and!.
  - by intros e s' He.
Qed.

(** C30: bytes are served only as the record allows, whatever others do to the
    store and to the blobs, and whatever calls fail: when [readVerified]
    returns bytes, then at an instant of the call the artifact's record was
    not expired and of the revision that it later had, at an instant after the
    bytes were fetched, as an active, verified artifact of this caller, whose
    digest and size the bytes have, within the limit asked for. *)
Theorem artifact_read_is_authorized refId caller nowMs maxBytes s b s' :
  (∀ k o d n s, env (view s) (view (blob_get k o d n s).2)) →
  readVerified refId caller nowMs maxBytes s = (Ok b, s') →
  ∃ a0 rev m0 m,
    env (view s) m0 ∧ stored_at refId a0 rev m0 ∧ owned_by a0 caller ∧
    num_leb (int (am_expiresAt (publicMetadata a0))) nowMs = false ∧
    env m0 m ∧ authorized refId caller maxBytes b rev m ∧ env m (view s').
Proof.
  intros Hquiet Hrun. revert b Hrun.
  enough (Hwp : wp (readVerified refId caller nowMs maxBytes) (λ r s', ∀ b, r = Ok b →
    ∃ a0 rev m0 m, env (view s) m0 ∧ stored_at refId a0 rev m0 ∧ owned_by a0 caller ∧
      num_leb (int (am_expiresAt (publicMetadata a0))) nowMs = false ∧
      env m0 m ∧ authorized refId caller maxBytes b rev m ∧ env m (view s')) s).
  { intros b Hrun. by apply (wp_run _ _ _ _ _ Hwp Hrun). }
  unfold readVerified. apply wp_bind, wp_getStored; [intros; by apply wp_throw| |by intros].
  intros a rev s1 He1 Hat1. apply wp_lift_bind; [|by intros]. intros [] Ho%assertOwner_owned.
  destruct (num_leb _ nowMs) eqn:Hexp.
  { apply wp_bind_any; [intros; by apply wp_throw|by intros]. }
  do 2 (apply wp_lift_bind; [|by intros]; intros [] _). apply wp_bind, wp_intro. intros r s2 Hget.
  pose proof (Hquiet (am_blobKey a) (blobOwnerId a) (am_contentHash (publicMetadata a)) (to_Z maxBytes) s1) as He2.
  cbn [fst] in *. rewrite Hget in He2. destruct r as [[b|]|e]; [|by apply wp_throw|by intros].
  apply wp_bind. eapply wp_mono; [apply wp_recheck|]. intros [u|e] s3 [He3 Hau]; [|by intros].
  apply wp_ret. intros b' [= <-]. exists a, rev, (view s1), (view s3). split_and!; try done.
  - exact (env_trans (view := view) _ _ _ He2 He3).
  - by eapply Hau.
  - by apply (env_refl (view := view)).
Qed.
End authorized.

(** ** An artifact only moves forward

    [refId] is an artifact that nobody puts: its record moves forward under
    higher revisions until it is removed for good. *)

Definition rank (st : DurableArtifactStatus) : nat :=
  match st with active => 0 | logically_expired | logically_deleted => 1 | physical_cleanup_pending => 2 end.

(** What stays of an artifact. *)
Definition identity (a : StoredDurableArtifactMetadata) :=
  let p := publicMetadata a in
  ((am_refId p, am_tenantId p, am_ownerId p, am_contentHash p, am_byteSize p),
   (am_retentionPolicy p, am_deletionPolicy p, am_expiresAt p, am_createdAt p, am_details p),
   am_credentialBindingHash a, am_blobKey a).

Record artifact_moves (a a' : StoredDurableArtifactMetadata) : Prop := {
  moves_identity : identity a' = identity a;
  moves_status : am_status (publicMetadata a') = am_status (publicMetadata a) ∨
    (rank (am_status (publicMetadata a)) < rank (am_status (publicMetadata a')))%nat;
  moves_verified : am_verification (publicMetadata a) = verified → am_verification (publicMetadata a') = verified
}.

Lemma artifact_moves_refl a : artifact_moves a a.
Proof. by split; [|left|]. Qed.

Lemma artifact_moves_trans a1 a2 a3 : artifact_moves a1 a2 → artifact_moves a2 a3 → artifact_moves a1 a3.
Proof.
  intros [I1 S1 V1] [I2 S2 V2]. split; [by rewrite I2| |auto].
  destruct S1 as [E1|L1], S2 as [E2|L2]; [left; congruence|right; by rewrite <- E1|right; by rewrite E2|right; lia].
Qed.

(** A record of a revoked artifact is never active again. *)
Lemma moves_revoked a a' :
  artifact_moves a a' → am_status (publicMetadata a) ≠ active → am_status (publicMetadata a') ≠ active.
Proof.
  intros [_ [->|Hlt] _] Hst; [done|]. intros Ha. rewrite Ha in Hlt. cbn in Hlt. lia.
Qed.

Lemma set_verified_moves a now : artifact_moves a (set_verified a now).
Proof. by split; [|left|]. Qed.

Lemma set_status_moves a st reason now :
  (rank (am_status (publicMetadata a)) < rank st)%nat → artifact_moves a (set_status a st reason now).
Proof. by split; [|right|]. Qed.

Definition record_moves (r r' : DurableRecord) : Prop :=
  (revision r < revision r')%Z ∧
  ∃ a a', decode r = Ok (a, revision r) ∧ decode r' = Ok (a', revision r') ∧ artifact_moves a a'.
Definition record_evolves (r r' : DurableRecord) : Prop := r' = r ∨ record_moves r r'.

Lemma artifact_record_evolves_trans r1 r2 r3 : record_evolves r1 r2 → record_evolves r2 r3 → record_evolves r1 r3.
Proof.
  intros [->|[L1 (a & a' & D1 & D2 & M1)]]; [done|]. intros [->|[L2 (b & b' & D3 & D4 & M2)]].
  - right. split; [done|]. by exists a, a'.
  - right. split; [lia|]. rewrite D2 in D3. injection D3 as <-. exists a, b'.
    split_and!; [done..|]. by eapply artifact_moves_trans.
Qed.

(** A record that was there, and what there is now. *)
Definition option_evolves (o o' : option DurableRecord) : Prop :=
  match o, o' with
  | None, Some _ => False
  | Some r, Some r' => record_evolves r r'
  | _, None => True
  end.

Lemma option_evolves_refl o : option_evolves o o.
Proof. destruct o; [by left|done]. Qed.

Lemma option_evolves_gone o : option_evolves o None.
Proof. by destruct o. Qed.

Lemma option_evolves_trans o1 o2 o3 : option_evolves o1 o2 → option_evolves o2 o3 → option_evolves o1 o3.
Proof. destruct o1, o2, o3; cbn; try done. apply artifact_record_evolves_trans. Qed.

Section forward.
Context {S : Type} `{!Sha256Api} `{!DurableRecordStorePort S} `{!ImmutableBlobPort S} (refId : string).

Definition the_record (m : memory) : option DurableRecord := map_get ("artifact:" +:+ refId) m.

Definition artifact_env (m m' : memory) : Prop :=
  (keyed m → keyed m') ∧ option_evolves (the_record m) (the_record m').

Lemma artifact_env_refl m : artifact_env m m.
Proof. split; [done|apply option_evolves_refl]. Qed.

Lemma artifact_env_trans m1 m2 m3 : artifact_env m1 m2 → artifact_env m2 m3 → artifact_env m1 m3.
Proof. intros [K1 O1] [K2 O2]. split; [auto|by eapply option_evolves_trans]. Qed.

#[local] Instance artifact_evolution : Evolution memory := {
  good := keyed;
  evolves := artifact_env;
  evolves_refl := artifact_env_refl;
  evolves_trans := artifact_env_trans;
  evolves_good m m' He Hg := proj1 He Hg
}.

(** Of an artifact that was read: if it is the one in question, the record it
    was read from and what there is now. *)
Definition read_known (c : StoredDurableArtifactRecord) (m : memory) : Prop :=
  am_refId (publicMetadata c.1) = refId → ∃ r, decode r = Ok c ∧ option_evolves (Some r) (the_record m).

Lemma read_known_stable c : stable (read_known c).
Proof.
  intros m m' [_ He] Hc (r & Hd & Hr)%Hc. exists r. split; [done|]. by eapply option_evolves_trans.
Qed.

Lemma read_known_current k r c m :
  keyed m → map_get k m = Some r → decode r = Ok c → read_known c m.
Proof.
  destruct c as [a rev]. intros Hm Hr Hd Hid. exists r. split; [done|].
  pose proof (decode_bound _ _ _ Hd) as (_ & _ & Hkey%metadataKey_Ok & _).
  rewrite (keyed_rec _ Hm k r Hr) in Hkey. subst k. cbn in Hid. unfold the_record. rewrite Hid in Hr.
  rewrite Hr. apply option_evolves_refl.
Qed.

(** ** The operations *)

Context (view : S → memory) (env : memory → memory → Prop) `{Laws : !DurableStoreLaws view env}
  (Henv : ∀ m m', env m m' → artifact_env m m').
Notation moves := (moves view).

Lemma moves_getStored K id :
  stable K → moves K (getStored id) (λ o m, ∀ c, o = Some c → am_refId (publicMetadata c.1) = id ∧ read_known c m).
Proof.
  intros HK. apply moves_lift_bind. intros key ->%metadataKey_Ok.
  eapply moves_bind with (Q := λ o m, ∀ r c, o = Some r → decode r = Ok c →
    am_refId (publicMetadata c.1) = id ∧ read_known c m); [done|..].
  - eapply (moves_atomic view env); [exact Henv|exact HK|apply get_atomic|]. intros m Hg _.
    destruct (mem_get_spec ("artifact:" +:+ id) m) as [-> [[e ->]| ->]]; (split; [apply artifact_env_refl|]); [done|].
    intros r [a rev] Hr Hd. split; [|by eapply read_known_current].
    pose proof (decode_bound _ _ _ Hd) as (_ & _ & Hkey%metadataKey_Ok & _).
    rewrite (keyed_rec _ Hg _ r Hr) in Hkey. by apply artifact_key_inj in Hkey.
  - intros [r|]; [|by apply moves_ret]. apply moves_lift_bind. intros c Hd. apply moves_ret.
    intros m [_ Hr] c' [= <-]. by eapply Hr.
Qed.

Lemma stable_read (o : option StoredDurableArtifactRecord) : stable (λ m, ∀ c, o = Some c → read_known c m).
Proof. intros m m' He Hc c Ho. eapply read_known_stable; [exact He|auto]. Qed.

(** A conditional write of a later state of what was read. *)
Lemma artifact_cas_step m c next key u a value :
  keyed m → read_known c m → artifact_moves c.1 next → metadataKey (am_refId (publicMetadata c.1)) = Ok key →
  encode next = Ok value → upd_value u = value → map_get key m = Some a → revision a = c.2 →
  am_refId (publicMetadata c.1) = refId →
  decode (updated_record a u) = Ok (next, revision (updated_record a u)) ∧
  record_evolves a (updated_record a u).
Proof.
  destruct c as [a0 rev]. intros Hm Hc Hmv Hkey Henc Hv Ha Hrev Hid. cbn [fst snd] in *.
  pose proof (metadataKey_Ok _ _ Hkey) as Hkey'. destruct (Hc Hid) as (r & Hd & Hr).
  unfold the_record in Hr. rewrite <- Hid, <- Hkey', Ha in Hr.
  destruct (decode_bound _ _ _ Hd) as (Hrv & _ & _ & Hcr).
  assert (a = r) as -> by (destruct Hr as [->|[Hlt _]]; [done|lia]).
  assert (Hd' : decode (updated_record r u) = Ok (next, revision (updated_record r u))).
  { pose proof Hmv as [Hsame _ _]. injection Hsame. intros Hk1 Hb1 Hdet Hcr1 _ _ _ _ _ _ _ Hid1.
    apply (decode_encoded next _ key); [by rewrite Henc, <- Hv|congruence|exact (keyed_rec _ Hm _ _ Ha)|].
    cbn. congruence. }
  split; [done|]. right. split; [cbn; lia|]. exists a0, next. rewrite <- Hrv at 1. by split_and!.
Qed.

Lemma artifact_env_cas m c next key u a value :
  keyed m → read_known c m → artifact_moves c.1 next → metadataKey (am_refId (publicMetadata c.1)) = Ok key →
  encode next = Ok value → upd_value u = value → map_get key m = Some a → revision a = c.2 →
  artifact_env m (map_set key (updated_record a u) m).
Proof.
  intros Hm Hc Hmv Hkey Henc Hv Ha Hrev.
  split; [intros _; apply keyed_set; [done|by apply (keyed_rec _ Hm key a)]|].
  unfold the_record. rewrite map_get_set. case_decide as Hk; [|apply option_evolves_refl]. rewrite Hk, Ha.
  pose proof (eq_trans Hk (metadataKey_Ok _ _ Hkey)) as Hid%artifact_key_inj.
  by apply (artifact_cas_step m c next key u a value).
Qed.

(** After a write, what is there is what was written, or has moved on from it. *)
Lemma moves_cas_updated K c rev next now exp :
  stable K → (∀ m, K m → read_known c m) → (∀ t, artifact_moves c.1 (next t)) →
  moves K (cas c rev next now exp) (λ o m, match o with
    | ArtifactUpdated _ => am_refId (publicMetadata c.1) = refId → ∃ t rev', read_known (next t, rev') m
    | ArtifactMissing => am_refId (publicMetadata c.1) = refId → the_record m = None
    | ArtifactConflict _ => True end).
Proof.
  intros HK Hc Hmv. unfold cas. destruct (c.2 =? rev)%Z eqn:Hrev; [|by apply moves_ret]. reflect. subst rev.
  apply moves_lift_bind. intros key Hkey. apply moves_lift_bind. intros [] _. apply moves_lift_bind.
  intros value Hv. eapply moves_bind with (Q := λ o m, match o with
    | Updated r => am_refId (publicMetadata c.1) = refId → ∃ rev', read_known (next (to_Z now), rev') m
    | Missing => am_refId (publicMetadata c.1) = refId → the_record m = None
    | Conflict _ => True end); [done|..].
  - eapply (moves_atomic view env); [exact Henv|exact HK|apply cas_atomic|]. intros m Hg Hm.
    match goal with |- context [mem_compareAndSwap _ _ ?u m] =>
      destruct (mem_cas_spec key c.2 u m) as [[-> Hres]|(a & Ha & Hr & -> & ->)] end.
    + split; [apply artifact_env_refl|]. destruct Hres as [[e ->]|[[Hnone ->]|(r & _ & _ & ->)]]; try done.
      intros Hid. unfold the_record. by rewrite <- Hid, <- (metadataKey_Ok _ _ Hkey).
    + split; [by eapply artifact_env_cas; eauto|]. intros Hid. eexists. intros _.
      match goal with |- context [updated_record a ?u] =>
        destruct (artifact_cas_step m c (next (to_Z now)) key u a value) as [Hd He]; eauto end.
      eexists. split; [exact Hd|]. unfold the_record. rewrite <- Hid, <- (metadataKey_Ok _ _ Hkey).
      rewrite map_get_set_eq. apply option_evolves_refl.
  - intros [r|r|]; [| |apply moves_ret; by intros m []]; apply moves_lift_bind; intros c' Hd; apply moves_ret; [|done].
    intros m [_ HQ] Hid. exists (to_Z now). by apply HQ.
Qed.

Lemma artifact_moves_cas K c rev next now exp :
  stable K → (∀ m, K m → read_known c m) → (∀ t, artifact_moves c.1 (next t)) →
  moves K (cas c rev next now exp) (λ _ _, True).
Proof. intros HK Hc Hmv. eapply moves_mono; [| |exact (moves_cas_updated K c rev next now exp HK Hc Hmv)]; done. Qed.

Lemma moves_delete K key rev : stable K → moves K (ds_deleteIfRevision key rev) (λ _ _, True).
Proof.
  intros HK. eapply (moves_atomic view env); [exact Henv|exact HK|apply delete_atomic|]. intros m Hg _.
  split; [|by case_match]. destruct (mem_delete_spec key rev m) as [[-> _]|(r & Hr & _ & -> & _)];
    [apply artifact_env_refl|]. split; [intros _; by apply keyed_delete|].
  unfold the_record. rewrite map_get_delete. case_decide; [|apply option_evolves_refl].
  apply option_evolves_gone.
Qed.

(** Calls to the blob store do not touch the records. *)
Record quiet_blobs : Prop := {
  put_quiet k o d b s : env (view s) (view (blob_putIfAbsent k o d b s).2);
  stat_quiet k s : env (view s) (view (blob_stat k s).2);
  get_quiet k o d n s : env (view s) (view (blob_get k o d n s).2);
  delete_quiet k o s : env (view s) (view (blob_deleteIfOwner k o s).2)
}.
Context (Hquiet : quiet_blobs).

Lemma artifact_moves_quiet {A} K (c : M S A) : (∀ s, env (view s) (view (c s).2)) → moves K c (λ _ _, True).
Proof. intros Hc. by apply (moves_elsewhere view env K c (λ _, True)). Qed.

Lemma moves_discard K a : moves K (discard_blob a) (λ _ _, True).
Proof. apply artifact_moves_quiet. intros s. apply (delete_quiet Hquiet). Qed.

Hint Resolve stable_read read_known_stable moves_discard : groundlane.

(** What follows a read runs with what was read. *)
Lemma artifact_moves_read {B} K id (f : option StoredDurableArtifactRecord → M S B) R :
  stable K → moves K (f None) R →
  (∀ c, am_refId (publicMetadata c.1) = id → moves (λ m, K m ∧ read_known c m) (f (Some c)) R) →
  moves K (getStored id ≫= f) R.
Proof.
  intros HK Hnone Hsome. eapply moves_bind with (Q := λ o m, ∀ c, o = Some c →
    am_refId (publicMetadata c.1) = id ∧ read_known c m); [done|by apply moves_getStored|].
  intros [c|]; [|by apply moves_forget].
  apply (moves_pure view _ (am_refId (publicMetadata c.1) = id)); [intros m [_ Hc]; by apply Hc|]. intros Hid.
  eapply moves_mono; [|intros a m Ha; exact Ha|by apply Hsome]. intros m [Hm Hc]. split; [done|by apply Hc].
Qed.

Lemma owned_then {B} id caller (f : option StoredDurableArtifactRecord → M S B) s :
  (owned id caller ≫= f) s =
  (getStored id ≫= λ o, match o with
     | None => f None
     | Some c => lift (assertOwner c.1 caller);; f (Some c)
     end) s.
Proof.
  unfold owned, mbind, M_bind. destruct (getStored id s) as [[[c|]|e] s']; [|done..]. unfold lift, mret, M_ret.
  by destruct (assertOwner c.1 caller).
Qed.

Lemma moves_owned {B} K id caller (f : option StoredDurableArtifactRecord → M S B) R :
  stable K → moves K (f None) R →
  (∀ c, am_refId (publicMetadata c.1) = id → moves (λ m, K m ∧ read_known c m) (f (Some c)) R) →
  moves K (owned id caller ≫= f) R.
Proof.
  intros HK Hnone Hsome s. unfold wp. rewrite owned_then. apply artifact_moves_read; [done..|].
  intros c Hid. by apply moves_lift_bind; intros ? _; apply Hsome.
Qed.

(** A step whose result does not matter. *)
Lemma moves_step {A B} K (c : M S A) (f : A → M S B) :
  stable K → moves K c (λ _ _, True) → (∀ a, moves K (f a) (λ _ _, True)) →
  moves K (c ≫= f) (λ _ _, True).
Proof.
  intros HK Hc Hf. eapply moves_bind; [done|exact Hc|]. intros a. by apply moves_forget.
Qed.

Lemma moves_drop {A} K (c : M S A) : stable K → moves K c (λ _ _, True) → moves K (c;; mret tt) (λ _ _, True).
Proof. intros HK Hc. apply moves_step; [done..|]. intros a. by apply moves_ret. Qed.

(** Reads, writes of what was read, removals and calls of the blob store. *)
Ltac steps :=
  repeat first
    [ apply moves_ret; done
    | apply moves_throw
    | apply moves_lift_bind; intros ? ?
    | apply moves_owned; [by auto 6 with groundlane| |intros [??] ?]
    | apply artifact_moves_read; [by auto 6 with groundlane| |intros [??] ?]
    | apply moves_drop; [by auto 6 with groundlane|]
    | apply moves_delete; by auto 6 with groundlane
    | apply moves_discard
    | apply moves_step; [by auto 6 with groundlane| |intros ?]
    | case_match ].

Lemma moves_markVerified K id caller rev now :
  stable K → moves K (markVerified id caller rev now) (λ _ _, True).
Proof.
  intros HK. unfold markVerified. steps; [apply artifact_moves_quiet; intros; by apply stat_quiet|].
  apply artifact_moves_cas; [auto with groundlane|by intros m []|intros t; apply set_verified_moves].
Qed.

(** A write of a later status. *)
Lemma moves_cas_status K c rev st reason now exp :
  stable K → (∀ m, K m → read_known c m) → (rank (am_status (publicMetadata c.1)) < rank st)%nat →
  moves K (cas c rev (set_status c.1 st reason) now exp) (λ _ _, True).
Proof. intros HK Hc Hlt. apply artifact_moves_cas; [done..|]. intros t. by apply set_status_moves. Qed.

Ltac write_status :=
  apply moves_cas_status; [by auto 6 with groundlane|try done; by intros m []|];
  repeat match goal with Ht : throw_if _ _ = Ok _ |- _ => apply throw_if_Ok in Ht end; reflect; cbn [fst] in *;
  match goal with |- (rank (am_status (publicMetadata ?a)) < _)%nat =>
    destruct (am_status (publicMetadata a)); cbn in *; first [lia|done|by destruct_or!] end.

Lemma moves_deleteExplicit K id caller rev now :
  stable K → moves K (deleteExplicit id caller rev now) (λ _ _, True).
Proof. intros HK. unfold deleteExplicit. steps. write_status. Qed.

Lemma moves_markCleanupPending K id caller rev now :
  stable K → moves K (markCleanupPending id caller rev now) (λ _ _, True).
Proof. intros HK. unfold markCleanupPending. steps. write_status. Qed.

Lemma moves_cleanupPending K id caller rev : stable K → moves K (cleanupPending id caller rev) (λ _ _, True).
Proof. intros HK. unfold cleanupPending. steps. Qed.

Lemma moves_readVerified K id caller now maxBytes :
  stable K → moves K (readVerified id caller now maxBytes) (λ _ _, True).
Proof.
  intros HK. unfold readVerified. steps.
  - write_status.
  - apply artifact_moves_quiet. intros. by apply get_quiet.
  - by apply moves_lift.
Qed.

Lemma moves_get_artifact K id : stable K → moves K (get_artifact id) (λ _ _, True).
Proof. intros HK. unfold get_artifact. steps. Qed.

Lemma moves_getForCaller K id caller : stable K → moves K (getForCaller id caller) (λ _ _, True).
Proof. intros HK. unfold getForCaller. steps. Qed.

(** *** Putting another artifact *)

Lemma artifact_moves_create K input :
  stable K → new_key input ≠ ("artifact:" +:+ refId)%string → moves K (ds_createIfAbsent input) (λ _ _, True).
Proof.
  intros HK Hne. eapply (moves_atomic view env); [exact Henv|exact HK|apply create_atomic|]. intros m Hg _.
  split; [|by case_match].
  destruct (mem_create_spec input m) as [[-> _]|(_ & -> & _)]; [apply artifact_env_refl|].
  split; [intros _; by apply keyed_set|]. unfold the_record. rewrite map_get_set_ne by done.
  apply option_evolves_refl.
Qed.

Lemma moves_compensate id a : moves (λ _, True) (compensate_put id a) (λ _ _, True).
Proof. eapply moves_ignore. steps. Qed.

Lemma moves_put input : pa_refId input ≠ refId → moves (λ _, True) (put input) (λ _ _, True).
Proof.
  intros Hne. apply moves_lift_bind. intros [] _. apply moves_step; [auto with groundlane| |].
  { apply artifact_moves_quiet. intros. by apply put_quiet. }
  intros blob. apply moves_lift_bind. intros [] _. apply moves_step; [auto with groundlane| |].
  - apply moves_catch; [intros e; apply moves_step; [auto with groundlane| |intros []; apply moves_throw]|].
    + destruct blob; [apply moves_compensate|by apply moves_ret..].
    + apply moves_lift_bind. intros key ->%metadataKey_Ok. apply moves_lift_bind. intros v _.
      apply artifact_moves_create; [auto with groundlane|]. cbn. by intros ?%artifact_key_inj.
  - intros [r|r]; cbn; steps; by apply moves_ret.
Qed.

(** *** Sweeps *)

Context (Hscan : scan_reports view).

Lemma artifact_moves_scan {B} K now cursor limit (f : DurableExpiredPage → M S B) :
  stable K →
  (∀ page, moves (λ m, K m ∧ ∀ r c, r ∈ page_records page → decode r = Ok c → read_known c m) (f page)
     (λ _ _, True)) →
  moves K (ds_scanExpired now cursor limit ≫= f) (λ _ _, True).
Proof.
  intros HK Hf. eapply moves_bind; [done| |exact Hf]. intros s Hok Hs.
  pose proof (Henv _ _ (scan_reads now cursor limit s)) as He. unfold wp. split; [done|].
  destruct (ds_scanExpired _ _ _ s).1 as [page|] eqn:Hpage; [|done]. intros r c Hr Hd.
  pose proof (proj1 He Hok) as Hok'. destruct (Hscan _ _ _ _ _ _ Hpage Hr (keyed_ok _ Hok')) as [k Hk].
  by eapply read_known_current.
Qed.

Definition page_known (raws : list DurableRecord) (m : memory) : Prop :=
  ∀ r c, r ∈ raws → decode r = Ok c → read_known c m.

Lemma page_known_stable raws : stable (page_known raws).
Proof. intros m m' He Hp r c Hr Hd. eapply read_known_stable; [exact He|by eapply Hp]. Qed.

Lemma page_known_tail raw raws m : page_known (raw :: raws) m → page_known raws m.
Proof. intros Hp r c Hr. apply Hp. by right. Qed.

Hint Resolve page_known_stable : groundlane.

Lemma moves_expire_all K now raws :
  stable K → (∀ m, K m → page_known raws m) → moves K (expire_all now raws) (λ _ _, True).
Proof.
  induction raws as [|raw raws IH]; intros HK Hp; [by apply moves_ret|]. cbn [expire_all].
  apply moves_step; [done| |].
  - apply moves_lift_bind. intros c Hd. cbv zeta. case_match; [by apply moves_ret|].
    apply moves_step; [done| |intros ?; by apply moves_ret].
    assert (Hc : ∀ m, K m → read_known c m) by (intros m Hm; eapply Hp; [done|by left|done]).
    write_status.
  - intros [e c]. apply moves_step; [done|apply IH; [done|]|intros [es cs]; by apply moves_ret].
    intros m Hm. by eapply page_known_tail, Hp.
Qed.

Lemma moves_expireDue K now cursor limit : stable K → moves K (expireDue now cursor limit) (λ _ _, True).
Proof.
  intros HK. apply artifact_moves_scan; [done|]. intros page.
  apply moves_step; [apply stable_and; [done|apply page_known_stable]| |intros [??]; by apply moves_ret].
  apply moves_expire_all; [apply stable_and; [done|apply page_known_stable]|by intros m []].
Qed.

Lemma moves_revoke_all K caller now ids : stable K → moves K (revoke_all caller now ids) (λ _ _, True).
Proof.
  intros HK. induction ids as [|id ids IH]; [by apply moves_ret|]. cbn [revoke_all].
  apply moves_step; [done| |].
  - unfold revoke_one. steps. write_status.
  - intros d. apply moves_step; [done|exact IH|]. intros [??]. by apply moves_ret.
Qed.

Lemma moves_deleteOwnerArtifacts K caller ids now :
  stable K → moves K (deleteOwnerArtifacts caller ids now) (λ _ _, True).
Proof. intros HK. apply moves_lift_bind. intros [] _. by apply moves_revoke_all. Qed.

Lemma moves_source_remains K current now : stable K → moves K (source_remains current now) (λ _ _, True).
Proof.
  intros HK. unfold source_remains. case_match; try by apply moves_ret.
  apply artifact_moves_read; [done|by apply moves_ret|]. intros [a rev] _.
  apply moves_step; [auto with groundlane| |intros []; by apply moves_ret].
  case_match; [|by apply moves_ret]. apply moves_drop; [auto with groundlane|]. reflect.
  write_status.
Qed.

Lemma moves_make_pending K current now :
  stable K → (∀ m, K m → read_known current m) → moves K (make_pending current now) (λ _ _, True).
Proof.
  intros HK Hc. unfold make_pending. case_bool_decide as Hst; [by apply moves_ret|].
  apply moves_step; [done|write_status|]. intros o. steps.
Qed.

Lemma moves_sweep_all K now raws :
  stable K → (∀ m, K m → page_known raws m) → moves K (sweep_all now raws) (λ _ _, True).
Proof.
  induction raws as [|raw raws IH]; intros HK Hp; [by apply moves_ret|]. cbn [sweep_all].
  apply moves_step; [done| |].
  - eapply moves_mono; [| |apply (moves_attempt view K _ (λ _ _, True))]; [done|done|].
    apply moves_lift_bind. intros c Hd. cbv zeta.
    assert (Hc : ∀ m, K m → read_known c m) by (intros m Hm; eapply Hp; [done|by left|done]).
    case_match; [by apply moves_ret|]. apply moves_step; [done|by apply moves_source_remains|].
    intros []; [by apply moves_ret|]. apply moves_step; [done|by apply moves_make_pending|].
    intros o. steps.
  - intros d. apply moves_step; [done|apply IH; [done|]|intros n; by apply moves_ret].
    intros m Hm. by eapply page_known_tail, Hp.
Qed.

Lemma moves_sweepExpired K now cursor limit : stable K → moves K (sweepExpired now cursor limit) (λ _ _, True).
Proof.
  intros HK. apply moves_lift_bind. intros [] _. apply artifact_moves_scan; [done|]. intros page.
  apply moves_step; [apply stable_and; [done|apply page_known_stable]| |intros n; by apply moves_ret].
  apply moves_sweep_all; [apply stable_and; [done|apply page_known_stable]|by intros m []].
Qed.
End forward.

(** ** Any calls of the repository *)

Inductive artifact_call :=
  | Put (input : PutDurableArtifactInput)
  | Get (id : string)
  | GetForCaller (id : string) (caller : DurableArtifactCaller)
  | MarkVerified (id : string) (caller : DurableArtifactCaller) (rev : Z) (now : number)
  | ReadVerified (id : string) (caller : DurableArtifactCaller) (now maxBytes : number)
  | DeleteExplicit (id : string) (caller : DurableArtifactCaller) (rev : Z) (now : number)
  | ExpireDue (now : number) (cursor : option string) (limit : Z)
  | MarkCleanupPending (id : string) (caller : DurableArtifactCaller) (rev : Z) (now : number)
  | CleanupPending (id : string) (caller : DurableArtifactCaller) (rev : Z)
  | DeleteOwnerArtifacts (caller : DurableArtifactCaller) (ids : list string) (now : number)
  | SweepExpired (now : number) (cursor : option string) (limit : Z).

(** Not a call that may put the artifact anew. *)
Definition puts_other (refId : string) (c : artifact_call) : Prop :=
  match c with Put input => pa_refId input ≠ refId | _ => True end.

Section calls.
Context {S : Type} `{!Sha256Api} `{!DurableRecordStorePort S} `{!ImmutableBlobPort S}.

Definition call_artifact (c : artifact_call) : M S unit :=
  match c with
  | Put input => ignore (put input)
  | Get id => ignore (get_artifact id)
  | GetForCaller id caller => ignore (getForCaller id caller)
  | MarkVerified id caller rev now => ignore (markVerified id caller rev now)
  | ReadVerified id caller now maxBytes => ignore (readVerified id caller now maxBytes)
  | DeleteExplicit id caller rev now => ignore (deleteExplicit id caller rev now)
  | ExpireDue now cursor limit => ignore (expireDue now cursor limit)
  | MarkCleanupPending id caller rev now => ignore (markCleanupPending id caller rev now)
  | CleanupPending id caller rev => ignore (cleanupPending id caller rev)
  | DeleteOwnerArtifacts caller ids now => ignore (deleteOwnerArtifacts caller ids now)
  | SweepExpired now cursor limit => ignore (sweepExpired now cursor limit)
  end.

Fixpoint call_artifacts (cs : list artifact_call) : M S unit :=
  match cs with
  | [] => mret tt
  | c :: cs' => call_artifact c;; call_artifacts cs'
  end.

Context (view : S → memory) (env : memory → memory → Prop) (refId : string).

Lemma moves_call_artifacts `{Laws : !DurableStoreLaws view env} cs s :
  (∀ m m', env m m' → artifact_env refId m m') → quiet_blobs view env → scan_reports view →
  Forall (puts_other refId) cs → keyed (view s) →
  artifact_env refId (view s) (view (call_artifacts cs s).2).
Proof.
  intros Henv Hquiet Hscan Hcs Hk.
  enough (Hm : @moves S memory (artifact_evolution refId) view unit (λ _, True) (call_artifacts cs) (λ _ _, True))
    by (specialize (Hm s Hk I); by apply Hm).
  clear Hk s. induction Hcs as [|c cs Hc _ IH]; [by apply moves_ret|]. cbn [call_artifacts].
  eapply moves_bind with (Q := λ _ _, True); [apply stable_const| |intros _; by apply moves_forget].
  destruct c; eapply moves_ignore with (Q := λ _ _, True).
  - by eapply moves_put; eauto.
  - by eapply moves_get_artifact; eauto using stable_const.
  - by eapply moves_getForCaller; eauto using stable_const.
  - by eapply moves_markVerified; eauto using stable_const.
  - by eapply moves_readVerified; eauto using stable_const.
  - by eapply moves_deleteExplicit; eauto using stable_const.
  - by eapply moves_expireDue; eauto using stable_const.
  - by eapply moves_markCleanupPending; eauto using stable_const.
  - by eapply moves_cleanupPending; eauto using stable_const.
  - by eapply moves_deleteOwnerArtifacts; eauto using stable_const.
  - by eapply moves_sweepExpired; eauto using stable_const.
Qed.
End calls.

Section claims.
Context {S : Type} `{!Sha256Api} `{!DurableRecordStorePort S} `{!ImmutableBlobPort S}
  (view : S → memory) (env : memory → memory → Prop) (refId : string).

(** C32: among any calls that do not put the artifact anew, and however other
    such workers interleave and calls fail, the record of an artifact keeps
    what identifies it (owner, digest, size, blob, expiry, details), its status
    only moves from active over expired or deleted to pending cleanup, its
    verification is not lost, and it changes only under a higher revision; a
    record that is gone is not seen again. *)
Theorem artifacts_only_move_forward cs s :
  DurableStoreLaws view env → (∀ m m', env m m' → artifact_env refId m m') → quiet_blobs view env →
  scan_reports view → Forall (puts_other refId) cs → keyed (view s) →
  let m' := view (call_artifacts cs s).2 in
  keyed m' ∧
  (map_get ("artifact:" +:+ refId) (view s) = None → map_get ("artifact:" +:+ refId) m' = None) ∧
  ∀ a rev a' rev', stored_at refId a rev (view s) → stored_at refId a' rev' m' →
    artifact_moves a a' ∧ (rev ≤ rev')%Z ∧ (rev' = rev → a' = a).
Proof.
  intros Laws Henv Hquiet Hscan Hcs Hk m'.
  destruct (moves_call_artifacts view env refId cs s Henv Hquiet Hscan Hcs Hk) as [Hk' He].
  fold m' in Hk', He. unfold the_record in He. split_and!; [auto| |].
  - intros Hnone. rewrite Hnone in He. by destruct (map_get _ m').
  - intros a rev a' rev' (r & Hr & Hd) (r' & Hr' & Hd'). rewrite Hr, Hr' in He.
    destruct (decode_bound _ _ _ Hd) as [-> _], (decode_bound _ _ _ Hd') as [-> _].
    destruct He as [->|[Hlt (b & b' & Hb & Hb' & Hmv)]].
    + rewrite Hd in Hd'. injection Hd' as <-. split_and!; [apply artifact_moves_refl|lia|done].
    + rewrite Hd in Hb. rewrite Hd' in Hb'. injection Hb as <-. injection Hb' as <-.
      split_and!; [done|lia|lia].
Qed.

Definition not_active (m : memory) : Prop :=
  ∀ a rev, stored_at refId a rev m → am_status (publicMetadata a) ≠ active.

Lemma read_known_not_active c m :
  read_known refId c m → am_refId (publicMetadata c.1) = refId → am_status (publicMetadata c.1) ≠ active →
  not_active m.
Proof.
  intros Hc Hid Hst a rev (r' & Hr' & Hd'). destruct (Hc Hid) as (r & Hd & Hr).
  unfold the_record in Hr. rewrite Hr' in Hr. destruct Hr as [->|[_ (b & b' & Hb & Hb' & Hmv)]].
  - rewrite Hd' in Hd. by injection Hd as <-.
  - rewrite Hd in Hb. rewrite Hd' in Hb'. injection Hb' as -> _. injection Hb as ->. by eapply moves_revoked.
Qed.

Lemma not_active_stable m m' : artifact_env refId m m' → not_active m → not_active m'.
Proof.
  intros [_ He] Hn a' rev' (r' & Hr' & Hd'). unfold the_record in He. rewrite Hr' in He.
  destruct (map_get _ m) as [r|] eqn:Hr; [|done]. destruct He as [->|[_ (b & b' & Hb & Hb' & Hmv)]].
  - eapply Hn. by exists r.
  - rewrite Hd' in Hb'. injection Hb' as -> _. eapply moves_revoked; [exact Hmv|]. eapply Hn. by exists r.
Qed.

Lemma gone_not_active m : the_record refId m = None → not_active m.
Proof. intros Hm a rev (r & Hr & _). unfold the_record in Hm. by rewrite Hm in Hr. Qed.

Lemma not_active_stable' : @stable memory (artifact_evolution refId) not_active.
Proof. exact not_active_stable. Qed.

Lemma moves_getStored_gone (K : memory → Prop) :
  DurableStoreLaws view env → (∀ m m', env m m' → artifact_env refId m m') →
  @stable memory (artifact_evolution refId) K →
  @moves S memory (artifact_evolution refId) view _ K (getStored refId) (λ o m, match o with
    | None => not_active m
    | Some c => am_refId (publicMetadata c.1) = refId ∧ read_known refId c m end).
Proof.
  intros Laws Henv HK s Hg Hs.
  pose proof (moves_getStored refId view env Henv K refId HK s Hg Hs) as H1.
  assert (H2 : wp (getStored refId) (λ r s', r = Ok None → map_get ("artifact:" +:+ refId) (view s') = None) s).
  { by apply (wp_getStored view env). }
  eapply wp_mono; [apply wp_and; [exact H1|exact H2]|]. intros r s' [[He HQ] Hn]. split; [done|].
  destruct r as [[c|]|e]; [by apply HQ|by apply gone_not_active, Hn|done].
Qed.

(** A deletion that found no conflict leaves the artifact inactive. *)
Lemma moves_deleteExplicit_revokes (K : memory → Prop) caller rev now :
  DurableStoreLaws view env → (∀ m m', env m m' → artifact_env refId m m') →
  @stable memory (artifact_evolution refId) K →
  @moves S memory (artifact_evolution refId) view _ K (deleteExplicit refId caller rev now) (λ o m,
    match o with ArtifactConflict _ => True | _ => not_active m end).
Proof.
  intros Laws Henv HK. unfold deleteExplicit.
  eapply moves_bind with (Q := λ o m, match o with
    | None => not_active m
    | Some c => am_refId (publicMetadata c.1) = refId ∧ read_known refId c m end); [done|..].
  { eapply moves_bind with (Q := λ o m, match o with
      | None => not_active m
      | Some c => am_refId (publicMetadata c.1) = refId ∧ read_known refId c m end); [done|by eapply moves_getStored_gone|].
    intros [c|]; [|apply moves_ret; by intros m []]. apply moves_lift_bind. intros [] _. apply moves_ret. by intros m []. }
  intros [c|]; [|apply moves_ret; by intros m []].
  apply (moves_pure view _ (am_refId (publicMetadata c.1) = refId)); [by intros m (_ & ? & _)|]. intros Hid.
  apply moves_lift_bind. intros [] Hst%throw_if_Ok. reflect.
  eapply moves_mono; [intros m Hm; exact Hm| |
    apply (moves_cas_updated refId view env Henv (λ m, K m ∧ _ ∧ read_known refId c m))].
  - intros [p|p|] m; cbn; [|done|]; intros HQ.
    + destruct (HQ Hid) as (t & rev' & Hc). by eapply read_known_not_active.
    + by apply gone_not_active, HQ.
  - apply stable_and; [done|]. apply stable_and; [apply stable_const|apply read_known_stable].
  - by intros m (_ & _ & Hc).
  - intros t. apply set_status_moves. rewrite Hst. cbn. lia.
Qed.

Lemma deleteExplicit_revokes caller rev now s record s' :
  DurableStoreLaws view env → (∀ m m', env m m' → artifact_env refId m m') → keyed (view s) →
  deleteExplicit refId caller rev now s = (Ok (ArtifactUpdated record), s') →
  artifact_env refId (view s) (view s') ∧ not_active (view s').
Proof.
  intros Laws Henv Hk Hrun.
  pose proof (moves_deleteExplicit_revokes (λ _, True) caller rev now Laws Henv (stable_const True) s Hk I) as Hm.
  unfold wp in Hm. by rewrite Hrun in Hm.
Qed.

Lemma readVerified_revoked caller now maxBytes s :
  DurableStoreLaws view env → (∀ m m', env m m' → artifact_env refId m m') → not_active (view s) →
  is_Throw (readVerified refId caller now maxBytes s).1.
Proof.
  intros Laws Henv Hn.
  enough (Hwp : wp (readVerified refId caller now maxBytes) (λ r _, is_Throw r) s) by exact Hwp.
  unfold readVerified. apply wp_bind, (wp_getStored view env); [intros; apply wp_throw; by eexists| |intros; by eexists].
  intros a rev s' He Hat. apply wp_lift_bind; [|intros; by eexists]. intros [] _. cbn [fst].
  assert (Hst : am_status (publicMetadata a) ≠ active).
  { eapply not_active_stable; [apply Henv, He|exact Hn|exact Hat]. }
  rewrite (bool_decide_false (am_status _ = active)) by done. destruct (num_leb _ now).
  - by eexists.
  - by eexists.
Qed.

(** C31: once a deletion was acknowledged, no read serves the artifact again,
    to any caller, whatever calls follow that do not put it anew, and however
    other such workers interleave. *)
Theorem revoked_artifact_is_never_read owner rev now s record s1 cs caller now' maxBytes :
  DurableStoreLaws view env → (∀ m m', env m m' → artifact_env refId m m') → quiet_blobs view env →
  scan_reports view → keyed (view s) →
  deleteExplicit refId owner rev now s = (Ok (ArtifactUpdated record), s1) →
  Forall (puts_other refId) cs →
  is_Throw (readVerified refId caller now' maxBytes (call_artifacts cs s1).2).1.
Proof.
  intros Laws Henv Hquiet Hscan Hk Hrun Hcs.
  destruct (deleteExplicit_revokes _ _ _ _ _ _ Laws Henv Hk Hrun) as [[Hk1 _] Hn]. apply readVerified_revoked; [done..|].
  eapply not_active_stable; [|exact Hn]. by apply (moves_call_artifacts view env refId cs s1); auto.
Qed.
End claims.

(** ** A store shared with others, and a blob store that keeps one blob *)

Module ArtifactDemo.
#[export] Instance digest : Sha256Api := zero_digest.
#[export] Instance port (env : memory → memory → Prop) : DurableRecordStorePort (SharedStore env) := shared_port (λ _ _, 0%Z).
Definition content : bytes := chars "hello".
Definition hash : string := DurableArtifacts.digest content.
Definition caller : DurableArtifactCaller :=
  {| ac_tenantId := "tenant"; ac_ownerId := "owner"; ac_credentialBinding := "cred" |}.
Definition ref : string := "art-1".

Definition input (now : Z) : PutDurableArtifactInput :=
  {| pa_refId := ref; pa_caller := caller; pa_contentHash := hash; pa_expiresAt := int 9000;
     pa_retentionPolicy := "default"; pa_deletionPolicy := on_expiry; pa_bytes := content;
     pa_verification := unverified; pa_details := SourceDetails "text/plain" "a.txt"; pa_nowMs := int now |}.

Definition stat : ImmutableBlobStat :=
  {| stat_blobKey := am_blobKey (new_metadata (input 1000)); stat_ownerId := blobOwnerId (new_metadata (input 1000));
     stat_digest := hash; stat_byteSize := byteLength content |}.
#[export] Instance blobs (env : memory → memory → Prop) : ImmutableBlobPort (SharedStore env) := {
  blob_putIfAbsent key owner digest b := mret (BlobCreated stat);
  blob_stat key := mret (Some stat);
  blob_get key owner digest maxBytes := mret (Some content);
  blob_deleteIfOwner key owner := mret BlobDeleted
}.

Definition any (m m' : memory) : Prop := True.
Abbreviation forward := (artifact_env ref).

Definition empty (env : memory → memory → Prop) : SharedStore env := {| contents := []; turns := [] |}.
Definition put_verified (env : memory → memory → Prop) : SharedStore env :=
  (call_artifacts [Put (input 1000); MarkVerified ref caller 1 (int 1100)] (empty env)).2.
Definition deleted (env : memory → memory → Prop) : SharedStore env := (deleteExplicit ref caller 2 (int 2000) (put_verified env)).2.

Example artifact_demo_runs :
  (readVerified ref caller (int 1500) (int 100) (put_verified any)).1 = Ok content ∧
  (readVerified ref caller (int 1500) (int 4) (put_verified any)).1 =
    Throw (artifactError "blob integrity check failed") ∧
  (readVerified ref caller (int 2500) (int 100) (deleted any)).1 = Throw (artifactError "access is revoked") ∧
  contents (call_artifacts [SweepExpired (int 2500) None 10] (deleted any)).2 = [].
Proof. split_and!; vm_compute; reflexivity. Qed.

Lemma any_laws : DurableStoreLaws (contents (env := any)) any.
Proof. by apply shared_store_laws. Qed.

Lemma forward_laws : DurableStoreLaws (contents (env := forward)) forward.
Proof. apply shared_store_laws; [apply artifact_env_refl|apply artifact_env_trans]. Qed.

Lemma forward_quiet : quiet_blobs (contents (env := forward)) forward.
Proof. split; intros; apply artifact_env_refl. Qed.

Lemma forward_keyed : keyed (contents (put_verified forward)).
Proof.
  assert (Hc : contents (put_verified forward) = [(("artifact:" +:+ ref)%string,
    match map_get ("artifact:" +:+ ref) (contents (put_verified forward)) with Some r => r
    | None => Build_DurableRecord "" "" 0 0 0 None end)]) by (vm_compute; reflexivity).
  rewrite Hc. apply (keyed_set ("artifact:" +:+ ref)%string _ []); [|vm_compute; reflexivity].
  split; [apply map_ok_nil|done].
Qed.

(** Another worker deletes the artifact, has it cleaned up and puts it anew. *)
Definition recreate (m : memory) : memory :=
  contents (call_artifacts
    [DeleteExplicit ref caller 1 (int 2000); MarkCleanupPending ref caller 2 (int 2100);
     CleanupPending ref caller 3; Put (input 3000)] {| contents := m; turns := [] : list (turn any) |}).2.
Definition pass : turn any := Build_turn any (λ m, m) (λ _, I) None.
Definition recreation : turn any := Build_turn any recreate (λ _, I) None.
Definition once : SharedStore any := (call_artifacts [Put (input 1000)] (empty any)).2.
(** Between the read and the write of a call. *)
Definition racing : SharedStore any := {| contents := contents once; turns := [pass; recreation] |}.
(** The artifact that was put anew, when no call was under way. *)
Definition put_anew : SharedStore any := {| contents := recreate (contents once); turns := [] |}.
End ArtifactDemo.

#[local] Existing Instances ArtifactDemo.digest ArtifactDemo.port ArtifactDemo.blobs.

(** A revision does not name an incarnation: a verification that was under way
    when the artifact was deleted, cleaned up and put anew overwrites the new
    artifact's record with the old one's, after which nobody can read it. *)
Theorem recreated_artifact_is_overwritten :
  let after := markVerified ArtifactDemo.ref ArtifactDemo.caller 1 (int 4000) in
  let s := ArtifactDemo.racing in
  is_Throw (after s).1 ∧
  (getStored ArtifactDemo.ref ArtifactDemo.put_anew).1 =
    Ok (Some (new_metadata (ArtifactDemo.input 3000), 1%Z)) ∧
  (getStored ArtifactDemo.ref (after s).2).1 = Throw (artifactError "metadata binding is malformed").
Proof.
  cbv zeta. split_and!; [vm_compute; by eexists|vm_compute; reflexivity..].
Qed.

Definition demo_read := readVerified ArtifactDemo.ref ArtifactDemo.caller (int 1500) (int 100)
  (ArtifactDemo.put_verified ArtifactDemo.any).

Lemma artifact_read_is_authorized_witness :
  ∃ a0 rev m0 m,
    stored_at ArtifactDemo.ref a0 rev m0 ∧ owned_by a0 ArtifactDemo.caller ∧
    authorized ArtifactDemo.ref ArtifactDemo.caller (int 100) ArtifactDemo.content rev m.
Proof.
  destruct (artifact_read_is_authorized contents ArtifactDemo.any (Laws := ArtifactDemo.any_laws)
    ArtifactDemo.ref ArtifactDemo.caller (int 1500) (int 100) (ArtifactDemo.put_verified ArtifactDemo.any)
    ArtifactDemo.content demo_read.2 (λ _ _ _ _ _, I) ltac:(apply injective_projections; [vm_compute; reflexivity|reflexivity]))
    as (a0 & rev & m0 & m & _ & Hat & Ho & _ & _ & Hau & _).
  exists a0, rev, m0, m. split; [exact Hat|]. split; [exact Ho|exact Hau].
Defined.

Definition demo_calls : list artifact_call :=
  [ExpireDue (int 9500) None 10; GetForCaller ArtifactDemo.ref ArtifactDemo.caller].
Definition demo_expired : SharedStore ArtifactDemo.forward :=
  (call_artifacts demo_calls (ArtifactDemo.put_verified ArtifactDemo.forward)).2.
Definition demo_record (m : memory) : DurableRecord :=
  match map_get ("artifact:" +:+ ArtifactDemo.ref) m with Some r => r | None => Build_DurableRecord "" "" 0 0 0 None end.
Definition demo_meta (m : memory) : StoredDurableArtifactMetadata :=
  match decode (demo_record m) with Ok (a, _) => a | Throw _ => new_metadata (ArtifactDemo.input 1) end.

Lemma artifacts_only_move_forward_witness :
  artifact_moves (demo_meta (contents (ArtifactDemo.put_verified ArtifactDemo.forward)))
    (demo_meta (contents demo_expired)).
Proof.
  destruct (artifacts_only_move_forward contents ArtifactDemo.forward ArtifactDemo.ref demo_calls
    (ArtifactDemo.put_verified ArtifactDemo.forward) ArtifactDemo.forward_laws (λ m m' He, He)
    ArtifactDemo.forward_quiet (shared_scan_reports _ _) ltac:(by repeat constructor) ArtifactDemo.forward_keyed)
    as (_ & _ & Hm).
  destruct (Hm (demo_meta (contents (ArtifactDemo.put_verified ArtifactDemo.forward))) 2%Z
    (demo_meta (contents demo_expired)) 3%Z) as (H1 & _); [..|exact H1].
  - exists (demo_record (contents (ArtifactDemo.put_verified ArtifactDemo.forward))).
    split; vm_compute; reflexivity.
  - exists (demo_record (contents demo_expired)). split; vm_compute; reflexivity.
Defined.

Definition demo_deletion := deleteExplicit ArtifactDemo.ref ArtifactDemo.caller 2 (int 2000)
  (ArtifactDemo.put_verified ArtifactDemo.forward).
Definition demo_deleted : DurableArtifactRecord :=
  match demo_deletion.1 with Ok (ArtifactUpdated r) => r | _ => (publicMetadata (new_metadata (ArtifactDemo.input 1)), 0%Z) end.

Lemma revoked_artifact_is_never_read_witness :
  is_Throw (readVerified ArtifactDemo.ref ArtifactDemo.caller (int 2500) (int 100)
    (call_artifacts [MarkVerified ArtifactDemo.ref ArtifactDemo.caller 3 (int 2300)]
       (ArtifactDemo.deleted ArtifactDemo.forward)).2).1.
Proof.
  refine (revoked_artifact_is_never_read contents ArtifactDemo.forward ArtifactDemo.ref ArtifactDemo.caller 2
    (int 2000) (ArtifactDemo.put_verified ArtifactDemo.forward) demo_deleted (ArtifactDemo.deleted ArtifactDemo.forward)
    [MarkVerified ArtifactDemo.ref ArtifactDemo.caller 3 (int 2300)] ArtifactDemo.caller (int 2500) (int 100)
    ArtifactDemo.forward_laws (λ m m' He, He) ArtifactDemo.forward_quiet (shared_scan_reports _ _)
    ArtifactDemo.forward_keyed _ ltac:(by repeat constructor)).
  apply injective_projections; [vm_compute; reflexivity|reflexivity].
Defined.
