(* ===== verification/ExternalOutputs.v ===== *)
(** * The outputs derived from an external source

    The lists of external outputs of [DurableArtifactRepository]
    ([src/core/durable-artifacts.ts]): per caller and source, a head record
    that says whether the source was revoked and points to the first edge, and
    one edge record per derived artifact, which points to the next.  Names of
    edges come from [randomUUID], an argument. *)

From S2P Require Import Prelude Interference JsString JsMap Digest Json DurableStore DurableArtifacts RecordFamily.

(** ** Pointers, heads and edges *)

(** [/^output-edge:[0-9a-f-]{36}$/] *)
Definition is_edge_key (s : string) : bool :=
  startsWith s "output-edge:" &&
  let rest := drop (String.length "output-edge:") (chars s) in
  Nat.eqb (length rest) 36 && forallb (λ c, is_hex_char c || one_of "-" c) rest.

(** A pointer, if [edgePointer] accepts the value. *)
Definition edgePointer (v : js_value) : option (option string) :=
  match v with
  | JNull => Some None
  | JStr s => if is_edge_key s then Some (Some s) else None
  | _ => None
  end.

Record OutputSourceHead := { hd_revoked : bool; hd_head : option string }.
Record OutputSourceEdge := { edge_outputRefId : string; edge_next : option string }.

Definition decodeOutputSourceHead (value : string) : result OutputSourceHead :=
  parsed ← JSON_parse value;
  match prop parsed "revoked", edgePointer (prop parsed "head") with
  | JBool revoked, Some head => Ok {| hd_revoked := revoked; hd_head := head |}
  | _, _ => Throw (TError "Invalid external source index")
  end.

Definition decodeOutputSourceEdge (value : string) : result OutputSourceEdge :=
  parsed ← JSON_parse value;
  match prop parsed "outputRefId", edgePointer (prop parsed "next") with
  | JStr outputRefId, Some next =>
      assertRefId outputRefId;; Ok {| edge_outputRefId := outputRefId; edge_next := next |}
  | _, _ => Throw (TError "Invalid external source edge")
  end.

Definition pointer_json (p : option string) : js_value :=
  match p with Some s => JStr s | None => JNull end.

Definition head_text (h : OutputSourceHead) : string :=
  unchars (json_text (JObj [("revoked", JBool (hd_revoked h)); ("head", pointer_json (hd_head h))]%string)).

Definition edge_text (e : OutputSourceEdge) : string :=
  unchars (json_text (JObj [("outputRefId", JStr (edge_outputRefId e));
                            ("next", pointer_json (edge_next e))]%string)).

(** ** Operations *)

Section outputs.
Context {S : Type} `{!Sha256Api} `{!DurableRecordStorePort S} (randomUUID : S → string * S).

Definition externalSourceKey (refId : string) (caller : DurableArtifactCaller) : result string :=
  assertRefId refId;;
  assertTenantId (ac_tenantId caller);;
  assertOwnerId (ac_ownerId caller);;
  Ok ("output-source:" +:+ sha256_text (unchars (json_text (JArr [JStr (ac_tenantId caller);
    JStr (ac_ownerId caller); JStr (credentialBindingHash (ac_credentialBinding caller)); JStr refId])))).

Definition isExternalSourceRevoked (refId : string) (caller : DurableArtifactCaller) : M S bool :=
  key ← lift (externalSourceKey refId caller);
  current ← ds_get key;
  match current with
  | None => mret false
  | Some r => head ← lift (decodeOutputSourceHead (value r)); mret (hd_revoked head)
  end.

Definition create_record (key value : string) (nowMs : number) : M S DurableCreateResult :=
  ds_createIfAbsent {| new_key := key;
                       new_update := {| upd_value := value; upd_nowMs := nowMs; upd_expiresAt := None |} |}.

Definition write_head (key : string) (rev : Z) (h : OutputSourceHead) (nowMs : number) : M S DurableCasResult :=
  ds_compareAndSwap key rev {| upd_value := head_text h; upd_nowMs := nowMs; upd_expiresAt := None |}.

(** The head record of a source. *)
Definition read_head (key : string) : M S (DurableRecord * OutputSourceHead) :=
  current ← ds_get key;
  match current with
  | None => throw (TError "External source index missing")
  | Some r => head ← lift (decodeOutputSourceHead (value r)); mret (r, head)
  end.

Definition read_edge (key : string) : M S (DurableRecord * OutputSourceEdge) :=
  edge ← ds_get key;
  match edge with
  | None => throw (TError "External source edge missing")
  | Some r => e ← lift (decodeOutputSourceEdge (value r)); mret (r, e)
  end.

Definition edge_key (s : S) : result string * S := let '(uuid, s') := randomUUID s in (Ok ("output-edge:" +:+ uuid), s').

Fixpoint register_loop (attempts : nat) (key outputRefId : string) (nowMs : number) : M S unit :=
  match attempts with
  | O => throw (TError "External source registration conflicted")
  | Datatypes.S attempts' =>
      '(current, state) ← read_head key;
      lift (throw_if (hd_revoked state) (TError "External source revoked"));;
      edgeKey ← edge_key;
      create_record edgeKey (edge_text {| edge_outputRefId := outputRefId; edge_next := hd_head state |}) nowMs;;
      result ← write_head key (revision current) {| hd_revoked := false; hd_head := Some edgeKey |} nowMs;
      match result with
      | Updated _ => mret tt
      | _ => ds_deleteIfRevision edgeKey 1;; register_loop attempts' key outputRefId nowMs
      end
  end.

Definition registerExternalOutput (refId outputRefId : string) (caller : DurableArtifactCaller)
    (nowMs : number) : M S unit :=
  lift (assertRefId outputRefId);;
  key ← lift (externalSourceKey refId caller);
  create_record key (head_text {| hd_revoked := false; hd_head := None |}) nowMs;;
  register_loop 16 key outputRefId nowMs.

(** Whether the head that was read is now revoked. *)
Definition revoke_head (key : string) (current : DurableRecord) (state : OutputSourceHead) (nowMs : number)
    : M S bool :=
  if hd_revoked state then mret true
  else
    result ← write_head key (revision current) {| hd_revoked := true; hd_head := hd_head state |} nowMs;
    mret (match result with Updated _ => true | _ => false end).

Fixpoint next_loop (attempts : nat) (key : string) (nowMs : number) : M S (option (string * string)) :=
  match attempts with
  | O => throw (TError "External source revocation conflicted")
  | Datatypes.S attempts' =>
      '(current, state) ← read_head key;
      revoked ← revoke_head key current state nowMs;
      if negb revoked then next_loop attempts' key nowMs
      else
        match hd_head state with
        | None => mret None
        | Some edgeKey => '(_, edge) ← read_edge edgeKey; mret (Some (edgeKey, edge_outputRefId edge))
        end
  end.

Definition nextRevokedExternalOutput (refId : string) (caller : DurableArtifactCaller) (nowMs : number)
    : M S (option (string * string)) :=
  key ← lift (externalSourceKey refId caller);
  create_record key (head_text {| hd_revoked := true; hd_head := None |}) nowMs;;
  next_loop 16 key nowMs.

Definition acknowledgeRevokedExternalOutput (refId : string) (caller : DurableArtifactCaller)
    (edgeKey : string) (nowMs : number) : M S unit :=
  key ← lift (externalSourceKey refId caller);
  '(current, state) ← read_head key;
  if negb (hd_revoked state) || negb (bool_decide (hd_head state = Some edgeKey)) then mret tt
  else
    '(edge, e) ← read_edge edgeKey;
    result ← write_head key (revision current) {| hd_revoked := true; hd_head := edge_next e |} nowMs;
    match result with
    | Updated _ => ds_deleteIfRevision edgeKey (revision edge);; mret tt
    | _ => mret tt
    end.
End outputs.

(** * Correctness of the lists of external outputs

    Among other workers, and whatever calls fail: once a source was revoked it
    stays revoked, and registers no output any more. *)

(** ** Heads and edges round-trip *)

Definition pointer_ok (p : option string) : Prop :=
  match p with Some s => is_edge_key s = true | None => True end.

Lemma edgePointer_ok v p : edgePointer v = Some p → pointer_ok p.
Proof. destruct v; try done; cbn; [by intros [= <-]|]. case_match; [by intros [= <-]|done]. Qed.

Lemma edgePointer_json p : pointer_ok p → edgePointer (pointer_json p) = Some p.
Proof. destruct p as [s|]; cbn; [by intros ->|done]. Qed.

Lemma decode_head_ok v h : decodeOutputSourceHead v = Ok h → pointer_ok (hd_head h).
Proof.
  intros (w & _ & Hh)%result_bind_Ok. destruct (prop w "revoked"); try done.
  destruct (edgePointer _) as [p|] eqn:Hp; [|done]. injection Hh as <-. by apply edgePointer_ok in Hp.
Qed.

Lemma decode_edge_ok v e : decodeOutputSourceEdge v = Ok e → pointer_ok (edge_next e).
Proof.
  intros (w & _ & He)%result_bind_Ok. destruct (prop w "outputRefId"); try done.
  destruct (edgePointer _) as [p|] eqn:Hp; [|done]. apply result_bind_Ok in He as (_ & _ & [= <-]).
  by apply edgePointer_ok in Hp.
Qed.

Lemma decode_head_text h : pointer_ok (hd_head h) → decodeOutputSourceHead (head_text h) = Ok h.
Proof.
  intros Hp. unfold decodeOutputSourceHead, head_text. rewrite JSON_parse_exact by (by destruct (hd_head h)).
  transitivity (match edgePointer (pointer_json (hd_head h)) with
    | Some head => Ok {| hd_revoked := hd_revoked h; hd_head := head |}
    | None => Throw (TError "Invalid external source index") end); [reflexivity|].
  rewrite edgePointer_json by done. by destruct h.
Qed.

Lemma decode_edge_text e :
  pointer_ok (edge_next e) → assertRefId (edge_outputRefId e) = Ok tt →
  decodeOutputSourceEdge (edge_text e) = Ok e.
Proof.
  intros Hp Hr. unfold decodeOutputSourceEdge, edge_text. rewrite JSON_parse_exact by (by destruct (edge_next e)).
  transitivity (match edgePointer (pointer_json (edge_next e)) with
    | Some next => assertRefId (edge_outputRefId e);;
        Ok {| edge_outputRefId := edge_outputRefId e; edge_next := next |}
    | None => Throw (TError "Invalid external source edge") end); [reflexivity|].
  rewrite edgePointer_json, Hr by done. by destruct e.
Qed.

(** ** How heads evolve *)

Definition head_revoked (r : DurableRecord) : Prop :=
  ∃ h, decodeOutputSourceHead (value r) = Ok h ∧ hd_revoked h = true.

Definition source_key (k : string) : Prop := startsWith k "output-source:" = true.

Lemma source_not_effect k : source_key k → startsWith k "effect:" = false.
Proof.
  intros [l1 H1]%startsWith_inv. destruct (startsWith k "effect:") eqn:He; [|done].
  apply startsWith_inv in He as [l2 H2]. by rewrite H1 in H2.
Qed.

#[export] Instance head_family : RecordFamily := {
  fam_key := source_key;
  fam_ok _ _ := True;
  fam_moves r r' := head_revoked r → head_revoked r';
  fam_moves_trans r1 r2 r3 H1 H2 H := H2 (H1 H);
  fam_not_effect := source_not_effect
}.

Lemma edge_elsewhere k : startsWith k "output-edge:" = true → elsewhere k.
Proof.
  intros [l1 H1]%startsWith_inv. split.
  - intros [l2 H2]%startsWith_inv. by rewrite H1 in H2.
  - destruct (startsWith k "effect:") eqn:He; [|done]. apply startsWith_inv in He as [l2 H2]. by rewrite H1 in H2.
Qed.

Lemma edge_key_elsewhere k : is_edge_key k = true → elsewhere k.
Proof. intros [Hk _]%andb_true_iff. by apply edge_elsewhere. Qed.

Definition revoked_head (key : string) (m : memory) : Prop :=
  ∃ r, map_get key m = Some r ∧ head_revoked r.

Lemma evolves_revoked r r' : rec_evolves r r' → head_revoked r → head_revoked r'.
Proof. intros [->|[_ Hm]]; [done|exact Hm]. Qed.

Lemma revoked_head_stable key : source_key key → stable (revoked_head key).
Proof.
  intros Hk m m' [He _] (r & Hr & Hh). destruct (fam_evolve_records _ _ He _ _ Hk Hr) as (r' & Hr' & Hev).
  exists r'. split; [done|]. by eapply evolves_revoked.
Qed.

Lemma known_revoked r m : known r m → head_revoked r → revoked_head (rec_key r) m.
Proof. intros [_ _ (r' & Hr' & He)] Hh. exists r'. split; [done|]. by eapply evolves_revoked. Qed.

Lemma externalSourceKey_source `{!Sha256Api} refId caller key :
  externalSourceKey refId caller = Ok key → source_key key.
Proof.
  intros (_ & _ & (_ & _ & (_ & _ & [= <-])%result_bind_Ok)%result_bind_Ok)%result_bind_Ok.
  apply (startsWith_app "output-source:").
Qed.

(** ** The operations *)

Section operations.
Context {S : Type} `{!Sha256Api} `{!DurableRecordStorePort S} (randomUUID : S → string * S)
  (view : S → memory) (env : memory → memory → Prop) `{Laws : !DurableStoreLaws view env}
  (Henv : ∀ m m', env m m' → family_env m m') (Hquiet : ∀ s, env (view s) (view (randomUUID s).2)).
Notation moves := (moves view).

Lemma moves_read_head K key :
  stable K → source_key key →
  moves K (read_head key) (λ c m, K m ∧ rec_key c.1 = key ∧ known c.1 m ∧
    map_get key m = Some c.1 ∧ decodeOutputSourceHead (value c.1) = Ok c.2).
Proof.
  intros HK Hk. eapply moves_bind; [done|by eapply fam_moves_get|].
  intros [r|]; [|apply moves_throw]. apply moves_lift_bind. intros h Hd. apply moves_ret.
  intros m (Hm & [Hg _] & _ & Hr). destruct (fam_known_current _ _ _ Hg Hk (eq_sym Hr)) as [Hkey Hkn]. by split_and!.
Qed.

Lemma moves_read_edge K key :
  stable K → moves K (read_edge key) (λ c m, decodeOutputSourceEdge (value c.1) = Ok c.2).
Proof.
  intros HK. eapply moves_bind; [done|by eapply fam_moves_get|].
  intros [r|]; [|apply moves_throw]. apply moves_lift_bind. intros e Hd. by apply moves_ret.
Qed.

Lemma moves_write_head (K : memory → Prop) r h now :
  (∀ m, K m → known r m) → (head_revoked r → pointer_ok (hd_head h) ∧ hd_revoked h = true) →
  moves K (write_head (rec_key r) (revision r) h now) (λ o m, match o with
    | Updated _ => pointer_ok (hd_head h) → hd_revoked h = true → revoked_head (rec_key r) m
    | _ => True end).
Proof.
  intros HK Hh. eapply moves_mono; [intros m Hm; exact Hm| |
    eapply (fam_moves_cas view env Henv K r); [exact HK|exact I|]].
  - intros [r'|r'|] m; [|done..]. intros [-> Hk] Hp Hrv. apply (known_revoked _ _ Hk).
    exists h. split; [by apply decode_head_text|done].
  - cbn. intros [Hp Hrv]%Hh. exists h. split; [by apply decode_head_text|done].
Qed.

Lemma moves_create_head K key v now :
  stable K → source_key key → moves K (create_record key v now) (λ _ _, True).
Proof.
  intros HK Hk. eapply moves_mono; [intros m Hm; exact Hm| |by eapply fam_moves_create]. done.
Qed.

Lemma moves_create_edge K key v now :
  stable K → elsewhere key → moves K (create_record key v now) (λ _ _, True).
Proof. intros HK Hk. by eapply fam_moves_create_elsewhere. Qed.

Lemma moves_edge_key K : moves K (edge_key randomUUID) (λ k _, elsewhere k).
Proof.
  apply (moves_elsewhere view env K (edge_key randomUUID) elsewhere); [exact Henv|..]; intros s;
    unfold edge_key; pose proof (Hquiet s) as Hq; destruct (randomUUID s) as [u s']; [exact Hq|].
  intros k [= <-]. apply edge_elsewhere, (startsWith_app "output-edge:").
Qed.

(** What follows the read of a head runs with what was read. *)
Lemma moves_head {B} K key (f : DurableRecord * OutputSourceHead → M S B) R :
  stable K → source_key key →
  (∀ r h, rec_key r = key → decodeOutputSourceHead (value r) = Ok h →
     ((∀ m, K m → revoked_head key m) → hd_revoked h = true) → moves (λ m, K m ∧ known r m) (f (r, h)) R) →
  moves K (read_head key ≫= f) R.
Proof.
  intros HK Hk Hf. eapply moves_bind; [done|by apply moves_read_head|]. intros [r h]. cbn [fst snd].
  apply (moves_pure view _ (rec_key r = key ∧ decodeOutputSourceHead (value r) = Ok h ∧
    ((∀ m, K m → revoked_head key m) → hd_revoked h = true))).
  { intros m (_ & Hm & Hkey & _ & Hr & Hd). split_and!; [done..|]. intros HR.
    destruct (HR m Hm) as (r' & Hr' & h' & Hd' & Hh'). rewrite Hr' in Hr. injection Hr as ->.
    rewrite Hd in Hd'. by injection Hd' as ->. }
  intros (Hkey & Hd & HR). eapply moves_mono; [|intros a m Ha; exact Ha|by apply Hf].
  by intros m (Hm & _ & _ & Hkn & _).
Qed.

Lemma moves_seq {A B} K (c : M S A) (f : A → M S B) R :
  stable K → moves K c (λ _ _, True) → (∀ a, moves K (f a) R) → moves K (c ≫= f) R.
Proof. intros HK Hc Hf. eapply moves_bind; [done|exact Hc|]. intros a. by apply moves_forget. Qed.

Lemma stable_known K r : stable K → stable (λ m, K m ∧ known r m).
Proof. auto with groundlane. Qed.
Hint Resolve stable_known : groundlane.

Lemma moves_any {A} K (c : M S A) R : moves K c R → moves K c (λ _ _, True).
Proof. intros Hc. eapply moves_mono; [| |exact Hc]; done. Qed.

(** *** Registering *)

Lemma moves_register_loop K n key x now :
  stable K → source_key key → moves K (register_loop randomUUID n key x now) (λ _ _, True).
Proof.
  intros HK Hk. induction n as [|n IH]; [apply moves_throw|]. cbn [register_loop].
  apply moves_head; [done..|]. intros r h Hkey Hd _.
  apply moves_lift_bind. intros [] Hrv%throw_if_Ok. subst key.
  eapply moves_bind; [auto with groundlane|apply moves_edge_key|]. intros edge.
  eapply moves_pure; [intros m [_ He]; exact He|]. intros He. apply moves_forget.
  apply moves_seq; [auto with groundlane|apply moves_create_edge; auto with groundlane|]. intros _.
  apply moves_seq; [auto with groundlane| |].
  - eapply moves_any, moves_write_head; [by intros m []|]. cbn. intros (h' & Hd' & Hh').
    rewrite Hd in Hd'. injection Hd' as <-. congruence.
  - intros [r'|r'|]; [by apply moves_ret| |];
      (apply moves_seq; [auto with groundlane|eapply fam_moves_delete_elsewhere; eauto with groundlane|]);
      intros _; by apply moves_forget.
Qed.

Lemma moves_register K refId x caller now :
  stable K → moves K (registerExternalOutput randomUUID refId x caller now) (λ _ _, True).
Proof.
  intros HK. apply moves_lift_bind. intros [] _. apply moves_lift_bind. intros key Hk%externalSourceKey_source.
  apply moves_seq; [done|by apply moves_create_head|]. intros _. by apply moves_register_loop.
Qed.

(** A revoked source registers nothing. *)
Lemma moves_register_revoked refId x caller key now :
  externalSourceKey refId caller = Ok key →
  moves (revoked_head key) (registerExternalOutput randomUUID refId x caller now) (λ _ _, False).
Proof.
  intros Hkey. pose proof (externalSourceKey_source _ _ _ Hkey) as Hk.
  apply moves_lift_bind. intros [] _. apply moves_lift_bind. intros key'. rewrite Hkey. intros [= <-].
  apply moves_seq; [by apply revoked_head_stable|apply moves_create_head; [by apply revoked_head_stable|done]|]. intros _.
  cbn [register_loop]. apply moves_head; [by apply revoked_head_stable|done|]. intros r h _ _ HR.
  rewrite HR by done. apply moves_throw.
Qed.

(** *** Revoking *)

Lemma moves_next_loop K n key now :
  stable K → source_key key → moves K (next_loop n key now) (λ _ m, revoked_head key m).
Proof.
  intros HK Hk. induction n as [|n IH]; [apply moves_throw|]. cbn [next_loop].
  apply moves_head; [done..|]. intros r h Hkey Hd _. subst key.
  apply moves_bind with (Q := λ b m, b = true → revoked_head (rec_key r) m); [auto with groundlane| |].
  - unfold revoke_head. destruct (hd_revoked h) eqn:Hh.
    + apply moves_ret. intros m [_ Hkn] _. apply known_revoked; [done|]. by exists h.
    + eapply moves_bind; [auto with groundlane|apply moves_write_head; [by intros m []|]|].
      * cbn. intros (h' & Hd' & Hh'). rewrite Hd in Hd'. injection Hd' as <-. congruence.
      * intros [r'|r'|]; apply moves_ret; [|done..]. intros m [_ HQ] _. apply HQ; [|done].
        exact (decode_head_ok _ _ Hd).
  - intros []; cbn [negb]; [|by do 2 apply moves_forget].
    assert (HR : stable (revoked_head (rec_key r))) by by apply revoked_head_stable.
    eapply (moves_mono view (revoked_head (rec_key r))); [intros m [_ Hm]; by apply Hm|intros a m Ha; exact Ha|].
    destruct (hd_head h) as [edgeKey|]; [|by apply moves_ret].
    eapply moves_bind; [done|by apply moves_read_edge|]. intros [? edge]. apply moves_ret. by intros m [].
Qed.

Lemma moves_next K refId caller key now :
  stable K → externalSourceKey refId caller = Ok key →
  moves K (nextRevokedExternalOutput refId caller now) (λ _ m, revoked_head key m).
Proof.
  intros HK Hkey. apply moves_lift_bind. intros key'. rewrite Hkey. intros [= <-].
  apply externalSourceKey_source in Hkey as Hk.
  apply moves_seq; [done|by apply moves_create_head|]. intros _. by apply moves_next_loop.
Qed.

Lemma moves_acknowledge K refId caller edgeKey now :
  stable K → moves K (acknowledgeRevokedExternalOutput refId caller edgeKey now) (λ _ _, True).
Proof.
  intros HK. apply moves_lift_bind. intros key Hk%externalSourceKey_source.
  apply moves_head; [done..|]. intros r h Hkey Hd _. subst key.
  destruct (negb _ || _) eqn:Hgo; [by apply moves_ret|]. apply orb_false_iff in Hgo as [Hrv Hhead]. reflect.
  assert (He : elsewhere edgeKey).
  { apply edge_key_elsewhere. pose proof (decode_head_ok _ _ Hd) as Hp. by rewrite Hhead in Hp. }
  eapply moves_bind; [auto with groundlane|apply moves_read_edge; auto with groundlane|]. intros [edge e].
  eapply moves_pure; [intros m [_ Hm]; exact Hm|]. cbn [fst snd]. intros Hde. apply moves_forget.
  apply moves_seq; [auto with groundlane| |].
  - eapply moves_any, moves_write_head; [by intros m []|]. intros _. split; [by eapply decode_edge_ok|done].
  - intros [r'|r'|]; [|by apply moves_ret..]. apply moves_seq; [auto with groundlane| |intros _; by apply moves_ret].
    eapply fam_moves_delete_elsewhere; eauto with groundlane.
Qed.

Lemma moves_isRevoked K refId caller :
  stable K → moves K (isExternalSourceRevoked refId caller) (λ _ _, True).
Proof.
  intros HK. apply moves_lift_bind. intros key _. apply moves_seq; [done| |].
  - eapply moves_any, (fam_moves_get view env Henv K). done.
  - intros [r|]; [|by apply moves_ret]. apply moves_lift_bind. intros h _. by apply moves_ret.
Qed.
End operations.

(** ** Any calls *)

Inductive output_call :=
  | RegisterOutput (refId outputRefId : string) (caller : DurableArtifactCaller) (now : number)
  | NextOutput (refId : string) (caller : DurableArtifactCaller) (now : number)
  | AcknowledgeOutput (refId : string) (caller : DurableArtifactCaller) (edgeKey : string) (now : number)
  | AskRevoked (refId : string) (caller : DurableArtifactCaller).

Section output_calls.
Context {S : Type} `{!Sha256Api} `{!DurableRecordStorePort S} (randomUUID : S → string * S)
  (view : S → memory) (env : memory → memory → Prop).

Definition call_output (c : output_call) : M S unit :=
  match c with
  | RegisterOutput refId x caller now => ignore (registerExternalOutput randomUUID refId x caller now)
  | NextOutput refId caller now => ignore (nextRevokedExternalOutput refId caller now)
  | AcknowledgeOutput refId caller edgeKey now =>
      ignore (acknowledgeRevokedExternalOutput refId caller edgeKey now)
  | AskRevoked refId caller => ignore (isExternalSourceRevoked refId caller)
  end.

Fixpoint call_outputs (cs : list output_call) : M S unit :=
  match cs with
  | [] => mret tt
  | c :: cs' => call_output c;; call_outputs cs'
  end.

Lemma moves_next_any `{Laws : !DurableStoreLaws view env} refId caller now :
  (∀ m m', env m m' → family_env m m') →
  moves view (λ _, True) (nextRevokedExternalOutput refId caller now) (λ _ _, True).
Proof.
  intros Henv. destruct (externalSourceKey refId caller) as [key|e] eqn:Hkey.
  - eapply moves_any, (moves_next view env Henv); [apply stable_const|exact Hkey].
  - apply moves_lift_bind. intros key. by rewrite Hkey.
Qed.

Lemma moves_call_outputs `{Laws : !DurableStoreLaws view env} cs :
  (∀ m m', env m m' → family_env m m') → (∀ s, env (view s) (view (randomUUID s).2)) →
  moves view (λ _, True) (call_outputs cs) (λ _ _, True).
Proof.
  intros Henv Hquiet. induction cs as [|c cs IH]; [by apply moves_ret|]. cbn [call_outputs].
  apply moves_seq; [apply stable_const| |intros _; exact IH].
  destruct c; eapply moves_ignore with (Q := λ _ _, True).
  - apply (moves_register randomUUID view env Henv Hquiet), stable_const.
  - by apply moves_next_any.
  - apply (moves_acknowledge view env Henv), stable_const.
  - apply (moves_isRevoked view env Henv), stable_const.
Qed.

(** C34: once a call of [nextRevokedExternalOutput] returned, whatever calls
    follow and however other workers interleave, the source is reported
    revoked, and no output is registered for it: the revocation loop that
    deletes what was registered will not miss one. *)
Theorem revoked_source_accepts_no_output refId caller now o s s1 cs x now' b :
  DurableStoreLaws view env → (∀ m m', env m m' → family_env m m') →
  (∀ s, env (view s) (view (randomUUID s).2)) → family_good (view s) →
  nextRevokedExternalOutput refId caller now s = (Ok o, s1) →
  let s2 := (call_outputs cs s1).2 in
  is_Throw (registerExternalOutput randomUUID refId x caller now' s2).1 ∧
  ((isExternalSourceRevoked refId caller s2).1 = Ok b → b = true).
Proof.
  intros Laws Henv Hquiet Hg Hrun s2.
  destruct (externalSourceKey refId caller) as [key|e] eqn:Hkey;
    [|unfold nextRevokedExternalOutput in Hrun; by rewrite Hkey in Hrun].
  pose proof (externalSourceKey_source _ _ _ Hkey) as Hk.
  pose proof (moves_next view env Henv _ refId caller key now (stable_const True) Hkey s Hg I) as Hn.
  unfold wp in Hn. rewrite Hrun in Hn. destruct Hn as [He1 HR].
  pose proof (family_env_good _ _ He1 Hg) as Hg1.
  destruct (moves_call_outputs cs Henv Hquiet s1 Hg1 I) as [He2 _]. fold s2 in He2.
  pose proof (family_env_good _ _ He2 Hg1) as Hg2.
  pose proof (revoked_head_stable key Hk _ _ He2 HR) as HR2. split.
  - destruct (moves_register_revoked randomUUID view env Henv refId x caller key now' Hkey s2 Hg2 HR2) as [_ Hf].
    destruct (registerExternalOutput _ _ _ _ _ s2).1 as [[]|e]; [done|by eexists].
  - assert (Hm : moves view (revoked_head key) (isExternalSourceRevoked refId caller) (λ b _, b = true)).
    { apply moves_lift_bind. intros key'. rewrite Hkey. intros [= <-].
      eapply moves_bind; [by apply revoked_head_stable|by eapply fam_moves_get, revoked_head_stable|].
      intros o'. apply (moves_pure view _ (∃ r, o' = Some r ∧ head_revoked r)).
      { intros m (_ & _ & (r & Hr & Hh) & ->). by exists r. }
      intros (r & -> & h & Hd & Hh). rewrite Hd. by apply moves_ret. }
    destruct (Hm s2 Hg2 HR2) as [_ Hb]. intros Hr. by rewrite Hr in Hb.
Qed.
End output_calls.

(** ** A store shared with nobody *)

Module OutputsDemo.
#[export] Instance digest : Sha256Api := zero_digest.
#[export] Instance port : DurableRecordStorePort (SharedStore family_env) := shared_port (λ _ _, 0%Z).
Abbreviation St := (SharedStore family_env).
Definition caller : DurableArtifactCaller :=
  {| ac_tenantId := "tenant"; ac_ownerId := "owner"; ac_credentialBinding := "cred" |}.

(** Names by the number of records. *)
Definition uuids (s : St) : string * St :=
  (unchars (replicate 35 "0"%char ++ [ascii_of_nat (97 + length (contents s))]), s).
Definition empty : St := {| contents := []; turns := [] |}.
Definition two : St := (call_outputs uuids
  [RegisterOutput "src" "out-1" caller (int 1000); RegisterOutput "src" "out-2" caller (int 1100)] empty).2.
Definition first := nextRevokedExternalOutput "src" caller (int 2000) two.
Definition edge (s : St) : string :=
  match (nextRevokedExternalOutput "src" caller (int 2000) s).1 with Ok (Some (e, _)) => e | _ => "" end.
Definition popped (s : St) : St := (acknowledgeRevokedExternalOutput "src" caller (edge s) (int 2100) s).2.
Definition output (s : St) : option string :=
  match (nextRevokedExternalOutput "src" caller (int 2000) s).1 with Ok (Some (_, x)) => Some x | _ => None end.

(** The outputs are handed out, the last registered first, until none is left. *)
Example outputs_demo_drains :
  output two = Some "out-2"%string ∧ output (popped first.2) = Some "out-1"%string ∧
  (nextRevokedExternalOutput "src" caller (int 2000) (popped (popped first.2))).1 = Ok None ∧
  (isExternalSourceRevoked "src" caller two).1 = Ok false.
Proof. vm_compute. split_and!; reflexivity. Qed.

Lemma outputs_laws : DurableStoreLaws (contents (env := family_env)) family_env.
Proof. apply shared_store_laws; [apply family_env_refl|apply family_env_trans]. Qed.

Lemma outputs_good : family_good (contents empty).
Proof. split; [by split|]. by intros ? ? ? ? ?. Qed.
End OutputsDemo.

#[local] Existing Instances OutputsDemo.digest OutputsDemo.port.

Lemma revoked_source_accepts_no_output_witness :
  is_Throw (registerExternalOutput OutputsDemo.uuids "src" "out-3" OutputsDemo.caller (int 3000)
    (call_outputs OutputsDemo.uuids
       [AcknowledgeOutput "src" OutputsDemo.caller (OutputsDemo.edge OutputsDemo.two) (int 2100)]
       OutputsDemo.first.2).2).1.
Proof.
  refine (proj1 (revoked_source_accepts_no_output OutputsDemo.uuids contents family_env "src" OutputsDemo.caller
    (int 2000) (Some (OutputsDemo.edge OutputsDemo.two, "out-2"%string)) OutputsDemo.two OutputsDemo.first.2
    [AcknowledgeOutput "src" OutputsDemo.caller (OutputsDemo.edge OutputsDemo.two) (int 2100)]
    "out-3" (int 3000) true OutputsDemo.outputs_laws (λ m m' He, He) (λ s, family_env_refl _) _ _)).
  - destruct (moves_call_outputs OutputsDemo.uuids contents family_env (Laws := OutputsDemo.outputs_laws)
      [RegisterOutput "src" "out-1" OutputsDemo.caller (int 1000);
       RegisterOutput "src" "out-2" OutputsDemo.caller (int 1100)] (λ m m' He, He) (λ s, family_env_refl _)
      OutputsDemo.empty OutputsDemo.outputs_good I) as [He _].
    exact (family_env_good _ _ He OutputsDemo.outputs_good).
  - apply injective_projections; [vm_compute; reflexivity|reflexivity].
Defined.
