(* ===== verification/DocumentDispatcher.v ===== *)
(** * The dispatcher of document jobs

    [src/core/document-async-dispatcher.ts]: a scheduler over the durable
    record store, whose records say when a job is due next, or until when the
    worker that has it may work on it.

    A drain takes the records of one page in order.  What the other consumers
    of the same drain do in between, and what an attempt goes on to do after
    its deadline, other parties do; an attempt that outlives its deadline is
    one whose call fails.  The clock gives integers, as [Date.now] does. *)

From S2P Require Import Prelude Interference JsString JsMap Digest Json DurableStore RecordFamily.
From S2P Require DurableDocumentJobs.

Abbreviation DurableDocumentJobCaller := DurableDocumentJobs.DurableDocumentJobCaller.
Abbreviation jc_ownerId := DurableDocumentJobs.jc_ownerId.
Abbreviation jc_credentialBinding := DurableDocumentJobs.jc_credentialBinding.

(** ** Data *)

Inductive Phase := scheduled | leased | idle.

#[export] Instance Phase_eq_dec : EqDecision Phase.
Proof. solve_decision. Defined.

Record Entry := {
  en_jobId : string;
  en_caller : DurableDocumentJobCaller;
  en_phase : Phase;
  en_token : string;
  en_failures : Z
}.

(** What [status] tells the dispatcher of a job. *)
Record DispatchDisposition := {
  di_status : string;
  di_expiresAt : Z;
  di_resultCleanupPending : bool;
  di_upstreamRequested : bool;
  di_upstreamAcknowledged : bool
}.

Record DocumentDispatchRuntime (S : Type) := {
  rt_advance : string → DurableDocumentJobCaller → M S unit;
  rt_status : string → DurableDocumentJobCaller → M S DispatchDisposition
}.
Arguments rt_advance {S} _ _ _.
Arguments rt_status {S} _ _ _.

Record DocumentDispatcher := {
  attemptTimeoutMs : Z;
  leaseMs : Z;
  pollIntervalMs : Z;
  maxBackoffMs : Z
}.

Record DocumentDispatchDrainResult := {
  dr_scanned : Z;
  dr_claimed : Z;
  dr_advanced : Z;
  dr_rescheduled : Z;
  dr_idle : Z;
  dr_failed : Z;
  dr_leaseLost : Z;
  dr_malformed : Z;
  dr_nextCursor : option string
}.

#[export] Instance DocumentDispatchDrainResult_updatable : Updatable DocumentDispatchDrainResult :=
  {| rebuild := λ r, Build_DocumentDispatchDrainResult (dr_scanned r) (dr_claimed r) (dr_advanced r)
       (dr_rescheduled r) (dr_idle r) (dr_failed r) (dr_leaseLost r) (dr_malformed r) (dr_nextCursor r) |}.

Definition terminal (status : string) : bool :=
  bool_decide (status ∈ ["completed"; "failed"; "cancelled"; "expired"; "deleted"]%string).

(** ** Checks *)

Definition invalid (message : string) : thrown := gerror INVALID_INPUT "document-dispatch" message false.

Definition integer (value : number) (min max : Z) : result Z :=
  throw_if (negb (isSafeInteger value) || (to_Z value <? min)%Z || (max <? to_Z value)%Z)
    (invalid "Invalid document dispatcher bound");;
  Ok (to_Z value).

(** A value that a schema rejects. *)
Definition rejected_value : thrown := TOther.

(** [id.parse]: what a schema rejects throws. *)
Definition parse_id (v : string) : result unit :=
  throw_if ((str_length v <? 1)%Z || (256 <? str_length v)%Z) rejected_value.

Definition check_entry (e : Entry) : result unit :=
  parse_id (en_jobId e);; parse_id (jc_ownerId (en_caller e));; parse_id (jc_credentialBinding (en_caller e));;
  throw_if ((en_failures e <? 0)%Z || (30 <? en_failures e)%Z) rejected_value.

(** The options of the dispatcher, as the constructor checks them. *)
Definition new_dispatcher (attemptTimeoutMs leaseMs pollIntervalMs maxBackoffMs : option number)
    : result DocumentDispatcher :=
  attempt ← integer (default (int 120000) attemptTimeoutMs) 1 120000;
  lease ← integer (default (int (attempt + 10000)) leaseMs) (attempt + 1) 300000;
  poll ← integer (default (int 5000) pollIntervalMs) 1 3600000;
  backoff ← integer (default (int (Z.max poll 300000)) maxBackoffMs) poll 3600000;
  Ok (Build_DocumentDispatcher attempt lease poll backoff).

(** ** Encoding and decoding *)

Definition phase_name (p : Phase) : string :=
  match p with scheduled => "scheduled" | leased => "leased" | idle => "idle" end.

Definition entry_json (e : Entry) : js_value :=
  JObj [("schemaVersion", JStr "1"); ("jobId", JStr (en_jobId e));
        ("caller", JObj [("ownerId", JStr (jc_ownerId (en_caller e)));
                         ("credentialBinding", JStr (jc_credentialBinding (en_caller e)))]);
        ("phase", JStr (phase_name (en_phase e))); ("token", JStr (en_token e));
        ("failures", JNum (en_failures e))]%string.

Definition entry_text (e : Entry) : string := unchars (json_text (entry_json e)).

(** An object with no other properties than these. *)
Definition strict_object (names : list string) (v : js_value) : option unit :=
  match v with
  | JObj fields => guard (forallb (λ '(k, _), bool_decide (k ∈ names)) fields = true);; Some tt
  | _ => None
  end.

Definition phase_of_json (v : js_value) : option Phase :=
  s ← as_string v; find (λ p, bool_decide (phase_name p = s)) [scheduled; leased; idle].

Definition entry_of_json (v : js_value) : option Entry :=
  _ ← strict_object ["schemaVersion"; "jobId"; "caller"; "phase"; "token"; "failures"]%string v;
  version ← as_string (prop v "schemaVersion"); _ ← guard (version = "1"%string);
  id ← as_string (prop v "jobId");
  _ ← strict_object ["ownerId"; "credentialBinding"]%string (prop v "caller");
  o ← as_string (prop (prop v "caller") "ownerId");
  cb ← as_string (prop (prop v "caller") "credentialBinding");
  p ← phase_of_json (prop v "phase"); t ← as_string (prop v "token"); f ← as_number (prop v "failures");
  Some {| en_jobId := id; en_caller := DurableDocumentJobs.Build_DurableDocumentJobCaller o cb;
          en_phase := p; en_token := t; en_failures := f |}.

Definition decode (record : DurableRecord) : result Entry :=
  v ← JSON_parse (value record);
  match entry_of_json v with
  | None => Throw rejected_value
  | Some e => check_entry e;; Ok e
  end.

Section dispatcher.
Context {S : Type} `{!Sha256Api} `{!DurableRecordStorePort S} (clock : S → Z * S)
  (randomUUID : S → string * S) (this : DocumentDispatcher) (runtime : DocumentDispatchRuntime S).

Definition entryKey (jobId : string) : result string :=
  parse_id jobId;; Ok ("dispatch:" +:+ sha256 (utf8 jobId)).

Definition read_now : M S Z := λ s, let '(t, s') := clock s in (Ok t, s').
Definition new_token : M S string := λ s, let '(u, s') := randomUUID s in (Ok u, s').

Definition throwIfAborted (signal : option (AbortSignal S)) : M S unit := λ s,
  (match signal with Some aborted => if aborted s then Throw TOther else Ok tt | None => Ok tt end, s).

(** ** Scheduling *)

Definition new_entry (jobId : string) (caller : DurableDocumentJobCaller) : Entry :=
  {| en_jobId := jobId; en_caller := caller; en_phase := scheduled; en_token := ""; en_failures := 0 |}.

Definition same_job (e : Entry) (jobId : string) (caller : DurableDocumentJobCaller) : bool :=
  bool_decide (en_jobId e = jobId) && bool_decide (jc_ownerId (en_caller e) = jc_ownerId caller) &&
  bool_decide (jc_credentialBinding (en_caller e) = jc_credentialBinding caller).

Definition due_by (record : DurableRecord) (time : Z) : bool :=
  match rec_expiresAt record with Some t => (t <=? time)%Z | None => false end.

Definition write_entry (record : DurableRecord) (rev : Z) (e : Entry) (nowMs : Z) (expiresAt : option Z)
    : M S DurableCasResult :=
  ds_compareAndSwap (rec_key record) rev
    {| upd_value := entry_text e; upd_nowMs := int nowMs; upd_expiresAt := int <$> expiresAt |}.

Fixpoint wake_loop (attempts : nat) (record : DurableRecord) (entry : Entry) (now nextAttemptAt : Z)
    (signal : option (AbortSignal S)) : M S unit :=
  match attempts with
  | O => throw (gerror UPSTREAM_ERROR "document-dispatch" "Document dispatch scheduling conflict" true)
  | Datatypes.S attempts' =>
      throwIfAborted signal;;
      existing ← lift (decode record);
      lift (throw_if (negb (same_job existing (en_jobId entry) (en_caller entry)))
        (invalid "Document dispatch owner or credential mismatch"));;
      if bool_decide (en_phase existing = leased) ||
         bool_decide (en_phase existing = scheduled) && due_by record nextAttemptAt
      then mret tt
      else
        changed ← write_entry record (revision record) entry now (Some nextAttemptAt);
        match changed with
        | Updated _ => mret tt
        | Missing => throw (invalid "Document dispatch record disappeared")
        | Conflict record' => wake_loop attempts' record' entry now nextAttemptAt signal
        end
  end.

Definition enqueue (jobId : string) (caller : DurableDocumentJobCaller) (nextAttemptAt : option number)
    (signal : option (AbortSignal S)) : M S unit :=
  t ← read_now;
  now ← lift (integer (int t) 0 (MAX_SAFE_INTEGER - leaseMs this));
  next ← lift (integer (default (int (now + 1)) nextAttemptAt) (now + 1) MAX_SAFE_INTEGER);
  let entry := new_entry jobId caller in
  lift (check_entry entry);;
  throwIfAborted signal;;
  key ← lift (entryKey jobId);
  created ← ds_createIfAbsent
    {| new_key := key;
       new_update := {| upd_value := entry_text entry; upd_nowMs := int now; upd_expiresAt := Some (int next) |} |};
  match created with
  | Created _ => mret tt
  | Exists record => wake_loop 8 record entry now next signal
  end.

(** ** Draining *)

(** [/^[A-Za-z0-9._:-]+$/], at most 240 characters, or [null]. *)
Definition parse_cursor (v : js_value) : option (option string) :=
  match v with
  | JNull => Some None
  | JStr s => if (1 <=? str_length s)%Z && (str_length s <=? 240)%Z &&
                 forallb (λ c, is_alnum c || one_of "._:-" c) (chars s) then Some (Some s) else None
  | _ => None
  end.

(** A malformed cursor starts over. *)
Definition read_cursor (record : option DurableRecord) : option string :=
  match record with
  | Some r => match JSON_parse (value r) with Ok v => default None (parse_cursor v) | Throw _ => None end
  | None => None
  end.

Definition cursor_text (c : option string) : string :=
  unchars (json_text (match c with Some s => JStr s | None => JNull end)).

(** The entry of a due record, if it can be worked on. *)
Definition due_entry (record : DurableRecord) : result Entry :=
  entry ← decode record;
  key ← entryKey (en_jobId entry);
  throw_if (negb (bool_decide (rec_key record = key)) || bool_decide (en_phase entry = idle))
    (invalid "Malformed document dispatch entry");;
  Ok entry.

(** When a job of which an attempt found this is due next. *)
Definition next_attempt (d : DispatchDisposition) (finishedAt : Z) : option Z :=
  let pending := di_resultCleanupPending d || di_upstreamRequested d && negb (di_upstreamAcknowledged d) in
  if negb (terminal (di_status d)) || pending then Some (finishedAt + pollIntervalMs this)%Z
  else if bool_decide (di_status d = "completed"%string) && (finishedAt <? di_expiresAt d)%Z
  then Some (di_expiresAt d) else None.

Definition backoff (failures : Z) : Z := Z.min (maxBackoffMs this) (pollIntervalMs this * 2 ^ (failures - 1)).

(** Whether the attempt was made, and when the job is due next, with the
    failures in a row. *)
Definition attempt_entry (entry : Entry) (now : Z) : M S (bool * option Z * Z) :=
  outcome ← attempt (rt_advance runtime (en_jobId entry) (en_caller entry);;
                     rt_status runtime (en_jobId entry) (en_caller entry));
  t ← read_now;
  let failures := Z.min 30 (en_failures entry + 1) in
  mret (match outcome with
        | inl d => (true, next_attempt d (Z.max now t), 0%Z)
        | inr _ => (false, Some (Z.max now t + backoff failures)%Z, failures)
        end).

Definition with_lease (e : Entry) (token : string) : Entry :=
  {| en_jobId := en_jobId e; en_caller := en_caller e; en_phase := leased; en_token := token;
     en_failures := en_failures e |}.

Definition released (e : Entry) (next : option Z) (failures : Z) : Entry :=
  {| en_jobId := en_jobId e; en_caller := en_caller e;
     en_phase := match next with None => idle | Some _ => scheduled end; en_token := "";
     en_failures := failures |}.

(** One due record, from the lease to its release. *)
Definition work_on (record : DurableRecord) (entry : Entry) (now : Z) (r : DocumentDispatchDrainResult)
    : M S DocumentDispatchDrainResult :=
  token ← new_token;
  leasing ← write_entry record (revision record) (with_lease entry token) now (Some (now + leaseMs this)%Z);
  match leasing with
  | Updated held =>
      '(done, next, failures) ← attempt_entry entry now;
      t ← read_now;
      let finishedAt := Z.max now t in
      changed ← write_entry record (revision held) (released entry next failures) finishedAt
                  (Z.max (finishedAt + 1) <$> next);
      let r := r <| dr_claimed := (dr_claimed r + 1)%Z |> in
      let r := if done : bool then r <| dr_advanced := (dr_advanced r + 1)%Z |>
               else r <| dr_failed := (dr_failed r + 1)%Z |> in
      mret (match changed, next with
            | Updated _, None => r <| dr_idle := (dr_idle r + 1)%Z |>
            | Updated _, Some _ => r <| dr_rescheduled := (dr_rescheduled r + 1)%Z |>
            | _, _ => r <| dr_leaseLost := (dr_leaseLost r + 1)%Z |>
            end)
  | _ => mret r
  end.

Fixpoint consume (records : list DurableRecord) (now : Z) (signal : option (AbortSignal S))
    (r : DocumentDispatchDrainResult) : M S DocumentDispatchDrainResult :=
  match records with
  | [] => throwIfAborted signal;; mret r
  | record :: records' =>
      throwIfAborted signal;;
      r ← match due_entry record with
          | Throw _ => mret (r <| dr_malformed := (dr_malformed r + 1)%Z |>)
          | Ok entry => work_on record entry now r
          end;
      consume records' now signal r
  end.

Definition CURSOR_KEY : string := "dispatch-cursor".

(** The cursor is only for fairness: whether it is kept does not matter. *)
Definition save_cursor (found : option DurableRecord) (c : option string) (now : Z) : M S unit :=
  t ← read_now;
  let update := {| upd_value := cursor_text c; upd_nowMs := int (Z.max now t); upd_expiresAt := None |} in
  match found with
  | None => ds_createIfAbsent {| new_key := CURSOR_KEY; new_update := update |};; mret tt
  | Some r => ds_compareAndSwap (rec_key r) (revision r) update;; mret tt
  end.

Definition drain (nowMs limit concurrency : option number) (signal : option (AbortSignal S))
    : M S DocumentDispatchDrainResult :=
  t ← match nowMs with Some t => mret t | None => t ← read_now; mret (int t) end;
  now ← lift (integer t 0 (MAX_SAFE_INTEGER - leaseMs this));
  limit ← lift (integer (default (int 20) limit) 1 100);
  lift (integer (default (int 2) concurrency) 1 8);;
  throwIfAborted signal;;
  found ← ds_get CURSOR_KEY;
  page ← ds_scanExpired (int now) (read_cursor found) limit;
  let records := page_records page in
  r ← consume records now signal
    (Build_DocumentDispatchDrainResult (Z.of_nat (length records)) 0 0 0 0 0 0 0 (nextCursor page));
  save_cursor found (nextCursor page) now;;
  mret r.
End dispatcher.

(** * Correctness of the document dispatcher

    Among other workers: waking a job never takes a lease away nor delays what
    is scheduled, and leaves the job leased or due in time; and a drain
    accounts for every record it scanned. *)

(** ** Entries round-trip *)

Lemma entry_json_exact e : json_exact (entry_json e) = true.
Proof. reflexivity. Qed.

Lemma entry_of_json_written e : entry_of_json (entry_json e) = Some e.
Proof. destruct e as [id [o cb] p t f]. by destruct p. Qed.

Lemma decode_entry r e : value r = entry_text e → check_entry e = Ok tt → decode r = Ok e.
Proof.
  intros Hv Hc. unfold decode. rewrite Hv. unfold entry_text. rewrite (JSON_parse_exact _ (entry_json_exact e)).
  change (Ok (entry_json e) ≫= ?f) with (f (entry_json e)). cbv beta. by rewrite entry_of_json_written, Hc.
Qed.

Lemma decode_checked r e : decode r = Ok e → check_entry e = Ok tt.
Proof.
  intros (v & _ & Hd)%result_bind_Ok. destruct (entry_of_json v) as [e'|]; [|done].
  by apply result_bind_Ok in Hd as ([] & Hc & [= <-]).
Qed.

(** ** Waking *)

Definition same_entry_job (e e' : Entry) : Prop := en_jobId e' = en_jobId e ∧ en_caller e' = en_caller e.

(** Due strictly earlier than before. *)
Definition earlier (r r' : DurableRecord) : Prop :=
  match rec_expiresAt r, rec_expiresAt r' with
  | Some t, Some t' => (t' < t)%Z
  | None, Some _ => True
  | _, None => False
  end.

(** What a wakeup may make of a record. *)
Definition woken (r r' : DurableRecord) : Prop :=
  ∃ e e', decode r = Ok e ∧ decode r' = Ok e' ∧ same_entry_job e e' ∧
    en_phase e ≠ leased ∧ en_phase e' = scheduled ∧ (en_phase e = scheduled → earlier r r').

Lemma earlier_trans r1 r2 r3 : earlier r1 r2 → earlier r2 r3 → earlier r1 r3.
Proof. unfold earlier. destruct (rec_expiresAt r1), (rec_expiresAt r2), (rec_expiresAt r3); try done; lia. Qed.

Lemma woken_trans r1 r2 r3 : woken r1 r2 → woken r2 r3 → woken r1 r3.
Proof.
  intros (e1 & e2 & D1 & D2 & [I1 C1] & L1 & P1 & E1) (e2' & e3 & D2' & D3 & [I2 C2] & L2 & P2 & E2).
  rewrite D2 in D2'. injection D2' as <-. exists e1, e3. split_and!; [done..|split; congruence|done|done|].
  intros Hs. eapply earlier_trans; auto.
Qed.

Definition dispatch_key (k : string) : Prop := startsWith k "dispatch:" = true.

Lemma dispatch_not_effect k : dispatch_key k → startsWith k "effect:" = false.
Proof.
  intros [l1 H1]%startsWith_inv. destruct (startsWith k "effect:") eqn:He; [|done].
  apply startsWith_inv in He as [l2 H2]. by rewrite H1 in H2.
Qed.

#[export] Instance dispatch_family : RecordFamily := {
  fam_key := dispatch_key;
  fam_ok _ _ := True;
  fam_moves := woken;
  fam_moves_trans := woken_trans;
  fam_not_effect := dispatch_not_effect
}.

Lemma entryKey_dispatch `{!Sha256Api} id key : entryKey id = Ok key → dispatch_key key.
Proof. intros ([] & _ & [= <-])%result_bind_Ok. apply (startsWith_app "dispatch:"). Qed.

Lemma integer_Ok v lo hi z : integer v lo hi = Ok z → (lo <= z <= hi)%Z ∧ isSafeInteger v = true ∧ z = to_Z v.
Proof.
  intros ([] & Hc%throw_if_Ok & [= <-])%result_bind_Ok. apply orb_false_iff in Hc as [Hc Hhi].
  apply orb_false_iff in Hc as [Hs Hlo]. apply negb_false_iff in Hs. split_and!; [lia|lia|done|done].
Qed.

Lemma same_job_iff e id caller : same_job e id caller = true ↔ en_jobId e = id ∧ en_caller e = caller.
Proof.
  unfold same_job. destruct (en_caller e) as [o cb], caller as [o' cb']. rewrite !andb_true_iff, !bool_decide_eq_true.
  cbn. naive_solver.
Qed.

Section waking.
Context {S : Type} `{!Sha256Api} `{!DurableRecordStorePort S} (clock : S → Z * S)
  (view : S → memory) (env : memory → memory → Prop) `{Laws : !DurableStoreLaws view env}
  (Hclock : ∀ s, env (view s) (view (clock s).2)) (this : DocumentDispatcher).
Context (Henv : ∀ m m', env m m' → family_env m m').
Notation moves := (moves view).

Lemma moves_throwIfAborted K signal (Q : unit → memory → Prop) :
  (∀ m, K m → Q tt m) → moves K (throwIfAborted signal) Q.
Proof.
  intros HQ s _ Hs. unfold wp, throwIfAborted. cbn. split; [apply family_env_refl|].
  destruct signal as [aborted|]; [destruct (aborted s)|]; auto.
Qed.

Lemma moves_read_now K : moves K (read_now clock) (λ _ _, True).
Proof.
  apply (moves_elsewhere view env K (read_now clock) (λ _, True)); [exact Henv|..]; intros s; unfold read_now;
    pose proof (Hclock s) as Hq; by destruct (clock s).
Qed.

Lemma moves_wake_loop K n r e now next signal :
  stable K → dispatch_key (rec_key r) → (∀ m, K m → known r m) → check_entry e = Ok tt → en_phase e = scheduled →
  moves K (wake_loop n r e now next signal) (λ _ _, True).
Proof.
  revert K r. induction n as [|n IH]; intros K r HK Hk Hr Hc Hp; [apply moves_throw|]. cbn [wake_loop].
  eapply moves_bind; [done|apply (moves_throwIfAborted K signal (λ _ _, True)); done|]. intros [].
  apply moves_forget, moves_lift_bind. intros e0 Hd. apply moves_lift_bind. intros [] Hsame%throw_if_Ok.
  apply negb_false_iff, same_job_iff in Hsame as [Hid Hcl].
  destruct (_ || _) eqn:Hgo; [by apply moves_ret|]. apply orb_false_iff in Hgo as [Hl Hdue]. reflect.
  eapply moves_bind; [done|eapply (fam_moves_cas view env Henv K r); [exact Hr|exact I|]|].
  - exists e0, e. split_and!; [done|by apply decode_entry|by split; congruence|done|done|].
    intros Hs. rewrite bool_decide_true in Hdue by done. unfold due_by in Hdue. unfold earlier. cbn.
    rewrite Z.div_1_r. destruct (rec_expiresAt r); [|done]. cbn in Hdue. lia.
  - intros [r'|r'|]; [by apply moves_ret| |apply moves_throw].
    apply (moves_pure view _ (rec_key r' = rec_key r)); [by intros m (_ & ? & _)|]. intros Hkey.
    apply IH; [auto with groundlane|by rewrite Hkey|by intros m (_ & _ & ? & _)|done|done].
Qed.

Lemma moves_enqueue K id caller next signal :
  stable K → moves K (enqueue clock this id caller next signal) (λ _ _, True).
Proof.
  intros HK. eapply moves_bind; [done|apply moves_read_now|]. intros t. apply moves_forget.
  apply moves_lift_bind. intros now _. apply moves_lift_bind. intros at_ _. apply moves_lift_bind. intros [] Hc.
  eapply moves_bind; [done|apply (moves_throwIfAborted K signal (λ _ _, True)); done|]. intros [].
  apply moves_forget, moves_lift_bind. intros key Hk%entryKey_dispatch.
  eapply moves_bind; [done|by eapply fam_moves_create|]. intros [r|r]; [by apply moves_ret|].
  apply (moves_pure view _ (rec_key r = key)); [by intros m (_ & ? & _)|]. intros Hkey.
  apply moves_wake_loop; [auto with groundlane|by rewrite Hkey|by intros m (_ & _ & ?)|done|done].
Qed.
End waking.

(** *** Any wakeups *)

Record wakeup := {
  wk_jobId : string;
  wk_caller : DurableDocumentJobCaller;
  wk_nextAttemptAt : option number
}.

Section wakeups.
Context {S : Type} `{!Sha256Api} `{!DurableRecordStorePort S} (clock : S → Z * S) (this : DocumentDispatcher)
  (view : S → memory) (env : memory → memory → Prop).

Fixpoint wake_all (ws : list wakeup) : M S unit :=
  match ws with
  | [] => mret tt
  | w :: ws' => ignore (enqueue clock this (wk_jobId w) (wk_caller w) (wk_nextAttemptAt w) None);; wake_all ws'
  end.

Lemma moves_wake_all `{Laws : !DurableStoreLaws view env} ws :
  (∀ s, env (view s) (view (clock s).2)) → (∀ m m', env m m' → family_env m m') →
  moves view (λ _, True) (wake_all ws) (λ _ _, True).
Proof.
  intros Hclock Henv. induction ws as [|w ws IH]; [by apply moves_ret|]. cbn [wake_all].
  eapply moves_bind with (Q := λ _ _, True); [apply stable_const| |intros _; by apply moves_forget].
  eapply moves_ignore, (moves_enqueue clock view env Hclock this Henv), stable_const.
Qed.

(** C36: wakeups never take a lease away and never delay what is scheduled:
    among any wakeups, by this worker and others, and whatever calls fail, the
    record of a leased job stays as it is, and one that is scheduled or idle
    is kept or becomes scheduled for the same job and caller, earlier than it
    was. *)
Theorem wakeups_never_steal_or_delay ws s key r e :
  DurableStoreLaws view env → (∀ s, env (view s) (view (clock s).2)) →
  (∀ m m', env m m' → family_env m m') → family_good (view s) →
  dispatch_key key → map_get key (view s) = Some r → decode r = Ok e →
  ∃ r', map_get key (view (wake_all ws s).2) = Some r' ∧
    (r' = r ∨
     (revision r < revision r')%Z ∧ en_phase e ≠ leased ∧ (en_phase e = scheduled → earlier r r') ∧
     ∃ e', decode r' = Ok e' ∧ same_entry_job e e' ∧ en_phase e' = scheduled).
Proof.
  intros Laws Hclock Henv Hg Hk Hr Hd. destruct (moves_wake_all ws Hclock Henv s Hg I) as [[He _] _].
  destruct (fam_evolve_records _ _ He key r Hk Hr) as (r' & Hr' & Hev). exists r'. split; [done|].
  destruct Hev as [->|[Hlt (e0 & e' & D & D' & Hid & Hl & Hp & Hs)]]; [by left|right].
  rewrite Hd in D. injection D as <-. split_and!; [done..|]. by exists e'.
Qed.
End wakeups.

(** *** What a wakeup achieves *)

Definition all_keyed (m : memory) : Prop := ∀ k r, map_get k m = Some r → rec_key r = k.

(** The record has the job leased, or scheduled to be due by [next]. *)
Definition due_for (id : string) (caller : DurableDocumentJobCaller) (next : Z) (r : DurableRecord) : Prop :=
  ∃ e, decode r = Ok e ∧ en_jobId e = id ∧ en_caller e = caller ∧
    (en_phase e = leased ∨ en_phase e = scheduled ∧ due_by r next = true).

Section due.
Context {S : Type} `{!Sha256Api} `{!DurableRecordStorePort S} (clock : S → Z * S)
  (view : S → memory) (env : memory → memory → Prop) `{Laws : !DurableStoreLaws view env}
  (Hkeyed : ∀ m m', env m m' → all_keyed m → all_keyed m').

(** The record under [key] at an instant between [m1] and [m2]. *)
Definition there (key : string) (r : DurableRecord) (m1 m2 : memory) : Prop :=
  ∃ m, env m1 m ∧ map_get key m = Some r ∧ env m m2.

Lemma decode_due e r next :
  decode r = Ok e → bool_decide (en_phase e = leased) || bool_decide (en_phase e = scheduled) && due_by r next = true →
  due_for (en_jobId e) (en_caller e) next r.
Proof.
  intros Hd Hgo. exists e. split_and!; [done..|]. apply orb_true_iff in Hgo as [Hl|Hs]; [left|right]; by reflect.
Qed.

Lemma wp_wake_loop key n r e now next signal m1 s :
  rec_key r = key → there key r m1 (view s) → all_keyed m1 → check_entry e = Ok tt → en_phase e = scheduled →
  wp (wake_loop n r e now next signal)
    (λ o s', o = Ok tt → ∃ r', due_for (en_jobId e) (en_caller e) next r' ∧
       (there key r' m1 (view s') ∨ map_get key (view s') = Some r')) s.
Proof.
  intros Hkey Hat Hm1 Hc Hp. revert r s Hkey Hat. induction n as [|n IH]; intros r s Hkey Hat; [by apply wp_throw|].
  cbn [wake_loop]. apply wp_bind. unfold wp at 1, throwIfAborted. cbn [fst snd].
  destruct (match signal with Some aborted => _ | None => _ end) as [[]|err]; [|done].
  apply wp_lift_bind; [|done]. intros e0 Hd. apply wp_lift_bind; [|done]. intros [] Hsame%throw_if_Ok.
  apply negb_false_iff, same_job_iff in Hsame as [Hid Hcl].
  destruct (_ || _) eqn:Hgo.
  { apply wp_ret. intros _. exists r. split; [|by left]. rewrite <- Hid, <- Hcl. by apply decode_due. }
  apply wp_bind. eapply (wp_atomic view env); [apply cas_atomic|intros m s' He Hv|done].
  destruct Hat as (m0 & E0 & G0 & F0).
  assert (Em : env m1 m) by (eapply (env_trans (view := view)); [|exact He]; by eapply (env_trans (view := view))).
  assert (Hr' : ∀ x, map_get key m = Some x → rec_key x = key) by (intros x; by apply (Hkeyed _ _ Em Hm1)).
  match goal with |- context [mem_compareAndSwap _ _ ?u m] =>
    destruct (mem_cas_spec (rec_key r) (revision r) u m) as [[Hm Hres]|(x & Hx & _ & Hm & Hres)] end;
    rewrite Hm in Hv.
  - destruct Hres as [[err ->]|[[_ ->]|(x & Hx & _ & ->)]]; [done|by apply wp_throw|].
    rewrite Hkey in Hx. apply IH; [by apply Hr'|]. exists m. split_and!; [done..|].
    rewrite Hv. apply (env_refl (view := view)).
  - rewrite Hres. apply wp_ret. intros _. eexists. split; [|right; rewrite Hv, Hkey; apply map_get_set_eq].
    exists e. split_and!; [by apply decode_entry|done|done|right]. split; [done|].
    unfold due_by. cbn. rewrite Z.div_1_r. lia.
Qed.

(** The time by which the job is to be due: as asked for, or right away. *)
Definition asked_for (next : option number) (t time : Z) : Prop :=
  (t < time)%Z ∧ match next with Some x => time = to_Z x | None => time = (t + 1)%Z end.

Definition woken_between (id : string) (caller : DurableDocumentJobCaller) (time : Z) (m1 m2 : memory) : Prop :=
  ∃ key r, entryKey id = Ok key ∧ due_for id caller time r ∧ (there key r m1 m2 ∨ map_get key m2 = Some r).

Lemma wp_enqueue this id caller next signal s :
  (∀ s, env (view s) (view (clock s).2)) → all_keyed (view s) →
  wp (enqueue clock this id caller next signal) (λ o s', o = Ok tt →
    ∃ time, asked_for next (clock s).1 time ∧ woken_between id caller time (view s) (view s')) s.
Proof.
  intros Hclock Hk. unfold enqueue. apply wp_bind. unfold wp at 1, read_now.
  pose proof (Hclock s) as Hq. destruct (clock s) as [t s1]. cbn [fst snd] in *.
  apply wp_lift_bind; [|done]. intros now (_ & _ & Hnow)%integer_Ok. rewrite to_Z_int in Hnow. subst now.
  apply wp_lift_bind; [|done]. intros time (Hlo & _ & Htime)%integer_Ok.
  apply wp_lift_bind; [|done]. intros [] Hc. apply wp_bind. unfold wp at 1, throwIfAborted. cbn [fst snd].
  destruct (match signal with Some aborted => _ | None => _ end) as [[]|err]; [|done].
  apply wp_lift_bind; [|done]. intros key Hkey.
  assert (Hask : asked_for next t time).
  { split; [lia|]. destruct next; [done|]. cbn in Htime. by rewrite Z.div_1_r in Htime. }
  apply wp_bind. eapply (wp_atomic view env); [apply create_atomic|intros m s' He Hv|done].
  assert (Em : env (view s) m) by (by eapply (env_trans (view := view))).
  match goal with |- context [mem_createIfAbsent ?i m] =>
    destruct (mem_create_spec i m) as [[Hm Hres]|(_ & Hm & Hres)] end; rewrite Hm in Hv.
  - destruct Hres as [[err ->]|(r & Hr & ->)]; [done|]. cbn [new_key] in Hr.
    eapply wp_mono; [apply (wp_wake_loop key 8 r (new_entry id caller) t time signal (view s));
      [by apply (Hkeyed _ _ Em Hk)| |done..]|].
    + exists m. split_and!; [done..|]. rewrite Hv. apply (env_refl (view := view)).
    + intros o s2 Hq2 Ho. destruct (Hq2 Ho) as (r' & Hd & Hat). exists time. split; [done|]. by exists key, r'.
  - rewrite Hres. apply wp_ret. intros _. exists time. split; [done|]. exists key. eexists. split; [done|].
    split; [|right; rewrite Hv; apply map_get_set_eq].
    exists (new_entry id caller). split_and!; [by apply decode_entry|done|done|right]. split; [done|].
    unfold due_by. cbn. rewrite Z.div_1_r. lia.
Qed.

(** C35: when a wakeup returns, then at an instant of the call the job's record
    had it leased, or scheduled to be due no later than was asked for, for
    this job and caller: whatever others do, drains included. *)
Theorem enqueued_job_is_due this id caller next signal s s' :
  (∀ s, env (view s) (view (clock s).2)) → all_keyed (view s) →
  enqueue clock this id caller next signal s = (Ok tt, s') →
  ∃ time, asked_for next (clock s).1 time ∧ woken_between id caller time (view s) (view s').
Proof. intros Hclock Hk Hrun. exact (wp_run _ _ _ _ _ (wp_enqueue this id caller next signal s Hclock Hk) Hrun eq_refl). Qed.
End due.

(** ** Drains *)

Section draining.
Context {S : Type} `{!Sha256Api} `{!DurableRecordStorePort S} (clock : S → Z * S)
  (randomUUID : S → string * S) (this : DocumentDispatcher) (runtime : DocumentDispatchRuntime S).

(** Every lease was an attempt, and came to one end. *)
Definition balanced (r : DocumentDispatchDrainResult) : Prop :=
  dr_claimed r = (dr_advanced r + dr_failed r)%Z ∧
  dr_claimed r = (dr_rescheduled r + dr_idle r + dr_leaseLost r)%Z.

(** What [n] more records can add to the counts. *)
Definition counted (n : nat) (r r' : DocumentDispatchDrainResult) : Prop :=
  dr_scanned r' = dr_scanned r ∧ dr_nextCursor r' = dr_nextCursor r ∧ (balanced r → balanced r') ∧
  (dr_claimed r + dr_malformed r <= dr_claimed r' + dr_malformed r' <= dr_claimed r + dr_malformed r + Z.of_nat n)%Z ∧
  (dr_malformed r <= dr_malformed r')%Z ∧ (dr_claimed r <= dr_claimed r')%Z.

Lemma wp_any {A B} (c : M S A) (f : A → M S B) Q s :
  (∀ a s', wp (f a) Q s') → (∀ e s', Q (Throw e) s') → wp (c ≫= f) Q s.
Proof. intros Hf He. apply wp_bind. unfold wp. destruct (c s) as [[a|e] s']; cbn; [apply Hf|apply He]. Qed.

Ltac count := unfold counted, balanced; cbn; split_and!; try done; first [lia|by intros []; split; lia].

Lemma wp_work_on record entry now r s :
  wp (work_on clock randomUUID this runtime record entry now r)
    (λ o _, ∀ r', o = Ok r' → counted 1 r r' ∧ dr_malformed r' = dr_malformed r) s.
Proof.
  unfold work_on. apply wp_any; [intros token s1|done].
  apply wp_any; [intros leasing s2|done].
  destruct leasing as [held|x|]; [|(apply wp_ret; intros r' [= <-]; count)..].
  apply wp_any; [intros [[d next] failures] s3|done]. apply wp_any; [intros t s4|done].
  apply wp_any; [intros changed s5|done]. apply wp_ret. intros r' [= <-].
  destruct d, changed, next; count.
Qed.

Lemma counted_trans n1 n2 r1 r2 r3 : counted n1 r1 r2 → counted n2 r2 r3 → counted (n1 + n2) r1 r3.
Proof. unfold counted. intros (? & ? & ? & ? & ? & ?) (? & ? & ? & ? & ? & ?). split_and!; [congruence..|auto|lia|lia|lia|lia]. Qed.

Lemma wp_consume_records records now signal r s :
  wp (consume clock randomUUID this runtime records now signal r)
    (λ o _, ∀ r', o = Ok r' → counted (length records) r r') s.
Proof.
  revert r s. induction records as [|record records IH]; intros r s; cbn [consume].
  - apply wp_any; [intros [] s1|done]. apply wp_ret. intros r' [= <-]. count.
  - apply wp_any; [intros [] s1|done]. apply wp_bind.
    apply (wp_mono _ (λ o _, ∀ r', o = Ok r' → counted 1 r r')).
    + destruct (due_entry record) as [entry|e].
      * eapply wp_mono; [apply wp_work_on|]. intros o s2 Ho r' Hr'. by apply Ho.
      * apply wp_ret. intros r' [= <-]. count.
    + intros [r1|e] s2 H1; [|done]. eapply wp_mono; [apply IH|]. intros o s3 H2 r' Hr'.
      apply (counted_trans 1 _ r r1); [by apply H1|by apply H2].
Qed.

(** a drain accounts for what it scanned: every record it claimed was
    attempted once, advancing the job or failing, and then was rescheduled, set
    idle, or lost to another worker; with the malformed ones that is no more
    than was scanned, which is at most the limit that was asked for when the
    store keeps to it. *)
Theorem drain_accounts_for_claims nowMs limit concurrency signal s r s' :
  drain clock randomUUID this runtime nowMs limit concurrency signal s = (Ok r, s') →
  dr_claimed r = (dr_advanced r + dr_failed r)%Z ∧
  dr_claimed r = (dr_rescheduled r + dr_idle r + dr_leaseLost r)%Z ∧
  (0 <= dr_claimed r)%Z ∧ (0 <= dr_malformed r)%Z ∧ (dr_claimed r + dr_malformed r <= dr_scanned r)%Z.
Proof.
  enough (Hwp : wp (drain clock randomUUID this runtime nowMs limit concurrency signal) (λ o _, ∀ r, o = Ok r →
    balanced r ∧ (0 <= dr_claimed r)%Z ∧ (0 <= dr_malformed r)%Z ∧ (dr_claimed r + dr_malformed r <= dr_scanned r)%Z) s).
  { intros Hrun. destruct (wp_run _ _ _ _ _ Hwp Hrun r eq_refl) as ([H1 H2] & H3 & H4 & H5). by split_and!. }
  unfold drain. apply wp_any; [intros t s1|done]. apply wp_lift_bind; [intros now _|done].
  apply wp_lift_bind; [intros n _|done]. apply wp_lift_bind; [intros c _|done]. apply wp_any; [intros [] s2|done].
  apply wp_any; [intros found s3|done]. apply wp_any; [intros page s4|done]. apply wp_bind.
  eapply wp_mono; [apply wp_consume_records|]. intros [r1|e] s5 Hr1; [|done].
  apply wp_any; [intros [] s6|done]. apply wp_ret. intros r2 [= <-].
  destruct (Hr1 r1 eq_refl) as (Hs & _ & Hb & Hle & Hm & Hc). cbn in *. split_and!; [|lia..]. by apply Hb.
Qed.
End draining.

(** ** A store shared with others *)

Module DispatchDemo.
#[export] Instance digest : Sha256Api := zero_digest.
#[export] Instance port (env : memory → memory → Prop) : DurableRecordStorePort (SharedStore env) :=
  shared_port (λ _ _, 0%Z).
Definition keyed_env (m m' : memory) : Prop := all_keyed m → all_keyed m'.
Definition any (m m' : memory) : Prop := True.

Definition clock_at {S} (t : Z) (s : S) : Z * S := (t, s).
Definition uuids {S} (s : S) : string * S := ("token"%string, s).
Definition caller : DurableDocumentJobCaller := DurableDocumentJobs.Build_DurableDocumentJobCaller "tenant" "cred".
Definition this : DocumentDispatcher :=
  {| attemptTimeoutMs := 120000; leaseMs := 130000; pollIntervalMs := 5000; maxBackoffMs := 300000 |}.
Definition disposition (status : string) : DispatchDisposition :=
  {| di_status := status; di_expiresAt := 0; di_resultCleanupPending := false; di_upstreamRequested := false;
     di_upstreamAcknowledged := false |}.
Definition runtime {S} (status : string) : DocumentDispatchRuntime S :=
  {| rt_advance _ _ := mret tt; rt_status _ _ := mret (disposition status) |}.

Definition empty (env : memory → memory → Prop) : SharedStore env := {| contents := []; turns := [] |}.
Definition waiting (env : memory → memory → Prop) : SharedStore env :=
  (enqueue (clock_at 1000) this "job" caller (Some (int 9000)) None (empty env)).2.
Definition the_record (m : memory) : DurableRecord :=
  match m with (_, r) :: _ => r | [] => Build_DurableRecord "" "" 0 0 0 None end.
Definition phase_of (m : memory) : option Phase :=
  match decode (the_record m) with Ok e => Some (en_phase e) | Throw _ => None end.
Definition drain_at (t : Z) (status : string) : M (SharedStore any) DocumentDispatchDrainResult :=
  drain (clock_at t) uuids this (runtime status) None None None None.

(** A failed job is not looked at again; a running one is, after the interval. *)
Example dispatch_demo_runs :
  phase_of (contents (drain_at 9500 "failed" (waiting any)).2) = Some idle ∧
  phase_of (contents (drain_at 9500 "running" (waiting any)).2) = Some scheduled ∧
  phase_of (contents (drain_at 8500 "failed" (waiting any)).2) = Some scheduled.
Proof. split_and!; vm_compute; reflexivity. Qed.

Lemma keyed_laws : DurableStoreLaws (contents (env := keyed_env)) keyed_env.
Proof. apply shared_store_laws; [by intros m Hm|]. intros m1 m2 m3 H12 H23 H1. by apply H23, H12. Qed.

Lemma wake_laws : DurableStoreLaws (contents (env := family_env)) family_env.
Proof. apply shared_store_laws; [apply family_env_refl|apply family_env_trans]. Qed.

Lemma waiting_good : family_good (contents (waiting family_env)).
Proof.
  assert (Hg : family_good (contents (empty family_env))) by (split; [by split|]; by intros ? ? ? ? ?).
  destruct (moves_enqueue (clock_at 1000) contents family_env (Laws := wake_laws) (λ s, family_env_refl _) this
    (λ m m' He, He) (λ _, True) "job" caller (Some (int 9000)) None (stable_const True) (empty family_env) Hg I) as [He _].
  exact (family_env_good _ _ He Hg).
Qed.

(** A wakeup by another worker while the drain holds the lease. *)
Definition wake (m : memory) : memory :=
  contents (enqueue (clock_at 9600) this "job" caller None None {| contents := m; turns := [] : list (turn any) |}).2.
Definition pass : turn any := Build_turn any (λ m, m) (λ _, I) None.
Definition waking : turn any := Build_turn any wake (λ _, I) None.
(** Its turn comes between the lease and the release. *)
Definition racing : SharedStore any :=
  {| contents := contents (waiting any); turns := [pass; pass; pass; waking] |}.
(** What it finds then. *)
Definition held : SharedStore any :=
  {| contents := (ds_compareAndSwap (rec_key (the_record (contents (waiting any)))) 1
       {| upd_value := entry_text (with_lease (new_entry "job" caller) "token"); upd_nowMs := int 9500;
          upd_expiresAt := Some (int 139500) |} (waiting any)).2.(contents); turns := [] |}.
End DispatchDemo.

#[local] Existing Instances DispatchDemo.digest DispatchDemo.port.

(** A wakeup that meets a lease is acknowledged and forgotten: when the worker
    with the lease already knows that nothing is left to do, the job goes idle. *)
Theorem wakeup_during_lease_is_dropped :
  (enqueue (DispatchDemo.clock_at 9600) DispatchDemo.this "job" DispatchDemo.caller None None DispatchDemo.held).1 = Ok tt ∧
  DispatchDemo.phase_of (contents (DispatchDemo.drain_at 9500 "failed" DispatchDemo.racing).2) = Some idle.
Proof. vm_compute. split; reflexivity. Qed.

Lemma wakeups_never_steal_or_delay_witness :
  ∃ r', map_get (rec_key (DispatchDemo.the_record (contents (DispatchDemo.waiting family_env))))
    (contents (wake_all (DispatchDemo.clock_at 2000) DispatchDemo.this
      [{| wk_jobId := "job"; wk_caller := DispatchDemo.caller; wk_nextAttemptAt := None |}]
      (DispatchDemo.waiting family_env)).2) = Some r'.
Proof.
  destruct (wakeups_never_steal_or_delay (DispatchDemo.clock_at 2000) DispatchDemo.this contents family_env
    [{| wk_jobId := "job"; wk_caller := DispatchDemo.caller; wk_nextAttemptAt := None |}]
    (DispatchDemo.waiting family_env) (rec_key (DispatchDemo.the_record (contents (DispatchDemo.waiting family_env))))
    (DispatchDemo.the_record (contents (DispatchDemo.waiting family_env)))
    (new_entry "job" DispatchDemo.caller) DispatchDemo.wake_laws (λ s, family_env_refl _) (λ m m' He, He)
    DispatchDemo.waiting_good) as (r' & Hr' & _); [vm_compute; reflexivity..|].
  exists r'. exact Hr'.
Defined.

Definition demo_wakeup := enqueue (DispatchDemo.clock_at 1000) DispatchDemo.this "job" DispatchDemo.caller
  (Some (int 9000)) None (DispatchDemo.empty DispatchDemo.keyed_env).

Lemma enqueued_job_is_due_witness :
  ∃ time, asked_for (Some (int 9000)) 1000 time ∧
    woken_between DispatchDemo.keyed_env "job" DispatchDemo.caller time [] (contents demo_wakeup.2).
Proof.
  refine (enqueued_job_is_due (DispatchDemo.clock_at 1000) contents DispatchDemo.keyed_env
    (Laws := DispatchDemo.keyed_laws) (λ m m' He, He) DispatchDemo.this "job" DispatchDemo.caller (Some (int 9000)) None
    (DispatchDemo.empty DispatchDemo.keyed_env) demo_wakeup.2 (λ s Hs, Hs) _ _).
  - by intros k r.
  - apply injective_projections; [vm_compute; reflexivity|reflexivity].
Defined.

Definition demo_drain := DispatchDemo.drain_at 9500 "failed" (DispatchDemo.waiting DispatchDemo.any).
Definition demo_counts : DocumentDispatchDrainResult :=
  match demo_drain.1 with Ok r => r | Throw _ => Build_DocumentDispatchDrainResult 0 0 0 0 0 0 0 0 None end.

Lemma drain_accounts_for_claims_witness :
  dr_claimed demo_counts = (dr_advanced demo_counts + dr_failed demo_counts)%Z ∧ dr_claimed demo_counts = 1%Z.
Proof.
  destruct (drain_accounts_for_claims (DispatchDemo.clock_at 9500) DispatchDemo.uuids DispatchDemo.this
    (DispatchDemo.runtime "failed") None None None None (DispatchDemo.waiting DispatchDemo.any) demo_counts demo_drain.2)
    as [Hc _]; [apply injective_projections; [vm_compute; reflexivity|reflexivity]|].
  split; [exact Hc|vm_compute; reflexivity].
Defined.
