(* ===== verification/DocumentResultText.v ===== *)
(** * Pages of a stored projection

    [src/core/document-result-text.ts]: one page of the text of a saved
    document, as long as the limits allow, and the theorem that following the
    pages reads the whole text.  A code point is a code unit of the model's
    strings. *)

From S2P Require Import Prelude JsString Json.
From S2P Require ContentPagination.

(** ** Data *)

Inductive ProjectionKind := markdown | text | structured | all_kinds.
Inductive ExtractionStatus := success | partial | unsupported | failed | unknown.

Record StoredProjection := {
  sp_kind : ProjectionKind;
  sp_content : string;
  sp_lossy : bool;
  sp_omissions : list string;
  sp_warnings : list string
}.

(** What pages of one projection have in common. *)
Record PageContext := {
  cx_refId : string;
  cx_contentHash : string;
  cx_status : ExtractionStatus;
  cx_maxContentChars : Z
}.

Record DocumentTextPage := {
  tp_context : PageContext;
  tp_content : string;
  tp_kind : ProjectionKind;
  tp_contentOffset : Z;
  tp_nextContentOffset : option Z;
  tp_totalContentChars : Z;
  tp_lossy : bool;
  tp_omissions : list string;
  tp_warnings : list string;
  tp_metadataTruncated : bool
}.

Definition kind_name (k : ProjectionKind) : string :=
  match k with markdown => "markdown" | text => "text" | structured => "structured" | all_kinds => "all" end.
Definition status_name (s : ExtractionStatus) : string :=
  match s with success => "success" | partial => "partial" | unsupported => "unsupported" | failed => "failed"
  | unknown => "unknown" end.

(** The instruction and the next action go with the next offset. *)
Definition instruction (next : option Z) : string :=
  match next with
  | None => "End of saved projection; this does not certify complete extraction of the source."
  | Some _ => "Follow nextAction until nextContentOffset is null. This page is not the full saved projection."
  end.

Definition next_action (cx : PageContext) (next : option Z) : list (string * js_value) :=
  match next with
  | None => []
  | Some n =>
      [("nextAction", JObj [("tool", JStr "document_result_read_text");
          ("arguments", JObj [("refId", JStr (cx_refId cx)); ("contentOffset", JNum n);
                              ("maxContentChars", JNum (cx_maxContentChars cx))])])]%string
  end.

Definition page_json (p : DocumentTextPage) : js_value :=
  JObj ([("refId", JStr (cx_refId (tp_context p))); ("content", JStr (tp_content p));
         ("projectionKind", JStr (kind_name (tp_kind p))); ("contentOffset", JNum (tp_contentOffset p));
         ("nextContentOffset", match tp_nextContentOffset p with Some n => JNum n | None => JNull end);
         ("totalContentChars", JNum (tp_totalContentChars p));
         ("contentHash", JStr (cx_contentHash (tp_context p)));
         ("extractionStatus", JStr (status_name (cx_status (tp_context p))));
         ("lossy", JBool (tp_lossy p)); ("omissions", JArr (map JStr (tp_omissions p)));
         ("warnings", JArr (map JStr (tp_warnings p)));
         ("metadataTruncated", JBool (tp_metadataTruncated p));
         ("instruction", JStr (instruction (tp_nextContentOffset p)))]%string
        ++ next_action (tp_context p) (tp_nextContentOffset p)).

(** [JSON.stringify({ ok: true, data: page }).length] *)
Definition response_length (p : DocumentTextPage) : Z :=
  Z.of_nat (length (json_text (JObj [("ok", JBool true); ("data", page_json p)]%string))).

(** ** Pagination *)

Definition text_error (code : ErrorCode) (message : string) : thrown :=
  gerror code "document_result_read_text" message false.
Definition range_invalid : thrown := text_error INVALID_INPUT "Document text range is invalid".

Definition bad_range (contentOffset maxContentChars maxOutputChars : number) : bool :=
  negb (isSafeInteger contentOffset) || (to_Z contentOffset <? 0)%Z ||
  negb (isSafeInteger maxContentChars) || (to_Z maxContentChars <? 1)%Z || (50000 <? to_Z maxContentChars)%Z ||
  negb (isSafeInteger maxOutputChars) || (to_Z maxOutputChars <? 1)%Z.

(** At most three values of at most 120 characters. *)
Definition boundMetadata (values : list string) : list string := map (slice_to 120) (take 3 values).

Definition bounded_differs (values : list string) : bool := negb (bool_decide (boundMetadata values = values)).

(** Omissions, warnings, and whether either was cut. *)
Abbreviation metadata := (list string * list string * bool)%type.

Definition build (cx : PageContext) (p : StoredProjection) (meta : metadata) (offset len : Z) : DocumentTextPage :=
  let cs := chars (sp_content p) in
  let total := Z.of_nat (length cs) in
  let end_ := (offset + len)%Z in
  {| tp_context := cx; tp_content := unchars (ContentPagination.slice_chars offset end_ cs); tp_kind := sp_kind p;
     tp_contentOffset := offset; tp_nextContentOffset := if (end_ <? total)%Z then Some end_ else None;
     tp_totalContentChars := total; tp_lossy := sp_lossy p; tp_omissions := meta.1.1; tp_warnings := meta.1.2;
     tp_metadataTruncated := meta.2 |}.

Definition paginateDocumentProjection (refId contentHash : string) (p : StoredProjection)
    (contentOffset maxContentChars maxOutputChars : number) (status : ExtractionStatus)
    : result DocumentTextPage :=
  throw_if (bad_range contentOffset maxContentChars maxOutputChars) range_invalid;;
  let offset := to_Z contentOffset in
  let total := Z.of_nat (length (chars (sp_content p))) in
  throw_if (total <? offset)%Z range_invalid;;
  let cx := {| cx_refId := refId; cx_contentHash := contentHash; cx_status := status;
               cx_maxContentChars := to_Z maxContentChars |} in
  let bounded := (boundMetadata (sp_omissions p), boundMetadata (sp_warnings p),
                  bounded_differs (sp_omissions p) || bounded_differs (sp_warnings p)) in
  let fits meta len := (response_length (build cx p meta offset len) <=? to_Z maxOutputChars)%Z in
  let high := Z.min (to_Z maxContentChars) (total - offset) in
  if fits bounded high then Ok (build cx p bounded offset high)
  else
    let minimum := if (offset <? total)%Z then 1%Z else 0%Z in
    let meta := if fits bounded minimum then bounded
                else ([], [], bounded.2 || negb (bool_decide (bounded.1.1 = [])) ||
                              negb (bool_decide (bounded.1.2 = []))) in
    if fits meta high then Ok (build cx p meta offset high)
    else
      throw_if (negb (fits meta minimum))
        (text_error OUTPUT_LIMIT "Document text response metadata exceeds the configured output limit");;
      Ok (build cx p meta offset
            (ContentPagination.search_fit (fits meta) (Z.to_nat (high - minimum)) minimum high)).

(** A client that follows the next offsets, for at most [fuel] pages. *)
Fixpoint read_all (fuel : nat) (refId contentHash : string) (p : StoredProjection)
    (maxContentChars maxOutputChars : number) (status : ExtractionStatus) (offset : Z)
    : option (result (list DocumentTextPage)) :=
  match fuel with
  | O => None
  | S fuel' =>
      match paginateDocumentProjection refId contentHash p (int offset) maxContentChars maxOutputChars status with
      | Throw e => Some (Throw e)
      | Ok page =>
          match tp_nextContentOffset page with
          | None => Some (Ok [page])
          | Some next =>
              rest ← read_all fuel' refId contentHash p maxContentChars maxOutputChars status next;
              Some (pages ← rest; Ok (page :: pages))
          end
      end
  end.

(** ** A page is the text at its offset, within its limits *)

Definition page_of (p : StoredProjection) (maxContent maxOut offset : Z) (page : DocumentTextPage) : Prop :=
  let cs := chars (sp_content p) in
  ∃ len, (0 <= len <= maxContent)%Z ∧ (offset + len <= Z.of_nat (length cs))%Z ∧
    ((offset < Z.of_nat (length cs))%Z → (0 < len)%Z) ∧
    chars (tp_content page) = ContentPagination.slice_chars offset (offset + len) cs ∧
    tp_contentOffset page = offset ∧
    tp_nextContentOffset page = (if (offset + len <? Z.of_nat (length cs))%Z then Some (offset + len)%Z else None) ∧
    (response_length page <= maxOut)%Z.

Lemma build_page cx p meta offset len maxContent maxOut :
  (0 <= offset)%Z → (0 <= len <= maxContent)%Z → (offset + len <= Z.of_nat (length (chars (sp_content p))))%Z →
  ((offset < Z.of_nat (length (chars (sp_content p))))%Z → (0 < len)%Z) →
  (response_length (build cx p meta offset len) <=? maxOut)%Z = true →
  page_of p maxContent maxOut offset (build cx p meta offset len).
Proof.
  intros Ho Hl Hle Hpos Hfit. exists len. split_and!; [lia|lia|done|done| |done|done|lia].
  cbn. by rewrite chars_unchars.
Qed.

Lemma paginate_page refId hash p off maxContent maxOut status page :
  paginateDocumentProjection refId hash p off maxContent maxOut status = Ok page →
  (0 <= to_Z off)%Z ∧ page_of p (to_Z maxContent) (to_Z maxOut) (to_Z off) page.
Proof.
  intros ([] & Hr%throw_if_Ok & ([] & Ho%throw_if_Ok & Hp)%result_bind_Ok)%result_bind_Ok.
  unfold bad_range in Hr. repeat rewrite orb_false_iff in Hr. destruct Hr as [[[[[[_ H0] _] H1] H2] _] _].
  set (total := Z.of_nat (length (chars (sp_content p)))) in *.
  assert (Hhigh : (0 <= Z.min (to_Z maxContent) (total - to_Z off) <= to_Z maxContent)%Z) by lia.
  split; [lia|]. revert Hp. cbv zeta.
  set (cx := Build_PageContext refId hash status (to_Z maxContent)).
  set (bounded := (boundMetadata _, _, _)). set (high := Z.min _ _) in *.
  match goal with |- (if ?b then _ else _) = _ → _ => destruct b eqn:Hfit end.
  { intros [= <-]. apply build_page; [lia|lia|lia|lia|done]. }
  set (minimum := if (to_Z off <? total)%Z then 1%Z else 0%Z).
  assert (Hmin : (0 <= minimum <= high)%Z ∧ ((to_Z off < total)%Z → (0 < minimum)%Z)).
  { subst minimum high. destruct (to_Z off <? total)%Z eqn:Hlt; lia. }
  set (meta := if (response_length (build cx p bounded (to_Z off) minimum) <=? to_Z maxOut)%Z then bounded else _).
  match goal with |- (if ?b then _ else _) = _ → _ => destruct b eqn:Hfit2 end.
  { intros [= <-]. apply build_page; [lia|lia|lia|lia|done]. }
  intros ([] & Hm%throw_if_Ok & [= <-])%result_bind_Ok. apply negb_false_iff in Hm.
  match goal with |- context [ContentPagination.search_fit ?f ?n ?lo ?hi] =>
    destruct (ContentPagination.search_fit_bounds f n lo hi ltac:(lia)) as [Hb Hf] end.
  apply build_page; [lia|lia|lia|lia|]. destruct Hf as [-> |Hf]; done.
Qed.

Definition page_text (p : DocumentTextPage) : list ascii := chars (tp_content p).

Lemma page_slice (p : StoredProjection) offset len :
  (0 <= offset)%Z → (0 <= len)%Z →
  drop (Z.to_nat offset) (chars (sp_content p)) =
  ContentPagination.slice_chars offset (offset + len) (chars (sp_content p)) ++
  drop (Z.to_nat (offset + len)) (chars (sp_content p)).
Proof. intros. symmetry. by apply ContentPagination.page_slice_drop. Qed.

Lemma read_all_from fuel refId hash p maxContent maxOut status off :
  (0 <= off <= Z.of_nat (length (chars (sp_content p))))%Z →
  (Z.of_nat (length (chars (sp_content p))) - off < Z.of_nat fuel)%Z →
  ∃ r, read_all fuel refId hash p maxContent maxOut status off = Some r ∧
    ∀ pages, r = Ok pages →
      concat (map page_text pages) = drop (Z.to_nat off) (chars (sp_content p)) ∧
      Forall (λ page, (response_length page <= to_Z maxOut)%Z ∧
                      (Z.of_nat (length (page_text page)) <= to_Z maxContent)%Z) pages.
Proof.
  revert off. induction fuel as [|fuel IH]; intros off Ho Hf; [lia|]. cbn [read_all].
  destruct (paginateDocumentProjection _ _ _ _ _ _ _) as [page|e] eqn:Hp; [|by eexists].
  destruct (paginate_page _ _ _ _ _ _ _ _ Hp) as [H0 (len & Hl & Hle & Hpos & Htext & _ & Hnext & Hfit)].
  rewrite to_Z_int in *.
  assert (Hlen : (Z.of_nat (length (page_text page)) <= to_Z maxContent)%Z).
  { unfold page_text. rewrite Htext. pose proof (ContentPagination.length_slice off (off + len) (chars (sp_content p))).
    lia. }
  rewrite Hnext. destruct (_ <? _)%Z eqn:Hlt; reflect.
  - destruct (IH (off + len)%Z ltac:(lia) ltac:(lia)) as (r & -> & Hr). cbn. eexists. split; [done|].
    intros pages. destruct r as [rest|e]; [|done]. intros [= <-]. destruct (Hr rest eq_refl) as [Hc Hall].
    cbn. split; [|by constructor]. rewrite Hc. unfold page_text. rewrite Htext. symmetry. apply page_slice; lia.
  - eexists. split; [done|]. intros pages [= <-]. cbn. split; [|by repeat constructor].
    unfold page_text. rewrite Htext, app_nil_r, (page_slice p off len) by lia.
    rewrite (drop_ge _ (Z.to_nat (off + len))) by lia. by rewrite app_nil_r.
Qed.

(** following the next offsets from the start ends after at most one page
    per character and one, and unless a page is refused the pages, in order,
    are the whole text, each within the limits on its characters and on the
    response. *)
Theorem text_pages_cover_projection refId hash p maxContent maxOut status :
  ∃ r, read_all (Datatypes.S (length (chars (sp_content p)))) refId hash p maxContent maxOut status 0 = Some r ∧
    ∀ pages, r = Ok pages →
      concat (map page_text pages) = chars (sp_content p) ∧
      Forall (λ page, (response_length page <= to_Z maxOut)%Z ∧
                      (Z.of_nat (length (page_text page)) <= to_Z maxContent)%Z) pages.
Proof. by apply (read_all_from _ refId hash p maxContent maxOut status 0); lia. Qed.

Example demo_pages :
  let p := {| sp_kind := markdown; sp_content := "hello world"; sp_lossy := false; sp_omissions := [];
              sp_warnings := ["w"%string] |} in
  match read_all 12 "art_1" "h" p (int 4) (int 2000) success 0 with
  | Some (Ok pages) => map tp_content pages | _ => [] end = ["hell"; "o wo"; "rld"]%string.
Proof. vm_compute. reflexivity. Qed.
