(* ===== verification/DurableDocumentOutput.v ===== *)
(** * Durable document outputs

    [DurableDocumentOutputRuntime] of [src/core/durable-document-output.ts]:
    a document's source and its canonical result, saved as two artifacts, with
    reservations ([OutputIntent]) in a record store of their own that make the
    saves of jobs idempotent.

    Times are integers.  Base64 is the runtime's; an external source port and
    the store of the reservations are optional, as in the constructor. *)

From S2P Require Import Prelude Interference JsString JsMap Digest Json DurableStore DurableArtifacts ExternalOutputs.
From S2P Require DocumentResultText DocumentDispatcher.

Abbreviation strict_object := DocumentDispatcher.strict_object.

(** ** Data *)

Definition MAX_DOCUMENT_OUTPUT_CHUNK_BYTES : Z := 48 * 1024.

Record SaveDurableDocumentOutputInput := {
  so_caller : DurableArtifactCaller;
  so_sourceBytes : bytes;
  so_mimeType : string;
  so_filename : string;
  so_payload : js_value;
  so_sourceExpiresAt : option Z;
  so_externalSourceRef : option string;
  so_operationKey : option string
}.

Record OutputIntent := {
  oi_callerHash : string;
  oi_fingerprint : string;
  oi_sourceRefId : string;
  oi_outputRefId : string;
  oi_sourceHash : string;
  oi_outputHash : string;
  oi_createdAt : Z;
  oi_expiresAt : Z;
  oi_revoked : bool;
  oi_published : bool
}.

#[export] Instance OutputIntent_updatable : Updatable OutputIntent :=
  {| rebuild := λ i, Build_OutputIntent (oi_callerHash i) (oi_fingerprint i) (oi_sourceRefId i)
       (oi_outputRefId i) (oi_sourceHash i) (oi_outputHash i) (oi_createdAt i) (oi_expiresAt i)
       (oi_revoked i) (oi_published i) |}.

Record DurableDocumentOutputRecovery := { rv_refId : string; rv_ready : bool }.

Record DurableDocumentOutputIntentCleanupPage := {
  ip_scanned : Z;
  ip_deleted : Z;
  ip_failures : list string;
  ip_nextCursor : option string
}.

Record ExternalSource := { xs_expiresAt : number; xs_contentHash : string }.

Definition DurableDocumentExternalSourcePort (S : Type) : Type :=
  string → DurableArtifactCaller → AbortSignal S → M S ExternalSource.

Record DurableDocumentOutputChunk := {
  ch_refId : string;
  ch_dataBase64 : string;
  ch_offset : Z;
  ch_nextOffset : option Z;
  ch_totalBytes : Z;
  ch_contentHash : string
}.

Record DurableDocumentOutputRuntime (S : Type) := {
  ttlSeconds : Z;
  externalSources : option (DurableDocumentExternalSourcePort S);
  intents : option (DurableRecordStorePort S)
}.
Arguments ttlSeconds {S} _.
Arguments externalSources {S} _.
Arguments intents {S} _.

(** What is left of a deletion. *)
Record Deletion := { cleanupPending : bool }.

(** ** Errors and digests *)

Definition cancelled_error : thrown := gerror CANCELLED "document-output" "Document output operation was cancelled" false.
Definition output_unavailable : thrown := gerror INVALID_INPUT "document-output" "Document output is unavailable" false.

Definition groundlane_code (e : thrown) : option ErrorCode :=
  match e with TGroundlane g => Some (errCode g) | _ => None end.
Definition is_code (c : ErrorCode) (e : thrown) : bool := bool_decide (groundlane_code e = Some c).

(** The constructor's check. *)
Definition check_ttl (ttl : number) : result unit :=
  throw_if (negb (isSafeInteger ttl) || (to_Z ttl <=? 0)%Z || (2592000 <? to_Z ttl)%Z)
    (gerror INVALID_INPUT "document-output" "Document output TTL is invalid" false).

Definition json_string (v : js_value) : string := unchars (json_text v).

(** ** Reservations *)

Definition intent_json (i : OutputIntent) : js_value :=
  JObj [("callerHash", JStr (oi_callerHash i)); ("fingerprint", JStr (oi_fingerprint i));
        ("sourceHash", JStr (oi_sourceHash i)); ("outputHash", JStr (oi_outputHash i));
        ("outputRefId", JStr (oi_outputRefId i)); ("sourceRefId", JStr (oi_sourceRefId i));
        ("createdAt", JNum (oi_createdAt i)); ("expiresAt", JNum (oi_expiresAt i));
        ("revoked", JBool (oi_revoked i)); ("published", JBool (oi_published i))]%string.

(** [/^art_intent_[a-f0-9]{64}$/], and the same before [_source]. *)
Definition is_intent_ref (s : string) : bool := hex64_after "art_intent_" s.
Definition is_intent_source (s : string) : bool :=
  is_intent_ref (slice_to 75 s) && bool_decide (s = slice_to 75 s +:+ "_source").

Definition intent_fields : list string :=
  ["callerHash"; "fingerprint"; "sourceRefId"; "outputRefId"; "sourceHash"; "outputHash"; "createdAt";
   "expiresAt"; "revoked"; "published"]%string.

(** [z.boolean().default(false)] *)
Definition boolean_or_false (v : js_value) : option bool :=
  match v with JUndefined => Some false | _ => as_boolean v end.

Definition intent_of_json (v : js_value) : option OutputIntent :=
  _ ← strict_object intent_fields v;
  ch ← as_string (prop v "callerHash"); _ ← guard (HASH_RE ch = true);
  fp ← as_string (prop v "fingerprint"); _ ← guard (HASH_RE fp = true);
  sr ← as_string (prop v "sourceRefId"); _ ← guard (is_intent_source sr = true);
  or ← as_string (prop v "outputRefId"); _ ← guard (is_intent_ref or = true);
  sh ← as_string (prop v "sourceHash"); oh ← as_string (prop v "outputHash");
  c ← as_number (prop v "createdAt"); _ ← guard ((0 <=? c)%Z = true);
  e ← as_number (prop v "expiresAt"); _ ← guard ((0 <? e)%Z = true);
  r ← as_boolean (prop v "revoked"); p ← boolean_or_false (prop v "published");
  Some (Build_OutputIntent ch fp sr or sh oh c e r p).

(** [intentSchema.parse(JSON.parse(text))] *)
Definition parse_intent (text : string) : result OutputIntent :=
  v ← JSON_parse text;
  match intent_of_json v with Some i => Ok i | None => Throw TOther end.

Definition intent_key (refId : string) : string := "output-intent:" +:+ refId.

Section runtime.
Context {S : Type} `{!Sha256Api} `{!DurableRecordStorePort S} `{!ImmutableBlobPort S}
  (clock : S → Z * S) (randomUUID : S → string * S) (toBase64 : bytes → string)
  (this : DurableDocumentOutputRuntime S).

Definition callerDigest (caller : DurableArtifactCaller) : string :=
  digest (utf8 (json_string (JArr [JStr (ac_tenantId caller); JStr (ac_ownerId caller);
                                   JStr (ac_credentialBinding caller)]))).

Definition active (signal : AbortSignal S) : M S unit := λ s, (throw_if (signal s) cancelled_error, s).

Definition read_now : M S Z := λ s, let '(t, s') := clock s in (Ok t, s').
Definition new_ref : M S string := λ s, let '(u, s') := randomUUID s in (Ok ("art_" +:+ u), s').

(** The store of the reservations, or nothing is available. *)
Definition the_intents : M S (DurableRecordStorePort S) :=
  match intents this with Some store => mret store | None => throw output_unavailable end.

(** What a failure inside a [try] comes to: cancellations stay as they are. *)
Definition or_unavailable {A} (c : M S A) : M S A :=
  catch c (λ e, if is_code CANCELLED e then throw e else throw output_unavailable).

Definition operationRef (operationKey : string) (caller : DurableArtifactCaller) : result string :=
  throw_if ((str_length operationKey <? 1)%Z || (256 <? str_length operationKey)%Z) output_unavailable;;
  Ok ("art_intent_" +:+ sha256 (utf8 (json_string (JArr [JStr (ac_tenantId caller); JStr (ac_ownerId caller);
    JStr (ac_credentialBinding caller); JStr operationKey])))).

Definition readIntent (refId : string) : M S (option OutputIntent) :=
  if negb (is_intent_ref refId) then mret None
  else
    store ← the_intents;
    record ← ds_get (DurableRecordStorePort := store) (intent_key refId);
    match record with
    | None => mret None
    | Some record =>
        intent ← lift (parse_intent (value record));
        lift (throw_if (negb (bool_decide (oi_outputRefId intent = refId)) ||
                        negb (bool_decide (oi_sourceRefId intent = refId +:+ "_source"))) output_unavailable);;
        mret (Some intent)
    end.

Definition new_intent (input : SaveDurableDocumentOutputInput) (b : bytes) (outputRefId : string)
    (nowMs expiresAt : Z) : OutputIntent :=
  let sourceHash := digest (so_sourceBytes input) in
  let outputHash := digest b in
  {| oi_callerHash := callerDigest (so_caller input);
     oi_fingerprint := digest (utf8 (json_string (JArr [JStr sourceHash; JStr outputHash;
       JStr (so_mimeType input); JStr (so_filename input);
       match so_externalSourceRef input with Some r => JStr r | None => JNull end;
       match so_sourceExpiresAt input with Some t => JNum t | None => JNull end])));
     oi_sourceRefId := outputRefId +:+ "_source"; oi_outputRefId := outputRefId;
     oi_sourceHash := sourceHash; oi_outputHash := outputHash; oi_createdAt := nowMs;
     oi_expiresAt := expiresAt; oi_revoked := false; oi_published := false |}.

Definition reserve (input : SaveDurableDocumentOutputInput) (operationKey : string) (b : bytes)
    (nowMs expiresAt : Z) : M S OutputIntent :=
  store ← the_intents;
  outputRefId ← lift (operationRef operationKey (so_caller input));
  let v := new_intent input b outputRefId nowMs expiresAt in
  stored ← ds_createIfAbsent (DurableRecordStorePort := store)
    {| new_key := intent_key outputRefId;
       new_update := {| upd_value := json_string (intent_json v); upd_nowMs := int nowMs;
                        upd_expiresAt := Some (int expiresAt) |} |};
  intent ← lift (parse_intent (value (match stored with Created r | Exists r => r end)));
  lift (throw_if (negb (bool_decide (oi_fingerprint intent = oi_fingerprint v)) ||
                  negb (bool_decide (oi_callerHash intent = oi_callerHash v)) ||
                  negb (bool_decide (oi_outputRefId intent = outputRefId)) ||
                  negb (bool_decide (oi_sourceRefId intent = oi_sourceRefId v))) output_unavailable);;
  mret intent.

(** [revokeIntent] and [publishIntent]: write what [next] makes of the
    reservation, if it says so. *)
Fixpoint mark_intent (attempts : nat) (next : OutputIntent → result (option OutputIntent)) (refId : string)
    : M S unit :=
  match attempts with
  | O => throw output_unavailable
  | Datatypes.S attempts' =>
      store ← the_intents;
      record ← ds_get (DurableRecordStorePort := store) (intent_key refId);
      match record with
      | None => throw output_unavailable
      | Some record =>
          intent ← lift (parse_intent (value record));
          change ← lift (next intent);
          match change with
          | None => mret tt
          | Some intent' =>
              nowMs ← read_now;
              changed ← ds_compareAndSwap (DurableRecordStorePort := store) (rec_key record) (revision record)
                {| upd_value := json_string (intent_json intent'); upd_nowMs := int nowMs;
                   upd_expiresAt := Some (int (Z.max (oi_expiresAt intent) (nowMs + 1))) |};
              match changed with Updated _ => mret tt | _ => mark_intent attempts' next refId end
          end
      end
  end.

Definition revokeIntent : string → M S unit :=
  mark_intent 16 (λ i, Ok (if oi_revoked i then None else Some (i <| oi_revoked := true |>))).

Definition publishIntent : string → M S unit :=
  mark_intent 16 (λ i,
    throw_if (oi_revoked i) output_unavailable;;
    Ok (if oi_published i then None else Some (i <| oi_published := true |>))).

(** ** Active outputs *)

Definition assertExternalSource (refId : string) (caller : DurableArtifactCaller) (signal : AbortSignal S)
    : M S ExternalSource :=
  active signal;;
  match externalSources this with
  | None => throw output_unavailable
  | Some assertActive =>
      or_unavailable (
        revoked ← isExternalSourceRevoked refId caller;
        lift (throw_if revoked output_unavailable);;
        source ← assertActive refId caller signal;
        active signal;;
        revoked ← isExternalSourceRevoked refId caller;
        lift (throw_if revoked output_unavailable);;
        now ← (if isSafeInteger (xs_expiresAt source) then read_now else mret 0%Z);
        lift (throw_if (negb (isSafeInteger (xs_expiresAt source)) || (to_Z (xs_expiresAt source) <=? now)%Z ||
                        negb (HASH_RE (xs_contentHash source))) output_unavailable);;
        mret source)
  end.

Definition is_active_at (now : Z) (r : DurableArtifactRecord) : bool :=
  bool_decide (am_status r.1 = DurableArtifacts.active) && bool_decide (am_verification r.1 = verified) &&
  (now <? am_expiresAt r.1)%Z.

Definition activeOutput (refId : string) (caller : DurableArtifactCaller) (signal : AbortSignal S)
    : M S DurableArtifactRecord :=
  active signal;;
  intent ← readIntent refId;
  lift (throw_if (match intent with Some i => oi_revoked i | None => false end) output_unavailable);;
  output ← getForCaller refId caller;
  active signal;;
  match output with
  | None => throw output_unavailable
  | Some output =>
      match am_details output.1 with
      | CanonicalDetails sourceRefId _ external =>
          match external with
          | Some ref => assertExternalSource ref caller signal;; mret tt
          | None => mret tt
          end;;
          source ← getForCaller sourceRefId caller;
          active signal;;
          nowMs ← read_now;
          lift (throw_if (negb (is_active_at nowMs output) ||
                          negb (match source with Some r => is_active_at nowMs r | None => false end))
            output_unavailable);;
          lift (throw_if (match source with
                          | Some (m, _) => match am_details m with SourceDetails _ _ => false | _ => true end
                          | None => true end) output_unavailable);;
          mret output
      | _ => throw output_unavailable
      end
  end.

(** Both artifacts of a published reservation are as they were reserved. *)
Definition found_ready (refId : string) (intent : OutputIntent) (caller : DurableArtifactCaller)
    (signal : AbortSignal S) : M S bool :=
  output ← activeOutput refId caller signal;
  source ← getForCaller (oi_sourceRefId intent) caller;
  mret (bool_decide (am_contentHash output.1 = oi_outputHash intent) &&
        match source with Some r => bool_decide (am_contentHash r.1 = oi_sourceHash intent) | None => false end).

(** Their bytes can be read, and the output is still active. *)
Definition recheck_ready (refId : string) (intent : OutputIntent) (caller : DurableArtifactCaller)
    (signal : AbortSignal S) : M S unit :=
  now ← read_now;
  readVerified refId caller (int now) (int MAX_IMMUTABLE_BLOB_BYTES);;
  now ← read_now;
  readVerified (oi_sourceRefId intent) caller (int now) (int MAX_IMMUTABLE_BLOB_BYTES);;
  activeOutput refId caller signal;;
  mret tt.

(** The [try] around both: a failure that says the output is unavailable
    leaves [ready] as it is by then, which is [true] during the second. *)
Definition check_ready (refId : string) (intent : OutputIntent) (caller : DurableArtifactCaller)
    (signal : AbortSignal S) : M S bool :=
  let leave ready e := active signal;; if is_code INVALID_INPUT e then mret ready else throw e in
  ready ← catch (found_ready refId intent caller signal) (leave false);
  if ready : bool then catch (recheck_ready refId intent caller signal;; mret true) (leave true)
  else mret false.

Definition recoverOperation (operationKey : string) (caller : DurableArtifactCaller) (signal : AbortSignal S)
    : M S (option DurableDocumentOutputRecovery) :=
  active signal;;
  the_intents;;
  refId ← lift (operationRef operationKey caller);
  intent ← readIntent refId;
  match intent with
  | None => mret None
  | Some intent =>
      lift (throw_if (negb (bool_decide (oi_callerHash intent = callerDigest caller))) output_unavailable);;
      now ← (if oi_published intent && negb (oi_revoked intent) then read_now else mret 0%Z);
      ready ← (if oi_published intent && negb (oi_revoked intent) && (now <? oi_expiresAt intent)%Z
               then check_ready refId intent caller signal else mret false);
      active signal;;
      mret (Some {| rv_refId := refId; rv_ready := ready |})
  end.

(** ** Deleting *)

Fixpoint revoke (attempts : nat) (refId : string) (caller : DurableArtifactCaller)
    : M S (option DurableArtifactRecord) :=
  match attempts with
  | O => throw (TError "Artifact revocation conflicted")
  | Datatypes.S attempts' =>
      current ← getForCaller refId caller;
      match current with
      | None => mret None
      | Some current =>
          if negb (bool_decide (am_status current.1 = DurableArtifacts.active)) then mret (Some current)
          else
            now ← read_now;
            result ← deleteExplicit refId caller current.2 (int now);
            match result with
            | ArtifactMissing => mret None
            | ArtifactUpdated record => mret (Some record)
            | ArtifactConflict _ => revoke attempts' refId caller
            end
      end
  end.

Definition clean_pending (record : DurableArtifactRecord) (caller : DurableArtifactCaller) : M S bool :=
  result ← DurableArtifacts.cleanupPending (am_refId record.1) caller record.2;
  mret (match result with CleanupDone Deleted | CleanupDone DeleteMissing => true | _ => false end).

Definition cleanup (record : DurableArtifactRecord) (caller : DurableArtifactCaller) : M S bool :=
  if bool_decide (am_status record.1 = physical_cleanup_pending) then clean_pending record caller
  else
    now ← read_now;
    result ← markCleanupPending (am_refId record.1) caller record.2 (int now);
    match result with
    | ArtifactMissing => mret true
    | ArtifactConflict _ => mret false
    | ArtifactUpdated pending => clean_pending pending caller
    end.

(** Whether one of the artifacts of a reservation is still to be cleaned up. *)
Definition delete_one (refId : string) (caller : DurableArtifactCaller) : M S bool :=
  outcome ← attempt (record ← revoke 4 refId caller;
                     match record with None => mret true | Some record => cleanup record caller end);
  mret (match outcome with inl true => false | _ => true end).

Definition delete_reserved (intent : OutputIntent) (refId : string) (caller : DurableArtifactCaller) : M S Deletion :=
  lift (throw_if (negb (bool_decide (oi_callerHash intent = callerDigest caller))) output_unavailable);;
  revokeIntent refId;;
  p1 ← delete_one (oi_outputRefId intent) caller;
  p2 ← delete_one (oi_sourceRefId intent) caller;
  mret {| cleanupPending := p1 || p2 |}.

Definition is_canonical (r : DurableArtifactRecord) : bool :=
  match am_details r.1 with CanonicalDetails _ _ _ => true | _ => false end.

(** The output that a deletion revoked, if there is one. *)
Definition revoke_output (refId : string) (caller : DurableArtifactCaller) (signal : AbortSignal S)
    : M S (option DurableArtifactRecord) :=
  or_unavailable (
    output ← getForCaller refId caller;
    active signal;;
    match output with
    | None => mret None
    | Some output =>
        lift (throw_if (negb (is_canonical output)) output_unavailable);;
        output ← revoke 4 refId caller;
        active signal;;
        mret output
    end).

(** The source first: the output's record is the way back to it. *)
Definition clean_both (output : DurableArtifactRecord) (sourceRefId : string) (caller : DurableArtifactCaller)
    (signal : AbortSignal S) : M S Deletion :=
  source ← revoke 4 sourceRefId caller;
  active signal;;
  cleaned ← match source with None => mret true | Some source => cleanup source caller end;
  if negb cleaned then mret {| cleanupPending := true |}
  else
    active signal;;
    cleaned ← cleanup output caller;
    active signal;;
    mret {| cleanupPending := negb cleaned |}.

Definition delete (refId : string) (caller : DurableArtifactCaller) (signal : AbortSignal S) : M S Deletion :=
  active signal;;
  intent ← readIntent refId;
  match intent with
  | Some intent => delete_reserved intent refId caller
  | None =>
      output ← revoke_output refId caller signal;
      match output with
      | None => mret {| cleanupPending := false |}
      | Some output =>
          match am_details output.1 with
          | CanonicalDetails sourceRefId _ _ =>
              catch (clean_both output sourceRefId caller signal)
                (λ e, if is_code CANCELLED e then throw e else mret {| cleanupPending := true |})
          | _ => throw output_unavailable
          end
      end
  end.

Fixpoint revoke_outputs (rounds : nat) (refId : string) (caller : DurableArtifactCaller)
    (signal : AbortSignal S) : M S Deletion :=
  match rounds with
  | O => mret {| cleanupPending := true |}
  | Datatypes.S rounds' =>
      now ← read_now;
      next ← nextRevokedExternalOutput refId caller (int now);
      match next with
      | None => mret {| cleanupPending := false |}
      | Some (edgeKey, outputRefId) =>
          active signal;;
          result ← delete outputRefId caller signal;
          if cleanupPending result then mret {| cleanupPending := true |}
          else
            now ← read_now;
            acknowledgeRevokedExternalOutput refId caller edgeKey (int now);;
            revoke_outputs rounds' refId caller signal
      end
  end.

Definition revokeExternalSource (refId : string) (caller : DurableArtifactCaller) (signal : AbortSignal S)
    : M S Deletion :=
  active signal;;
  revoke_outputs 100 refId caller signal.

(** ** Saving *)

(** The payload as bytes; the message is that of [JSON.stringify] giving none. *)
Definition payload_bytes (payload : js_value) : result bytes :=
  match JSON_stringify payload with
  | None => Throw (gerror INVALID_INPUT "document-output" "Document output must be JSON serializable" false)
  | Some json =>
      throw_if (MAX_IMMUTABLE_BLOB_BYTES <? byteLength (utf8 json))%Z
        (gerror OUTPUT_LIMIT "document-output" "Document output exceeds the storage limit" false);;
      Ok (utf8 json)
  end.

Definition output_expiry (input : SaveDurableDocumentOutputInput) (external : option ExternalSource) (nowMs : Z) : Z :=
  Z.min (Z.min (nowMs + ttlSeconds this * 1000) (default MAX_SAFE_INTEGER (so_sourceExpiresAt input)))
    (match external with Some x => to_Z (xs_expiresAt x) | None => MAX_SAFE_INTEGER end).

Definition check_retention (nowMs expiresAt : Z) : result unit :=
  throw_if (negb (safe nowMs) || (nowMs <? 0)%Z || negb (safe expiresAt) || (expiresAt <=? nowMs)%Z)
    (gerror INVALID_INPUT "document-output" "Document output retention is invalid or expired" false).

Definition check_source (b : bytes) : result unit :=
  throw_if ((byteLength b <? 1)%Z || (MAX_IMMUTABLE_BLOB_BYTES <? byteLength b)%Z)
    (gerror OUTPUT_LIMIT "document-output" "Document source exceeds the storage limit or is empty" false).

(** An artifact that a save attempted to put. *)
Record Attempted := { at_refId : string; at_contentHash : string }.

Definition artifact_input (input : SaveDurableDocumentOutputInput) (refId : string) (b : bytes)
    (details : DurableArtifactDetails) (nowMs expiresAt : Z) : PutDurableArtifactInput :=
  {| pa_refId := refId; pa_caller := so_caller input; pa_contentHash := digest b; pa_expiresAt := int expiresAt;
     pa_retentionPolicy := "document-output"; pa_deletionPolicy := on_expiry; pa_bytes := b;
     pa_verification := verified; pa_details := details; pa_nowMs := int nowMs |}.

Definition reserved (r : option OutputIntent) : bool := match r with Some _ => true | None => false end.

(** The artifact that was put; without a reservation nothing else may be under
    the name: that is a collision, [None]. *)
Definition put_artifact (has_intent : bool) (i : PutDurableArtifactInput) : M S (option DurableArtifactMetadata) :=
  result ← put i;
  let '(is_new, record) := match result with ArtifactCreated r => (true, r) | ArtifactExists r => (false, r) end in
  if negb is_new && negb has_intent then mret None
  else
    lift (throw_if (negb (bool_decide (am_contentHash record.1 = pa_contentHash i)) ||
                    negb (bool_decide (am_status record.1 = DurableArtifacts.active))) output_unavailable);;
    mret (Some record.1).

Definition undo_one (expiresAt : Z) (caller : DurableArtifactCaller) (identity : Attempted) : M S unit :=
  ignore (
    committed ← getForCaller (at_refId identity) caller;
    match committed with
    | None => mret tt
    | Some c =>
        if negb (bool_decide (am_contentHash c.1 = at_contentHash identity)) ||
           negb (am_expiresAt c.1 =? expiresAt)%Z then mret tt
        else
          record ← revoke 4 (at_refId identity) caller;
          match record with None => mret tt | Some record => cleanup record caller;; mret tt end
    end).

Fixpoint undo_all (expiresAt : Z) (caller : DurableArtifactCaller) (attempted : list Attempted) : M S unit :=
  match attempted with
  | [] => mret tt
  | identity :: rest => undo_one expiresAt caller identity;; undo_all expiresAt caller rest
  end.

(** What a failure after [attempted], latest first, comes to. *)
Definition undo {A} (input : SaveDurableDocumentOutputInput) (reservation : option OutputIntent) (expiresAt : Z)
    (attempted : list Attempted) (e : thrown) : M S A :=
  match reservation with
  | Some r => ignore (delete (oi_outputRefId r) (so_caller input) (λ _, false))
  | None => mret tt
  end;;
  undo_all expiresAt (so_caller input) attempted;;
  throw (match e with
         | TGroundlane _ => e
         | _ => gerror UPSTREAM_ERROR "document-output" "Document output storage failed" false
         end).

(** Registration with the external source and publication. *)
Definition publish (input : SaveDurableDocumentOutputInput) (reservation : option OutputIntent) (refId : string)
    (expiresAt : Z) (signal : AbortSignal S) : M S unit :=
  match so_externalSourceRef input with
  | Some ref =>
      now ← read_now;
      registerExternalOutput randomUUID ref refId (so_caller input) (int now);;
      assertExternalSource ref (so_caller input) signal;;
      mret tt
  | None => mret tt
  end;;
  active signal;;
  match reservation with
  | Some r =>
      intent ← readIntent (oi_outputRefId r);
      lift (throw_if (match intent with Some i => oi_revoked i | None => true end) output_unavailable)
  | None => mret tt
  end;;
  now ← read_now;
  lift (throw_if (expiresAt <=? now)%Z output_unavailable);;
  match reservation with Some r => publishIntent (oi_outputRefId r) | None => mret tt end.

Definition collision : thrown := TError "Artifact identity collision".

Definition save_output (input : SaveDurableDocumentOutputInput) (b : bytes) (reservation : option OutputIntent)
    (sourceRefId : string) (nowMs expiresAt : Z) (signal : AbortSignal S)
    (source : Attempted) : M S DurableArtifactMetadata :=
  prepared ← attempt (
    active signal;;
    refId ← match reservation with Some r => mret (oi_outputRefId r) | None => new_ref end; mret refId);
  match prepared with
  | inr e => undo input reservation expiresAt [source] e
  | inl refId =>
      let output := {| at_refId := refId; at_contentHash := digest b |} in
      stored ← attempt (
        now ← (if reserved reservation then mret nowMs else read_now);
        put_artifact (reserved reservation)
          (artifact_input input refId b (CanonicalDetails sourceRefId "1" (so_externalSourceRef input)) now expiresAt));
      match stored with
      | inr e => undo input reservation expiresAt [output; source] e
      | inl None => undo input reservation expiresAt [source] collision
      | inl (Some metadata) =>
          published ← attempt (publish input reservation (am_refId metadata) expiresAt signal);
          match published with
          | inr e => undo input reservation expiresAt [output; source] e
          | inl _ => mret metadata
          end
      end
  end.

Definition save_both (input : SaveDurableDocumentOutputInput) (b : bytes) (reservation : option OutputIntent)
    (nowMs expiresAt : Z) (signal : AbortSignal S) : M S DurableArtifactMetadata :=
  refId ← match reservation with Some r => mret (oi_sourceRefId r) | None => new_ref end;
  let source := {| at_refId := refId; at_contentHash := digest (so_sourceBytes input) |} in
  stored ← attempt (put_artifact (reserved reservation)
    (artifact_input input refId (so_sourceBytes input)
       (SourceDetails (so_mimeType input) (so_filename input)) nowMs expiresAt));
  match stored with
  | inr e => undo input reservation expiresAt [source] e
  | inl None => undo input reservation expiresAt [] collision
  | inl (Some metadata) => save_output input b reservation (am_refId metadata) nowMs expiresAt signal source
  end.

(** What an earlier save of the same operation stored, if it was published. *)
Definition published_output (input : SaveDurableDocumentOutputInput) (r : OutputIntent) (signal : AbortSignal S)
    : M S (option DurableArtifactMetadata) :=
  now ← (if oi_revoked r then mret 0%Z else read_now);
  lift (throw_if (oi_revoked r || (oi_expiresAt r <=? now)%Z) output_unavailable);;
  if negb (oi_published r) then mret None
  else
    recovered ← recoverOperation (default "" (so_operationKey input)) (so_caller input) signal;
    lift (throw_if (negb (match recovered with Some v => rv_ready v | None => false end)) output_unavailable);;
    output ← getForCaller (oi_outputRefId r) (so_caller input);
    match output with None => throw output_unavailable | Some output => mret (Some output.1) end.

Definition save (input : SaveDurableDocumentOutputInput) (signal : AbortSignal S) : M S DurableArtifactMetadata :=
  active signal;;
  external ← match so_externalSourceRef input with
             | None => mret None
             | Some ref => x ← assertExternalSource ref (so_caller input) signal; mret (Some x)
             end;
  lift (throw_if (match external with
                  | Some x => negb (bool_decide (xs_contentHash x = digest (so_sourceBytes input)))
                  | None => false end) output_unavailable);;
  b ← lift (payload_bytes (so_payload input));
  active signal;;
  nowMs ← read_now;
  let expiresAt := output_expiry input external nowMs in
  lift (check_retention nowMs expiresAt);;
  lift (check_source (so_sourceBytes input));;
  match so_operationKey input with
  | None => save_both input b None nowMs expiresAt signal
  | Some operationKey =>
      r ← reserve input operationKey b nowMs expiresAt;
      published ← published_output input r signal;
      match published with
      | Some metadata => mret metadata
      | None => save_both input b (Some r) (oi_createdAt r) (oi_expiresAt r) signal
      end
  end.

(** ** Reading *)

Definition bad_chunk (offset maxBytes : number) : bool :=
  negb (isSafeInteger offset) || (to_Z offset <? 0)%Z || negb (isSafeInteger maxBytes) ||
  (to_Z maxBytes <? 1)%Z || (MAX_DOCUMENT_OUTPUT_CHUNK_BYTES <? to_Z maxBytes)%Z.

(** The bytes of an output that was active before and after they were read. *)
Definition read_active (refId : string) (caller : DurableArtifactCaller) (offset : Z) (signal : AbortSignal S)
    : M S (DurableArtifactRecord * bytes) :=
  record ← activeOutput refId caller signal;
  lift (throw_if (am_byteSize record.1 <? offset)%Z output_unavailable);;
  now ← read_now;
  b ← readVerified refId caller (int now) (int MAX_IMMUTABLE_BLOB_BYTES);
  active signal;;
  activeOutput refId caller signal;;
  mret (record, b).

Definition chunk (refId : string) (record : DurableArtifactRecord) (b : bytes) (offset maxBytes : Z)
    : DurableDocumentOutputChunk :=
  let end_ := Z.min (byteLength b) (offset + maxBytes) in
  {| ch_refId := refId; ch_dataBase64 := toBase64 (take (Z.to_nat (end_ - offset)) (drop (Z.to_nat offset) b));
     ch_offset := offset; ch_nextOffset := if (end_ <? byteLength b)%Z then Some end_ else None;
     ch_totalBytes := byteLength b; ch_contentHash := am_contentHash record.1 |}.

Definition read (refId : string) (caller : DurableArtifactCaller) (offset maxBytes : number)
    (signal : AbortSignal S) : M S DurableDocumentOutputChunk :=
  active signal;;
  lift (throw_if (bad_chunk offset maxBytes)
    (gerror INVALID_INPUT "document-output" "Document output chunk bounds are invalid" false));;
  or_unavailable ('(record, b) ← read_active refId caller (to_Z offset) signal;
                  mret (chunk refId record b (to_Z offset) (to_Z maxBytes))).

(** The projection and the envelope's status of a stored payload. *)
Definition kind_of_json (v : js_value) : option DocumentResultText.ProjectionKind :=
  s ← as_string v;
  find (λ k, bool_decide (DocumentResultText.kind_name k = s))
    [DocumentResultText.markdown; DocumentResultText.text; DocumentResultText.structured;
     DocumentResultText.all_kinds].

Definition status_of_json (v : js_value) : option DocumentResultText.ExtractionStatus :=
  s ← as_string v;
  find (λ k, bool_decide (DocumentResultText.status_name k = s))
    [DocumentResultText.success; DocumentResultText.partial; DocumentResultText.unsupported;
     DocumentResultText.failed].

Definition payload_of_json (v : js_value)
    : option (DocumentResultText.StoredProjection * DocumentResultText.ExtractionStatus) :=
  let p := prop v "projection" in
  let e := prop v "envelope" in
  k ← kind_of_json (prop p "kind"); c ← as_string (prop p "content"); l ← as_boolean (prop p "lossy");
  o ← as_strings (prop p "omissions"); w ← as_strings (prop p "warnings");
  st ← status_of_json (prop e "status"); ew ← as_strings (prop e "warnings");
  Some ({| DocumentResultText.sp_kind := k; DocumentResultText.sp_content := c;
           DocumentResultText.sp_lossy := l; DocumentResultText.sp_omissions := o;
           DocumentResultText.sp_warnings := ew ++ w |}, st).

Definition parse_payload (b : bytes)
    : result (DocumentResultText.StoredProjection * DocumentResultText.ExtractionStatus) :=
  match utf8_decode b with
  | None => Throw TOther
  | Some t =>
      v ← JSON_parse t;
      match payload_of_json v with Some p => Ok p | None => Throw TOther end
  end.

Definition readText (refId : string) (caller : DurableArtifactCaller) (contentOffset maxContentChars maxOutputChars : number)
    (signal : AbortSignal S) : M S DocumentResultText.DocumentTextPage :=
  active signal;;
  catch (
    '(record, b) ← read_active refId caller 0 signal;
    '(projection, status) ← lift (parse_payload b);
    page ← lift (DocumentResultText.paginateDocumentProjection refId (am_contentHash record.1) projection
             contentOffset maxContentChars maxOutputChars status);
    active signal;;
    mret page)
    (λ e, if is_code CANCELLED e || is_code OUTPUT_LIMIT e then throw e else throw output_unavailable).

(** ** Expired reservations *)

Definition sweep_intent (store : DurableRecordStorePort S) (nowMs : Z) (record : DurableRecord) : M S bool :=
  intent ← lift (parse_intent (value record));
  if negb (bool_decide (rec_key record = intent_key (oi_outputRefId intent))) || (nowMs <? oi_expiresAt intent)%Z
  then mret false
  else
    r ← ds_deleteIfRevision (DurableRecordStorePort := store) (rec_key record) (revision record);
    mret (match r with Deleted | DeleteMissing => true | DeleteConflict => false end).

Fixpoint sweep_intents (store : DurableRecordStorePort S) (nowMs : Z) (records : list DurableRecord)
    : M S (Z * list string) :=
  match records with
  | [] => mret (0%Z, [])
  | record :: records' =>
      if negb (startsWith (rec_key record) "output-intent:") then sweep_intents store nowMs records'
      else
        done ← attempt (sweep_intent store nowMs record);
        '(n, failures) ← sweep_intents store nowMs records';
        mret (match done with inl true => ((n + 1)%Z, failures) | _ => (n, rec_key record :: failures) end)
  end.

Definition sweepExpiredIntents (nowMs : number) (cursor : option string) (limit : number)
    : M S DurableDocumentOutputIntentCleanupPage :=
  store ← the_intents;
  lift (throw_if (negb (isSafeInteger nowMs) || (to_Z nowMs <? 0)%Z || negb (isSafeInteger limit) ||
                  (to_Z limit <? 1)%Z || (100 <? to_Z limit)%Z ||
                  match cursor with Some c => (str_length c =? 0)%Z || (240 <? str_length c)%Z | None => false end)
    output_unavailable);;
  page ← ds_scanExpired (DurableRecordStorePort := store) nowMs cursor (to_Z limit);
  '(n, failures) ← sweep_intents store (to_Z nowMs) (page_records page);
  mret {| ip_scanned := Z.of_nat (length (page_records page)); ip_deleted := n; ip_failures := failures;
          ip_nextCursor := nextCursor page |}.
End runtime.
