(* ===== verification/DurableDocumentOutputSafety.v ===== *)
(** * Correctness of the durable document outputs

    Once a document output was deleted, no chunk of it is read again: of one
    without a reservation because its artifact is not active any more, which
    composes the theorems about artifacts, and of one with a reservation
    because that is revoked. *)

From S2P Require Import Prelude Interference JsString JsMap Digest Json DurableStore DurableArtifacts.
From S2P Require Import DurableArtifactsSafety ExternalOutputs DurableDocumentOutput.

(** ** Reservations

    The reservations are kept in a store of their own, which [iview] shows. *)

(** The port to it, by a name of its own: it is not the port of the artifacts. *)
Definition IntentStore (S : Type) : Type := DurableRecordStorePort S.

(** There is a reservation of the output, which expires after [T]. *)
Definition reserved_until (T : Z) (refId : string) (m : memory) : Prop :=
  keyed m ∧ ∃ r, map_get (intent_key refId) m = Some r ∧
  ∀ i, parse_intent (value r) = Ok i → (T < oi_expiresAt i)%Z.

(** And it is revoked. *)
Definition intent_revoked (T : Z) (refId : string) (m : memory) : Prop :=
  keyed m ∧ ∃ r, map_get (intent_key refId) m = Some r ∧
  ∀ i, parse_intent (value r) = Ok i → oi_revoked i = true ∧ (T < oi_expiresAt i)%Z.

(** What the others do to the reservation: it stays, and stays revoked. *)
Definition keeps_reservation (T : Z) (refId : string) (m m' : memory) : Prop :=
  (reserved_until T refId m → reserved_until T refId m') ∧ (intent_revoked T refId m → intent_revoked T refId m').

(** The store of the reservations is apart from that of the artifacts: what is
    called on the latter is to the former as if other parties took a turn. *)
Record intents_apart {S} `{!DurableRecordStorePort S} `{!ImmutableBlobPort S} (clock : S → Z * S)
    (store : IntentStore S) (T : Z) (refId : string)
    (iview : S → memory) (ienv : memory → memory → Prop) : Prop := {
  intents_laws : DurableStoreLaws (H := store) iview ienv;
  intents_kept m m' : ienv m m' → keeps_reservation T refId m m';
  apart_get k s : ienv (iview s) (iview (ds_get k s).2);
  apart_create input s : ienv (iview s) (iview (ds_createIfAbsent input s).2);
  apart_cas k rev u s : ienv (iview s) (iview (ds_compareAndSwap k rev u s).2);
  apart_delete k rev s : ienv (iview s) (iview (ds_deleteIfRevision k rev s).2);
  apart_scan now cursor limit s : ienv (iview s) (iview (ds_scanExpired now cursor limit s).2);
  apart_blobs : quiet_blobs iview ienv;
  apart_clock s : ienv (iview s) (iview (clock s).2)
}.

Lemma reserved_until_delete T refId k m :
  k ≠ intent_key refId → reserved_until T refId m → reserved_until T refId (map_delete k m).
Proof.
  intros Hne [Hm (r & Hr & Hi)]. split; [by apply keyed_delete|]. exists r.
  by rewrite map_get_delete, decide_False by congruence.
Qed.

Lemma intent_revoked_delete T refId k m :
  k ≠ intent_key refId → intent_revoked T refId m → intent_revoked T refId (map_delete k m).
Proof.
  intros Hne [Hm (r & Hr & Hi)]. split; [by apply keyed_delete|]. exists r.
  by rewrite map_get_delete, decide_False by congruence.
Qed.

Lemma intent_revoked_until T refId m : intent_revoked T refId m → reserved_until T refId m.
Proof. intros [Hm (r & Hr & Hi)]. split; [done|]. exists r. split; [done|]. intros i Hp. by apply Hi. Qed.

Lemma intent_json_exact i : json_exact (intent_json i) = true.
Proof. reflexivity. Qed.

(** Revoking leaves the expiry as it was. *)
Lemma written_intent i i' :
  parse_intent (json_string (intent_json i)) = Ok i' → oi_revoked i' = oi_revoked i ∧ oi_expiresAt i' = oi_expiresAt i.
Proof.
  unfold parse_intent, json_string. rewrite (JSON_parse_exact _ (intent_json_exact i)).
  change (Ok ?a ≫= ?f) with (f a). cbv beta. destruct (intent_of_json _) as [i2|] eqn:Hi; [|done].
  intros [= ->]. unfold intent_of_json in Hi. do 13 (apply bind_Some in Hi as (? & _ & Hi)).
  apply bind_Some in Hi as (e & He & Hi). apply bind_Some in Hi as (? & _ & Hi).
  apply bind_Some in Hi as (r & Hr & Hi). apply bind_Some in Hi as (p & _ & [= <-]).
  change (Some (oi_revoked i) = Some r) in Hr. change (Some (oi_expiresAt i) = Some e) in He.
  injection Hr as <-. by injection He as <-.
Qed.

Create HintDb kept.
Section reserved.
Context {S : Type} `{!Sha256Api} `{!DurableRecordStorePort S} `{!ImmutableBlobPort S}
  (clock : S → Z * S) (this : DurableDocumentOutputRuntime S) (store : IntentStore S) (refId : string)
  (iview : S → memory) (ienv : memory → memory → Prop) (T : Z)
  (Hthis : intents this = Some store) (Hapart : intents_apart clock store T refId iview ienv).
Notation kept := (keeps iview (intent_revoked T refId)).

(** *** Calls elsewhere *)

Lemma kept_elsewhere {A} (c : M S A) : (∀ s, ienv (iview s) (iview (c s).2)) → kept c.
Proof.
  intros Hc s Hs. unfold wp. specialize (Hc s). by apply (intents_kept _ _ _ _ _ _ Hapart) in Hc as [_ Hc]; auto.
Qed.

Lemma kept_catch {A} (c : M S A) h : kept c → (∀ e, kept (h e)) → kept (catch c h).
Proof.
  intros Hc Hh s Hs. specialize (Hc s Hs). unfold wp, catch in *. destruct (c s) as [[a|e] s']; [done|]. by apply Hh.
Qed.

Ltac kept := intros; lazymatch goal with
  | |- keeps _ _ (mbind _ _) => apply keeps_bind; [kept|intros; kept]
  | |- keeps _ _ (mret _) => apply keeps_ret
  | |- keeps _ _ (lift _) => apply keeps_lift
  | |- keeps _ _ (throw _) => apply keeps_throw
  | |- keeps _ _ (attempt _) => apply keeps_attempt; kept
  | |- keeps _ _ (catch _ _) => apply kept_catch; [kept|intros; kept]
  | |- keeps _ _ (ignore _) => unfold ignore; kept
  | |- keeps _ _ (ds_get _) => apply kept_elsewhere; intros; apply (apart_get _ _ _ _ _ _ Hapart)
  | |- keeps _ _ (ds_createIfAbsent _) => apply kept_elsewhere; intros; apply (apart_create _ _ _ _ _ _ Hapart)
  | |- keeps _ _ (ds_compareAndSwap _ _ _) => apply kept_elsewhere; intros; apply (apart_cas _ _ _ _ _ _ Hapart)
  | |- keeps _ _ (ds_deleteIfRevision _ _) => apply kept_elsewhere; intros; apply (apart_delete _ _ _ _ _ _ Hapart)
  | |- keeps _ _ (ds_scanExpired _ _ _) => apply kept_elsewhere; intros; apply (apart_scan _ _ _ _ _ _ Hapart)
  | |- keeps _ _ (blob_putIfAbsent _ _ _ _) => apply kept_elsewhere; intros; apply (put_quiet _ _ (apart_blobs _ _ _ _ _ _ Hapart))
  | |- keeps _ _ (blob_stat _) => apply kept_elsewhere; intros; apply (stat_quiet _ _ (apart_blobs _ _ _ _ _ _ Hapart))
  | |- keeps _ _ (blob_get _ _ _ _) => apply kept_elsewhere; intros; apply (get_quiet _ _ (apart_blobs _ _ _ _ _ _ Hapart))
  | |- keeps _ _ (blob_deleteIfOwner _ _) => apply kept_elsewhere; intros; apply (delete_quiet _ _ (apart_blobs _ _ _ _ _ _ Hapart))
  | |- keeps _ _ (if ?b then _ else _) => destruct b; kept
  | |- keeps _ _ (match ?x with _ => _ end) => destruct x; kept
  | |- keeps _ _ (let _ := _ in _) => cbv zeta; kept
  | |- _ => auto with kept
  end.

Lemma kept_getStored id : kept (getStored id).
Proof. unfold getStored. kept. Qed.
Hint Resolve kept_getStored : kept.

Lemma kept_cas current rev next now e : kept (cas current rev next now e).
Proof. unfold cas. kept. Qed.
Lemma kept_owned id caller : kept (owned id caller).
Proof. unfold owned. kept. Qed.
Lemma kept_discard a : kept (discard_blob a).
Proof. unfold discard_blob. kept. Qed.
Hint Resolve kept_cas kept_owned kept_discard : kept.

Lemma kept_getForCaller id caller : kept (getForCaller id caller).
Proof. unfold getForCaller. kept. Qed.
Lemma kept_put input : kept (put input).
Proof. unfold put, record_metadata, compensate_put. kept. Qed.
Lemma kept_markVerified id caller rev now : kept (markVerified id caller rev now).
Proof. unfold markVerified. kept. Qed.
Lemma kept_deleteExplicit id caller rev now : kept (deleteExplicit id caller rev now).
Proof. unfold deleteExplicit. kept. Qed.
Lemma kept_markCleanupPending id caller rev now : kept (markCleanupPending id caller rev now).
Proof. unfold markCleanupPending. kept. Qed.
Lemma kept_cleanupPending id caller rev : kept (DurableArtifacts.cleanupPending id caller rev).
Proof. unfold DurableArtifacts.cleanupPending. kept. Qed.
Lemma kept_readVerified id caller now maxBytes : kept (readVerified id caller now maxBytes).
Proof. unfold readVerified, recheck. kept. Qed.
Hint Resolve kept_getForCaller kept_put kept_markVerified kept_deleteExplicit kept_markCleanupPending
  kept_cleanupPending kept_readVerified : kept.

Lemma kept_expireDue now cursor limit : kept (expireDue now cursor limit).
Proof.
  assert (Hall : ∀ raws, kept (expire_all now raws))
    by (induction raws; cbn [expire_all]; unfold expire_one; kept).
  unfold expireDue. kept.
Qed.

Lemma kept_deleteOwnerArtifacts caller ids now : kept (deleteOwnerArtifacts caller ids now).
Proof.
  assert (Hall : ∀ l, kept (revoke_all caller now l)) by (induction l; cbn [revoke_all]; unfold revoke_one; kept).
  unfold deleteOwnerArtifacts. kept.
Qed.

Lemma kept_sweep_one now raw : kept (sweep_one now raw).
Proof. unfold sweep_one, source_remains, make_pending. kept. Qed.
Hint Resolve kept_sweep_one : kept.

Lemma kept_sweepExpired now cursor limit : kept (sweepExpired now cursor limit).
Proof.
  assert (Hall : ∀ raws, kept (sweep_all now raws)) by (induction raws; cbn [sweep_all]; kept).
  unfold sweepExpired. kept.
Qed.
Hint Resolve kept_expireDue kept_deleteOwnerArtifacts kept_sweepExpired : kept.

Lemma kept_call_artifacts cs : kept (call_artifacts cs).
Proof.
  induction cs as [|c cs IH]; [apply keeps_ret|]. cbn [call_artifacts]. apply keeps_bind; [|done].
  unfold call_artifact. destruct c; unfold get_artifact; kept.
Qed.

(** *** Revoking *)

Lemma kept_active signal : kept (active signal).
Proof. intros s Hs. exact Hs. Qed.
Lemma kept_read_now : kept (read_now clock).
Proof.
  apply kept_elsewhere. intros s. pose proof (apart_clock _ _ _ _ _ _ Hapart s) as Hc.
  unfold read_now. by destruct (clock s).
Qed.
Hint Resolve kept_active kept_read_now : kept.

Lemma kept_delete_one id caller : kept (delete_one clock id caller).
Proof.
  assert (Hrevoke : ∀ n, kept (revoke clock n id caller)) by (induction n; cbn [revoke]; kept).
  unfold delete_one, cleanup, clean_pending. kept.
Qed.

Lemma until_kept m m' : ienv m m' → reserved_until T refId m → reserved_until T refId m'.
Proof. intros He. apply (intents_kept _ _ _ _ _ _ Hapart _ _ He). Qed.
Lemma revoked_kept m m' : ienv m m' → intent_revoked T refId m → intent_revoked T refId m'.
Proof. intros He. apply (intents_kept _ _ _ _ _ _ Hapart _ _ He). Qed.

(** The reservation as it is when its revocation is written. *)
Lemma revoked_written r0 u i m :
  keyed m → map_get (intent_key refId) m = Some r0 → (T < oi_expiresAt i)%Z →
  upd_value u = json_string (intent_json (i <| oi_revoked := true |>)) →
  intent_revoked T refId (map_set (intent_key refId) (updated_record r0 u) m).
Proof.
  intros Hm Hr0 HT Hu. split; [by apply keyed_set, (keyed_rec _ Hm _ _ Hr0)|].
  eexists. split; [apply map_get_set_eq|]. intros i'. cbn. rewrite Hu. by intros [-> ->]%written_intent.
Qed.

Lemma revokeIntent_revokes s :
  reserved_until T refId (iview s) →
  wp (revokeIntent clock this refId) (λ r s', ∀ u, r = Ok u → intent_revoked T refId (iview s')) s.
Proof.
  pose proof (intents_laws _ _ _ _ _ _ Hapart) as Hlaws. pose proof until_kept as Hk.
  unfold revokeIntent. generalize 16%nat. intros n. revert s. induction n as [|n IH]; intros s Hs; [done|].
  cbn [mark_intent]. unfold the_intents. rewrite Hthis. apply wp_bind, wp_ret.
  eapply (wp_get_kept (DurableRecordStorePort0 := store) iview ienv); [exact Hk|exact Hs| |done].
  intros s1 Hs1. pose proof Hs1 as [Hk1 (r & Hr & Hexp)]. rewrite Hr.
  apply wp_lift_bind; [|done]. intros i Hi. apply wp_lift_bind; [|done]. intros next [= <-].
  destruct (oi_revoked i) eqn:Hrev.
  - apply wp_ret. intros _ _. split; [done|]. exists r. split; [done|]. intros i' Hi'. split; [congruence|auto].
  - apply wp_bind. unfold read_now at 1, wp. pose proof (apart_clock _ _ _ _ _ _ Hapart s1) as Hclock.
    destruct (clock s1) as [t s2]. cbn [fst snd] in *. assert (Hs2 : reserved_until T refId (iview s2)) by (by eapply Hk).
    eapply (wp_cas_kept (DurableRecordStorePort0 := store) iview ienv); [exact Hk|exact Hs2| |intros; by apply IH|intros; by apply IH|done].
    intros m r0 s3 [Hm _] Hr0 Hs3. apply wp_ret. intros _ _.
    rewrite Hs3, (keyed_rec _ Hk1 _ _ Hr) in *. by apply (revoked_written _ _ i); auto.
Qed.

Lemma delete_reserved_revokes i caller s :
  reserved_until T refId (iview s) →
  wp (delete_reserved clock this i refId caller) (λ r s', ∀ d, r = Ok d → intent_revoked T refId (iview s')) s.
Proof.
  intros Hs. unfold delete_reserved. apply wp_lift_bind; [|done]. intros [] _.
  apply wp_bind. eapply wp_mono; [by apply revokeIntent_revokes|]. intros [[]|e] s1 H1; [|done]. specialize (H1 tt eq_refl).
  apply wp_bind. eapply wp_mono; [by apply kept_delete_one|]. intros [p1|e] s2 H2; [|done].
  apply wp_bind. eapply wp_mono; [by apply kept_delete_one|]. intros [p2|e] s3 H3; [|done]. by apply wp_ret.
Qed.

(** *** Reading *)

Lemma readIntent_revoked s :
  is_intent_ref refId = true → intent_revoked T refId (iview s) →
  wp (readIntent this refId) (λ r _, ∀ o, r = Ok o → ∃ i, o = Some i ∧ oi_revoked i = true) s.
Proof.
  intros Href Hs. pose proof (intents_laws _ _ _ _ _ _ Hapart) as Hlaws.
  unfold readIntent, the_intents. rewrite Href, Hthis. cbn [negb]. apply wp_bind, wp_ret.
  eapply (wp_get_kept (DurableRecordStorePort0 := store) iview ienv (intent_revoked T refId));
    [exact revoked_kept|exact Hs| |done].
  intros s1 [_ (r & Hr & Hrev)]. rewrite Hr. apply wp_lift_bind; [|done]. intros i Hi.
  apply wp_lift_bind; [|done]. intros [] _. apply wp_ret. intros o [= <-]. exists i. split; [done|by apply Hrev].
Qed.

Lemma wp_active {A} signal (f : () → M S A) Q s :
  wp (f tt) Q s → (∀ e, Q (Throw e) s) → wp (active signal ≫= f) Q s.
Proof.
  intros Hok Hfail. unfold wp, mbind, M_bind, active in *. destruct (throw_if _ _) as [[]|e]; [exact Hok|apply Hfail].
Qed.

Lemma activeOutput_revoked caller signal s :
  is_intent_ref refId = true → intent_revoked T refId (iview s) →
  wp (activeOutput clock this refId caller signal) (λ r _, is_Throw r) s.
Proof.
  intros Href Hs. unfold activeOutput. apply wp_active; [|by eexists].
  apply wp_bind. eapply wp_mono; [by apply readIntent_revoked|]. intros [o|e] s1 H1; [|by eexists].
  destruct (H1 o eq_refl) as (i & -> & Hrev). apply wp_lift_bind; [|by eexists]. by rewrite Hrev.
Qed.

Lemma read_revoked toBase64 caller offset maxBytes signal s :
  is_intent_ref refId = true → intent_revoked T refId (iview s) →
  wp (read clock toBase64 this refId caller offset maxBytes signal) (λ r _, is_Throw r) s.
Proof.
  intros Href Hs. unfold read. apply wp_active; [|by eexists].
  apply wp_lift_bind; [|by eexists]. intros [] _. pose proof (activeOutput_revoked caller signal s Href Hs) as Ha.
  unfold wp, or_unavailable, catch, read_active, mbind, M_bind in *.
  destruct (activeOutput _ _ _ _ _ s) as [[r|e] s1]; [by destruct Ha|]. destruct (is_code _ e); by eexists.
Qed.

(** A reservation that is there is found, unless the read fails. *)
Lemma readIntent_finds s :
  is_intent_ref refId = true → reserved_until T refId (iview s) →
  wp (readIntent this refId) (λ r s', ∀ o, r = Ok o → (∃ i, o = Some i) ∧ reserved_until T refId (iview s')) s.
Proof.
  intros Href Hs. pose proof (intents_laws _ _ _ _ _ _ Hapart) as Hlaws.
  unfold readIntent, the_intents. rewrite Href, Hthis. cbn [negb]. apply wp_bind, wp_ret.
  eapply (wp_get_kept (DurableRecordStorePort0 := store) iview ienv); [exact until_kept|exact Hs| |done].
  intros s1 Hs1. pose proof Hs1 as [_ (r & -> & _)]. apply wp_lift_bind; [|done]. intros i _.
  apply wp_lift_bind; [|done]. intros [] _. apply wp_ret. intros o [= <-]. split; [by exists i|done].
Qed.

Lemma delete_revokes caller signal s :
  is_intent_ref refId = true → reserved_until T refId (iview s) →
  wp (delete clock this refId caller signal) (λ r s', ∀ d, r = Ok d → intent_revoked T refId (iview s')) s.
Proof.
  intros Href Hs. unfold delete. apply wp_active; [|done].
  apply wp_bind. eapply wp_mono; [by apply readIntent_finds|]. intros [o|e] s1 H1; [|done].
  destruct (H1 o eq_refl) as [[i ->] Hs1]. by apply delete_reserved_revokes.
Qed.
End reserved.

(** *** Sweeps of the reservations *)

Section sweeps.
Context {S : Type} (this : DurableDocumentOutputRuntime S) (store : IntentStore S)
  (iview : S → memory) (ienv : memory → memory → Prop) (T : Z) (refId : string) (P : memory → Prop)
  (Hthis : intents this = Some store) (Hlaws : DurableStoreLaws (H := store) iview ienv)
  (Hreports : scan_reports (DurableRecordStorePort0 := store) iview)
  (HP : ∀ m, P m → reserved_until T refId m)
  (Hdel : ∀ k m, k ≠ intent_key refId → P m → P (map_delete k m)) (Henv : ∀ m m', ienv m m' → P m → P m').

Lemma sweep_intent_keeps now r :
  (now ≤ T)%Z → (∀ i, rec_key r = intent_key refId → parse_intent (value r) = Ok i → (T < oi_expiresAt i)%Z) →
  keeps iview P (sweep_intent store now r).
Proof.
  intros Hnow Hr. unfold sweep_intent. intros s Hs. apply wp_lift_bind; [|done]. intros i Hi.
  destruct (negb _ || (now <? oi_expiresAt i)%Z) eqn:Hb; [by apply wp_ret|]. reflect.
  assert (Hne : rec_key r ≠ intent_key refId) by (intros Hk; specialize (Hr i Hk Hi); lia).
  revert s Hs. apply keeps_bind; [|intros; apply keeps_ret].
  apply (keeps_delete (DurableRecordStorePort0 := store) iview ienv _ Henv). intros. by apply Hdel.
Qed.

Lemma sweep_intents_keeps now l :
  (now ≤ T)%Z →
  Forall (λ r, ∀ i, rec_key r = intent_key refId → parse_intent (value r) = Ok i → (T < oi_expiresAt i)%Z) l →
  keeps iview P (sweep_intents store now l).
Proof.
  intros Hnow. induction 1 as [|r l Hr _ IH]; cbn [sweep_intents]; [apply keeps_ret|].
  case_match; [done|]. apply keeps_bind; [by apply keeps_attempt, sweep_intent_keeps|]. intros done.
  apply keeps_bind; [apply IH|]. intros []. apply keeps_ret.
Qed.

Lemma sweepExpiredIntents_keeps now cursor limit :
  (to_Z now ≤ T)%Z → keeps iview P (sweepExpiredIntents this now cursor limit).
Proof.
  intros Hnow s Hs. unfold sweepExpiredIntents, the_intents. rewrite Hthis. apply wp_bind, wp_ret.
  apply wp_throw_if; [done|]. intros _.
  apply wp_bind, wp_intro. intros r s1 Hr.
  pose proof (scan_reads (H := store) (view := iview) (env := ienv) now cursor (to_Z limit) s) as Hv.
  pose proof (Hreports now cursor (to_Z limit) s) as Hrep. rewrite Hr in Hv, Hrep. cbn [fst snd] in *.
  assert (Hs1 : P (iview s1)) by eauto. destruct r as [page|e]; [|done].
  apply wp_bind. eapply wp_mono; [apply (sweep_intents_keeps (to_Z now)); [done| |exact Hs1]|].
  - apply Forall_forall. intros r Hin i Hk Hi. destruct (HP _ Hs1) as [Hkd (r0 & Hr0 & Hall)].
    destruct (Hrep page r eq_refl Hin (keyed_ok _ Hkd)) as [k' Hk'].
    pose proof (keyed_rec _ Hkd _ _ Hk'). apply Hall. by assert (r0 = r) as -> by congruence.
  - intros [[n fs]|e] s2 Hs2; [by apply wp_ret|done].
Qed.
End sweeps.

(** A sweep of the reservations leaves those that expire later than it. *)
Lemma sweep_keeps_reservation localeCompare ttl T refId now cursor limit m :
  (to_Z now ≤ T)%Z →
  keeps_reservation T refId m
    (sweepExpiredIntents {| ttlSeconds := ttl; externalSources := None; intents := Some (InMemoryDurableRecordStore localeCompare) |}
       now cursor limit m).2.
Proof.
  intros Hnow. set (store := InMemoryDurableRecordStore localeCompare).
  assert (Hrep : scan_reports (DurableRecordStorePort0 := store) id)
    by (intros ??? m' p r; exact (mem_scan_reports localeCompare _ _ _ m' p r)).
  pose proof (memory_store_laws localeCompare) as Hlaws.
  assert (Heq : ∀ (P : memory → Prop) m m', m = m' → P m → P m') by by intros P ?? <-.
  split.
  - apply (sweepExpiredIntents_keeps _ store id eq T refId (reserved_until T refId)); [done..| | |done];
      [intros ??; apply reserved_until_delete|apply Heq].
  - apply (sweepExpiredIntents_keeps _ store id eq T refId (intent_revoked T refId)); [done..|apply intent_revoked_until| | |done];
      [intros ??; apply intent_revoked_delete|apply Heq].
Qed.

(** ** Deletion *)

Section deletion.
Context {S : Type} `{!Sha256Api} `{!DurableRecordStorePort S} `{!ImmutableBlobPort S}
  (clock : S → Z * S) (toBase64 : bytes → string) (this : DurableDocumentOutputRuntime S) (refId : string)
  (view : S → memory) (env : memory → memory → Prop) `{Laws : !DurableStoreLaws view env}
  (Henv : ∀ m m', env m m' → artifact_env refId m m') (Hquiet : quiet_blobs view env)
  (Hclock : ∀ s, env (view s) (view (clock s).2)).
Notation moves := (@Interference.moves S memory (artifact_evolution refId) view).
Notation stable := (@Interference.stable memory (artifact_evolution refId)).
Notation not_active := (not_active refId).

Lemma output_moves_seq {A B} (K : memory → Prop) (c : M S A) (f : A → M S B) R :
  stable K → moves K c (λ _ _, True) → (∀ a, moves K (f a) R) → moves K (c ≫= f) R.
Proof. intros HK Hc Hf. eapply moves_bind; [done|exact Hc|]. intros a. by apply moves_forget. Qed.

Lemma moves_here {A} (K : memory → Prop) (c : M S A) (P : A → Prop) :
  (∀ s, (c s).2 = s) → (∀ s a, (c s).1 = Ok a → P a) → moves K c (λ a _, P a).
Proof.
  intros Hc HP s _ Hs. unfold wp. specialize (Hc s). specialize (HP s). rewrite Hc.
  split; [apply artifact_env_refl|]. destruct (c s).1; auto.
Qed.

Lemma moves_active K signal : moves K (active signal) (λ _ _, True).
Proof. by apply (moves_here K (active signal) (λ _, True)). Qed.

Lemma output_moves_read_now K : moves K (read_now clock) (λ _ _, True).
Proof.
  apply (moves_elsewhere view env K (read_now clock) (λ _, True)); [exact Henv|..]; intros s; unfold read_now;
    pose proof (Hclock s) as Hq; by destruct (clock s).
Qed.

(** What a read of the output in question tells. *)
Lemma moves_find K caller :
  stable K → moves K (getForCaller refId caller) (λ o m, match o with
    | None => not_active m
    | Some r => am_status r.1 ≠ DurableArtifacts.active → not_active m end).
Proof.
  intros HK. eapply moves_bind; [done|by eapply moves_getStored_gone|].
  intros [c|]; [|apply moves_ret; by intros m []].
  apply moves_lift_bind. intros [] _. apply moves_ret. intros m (_ & Hid & Hc) Hst.
  by eapply read_known_not_active.
Qed.

Lemma moves_revoke_any K n id caller : stable K → moves K (revoke clock n id caller) (λ _ _, True).
Proof.
  intros HK. induction n as [|n IH]; [apply moves_throw|]. cbn [revoke].
  apply output_moves_seq; [done|by eapply moves_getForCaller|]. intros [c|]; [|by apply moves_ret].
  destruct (negb _); [by apply moves_ret|]. apply output_moves_seq; [done|apply output_moves_read_now|]. intros now.
  apply output_moves_seq; [done|by eapply moves_deleteExplicit|]. intros [r|r|]; [by apply moves_ret|exact IH|by apply moves_ret].
Qed.

Lemma output_moves_revoke K n caller : stable K → moves K (revoke clock n refId caller) (λ _ m, not_active m).
Proof.
  intros HK. induction n as [|n IH]; [apply moves_throw|]. cbn [revoke].
  eapply moves_bind; [done|by apply moves_find|]. intros [c|]; [|apply moves_ret; by intros m []].
  case_bool_decide as Hst; cbn [negb]; [|apply moves_ret; intros m [_ Hn]; by apply Hn].
  apply moves_forget, output_moves_seq; [done|apply output_moves_read_now|]. intros now.
  eapply moves_bind; [done|by eapply moves_deleteExplicit_revokes|].
  intros [r|r|]; [apply moves_ret; by intros m []|by apply moves_forget|apply moves_ret; by intros m []].
Qed.

Lemma moves_clean_pending K r caller : stable K → moves K (clean_pending r caller) (λ _ _, True).
Proof.
  intros HK. apply output_moves_seq; [done|by eapply moves_cleanupPending|]. intros o. by apply moves_ret.
Qed.

Lemma moves_cleanup K r caller : stable K → moves K (cleanup clock r caller) (λ _ _, True).
Proof.
  intros HK. unfold cleanup. case_bool_decide; [by apply moves_clean_pending|].
  apply output_moves_seq; [done|apply output_moves_read_now|]. intros now.
  apply output_moves_seq; [done|by eapply moves_markCleanupPending|].
  intros [p|p|]; [by apply moves_clean_pending|by apply moves_ret..].
Qed.

Lemma moves_clean_both K output src caller signal :
  stable K → moves K (clean_both clock output src caller signal) (λ _ _, True).
Proof.
  intros HK. apply output_moves_seq; [done|by apply moves_revoke_any|]. intros source.
  apply output_moves_seq; [done|apply moves_active|]. intros _. apply output_moves_seq; [done| |].
  { destruct source; [by apply moves_cleanup|by apply moves_ret]. }
  intros []; [|by apply moves_ret]. apply output_moves_seq; [done|apply moves_active|]. intros _.
  apply output_moves_seq; [done|by apply moves_cleanup|]. intros b.
  apply output_moves_seq; [done|apply moves_active|]. intros _. by apply moves_ret.
Qed.

Lemma moves_or_unavailable {A} K (c : M S A) Q : moves K c Q → moves K (or_unavailable c) Q.
Proof. intros Hc. apply moves_catch; [|done]. intros e. destruct (is_code _ e); apply moves_throw. Qed.

(** The computation moves the store and keeps [K] afterwards, result or not. *)
Lemma moves_then {A} (K : memory → Prop) (c : M S A) s :
  stable K → moves K c (λ _ _, True) → keyed (view s) → K (view s) →
  artifact_env refId (view s) (view (c s).2) ∧ K (view (c s).2) ∧ keyed (view (c s).2).
Proof.
  intros HK Hc Hg Hs. destruct (Hc s Hg Hs) as [He _]. split_and!; [done|by eapply HK|by apply He].
Qed.

Lemma stable_not_active : stable not_active.
Proof. apply not_active_stable'. Qed.

(** What is left to do keeps the output inactive. *)
Lemma moves_inactive {A B} (K : memory → Prop) (c : M S A) (f : A → M S B) :
  (∀ m, K m → not_active m) → moves not_active c (λ _ _, True) →
  (∀ a, moves not_active (f a) (λ _ m, not_active m)) → moves K (c ≫= f) (λ _ m, not_active m).
Proof.
  intros HK Hc Hf. apply (moves_mono view not_active K _ (λ _ m, not_active m)); [exact HK|done|].
  apply output_moves_seq; [apply stable_not_active|exact Hc|exact Hf].
Qed.

Lemma moves_revoke_output caller signal :
  moves (λ _, True) (revoke_output clock refId caller signal) (λ _ m, not_active m).
Proof.
  apply moves_or_unavailable. eapply moves_bind; [apply stable_const|by apply moves_find, stable_const|].
  intros [output|].
  - apply moves_forget, output_moves_seq; [apply stable_const|apply moves_active|]. intros _.
    apply moves_lift_bind. intros [] _. eapply moves_bind; [apply stable_const|by apply output_moves_revoke, stable_const|].
    intros o. apply moves_inactive; [by intros m []|apply moves_active|]. intros _. by apply moves_ret.
  - apply moves_inactive; [by intros m []|apply moves_active|]. intros _. by apply moves_ret.
Qed.

Lemma output_moves_delete caller signal :
  is_intent_ref refId = false →
  moves (λ _, True) (delete clock this refId caller signal) (λ _ m, not_active m).
Proof.
  intros Hno. apply output_moves_seq; [apply stable_const|apply moves_active|]. intros _.
  unfold readIntent. rewrite Hno. cbn [negb].
  apply moves_bind with (Q := λ o _, o = None); [apply stable_const|by apply moves_ret|]. intros o.
  apply (moves_pure view _ (o = None)); [by intros m []|]. intros ->.
  apply moves_forget. eapply moves_bind; [apply stable_const|apply moves_revoke_output|].
  intros [output|]; [|apply moves_ret; by intros m []].
  apply (moves_mono view not_active _ _ (λ _ m, not_active m)); [by intros m []|done|].
  destruct (am_details output.1) as [| |]; try apply moves_throw. intros s Hg Hs.
  assert (Hm : moves not_active (catch (clean_both clock output sourceRefId caller signal)
    (λ e, if is_code CANCELLED e then throw e else mret {| cleanupPending := true |})) (λ _ _, True)).
  { apply moves_catch; [intros e; case_match; [apply moves_throw|by apply moves_ret]|].
    apply moves_clean_both, stable_not_active. }
  eapply wp_mono; [by apply Hm|]. intros r s' [He _]. split; [done|].
  destruct r; [|done]. by eapply stable_not_active.
Qed.

(** *** Reading what is not active *)

Lemma moves_any_get K key : stable K → moves K (ds_get key) (λ _ _, True).
Proof.
  intros HK. eapply (moves_atomic view env); [exact Henv|exact HK|apply get_atomic|]. intros m _ _.
  destruct (mem_get_spec key m) as [-> [[e ->]| ->]]; (split; [apply artifact_env_refl|done]).
Qed.

Lemma moves_getStored_inactive :
  moves not_active (getStored refId) (λ o _, ∀ c, o = Some c → am_status (publicMetadata c.1) ≠ DurableArtifacts.active).
Proof.
  intros s _ Hn. apply (wp_getStored view env).
  - intros s' He _. split; [by apply Henv|done].
  - intros a rev s' He Hat. split; [by apply Henv|]. intros c [= <-].
    exact (not_active_stable refId _ _ (Henv _ _ He) Hn _ _ Hat).
  - intros e s' He. split; [by apply Henv|done].
Qed.

Context (Hport : ∀ port ref caller signal s,
  externalSources this = Some port → env (view s) (view (port ref caller signal s).2)).

Lemma moves_external K ref caller signal :
  stable K → moves K (assertExternalSource clock this ref caller signal) (λ _ _, True).
Proof.
  intros HK. apply output_moves_seq; [done|apply moves_active|]. intros _.
  destruct (externalSources this) as [port|] eqn:Hx; [|apply moves_throw]. apply moves_or_unavailable.
  assert (Hr : moves K (isExternalSourceRevoked ref caller) (λ _ _, True)).
  { apply moves_lift_bind. intros key _. apply output_moves_seq; [done|by eapply moves_any_get|].
    intros [r|]; [|by apply moves_ret]. apply moves_lift_bind. intros h _. by apply moves_ret. }
  apply output_moves_seq; [done|exact Hr|]. intros b. apply moves_lift_bind. intros [] _.
  apply output_moves_seq; [done|apply (moves_elsewhere view env K _ (λ _, True)); [exact Henv| |done]; intros; by apply Hport|].
  intros x. apply output_moves_seq; [done|apply moves_active|]. intros _.
  apply output_moves_seq; [done|exact Hr|]. intros b'. apply moves_lift_bind. intros [] _.
  apply output_moves_seq; [done|case_match; [apply output_moves_read_now|by apply moves_ret]|]. intros now.
  apply moves_lift_bind. intros [] _. by apply moves_ret.
Qed.

Lemma moves_activeOutput caller signal :
  is_intent_ref refId = false →
  moves not_active (activeOutput clock this refId caller signal) (λ _ _, False).
Proof.
  intros Hno. pose proof stable_not_active as HK.
  apply output_moves_seq; [done|apply moves_active|]. intros _.
  apply output_moves_seq; [done| |].
  { unfold readIntent. rewrite Hno. by apply moves_ret. }
  intros o. apply moves_lift_bind. intros [] _.
  eapply moves_bind with (Q := λ o m, ∀ r, o = Some r → am_status r.1 ≠ DurableArtifacts.active); [done| |].
  { eapply moves_bind with (Q := λ o m, ∀ c, o = Some c → am_status (publicMetadata c.1) ≠ DurableArtifacts.active);
      [done|by eapply moves_getStored_inactive|].
    intros [c|]; [|by apply moves_ret]. apply moves_lift_bind. intros [] _. apply moves_ret.
    intros m [_ Hc] r [= <-]. by apply Hc. }
  intros output. apply (moves_pure view _ (∀ r, output = Some r → am_status r.1 ≠ DurableArtifacts.active));
    [by intros m []|]. intros Hst. apply moves_forget, output_moves_seq; [done|apply moves_active|]. intros _.
  destruct output as [output|]; [|apply moves_throw]. destruct (am_details output.1) as [|src v external|]; try apply moves_throw.
  apply output_moves_seq; [done| |].
  { destruct external; [|by apply moves_ret]. apply output_moves_seq; [done|by apply moves_external|]. intros x. by apply moves_ret. }
  intros _. apply output_moves_seq; [done|by eapply moves_getForCaller|]. intros source.
  apply output_moves_seq; [done|apply moves_active|]. intros _. apply output_moves_seq; [done|apply output_moves_read_now|]. intros now.
  unfold is_active_at at 1. rewrite (bool_decide_false (am_status output.1 = _)) by (by apply Hst). apply moves_throw.
Qed.

Lemma output_moves_read_revoked caller offset maxBytes signal :
  is_intent_ref refId = false →
  moves not_active (read clock toBase64 this refId caller offset maxBytes signal) (λ _ _, False).
Proof.
  intros Hno. pose proof stable_not_active as HK. apply output_moves_seq; [done|apply moves_active|]. intros _.
  apply moves_lift_bind. intros [] _. apply moves_or_unavailable.
  eapply moves_bind with (Q := λ _ _, False); [done| |by intros []; intros s _ []].
  eapply moves_bind; [done|by apply moves_activeOutput|]. by intros r s _ [].
Qed.
End deletion.

(** *** Outputs with and without a reservation *)

(** An output without one stays deleted: the others do not put its artifact
    anew, and neither do the calls that follow. *)
Record left_deleted {S} `{!DurableRecordStorePort S} `{!ImmutableBlobPort S} (clock : S → Z * S)
    (this : DurableDocumentOutputRuntime S) (refId : string) (view : S → memory) (env : memory → memory → Prop)
    (cs : list artifact_call) (s : S) : Prop := {
  ld_laws : DurableStoreLaws view env;
  ld_env m m' : env m m' → artifact_env refId m m';
  ld_blobs : quiet_blobs view env;
  ld_scan : scan_reports view;
  ld_clock s : env (view s) (view (clock s).2);
  ld_sources port ref caller signal s :
    externalSources this = Some port → env (view s) (view (port ref caller signal s).2);
  ld_keyed : keyed (view s);
  ld_calls : Forall (puts_other refId) cs
}.

(** The reservation of one that has it is there, and the others keep it. *)
Definition left_reserved {S} `{!DurableRecordStorePort S} `{!ImmutableBlobPort S} (clock : S → Z * S)
    (this : DurableDocumentOutputRuntime S) (T : Z) (refId : string) (view : S → memory) (env : memory → memory → Prop)
    (s : S) : Prop :=
  ∃ store : IntentStore S, intents this = Some store ∧ intents_apart clock store T refId view env ∧
                           reserved_until T refId (view s).

(** C33: once the deletion of a document output returned, no chunk of it is
    read again, by any caller and however other workers interleave.  An output
    without a reservation: whatever calls follow on the artifacts that do not
    put it anew.  An output saved for an operation, which its reservation
    names: whatever is done to its artifacts, also if the bytes could not be
    removed or are put again by a save that was under way, for as long as the
    reservation is kept, as the sweeps until its expiry [T] do
    ([sweep_keeps_reservation]).  [view] shows the store of the artifacts or
    that of the reservations, respectively. *)
Theorem deleted_output_is_never_read {S} `{!Sha256Api} `{!DurableRecordStorePort S} `{!ImmutableBlobPort S}
    (clock : S → Z * S) (toBase64 : bytes → string) (this : DurableDocumentOutputRuntime S)
    (refId : string) (T : Z) (view : S → memory) (env : memory → memory → Prop)
    owner signal s d s1 cs caller offset maxBytes signal' :
  (if is_intent_ref refId then left_reserved clock this T refId view env s
   else left_deleted clock this refId view env cs s) →
  delete clock this refId owner signal s = (Ok d, s1) →
  is_Throw (read clock toBase64 this refId caller offset maxBytes signal' (call_artifacts cs s1).2).1.
Proof.
  intros Hleft Hrun. destruct (is_intent_ref refId) eqn:Href.
  - destruct Hleft as (store & Hst & Hapart & Hs).
    pose proof (delete_revokes clock this store refId view env T Hst Hapart owner signal s Href Hs) as Hd.
    unfold wp in Hd. rewrite Hrun in Hd. specialize (Hd d eq_refl). cbn in Hd.
    pose proof (kept_call_artifacts clock store refId view env T Hapart cs s1 Hd) as Hd2.
    exact (read_revoked clock this store refId view env T Hst Hapart toBase64 caller offset maxBytes signal' _ Href Hd2).
  - destruct Hleft as [Laws Henv Hquiet Hscan Hclock Hport Hk Hcs].
    pose proof (output_moves_delete clock this refId view env Henv Hquiet Hclock owner signal Href s Hk I) as Hd.
    unfold wp in Hd. rewrite Hrun in Hd. destruct Hd as [[Hk1 He1] Hn1]. cbn in Hn1.
    pose proof (moves_call_artifacts view env refId cs s1 Henv Hquiet Hscan Hcs (Hk1 Hk)) as He2.
    pose proof (not_active_stable refId _ _ He2 Hn1) as Hn2.
    destruct (output_moves_read_revoked clock toBase64 this refId view env Henv Hclock Hport caller offset maxBytes
      signal' Href (call_artifacts cs s1).2 (proj1 He2 (Hk1 Hk)) Hn2) as [_ Hf].
    destruct (read _ _ _ _ _ _ _ _ _).1 as [c|e]; [done|by eexists].
Qed.

(** ** A store shared with others *)

Module OutputDemo.
#[export] Instance digest : Sha256Api := zero_digest.
#[export] Instance port (env : memory → memory → Prop) : DurableRecordStorePort (SharedStore env) := ArtifactDemo.port env.
#[export] Instance blobs (env : memory → memory → Prop) : ImmutableBlobPort (SharedStore env) := ArtifactDemo.blobs env.

Definition clock {S} (s : S) : Z * S := (1000%Z, s).
Definition uuids {env : memory → memory → Prop} (s : SharedStore env) : string * SharedStore env :=
  (unchars [ascii_of_nat (97 + length (contents s))], s).
Definition base64 (b : bytes) : string := unchars b.
Definition this (env : memory → memory → Prop) : DurableDocumentOutputRuntime (SharedStore env) :=
  {| ttlSeconds := 86400; externalSources := None; intents := Some (port env) |}.
Definition calm {env : memory → memory → Prop} : AbortSignal (SharedStore env) := λ _, false.

(** The payload's JSON has as many bytes as the blob that the demo keeps. *)
Definition input (operationKey : option string) : SaveDurableDocumentOutputInput :=
  {| so_caller := ArtifactDemo.caller; so_sourceBytes := ArtifactDemo.content; so_mimeType := "text/plain";
     so_filename := "a.txt"; so_payload := JStr "abc"; so_sourceExpiresAt := None; so_externalSourceRef := None;
     so_operationKey := operationKey |}.
Definition forward := artifact_env "art_b".
Definition saved (env : memory → memory → Prop) (operationKey : option string) : SharedStore env :=
  (save clock uuids (this env) (input operationKey) calm (ArtifactDemo.empty env)).2.
Definition ref : string := "art_b".
Definition reading {env : memory → memory → Prop} (s : SharedStore env) :=
  (read clock base64 (this env) ref ArtifactDemo.caller (int 0) (int 100) calm s).1.
Abbreviation deletion := (delete clock (this forward) ref ArtifactDemo.caller calm (saved forward None)).

Lemma outcome_of {A B} (p : A * B) a : p.1 = a → p = (a, p.2).
Proof. destruct p. by intros [= ->]. Qed.

Example output_demo_runs :
  (match reading (saved ArtifactDemo.any None) with Ok c => ch_dataBase64 c | Throw _ => "" end) = "hello"%string ∧
  deletion.1 = Ok {| cleanupPending := false |} ∧
  contents deletion.2 = [].
Proof. split_and!; vm_compute; reflexivity. Qed.

Lemma keyed_decided (m : memory) :
  bool_decide (map_ok m) = true → forallb (λ '(k, r), bool_decide (rec_key r = k)) m = true → keyed m.
Proof.
  intros Hok%bool_decide_eq_true Hall. split; [done|]. intros k r Hr%map_get_Some; [|done].
  rewrite forallb_forall in Hall. apply list_elem_of_In in Hr. specialize (Hall _ Hr). cbn in Hall. by apply bool_decide_eq_true in Hall.
Qed.

Definition job : string := match operationRef "job-1" ArtifactDemo.caller with Ok r => r | Throw _ => "" end.
(** Another worker deletes the job's output. *)
Definition remove (m : memory) : memory :=
  contents (delete clock (this ArtifactDemo.any) job ArtifactDemo.caller calm
    {| contents := m; turns := [] : list (turn ArtifactDemo.any) |}).2.
Definition removal : turn ArtifactDemo.any := Build_turn ArtifactDemo.any remove (λ _, I) None.
(** Between the reads of the bytes and the last look at the output. *)
Definition racing : SharedStore ArtifactDemo.any :=
  {| contents := contents (saved ArtifactDemo.any (Some "job-1"%string));
     turns := replicate 9 ArtifactDemo.pass ++ [removal] |}.
Definition recovery := recoverOperation clock (this ArtifactDemo.any) "job-1" ArtifactDemo.caller calm racing.
End OutputDemo.

#[local] Existing Instances OutputDemo.digest OutputDemo.port OutputDemo.blobs.

(** The last look at the output while an operation is recovered is in vain: the
    output was deleted meanwhile, which is found out, and still the operation
    is reported as ready. *)
Theorem recovered_output_can_be_deleted :
  OutputDemo.recovery.1 = Ok (Some {| rv_refId := OutputDemo.job; rv_ready := true |}) ∧
  (recoverOperation OutputDemo.clock (OutputDemo.this ArtifactDemo.any) "job-1" ArtifactDemo.caller OutputDemo.calm
     OutputDemo.recovery.2).1 = Ok (Some {| rv_refId := OutputDemo.job; rv_ready := false |}) ∧
  map_get ("artifact:" +:+ OutputDemo.job) (contents OutputDemo.recovery.2) = None.
Proof. split_and!; vm_compute; reflexivity. Qed.

(** ** Two stores *)

(** A store each for the artifacts and for the reservations. *)
Definition on_first {X Y A} (c : M X A) : M (X * Y) A := λ s, let '(r, x) := c s.1 in (r, (x, s.2)).
Definition on_second {X Y A} (c : M Y A) : M (X * Y) A := λ s, let '(r, y) := c s.2 in (r, (s.1, y)).

Definition first_port {X Y} `{!DurableRecordStorePort X} : DurableRecordStorePort (X * Y) :=
  {| ds_get k := on_first (ds_get k); ds_createIfAbsent i := on_first (ds_createIfAbsent i);
     ds_compareAndSwap k rev u := on_first (ds_compareAndSwap k rev u);
     ds_deleteIfRevision k rev := on_first (ds_deleteIfRevision k rev);
     ds_scanExpired now cursor limit := on_first (ds_scanExpired now cursor limit) |}.
Definition second_port {X Y} `{!DurableRecordStorePort Y} : DurableRecordStorePort (X * Y) :=
  {| ds_get k := on_second (ds_get k); ds_createIfAbsent i := on_second (ds_createIfAbsent i);
     ds_compareAndSwap k rev u := on_second (ds_compareAndSwap k rev u);
     ds_deleteIfRevision k rev := on_second (ds_deleteIfRevision k rev);
     ds_scanExpired now cursor limit := on_second (ds_scanExpired now cursor limit) |}.

Lemma first_untouched {X Y A} (c : M X A) (s : X * Y) : (on_first c s).2.2 = s.2.
Proof. unfold on_first. by destruct (c s.1). Qed.

Lemma second_laws {X Y} `{!DurableRecordStorePort Y} (view : Y → memory) env :
  DurableStoreLaws view env → DurableStoreLaws (H := second_port) (λ s : X * Y, view s.2) env.
Proof.
  intros Hlaws.
  assert (Hop : ∀ A (op : M Y A) spec, atomic view env op spec → atomic (λ s : X * Y, view s.2) env (on_second op) spec).
  { intros A op spec Ha s. destruct (Ha s.2) as (m & He & Hm). exists m. split; [done|].
    unfold on_second. by destruct (op s.2). }
  split; [apply env_refl|apply env_trans|intros; apply Hop..|].
  - apply get_atomic. - apply create_atomic. - apply cas_atomic. - apply delete_atomic.
  - intros now cursor limit s. pose proof (scan_reads (view := view) (env := env) now cursor limit s.2) as Hs.
    cbn. unfold on_second. by destruct (ds_scanExpired now cursor limit s.2).
Qed.

Module ReservedDemo.
Import OutputDemo.
Abbreviation ref := OutputDemo.job.
(** When the reservation of the demo expires. *)
Definition horizon : Z := 1000 + 86400 * 1000 - 1.
Definition others := keeps_reservation horizon ref.
Definition state : Type := SharedStore ArtifactDemo.any * SharedStore others.

#[export] Instance port : DurableRecordStorePort state := first_port.
#[export] Instance blobs : ImmutableBlobPort state := {
  blob_putIfAbsent key owner digest b := mret (BlobCreated ArtifactDemo.stat);
  blob_stat key := mret (Some ArtifactDemo.stat);
  blob_get key owner digest maxBytes := mret (Some ArtifactDemo.content);
  blob_deleteIfOwner key owner := throw TOther
}.
Definition reservations : IntentStore state := second_port.
Definition this : DurableDocumentOutputRuntime state :=
  {| ttlSeconds := 86400; externalSources := None; intents := Some reservations |}.
Definition uuids (s : state) : string * state := ("u"%string, s).
Definition calm : AbortSignal state := λ _, false.

(** Another worker sweeps the reservations just before the expiry. *)
Definition sweep (m : memory) : memory :=
  (sweepExpiredIntents {| ttlSeconds := 86400; externalSources := None;
                          intents := Some (InMemoryDurableRecordStore (λ _ _, 0%Z)) |} (int horizon) None (int 100) m).2.
Definition sweep_turn : turn others.
Proof. refine (Build_turn others sweep _ None). intros m. by apply sweep_keeps_reservation. Defined.

Definition saved : state :=
  (save clock uuids this (input (Some "job-1"%string)) calm
     ({| contents := []; turns := [] |}, {| contents := []; turns := [] |})).2.
Definition busy : state := (saved.1, {| contents := contents saved.2; turns := [sweep_turn; sweep_turn] |}).
Abbreviation deletion := (delete clock this ref ArtifactDemo.caller calm busy).
Abbreviation reading s := (read clock base64 this ref ArtifactDemo.caller (int 0) (int 100) calm s).1.

(** The bytes cannot be removed; still the output is not read again. *)
Example reserved_demo_runs :
  (match reading busy with Ok c => ch_dataBase64 c | Throw _ => "" end) = "hello"%string ∧
  deletion.1 = Ok {| cleanupPending := true |} ∧ length (contents deletion.2.1) = 2%nat.
Proof. split_and!; vm_compute; reflexivity. Qed.

Lemma others_refl m : others m m.
Proof. by split. Qed.

Lemma others_trans m1 m2 m3 : others m1 m2 → others m2 m3 → others m1 m3.
Proof. intros [H1 H2] [H3 H4]. split; auto. Qed.

Lemma on_first_quiet {A} (c : M (SharedStore ArtifactDemo.any) A) (s : state) :
  others (contents s.2) (contents (on_first c s).2.2).
Proof. rewrite first_untouched. apply others_refl. Qed.

Lemma apart : intents_apart clock reservations horizon ref (λ s, contents s.2) others.
Proof.
  split; [|done|intros; apply on_first_quiet..| |intros; apply others_refl].
  - apply second_laws, shared_store_laws; [apply others_refl|apply others_trans].
  - split; intros; apply others_refl.
Qed.

Definition until_expiry (m : memory) : bool :=
  match map_get (intent_key ref) m with
  | Some r => match parse_intent (value r) with Ok i => (horizon <? oi_expiresAt i)%Z | Throw _ => true end
  | None => false
  end.

Lemma reserved_decided m : keyed m → until_expiry m = true → reserved_until horizon ref m.
Proof.
  intros Hm. unfold until_expiry. destruct (map_get _ m) as [r|] eqn:Hr; [|done]. intros Hu. split; [done|].
  exists r. split; [done|]. intros i Hi. rewrite Hi in Hu. by apply Z.ltb_lt in Hu.
Qed.
End ReservedDemo.

#[local] Existing Instances ReservedDemo.port ReservedDemo.blobs.

Lemma deleted_output_is_never_read_witness :
  is_Throw (read OutputDemo.clock OutputDemo.base64 (OutputDemo.this OutputDemo.forward) OutputDemo.ref ArtifactDemo.caller
    (int 0) (int 100) OutputDemo.calm
    (call_artifacts [Get OutputDemo.ref] OutputDemo.deletion.2).2).1 ∧
  is_Throw (ReservedDemo.reading (call_artifacts [Get OutputDemo.job] ReservedDemo.deletion.2).2).
Proof.
  split.
  - refine (deleted_output_is_never_read OutputDemo.clock OutputDemo.base64 (OutputDemo.this OutputDemo.forward)
      OutputDemo.ref 0 contents OutputDemo.forward ArtifactDemo.caller OutputDemo.calm
      (OutputDemo.saved OutputDemo.forward None) {| cleanupPending := false |} OutputDemo.deletion.2
      [Get OutputDemo.ref] ArtifactDemo.caller (int 0) (int 100) OutputDemo.calm _ (OutputDemo.outcome_of OutputDemo.deletion _ _)).
    + rewrite (eq_refl : is_intent_ref OutputDemo.ref = false). split; [|done|split; intros; apply artifact_env_refl|apply shared_scan_reports|intros; apply artifact_env_refl|done| |
        by repeat constructor].
      * apply shared_store_laws; [apply artifact_env_refl|apply artifact_env_trans].
      * apply OutputDemo.keyed_decided; vm_compute; reflexivity.
    + vm_compute. reflexivity.
  - refine (deleted_output_is_never_read OutputDemo.clock OutputDemo.base64 ReservedDemo.this OutputDemo.job
      ReservedDemo.horizon (λ s, contents s.2) ReservedDemo.others ArtifactDemo.caller ReservedDemo.calm
      ReservedDemo.busy {| cleanupPending := true |} ReservedDemo.deletion.2
      [Get OutputDemo.job] ArtifactDemo.caller (int 0) (int 100) ReservedDemo.calm _ (OutputDemo.outcome_of ReservedDemo.deletion _ _)).
    + rewrite (eq_refl : is_intent_ref OutputDemo.job = true). exists ReservedDemo.reservations. split; [done|]. split; [exact ReservedDemo.apart|].
      apply ReservedDemo.reserved_decided; [apply OutputDemo.keyed_decided|]; vm_compute; reflexivity.
    + vm_compute. reflexivity.
Defined.
