(* ===== verification/CanonicalDocument.v ===== *)
(** * Canonical documents

    [src/core/canonical-document.ts]: the canonical envelope of a document,
    its validation, its projections to markdown, text and JSON, the part of it
    that a cache may keep, and the bounds on what is returned; and
    [src/core/canonical-document-schema.ts], its shape on the wire.

    Rows and columns of table cells are integers; the other numbers are any
    numbers.  Values have the types the code declares, so the tests on the type
    of a part are left out.  How a fraction prints is the runtime's. *)

From S2P Require Import Prelude JsString JsMap Digest Json.
From S2P Require DocumentDispatcher DurableArtifacts.

Abbreviation strict_object := DocumentDispatcher.strict_object.
Abbreviation by_name := DurableArtifacts.by_name.
Abbreviation optional_text := DurableArtifacts.optional_text.
Abbreviation rejected_value := DocumentDispatcher.rejected_value.

(** ** Data *)

Definition CANONICAL_SCHEMA_VERSION : string := "1.0.0".

Inductive SourceSpan :=
  | PageBboxSpan (page x y width height : number) (contentHash : string)
  | CharOffsetSpan (start end_ : number) (contentHash : string)
  | SheetCellSpan (sheet startCell endCell contentHash : string)
  | SlideShapeSpan (slide : number) (shapeId contentHash : string)
  | MediaTimeSpan (startMs endMs : number) (contentHash : string).

Record TableCell := {
  row : Z;
  col : Z;
  cell_content : string;
  rowSpan : option Z;
  colSpan : option Z
}.

Inductive FormulaFormat := latex | mathml | plain.

Inductive BlockBody :=
  | TextBlock (content : string)
  | TableBlock (cells : list TableCell)
  | AssetBlock (assetRef mimeType : string) (altText : option string)
  | FormulaBlock (expression : string) (format : FormulaFormat).

(** What all blocks have, and what they have by their type. *)
Record DocumentBlock := {
  blockId : string;
  body : BlockBody;
  spans : option (list SourceSpan)
}.

Record MetadataRecord := { md_key : string; md_value : string }.

Record CitationRecord := {
  citationId : string;
  label : string;
  target : string;
  cited_block : option string
}.

Inductive CapabilityState := available | unsupported | not_run | failed.

(** States by capability, as their texts. *)
Definition CapabilityStates : Type := js_map string.

Record SourceIdentity := {
  contentHash : string;
  url : option string;
  filename : option string;
  artifactRef : option string
}.

Record DocumentProvenance := {
  engine : string;
  model : string;
  version : string;
  cost : option number;
  confidence : option number
}.

Inductive DocumentStatus := st_success | st_partial | st_unsupported | st_failed.

(** The part of an envelope that does not depend on where it came from. *)
Record CanonicalContentCore := {
  schemaVersion : string;
  canonicalContentId : string;
  blocks : list DocumentBlock;
  readingOrder : list string;
  status : DocumentStatus;
  capabilityStates : CapabilityStates;
  warnings : list string;
  errors : list string;
  provenance : DocumentProvenance;
  metadata : option (list MetadataRecord);
  citations : option (list CitationRecord)
}.

(** An envelope: its own two properties, and those it shares with the core. *)
Record CanonicalDocumentEnvelope := {
  documentId : string;
  sourceIdentity : SourceIdentity;
  content_of : CanonicalContentCore
}.

Inductive ProjectionKind := kind_markdown | kind_structured | kind_text | kind_all.

Definition DEFAULT_PROJECTION_KIND : ProjectionKind := kind_markdown.

Record ProjectionResult := {
  projectionVersion : string;
  sourceDocumentId : string;
  pr_contentId : string;
  pr_kind : ProjectionKind;
  pr_content : string;
  lossy : bool;
  omissions : list string;
  pr_warnings : list string
}.

Record OutputBounds := {
  maxBytes : number;
  maxChars : number;
  maxBlocks : number;
  maxTables : number;
  maxAssets : number
}.

(** A dimension that is over its limit, with its value and the limit. *)
Record Exceeded := { exceededDimension : string; actualValue : Z; limitValue : number }.

(** [BoundsCheckResult]: [withinBounds], or what is exceeded. *)
Inductive BoundsCheckResult := WithinBounds | OutOfBounds (x : Exceeded).

Inductive CanonicalArtifactKind := source_artifact | canonical_document | projection_artifact.

Record TypedTruncatedResult := {
  summary : string;
  tr_provenance : DocumentProvenance;
  tr_artifactRef : string;
  artifactKind : CanonicalArtifactKind
}.

Inductive BoundedProjectionOutcome :=
  | Projected (p : ProjectionResult)
  | Truncated (t : TypedTruncatedResult).

(** ** Validation *)

Definition negative (x : number) : bool := num_ltb x (int 0).
Definition not_positive (x : number) : bool := num_leb x (int 0).

Definition validateSourceSpan (span : SourceSpan) : result unit :=
  match span with
  | PageBboxSpan page _ _ width height hash =>
      throw_if (negative page) (TError "PageBboxSpan page must be non-negative");;
      throw_if (not_positive width || not_positive height)
        (TError "PageBboxSpan width and height must be positive");;
      throw_if (falsy hash) (TError "PageBboxSpan must have a contentHash")
  | CharOffsetSpan start end_ hash =>
      throw_if (negative start) (TError "CharOffsetSpan start must be non-negative");;
      throw_if (num_leb end_ start) (TError "CharOffsetSpan end must be greater than start");;
      throw_if (falsy hash) (TError "CharOffsetSpan must have a contentHash")
  | SheetCellSpan sheet startCell endCell hash =>
      throw_if (falsy sheet) (TError "SheetCellSpan must have a sheet name");;
      throw_if (falsy startCell) (TError "SheetCellSpan must have a startCell");;
      throw_if (falsy endCell) (TError "SheetCellSpan must have an endCell");;
      throw_if (falsy hash) (TError "SheetCellSpan must have a contentHash")
  | SlideShapeSpan slide shapeId hash =>
      throw_if (negative slide) (TError "SlideShapeSpan slide must be non-negative");;
      throw_if (falsy shapeId) (TError "SlideShapeSpan must have a shapeId");;
      throw_if (falsy hash) (TError "SlideShapeSpan must have a contentHash")
  | MediaTimeSpan startMs endMs hash =>
      throw_if (negative startMs) (TError "MediaTimeSpan startMs must be non-negative");;
      throw_if (num_leb endMs startMs) (TError "MediaTimeSpan endMs must be greater than startMs");;
      throw_if (falsy hash) (TError "MediaTimeSpan must have a contentHash")
  end.

Fixpoint validate_spans (l : list SourceSpan) : result unit :=
  match l with
  | [] => Ok tt
  | span :: l' => validateSourceSpan span;; validate_spans l'
  end.

Definition validateBlock (block : DocumentBlock) : result unit :=
  throw_if (falsy (blockId block)) (TError "Block must have a non-empty blockId");;
  match body block with
  | TextBlock _ | TableBlock _ => Ok tt
  | AssetBlock assetRef mimeType _ =>
      throw_if (falsy assetRef) (TError ("AssetBlock " +:+ quoted (blockId block) +:+ " must have an assetRef"));;
      throw_if (falsy mimeType) (TError ("AssetBlock " +:+ quoted (blockId block) +:+ " must have a mimeType"))
  | FormulaBlock expression _ =>
      throw_if (falsy expression)
        (TError ("FormulaBlock " +:+ quoted (blockId block) +:+ " must have an expression"))
  end;;
  validate_spans (default [] (spans block)).

Definition VALID_CAPABILITY_STATES : list string := ["available"; "unsupported"; "not_run"; "failed"]%string.

Definition validateCapabilityState (state : string) : result unit :=
  throw_if (negb (bool_decide (state ∈ VALID_CAPABILITY_STATES)))
    (TError ("Invalid capability state " +:+ quoted state +:+ "; must be one of: " +:+
             join ", " VALID_CAPABILITY_STATES)).

Fixpoint validate_states (l : list (string * string)) : result unit :=
  match l with
  | [] => Ok tt
  | (_, state) :: l' => validateCapabilityState state;; validate_states l'
  end.

(** The loop over the blocks, with the ids seen so far; gives all ids. *)
Fixpoint validate_blocks (ids : list string) (l : list DocumentBlock) : result (list string) :=
  match l with
  | [] => Ok ids
  | block :: l' =>
      validateBlock block;;
      throw_if (bool_decide (blockId block ∈ ids)) (TError ("Duplicate block ID: " +:+ quoted (blockId block)));;
      validate_blocks (blockId block :: ids) l'
  end.

Fixpoint validate_order (ids ordered order : list string) : result (list string) :=
  match order with
  | [] => Ok ordered
  | id :: order' =>
      throw_if (negb (bool_decide (id ∈ ids)))
        (TError ("Reading order references unknown block ID: " +:+ quoted id));;
      throw_if (bool_decide (id ∈ ordered)) (TError ("Reading order duplicates block ID: " +:+ quoted id));;
      validate_order ids (id :: ordered) order'
  end.

(** A cost or a confidence that is not [null] and not a finite number in its range. *)
Definition bad_cost (c : option number) : bool :=
  match c with Some c => negb (isFinite c) || negative c | None => false end.
Definition bad_confidence (c : option number) : bool :=
  match c with Some c => negb (isFinite c) || negative c || num_ltb (int 1) c | None => false end.

Definition validateEnvelope (envelope : CanonicalDocumentEnvelope) : result unit :=
  let core := content_of envelope in
  let p := provenance core in
  throw_if (falsy (schemaVersion core)) (TError "Envelope must have a non-empty schemaVersion");;
  throw_if (falsy (documentId envelope)) (TError "Envelope must have a non-empty documentId");;
  throw_if (falsy (canonicalContentId core)) (TError "Envelope must have a non-empty canonicalContentId");;
  throw_if (falsy (contentHash (sourceIdentity envelope)))
    (TError "Envelope sourceIdentity must have a contentHash");;
  throw_if (falsy (engine p)) (TError "Envelope provenance must include engine");;
  throw_if (falsy (model p)) (TError "Envelope provenance must include model");;
  throw_if (falsy (version p)) (TError "Envelope provenance must include version");;
  throw_if (bad_cost (cost p)) (TError "Envelope provenance cost must be non-negative");;
  throw_if (bad_confidence (confidence p)) (TError "Envelope provenance confidence must be between 0 and 1");;
  ids ← validate_blocks [] (blocks core);
  ordered ← validate_order ids [] (readingOrder core);
  throw_if (negb (length ordered =? length ids)) (TError "Reading order must include every canonical block");;
  validate_states (capabilityStates core).

(** ** Status *)

(** The two flags after a pass over the required capabilities. *)
Fixpoint status_flags (states : CapabilityStates) (required : list string) (hasUnsupported hasFailed : bool)
    : result (bool * bool) :=
  match required with
  | [] => Ok (hasUnsupported, hasFailed)
  | cap :: required' =>
      match map_get cap states with
      | None => status_flags states required' hasUnsupported true
      | Some state =>
          if bool_decide (state = "failed"%string) then status_flags states required' hasUnsupported true
          else if bool_decide (state = "unsupported"%string) then status_flags states required' true hasFailed
          else if bool_decide (state = "available"%string) || bool_decide (state = "not_run"%string)
               then status_flags states required' hasUnsupported hasFailed
          else Throw (TError ("Unknown capability state: " +:+ quoted state))
      end
  end.

Definition aggregateStatus (states : CapabilityStates) (required : list string) : result DocumentStatus :=
  flags ← status_flags states required false false;
  let (hasUnsupported, hasFailed) := (flags : bool * bool) in
  Ok (if hasFailed then st_failed else if hasUnsupported then st_partial else st_success).

(** ** JSON of documents

    Trees whose numbers are any numbers; [undefined] properties are left out. *)

Class NumberText := { fraction_text : number → string }.

Inductive tree :=
  | TNull
  | TNum (x : number)
  | TStr (s : string)
  | TArr (l : list tree)
  | TObj (fields : list (string * tree)).

(** [String(x)] *)
Definition String_number `{!NumberText} (x : number) : string :=
  match x with
  | NaN => "NaN"
  | PosInf => "Infinity"
  | NegInf => "-Infinity"
  | Num _ _ => if isInteger x then show (to_Z x) else fraction_text x
  end.

(** [JSON.stringify] *)
Fixpoint tree_chars `{!NumberText} (t : tree) : list ascii :=
  match t with
  | TNull => chars "null"
  | TNum x => chars (if isFinite x then String_number x else "null")
  | TStr s => quote_json s
  | TArr l => "["%char :: comma_list "]" (map tree_chars l)
  | TObj fields => "{"%char :: comma_list "}" (map (λ '(k, x), quote_json k ++ ":"%char :: tree_chars x) fields)
  end.

Definition tree_text `{!NumberText} (t : tree) : string := unchars (tree_chars t).

Definition field (name : string) (t : tree) : string * tree := (name, t).
Definition text_field (name s : string) : string * tree := (name, TStr s).
Definition number_field (name : string) (x : number) : string * tree := (name, TNum x).

(** A property that may be [undefined]. *)
Definition optional_field {A} (name : string) (f : A → tree) (a : option A) : list (string * tree) :=
  match a with Some a => [(name, f a)] | None => [] end.

Definition nullable {A} (f : A → tree) (a : option A) : tree := match a with Some a => f a | None => TNull end.

Definition span_tree (s : SourceSpan) : tree :=
  TObj (match s with
        | PageBboxSpan page x y width height hash =>
            [text_field "kind" "page-bbox"; number_field "page" page; number_field "x" x; number_field "y" y;
             number_field "width" width; number_field "height" height; text_field "contentHash" hash]
        | CharOffsetSpan start end_ hash =>
            [text_field "kind" "char-offset"; number_field "start" start; number_field "end" end_;
             text_field "contentHash" hash]
        | SheetCellSpan sheet startCell endCell hash =>
            [text_field "kind" "sheet-cell"; text_field "sheet" sheet; text_field "startCell" startCell;
             text_field "endCell" endCell; text_field "contentHash" hash]
        | SlideShapeSpan slide shapeId hash =>
            [text_field "kind" "slide-shape"; number_field "slide" slide; text_field "shapeId" shapeId;
             text_field "contentHash" hash]
        | MediaTimeSpan startMs endMs hash =>
            [text_field "kind" "media-time"; number_field "startMs" startMs; number_field "endMs" endMs;
             text_field "contentHash" hash]
        end).

Definition int_tree (z : Z) : tree := TNum (int z).

Definition cell_tree (c : TableCell) : tree :=
  TObj ([number_field "row" (int (row c)); number_field "col" (int (col c)); text_field "content" (cell_content c)] ++
        optional_field "rowSpan" int_tree (rowSpan c) ++ optional_field "colSpan" int_tree (colSpan c)).

Definition format_name (f : FormulaFormat) : string :=
  match f with latex => "latex" | mathml => "mathml" | plain => "plain" end.

Definition type_name (b : BlockBody) : string :=
  match b with
  | TextBlock _ => "text" | TableBlock _ => "table" | AssetBlock _ _ _ => "asset" | FormulaBlock _ _ => "formula"
  end.

Definition body_fields (b : BlockBody) : list (string * tree) :=
  match b with
  | TextBlock content => [text_field "content" content]
  | TableBlock cells => [field "cells" (TArr (map cell_tree cells))]
  | AssetBlock assetRef mimeType altText =>
      [text_field "assetRef" assetRef; text_field "mimeType" mimeType] ++ optional_field "altText" TStr altText
  | FormulaBlock expression format =>
      [text_field "expression" expression; text_field "format" (format_name format)]
  end.

Definition block_tree (b : DocumentBlock) : tree :=
  TObj ([text_field "type" (type_name (body b)); text_field "blockId" (blockId b)] ++ body_fields (body b) ++
        optional_field "spans" (λ l, TArr (map span_tree l)) (spans b)).

Definition texts_tree (l : list string) : tree := TArr (map TStr l).

Definition status_name (s : DocumentStatus) : string :=
  match s with
  | st_success => "success" | st_partial => "partial" | st_unsupported => "unsupported" | st_failed => "failed"
  end.

Definition provenance_tree (p : DocumentProvenance) : tree :=
  TObj [text_field "engine" (engine p); text_field "model" (model p); text_field "version" (version p);
        field "cost" (nullable TNum (cost p)); field "confidence" (nullable TNum (confidence p))].

Definition metadata_tree (m : MetadataRecord) : tree :=
  TObj [text_field "key" (md_key m); text_field "value" (md_value m)].

Definition citation_tree (c : CitationRecord) : tree :=
  TObj ([text_field "citationId" (citationId c); text_field "label" (label c); text_field "target" (target c)] ++
        optional_field "blockId" TStr (cited_block c)).

Definition states_tree (states : CapabilityStates) : tree := TObj (map (λ kv, text_field kv.1 kv.2) states).

(** The properties from [blocks] on, in the order all envelopes have them. *)
Definition content_fields (c : CanonicalContentCore) : list (string * tree) :=
  [field "blocks" (TArr (map block_tree (blocks c))); field "readingOrder" (texts_tree (readingOrder c));
   text_field "status" (status_name (status c)); field "capabilityStates" (states_tree (capabilityStates c));
   field "warnings" (texts_tree (warnings c)); field "errors" (texts_tree (errors c));
   field "provenance" (provenance_tree (provenance c))] ++
  optional_field "metadata" (λ l, TArr (map metadata_tree l)) (metadata c) ++
  optional_field "citations" (λ l, TArr (map citation_tree l)) (citations c).

Definition core_tree (c : CanonicalContentCore) : tree :=
  TObj (text_field "schemaVersion" (schemaVersion c) :: text_field "canonicalContentId" (canonicalContentId c) ::
        content_fields c).

Definition identity_tree (i : SourceIdentity) : tree :=
  TObj (text_field "contentHash" (contentHash i) :: optional_field "url" TStr (url i) ++
        optional_field "filename" TStr (filename i) ++ optional_field "artifactRef" TStr (artifactRef i)).

Definition envelope_tree (e : CanonicalDocumentEnvelope) : tree :=
  TObj ([text_field "schemaVersion" (schemaVersion (content_of e)); text_field "documentId" (documentId e);
         text_field "canonicalContentId" (canonicalContentId (content_of e));
         field "sourceIdentity" (identity_tree (sourceIdentity e))] ++ content_fields (content_of e)).

(** ** The core, and the source it is bound to *)

Definition extractContentCore (envelope : CanonicalDocumentEnvelope) : CanonicalContentCore :=
  content_of envelope.

Definition computeContentHash `{!NumberText} `{!Sha256Api} (bs : list DocumentBlock) : string :=
  sha256 (utf8 (tree_text (TArr (map block_tree bs)))).

Definition rebuildSourceBinding (core : CanonicalContentCore) (identity : SourceIdentity) (id : string)
    : CanonicalDocumentEnvelope :=
  {| documentId := id; sourceIdentity := identity; content_of := core |}.

(** ** Projections *)

Definition PROJECTION_VERSION : string := "1.0.0".

Definition MAX_ARRAY_LENGTH : Z := 2 ^ 32 - 1.

Definition max_of (l : list Z) (z : Z) : Z := foldl Z.max z l.

(** [grid[cell.row]![cell.col] = cell.content]: a row before the first is no
    array, a column before the first is a property that [join] does not see. *)
Definition set_cell (grid : list (list string)) (c : TableCell) : result (list (list string)) :=
  if (row c <? 0)%Z then Throw (TError "Cannot set properties of undefined")
  else if (col c <? 0)%Z then Ok grid
  else Ok (alter (λ r, <[Z.to_nat (col c) := cell_content c]> r) (Z.to_nat (row c)) grid).

Fixpoint set_cells (grid : list (list string)) (cs : list TableCell) : result (list (list string)) :=
  match cs with
  | [] => Ok grid
  | c :: cs' => grid' ← set_cell grid c; set_cells grid' cs'
  end.

Definition table_line (r : list string) : string := "| " +:+ join " | " r +:+ " |".

(** The lines of a grid, with a rule after the first. *)
Definition table_lines (grid : list (list string)) : list string :=
  match grid with
  | [] => []
  | r :: rs => table_line r :: table_line (map (λ _, "---"%string) r) :: map table_line rs
  end.

Definition new_line : string := unchars [newline].

(** The grid of a table with a cell [c]. *)
Definition table_grid (c : TableCell) (cs : list TableCell) : result (list (list string)) :=
  let maxRow := max_of (map row cs) (row c) in
  let maxCol := max_of (map col cs) (col c) in
  throw_if ((MAX_ARRAY_LENGTH <? maxRow + 1)%Z || (0 <=? maxRow)%Z && (MAX_ARRAY_LENGTH <? maxCol + 1)%Z)
    (TError "Invalid array length");;
  set_cells (replicate (Z.to_nat (maxRow + 1)) (replicate (Z.to_nat (maxCol + 1)) "")) (c :: cs).

Definition blockToMarkdown (block : DocumentBlock) : result string :=
  match body block with
  | TextBlock content => Ok content
  | TableBlock [] => Ok ""
  | TableBlock (c :: cs) => grid ← table_grid c cs; Ok (join new_line (table_lines grid))
  | AssetBlock assetRef _ altText =>
      Ok ("![" +:+ default assetRef altText +:+ "](" +:+ assetRef +:+ ")")
  | FormulaBlock expression latex => Ok ("$$" +:+ expression +:+ "$$")
  | FormulaBlock expression _ => Ok expression
  end.

(** The comparison of two cells is negative or zero. *)
Definition cell_leb (a b : TableCell) : bool :=
  (row a <? row b)%Z || (row a =? row b)%Z && (col a <=? col b)%Z.

Fixpoint insert_cell (c : TableCell) (cs : list TableCell) : list TableCell :=
  match cs with
  | [] => [c]
  | c' :: cs' => if cell_leb c c' then c :: cs else c' :: insert_cell c cs'
  end.

(** [[...cells].sort(...)], which is stable. *)
Definition sort_cells (cs : list TableCell) : list TableCell := foldr insert_cell [] cs.

Definition tab : string := unchars [ascii_of_nat 9].

Definition blockToText (block : DocumentBlock) : string :=
  match body block with
  | TextBlock content => content
  | TableBlock [] => ""
  | TableBlock cells => join tab (map cell_content (sort_cells cells))
  | AssetBlock assetRef _ altText => default ("[asset:" +:+ assetRef +:+ "]") altText
  | FormulaBlock expression _ => expression
  end.

(** The block of an id, or the error that there is none. *)
Definition block_of (bs : list DocumentBlock) (id : string) : result DocumentBlock :=
  match find (λ b, bool_decide (blockId b = id)) bs with
  | Some b => Ok b
  | None => Throw (TError ("Block " +:+ quoted id +:+ " not found"))
  end.

Definition orderedBlocksOrThrow (envelope : CanonicalDocumentEnvelope) : result (list DocumentBlock) :=
  mapM (block_of (blocks (content_of envelope))) (readingOrder (content_of envelope)).

Definition is_type (name : string) (b : DocumentBlock) : bool := bool_decide (type_name (body b) = name).

Definition computeTextOmissions (bs : list DocumentBlock) : list string :=
  (if existsb (is_type "table") bs then ["table-structure"%string] else []) ++
  (if existsb (is_type "asset") bs then ["asset-bytes"%string] else []) ++
  (if existsb (is_type "formula") bs then ["formula-formatting"%string] else []).

(** A projection of the envelope that loses nothing, as all but the text. *)
Definition projection_of (envelope : CanonicalDocumentEnvelope) (kind : ProjectionKind) (text : string)
    : ProjectionResult :=
  {| projectionVersion := PROJECTION_VERSION; sourceDocumentId := documentId envelope;
     pr_contentId := canonicalContentId (content_of envelope); pr_kind := kind; pr_content := text;
     lossy := false; omissions := []; pr_warnings := [] |}.

Definition paragraph_break : string := unchars [newline; newline].

Definition markdown_of (bs : list DocumentBlock) : result string :=
  parts ← mapM blockToMarkdown bs; Ok (join paragraph_break parts).

Definition text_of (bs : list DocumentBlock) : string := join paragraph_break (map blockToText bs).

Definition projectToMarkdown (envelope : CanonicalDocumentEnvelope) : result ProjectionResult :=
  ordered ← orderedBlocksOrThrow envelope;
  text ← markdown_of ordered;
  Ok (projection_of envelope kind_markdown text).

Definition projectToText (envelope : CanonicalDocumentEnvelope) : result ProjectionResult :=
  ordered ← orderedBlocksOrThrow envelope;
  let omitted := computeTextOmissions ordered in
  Ok {| projectionVersion := PROJECTION_VERSION; sourceDocumentId := documentId envelope;
        pr_contentId := canonicalContentId (content_of envelope); pr_kind := kind_text;
        pr_content := text_of ordered; lossy := true; omissions := omitted;
        pr_warnings := match omitted with
                       | [] => []
                       | _ => ["text projection is lossy; structure flattened"%string]
                       end |}.

(** Typed, so it is known already to be one of the kinds. *)
Definition resolveProjectionKind (requested : option ProjectionKind) : ProjectionKind :=
  default DEFAULT_PROJECTION_KIND requested.

(** [JSON.stringify({ readingOrder, blocks })] *)
Definition structured_text `{!NumberText} (order : list string) (bs : list DocumentBlock) : string :=
  tree_text (TObj [field "readingOrder" (texts_tree order); field "blocks" (TArr (map block_tree bs))]).

Definition projectToStructured `{!NumberText} (envelope : CanonicalDocumentEnvelope) : result ProjectionResult :=
  ordered ← orderedBlocksOrThrow envelope;
  Ok (projection_of envelope kind_structured (structured_text (readingOrder (content_of envelope)) ordered)).

Definition projectToAll `{!NumberText} (envelope : CanonicalDocumentEnvelope) : result ProjectionResult :=
  ordered ← orderedBlocksOrThrow envelope;
  md ← markdown_of ordered;
  let structured := structured_text (readingOrder (content_of envelope)) ordered in
  Ok (projection_of envelope kind_all
        (tree_text (TObj [text_field "markdown" md; text_field "structured" structured;
                          text_field "text" (text_of ordered)]))).

Definition projectCanonicalDocument `{!NumberText} (envelope : CanonicalDocumentEnvelope)
    (kind : option ProjectionKind) : result ProjectionResult :=
  validateEnvelope envelope;;
  match resolveProjectionKind kind with
  | kind_markdown => projectToMarkdown envelope
  | kind_text => projectToText envelope
  | kind_structured => projectToStructured envelope
  | kind_all => projectToAll envelope
  end.

(** ** The boundary to adapters *)

Definition ADAPTER_FORBIDDEN_RAW_KEYS : list string :=
  ["rawJson"; "raw"; "providerRaw"; "providerPayload"; "engineRaw"; "doclingOutput"; "anydocOutput"]%string.

(** On the names of the input's properties, [Object.keys]. *)
Fixpoint assertNoRawProviderPayload (keys : list string) : result unit :=
  match keys with
  | [] => Ok tt
  | key :: keys' =>
      throw_if (bool_decide (key ∈ ADAPTER_FORBIDDEN_RAW_KEYS))
        (TError ("Adapter boundary violation: key " +:+ quoted key +:+
                 " must not cross the adapter boundary; normalize to typed blocks first"));;
      assertNoRawProviderPayload keys'
  end.

(** [AdapterEnvelopeInput], with the names of all its properties. *)
Record AdapterEnvelopeInput := {
  ai_keys : list string;
  ai_documentId : string;
  ai_canonicalContentId : option string;
  ai_sourceIdentity : SourceIdentity;
  ai_blocks : list DocumentBlock;
  ai_readingOrder : list string;
  ai_status : DocumentStatus;
  ai_capabilityStates : CapabilityStates;
  ai_provenance : DocumentProvenance;
  ai_warnings : option (list string);
  ai_errors : option (list string);
  ai_metadata : option (list MetadataRecord);
  ai_citations : option (list CitationRecord)
}.

Definition buildCanonicalEnvelopeFromAdapter `{!NumberText} `{!Sha256Api} (input : AdapterEnvelopeInput)
    : result CanonicalDocumentEnvelope :=
  assertNoRawProviderPayload (ai_keys input);;
  let envelope :=
    {| documentId := ai_documentId input; sourceIdentity := ai_sourceIdentity input;
       content_of :=
         {| schemaVersion := CANONICAL_SCHEMA_VERSION;
            canonicalContentId := default (computeContentHash (ai_blocks input)) (ai_canonicalContentId input);
            blocks := ai_blocks input; readingOrder := ai_readingOrder input; status := ai_status input;
            capabilityStates := ai_capabilityStates input; warnings := default [] (ai_warnings input);
            errors := default [] (ai_errors input); provenance := ai_provenance input;
            metadata := ai_metadata input; citations := ai_citations input |} |} in
  validateEnvelope envelope;;
  Ok envelope.

(** ** What a cache may keep *)

(** A part of the identity that is in the text: no empty one counts. *)
Definition leaks (text : string) (secret : option string) : bool :=
  match secret with
  | Some secret => negb (falsy secret) && str_includes text secret
  | None => false
  end.

(** A core has no source binding by its type, so only its text is searched. *)
Definition extractCacheableCore `{!NumberText} (envelope : CanonicalDocumentEnvelope)
    : result CanonicalContentCore :=
  let core := extractContentCore envelope in
  let serialized := tree_text (core_tree core) in
  let identity := sourceIdentity envelope in
  throw_if (existsb (leaks serialized) [url identity; filename identity; artifactRef identity])
    (TError "Cacheable core must not contain source-specific identity");;
  Ok core.

Definition rebuildEnvelopeFromCacheHit (core : CanonicalContentCore) (identity : SourceIdentity) (id : string)
    : result CanonicalDocumentEnvelope :=
  let envelope := rebuildSourceBinding core identity id in
  validateEnvelope envelope;;
  Ok envelope.

(** ** Bounds *)

Definition over (dimension : string) (value : Z) (limit : number) : option Exceeded :=
  if num_ltb limit (int value)
  then Some {| exceededDimension := dimension; actualValue := value; limitValue := limit |}
  else None.

Definition count_type (name : string) (bs : list DocumentBlock) : Z :=
  Z.of_nat (length (filter (λ b, is_type name b = true) bs)).

(** The first of some checks that is exceeded. *)
Fixpoint first_exceeded (checks : list (option Exceeded)) : BoundsCheckResult :=
  match checks with
  | [] => WithinBounds
  | Some x :: _ => OutOfBounds x
  | None :: checks' => first_exceeded checks'
  end.

Definition checkOutputBounds `{!NumberText} (envelope : CanonicalDocumentEnvelope) (bounds : OutputBounds)
    : BoundsCheckResult :=
  let bs := blocks (content_of envelope) in
  let blockJson := tree_text (TArr (map block_tree bs)) in
  first_exceeded
    [over "bytes" (byteLength (utf8 blockJson)) (maxBytes bounds);
     over "chars" (str_length blockJson) (maxChars bounds);
     over "blocks" (Z.of_nat (length bs)) (maxBlocks bounds);
     over "tables" (count_type "table" bs) (maxTables bounds);
     over "assets" (count_type "asset" bs) (maxAssets bounds)].

(** [buildTruncatedResult], for a check that is out of bounds. *)
Definition buildTruncatedResult `{!NumberText} (x : Exceeded) : string :=
  "Output exceeded " +:+ exceededDimension x +:+ ": " +:+ String_number (int (actualValue x)) +:+ " > " +:+
  String_number (limitValue x).

Definition is_hex (c : ascii) : bool := is_digit c || between 97 102 c.

(** [/^[0-9a-f]{32}\//] *)
Definition storage_key (ref : string) : bool :=
  let l := chars ref in
  forallb is_hex (take 32 l) && bool_decide (head (drop 32 l) = Some "/"%char).

Definition buildTypedTruncatedResult `{!NumberText} (envelope : CanonicalDocumentEnvelope) (ref : string)
    (kind : CanonicalArtifactKind) (x : Exceeded) : result TypedTruncatedResult :=
  throw_if (falsy ref) (TError "Typed truncated result requires a non-empty artifactRef");;
  throw_if (str_includes ref "/" && storage_key ref)
    (TError "artifactRef must be storage-neutral, not a storage key");;
  Ok {| summary := buildTruncatedResult x; tr_provenance := provenance (content_of envelope);
        tr_artifactRef := ref; artifactKind := kind |}.

Definition projectWithBounds `{!NumberText} (envelope : CanonicalDocumentEnvelope) (kind : option ProjectionKind)
    (bounds : OutputBounds) (ref : string) (artifact : CanonicalArtifactKind) : result BoundedProjectionOutcome :=
  validateEnvelope envelope;;
  match checkOutputBounds envelope bounds with
  | OutOfBounds x => t ← buildTypedTruncatedResult envelope ref artifact x; Ok (Truncated t)
  | WithinBounds =>
      projection ← projectCanonicalDocument envelope kind;
      match over "chars" (str_length (pr_content projection)) (maxChars bounds) with
      | Some x => t ← buildTypedTruncatedResult envelope ref artifact x; Ok (Truncated t)
      | None => Ok (Projected projection)
      end
  end.

(** ** The shape on the wire

    One definition per schema of [canonical-document-schema.ts]; [None] where
    it rejects.  An integer schema takes safe integers only. *)

Definition z_array {A} (f : js_value → option A) (v : js_value) : option (list A) :=
  match v with JArr l => mapM f l | _ => None end.

Definition z_optional {A} (f : js_value → option A) (v : js_value) : option (option A) :=
  match v with JUndefined => Some None | _ => Some <$> f v end.

Definition z_nullable {A} (f : js_value → option A) (v : js_value) : option (option A) :=
  match v with JNull => Some None | _ => Some <$> f v end.

Definition z_string1 (v : js_value) : option string :=
  s ← as_string v; _ ← guard (falsy s = false); Some s.

(** An integer not below [min]. *)
Definition z_int (min : Z) (v : js_value) : option Z :=
  z ← as_number v; _ ← guard (min ≤ z ≤ MAX_SAFE_INTEGER)%Z; Some z.

(** A number not below [min], for the bounds of the schemas, which are integers. *)
Definition z_number_from (min : Z) (v : js_value) : option number :=
  z ← as_number v; _ ← guard (min ≤ z)%Z; Some (int z).

Definition z_number (v : js_value) : option number := int <$> as_number v.

Definition sourceSpanSchema (v : js_value) : option SourceSpan :=
  kind ← as_string (prop v "kind");
  if bool_decide (kind = "page-bbox") then
    _ ← strict_object ["kind"; "page"; "x"; "y"; "width"; "height"; "contentHash"] v;
    page ← z_int 0 (prop v "page"); x ← z_number (prop v "x"); y ← z_number (prop v "y");
    width ← z_number_from 1 (prop v "width"); height ← z_number_from 1 (prop v "height");
    hash ← z_string1 (prop v "contentHash"); Some (PageBboxSpan (int page) x y width height hash)
  else if bool_decide (kind = "char-offset") then
    _ ← strict_object ["kind"; "start"; "end"; "contentHash"] v;
    start ← z_int 0 (prop v "start"); end_ ← z_int 1 (prop v "end");
    hash ← z_string1 (prop v "contentHash"); Some (CharOffsetSpan (int start) (int end_) hash)
  else if bool_decide (kind = "sheet-cell") then
    _ ← strict_object ["kind"; "sheet"; "startCell"; "endCell"; "contentHash"] v;
    sheet ← z_string1 (prop v "sheet"); startCell ← z_string1 (prop v "startCell");
    endCell ← z_string1 (prop v "endCell"); hash ← z_string1 (prop v "contentHash");
    Some (SheetCellSpan sheet startCell endCell hash)
  else if bool_decide (kind = "slide-shape") then
    _ ← strict_object ["kind"; "slide"; "shapeId"; "contentHash"] v;
    slide ← z_int 0 (prop v "slide"); shapeId ← z_string1 (prop v "shapeId");
    hash ← z_string1 (prop v "contentHash"); Some (SlideShapeSpan (int slide) shapeId hash)
  else if bool_decide (kind = "media-time") then
    _ ← strict_object ["kind"; "startMs"; "endMs"; "contentHash"] v;
    startMs ← z_number_from 0 (prop v "startMs"); endMs ← z_number_from 1 (prop v "endMs");
    hash ← z_string1 (prop v "contentHash"); Some (MediaTimeSpan startMs endMs hash)
  else None.

Definition cellSchema (v : js_value) : option TableCell :=
  _ ← strict_object ["row"; "col"; "content"; "rowSpan"; "colSpan"] v;
  r ← z_int 0 (prop v "row"); c ← z_int 0 (prop v "col"); content ← as_string (prop v "content");
  rs ← z_optional (z_int 1) (prop v "rowSpan"); cs ← z_optional (z_int 1) (prop v "colSpan");
  Some {| row := r; col := c; cell_content := content; rowSpan := rs; colSpan := cs |}.

(** The properties of a block that depend on its type. *)
Definition bodySchema (v : js_value) : option BlockBody :=
  type ← as_string (prop v "type");
  if bool_decide (type = "text") then
    _ ← strict_object ["type"; "blockId"; "content"; "spans"] v;
    content ← as_string (prop v "content"); Some (TextBlock content)
  else if bool_decide (type = "table") then
    _ ← strict_object ["type"; "blockId"; "cells"; "spans"] v;
    cells ← z_array cellSchema (prop v "cells"); Some (TableBlock cells)
  else if bool_decide (type = "asset") then
    _ ← strict_object ["type"; "blockId"; "assetRef"; "mimeType"; "altText"; "spans"] v;
    ref ← z_string1 (prop v "assetRef"); mimeType ← z_string1 (prop v "mimeType");
    altText ← z_optional as_string (prop v "altText"); Some (AssetBlock ref mimeType altText)
  else if bool_decide (type = "formula") then
    _ ← strict_object ["type"; "blockId"; "expression"; "format"; "spans"] v;
    expression ← as_string (prop v "expression");
    format ← by_name format_name [latex; mathml; plain] (prop v "format"); Some (FormulaBlock expression format)
  else None.

Definition documentBlockSchema (v : js_value) : option DocumentBlock :=
  b ← bodySchema v; id ← z_string1 (prop v "blockId");
  sp ← z_optional (z_array sourceSpanSchema) (prop v "spans");
  Some {| blockId := id; body := b; spans := sp |}.

Definition identitySchema (v : js_value) : option SourceIdentity :=
  _ ← strict_object ["contentHash"; "url"; "filename"; "artifactRef"] v;
  h ← z_string1 (prop v "contentHash"); u ← z_optional as_string (prop v "url");
  f ← z_optional as_string (prop v "filename"); r ← z_optional as_string (prop v "artifactRef");
  Some {| contentHash := h; url := u; filename := f; artifactRef := r |}.

Definition state_names : list CapabilityState := [available; unsupported; not_run; failed].
Definition state_name (s : CapabilityState) : string :=
  match s with
  | available => "available" | unsupported => "unsupported" | not_run => "not_run" | failed => "failed"
  end.

Definition state_entry (kv : string * js_value) : option (string * string) :=
  s ← by_name state_name state_names kv.2; Some (kv.1, state_name s).

Definition statesSchema (v : js_value) : option CapabilityStates :=
  match v with JObj fields => mapM state_entry fields | _ => None end.

(** A confidence: from 0 to 1. *)
Definition z_confidence (v : js_value) : option number :=
  z ← as_number v; _ ← guard (0 ≤ z ≤ 1)%Z; Some (int z).

Definition provenanceSchema (v : js_value) : option DocumentProvenance :=
  _ ← strict_object ["engine"; "model"; "version"; "cost"; "confidence"] v;
  e ← z_string1 (prop v "engine"); m ← as_string (prop v "model"); w ← z_string1 (prop v "version");
  c ← z_nullable (z_number_from 0) (prop v "cost"); f ← z_nullable z_confidence (prop v "confidence");
  Some {| engine := e; model := m; version := w; cost := c; confidence := f |}.

Definition metadataSchema (v : js_value) : option MetadataRecord :=
  _ ← strict_object ["key"; "value"] v;
  k ← z_string1 (prop v "key"); x ← as_string (prop v "value"); Some {| md_key := k; md_value := x |}.

Definition citationSchema (v : js_value) : option CitationRecord :=
  _ ← strict_object ["citationId"; "label"; "target"; "blockId"] v;
  i ← z_string1 (prop v "citationId"); l ← as_string (prop v "label"); t ← as_string (prop v "target");
  b ← z_optional as_string (prop v "blockId");
  Some {| citationId := i; label := l; target := t; cited_block := b |}.

Definition envelope_names : list string :=
  ["schemaVersion"; "documentId"; "canonicalContentId"; "sourceIdentity"; "blocks"; "readingOrder"; "status";
   "capabilityStates"; "warnings"; "errors"; "provenance"; "metadata"; "citations"]%string.

Definition contentSchema (v : js_value) : option CanonicalContentCore :=
  sv ← z_string1 (prop v "schemaVersion"); ci ← z_string1 (prop v "canonicalContentId");
  bs ← z_array documentBlockSchema (prop v "blocks"); ro ← z_array z_string1 (prop v "readingOrder");
  st ← by_name status_name [st_success; st_partial; st_unsupported; st_failed] (prop v "status");
  cs ← statesSchema (prop v "capabilityStates"); ws ← z_array as_string (prop v "warnings");
  es ← z_array as_string (prop v "errors"); p ← provenanceSchema (prop v "provenance");
  md ← z_optional (z_array metadataSchema) (prop v "metadata");
  ct ← z_optional (z_array citationSchema) (prop v "citations");
  Some {| schemaVersion := sv; canonicalContentId := ci; blocks := bs; readingOrder := ro; status := st;
          capabilityStates := cs; warnings := ws; errors := es; provenance := p; metadata := md;
          citations := ct |}.

Definition canonicalEnvelopeSchema (v : js_value) : option CanonicalDocumentEnvelope :=
  _ ← strict_object envelope_names v;
  id ← z_string1 (prop v "documentId"); si ← identitySchema (prop v "sourceIdentity");
  c ← contentSchema v; Some {| documentId := id; sourceIdentity := si; content_of := c |}.

(** The pass through JSON in between changes nothing that the types show. *)
Definition parseCanonicalDocumentEnvelope (v : js_value) : result CanonicalDocumentEnvelope :=
  match canonicalEnvelopeSchema v with
  | None => Throw rejected_value
  | Some e => validateEnvelope e;; Ok e
  end.

(** A tree as the value it is when its numbers are integers. *)
Fixpoint tree_value (t : tree) : js_value :=
  match t with
  | TNull => JNull
  | TNum x => if isFinite x then JNum (to_Z x) else JNull
  | TStr s => JStr s
  | TArr l => JArr (map tree_value l)
  | TObj fields => JObj (map (λ '(k, x), (k, tree_value x)) fields)
  end.

Definition envelope_value (e : CanonicalDocumentEnvelope) : js_value := tree_value (envelope_tree e).
