(* ===== verification/CanonicalDocumentSafety.v ===== *)
(** * Correctness of canonical documents

    What [validateEnvelope] accepts; projections show every block once, in
    reading order; the round trips through the wire and through a cache; and
    the bounds of what is returned. *)

From S2P Require Import Prelude JsString JsMap Digest Json CanonicalDocument.

(** ** Results of guards *)

Lemma guard_Ok {A} b e (f : unit → result A) a : (throw_if b e ≫= f) = Ok a ↔ b = false ∧ f tt = Ok a.
Proof. destruct b; cbn; naive_solver. Qed.

Lemma seq_Ok {A} (r : result unit) (k : result A) a : (r;; k) = Ok a ↔ r = Ok tt ∧ k = Ok a.
Proof. destruct r as [[]|]; cbn; naive_solver. Qed.

Ltac guards := repeat (setoid_rewrite guard_Ok || setoid_rewrite throw_if_Ok || setoid_rewrite seq_Ok).

(** ** What is valid *)

Definition span_ok (s : SourceSpan) : Prop :=
  match s with
  | PageBboxSpan page _ _ width height hash =>
      negative page = false ∧ not_positive width = false ∧ not_positive height = false ∧ hash ≠ ""%string
  | CharOffsetSpan start end_ hash => negative start = false ∧ num_leb end_ start = false ∧ hash ≠ ""%string
  | SheetCellSpan sheet startCell endCell hash =>
      sheet ≠ ""%string ∧ startCell ≠ ""%string ∧ endCell ≠ ""%string ∧ hash ≠ ""%string
  | SlideShapeSpan slide shapeId hash => negative slide = false ∧ shapeId ≠ ""%string ∧ hash ≠ ""%string
  | MediaTimeSpan startMs endMs hash =>
      negative startMs = false ∧ num_leb endMs startMs = false ∧ hash ≠ ""%string
  end.

Definition body_ok (b : BlockBody) : Prop :=
  match b with
  | TextBlock _ | TableBlock _ => True
  | AssetBlock ref mimeType _ => ref ≠ ""%string ∧ mimeType ≠ ""%string
  | FormulaBlock expression _ => expression ≠ ""%string
  end.

Definition block_ok (b : DocumentBlock) : Prop :=
  blockId b ≠ ""%string ∧ body_ok (body b) ∧ Forall span_ok (default [] (spans b)).

Definition provenance_ok (p : DocumentProvenance) : Prop :=
  engine p ≠ ""%string ∧ model p ≠ ""%string ∧ version p ≠ ""%string ∧
  bad_cost (cost p) = false ∧ bad_confidence (confidence p) = false.

(** The ids of the blocks differ, and the reading order is an order of them. *)
Definition core_ok (c : CanonicalContentCore) : Prop :=
  schemaVersion c ≠ ""%string ∧ canonicalContentId c ≠ ""%string ∧ provenance_ok (provenance c) ∧
  Forall block_ok (blocks c) ∧ NoDup (blockId <$> blocks c) ∧ readingOrder c ≡ₚ blockId <$> blocks c ∧
  Forall (λ kv, kv.2 ∈ VALID_CAPABILITY_STATES) (capabilityStates c).

Definition envelope_ok (e : CanonicalDocumentEnvelope) : Prop :=
  documentId e ≠ ""%string ∧ contentHash (sourceIdentity e) ≠ ""%string ∧ core_ok (content_of e).

Lemma validateSourceSpan_Ok s : validateSourceSpan s = Ok tt ↔ span_ok s.
Proof.
  destruct s; unfold validateSourceSpan, span_ok; guards; rewrite ?falsy_false, ?orb_false_iff; tauto.
Qed.

Lemma validate_spans_Ok l : validate_spans l = Ok tt ↔ Forall span_ok l.
Proof.
  induction l as [|s l IH]; [by split|].
  cbn [validate_spans]. by rewrite seq_Ok, IH, validateSourceSpan_Ok, Forall_cons.
Qed.

Lemma validateBlock_Ok b : validateBlock b = Ok tt ↔ block_ok b.
Proof.
  unfold validateBlock, block_ok, body_ok. rewrite guard_Ok, seq_Ok, validate_spans_Ok, falsy_false.
  destruct (body b); guards; rewrite ?falsy_false; tauto.
Qed.

Lemma validate_states_Ok l : validate_states l = Ok tt ↔ Forall (λ kv, kv.2 ∈ VALID_CAPABILITY_STATES) l.
Proof.
  induction l as [|[k s] l IH]; [by split|]. cbn [validate_states].
  rewrite seq_Ok, IH, Forall_cons. unfold validateCapabilityState. cbn [snd].
  by rewrite throw_if_Ok, negb_false_iff, bool_decide_eq_true.
Qed.

(** The ids that the loops collect are those they met, latest first. *)
Lemma validate_blocks_Ok ids l r :
  validate_blocks ids l = Ok r ↔
  r = rev (blockId <$> l) ++ ids ∧ Forall block_ok l ∧ NoDup (blockId <$> l) ∧
  Forall (λ b, blockId b ∉ ids) l.
Proof.
  revert ids. induction l as [|b l IH]; intros ids; cbn [validate_blocks fmap list_fmap rev].
  - split; [intros [= <-]|intros [-> _]]; by repeat constructor.
  - rewrite seq_Ok, guard_Ok, IH, <- app_assoc, !Forall_cons, NoDup_cons, <- validateBlock_Ok, bool_decide_eq_false.
    assert (Forall (λ b', blockId b' ∉ blockId b :: ids) l ↔
      blockId b ∉ (blockId <$> l) ∧ Forall (λ b', blockId b' ∉ ids) l) as ->.
    { rewrite !Forall_forall, list_elem_of_fmap. setoid_rewrite elem_of_cons. naive_solver. }
    cbn [app]. tauto.
Qed.

Lemma validate_order_Ok ids ordered order r :
  validate_order ids ordered order = Ok r ↔
  r = rev order ++ ordered ∧ Forall (λ id, id ∈ ids) order ∧ NoDup order ∧ Forall (λ id, id ∉ ordered) order.
Proof.
  revert ordered. induction order as [|id order IH]; intros ordered; cbn [validate_order rev].
  - split; [intros [= <-]|intros [-> _]]; by repeat constructor.
  - rewrite !guard_Ok, IH, <- app_assoc, !Forall_cons, NoDup_cons, negb_false_iff, bool_decide_eq_true,
      bool_decide_eq_false.
    assert (Forall (λ id', id' ∉ id :: ordered) order ↔ id ∉ order ∧ Forall (λ id', id' ∉ ordered) order) as ->.
    { rewrite !Forall_forall. setoid_rewrite elem_of_cons. naive_solver. }
    cbn [app]. tauto.
Qed.

(** A list without repetition, inside another and as long, is that list in another order. *)
Lemma same_ids (order ids : list string) :
  NoDup ids →
  (Forall (λ id, id ∈ ids) order ∧ NoDup order ∧ length order = length ids) ↔ order ≡ₚ ids.
Proof.
  intros Hids. rewrite Forall_forall. split.
  - intros (Hin & Hnd & Hlen). apply submseteq_length_Permutation; [|lia]. by apply NoDup_submseteq.
  - intros Hp. rewrite Hp. split; [|done]. intros id. by rewrite Hp.
Qed.

(** The second half of the validation. *)
Lemma order_checks_Ok ids order (states : CapabilityStates) :
  (ordered ← validate_order ids [] order;
   throw_if (negb (length ordered =? length ids)) (TError "Reading order must include every canonical block");;
   validate_states states) = Ok tt ↔
  (Forall (λ id, id ∈ ids) order ∧ NoDup order ∧ length order = length ids) ∧
  Forall (λ kv, kv.2 ∈ VALID_CAPABILITY_STATES) states.
Proof.
  rewrite result_bind_Ok. setoid_rewrite guard_Ok. setoid_rewrite validate_order_Ok.
  setoid_rewrite validate_states_Ok. setoid_rewrite negb_false_iff. setoid_rewrite Nat.eqb_eq.
  assert (Hnil : Forall (λ id : string, id ∉ []) order)
    by (apply Forall_forall; intros; apply not_elem_of_nil).
  split.
  - intros (o & (-> & Hin & Ho & _) & Hlen & ?). by rewrite app_nil_r, length_rev in Hlen.
  - intros ((? & ? & ?) & ?). exists (rev order ++ []). split_and!; try done. by rewrite app_nil_r, length_rev.
Qed.

(** An envelope is accepted exactly when its names are not empty, its cost
    and confidence are in range, every block, span and capability state is
    well formed, the ids of the blocks differ, and the reading order lists
    each of them once. *)
Lemma validateEnvelope_Ok e : validateEnvelope e = Ok tt ↔ envelope_ok e.
Proof.
  unfold validateEnvelope, envelope_ok, core_ok, provenance_ok. rewrite !guard_Ok, !falsy_false.
  rewrite result_bind_Ok. setoid_rewrite order_checks_Ok. setoid_rewrite validate_blocks_Ok.
  set (c := content_of e).
  assert (Hnil : Forall (λ b, blockId b ∉ []) (blocks c)) by (apply Forall_forall; intros; apply not_elem_of_nil).
  assert (Hrev : rev (blockId <$> blocks c) ++ [] ≡ₚ blockId <$> blocks c)
    by (by rewrite app_nil_r, <- Permutation_rev).
  assert (Hids : NoDup (blockId <$> blocks c) →
    (Forall (λ id, id ∈ rev (blockId <$> blocks c) ++ []) (readingOrder c) ∧ NoDup (readingOrder c) ∧
     length (readingOrder c) = length (rev (blockId <$> blocks c) ++ [])) ↔
    readingOrder c ≡ₚ blockId <$> blocks c).
  { intros Hnd. rewrite same_ids by (by rewrite Hrev). by rewrite Hrev. }
  split.
  - intros (? & ? & ? & ? & ? & ? & ? & ? & ? & ids & (-> & ? & Hnd & _) & Ho & ?). rewrite Hids in Ho by done.
    by split_and!.
  - intros (? & ? & ? & ? & (? & ? & ? & ? & ?) & ? & Hnd & Ho%Hids & ?); [|done].
    split_and!; try done. by eexists.
Qed.

(** ** The round trip through the wire *)

(** The numbers of a tree are integers, and its objects have each name once. *)
Fixpoint tree_exact (t : tree) : bool :=
  match t with
  | TNum x => match x with Num _ 1 => true | _ => false end
  | TArr l => forallb tree_exact l
  | TObj fields => bool_decide (NoDup fields.*1) && forallb (λ '(_, x), tree_exact x) fields
  | _ => true
  end.

Section tree_ind.
Context (P : tree → Prop) (Hnull : P TNull) (Hnum : ∀ x, P (TNum x)) (Hstr : ∀ s, P (TStr s))
  (Harr : ∀ l, Forall P l → P (TArr l))
  (Hobj : ∀ fields, Forall (λ kv : string * tree, P kv.2) fields → P (TObj fields)).

Fixpoint tree_nested_ind (t : tree) : P t :=
  match t with
  | TNull => Hnull
  | TNum x => Hnum x
  | TStr s => Hstr s
  | TArr l => Harr l ((fix go l : Forall P l := match l with
      | [] => Forall_nil_2 _
      | x :: l' => Forall_cons_2 _ _ _ (tree_nested_ind x) (go l')
      end) l)
  | TObj fields => Hobj fields ((fix go l : Forall (λ kv, P kv.2) l := match l with
      | [] => Forall_nil_2 _
      | x :: l' => Forall_cons_2 _ _ _ (tree_nested_ind x.2) (go l')
      end) fields)
  end.
End tree_ind.

Lemma tree_value_defined t : is_undefined (tree_value t) = false.
Proof. destruct t as [|x| | |]; try done. cbn. by destruct (isFinite x). Qed.

Lemma tree_value_exact `{!NumberText} t :
  tree_exact t = true → tree_chars t = json_text (tree_value t) ∧ json_exact (tree_value t) = true.
Proof.
  induction t as [|x|s|l IH|fields IH] using tree_nested_ind; try done; cbn [tree_exact].
  - destruct x as [| | |n []]; try done. intros _. split; [|done].
    unfold tree_chars, tree_value, String_number. cbn [isFinite].
    change (Num n 1) with (int n). by rewrite isInteger_int, to_Z_int.
  - intros Hl. cbn [tree_chars tree_value json_text json_exact].
    assert (map tree_chars l = map json_text (map tree_value l) ∧
      forallb json_exact (map tree_value l) = true) as [-> ->]; [|done].
    induction IH as [|t l Ht _ IHl]; [done|]. cbn in Hl |- *. apply andb_true_iff in Hl as [H1 H2].
    destruct (Ht H1) as [-> ->], (IHl H2) as [-> ->]. done.
  - intros [Hnd Hl]%andb_true_iff. cbn [tree_chars tree_value json_text json_exact].
    assert ((map (λ '(k, x), (k, tree_value x)) fields).*1 = fields.*1) as ->.
    { clear. induction fields as [|[k x] fields IH]; [done|]. cbn. by f_equal. }
    rewrite Hnd. clear Hnd. cbn [andb].
    assert (map (λ '(k, x), quote_json k ++ ":"%char :: tree_chars x) fields =
        flat_map (λ '(k, x), if is_undefined x then [] else [quote_json k ++ ":"%char :: json_text x])
          (map (λ '(k, x), (k, tree_value x)) fields) ∧
      forallb (λ '(_, v), json_exact v) (map (λ '(k, x), (k, tree_value x)) fields) = true)
      as [-> ->]; [|done].
    induction IH as [|[k t] l Ht _ IHl]; [done|]. cbn in Hl. cbn [map flat_map forallb]. apply andb_true_iff in Hl as [H1 H2].
    destruct (Ht H1) as [Hc Hx], (IHl H2) as [-> ->]. cbn in Hc, Hx. rewrite tree_value_defined, Hc, Hx. done.
Qed.

Lemma tree_parses `{!NumberText} t : tree_exact t = true → JSON_parse (tree_text t) = Ok (tree_value t).
Proof. intros [Ht Hx]%tree_value_exact. unfold tree_text. rewrite Ht. by apply JSON_parse_exact. Qed.

(** What the schema [f] took from a value, [g] writes so that it takes it again. *)
Definition reads {A} (f : js_value → option A) (g : A → tree) (a : A) : Prop :=
  f (tree_value (g a)) = Some a ∧ tree_exact (g a) = true.
Definition wire {A} (f : js_value → option A) (g : A → tree) : Prop := ∀ v a, f v = Some a → reads f g a.

Lemma int_tree_exact z : tree_exact (int_tree z) = true.
Proof. done. Qed.

Lemma int_tree_value z : tree_value (int_tree z) = JNum z.
Proof. cbn. by rewrite Z.div_1_r. Qed.

Lemma wire_string : wire as_string TStr.
Proof. intros [] a [= <-]. done. Qed.

Lemma wire_string1 : wire z_string1 TStr.
Proof.
  intros v s (s' & _ & (Hs & _ & [= <-])%bind_Some)%bind_Some. split; [|done].
  unfold z_string1. cbn -[guard]. case_guard; [done|contradiction].
Qed.

(** Integers in a range, as [Z] or as [number]. *)
Lemma wire_range (P : Z → Prop) `{∀ z, Decision (P z)} :
  wire (λ v, z ← as_number v; _ ← guard (P z); Some z) int_tree.
Proof.
  intros v z (z' & _ & (Hz & _ & [= <-])%bind_Some)%bind_Some. split; [|apply int_tree_exact].
  rewrite int_tree_value. cbn -[guard]. case_guard; [done|contradiction].
Qed.

Lemma wire_number_range (P : Z → Prop) `{∀ z, Decision (P z)} :
  wire (λ v, z ← as_number v; _ ← guard (P z); Some (int z)) TNum.
Proof.
  intros v x (z & _ & (Hz & _ & [= <-])%bind_Some)%bind_Some. split; [|apply int_tree_exact].
  change (TNum (int z)) with (int_tree z). rewrite int_tree_value. cbn -[guard]. case_guard; [done|contradiction].
Qed.

Lemma wire_int min : wire (z_int min) int_tree.
Proof. apply wire_range. Qed.

Lemma wire_number_from min : wire (z_number_from min) TNum.
Proof. apply wire_number_range. Qed.

Lemma wire_confidence : wire z_confidence TNum.
Proof. apply wire_number_range. Qed.

Lemma wire_number : wire z_number TNum.
Proof. intros v x (z & _ & ->)%fmap_Some. split; [|apply int_tree_exact].
  change (TNum (int z)) with (int_tree z). by rewrite int_tree_value. Qed.

Lemma wire_name {A} (name : A → string) all :
  wire (by_name name all) (λ a, TStr (name a)).
Proof.
  intros v a (s & _ & Hf)%bind_Some. split; [|done]. cbn.
  apply find_some in Hf as Hs. destruct Hs as [_ ->%bool_decide_eq_true]. done.
Qed.

Lemma array_reads {A} (f : js_value → option A) g v l :
  wire f g → z_array f v = Some l → Forall (reads f g) l.
Proof.
  intros Hw Hl. destruct v as [| | | | |vs|]; try done. cbn in Hl. apply mapM_Some_1 in Hl.
  induction Hl as [|v a vs l Hva _ IH]; [by constructor|]. constructor; [by eapply Hw|done].
Qed.

Lemma reads_array {A} (f : js_value → option A) g l :
  Forall (reads f g) l → reads (z_array f) (λ l, TArr (map g l)) l.
Proof.
  intros Hr. split; cbn; induction Hr as [|a l [Hf Hx] Hr IH]; try done; cbn.
  - by rewrite Hf, IH.
  - by rewrite Hx.
Qed.

Lemma wire_array {A} (f : js_value → option A) g : wire f g → wire (z_array f) (λ l, TArr (map g l)).
Proof. intros Hw v l Hl. by eapply reads_array, array_reads. Qed.

(** A property that may be missing: what it is when it is there. *)
Lemma wire_optional {A} (f : js_value → option A) g v o :
  wire f g → z_optional f v = Some o →
  match o with
  | Some a => z_optional f (tree_value (g a)) = Some (Some a) ∧ tree_exact (g a) = true
  | None => True
  end.
Proof.
  intros Hw Ho. destruct o as [a|]; [|done].
  assert (∃ v', f v' = Some a) as (v' & Hv').
  { destruct v; cbn in Ho; try done; apply fmap_Some in Ho as (a' & Ha' & [= <-]); by eexists. }
  destruct (Hw _ _ Hv') as [Hf Hx]. split; [|done].
  pose proof (tree_value_defined (g a)) as Hu. unfold z_optional. rewrite Hf. by destruct (tree_value (g a)).
Qed.

Lemma wire_nullable {A} (f : js_value → option A) g :
  f JNull = None → wire f g → wire (z_nullable f) (nullable g).
Proof.
  intros Hnull Hw v o Ho. destruct o as [a|]; [|done].
  assert (∃ v', f v' = Some a) as (v' & Hv').
  { destruct v; cbn in Ho; try done; apply fmap_Some in Ho as (a' & Ha' & [= <-]); by eexists. }
  destruct (Hw _ _ Hv') as [Hf Hx]. split; [|done]. cbn [nullable].
  unfold z_nullable. rewrite Hf. destruct (tree_value (g a)); try done. by rewrite Hnull in Hf.
Qed.

(** Schemas of objects: what each property was read as is read from what it
    is written as, by the lemma of its schema. *)

Ltac fields H := repeat (apply bind_Some in H as (? & ? & H)); injection H as <-.

(** One property, read by the schema [f]; [lem] is its round trip. *)
Ltac wire_with f lem :=
  repeat match goal with H : f (prop _ _) = Some _ |- _ => apply lem in H as [? ?] end.

Ltac wire_basic :=
  wire_with z_string1 wire_string1; wire_with as_string wire_string; wire_with z_number wire_number;
  repeat match goal with
  | H : z_int _ (prop _ _) = Some _ |- _ => apply wire_int in H as [? ?]
  | H : z_number_from _ (prop _ _) = Some _ |- _ => apply wire_number_from in H as [? ?]
  end.

(** The case of a union that a kind is in. *)
Ltac pick :=
  repeat match goal with
  | |- (if bool_decide (?a = ?b) then _ else _) = _ =>
      first [rewrite (bool_decide_true (a = b)) by reflexivity | rewrite (bool_decide_false (a = b)) by done]
  end.

Ltac write_fields :=
  repeat (pick; apply bind_Some; eexists; split; [first [reflexivity | eassumption]|]); reflexivity.

(** The parts of the object are exact, so it is. *)
Ltac exact_fields := cbn;
  repeat match goal with H : tree_exact _ = true |- _ => cbn in H; rewrite H; clear H end; reflexivity.

Lemma wire_span : wire sourceSpanSchema span_tree.
Proof.
  intros v s (kind & _ & H)%bind_Some. revert H.
  repeat (case_bool_decide as Hk; [clear Hk; intros H; fields H; wire_basic; split; [write_fields|exact_fields]|clear Hk]).
  done.
Qed.

(** An optional property is there or not. *)
Ltac wire_opt lem :=
  match goal with
  | H : z_optional _ (prop _ _) = Some ?o |- _ =>
      apply (wire_optional _ _ _ _ lem) in H; destruct o; [destruct H as [? ?]|clear H]
  end.

Lemma wire_cell : wire cellSchema cell_tree.
Proof.
  intros v c H. fields H. wire_basic. do 2 wire_opt (wire_int 1).
  all: split; [write_fields|exact_fields].
Qed.

Lemma wire_identity : wire identitySchema identity_tree.
Proof.
  intros v c H. fields H. wire_basic. do 3 wire_opt wire_string. all: split; [write_fields|exact_fields].
Qed.

Lemma wire_metadata : wire metadataSchema metadata_tree.
Proof. intros v c H. fields H. wire_basic. split; [write_fields|exact_fields]. Qed.

Lemma wire_citation : wire citationSchema citation_tree.
Proof. intros v c H. fields H. wire_basic. wire_opt wire_string. all: split; [write_fields|exact_fields]. Qed.

Lemma wire_provenance : wire provenanceSchema provenance_tree.
Proof.
  intros v c H. fields H. wire_basic.
  repeat match goal with
  | H : z_nullable z_confidence (prop _ _) = Some _ |- _ =>
      apply (wire_nullable _ _ eq_refl wire_confidence) in H as [? ?]
  | H : z_nullable _ (prop _ _) = Some _ |- _ =>
      apply (wire_nullable _ _ eq_refl (wire_number_from 0)) in H as [? ?]
  end.
  split; [write_fields|exact_fields].
Qed.

Lemma wire_block : wire documentBlockSchema block_tree.
Proof.
  intros v b H. unfold documentBlockSchema in H. apply bind_Some in H as (bd & Hb & H). fields H. wire_basic.
  apply bind_Some in Hb as (type & _ & Hb). revert Hb.
  wire_opt (wire_array _ _ wire_span).
  all: repeat (case_bool_decide as Hk; [clear Hk; intros Hb; fields Hb; wire_basic;
    wire_with (z_array cellSchema) (wire_array _ _ wire_cell);
    wire_with (by_name format_name [latex; mathml; plain]) (wire_name format_name [latex; mathml; plain]);
    try wire_opt wire_string|clear Hk]).
  all: try done.
  all: split; [apply bind_Some; eexists; split; [write_fields|write_fields]|exact_fields].
Qed.

Lemma json_ok_prop v name : json_ok v = true → json_ok (prop v name) = true.
Proof.
  destruct v as [| | | | | |fields]; try done. cbn. intros [_ Hx]%andb_true_iff.
  destruct (map_get name fields) as [x|] eqn:Hg; [|done]. cbn.
  induction fields as [|[k y] fields IH]; [done|]. cbn in Hx, Hg. apply andb_true_iff in Hx as [Hy Hx].
  case_decide; [by injection Hg as ->|by apply IH].
Qed.

Lemma wire_states v cs : json_ok v = true → statesSchema v = Some cs → reads statesSchema states_tree cs.
Proof.
  intros Hok Hs. destruct v as [| | | | | |fields]; try done. cbn in Hok, Hs.
  apply andb_true_iff in Hok as [Hnd%bool_decide_eq_true _]. apply mapM_Some_1 in Hs.
  assert (cs.*1 = fields.*1 ∧ Forall (λ kv, state_entry (kv.1, JStr kv.2) = Some kv) cs) as [Hk Hv].
  { clear Hnd. induction Hs as [|[k v] kv fields cs Hkv _ [IH1 IH2]]; [by split|].
    apply bind_Some in Hkv as (s & Hb & [= <-]). cbn. rewrite IH1. split; [done|].
    constructor; [|done]. by destruct s. }
  split.
  - cbn. rewrite map_map. clear Hs Hk. induction Hv as [|kv cs Hkv _ IH]; [done|]. cbn [map mapM].
    destruct kv as [k s]. cbn [fst snd text_field tree_value] in *. by rewrite Hkv, IH.
  - cbn. assert ((map (λ kv : string * string, text_field kv.1 kv.2) cs).*1 = cs.*1) as ->.
    { clear. induction cs as [|[k s] cs IH]; [done|]. cbn. by f_equal. }
    rewrite Hk, bool_decide_true by done. cbn. clear. by induction cs.
Qed.

(** What the schema takes, it takes again as it is written, the text included. *)
Lemma wire_envelope v e :
  json_ok v = true → canonicalEnvelopeSchema v = Some e → reads canonicalEnvelopeSchema envelope_tree e.
Proof.
  intros Hok H. unfold canonicalEnvelopeSchema in H. apply bind_Some in H as (? & _ & H).
  apply bind_Some in H as (id & Hid & H). apply bind_Some in H as (si & Hsi & H).
  apply bind_Some in H as (c & Hc & [= <-]). fields Hc. wire_basic.
  wire_with identitySchema wire_identity. wire_with provenanceSchema wire_provenance.
  wire_with (z_array documentBlockSchema) (wire_array _ _ wire_block).
  wire_with (z_array z_string1) (wire_array _ _ wire_string1).
  wire_with (z_array as_string) (wire_array _ _ wire_string).
  wire_with (by_name status_name [st_success; st_partial; st_unsupported; st_failed])
    (wire_name status_name [st_success; st_partial; st_unsupported; st_failed]).
  match goal with H : statesSchema _ = Some _ |- _ => apply wire_states in H as [? ?]; [|by apply json_ok_prop] end.
  wire_opt (wire_array _ _ wire_metadata).
  all: wire_opt (wire_array _ _ wire_citation).
  all: split; [|exact_fields].
  all: unfold canonicalEnvelopeSchema; apply bind_Some; eexists; split; [reflexivity|].
  all: apply bind_Some; eexists; split; [eassumption|]; apply bind_Some; eexists; split; [eassumption|].
  all: apply bind_Some; eexists; split; [write_fields|reflexivity].
Qed.

(** ** Projections *)

Lemma block_of_Ok bs id : id ∈ (blockId <$> bs) → ∃ b, block_of bs id = Ok b ∧ b ∈ bs ∧ blockId b = id.
Proof.
  intros (b & -> & Hb)%list_elem_of_fmap. unfold block_of.
  destruct (find _ bs) as [b'|] eqn:Hf.
  - apply find_some in Hf as [Hin Hid%bool_decide_eq_true]. exists b'. by rewrite list_elem_of_In.
  - apply list_elem_of_In, (find_none _ _ Hf) in Hb. by rewrite bool_decide_true in Hb.
Qed.

Lemma mapM_block_of bs order :
  Forall (λ id, id ∈ (blockId <$> bs)) order →
  ∃ ordered, mapM (block_of bs) order = Ok ordered ∧ (blockId <$> ordered) = order ∧ Forall (λ b, b ∈ bs) ordered.
Proof.
  induction 1 as [|id order (b & Hb & Hin & Hid)%block_of_Ok _ (bs' & Hm & Hids & Hall)]; [by exists []|].
  exists (b :: bs'). cbn. rewrite Hb. change (Ok b ≫= ?f) with (f b). cbv beta. rewrite Hm. cbn.
  by rewrite Hid, Hids; split_and!; [| |constructor].
Qed.

(** The blocks in reading order: all of them, each once. *)
Lemma ordered_blocks e :
  envelope_ok e →
  ∃ ordered, orderedBlocksOrThrow e = Ok ordered ∧ (blockId <$> ordered) = readingOrder (content_of e) ∧
    ordered ≡ₚ blocks (content_of e).
Proof.
  intros (_ & _ & _ & _ & _ & _ & Hnd & Hp & _).
  destruct (mapM_block_of (blocks (content_of e)) (readingOrder (content_of e))) as (o & Ho & Hids & Hin).
  { rewrite Forall_forall. intros id. by rewrite Hp. }
  exists o. split_and!; [done..|]. rewrite Forall_forall in Hin.
  assert (NoDup (blockId <$> o)) by (by rewrite Hids, Hp).
  apply submseteq_length_Permutation.
  - apply NoDup_submseteq; [by eapply NoDup_fmap_1|done].
  - apply (f_equal length) in Hids. rewrite length_fmap in Hids. rewrite Hids, Hp, length_fmap. done.
Qed.

(** A table whose cells are in reach of an array; a cell in a negative column
    is not shown, but does not fail either. *)
Definition renderable (b : DocumentBlock) : Prop :=
  match body b with
  | TableBlock cells => Forall (λ c, 0 ≤ row c < MAX_ARRAY_LENGTH ∧ col c < MAX_ARRAY_LENGTH)%Z cells
  | _ => True
  end.

#[export] Instance renderable_dec b : Decision (renderable b).
Proof. unfold renderable. destruct (body b); apply _. Defined.

Lemma max_of_spec (l : list Z) z :
  (z ≤ max_of l z)%Z ∧ Forall (λ x, x ≤ max_of l z)%Z l ∧ (max_of l z = z ∨ max_of l z ∈ l).
Proof.
  unfold max_of. revert z. induction l as [|x l IH]; intros z; cbn [foldl]; [split_and!; [lia|done|by left]|].
  destruct (IH (Z.max z x)) as (H1 & H2 & H3). split_and!.
  - lia.
  - constructor; [lia|done].
  - destruct H3 as [H3|H3]; [|right; set_solver]. rewrite H3.
    destruct (Z.max_spec z x) as [[_ ->]|[_ ->]]; [right; set_solver|by left].
Qed.

Lemma max_of_below (l : list Z) z P : (max_of l z < P)%Z ↔ Forall (λ x, x < P)%Z (z :: l).
Proof.
  destruct (max_of_spec l z) as (Hz & Hl & Hm). rewrite Forall_cons. split.
  - intros HP. split; [lia|]. eapply Forall_impl; [exact Hl|]. cbn. lia.
  - intros [Hzp Hlp]. destruct Hm as [->|Hin]; [done|]. rewrite Forall_forall in Hlp. by apply Hlp.
Qed.

Lemma set_cells_Ok cs grid : is_Ok (set_cells grid cs) ↔ Forall (λ c, 0 ≤ row c)%Z cs.
Proof.
  revert grid. induction cs as [|c cs IH]; intros grid; [split; [done|by eexists]|].
  cbn [set_cells]. rewrite Forall_cons. unfold set_cell. destruct (row c <? 0)%Z eqn:Hc; reflect.
  - split; [by intros [? ?]|lia].
  - destruct (col c <? 0)%Z; cbn; rewrite IH; naive_solver.
Qed.

Lemma table_grid_Ok c cs :
  is_Ok (table_grid c cs) ↔
  Forall (λ c, 0 ≤ row c < MAX_ARRAY_LENGTH ∧ col c < MAX_ARRAY_LENGTH)%Z (c :: cs).
Proof.
  pose proof (max_of_below (map row cs) (row c) MAX_ARRAY_LENGTH) as Hr.
  pose proof (max_of_below (map col cs) (col c) MAX_ARRAY_LENGTH) as Hc.
  destruct (max_of_spec (map row cs) (row c)) as (Hge & _ & _).
  rewrite <- !map_cons, !Forall_map in Hr, Hc. rewrite !Forall_and, <- Hr, <- Hc. unfold table_grid.
  destruct (throw_if _ _) as [[]|e] eqn:Hg; cbn [mbind result_bind].
  - apply throw_if_Ok in Hg. reflect. rewrite set_cells_Ok. split; [|tauto].
    intros Hrows. split; [split; [done|lia]|]. apply Forall_cons in Hrows as [Hrow _].
    apply andb_false_iff in H0 as [H0|H0]; reflect; lia.
  - split; [by intros [? ?]|]. intros [[_ H1] H2]. exfalso. unfold throw_if in Hg.
    destruct (_ || _) eqn:Hb; [|done]. apply orb_true_iff in Hb as [Hb|[_ Hb]%andb_true_iff]; reflect; lia.
Qed.

Lemma markdown_Ok b : is_Ok (blockToMarkdown b) ↔ renderable b.
Proof.
  unfold renderable, blockToMarkdown. destruct (body b) as [|[|c cs]| |? []]; try (split; [done|by eexists]).
  rewrite <- table_grid_Ok. destruct (table_grid c cs); cbn; split; intros [? ?]; try done; by eexists.
Qed.

Lemma mapM_Ok {A B} (f : A → result B) l : Forall (λ a, is_Ok (f a)) l → ∃ bs, mapM f l = Ok bs ∧ Forall2 (λ a b, f a = Ok b) l bs.
Proof.
  induction 1 as [|a l [b Hb] _ (bs & Hm & Hf)]; [by exists []|]. exists (b :: bs). split; [|by constructor].
  cbn. rewrite Hb. change (Ok b ≫= ?f) with (f b). cbv beta. by rewrite Hm.
Qed.

Lemma mapM_all_Ok {A B} (f : A → result B) l bs : mapM f l = Ok bs → Forall (λ a, is_Ok (f a)) l.
Proof.
  revert bs. induction l as [|a l IH]; intros bs Hm; [done|]. cbn in Hm.
  apply result_bind_Ok in Hm as (b & Hb & (bs' & Hbs & _)%result_bind_Ok). constructor; [by exists b|by eapply IH].
Qed.

(** C27: every projection of a valid envelope shows every block exactly once, in
    reading order: the text, the markdown and the JSON are those of the blocks
    one after the other, and the projection of all of them is a JSON object of
    the three.  Text and JSON are always given.  Markdown, and with it the
    projection of all, is given exactly when every cell of every table has a row
    and column within the bounds of arrays, which validation does not ask;
    otherwise both throw. *)
Theorem projections_show_each_block_once `{!NumberText} e :
  validateEnvelope e = Ok tt →
  let project kind := projectCanonicalDocument e (Some kind) in
  ∃ ordered, ordered ≡ₚ blocks (content_of e) ∧ (blockId <$> ordered) = readingOrder (content_of e) ∧
    let text := join paragraph_break (map blockToText ordered) in
    let structured := structured_text (blockId <$> ordered) ordered in
    (∃ p, project kind_text = Ok p ∧ pr_content p = text) ∧
    project kind_structured = Ok (projection_of e kind_structured structured) ∧
    if bool_decide (Forall renderable (blocks (content_of e))) then
      ∃ parts, Forall2 (λ b t, blockToMarkdown b = Ok t) ordered parts ∧
        let markdown := join paragraph_break parts in
        project kind_markdown = Ok (projection_of e kind_markdown markdown) ∧
        project kind_all = Ok (projection_of e kind_all (tree_text (TObj
          [text_field "markdown" markdown; text_field "structured" structured; text_field "text" text])))
    else is_Throw (project kind_markdown) ∧ is_Throw (project kind_all).
Proof.
  intros He project. subst project. unfold projectCanonicalDocument. rewrite He.
  apply validateEnvelope_Ok in He as (o & Ho & Hids & Hp)%ordered_blocks. exists o.
  unfold projectToText, projectToStructured, projectToMarkdown, projectToAll, markdown_of. cbn [resolveProjectionKind default].
  rewrite Ho, Hids. split; [done|]. split; [done|]. cbv zeta. split; [by eexists|]. split; [done|].
  assert (bool_decide (Forall renderable (blocks (content_of e))) = bool_decide (Forall renderable o)) as ->
    by (apply bool_decide_ext; by rewrite Hp). case_bool_decide as Hd.
  - destruct (mapM_Ok blockToMarkdown o) as (parts & Hm & Hparts);
      [eapply Forall_impl; [exact Hd|]; intros b; apply markdown_Ok|].
    exists parts. split; [done|]. cbn. rewrite Hm. by split.
  - assert (Hm : is_Throw (mapM blockToMarkdown o)).
    { destruct (mapM blockToMarkdown o) as [parts|err] eqn:Hm; [|by eexists]. destruct Hd.
      apply mapM_all_Ok in Hm. eapply Forall_impl; [exact Hm|]. intros b. apply markdown_Ok. }
    destruct Hm as [err Hm]. cbn. rewrite Hm. by split; eexists.
Qed.

(** ** Tables *)

Definition cell_at (grid : list (list string)) (i j : nat) : option string := r ← grid !! i; r !! j.

Definition at_place (i j : nat) (c : TableCell) : Prop := row c = Z.of_nat i ∧ col c = Z.of_nat j.
#[export] Instance at_place_dec i j c : Decision (at_place i j c).
Proof. unfold at_place. apply _. Defined.

(** The content of the last cell for a place. *)
Definition content_at (cells : list TableCell) (i j : nat) : option string :=
  cell_content <$> last (filter (at_place i j) cells).

Lemma cell_at_set grid c i j :
  (0 ≤ row c)%Z → (0 ≤ col c)%Z →
  cell_at (alter (λ r, <[Z.to_nat (col c) := cell_content c]> r) (Z.to_nat (row c)) grid) i j =
  if decide (at_place i j c) then (λ _, cell_content c) <$> cell_at grid i j else cell_at grid i j.
Proof.
  intros Hr Hc. unfold cell_at. destruct (decide (Z.to_nat (row c) = i)) as [<-|Hi].
  - rewrite list_lookup_alter_eq. destruct (grid !! Z.to_nat (row c)) as [r|]; cbn; [|by case_decide].
    destruct (decide (Z.to_nat (col c) = j)) as [<-|Hj].
    + rewrite decide_True by (unfold at_place; lia).
      destruct (decide (Z.to_nat (col c) < length r)) as [Hl|Hl].
      * rewrite list_lookup_insert_eq by done. by destruct (lookup_lt_is_Some_2 _ _ Hl) as [x ->].
      * rewrite list_insert_ge by lia. by rewrite lookup_ge_None_2 by lia.
    + rewrite list_lookup_insert_ne by done. rewrite decide_False by (unfold at_place; lia). done.
  - rewrite list_lookup_alter_ne by done. rewrite decide_False by (unfold at_place; lia). done.
Qed.

Lemma set_cells_at cs grid g i j :
  Forall (λ c, 0 ≤ row c ∧ 0 ≤ col c)%Z cs → set_cells grid cs = Ok g →
  cell_at g i j = (λ old, default old (content_at cs i j)) <$> cell_at grid i j.
Proof.
  intros Hcs. revert grid. induction Hcs as [|c cs [Hr Hc] _ IH]; intros grid; cbn [set_cells].
  - intros [= <-]. cbn. by destruct (cell_at grid i j).
  - unfold set_cell. rewrite (proj2 (Z.ltb_ge _ _) Hr), (proj2 (Z.ltb_ge _ _) Hc).
    intros Hg%IH. rewrite Hg, cell_at_set by done. clear Hg. unfold content_at. rewrite filter_cons.
    destruct (decide (at_place i j c)); [|done]. rewrite last_cons.
    destruct (cell_at grid i j), (last _); done.
Qed.

Lemma cell_at_replicate h w i j s :
  cell_at (replicate h (replicate w s)) i j = if decide (i < h ∧ j < w) then Some s else None.
Proof.
  unfold cell_at. case_decide as Hd.
  - rewrite lookup_replicate_2 by lia. cbn. by rewrite lookup_replicate_2 by lia.
  - destruct (decide (i < h)); [|by rewrite lookup_ge_None_2 by (rewrite length_replicate; lia)].
    rewrite lookup_replicate_2 by lia. cbn. apply lookup_ge_None_2. rewrite length_replicate. lia.
Qed.

(** the markdown of a table has its cells in their places: as many rows and
    columns as the cells take, each cell's content in its row and column, and
    nothing elsewhere; of several cells for one place, the last is shown. *)
Theorem table_shows_cells_in_place b c cs :
  body b = TableBlock (c :: cs) → renderable b → Forall (λ c, 0 ≤ col c)%Z (c :: cs) →
  let height := Z.to_nat (max_of (map row cs) (row c) + 1) in
  let width := Z.to_nat (max_of (map col cs) (col c) + 1) in
  ∃ grid, blockToMarkdown b = Ok (join new_line (table_lines grid)) ∧
    ∀ i j, cell_at grid i j =
      if decide (i < height ∧ j < width) then Some (default ""%string (content_at (c :: cs) i j)) else None.
Proof.
  intros Hb Hd Hcols. unfold renderable in Hd. rewrite Hb in Hd. unfold blockToMarkdown. rewrite Hb.
  destruct (proj2 (table_grid_Ok c cs) Hd) as [grid Hg]. exists grid. rewrite Hg. split; [done|]. intros i j.
  unfold table_grid in Hg. apply guard_Ok in Hg as [_ Hg]. eapply (set_cells_at _ _ _ i j) in Hg.
  - rewrite Hg, cell_at_replicate. by case_decide.
  - apply Forall_and. split; [|done]. eapply Forall_impl; [exact Hd|]. cbn. lia.
Qed.

(** ** Caches *)

(** what may be cached of an envelope does not have its source's URL, file
    name or artifact in its text, and gives the envelope back with any source
    it is bound to again. *)
Theorem cached_core_rebinds `{!NumberText} e core identity id :
  validateEnvelope e = Ok tt → extractCacheableCore e = Ok core → contentHash identity ≠ ""%string → id ≠ ""%string →
  Forall (λ secret, ∀ s, secret = Some s → s ≠ ""%string → str_includes (tree_text (core_tree core)) s = false)
    [url (sourceIdentity e); filename (sourceIdentity e); artifactRef (sourceIdentity e)] ∧
  rebuildEnvelopeFromCacheHit core (sourceIdentity e) (documentId e) = Ok e ∧
  ∃ e', rebuildEnvelopeFromCacheHit core identity id = Ok e' ∧ validateEnvelope e' = Ok tt ∧
    content_of e' = content_of e ∧ sourceIdentity e' = identity ∧ documentId e' = id.
Proof.
  intros He Hx Hh Hid. unfold extractCacheableCore in Hx. apply guard_Ok in Hx as [Hl [= <-]].
  unfold rebuildEnvelopeFromCacheHit, rebuildSourceBinding, extractContentCore in *.
  replace {| documentId := documentId e; sourceIdentity := sourceIdentity e; content_of := content_of e |}
    with e by (by destruct e). rewrite He. cbn [mbind result_bind]. split_and!; [|done|].
  - rewrite Forall_forall. intros secret Hin s -> Hs.
    destruct (str_includes _ s) eqn:Hi; [|done]. rewrite <- Hl. symmetry. apply existsb_exists.
    exists (Some s). split; [by apply list_elem_of_In|].
    unfold leaks. by rewrite (proj2 (falsy_false s) Hs), Hi.
  - assert (validateEnvelope {| documentId := id; sourceIdentity := identity; content_of := content_of e |} = Ok tt)
      as Hv by (apply validateEnvelope_Ok; apply validateEnvelope_Ok in He as (_ & _ & Hc); by split_and!).
    rewrite Hv. by eexists.
Qed.

(** ** Bounds *)

(** A dimension that is exceeded, of the envelope or of its projection. *)
Definition exceeds `{!NumberText} (e : CanonicalDocumentEnvelope) (kind : option ProjectionKind)
    (bounds : OutputBounds) : Prop :=
  let bs := blocks (content_of e) in
  let json := tree_text (TArr (map block_tree bs)) in
  num_ltb (maxBytes bounds) (int (byteLength (utf8 json))) = true ∨
  num_ltb (maxChars bounds) (int (str_length json)) = true ∨
  num_ltb (maxBlocks bounds) (int (Z.of_nat (length bs))) = true ∨
  num_ltb (maxTables bounds) (int (count_type "table" bs)) = true ∨
  num_ltb (maxAssets bounds) (int (count_type "asset" bs)) = true ∨
  ∃ p, projectCanonicalDocument e kind = Ok p ∧ num_ltb (maxChars bounds) (int (str_length (pr_content p))) = true.

Lemma over_spec d v l : match over d v l with None => num_ltb l (int v) = false | Some _ => num_ltb l (int v) = true end.
Proof. unfold over. by destruct (num_ltb l (int v)). Qed.

Lemma checkOutputBounds_spec `{!NumberText} e kind bounds :
  match checkOutputBounds e bounds with
  | OutOfBounds _ => exceeds e kind bounds
  | WithinBounds => exceeds e kind bounds → ∃ p, projectCanonicalDocument e kind = Ok p ∧
      num_ltb (maxChars bounds) (int (str_length (pr_content p))) = true
  end.
Proof.
  unfold checkOutputBounds, exceeds. cbn [first_exceeded].
  repeat match goal with |- context [over ?d ?v ?l] =>
    let E := fresh "Hover" in pose proof (over_spec d v l) as E; destruct (over d v l); [tauto|] end.
  intros Hex. destruct_or! Hex; congruence || done.
Qed.

Lemma truncated_Ok `{!NumberText} e ref artifact x t :
  buildTypedTruncatedResult e ref artifact x = Ok t →
  tr_artifactRef t = ref ∧ ref ≠ ""%string ∧ tr_provenance t = provenance (content_of e) ∧ artifactKind t = artifact.
Proof.
  unfold buildTypedTruncatedResult. by intros [?%falsy_false (_ & [= <-])%guard_Ok]%guard_Ok.
Qed.

(** a bounded projection is the projection itself when nothing exceeds a
    bound, and otherwise only a summary with the provenance and the reference
    that was given; so what is returned is as long as the bounds allow. *)
Theorem projection_stays_within_bounds `{!NumberText} e kind bounds ref artifact o :
  projectWithBounds e kind bounds ref artifact = Ok o →
  match o with
  | Projected p => projectCanonicalDocument e kind = Ok p ∧ ¬ exceeds e kind bounds
  | Truncated t => exceeds e kind bounds ∧ tr_artifactRef t = ref ∧ ref ≠ ""%string ∧
      tr_provenance t = provenance (content_of e) ∧ artifactKind t = artifact
  end.
Proof.
  unfold projectWithBounds. intros ([] & _ & Hrun)%result_bind_Ok.
  pose proof (checkOutputBounds_spec e kind bounds) as Hc. destruct (checkOutputBounds e bounds) as [|x].
  - apply result_bind_Ok in Hrun as (p & Hp & Hrun). pose proof (over_spec "chars" (str_length (pr_content p)) (maxChars bounds)) as Ho.
    destruct (over _ _ _) as [x|].
    + apply result_bind_Ok in Hrun as (t & Ht%truncated_Ok & [= <-]). split; [|done]. do 5 right. by exists p.
    + injection Hrun as <-. split; [done|]. intros (p' & Hp' & Hl)%Hc. congruence.
  - by apply result_bind_Ok in Hrun as (t & Ht%truncated_Ok & [= <-]).
Qed.

(** ** The wire *)

(** C28: an envelope that the wire schema accepted is read back as itself: its
    JSON text parses, and the schema and the validation accept the value again
    as the same envelope. *)
Theorem parsed_envelope_round_trips `{!NumberText} v e :
  json_ok v = true → parseCanonicalDocumentEnvelope v = Ok e →
  JSON_parse (tree_text (envelope_tree e)) = Ok (envelope_value e) ∧
  parseCanonicalDocumentEnvelope (envelope_value e) = Ok e.
Proof.
  intros Hok Hp. unfold parseCanonicalDocumentEnvelope in Hp.
  destruct (canonicalEnvelopeSchema v) as [e'|] eqn:Hs; [|done].
  apply seq_Ok in Hp as [Hv [= ->]]. destruct (wire_envelope v e Hok Hs) as [Hr Hx].
  split; [by apply tree_parses|]. unfold parseCanonicalDocumentEnvelope, envelope_value. by rewrite Hr, Hv.
Qed.

(** A block that the wire schema reads back from what is written of it. *)
Definition readable : DocumentBlock → Prop := reads documentBlockSchema block_tree.

Lemma readable_id b : readable b → blockId b ≠ ""%string.
Proof.
  intros [Hb _]. unfold documentBlockSchema in Hb. apply bind_Some in Hb as (bd & _ & Hb).
  apply bind_Some in Hb as (id & Hid & Hb). apply bind_Some in Hb as (sp & _ & [= <-]). cbn.
  unfold z_string1 in Hid. apply bind_Some in Hid as (s & _ & Hid). apply bind_Some in Hid as (Hne & _ & [= <-]). by apply falsy_false.
Qed.

Lemma reads_id s : s ≠ ""%string → reads z_string1 TStr s.
Proof. intros Hs. split; [|done]. unfold z_string1. cbn -[guard]. case_guard as Hg; [done|]. destruct Hg. by apply falsy_false. Qed.

(** Every block of an envelope from the wire is readable. *)
Lemma wire_blocks_readable `{!NumberText} v e :
  parseCanonicalDocumentEnvelope v = Ok e → Forall readable (blocks (content_of e)).
Proof.
  unfold parseCanonicalDocumentEnvelope. destruct (canonicalEnvelopeSchema v) as [e'|] eqn:Hs; [|done].
  intros [_ [= ->]]%seq_Ok. unfold canonicalEnvelopeSchema in Hs.
  apply bind_Some in Hs as (? & _ & (id & _ & Hs)%bind_Some).
  apply bind_Some in Hs as (si & _ & (c & Hc & [= <-])%bind_Some). fields Hc.
  eapply array_reads; [apply wire_block|eassumption].
Qed.

(** C29: the structured projection of an envelope loses nothing of its blocks,
    as long as the wire schema reads each of them back by itself: its text
    parses, and the wire schemas read the reading order and all blocks back,
    each once.  So it is for every envelope from the wire
    ([wire_blocks_readable]); a block that an adapter built need not be
    readable, and may be changed ([unreadable_span_is_lost]). *)
Theorem structured_projection_is_lossless `{!NumberText} e p :
  Forall readable (blocks (content_of e)) →
  projectCanonicalDocument e (Some kind_structured) = Ok p →
  ∃ w ordered, JSON_parse (pr_content p) = Ok w ∧
    z_array z_string1 (prop w "readingOrder") = Some (readingOrder (content_of e)) ∧
    z_array documentBlockSchema (prop w "blocks") = Some ordered ∧
    ordered ≡ₚ blocks (content_of e) ∧ (blockId <$> ordered) = readingOrder (content_of e).
Proof.
  intros Hb Hproj. unfold projectCanonicalDocument in Hproj. apply result_bind_Ok in Hproj as ([] & Hv & Hproj).
  cbn in Hproj. unfold projectToStructured in Hproj.
  apply validateEnvelope_Ok, ordered_blocks in Hv as (o & Ho & Hids & Hp). rewrite Ho in Hproj. injection Hproj as <-.
  rewrite <- Hp in Hb. assert (Hr : Forall (reads z_string1 TStr) (readingOrder (content_of e))).
  { rewrite <- Hids. apply Forall_fmap. eapply Forall_impl; [exact Hb|]. intros b ?. by apply reads_id, readable_id. }
  destruct (reads_array _ _ _ Hb) as [Hblocks Hx1], (reads_array _ _ _ Hr) as [Horder Hx2].
  eexists _, o. split; [apply tree_parses|by split_and!].
  cbn in Hx1, Hx2 |- *. by rewrite Hx1, Hx2.
Qed.

(** ** Findings *)

Definition cell (r c : Z) (s : string) : TableCell :=
  {| row := r; col := c; cell_content := s; rowSpan := None; colSpan := None |}.

(** Two cells for one place, which validation lets pass: the first is lost from
    the markdown of a projection that calls itself lossless. *)
Lemma overlapping_cell_is_lost :
  blockToMarkdown {| blockId := "t"; body := TableBlock [cell 0 0 "lost"; cell 0 0 "kept"]; spans := None |} =
  Ok ("| kept |" +:+ new_line +:+ "| --- |").
Proof. vm_compute. reflexivity. Qed.

(** ** Concrete envelopes *)

Definition demo_number_text : NumberText := {| fraction_text := λ _, "0.5"%string |}.

Definition demo_core : CanonicalContentCore :=
  {| schemaVersion := CANONICAL_SCHEMA_VERSION; canonicalContentId := "content";
     blocks := [{| blockId := "title"; body := TextBlock "Prices"; spans := Some [CharOffsetSpan (int 0) (int 6) "h"] |};
                {| blockId := "prices"; body := TableBlock [cell 0 0 "item"; cell 1 1 "7"]; spans := None |}];
     readingOrder := ["prices"; "title"]; status := st_success; capabilityStates := [("tables", "available")];
     warnings := []; errors := [];
     provenance := {| engine := "engine"; model := "model"; version := "1"; cost := None; confidence := Some (int 1) |};
     metadata := None; citations := None |}%string.

Definition demo_identity (h : string) : SourceIdentity :=
  {| contentHash := h; url := Some "https://a.example"%string; filename := None; artifactRef := None |}.

Definition demo_envelope : CanonicalDocumentEnvelope :=
  {| documentId := "document"; sourceIdentity := demo_identity "hash"; content_of := demo_core |}.

Definition demo_bounds (n : Z) : OutputBounds :=
  {| maxBytes := int n; maxChars := int n; maxBlocks := int 10; maxTables := int 10; maxAssets := PosInf |}.

Local Existing Instance demo_number_text.

Lemma projections_show_each_block_once_witness :
  ∃ ordered, ordered ≡ₚ blocks demo_core ∧ (blockId <$> ordered) = ["prices"; "title"]%string.
Proof.
  destruct (projections_show_each_block_once demo_envelope eq_refl) as (o & Hp & Hids & _). by exists o.
Defined.

Lemma table_shows_cells_in_place_witness :
  ∃ grid, blockToMarkdown {| blockId := "t"; body := TableBlock [cell 0 0 "item"; cell 1 1 "7"]; spans := None |} =
    Ok (join new_line (table_lines grid)) ∧ cell_at grid 1 1 = Some "7"%string.
Proof.
  destruct (table_shows_cells_in_place
    {| blockId := "t"; body := TableBlock [cell 0 0 "item"; cell 1 1 "7"]; spans := None |}
    (cell 0 0 "item") [cell 1 1 "7"] eq_refl) as (grid & Hm & Hg).
  - apply (bool_decide_unpack _). vm_compute. exact I.
  - repeat constructor; vm_compute; congruence.
  - exists grid. split; [exact Hm|]. rewrite (Hg 1 1). reflexivity.
Defined.

Lemma cached_core_rebinds_witness :
  ∃ e', rebuildEnvelopeFromCacheHit demo_core (demo_identity "other") "again" = Ok e' ∧ documentId e' = "again"%string.
Proof.
  destruct (cached_core_rebinds demo_envelope demo_core (demo_identity "other") "again") as (_ & _ & e' & He & _ & _ & _ & Hd).
  1-2: vm_compute; reflexivity.
  1-2: discriminate.
  by exists e'.
Defined.

Definition demo_outcome (n : Z) : result BoundedProjectionOutcome :=
  projectWithBounds demo_envelope None (demo_bounds n) "ref" projection_artifact.

Lemma projection_stays_within_bounds_witness :
  exceeds demo_envelope None (demo_bounds 50) ∧ ¬ exceeds demo_envelope None (demo_bounds 1000).
Proof.
  split.
  - refine (proj1 (projection_stays_within_bounds demo_envelope None (demo_bounds 50) "ref" projection_artifact
      (match demo_outcome 50 with Ok o => o | Throw _ => Projected (projection_of demo_envelope kind_text "") end) _)).
    vm_compute. reflexivity.
  - refine (proj2 (projection_stays_within_bounds demo_envelope None (demo_bounds 1000) "ref" projection_artifact
      (match demo_outcome 1000 with Ok o => o | Throw _ => Projected (projection_of demo_envelope kind_text "") end) _)).
    vm_compute. reflexivity.
Defined.

Lemma parsed_envelope_round_trips_witness :
  JSON_parse (tree_text (envelope_tree demo_envelope)) = Ok (envelope_value demo_envelope).
Proof.
  refine (proj1 (parsed_envelope_round_trips (envelope_value demo_envelope) demo_envelope _ _));
    vm_compute; reflexivity.
Defined.

(** A box of no width, which validation lets pass, is written as [null], which
    the schema refuses: the projection calls itself lossless all the same. *)
Lemma unreadable_span_is_lost :
  let block := {| blockId := "b"; body := TextBlock "t"; spans := Some [PageBboxSpan (int 1) (int 0) (int 0) NaN (int 1) "h"] |}%string in
  let content := {| schemaVersion := CANONICAL_SCHEMA_VERSION; canonicalContentId := "content"; blocks := [block];
    readingOrder := ["b"%string]; status := st_success; capabilityStates := []; warnings := []; errors := [];
    provenance := provenance demo_core; metadata := None; citations := None |} in
  let e := {| documentId := "document"; sourceIdentity := demo_identity "hash"; content_of := content |} in
  ∃ p w, projectCanonicalDocument e (Some kind_structured) = Ok p ∧ lossy p = false ∧
    JSON_parse (pr_content p) = Ok w ∧ z_array documentBlockSchema (prop w "blocks") = None.
Proof. do 2 eexists. split; [vm_compute; reflexivity|]. split; [reflexivity|]. split; [vm_compute; reflexivity|]. vm_compute; reflexivity. Qed.

Lemma structured_projection_is_lossless_witness :
  ∃ w ordered, JSON_parse (structured_text ["prices"; "title"]%string (rev (blocks demo_core))) = Ok w ∧
    z_array documentBlockSchema (prop w "blocks") = Some ordered.
Proof.
  destruct (structured_projection_is_lossless demo_envelope
    (projection_of demo_envelope kind_structured (structured_text ["prices"; "title"]%string (rev (blocks demo_core)))))
    as (w & o & Hw & _ & Hb & _); [repeat constructor; vm_compute; reflexivity|vm_compute; reflexivity|]. by exists w, o.
Defined.
