(* ===== verification/DocumentAsync.v ===== *)
(** * Documents converted in the background

    [src/core/document-async-runtime.ts]: a job whose work a provider does, on
    the records of document jobs, the journal of effects, and a record of its
    own per job with the state of the dispatch; and
    [src/core/document-async-artifacts.ts], the artifacts it reads and writes.

    Times are integers.  The controllers of the attempts in this process are
    part of the world.  [withinDeadline] gives its operation a signal; once
    that is aborted the caller is told so, and what is left of the operation
    goes on as another party would.  The loops that try a write again until it
    is not in conflict take as many rounds as [rounds] says, and throw [stuck]
    when they have none left: four are enough for those over the job
    ([job_loops_terminate]), one for a dispatch that nobody else writes
    ([undisturbed_update_takes_one_round]). *)

From S2P Require Import Prelude Interference JsString JsMap Digest Json DurableStore DurableDocumentJobs.
From S2P Require DurableEffects DocumentDispatcher DurableArtifacts DurableUpload DurableDocumentOutput Limits.
From S2P Require CanonicalDocument.

#[local] Existing Instances DurableEffects.DurableEffectStatus_eq_dec DurableEffects.DurableEffectKind_eq_dec.

Abbreviation EffectIdentity := DurableEffects.EffectIdentity.
Abbreviation Deadline := Limits.Deadline.
Abbreviation CanonicalDocumentEnvelope := CanonicalDocument.CanonicalDocumentEnvelope.
Abbreviation strict_object := DocumentDispatcher.strict_object.
Abbreviation rejected_value := DocumentDispatcher.rejected_value.
Abbreviation by_name := DurableArtifacts.by_name.
Abbreviation z_int := CanonicalDocument.z_int.
Abbreviation z_nullable := CanonicalDocument.z_nullable.

(** ** Data *)

Record DocumentAsyncSourceSnapshot := {
  ss_refId : string;
  ss_contentHash : string;
  ss_byteSize : Z;
  ss_expiresAt : Z
}.

Record DocumentAsyncPolicy := {
  absoluteDeadlineMs : Z;
  totalExecutionBudgetMs : Z;
  perAttemptDeadlineMs : Z;
  maxInputBytes : Z;
  maxOutputBytes : Z
}.

Inductive SourceRevocation := deleted | source_expired.

(** [State]; its schema version is always 1. *)
Record State := {
  source : DocumentAsyncSourceSnapshot;
  st_providerId : string;
  policy : DocumentAsyncPolicy;
  budgetEndsAt : Z;
  providerTaskId : option string;
  dispatchCancelled : bool;
  upstreamRequested : bool;
  upstreamAcknowledged : bool;
  resultArtifactRef : option string;
  resultCleanupDone : bool;
  sourceRevocation : option SourceRevocation
}.

#[export] Instance State_updatable : Updatable State :=
  {| rebuild := λ t, Build_State (source t) (st_providerId t) (policy t) (budgetEndsAt t) (providerTaskId t)
       (dispatchCancelled t) (upstreamRequested t) (upstreamAcknowledged t) (resultArtifactRef t)
       (resultCleanupDone t) (sourceRevocation t) |}.

(** What [recoverResult] finds: the reference reserved for a job's result. *)
Record RecoveredResult := { rr_refId : string; rr_ready : bool }.

Record DocumentAsyncArtifactPort (S : Type) := {
  inspectSource : string → DurableDocumentJobCaller → AbortSignal S → M S DocumentAsyncSourceSnapshot;
  readSource : string → DurableDocumentJobCaller → Z → AbortSignal S → M S bytes;
  writeResult : string → bytes → DurableDocumentJobCaller → Z → AbortSignal S →
    DocumentAsyncSourceSnapshot → M S string;
  (** Whether the cleanup is pending. *)
  revokeResult : string → DurableDocumentJobCaller → AbortSignal S → M S bool;
  recoverResult : string → DurableDocumentJobCaller → AbortSignal S → M S (option RecoveredResult)
}.
Arguments inspectSource {S} _ _ _ _.
Arguments readSource {S} _ _ _ _ _.
Arguments writeResult {S} _ _ _ _ _ _ _.
Arguments revokeResult {S} _ _ _ _.
Arguments recoverResult {S} _ _ _ _.

Inductive DocumentAsyncProviderStatus :=
  | ProviderPending
  | ProviderRunning
  | ProviderFailed
  | ProviderCompleted (envelope : CanonicalDocumentEnvelope).

Record DocumentAsyncProviderPort (S : Type) := {
  providerId : string;
  pv_create : bytes → string → AbortSignal S → M S string;
  pv_poll : string → AbortSignal S → M S DocumentAsyncProviderStatus;
  (** Whether it acknowledged. *)
  pv_cancel : string → AbortSignal S → M S bool
}.
Arguments providerId {S} _.
Arguments pv_create {S} _ _ _ _.
Arguments pv_poll {S} _ _ _.
Arguments pv_cancel {S} _ _ _.

(** [mode] is [async] or not. *)
Record CreateDocumentAsyncInput := {
  ca_async : bool;
  ca_idempotencyKey : string;
  ca_sourceRefId : string;
  ca_expiresAt : Z;
  ca_policy : DocumentAsyncPolicy
}.

(** A job as its status shows it: all but the credential binding. *)
Record DocumentAsyncJob := {
  aj_jobId : string;
  aj_ownerId : string;
  aj_idempotencyKey : string;
  aj_requestFingerprint : string;
  aj_status : DurableDocumentJobStatus;
  aj_createdAt : Z;
  aj_updatedAt : Z;
  aj_expiresAt : Z;
  aj_resultArtifactRef : option string;
  aj_sanitizedError : option string
}.

Record DocumentAsyncStatus := {
  as_job : DocumentAsyncJob;
  as_dispatchCancelled : bool;
  as_upstreamRequested : bool;
  as_upstreamAcknowledged : bool;
  as_resultCleanupPending : bool;
  as_sourceRevocation : option SourceRevocation
}.

(** The controllers of the runtime: those of the attempts of each job, those
    that were aborted, and how many were made. *)
Record ControllerTable := {
  active : js_map (list nat);
  aborted : list nat;
  made : nat
}.

Class HasControllers (S : Type) := {
  controllers : S → ControllerTable;
  set_controllers : ControllerTable → S → S
}.

(** ** Errors and checks *)

Definition failure (code : ErrorCode) (message : string) : thrown := gerror code "document-async" message false.

Definition key (jobId : string) : string := "document-async:" +:+ jobId.
Definition hash `{!Sha256Api} (b : bytes) : string := "sha256-" +:+ sha256 b.

Definition bounded (s : string) : bool := (1 <=? str_length s)%Z && (str_length s <=? 256)%Z.
Definition boundedId (s : string) : result string := throw_if (negb (bounded s)) rejected_value;; Ok s.

(** An integer of a schema: safe, and not below [min]. *)
Definition integer_from (min z : Z) : bool := (min <=? z)%Z && (z <=? MAX_SAFE_INTEGER)%Z.

Definition snapshotSchema (x : DocumentAsyncSourceSnapshot) : result DocumentAsyncSourceSnapshot :=
  throw_if (negb (bounded (ss_refId x) && hex64_after "sha256-" (ss_contentHash x) &&
                  integer_from 1 (ss_byteSize x) && integer_from 0 (ss_expiresAt x))) rejected_value;;
  Ok x.

Definition policy_ok (p : DocumentAsyncPolicy) : bool :=
  forallb (integer_from 1) [absoluteDeadlineMs p; totalExecutionBudgetMs p; perAttemptDeadlineMs p;
                            maxInputBytes p; maxOutputBytes p].

Definition policySchema (p : DocumentAsyncPolicy) : result DocumentAsyncPolicy :=
  throw_if (negb (policy_ok p)) rejected_value;; Ok p.

(** ** The record of a job's dispatch *)

Definition snapshot_json (x : DocumentAsyncSourceSnapshot) : js_value :=
  JObj [("refId", JStr (ss_refId x)); ("contentHash", JStr (ss_contentHash x));
        ("byteSize", JNum (ss_byteSize x)); ("expiresAt", JNum (ss_expiresAt x))]%string.

Definition snapshot_text (x : DocumentAsyncSourceSnapshot) : string := unchars (json_text (snapshot_json x)).

Definition policy_json (p : DocumentAsyncPolicy) : js_value :=
  JObj [("absoluteDeadlineMs", JNum (absoluteDeadlineMs p)); ("totalExecutionBudgetMs", JNum (totalExecutionBudgetMs p));
        ("perAttemptDeadlineMs", JNum (perAttemptDeadlineMs p)); ("maxInputBytes", JNum (maxInputBytes p));
        ("maxOutputBytes", JNum (maxOutputBytes p))]%string.

Definition revocation_name (r : SourceRevocation) : string :=
  match r with deleted => "deleted" | source_expired => "expired" end.

Definition null_or {A} (f : A → js_value) (a : option A) : js_value :=
  match a with Some a => f a | None => JNull end.

Definition state_json (t : State) : js_value :=
  JObj [("schemaVersion", JStr "1"); ("source", snapshot_json (source t)); ("providerId", JStr (st_providerId t));
        ("policy", policy_json (policy t)); ("budgetEndsAt", JNum (budgetEndsAt t));
        ("providerTaskId", null_or JStr (providerTaskId t)); ("dispatchCancelled", JBool (dispatchCancelled t));
        ("upstreamRequested", JBool (upstreamRequested t)); ("upstreamAcknowledged", JBool (upstreamAcknowledged t));
        ("resultArtifactRef", null_or JStr (resultArtifactRef t)); ("resultCleanupDone", JBool (resultCleanupDone t));
        ("sourceRevocation", null_or (λ r, JStr (revocation_name r)) (sourceRevocation t))]%string.

Definition state_text (t : State) : string := unchars (json_text (state_json t)).

Definition z_boundedId (v : js_value) : option string :=
  s ← as_string v; _ ← guard (bounded s = true); Some s.

Definition snapshot_of_json (v : js_value) : option DocumentAsyncSourceSnapshot :=
  _ ← strict_object ["refId"; "contentHash"; "byteSize"; "expiresAt"] v;
  r ← z_boundedId (prop v "refId");
  h ← as_string (prop v "contentHash"); _ ← guard (hex64_after "sha256-" h = true);
  b ← z_int 1 (prop v "byteSize"); e ← z_int 0 (prop v "expiresAt");
  Some {| ss_refId := r; ss_contentHash := h; ss_byteSize := b; ss_expiresAt := e |}.

Definition policy_of_json (v : js_value) : option DocumentAsyncPolicy :=
  _ ← strict_object ["absoluteDeadlineMs"; "totalExecutionBudgetMs"; "perAttemptDeadlineMs"; "maxInputBytes";
                     "maxOutputBytes"] v;
  a ← z_int 1 (prop v "absoluteDeadlineMs"); t ← z_int 1 (prop v "totalExecutionBudgetMs");
  p ← z_int 1 (prop v "perAttemptDeadlineMs"); i ← z_int 1 (prop v "maxInputBytes");
  o ← z_int 1 (prop v "maxOutputBytes");
  Some {| absoluteDeadlineMs := a; totalExecutionBudgetMs := t; perAttemptDeadlineMs := p; maxInputBytes := i;
          maxOutputBytes := o |}.

(** [.nullable().default(value)] *)
Definition z_default {A} (f : js_value → option A) (v : js_value) : option (option A) :=
  match v with JUndefined => Some None | _ => z_nullable f v end.

Definition stateSchema (v : js_value) : option State :=
  _ ← strict_object ["schemaVersion"; "source"; "providerId"; "policy"; "budgetEndsAt"; "providerTaskId";
                     "dispatchCancelled"; "upstreamRequested"; "upstreamAcknowledged"; "resultArtifactRef";
                     "resultCleanupDone"; "sourceRevocation"] v;
  version ← as_string (prop v "schemaVersion"); _ ← guard (version = "1"%string);
  src ← snapshot_of_json (prop v "source"); pid ← z_boundedId (prop v "providerId");
  p ← policy_of_json (prop v "policy"); b ← z_int 1 (prop v "budgetEndsAt");
  task ← z_nullable z_boundedId (prop v "providerTaskId"); dc ← as_boolean (prop v "dispatchCancelled");
  ur ← as_boolean (prop v "upstreamRequested"); ua ← as_boolean (prop v "upstreamAcknowledged");
  ref ← z_default z_boundedId (prop v "resultArtifactRef");
  done ← match prop v "resultCleanupDone" with JUndefined => Some false | x => as_boolean x end;
  sr ← z_default (by_name revocation_name [deleted; source_expired]) (prop v "sourceRevocation");
  Some {| source := src; st_providerId := pid; policy := p; budgetEndsAt := b; providerTaskId := task;
          dispatchCancelled := dc; upstreamRequested := ur; upstreamAcknowledged := ua;
          resultArtifactRef := ref; resultCleanupDone := done; sourceRevocation := sr |}.

(** [stateSchema.parse(JSON.parse(text))] *)
Definition parse_state (record : DurableRecord) : result State :=
  v ← JSON_parse (value record);
  match stateSchema v with Some t => Ok t | None => Throw rejected_value end.

Section runtime.
Context {S : Type} `{!Sha256Api} `{!DurableRecordStorePort S} `{!HasControllers S}
  `{!CanonicalDocument.NumberText} (clock : S → Z * S) (performance_now : S → number * S)
  (timer : Deadline → AbortSignal S) (abort_reason : AbortSignal S → S → thrown) (rounds : nat)
  (artifacts : DocumentAsyncArtifactPort S) (provider : DocumentAsyncProviderPort S).

(** ** Time and signals *)

Definition read_now : M S Z := λ s, let '(t, s') := clock s in (Ok t, s').
Definition read_performance : M S number := λ s, let '(t, s') := performance_now s in (Ok t, s').

Definition new_deadline (timeoutMs : Z) : M S Deadline :=
  now ← read_performance; lift (Limits.new_Deadline (int timeoutMs) now).

Definition throwIfAborted (signal : AbortSignal S) : M S unit := λ s,
  (if signal s then Throw (abort_reason signal s) else Ok tt, s).

Definition parent_aborted (parent : option (AbortSignal S)) : AbortSignal S := λ s,
  match parent with Some signal => signal s | None => false end.

(** Aborted by the deadline's timer or by the parent. *)
Definition scope (d : Deadline) (parent : option (AbortSignal S)) : AbortSignal S := λ s,
  timer d s || parent_aborted parent s.

Definition withinDeadline {A} (stage : string) (d : Deadline) (parent : option (AbortSignal S))
    (operation : AbortSignal S → M S A) : M S A :=
  now ← read_performance;
  lift (Limits.remainingMs d stage now);;
  stopped ← gets (parent_aborted parent);
  lift (throw_if stopped (Limits.request_cancelled stage));;
  timer_now ← read_performance;
  lift (Limits.remainingMs d stage timer_now);;
  outcome ← attempt (operation (scope d parent));
  stopped ← gets (scope d parent);
  reason ← gets (abort_reason (scope d parent));
  match outcome with
  | inl a => if stopped : bool then throw (Limits.abort_error reason stage) else mret a
  | inr e => throw (if stopped : bool then Limits.abort_error reason stage else e)
  end.

(** ** Controllers *)

Definition controllers_of (t : ControllerTable) (jobId : string) : list nat := default [] (map_get jobId (active t)).

(** A new controller, among those of the job's attempts. *)
Definition start_attempt (jobId : string) : M S nat := λ s,
  let t := controllers s in
  (Ok (made t), set_controllers
    {| active := map_set jobId (controllers_of t jobId ++ [made t]) (active t); aborted := aborted t;
       made := Datatypes.S (made t) |} s).

Definition finish_attempt (jobId : string) (c : nat) : M S unit := λ s,
  let t := controllers s in
  let left := filter (λ c', c' ≠ c) (controllers_of t jobId) in
  (Ok tt, set_controllers
    {| active := match left with [] => map_delete jobId (active t) | _ => map_set jobId left (active t) end;
       aborted := aborted t; made := made t |} s).

Definition abort_attempts (jobId : string) : M S unit := λ s,
  let t := controllers s in
  (Ok tt, set_controllers
    {| active := active t; aborted := controllers_of t jobId ++ aborted t; made := made t |} s).

Definition controller_signal (c : nat) : AbortSignal S := λ s, bool_decide (c ∈ aborted (controllers s)).

(** ** The record of the dispatch *)

Definition metadata_unavailable : thrown := failure UPSTREAM_ERROR "Document dispatch metadata is unavailable".

Definition read (jobId : string) : M S State :=
  record ← ds_get (key jobId);
  match record with
  | None => throw metadata_unavailable
  | Some record =>
      match parse_state record with
      | Ok t => mret t
      | Throw _ => throw (failure UPSTREAM_ERROR "Document dispatch metadata is malformed")
      end
  end.

Definition check_signal (signal : option (AbortSignal S)) : M S unit :=
  match signal with Some signal => throwIfAborted signal | None => mret tt end.

Fixpoint update_loop (stuck : thrown) (n : nat) (jobId : string) (mutate : State → State) (signal : option (AbortSignal S))
    : M S State :=
  match n with
  | O => throw stuck
  | Datatypes.S n' =>
      record ← ds_get (key jobId);
      check_signal signal;;
      match record with
      | None => throw metadata_unavailable
      | Some record =>
          t ← lift (parse_state record);
          let next := mutate t in
          now ← read_now;
          result ← ds_compareAndSwap (key jobId) (revision record)
                     {| upd_value := state_text next; upd_nowMs := int now; upd_expiresAt := None |};
          match result with
          | Updated _ => mret next
          | Missing => throw metadata_unavailable
          | Conflict _ => update_loop stuck n' jobId mutate signal
          end
      end
  end.

Definition update_state := update_loop TOther rounds.

(** ** Expiry and activity *)

Definition get_now (jobId : string) (caller : DurableDocumentJobCaller) : M S VersionedDurableDocumentJob :=
  now ← read_now; get_job jobId caller (int now).

Definition transition_now (jobId : string) (caller : DurableDocumentJobCaller) (rev : Z)
    (to : DurableDocumentJobStatus) (patch : DurableDocumentJobTransitionPatch)
    : M S DurableDocumentJobTransitionResult :=
  now ← read_now; transition jobId caller rev to (int now) patch.

Fixpoint expire_loop (stuck : thrown) (n : nat) (jobId : string) (caller : DurableDocumentJobCaller) (t : State)
    : M S VersionedDurableDocumentJob :=
  match n with
  | O => throw stuck
  | Datatypes.S n' =>
      current ← get_now jobId caller;
      if TERMINAL_STATUSES (job_status current.1) then mret current
      else
        now ← read_now;
        if (now <? budgetEndsAt t)%Z then mret current
        else
          changed ← transition_now jobId caller current.2 expired empty_patch;
          match changed with
          | JobUpdated value => mret value
          | JobConflict _ => expire_loop stuck n' jobId caller t
          end
  end.

Definition expire := expire_loop TOther rounds.

Definition dispatch_cancelled : thrown := failure CANCELLED "Document dispatch is terminal or cancelled".
Definition budget_exhausted : thrown :=
  failure DEADLINE_EXCEEDED "Document absolute deadline or total execution budget exhausted".

Definition assertActive (jobId : string) (caller : DurableDocumentJobCaller) : M S unit :=
  t ← read jobId;
  job ← expire jobId caller t;
  lift (throw_if (negb (bool_decide (st_providerId t = providerId provider)))
    (failure INVALID_INPUT "Document provider binding changed"));;
  now ← read_now;
  lift (throw_if (Z.min (budgetEndsAt t) (job_expiresAt job.1) <=? now)%Z budget_exhausted);;
  lift (throw_if (dispatchCancelled t || TERMINAL_STATUSES (job_status job.1)) dispatch_cancelled).

Definition unless_cancellation (cancellation : bool) (jobId : string) (caller : DurableDocumentJobCaller) : M S unit :=
  if cancellation then mret tt else assertActive jobId caller.

(** ** Effects *)

Definition identity_of (jobId : string) (kind : DurableEffects.DurableEffectKind) : EffectIdentity :=
  DurableEffects.Build_EffectIdentity jobId kind "document-async-v1".

Definition effect_now (identity : EffectIdentity) (rev : Z) (to : DurableEffects.DurableEffectStatus)
    (receipt : option string) : M S (DurableEffects.DurableEffect * Z) :=
  now ← read_now; DurableEffects.transition identity rev to now receipt.

Definition outcome_unresolved : thrown :=
  failure UPSTREAM_ERROR "Document effect outcome is unresolved; automatic repeat is prohibited".

(** The claim; of a cancellation that was not acknowledged, again. *)
Definition claim_effect (identity : EffectIdentity) (cancellation : bool) : M S DurableEffects.EffectClaimResult :=
  now ← read_now;
  claim ← DurableEffects.claim identity now;
  match claim return M S DurableEffects.EffectClaimResult with
  | DurableEffects.Existing e rev =>
      if cancellation && negb (bool_decide (DurableEffects.status e = DurableEffects.succeeded) &&
                               bool_decide (DurableEffects.receipt e = Some "acknowledged"%string))
      then
        now ← read_now;
        retry ← DurableEffects.retry identity rev now;
        match retry with
        | DurableEffects.Reclaimed e rev => mret (DurableEffects.Claimed e rev)
        | DurableEffects.Blocked _ _ =>
            throw (failure UPSTREAM_ERROR "Document cancellation effect is already claimed or inflight")
        end
      else mret claim
  | DurableEffects.Claimed _ _ => mret claim
  end.

Definition is_write (kind : DurableEffects.DurableEffectKind) : bool :=
  bool_decide (kind = DurableEffects.artifact_write).
Definition is_create (kind : DurableEffects.DurableEffectKind) : bool :=
  bool_decide (kind = DurableEffects.provider_task_create).

(** The state, with the reference of a result that is ready. *)
Definition recover_written (jobId : string) (kind : DurableEffects.DurableEffectKind)
    (caller : DurableDocumentJobCaller) (signal : AbortSignal S) (t : State) : M S State :=
  match resultArtifactRef t with
  | None =>
      if is_write kind then
        recovered ← recoverResult artifacts jobId caller signal;
        match recovered with
        | Some r => if rr_ready r then update_state jobId (λ t, t <| resultArtifactRef := Some (rr_refId r) |>) None
                    else mret t
        | None => mret t
        end
      else mret t
  | Some _ => mret t
  end.

(** An effect that was claimed before: its receipt, from the journal or from
    the acknowledgment that the dispatch recorded. *)
Definition existing_effect (jobId : string) (kind : DurableEffects.DurableEffectKind)
    (caller : DurableDocumentJobCaller) (signal : AbortSignal S) (e : DurableEffects.DurableEffect) (rev : Z)
    : M S string :=
  match (if bool_decide (DurableEffects.status e = DurableEffects.succeeded)
         then DurableEffects.receipt e else None) with
  | Some receipt => mret receipt
  | None =>
      if is_create kind || is_write kind then
        t ← read jobId;
        t ← recover_written jobId kind caller signal t;
        match (if is_create kind then providerTaskId t else resultArtifactRef t) with
        | Some receipt =>
            if is_write kind && resultCleanupDone t then throw outcome_unresolved
            else
              assertActive jobId caller;;
              throwIfAborted signal;;
              effect_now (identity_of jobId kind) rev DurableEffects.succeeded (Some receipt);;
              mret receipt
        | None => throw outcome_unresolved
        end
      else throw outcome_unresolved
  end.

Definition error_code (e : thrown) : ErrorCode := default UPSTREAM_ERROR (DurableDocumentOutput.groundlane_code e).

(** The operation of an effect that this call claimed. *)
Definition perform_effect (jobId : string) (kind : DurableEffects.DurableEffectKind)
    (caller : DurableDocumentJobCaller) (signal : AbortSignal S) (operation : M S string) (cancellation : bool)
    (rev : Z) : M S string :=
  let identity := identity_of jobId kind in
  '(_, inflight_rev) ← effect_now identity rev DurableEffects.inflight None;
  outcome ← attempt
    (unless_cancellation cancellation jobId caller;;
     throwIfAborted signal;;
     answer ← operation;
     receipt ← lift (boundedId answer);
     effect_now identity inflight_rev
       (if cancellation && negb (bool_decide (receipt = "acknowledged"%string))
        then DurableEffects.uncertain else DurableEffects.succeeded) (Some receipt);;
     mret receipt);
  match outcome with
  | inl receipt => mret receipt
  | inr error =>
      attempt (effect_now identity inflight_rev DurableEffects.uncertain None);;
      throw (failure (error_code error) "Document effect outcome is uncertain; automatic repeat is prohibited")
  end.

Definition effect (jobId : string) (kind : DurableEffects.DurableEffectKind) (caller : DurableDocumentJobCaller)
    (signal : AbortSignal S) (operation : M S string) (cancellation : bool) : M S string :=
  unless_cancellation cancellation jobId caller;;
  throwIfAborted signal;;
  claim ← claim_effect (identity_of jobId kind) cancellation;
  match claim return M S string with
  | DurableEffects.Existing e rev => existing_effect jobId kind caller signal e rev
  | DurableEffects.Claimed _ rev => perform_effect jobId kind caller signal operation cancellation rev
  end.

(** ** Status *)

Definition public_job (j : DurableDocumentJob) (t : State) : DocumentAsyncJob :=
  {| aj_jobId := job_jobId j; aj_ownerId := job_ownerId j; aj_idempotencyKey := job_idempotencyKey j;
     aj_requestFingerprint := job_requestFingerprint j; aj_status := job_status j;
     aj_createdAt := job_createdAt j; aj_updatedAt := job_updatedAt j; aj_expiresAt := job_expiresAt j;
     aj_resultArtifactRef := match sourceRevocation t with None => job_resultArtifactRef j | Some _ => None end;
     aj_sanitizedError := job_sanitizedError j |}.

Definition has_value {A} (a : option A) : bool := match a with Some _ => true | None => false end.

Definition status (jobId : string) (caller : DurableDocumentJobCaller) (d : Deadline)
    (signal : option (AbortSignal S)) : M S DocumentAsyncStatus :=
  withinDeadline "document-async-poll-wait" d signal (λ _,
    t ← read jobId;
    current ← expire jobId caller t;
    let j := current.1 in
    mret {| as_job := public_job j t; as_dispatchCancelled := dispatchCancelled t;
            as_upstreamRequested := upstreamRequested t; as_upstreamAcknowledged := upstreamAcknowledged t;
            as_resultCleanupPending := has_value (resultArtifactRef t) && negb (resultCleanupDone t) &&
              (negb (bool_decide (job_status j = completed)) || has_value (sourceRevocation t));
            as_sourceRevocation := sourceRevocation t |}).

(** ** Cleanup and cancellation *)

(** The reference to clean up, recovered if the state has none. *)
Definition cleanup_ref (jobId : string) (caller : DurableDocumentJobCaller) (signal : AbortSignal S) (t : State)
    : M S (option string) :=
  match resultArtifactRef t with
  | Some ref => mret (Some ref)
  | None =>
      recovered ← recoverResult artifacts jobId caller signal;
      match recovered with
      | None => mret None
      | Some r =>
          t ← update_state jobId (λ t, t <| resultArtifactRef := Some (rr_refId r) |>) None;
          mret (resultArtifactRef t)
      end
  end.

Definition reconcileResultCleanup (jobId : string) (caller : DurableDocumentJobCaller) (d : Deadline)
    (signal : option (AbortSignal S)) : M S unit :=
  withinDeadline "document-async-result-cleanup" d signal (λ cleanupSignal,
    t ← read jobId;
    current ← expire jobId caller t;
    let st := job_status current.1 in
    if negb (TERMINAL_STATUSES st) || (bool_decide (st = completed) && negb (has_value (sourceRevocation t))) ||
       resultCleanupDone t
    then mret tt
    else
      ref ← cleanup_ref jobId caller cleanupSignal t;
      match ref with
      | None => mret tt
      | Some ref =>
          throwIfAborted cleanupSignal;;
          pending ← revokeResult artifacts ref caller cleanupSignal;
          if pending : bool then mret tt
          else
            update_state jobId (λ t, t <| resultCleanupDone := bool_decide (resultArtifactRef t = Some ref) |>) None;;
            mret tt
      end).

Definition reconcileCancellation (jobId : string) (caller : DurableDocumentJobCaller) (d : Deadline)
    (signal : option (AbortSignal S)) : M S unit :=
  withinDeadline "document-async-cancel-reconcile" d signal (λ cancelSignal,
    get_now jobId caller;;
    t ← read jobId;
    throwIfAborted cancelSignal;;
    match providerTaskId t with
    | Some task =>
        if upstreamRequested t && negb (upstreamAcknowledged t) then
          answer ← effect jobId DurableEffects.provider_task_cancel caller cancelSignal
            (acknowledged ← pv_cancel provider task cancelSignal;
             mret (if acknowledged : bool then "acknowledged"%string else "not-acknowledged"%string)) true;
          update_state jobId (λ t, t <| upstreamAcknowledged :=
            upstreamAcknowledged t || bool_decide (answer = "acknowledged"%string) |>) None;;
          mret tt
        else mret tt
    | None => mret tt
    end).

(** ** Creation *)

(** The text of the request that the fingerprint is of. *)
Definition request_json (src : DocumentAsyncSourceSnapshot) (p : DocumentAsyncPolicy) (expiresAt : Z) : js_value :=
  JObj [("source", snapshot_json src); ("policy", policy_json p); ("expiresAt", JNum expiresAt);
        ("providerId", JStr (providerId provider))]%string.

Definition request_fingerprint (src : DocumentAsyncSourceSnapshot) (p : DocumentAsyncPolicy) (expiresAt : Z) : string :=
  hash (utf8 (unchars (json_text (request_json src p expiresAt)))).

Definition new_state (src : DocumentAsyncSourceSnapshot) (p : DocumentAsyncPolicy) (createdAt : Z) : State :=
  {| source := src; st_providerId := providerId provider; policy := p;
     budgetEndsAt := Z.min (absoluteDeadlineMs p) (createdAt + totalExecutionBudgetMs p);
     providerTaskId := None; dispatchCancelled := false; upstreamRequested := false; upstreamAcknowledged := false;
     resultArtifactRef := None; resultCleanupDone := false; sourceRevocation := None |}.

Definition created_job (r : CreateDurableDocumentJobResult) : DurableDocumentJob :=
  match r with JobCreated c | JobReused c => c.1 end.

(** The job and its dispatch, in the records; gives the id. *)
Definition record_job (input : CreateDocumentAsyncInput) (p : DocumentAsyncPolicy)
    (caller : DurableDocumentJobCaller) (createSignal : AbortSignal S) : M S string :=
  inspected ← inspectSource artifacts (ca_sourceRefId input) caller createSignal;
  src ← lift (snapshotSchema inspected);
  now ← read_now;
  lift (throw_if (negb (bool_decide (ss_refId src = ca_sourceRefId input)) || (maxInputBytes p <? ss_byteSize src)%Z ||
                  (Z.min (Z.min (ss_expiresAt src) (ca_expiresAt input)) (absoluteDeadlineMs p) <=? now)%Z)
    (failure INVALID_INPUT "Source or execution policy is invalid or expired"));;
  throwIfAborted createSignal;;
  created ← createIfAbsent
    {| cj_caller := caller; cj_idempotencyKey := ca_idempotencyKey input;
       cj_requestFingerprint := request_fingerprint src p (ca_expiresAt input); cj_nowMs := int now;
       cj_expiresAt := int (Z.min (ca_expiresAt input) (ss_expiresAt src)) |};
  let j := created_job created in
  ds_createIfAbsent {| new_key := key (job_jobId j);
                       new_update := {| upd_value := state_text (new_state src p (job_createdAt j));
                                        upd_nowMs := int now; upd_expiresAt := None |} |};;
  mret (job_jobId j).

Definition create (input : CreateDocumentAsyncInput) (caller : DurableDocumentJobCaller) (d : Deadline)
    (signal : option (AbortSignal S)) : M S DocumentAsyncStatus :=
  lift (throw_if (negb (ca_async input)) (failure INVALID_INPUT "Document jobs require explicit async mode"));;
  p ← lift (policySchema (ca_policy input));
  lift (boundedId (providerId provider));;
  withinDeadline "document-async-create" d signal (λ createSignal,
    jobId ← record_job input p caller createSignal;
    status jobId caller d (Some createSignal)).

(** ** One attempt *)

(** The source as it is now, which must be the one of the request. *)
Definition same_source (t : State) (caller : DurableDocumentJobCaller) (signal : AbortSignal S) : M S unit :=
  inspected ← inspectSource artifacts (ss_refId (source t)) caller signal;
  src ← lift (snapshotSchema inspected);
  lift (throw_if (negb (bool_decide (snapshot_text src = snapshot_text (source t))))
    (failure INVALID_INPUT "Source snapshot changed or was revoked")).

(** The source's bytes, checked, and their submission, recorded. *)
Definition submit (jobId : string) (caller : DurableDocumentJobCaller) (signal : AbortSignal S) (t : State) : M S string :=
  b ← readSource artifacts (ss_refId (source t)) caller (maxInputBytes (policy t)) signal;
  lift (throw_if (negb (byteLength b =? ss_byteSize (source t))%Z || (maxInputBytes (policy t) <? byteLength b)%Z ||
                  negb (bool_decide (hash b = ss_contentHash (source t))))
    (failure INVALID_INPUT "Source snapshot integrity check failed"));;
  assertActive jobId caller;;
  throwIfAborted signal;;
  answer ← pv_create provider b jobId signal;
  submitted ← lift (boundedId answer);
  update_state jobId (λ t, t <| providerTaskId := Some submitted |>) None;;
  mret submitted.

Definition set_task (jobId task : string) (caller : DurableDocumentJobCaller) (t : State) : M S unit :=
  submitted ← update_state jobId (λ t, t <| providerTaskId := Some task |>) None;
  if upstreamRequested submitted && negb (upstreamAcknowledged submitted) then
    d ← new_deadline (perAttemptDeadlineMs (policy t)); reconcileCancellation jobId caller d None
  else mret tt.

(** What the provider says, an error of its own with the code that it has. *)
Definition poll (task : string) (signal : AbortSignal S) : M S DocumentAsyncProviderStatus :=
  catch (pv_poll provider task signal)
    (λ e, throw (failure (error_code e) "Document provider status request failed")).

Definition envelope_bytes (e : CanonicalDocumentEnvelope) : bytes :=
  utf8 (CanonicalDocument.tree_text (CanonicalDocument.envelope_tree e)).

(** The bytes of an answer that is valid, of this source, and within the limit. *)
Definition checked_result (t : State) (e : CanonicalDocumentEnvelope) : result bytes :=
  match CanonicalDocument.validateEnvelope e with
  | Throw _ => Throw (failure UPSTREAM_ERROR "Document provider returned a malformed canonical envelope")
  | Ok _ =>
      throw_if (negb (bool_decide (CanonicalDocument.contentHash (CanonicalDocument.sourceIdentity e) =
                                   ss_contentHash (source t))))
        (failure UPSTREAM_ERROR "Document provider result source identity mismatch");;
      throw_if (maxOutputBytes (policy t) <? byteLength (envelope_bytes e))%Z
        (failure INVALID_INPUT "Document provider output exceeds byte limit");;
      Ok (envelope_bytes e)
  end.

(** The cleanup under a deadline of its own, whatever becomes of it. *)
Definition try_cleanup (jobId : string) (caller : DurableDocumentJobCaller) (t : State) : M S unit :=
  d ← new_deadline (perAttemptDeadlineMs (policy t));
  ignore (reconcileResultCleanup jobId caller d None).

(** The write of the result, its acknowledgment recorded. *)
Definition write_result (jobId : string) (caller : DurableDocumentJobCaller) (signal : AbortSignal S) (t : State)
    (expiresAt : Z) (b : bytes) : M S string :=
  answer ← writeResult artifacts jobId b caller expiresAt signal (source t);
  acknowledged ← lift (boundedId answer);
  update_state jobId (λ t, t <| resultArtifactRef := Some acknowledged |>) None;;
  try_cleanup jobId caller t;;
  mret acknowledged.

(** The job is taken to its end, from what it is now. *)
Definition finish (jobId : string) (caller : DurableDocumentJobCaller) (signal : AbortSignal S)
    (to : DurableDocumentJobStatus) (patch : DurableDocumentJobTransitionPatch) : M S unit :=
  latest ← get_now jobId caller;
  throwIfAborted signal;;
  transition_now jobId caller latest.2 to patch;;
  mret tt.

Definition complete (jobId : string) (caller : DurableDocumentJobCaller) (signal : AbortSignal S) (t : State)
    (expiresAt : Z) (e : CanonicalDocumentEnvelope) : M S unit :=
  same_source t caller signal;;
  b ← lift (checked_result t e);
  ref ← effect jobId DurableEffects.artifact_write caller signal
          (write_result jobId caller signal t expiresAt b) false;
  assertActive jobId caller;;
  finish jobId caller signal completed
    {| patch_resultArtifactRef := Some (Some ref); patch_sanitizedError := None |}.

(** From a job that is running. *)
Definition drive (jobId : string) (caller : DurableDocumentJobCaller) (t : State) (expiresAt : Z)
    (signal : AbortSignal S) : M S unit :=
  same_source t caller signal;;
  task ← effect jobId DurableEffects.provider_task_create caller signal (submit jobId caller signal t) false;
  set_task jobId task caller t;;
  assertActive jobId caller;;
  throwIfAborted signal;;
  answer ← poll task signal;
  assertActive jobId caller;;
  throwIfAborted signal;;
  match answer with
  | ProviderFailed =>
      finish jobId caller signal failed
        {| patch_resultArtifactRef := None;
           patch_sanitizedError := Some (Some "Document provider execution failed"%string) |}
  | ProviderCompleted e => complete jobId caller signal t expiresAt e
  | ProviderPending | ProviderRunning => mret tt
  end.

(** The job, running, or what it is when it cannot be. *)
Definition ensure_running (jobId : string) (caller : DurableDocumentJobCaller) (current : VersionedDurableDocumentJob)
    : M S VersionedDurableDocumentJob :=
  if bool_decide (job_status current.1 = running) then mret current
  else
    changed ← transition_now jobId caller current.2 running empty_patch;
    mret (match changed with JobUpdated c | JobConflict c => c end).

Definition attempt_body (jobId : string) (caller : DurableDocumentJobCaller) (t : State)
    (current : VersionedDurableDocumentJob) (signal : AbortSignal S) : M S unit :=
  c ← ensure_running jobId caller current;
  if negb (bool_decide (job_status current.1 = running)) && TERMINAL_STATUSES (job_status c.1) then mret tt
  else drive jobId caller t (job_expiresAt c.1) signal.

(** A job that is over: what is left of its cleanup and cancellation. *)
Definition wind_up (jobId : string) (caller : DurableDocumentJobCaller) (parent : option (AbortSignal S))
    (t : State) (before current : VersionedDurableDocumentJob) : M S unit :=
  d ← new_deadline (perAttemptDeadlineMs (policy t));
  reconcileResultCleanup jobId caller d parent;;
  (if upstreamRequested t && negb (upstreamAcknowledged t) then
     d ← new_deadline (perAttemptDeadlineMs (policy t)); reconcileCancellation jobId caller d parent
   else mret tt);;
  lift (throw_if (negb (TERMINAL_STATUSES (job_status before.1)) && bool_decide (job_status current.1 = expired))
    budget_exhausted).

(** Either of two signals, [AbortSignal.any]. *)
Definition either (a : AbortSignal S) (b : option (AbortSignal S)) : AbortSignal S := λ s, a s || parent_aborted b s.

(** A job that is not over: one attempt, and its cleanup. *)
Definition run_attempt (jobId : string) (caller : DurableDocumentJobCaller) (parent : option (AbortSignal S))
    (t : State) (current : VersionedDurableDocumentJob) : M S unit :=
  assertActive jobId caller;;
  now ← read_now;
  d ← new_deadline (Z.min (perAttemptDeadlineMs (policy t))
                          (Z.min (budgetEndsAt t) (job_expiresAt current.1) - now));
  c ← start_attempt jobId;
  outcome ← attempt (withinDeadline "document-async-attempt" d (Some (either (controller_signal c) parent))
                       (attempt_body jobId caller t current));
  finish_attempt jobId c;;
  try_cleanup jobId caller t;;
  match outcome with inl _ => mret tt | inr e => throw e end.

Definition advance (jobId : string) (caller : DurableDocumentJobCaller) (parent : option (AbortSignal S)) : M S unit :=
  check_signal parent;;
  before ← get_now jobId caller;
  t ← read jobId;
  current ← expire jobId caller t;
  if TERMINAL_STATUSES (job_status current.1) then wind_up jobId caller parent t before current
  else run_attempt jobId caller parent t current.

(** ** Cancellation and revocation *)

(** A job that is not over is cancelled. *)
Fixpoint cancel_loop (stuck : thrown) (n : nat) (jobId : string) (caller : DurableDocumentJobCaller) (cancelSignal : AbortSignal S)
    : M S unit :=
  match n with
  | O => throw stuck
  | Datatypes.S n' =>
      current ← get_now jobId caller;
      throwIfAborted cancelSignal;;
      if TERMINAL_STATUSES (job_status current.1) then mret tt
      else
        changed ← transition_now jobId caller current.2 cancelled empty_patch;
        match changed with
        | JobUpdated _ => mret tt
        | JobConflict _ => cancel_loop stuck n' jobId caller cancelSignal
        end
  end.

Definition cancel (jobId : string) (caller : DurableDocumentJobCaller) (upstream : bool) (d : Deadline)
    (signal : option (AbortSignal S)) : M S DocumentAsyncStatus :=
  withinDeadline "document-async-cancel" d signal (λ cancelSignal,
    before ← get_now jobId caller;
    throwIfAborted cancelSignal;;
    if TERMINAL_STATUSES (job_status before.1) && negb (bool_decide (job_status before.1 = cancelled)) then
      reconcileResultCleanup jobId caller d (Some cancelSignal);;
      status jobId caller d (Some cancelSignal)
    else
      update_state jobId (λ t, t <| dispatchCancelled := true |>
                                 <| upstreamRequested := upstreamRequested t || upstream |>) (Some cancelSignal);;
      abort_attempts jobId;;
      cancel_loop TOther rounds jobId caller cancelSignal;;
      reconcileResultCleanup jobId caller d (Some cancelSignal);;
      (if upstream then reconcileCancellation jobId caller d (Some cancelSignal) else mret tt);;
      status jobId caller d (Some cancelSignal)).

Definition revoke_state (reason : SourceRevocation) (t : State) : State :=
  t <| dispatchCancelled := true |>
    <| sourceRevocation := match sourceRevocation t with Some deleted => Some deleted | _ => Some reason end |>.

Definition revokeSource (jobId : string) (caller : DurableDocumentJobCaller) (reason : SourceRevocation)
    (d : Deadline) (signal : option (AbortSignal S)) : M S DocumentAsyncStatus :=
  withinDeadline "document-async-source-revocation" d signal (λ revokeSignal,
    now ← read_now;
    DurableDocumentJobs.revokeSource jobId caller (int now);;
    throwIfAborted revokeSignal;;
    update_state jobId (revoke_state reason) (Some revokeSignal);;
    abort_attempts jobId;;
    reconcileResultCleanup jobId caller d (Some revokeSignal);;
    status jobId caller d (Some revokeSignal)).
End runtime.

(** ** [DurableDocumentAsyncArtifacts]

    Over the artifacts of uploads, of which it calls [readArtifact] only, and
    the runtime of document outputs. *)

Record DurableDocumentAsyncArtifacts (S : Type) := {
  outputs : DurableDocumentOutput.DurableDocumentOutputRuntime S;
  tenantId : string
}.
Arguments outputs {S} _.
Arguments tenantId {S} _.

(** The constructor's check. *)
Definition check_tenant (tenant : string) : result unit :=
  throw_if ((str_length tenant =? 0)%Z || (256 <? str_length tenant)%Z)
    (gerror INVALID_INPUT "document-async-artifacts" "Invalid storage tenant" false).

Definition projection_json (p : CanonicalDocument.ProjectionResult) : js_value :=
  JObj [("projectionVersion", JStr (CanonicalDocument.projectionVersion p));
        ("sourceDocumentId", JStr (CanonicalDocument.sourceDocumentId p));
        ("canonicalContentId", JStr (CanonicalDocument.pr_contentId p));
        ("kind", JStr (match CanonicalDocument.pr_kind p with
                       | CanonicalDocument.kind_markdown => "markdown"
                       | CanonicalDocument.kind_structured => "structured"
                       | CanonicalDocument.kind_text => "text"
                       | CanonicalDocument.kind_all => "all" end));
        ("content", JStr (CanonicalDocument.pr_content p)); ("lossy", JBool (CanonicalDocument.lossy p));
        ("omissions", JArr (map JStr (CanonicalDocument.omissions p)));
        ("warnings", JArr (map JStr (CanonicalDocument.pr_warnings p)))]%string.

(** The envelope that the bytes are the JSON of. *)
Definition envelope_of_bytes (b : bytes) : result CanonicalDocumentEnvelope :=
  match utf8_decode b with
  | None => Throw (TError "invalid UTF-8")
  | Some text => v ← JSON_parse text; CanonicalDocument.parseCanonicalDocumentEnvelope v
  end.

Section artifacts.
Context {S : Type} `{!Sha256Api} `{!DurableRecordStorePort S} `{!ImmutableBlobPort S}
  `{!CanonicalDocument.NumberText} (clock : S → Z * S) (randomUUID : S → string * S)
  (abort_reason : AbortSignal S → S → thrown) (this : DurableDocumentAsyncArtifacts S).

Definition upload_caller (caller : DurableDocumentJobCaller) : DurableUpload.DurableUploadCaller :=
  DurableUpload.Build_DurableUploadCaller (jc_ownerId caller) (jc_credentialBinding caller).

Definition output_caller (caller : DurableDocumentJobCaller) : DurableArtifacts.DurableArtifactCaller :=
  DurableArtifacts.Build_DurableArtifactCaller (tenantId this) (jc_ownerId caller) (jc_credentialBinding caller).

(** [this.uploads.readArtifact], at the time of the clock. *)
Definition read_upload (refId : string) (caller : DurableDocumentJobCaller) (maxBytes : Z)
    : M S DurableUpload.DurableArtifactRead :=
  now ← read_now clock; DurableUpload.readArtifact refId (upload_caller caller) (int now) (int maxBytes).

Definition snapshot_of (r : DurableUpload.DurableArtifactRead) : DocumentAsyncSourceSnapshot :=
  let ref := DurableUpload.read_ref r in
  {| ss_refId := DurableUpload.ref_refId ref; ss_contentHash := DurableUpload.ref_contentHash ref;
     ss_byteSize := DurableUpload.ref_byteSize ref; ss_expiresAt := DurableUpload.ref_expiresAt ref |}.

Definition artifacts_inspectSource (refId : string) (caller : DurableDocumentJobCaller) (signal : AbortSignal S)
    : M S DocumentAsyncSourceSnapshot :=
  throwIfAborted abort_reason signal;;
  r ← read_upload refId caller MAX_IMMUTABLE_BLOB_BYTES;
  throwIfAborted abort_reason signal;;
  mret (snapshot_of r).

Definition artifacts_readSource (refId : string) (caller : DurableDocumentJobCaller) (maxBytes : Z)
    (signal : AbortSignal S) : M S bytes :=
  throwIfAborted abort_reason signal;;
  r ← read_upload refId caller maxBytes;
  throwIfAborted abort_reason signal;;
  mret (DurableUpload.read_bytes r).

(** Whether the source is another than the snapshot, or not the envelope's. *)
Definition snapshot_changed (x : DocumentAsyncSourceSnapshot) (r : DurableUpload.DurableArtifactRead)
    (e : CanonicalDocumentEnvelope) : bool :=
  let now := snapshot_of r in
  let identity := CanonicalDocument.sourceIdentity e in
  negb (bool_decide (ss_contentHash now = ss_contentHash x)) || negb (ss_byteSize now =? ss_byteSize x)%Z ||
  negb (ss_expiresAt now =? ss_expiresAt x)%Z ||
  negb (bool_decide (CanonicalDocument.contentHash identity = ss_contentHash x)) ||
  match CanonicalDocument.artifactRef identity with
  | Some ref => negb (bool_decide (ref = ss_refId x))
  | None => false
  end.

Definition result_payload (e : CanonicalDocumentEnvelope) (p : CanonicalDocument.ProjectionResult) : js_value :=
  JObj [("envelope", CanonicalDocument.envelope_value e); ("projection", projection_json p)]%string.

Definition artifacts_writeResult (jobId : string) (b : bytes) (caller : DurableDocumentJobCaller) (expiresAt : Z)
    (signal : AbortSignal S) (x : DocumentAsyncSourceSnapshot) : M S string :=
  throwIfAborted abort_reason signal;;
  lift (throw_if ((byteLength b =? 0)%Z || (MAX_IMMUTABLE_BLOB_BYTES <? byteLength b)%Z)
    (gerror OUTPUT_LIMIT "document-async-artifacts" "Document result exceeds storage bounds" false));;
  e ← lift (match envelope_of_bytes b with
            | Ok e => Ok e
            | Throw _ => Throw (gerror INVALID_INPUT "document-async-artifacts" "Document result is invalid" false)
            end);
  r ← read_upload (ss_refId x) caller MAX_IMMUTABLE_BLOB_BYTES;
  lift (throw_if (snapshot_changed x r e)
    (gerror INVALID_INPUT "document-async-artifacts" "Document source snapshot changed" false));;
  throwIfAborted abort_reason signal;;
  p ← lift (CanonicalDocument.projectCanonicalDocument e (Some CanonicalDocument.kind_markdown));
  output ← DurableDocumentOutput.save clock randomUUID (outputs this)
    {| DurableDocumentOutput.so_caller := output_caller caller;
       DurableDocumentOutput.so_sourceBytes := DurableUpload.read_bytes r;
       DurableDocumentOutput.so_mimeType := DurableUpload.read_mimeType r;
       DurableDocumentOutput.so_filename := DurableUpload.read_filename r;
       DurableDocumentOutput.so_payload := result_payload e p;
       DurableDocumentOutput.so_sourceExpiresAt := Some (Z.min expiresAt (ss_expiresAt x));
       DurableDocumentOutput.so_externalSourceRef := Some (ss_refId x);
       DurableDocumentOutput.so_operationKey := Some jobId |} signal;
  mret (DurableArtifacts.am_refId output).

Definition artifacts_revokeResult (refId : string) (caller : DurableDocumentJobCaller) (signal : AbortSignal S)
    : M S bool :=
  d ← DurableDocumentOutput.delete clock (outputs this) refId (output_caller caller) signal;
  mret (DurableDocumentOutput.cleanupPending d).

Definition artifacts_recoverResult (jobId : string) (caller : DurableDocumentJobCaller) (signal : AbortSignal S)
    : M S (option RecoveredResult) :=
  r ← DurableDocumentOutput.recoverOperation clock (outputs this) jobId (output_caller caller) signal;
  mret ((λ r, {| rr_refId := DurableDocumentOutput.rv_refId r; rr_ready := DurableDocumentOutput.rv_ready r |}) <$> r).

(** The port that the runtime uses. *)
Definition artifact_port : DocumentAsyncArtifactPort S :=
  {| inspectSource := artifacts_inspectSource; readSource := artifacts_readSource;
     writeResult := artifacts_writeResult; revokeResult := artifacts_revokeResult;
     recoverResult := artifacts_recoverResult |}.
End artifacts.
