(* ===== verification/DocumentAsyncSafety.v ===== *)
(** * Correctness of documents converted in the background

    Among other workers, and whatever calls fail: the record of a dispatch only
    moves forward; a dispatch that is cancelled does no more work; a document
    is submitted to the provider, and its result written, at most once; and a
    status after a revocation shows no result. *)

From S2P Require Import Prelude Interference JsString JsMap Digest Json DurableStore RecordFamily DurableDocumentJobs.
From S2P Require Import DocumentAsync.
From S2P Require DurableEffects DurableEffectsSafety DurableDocumentJobsSafety CanonicalDocument CanonicalDocumentSafety.

Abbreviation reached := DurableEffectsSafety.reached.

(** ** The loops that try again

    A round that ends in a conflict means that another worker came first.
    Where it is the job that moved, it moved to a later status. *)

Abbreviation jobs_env := (@family_env DurableDocumentJobsSafety.job_family).
Abbreviation jobs_good := (@family_good DurableDocumentJobsSafety.job_family).
Abbreviation job_at := DurableDocumentJobsSafety.job_at.
Abbreviation rank := DurableDocumentJobsSafety.rank.
Abbreviation floor := DurableDocumentJobsSafety.floor.

Section rounds.
#[local] Existing Instance DurableDocumentJobsSafety.job_family.
Context {S : Type} `{!DurableRecordStorePort S} (view : S → memory) (env : memory → memory → Prop)
  `{Laws : !DurableStoreLaws view env} (Henv : ∀ m m', env m m' → jobs_env m m')
  (clock : S → Z * S) (Hclock : ∀ s, env (view s) (view (clock s).2)) (abort_reason : AbortSignal S → S → thrown).

Lemma moves_read_clock (K : memory → Prop) : stable K → moves view K (read_now clock) (λ _, K).
Proof.
  intros HK s Hg Hs. specialize (Hclock s). unfold wp, read_now. destruct (clock s) as [t s']. cbn in *.
  split; [by apply Henv|]. exact (HK _ _ (Henv _ _ Hclock) Hs).
Qed.

Lemma moves_get_now k id caller :
  moves view (floor id k) (get_now clock id caller) (λ c m, (∃ r, job_at id r c m) ∧ k ≤ rank (job_status c.1)).
Proof.
  unfold get_now. eapply moves_bind; [apply DurableDocumentJobsSafety.floor_stable| |].
  { apply moves_read_clock, DurableDocumentJobsSafety.floor_stable. }
  intros now. destruct k as [|k].
  - eapply moves_mono; [| |apply (DurableDocumentJobsSafety.moves_get_job view env Henv (λ _, True)), stable_const]; [done|].
    intros c m (_ & Hr & _). by split; [|lia].
  - eapply (moves_pick view _ (λ rc m, job_at id rc.1 rc.2 m ∧ Datatypes.S k ≤ rank (job_status rc.2.1))).
    { intros m [[?|(r & c & Hr & Hc)] _]; [done|by exists (r, c)]. }
    intros [r0 c0]. eapply (moves_pure view _ (Datatypes.S k ≤ rank (job_status c0.1))); [by intros m (_ & _ & ?)|].
    intros Hk. eapply moves_mono; [| |apply (DurableDocumentJobsSafety.moves_get_job_later view env Henv id caller _ r0 c0)].
    + by intros m (_ & ? & _).
    + intros c m [Hr [->|Hl]]; (split; [done|lia]).
Qed.

Lemma moves_transition_again id caller c0 to patch :
  moves view (λ m, ∃ r, job_at id r c0 m) (transition_now clock id caller c0.2 to patch) (λ o m, match o with
    | JobUpdated _ => True
    | JobConflict c => floor id (Datatypes.S (rank (job_status c0.1))) m end).
Proof.
  apply (moves_pick view _ (λ r m, job_at id r c0 m)); [done|]. intros r.
  pose proof (DurableDocumentJobsSafety.job_at_stable id r c0) as HK.
  eapply (moves_mono view (job_at id r c0)); [by intros m [_ ?]|intros a m Ha; exact Ha|]. unfold transition_now.
  eapply moves_bind; [done|by apply moves_read_clock|]. intros now.
  eapply moves_mono; [|
    |by apply (DurableDocumentJobsSafety.moves_transition_conflict view env Henv id caller c0.2 to (int now) patch r c0)].
  - by intros m [? _].
  - intros [c|c] m; [done|]. intros [[r' Hr'] Hl]. right. by exists r', c.
Qed.

Lemma rank_open st : TERMINAL_STATUSES st = false → rank st ≤ 2.
Proof. destruct st; cbn; intros [=]; lia. Qed.

(** What a round has done, from a job that is at least at rank [k]. *)
Lemma round_got k id caller s c s' :
  jobs_good (view s) → floor id k (view s) → get_now clock id caller s = (Ok c, s') →
  jobs_good (view s') ∧ (∃ r, job_at id r c (view s')) ∧ k ≤ rank (job_status c.1).
Proof.
  intros Hg Hk Hrun. destruct (wp_run _ _ _ _ _ (moves_get_now k id caller s Hg Hk) Hrun) as [He Hc].
  split; [exact (family_env_good _ _ He Hg)|exact Hc].
Qed.

Lemma round_conflict id caller c0 to patch s c s' :
  jobs_good (view s) → (∃ r, job_at id r c0 (view s)) →
  transition_now clock id caller c0.2 to patch s = (Ok (JobConflict c), s') →
  jobs_good (view s') ∧ floor id (Datatypes.S (rank (job_status c0.1))) (view s').
Proof.
  intros Hg Hk Hrun. destruct (wp_run _ _ _ _ _ (moves_transition_again id caller c0 to patch s Hg Hk) Hrun) as [He Hc].
  split; [exact (family_env_good _ _ He Hg)|exact Hc].
Qed.

Lemma cancel_rounds stuck stuck' n e k id caller signal s :
  4 ≤ k + n → k ≤ 3 → jobs_good (view s) → floor id k (view s) →
  cancel_loop clock abort_reason stuck (n + e) id caller signal s =
  cancel_loop clock abort_reason stuck' n id caller signal s.
Proof.
  revert k s. induction n as [|n IH]; intros k s Hn Hk Hg Hf; [lia|]. cbn [Nat.add cancel_loop].
  apply bind_same. intros c s1 Hget. destruct (round_got _ _ _ _ _ _ Hg Hf Hget) as (Hg1 & Hc & Hle).
  apply bind_same. intros [] s2 Hsig. assert (s2 = s1) as -> by (unfold throwIfAborted in Hsig; by injection Hsig as _ <-).
  destruct (TERMINAL_STATUSES _) eqn:Ht; [done|]. apply rank_open in Ht.
  apply bind_same. intros [c'|c'] s3 Htr; [done|]. destruct (round_conflict _ _ _ _ _ _ _ _ Hg1 Hc Htr) as [Hg3 Hf3].
  apply (IH (Datatypes.S (rank (job_status c.1)))); [lia|lia|done..].
Qed.

Lemma expire_rounds stuck stuck' n e k id caller t s :
  4 ≤ k + n → k ≤ 3 → jobs_good (view s) → floor id k (view s) →
  expire_loop clock stuck (n + e) id caller t s = expire_loop clock stuck' n id caller t s.
Proof.
  revert k s. induction n as [|n IH]; intros k s Hn Hk Hg Hf; [lia|]. cbn [Nat.add expire_loop].
  apply bind_same. intros c s1 Hget. destruct (round_got _ _ _ _ _ _ Hg Hf Hget) as (Hg1 & Hc & Hle).
  destruct (TERMINAL_STATUSES _) eqn:Ht; [done|]. apply rank_open in Ht.
  apply bind_same. intros now s2 Hnow.
  assert (Hst : stable (λ m, ∃ r, job_at id r c m)).
  { intros m m' He [r Hr]. exists r. exact (DurableDocumentJobsSafety.job_at_stable _ _ _ _ _ He Hr). }
  destruct (wp_run _ _ _ _ _ (moves_read_clock _ Hst s1 Hg1 Hc) Hnow) as [He Hc2].
  pose proof (family_env_good _ _ He Hg1) as Hg2.
  destruct (now <? budgetEndsAt t)%Z; [done|].
  apply bind_same. intros [c'|c'] s3 Htr; [done|]. destruct (round_conflict _ _ _ _ _ _ _ _ Hg2 Hc2 Htr) as [Hg3 Hf3].
  apply (IH (Datatypes.S (rank (job_status c.1)))); [lia|lia|done..].
Qed.

(** C18: the loops over a job terminate.  Of expiring and of cancelling a job
    the fourth round is the last: a further one only follows a write that took
    the job to a later status, whatever other workers do; so what the loop
    does is the same with more rounds, and does not depend on what it would do
    without any left. *)
Theorem job_loops_terminate stuck stuck' more id caller s :
  jobs_good (view s) →
  (∀ t, expire_loop clock stuck (4 + more) id caller t s = expire_loop clock stuck' 4 id caller t s) ∧
  (∀ signal, cancel_loop clock abort_reason stuck (4 + more) id caller signal s =
             cancel_loop clock abort_reason stuck' 4 id caller signal s).
Proof.
  intros Hg. split; intros; [apply (expire_rounds stuck stuck' 4 more 0)|apply (cancel_rounds stuck stuck' 4 more 0)];
    solve [lia|done|by left].
Qed.
End rounds.

(** A store in which nobody else writes the record under [k]. *)
Definition undisturbed (k : string) (env : memory → memory → Prop) : Prop :=
  ∀ m m', env m m' → map_get k m' = map_get k m.

(** an update of a dispatch that nobody else writes meanwhile takes one
    round: with more it does the same, and it does not run out. *)
Theorem undisturbed_update_takes_one_round {S} `{!DurableRecordStorePort S} (view : S → memory) env clock
    abort_reason stuck stuck' more id mutate signal s :
  DurableStoreLaws view env → undisturbed (key id) env → (∀ s, env (view s) (view (clock s).2)) →
  update_loop clock abort_reason stuck (1 + more) id mutate signal s =
  update_loop clock abort_reason stuck' 1 id mutate signal s.
Proof.
  intros Laws Hkeep Hclock. cbn [Nat.add update_loop].
  apply bind_same. intros o s1 Hget.
  assert (Ho : map_get (key id) (view s1) = o).
  { destruct (get_atomic (key id) s) as (m & _ & [[Hr Hv]|[[e He] _]]); rewrite Hget in *; [|done]. cbn in *.
    unfold mem_get in *. rewrite lift_bind in *. destruct (validateDurableKey _); [|done]. injection Hr as ->. by rewrite Hv. }
  apply bind_same. intros [] s2 Hsig.
  assert (s2 = s1) as ->.
  { destruct signal; cbn in Hsig; [unfold throwIfAborted in Hsig; by injection Hsig as _ <-|by injection Hsig as <-]. }
  destruct o as [r|]; [|done]. apply bind_same. intros t s3 Ht.
  assert (s3 = s1) as -> by (unfold lift in Ht; by injection Ht as _ <-). cbv zeta.
  apply bind_same. intros now s4 Hnow.
  assert (Hr : map_get (key id) (view s4) = Some r).
  { pose proof (Hclock s1) as Hc%Hkeep. unfold read_now in Hnow. destruct (clock s1). injection Hnow as _ ->. cbn in *. congruence. }
  apply bind_same. intros [r'|r'|] s5 Hcas; [done| |done]. exfalso.
  match type of Hcas with ds_compareAndSwap ?k ?rev ?u _ = _ => destruct (cas_atomic k rev u s4) as (m & Hm & Hop) end.
  rewrite Hcas in Hop. destruct Hop as [[Hop _]|[[e He] _]]; [|done]. cbn in Hop.
  rewrite <- (Hkeep _ _ Hm) in Hr. unfold mem_compareAndSwap in Hop.
  rewrite lift_bind in Hop. destruct (validateDurableKey _) as [[]|]; [|done].
  rewrite lift_bind in Hop. destruct (validateDurableWrite _) as [[]|]; [|done].
  unfold mbind, M_bind, get in Hop. cbn in Hop. rewrite Hr in Hop. cbn in Hop.
  by rewrite Z.eqb_refl in Hop.
Qed.

(** ** The record of a dispatch *)

Lemma state_json_exact t : json_exact (state_json t) = true.
Proof.
  destruct t as [[? ? ? ?] ? [? ? ? ? ?] ? [?|] ? ? ? [?|] ? [[]|]]; reflexivity.
Qed.

Lemma z_boundedId_str s a : z_boundedId (JStr s) = Some a → a = s.
Proof. unfold z_boundedId. cbn -[guard]. by intros (_ & _ & [= ->])%bind_Some. Qed.

Lemma z_int_num min z a : CanonicalDocument.z_int min (JNum z) = Some a → a = z.
Proof. unfold CanonicalDocument.z_int. cbn -[guard]. by intros (_ & _ & [= ->])%bind_Some. Qed.

Lemma snapshot_of_written x y : snapshot_of_json (snapshot_json x) = Some y → y = x.
Proof.
  intros (_ & _ & (r & Hr%z_boundedId_str & H)%bind_Some)%bind_Some.
  apply bind_Some in H as (h & [= <-] & (_ & _ & H)%bind_Some).
  apply bind_Some in H as (b & Hb%z_int_num & (e & He%z_int_num & [= <-])%bind_Some).
  destruct x. cbn in *. congruence.
Qed.

Lemma policy_of_written p q : policy_of_json (policy_json p) = Some q → q = p.
Proof.
  intros (_ & _ & (a & Ha%z_int_num & H)%bind_Some)%bind_Some.
  apply bind_Some in H as (t & Ht%z_int_num & (x & Hx%z_int_num & H)%bind_Some).
  apply bind_Some in H as (i & Hi%z_int_num & (o & Ho%z_int_num & [= <-])%bind_Some).
  destruct p. cbn in *. congruence.
Qed.

Lemma nullable_written o a : CanonicalDocument.z_nullable z_boundedId (null_or JStr o) = Some a → a = o.
Proof.
  destruct o as [s|]; [|by intros [= <-]]. cbn -[z_boundedId].
  by intros (b & ->%z_boundedId_str & ->)%fmap_Some.
Qed.

(** A record is read as the state it was written from, if it can be read. *)
Lemma parse_written r t t' : value r = state_text t → parse_state r = Ok t' → t' = t.
Proof.
  intros Hv. unfold parse_state. rewrite Hv. unfold state_text. rewrite (JSON_parse_exact _ (state_json_exact t)).
  change (Ok (state_json t) ≫= ?f) with (f (state_json t)). cbv beta.
  destruct (stateSchema (state_json t)) as [t1|] eqn:Hs; [|done]. intros [= <-].
  apply bind_Some in Hs as (_ & _ & (v & _ & (_ & _ & Hs)%bind_Some)%bind_Some).
  apply bind_Some in Hs as (src & Hsrc%snapshot_of_written & (pid & Hpid%z_boundedId_str & Hs)%bind_Some).
  apply bind_Some in Hs as (p & Hp%policy_of_written & (b & Hb%z_int_num & Hs)%bind_Some).
  apply bind_Some in Hs as (task & Htask%nullable_written & Hs).
  apply bind_Some in Hs as (dc & [= Hdc] & (ur & [= Hur] & (ua & [= Hua] & Hs)%bind_Some)%bind_Some).
  apply bind_Some in Hs as (ref & Href & (done & [= Hdone] & (sr & Hsr & [= <-])%bind_Some)%bind_Some).
  assert (ref = resultArtifactRef t) as ->.
  { apply nullable_written. rewrite <- Href. by destruct t as [? ? ? ? ? ? ? ? [?|]]. }
  assert (sr = sourceRevocation t) as ->.
  { destruct t as [? ? ? ? ? ? ? ? ? ? [[]|]]; by injection Hsr as <-. }
  destruct t. cbn in *. congruence.
Qed.

(** ** How a dispatch may change *)

Definition revocation_moves (a b : option SourceRevocation) : Prop :=
  match a with None => True | Some deleted => b = Some deleted | Some source_expired => b ≠ None end.

(** What was asked for is fixed, what was said stays said. *)
Record state_moves (t t' : State) : Prop := {
  moved_request : (source t', st_providerId t', policy t', budgetEndsAt t') =
                  (source t, st_providerId t, policy t, budgetEndsAt t);
  moved_cancelled : dispatchCancelled t = true → dispatchCancelled t' = true;
  moved_requested : upstreamRequested t = true → upstreamRequested t' = true;
  moved_acknowledged : upstreamAcknowledged t = true → upstreamAcknowledged t' = true;
  moved_revocation : revocation_moves (sourceRevocation t) (sourceRevocation t')
}.

Lemma state_moves_trans t1 t2 t3 : state_moves t1 t2 → state_moves t2 t3 → state_moves t1 t3.
Proof.
  intros [R1 C1 Q1 A1 V1] [R2 C2 Q2 A2 V2]. split; [congruence|auto..|].
  unfold revocation_moves in *. destruct (sourceRevocation t1) as [[]|]; [| |done].
  - by rewrite V1 in V2.
  - destruct (sourceRevocation t2) as [[]|]; [congruence|done|done].
Qed.

Lemma state_moves_refl t : state_moves t t.
Proof. split; try done. by destruct (sourceRevocation t) as [[]|]. Qed.

(** One write of a record that can be read. *)
Definition dispatch_moves (r r' : DurableRecord) : Prop :=
  is_Ok (parse_state r) ∧ ∀ t t', parse_state r = Ok t → parse_state r' = Ok t' → state_moves t t'.

Lemma dispatch_moves_trans r1 r2 r3 : dispatch_moves r1 r2 → dispatch_moves r2 r3 → dispatch_moves r1 r3.
Proof.
  intros [H1 M1] [[t2 H2] M2]. split; [done|]. intros t1 t3 Ht1 Ht3.
  eapply state_moves_trans; [by apply M1|by apply M2].
Qed.

Definition dispatch_key (k : string) : Prop := startsWith k "document-async:" = true.

Lemma async_dispatch_not_effect k : dispatch_key k → startsWith k "effect:" = false.
Proof.
  intros [l Hl]%startsWith_inv. unfold startsWith. rewrite Hl. reflexivity.
Qed.

#[export] Instance dispatch_family : RecordFamily := {
  fam_key := dispatch_key;
  fam_ok _ _ := True;
  fam_moves := dispatch_moves;
  fam_moves_trans := dispatch_moves_trans;
  fam_not_effect := async_dispatch_not_effect
}.

Lemma key_dispatch id : dispatch_key (key id).
Proof. apply (startsWith_app "document-async:"). Qed.

Lemma job_key_elsewhere id : elsewhere (recordKey id).
Proof.
  assert (∃ l, chars (recordKey id) = chars "document-job:" ++ l) as [l Hl]
    by (apply startsWith_inv, (startsWith_app "document-job:")).
  split; [intros [l' Hl']%startsWith_inv|unfold startsWith]; rewrite Hl in *; [discriminate Hl'|reflexivity].
Qed.

(** ** What the runtime does to the records *)

Create HintDb settle.

Section dispatch.
Context {S : Type} `{!Sha256Api} `{!DurableRecordStorePort S} `{!HasControllers S}
  `{!CanonicalDocument.NumberText} (view : S → memory) (env : memory → memory → Prop)
  `{Laws : !DurableStoreLaws view env} (Henv : ∀ m m', env m m' → family_env m m')
  (clock : S → Z * S) (performance_now : S → number * S) (timer : Deadline → AbortSignal S)
  (abort_reason : AbortSignal S → S → thrown) (rounds : nat).
Abbreviation moves := (moves view).
Abbreviation M := (M S).

(** What belongs to the world moves the store as other workers may, and the
    controllers are not in the store. *)
Record quiet_world : Prop := {
  quiet_clock s : env (view s) (view (clock s).2);
  quiet_performance s : env (view s) (view (performance_now s).2);
  quiet_controllers t s : view (set_controllers t s) = view s
}.
Context (World : quiet_world).

(** From any state, with nothing known after. *)
Definition settles {A} (c : M A) : Prop := moves (λ _, True) c (λ _ _, True).

Lemma settle_then {A B} (K : memory → Prop) (c : M A) (f : A → M B) Q :
  stable K → settles c → (∀ a, moves K (f a) Q) → moves K (c ≫= f) Q.
Proof.
  intros HK Hc Hf. eapply moves_bind; [done|eapply moves_mono; [|intros a m Ha; exact Ha|exact Hc]; done|].
  intros a. by apply moves_forget.
Qed.

Lemma settle_weaken {A} (K : memory → Prop) (c : M A) Q : moves K c Q → moves K c (λ _ _, True).
Proof. intros Hc. eapply moves_mono; [| |exact Hc]; done. Qed.

Lemma settle_bind {A B} (c : M A) (f : A → M B) : settles c → (∀ a, settles (f a)) → settles (c ≫= f).
Proof. apply settle_then, stable_const. Qed.

Lemma settle_lift {A} (r : result A) : settles (lift r).
Proof. by apply moves_lift. Qed.

Lemma settle_ret {A} (a : A) : settles (mret a).
Proof. by apply moves_ret. Qed.

Lemma settle_throw {A} e : settles (throw e : M A).
Proof. apply moves_throw. Qed.

Lemma settle_same {A} (c : M A) : (∀ s, view (c s).2 = view s) → settles c.
Proof.
  intros Hc s Hg _. unfold wp. rewrite Hc. split; [apply family_env_refl|by case_match].
Qed.

Lemma settle_gets {A} (f : S → A) : settles (gets f).
Proof. by apply settle_same. Qed.

Lemma settle_env {A} (c : M A) : (∀ s, env (view s) (view (c s).2)) → settles c.
Proof. intros Hc. by apply (moves_elsewhere view env _ _ (λ _, True)). Qed.

Lemma settle_attempt {A} (c : M A) : settles c → settles (attempt c).
Proof. intros Hc. eapply settle_weaken, moves_attempt, Hc. Qed.

Lemma settle_ignore {A} (c : M A) : settles c → settles (ignore c).
Proof. apply moves_ignore. Qed.

Lemma settle_catch {A} (c : M A) h : (∀ e, settles (h e)) → settles c → settles (catch c h).
Proof. intros Hh. by apply moves_catch. Qed.

Hint Resolve settle_lift settle_ret settle_throw settle_gets settle_attempt settle_ignore : settle.

(** Structural steps, and the lemmas of the database for the calls. *)
Ltac settle :=
  repeat first
    [ progress intros
    | solve [auto with settle]
    | match goal with |- settles (_ ≫= _) => apply settle_bind end
    | match goal with |- settles (match ?x with _ => _ end) => destruct x end
    | match goal with |- settles (if ?x then _ else _) => destruct x end ].

Lemma settle_now : settles (read_now clock).
Proof. apply settle_env. intros s. unfold read_now. pose proof (quiet_clock World s). by destruct (clock s). Qed.

Lemma settle_performance : settles (read_performance performance_now).
Proof.
  apply settle_env. intros s. unfold read_performance. pose proof (quiet_performance World s).
  by destruct (performance_now s).
Qed.
Hint Resolve settle_now settle_performance : settle.

Lemma settle_new_deadline ms : settles (new_deadline performance_now ms).
Proof. unfold new_deadline. settle. Qed.

Lemma settle_throwIfAborted signal : settles (throwIfAborted abort_reason signal).
Proof. by apply settle_same. Qed.
Hint Resolve settle_new_deadline settle_throwIfAborted : settle.

Lemma settle_check_signal signal : settles (check_signal abort_reason signal).
Proof. unfold check_signal. settle. Qed.

Lemma settle_within {A} stage d parent (op : AbortSignal S → M A) :
  (∀ signal, settles (op signal)) → settles (withinDeadline performance_now timer abort_reason stage d parent op).
Proof. intros Hop. unfold withinDeadline. settle. Qed.
Hint Resolve settle_check_signal settle_within : settle.

Lemma settle_start id : settles (start_attempt id).
Proof. apply settle_same. intros s. apply (quiet_controllers World). Qed.

Lemma settle_finish id c : settles (finish_attempt id c).
Proof. apply settle_same. intros s. apply (quiet_controllers World). Qed.

Lemma settle_abort id : settles (abort_attempts id).
Proof. apply settle_same. intros s. apply (quiet_controllers World). Qed.
Hint Resolve settle_start settle_finish settle_abort : settle.

(** *** Jobs, whose records are none of the dispatch *)

Lemma settle_store_get k : settles (ds_get k).
Proof. eapply settle_weaken, (fam_moves_get view env Henv), stable_const. Qed.

Lemma settle_job_cas id rev u : settles (ds_compareAndSwap (recordKey id) rev u).
Proof. apply (fam_moves_cas_elsewhere view env Henv); [apply stable_const|apply job_key_elsewhere]. Qed.
Hint Resolve settle_store_get settle_job_cas : settle.

(** The record that is read is that of the job. *)
Lemma async_moves_read_job id caller :
  moves (λ _, True) (read_job id caller) (λ o _, rec_key o.1 = recordKey id).
Proof.
  unfold read_job. eapply moves_bind; [apply stable_const|apply (fam_moves_get view env Henv), stable_const|].
  intros [r|]; [|apply moves_throw]. apply moves_lift_bind. intros current _. apply moves_lift_bind. intros [] _.
  apply moves_ret. intros m (_ & [Hf _] & _ & Hr). by apply (fam_keyed _ Hf).
Qed.

Lemma settle_read_job {A} id caller (f : DurableRecord * VersionedDurableDocumentJob → M A) :
  (∀ r c, rec_key r = recordKey id → settles (f (r, c))) → settles (read_job id caller ≫= f).
Proof.
  intros Hf. eapply moves_bind; [apply stable_const|apply async_moves_read_job|]. intros [r c].
  apply (moves_pure view _ (rec_key r = recordKey id)); [by intros m [_ ?]|].
  intros Hk. apply moves_forget. by apply Hf.
Qed.

Lemma settle_get_loop n id caller now : settles (get_loop n id caller now).
Proof.
  induction n as [|n IH]; [apply settle_ret|]. cbn [get_loop]. apply settle_read_job. intros r c Hk.
  case_match; [apply settle_ret|]. rewrite Hk. settle.
Qed.
Hint Resolve settle_get_loop : settle.

Lemma settle_get_job id caller now : settles (get_job id caller now).
Proof. unfold get_job. settle. Qed.
Hint Resolve settle_get_job : settle.

Lemma settle_transition id caller rev to now patch : settles (transition id caller rev to now patch).
Proof. unfold transition. settle. Qed.

Lemma settle_revoke_loop n id caller now : settles (revoke_loop n id caller now).
Proof.
  induction n as [|n IH]; [apply settle_throw|]. cbn [revoke_loop]. apply settle_read_job. intros r c Hk.
  case_match; [apply settle_ret|]. rewrite Hk. settle.
Qed.
Hint Resolve settle_transition settle_revoke_loop : settle.

Lemma settle_job_revoke id caller now : settles (DurableDocumentJobs.revokeSource id caller now).
Proof. unfold DurableDocumentJobs.revokeSource. settle. Qed.

Lemma settle_job_create input : settles (createIfAbsent input).
Proof.
  unfold createIfAbsent. apply settle_bind; [apply settle_lift|]. intros []. cbv zeta. apply settle_bind.
  - apply (fam_moves_create_elsewhere view env Henv); [apply stable_const|apply job_key_elsewhere].
  - settle.
Qed.
Hint Resolve settle_job_revoke settle_job_create : settle.

Lemma settle_get_now id caller : settles (get_now clock id caller).
Proof. unfold get_now. settle. Qed.

Lemma settle_transition_now id caller rev to patch : settles (transition_now clock id caller rev to patch).
Proof. unfold transition_now. settle. Qed.
Hint Resolve settle_get_now settle_transition_now : settle.

(** *** The record of the dispatch *)

(** The record is there, and what can be read of it satisfies [P]. *)
Definition says (id : string) (P : State → Prop) (m : memory) : Prop :=
  ∃ r, map_get (key id) m = Some r ∧ ∀ t, parse_state r = Ok t → P t.

Definition lasting (P : State → Prop) : Prop := ∀ t t', state_moves t t' → P t → P t'.

Lemma evolved_says id P r m :
  lasting P → rec_key r = key id → (∀ t, parse_state r = Ok t → P t) →
  (∃ r', map_get (rec_key r) m = Some r' ∧ rec_evolves r r') → says id P m.
Proof.
  intros HP Hk Ht (r' & Hr' & Hev). exists r'. rewrite <- Hk. split; [done|]. intros t' Ht'.
  destruct Hev as [->|[_ [[t Hpt] Hm]]]; [by apply Ht|]. eapply HP; [by apply Hm|by apply Ht].
Qed.

Lemma says_stable id P : lasting P → stable (says id P).
Proof.
  intros HP m m' [He _] (r & Hr & Ht).
  destruct (fam_evolve_records _ _ He _ _ (key_dispatch id) Hr) as (r' & Hr' & Hev). exists r'. split; [done|].
  intros t' Ht'. destruct Hev as [->|[_ [[t Hpt] Hm]]]; [by apply Ht|]. eapply HP; [by apply Hm|by apply Ht].
Qed.

Lemma state_moves_lasting t : lasting (state_moves t).
Proof. intros t1 t2 H1 H2. by eapply state_moves_trans. Qed.

Lemma async_moves_read (K : memory → Prop) id :
  stable K → moves K (read id) (λ t m, says id (state_moves t) m ∧ (∀ P, (∀ m', K m' → says id P m') → P t)).
Proof.
  intros HK. unfold read. eapply moves_bind; [done|by apply (fam_moves_get view env Henv)|].
  intros [r|]; [|apply moves_throw]. destruct (parse_state r) as [t|] eqn:Ht; [|apply moves_throw].
  apply moves_ret. intros m (_ & _ & HKm & Hr). split.
  - exists r. split; [done|]. intros t' Ht'. replace t' with t by congruence. apply state_moves_refl.
  - intros P HP. destruct (HP m HKm) as (r' & Hr' & HPt). rewrite <- Hr in Hr'. injection Hr' as <-. by apply HPt.
Qed.

Lemma settle_read id : settles (read id).
Proof. eapply settle_weaken, async_moves_read, stable_const. Qed.
Hint Resolve settle_read : settle.

(** A write that a state may make of any state. *)
Definition allowed (mutate : State → State) : Prop := ∀ t, state_moves t (mutate t).

Lemma moves_update_loop stuck n id mutate signal :
  allowed mutate →
  moves (λ _, True) (update_loop clock abort_reason stuck n id mutate signal) (λ t m, says id (state_moves t) m ∧ ∃ t0, t = mutate t0).
Proof.
  intros Hmut. induction n as [|n IH]; [apply moves_throw|]. cbn [update_loop].
  eapply moves_bind; [apply stable_const|apply (fam_moves_get view env Henv), stable_const|]. intros o.
  apply (moves_mono view (λ m, ∀ r, o = Some r → rec_key r = key id ∧ known r m) _ _
    (λ t m, says id (state_moves t) m ∧ ∃ t0, t = mutate t0)); [|done|].
  { intros m (_ & [Hf _] & _ & Hr) r ->. apply fam_known_current; [done|apply key_dispatch|done]. }
  assert (Hst : stable (λ m, ∀ r, o = Some r → rec_key r = key id ∧ known r m)).
  { intros m m' He Hk r Ho. destruct (Hk r Ho) as [? Hkn]. split; [done|]. by eapply fam_known_stable. }
  apply settle_then; [done|apply settle_check_signal|]. intros _.
  destruct o as [r|]; [|apply moves_throw]. apply moves_lift_bind. intros t Ht. cbv zeta. clear Hst.
  apply (moves_pure view _ (rec_key r = key id)); [intros m Hk; by apply (Hk r)|]. intros Hkey.
  apply (moves_mono view (known r) _ _ (λ t m, says id (state_moves t) m ∧ ∃ t0, t = mutate t0)); [|done|].
  { intros m Hk. by apply Hk. }
  apply settle_then; [apply fam_known_stable|apply settle_now|]. intros now.
  replace (ds_compareAndSwap (key id)) with (ds_compareAndSwap (S := S) (rec_key r)) by (by rewrite Hkey).
  set (u := {| upd_value := state_text (mutate t); upd_nowMs := int now; upd_expiresAt := None |}).
  assert (Hwritten : ∀ t', parse_state (updated_record r u) = Ok t' → t' = mutate t) by (intros t'; by apply parse_written).
  eapply moves_bind; [apply fam_known_stable|apply (fam_moves_cas view env Henv _ r u)|].
  - done.
  - done.
  - split; [by eexists|]. intros t1 t' Ht1 ->%Hwritten. replace t1 with t by congruence. apply Hmut.
  - intros [r'|r'|]; cbn [written].
    + apply moves_ret. intros m (_ & -> & [_ _ Hnow]). split; [|by exists t].
      apply (evolved_says id _ (updated_record r u)); [apply state_moves_lasting|exact Hkey| |exact Hnow].
      intros t' ->%Hwritten. apply state_moves_refl.
    + eapply moves_mono; [| |exact IH]; done.
    + apply moves_throw.
Qed.

Lemma settle_update id mutate signal :
  allowed mutate → settles (update_state clock abort_reason rounds id mutate signal).
Proof. intros Hm. by eapply settle_weaken, moves_update_loop. Qed.

Lemma settle_expire stuck n id caller t : settles (expire_loop clock stuck n id caller t).
Proof. induction n as [|n IH]; [apply settle_throw|]. cbn [expire_loop]. settle. Qed.

Lemma settle_expire' id caller t : settles (expire clock rounds id caller t).
Proof. apply settle_expire. Qed.
Hint Resolve settle_expire' : settle.

Ltac write :=
  intros [? ? ? ? ? ? ? ? ? ? sr]; split; unfold revocation_moves; cbn; intros; subst; try done;
  by destruct sr as [[]|].

Lemma allowed_task task : allowed (λ t, t <| providerTaskId := task |>).
Proof. write. Qed.

Lemma allowed_ref ref : allowed (λ t, t <| resultArtifactRef := ref |>).
Proof. write. Qed.

Lemma allowed_done f : allowed (λ t, t <| resultCleanupDone := f t |>).
Proof. write. Qed.

Lemma allowed_acknowledged b : allowed (λ t, t <| upstreamAcknowledged := upstreamAcknowledged t || b |>).
Proof. write. Qed.

Lemma allowed_cancel upstream :
  allowed (λ t, t <| dispatchCancelled := true |> <| upstreamRequested := upstreamRequested t || upstream |>).
Proof. write. Qed.

Lemma allowed_revoke reason : allowed (revoke_state reason).
Proof. write. Qed.
Hint Resolve allowed_task allowed_ref allowed_done allowed_acknowledged allowed_cancel allowed_revoke
  settle_update : settle.

Section ports.
Context (artifacts : DocumentAsyncArtifactPort S) (provider : DocumentAsyncProviderPort S).

(** The ports do to the store what other workers may. *)
Record quiet_ports : Prop := {
  quiet_inspect ref c sg s : env (view s) (view (inspectSource artifacts ref c sg s).2);
  quiet_read ref c n sg s : env (view s) (view (readSource artifacts ref c n sg s).2);
  quiet_write id b c x sg src s : env (view s) (view (writeResult artifacts id b c x sg src s).2);
  quiet_revoke ref c sg s : env (view s) (view (revokeResult artifacts ref c sg s).2);
  quiet_recover id c sg s : env (view s) (view (recoverResult artifacts id c sg s).2);
  quiet_create b id sg s : env (view s) (view (pv_create provider b id sg s).2);
  quiet_poll task sg s : env (view s) (view (pv_poll provider task sg s).2);
  quiet_cancel task sg s : env (view s) (view (pv_cancel provider task sg s).2)
}.
Context (Ports : quiet_ports).

Lemma settle_inspect ref c sg : settles (inspectSource artifacts ref c sg).
Proof. apply settle_env, (quiet_inspect Ports). Qed.
Lemma settle_readSource ref c n sg : settles (readSource artifacts ref c n sg).
Proof. apply settle_env. intros s. apply (quiet_read Ports). Qed.
Lemma settle_write id b c x sg src : settles (writeResult artifacts id b c x sg src).
Proof. apply settle_env. intros s. apply (quiet_write Ports). Qed.
Lemma settle_revoke ref c sg : settles (revokeResult artifacts ref c sg).
Proof. apply settle_env, (quiet_revoke Ports). Qed.
Lemma settle_recover id c sg : settles (recoverResult artifacts id c sg).
Proof. apply settle_env, (quiet_recover Ports). Qed.
Lemma settle_pv_create b id sg : settles (pv_create provider b id sg).
Proof. apply settle_env, (quiet_create Ports). Qed.
Lemma settle_pv_poll task sg : settles (pv_poll provider task sg).
Proof. apply settle_env, (quiet_poll Ports). Qed.
Lemma settle_pv_cancel task sg : settles (pv_cancel provider task sg).
Proof. apply settle_env, (quiet_cancel Ports). Qed.
Hint Resolve settle_inspect settle_readSource settle_write settle_revoke settle_recover settle_pv_create
  settle_pv_poll settle_pv_cancel : settle.

Lemma settle_active id caller : settles (assertActive clock rounds provider id caller).
Proof. unfold assertActive. settle. Qed.
Hint Resolve settle_active : settle.

Lemma settle_unless b id caller : settles (unless_cancellation clock rounds provider b id caller).
Proof. unfold unless_cancellation. settle. Qed.
Hint Resolve settle_unless : settle.

(** *** Effects *)

Lemma moves_claim_effect id kind cancellation :
  colon_free id →
  moves (λ _, True) (claim_effect clock (identity_of id kind) cancellation) (λ r m, match r with
    | DurableEffects.Claimed _ rev | DurableEffects.Existing _ rev => reached (identity_of id kind) rev m end).
Proof.
  intros Hc. unfold claim_effect. apply settle_then; [apply stable_const|apply settle_now|]. intros now.
  eapply moves_bind; [apply stable_const|by apply (fam_moves_claim view env Henv)|].
  intros [e rev|e rev]; [by apply moves_ret; intros m [_ ?]|]. case_match; [|by apply moves_ret; intros m [_ ?]].
  apply settle_then; [apply stable_and; [apply stable_const|by apply fam_reached_stable]|apply settle_now|]. intros now'.
  eapply moves_bind; [apply stable_and; [apply stable_const|by apply fam_reached_stable]|by apply (fam_moves_retry view env Henv)|].
  intros [e' rev'|e' rev']; [by apply moves_ret; intros m [_ ?]|apply moves_throw].
Qed.

Lemma moves_effect_now K identity rev to receipt :
  stable K → colon_free (DurableEffects.id_jobId identity) → to ≠ DurableEffects.claimed →
  (∀ m, K m → reached identity rev m) →
  moves K (effect_now clock identity rev to receipt) (λ r m, reached identity r.2 m).
Proof.
  intros HK Hc Hto Hr. unfold effect_now. apply settle_then; [done|apply settle_now|]. intros now.
  by apply (fam_moves_transition view env Henv).
Qed.

(** From where an effect has reached a revision: any step that moves the rest,
    and the transitions of the effect. *)
Lemma settle_existing id kind caller signal e rev :
  colon_free id →
  moves (reached (identity_of id kind) rev)
    (existing_effect clock abort_reason rounds artifacts provider id kind caller signal e rev) (λ _ _, True).
Proof.
  intros Hc. pose proof (fam_reached_stable (identity_of id kind) rev Hc) as Hst. unfold existing_effect.
  destruct (if bool_decide _ then _ else None); [by apply moves_ret|]. destruct (is_create kind || is_write kind); [|apply moves_throw].
  apply settle_then; [done|apply settle_read|]. intros t. apply settle_then; [done|unfold recover_written; settle|].
  intros t'. destruct (if is_create kind then _ else _); [|apply moves_throw].
  destruct (is_write kind && resultCleanupDone t'); [apply moves_throw|].
  apply settle_then; [done|apply settle_active|]. intros _. apply settle_then; [done|apply settle_throwIfAborted|]. intros _.
  eapply moves_bind; [done|by apply moves_effect_now|]. intros a. by apply moves_ret.
Qed.

Lemma settle_perform id kind caller signal op cancellation rev :
  colon_free id → settles op →
  moves (reached (identity_of id kind) rev)
    (perform_effect clock abort_reason rounds provider id kind caller signal op cancellation rev) (λ _ _, True).
Proof.
  intros Hc Hop. unfold perform_effect. cbv zeta.
  eapply moves_bind; [by apply fam_reached_stable|by apply moves_effect_now; [apply fam_reached_stable| | |]|].
  intros [e inflight]. cbn [snd].
  set (K := λ m, reached (identity_of id kind) rev m ∧ reached (identity_of id kind) inflight m).
  assert (HK : stable K) by (by apply stable_and; apply fam_reached_stable).
  assert (Hin : ∀ m, K m → reached (identity_of id kind) inflight m) by (by intros m [_ ?]).
  eapply moves_bind; [done|apply (moves_attempt view K _ (λ _ _, True))|].
  - apply settle_then; [done|apply settle_unless|]. intros _.
    apply settle_then; [done|apply settle_throwIfAborted|]. intros _. apply settle_then; [done|done|]. intros answer.
    apply moves_lift_bind. intros receipt _.
    eapply moves_bind; [done|apply moves_effect_now; [done|done|by case_match|done]|]. intros a. by apply moves_ret.
  - intros [receipt|error]; [by apply moves_ret|].
    eapply moves_bind; [by apply stable_and; [|apply stable_const]| |].
    + apply moves_forget. apply (moves_attempt view K _ (λ _ _, True)). eapply settle_weaken. by apply moves_effect_now.
    + intros a. apply moves_throw.
Qed.

Lemma settle_effect id kind caller signal op cancellation :
  colon_free id → settles op →
  settles (effect clock abort_reason rounds artifacts provider id kind caller signal op cancellation).
Proof.
  intros Hc Hop. unfold effect. apply settle_bind; [apply settle_unless|]. intros _.
  apply settle_bind; [apply settle_throwIfAborted|]. intros _.
  eapply moves_bind; [apply stable_const|by apply moves_claim_effect|].
  intros [e rev|e rev]; (eapply moves_mono; [intros m [_ Hm]; exact Hm|done|]); [by apply settle_perform|by apply settle_existing].
Qed.
Hint Resolve settle_effect : settle.

(** *** Every operation *)

Lemma settle_status id caller d signal :
  settles (status clock performance_now timer abort_reason rounds id caller d signal).
Proof. unfold status. apply settle_within. settle. Qed.

Lemma settle_cleanup id caller d signal :
  settles (reconcileResultCleanup clock performance_now timer abort_reason rounds artifacts id caller d signal).
Proof. unfold reconcileResultCleanup, cleanup_ref. apply settle_within. settle. Qed.
Hint Resolve settle_status settle_cleanup : settle.

Ltac settle_all := settle; repeat (apply settle_effect; [done|]; settle).

Lemma settle_cancellation id caller d signal :
  colon_free id →
  settles (reconcileCancellation clock performance_now timer abort_reason rounds artifacts provider id caller d signal).
Proof.
  intros Hc. unfold reconcileCancellation. apply settle_within. intros sg. settle_all.
Qed.

Lemma settle_try_cleanup id caller t :
  settles (try_cleanup clock performance_now timer abort_reason rounds artifacts id caller t).
Proof. unfold try_cleanup. settle. Qed.
Hint Resolve settle_cancellation settle_try_cleanup : settle.

Lemma settle_same_source t caller signal : settles (same_source artifacts t caller signal).
Proof. unfold same_source. settle. Qed.

Lemma settle_submit id caller signal t :
  settles (submit clock abort_reason rounds artifacts provider id caller signal t).
Proof. unfold submit. settle. Qed.

Lemma settle_set_task id task caller t :
  colon_free id → settles (set_task clock performance_now timer abort_reason rounds artifacts provider id task caller t).
Proof. intros Hc. unfold set_task. settle. Qed.

Lemma settle_poll task signal : settles (poll provider task signal).
Proof. unfold poll. apply settle_catch; settle. Qed.

Lemma settle_write_result id caller signal t x b :
  settles (write_result clock performance_now timer abort_reason rounds artifacts id caller signal t x b).
Proof. unfold write_result. settle. Qed.

Lemma settle_finish_job id caller signal to patch : settles (DocumentAsync.finish clock abort_reason id caller signal to patch).
Proof. unfold DocumentAsync.finish. settle. Qed.
Hint Resolve settle_same_source settle_submit settle_set_task settle_poll settle_write_result settle_finish_job : settle.

Lemma settle_complete id caller signal t x e :
  colon_free id →
  settles (DocumentAsync.complete clock performance_now timer abort_reason rounds artifacts provider id caller signal t x e).
Proof. intros Hc. unfold DocumentAsync.complete. settle_all. Qed.
Hint Resolve settle_complete : settle.

Lemma settle_drive id caller t x signal :
  colon_free id →
  settles (drive clock performance_now timer abort_reason rounds artifacts provider id caller t x signal).
Proof. intros Hc. unfold drive. settle_all. Qed.
Hint Resolve settle_drive : settle.

Lemma settle_body id caller t c signal :
  colon_free id →
  settles (attempt_body clock performance_now timer abort_reason rounds artifacts provider id caller t c signal).
Proof. intros Hc. unfold attempt_body, ensure_running. settle. Qed.
Hint Resolve settle_body : settle.

Lemma settle_advance id caller parent :
  colon_free id →
  settles (advance clock performance_now timer abort_reason rounds artifacts provider id caller parent).
Proof. intros Hc. unfold advance, wind_up, run_attempt. settle. Qed.

Lemma settle_create input caller d signal :
  settles (create clock performance_now timer abort_reason rounds artifacts provider input caller d signal).
Proof.
  unfold create, record_job. apply settle_bind; [settle|]. intros _. apply settle_bind; [settle|]. intros p.
  apply settle_bind; [settle|]. intros _. apply settle_within. intros sg.
  apply settle_bind; [|settle]. do 5 (apply settle_bind; [settle|intros ?]). apply settle_bind; [settle|].
  intros [c|c]; cbv zeta; (apply settle_bind; [|settle]); eapply settle_weaken, (fam_moves_create view env Henv);
    first [apply stable_const|apply key_dispatch|done].
Qed.

Lemma settle_cancel_loop stuck n id caller signal : settles (cancel_loop clock abort_reason stuck n id caller signal).
Proof. induction n as [|n IH]; [apply settle_throw|]. cbn [cancel_loop]. settle. Qed.
Hint Resolve settle_cancel_loop : settle.

Lemma settle_cancel id caller upstream d signal :
  colon_free id →
  settles (cancel clock performance_now timer abort_reason rounds artifacts provider id caller upstream d signal).
Proof. intros Hc. unfold cancel. apply settle_within. settle. Qed.

Lemma settle_revokeSource id caller reason d signal :
  settles (DocumentAsync.revokeSource clock performance_now timer abort_reason rounds artifacts id caller reason d signal).
Proof. unfold DocumentAsync.revokeSource. apply settle_within. settle. Qed.
End ports.

(** *** Two runs that do the same

    From the states where [K] holds, a stable property. *)

Section same.
Context (K : memory → Prop) (HK : stable K).

Definition same {A} (c c' : M A) : Prop := ∀ s, family_good (view s) → K (view s) → c s = c' s.

Lemma same_refl {A} (c : M A) : same c c.
Proof. by intros s _ _. Qed.

Lemma settled_state {A} (c : M A) s r s' :
  settles c → family_good (view s) → K (view s) → c s = (r, s') → family_good (view s') ∧ K (view s').
Proof.
  intros Hc Hg Hk Hrun. destruct (wp_run _ _ _ _ _ (Hc s Hg I) Hrun) as [He _].
  split; [exact (family_env_good _ _ He Hg)|exact (HK _ _ He Hk)].
Qed.

Lemma same_bind {A B} (c c' : M A) (f f' : A → M B) :
  settles c → same c c' → (∀ a, same (f a) (f' a)) → same (c ≫= f) (c' ≫= f').
Proof.
  intros Hs Hc Hf s Hg Hk. transitivity ((c ≫= f') s).
  - apply bind_same. intros a s' Hrun. destruct (settled_state _ _ _ _ Hs Hg Hk Hrun). by apply Hf.
  - unfold mbind, M_bind. by rewrite Hc.
Qed.

Lemma same_attempt {A} (c c' : M A) : same c c' → same (attempt c) (attempt c').
Proof. intros Hc s Hg Hk. unfold attempt. by rewrite Hc. Qed.

Lemma same_catch {A} (c c' : M A) h : same c c' → same (catch c h) (catch c' h).
Proof. intros Hc s Hg Hk. unfold catch. by rewrite Hc. Qed.

Lemma same_within {A} stage d parent (op op' : AbortSignal S → M A) :
  (∀ signal, settles (op signal)) → (∀ signal, same (op signal) (op' signal)) →
  same (withinDeadline performance_now timer abort_reason stage d parent op)
       (withinDeadline performance_now timer abort_reason stage d parent op').
Proof.
  intros Hs Hop. unfold withinDeadline.
  do 6 (apply same_bind; [settle|apply same_refl|intros ?]).
  apply same_bind; [settle|by apply same_attempt|]. intros o. apply same_refl.
Qed.

(** Where an effect was claimed before, its operation does not matter. *)
Lemma claim_effect_claimed identity s a s' :
  claimed_effect identity (view s) → claim_effect clock identity false s = (Ok a, s') →
  match a with DurableEffects.Claimed _ _ => False | _ => True end.
Proof.
  intros Hc Hrun. unfold claim_effect in Hrun. apply M_bind_Ok in Hrun as (now & s1 & Hnow & Hrun).
  assert (Hc1 : claimed_effect identity (view s1)).
  { eapply claimed_effect_stable; [|exact Hc]. apply Henv. pose proof (quiet_clock World s) as Hq.
    unfold read_now in Hnow. destruct (clock s). by injection Hnow as _ <-. }
  apply M_bind_Ok in Hrun as (c & s2 & Hclaim & Hrun).
  pose proof (wp_run _ _ _ _ _ (claim_claimed_effect view env Henv identity now s1 Hc1) Hclaim) as Hn.
  destruct c as [e rev|e rev]; [done|]. by injection Hrun as <- _.
Qed.

Lemma same_effect artifacts provider id kind caller signal op op' :
  quiet_ports artifacts provider → (∀ m, K m → op = op' ∨ claimed_effect (identity_of id kind) m) →
  same (effect clock abort_reason rounds artifacts provider id kind caller signal op false)
       (effect clock abort_reason rounds artifacts provider id kind caller signal op' false).
Proof.
  intros Ports Hcl. unfold effect.
  apply same_bind; [apply settle_unless|apply same_refl|intros ?].
  apply same_bind; [settle|apply same_refl|intros ?]. intros s Hg Hk. apply bind_same. intros cl s' Hrun.
  destruct cl as [e rev|e rev]; [|done]. destruct (Hcl _ Hk) as [->|Hclaimed]; [done|].
  by destruct (claim_effect_claimed _ _ _ _ Hclaimed Hrun).
Qed.

(** *** Other ports for the work itself *)

(** The ports with another submission and another write. *)
Definition with_create (provider : DocumentAsyncProviderPort S) (c : bytes → string → AbortSignal S → M string) :=
  {| providerId := providerId provider; pv_create := c; pv_poll := pv_poll provider; pv_cancel := pv_cancel provider |}.

Definition with_write (artifacts : DocumentAsyncArtifactPort S)
    (w : string → bytes → DurableDocumentJobCaller → Z → AbortSignal S → DocumentAsyncSourceSnapshot → M string) :=
  {| inspectSource := inspectSource artifacts; readSource := readSource artifacts; writeResult := w;
     revokeResult := revokeResult artifacts; recoverResult := recoverResult artifacts |}.

Lemma same_drive artifacts provider id caller t x signal c w :
  colon_free id → quiet_ports artifacts provider →
  (∀ m, K m → pv_create provider = c ∨ claimed_effect (identity_of id DurableEffects.provider_task_create) m) →
  (∀ m, K m → writeResult artifacts = w ∨ claimed_effect (identity_of id DurableEffects.artifact_write) m) →
  same (drive clock performance_now timer abort_reason rounds artifacts provider id caller t x signal)
       (drive clock performance_now timer abort_reason rounds (with_write artifacts w) (with_create provider c)
          id caller t x signal).
Proof.
  intros Hid Ports Hc Hw. unfold drive.
  apply same_bind; [by eapply settle_same_source|apply same_refl|intros _].
  apply same_bind.
  - apply settle_effect; [done..|]. by eapply settle_submit.
  - apply (same_effect artifacts provider); [done|]. intros m [<-|Hcl]%Hc; [by left|by right].
  - intros task. apply same_bind; [by eapply settle_set_task|apply same_refl|intros _].
    apply same_bind; [apply settle_active|apply same_refl|intros _].
    apply same_bind; [settle|apply same_refl|intros _].
    apply same_bind; [by eapply settle_poll|apply same_refl|intros answer].
    apply same_bind; [apply settle_active|apply same_refl|intros _].
    apply same_bind; [settle|apply same_refl|intros _].
    destruct answer as [| | |e]; [apply same_refl..|]. unfold DocumentAsync.complete.
    apply same_bind; [by eapply settle_same_source|apply same_refl|intros _].
    apply same_bind; [settle|apply same_refl|intros b]. apply same_bind.
    + apply settle_effect; [done..|]. by eapply settle_write_result.
    + apply (same_effect artifacts provider); [done|]. intros m [<-|Hcl]%Hw; [by left|by right].
    + intros ref. apply same_refl.
Qed.

Lemma same_advance artifacts provider id caller parent c w :
  colon_free id → quiet_ports artifacts provider →
  (∀ m, K m → pv_create provider = c ∨ claimed_effect (identity_of id DurableEffects.provider_task_create) m) →
  (∀ m, K m → writeResult artifacts = w ∨ claimed_effect (identity_of id DurableEffects.artifact_write) m) →
  same (advance clock performance_now timer abort_reason rounds artifacts provider id caller parent)
       (advance clock performance_now timer abort_reason rounds (with_write artifacts w) (with_create provider c)
          id caller parent).
Proof.
  intros Hid Ports Hc Hw. unfold advance.
  apply same_bind; [settle|apply same_refl|intros _]. apply same_bind; [settle|apply same_refl|intros before].
  apply same_bind; [settle|apply same_refl|intros t]. apply same_bind; [settle|apply same_refl|intros current].
  destruct (TERMINAL_STATUSES _); [apply same_refl|]. unfold run_attempt.
  apply same_bind; [apply settle_active|apply same_refl|intros _].
  do 3 (apply same_bind; [settle|apply same_refl|intros ?]). apply same_bind; [| |intros o; apply same_refl].
  - apply settle_attempt, settle_within. intros sg. by apply settle_body.
  - apply same_attempt, same_within; intros sg; [by apply settle_body|].
    unfold attempt_body. apply same_bind; [unfold ensure_running; settle|apply same_refl|intros cur].
    destruct (_ && _); [apply same_refl|]. by apply same_drive.
Qed.
End same.

(** *** What a dispatch that was cancelled or revoked does *)

Definition is_cancelled (t : State) : Prop := dispatchCancelled t = true.
Definition is_revoked (t : State) : Prop := dispatchCancelled t = true ∧ sourceRevocation t ≠ None.

Lemma cancelled_lasting : lasting is_cancelled.
Proof. intros t t' [_ Hc _ _ _]. exact Hc. Qed.

Lemma revoked_lasting : lasting is_revoked.
Proof.
  intros t t' [_ Hc _ _ Hv] [Hd Hr]. split; [by apply Hc|]. unfold revocation_moves in Hv.
  destruct (sourceRevocation t) as [[]|]; congruence.
Qed.

Lemma moves_within {A} (K : memory → Prop) stage d parent (op : AbortSignal S → M A) (Q : A → memory → Prop) :
  stable K → (∀ a, stable (Q a)) → (∀ signal, moves K (op signal) Q) →
  moves K (withinDeadline performance_now timer abort_reason stage d parent op) Q.
Proof.
  intros HK HQ Hop. unfold withinDeadline. do 6 (apply settle_then; [done|settle|intros ?]).
  eapply moves_bind; [done|by apply moves_attempt|]. intros o.
  assert (Hst : stable (λ m, K m ∧ match o with inl x => Q x m | inr _ => True end)).
  { apply stable_and; [done|]. destruct o; [apply HQ|apply stable_const]. }
  do 2 (apply settle_then; [exact Hst|settle|intros ?]).
  destruct o as [x|e]; [|apply moves_throw]. case_match; [apply moves_throw|]. by apply moves_ret; intros m [_ ?].
Qed.

(** What a status shows is what the record says. *)
Definition shows (id : string) (d : DocumentAsyncStatus) (t : State) (m : memory) : Prop :=
  says id (state_moves t) m ∧ as_dispatchCancelled d = dispatchCancelled t ∧
  as_sourceRevocation d = sourceRevocation t ∧
  (sourceRevocation t ≠ None → aj_resultArtifactRef (as_job d) = None).

Lemma shows_stable id d t : stable (shows id d t).
Proof.
  apply stable_and; [apply says_stable, state_moves_lasting|]. repeat apply stable_and; apply stable_const.
Qed.

Lemma moves_status (K : memory → Prop) id caller d signal :
  stable K →
  moves K (status clock performance_now timer abort_reason rounds id caller d signal)
    (λ d m, ∃ t, shows id d t m ∧ ∀ P, (∀ m', K m' → says id P m') → P t).
Proof.
  intros HK. unfold status. apply moves_within; [done| |].
  - intros x m m' He (t & Hs & HP). exists t. split; [by eapply shows_stable|done].
  - intros sg. eapply moves_bind; [done|by apply async_moves_read|]. intros t.
    set (K' := λ m, K m ∧ says id (state_moves t) m ∧ ∀ P, (∀ m', K m' → says id P m') → P t).
    assert (HK' : stable K').
    { apply stable_and; [done|]. apply stable_and; [apply says_stable, state_moves_lasting|apply stable_const]. }
    apply (settle_then K'); [done|apply settle_expire'|]. intros current. cbv zeta. apply moves_ret.
    intros m (_ & Hs & HP). exists t. split; [|done]. split_and!; [done..|]. cbn. by destruct (sourceRevocation t).
Qed.

Lemma moves_active_cancelled provider id caller :
  moves (says id is_cancelled) (assertActive clock rounds provider id caller) (λ _ _, False).
Proof.
  pose proof (says_stable id is_cancelled cancelled_lasting) as HK. unfold assertActive.
  eapply moves_bind; [done|by apply async_moves_read|]. intros t.
  apply (moves_pure view _ (is_cancelled t)); [intros m (_ & _ & HP); by apply HP|]. intros Hc.
  eapply (moves_mono view (λ _, True)); [done|intros a m Ha; exact Ha|].
  apply settle_then; [apply stable_const|apply settle_expire'|]. intros job. apply moves_lift_bind. intros _ _.
  apply settle_then; [apply stable_const|apply settle_now|]. intros now. apply moves_lift_bind. intros _ _.
  apply moves_lift. intros a m Ha _. unfold is_cancelled in Hc. by rewrite Hc in Ha.
Qed.

(** The ports with other work, and the same clean-up and cancellation. *)
Definition other_artifacts (artifacts other : DocumentAsyncArtifactPort S) : DocumentAsyncArtifactPort S :=
  {| inspectSource := inspectSource other; readSource := readSource other; writeResult := writeResult other;
     revokeResult := revokeResult artifacts; recoverResult := recoverResult artifacts |}.
Definition other_provider (provider other : DocumentAsyncProviderPort S) : DocumentAsyncProviderPort S :=
  {| providerId := providerId provider; pv_create := pv_create other; pv_poll := pv_poll other;
     pv_cancel := pv_cancel provider |}.

Lemma cancelled_advance artifacts provider artifacts' provider' id caller parent :
  same (says id is_cancelled)
    (advance clock performance_now timer abort_reason rounds artifacts provider id caller parent)
    (advance clock performance_now timer abort_reason rounds (other_artifacts artifacts artifacts')
       (other_provider provider provider') id caller parent).
Proof.
  pose proof (says_stable id is_cancelled cancelled_lasting) as HK. unfold advance.
  do 4 (apply (same_bind _ HK); [settle|apply same_refl|intros ?]).
  destruct (TERMINAL_STATUSES _); [apply same_refl|]. unfold run_attempt.
  intros s Hg Hs. apply bind_same. intros u s' Hrun.
  by destruct (wp_run _ _ _ _ _ (moves_active_cancelled provider id caller s Hg Hs) Hrun) as [_ []].
Qed.

(** What a status says of a source that was revoked. *)
Definition without_result (d : DocumentAsyncStatus) : Prop :=
  as_dispatchCancelled d = true ∧ as_sourceRevocation d ≠ None ∧ aj_resultArtifactRef (as_job d) = None.

Lemma revoked_status (K : memory → Prop) id caller d signal :
  stable K → (∀ m, K m → says id is_revoked m) →
  moves K (status clock performance_now timer abort_reason rounds id caller d signal) (λ x _, without_result x).
Proof.
  intros HK Hrev. eapply moves_mono; [| |by apply moves_status]; [done|].
  intros x m (t & (_ & Hd & Hs & Hr) & Ht). destruct (Ht is_revoked Hrev) as [Hc Hv].
  unfold without_result. rewrite Hd, Hs. split_and!; [exact Hc|exact Hv|by apply Hr].
Qed.

Lemma moves_keep {A} (K : memory → Prop) (c : M A) Q : stable K → moves K c Q → moves K c (λ a m, Q a m ∧ K m).
Proof.
  intros HK Hc s Hg Hs. eapply wp_mono; [by apply Hc|]. intros [a|e] s' [He Hr]; split; try done.
  split; [done|]. exact (HK _ _ He Hs).
Qed.

Lemma revocation_says artifacts provider id caller reason d signal :
  quiet_ports artifacts provider →
  moves (λ _, True)
    (DocumentAsync.revokeSource clock performance_now timer abort_reason rounds artifacts id caller reason d signal)
    (λ x m, without_result x ∧ says id is_revoked m).
Proof.
  intros Ports. pose proof (says_stable id is_revoked revoked_lasting) as HK.
  unfold DocumentAsync.revokeSource. apply moves_within; [apply stable_const| |].
  { intros a. apply stable_and; [apply stable_const|done]. }
  intros sg. apply settle_then; [apply stable_const|settle|intros now].
  apply settle_then; [apply stable_const|settle|intros ?]. apply settle_then; [apply stable_const|settle|intros _].
  eapply moves_bind; [apply stable_const|apply moves_update_loop, allowed_revoke|]. intros t.
  apply (moves_mono view (says id is_revoked) _ _ (λ x m, without_result x ∧ says id is_revoked m)); [|done|].
  { intros m (_ & (r & Hr & Ht) & t0 & ->). exists r. split; [done|]. intros t' Ht'%Ht.
    eapply revoked_lasting; [exact Ht'|]. split; [done|]. by destruct t0 as [? ? ? ? ? ? ? ? ? ? [[]|]]. }
  apply settle_then; [done|settle|intros _]. apply settle_then; [done|by eapply settle_cleanup|intros _].
  by apply moves_keep, revoked_status.
Qed.

(** *** Sequences of calls *)

Inductive async_command :=
  | CCreate (input : CreateDocumentAsyncInput) (caller : DurableDocumentJobCaller) (d : Deadline)
      (signal : option (AbortSignal S))
  | CStatus (id : string) (caller : DurableDocumentJobCaller) (d : Deadline) (signal : option (AbortSignal S))
  | CAdvance (id : string) (caller : DurableDocumentJobCaller) (parent : option (AbortSignal S))
  | CCancel (id : string) (caller : DurableDocumentJobCaller) (upstream : bool) (d : Deadline)
      (signal : option (AbortSignal S))
  | CRevoke (id : string) (caller : DurableDocumentJobCaller) (reason : SourceRevocation) (d : Deadline)
      (signal : option (AbortSignal S)).

(** The ids of jobs have no colon, as those that are given out. *)
Definition command_id_ok (c : async_command) : Prop :=
  match c with CAdvance id _ _ | CCancel id _ _ _ _ => colon_free id | _ => True end.

Section commands.
Context (artifacts : DocumentAsyncArtifactPort S) (provider : DocumentAsyncProviderPort S).

Definition run_async_command (c : async_command) : M unit :=
  match c with
  | CCreate input caller d signal =>
      ignore (create clock performance_now timer abort_reason rounds artifacts provider input caller d signal)
  | CStatus id caller d signal =>
      ignore (status clock performance_now timer abort_reason rounds id caller d signal)
  | CAdvance id caller parent =>
      ignore (advance clock performance_now timer abort_reason rounds artifacts provider id caller parent)
  | CCancel id caller upstream d signal =>
      ignore (cancel clock performance_now timer abort_reason rounds artifacts provider id caller upstream d signal)
  | CRevoke id caller reason d signal =>
      ignore (DocumentAsync.revokeSource clock performance_now timer abort_reason rounds artifacts id caller reason d signal)
  end.

Fixpoint run_async_commands (cs : list async_command) : M unit :=
  match cs with
  | [] => mret tt
  | c :: cs' => run_async_command c;; run_async_commands cs'
  end.

Lemma settle_async_commands cs :
  quiet_ports artifacts provider → Forall command_id_ok cs → settles (run_async_commands cs).
Proof.
  intros Ports Hcs. induction Hcs as [|c cs Hc _ IH]; [apply settle_ret|].
  apply settle_bind; [|done]. destruct c; apply settle_ignore.
  - by eapply settle_create.
  - apply settle_status.
  - by apply settle_advance.
  - by apply settle_cancel.
  - by eapply settle_revokeSource.
Qed.
End commands.
End dispatch.

(** ** What the runtime guarantees *)

Section claims.
Context {S : Type} `{!Sha256Api} `{!DurableRecordStorePort S} `{!HasControllers S}
  `{!CanonicalDocument.NumberText} (view : S → memory) (env : memory → memory → Prop)
  (clock : S → Z * S) (performance_now : S → number * S) (timer : Deadline → AbortSignal S)
  (abort_reason : AbortSignal S → S → thrown) (rounds : nat)
  (artifacts : DocumentAsyncArtifactPort S) (provider : DocumentAsyncProviderPort S).

(** The laws of the store among other workers, and of what is around it. *)
Record surroundings : Prop := {
  around_laws : DurableStoreLaws view env;
  around_env m m' : env m m' → family_env m m';
  around_world : quiet_world view env clock performance_now;
  around_ports : quiet_ports view env artifacts provider
}.

Abbreviation run := (run_async_commands clock performance_now timer abort_reason rounds artifacts provider).

Lemma run_keeps cs s (P : memory → Prop) :
  surroundings → Forall command_id_ok cs → family_good (view s) → stable P → P (view s) →
  family_good (view (run cs s).2) ∧ P (view (run cs s).2).
Proof.
  intros [Laws Henv World Ports] Hcs Hg HP Hp.
  destruct (run cs s) as [r s'] eqn:Hrun.
  destruct (wp_run _ _ _ _ _ (settle_async_commands view env Henv clock performance_now timer abort_reason rounds World
    artifacts provider cs Ports Hcs s Hg I) Hrun) as [He _].
  split; [exact (family_env_good _ _ He Hg)|exact (HP _ _ He Hp)].
Qed.

(** Some worker claimed the effect before [s]. *)
Definition claimed_before (identity : EffectIdentity) (s : S) : Prop :=
  ∃ now s0 e rev s1, family_good (view s0) ∧
    DurableEffects.claim identity now s0 = (Ok (DurableEffects.Claimed e rev), s1) ∧ family_env (view s1) (view s).

Lemma claimed_before_claimed identity s :
  surroundings → colon_free (DurableEffects.id_jobId identity) → claimed_before identity s →
  claimed_effect identity (view s).
Proof.
  intros [Laws Henv World Ports] Hc (now & s0 & e & rev & s1 & Hg & Hrun & He).
  destruct (wp_run _ _ _ _ _ (fam_moves_claim view env Henv (λ _, True) identity now Hc s0 Hg I) Hrun) as [_ Hr].
  apply (claimed_effect_stable _ _ _ He). split; [done|]. intros k Hk.
  destruct (Hr k Hk) as (r & -> & _). done.
Qed.

(** C17: whatever calls are made of the runtime, in whatever order, by whatever
    callers, with calls that fail and other workers in between, the record of
    a dispatch stays; and whatever can be read of it later keeps its source,
    its provider, its policy and its budget, and takes back no cancellation,
    no request of one upstream, no acknowledgment, and no revocation of the
    source, of which a deletion is final. *)
Theorem dispatches_only_move_forward cs s :
  surroundings → Forall command_id_ok cs → family_good (view s) →
  let m' := view (run cs s).2 in
  family_good m' ∧
  ∀ id r t, map_get (key id) (view s) = Some r → parse_state r = Ok t →
    ∃ r', map_get (key id) m' = Some r' ∧ ∀ t', parse_state r' = Ok t' → state_moves t t'.
Proof.
  intros Ha Hcs Hg m'. split; [by apply (run_keeps cs s (λ _, True))|]. intros id r t Hr Ht.
  apply (run_keeps cs s (says id (state_moves t))); [done..|apply says_stable, state_moves_lasting|].
  exists r. split; [done|]. intros t' Ht'. replace t' with t by congruence. apply state_moves_refl.
Qed.

(** C14: a dispatch that is cancelled does no more work.  Once a status has
    said so, and whatever is called after it and done by others, an attempt to
    advance the job does exactly the same, in result and in state, whatever
    the ports would do to inspect, to read, to submit, to poll and to write:
    none of them is called.  Only the cleanup of a result and the
    cancellation upstream are left. *)
Theorem cancelled_dispatch_does_no_work artifacts' provider' cs id caller d signal s st s1 caller' parent :
  surroundings → Forall command_id_ok cs → family_good (view s) →
  status clock performance_now timer abort_reason rounds id caller d signal s = (Ok st, s1) →
  as_dispatchCancelled st = true →
  let s2 := (run cs s1).2 in
  advance clock performance_now timer abort_reason rounds artifacts provider id caller' parent s2 =
  advance clock performance_now timer abort_reason rounds (other_artifacts artifacts artifacts')
    (other_provider provider provider') id caller' parent s2.
Proof.
  intros Ha Hcs Hg Hrun Hst s2. pose proof Ha as [Laws Henv World Ports].
  destruct (wp_run _ _ _ _ _ (moves_status view env Henv clock performance_now timer abort_reason rounds World
    (λ _, True) id caller d signal (stable_const True) s Hg I) Hrun) as [He (t & (Hs & Hd & _) & _)].
  destruct (run_keeps cs s1 (says id is_cancelled) Ha Hcs (family_env_good _ _ He Hg)
    (says_stable _ _ cancelled_lasting)) as [Hg2 Hs2].
  - destruct Hs as (r & Hr & Ht). exists r. split; [done|]. intros t' Ht'%Ht.
    eapply cancelled_lasting; [exact Ht'|]. unfold is_cancelled. congruence.
  - by apply (cancelled_advance view env Henv clock performance_now timer abort_reason rounds World).
Qed.

(** C15: a document is submitted to its provider once, and its result written
    once.  When some worker has claimed the submission (or the write) before,
    whatever became of it, an attempt to advance the job does the same, in
    result and in state, whatever submitting (or writing) would do: it is not
    called again. *)
Theorem document_is_submitted_once c w id caller parent s :
  surroundings → colon_free id → family_good (view s) →
  (pv_create provider = c ∨ claimed_before (identity_of id DurableEffects.provider_task_create) s) →
  (writeResult artifacts = w ∨ claimed_before (identity_of id DurableEffects.artifact_write) s) →
  advance clock performance_now timer abort_reason rounds artifacts provider id caller parent s =
  advance clock performance_now timer abort_reason rounds (with_write artifacts w) (with_create provider c)
    id caller parent s.
Proof.
  intros Ha Hid Hg Hc Hw. pose proof Ha as [Laws Henv World Ports].
  set (P := λ m, pv_create provider = c ∨ claimed_effect (identity_of id DurableEffects.provider_task_create) m).
  set (Q := λ m, writeResult artifacts = w ∨ claimed_effect (identity_of id DurableEffects.artifact_write) m).
  assert (HPQ : stable (λ m, P m ∧ Q m)).
  { apply stable_and; intros m m' He [?|Hcl]; [by left|right|by left|right]; exact (claimed_effect_stable _ _ _ He Hcl). }
  apply (same_advance view env Henv clock performance_now timer abort_reason rounds World (λ m, P m ∧ Q m) HPQ);
    [done..|by intros m [? _]|by intros m [_ ?]|done|].
  split; [destruct Hc as [?|?]; [by left|]|destruct Hw as [?|?]; [by left|]]; right; by apply claimed_before_claimed.
Qed.

(** C16: a source that was revoked shows no result.  Once the revocation has
    been answered, that answer, and every status that is answered later,
    whatever is called and done in between, says that the dispatch is
    cancelled and the source revoked, and gives no reference to a result. *)
Theorem revoked_source_shows_no_result cs id caller reason d signal s st s1 caller' d' signal' :
  surroundings → Forall command_id_ok cs → family_good (view s) →
  DocumentAsync.revokeSource clock performance_now timer abort_reason rounds artifacts id caller reason d signal s =
    (Ok st, s1) →
  without_result st ∧
  ∀ st' s3, status clock performance_now timer abort_reason rounds id caller' d' signal' (run cs s1).2 = (Ok st', s3) →
    without_result st'.
Proof.
  intros Ha Hcs Hg Hrun. pose proof Ha as [Laws Henv World Ports].
  destruct (wp_run _ _ _ _ _ (revocation_says view env Henv clock performance_now timer abort_reason rounds World
    artifacts provider id caller reason d signal Ports s Hg I) Hrun) as [He [Hst Hs]].
  split; [done|]. intros st' s3 Hrun'. pose proof (says_stable id is_revoked revoked_lasting) as HK.
  destruct (run_keeps cs s1 (says id is_revoked) Ha Hcs (family_env_good _ _ He Hg) HK Hs) as [Hg2 Hs2].
  exact (proj2 (wp_run _ _ _ _ _ (revoked_status view env Henv clock performance_now timer abort_reason rounds World
    (says id is_revoked) id caller' d' signal' HK (λ m Hm, Hm) _ Hg2 Hs2) Hrun')).
Qed.
End claims.

(** ** A job among no other workers *)

Module AsyncDemo.
#[export] Instance digest : Sha256Api := zero_digest.
#[export] Instance numbers : CanonicalDocument.NumberText := {| CanonicalDocument.fraction_text _ := "0" |}.
#[export] Instance port : DurableRecordStorePort (SharedStore family_env) := shared_port (λ _ _, 0%Z).
Abbreviation St := (SharedStore family_env).

(** The controllers of one attempt, which nobody aborts. *)
#[export] Instance table : HasControllers St :=
  {| controllers _ := {| active := []; aborted := []; made := 0 |}; set_controllers _ s := s |}.

Definition clock (s : St) : Z * St := (2000%Z, s).
Definition performance_now (s : St) : number * St := (int 10, s).
Definition timer (_ : Deadline) : AbortSignal St := λ _, false.
Definition abort_reason (_ : AbortSignal St) (_ : St) : thrown := TOther.
Definition rounds : nat := 4.

Definition caller : DurableDocumentJobCaller := {| jc_ownerId := "tenant"; jc_credentialBinding := "cred" |}.
Definition snapshot : DocumentAsyncSourceSnapshot :=
  {| ss_refId := "art_src"; ss_contentHash := "sha256-" +:+ sha256 []; ss_byteSize := 3; ss_expiresAt := 90000 |}.
Definition limits : DocumentAsyncPolicy :=
  {| absoluteDeadlineMs := 80000; totalExecutionBudgetMs := 60000; perAttemptDeadlineMs := 5000;
     maxInputBytes := 100; maxOutputBytes := 100000 |}.
Definition input : CreateDocumentAsyncInput :=
  {| ca_async := true; ca_idempotencyKey := "k"; ca_sourceRefId := "art_src"; ca_expiresAt := 70000;
     ca_policy := limits |}.
Definition d : Deadline := {| Limits.expiresAt := int 5000 |}.

Definition artifacts : DocumentAsyncArtifactPort St :=
  {| inspectSource _ _ _ := mret snapshot; readSource _ _ _ _ := mret (chars "abc");
     writeResult _ _ _ _ _ _ := mret "art_result"%string; revokeResult _ _ _ := mret false;
     recoverResult _ _ _ := mret None |}.
Definition provider : DocumentAsyncProviderPort St :=
  {| providerId := "provider"; pv_create _ _ _ := mret "task"%string; pv_poll _ _ := mret ProviderRunning;
     pv_cancel _ _ := mret true |}.
(** Ports that fail. *)
Definition no_artifacts : DocumentAsyncArtifactPort St :=
  {| inspectSource _ _ _ := throw TOther; readSource _ _ _ _ := throw TOther;
     writeResult _ _ _ _ _ _ := throw TOther; revokeResult _ _ _ := throw TOther;
     recoverResult _ _ _ := throw TOther |}.
Definition no_provider : DocumentAsyncProviderPort St :=
  {| providerId := "provider"; pv_create _ _ _ := throw TOther; pv_poll _ _ := throw TOther;
     pv_cancel _ _ := throw TOther |}.

Definition empty : St := {| contents := []; turns := [] |}.
Definition id : string := jobIdFor "tenant" "k".
Definition started : St := (create clock performance_now timer abort_reason rounds artifacts provider input caller d None empty).2.
Definition status_at (s : St) := status clock performance_now timer abort_reason rounds id caller d None s.
Definition advance_with (p : DocumentAsyncProviderPort St) (s : St) :=
  advance clock performance_now timer abort_reason rounds artifacts p id caller None s.
Definition cancelled_store : St :=
  (cancel clock performance_now timer abort_reason rounds artifacts provider id caller true d None started).2.

(** Ports whose submission fails, and the work that is then repeated. *)
Definition failed_once : St := (advance_with no_provider started).2.
Definition submission : EffectIdentity := identity_of id DurableEffects.provider_task_create.

(** The provider when it is done. *)
Definition finished : DocumentAsyncProviderPort St :=
  {| providerId := "provider"; pv_create _ _ _ := mret "task"%string;
     pv_poll _ _ := mret (ProviderCompleted
       {| CanonicalDocument.documentId := "document";
          CanonicalDocument.sourceIdentity := CanonicalDocumentSafety.demo_identity (ss_contentHash snapshot);
          CanonicalDocument.content_of := CanonicalDocumentSafety.demo_core |});
     pv_cancel _ _ := mret true |}.

Definition shown (o : result DocumentAsyncStatus * St) : option (DurableDocumentJobStatus * option string * bool) :=
  match o.1 with
  | Ok st => Some (aj_status (as_job st), aj_resultArtifactRef (as_job st), as_dispatchCancelled st)
  | Throw _ => None
  end.

Example async_demo_runs :
  shown (status_at started) = Some (created, None, false) ∧
  (advance_with provider started).1 = Ok tt ∧
  shown (status_at (advance_with provider started).2) = Some (running, None, false) ∧
  shown (status_at (advance_with finished started).2) = Some (completed, Some "art_result"%string, false) ∧
  (advance_with no_provider started).1 =
    Throw (failure UPSTREAM_ERROR "Document effect outcome is uncertain; automatic repeat is prohibited") ∧
  (advance_with provider failed_once).1 = Throw outcome_unresolved ∧
  shown (status_at cancelled_store) = Some (cancelled, None, true).
Proof. vm_compute. split_and!; reflexivity. Qed.

Lemma async_laws : DurableStoreLaws (contents (env := family_env)) family_env.
Proof. apply shared_store_laws; [apply family_env_refl|apply family_env_trans]. Qed.

Lemma async_good_empty : family_good (contents empty).
Proof. split; [by split|]. by intros ? ? ? ? ?. Qed.

Lemma async_world : quiet_world contents family_env clock performance_now.
Proof. split; [intros; apply family_env_refl..|done]. Qed.

Lemma async_around : surroundings contents family_env clock performance_now artifacts provider.
Proof.
  split; [apply async_laws|done|apply async_world|]. split; intros; apply family_env_refl.
Qed.

Lemma async_id : colon_free id.
Proof. apply DurableDocumentJobsSafety.jobIdFor_colon_free. Qed.

Lemma async_good {A} (c : M St A) s :
  settles contents c → family_good (contents s) → family_good (contents (c s).2).
Proof. intros Hc Hg. destruct (Hc s Hg I) as [He _]. exact (family_env_good _ _ He Hg). Qed.

Lemma async_good_started : family_good (contents started).
Proof.
  apply async_good, async_good_empty. eapply settle_create; [exact async_laws|done|exact async_world|].
  apply (around_ports _ _ _ _ _ _ async_around).
Qed.

Lemma async_good_failed : family_good (contents failed_once).
Proof.
  apply async_good, async_good_started. eapply settle_advance; [exact async_laws|done|exact async_world| |exact async_id].
  split; intros; apply family_env_refl.
Qed.
End AsyncDemo.

#[local] Existing Instances AsyncDemo.digest AsyncDemo.numbers AsyncDemo.port AsyncDemo.table.

Lemma run_of_result {A B} (o : result A * B) a : o.1 = Ok a → o = (Ok a, o.2).
Proof. destruct o. by intros <-. Qed.

(** A call of each kind. *)
Definition demo_calls : list (async_command (S := AsyncDemo.St)) :=
  [CAdvance AsyncDemo.id AsyncDemo.caller None; CStatus AsyncDemo.id AsyncDemo.caller AsyncDemo.d None;
   CCancel AsyncDemo.id AsyncDemo.caller true AsyncDemo.d None;
   CRevoke AsyncDemo.id AsyncDemo.caller source_expired AsyncDemo.d None].

Lemma demo_calls_ok : Forall command_id_ok demo_calls.
Proof. repeat constructor; exact AsyncDemo.async_id. Qed.

Definition demo_dispatch : DurableRecord :=
  match map_get (key AsyncDemo.id) (contents AsyncDemo.started) with
  | Some r => r | None => Build_DurableRecord "" "" 0 0 0 None end.

Definition demo_state : State := new_state AsyncDemo.provider AsyncDemo.snapshot AsyncDemo.limits 2000.

Abbreviation demo_run :=
  (run_async_commands AsyncDemo.clock AsyncDemo.performance_now AsyncDemo.timer AsyncDemo.abort_reason
     AsyncDemo.rounds AsyncDemo.artifacts AsyncDemo.provider).

Lemma dispatches_only_move_forward_witness :
  ∃ r', map_get (key AsyncDemo.id) (contents (demo_run demo_calls AsyncDemo.started).2) = Some r' ∧
    ¬ parse_state r' = Ok (demo_state <| st_providerId := "another" |>).
Proof.
  destruct (dispatches_only_move_forward contents family_env AsyncDemo.clock AsyncDemo.performance_now AsyncDemo.timer
    AsyncDemo.abort_reason AsyncDemo.rounds AsyncDemo.artifacts AsyncDemo.provider demo_calls AsyncDemo.started
    AsyncDemo.async_around demo_calls_ok AsyncDemo.async_good_started) as [_ Hall].
  destruct (Hall AsyncDemo.id demo_dispatch demo_state) as (r' & Hr' & Ht); [vm_compute; reflexivity..|].
  exists r'. split; [exact Hr'|]. intros Hp. destruct (Ht _ Hp) as [Hreq _ _ _ _]. vm_compute in Hreq. discriminate Hreq.
Defined.

Definition demo_status : DocumentAsyncStatus :=
  match (AsyncDemo.status_at AsyncDemo.cancelled_store).1 with
  | Ok st => st
  | Throw _ => {| as_job := Build_DocumentAsyncJob "" "" "" "" created 0 0 0 None None; as_dispatchCancelled := false;
                  as_upstreamRequested := false; as_upstreamAcknowledged := false; as_resultCleanupPending := false;
                  as_sourceRevocation := None |}
  end.

Lemma demo_good_cancelled : family_good (contents AsyncDemo.cancelled_store).
Proof.
  apply AsyncDemo.async_good, AsyncDemo.async_good_started.
  eapply settle_cancel; [exact AsyncDemo.async_laws|done|exact AsyncDemo.async_world| |exact AsyncDemo.async_id].
  apply (around_ports _ _ _ _ _ _ AsyncDemo.async_around).
Qed.

Lemma cancelled_dispatch_does_no_work_witness :
  let s2 := (demo_run demo_calls (AsyncDemo.status_at AsyncDemo.cancelled_store).2).2 in
  AsyncDemo.advance_with AsyncDemo.provider s2 =
  advance AsyncDemo.clock AsyncDemo.performance_now AsyncDemo.timer AsyncDemo.abort_reason AsyncDemo.rounds
    (other_artifacts AsyncDemo.artifacts AsyncDemo.no_artifacts)
    (other_provider AsyncDemo.provider AsyncDemo.no_provider) AsyncDemo.id AsyncDemo.caller None s2.
Proof.
  refine (cancelled_dispatch_does_no_work contents family_env AsyncDemo.clock AsyncDemo.performance_now AsyncDemo.timer
    AsyncDemo.abort_reason AsyncDemo.rounds AsyncDemo.artifacts AsyncDemo.provider AsyncDemo.no_artifacts
    AsyncDemo.no_provider demo_calls AsyncDemo.id AsyncDemo.caller AsyncDemo.d None AsyncDemo.cancelled_store
    demo_status (AsyncDemo.status_at AsyncDemo.cancelled_store).2 AsyncDemo.caller None
    AsyncDemo.async_around demo_calls_ok demo_good_cancelled _ _).
  - apply (run_of_result (AsyncDemo.status_at AsyncDemo.cancelled_store)). vm_compute. reflexivity.
  - vm_compute. reflexivity.
Defined.

(** Some worker claims the submission, and is not heard of again. *)
Definition demo_claimed : AsyncDemo.St := (DurableEffects.claim AsyncDemo.submission 2000 AsyncDemo.started).2.

Lemma demo_good_claimed : family_good (contents demo_claimed).
Proof.
  pose proof AsyncDemo.async_laws. unfold demo_claimed.
  destruct (fam_moves_claim contents family_env (λ m m' He, He) (λ _, True) AsyncDemo.submission 2000 AsyncDemo.async_id
    AsyncDemo.started AsyncDemo.async_good_started I) as [He _].
  exact (family_env_good _ _ He AsyncDemo.async_good_started).
Qed.

Lemma document_is_submitted_once_witness :
  AsyncDemo.advance_with AsyncDemo.provider demo_claimed =
  advance AsyncDemo.clock AsyncDemo.performance_now AsyncDemo.timer AsyncDemo.abort_reason AsyncDemo.rounds
    (with_write AsyncDemo.artifacts (writeResult AsyncDemo.artifacts))
    (with_create AsyncDemo.provider (pv_create AsyncDemo.no_provider)) AsyncDemo.id AsyncDemo.caller None demo_claimed.
Proof.
  refine (document_is_submitted_once contents family_env AsyncDemo.clock AsyncDemo.performance_now AsyncDemo.timer
    AsyncDemo.abort_reason AsyncDemo.rounds AsyncDemo.artifacts AsyncDemo.provider (pv_create AsyncDemo.no_provider)
    (writeResult AsyncDemo.artifacts) AsyncDemo.id AsyncDemo.caller None demo_claimed AsyncDemo.async_around
    AsyncDemo.async_id demo_good_claimed (or_intror _) (or_introl eq_refl)).
  exists 2000%Z, AsyncDemo.started. do 3 eexists.
  split; [exact AsyncDemo.async_good_started|]. split; [|apply family_env_refl].
  apply (run_of_result (DurableEffects.claim AsyncDemo.submission 2000 AsyncDemo.started)). vm_compute. reflexivity.
Defined.

(** The source is deleted once the job is completed. *)
Definition demo_completed : AsyncDemo.St := (AsyncDemo.advance_with AsyncDemo.finished AsyncDemo.started).2.
Definition demo_revocation := DocumentAsync.revokeSource AsyncDemo.clock AsyncDemo.performance_now AsyncDemo.timer
  AsyncDemo.abort_reason AsyncDemo.rounds AsyncDemo.artifacts AsyncDemo.id AsyncDemo.caller deleted AsyncDemo.d None
  demo_completed.
Definition demo_revoked_status : DocumentAsyncStatus :=
  match demo_revocation.1 with Ok st => st | Throw _ => demo_status end.

Lemma demo_good_completed : family_good (contents demo_completed).
Proof.
  apply AsyncDemo.async_good, AsyncDemo.async_good_started.
  eapply settle_advance; [exact AsyncDemo.async_laws|done|exact AsyncDemo.async_world| |exact AsyncDemo.async_id].
  split; intros; apply family_env_refl.
Qed.

Lemma revoked_source_shows_no_result_witness :
  aj_status (as_job demo_revoked_status) = completed ∧ without_result demo_revoked_status.
Proof.
  split; [vm_compute; reflexivity|].
  refine (proj1 (revoked_source_shows_no_result contents family_env AsyncDemo.clock AsyncDemo.performance_now
    AsyncDemo.timer AsyncDemo.abort_reason AsyncDemo.rounds AsyncDemo.artifacts AsyncDemo.provider [] AsyncDemo.id
    AsyncDemo.caller deleted AsyncDemo.d None demo_completed demo_revoked_status demo_revocation.2 AsyncDemo.caller
    AsyncDemo.d None AsyncDemo.async_around (List.Forall_nil _) demo_good_completed _)).
  apply (run_of_result demo_revocation). vm_compute. reflexivity.
Defined.

#[local] Existing Instance DurableDocumentJobsSafety.JobsDemo.port.

Lemma job_loops_terminate_witness :
  cancel_loop (λ s, (2000%Z, s)) (λ _ _, TOther) TOther (4 + 996) DurableDocumentJobsSafety.JobsDemo.id
    DurableDocumentJobsSafety.JobsDemo.caller (λ _, false) DurableDocumentJobsSafety.JobsDemo.started =
  cancel_loop (λ s, (2000%Z, s)) (λ _ _, TOther) outcome_unresolved 4 DurableDocumentJobsSafety.JobsDemo.id
    DurableDocumentJobsSafety.JobsDemo.caller (λ _, false) DurableDocumentJobsSafety.JobsDemo.started.
Proof.
  exact (proj2 (job_loops_terminate contents jobs_env (Laws := DurableDocumentJobsSafety.JobsDemo.job_laws)
    (λ m m' He, He) (λ s, (2000%Z, s)) (λ s, family_env_refl _) (λ _ _, TOther)
    TOther outcome_unresolved 996 DurableDocumentJobsSafety.JobsDemo.id DurableDocumentJobsSafety.JobsDemo.caller
    DurableDocumentJobsSafety.JobsDemo.started DurableDocumentJobsSafety.JobsDemo.job_good_started) (λ _, false)).
Defined.

Abbreviation AloneStore := (SharedStore (@eq memory)).
#[local] Instance alone_port : DurableRecordStorePort AloneStore := shared_port (λ _ _, 0%Z).
Definition demo_alone : AloneStore := {| contents := contents AsyncDemo.started; turns := [] |}.

Lemma undisturbed_update_takes_one_round_witness :
  update_loop (λ s, (2000%Z, s)) (λ _ _, TOther) TOther (1 + 999) AsyncDemo.id (revoke_state deleted) None demo_alone =
  update_loop (λ s, (2000%Z, s)) (λ _ _, TOther) outcome_unresolved 1 AsyncDemo.id (revoke_state deleted) None demo_alone.
Proof.
  apply (undisturbed_update_takes_one_round contents (@eq memory) (λ s, (2000%Z, s)) (λ _ _, TOther) TOther
    outcome_unresolved 999 AsyncDemo.id (revoke_state deleted) None demo_alone).
  - apply shared_store_laws; [done|apply eq_trans].
  - intros m m' <-. reflexivity.
  - done.
Defined.
