(* ===== verification/DocumentExecution.v ===== *)
(** * The two tracks of document execution

    [src/core/document-execution.ts]: which requests may run synchronously,
    the contract of asynchronous document jobs, and [DocumentExecutionManager]
    over its store, with their theorems.

    A [Date] is its time value, [None] when invalid; a time kept as a string is
    a [date_string].  The store is a class of operations with laws, of which
    the in-memory store is an instance. *)

From S2P Require Import Prelude JsString JsMap Digest CanonicalDocument.

(** ** Tracks *)

Inductive ExecutionTrack := track_sync | track_async.
Inductive ExecutionMode := mode_sync | mode_async.

#[export] Instance ExecutionMode_eq_dec : EqDecision ExecutionMode.
Proof. solve_decision. Defined.

Definition mode_name (m : ExecutionMode) : string :=
  match m with mode_sync => "sync" | mode_async => "async" end.

Record ExecutionLimits := {
  lim_maxBytes : number;
  lim_maxPages : number;
  lim_maxTimeMs : number;
  lim_maxMemoryMb : number;
  allowedEngines : list string
}.

Record ResultProvenance := { rp_engine : string; durationMs : number; sourceId : string }.
Record ExecutionError := { ee_code : string; ee_message : string; ee_retryable : bool }.

Record ExecutionResult := {
  track : ExecutionTrack;
  er_contentHash : string;
  projections : list string;
  er_provenance : ResultProvenance;
  cachedAt : option string;
  er_error : option ExecutionError
}.

Record ExecutionRequest := {
  inputBytes : number;
  inputPages : number;
  estimatedTimeMs : number;
  estimatedMemoryMb : number;
  req_engine : string;
  req_mode : ExecutionMode
}.

Definition engine_allowed (request : ExecutionRequest) (limits : ExecutionLimits) : bool :=
  bool_decide (req_engine request ∈ allowedEngines limits).

Definition selectExecutionTrack (request : ExecutionRequest) (limits : ExecutionLimits) : ExecutionTrack :=
  if num_leb (inputBytes request) (lim_maxBytes limits) && num_leb (inputPages request) (lim_maxPages limits) &&
     num_leb (estimatedTimeMs request) (lim_maxTimeMs limits) &&
     num_leb (estimatedMemoryMb request) (lim_maxMemoryMb limits) && engine_allowed request limits
  then track_sync else track_async.

(** [AsyncRequiredError], by its reason. *)
Definition AsyncRequiredError : Type := string.

Definition exceeds_text `{!NumberText} (what : string) (value : number) (unit_ : string) (limit : number) : string :=
  what +:+ String_number value +:+ unit_ +:+ " exceeds sync limit " +:+ String_number limit +:+ unit_.

Definition validateSyncExecutionGuard `{!NumberText} (request : ExecutionRequest) (limits : ExecutionLimits)
    : option AsyncRequiredError :=
  match req_mode request with
  | mode_sync =>
      if num_ltb (lim_maxBytes limits) (inputBytes request)
      then Some (exceeds_text "Input size " (inputBytes request) " bytes" (lim_maxBytes limits))
      else if num_ltb (lim_maxPages limits) (inputPages request)
      then Some (exceeds_text "Input pages " (inputPages request) "" (lim_maxPages limits))
      else if num_ltb (lim_maxTimeMs limits) (estimatedTimeMs request)
      then Some (exceeds_text "Estimated time " (estimatedTimeMs request) "ms" (lim_maxTimeMs limits))
      else if negb (engine_allowed request limits)
      then Some ("Engine " +:+ quoted (req_engine request) +:+ " is async-only")
      else None
  | mode_async => None
  end.

Definition validateExecutionMode (mode : string) : result unit :=
  throw_if (bool_decide (mode = "auto"%string))
    (TError ("Execution mode " +:+ quoted "auto" +:+ " is not supported in v1; use explicit " +:+ quoted "sync" +:+
             " or " +:+ quoted "async"));;
  throw_if (negb (bool_decide (mode = "sync"%string)) && negb (bool_decide (mode = "async"%string)))
    (TError ("Unknown execution mode " +:+ quoted mode +:+ "; expected " +:+ quoted "sync" +:+ " or " +:+ quoted "async")).

Record ArtifactRef := { refId : string; ar_contentHash : string; byteSize : number; ar_expiresAt : string }.

(** [jobCreated] is always false. *)
Definition handleOversizedOutput `{!NumberText} `{!Sha256Api} (hash : string) (size : number) (expiry : string)
    : ArtifactRef :=
  {| refId := slice_to 32 (sha256 (utf8 (hash +:+ String_number size))); ar_contentHash := hash; byteSize := size;
     ar_expiresAt := expiry |}.

(** ** The contract of jobs *)

Inductive AsyncDocumentJobStatus := created | pending | running | completed | failed | cancelled | deleted | expired.

#[export] Instance AsyncDocumentJobStatus_eq_dec : EqDecision AsyncDocumentJobStatus.
Proof. solve_decision. Defined.

Definition status_name (s : AsyncDocumentJobStatus) : string :=
  match s with
  | created => "created" | pending => "pending" | running => "running" | completed => "completed"
  | failed => "failed" | cancelled => "cancelled" | deleted => "deleted" | expired => "expired"
  end.

Record SourceSnapshot := {
  sn_contentHash : string;
  capturedAt : string;
  sn_expiresAt : date_string;
  revoked : bool
}.

#[export] Instance SourceSnapshot_updatable : Updatable SourceSnapshot :=
  {| rebuild := λ s, Build_SourceSnapshot (sn_contentHash s) (capturedAt s) (sn_expiresAt s) (revoked s) |}.

Record CredentialBinding := { credentialId : string; boundAt : string }.

Record JobBillingProvenance := {
  providerId : string;
  inputUnits : number;
  outputUnits : number;
  billedAt : option string
}.

Record AsyncDocumentJob := {
  jobId : string;
  ownerId : string;
  sourceSnapshot : SourceSnapshot;
  job_status : AsyncDocumentJobStatus;
  credentialBinding : CredentialBinding;
  billingProvenance : JobBillingProvenance;
  resultRef : option ArtifactRef;
  createdAt : string;
  expiresAt : date_string
}.

#[export] Instance AsyncDocumentJob_updatable : Updatable AsyncDocumentJob :=
  {| rebuild := λ j, Build_AsyncDocumentJob (jobId j) (ownerId j) (sourceSnapshot j) (job_status j)
       (credentialBinding j) (billingProvenance j) (resultRef j) (createdAt j) (expiresAt j) |}.

Definition DOC_STATUS_ORDER (s : AsyncDocumentJobStatus) : Z :=
  match s with created => 0 | pending => 1 | running => 2 | _ => 3 end.

Definition DOC_TERMINAL_STATUSES (s : AsyncDocumentJobStatus) : bool :=
  match s with completed | failed | cancelled | deleted | expired => true | _ => false end.

Definition validateDocumentJobStatusTransition (from to : AsyncDocumentJobStatus) : result unit :=
  let fromOrder := DOC_STATUS_ORDER from in
  let toOrder := DOC_STATUS_ORDER to in
  throw_if (bool_decide (from = to))
    (TError ("Status is already " +:+ quoted (status_name from) +:+ "; no transition needed"));;
  throw_if (DOC_TERMINAL_STATUSES from)
    (TError ("Cannot transition from terminal status " +:+ quoted (status_name from) +:+ " to " +:+
             quoted (status_name to)));;
  throw_if (toOrder <? fromOrder)%Z
    (TError ("Non-monotonic status transition: " +:+ quoted (status_name from) +:+ " (" +:+ show fromOrder +:+
             ") -> " +:+ quoted (status_name to) +:+ " (" +:+ show toOrder +:+ ")")).

(** [Math.min] of three times; [NaN] if one is. *)
Definition min_time (a b c : option Z) : option Z := x ← a; y ← b; z ← c; Some (Z.min x (Z.min y z)).

Definition resolveSnapshotExpiry (sourceExpiresAt jobExpiresAt policyCapExpiresAt : date_string) : result date_string :=
  toISOString (min_time (getTime sourceExpiresAt) (getTime jobExpiresAt) (getTime policyCapExpiresAt)).

Definition job_id_text (owner hash engine : string) : string := owner +:+ ":" +:+ hash +:+ ":" +:+ engine.

Definition computeIdempotentJobId `{!Sha256Api} (owner hash engine : string) : string :=
  sha256 (utf8 (job_id_text owner hash engine)).

Definition revokeSnapshot (job : AsyncDocumentJob) : AsyncDocumentJob :=
  job <| sourceSnapshot := (sourceSnapshot job) <| revoked := true |> |>
      <| job_status := if DOC_TERMINAL_STATUSES (job_status job) then job_status job else cancelled |>.

Inductive CancelScope := caller_wait | groundlane_dispatch | upstream_cancel.

Definition scope_name (s : CancelScope) : string :=
  match s with
  | caller_wait => "caller_wait" | groundlane_dispatch => "groundlane_dispatch" | upstream_cancel => "upstream_cancel"
  end.
Definition scopes : list CancelScope := [caller_wait; groundlane_dispatch; upstream_cancel].

Definition validateCancelScope (scope : string) : result CancelScope :=
  match list_find (λ s, scope_name s = scope) scopes with
  | Some (_, s) => Ok s
  | None => Throw (TError ("Unknown cancel scope " +:+ quoted scope +:+ "; expected one of: " +:+
                           join ", " (map scope_name scopes)))
  end.

Record McpTasksSupportEntry := {
  clientId : string;
  supportsAsyncTasks : bool;
  supportsNotifications : bool;
  supportsPolling : bool
}.

Definition KNOWN_MCP_CLIENTS : list string := ["claude"; "codex"; "cursor"].

Fixpoint validate_entries (entries : list McpTasksSupportEntry) : result unit :=
  match entries with
  | [] => Ok tt
  | entry :: rest =>
      throw_if (negb (bool_decide (clientId entry ∈ KNOWN_MCP_CLIENTS)))
        (TError ("Unknown MCP client " +:+ quoted (clientId entry) +:+ "; known clients: " +:+
                 join ", " KNOWN_MCP_CLIENTS));;
      validate_entries rest
  end.

Definition validateMcpTasksMatrix (entries : list McpTasksSupportEntry) : result unit :=
  match entries with
  | [] => Throw (TError "MCP Tasks support matrix must contain at least one entry")
  | _ => validate_entries entries
  end.

(** ** Deadlines *)

Record DeadlineSet := {
  syncRequestDeadlineMs : number;
  createRequestDeadlineMs : number;
  pollWaitDeadlineMs : number;
  jobAbsoluteDeadlineMs : number;
  perAttemptDeadlineMs : number;
  totalExecutionBudgetMs : number
}.

Definition deadline_fields (d : DeadlineSet) : list (string * number) :=
  [("syncRequestDeadlineMs", syncRequestDeadlineMs d); ("createRequestDeadlineMs", createRequestDeadlineMs d);
   ("pollWaitDeadlineMs", pollWaitDeadlineMs d); ("jobAbsoluteDeadlineMs", jobAbsoluteDeadlineMs d);
   ("perAttemptDeadlineMs", perAttemptDeadlineMs d); ("totalExecutionBudgetMs", totalExecutionBudgetMs d)]%string.

Fixpoint validate_fields `{!NumberText} (fields : list (string * number)) : result unit :=
  match fields with
  | [] => Ok tt
  | (field, value) :: rest =>
      throw_if (num_leb value (int 0))
        (TError ("Deadline " +:+ quoted field +:+ " must be positive; got " +:+ String_number value));;
      validate_fields rest
  end.

Definition validateDeadlines `{!NumberText} (d : DeadlineSet) : result unit := validate_fields (deadline_fields d).

Definition computeRemainingBudget `{!NumberText} (totalBudgetMs elapsedMs : number) : result number :=
  let remaining := num_sub totalBudgetMs elapsedMs in
  throw_if (num_leb remaining (int 0))
    (TError ("Total execution budget exhausted: elapsed " +:+ String_number elapsedMs +:+ "ms >= budget " +:+
             String_number totalBudgetMs +:+ "ms"));;
  Ok remaining.

(** ** Modes *)

Definition MAX_DOCUMENT_JOBS : Z := 500.
Definition MAX_DOCUMENT_OWNER_CHARS : Z := 256.
Definition MAX_DOCUMENT_HASH_CHARS : Z := 256.
Definition MAX_DOCUMENT_ENGINE_CHARS : Z := 128.

Definition ASYNC_ONLY_ENGINES : list string := ["ocr"; "vlm"; "audio"; "ocr-vlm"; "layout-vlm"; "transcription"].

Definition requiresExplicitAsyncJob (engine : string) : bool := bool_decide (engine ∈ ASYNC_ONLY_ENGINES).

Definition executionRuntimeError (message : string) : thrown := gerror INVALID_INPUT "document-execution" message false.

Inductive ResolvedMode := explicit (m : ExecutionMode) | auto_mode.

Definition resolveExecutionModeWithOptIn (mode : string) (allowAuto : bool) : result ResolvedMode :=
  if bool_decide (mode = "auto"%string) then
    throw_if (negb allowAuto)
      (executionRuntimeError ("Execution mode " +:+ quoted "auto" +:+
        " requires explicit opt-in; pass allowAuto=true or use explicit " +:+ quoted "sync" +:+ "/" +:+ quoted "async"));;
    Ok auto_mode
  else
    validateExecutionMode mode;;
    Ok (explicit (if bool_decide (mode = "sync"%string) then mode_sync else mode_async)).

Definition routeAutoExecution (request : ExecutionRequest) (limits : ExecutionLimits) (allowAuto : bool)
    : result ExecutionTrack :=
  throw_if (negb allowAuto)
    (executionRuntimeError ("Execution mode " +:+ quoted "auto" +:+ " requires explicit opt-in; pass allowAuto=true"));;
  Ok (selectExecutionTrack request limits).

Definition async_required (reason : string) : thrown :=
  executionRuntimeError ("ASYNC_REQUIRED: " +:+ reason +:+ "; use an explicit async document job").

Definition assertSyncExecutable `{!NumberText} (request : ExecutionRequest) (limits : ExecutionLimits) : result unit :=
  throw_if (negb (bool_decide (req_mode request = mode_sync)))
    (executionRuntimeError ("Sync execution requires mode " +:+ quoted "sync" +:+ ", got " +:+
                            quoted (mode_name (req_mode request))));;
  match validateSyncExecutionGuard request limits with
  | Some reason => Throw (async_required reason)
  | None =>
      throw_if (requiresExplicitAsyncJob (req_engine request))
        (async_required ("Engine " +:+ quoted (req_engine request) +:+ " is async-only"))
  end.

Definition assertBoundedId (value field : string) (max : Z) : result unit :=
  throw_if ((str_length value =? 0)%Z || (max <? str_length value)%Z)
    (executionRuntimeError (field +:+ " must be non-empty within " +:+ show max +:+ " characters")).

(** ** The manager *)

Record SyncExecutionContext := {
  cx_contentHash : string;
  cx_sourceId : string;
  cx_projections : option (list string)
}.

Record DocumentProviderCancelAck := { providerResponseCode : number; acknowledgedAt : string }.

Record InternalDocumentJobState := {
  job : AsyncDocumentJob;
  callerWaitCancelled : bool;
  groundlaneDispatchCancelled : bool;
  upstreamRequested : bool;
  upstreamAck : option DocumentProviderCancelAck
}.

#[export] Instance InternalDocumentJobState_updatable : Updatable InternalDocumentJobState :=
  {| rebuild := λ s, Build_InternalDocumentJobState (job s) (callerWaitCancelled s) (groundlaneDispatchCancelled s)
       (upstreamRequested s) (upstreamAck s) |}.

Definition state_id (s : InternalDocumentJobState) : string := jobId (job s).

Class DocumentJobStorePort (S : Type) := {
  store_get : string → S → option InternalDocumentJobState;
  store_set : InternalDocumentJobState → S → S;
  store_size : S → Z
}.

Class DocumentJobStoreLaws (S : Type) `{!DocumentJobStorePort S} : Prop := {
  store_get_set id t s : store_get id (store_set t s) = if bool_decide (id = state_id t) then Some t else store_get id s;
  store_size_set t s : store_size (store_set t s) =
    (store_size s + match store_get (state_id t) s with Some _ => 0 | None => 1 end)%Z
}.

Definition InMemoryDocumentJobStore : Type := js_map InternalDocumentJobState.

#[export] Instance memory_store : DocumentJobStorePort InMemoryDocumentJobStore := {
  store_get := map_get;
  store_set t m := map_set (state_id t) t m;
  store_size m := Z.of_nat (length m)
}.

Record CreateDocumentJobInput := {
  in_ownerId : string;
  in_contentHash : string;
  in_engine : string;
  in_credentialBinding : CredentialBinding;
  in_sourceSnapshot : SourceSnapshot;
  in_createdAt : string;
  in_expiresAt : date_string;
  in_policyCapExpiresAt : option date_string;
  in_now : option Z
}.

Record CreateDocumentJobResult := { cr_job : AsyncDocumentJob; reused : bool }.

Record DocumentCancelOutcome := {
  co_job : AsyncDocumentJob;
  co_callerWaitCancelled : bool;
  co_groundlaneDispatchCancelled : bool;
  co_upstreamRequested : bool;
  upstreamCancelled : bool;
  providerAck : option DocumentProviderCancelAck
}.

Definition executeSync `{!NumberText} (request : ExecutionRequest) (limits : ExecutionLimits)
    (context : SyncExecutionContext) : result ExecutionResult :=
  assertSyncExecutable request limits;;
  assertBoundedId (cx_contentHash context) "contentHash" MAX_DOCUMENT_HASH_CHARS;;
  assertBoundedId (cx_sourceId context) "sourceId" MAX_DOCUMENT_OWNER_CHARS;;
  Ok {| track := track_sync; er_contentHash := cx_contentHash context;
        projections := default ["markdown"%string] (cx_projections context);
        er_provenance := {| rp_engine := req_engine request; durationMs := int 0; sourceId := cx_sourceId context |};
        cachedAt := None; er_error := None |}.

Definition buildAsyncResult (j : AsyncDocumentJob) (ps : list string) : ExecutionResult :=
  {| track := track_async; er_contentHash := sn_contentHash (sourceSnapshot j); projections := ps;
     er_provenance := {| rp_engine := providerId (billingProvenance j); durationMs := int 0; sourceId := jobId j |};
     cachedAt := None; er_error := None |}.

(** [a <= b], false when one is [NaN]. *)
Definition date_leb (a b : option Z) : bool :=
  match a, b with Some x, Some y => (x <=? y)%Z | _, _ => false end.

Definition owner_mismatch : thrown := executionRuntimeError "Owner mismatch: caller does not own this document job".
Definition job_expired : thrown := gerror DEADLINE_EXCEEDED "document-execution" "Document job has expired" false.

Section manager.
Context {S : Type} `{!Sha256Api} `{!NumberText} `{!DocumentJobStorePort S} (maxJobs : Z).

Definition store (t : InternalDocumentJobState) : M S unit := update (store_set t).

Definition new_job (input : CreateDocumentJobInput) (id : string) (snapshotExpiresAt : date_string) : AsyncDocumentJob :=
  {| jobId := id; ownerId := in_ownerId input;
     sourceSnapshot := (in_sourceSnapshot input) <| sn_expiresAt := snapshotExpiresAt |>;
     job_status := created; credentialBinding := in_credentialBinding input;
     billingProvenance := {| providerId := in_engine input; inputUnits := int 0; outputUnits := int 0; billedAt := None |};
     resultRef := None; createdAt := in_createdAt input; expiresAt := in_expiresAt input |}.

Definition create (input : CreateDocumentJobInput) : M S CreateDocumentJobResult :=
  lift (assertBoundedId (in_ownerId input) "ownerId" MAX_DOCUMENT_OWNER_CHARS);;
  lift (assertBoundedId (in_contentHash input) "contentHash" MAX_DOCUMENT_HASH_CHARS);;
  lift (assertBoundedId (in_engine input) "engine" MAX_DOCUMENT_ENGINE_CHARS);;
  lift (throw_if (falsy (credentialId (in_credentialBinding input)))
    (executionRuntimeError "credentialBinding.credentialId is required"));;
  let id := computeIdempotentJobId (in_ownerId input) (in_contentHash input) (in_engine input) in
  existing ← gets (store_get id);
  match existing with
  | Some t =>
      lift (throw_if (negb (bool_decide (ownerId (job t) = in_ownerId input))) owner_mismatch);;
      mret {| cr_job := job t; reused := true |}
  | None =>
      size ← gets store_size;
      lift (throw_if (maxJobs <=? size)%Z
        (gerror CONCURRENCY_LIMIT "document-execution" "The document job store is full" true));;
      lift (throw_if (bool_decide (in_now input = None)) (executionRuntimeError "Invalid creation time"));;
      lift (throw_if (date_leb (getTime (in_expiresAt input)) (in_now input))
        (executionRuntimeError "Document job expiresAt must be in the future"));;
      expiry ← lift (resolveSnapshotExpiry (sn_expiresAt (in_sourceSnapshot input)) (in_expiresAt input)
                       (default (in_expiresAt input) (in_policyCapExpiresAt input)));
      let j := new_job input id expiry in
      store {| job := j; callerWaitCancelled := false; groundlaneDispatchCancelled := false;
             upstreamRequested := false; upstreamAck := None |};;
      mret {| cr_job := j; reused := false |}
  end.

Definition resolve (id owner : string) (now : option Z) : M S InternalDocumentJobState :=
  lift (assertBoundedId id "jobId" MAX_DOCUMENT_HASH_CHARS);;
  lift (assertBoundedId owner "ownerId" MAX_DOCUMENT_OWNER_CHARS);;
  found ← gets (store_get id);
  match found with
  | None => throw (executionRuntimeError ("Unknown document job " +:+ quoted (slice_to 32 id)))
  | Some t =>
      lift (throw_if (negb (bool_decide (ownerId (job t) = owner))) owner_mismatch);;
      lift (throw_if (date_leb (getTime (expiresAt (job t))) now) job_expired);;
      mret t
  end.

Definition assertNonTerminal (t : InternalDocumentJobState) : result unit :=
  throw_if (DOC_TERMINAL_STATUSES (job_status (job t)))
    (executionRuntimeError ("Cannot transition from terminal status " +:+ quoted (status_name (job_status (job t))))).

Definition toCancelOutcome (t : InternalDocumentJobState) : DocumentCancelOutcome :=
  {| co_job := job t; co_callerWaitCancelled := callerWaitCancelled t;
     co_groundlaneDispatchCancelled := groundlaneDispatchCancelled t; co_upstreamRequested := upstreamRequested t;
     upstreamCancelled := negb (bool_decide (upstreamAck t = None)); providerAck := upstreamAck t |}.

Definition poll (id owner : string) (now : option Z) : M S AsyncDocumentJob :=
  t ← resolve id owner now; mret (job t).

Definition thrown_text (e : thrown) : string := match e with TError m => m | _ => "Invalid status transition" end.

Definition transition (id owner : string) (to : AsyncDocumentJobStatus) (now : option Z) : M S AsyncDocumentJob :=
  t ← resolve id owner now;
  lift (match validateDocumentJobStatusTransition (job_status (job t)) to with
        | Ok _ => Ok tt
        | Throw e => Throw (executionRuntimeError (thrown_text e))
        end);;
  let next := t <| job := (job t) <| job_status := to |> |> in
  store next;;
  mret (job next).

Definition revokeSource (id owner : string) (now : option Z) : M S AsyncDocumentJob :=
  t ← resolve id owner now;
  let revoked := revokeSnapshot (job t) in
  store (t <| job := revoked |>);;
  mret revoked.

Definition cancelCallerWait (id owner : string) (now : option Z) : M S DocumentCancelOutcome :=
  t ← resolve id owner now;
  lift (assertNonTerminal t);;
  let next := t <| callerWaitCancelled := true |> in
  store next;;
  mret (toCancelOutcome next).

(** The job, cancelled if that is a transition it may make. *)
Definition cancelled_job (j : AsyncDocumentJob) : AsyncDocumentJob :=
  match validateDocumentJobStatusTransition (job_status j) cancelled with
  | Ok _ => j <| job_status := cancelled |>
  | Throw _ => j
  end.

Definition cancelGroundlaneDispatch (id owner : string) (now : option Z) : M S DocumentCancelOutcome :=
  t ← resolve id owner now;
  lift (assertNonTerminal t);;
  let next := t <| job := cancelled_job (job t) |> <| groundlaneDispatchCancelled := true |> in
  store next;;
  mret (toCancelOutcome next).

Definition requestUpstreamCancel (id owner : string) (now : option Z) (ack : option DocumentProviderCancelAck)
    : M S DocumentCancelOutcome :=
  t ← resolve id owner now;
  lift (assertNonTerminal t);;
  match ack with
  | None =>
      let next := t <| upstreamRequested := true |> in
      store next;;
      mret (toCancelOutcome next)
  | Some a =>
      lift (throw_if (negb (isInteger (providerResponseCode a)) || falsy (acknowledgedAt a))
        (executionRuntimeError "provider acknowledgment must carry response code and timestamp"));;
      let next := t <| job := cancelled_job (job t) |> <| upstreamRequested := true |> <| upstreamAck := Some a |> in
      store next;;
      let outcome := toCancelOutcome next in
      lift (throw_if (upstreamCancelled outcome && bool_decide (providerAck outcome = None))
        (executionRuntimeError "upstreamCancelled requires provider acknowledgment"));;
      mret outcome
  end.

Definition resumeAfterDisconnect := poll.
End manager.

Definition checkRetryBudget `{!NumberText} (totalBudgetMs elapsedMs : number) : result number :=
  match computeRemainingBudget totalBudgetMs elapsedMs with
  | Ok remaining => Ok remaining
  | Throw e => Throw (executionRuntimeError (match e with TError m => m | _ => "Budget exhausted" end))
  end.

Definition checkDocumentDeadline (elapsedMs deadlineMs : number) (label : string) : result unit :=
  throw_if (negb (isFinite deadlineMs) || num_leb deadlineMs (int 0))
    (executionRuntimeError ("Deadline " +:+ quoted label +:+ " must be positive"));;
  throw_if (num_ltb deadlineMs elapsedMs)
    (gerror DEADLINE_EXCEEDED "document-execution" ("Document deadline " +:+ quoted label +:+ " exceeded") false).

(** ** The in-memory store *)

Lemma map_set_length {A} k (v : A) m :
  Z.of_nat (length (map_set k v m)) = (Z.of_nat (length m) + match map_get k m with Some _ => 0 | None => 1 end)%Z.
Proof.
  induction m as [|[k' v'] m IH]; cbn [map_set map_get length]; [done|].
  destruct (decide (k = k')); cbn [length]; lia.
Qed.

#[export] Instance memory_store_laws : DocumentJobStoreLaws InMemoryDocumentJobStore.
Proof.
  split; cbn; intros.
  - rewrite map_get_set. by repeat case_decide; case_bool_decide.
  - apply map_set_length.
Qed.

(** ** What one call may write *)

(** What a job is about, which is fixed. *)
Definition job_identity (j : AsyncDocumentJob) :=
  (jobId j, ownerId j, credentialBinding j, billingProvenance j, resultRef j, createdAt j, expiresAt j,
   (sn_contentHash (sourceSnapshot j), capturedAt (sourceSnapshot j), sn_expiresAt (sourceSnapshot j))).

Definition is_final (t : InternalDocumentJobState) : bool := DOC_TERMINAL_STATUSES (job_status (job t)).

(** A job that was cancelled here or acknowledged upstream is over. *)
Record state_ok (id : string) (t : InternalDocumentJobState) : Prop := {
  ok_id : state_id t = id;
  ok_ack : upstreamAck t ≠ None → is_final t = true ∧ upstreamRequested t = true;
  ok_dispatch : groundlaneDispatchCancelled t = true → is_final t = true
}.

Record state_evolves (t t' : InternalDocumentJobState) : Prop := {
  evolved_identity : job_identity (job t') = job_identity (job t);
  evolved_status : job_status (job t') = job_status (job t) ∨
    is_final t = false ∧ (DOC_STATUS_ORDER (job_status (job t)) < DOC_STATUS_ORDER (job_status (job t')))%Z;
  evolved_revoked : revoked (sourceSnapshot (job t)) = true → revoked (sourceSnapshot (job t')) = true;
  evolved_wait : callerWaitCancelled t = true → callerWaitCancelled t' = true;
  evolved_dispatch : groundlaneDispatchCancelled t = true → groundlaneDispatchCancelled t' = true;
  evolved_requested : upstreamRequested t = true → upstreamRequested t' = true;
  evolved_ack : upstreamAck t ≠ None → upstreamAck t' = upstreamAck t
}.

Lemma state_evolves_refl t : state_evolves t t.
Proof. split; try done. by left. Qed.

Lemma state_evolves_trans t1 t2 t3 : state_evolves t1 t2 → state_evolves t2 t3 → state_evolves t1 t3.
Proof.
  intros [I1 S1 R1 W1 D1 Q1 A1] [I2 S2 R2 W2 D2 Q2 A2]. split; [congruence| |auto..|].
  - destruct S1 as [E1|[F1 L1]], S2 as [E2|[F2 L2]].
    + left. congruence.
    + right. unfold is_final in *. rewrite E1 in *. done.
    + right. by rewrite E2.
    + right. split; [done|lia].
  - intros Ha. rewrite A2, A1; [done|done|]. by rewrite A1.
Qed.

Section steps.
Context {S : Type} `{!Sha256Api} `{!NumberText} `{!DocumentJobStorePort S} `{!DocumentJobStoreLaws S} (maxJobs : Z).

(** At most one state is written: a later one of a job, or one of a new job
    when there is room. *)
Inductive steps_to (s : S) : S → Prop :=
  | step_none : steps_to s s
  | step_change id t0 t :
      store_get id s = Some t0 → state_id t = state_id t0 →
      (state_ok id t0 → state_ok id t ∧ state_evolves t0 t) → steps_to s (store_set t s)
  | step_new t :
      store_get (state_id t) s = None → state_ok (state_id t) t → (store_size s < maxJobs)%Z →
      steps_to s (store_set t s).

Definition stepping {A} (c : M S A) : Prop := ∀ s, steps_to s (c s).2.

Lemma execution_wp_resolve {A} id owner now (f : InternalDocumentJobState → M S A) Q s :
  (∀ t, store_get id s = Some t → ownerId (job t) = owner →
    date_leb (getTime (expiresAt (job t))) now = false → wp (f t) Q s) →
  (∀ e, Q (Throw e) s) → wp (resolve id owner now ≫= f) Q s.
Proof.
  intros Hf He. unfold resolve, wp, mbind, M_bind, lift, gets, throw.
  destruct (assertBoundedId id _ _); [|by apply He]. destruct (assertBoundedId owner _ _); [|by apply He].
  destruct (store_get id s) as [t|] eqn:Ht; [|by apply He].
  case_bool_decide as Ho; [|by apply He]. cbn [negb throw_if].
  destruct (date_leb _ now) eqn:Hd; [by apply He|]. by apply (Hf t).
Qed.

Lemma resolve_steps {A} id owner now (f : InternalDocumentJobState → M S A) s :
  (∀ t, store_get id s = Some t → steps_to s (f t s).2) → steps_to s ((resolve id owner now ≫= f) s).2.
Proof.
  intros Hf. eapply (execution_wp_resolve id owner now f (λ _ s', steps_to s s')); [|intros e; apply step_none].
  intros t Ht _ _. by apply Hf.
Qed.

Lemma transition_allowed from to :
  validateDocumentJobStatusTransition from to = Ok tt →
  DOC_TERMINAL_STATUSES from = false ∧ (DOC_STATUS_ORDER from < DOC_STATUS_ORDER to)%Z.
Proof. by destruct from, to; vm_compute; intros [=]. Qed.

Lemma cancelled_job_final j : DOC_TERMINAL_STATUSES (job_status j) = false → cancelled_job j = j <| job_status := cancelled |>.
Proof. unfold cancelled_job. by destruct (job_status j). Qed.

(** A write of a job that is not over. *)
Lemma step_open id t0 t s :
  store_get id s = Some t0 → is_final t0 = false → job_identity (job t) = job_identity (job t0) →
  (job_status (job t) = job_status (job t0) ∨
   (DOC_STATUS_ORDER (job_status (job t0)) < DOC_STATUS_ORDER (job_status (job t)))%Z) →
  (callerWaitCancelled t0 = true → callerWaitCancelled t = true) →
  (upstreamRequested t0 = true → upstreamRequested t = true) →
  (upstreamAck t ≠ None → upstreamAck t0 ≠ None ∨ is_final t = true ∧ upstreamRequested t = true) →
  (revoked (sourceSnapshot (job t0)) = true → revoked (sourceSnapshot (job t)) = true) →
  (groundlaneDispatchCancelled t = true → groundlaneDispatchCancelled t0 = true ∨ is_final t = true) →
  steps_to s (store_set t s).
Proof.
  intros Hget Hopen Hid Hst Hw Hq Ha Hr Hd. apply (step_change s id t0); [done|by injection Hid|].
  intros [Hi Hack Hdis].
  assert (upstreamAck t0 = None) as Hnone.
  { destruct (upstreamAck t0) eqn:He; [|done]. destruct Hack as [Hf _]; [done|congruence]. }
  assert (groundlaneDispatchCancelled t0 = false) as Hnd by (apply not_true_is_false; intros Hx%Hdis; congruence).
  split; split.
  - rewrite <- Hi. unfold state_id. by injection Hid.
  - intros [Hx|Hx]%Ha; [by rewrite Hnone in Hx|done].
  - intros [Hx|Hx]%Hd; [congruence|done].
  - done.
  - destruct Hst as [Hst|Hst]; [by left|by right].
  - done.
  - done.
  - congruence.
  - done.
  - by rewrite Hnone.
Qed.
End steps.

Section commands.
Context {S : Type} `{!Sha256Api} `{!NumberText} `{!DocumentJobStorePort S} `{!DocumentJobStoreLaws S} (maxJobs : Z).

Lemma create_steps input s : steps_to maxJobs s (create maxJobs input s).2.
Proof.
  change (wp (create maxJobs input) (λ _ s', steps_to maxJobs s s') s). unfold create.
  repeat (apply wp_lift_bind; [intros [] _|intros e _; apply step_none]). cbv zeta. apply wp_gets.
  destruct (store_get _ s) as [t|] eqn:Ht.
  - apply wp_lift_bind; [intros [] _|intros e _; apply step_none]. apply wp_ret, step_none.
  - apply wp_gets. apply wp_lift_bind; [intros [] Hroom%throw_if_Ok|intros e _; apply step_none]. reflect.
    do 2 (apply wp_lift_bind; [intros [] _|intros e _; apply step_none]).
    apply wp_lift_bind; [intros expiry _|intros e _; apply step_none]. cbv zeta.
    apply wp_update, wp_ret. apply step_new; [exact Ht| |lia]. by split.
Qed.

Lemma transition_steps id owner to now s : steps_to maxJobs s (transition id owner to now s).2.
Proof.
  apply resolve_steps. intros t Ht. unfold mbind, M_bind, lift. destruct (validateDocumentJobStatusTransition _ to) as [[]|] eqn:Hv;
    [|apply step_none]. apply transition_allowed in Hv as [Hopen Hlt]. cbn.
  eapply step_open; [exact Ht|exact Hopen|by destruct t as [[]]|by right|..]; cbn; auto; try done.
Qed.

Lemma revoke_steps id owner now s : steps_to maxJobs s (revokeSource id owner now s).2.
Proof.
  apply resolve_steps. intros t Ht. cbn. apply (step_change _ _ id t); [done|by destruct t as [[]]|].
  intros [Hi Ha Hd]. unfold revokeSnapshot, is_final in *. destruct (DOC_TERMINAL_STATUSES _) eqn:Hf.
  - split; split; cbn; unfold is_final; cbn; rewrite ?Hf; auto.
  - assert (upstreamAck t = None) as Hn by (destruct (upstreamAck t); [by destruct Ha|done]).
    split; split; cbn; unfold is_final; cbn; auto; try done.
    right. split; [done|]. by destruct (job_status (job t)).
Qed.

Lemma wait_steps id owner now s : steps_to maxJobs s (cancelCallerWait id owner now s).2.
Proof.
  apply resolve_steps. intros t Ht. unfold mbind, M_bind, lift, assertNonTerminal.
  destruct (DOC_TERMINAL_STATUSES _) eqn:Hf; [apply step_none|]. cbn.
  eapply step_open; [exact Ht|exact Hf|done|by left|..]; cbn; auto.
Qed.

Lemma dispatch_steps id owner now s : steps_to maxJobs s (cancelGroundlaneDispatch id owner now s).2.
Proof.
  apply resolve_steps. intros t Ht. unfold mbind, M_bind, lift, assertNonTerminal.
  destruct (DOC_TERMINAL_STATUSES _) eqn:Hf; [apply step_none|]. cbn. rewrite cancelled_job_final by done.
  eapply step_open; [exact Ht|exact Hf|by destruct t as [[]]|..]; cbn; auto.
  right. by destruct (job_status (job t)).
Qed.

Lemma upstream_steps id owner now ack s : steps_to maxJobs s (requestUpstreamCancel id owner now ack s).2.
Proof.
  apply resolve_steps. intros t Ht. unfold mbind, M_bind, lift, assertNonTerminal.
  destruct (DOC_TERMINAL_STATUSES _) eqn:Hf; [apply step_none|]. destruct ack as [a|]; cbn [throw_if].
  - destruct (_ || _); [apply step_none|]. cbn. rewrite cancelled_job_final by done.
    eapply step_open; [exact Ht|exact Hf|by destruct t as [[]]|..]; cbn; auto.
    right. by destruct (job_status (job t)).
  - cbn. eapply step_open; [exact Ht|exact Hf|done|by left|..]; cbn; auto.
Qed.
End commands.

(** ** Sequences of calls *)

Inductive execution_command :=
  | XCreate (input : CreateDocumentJobInput)
  | XPoll (id owner : string) (now : option Z)
  | XTransition (id owner : string) (to : AsyncDocumentJobStatus) (now : option Z)
  | XRevoke (id owner : string) (now : option Z)
  | XWait (id owner : string) (now : option Z)
  | XDispatch (id owner : string) (now : option Z)
  | XUpstream (id owner : string) (now : option Z) (ack : option DocumentProviderCancelAck).

(** The job, the caller and the time of a call on an existing job. *)
Definition addressed (c : execution_command) : option (string * string * option Z) :=
  match c with
  | XCreate _ => None
  | XPoll id owner now | XTransition id owner _ now | XRevoke id owner now | XWait id owner now
  | XDispatch id owner now | XUpstream id owner now _ => Some (id, owner, now)
  end.

Section claims.
Context {S : Type} `{!Sha256Api} `{!NumberText} `{!DocumentJobStorePort S} `{!DocumentJobStoreLaws S} (maxJobs : Z).

Definition run_execution_command (c : execution_command) : M S unit :=
  match c with
  | XCreate input => create maxJobs input;; mret tt
  | XPoll id owner now => poll id owner now;; mret tt
  | XTransition id owner to now => transition id owner to now;; mret tt
  | XRevoke id owner now => revokeSource id owner now;; mret tt
  | XWait id owner now => cancelCallerWait id owner now;; mret tt
  | XDispatch id owner now => cancelGroundlaneDispatch id owner now;; mret tt
  | XUpstream id owner now ack => requestUpstreamCancel id owner now ack;; mret tt
  end.

(** The states after the calls, each of which may throw. *)
Definition after_commands (cs : list execution_command) (s : S) : S :=
  foldl (λ s c, (run_execution_command c s).2) s cs.

Lemma then_done {A} (c : M S A) s : ((c;; mret tt) s).2 = (c s).2.
Proof. unfold mbind, M_bind. by destruct (c s) as [[] ?]. Qed.

Lemma command_steps c s : steps_to maxJobs s (run_execution_command c s).2.
Proof.
  destruct c; cbn [run_execution_command]; rewrite then_done; auto using create_steps, transition_steps,
    revoke_steps, wait_steps, dispatch_steps, upstream_steps.
  apply resolve_steps. intros t _. apply step_none.
Qed.

Definition store_ok (s : S) : Prop := ∀ id t, store_get id s = Some t → state_ok id t.

(** What any later store says of what [s] says. *)
Definition store_evolves (s s' : S) : Prop :=
  ∀ id t, store_get id s = Some t → ∃ t', store_get id s' = Some t' ∧ state_evolves t t'.

Lemma step_keeps s s' :
  steps_to maxJobs s s' → store_ok s →
  store_ok s' ∧ store_evolves s s' ∧ (store_size s ≤ maxJobs → store_size s' ≤ maxJobs)%Z.
Proof.
  intros Hstep Hok. destruct Hstep as [|id t0 t Hget Hid Hev|t Hget Hnew Hroom].
  - split; [done|]. split; [|done]. intros id t Ht. exists t. split; [done|apply state_evolves_refl].
  - pose proof (ok_id _ _ (Hok _ _ Hget)) as Hid0. destruct (Hev (Hok _ _ Hget)) as [Hok' Hevol].
    assert (state_id t = id) as Ht by congruence. split; [|split].
    + intros k t1. rewrite store_get_set. case_bool_decide as Hk; [|apply Hok]. intros [= <-]. by rewrite Hk, Ht.
    + intros k t1 Hk. rewrite store_get_set. case_bool_decide as Hke.
      * exists t. split; [done|]. by replace t1 with t0 by congruence.
      * exists t1. split; [done|apply state_evolves_refl].
    + rewrite store_size_set, Ht, Hget. lia.
  - split; [|split].
    + intros k t1. rewrite store_get_set. case_bool_decide as Hk; [|apply Hok]. intros [= <-]. by rewrite Hk.
    + intros k t1 Hk. rewrite store_get_set. case_bool_decide as Hke; [congruence|].
      exists t1. split; [done|apply state_evolves_refl].
    + rewrite store_size_set, Hget. lia.
Qed.

Lemma commands_keep cs s :
  store_ok s → store_ok (after_commands cs s) ∧ store_evolves s (after_commands cs s) ∧
  (store_size s ≤ maxJobs → store_size (after_commands cs s) ≤ maxJobs)%Z.
Proof.
  unfold after_commands. revert s. induction cs as [|c cs IH]; intros s Hok; cbn [foldl].
  - split; [done|]. split; [|done]. intros id t Ht. exists t. split; [done|apply state_evolves_refl].
  - destruct (step_keeps _ _ (command_steps c s) Hok) as (Hok1 & Hev1 & Hsz1). destruct (IH _ Hok1) as (Hok2 & Hev2 & Hsz2).
    split; [done|]. split; [|auto]. intros id t (t1 & Ht1 & He1)%Hev1. destruct (Hev2 _ _ Ht1) as (t2 & Ht2 & He2).
    exists t2. split; [done|]. by eapply state_evolves_trans.
Qed.

(** C21: Whatever calls are made of the manager, in whatever order and by
    whatever callers, every job stays; what it is about is fixed; its status
    only moves on, and not from a final one; revocations, cancellations and
    acknowledgments are not taken back; a job cancelled here or acknowledged
    upstream is over; and the store does not outgrow its limit. *)
Theorem execution_jobs_only_move_forward cs s :
  store_ok s → (store_size s ≤ maxJobs)%Z →
  let s' := after_commands cs s in
  store_ok s' ∧ store_evolves s s' ∧ (store_size s' ≤ maxJobs)%Z.
Proof. intros Hok Hsz s'. destruct (commands_keep cs s Hok) as (? & ? & ?). auto. Qed.

(** A call on a job of another owner, or on a job that has expired, is
    refused and changes nothing, whichever call it is. *)
Theorem execution_job_isolation c id owner now t s :
  addressed c = Some (id, owner, now) → store_get id s = Some t →
  ownerId (job t) ≠ owner ∨ date_leb (getTime (expiresAt (job t))) now = true →
  rejected (run_execution_command c) s.
Proof.
  intros Hc Ht Hbad.
  assert (Hres : ∀ A (f : InternalDocumentJobState → M S A), rejected (resolve id owner now ≫= f) s).
  { intros A f. apply wp_rejected, execution_wp_resolve; [|intros e; by split; [exists e|]].
    intros t' Ht' Ho Hd. replace t' with t in * by congruence. destruct Hbad; congruence. }
  destruct c; cbn in Hc; [done|..]; injection Hc as -> -> ->; cbn [run_execution_command]; apply rejected_bind, Hres.
Qed.

Lemma execution_resolve_run id owner now s t s1 : resolve id owner now s = (Ok t, s1) → s1 = s ∧ store_get id s = Some t.
Proof.
  unfold resolve, mbind, M_bind, lift, gets, throw.
  destruct (assertBoundedId id _ _); [|done]. destruct (assertBoundedId owner _ _); [|done].
  destruct (store_get id s) as [t'|] eqn:Ht; [|done]. destruct (throw_if _ owner_mismatch); [|done].
  destruct (throw_if _ job_expired); [|done]. by intros [= -> ->].
Qed.

(** An upstream cancellation is reported exactly when the provider has
    acknowledged it: without an acknowledgment only the request is recorded
    and the job goes on as it was; with one the job is cancelled. *)
Theorem upstream_cancel_needs_ack id owner now ack s o s' :
  store_ok s → requestUpstreamCancel id owner now ack s = (Ok o, s') →
  ∃ t, store_get id s = Some t ∧ is_final t = false ∧ providerAck o = ack ∧
    upstreamCancelled o = bool_decide (ack ≠ None) ∧ co_upstreamRequested o = true ∧
    job_status (co_job o) = match ack with Some _ => cancelled | None => job_status (job t) end ∧
    ∃ t', store_get id s' = Some t' ∧ toCancelOutcome t' = o.
Proof.
  intros Hok Hrun. unfold requestUpstreamCancel in Hrun.
  apply M_bind_Ok in Hrun as (t & s1 & [-> Ht]%execution_resolve_run & Hrun). pose proof (ok_id _ _ (Hok _ _ Ht)) as Hid. pose proof (ok_ack _ _ (Hok _ _ Ht)) as Hack.
  unfold assertNonTerminal in Hrun. rewrite lift_bind in Hrun. destruct (DOC_TERMINAL_STATUSES _) eqn:Hf; [done|].
  cbn [throw_if] in Hrun. assert (upstreamAck t = None) as Hn.
  { destruct (upstreamAck t); [|done]. destruct Hack as [Hx _]; [done|]. unfold is_final in Hx. congruence. }
  exists t. split; [done|]. split; [done|]. destruct ack as [a|].
  - rewrite lift_bind in Hrun. destruct (_ || _); [done|]. cbn in Hrun. injection Hrun as <- <-. cbn.
    rewrite cancelled_job_final by done. split_and!; try done. eexists. split; [|done].
    rewrite store_get_set, bool_decide_true; [done|by rewrite <- Hid].
  - cbn in Hrun. injection Hrun as <- <-. cbn. rewrite Hn. split_and!; try done. eexists. split; [|done].
    rewrite store_get_set, bool_decide_true; [done|by rewrite <- Hid].
Qed.

Lemma gets_bind {A B} (f : S → A) (g : A → M S B) s : (gets f ≫= g) s = g (f s) s.
Proof. done. Qed.

(** A creation that succeeds, by what it finds. *)
Lemma create_run input s r s1 :
  create maxJobs input s = (Ok r, s1) →
  let id := computeIdempotentJobId (in_ownerId input) (in_contentHash input) (in_engine input) in
  (∃ t, store_get id s = Some t ∧ s1 = s ∧ r = {| cr_job := job t; reused := true |} ∧ ownerId (job t) = in_ownerId input) ∨
  (store_get id s = None ∧ reused r = false ∧ jobId (cr_job r) = id ∧ ownerId (cr_job r) = in_ownerId input ∧
   ∃ t, store_get id s1 = Some t ∧ job t = cr_job r).
Proof.
  unfold create. do 3 (rewrite lift_bind; destruct (assertBoundedId _ _ _) as [[]|]; [|done]).
  rewrite lift_bind. destruct (throw_if _ _) as [[]|]; [|done]. cbv zeta. rewrite gets_bind.
  destruct (store_get _ s) as [t|] eqn:Ht.
  - rewrite lift_bind. case_bool_decide as Ho; cbn; [|done]. intros [= <- <-]. left. by exists t.
  - rewrite gets_bind. do 3 (rewrite lift_bind; destruct (throw_if _ _); [|done]).
    rewrite lift_bind. destruct (resolveSnapshotExpiry _ _ _) as [expiry|]; [|done]. cbn. intros [= <- <-]. right.
    split_and!; try done. eexists. split; [by rewrite store_get_set, bool_decide_true|done].
Qed.

(** Creation is idempotent: once a job was created for an owner, a
    content and an engine, and whatever is called in between, a request for
    the same three that succeeds is given that job, says that it reused it,
    and changes nothing. *)
Theorem execution_create_is_idempotent cs input input' s r s1 r' s3 :
  store_ok s → create maxJobs input s = (Ok r, s1) →
  (in_ownerId input', in_contentHash input', in_engine input') = (in_ownerId input, in_contentHash input, in_engine input) →
  create maxJobs input' (after_commands cs s1) = (Ok r', s3) →
  reused r' = true ∧ s3 = after_commands cs s1 ∧ job_identity (cr_job r') = job_identity (cr_job r).
Proof.
  intros Hok Hrun [= Ho Hh He] Hrun'.
  assert (Hok1 : store_ok s1).
  { pose proof (create_steps maxJobs input s) as Hst. rewrite Hrun in Hst. by apply (step_keeps _ _ Hst). }
  destruct (commands_keep cs s1 Hok1) as (_ & Hev & _).
  assert (Hthere : ∃ t, store_get (computeIdempotentJobId (in_ownerId input) (in_contentHash input) (in_engine input)) s1
    = Some t ∧ job t = cr_job r).
  { destruct (create_run _ _ _ _ Hrun) as [(t & Ht & -> & -> & _)|(_ & _ & _ & _ & t & Ht & Hj)]; by exists t. }
  destruct Hthere as (t & Ht & Hj). destruct (Hev _ _ Ht) as (t2 & Ht2 & Hevol).
  destruct (create_run _ _ _ _ Hrun') as [(t3 & Ht3 & -> & -> & _)|(Hnone & _)]; rewrite Ho, Hh, He in *; [|congruence].
  split; [done|]. split; [done|]. cbn. rewrite <- Hj. replace t3 with t2 by congruence. by destruct Hevol.
Qed.
End claims.

(** ** Synchronous execution *)

Section sync.
Context `{!NumberText}.
Implicit Types (request : ExecutionRequest) (limits : ExecutionLimits).

Definition bounded_id (s : string) (max : Z) : Prop := (0 < str_length s ≤ max)%Z.

Lemma assertBoundedId_Ok s field max : assertBoundedId s field max = Ok tt ↔ bounded_id s max.
Proof.
  unfold assertBoundedId, bounded_id. rewrite throw_if_Ok, orb_false_iff, Z.eqb_neq, Z.ltb_ge.
  assert (0 ≤ str_length s)%Z by (unfold str_length; lia). lia.
Qed.

(** A request runs synchronously exactly when it asks to, its bytes, pages
    and time are not above the limits, its engine is allowed and is not one
    of those that never are, and its ids are bounded; the result is on the
    synchronous track. *)
Theorem sync_execution_iff request limits context :
  (∃ r, executeSync request limits context = Ok r ∧ track r = track_sync) ↔
  req_mode request = mode_sync ∧
  num_ltb (lim_maxBytes limits) (inputBytes request) = false ∧
  num_ltb (lim_maxPages limits) (inputPages request) = false ∧
  num_ltb (lim_maxTimeMs limits) (estimatedTimeMs request) = false ∧
  req_engine request ∈ allowedEngines limits ∧ req_engine request ∉ ASYNC_ONLY_ENGINES ∧
  bounded_id (cx_contentHash context) MAX_DOCUMENT_HASH_CHARS ∧
  bounded_id (cx_sourceId context) MAX_DOCUMENT_OWNER_CHARS.
Proof.
  unfold executeSync, assertSyncExecutable, validateSyncExecutionGuard, requiresExplicitAsyncJob, engine_allowed.
  rewrite <- (assertBoundedId_Ok (cx_contentHash context) "contentHash"), <- (assertBoundedId_Ok (cx_sourceId context) "sourceId").
  destruct (req_mode request); cbn.
  2: { split; [by intros (r & [=] & _)|by intros ([=] & _)]. }
  destruct (num_ltb (lim_maxBytes limits) _); cbn; [by split; [intros (r & [=] & _)|intros (_ & [=] & _)]|].
  destruct (num_ltb (lim_maxPages limits) _); cbn; [by split; [intros (r & [=] & _)|intros (_ & _ & [=] & _)]|].
  destruct (num_ltb (lim_maxTimeMs limits) _); cbn; [by split; [intros (r & [=] & _)|intros (_ & _ & _ & [=] & _)]|].
  case_bool_decide as Ha; cbn; [|by split; [intros (r & [=] & _)|intros (_ & _ & _ & _ & ? & _)]].
  case_bool_decide as Hb; cbn; [by split; [intros (r & [=] & _)|intros (_ & _ & _ & _ & _ & ? & _)]|].
  destruct (assertBoundedId (cx_contentHash context) _ _) as [[]|e1]; cbn;
    [|by split; [intros (r & [=] & _)|intros (_ & _ & _ & _ & _ & _ & [=] & _)]].
  destruct (assertBoundedId (cx_sourceId context) _ _) as [[]|e2]; cbn;
    [|by split; [intros (r & [=] & _)|intros (_ & _ & _ & _ & _ & _ & _ & [=])]].
  split; [done|]. intros _. eexists. by split.
Qed.
End sync.

(** ** A concrete store *)

Module ExecutionDemo.
#[export] Instance digest : Sha256Api := zero_digest.
#[export] Instance numbers : NumberText := {| fraction_text _ := "0.5"%string |}.

Definition limits : ExecutionLimits :=
  {| lim_maxBytes := int 1000; lim_maxPages := int 10; lim_maxTimeMs := int 5000; lim_maxMemoryMb := int 64;
     allowedEngines := ["native"%string] |}.
Definition request (memory : Z) : ExecutionRequest :=
  {| inputBytes := int 900; inputPages := int 2; estimatedTimeMs := int 100; estimatedMemoryMb := int memory;
     req_engine := "native"; req_mode := mode_sync |}.
Definition context : SyncExecutionContext :=
  {| cx_contentHash := "hash"; cx_sourceId := "source"; cx_projections := None |}.

Definition input (hash engine : string) (rev : bool) : CreateDocumentJobInput :=
  {| in_ownerId := "owner"; in_contentHash := hash; in_engine := engine;
     in_credentialBinding := {| credentialId := "cred"; boundAt := "now" |};
     in_sourceSnapshot := {| sn_contentHash := hash; capturedAt := "now"; sn_expiresAt := IsoAt 9000; revoked := rev |};
     in_createdAt := "now"; in_expiresAt := IsoAt 8000; in_policyCapExpiresAt := None; in_now := Some 1000%Z |}.

Definition run (cs : list execution_command) : InMemoryDocumentJobStore := after_commands 2 cs [].
Definition id : string := computeIdempotentJobId "owner" "h" "e".
Definition ack : DocumentProviderCancelAck := {| providerResponseCode := int 200; acknowledgedAt := "now" |}.
Definition one : InMemoryDocumentJobStore := run [XCreate (input "h" "e" false)].

Lemma empty_ok : store_ok ([] : InMemoryDocumentJobStore).
Proof. done. Qed.

Lemma one_ok : store_ok one.
Proof. by apply (commands_keep 2 [XCreate (input "h" "e" false)] []). Qed.
Definition stored (s : InMemoryDocumentJobStore) : InternalDocumentJobState :=
  match store_get id s with
  | Some t => t
  | None => {| job := new_job (input "" "" false) "" (IsoAt 0); callerWaitCancelled := false;
               groundlaneDispatchCancelled := false; upstreamRequested := false; upstreamAck := None |}
  end.
End ExecutionDemo.

#[local] Existing Instances ExecutionDemo.digest ExecutionDemo.numbers.

(** A request above the memory limit is routed to the asynchronous track, but
    one that asks to run synchronously is not stopped by it. *)
Lemma memory_limit_is_not_guarded :
  selectExecutionTrack (ExecutionDemo.request 100) ExecutionDemo.limits = track_async ∧
  ∃ r, executeSync (ExecutionDemo.request 100) ExecutionDemo.limits ExecutionDemo.context = Ok r.
Proof. split; [vm_compute; reflexivity|]. eexists. vm_compute. reflexivity. Qed.

(** Two requests of one owner for different contents have one id when the
    separator is in the hash or the engine; the second is given the job of the
    first. *)
Lemma colliding_inputs_share_a_job :
  ∃ r s, create 2 (ExecutionDemo.input "h" "x:e" false) (ExecutionDemo.run [XCreate (ExecutionDemo.input "h:x" "e" false)]) =
    (Ok r, s) ∧ reused r = true ∧ sn_contentHash (sourceSnapshot (cr_job r)) = "h:x"%string ∧
  ∀ `{!Sha256Api}, computeIdempotentJobId "owner" "h:x" "e" = computeIdempotentJobId "owner" "h" "x:e".
Proof. do 2 eexists. split; [vm_compute; reflexivity|]. by split_and!. Qed.

(** A job is created for a snapshot that is already revoked. *)
Lemma revoked_snapshot_is_accepted :
  ∃ r s, create 2 (ExecutionDemo.input "h" "e" true) ([] : InMemoryDocumentJobStore) = (Ok r, s) ∧
    revoked (sourceSnapshot (cr_job r)) = true ∧ job_status (cr_job r) = created.
Proof. do 2 eexists. split; [vm_compute; reflexivity|]. by split. Qed.

Lemma execution_jobs_only_move_forward_witness :
  (store_size (ExecutionDemo.run [XCreate (ExecutionDemo.input "h" "e" false);
     XTransition ExecutionDemo.id "owner" running (Some 2000%Z); XDispatch ExecutionDemo.id "owner" (Some 3000%Z)]) ≤ 2)%Z.
Proof. by apply (execution_jobs_only_move_forward 2). Defined.

Lemma execution_job_isolation_witness :
  rejected (run_execution_command 2 (XRevoke ExecutionDemo.id "stranger" (Some 2000%Z))) ExecutionDemo.one.
Proof.
  apply (execution_job_isolation 2 (XRevoke ExecutionDemo.id "stranger" (Some 2000%Z)) ExecutionDemo.id "stranger"
    (Some 2000%Z) (ExecutionDemo.stored ExecutionDemo.one) ExecutionDemo.one);
    [reflexivity|vm_compute; reflexivity|left; vm_compute; congruence].
Defined.

Lemma upstream_cancel_needs_ack_witness :
  ∃ o s', requestUpstreamCancel ExecutionDemo.id "owner" (Some 2000%Z) (Some ExecutionDemo.ack) ExecutionDemo.one = (Ok o, s') ∧
    upstreamCancelled o = true ∧ job_status (co_job o) = cancelled.
Proof.
  destruct (requestUpstreamCancel ExecutionDemo.id "owner" (Some 2000%Z) (Some ExecutionDemo.ack) ExecutionDemo.one)
    as [[o|e] s'] eqn:Hrun; [|vm_compute in Hrun; discriminate Hrun].
  destruct (upstream_cancel_needs_ack ExecutionDemo.id "owner" (Some 2000%Z) (Some ExecutionDemo.ack) ExecutionDemo.one o s'
    ExecutionDemo.one_ok Hrun) as (t & _ & _ & _ & Hc & _ & Hs & _).
  exists o, s'. split; [reflexivity|]. by split.
Defined.

Lemma execution_create_is_idempotent_witness :
  ∃ r' s3, create 2 (ExecutionDemo.input "h" "e" true)
    (after_commands 2 [XRevoke ExecutionDemo.id "owner" (Some 2000%Z)] ExecutionDemo.one) = (Ok r', s3) ∧ reused r' = true.
Proof.
  destruct (create 2 (ExecutionDemo.input "h" "e" false) ([] : InMemoryDocumentJobStore)) as [[r|e] s1] eqn:Hrun;
    [|vm_compute in Hrun; discriminate Hrun].
  assert (Hone : ExecutionDemo.one = s1).
  { pose proof (then_done (create 2 (ExecutionDemo.input "h" "e" false)) ([] : InMemoryDocumentJobStore)) as Hthen.
    rewrite Hrun in Hthen. exact Hthen. }
  subst s1.
  destruct (create 2 (ExecutionDemo.input "h" "e" true)
    (after_commands 2 [XRevoke ExecutionDemo.id "owner" (Some 2000%Z)] ExecutionDemo.one)) as [[r'|e'] s3] eqn:Hrun';
    [|vm_compute in Hrun'; discriminate Hrun'].
  exists r', s3. split; [reflexivity|].
  exact (proj1 (execution_create_is_idempotent 2 [XRevoke ExecutionDemo.id "owner" (Some 2000%Z)]
    (ExecutionDemo.input "h" "e" false) (ExecutionDemo.input "h" "e" true) [] r ExecutionDemo.one r' s3
    ExecutionDemo.empty_ok Hrun eq_refl Hrun')).
Defined.
